(* ===== verification/_CoqProject ===== *)
-Q . S2P
Prelude.v
Bytes.v
SortedMap.v
LogRecord.v
Iterators.v
MemTable.v
Extern.v
Encryption.v
PrefixCompression.v
Block.v
BinarySearch.v
SstBuilder.v
SstReader.v
Wal.v
Postcard.v
Table.v
Store.v
VersionSet.v
Utf8.v
Text.v
Engine.v
EngineSpec.v
Compaction.v
CompactionSpec.v
Transaction.v
Background.v
Recovery.v
Migration.v
Durability.v
Kv.v
Blob.v
Postings.v
NoteIndex.v
NoteGraph.v
NoteParser.v
NoteSearch.v
Snapshot.v
BackupScheduler.v
EngineQueries.v
Sql.v
Config.v
TimeTravel.v
NoteEngine.v
NoteRules.v
Crdt.v
CircuitBreaker.v
RateLimiter.v
Limits.v
AccessControl.v
DataSync.v
DataTiering.v
Cdc.v
Webhooks.v
Paging.v
Keyspace.v
Auth.v
Api.v
ApiSpec.v
Middleware.v
NoteVersions.v
NoteApi.v
ApiTxn.v
BulkIo.v
Sync.v
Scrubber.v
ConnectionGuard.v
SchemaValidation.v
MultiModel.v
Instances.v
EngineInstances.v
CompactionInstances.v
SnapshotInstances.v
QueryInstances.v
MigrationInstances.v
NoteInstances.v
NoteEngineInstances.v
InfraInstances.v
ApiInstances.v
BulkInstances.v
ServerInstances.v
