(* ===== verification/Prelude.v ===== *)
(** * ApexStore: a verification development of the LSM storage engine

    ** The program

    ApexStore is a key-value store in the LSM style.  A write goes to the
    write-ahead log of its column family and then to a memtable; a full memtable
    is flushed to an immutable SSTable; reads look at the memtable, then at the
    tables from newest to oldest; compaction merges tables; a restart replays the
    logs and finds the tables again.  Around this core are transactions,
    snapshots, secondary indexes, a SQL front end, an HTTP interface with tokens,
    transactions and real-time synchronisation, and the guards of a server (quotas,
    rate limits, circuit breaker, access control); above it are stores of blobs and of
    linked notes.

    ** The files, and the code they model

    Foundations.
    - [Prelude] (this file): errors ([infra/error.rs]), the outcome monad, the
      automation and the generic lemmas; [Bytes], [SortedMap], [Utf8],
      [Text], [BinarySearch]: byte strings and their order, key-ordered read-outs
      of maps, [String::from_utf8]/[from_utf8_lossy], the functions on [str] the
      parsers use, the two binary searches of the standard library.
    - [Extern]: the third-party crates as classes of operations and documented
      laws; [Postcard] is the real wire format of [postcard], [Instances] has
      concrete instances of all the classes.

    Storage ([src/src/core], [src/src/storage]).
    - [LogRecord] ([core/log_record.rs]), [MemTable] ([core/memtable.rs]),
      [Iterators] ([core/iterators.rs], [storage/iterator.rs]; the class
      [StorageIterator] is the trait), [Encryption], [PrefixCompression], [Block],
      [SstBuilder] ([storage/builder.rs]), [SstReader] ([storage/reader.rs],
      [metadata.rs], [cache.rs]), [Wal] ([storage/wal.rs]).
    - [Table] ([core/table.rs]) states what it needs of an SSTable as the class
      [SstStore] with [SstStoreLaws]; [Store] is the instance made of builder and
      reader, so the theorems above this line do not look at bytes.
    - [Migration] ([storage/migration.rs]): rewriting a data directory under
      another encryption key.

    The engine ([src/src/core/engine]).
    - [VersionSet] ([version_set.rs]); [Engine] ([mod.rs]: [EngineCore] and the
      operations on it as state transformers [M]); [EngineSpec], its refinement
      of a finite map; [Compaction] and [CompactionSpec] ([compaction.rs],
      [compact_cf_core]); [Background], the three phases of a background
      compaction against other calls; [Transaction] ([transaction.rs]);
      [Recovery] ([recovery.rs], [new_generic]); [Durability]; [Snapshot]
      ([create_snapshot], [restore_snapshot], [reconcile_tables]) and
      [BackupScheduler] over it ([infra/backup_scheduler.rs]);
      [EngineQueries] ([search_contains], [value_search], [query_index],
      [stats], [close]).

    On top ([src/src/infra], [src/src/api], [src/src/notes]).
    - [Sql] ([infra/sql.rs]), [Config] ([infra/config.rs]), [TimeTravel]
      ([infra/time_travel.rs]), [Crdt] ([infra/crdt.rs]), [CircuitBreaker]
      ([infra/resilience], [infra/retry.rs]), [RateLimiter]
      ([api/rate_limiter.rs]), [Limits] ([infra/memory_limiter.rs],
      [quotas.rs], [query_budget.rs], [idempotency.rs]), [AccessControl]
      ([infra/access_control.rs]).
    - [Kv] is what the layers above ask of the engine: the calls [get_cf],
      [put_cf], [delete_cf] and [search_prefix] as the class [KvStore], its contract
      [KvLaws], and a small program logic ([reads], [triple]) for programs over it.
      The engine fulfils it ([engine_laws]), and so does a plain map.
    - Over [Kv]: [Blob] ([infra/blob_store.rs]); the notes, with [Postings] (lists
      of notes under keys), [NoteIndex] ([notes/index.rs]), [NoteGraph]
      ([notes/graph.rs]), [NoteParser] ([notes/parser.rs]), [NoteSearch]
      ([notes/search.rs]) and [NoteEngine] ([notes/mod.rs]), which composes them;
      [NoteVersions], the history each note keeps; [NoteRules]
      ([notes/template.rs], [notes/validate.rs]).
    - Beside the engine: [Cdc] (change events and their publishers,
      [infra/cdc.rs], [infra/events.rs]), [Webhooks] ([infra/webhook_triggers.rs]),
      [DataSync] ([infra/data_sync.rs]), [DataTiering]
      ([infra/models/data_tiering.rs]), [MultiModel]
      ([infra/models/multi_model.rs]), [SchemaValidation]
      ([infra/schema_validation.rs]), [BulkIo] ([infra/bulk_io.rs]) and [Scrubber]
      ([infra/health/scrubber.rs]), which reads tables as [SstReader] does.
    - The server ([src/src/api]): [Auth] ([auth/], tokens, their file and the
      middleware), [Keyspace] ([keyspace.rs], what clients see of the engine), [Api]
      (the key-value handlers of [mod.rs], from arguments to status and body) with its
      specification [ApiSpec], [ApiTxn] ([transactions.rs] and the transaction
      handlers), [Sync] ([sync.rs], over [Auth], [AccessControl], [Crdt] and the
      engine), [NoteApi] ([notes.rs], over [NoteEngine] and [NoteVersions]),
      [ConnectionGuard] ([connection_guard.rs]) and [Middleware]
      ([access_control.rs], [audit_middleware.rs], the layers of [mod.rs]).  [Paging] has the facts about
      reading a range in pages that [Keyspace] and [BulkIo] share.

    The files ending in [Instances] apply the theorems to concrete inputs and
    show, by evaluation, the behaviour a user of the code should know about.

    ** What the theorems show

    - The engine stands for a finite map per column family: [refines]
      ([EngineSpec]) relates memtable, range tombstones, tables, files and caches
      to it, and every history of operations answers as the map does.  Prefix
      searches page through exactly the matching keys and end.
    - Nothing but a write changes that map: not a flush, a compaction
      ([CompactionSpec]), a background plan that lost a race ([Background]), a
      reconciliation or a snapshot ([Snapshot]), nor a restart ([Durability]).
      A snapshot restored is the map at its creation, and a backup keeps the newest
      ones ([BackupScheduler]).  Each has side conditions,
      which are those under which the code has the property; where one fails, a
      history in an [Instances] file shows what happens.
    - A committed transaction is the overlay of its buffer; SQL statements are
      reads and writes of the map.
    - Below, round trips and crash safety: blocks, SSTables, encrypted payloads
      and log frames read back what was written; after a crash a log recovers the
      records whose frames are complete, and the sync interval bounds what is lost
      (for frames clear of the ends of the read buffer); metadata of any bytes is rejected or safe to read;
      the block cache is transparent; the merge of iterators gives the newest
      version of each key, in order.
    - Migration keeps what every table and log holds, or fails as a whole, but for
      a failure of the last sync, which is reported after the output is published.
    - Around the engine: the accounting of the memory limiter and the safety and
      recovery of the breaker over all interleavings of their atomic steps; the rate limiter
      and the access rules against reference definitions; convergence of the
      CRDTs; what configurations are accepted.
    - Beside it: every collector receives the changes in order, whatever other
      publishers do; a webhook delivery makes at most three requests; the resolved
      differences of two stores make them agree; accesses promote a key exactly at
      its threshold.
    - The server: through the handlers the engine is a map of client keys, whatever
      keys it reserves, with the documented pages of ranges where the code announces
      them ([ApiSpec]); refused requests have no effect; a request is let
      through exactly with a live token that has the permission, and tokens survive a
      restart ([Auth]); a commit over HTTP writes what the owner of the transaction
      staged, once, and open transactions are bounded ([ApiTxn]); synchronisation is
      last-writer-wins in the engine as in the map of timestamps ([Sync]); the
      connection guard counts the requests in flight over all interleavings.  An
      export of text entries ends, and its import gives them back ([BulkIo]); a scrub
      reports the blocks the reader refuses ([Scrubber]).
    - Above the engine: blobs are a map from names to contents; the parser finds
      the links and tags a note has; the two link indexes are inverse to each
      other; the graph around a note is what its links say; a search selects the
      notes that contain its terms; and through any history of notes contents,
      links, tags and search agree ([NoteEngine]); the note requests of the server
      behave as a notebook with versions ([NoteApi]).  These theorems are about runs
      in which the calls to the store succeed, and about paths, tags and terms that
      fit in its entries and within the limits of its scans.

    ** How the code is rendered

    - A function of type [Result] returns an [outcome]: [Ok], [Err] with the
      constructor of [LsmError] (texts are dropped), or [Panic] (out-of-range
      slices, failed [expect]s).  An operation that changes state returns the
      state also when it fails.
    - Unsigned integers are [Z] (or [N]) with the wrap-around of a release build
      written out where a computation can reach it; lengths of vectors in memory
      are exact.  Floating-point rates are rationals, with the other values of an
      [f64] a case of their own.
    - [SystemTime::now] is a stream of readings, one consumed per call, in
      program order; an [Instant] is a number of nanoseconds; random nonces are a
      stream.
    - A [HashMap], [DashMap] or directory is a [gmap]; where the code iterates
      over one without sorting, the model uses the order of the map that models
      it.
    - Failures of the operating system (a full disk, a failed [fsync]) are not
      modelled, those of the token file of [Auth] and of a migration ([Migration])
      apart; a missing file, a short read, corrupt content and a torn write are, and
      so is what a table build that fails or is dropped leaves on disk.
    - Calls run one after the other under the engine's lock.  Where the code
      gives up a lock or uses atomics in between (background compaction, circuit
      breaker, memory limiter), the steps between are explicit and the theorems
      quantify over their interleavings.

    ** Fuel

    Loops that are not structural take fuel, and theorems show it is enough: log
    recovery takes one more than the length of the file, each frame consuming
    at least one byte; block scans, merges, lossy UTF-8 conversion and the scanning
    loops of the parser take the length of what remains; the graph traversal takes
    one more than its bound on nodes; [put]/[delete] nest to depth two (an expiry entry is itself
    written by [put]); paging takes more than the number of keys, in searches, in the
    scans of [Keyspace] and in exports, where [export_starts_over] shows an export of the
    code that does not end;
    [flush_all_memtables] takes more than the number of memtables, and
    [flush_all_terminates] says when it ends (a memtable that holds only range
    tombstones makes the loop of the code run for ever).

    ** Not modelled

    Routing, parsing of requests, statistics, health and GraphQL endpoints, TLS,
    command line, terminal interface and binaries (adapters around the modelled
    interfaces); WebSocket sessions; replication and pub/sub (network and threads), and
    the events that the engine's writes publish, which [Cdc] has as a definition that the
    model of the writes does not call; metrics, telemetry, logging, chaos tests,
    watchdogs, WASM (third-party runtimes); backpressure,
    vector index and the ranking of search hits (floating-point arithmetic).  Unicode
    tables ([str::to_lowercase], [char::is_alphanumeric]) are parameters whose ASCII
    part is fixed. *)
From Stdlib Require Import ZArith Lia.
From stdpp Require Import base tactics numbers list gmap sorting strings.

(** ** Scopes, automation databases *)

Declare Scope outcome_scope.
Delimit Scope outcome_scope with outcome.
Open Scope Z_scope.

Create HintDb apex.
Create Rewrite HintDb apex.

(** ** Errors and outcomes ([src/src/infra/error.rs]) *)

(** The error kinds of [std::io::Error] the engine distinguishes. *)
Inductive IoErrorKind : Set :=
| UnexpectedEof
| OtherIo.

(** [LsmError]: the constructors of the enum; the text a constructor carries
    for a human reader is dropped, the kind of an I/O error is kept because
    [Table::load_for_recovery] branches on it. *)
Inductive LsmError : Set :=
| Io (kind : IoErrorKind)
| Codec
| JsonError
| Time
| InvalidSstableFormat
| CorruptedData
| DecompressionFailed
| LegacyEncryptionMigrationRequired
| EncryptionKeyRequired
| EncryptionAuthenticationFailed
| WalCorruption
| NotFound
| CompactionFailed
| LockPoisoned
| ConcurrentModification
| InvalidArgument
| InvalidBlockSize
| InvalidCacheSize
| InvalidIndexInterval
| InvalidBloomRate
| InvalidMemtableSize
| InvalidCompactionConfig
| ConfigValidation.

#[global] Instance IoErrorKind_eq_dec : EqDecision IoErrorKind.
Proof. solve_decision. Defined.
#[global] Instance LsmError_eq_dec : EqDecision LsmError.
Proof. solve_decision. Defined.

(** What a Rust function of type [Result<A>] does: it returns [Ok], returns
    [Err], or panics (an out-of-range slice, an [expect] on an error). *)
Inductive outcome (A : Type) : Type :=
| Ok (a : A)
| Err (e : LsmError)
| Panic.
Arguments Ok {_} _.
Arguments Err {_} _.
Arguments Panic {_}.

(** The [?] operator: sequencing that stops at the first error or panic. *)
Definition obind {A B} (m : outcome A) (k : A -> outcome B) : outcome B :=
  match m with
  | Ok a => k a
  | Err e => Err e
  | Panic => Panic
  end.

Notation "'let*' x ':=' c 'in' k" := (obind c (fun x => k))
  (at level 10, x pattern, c at level 100, k at level 200,
   format "'[v' 'let*'  x  ':='  c  'in' '/' k ']'") : outcome_scope.
Notation "c1 ';;;' c2" := (obind c1 (fun _ => c2))
  (at level 100, c2 at level 200, right associativity) : outcome_scope.
Open Scope outcome_scope.

(** [assert c e] is the guard [if !c { return Err(e) }]. *)
Definition assert (c : bool) (e : LsmError) : outcome unit :=
  if c then Ok tt else Err e.

(** [map_err] on an [Option]: [None] becomes the error. *)
Definition ok_or {A} (o : option A) (e : LsmError) : outcome A :=
  match o with Some a => Ok a | None => Err e end.

(** [expect]/[unwrap] and indexing: [None] is a panic. *)
Definition expect {A} (o : option A) : outcome A :=
  match o with Some a => Ok a | None => Panic end.

Definition is_ok {A} (m : outcome A) : bool :=
  match m with Ok _ => true | _ => false end.

Definition is_panic {A} (m : outcome A) : bool :=
  match m with Panic => true | _ => false end.

(** [Result::ok]. *)
Definition ok {A} (m : outcome A) : option A :=
  match m with Ok a => Some a | _ => None end.

(** A loop over a list that stops at the first error ([for ... { ...?; }]). *)
Fixpoint ofold {A S} (f : S -> A -> outcome S) (s : S) (l : list A) : outcome S :=
  match l with
  | [] => Ok s
  | x :: l => let* s' := f s x in ofold f s' l
  end.

(** [iter().map(f).collect::<Result<Vec<_>>>()]. *)
Fixpoint omapM {A B} (f : A -> outcome B) (l : list A) : outcome (list B) :=
  match l with
  | [] => Ok []
  | x :: l => let* y := f x in let* ys := omapM f l in Ok (y :: ys)
  end.

Lemma obind_Ok_inv {A B} (m : outcome A) (k : A -> outcome B) b :
  obind m k = Ok b -> exists a, m = Ok a /\ k a = Ok b.
Proof. destruct m; simpl; intros; simplify_eq; eauto. Qed.

Lemma ok_or_Ok {A} (o : option A) e a : ok_or o e = Ok a -> o = Some a.
Proof. destruct o; simpl; congruence. Qed.

Lemma obind_assoc {A B C} (m : outcome A) (k : A -> outcome B) (h : B -> outcome C) :
  obind (obind m k) h = obind m (fun a => obind (k a) h).
Proof. by destruct m. Qed.

Lemma ofold_app {A S} (f : S -> A -> outcome S) s l1 l2 :
  ofold f s (l1 ++ l2) = (let* s' := ofold f s l1 in ofold f s' l2).
Proof. revert s; induction l1 as [|x l1 IH]; intros s; simpl; [done|].
  destruct (f s x); simpl; auto. Qed.

(** An invariant kept by every step of an [ofold] holds of its result. *)
Lemma ofold_inv {A S} (I : S -> Prop) (f : S -> A -> outcome S) s l s' :
  I s ->
  (forall t x t', x ∈ l -> I t -> f t x = Ok t' -> I t') ->
  ofold f s l = Ok s' -> I s'.
Proof.
  revert s; induction l as [|x l IH]; intros s Hs Hstep; simpl.
  { by intros [= <-]. }
  intros (t & Hf & Ht)%obind_Ok_inv.
  eapply IH; [|intros; eapply Hstep; eauto; by right|exact Ht].
  eapply Hstep; eauto. by left.
Qed.

(** ** Tactics *)

(** [inv_ok]: break every [obind ... = Ok ...] of the context into its steps. *)
Ltac inv_ok :=
  repeat match goal with
  | H : obind _ _ = Ok _ |- _ =>
      let a := fresh "a" in
      let H1 := fresh H in
      apply obind_Ok_inv in H as (a & H1 & H)
  | H : Ok _ = Ok _ |- _ => injection H as H
  | H : Err _ = Ok _ |- _ => discriminate H
  | H : Panic = Ok _ |- _ => discriminate H
  | H : assert ?c _ = Ok _ |- _ => unfold assert in H; destruct c eqn:?; [|discriminate H]
  end.

(** [bool_lia]: turn boolean comparisons into propositions, then [lia]. *)
Ltac bool_prop :=
  repeat match goal with
  | H : andb _ _ = true |- _ => apply andb_true_iff in H as [? ?]
  | H : orb _ _ = false |- _ => apply orb_false_iff in H as [? ?]
  | H : negb _ = true |- _ => apply negb_true_iff in H
  | H : negb _ = false |- _ => apply negb_false_iff in H
  | H : (_ <? _) = true |- _ => apply Z.ltb_lt in H
  | H : (_ <? _) = false |- _ => apply Z.ltb_ge in H
  | H : (_ <=? _) = true |- _ => apply Z.leb_le in H
  | H : (_ <=? _) = false |- _ => apply Z.leb_gt in H
  | H : (_ =? _) = true |- _ => apply Z.eqb_eq in H
  | H : (_ =? _) = false |- _ => apply Z.eqb_neq in H
  end.
Ltac bool_lia := bool_prop; lia.

(** [case_cond]: case on the first boolean test of the goal, as propositions. *)
Ltac case_cond :=
  match goal with
  | |- context [if ?a <? ?b then _ else _] => destruct (Z.ltb_spec a b)
  | |- context [if ?a <=? ?b then _ else _] => destruct (Z.leb_spec a b)
  | |- context [if ?a =? ?b then _ else _] => destruct (Z.eqb_spec a b)
  end.

(** ** Machine integers *)

Definition u8_max : Z := 255.
Definition u16_max : Z := 65535.
Definition u32_max : Z := 4294967295.
Definition u64_max : Z := 18446744073709551615.
Definition u128_max : Z := 340282366920938463463374607431768211455.
(** 64-bit target. *)
Definition usize_max : Z := u64_max.

(** [x as u8], [x as u16], [x as u32], [x as u64]: truncation. *)
Definition as_u8 (x : Z) : Z := x mod 256.
Definition as_u16 (x : Z) : Z := x mod 65536.
Definition as_u32 (x : Z) : Z := x mod 4294967296.
Definition as_u64 (x : Z) : Z := x mod 18446744073709551616.

(** [saturating_add]/[saturating_sub] at the type whose maximum is [m]. *)
Definition saturating_add (m x y : Z) : Z := Z.min m (x + y).
Definition saturating_sub (x y : Z) : Z := Z.max 0 (x - y).

Lemma as_u16_small x : 0 <= x <= u16_max -> as_u16 x = x.
Proof. unfold as_u16, u16_max; intros; apply Z.mod_small; lia. Qed.
Lemma as_u32_small x : 0 <= x <= u32_max -> as_u32 x = x.
Proof. unfold as_u32, u32_max; intros; apply Z.mod_small; lia. Qed.
Lemma as_u8_small x : 0 <= x <= u8_max -> as_u8 x = x.
Proof. unfold as_u8, u8_max; intros; apply Z.mod_small; lia. Qed.
Lemma as_u64_small x : 0 <= x <= usize_max -> as_u64 x = x.
Proof. unfold as_u64, usize_max, u64_max. intros. apply Z.mod_small. lia. Qed.
#[export] Hint Resolve as_u8_small as_u16_small as_u32_small as_u64_small : apex.

(** ** Lists with lengths in [Z] *)

(** [v.len()]. *)
Definition len {A} (l : list A) : Z := Z.of_nat (length l).

(** [&v[a..b]]: a panic when the range is not inside the slice. *)
Definition slice {A} (l : list A) (a b : Z) : outcome (list A) :=
  if (0 <=? a) && (a <=? b) && (b <=? len l)
  then Ok (take (Z.to_nat (b - a)) (drop (Z.to_nat a) l))
  else Panic.

(** [v[i]]. *)
Definition index {A} (l : list A) (i : Z) : outcome A :=
  if 0 <=? i then expect (l !! Z.to_nat i) else Panic.

Lemma len_nonneg {A} (l : list A) : 0 <= len l.
Proof. unfold len; lia. Qed.
Lemma len_nil {A} : len (@nil A) = 0.
Proof. done. Qed.
Lemma len_cons {A} (x : A) l : len (x :: l) = 1 + len l.
Proof. unfold len; simpl; lia. Qed.
Lemma len_app {A} (l1 l2 : list A) : len (l1 ++ l2) = len l1 + len l2.
Proof. unfold len; rewrite length_app; lia. Qed.
Lemma len_0_nil {A} (l : list A) : len l = 0 -> l = [].
Proof. destruct l; unfold len; simpl; [done|lia]. Qed.
#[export] Hint Rewrite @len_nil @len_cons @len_app : apex.
#[export] Hint Resolve len_nonneg : apex.

(** [len_lia]: normalise lengths, then [lia]. *)
Ltac len_lia :=
  autorewrite with apex in *;
  repeat match goal with
  | l : list _ |- _ =>
      lazymatch goal with
      | _ : 0 <= len l |- _ => fail
      | _ => pose proof (len_nonneg l)
      end
  end; lia.

Lemma slice_Ok {A} (l : list A) a b r :
  slice l a b = Ok r ->
  0 <= a <= b /\ b <= len l /\ r = take (Z.to_nat (b - a)) (drop (Z.to_nat a) l).
Proof.
  unfold slice. destruct (_ && _) eqn:E; [|done]. intros [= <-]. bool_prop. repeat split; lia.
Qed.

Lemma slice_len {A} (l : list A) a b r : slice l a b = Ok r -> len r = b - a.
Proof.
  intros (?&Hb&->)%slice_Ok. unfold len in *. rewrite length_take, length_drop. lia.
Qed.

Lemma slice_in_range {A} (l : list A) a b :
  0 <= a <= b -> b <= len l ->
  slice l a b = Ok (take (Z.to_nat (b - a)) (drop (Z.to_nat a) l)).
Proof.
  intros. unfold slice. rewrite !(proj2 (Z.leb_le _ _)) by lia. done.
Qed.

(** Reading back the middle part of a concatenation. *)
Lemma slice_app_mid {A} (l1 l2 l3 : list A) a b :
  a = len l1 -> b = len l1 + len l2 ->
  slice (l1 ++ l2 ++ l3) a b = Ok l2.
Proof.
  intros -> ->. rewrite slice_in_range by len_lia.
  f_equal. replace (Z.to_nat (len l1)) with (length l1) by (unfold len; lia).
  rewrite drop_app_length.
  replace (Z.to_nat (len l1 + len l2 - len l1)) with (length l2) by (unfold len; lia).
  by rewrite take_app_length.
Qed.

Lemma slice_app_l {A} (l1 l2 : list A) b :
  b = len l1 -> slice (l1 ++ l2) 0 b = Ok l1.
Proof.
  intros ->. apply (slice_app_mid [] l1 l2); [done|unfold len; simpl; lia].
Qed.

Lemma slice_app_r {A} (l1 l2 : list A) a b :
  a = len l1 -> b = len l1 + len l2 -> slice (l1 ++ l2) a b = Ok l2.
Proof.
  intros. rewrite <- (app_nil_r l2) at 1. by apply slice_app_mid.
Qed.

Lemma slice_all {A} (l : list A) b : b = len l -> slice l 0 b = Ok l.
Proof. intros ->. rewrite <- (app_nil_r l) at 1. by apply slice_app_l. Qed.

Lemma index_Ok {A} (l : list A) i x :
  index l i = Ok x -> 0 <= i < len l /\ l !! Z.to_nat i = Some x.
Proof.
  unfold index, expect. case_cond; [|done].
  destruct (l !! Z.to_nat i) eqn:E; [|done]. intros [= ->].
  split; [|done]. apply lookup_lt_Some in E. unfold len. lia.
Qed.

Lemma index_app_mid {A} (l1 l2 : list A) x i :
  i = len l1 -> index (l1 ++ x :: l2) i = Ok x.
Proof.
  intros ->. unfold index. rewrite (proj2 (Z.leb_le _ _)) by apply len_nonneg.
  unfold len. rewrite Nat2Z.id, lookup_app_r, Nat.sub_diag by lia. done.
Qed.

Lemma index_in_range {A} (l : list A) i :
  0 <= i < len l -> exists x, index l i = Ok x.
Proof.
  intros [? Hi]. unfold index. rewrite (proj2 (Z.leb_le _ _)) by lia.
  destruct (lookup_lt_is_Some_2 l (Z.to_nat i)) as [x Hx]; [unfold len in Hi; lia|].
  exists x. by rewrite Hx.
Qed.

Lemma elem_of_concat {A} (x : A) (ls : list (list A)) :
  x ∈ concat ls <-> exists l, l ∈ ls /\ x ∈ l.
Proof. induction ls as [|l ls IH]; simpl; [set_solver|]. set_solver. Qed.

Lemma filter_none {A} (P : A -> Prop) `{!forall x, Decision (P x)} (l : list A) :
  (forall x, x ∈ l -> ~ P x) -> filter P l = [].
Proof.
  induction l as [|x l IH]; intros Hn; [done|]. rewrite filter_cons_False by (apply Hn; set_solver).
  apply IH. set_solver.
Qed.

Lemma filter_all {A} (P : A -> Prop) `{!forall x, Decision (P x)} (l : list A) :
  (forall x, x ∈ l -> P x) -> filter P l = l.
Proof.
  induction l as [|x l IH]; intros Ha; [done|]. rewrite filter_cons_True by (apply Ha; set_solver).
  f_equal. apply IH. set_solver.
Qed.

Lemma filter_weaken {A} (P Q : A -> Prop) `{!forall x, Decision (P x), !forall x, Decision (Q x)} (l : list A) :
  (forall x, x ∈ l -> P x <-> Q x) -> filter P l = filter Q l.
Proof.
  induction l as [|x l IH]; intros Heq; [done|]. rewrite !filter_cons.
  rewrite (decide_ext (P x) (Q x)) by (apply Heq; by left).
  rewrite IH by (intros y Hy; apply Heq; by right). done.
Qed.

(** A loop over an index range that does not use the index value but the
    element, as [for x in v]. *)
Fixpoint sumZ {A} (f : A -> Z) (l : list A) : Z :=
  match l with [] => 0 | x :: l => f x + sumZ f l end.

Lemma sumZ_app {A} (f : A -> Z) l1 l2 : sumZ f (l1 ++ l2) = sumZ f l1 + sumZ f l2.
Proof. induction l1; simpl; lia. Qed.

Lemma sumZ_Permutation {A} (f : A -> Z) l1 l2 : l1 ≡ₚ l2 -> sumZ f l1 = sumZ f l2.
Proof. induction 1; simpl; lia. Qed.

#[global] Instance sumZ_proper {A} (f : A -> Z) : Proper ((≡ₚ) ==> (=)) (sumZ f).
Proof. intros l1 l2. apply sumZ_Permutation. Qed.

Lemma sumZ_ext {A} (f g : A -> Z) l : (forall x, x ∈ l -> f x = g x) -> sumZ f l = sumZ g l.
Proof. induction l as [|x l IH]; simpl; intros Hfg; [done|]. rewrite Hfg, IH; set_solver. Qed.

Lemma sumZ_le {A} (f g : A -> Z) l : (forall x, x ∈ l -> f x <= g x) -> sumZ f l <= sumZ g l.
Proof.
  induction l as [|x l IH]; simpl; intros Hfg; [done|].
  apply Z.add_le_mono; [apply Hfg; by left|]. apply IH. intros; apply Hfg; by right.
Qed.

Lemma sumZ_nonneg {A} (f : A -> Z) l : (forall x, x ∈ l -> 0 <= f x) -> 0 <= sumZ f l.
Proof.
  intros Hf. transitivity (sumZ (fun _ : A => 0) l); [clear; induction l; simpl; lia|].
  by apply sumZ_le.
Qed.

Lemma sumZ_elem {A} (f : A -> Z) l x : x ∈ l -> (forall y, y ∈ l -> 0 <= f y) -> f x <= sumZ f l.
Proof.
  intros (l1 & l2 & ->)%list_elem_of_split Hf. rewrite sumZ_app. simpl.
  assert (0 <= sumZ f l1) by (apply sumZ_nonneg; set_solver).
  assert (0 <= sumZ f l2) by (apply sumZ_nonneg; set_solver). lia.
Qed.

(** [Option<u128>::max]-style maximum of a list. *)
Fixpoint maxZ_list (l : list Z) : option Z :=
  match l with
  | [] => None
  | x :: l => match maxZ_list l with None => Some x | Some y => Some (Z.max x y) end
  end.

Lemma maxZ_list_spec l m :
  maxZ_list l = Some m -> m ∈ l /\ forall x, x ∈ l -> x <= m.
Proof.
  revert m; induction l as [|x l IH]; intros m; simpl; [done|].
  destruct (maxZ_list l) as [y|] eqn:E; intros [= <-].
  - destruct (IH y eq_refl) as [Hin Hmax]. split.
    + destruct (Z.max_spec x y) as [[_ ->]|[_ ->]]; set_solver.
    + intros z [->|Hz]%elem_of_cons; [lia|]. specialize (Hmax _ Hz). lia.
  - assert (l = []) as ->.
    { destruct l; [done|]. simpl in E. by destruct (maxZ_list l). }
    split; [by left|]. intros z [->|Hz]%elem_of_cons; [lia|set_solver].
Qed.

Lemma maxZ_list_None l : maxZ_list l = None -> l = [].
Proof. destruct l; simpl; [done|]. by destruct (maxZ_list l). Qed.
