(* ===== verification/Bytes.v ===== *)
(** * Bytes: octets, little-endian integers, the order of keys

    Keys and values are [Vec<u8>], modelled as [list byte].  This file has the
    conversions [to_le_bytes]/[from_le_bytes] of Rust's unsigned integers and
    the lexicographic order of [Vec<u8>] ([Ord for [T]]), with the lemmas that
    make it a decidable strict total order. *)
From Stdlib Require Import ZArith Lia.
From Stdlib Require Import Strings.Byte.
From stdpp Require Import base tactics numbers list gmap countable sorting.
From S2P Require Import Prelude.

Abbreviation byte := Byte.byte.
Abbreviation bytes := (list Byte.byte).

(** ** Octets *)

#[global] Instance byte_eq_decision : EqDecision byte := Byte.byte_eq_dec.

#[global] Program Instance byte_countable : Countable byte :=
  inj_countable Byte.to_N Byte.of_N _.
Next Obligation. intros b. apply Byte.of_to_N. Qed.

(** The value of an octet, and the octet [x as u8]. *)
Definition byte_to_Z (b : byte) : Z := Z.of_N (Byte.to_N b).
Definition byte_of_Z (x : Z) : byte :=
  match Byte.of_N (Z.to_N (as_u8 x)) with Some b => b | None => Byte.x00 end.

Lemma byte_to_Z_range b : 0 <= byte_to_Z b <= 255.
Proof. unfold byte_to_Z. pose proof (Byte.to_N_bounded b). lia. Qed.

Lemma byte_of_to_Z b : byte_of_Z (byte_to_Z b) = b.
Proof.
  unfold byte_of_Z, byte_to_Z, as_u8.
  pose proof (Byte.to_N_bounded b).
  rewrite Z.mod_small, N2Z.id, Byte.of_to_N by lia. done.
Qed.

Lemma byte_to_of_Z x : byte_to_Z (byte_of_Z x) = x mod 256.
Proof.
  unfold byte_of_Z, byte_to_Z, as_u8.
  pose proof (Z.mod_pos_bound x 256 ltac:(lia)).
  destruct (Byte.of_N _) eqn:E.
  - apply Byte.to_of_N in E. rewrite E. lia.
  - apply Byte.of_N_None_iff in E. lia.
Qed.

#[global] Instance byte_to_Z_inj : Inj (=) (=) byte_to_Z.
Proof. intros a b H. by rewrite <- (byte_of_to_Z a), H, byte_of_to_Z. Qed.

(** ** Little-endian integers *)

(** [x.to_le_bytes()] for an [n]-byte unsigned integer. *)
Fixpoint to_le_bytes (n : nat) (x : Z) : bytes :=
  match n with
  | O => []
  | S n => byte_of_Z x :: to_le_bytes n (x / 256)
  end.

(** [uN::from_le_bytes(bs)]. *)
Fixpoint from_le_bytes (bs : bytes) : Z :=
  match bs with
  | [] => 0
  | b :: bs => byte_to_Z b + 256 * from_le_bytes bs
  end.

Definition u16_le (x : Z) : bytes := to_le_bytes 2 x.
Definition u32_le (x : Z) : bytes := to_le_bytes 4 x.
Definition u64_le (x : Z) : bytes := to_le_bytes 8 x.
Definition u128_le (x : Z) : bytes := to_le_bytes 16 x.
Arguments u16_le : simpl never.
Arguments u32_le : simpl never.
Arguments u64_le : simpl never.
Arguments u128_le : simpl never.

(** [u16::from_le_bytes([v[i], v[i+1]])] and its 4-byte form: indexing panics
    out of range. *)
Definition read_u16 (v : bytes) (i : Z) : outcome Z :=
  let* b := slice v i (i + 2) in Ok (from_le_bytes b).
Definition read_u32 (v : bytes) (i : Z) : outcome Z :=
  let* b := slice v i (i + 4) in Ok (from_le_bytes b).

Lemma length_to_le_bytes n x : length (to_le_bytes n x) = n.
Proof. revert x; induction n; intros; simpl; auto. Qed.

Lemma len_to_le_bytes n x : len (to_le_bytes n x) = Z.of_nat n.
Proof. unfold len. by rewrite length_to_le_bytes. Qed.

Lemma len_u16_le x : len (u16_le x) = 2.
Proof. apply len_to_le_bytes. Qed.
Lemma len_u32_le x : len (u32_le x) = 4.
Proof. apply len_to_le_bytes. Qed.
Lemma len_u64_le x : len (u64_le x) = 8.
Proof. apply len_to_le_bytes. Qed.
Lemma len_u128_le x : len (u128_le x) = 16.
Proof. apply len_to_le_bytes. Qed.
#[export] Hint Rewrite len_u16_le len_u32_le len_u64_le len_u128_le : apex.

Lemma from_to_le_bytes n x :
  0 <= x < 256 ^ Z.of_nat n -> from_le_bytes (to_le_bytes n x) = x.
Proof.
  revert x; induction n as [|n IH]; intros x Hx; simpl.
  { simpl in Hx. lia. }
  rewrite byte_to_of_Z, IH.
  - pose proof (Z.div_mod x 256 ltac:(lia)). lia.
  - rewrite Nat2Z.inj_succ, Z.pow_succ_r in Hx by lia.
    split; [apply Z.div_pos; lia|]. apply Z.div_lt_upper_bound; lia.
Qed.

Lemma from_le_bytes_range bs : 0 <= from_le_bytes bs < 256 ^ len bs.
Proof.
  induction bs as [|b bs IH]; simpl; [unfold len; simpl; lia|].
  rewrite len_cons, Z.pow_add_r by (unfold len; lia).
  pose proof (byte_to_Z_range b). change (256 ^ 1) with 256. nia.
Qed.

Lemma to_from_le_bytes bs : to_le_bytes (length bs) (from_le_bytes bs) = bs.
Proof.
  induction bs as [|b bs IH]; simpl; [done|].
  pose proof (byte_to_Z_range b). f_equal.
  - apply byte_to_Z_inj. rewrite byte_to_of_Z, Z.mul_comm, Z_mod_plus_full.
    by rewrite Z.mod_small by lia.
  - rewrite Z.mul_comm, Z.div_add, Z.div_small by lia. done.
Qed.

Lemma from_u16_le x : 0 <= x <= u16_max -> from_le_bytes (u16_le x) = x.
Proof. unfold u16_max. intros. apply from_to_le_bytes. simpl. lia. Qed.
Lemma from_u32_le x : 0 <= x <= u32_max -> from_le_bytes (u32_le x) = x.
Proof. unfold u32_max. intros. apply from_to_le_bytes. simpl. lia. Qed.
Lemma from_u64_le x : 0 <= x <= u64_max -> from_le_bytes (u64_le x) = x.
Proof. unfold u64_max. intros. apply from_to_le_bytes. simpl. lia. Qed.
Lemma from_u128_le x : 0 <= x <= u128_max -> from_le_bytes (u128_le x) = x.
Proof. unfold u128_max. intros. apply from_to_le_bytes. simpl. lia. Qed.

Lemma read_u16_app l1 x l2 i :
  0 <= x <= u16_max -> i = len l1 -> read_u16 (l1 ++ u16_le x ++ l2) i = Ok x.
Proof.
  intros Hx ->. unfold read_u16. rewrite slice_app_mid by len_lia.
  cbn [obind]. by rewrite from_u16_le.
Qed.

Lemma read_u32_app l1 x l2 i :
  0 <= x <= u32_max -> i = len l1 -> read_u32 (l1 ++ u32_le x ++ l2) i = Ok x.
Proof.
  intros Hx ->. unfold read_u32. rewrite slice_app_mid by len_lia.
  cbn [obind]. by rewrite from_u32_le.
Qed.

Lemma read_u16_head x l : 0 <= x <= u16_max -> read_u16 (u16_le x ++ l) 0 = Ok x.
Proof. intros. by apply (read_u16_app []). Qed.
Lemma read_u32_head x l : 0 <= x <= u32_max -> read_u32 (u32_le x ++ l) 0 = Ok x.
Proof. intros. by apply (read_u32_app []). Qed.

Lemma read_u16_in_range v i :
  0 <= i -> i + 2 <= len v -> exists x, read_u16 v i = Ok x /\ 0 <= x <= u16_max.
Proof.
  intros ? ?. unfold read_u16. rewrite slice_in_range by lia. simpl. eexists; split; [done|].
  pose proof (from_le_bytes_range (take (Z.to_nat (i + 2 - i)) (drop (Z.to_nat i) v))) as Hr.
  unfold len in *. rewrite length_take, length_drop in Hr.
  replace (Z.of_nat _) with 2 in Hr by lia. unfold u16_max. lia.
Qed.

(** ** The order of [Vec<u8>] *)

(** [Ord::cmp] on byte slices: lexicographic, a proper prefix is smaller. *)
Fixpoint bytes_cmp (a b : bytes) : comparison :=
  match a, b with
  | [], [] => Eq
  | [], _ :: _ => Lt
  | _ :: _, [] => Gt
  | x :: a, y :: b =>
      match (byte_to_Z x ?= byte_to_Z y) with
      | Eq => bytes_cmp a b
      | c => c
      end
  end.

Definition bytes_ltb (a b : bytes) : bool :=
  match bytes_cmp a b with Lt => true | _ => false end.
Definition bytes_leb (a b : bytes) : bool :=
  match bytes_cmp a b with Gt => false | _ => true end.
Definition bytes_eqb (a b : bytes) : bool := bool_decide (a = b).

Definition bytes_lt (a b : bytes) : Prop := bytes_ltb a b = true.
Definition bytes_le (a b : bytes) : Prop := bytes_leb a b = true.

Declare Scope bytes_scope.
Delimit Scope bytes_scope with bs.
Infix "<?" := bytes_ltb : bytes_scope.
Infix "<=?" := bytes_leb : bytes_scope.
Infix "=?" := bytes_eqb : bytes_scope.
Infix "<" := bytes_lt : bytes_scope.
Infix "<=" := bytes_le : bytes_scope.

#[global] Instance bytes_lt_dec : RelDecision bytes_lt.
Proof. intros a b. unfold bytes_lt. apply _. Defined.
#[global] Instance bytes_le_dec : RelDecision bytes_le.
Proof. intros a b. unfold bytes_le. apply _. Defined.

Lemma bytes_cmp_refl a : bytes_cmp a a = Eq.
Proof. induction a as [|x a IH]; simpl; [done|]. by rewrite Z.compare_refl. Qed.

Lemma bytes_cmp_eq a b : bytes_cmp a b = Eq <-> a = b.
Proof.
  split; [|intros ->; apply bytes_cmp_refl].
  revert b; induction a as [|x a IH]; intros [|y b]; simpl; try done.
  destruct (Z.compare_spec (byte_to_Z x) (byte_to_Z y)) as [E| |]; try done.
  intros H. apply (inj byte_to_Z) in E as ->. f_equal. auto.
Qed.

Lemma bytes_cmp_antisym a b : bytes_cmp b a = CompOpp (bytes_cmp a b).
Proof.
  revert b; induction a as [|x a IH]; intros [|y b]; simpl; try done.
  rewrite (Z.compare_antisym (byte_to_Z x)).
  destruct (byte_to_Z x ?= byte_to_Z y); simpl; auto.
Qed.

Lemma bytes_cmp_lt_trans a b c :
  bytes_cmp a b = Lt -> bytes_cmp b c = Lt -> bytes_cmp a c = Lt.
Proof.
  revert b c; induction a as [|x a IH]; intros [|y b] [|z c]; simpl; try done.
  destruct (Z.compare_spec (byte_to_Z x) (byte_to_Z y)),
    (Z.compare_spec (byte_to_Z y) (byte_to_Z z)); try done;
    destruct (Z.compare_spec (byte_to_Z x) (byte_to_Z z)); try lia; eauto; done.
Qed.

Lemma bytes_lt_irrefl a : ~ bytes_lt a a.
Proof. unfold bytes_lt, bytes_ltb. by rewrite bytes_cmp_refl. Qed.

Lemma bytes_lt_cmp a b : bytes_lt a b <-> bytes_cmp a b = Lt.
Proof. unfold bytes_lt, bytes_ltb. by destruct (bytes_cmp a b). Qed.

#[global] Instance bytes_lt_strict : StrictOrder bytes_lt.
Proof.
  split; [intros a; apply bytes_lt_irrefl|].
  intros a b c. rewrite !bytes_lt_cmp. apply bytes_cmp_lt_trans.
Qed.

Lemma bytes_trichotomy a b : bytes_lt a b \/ a = b \/ bytes_lt b a.
Proof.
  rewrite !bytes_lt_cmp, <- bytes_cmp_eq, (bytes_cmp_antisym a b).
  destruct (bytes_cmp a b); simpl; auto.
Qed.

Lemma bytes_ltb_ge a b : bytes_ltb a b = false <-> bytes_le b a.
Proof.
  unfold bytes_ltb, bytes_le, bytes_leb. rewrite (bytes_cmp_antisym a b).
  by destruct (bytes_cmp a b).
Qed.

Lemma bytes_leb_gt a b : bytes_leb a b = false <-> bytes_lt b a.
Proof.
  rewrite bytes_lt_cmp. unfold bytes_leb. rewrite (bytes_cmp_antisym a b).
  by destruct (bytes_cmp a b).
Qed.

Lemma bytes_le_iff a b : bytes_le a b <-> bytes_lt a b \/ a = b.
Proof.
  rewrite bytes_lt_cmp, <- bytes_cmp_eq. unfold bytes_le, bytes_leb.
  destruct (bytes_cmp a b); naive_solver.
Qed.

Lemma bytes_nlt_le a b : ~ bytes_lt a b <-> bytes_le b a.
Proof. rewrite <- bytes_ltb_ge. unfold bytes_lt. by destruct (bytes_ltb a b). Qed.

Lemma bytes_lt_le a b : bytes_lt a b -> bytes_le a b.
Proof. rewrite bytes_le_iff. auto. Qed.

Lemma bytes_le_lt_trans a b c : bytes_le a b -> bytes_lt b c -> bytes_lt a c.
Proof. rewrite bytes_le_iff. intros [?| ->] ?; [by etrans|done]. Qed.

Lemma bytes_lt_le_trans a b c : bytes_lt a b -> bytes_le b c -> bytes_lt a c.
Proof. rewrite bytes_le_iff. intros ? [?| <-]; [by etrans|done]. Qed.

Lemma bytes_lt_not_eq a b : bytes_lt a b -> a <> b.
Proof. intros H ->. by apply bytes_lt_irrefl in H. Qed.

Lemma bytes_lt_asym a b : bytes_lt a b -> ~ bytes_lt b a.
Proof. intros H1 H2. apply (bytes_lt_irrefl a). by etrans. Qed.

#[global] Instance bytes_le_preorder : PreOrder bytes_le.
Proof.
  split; [intros a; rewrite bytes_le_iff; auto|].
  intros a b c Hab. rewrite (bytes_le_iff b c). intros [H| <-]; [|done].
  apply bytes_lt_le. by eapply bytes_le_lt_trans.
Qed.

#[global] Instance bytes_le_antisymm : AntiSymm (=) bytes_le.
Proof.
  intros a b [?|?]%bytes_le_iff [?|?]%bytes_le_iff; subst; try done.
  by destruct (bytes_lt_asym a b).
Qed.

#[global] Instance bytes_le_total : Total bytes_le.
Proof.
  intros a b. rewrite !bytes_le_iff. destruct (bytes_trichotomy a b) as [|[|]]; naive_solver.
Qed.

Lemma bytes_le_nil a : bytes_le [] a.
Proof. by destruct a. Qed.

Lemma bytes_eqb_eq a b : bytes_eqb a b = true <-> a = b.
Proof. unfold bytes_eqb. apply bool_decide_eq_true. Qed.

(** Case analysis on the boolean order tests of the goal. *)
Lemma bytes_ltb_spec a b : reflect (bytes_lt a b) (bytes_ltb a b).
Proof. unfold bytes_lt. destruct (bytes_ltb a b); by constructor. Qed.
Lemma bytes_leb_spec a b : reflect (bytes_le a b) (bytes_leb a b).
Proof. unfold bytes_le. destruct (bytes_leb a b); by constructor. Qed.
Lemma bytes_eqb_spec a b : reflect (a = b) (bytes_eqb a b).
Proof. unfold bytes_eqb. case_bool_decide; by constructor. Qed.

Ltac bytes_prop :=
  repeat match goal with
  | H : bytes_ltb _ _ = true |- _ => change (bytes_lt _ _) in H
  | H : bytes_ltb _ _ = false |- _ => apply bytes_ltb_ge in H
  | H : bytes_leb _ _ = true |- _ => change (bytes_le _ _) in H
  | H : bytes_leb _ _ = false |- _ => apply bytes_leb_gt in H
  | H : bytes_eqb _ _ = true |- _ => apply bytes_eqb_eq in H
  end.

(** [bytes_order]: close a goal about the order of keys by transitivity and
    irreflexivity. *)
Ltac bytes_order :=
  bytes_prop;
  repeat match goal with
  | H : ~ bytes_lt _ _ |- _ => apply bytes_nlt_le in H
  end;
  try solve
    [ done
    | assumption
    | eauto using bytes_lt_le, bytes_le_lt_trans, bytes_lt_le_trans,
        (transitivity (R := bytes_lt)), (transitivity (R := bytes_le))
    | exfalso; eapply bytes_lt_irrefl;
      eauto using bytes_lt_le, bytes_le_lt_trans, bytes_lt_le_trans,
        (transitivity (R := bytes_lt)) ].

(** [s.split(sep)] for a one-byte separator. *)
Fixpoint split_byte (sep : Byte.byte) (s : bytes) : list bytes :=
  match s with
  | [] => [[]]
  | c :: s =>
      if Byte.eqb c sep then [] :: split_byte sep s
      else match split_byte sep s with
           | seg :: rest => (c :: seg) :: rest
           | [] => [[c]]
           end
  end.

(** [key.starts_with(prefix)]. *)
Fixpoint starts_with (key prefix : bytes) : bool :=
  match prefix, key with
  | [], _ => true
  | p :: prefix, k :: key => bool_decide (p = k) && starts_with key prefix
  | _ :: _, [] => false
  end.

(** [key.ends_with(suffix)]. *)
Definition ends_with (key suffix : bytes) : bool := starts_with (reverse key) (reverse suffix).

Lemma starts_with_spec key prefix :
  starts_with key prefix = true <-> exists rest, key = prefix ++ rest.
Proof.
  revert key; induction prefix as [|p prefix IH]; intros [|k key]; simpl.
  - split; [by exists []|done].
  - split; [intros; by exists (k :: key)|done].
  - split; [done|by intros [? [=]]].
  - rewrite andb_true_iff, bool_decide_eq_true, IH. naive_solver.
Qed.

(** [simpl] leaves the little-endian encodings folded. *)
#[global] Opaque u16_le u32_le u64_le u128_le.
