(* ===== verification/SortedMap.v ===== *)
(** * SortedMap: key-ordered snapshots of maps

    The engine keeps its data in hash maps ([DashMap], [HashMap]) and in
    [BTreeMap]s, and reads both out in key order: a [DashMap] is collected into
    a vector and sorted ([sort_by(|a, b| a.0.cmp(&b.0))]), a [BTreeMap] iterates
    in key order.  Both are a [gmap] here, and the read-out is
    [sorted_entries].  The lemmas relate strictly sorted association lists with
    the maps they represent. *)
From Stdlib Require Import ZArith Lia.
From stdpp Require Import base tactics numbers list gmap sorting.
From S2P Require Import Prelude Bytes.

Section sorted_map.
Context {A : Type}.
Implicit Types (m : gmap bytes A) (l : list (bytes * A)).

(** Order of two entries by key. *)
Definition entry_le (x y : bytes * A) : Prop := bytes_le x.1 y.1.
Definition entry_lt (x y : bytes * A) : Prop := bytes_lt x.1 y.1.

#[global] Instance entry_le_dec : RelDecision entry_le.
Proof. intros x y. unfold entry_le. apply _. Defined.
#[global] Instance entry_le_trans : Transitive entry_le.
Proof. intros x y z. unfold entry_le. apply transitivity. Qed.
#[global] Instance entry_le_total : Total entry_le.
Proof. intros x y. apply bytes_le_total. Qed.
#[global] Instance entry_lt_trans : Transitive entry_lt.
Proof. intros x y z. unfold entry_lt. apply transitivity. Qed.

(** [entries.sort_by(|a, b| a.0.cmp(&b.0))]: a stable sort by key. *)
Definition sort_entries (l : list (bytes * A)) : list (bytes * A) := merge_sort entry_le l.

(** The entries of a map in increasing key order. *)
Definition sorted_entries (m : gmap bytes A) : list (bytes * A) := sort_entries (map_to_list m).

(** Strictly increasing keys. *)
Definition key_sorted (l : list (bytes * A)) : Prop := StronglySorted entry_lt l.

(** The value of the first entry with the given key. *)
Fixpoint assoc (k : bytes) (l : list (bytes * A)) : option A :=
  match l with
  | [] => None
  | (k', v) :: l => if bytes_eqb k k' then Some v else assoc k l
  end.

(** The entries from the first key that is not below [k] on. *)
Fixpoint drop_below (k : bytes) (l : list (bytes * A)) : list (bytes * A) :=
  match l with
  | [] => []
  | (k', v) :: l' => if bytes_ltb k' k then drop_below k l' else l
  end.

Lemma key_sorted_nil : key_sorted [].
Proof. constructor. Qed.

Lemma key_sorted_cons k v l :
  key_sorted ((k, v) :: l) <-> (forall k' v', (k', v') ∈ l -> bytes_lt k k') /\ key_sorted l.
Proof.
  unfold key_sorted. rewrite StronglySorted_cons, Forall_forall. split.
  - intros [H ?]. split; [|done]. intros k' v' Hin. exact (H (k', v') Hin).
  - intros [H ?]. split; [|done]. intros [k' v'] Hin. exact (H k' v' Hin).
Qed.

Lemma key_sorted_NoDup l : key_sorted l -> NoDup (l.*1).
Proof.
  induction l as [|[k v] l IH]; [constructor|]. intros [Hk Hl]%key_sorted_cons. simpl.
  constructor; [|by apply IH]. intros ([k' v'] & -> & Hin)%list_elem_of_fmap.
  by apply (bytes_lt_irrefl k'), (Hk k' v').
Qed.

Lemma key_sorted_app l1 l2 :
  key_sorted (l1 ++ l2) <->
  key_sorted l1 /\ key_sorted l2 /\
  (forall x y, x ∈ l1 -> y ∈ l2 -> bytes_lt x.1 y.1).
Proof. unfold key_sorted. rewrite StronglySorted_app. unfold entry_lt. naive_solver. Qed.

(** Appending a key greater than the last one keeps the order. *)
Lemma key_sorted_snoc l k v :
  key_sorted l -> (forall k', last (l.*1) = Some k' -> bytes_lt k' k) -> key_sorted (l ++ [(k, v)]).
Proof.
  induction l as [|[k1 v1] l IH]; intros Hl Hlast.
  { apply key_sorted_cons. split; [set_solver|constructor]. }
  apply key_sorted_cons in Hl as [Hk Hl]. cbn [app]. apply key_sorted_cons.
  destruct l as [|[k2 v2] l].
  - specialize (Hlast k1 eq_refl). split; [set_solver|].
    apply key_sorted_cons. split; [set_solver|constructor].
  - split; [|apply IH; [done|]; intros k' Hk'; by apply Hlast].
    intros k' v' [Hin|Hin]%elem_of_app; [eauto|].
    apply list_elem_of_singleton in Hin as [= -> ->].
    destruct (last (((k2, v2) :: l).*1)) as [kl|] eqn:El; [|by apply last_None in El].
    transitivity kl; [|by apply Hlast]. apply last_Some_elem_of in El.
    apply list_elem_of_fmap in El as ([kl' vl] & -> & Hin). by apply (Hk kl' vl).
Qed.

Lemma assoc_Some_elem k v l : assoc k l = Some v -> (k, v) ∈ l.
Proof.
  induction l as [|[k' v'] l IH]; simpl; [done|].
  destruct (bytes_eqb_spec k k') as [<-|]; intros H; simplify_eq; [by left|right; auto].
Qed.

Lemma assoc_Some_key k v l : assoc k l = Some v -> k ∈ l.*1.
Proof. intros H%assoc_Some_elem. apply list_elem_of_fmap. by exists (k, v). Qed.

Lemma assoc_None k l : assoc k l = None <-> k ∉ l.*1.
Proof.
  induction l as [|[k' v'] l IH]; simpl; [set_solver|].
  destruct (bytes_eqb_spec k k') as [<-|]; set_solver.
Qed.

Lemma assoc_elem k v l : key_sorted l -> (k, v) ∈ l -> assoc k l = Some v.
Proof.
  induction l as [|[k' v'] l IH]; [set_solver|].
  intros [Hk Hl]%key_sorted_cons. intros [Heq|Hin]%elem_of_cons; simpl.
  - injection Heq as <- <-. by destruct (bytes_eqb_spec k k).
  - destruct (bytes_eqb_spec k k') as [->|]; [|auto].
    exfalso. by apply (bytes_lt_irrefl k'), (Hk k' v).
Qed.

Lemma assoc_list_to_map k l : (list_to_map l : gmap bytes A) !! k = assoc k l.
Proof.
  induction l as [|[k' v] l IH]; [done|]. cbn [list_to_map foldr assoc fst snd].
  destruct (bytes_eqb_spec k k') as [<-|Hne].
  - apply lookup_insert_eq.
  - rewrite <- IH. by apply lookup_insert_ne.
Qed.

Lemma elem_of_sorted_entries m k v : (k, v) ∈ sorted_entries m <-> m !! k = Some v.
Proof.
  unfold sorted_entries, sort_entries.
  by rewrite merge_sort_Permutation, elem_of_map_to_list.
Qed.

Lemma sorted_entries_Permutation m : sorted_entries m ≡ₚ map_to_list m.
Proof. apply merge_sort_Permutation. Qed.

(** Sorting a list without duplicate keys. *)
Lemma sort_entries_sorted l : NoDup (l.*1) -> key_sorted (sort_entries l).
Proof.
  intros Hnd. pose proof (StronglySorted_merge_sort entry_le l) as Hs.
  fold (sort_entries l) in Hs.
  assert (NoDup ((sort_entries l).*1)) as Hnd'.
  { unfold sort_entries. by rewrite merge_sort_Permutation. }
  clear Hnd. induction Hs as [|[k v] l' Hs IH Hall]; [constructor|].
  simpl in Hnd'. apply NoDup_cons in Hnd' as [Hk Hnd'].
  apply key_sorted_cons. split; [|auto].
  intros k' v' Hin. rewrite Forall_forall in Hall. specialize (Hall _ Hin).
  unfold entry_le in Hall; simpl in Hall. apply bytes_le_iff in Hall as [?| ->]; [done|].
  destruct Hk. apply list_elem_of_fmap. by exists (k', v').
Qed.

(** The result does not depend on the order the entries are collected in. *)
Lemma sort_entries_unique l l' : l ≡ₚ l' -> key_sorted l' -> sort_entries l = l'.
Proof.
  intros Hp Hs. apply (StronglySorted_unique_strong entry_lt).
  - intros x y _ _ H1 H2. by destruct (bytes_lt_asym _ _ H1).
  - apply sort_entries_sorted. rewrite Hp. by apply key_sorted_NoDup.
  - done.
  - unfold sort_entries. by rewrite merge_sort_Permutation.
Qed.

Lemma sorted_entries_sorted m : key_sorted (sorted_entries m).
Proof. apply sort_entries_sorted, NoDup_fst_map_to_list. Qed.

Lemma assoc_sorted_entries m k : assoc k (sorted_entries m) = m !! k.
Proof.
  destruct (m !! k) as [v|] eqn:E.
  - apply assoc_elem; [apply sorted_entries_sorted|]. by apply elem_of_sorted_entries.
  - apply assoc_None. intros ([k' v] & -> & Hin)%list_elem_of_fmap.
    apply elem_of_sorted_entries in Hin. simpl in *. congruence.
Qed.

(** Two strictly sorted lists with the same entries are the same list. *)
Lemma key_sorted_ext l1 l2 :
  key_sorted l1 -> key_sorted l2 -> (forall k, assoc k l1 = assoc k l2) -> l1 = l2.
Proof.
  revert l2; induction l1 as [|[k1 v1] l1 IH]; intros [|[k2 v2] l2] H1 H2 Heq; [done| | |].
  - specialize (Heq k2). simpl in Heq. by destruct (bytes_eqb_spec k2 k2).
  - specialize (Heq k1). simpl in Heq. by destruct (bytes_eqb_spec k1 k1).
  - apply key_sorted_cons in H1 as [Hk1 H1]. apply key_sorted_cons in H2 as [Hk2 H2].
    assert (k1 = k2) as <-.
    { pose proof (Heq k1) as E1. pose proof (Heq k2) as E2. simpl in E1, E2.
      destruct (bytes_eqb_spec k1 k1); [|done]. destruct (bytes_eqb_spec k2 k2); [|done].
      destruct (bytes_eqb_spec k1 k2); [done|]. destruct (bytes_eqb_spec k2 k1); [done|].
      symmetry in E1. apply assoc_Some_elem, Hk2 in E1. apply assoc_Some_elem, Hk1 in E2.
      by destruct (bytes_lt_asym k1 k2). }
    pose proof (Heq k1) as E1. simpl in E1. destruct (bytes_eqb_spec k1 k1); [|done].
    injection E1 as ->. f_equal. apply IH; [done|done|]. intros k.
    specialize (Heq k). simpl in Heq. destruct (bytes_eqb_spec k k1) as [Hkk|]; [subst k|done].
    transitivity (@None A); [|symmetry]; apply assoc_None;
      intros ([k' v'] & Hk & Hin)%list_elem_of_fmap; simpl in Hk; subst k';
      [apply Hk1 in Hin|apply Hk2 in Hin]; by apply bytes_lt_irrefl in Hin.
Qed.

Lemma sorted_entries_list_to_map l : key_sorted l -> sorted_entries (list_to_map l) = l.
Proof.
  intros Hl. apply key_sorted_ext; [apply sorted_entries_sorted|done|].
  intros k. by rewrite assoc_sorted_entries, assoc_list_to_map.
Qed.

Lemma list_to_map_sorted_entries m : list_to_map (sorted_entries m) = m.
Proof. apply map_eq. intros k. by rewrite assoc_list_to_map, assoc_sorted_entries. Qed.

Lemma sorted_entries_empty : sorted_entries ∅ = [].
Proof. unfold sorted_entries. by rewrite map_to_list_empty. Qed.

Lemma sorted_entries_nil m : sorted_entries m = [] <-> m = ∅.
Proof.
  split; [|intros ->; apply sorted_entries_empty]. intros H.
  by rewrite <- (list_to_map_sorted_entries m), H.
Qed.

Lemma key_sorted_filter (P : bytes * A -> Prop) `{!forall x, Decision (P x)} l :
  key_sorted l -> key_sorted (filter P l).
Proof.
  induction l as [|[k v] l IH]; [done|]. intros [Hk Hl]%key_sorted_cons.
  rewrite filter_cons. case_decide; [|auto]. apply key_sorted_cons. split; [|auto].
  intros k' v' [_ Hin]%list_elem_of_filter. eauto.
Qed.

Lemma assoc_filter (P : bytes * A -> Prop) `{!forall x, Decision (P x)} l k :
  key_sorted l ->
  assoc k (filter P l) =
  match assoc k l with Some v => if decide (P (k, v)) then Some v else None | None => None end.
Proof.
  intros Hl. destruct (assoc k l) as [v|] eqn:E.
  - case_decide.
    + apply assoc_elem; [by apply key_sorted_filter|].
      apply list_elem_of_filter. split; [done|]. by apply assoc_Some_elem.
    + apply assoc_None. intros ([k' v'] & Hk & [HP Hin]%list_elem_of_filter)%list_elem_of_fmap.
      simpl in Hk; subst k'. apply assoc_elem in Hin; [|done]. by simplify_eq.
  - apply assoc_None. intros ([k' v'] & Hk & [HP Hin]%list_elem_of_filter)%list_elem_of_fmap.
    simpl in Hk; subst k'. apply assoc_elem in Hin; [|done]. by simplify_eq.
Qed.

(** Skipping the keys below [k] is filtering, on a sorted list. *)
Lemma drop_below_filter k l :
  key_sorted l -> drop_below k l = filter (fun x => bytes_le k x.1) l.
Proof.
  induction l as [|[k' v] l IH]; [done|]. intros [Hk Hl]%key_sorted_cons. simpl.
  rewrite filter_cons. destruct (bytes_ltb_spec k' k) as [Hlt|Hge].
  - rewrite decide_False; [auto|]. simpl. intros Hle. bytes_order.
  - rewrite decide_True by (simpl; by apply bytes_nlt_le). f_equal.
    clear IH. induction l as [|[k2 v2] l IH]; [done|].
    rewrite filter_cons, decide_True.
    + f_equal. apply IH; [|by apply key_sorted_cons in Hl as [_ ?]].
      intros; eapply Hk; by right.
    + simpl. apply bytes_nlt_le in Hge. eapply bytes_lt_le, bytes_le_lt_trans; [done|].
      eapply Hk. by left.
Qed.

Lemma key_sorted_drop_below k l : key_sorted l -> key_sorted (drop_below k l).
Proof. intros Hl. rewrite drop_below_filter by done. by apply key_sorted_filter. Qed.

Lemma length_drop_below k l : (length (drop_below k l) <= length l)%nat.
Proof. induction l as [|[k' v] l IH]; simpl; [lia|]. case_match; simpl; lia. Qed.

Lemma key_sorted_tail l : key_sorted l -> key_sorted (tail l).
Proof. destruct l as [|[k v] l]; [done|]. by intros [_ ?]%key_sorted_cons. Qed.

End sorted_map.

Lemma key_sorted_fmap {A B} (f : bytes * A -> bytes * B) l :
  (forall x, (f x).1 = x.1) -> key_sorted l -> key_sorted (f <$> l).
Proof.
  intros Hf. induction l as [|[k v] l IH]; [intros; apply key_sorted_nil|]. intros [Hk Hl]%key_sorted_cons.
  rewrite fmap_cons. destruct (f (k, v)) as [k0 w] eqn:E. pose proof (Hf (k, v)) as Hk0.
  rewrite E in Hk0. simpl in Hk0. subst k0. apply key_sorted_cons. split; [|auto].
  intros k' w' ([k2 v2] & Hx & Hin)%list_elem_of_fmap. pose proof (Hf (k2, v2)) as H2.
  rewrite <- Hx in H2. simpl in H2. subst. eauto.
Qed.

Lemma drop_below_fmap {A B} (f : bytes * A -> bytes * B) k l :
  (forall x, (f x).1 = x.1) -> drop_below k (f <$> l) = f <$> drop_below k l.
Proof.
  intros Hf. induction l as [|[k' v] l IH]; [done|]. cbn [fmap list_fmap drop_below].
  pose proof (Hf (k', v)) as Hk. destruct (f (k', v)) as [k0 w] eqn:E. simpl in Hk. subst k0.
  destruct (bytes_ltb k' k); [done|]. cbn. by rewrite E.
Qed.

Lemma assoc_fmap {A B} (f : bytes * A -> bytes * B) (g : A -> B) k l :
  (forall k v, f (k, v) = (k, g v)) -> assoc k (f <$> l) = g <$> assoc k l.
Proof.
  intros Hf. induction l as [|[k' v] l IH]; [done|]. cbn [fmap list_fmap assoc]. rewrite Hf.
  by destruct (bytes_eqb k k').
Qed.

(** Dropping and changing values of a sorted list, key by key. *)
Section omap.
Context {A B : Type} (f : bytes * A -> option (bytes * B)) (g : bytes -> A -> option B).
Context (Hf : forall k a, f (k, a) = pair k <$> g k a).

Lemma elem_of_omap_keys (l : list (bytes * A)) k b : (k, b) ∈ omap f l -> exists a, (k, a) ∈ l /\ g k a = Some b.
Proof.
  intros ([k' a] & Hin & Hfx)%list_elem_of_omap. rewrite Hf in Hfx.
  destruct (g k' a) as [b'|] eqn:E; [|done]. injection Hfx as -> ->. eauto.
Qed.

Lemma key_sorted_omap (l : list (bytes * A)) : key_sorted l -> key_sorted (omap f l).
Proof.
  induction l as [|[k a] l IH]; [intros; apply key_sorted_nil|]. intros [Hk Hl]%key_sorted_cons. cbn. rewrite Hf.
  destruct (g k a) as [b|]; cbn; [|auto]. apply key_sorted_cons. split; [|auto].
  intros k' b' (a' & Hin & _)%elem_of_omap_keys. eauto.
Qed.

Lemma assoc_omap (l : list (bytes * A)) k : key_sorted l -> assoc k (omap f l) = assoc k l ≫= g k.
Proof.
  induction l as [|[k' a] l IH]; [done|]. intros [Hk Hl]%key_sorted_cons. cbn. rewrite Hf.
  destruct (bytes_eqb_spec k k') as [->|Hne].
  - cbn. destruct (g k' a) as [b|]; cbn.
    + by rewrite (proj2 (bytes_eqb_eq k' k') eq_refl).
    + apply assoc_None. intros ([k'' b] & -> & (a' & Hin & _)%elem_of_omap_keys)%list_elem_of_fmap.
      apply Hk in Hin. by apply bytes_lt_irrefl in Hin.
  - destruct (g k' a) as [b|]; cbn; [|auto].
    destruct (bytes_eqb_spec k k'); [done|auto].
Qed.
End omap.

#[export] Hint Resolve key_sorted_nil key_sorted_tail key_sorted_drop_below
  sorted_entries_sorted key_sorted_filter : apex.
