(* ===== verification/LogRecord.v ===== *)
(** * LogRecord: records, tombstones, range tombstones ([src/src/core/log_record.rs])

    A record is a live value, a point tombstone or a range tombstone.  Time is
    [u128] nanoseconds since the epoch; each constructor reads
    [SystemTime::now()] once, which is the argument [now] here. *)
From Stdlib Require Import ZArith Lia.
From stdpp Require Import base tactics numbers list gmap strings.
From S2P Require Import Prelude Bytes.

(** [struct LogRecord]. *)
Record LogRecord := mkLogRecord {
  key : bytes;
  value : bytes;
  timestamp : Z;
  is_deleted : bool;
  column_family : option string;
  expires_at : option Z;
  range_start : option bytes;
  range_end : option bytes;
}.

#[global] Instance LogRecord_eq_dec : EqDecision LogRecord.
Proof. solve_decision. Defined.

(** [LogRecord::new]. *)
Definition LogRecord_new (now : Z) (k v : bytes) : LogRecord :=
  {| key := k; value := v; timestamp := now; is_deleted := false;
     column_family := None; expires_at := None;
     range_start := None; range_end := None |}.

(** [LogRecord::tombstone]. *)
Definition tombstone (now : Z) (k : bytes) : LogRecord :=
  {| key := k; value := []; timestamp := now; is_deleted := true;
     column_family := None; expires_at := None;
     range_start := None; range_end := None |}.

(** [LogRecord::new_with_ttl]; [ttl] in nanoseconds. *)
Definition new_with_ttl (now : Z) (k v : bytes) (ttl : Z) : LogRecord :=
  {| key := k; value := v; timestamp := now; is_deleted := false;
     column_family := None;
     expires_at := Some (saturating_add u128_max now ttl);
     range_start := None; range_end := None |}.

(** [LogRecord::is_expired_at]; [is_expired] is the same at the current time. *)
Definition is_expired_at (r : LogRecord) (now : Z) : bool :=
  match expires_at r with Some e => e <=? now | None => false end.

(** [LogRecord::range_tombstone]. *)
Definition range_tombstone (now : Z) (start stop : bytes) : LogRecord :=
  {| key := start; value := []; timestamp := now; is_deleted := true;
     column_family := None; expires_at := None;
     range_start := Some start; range_end := Some stop |}.

(** [LogRecord::is_range_tombstone]. *)
Definition is_range_tombstone (r : LogRecord) : bool :=
  match range_start r, range_end r with Some _, Some _ => true | _, _ => false end.

(** [record.column_family = Some(cf)], and the update of [expires_at]. *)
Definition set_cf (cf : string) (r : LogRecord) : LogRecord :=
  {| key := key r; value := value r; timestamp := timestamp r; is_deleted := is_deleted r;
     column_family := Some cf; expires_at := expires_at r;
     range_start := range_start r; range_end := range_end r |}.
Definition set_expires_at (e : Z) (r : LogRecord) : LogRecord :=
  {| key := key r; value := value r; timestamp := timestamp r; is_deleted := is_deleted r;
     column_family := column_family r; expires_at := Some e;
     range_start := range_start r; range_end := range_end r |}.

(** [struct RangeTombstone] and [covers]. *)
Record RangeTombstone := mkRangeTombstone {
  start_key : bytes;
  end_key : bytes;
  rt_timestamp : Z;
}.

#[global] Instance RangeTombstone_eq_dec : EqDecision RangeTombstone.
Proof. solve_decision. Defined.

(** [RangeTombstone::new]. *)
Definition RangeTombstone_new (now : Z) (start stop : bytes) : RangeTombstone :=
  {| start_key := start; end_key := stop; rt_timestamp := now |}.

(** [RangeTombstone::covers]: [start_key <= key < end_key]. *)
Definition covers (rt : RangeTombstone) (k : bytes) : bool :=
  bytes_leb (start_key rt) k && bytes_ltb k (end_key rt).

(** The timestamp of the newest tombstone of a list that covers [k]: the
    [iter().filter(..).map(..).max()] of [MemTable::max_covering_range_tombstone]
    and of [Engine::covering_range_tombstone_ts]. *)
Definition max_covering (rts : list RangeTombstone) (k : bytes) : option Z :=
  maxZ_list (rt_timestamp <$> filter (fun rt => covers rt k = true) rts).

(** What a reader at time [now] sees of a record: its value, unless it is a
    tombstone or expired. *)
Definition live_value (now : Z) (r : LogRecord) : option bytes :=
  if is_deleted r || is_expired_at r now then None else Some (value r).

Lemma max_covering_app rts1 rts2 k :
  max_covering (rts1 ++ rts2) k =
  match max_covering rts1 k, max_covering rts2 k with
  | Some a, Some b => Some (Z.max a b)
  | Some a, None => Some a
  | None, o => o
  end.
Proof.
  unfold max_covering. rewrite filter_app, fmap_app.
  induction (rt_timestamp <$> filter _ rts1) as [|x l IH]; simpl; [by destruct (maxZ_list _)|].
  rewrite IH. repeat case_match; simplify_eq; try done; f_equal; lia.
Qed.

Lemma max_covering_spec rts k t :
  max_covering rts k = Some t ->
  (exists rt, rt ∈ rts /\ covers rt k = true /\ rt_timestamp rt = t) /\
  (forall rt, rt ∈ rts -> covers rt k = true -> rt_timestamp rt <= t).
Proof.
  unfold max_covering. intros [Hin Hmax]%maxZ_list_spec. split.
  - apply list_elem_of_fmap in Hin as (rt & -> & [Hc Hin]%list_elem_of_filter). eauto.
  - intros rt Hrt Hc. apply Hmax, list_elem_of_fmap. exists rt. split; [done|].
    by apply list_elem_of_filter.
Qed.

Lemma max_covering_None rts k :
  max_covering rts k = None -> forall rt, rt ∈ rts -> covers rt k = false.
Proof.
  unfold max_covering. intros H%maxZ_list_None rt Hrt.
  apply fmap_nil_inv in H. destruct (covers rt k) eqn:E; [|done]. exfalso.
  assert (rt ∈ filter (fun rt => covers rt k = true) rts) as Hin
    by (by apply list_elem_of_filter).
  rewrite H in Hin. set_solver.
Qed.
