(* ===== verification/Iterators.v ===== *)
(** * Iterators: the storage-iterator trait and its implementations

    [trait StorageIterator] ([src/src/core/iterators.rs]) is the interface the
    scans and the compaction are written against.  It is the class
    [StorageIterator] here, with the contract [StorageIteratorLaws]: an iterator
    denotes the list of entries it has still to yield.  The implementations
    are [MemTableIterator] ([src/src/storage/iterator.rs]), [TableIterator]
    ([src/src/core/table.rs]), the boxed trait object (a sum), and
    [MergeIterator], whose heap keeps one entry per source.  The merge theorem
    is proved against the class, so it holds for every implementation. *)
From Stdlib Require Import ZArith Lia.
From stdpp Require Import base tactics numbers list gmap sorting.
From S2P Require Import Prelude Bytes SortedMap LogRecord.

(** ** The trait *)

(** What an iterator yields for a key: the value bytes and, when the storage
    has it, the complete record. *)
Definition item : Type := bytes * option LogRecord.

Class StorageIterator (I : Type) := {
  it_next : I -> I;
  it_key : I -> bytes;
  it_value : I -> bytes;
  it_is_valid : I -> bool;
  it_seek : I -> bytes -> I;
  it_record : I -> option LogRecord;
  (** the entries still to come; ghost, used for specifications and fuel *)
  remaining : I -> list (bytes * item);
}.

(** The contract of the trait: what a well-formed iterator shows is the head
    of the entries it has still to yield, [next] drops that head, [seek] drops
    the keys below its argument. *)
Class StorageIteratorLaws (I : Type) `{!StorageIterator I} := {
  it_wf : I -> Prop;
  law_wf_next it : it_wf it -> it_wf (it_next it);
  law_wf_seek it k : it_wf it -> it_wf (it_seek it k);
  law_is_valid it :
    it_wf it -> it_is_valid it = match remaining it with [] => false | _ => true end;
  law_head it k i rest :
    it_wf it -> remaining it = (k, i) :: rest ->
    it_key it = k /\ it_value it = i.1 /\ it_record it = i.2;
  law_next it : it_wf it -> remaining (it_next it) = tail (remaining it);
  law_seek it k : it_wf it -> remaining (it_seek it k) = drop_below k (remaining it);
}.

(** ** [MemTableIterator]: a position in a sorted snapshot *)

Record MemTableIterator := mkMemTableIterator {
  mti_entries : list (bytes * LogRecord);
  mti_pos : nat;
}.

(** [MemTableIterator::new]. *)
Definition MemTableIterator_new (entries : list (bytes * LogRecord)) : MemTableIterator :=
  {| mti_entries := entries; mti_pos := 0 |}.

Definition mti_current (it : MemTableIterator) : option (bytes * LogRecord) :=
  mti_entries it !! mti_pos it.

Definition mti_is_valid (it : MemTableIterator) : bool := (mti_pos it <? length (mti_entries it))%nat.
Definition mti_record (it : MemTableIterator) : option LogRecord := snd <$> mti_current it.
Definition mti_key (it : MemTableIterator) : bytes :=
  match mti_current it with Some (k, _) => k | None => [] end.
Definition mti_value (it : MemTableIterator) : bytes :=
  match mti_current it with Some (_, r) => value r | None => [] end.
Definition mti_next (it : MemTableIterator) : MemTableIterator :=
  {| mti_entries := mti_entries it; mti_pos := S (mti_pos it) |}.

(** [while self.pos < self.entries.len() && self.entries[self.pos].0 < key { pos += 1 }];
    the fuel is the number of entries. *)
Fixpoint mti_seek_loop (fuel : nat) (k : bytes) (it : MemTableIterator) : MemTableIterator :=
  match fuel with
  | O => it
  | S fuel =>
      if mti_is_valid it && bytes_ltb (mti_key it) k
      then mti_seek_loop fuel k (mti_next it) else it
  end.
Definition mti_seek (it : MemTableIterator) (k : bytes) : MemTableIterator :=
  mti_seek_loop (length (mti_entries it)) k it.

(** The entries of a snapshot of records, as the trait shows them. *)
Definition mem_item (e : bytes * LogRecord) : bytes * item := (e.1, (value e.2, Some e.2)).

Definition mti_remaining (it : MemTableIterator) : list (bytes * item) :=
  mem_item <$> drop (mti_pos it) (mti_entries it).

#[global] Instance MemTableIterator_iterator : StorageIterator MemTableIterator := {
  it_next := mti_next; it_key := mti_key; it_value := mti_value;
  it_is_valid := mti_is_valid; it_seek := mti_seek; it_record := mti_record;
  remaining := mti_remaining;
}.

(** ** [TableIterator]: a [BTreeMap] iterator with a one-element lookahead *)

Record TableIterator := mkTableIterator {
  ti_inner : list (bytes * bytes);
  ti_current : option (bytes * bytes);
}.

(** [inner.next()] on the map iterator. *)
Definition ti_pull (inner : list (bytes * bytes)) : TableIterator :=
  match inner with
  | [] => {| ti_inner := []; ti_current := None |}
  | x :: inner => {| ti_inner := inner; ti_current := Some x |}
  end.

(** [TableIterator::new]. *)
Definition TableIterator_new (data : gmap bytes bytes) : TableIterator :=
  ti_pull (sorted_entries data).

Definition ti_next (it : TableIterator) : TableIterator := ti_pull (ti_inner it).
Definition ti_key (it : TableIterator) : bytes :=
  match ti_current it with Some (k, _) => k | None => [] end.
Definition ti_value (it : TableIterator) : bytes :=
  match ti_current it with Some (_, v) => v | None => [] end.
Definition ti_is_valid (it : TableIterator) : bool :=
  match ti_current it with Some _ => true | None => false end.

Fixpoint ti_seek_loop (fuel : nat) (k : bytes) (it : TableIterator) : TableIterator :=
  match fuel with
  | O => it
  | S fuel =>
      if ti_is_valid it && bytes_ltb (ti_key it) k then ti_seek_loop fuel k (ti_next it) else it
  end.
Definition ti_seek (it : TableIterator) (k : bytes) : TableIterator :=
  ti_seek_loop (S (length (ti_inner it))) k it.

Definition table_item (e : bytes * bytes) : bytes * item := (e.1, (e.2, None)).

Definition ti_remaining (it : TableIterator) : list (bytes * item) :=
  table_item <$>
  match ti_current it with Some x => x :: ti_inner it | None => [] end.

#[global] Instance TableIterator_iterator : StorageIterator TableIterator := {
  it_next := ti_next; it_key := ti_key; it_value := ti_value;
  it_is_valid := ti_is_valid; it_seek := ti_seek; it_record := fun _ => None;
  remaining := ti_remaining;
}.

(** ** [Box<dyn StorageIterator>]: dispatch on the implementation *)

#[global] Instance boxed_iterator {I J} `{!StorageIterator I, !StorageIterator J} :
  StorageIterator (I + J) := {
  it_next it := match it with inl i => inl (it_next i) | inr j => inr (it_next j) end;
  it_key it := match it with inl i => it_key i | inr j => it_key j end;
  it_value it := match it with inl i => it_value i | inr j => it_value j end;
  it_is_valid it := match it with inl i => it_is_valid i | inr j => it_is_valid j end;
  it_seek it k := match it with inl i => inl (it_seek i k) | inr j => inr (it_seek j k) end;
  it_record it := match it with inl i => it_record i | inr j => it_record j end;
  remaining it := match it with inl i => remaining i | inr j => remaining j end;
}.

(** ** [MergeIterator] *)

Section merge.
Context {I : Type} `{!StorageIterator I}.

(** [struct HeapEntry]. *)
Record HeapEntry := mkHeapEntry { he_iter : I; he_index : nat }.

(** [Ord for HeapEntry]: reversed, so that the maximum of the [BinaryHeap] is
    the smallest key and, among equal keys, the lowest index. *)
Definition HeapEntry_cmp (self other : HeapEntry) : comparison :=
  match bytes_cmp (it_key (he_iter other)) (it_key (he_iter self)) with
  | Eq => Nat.compare (he_index other) (he_index self)
  | c => c
  end.

(** [std::collections::BinaryHeap], as the bag of its elements: [pop] takes a
    greatest one. *)
Fixpoint heap_select (e : HeapEntry) (h : list HeapEntry) : HeapEntry * list HeapEntry :=
  match h with
  | [] => (e, [])
  | e' :: h =>
      match HeapEntry_cmp e e' with
      | Lt => let '(top, rest) := heap_select e' h in (top, e :: rest)
      | _ => let '(top, rest) := heap_select e h in (top, e' :: rest)
      end
  end.
Definition heap_pop (h : list HeapEntry) : option (HeapEntry * list HeapEntry) :=
  match h with [] => None | e :: h => Some (heap_select e h) end.
Definition heap_peek (h : list HeapEntry) : option HeapEntry := fst <$> heap_pop h.
Definition heap_push (e : HeapEntry) (h : list HeapEntry) : list HeapEntry := e :: h.

(** [struct MergeIterator]. *)
Record MergeIterator := mkMergeIterator {
  mi_heap : list HeapEntry;
  mi_current_key : option bytes;
}.

(** [entry.iter.next(); if entry.iter.is_valid() { heap.push(entry) }]. *)
Definition advance_push (e : HeapEntry) (h : list HeapEntry) : list HeapEntry :=
  let it := it_next (he_iter e) in
  if it_is_valid it then heap_push {| he_iter := it; he_index := he_index e |} h else h.

(** [MergeIterator::skip_duplicates]: while the top has the current key, pop
    it, advance it and push it back.  Fuel: every turn consumes one entry. *)
Fixpoint skip_duplicates_loop (fuel : nat) (cur : option bytes) (h : list HeapEntry)
    : list HeapEntry :=
  match fuel with
  | O => h
  | S fuel =>
      match heap_pop h with
      | None => h
      | Some (top, rest) =>
          match cur with
          | Some c =>
              if bytes_eqb (it_key (he_iter top)) c
              then skip_duplicates_loop fuel cur (advance_push top rest) else h
          | None => h
          end
      end
  end.

(** The number of entries the heap can still yield, duplicates included. *)
Definition heap_size (h : list HeapEntry) : nat :=
  sum_list_with (fun e => length (remaining (he_iter e))) h.

Definition skip_duplicates (cur : option bytes) (h : list HeapEntry) : list HeapEntry :=
  skip_duplicates_loop (heap_size h) cur h.

(** [MergeIterator::new]: only valid iterators enter the heap, with their
    position as the index. *)
Definition MergeIterator_new (iters : list I) : MergeIterator :=
  let h := foldl (fun h '(index, it) =>
             if it_is_valid it then heap_push {| he_iter := it; he_index := index |} h else h)
             [] (zip (seq 0 (length iters)) iters) in
  {| mi_heap := skip_duplicates None h; mi_current_key := None |}.

(** The trait methods of [MergeIterator]. *)
Definition mi_next (mi : MergeIterator) : MergeIterator :=
  match heap_pop (mi_heap mi) with
  | Some (top, rest) =>
      let cur := Some (it_key (he_iter top)) in
      {| mi_heap := skip_duplicates cur (advance_push top rest); mi_current_key := cur |}
  | None =>
      {| mi_heap := skip_duplicates (mi_current_key mi) (mi_heap mi);
         mi_current_key := mi_current_key mi |}
  end.
Definition mi_key (mi : MergeIterator) : bytes :=
  match heap_peek (mi_heap mi) with Some e => it_key (he_iter e) | None => [] end.
Definition mi_value (mi : MergeIterator) : bytes :=
  match heap_peek (mi_heap mi) with Some e => it_value (he_iter e) | None => [] end.
Definition mi_record (mi : MergeIterator) : option LogRecord :=
  match heap_peek (mi_heap mi) with Some e => it_record (he_iter e) | None => None end.
Definition mi_is_valid (mi : MergeIterator) : bool :=
  match mi_heap mi with [] => false | _ => true end.
Definition mi_seek (mi : MergeIterator) (k : bytes) : MergeIterator :=
  let h := foldl (fun h e =>
             let it := it_seek (he_iter e) k in
             if it_is_valid it then heap_push {| he_iter := it; he_index := he_index e |} h else h)
             [] (mi_heap mi) in
  {| mi_heap := skip_duplicates None h; mi_current_key := None |}.

(** The consumer loop of the scans and of the compaction:
    [while merged.is_valid() { ...; merged.next(); }]. *)
Fixpoint merge_collect_loop (fuel : nat) (mi : MergeIterator) : list (bytes * item) :=
  match fuel with
  | O => []
  | S fuel =>
      if mi_is_valid mi
      then (mi_key mi, (mi_value mi, mi_record mi)) :: merge_collect_loop fuel (mi_next mi)
      else []
  end.
Definition merge_collect (mi : MergeIterator) : list (bytes * item) :=
  merge_collect_loop (heap_size (mi_heap mi)) mi.

End merge.

Arguments HeapEntry I : clear implicits.
Arguments MergeIterator I : clear implicits.

(** ** The implementations satisfy the contract *)

Lemma mti_remaining_lookup it :
  mti_remaining it =
  match mti_current it with
  | Some (k, r) => (k, (value r, Some r)) :: mti_remaining (mti_next it)
  | None => []
  end.
Proof.
  unfold mti_remaining, mti_current. simpl.
  destruct (mti_entries it !! mti_pos it) as [[k r]|] eqn:E.
  - by rewrite (drop_S _ (k, r)).
  - apply lookup_ge_None in E. by rewrite drop_ge.
Qed.

Lemma mti_is_valid_current it :
  mti_is_valid it = match mti_current it with Some _ => true | None => false end.
Proof.
  unfold mti_is_valid, mti_current. destruct (mti_entries it !! mti_pos it) eqn:E.
  - apply lookup_lt_Some in E. by apply Nat.ltb_lt.
  - apply lookup_ge_None in E. by apply Nat.ltb_ge.
Qed.

Lemma mti_seek_loop_spec fuel k it :
  (length (mti_entries it) <= fuel + mti_pos it)%nat ->
  mti_remaining (mti_seek_loop fuel k it) = drop_below k (mti_remaining it).
Proof.
  revert it; induction fuel as [|fuel IH]; intros it Hf; simpl.
  - unfold mti_remaining. by rewrite drop_ge.
  - rewrite mti_is_valid_current, (mti_remaining_lookup it). unfold mti_key.
    destruct (mti_current it) as [[k' r]|] eqn:E; simpl.
    + destruct (bytes_ltb k' k).
      * apply IH. simpl. lia.
      * by rewrite (mti_remaining_lookup it), E.
    + by rewrite (mti_remaining_lookup it), E.
Qed.

#[global] Program Instance MemTableIterator_laws : StorageIteratorLaws MemTableIterator :=
  {| it_wf := fun _ => True |}.
Next Obligation. done. Qed.
Next Obligation. done. Qed.
Next Obligation.
  intros it _. simpl. rewrite mti_is_valid_current, mti_remaining_lookup. by repeat case_match.
Qed.
Next Obligation.
  intros it k i rest _. simpl. rewrite mti_remaining_lookup. unfold mti_key, mti_value, mti_record.
  destruct (mti_current it) as [[k' r]|]; intros; by simplify_eq/=.
Qed.
Next Obligation.
  intros it _. simpl. rewrite (mti_remaining_lookup it).
  destruct (mti_current it) as [[k r]|] eqn:E; [done|].
  unfold mti_current in E. apply lookup_ge_None in E.
  unfold mti_remaining. simpl. by rewrite drop_ge by lia.
Qed.
Next Obligation. intros it k _. apply mti_seek_loop_spec. lia. Qed.

Definition ti_wf (it : TableIterator) : Prop := ti_current it = None -> ti_inner it = [].

Lemma ti_pull_wf inner : ti_wf (ti_pull inner).
Proof. by destruct inner. Qed.

Lemma ti_pull_remaining inner :
  ti_remaining (ti_pull inner) = table_item <$> inner.
Proof. by destruct inner. Qed.

Lemma ti_seek_loop_spec fuel k it :
  ti_wf it -> (length (ti_inner it) < fuel)%nat ->
  ti_remaining (ti_seek_loop fuel k it) = drop_below k (ti_remaining it) /\
  ti_wf (ti_seek_loop fuel k it).
Proof.
  revert it; induction fuel as [|fuel IH]; intros it Hwf Hf; [lia|]. simpl.
  unfold ti_is_valid, ti_key. destruct (ti_current it) as [[k' v]|] eqn:E; simpl.
  - unfold ti_remaining at 2. rewrite E. simpl. destruct (bytes_ltb k' k).
    + destruct (ti_inner it) as [|x inner] eqn:Ei.
      * unfold ti_next. rewrite Ei. simpl. split; [destruct fuel; done|by destruct fuel].
      * destruct (IH (ti_next it)) as [H1 H2].
        { apply ti_pull_wf. } { unfold ti_next. rewrite Ei. simpl in *. lia. }
        split; [|done]. rewrite H1. unfold ti_next. by rewrite ti_pull_remaining, Ei.
    + split; [|done]. unfold ti_remaining. by rewrite E.
  - unfold ti_remaining. by rewrite E.
Qed.

#[global] Program Instance TableIterator_laws : StorageIteratorLaws TableIterator :=
  {| it_wf := ti_wf |}.
Next Obligation. intros it _. apply ti_pull_wf. Qed.
Next Obligation. intros it k H. apply ti_seek_loop_spec; [done|lia]. Qed.
Next Obligation.
  intros it _. simpl. unfold ti_is_valid, ti_remaining. by destruct (ti_current it).
Qed.
Next Obligation.
  intros it k i rest _. simpl. unfold ti_remaining, ti_key, ti_value, table_item.
  destruct (ti_current it) as [[k' v]|]; intros; by simplify_eq/=.
Qed.
Next Obligation.
  intros it H. simpl. unfold ti_next. rewrite ti_pull_remaining. unfold ti_remaining.
  destruct (ti_current it) eqn:E; [done|]. by rewrite (H E).
Qed.
Next Obligation. intros it k H. apply ti_seek_loop_spec; [done|lia]. Qed.

Lemma TableIterator_new_wf data : it_wf (TableIterator_new data).
Proof. apply ti_pull_wf. Qed.

Lemma TableIterator_new_remaining data :
  remaining (TableIterator_new data) = table_item <$> sorted_entries data.
Proof. apply ti_pull_remaining. Qed.

Definition boxed_wf {I J} `{!StorageIterator I, !StorageIterator J}
    `{!StorageIteratorLaws I, !StorageIteratorLaws J} (it : I + J) : Prop :=
  match it with inl i => it_wf i | inr j => it_wf j end.

#[global] Instance boxed_laws {I J} `{!StorageIterator I, !StorageIterator J}
    `{!StorageIteratorLaws I, !StorageIteratorLaws J} : StorageIteratorLaws (I + J).
Proof.
  refine {| it_wf := boxed_wf |}.
  - intros [i|j] H; simpl; by apply law_wf_next.
  - intros [i|j] k H; simpl; by apply law_wf_seek.
  - intros [i|j] H; simpl; by apply law_is_valid.
  - intros [i|j] k x rest H; simpl; by apply law_head.
  - intros [i|j] H; simpl; by apply law_next.
  - intros [i|j] k H; simpl; by apply law_seek.
Defined.

(** ** The merge *)

Section merge_laws.
Context {I : Type} `{!StorageIterator I, !StorageIteratorLaws I}.
Implicit Types (h : list (HeapEntry I)) (e top : HeapEntry I).

Abbreviation items e := (remaining (he_iter e)).

(** Well-formed heap: distinct indices, and every source is well-formed,
    strictly sorted and not exhausted. *)
Definition entry_ok e : Prop :=
  it_wf (he_iter e) /\ key_sorted (items e) /\ items e <> [].
Definition heap_ok h : Prop := NoDup (he_index <$> h) /\ Forall entry_ok h.

(** [e] is at least as high in the heap as [e']. *)
Definition prec (e e' : HeapEntry I) : Prop :=
  bytes_lt (it_key (he_iter e)) (it_key (he_iter e')) \/
  it_key (he_iter e) = it_key (he_iter e') /\ (he_index e <= he_index e')%nat.

Lemma prec_trans e1 e2 e3 : prec e1 e2 -> prec e2 e3 -> prec e1 e3.
Proof.
  unfold prec. intros [H1|[E1 H1]] [H2|[E2 H2]].
  - left. by etrans.
  - left. by rewrite <- E2.
  - left. by rewrite E1.
  - right. split; [congruence|lia].
Qed.

Lemma HeapEntry_cmp_prec e e' :
  match HeapEntry_cmp e e' with Lt => prec e' e | _ => prec e e' end.
Proof.
  unfold HeapEntry_cmp, prec.
  destruct (bytes_cmp (it_key (he_iter e')) (it_key (he_iter e))) eqn:E.
  - apply bytes_cmp_eq in E. destruct (Nat.compare_spec (he_index e') (he_index e));
      right; split; auto; lia.
  - left. by apply bytes_lt_cmp.
  - left. apply bytes_lt_cmp. by rewrite bytes_cmp_antisym, E.
Qed.

Lemma heap_select_spec e h top rest :
  heap_select e h = (top, rest) ->
  top :: rest ≡ₚ e :: h /\ Forall (prec top) (e :: h).
Proof.
  revert e top rest; induction h as [|e' h IH]; intros e top rest; simpl.
  { intros [= <- <-]. split; [done|]. constructor; [|done]. right. auto. }
  pose proof (HeapEntry_cmp_prec e e') as Hp.
  destruct (HeapEntry_cmp e e') eqn:E.
  1, 3: destruct (heap_select e h) as [t r] eqn:Es; intros [= <- <-];
    destruct (IH _ _ _ Es) as [Hperm Hall]; rewrite Forall_cons in Hall; destruct Hall;
    (split; [etrans; [apply perm_swap|]; rewrite Hperm; apply perm_swap|]);
    constructor; [done|]; constructor; [by eapply prec_trans|done].
  destruct (heap_select e' h) as [t r] eqn:Es; intros [= <- <-].
  destruct (IH _ _ _ Es) as [Hperm Hall]. split.
  - etrans; [apply perm_swap|]. by rewrite Hperm.
  - constructor; [|done]. rewrite Forall_cons in Hall. destruct Hall.
    by eapply prec_trans.
Qed.

Lemma heap_pop_spec h top rest :
  heap_pop h = Some (top, rest) -> h ≡ₚ top :: rest /\ Forall (prec top) h.
Proof.
  destruct h as [|e h]; simpl; [done|]. intros [= Es].
  destruct (heap_select_spec _ _ _ _ Es) as [Hp Ha]. split; [by symmetry|done].
Qed.

Lemma heap_ok_perm h h' : h ≡ₚ h' -> heap_ok h -> heap_ok h'.
Proof. intros Hp [H1 H2]. split; by rewrite <- Hp. Qed.

Lemma heap_size_perm h h' : h ≡ₚ h' -> heap_size h = heap_size h'.
Proof. induction 1; unfold heap_size in *; simpl; lia. Qed.

(** The items a heap offers for a key, with the index of their source. *)
Definition cands h (k : bytes) : list (nat * item) :=
  omap (fun e => pair (he_index e) <$> assoc k (items e)) h.

Lemma cands_cons e h k :
  cands (e :: h) k =
  match assoc k (items e) with
  | Some i => (he_index e, i) :: cands h k
  | None => cands h k
  end.
Proof. unfold cands. cbn. by destruct (assoc k (items e)). Qed.

(** The item of lowest index. *)
Definition winner (l : list (nat * item)) (i : item) : Prop :=
  exists n, (n, i) ∈ l /\ forall m j, (m, j) ∈ l -> (n <= m)%nat.

#[global] Instance winner_perm : Proper ((≡ₚ) ==> (=) ==> iff) winner.
Proof.
  intros l l' Hp i ? <-. unfold winner. split; intros (n & Hn & Hm); exists n; split.
  - by rewrite <- Hp. - intros m j. rewrite <- Hp. apply Hm.
  - by rewrite Hp. - intros m j. rewrite Hp. apply Hm.
Qed.

#[global] Instance cands_perm : Proper ((≡ₚ) ==> (=) ==> (≡ₚ)) cands.
Proof. intros h h' Hp k ? <-. unfold cands. by rewrite Hp. Qed.

Lemma elem_of_cands h k n i :
  (n, i) ∈ cands h k <-> exists e, e ∈ h /\ he_index e = n /\ assoc k (items e) = Some i.
Proof.
  unfold cands. rewrite list_elem_of_omap. split.
  - intros (e & He & Hi). destruct (assoc k (items e)) eqn:E; simplify_eq/=. eauto.
  - intros (e & He & <- & Hi). exists e. by rewrite Hi.
Qed.

Lemma winner_unique h k i j :
  heap_ok h -> winner (cands h k) i -> winner (cands h k) j -> i = j.
Proof.
  intros [Hnd _] (n & Hn & Hnm) (m & Hm & Hmm).
  assert (n = m) as <- by (specialize (Hnm _ _ Hm); specialize (Hmm _ _ Hn); lia).
  apply elem_of_cands in Hn as (e & He & Hi & Ea), Hm as (e' & He' & Hi' & Ea').
  assert (e = e') as <-; [|congruence].
  apply list_elem_of_lookup in He as [a Ha], He' as [b Hb].
  assert (a = b) as <-.
  { apply (NoDup_lookup _ _ _ n Hnd); rewrite list_lookup_fmap, ?Ha, ?Hb; simpl; congruence. }
  congruence.
Qed.

(** Advancing one source only takes its first key away. *)
Lemma advance_push_cands top rest c i tl k :
  entry_ok top -> items top = (c, i) :: tl -> k <> c ->
  cands (advance_push top rest) k = cands (top :: rest) k.
Proof.
  intros (Hwf & _ & _) Hi Hk. unfold advance_push.
  rewrite law_is_valid by (by apply law_wf_next). rewrite law_next, Hi by done. simpl.
  unfold cands. simpl. rewrite Hi. simpl. destruct (bytes_eqb_spec k c); [done|].
  destruct tl as [|x tl]; [done|]. simpl. by rewrite law_next, Hi by done.
Qed.

Lemma advance_push_ok top rest :
  heap_ok (top :: rest) -> heap_ok (advance_push top rest).
Proof.
  intros [Hnd Hall]. simpl in Hnd. apply NoDup_cons in Hnd as [Hin Hnd].
  apply Forall_cons in Hall as [(Hwf & Hs & Hne) Hall].
  unfold advance_push. rewrite law_is_valid by (by apply law_wf_next). rewrite law_next by done.
  destruct (tail (items top)) eqn:E; [by split|]. split; simpl.
  - by constructor.
  - constructor; [|done]. split; [by apply law_wf_next|]. simpl. rewrite law_next, E by done.
    split; [|done]. rewrite <- E. by apply key_sorted_tail.
Qed.

Lemma advance_push_size top rest :
  entry_ok top -> heap_size (advance_push top rest) = pred (heap_size (top :: rest)).
Proof.
  intros (Hwf & _ & Hne). unfold advance_push.
  rewrite law_is_valid by (by apply law_wf_next). unfold heap_size.
  destruct (remaining (it_next (he_iter top))) eqn:E; simpl; rewrite ?E;
    rewrite law_next in E by done; destruct (items top); simplify_eq/=; lia.
Qed.

Lemma elem_of_advance_push top rest e k i :
  entry_ok top -> e ∈ advance_push top rest -> (k, i) ∈ items e ->
  exists e', e' ∈ top :: rest /\ (k, i) ∈ items e'.
Proof.
  intros (Hwf & _ & _). unfold advance_push. case_match.
  - intros [->|He]%elem_of_cons Hk; [|exists e; split; [by right|done]].
    simpl in Hk. rewrite law_next in Hk by done. exists top. split; [by left|].
    destruct (items top); [done|]. by right.
  - intros He Hk. exists e. split; [by right|done].
Qed.

(** The key an entry shows is the first of its items. *)
Lemma entry_head e : entry_ok e -> exists i tl,
  items e = (it_key (he_iter e), i) :: tl /\
  it_value (he_iter e) = i.1 /\ it_record (he_iter e) = i.2.
Proof.
  intros (Hwf & _ & Hne). destruct (items e) as [|[k i] tl] eqn:E; [done|].
  destruct (law_head _ _ _ _ Hwf E) as (-> & ? & ?). eauto.
Qed.

(** Every key of the heap is at least the key of its top. *)
Lemma heap_top_min h top rest :
  heap_ok h -> heap_pop h = Some (top, rest) ->
  forall e k i, e ∈ h -> (k, i) ∈ items e -> bytes_le (it_key (he_iter top)) k.
Proof.
  intros [_ Hok] Hp e k i He Hk. apply heap_pop_spec in Hp as [_ Hmin].
  rewrite Forall_forall in Hok, Hmin. specialize (Hmin e He).
  destruct (entry_head e (Hok e He)) as (i0 & tl & Hi & _).
  destruct (Hok e He) as (_ & Hs & _). rewrite Hi in Hs, Hk.
  assert (bytes_le (it_key (he_iter e)) k) as Hle.
  { apply elem_of_cons in Hk as [[= -> ->]|Hk]; [done|].
    apply key_sorted_cons in Hs as [Hs _]. by apply bytes_lt_le, (Hs k i). }
  destruct Hmin as [?|[-> _]]; [|done]. by eapply bytes_lt_le, bytes_lt_le_trans.
Qed.

(** [skip_duplicates] drops the current key from every source and nothing
    else. *)
Lemma skip_duplicates_loop_spec fuel c h :
  heap_ok h -> (heap_size h <= fuel)%nat ->
  (forall e k i, e ∈ h -> (k, i) ∈ items e -> bytes_le c k) ->
  let h' := skip_duplicates_loop fuel (Some c) h in
  heap_ok h' /\ (heap_size h' <= heap_size h)%nat /\
  (forall e k i, e ∈ h' -> (k, i) ∈ items e -> bytes_lt c k) /\
  (forall k, k <> c -> cands h' k ≡ₚ cands h k).
Proof.
  revert h; induction fuel as [|fuel IH]; intros h Hok Hf Hc; simpl.
  - assert (h = []) as ->.
    { destruct h as [|e h]; [done|]. destruct Hok as [_ [(_&_&Hne) _]%Forall_cons].
      unfold heap_size in Hf. simpl in Hf. destruct (items e); [done|simpl in Hf; lia]. }
    split_and!; try done; set_solver.
  - destruct (heap_pop h) as [[top rest]|] eqn:Ep; cycle 1.
    { destruct h; [|done]. split_and!; try done; set_solver. }
    pose proof (heap_top_min _ _ _ Hok Ep) as Hmin.
    destruct (heap_pop_spec _ _ _ Ep) as [Hperm _].
    pose proof (heap_ok_perm _ _ Hperm Hok) as Hok'.
    pose proof (proj2 Hok') as Htop. apply Forall_cons in Htop as [Htop _].
    destruct (entry_head top Htop) as (i & tl & Hi & _).
    destruct (bytes_eqb_spec (it_key (he_iter top)) c) as [Hkc|Hkc].
    + destruct (IH (advance_push top rest)) as (H1 & H2 & H3 & H4).
      { by apply advance_push_ok. }
      { rewrite advance_push_size, <- (heap_size_perm _ _ Hperm) by done. lia. }
      { intros e k j He Hk. destruct (elem_of_advance_push _ _ _ _ _ Htop He Hk) as (e' & He' & Hk').
        eapply Hc; [|done]. by rewrite Hperm. }
      split; [done|]. split.
      { rewrite H2, advance_push_size, <- (heap_size_perm _ _ Hperm) by done. lia. }
      split; [done|]. intros k Hk. rewrite H4 by done.
      rewrite (advance_push_cands _ _ c i tl) by (congruence || done). by rewrite Hperm.
    + split_and!; [done|lia| |done]. intros e k j He Hk.
      eapply bytes_lt_le_trans; [|by eapply Hmin].
      assert (bytes_le c (it_key (he_iter top))) as Hle.
      { eapply (Hc top); [rewrite Hperm; by left|]. rewrite Hi. by left. }
      apply bytes_le_iff in Hle as [?|?]; [done|congruence].
Qed.

Lemma skip_duplicates_None h : skip_duplicates None h = h.
Proof.
  unfold skip_duplicates. destruct (heap_size h); simpl; [done|].
  destruct (heap_pop h) as [[? ?]|]; done.
Qed.

(** What the consumer loop yields: strictly increasing keys, and for each key
    the item of the newest source that has it. *)
Definition collects h (l : list (bytes * item)) : Prop :=
  key_sorted l /\ forall k i, assoc k l = Some i <-> winner (cands h k) i.

Lemma collects_nil : collects [] [].
Proof. split; [apply key_sorted_nil|]. intros k i. split; [done|]. intros (n & Hn & _). set_solver. Qed.

(** The item of the top of the heap is the one its key is due. *)
Lemma top_winner h top rest i tl :
  heap_ok h -> heap_pop h = Some (top, rest) ->
  items top = (it_key (he_iter top), i) :: tl ->
  winner (cands h (it_key (he_iter top))) i.
Proof.
  intros Hok Ep Hi. pose proof (heap_top_min _ _ _ Hok Ep) as Hmin.
  destruct (heap_pop_spec _ _ _ Ep) as [Hperm Hprec].
  exists (he_index top). split.
  - apply elem_of_cands. exists top. split; [rewrite Hperm; by left|]. split; [done|].
    rewrite Hi. simpl. by destruct (bytes_eqb_spec (it_key (he_iter top)) (it_key (he_iter top))).
  - intros m j (e & He & <- & Ha)%elem_of_cands.
    rewrite Forall_forall in Hprec. destruct (Hprec e He) as [Hlt|[_ ?]]; [|done]. exfalso.
    destruct Hok as [_ Hok]. rewrite Forall_forall in Hok.
    destruct (entry_head e (Hok e He)) as (i' & tl' & Hi' & _).
    destruct (Hok e He) as (_ & Hs & _). rewrite Hi' in Hs, Ha.
    apply assoc_Some_elem in Ha. apply elem_of_cons in Ha as [[= Hk _]|Ha].
    + rewrite <- Hk in Hlt. by apply bytes_lt_irrefl in Hlt.
    + apply key_sorted_cons in Hs as [Hs _]. apply Hs in Ha. by apply (bytes_lt_asym _ _ Hlt).
Qed.

(** One turn of the consumer loop. *)
Lemma mi_next_heap mi top rest :
  heap_ok (mi_heap mi) -> heap_pop (mi_heap mi) = Some (top, rest) ->
  let c := it_key (he_iter top) in
  let h' := mi_heap (mi_next mi) in
  heap_ok h' /\ (heap_size h' < heap_size (mi_heap mi))%nat /\
  (forall e k i, e ∈ h' -> (k, i) ∈ items e -> bytes_lt c k) /\
  (forall k, k <> c -> cands h' k ≡ₚ cands (mi_heap mi) k).
Proof.
  intros Hok Ep c h'. subst c h'. pose proof (heap_top_min _ _ _ Hok Ep) as Hmin.
  destruct (heap_pop_spec _ _ _ Ep) as [Hperm _].
  pose proof (heap_ok_perm _ _ Hperm Hok) as Hok'.
  pose proof (proj2 Hok') as Htop. apply Forall_cons in Htop as [Htop _].
  destruct (entry_head top Htop) as (i & tl & Hi & _).
  assert (heap_size (mi_heap mi) = S (heap_size (advance_push top rest))) as Hsize.
  { rewrite advance_push_size, (heap_size_perm _ _ Hperm) by done.
    unfold heap_size. simpl. rewrite Hi. simpl. lia. }
  destruct (skip_duplicates_loop_spec (heap_size (advance_push top rest))
    (it_key (he_iter top)) (advance_push top rest))
    as (H1 & H2 & H3 & H4); [by apply advance_push_ok|done| |].
  { intros e k j He Hk. destruct (elem_of_advance_push _ _ _ _ _ Htop He Hk) as (e' & He' & Hk').
    eapply Hmin; [|done]. by rewrite Hperm. }
  unfold mi_next. rewrite Ep. cbn [mi_heap].
  split; [done|]. split; [rewrite Hsize; unfold skip_duplicates; lia|]. split; [done|].
  intros k Hk. unfold skip_duplicates. rewrite H4 by done.
  rewrite (advance_push_cands _ _ _ i tl) by done. by rewrite Hperm.
Qed.

Lemma merge_collect_loop_spec fuel mi :
  heap_ok (mi_heap mi) -> (heap_size (mi_heap mi) <= fuel)%nat ->
  collects (mi_heap mi) (merge_collect_loop fuel mi).
Proof.
  revert mi; induction fuel as [|fuel IH]; intros mi Hok Hf; simpl.
  - destruct (mi_heap mi) as [|e h]; [apply collects_nil|].
    destruct Hok as [_ [(_&_&Hne) _]%Forall_cons].
    unfold heap_size in Hf. simpl in Hf. destruct (items e); [done|simpl in Hf; lia].
  - unfold mi_is_valid, mi_key, mi_value, mi_record, heap_peek.
    destruct (heap_pop (mi_heap mi)) as [[top rest]|] eqn:Ep; cycle 1.
    { destruct (mi_heap mi); [apply collects_nil|done]. }
    destruct (mi_heap mi) as [|e0 h0] eqn:Eh; [done|]. rewrite <- Eh in *. simpl.
    destruct (mi_next_heap mi top rest Hok Ep) as (H1 & H2 & H3 & H4).
    destruct (IH (mi_next mi)) as [Hs Ha]; [done|lia|].
    destruct (heap_pop_spec _ _ _ Ep) as [Hperm _].
    pose proof (heap_ok_perm _ _ Hperm Hok) as [_ [Htop _]%Forall_cons].
    destruct (entry_head top Htop) as (i & tl & Hi & -> & ->).
    replace (i.1, i.2) with i by (by destruct i).
    assert (forall k j, (k, j) ∈ merge_collect_loop fuel (mi_next mi) ->
                        bytes_lt (it_key (he_iter top)) k) as Hgt.
    { intros k j Hin. apply assoc_elem in Hin; [|done]. apply Ha in Hin as (n & Hn & _).
      apply elem_of_cands in Hn as (e & He & _ & Hk). eapply H3; [done|]. by apply assoc_Some_elem. }
    split; [by apply key_sorted_cons|]. intros k j. simpl.
    destruct (bytes_eqb_spec k (it_key (he_iter top))) as [->|Hk].
    + pose proof (top_winner _ _ _ _ _ Hok Ep Hi) as Hw. split; [by intros [= <-]|].
      intros Hj. f_equal. exact (winner_unique _ _ _ _ Hok Hw Hj).
    + rewrite Ha. by rewrite H4 by done.
Qed.

(** The consumer loop depends on the heap only up to its bag of sources. *)
Lemma collects_unique h l1 l2 : collects h l1 -> collects h l2 -> l1 = l2.
Proof.
  intros [Hs1 H1] [Hs2 H2]. apply key_sorted_ext; [done|done|]. intros k.
  destruct (assoc k l1) as [i|] eqn:E1.
  - symmetry. by apply H2, H1.
  - destruct (assoc k l2) as [j|] eqn:E2; [|done]. apply H2, H1 in E2. congruence.
Qed.

Lemma merge_collect_spec mi :
  heap_ok (mi_heap mi) -> collects (mi_heap mi) (merge_collect mi).
Proof. intros. by apply merge_collect_loop_spec. Qed.

(** ** The heap [MergeIterator::new] builds *)

Fixpoint init_heap (n : nat) (iters : list I) : list (HeapEntry I) :=
  match iters with
  | [] => []
  | it :: iters =>
      if it_is_valid it then {| he_iter := it; he_index := n |} :: init_heap (S n) iters
      else init_heap (S n) iters
  end.

Lemma MergeIterator_new_heap iters : mi_heap (MergeIterator_new iters) ≡ₚ init_heap 0 iters.
Proof.
  unfold MergeIterator_new. cbn [mi_heap]. rewrite skip_duplicates_None.
  rewrite <- (app_nil_r (init_heap 0 iters)). generalize (@nil (HeapEntry I)). generalize O.
  induction iters as [|it iters IH]; intros n acc; simpl; [done|].
  rewrite IH. destruct (it_is_valid it); [|done]. unfold heap_push.
  by rewrite <- Permutation_middle.
Qed.

Definition source_ok (it : I) : Prop := it_wf it /\ key_sorted (remaining it).

Lemma init_heap_index n iters e : e ∈ init_heap n iters -> (n <= he_index e)%nat.
Proof.
  revert n; induction iters as [|it iters IH]; intros n; simpl; [set_solver|].
  destruct (it_is_valid it); [intros [->|H]%elem_of_cons|intros H]; simpl; try lia;
    apply IH in H; lia.
Qed.

Lemma init_heap_ok n iters : Forall source_ok iters -> heap_ok (init_heap n iters).
Proof.
  intros Hall. revert n. induction Hall as [|it iters [Hwf Hs] Hall IH]; intros n; simpl.
  { split; constructor. }
  destruct (IH (S n)) as [H1 H2]. destruct (it_is_valid it) eqn:E; [|by split].
  rewrite law_is_valid in E by done. split; simpl.
  - constructor; [|done]. intros (e & He & Hin)%list_elem_of_fmap.
    apply init_heap_index in Hin. simpl in *. lia.
  - constructor; [|done]. split_and!; simpl; [done|done|]. intros Hn; by rewrite Hn in E.
Qed.

(** The abstract merge: a map in which an earlier source hides the later ones. *)
Definition newest_wins (ls : list (list (bytes * item))) : gmap bytes item :=
  foldr (fun l m => list_to_map l ∪ m) ∅ ls.

Lemma newest_wins_cons l ls k :
  newest_wins (l :: ls) !! k =
  match assoc k l with Some i => Some i | None => newest_wins ls !! k end.
Proof.
  simpl. rewrite lookup_union, assoc_list_to_map.
  destruct (assoc k l); simpl; [by destruct (newest_wins ls !! k)|].
  by destruct (newest_wins ls !! k).
Qed.

Lemma init_heap_winner n iters k i :
  Forall source_ok iters ->
  winner (cands (init_heap n iters) k) i <-> newest_wins (remaining <$> iters) !! k = Some i.
Proof.
  intros Hall. revert n. induction Hall as [|it iters [Hwf Hs] Hall IH]; intros n.
  { simpl. rewrite lookup_empty. split; [|done]. intros (? & ? & _). set_solver. }
  rewrite fmap_cons, newest_wins_cons. simpl. rewrite law_is_valid by done.
  destruct (remaining it) as [|x l] eqn:E; [by apply IH|]. rewrite <- E.
  rewrite cands_cons. cbn [he_iter he_index].
  destruct (assoc k (remaining it)) as [j|]; [|by apply IH]. split.
  - intros (m & [[= -> ->]|Hm]%elem_of_cons & Hmin); [done|]. exfalso.
    apply elem_of_cands in Hm as (e & He & <- & _). apply init_heap_index in He.
    specialize (Hmin n j). assert (he_index e <= n)%nat; [apply Hmin; by left|]. lia.
  - intros [= <-]. exists n. split; [by left|]. intros m j' [[= -> ->]|Hm]%elem_of_cons; [done|].
    apply elem_of_cands in Hm as (e & He & <- & _). apply init_heap_index in He. lia.
Qed.

Lemma MergeIterator_new_ok iters :
  Forall source_ok iters -> heap_ok (mi_heap (MergeIterator_new iters)).
Proof.
  intros H. eapply heap_ok_perm; [symmetry; apply MergeIterator_new_heap|]. by apply init_heap_ok.
Qed.

Lemma merge_collect_newest iters :
  Forall source_ok iters ->
  merge_collect (MergeIterator_new iters) = sorted_entries (newest_wins (remaining <$> iters)).
Proof.
  intros Hall. destruct (merge_collect_spec (MergeIterator_new iters)) as [Hs Ha].
  { by apply MergeIterator_new_ok. }
  apply key_sorted_ext; [done|apply sorted_entries_sorted|]. intros k.
  rewrite assoc_sorted_entries.
  assert (forall i, assoc k (merge_collect (MergeIterator_new iters)) = Some i <->
                    newest_wins (remaining <$> iters) !! k = Some i) as Heq.
  { intros i. rewrite Ha, MergeIterator_new_heap. by apply init_heap_winner. }
  destruct (assoc k (merge_collect _)) as [i|] eqn:E1.
  - symmetry. by apply Heq.
  - destruct (newest_wins _ !! k) as [j|] eqn:E2; [|done]. exact (proj2 (Heq j) eq_refl).
Qed.

(** ** [MergeIterator] itself satisfies the contract of the trait *)

#[global] Instance MergeIterator_iterator : StorageIterator (MergeIterator I) := {
  it_next := mi_next; it_key := mi_key; it_value := mi_value;
  it_is_valid := mi_is_valid; it_seek := mi_seek; it_record := mi_record;
  remaining := merge_collect;
}.

Definition seek_heap (k : bytes) h : list (HeapEntry I) :=
  omap (fun e => let it := it_seek (he_iter e) k in
                 if it_is_valid it then Some {| he_iter := it; he_index := he_index e |} else None) h.

Lemma seek_heap_cons k e h :
  seek_heap k (e :: h) =
  if it_is_valid (it_seek (he_iter e) k)
  then {| he_iter := it_seek (he_iter e) k; he_index := he_index e |} :: seek_heap k h
  else seek_heap k h.
Proof. unfold seek_heap. cbn. by destruct (it_is_valid (it_seek (he_iter e) k)). Qed.

Lemma mi_seek_heap mi k : mi_heap (mi_seek mi k) ≡ₚ seek_heap k (mi_heap mi).
Proof.
  unfold mi_seek. cbn [mi_heap]. rewrite skip_duplicates_None.
  rewrite <- (app_nil_r (seek_heap k _)). generalize (@nil (HeapEntry I)).
  induction (mi_heap mi) as [|e h IH]; intros acc; simpl; [done|].
  rewrite IH. destruct (it_is_valid _); [|done]. unfold heap_push.
  by rewrite <- Permutation_middle.
Qed.

Lemma seek_heap_ok k h : heap_ok h -> heap_ok (seek_heap k h).
Proof.
  intros [Hnd Hall]. induction h as [|e h IH]; [by split|]. simpl in Hnd.
  apply NoDup_cons in Hnd as [Hin Hnd]. apply Forall_cons in Hall as [(Hwf & Hs & _) Hall].
  destruct (IH Hnd Hall) as [H1 H2]. unfold seek_heap. simpl.
  destruct (it_is_valid (it_seek (he_iter e) k)) eqn:E; [|by split].
  rewrite law_is_valid in E by (by apply law_wf_seek). split; simpl.
  - constructor; [|done]. intros (e' & Hi & (e2 & He2 & Hs2)%list_elem_of_omap)%list_elem_of_fmap.
    case_match; simplify_eq/=. apply Hin, list_elem_of_fmap. eauto.
  - constructor; [|done]. split_and!; simpl; [by apply law_wf_seek| |intros Hn; by rewrite Hn in E].
    rewrite law_seek by done. by apply key_sorted_drop_below.
Qed.

Lemma seek_heap_cands k h k' :
  heap_ok h ->
  cands (seek_heap k h) k' = if bytes_leb k k' then cands h k' else [].
Proof.
  intros [_ Hall]. induction Hall as [|e h (Hwf & Hs & _) Hall IH]; [by case_match|].
  rewrite seek_heap_cons, law_is_valid by (by apply law_wf_seek).
  rewrite law_seek, drop_below_filter by done. rewrite cands_cons.
  pose proof (assoc_filter (fun x => bytes_le k x.1) (items e) k' Hs) as Ha.
  destruct (filter _ (items e)) as [|x l] eqn:E.
  - rewrite IH. destruct (bytes_leb_spec k k'); [|done]. simpl in Ha.
    destruct (assoc k' (items e)); [|done]. by rewrite decide_True in Ha.
  - rewrite cands_cons. cbn [he_iter he_index]. rewrite law_seek, drop_below_filter, E, Ha, IH by done.
    destruct (bytes_leb_spec k k'); destruct (assoc k' (items e)); try done.
    + by rewrite decide_True.
    + by rewrite decide_False.
Qed.

#[global] Instance MergeIterator_laws : StorageIteratorLaws (MergeIterator I).
Proof.
  refine {| it_wf := fun mi => heap_ok (mi_heap mi) |}.
  - intros mi Hok. simpl. destruct (heap_pop (mi_heap mi)) as [[top rest]|] eqn:Ep.
    + by apply (mi_next_heap mi top rest).
    + unfold mi_next. rewrite Ep. destruct (mi_heap mi); [|done]. cbn. split; constructor.
  - intros mi k Hok. simpl. eapply heap_ok_perm; [symmetry; apply mi_seek_heap|].
    by apply seek_heap_ok.
  - intros mi Hok. simpl. unfold merge_collect, mi_is_valid.
    destruct (mi_heap mi) as [|e h] eqn:Eh; [done|].
    destruct (heap_size (e :: h)) eqn:Es.
    + exfalso. destruct Hok as [_ [(_&_&Hne) _]%Forall_cons]. unfold heap_size in Es.
      simpl in Es. destruct (items e); [done|simpl in Es; lia].
    + simpl. unfold mi_is_valid. by rewrite Eh.
  - intros mi k i rest Hok. simpl. unfold merge_collect.
    destruct (heap_size (mi_heap mi)); simpl; [done|]. case_match; [|done]. by intros [= <- <- _].
  - intros mi Hok. simpl. destruct (heap_pop (mi_heap mi)) as [[top rest]|] eqn:Ep.
    + destruct (mi_next_heap mi top rest Hok Ep) as (H1 & H2 & _).
      apply (collects_unique (mi_heap (mi_next mi))); [by apply merge_collect_spec|].
      unfold merge_collect. destruct (heap_size (mi_heap mi)) eqn:Es; [lia|]. simpl.
      unfold mi_is_valid. destruct (mi_heap mi) eqn:Eh; [done|]. simpl.
      apply merge_collect_loop_spec; [done|lia].
    + destruct mi as [[|e h] c]; [done|done].
  - intros mi k Hok. simpl.
    apply (collects_unique (mi_heap (mi_seek mi k))).
    { apply merge_collect_spec. eapply heap_ok_perm; [symmetry; apply mi_seek_heap|].
      by apply seek_heap_ok. }
    destruct (merge_collect_spec mi Hok) as [Hs Ha]. split; [by apply key_sorted_drop_below|].
    intros k' i. rewrite mi_seek_heap, seek_heap_cands by done.
    rewrite drop_below_filter, assoc_filter by done.
    destruct (bytes_leb_spec k k') as [Hle|Hle].
    + rewrite <- Ha. destruct (assoc k' (merge_collect mi)); [|done]. by rewrite decide_True.
    + split.
      * destruct (assoc k' (merge_collect mi)); [|done]. by rewrite decide_False.
      * intros (? & ? & _). set_solver.
Defined.

End merge_laws.

(** ** Properties *)

(** C17: Merging any number of strictly sorted sources yields every key once, in
    strictly increasing order, with the item of the source of lowest index that
    has it (newest wins); after [seek(k)] the merge yields exactly the part of
    that sequence with keys not below [k].  The loops terminate: the statement
    is about the whole output, and holds of every implementation of the
    trait. *)
Theorem merge_iterator_newest_wins {I : Type} `{!StorageIterator I, !StorageIteratorLaws I}
    (iters : list I) (k : bytes) :
  Forall source_ok iters ->
  merge_collect (MergeIterator_new iters) = sorted_entries (newest_wins (remaining <$> iters)) /\
  merge_collect (mi_seek (MergeIterator_new iters) k) =
    filter (fun e => bytes_le k e.1) (sorted_entries (newest_wins (remaining <$> iters))).
Proof.
  intros Hall. split; [by apply merge_collect_newest|].
  change (remaining (it_seek (MergeIterator_new iters) k) =
          filter (fun e => bytes_le k e.1) (sorted_entries (newest_wins (remaining <$> iters)))).
  rewrite law_seek by (by apply MergeIterator_new_ok). simpl remaining.
  by rewrite merge_collect_newest, drop_below_filter by (done || apply sorted_entries_sorted).
Qed.

Lemma merge_iterator_newest_wins_witness :
  merge_collect (MergeIterator_new
    [MemTableIterator_new [([Byte.x61], LogRecord_new 9 [Byte.x61] [Byte.x32])];
     MemTableIterator_new [([Byte.x61], LogRecord_new 1 [Byte.x61] [Byte.x31]);
                           ([Byte.x62], LogRecord_new 2 [Byte.x62] [Byte.x33])]])
  = [([Byte.x61], ([Byte.x32], Some (LogRecord_new 9 [Byte.x61] [Byte.x32])));
     ([Byte.x62], ([Byte.x33], Some (LogRecord_new 2 [Byte.x62] [Byte.x33])))].
Proof.
  pose proof (merge_iterator_newest_wins
    [MemTableIterator_new [([Byte.x61], LogRecord_new 9 [Byte.x61] [Byte.x32])];
     MemTableIterator_new [([Byte.x61], LogRecord_new 1 [Byte.x61] [Byte.x31]);
                           ([Byte.x62], LogRecord_new 2 [Byte.x62] [Byte.x33])]] []) as H.
  destruct H as [H _]; [|rewrite H; vm_compute; reflexivity].
  repeat constructor.
Defined.
