(* ===== verification/MemTable.v ===== *)
(** * MemTable: the in-memory write buffer ([src/src/core/memtable.rs])

    A [DashMap] from keys to records with a running size estimate and a list of
    range tombstones.  The concurrent map is a [gmap]: all of its users hold the
    engine's lock, and every read-out of it is sorted by key. *)
From Stdlib Require Import ZArith Lia.
From stdpp Require Import base tactics numbers list gmap sorting strings.
From S2P Require Import Prelude Bytes SortedMap LogRecord Iterators.

(** [struct MemTable]. *)
Record MemTable := mkMemTable {
  data : gmap bytes LogRecord;
  size_bytes : Z;
  max_size_bytes : Z;
  range_tombstones : list RangeTombstone;
}.

(** [MemTable::new]. *)
Definition MemTable_new (max_size_bytes : Z) : MemTable :=
  {| data := ∅; size_bytes := 0; max_size_bytes := max_size_bytes; range_tombstones := [] |}.

(** [MemTable::new_unlimited]. *)
Definition new_unlimited : MemTable := MemTable_new 0.

(** [MemTable::estimate_size]. *)
Definition estimate_size (r : LogRecord) : Z := len (key r) + len (value r) + 51.

(** [MemTable::insert]: the old record's estimate is taken off the size, the
    new one's is added, both saturating. *)
Definition mem_insert (mem : MemTable) (r : LogRecord) : MemTable :=
  let record_size := estimate_size r in
  let size := match data mem !! key r with
              | Some old => saturating_sub (size_bytes mem) (estimate_size old)
              | None => size_bytes mem
              end in
  {| data := <[key r := r]> (data mem);
     size_bytes := saturating_add usize_max size record_size;
     max_size_bytes := max_size_bytes mem;
     range_tombstones := range_tombstones mem |}.

(** [MemTable::put] and [MemTable::delete]. *)
Definition mem_put (now : Z) (mem : MemTable) (k v : bytes) : MemTable :=
  mem_insert mem (LogRecord_new now k v).
Definition mem_delete (now : Z) (mem : MemTable) (k : bytes) : MemTable :=
  mem_insert mem (tombstone now k).

(** [MemTable::should_flush]. *)
Definition should_flush (mem : MemTable) : bool := max_size_bytes mem <=? size_bytes mem.

(** [MemTable::get]. *)
Definition mem_get (mem : MemTable) (k : bytes) : option LogRecord := data mem !! k.

(** [MemTable::iter], [iter_ordered]: a sorted snapshot. *)
Definition mem_iter (mem : MemTable) : MemTableIterator :=
  MemTableIterator_new (sort_entries (map_to_list (data mem))).

(** [MemTable::iter_from]: the entries with [key >= start_key], then sorted. *)
Definition mem_iter_from (mem : MemTable) (start : bytes) : MemTableIterator :=
  MemTableIterator_new
    (sort_entries (filter (fun e => bytes_le start e.1) (map_to_list (data mem)))).

(** [MemTable::iter_ordered]. *)
Definition mem_iter_ordered (mem : MemTable) : list (bytes * LogRecord) :=
  sort_entries (map_to_list (data mem)).

(** [MemTable::add_range_tombstone]. *)
Definition add_range_tombstone (mem : MemTable) (rt : RangeTombstone) : MemTable :=
  {| data := data mem; size_bytes := size_bytes mem; max_size_bytes := max_size_bytes mem;
     range_tombstones := range_tombstones mem ++ [rt] |}.

(** [MemTable::max_covering_range_tombstone], [contains_range_tombstone]. *)
Definition max_covering_range_tombstone (mem : MemTable) (k : bytes) : option Z :=
  max_covering (range_tombstones mem) k.
Definition contains_range_tombstone (mem : MemTable) (k : bytes) : bool :=
  match max_covering_range_tombstone mem k with Some _ => true | None => false end.

(** [MemTable::len], [is_empty], [size]. *)
Definition mem_len (mem : MemTable) : Z := Z.of_nat (size (data mem)).
Definition mem_is_empty (mem : MemTable) : bool := bool_decide (data mem = ∅).

(** [MemTable::clear]: the number of records and the emptied table. *)
Definition mem_clear (mem : MemTable) : Z * MemTable :=
  (mem_len mem,
   {| data := ∅; size_bytes := 0; max_size_bytes := max_size_bytes mem; range_tombstones := [] |}).

(** ** The size estimate *)

(** The estimate a fresh count of the records would give. *)
Definition data_size (m : gmap bytes LogRecord) : Z :=
  sumZ (fun e => estimate_size e.2) (map_to_list m).

(** Representation invariant: every record is filed under its own key, and the
    running estimate is the sum over the records. *)
Definition mem_ok (mem : MemTable) : Prop :=
  map_Forall (fun k r => key r = k) (data mem) /\ size_bytes mem = data_size (data mem).

Lemma estimate_size_pos r : 51 <= estimate_size r.
Proof. unfold estimate_size. pose proof (len_nonneg (key r)). pose proof (len_nonneg (value r)). lia. Qed.

Lemma data_size_insert_fresh m k r :
  m !! k = None -> data_size (<[k := r]> m) = estimate_size r + data_size m.
Proof. intros H. unfold data_size. by rewrite map_to_list_insert. Qed.

Lemma data_size_insert m k r :
  data_size (<[k := r]> m) =
  data_size m - (match m !! k with Some old => estimate_size old | None => 0 end)
  + estimate_size r.
Proof.
  destruct (m !! k) as [old|] eqn:E; [|rewrite data_size_insert_fresh by done; lia].
  rewrite <- (insert_delete_eq m k r), data_size_insert_fresh by apply lookup_delete_eq.
  rewrite <- (insert_id m k old E) at 2.
  rewrite <- (insert_delete_eq m k old), data_size_insert_fresh by apply lookup_delete_eq. lia.
Qed.

Lemma data_size_nonneg m : 0 <= data_size m.
Proof.
  unfold data_size. induction (map_to_list m) as [|[k r] l IH]; simpl; [lia|].
  pose proof (estimate_size_pos r). lia.
Qed.

Lemma data_size_lookup m k r : m !! k = Some r -> estimate_size r <= data_size m.
Proof.
  intros E. rewrite <- (insert_id m k r E), <- insert_delete_eq.
  rewrite data_size_insert_fresh by apply lookup_delete_eq.
  pose proof (data_size_nonneg (delete k m)). lia.
Qed.

Lemma mem_new_ok n : mem_ok (MemTable_new n).
Proof. split; [apply map_Forall_empty|]. done. Qed.

Lemma mem_insert_ok mem r :
  mem_ok mem -> data_size (<[key r := r]> (data mem)) <= usize_max ->
  mem_ok (mem_insert mem r).
Proof.
  intros [Hk Hs] Hmax. split; simpl.
  - by apply map_Forall_insert_2.
  - rewrite data_size_insert in *. rewrite Hs. unfold saturating_add, saturating_sub.
    destruct (data mem !! key r) as [old|] eqn:E; [|lia].
    pose proof (data_size_lookup _ _ _ E). lia.
Qed.

Lemma mem_iter_entries mem : mti_entries (mem_iter mem) = sorted_entries (data mem).
Proof. done. Qed.

Lemma mem_iter_remaining mem : remaining (mem_iter mem) = mem_item <$> sorted_entries (data mem).
Proof.
  simpl. unfold mti_remaining. simpl. by rewrite drop_0.
Qed.

Lemma mem_iter_source_ok mem : source_ok (mem_iter mem).
Proof.
  split; [done|]. rewrite mem_iter_remaining.
  apply key_sorted_fmap; [done|]. apply sorted_entries_sorted.
Qed.

(** ** Properties *)

(** After any sequence of inserts into a fresh table, the running size
    estimate equals the sum of the estimates of the records the table holds, as
    long as the inserted records together stay below [usize::MAX]: overwriting a
    key takes exactly the old record's share off. *)
Theorem memtable_size_exact (limit : Z) (rs : list LogRecord) :
  sumZ estimate_size rs <= usize_max ->
  let mem := foldl mem_insert (MemTable_new limit) rs in
  size_bytes mem = data_size (data mem) /\
  (forall k r, mem_get mem k = Some r -> key r = k).
Proof.
  intros Hsum mem.
  assert (forall m, mem_ok m -> data_size (data m) + sumZ estimate_size rs <= usize_max ->
            mem_ok (foldl mem_insert m rs)) as Hgen.
  { clear. induction rs as [|r rs IH]; intros m Hok Hs; simpl in *; [done|].
    pose proof (data_size_insert (data m) (key r) r) as Hd.
    assert (0 <= match data m !! key r with Some old => estimate_size old | None => 0 end) as Hold.
    { destruct (data m !! key r) as [old|]; [pose proof (estimate_size_pos old)|]; lia. }
    assert (0 <= sumZ estimate_size rs) as Hrs.
    { clear. induction rs as [|r rs IH]; simpl; [lia|]. pose proof (estimate_size_pos r). lia. }
    apply IH; [apply mem_insert_ok; [done|]|simpl]; lia. }
  destruct (Hgen (MemTable_new limit)) as [Hk Hsz].
  { apply mem_new_ok. } { simpl. unfold data_size. rewrite map_to_list_empty. simpl. lia. }
  split; [done|]. intros k r. apply Hk.
Qed.

Lemma memtable_size_exact_witness :
  let mem := foldl mem_insert (MemTable_new 1024)
    [LogRecord_new 1 [Byte.x61] [Byte.x62]; tombstone 2 [Byte.x61]] in
  size_bytes mem = 52.
Proof.
  destruct (memtable_size_exact 1024
    [LogRecord_new 1 [Byte.x61] [Byte.x62]; tombstone 2 [Byte.x61]]) as [H _];
    [vm_compute; discriminate|].
  intros mem. unfold mem. rewrite H. vm_compute. reflexivity.
Defined.

(** [iter_from(start)] (filter the unordered map, then sort) yields exactly
    what [iter()] yields after [seek(start)]: the records with a key not below
    [start], in strictly increasing key order. *)
Theorem memtable_iter_from_seek (mem : MemTable) (start : bytes) :
  remaining (mem_iter_from mem start) = remaining (it_seek (mem_iter mem) start) /\
  key_sorted (remaining (mem_iter_from mem start)).
Proof.
  unfold mem_iter_from, remaining. cbn [MemTableIterator_iterator]. unfold mti_remaining at 1 3.
  cbn [MemTableIterator_new mti_pos mti_entries]. rewrite !drop_0.
  rewrite (sort_entries_unique _ (filter (fun e => bytes_le start e.1)
                                    (sorted_entries (data mem)))).
  2: by rewrite sorted_entries_Permutation. 2: apply key_sorted_filter, sorted_entries_sorted.
  split.
  - change (mti_remaining (it_seek (mem_iter mem) start))
      with (remaining (it_seek (mem_iter mem) start)).
    rewrite law_seek, mem_iter_remaining, <- drop_below_filter by (done || apply sorted_entries_sorted).
    by rewrite drop_below_fmap.
  - apply key_sorted_fmap; [done|]. apply key_sorted_filter, sorted_entries_sorted.
Qed.

(** A table made by [new_unlimited] (the only kind the engine makes) always
    answers [should_flush() = true], whatever was inserted. *)
Theorem unlimited_memtable_should_flush (rs : list LogRecord) :
  should_flush (foldl mem_insert new_unlimited rs) = true.
Proof.
  unfold should_flush.
  assert (forall m, max_size_bytes m = 0 -> 0 <= size_bytes m ->
    (max_size_bytes (foldl mem_insert m rs) <=? size_bytes (foldl mem_insert m rs)) = true) as H.
  { induction rs as [|r rs IH]; intros m Hm Hs; simpl; [rewrite Hm; by apply Z.leb_le|].
    apply IH; [done|]. simpl. pose proof (estimate_size_pos r).
    unfold saturating_add, saturating_sub, usize_max, u64_max.
    destruct (data m !! key r) as [old|]; lia. }
  by apply H.
Qed.
