(* ===== verification/Extern.v ===== *)
(** * Extern: the third-party crates the engine calls

    Code that is not in the repository is a parameter of the model: a class
    with its operations, and the documented behaviour the engine relies on as
    its laws.  [Postcard] is [postcard] through [src/src/infra/codec.rs];
    [Crc32] is [crc32fast]; [Lz4] is [lz4_flex]; [Aead] is [aes-gcm]
    (AES-256-GCM); [BloomCrate] is [bloomfilter]; [Moka] is [moka].  The file [Instances] has
    concrete instances of all of them. *)
From Stdlib Require Import ZArith Lia QArith.
From stdpp Require Import base tactics numbers list gmap strings.
From S2P Require Import Prelude Bytes.
Local Open Scope Z_scope.

(** ** [postcard] *)

(** [postcard::to_allocvec] and [postcard::from_bytes] at a type; decoding an
    encoding gives the value back. *)
Class Postcard (A : Type) := {
  to_allocvec : A -> option bytes;
  from_bytes : bytes -> option A;
  from_to_allocvec a b : to_allocvec a = Some b -> from_bytes b = Some a;
}.

(** [codec::encode] and [codec::decode] ([src/src/infra/codec.rs]). *)
Definition encode {A} `{!Postcard A} (a : A) : outcome bytes := ok_or (to_allocvec a) Codec.
Definition decode {A} `{!Postcard A} (b : bytes) : outcome A := ok_or (from_bytes b) Codec.

Lemma decode_encode {A} `{!Postcard A} (a : A) b : encode a = Ok b -> decode b = Ok a.
Proof.
  unfold encode, decode. destruct (to_allocvec a) eqn:E; [|done]. intros [= <-].
  by rewrite (from_to_allocvec _ _ E).
Qed.

(** ** [crc32fast] *)

(** [Hasher::new(); update(..)*; finalize()]: a function of the concatenation
    of the updates, with a 32-bit result. *)
Class Crc32 := {
  crc32 : bytes -> Z;
  crc32_range b : 0 <= crc32 b <= u32_max;
}.

(** ** [lz4_flex] *)

(** [compress_prepend_size] writes the uncompressed length as a little-endian
    [u32] in front of the block, and expands by at most [n/255 + 16] bytes;
    [decompress_size_prepended] inverts it. *)
Class Lz4 := {
  compress_prepend_size : bytes -> bytes;
  decompress_size_prepended : bytes -> option bytes;
  lz4_roundtrip b :
    len b <= u32_max -> decompress_size_prepended (compress_prepend_size b) = Some b;
  lz4_prefix b :
    len b <= u32_max -> exists rest, compress_prepend_size b = u32_le (len b) ++ rest;
  lz4_bound b : len (compress_prepend_size b) <= 4 + len b + len b / 255 + 16;
}.

(** ** [aes-gcm] *)

(** [Aes256Gcm::encrypt]/[decrypt] under a key and a nonce: the ciphertext is
    the plaintext's length plus a 16-byte tag, and authenticates under the same
    key and nonce. *)
Class Aead := {
  aead_encrypt : bytes -> bytes -> bytes -> option bytes;
  aead_decrypt : bytes -> bytes -> bytes -> option bytes;
  aead_roundtrip k n p c : aead_encrypt k n p = Some c -> aead_decrypt k n c = Some p;
  aead_length k n p c : aead_encrypt k n p = Some c -> len c = len p + 16;
}.

(** ** [bloomfilter] *)

(** [Bloom::new_for_fp_rate], [set], [check], [into_bytes], [from_bytes]: no
    false negatives, and the serialised filter answers as the original. *)
Class BloomCrate := {
  Bloom : Type;
  bloom_new_for_fp_rate : Z -> Q -> option Bloom;
  bloom_set : Bloom -> bytes -> Bloom;
  bloom_check : Bloom -> bytes -> bool;
  bloom_into_bytes : Bloom -> bytes;
  bloom_from_bytes : bytes -> option Bloom;
  bloom_check_set b k : bloom_check (bloom_set b k) k = true;
  bloom_check_mono b k k' : bloom_check b k = true -> bloom_check (bloom_set b k') k = true;
  bloom_roundtrip b :
    exists b', bloom_from_bytes (bloom_into_bytes b) = Some b' /\
               forall k, bloom_check b' k = bloom_check b k;
}.

(** ** [moka] *)

(** [moka::sync::Cache]: a concurrent map with a capacity; after an insertion
    it may have dropped any of its entries. *)
Class Moka (K V : Type) `{Countable K} := {
  moka_evict : gmap K V -> gmap K V;
  moka_evict_sub m : moka_evict m ⊆ m;
}.
Definition moka_get {K V} `{Moka K V} (m : gmap K V) (k : K) : option V := m !! k.
Definition moka_insert {K V} `{Moka K V} (m : gmap K V) (k : K) (v : V) : gmap K V :=
  moka_evict (<[k := v]> m).

Lemma moka_insert_lookup {K V} `{Moka K V} (m : gmap K V) k v k' v' :
  moka_insert m k v !! k' = Some v' -> (k' = k /\ v' = v) \/ m !! k' = Some v'.
Proof.
  unfold moka_insert. intros Hl. eapply lookup_weaken in Hl; [|apply moka_evict_sub].
  destruct (decide (k' = k)) as [->|].
  - rewrite lookup_insert_eq in Hl. left. by simplify_eq.
  - rewrite lookup_insert_ne in Hl by done. auto.
Qed.

Lemma bloom_check_foldl `{!BloomCrate} b ks k :
  k ∈ ks \/ bloom_check b k = true -> bloom_check (foldl bloom_set b ks) k = true.
Proof.
  revert b; induction ks as [|k' ks IH]; intros b; simpl; [set_solver|].
  intros Hin. apply IH. rewrite elem_of_cons in Hin. destruct Hin as [[->|]|]; auto.
  - right. apply bloom_check_set.
  - right. by apply bloom_check_mono.
Qed.
