(* ===== verification/Encryption.v ===== *)
(** * Encryption: encryption at rest ([src/src/storage/encryption.rs])

    The [Encryptor] passes data through when it is disabled; otherwise a block
    is a fresh 12-byte nonce followed by the AES-256-GCM ciphertext.  The
    operating system's entropy source is an argument: the nonce the next read
    returns, or [None] when the source fails. *)
From Stdlib Require Import ZArith Lia.
From stdpp Require Import base tactics numbers list.
From S2P Require Import Prelude Bytes Extern.

(** [struct EncryptionConfig]. *)
Record EncryptionConfig := mkEncryptionConfig {
  ec_key : bytes;
  ec_enabled : bool;
}.

(** The all-zero key. *)
Definition zero_key : bytes := replicate 32 Byte.x00.

(** [EncryptionConfig::default]. *)
Definition EncryptionConfig_default : EncryptionConfig :=
  {| ec_key := zero_key; ec_enabled := false |}.

(** [hex::decode] of an ASCII string. *)
Definition hex_digit (b : byte) : option Z :=
  let x := byte_to_Z b in
  if (48 <=? x) && (x <=? 57) then Some (x - 48)
  else if (97 <=? x) && (x <=? 102) then Some (x - 87)
  else if (65 <=? x) && (x <=? 70) then Some (x - 55)
  else None.
Fixpoint hex_decode (s : bytes) : option bytes :=
  match s with
  | [] => Some []
  | h :: l :: s =>
      match hex_digit h, hex_digit l, hex_decode s with
      | Some a, Some b, Some r => Some (byte_of_Z (16 * a + b) :: r)
      | _, _, _ => None
      end
  | [_] => None
  end.

(** [str::trim] on the ASCII whitespace a key file can hold. *)
Definition is_ascii_space (b : byte) : bool :=
  let x := byte_to_Z b in (x =? 32) || ((9 <=? x) && (x <=? 13)).
Fixpoint trim_start (s : bytes) : bytes :=
  match s with
  | b :: s' => if is_ascii_space b then trim_start s' else s
  | [] => []
  end.
Definition trim (s : bytes) : bytes := reverse (trim_start (reverse (trim_start s))).

(** [EncryptionConfig::from_key_path]; [contents] is what reading the file
    gives ([None] when it cannot be read). *)
Definition from_key_path (path : option (option bytes)) : outcome EncryptionConfig :=
  match path with
  | None => Ok EncryptionConfig_default
  | Some contents =>
      let* contents := ok_or contents InvalidArgument in
      let* key_bytes := ok_or (hex_decode (trim contents)) InvalidArgument in
      if negb (len key_bytes =? 32) then Err InvalidArgument
      else if bytes_eqb key_bytes zero_key then Err LegacyEncryptionMigrationRequired
      else Ok {| ec_key := key_bytes; ec_enabled := true |}
  end.

(** [EncryptionConfig::from_storage_config]: the key path is required, and must
    not be blank, when encryption is on.  [key_path] is the configured path with
    the contents of the file it names. *)
Definition from_storage_config (encryption_enabled : bool)
    (key_path : option (bytes * option bytes)) : outcome EncryptionConfig :=
  if negb encryption_enabled then Ok EncryptionConfig_default
  else match key_path with
       | Some (path, contents) =>
           if bytes_eqb (trim path) [] then Err EncryptionKeyRequired
           else from_key_path (Some contents)
       | None => Err EncryptionKeyRequired
       end.

(** [struct Encryptor]: the cipher is the key it was made from. *)
Record Encryptor := mkEncryptor {
  cipher : option bytes;
  enabled : bool;
}.

(** [Encryptor::new] and [Encryptor::disabled]. *)
Definition Encryptor_new (config : EncryptionConfig) : Encryptor :=
  {| cipher := if ec_enabled config then Some (ec_key config) else None;
     enabled := ec_enabled config |}.
Definition Encryptor_disabled : Encryptor := {| cipher := None; enabled := false |}.

Section encryptor.
Context `{!Aead}.

(** [Encryptor::encrypt_block] ([encrypt_block_with_rng]). *)
Definition encrypt_block (self : Encryptor) (nonce : option bytes) (plaintext : bytes)
    : outcome bytes :=
  if negb (enabled self) then Ok plaintext
  else
    let* key := ok_or (cipher self) CompactionFailed in
    let* nonce_bytes := ok_or nonce CompactionFailed in
    let* ciphertext := ok_or (aead_encrypt key nonce_bytes plaintext) CompactionFailed in
    Ok (nonce_bytes ++ ciphertext).

(** [Encryptor::decrypt_block]. *)
Definition decrypt_block (self : Encryptor) (data : bytes) : outcome bytes :=
  if negb (enabled self) then Ok data
  else
    let* key := ok_or (cipher self) CompactionFailed in
    if len data <? 12 then Err CorruptedData
    else ok_or (aead_decrypt key (take 12 data) (drop 12 data)) EncryptionAuthenticationFailed.

(** [Encryptor::decrypt_for_recovery]: a failure is reported as a legacy
    migration when the all-zero key opens the data. *)
Definition decrypt_for_recovery (self : Encryptor) (data : bytes) : outcome bytes :=
  let result := if enabled self then decrypt_block self data else Err EncryptionKeyRequired in
  match result with
  | Ok plaintext => Ok plaintext
  | Panic => Panic
  | Err error =>
      let legacy := Encryptor_new {| ec_enabled := true; ec_key := zero_key |} in
      match decrypt_block legacy data with
      | Ok _ => Err LegacyEncryptionMigrationRequired
      | Panic => Panic
      | Err _ => Err error
      end
  end.

Lemma decrypt_encrypt_block self nonce p c :
  (forall n, nonce = Some n -> len n = 12) ->
  encrypt_block self nonce p = Ok c -> decrypt_block self c = Ok p.
Proof.
  intros Hn. unfold encrypt_block, decrypt_block.
  destruct (enabled self); simpl; [|by intros [= ->]].
  destruct (cipher self) as [k|]; simpl; [|done].
  destruct nonce as [n|]; simpl; [|done]. specialize (Hn n eq_refl).
  destruct (aead_encrypt k n p) as [ct|] eqn:E; simpl; [|done]. intros [= <-].
  pose proof (aead_length _ _ _ _ E). pose proof (aead_roundtrip _ _ _ _ E) as Hd.
  pose proof (len_nonneg p).
  rewrite (proj2 (Z.ltb_ge _ _)) by (rewrite len_app; lia).
  replace (take 12 (n ++ ct)) with n by (rewrite take_app_length'; [done|unfold len in Hn; lia]).
  replace (drop 12 (n ++ ct)) with ct by (rewrite drop_app_length'; [done|unfold len in Hn; lia]).
  by rewrite Hd.
Qed.

Lemma encrypt_block_len self nonce p c :
  (forall n, nonce = Some n -> len n = 12) ->
  encrypt_block self nonce p = Ok c ->
  len c = len p + (if enabled self then 28 else 0).
Proof.
  intros Hn. unfold encrypt_block.
  destruct (enabled self); simpl; [|intros [= ->]; lia].
  destruct (cipher self) as [k|]; simpl; [|done].
  destruct nonce as [n|]; simpl; [|done]. specialize (Hn n eq_refl).
  destruct (aead_encrypt k n p) as [ct|] eqn:E; simpl; [|done]. intros [= <-].
  pose proof (aead_length _ _ _ _ E). rewrite len_app. lia.
Qed.

(** What recovery decrypts is exactly what was encrypted: under an enabled
    encryptor [decrypt_for_recovery] inverts [encrypt_block]; a disabled
    encryptor never returns data for an encrypted payload, it reports a missing
    key or, when the all-zero key opens the payload, a required migration. *)
Theorem encrypted_payload_recovery (self : Encryptor) (nonce p c : bytes) :
  len nonce = 12 ->
  encrypt_block self (Some nonce) p = Ok c ->
  (enabled self = true -> decrypt_for_recovery self c = Ok p) /\
  (decrypt_for_recovery Encryptor_disabled c = Err EncryptionKeyRequired \/
   decrypt_for_recovery Encryptor_disabled c = Err LegacyEncryptionMigrationRequired).
Proof.
  intros Hn Hc. split.
  - intros He. unfold decrypt_for_recovery. rewrite He.
    rewrite (decrypt_encrypt_block self (Some nonce) p c); [done|by intros ? [= <-]|done].
  - unfold decrypt_for_recovery. simpl enabled. cbv iota.
    destruct (decrypt_block _ c) eqn:E; auto.
    exfalso. revert E. unfold decrypt_block. simpl. case_cond; [done|].
    by destruct (aead_decrypt _ _ _).
Qed.

End encryptor.
