(* ===== verification/PrefixCompression.v ===== *)
(** * PrefixCompression: shared-prefix encoding of block keys
    ([src/src/storage/prefix_compression.rs])

    [encode_keys]/[decode_keys] work on a list of keys;
    [compress_block_data]/[decompress_block_data] rewrite the entries of a
    block in place.  Slicing out of range is a panic, as in the code. *)
From Stdlib Require Import ZArith Lia.
From stdpp Require Import base tactics numbers list.
From S2P Require Import Prelude Bytes.

Definition MAX_SHARED_PREFIX : Z := u8_max.

(** [PrefixCompressor::shared_prefix_len]. *)
Fixpoint shared_prefix_len (a b : bytes) : Z :=
  match a, b with
  | x :: a, y :: b => if bool_decide (x = y) then 1 + shared_prefix_len a b else 0
  | _, _ => 0
  end.

(** ** Lists of keys *)

(** One turn of the loop of [encode_keys]. *)
Definition encode_key (st : bytes * bytes) (key : bytes) : outcome (bytes * bytes) :=
  let '(output, prev_key) := st in
  let shared := shared_prefix_len prev_key key in
  if MAX_SHARED_PREFIX <? shared then Err InvalidArgument
  else
    let* suffix := slice key shared (len key) in
    Ok (output ++ [byte_of_Z shared] ++ u16_le (as_u16 (len suffix)) ++ suffix, key).

(** [PrefixCompressor::encode_keys]. *)
Definition encode_keys (keys : list bytes) : outcome bytes :=
  let* st := ofold encode_key ([], []) keys in Ok st.1.

(** The loop of [decode_keys]; every turn consumes at least three bytes, the
    fuel is the length of the data. *)
Fixpoint decode_keys_loop (fuel : nat) (data : bytes) (pos : Z) (prev_key : bytes)
    (keys : list bytes) : outcome (list bytes) :=
  match fuel with
  | O => Ok keys
  | S fuel =>
      if pos <? len data then
        let* shared := index data pos in
        let pos := pos + 1 in
        if len data <? pos + 2 then Err CorruptedData
        else
          let* suffix_len := read_u16 data pos in
          let pos := pos + 2 in
          if len data <? pos + suffix_len then Err CorruptedData
          else
            let* suffix := slice data pos (pos + suffix_len) in
            let pos := pos + suffix_len in
            let* prefix := slice prev_key 0 (byte_to_Z shared) in
            let full_key := prefix ++ suffix in
            decode_keys_loop fuel data pos full_key (keys ++ [full_key])
      else Ok keys
  end.

(** [PrefixCompressor::decode_keys]. *)
Definition decode_keys (data first_key : bytes) : outcome (list bytes) :=
  match data with
  | [] => Ok []
  | _ => decode_keys_loop (length data) data 0 first_key []
  end.

(** ** Block data *)

(** One entry of [compress_block_data]; the state is the new data, the new
    offsets and the previous key. *)
Definition compress_entry (data : bytes) (st : bytes * list Z * bytes) (offset : Z)
    : outcome (bytes * list Z * bytes) :=
  let '(new_data, new_offsets, prev_key) := st in
  let new_offsets := new_offsets ++ [as_u32 (len new_data)] in
  let* key_len := read_u16 data offset in
  let* key := slice data (offset + 2) (offset + 2 + key_len) in
  let val_offset := offset + 2 + key_len in
  let* val_len := read_u16 data val_offset in
  let* value := slice data (val_offset + 2) (val_offset + 2 + val_len) in
  let* key_part :=
    match prev_key with
    | [] => Ok (u16_le key_len ++ key)
    | _ =>
        let shared := shared_prefix_len prev_key key in
        if MAX_SHARED_PREFIX <? shared then Err InvalidArgument
        else
          let* suffix := slice key shared (len key) in
          Ok ([byte_of_Z shared] ++ u16_le (as_u16 (len suffix)) ++ suffix)
    end in
  Ok (new_data ++ key_part ++ u16_le val_len ++ value, new_offsets, key).

(** [PrefixCompressor::compress_block_data]. *)
Definition compress_block_data (data : bytes) (offsets : list Z) : outcome (bytes * list Z) :=
  match offsets with
  | [] => Ok ([], [])
  | _ => let* st := ofold (compress_entry data) ([], [], []) offsets in Ok st.1
  end.

(** One entry of [decompress_block_data]; the state is the new data, the new
    offsets, the previous key and [is_first]. *)
Definition decompress_entry (data : bytes) (st : bytes * list Z * bytes * bool) (offset : Z)
    : outcome (bytes * list Z * bytes * bool) :=
  let '(new_data, new_offsets, prev_key, is_first) := st in
  let new_offsets := new_offsets ++ [as_u32 (len new_data)] in
  if (is_first : bool) then
    if len data <? offset + 2 then Err CorruptedData
    else
      let* key_len := read_u16 data offset in
      if len data <? offset + 2 + key_len + 2 then Err CorruptedData
      else
        let* key := slice data (offset + 2) (offset + 2 + key_len) in
        let val_offset := offset + 2 + key_len in
        let* val_len := read_u16 data val_offset in
        let* value := slice data (val_offset + 2) (val_offset + 2 + val_len) in
        Ok (new_data ++ u16_le key_len ++ key ++ u16_le val_len ++ value, new_offsets, key, false)
  else
    if len data <? offset + 1 then Err CorruptedData
    else
      let* shared := index data offset in
      if len data <? offset + 1 + 2 then Err CorruptedData
      else
        let* suffix_len := read_u16 data (offset + 1) in
        let suffix_start := offset + 1 + 2 in
        if len data <? suffix_start + suffix_len + 2 then Err CorruptedData
        else
          let* suffix := slice data suffix_start (suffix_start + suffix_len) in
          let* prefix := slice prev_key 0 (byte_to_Z shared) in
          let full_key := prefix ++ suffix in
          let val_offset := suffix_start + suffix_len in
          let* val_len := read_u16 data val_offset in
          let* value := slice data (val_offset + 2) (val_offset + 2 + val_len) in
          Ok (new_data ++ u16_le (as_u16 (len full_key)) ++ full_key ++ u16_le val_len ++ value,
              new_offsets, full_key, false).

(** [PrefixCompressor::decompress_block_data]. *)
Definition decompress_block_data (data : bytes) (offsets : list Z) : outcome (bytes * list Z) :=
  match offsets with
  | [] => Ok ([], [])
  | _ => let* st := ofold (decompress_entry data) ([], [], [], true) offsets in Ok st.1.1
  end.

(** ** The shared prefix *)

Lemma shared_prefix_len_spec a b :
  0 <= shared_prefix_len a b <= len a /\ shared_prefix_len a b <= len b /\
  take (Z.to_nat (shared_prefix_len a b)) a = take (Z.to_nat (shared_prefix_len a b)) b.
Proof.
  revert b; induction a as [|x a IH]; intros b.
  { pose proof (len_nonneg b). simpl. split_and!; try lia; done. }
  destruct b as [|y b].
  { pose proof (len_nonneg (x :: a)). simpl. split_and!; try lia; done. }
  destruct (IH b) as (H1 & H2 & H3). simpl. rewrite !len_cons. case_bool_decide as E.
  - subst y. split_and!; try lia.
    replace (Z.to_nat (1 + shared_prefix_len a b)) with (S (Z.to_nat (shared_prefix_len a b))) by lia.
    simpl. by f_equal.
  - pose proof (len_nonneg a). pose proof (len_nonneg b). split_and!; try lia. done.
Qed.

(** The suffix a key is stored with, and how the key is rebuilt from it. *)
Definition key_suffix (prev k : bytes) : bytes := drop (Z.to_nat (shared_prefix_len prev k)) k.

Lemma key_suffix_slice prev k :
  slice k (shared_prefix_len prev k) (len k) = Ok (key_suffix prev k).
Proof.
  destruct (shared_prefix_len_spec prev k) as (H1 & H2 & _).
  rewrite slice_in_range by lia. unfold key_suffix. f_equal.
  apply take_ge. rewrite length_drop. unfold len. lia.
Qed.

Lemma key_suffix_rebuild prev k :
  exists prefix, slice prev 0 (shared_prefix_len prev k) = Ok prefix /\
                 prefix ++ key_suffix prev k = k.
Proof.
  destruct (shared_prefix_len_spec prev k) as (H1 & H2 & H3).
  rewrite slice_in_range by lia. eexists. split; [done|].
  rewrite Z.sub_0_r. change (drop (Z.to_nat 0) prev) with prev. rewrite H3. apply take_drop.
Qed.

Lemma len_key_suffix prev k : len (key_suffix prev k) = len k - shared_prefix_len prev k.
Proof.
  destruct (shared_prefix_len_spec prev k) as (H1 & H2 & _).
  unfold key_suffix, len in *. rewrite length_drop. lia.
Qed.

Lemma byte_shared prev k :
  shared_prefix_len prev k <= 255 ->
  byte_to_Z (byte_of_Z (shared_prefix_len prev k)) = shared_prefix_len prev k.
Proof.
  intros. destruct (shared_prefix_len_spec prev k) as (? & _).
  rewrite byte_to_of_Z. apply Z.mod_small. lia.
Qed.

(** ** Round trip of key lists *)

(** Consecutive keys share at most 255 bytes, and fit a [u16] length. *)
Fixpoint keys_fit (prev : bytes) (keys : list bytes) : Prop :=
  match keys with
  | [] => True
  | k :: keys => shared_prefix_len prev k <= 255 /\ len k <= u16_max /\ keys_fit k keys
  end.

Definition enc_key (prev k : bytes) : bytes :=
  [byte_of_Z (shared_prefix_len prev k)] ++ u16_le (len (key_suffix prev k)) ++ key_suffix prev k.
Fixpoint enc_keys (prev : bytes) (keys : list bytes) : bytes :=
  match keys with [] => [] | k :: keys => enc_key prev k ++ enc_keys k keys end.

Lemma key_suffix_fits prev k : len k <= u16_max -> 0 <= len (key_suffix prev k) <= u16_max.
Proof.
  intros. rewrite len_key_suffix. destruct (shared_prefix_len_spec prev k) as (? & ? & _). lia.
Qed.

Lemma encode_keys_loop out prev keys :
  keys_fit prev keys ->
  exists last, ofold encode_key (out, prev) keys = Ok (out ++ enc_keys prev keys, last).
Proof.
  revert out prev; induction keys as [|k keys IH]; intros out prev; cbn [ofold enc_keys keys_fit].
  { rewrite app_nil_r. eauto. }
  intros (Hs & Hk & Hrest). unfold encode_key at 1, MAX_SHARED_PREFIX, u8_max.
  rewrite (proj2 (Z.ltb_ge _ _)) by done. rewrite key_suffix_slice. cbn [obind].
  rewrite as_u16_small by (by apply key_suffix_fits).
  destruct (IH (out ++ enc_key prev k) k Hrest) as [last Hl].
  exists last. unfold enc_key in Hl at 1. rewrite Hl. by rewrite <- app_assoc.
Qed.

Lemma enc_keys_length prev keys : len keys <= len (enc_keys prev keys).
Proof.
  revert prev; induction keys as [|k keys IH]; intros prev; cbn [enc_keys]; [done|].
  specialize (IH k). unfold enc_key. pose proof (len_nonneg (key_suffix prev k)). len_lia.
Qed.

Lemma decode_keys_loop_enc fuel pre prev keys acc :
  keys_fit prev keys -> len keys < Z.of_nat fuel ->
  decode_keys_loop fuel (pre ++ enc_keys prev keys) (len pre) prev acc = Ok (acc ++ keys).
Proof.
  revert pre prev keys acc; induction fuel as [|fuel IH]; intros pre prev keys acc Hfit Hfuel;
    [pose proof (len_nonneg keys); lia|].
  cbn [decode_keys_loop]. destruct keys as [|k keys]; cbn [enc_keys].
  { rewrite !app_nil_r, Z.ltb_irrefl. done. }
  destruct Hfit as (Hs & Hk & Hrest). pose proof (key_suffix_fits prev k Hk) as Hsf.
  destruct (key_suffix_rebuild prev k) as (prefix & Hp & Hrebuild).
  unfold enc_key. rewrite <- !app_assoc. cbn [app].
  set (tl := enc_keys k keys).
  rewrite (proj2 (Z.ltb_lt _ _)) by len_lia.
  rewrite index_app_mid by done. cbn [obind].
  rewrite (proj2 (Z.ltb_ge _ _)) by len_lia.
  rewrite (cons_middle _ pre), app_assoc.
  rewrite read_u16_app by len_lia. cbn [obind].
  rewrite (proj2 (Z.ltb_ge _ _)) by len_lia.
  rewrite (app_assoc _ (u16_le _)). rewrite slice_app_mid by len_lia. cbn [obind].
  rewrite byte_shared, Hp by done. cbn [obind]. rewrite Hrebuild, (app_assoc _ (key_suffix prev k)).
  replace (len pre + 1 + 2 + len (key_suffix prev k))
    with (len (((pre ++ [byte_of_Z (shared_prefix_len prev k)]) ++ u16_le (len (key_suffix prev k)))
               ++ key_suffix prev k)) by len_lia.
  unfold tl. rewrite IH; [by rewrite <- app_assoc|done|len_lia].
Qed.


Lemma decode_keys_loop_base fuel b data base acc :
  byte_to_Z b = 0 ->
  decode_keys_loop fuel (b :: data) 0 base acc = decode_keys_loop fuel (b :: data) 0 [] acc.
Proof.
  intros Hb. destruct fuel; [done|]. cbn [decode_keys_loop].
  change (index (b :: data) 0) with (Ok b). cbn [obind]. rewrite Hb.
  assert (forall l : bytes, slice l 0 0 = Ok []) as Hs.
  { intros l. apply (slice_app_l [] l 0 eq_refl). }
  by rewrite !Hs.
Qed.

(** [decode_keys] inverts [encode_keys], whatever base key it is given,
    for keys that fit the format: consecutive keys share at most 255 bytes
    and no key is longer than 65535 bytes. *)
Theorem prefix_keys_roundtrip keys base :
  keys_fit [] keys ->
  exists data, encode_keys keys = Ok data /\ decode_keys data base = Ok keys.
Proof.
  intros Hfit. unfold encode_keys.
  destruct (encode_keys_loop [] [] keys Hfit) as [last ->]. cbn [obind fst app].
  eexists. split; [done|]. destruct keys as [|k keys]; [done|].
  remember (enc_keys [] (k :: keys)) as data eqn:Hd.
  pose proof Hd as Hd'. cbn [enc_keys] in Hd'. unfold enc_key in Hd'. cbn [app] in Hd'.
  assert (len (k :: keys) < len data) as Hlen.
  { pose proof (enc_keys_length k keys). rewrite Hd'.
    pose proof (len_nonneg (key_suffix [] k)). len_lia. }
  unfold decode_keys. rewrite Hd' at 1. rewrite Hd', decode_keys_loop_base by done.
  rewrite <- Hd', Hd. apply (decode_keys_loop_enc _ [] [] (k :: keys) []); [done|].
  rewrite <- Hd. exact Hlen.
Qed.

(** ** Round trip of block data *)

(** An entry of a block in the standard and in the prefix-compressed layout. *)
Definition raw_entry (e : bytes * bytes) : bytes :=
  u16_le (len e.1) ++ e.1 ++ u16_le (len e.2) ++ e.2.
Definition comp_entry (prev : bytes) (e : bytes * bytes) : bytes :=
  (match prev with [] => u16_le (len e.1) ++ e.1 | _ => enc_key prev e.1 end)
  ++ u16_le (len e.2) ++ e.2.

Fixpoint raw_data (es : list (bytes * bytes)) : bytes :=
  match es with [] => [] | e :: es => raw_entry e ++ raw_data es end.
Fixpoint comp_data (prev : bytes) (es : list (bytes * bytes)) : bytes :=
  match es with [] => [] | e :: es => comp_entry prev e ++ comp_data e.1 es end.

(** Where the entries start, for a first entry at [base]. *)
Fixpoint raw_offsets (base : Z) (es : list (bytes * bytes)) : list Z :=
  match es with [] => [] | e :: es => base :: raw_offsets (base + len (raw_entry e)) es end.
Fixpoint comp_offsets (base : Z) (prev : bytes) (es : list (bytes * bytes)) : list Z :=
  match es with
  | [] => []
  | e :: es => base :: comp_offsets (base + len (comp_entry prev e)) e.1 es
  end.

(** The entries that fit the format after the key [prev]. *)
Fixpoint entries_fit (prev : bytes) (es : list (bytes * bytes)) : Prop :=
  match es with
  | [] => True
  | e :: es => shared_prefix_len prev e.1 <= 255 /\ 0 < len e.1 <= u16_max /\
               len e.2 <= u16_max /\ entries_fit e.1 es
  end.

Lemma len_raw_entry e : len (raw_entry e) = 4 + len e.1 + len e.2.
Proof. unfold raw_entry. len_lia. Qed.
Lemma len_comp_entry prev e :
  4 <= len (comp_entry prev e) <= 1 + len (raw_entry e).
Proof.
  pose proof (len_nonneg e.1). pose proof (len_nonneg e.2).
  rewrite len_raw_entry. unfold comp_entry, enc_key.
  pose proof (len_key_suffix prev e.1). pose proof (len_nonneg (key_suffix prev e.1)).
  pose proof (shared_prefix_len_spec prev e.1) as [? _].
  destruct prev; autorewrite with apex; lia.
Qed.
#[export] Hint Rewrite len_raw_entry : apex.

Lemma len_comp_data prev es : len (comp_data prev es) <= len (raw_data es) + len es.
Proof.
  revert prev; induction es as [|e es IH]; intros prev; cbn [comp_data raw_data]; [done|].
  specialize (IH e.1). pose proof (len_comp_entry prev e). rewrite !len_app, len_cons. lia.
Qed.

(** The whole entry is read back at its offset. *)
Lemma read_raw_entry pre e post :
  len e.1 <= u16_max -> len e.2 <= u16_max ->
  let data := pre ++ raw_entry e ++ post in
  read_u16 data (len pre) = Ok (len e.1) /\
  slice data (len pre + 2) (len pre + 2 + len e.1) = Ok e.1 /\
  read_u16 data (len pre + 2 + len e.1) = Ok (len e.2) /\
  slice data (len pre + 2 + len e.1 + 2) (len pre + 2 + len e.1 + 2 + len e.2) = Ok e.2.
Proof.
  intros H1 H2 data. destruct e as [k v]; cbn [fst snd] in *. subst data. unfold raw_entry; cbn [fst snd].
  rewrite <- !app_assoc. split_and!.
  - apply read_u16_app; len_lia.
  - rewrite (app_assoc pre). apply slice_app_mid; len_lia.
  - rewrite (app_assoc pre), (app_assoc _ k). apply read_u16_app; len_lia.
  - rewrite (app_assoc pre), (app_assoc _ k), (app_assoc _ (u16_le (len v))).
    apply slice_app_mid; len_lia.
Qed.

Lemma compress_entry_raw pre e post nd no prev :
  entries_fit prev [e] -> len nd <= u32_max ->
  compress_entry (pre ++ raw_entry e ++ post) (nd, no, prev) (len pre)
  = Ok (nd ++ comp_entry prev e, no ++ [len nd], e.1).
Proof.
  intros (Hs & [_ Hk] & Hv & _) Hnd. unfold compress_entry.
  destruct (read_raw_entry pre e post Hk Hv) as (-> & R2 & R3 & R4). cbn [obind].
  rewrite R2. cbn [obind]. rewrite R3. cbn [obind]. rewrite R4. cbn [obind].
  rewrite as_u32_small by (split; [apply len_nonneg|done]).
  unfold comp_entry. destruct prev as [|p prev]; [by rewrite <- !app_assoc|].
  unfold MAX_SHARED_PREFIX, u8_max. rewrite (proj2 (Z.ltb_ge _ _)) by done.
  rewrite key_suffix_slice. cbn [obind].
  by rewrite as_u16_small by (by apply key_suffix_fits).
Qed.

Lemma compress_loop pre es nd no prev :
  entries_fit prev es -> len nd + len (comp_data prev es) <= u32_max ->
  exists last,
    ofold (compress_entry (pre ++ raw_data es)) (nd, no, prev) (raw_offsets (len pre) es)
    = Ok (nd ++ comp_data prev es, no ++ comp_offsets (len nd) prev es, last).
Proof.
  revert pre nd no prev; induction es as [|e es IH]; intros pre nd no prev.
  { intros _ _. exists prev. cbn. by rewrite !app_nil_r. }
  cbn [entries_fit comp_data raw_offsets raw_data comp_offsets ofold]. intros (Hs & Hk & Hv & Hrest) Hu.
  rewrite len_app in Hu. pose proof (len_nonneg (comp_data e.1 es)).
  pose proof (len_comp_entry prev e).
  rewrite compress_entry_raw by (simpl; auto || lia). cbn [obind].
  replace (len pre + len (raw_entry e)) with (len (pre ++ raw_entry e)) by (by rewrite len_app).
  destruct (IH (pre ++ raw_entry e) (nd ++ comp_entry prev e) (no ++ [len nd]) e.1 Hrest) as [last Hl].
  { rewrite len_app. lia. }
  exists last. rewrite <- app_assoc in Hl. rewrite Hl. by rewrite <- !app_assoc, len_app.
Qed.

Lemma decompress_first_raw pre e post nd no prev :
  len e.1 <= u16_max -> len e.2 <= u16_max -> len nd <= u32_max ->
  decompress_entry (pre ++ raw_entry e ++ post) (nd, no, prev, true) (len pre)
  = Ok (nd ++ raw_entry e, no ++ [len nd], e.1, false).
Proof.
  intros Hk Hv Hnd. unfold decompress_entry.
  destruct (read_raw_entry pre e post Hk Hv) as (-> & R2 & R3 & R4). cbn [obind].
  pose proof (len_nonneg e.1). pose proof (len_nonneg e.2).
  rewrite !(proj2 (Z.ltb_ge _ _)) by len_lia.
  rewrite R2. cbn [obind]. rewrite R3. cbn [obind]. rewrite R4. cbn [obind].
  by rewrite as_u32_small by (split; [apply len_nonneg|done]).
Qed.

Lemma decompress_entry_comp pre e post nd no p prev :
  entries_fit (p :: prev) [e] -> len nd <= u32_max ->
  decompress_entry (pre ++ comp_entry (p :: prev) e ++ post) (nd, no, p :: prev, false) (len pre)
  = Ok (nd ++ raw_entry e, no ++ [len nd], e.1, false).
Proof.
  intros (Hs & [_ Hk] & Hv & _) Hnd. destruct e as [k v]; cbn [fst snd] in *.
  unfold decompress_entry, comp_entry, enc_key, raw_entry; cbn [fst snd].
  pose proof (key_suffix_fits (p :: prev) k Hk) as Hsf.
  destruct (key_suffix_rebuild (p :: prev) k) as (prefix & Hp & Hrebuild).
  set (sfx := key_suffix (p :: prev) k) in *. rewrite <- !app_assoc. cbn [app].
  rewrite (proj2 (Z.ltb_ge _ _)) by len_lia.
  rewrite index_app_mid by done. cbn [obind].
  rewrite (proj2 (Z.ltb_ge _ _)) by len_lia.
  rewrite (cons_middle _ pre), (app_assoc pre).
  rewrite read_u16_app by len_lia. cbn [obind].
  rewrite (proj2 (Z.ltb_ge _ _)) by len_lia.
  rewrite (app_assoc _ (u16_le (len sfx))), slice_app_mid by len_lia. cbn [obind].
  rewrite byte_shared, Hp by done. cbn [obind]. rewrite Hrebuild.
  rewrite (app_assoc _ sfx), read_u16_app by len_lia. cbn [obind].
  rewrite (app_assoc _ (u16_le (len v))), slice_app_mid by len_lia. cbn [obind].
  by rewrite as_u32_small, as_u16_small by (split; [apply len_nonneg|done]).
Qed.

Lemma decompress_loop pre es nd no p prev :
  entries_fit (p :: prev) es -> len nd + len (raw_data es) <= u32_max ->
  exists last,
    ofold (decompress_entry (pre ++ comp_data (p :: prev) es)) (nd, no, p :: prev, false)
          (comp_offsets (len pre) (p :: prev) es)
    = Ok (nd ++ raw_data es, no ++ raw_offsets (len nd) es, last, false).
Proof.
  revert pre nd no p prev; induction es as [|e es IH]; intros pre nd no p prev.
  { intros _ _. exists (p :: prev). cbn. by rewrite !app_nil_r. }
  cbn [entries_fit comp_data raw_offsets raw_data comp_offsets ofold]. intros (Hs & Hk & Hv & Hrest) Hu.
  rewrite len_app in Hu. pose proof (len_nonneg (raw_data es)). pose proof (len_nonneg (raw_entry e)).
  rewrite decompress_entry_comp by (simpl; auto || lia). cbn [obind].
  destruct (e.1) as [|q k] eqn:Ek; [len_lia|].
  replace (len pre + len (comp_entry (p :: prev) e))
    with (len (pre ++ comp_entry (p :: prev) e)) by (by rewrite len_app).
  destruct (IH (pre ++ comp_entry (p :: prev) e) (nd ++ raw_entry e) (no ++ [len nd]) q k Hrest) as [last Hl].
  { rewrite len_app. lia. }
  exists last. rewrite <- app_assoc in Hl. rewrite Hl. by rewrite <- !app_assoc, len_app.
Qed.

(** [compress_block_data] on a block of well-sized entries gives the
    compressed layout. *)
Lemma compress_block_data_spec es :
  entries_fit [] es -> len (raw_data es) + len es <= u32_max ->
  compress_block_data (raw_data es) (raw_offsets 0 es) = Ok (comp_data [] es, comp_offsets 0 [] es).
Proof.
  intros Hfit Hu. destruct es as [|e es]; [done|].
  pose proof (len_comp_data [] (e :: es)).
  destruct (compress_loop [] (e :: es) [] [] [] Hfit) as [last Hl]; [rewrite len_nil; lia|].
  unfold compress_block_data. cbn [raw_offsets app] in *. change (len []) with 0 in Hl.
  by rewrite Hl.
Qed.

Lemma decompress_block_data_spec es :
  entries_fit [] es -> len (raw_data es) <= u32_max ->
  decompress_block_data (comp_data [] es) (comp_offsets 0 [] es) = Ok (raw_data es, raw_offsets 0 es).
Proof.
  intros Hfit Hu. destruct es as [|e es]; [done|].
  cbn [comp_data comp_offsets raw_data raw_offsets] in *. unfold decompress_block_data. cbn [ofold].
  destruct Hfit as (Hs & Hk & Hv & Hrest). rewrite len_app in Hu. change (comp_entry [] e) with
    ((u16_le (len e.1) ++ e.1) ++ u16_le (len e.2) ++ e.2).
  assert ((u16_le (len e.1) ++ e.1) ++ u16_le (len e.2) ++ e.2 = raw_entry e) as ->
    by (by rewrite <- app_assoc).
  pose proof (len_nonneg (raw_data es)). pose proof (len_nonneg (raw_entry e)).
  pose proof (decompress_first_raw [] e (comp_data e.1 es) [] [] []) as Hfst.
  rewrite len_nil in Hfst. cbn [app] in Hfst. rewrite Hfst by (lia || done). cbn [obind].
  destruct (e.1) as [|q k] eqn:Ek; [len_lia|].
  destruct (decompress_loop (raw_entry e) es (raw_entry e) [0] q k Hrest)
    as [last Hl]; [lia|].
  rewrite Z.add_0_l, Hl. done.
Qed.

(** the block rewriting is lossless: for entries with non-empty keys of at
    most 65535 bytes, values of at most 65535 bytes, consecutive keys that
    share at most 255 bytes, and block offsets below 2^32,
    [decompress_block_data] applied to the output of [compress_block_data]
    gives back the data and the offsets of the block, byte for byte. *)
Theorem prefix_block_roundtrip es :
  entries_fit [] es -> len (raw_data es) + len es <= u32_max ->
  exists data offsets,
    compress_block_data (raw_data es) (raw_offsets 0 es) = Ok (data, offsets) /\
    decompress_block_data data offsets = Ok (raw_data es, raw_offsets 0 es) /\
    len data <= len (raw_data es) + len es.
Proof.
  intros Hfit Hu. pose proof (len_nonneg es).
  rewrite compress_block_data_spec by done. do 2 eexists. split; [done|].
  split; [apply decompress_block_data_spec; done || lia|apply len_comp_data].
Qed.

(** The keys [user:a], [user:b] and [user] with a value each. *)
Definition sample_entries : list (bytes * bytes) :=
  [ ([Byte.x75; Byte.x73; Byte.x65; Byte.x72; Byte.x3a; Byte.x61], [Byte.x01; Byte.x02]);
    ([Byte.x75; Byte.x73; Byte.x65; Byte.x72; Byte.x3a; Byte.x62], []);
    ([Byte.x75; Byte.x73; Byte.x65; Byte.x73], [Byte.xff]) ].

Lemma prefix_keys_roundtrip_witness :
  exists data, encode_keys (sample_entries.*1) = Ok data
               /\ decode_keys data [Byte.x7a] = Ok (sample_entries.*1).
Proof. apply (prefix_keys_roundtrip (sample_entries.*1) [Byte.x7a]). vm_compute. intuition discriminate. Defined.

Lemma prefix_block_roundtrip_witness :
  exists data offsets,
    compress_block_data (raw_data sample_entries) (raw_offsets 0 sample_entries) = Ok (data, offsets) /\
    decompress_block_data data offsets = Ok (raw_data sample_entries, raw_offsets 0 sample_entries) /\
    len data <= len (raw_data sample_entries) + len sample_entries.
Proof.
  apply (prefix_block_roundtrip sample_entries); vm_compute; intuition discriminate.
Defined.

(** An empty key breaks the block format.  [compress_block_data] takes an
    empty previous key for the first entry, while [decompress_block_data]
    counts entries; a block whose first key is empty compresses without error
    and then cannot be read back: the second entry, stored in full, is read
    as a compressed one. *)
Theorem prefix_block_empty_key_not_lossless :
  exists es data offsets,
    compress_block_data (raw_data es) (raw_offsets 0 es) = Ok (data, offsets) /\
    decompress_block_data data offsets <> Ok (raw_data es, raw_offsets 0 es).
Proof.
  exists [([], [Byte.x01]); ([Byte.x61], [Byte.x02])]. do 2 eexists.
  split; [vm_compute; reflexivity|]. vm_compute. discriminate.
Qed.
