(* ===== verification/Block.v ===== *)
(** * Block: the data blocks of an SSTable ([src/src/storage/block.rs])

    A block is the concatenation of its entries with the offset of each; its
    encoded form appends the offsets, their number, a flags byte and a CRC-32.
    The file ends with the round trip of [encode]/[decode], with and without
    prefix compression, and the limits of the format. *)
From Stdlib Require Import ZArith Lia.
From stdpp Require Import base tactics numbers list.
From S2P Require Import Prelude Bytes Extern PrefixCompression.

Definition BLOCK_SIZE : Z := 4096.
Definition U32_SIZE : Z := 4.
Definition PREFIX_COMPRESSION_FLAG : Z := 1.
Definition FLAGS_SIZE : Z := 1.

Record Block := mkBlock {
  blk_data : bytes;
  blk_offsets : list Z;
  block_size : Z;
  flags : Z;
}.

Definition Block_new (size : Z) : Block :=
  {| blk_data := []; blk_offsets := []; block_size := size; flags := 0 |}.

Definition is_prefix_compressed (self : Block) : bool :=
  negb (Z.land (flags self) PREFIX_COMPRESSION_FLAG =? 0).

(** [Block::set_prefix_compressed]. *)
Definition set_prefix_compressed (self : Block) : Block :=
  {| blk_data := blk_data self; blk_offsets := blk_offsets self;
     block_size := block_size self; flags := Z.lor (flags self) PREFIX_COMPRESSION_FLAG |}.

(** [Block::compress_keys]: [expect] turns an error of the compressor into a
    panic. *)
Definition compress_keys (self : Block) : outcome Block :=
  match blk_offsets self with
  | [] => Ok self
  | _ =>
      let* (new_data, new_offsets) := expect (ok (compress_block_data (blk_data self) (blk_offsets self))) in
      Ok {| blk_data := new_data; blk_offsets := new_offsets;
            block_size := block_size self; flags := Z.lor (flags self) PREFIX_COMPRESSION_FLAG |}
  end.

Definition entry_size (key value : bytes) : Z := 2 + len key + 2 + len value.
Definition metadata_size (num_entries : Z) : Z := num_entries * U32_SIZE + U32_SIZE + FLAGS_SIZE.
Definition current_size (self : Block) : Z :=
  len (blk_data self) + metadata_size (len (blk_offsets self)) + U32_SIZE.

(** [Block::add]: the block unchanged and [false] when the entry does not fit;
    the lengths are cast to [u16]. *)
Definition add (self : Block) (key value : bytes) : Block * bool :=
  let total_needed := current_size self + entry_size key value + U32_SIZE in
  if block_size self <? total_needed then (self, false)
  else
    ({| blk_data := blk_data self ++ u16_le (as_u16 (len key)) ++ key
                    ++ u16_le (as_u16 (len value)) ++ value;
        blk_offsets := blk_offsets self ++ [as_u32 (len (blk_data self))];
        block_size := block_size self; flags := flags self |}, true).

Definition blk_len (self : Block) : Z := len (blk_offsets self).
Definition blk_is_empty (self : Block) : bool :=
  match blk_offsets self with [] => true | _ => false end.
Definition data_size (self : Block) : Z := len (blk_data self).

Section codec.
Context `{!Crc32}.

(** [Block::encode]. *)
Definition block_encode (self : Block) : bytes :=
  let encoded := blk_data self ++ concat (u32_le <$> blk_offsets self) in
  let encoded := encoded ++ u32_le (as_u32 (len (blk_offsets self))) in
  let encoded := encoded ++ [byte_of_Z (flags self)] in
  encoded ++ u32_le (crc32 encoded).

(** The loop of [Block::decode] that reads [n] offsets at [pos]. *)
Fixpoint read_offsets (data : bytes) (n : nat) (pos : Z) : outcome (list Z) :=
  match n with
  | O => Ok []
  | S n =>
      let* offset := read_u32 data pos in
      let* rest := read_offsets data n (pos + U32_SIZE) in
      Ok (offset :: rest)
  end.

(** [Block::decode]. The subtraction of [offsets_start] underflows when the
    element count is too large: a panic, at the subtraction or at the slice
    that follows it. *)
Definition block_decode (data : bytes) : outcome Block :=
  if len data <? 2 * U32_SIZE + FLAGS_SIZE then Err CorruptedData
  else
    let checksum_start := len data - U32_SIZE in
    let* stored_checksum := read_u32 data checksum_start in
    let* data_without_checksum := slice data 0 checksum_start in
    let calculated_checksum := crc32 data_without_checksum in
    if negb (stored_checksum =? calculated_checksum) then Err CorruptedData
    else
      let flags_pos := len data_without_checksum - FLAGS_SIZE in
      let* flag_byte := index data_without_checksum flags_pos in
      let flags := byte_to_Z flag_byte in
      let num_elements_start := flags_pos - U32_SIZE in
      let* num_elements := read_u32 data_without_checksum num_elements_start in
      let offsets_start := num_elements_start - num_elements * U32_SIZE in
      let* raw := slice data_without_checksum 0 offsets_start in
      let* offsets := read_offsets data_without_checksum (Z.to_nat num_elements) offsets_start in
      let is_compressed := negb (Z.land flags PREFIX_COMPRESSION_FLAG =? 0) in
      if is_compressed then
        let* (d, o) := decompress_block_data raw offsets in
        Ok {| blk_data := d; blk_offsets := o; block_size := BLOCK_SIZE; flags := flags |}
      else
        Ok {| blk_data := raw; blk_offsets := offsets; block_size := BLOCK_SIZE; flags := flags |}.

(** ** Encoding and decoding any block *)

Lemma len_concat_u32 os : len (concat (u32_le <$> os)) = 4 * len os.
Proof. induction os as [|o os IH]; cbn [concat fmap list_fmap]; len_lia. Qed.

Lemma block_encode_len b : len (block_encode b) = current_size b.
Proof.
  unfold block_encode, current_size, metadata_size, U32_SIZE, FLAGS_SIZE.
  autorewrite with apex. rewrite len_concat_u32. lia.
Qed.

Lemma read_offsets_concat pre os post :
  Forall (fun o => 0 <= o <= u32_max) os ->
  read_offsets (pre ++ concat (u32_le <$> os) ++ post) (length os) (len pre) = Ok os.
Proof.
  revert pre; induction os as [|o os IH]; intros pre; [done|]. intros [Ho Hos]%Forall_cons.
  cbn [concat fmap list_fmap length read_offsets]. rewrite <- app_assoc.
  rewrite read_u32_app by done. cbn [obind]. rewrite app_assoc.
  replace (len pre + U32_SIZE) with (len (pre ++ u32_le o)) by (unfold U32_SIZE; len_lia).
  by rewrite IH.
Qed.

(** The decoder on the encoding of any block whose fields are in range. *)
Lemma block_decode_encode b :
  Forall (fun o => 0 <= o <= u32_max) (blk_offsets b) -> len (blk_offsets b) <= u32_max ->
  0 <= flags b <= 255 ->
  block_decode (block_encode b)
  = if negb (Z.land (flags b) PREFIX_COMPRESSION_FLAG =? 0)
    then let* (d, o) := decompress_block_data (blk_data b) (blk_offsets b) in
         Ok {| blk_data := d; blk_offsets := o; block_size := BLOCK_SIZE; flags := flags b |}
    else Ok {| blk_data := blk_data b; blk_offsets := blk_offsets b;
               block_size := BLOCK_SIZE; flags := flags b |}.
Proof.
  intros Hos Hn Hf. pose proof (len_nonneg (blk_offsets b)). pose proof (len_nonneg (blk_data b)).
  unfold block_decode. rewrite block_encode_len.
  unfold current_size, metadata_size, U32_SIZE, FLAGS_SIZE in *.
  rewrite (proj2 (Z.ltb_ge _ _)) by lia. unfold block_encode.
  rewrite as_u32_small by lia.
  set (os := concat (u32_le <$> blk_offsets b)).
  assert (len os = 4 * len (blk_offsets b)) as Hlos by apply len_concat_u32.
  set (body := ((blk_data b ++ os) ++ u32_le (len (blk_offsets b))) ++ [byte_of_Z (flags b)]).
  assert (len body = len (blk_data b) + 4 * len (blk_offsets b) + 5) as Hbody.
  { subst body. autorewrite with apex. lia. }
  rewrite <- (app_nil_r (u32_le (crc32 body))).
  rewrite read_u32_app by (apply crc32_range || lia). cbn [obind].
  rewrite slice_app_l by lia. cbn [obind]. rewrite Z.eqb_refl. cbn [negb]. rewrite Hbody.
  unfold body. rewrite index_app_mid by (autorewrite with apex; lia). cbn [obind].
  rewrite byte_to_of_Z, (Z.mod_small (flags b)) by lia.
  rewrite <- app_assoc, read_u32_app by (autorewrite with apex; lia). cbn [obind].
  rewrite <- app_assoc.
  rewrite slice_app_l by lia. cbn [obind].
  replace (len (blk_data b) + 4 * len (blk_offsets b) + 5 - 1 - 4 - len (blk_offsets b) * 4)
    with (len (blk_data b)) by lia.
  replace (Z.to_nat (len (blk_offsets b))) with (length (blk_offsets b)) by (unfold len; lia).
  unfold os. by rewrite read_offsets_concat.
Qed.

(** ** Blocks filled by [add] *)

(** The blocks a sequence of accepted [add]s builds, with their entries. *)
Inductive built (size : Z) : list (bytes * bytes) -> Block -> Prop :=
| built_new : built size [] (Block_new size)
| built_add es b k v b' :
    built size es b -> len k <= u16_max -> len v <= u16_max ->
    add b k v = (b', true) -> built size (es ++ [(k, v)]) b'.

(** Adding a list of entries, and whether every one of them was accepted. *)
Fixpoint add_all (b : Block) (es : list (bytes * bytes)) : Block * bool :=
  match es with
  | [] => (b, true)
  | e :: es => let '(b', fits) := add b e.1 e.2 in
               if (fits : bool) then add_all b' es else (b', false)
  end.

Lemma add_all_built size es0 b0 es b :
  built size es0 b0 -> Forall (fun e => len e.1 <= u16_max /\ len e.2 <= u16_max) es ->
  add_all b0 es = (b, true) -> built size (es0 ++ es) b.
Proof.
  revert es0 b0; induction es as [|[k v] es IH]; intros es0 b0 Hb Hsz; cbn [add_all fst snd].
  { intros [= <-]. by rewrite app_nil_r. }
  apply Forall_cons in Hsz as [[Hk Hv] Hsz]. destruct (add b0 k v) as [b1 fits] eqn:E.
  destruct fits; [|done]. intros Hall. rewrite cons_middle, app_assoc.
  eapply IH; [|done|exact Hall]. by eapply built_add.
Qed.

Lemma raw_data_app es1 es2 : raw_data (es1 ++ es2) = raw_data es1 ++ raw_data es2.
Proof. induction es1 as [|e es1 IH]; cbn [app raw_data]; [done|]. by rewrite IH, <- app_assoc. Qed.

Lemma raw_offsets_app base es1 es2 :
  raw_offsets base (es1 ++ es2) = raw_offsets base es1 ++ raw_offsets (base + len (raw_data es1)) es2.
Proof.
  revert base; induction es1 as [|e es1 IH]; intros base; cbn [app raw_data raw_offsets].
  { by rewrite len_nil, Z.add_0_r. }
  by rewrite IH, len_app, Z.add_assoc.
Qed.

Lemma length_raw_offsets base es : length (raw_offsets base es) = length es.
Proof. revert base; induction es; intros; simpl; auto. Qed.

Lemma raw_offsets_range base es :
  0 <= base -> Forall (fun o => 0 <= o <= base + len (raw_data es)) (raw_offsets base es).
Proof.
  revert base; induction es as [|e es IH]; intros base Hb; cbn [raw_offsets raw_data]; [done|].
  pose proof (len_nonneg (raw_entry e)). pose proof (len_nonneg (raw_data es)).
  rewrite len_app. constructor; [lia|].
  eapply Forall_impl; [apply IH; lia|]. simpl. lia.
Qed.

Lemma length_comp_offsets base prev es : length (comp_offsets base prev es) = length es.
Proof. revert base prev; induction es; intros; simpl; auto. Qed.

Lemma comp_offsets_range base prev es :
  0 <= base -> Forall (fun o => 0 <= o <= base + len (comp_data prev es)) (comp_offsets base prev es).
Proof.
  revert base prev; induction es as [|e es IH]; intros base prev Hb; cbn [comp_offsets comp_data]; [done|].
  pose proof (len_comp_entry prev e). pose proof (len_nonneg (comp_data e.1 es)).
  rewrite len_app. constructor; [lia|].
  eapply Forall_impl; [apply IH; lia|]. simpl. lia.
Qed.

(** What a filled block holds: its entries in the standard layout, within the
    block size as soon as there is one. *)
Lemma built_inv size es b :
  0 <= size <= u32_max -> built size es b ->
  blk_data b = raw_data es /\ blk_offsets b = raw_offsets 0 es /\
  flags b = 0 /\ block_size b = size /\
  (es <> [] -> current_size b <= size).
Proof.
  intros Hsz. induction 1 as [|es b k v b' _ (Hd & Ho & Hf & Hs & Hc) Hk Hv Hadd]; [done|].
  revert Hadd. unfold add. destruct (Z.ltb_spec (block_size b) (current_size b + entry_size k v + U32_SIZE)); [done|]. intros [= <-]. simpl.
  unfold current_size, entry_size, metadata_size, U32_SIZE, FLAGS_SIZE in *.
  pose proof (len_nonneg k). pose proof (len_nonneg v). pose proof (len_nonneg (blk_offsets b)).
  rewrite Hd, Ho in *. rewrite !as_u16_small by lia.
  rewrite as_u32_small by (split; [apply len_nonneg|lia]).
  rewrite raw_data_app, raw_offsets_app, Z.add_0_l. simpl. rewrite app_nil_r.
  split_and!; auto. intros _. autorewrite with apex. lia.
Qed.

Lemma built_count size es b :
  0 <= size <= u32_max -> built size es b -> len (raw_data es) + 4 * len es <= u32_max.
Proof.
  intros Hs Hb. destruct (built_inv _ _ _ Hs Hb) as (Hd & Ho & _ & _ & Hc).
  destruct es as [|e es]; [done|]. specialize (Hc ltac:(done)).
  unfold current_size, metadata_size, U32_SIZE, FLAGS_SIZE in Hc. rewrite Hd, Ho in Hc.
  unfold len at 2 in Hc. rewrite length_raw_offsets in Hc. unfold len at 2. lia.
Qed.

(** a block never outgrows its budget: the encoded form of a block with at
    least one entry, checksum and offset table included, is at most
    [block_size] bytes. *)
Theorem block_encode_within_block_size size es b :
  0 <= size <= u32_max -> built size es b -> es <> [] -> len (block_encode b) <= size.
Proof.
  intros Hs Hb Hne. rewrite block_encode_len. by destruct (built_inv _ _ _ Hs Hb) as (_&_&_&_&?); auto.
Qed.

Lemma block_roundtrip_raw size es b :
  0 <= size <= u32_max -> built size es b ->
  block_decode (block_encode b)
  = Ok {| blk_data := raw_data es; blk_offsets := raw_offsets 0 es;
          block_size := BLOCK_SIZE; flags := 0 |}.
Proof.
  intros Hs Hb. destruct (built_inv _ _ _ Hs Hb) as (Hd & Ho & Hf & _ & _).
  pose proof (built_count _ _ _ Hs Hb) as Hcnt. pose proof (len_nonneg (raw_data es)).
  pose proof (len_nonneg es). rewrite block_decode_encode; rewrite ?Ho, ?Hf, ?Hd; [done| | |lia].
  - eapply Forall_impl; [by apply raw_offsets_range|]. simpl. lia.
  - unfold len in *. rewrite length_raw_offsets. lia.
Qed.

Lemma block_roundtrip_compressed size es b :
  0 <= size <= u32_max -> built size es b -> entries_fit [] es -> es <> [] ->
  exists b', compress_keys b = Ok b' /\
    len (block_encode b') <= len (block_encode b) + len es /\
    block_decode (block_encode b')
    = Ok {| blk_data := raw_data es; blk_offsets := raw_offsets 0 es;
            block_size := BLOCK_SIZE; flags := 1 |}.
Proof.
  intros Hs Hb Hfit Hne. destruct (built_inv _ _ _ Hs Hb) as (Hd & Ho & Hf & _ & _).
  pose proof (built_count _ _ _ Hs Hb) as Hcnt. pose proof (len_nonneg (raw_data es)).
  pose proof (len_nonneg es). pose proof (len_comp_data [] es).
  unfold compress_keys. rewrite Hd, Ho, compress_block_data_spec by (done || lia).
  destruct (raw_offsets 0 es) eqn:Eo; [by destruct es|]. rewrite <- Eo in *. rewrite Hf.
  eexists. split; [reflexivity|]. split.
  - rewrite !block_encode_len. unfold current_size; simpl. rewrite Hd, Ho.
    unfold len in *. rewrite length_comp_offsets, length_raw_offsets. lia.
  - rewrite block_decode_encode; simpl; [|eapply Forall_impl; [by apply comp_offsets_range|]; simpl; lia
      |unfold len in *; rewrite length_comp_offsets; lia|by vm_compute].
    rewrite decompress_block_data_spec by (done || lia). by rewrite Eo.
Qed.

(** blocks survive a round trip to disk: decoding the encoding of a block
    gives back its entries and offsets, and so does decoding the encoding of
    the block after [compress_keys] (which cannot panic for non-empty keys
    whose consecutive shared prefixes are at most 255 bytes). *)
Theorem block_roundtrip size es b :
  0 <= size <= u32_max -> built size es b -> entries_fit [] es -> es <> [] ->
  (exists f, block_decode (block_encode b)
    = Ok {| blk_data := raw_data es; blk_offsets := raw_offsets 0 es;
            block_size := BLOCK_SIZE; flags := f |}) /\
  (exists b' f, compress_keys b = Ok b' /\ block_decode (block_encode b')
    = Ok {| blk_data := raw_data es; blk_offsets := raw_offsets 0 es;
            block_size := BLOCK_SIZE; flags := f |}).
Proof.
  intros Hs Hb Hfit Hne. split; [eexists; by eapply block_roundtrip_raw|].
  destruct (block_roundtrip_compressed size es b) as (b' & ? & _ & ?); eauto.
Qed.

(** ** The limits of the format *)

(** corruption is detected: whatever is stored in place of a block's body,
    if its CRC-32 differs from the stored checksum then [decode] returns
    [CorruptedData]; it does not panic and does not return a block. *)
Theorem block_decode_detects_mismatch body crc :
  len body >= 5 -> 0 <= crc <= u32_max -> crc <> crc32 body ->
  block_decode (body ++ u32_le crc) = Err CorruptedData.
Proof.
  intros Hl Hr Hne. unfold block_decode, U32_SIZE, FLAGS_SIZE. autorewrite with apex.
  rewrite (proj2 (Z.ltb_ge _ _)) by lia. rewrite <- (app_nil_r (u32_le crc)).
  rewrite read_u32_app by lia. cbn [obind]. rewrite slice_app_l by lia. cbn [obind].
  by rewrite (proj2 (Z.eqb_neq _ _)) by done.
Qed.

(** [decode] trusts the element count once the checksum matches: a block
    that claims more entries than its size allows makes [decode] panic
    instead of returning [CorruptedData]. *)
Theorem block_decode_panics_on_count n :
  0 < n <= u32_max ->
  let body := u32_le n ++ [byte_of_Z 0] in
  block_decode (body ++ u32_le (crc32 body)) = Panic.
Proof.
  intros Hn body. unfold block_decode, U32_SIZE, FLAGS_SIZE.
  assert (len body = 5) as Hl by (unfold body; len_lia). rewrite len_app, len_u32_le, Hl. change (5 + 4 <? 2 * 4 + 1) with false. cbv iota.
  rewrite <- (app_nil_r (u32_le (crc32 body))).
  rewrite read_u32_app by (apply crc32_range || lia). cbn [obind].
  rewrite slice_app_l by lia. cbn [obind]. rewrite Z.eqb_refl, Hl. cbn [negb].
  unfold body at 1. rewrite (index_app_mid (u32_le n)) by len_lia. cbn [obind].
  assert (read_u32 body (5 - 1 - 4) = Ok n) as ->
    by (apply (read_u32_app [] n [byte_of_Z 0]); [lia|done]).
  cbn [obind].
  unfold slice at 1. rewrite (proj2 (Z.leb_gt 0 (5 - 1 - 4 - _))) by lia.
  by rewrite andb_false_r.
Qed.

End codec.

(** The [u16] length fields are not checked against the entry: in a block
    large enough to hold it, a value of 65536 bytes is accepted by [add] and
    stored with the length 0. *)
Theorem add_truncates_long_value size k v :
  len k <= u16_max -> len v = 65536 -> len k + 65536 + 17 <= size ->
  exists b', add (Block_new size) k v = (b', true) /\
             read_u16 (blk_data b') (2 + len k) = Ok 0.
Proof.
  intros Hk Hv Hs. unfold add. simpl block_size.
  unfold current_size, entry_size, metadata_size, U32_SIZE, FLAGS_SIZE. cbn [blk_data blk_offsets Block_new].
  rewrite (proj2 (Z.ltb_ge _ _)) by (rewrite (@len_nil byte), (@len_nil Z); lia). eexists. split; [done|]. cbn [blk_data app].
  rewrite Hv. change (as_u16 65536) with 0.
  rewrite (app_assoc (u16_le _) k). apply read_u16_app; [unfold u16_max; lia|len_lia].
Qed.
