(* ===== verification/BinarySearch.v ===== *)
(** * BinarySearch: [slice::binary_search_by] and [slice::partition_point]

    The two searches of the standard library that the SSTable reader and the
    version set use, with the loop of the library (halving [size], [base] moved
    on a comparison that is not [Greater]), and what they return on a slice
    that is ordered for the comparison. *)
From Stdlib Require Import ZArith Lia.
From stdpp Require Import base tactics numbers list.
From S2P Require Import Prelude.

Section search.
Context {A : Type} (f : A -> comparison).

(** The [while size > 1] loop; [size] is halved, so [size] turns are enough. *)
Fixpoint bsearch_loop (fuel : nat) (l : list A) (base size : nat) : nat :=
  match fuel with
  | O => base
  | S fuel =>
      if (1 <? size)%nat then
        let half := (size / 2)%nat in
        let mid := (base + half)%nat in
        let base := match l !! mid with
                    | Some x => match f x with Gt => base | _ => mid end
                    | None => base
                    end in
        bsearch_loop fuel l base (size - half)
      else base
  end.

(** [binary_search_by]: [inl i] is [Ok(i)], [inr i] is [Err(i)]. *)
Definition binary_search_by (l : list A) : nat + nat :=
  match l with
  | [] => inr 0%nat
  | _ =>
      let base := bsearch_loop (length l) l 0 (length l) in
      match f <$> l !! base with
      | Some Eq => inl base
      | Some Lt => inr (S base)
      | _ => inr base
      end
  end.

(** The slice is ordered for [f]: first the [Less], then the [Equal], then the
    [Greater] elements. *)
Definition cmp_sorted (l : list A) : Prop :=
  forall i j x y, (i < j)%nat -> l !! i = Some x -> l !! j = Some y ->
    (f y = Lt -> f x = Lt) /\ (f x = Gt -> f y = Gt).

Definition bs_inv (l : list A) (base size : nat) : Prop :=
  (1 <= size)%nat /\ (base + size <= length l)%nat /\
  (base = 0%nat \/ exists x, l !! base = Some x /\ f x <> Gt) /\
  forall j x, (base + size <= j)%nat -> l !! j = Some x -> f x = Gt.

Lemma bsearch_loop_inv fuel l base size :
  cmp_sorted l -> bs_inv l base size -> (size <= S fuel)%nat ->
  bs_inv l (bsearch_loop fuel l base size) 1.
Proof.
  intros Hs. revert base size; induction fuel as [|fuel IH]; intros base size Hinv Hf;
    cbn [bsearch_loop].
  { destruct Hinv as (? & ? & ?). by replace 1%nat with size by lia. }
  destruct (Nat.ltb_spec 1 size) as [H1|H1].
  2:{ destruct Hinv as (? & ? & ?). by replace 1%nat with size by lia. }
  destruct Hinv as (_ & Hlen & Hb & Hhi).
  pose proof (Nat.div_mod_eq size 2). pose proof (Nat.mod_upper_bound size 2 (Nat.neq_succ_0 1)).
  assert (1 <= size / 2 < size)%nat as Hhalf by lia.
  cbv zeta. destruct (l !! (base + size / 2)%nat) as [x|] eqn:Ex.
  2:{ apply lookup_ge_None in Ex. lia. }
  destruct (f x) eqn:Ef; (apply IH; [|lia]); unfold bs_inv; (split; [lia|]; split; [lia|]; split; [auto|]).
  - right. exists x. rewrite Ef. done.
  - intros j y Hj. apply Hhi. lia.
  - right. exists x. rewrite Ef. done.
  - intros j y Hj. apply Hhi. lia.
  - intros j y Hj Hy. destruct (decide (j = base + size / 2)%nat) as [->|]; [congruence|].
    assert (base + size / 2 < j)%nat as Hlt by lia.
    exact (proj2 (Hs _ _ _ _ Hlt Ex Hy) Ef).
Qed.

(** On an ordered slice, [Ok] points at an equal element and [Err] at the
    place where one would be inserted. *)
Lemma binary_search_by_spec l :
  cmp_sorted l ->
  match binary_search_by l with
  | inl i => exists x, l !! i = Some x /\ f x = Eq
  | inr i => (i <= length l)%nat /\
             (forall j x, (j < i)%nat -> l !! j = Some x -> f x = Lt) /\
             (forall j x, (i <= j)%nat -> l !! j = Some x -> f x = Gt)
  end.
Proof.
  intros Hs. unfold binary_search_by. destruct l as [|a l'] eqn:El.
  { split; [simpl; lia|]. split; [lia|done]. }
  rewrite <- El in *.
  assert (bs_inv l 0 (length l)) as H0.
  { subst l. unfold bs_inv. split_and!; [simpl; lia|simpl; lia|auto|].
    intros j x Hj Hx. apply lookup_lt_Some in Hx. lia. }
  pose proof (bsearch_loop_inv (length l) l 0 (length l) Hs H0 ltac:(lia)) as (_ & Hlen & Hb & Hhi).
  set (base := bsearch_loop _ _ _ _) in *. clearbody base.
  destruct (l !! base) as [x|] eqn:Ex; simpl; [|apply lookup_ge_None in Ex; lia].
  destruct (f x) eqn:Ef; [by exists x| |].
  - split; [lia|]. split; [|intros j y Hj Hy; apply (Hhi j y); [lia|done]].
    intros j y Hj Hy. destruct (decide (j = base)) as [->|]; [congruence|].
    assert (j < base)%nat as Hlt by lia. exact (proj1 (Hs _ _ _ _ Hlt Hy Ex) Ef).
  - destruct Hb as [->|(x' & Hx' & Hx'')]; [|congruence]. split; [lia|]. split; [lia|].
    intros j y _ Hy. destruct j as [|j]; [congruence|].
    apply (proj2 (Hs 0%nat (S j) _ _ ltac:(lia) Ex Hy) Ef).
Qed.
End search.

(** [partition_point(pred)]: the binary search for the first element that does
    not satisfy [pred]. *)
Definition partition_point {A} (pred : A -> bool) (l : list A) : nat :=
  match binary_search_by (fun x => if pred x then Lt else Gt) l with
  | inl i => i
  | inr i => i
  end.

Lemma partition_point_spec {A} (pred : A -> bool) l :
  (forall i j x y, (i < j)%nat -> l !! i = Some x -> l !! j = Some y -> pred y = true -> pred x = true) ->
  (partition_point pred l <= length l)%nat /\
  (forall j x, (j < partition_point pred l)%nat -> l !! j = Some x -> pred x = true) /\
  (forall j x, (partition_point pred l <= j)%nat -> l !! j = Some x -> pred x = false).
Proof.
  intros Hm. set (f := fun x => if pred x then Lt else Gt).
  assert (cmp_sorted f l) as Hs.
  { intros i j x y Hij Hx Hy. specialize (Hm i j x y Hij Hx Hy). subst f. simpl.
    destruct (pred x), (pred y); split; intros; try done; by specialize (Hm eq_refl). }
  pose proof (binary_search_by_spec f l Hs) as H. unfold partition_point. fold f.
  destruct (binary_search_by f l) as [i|i].
  - destruct H as (x & _ & Hx). subst f. simpl in Hx. by destruct (pred x).
  - destruct H as (Hlen & Hlo & Hhi). split; [done|]. subst f. simpl in *. split; intros j x Hj Hx.
    + specialize (Hlo j x Hj Hx). by destruct (pred x).
    + specialize (Hhi j x Hj Hx). by destruct (pred x).
Qed.
