(* ===== verification/SstBuilder.v ===== *)
(** * SstBuilder: writing an SSTable ([src/src/storage/builder.rs])

    The builder packs sorted records into blocks; each full block is encoded,
    compressed, encrypted when encryption is on, and appended to the file with
    a CRC-32.  [finish] appends the metadata and the footer.  The file is the
    byte string [written]; the entropy source is a stream of nonces, one per
    encryption.  The theorem of this file is the layout of what is written:
    consecutive readable blocks, described by the block index. *)
From Stdlib Require Import ZArith Lia QArith.
From stdpp Require Import base tactics numbers list gmap strings.
From S2P Require Import Prelude Bytes SortedMap LogRecord Extern Encryption.
From S2P Require Import PrefixCompression Block.
Local Open Scope Z_scope.

(** [SST_MAGIC_V2] and [SST_MAGIC_V2_ENCRYPTED]. *)
Definition SST_MAGIC_V2 : bytes :=
  [Byte.x4c; Byte.x53; Byte.x4d; Byte.x53; Byte.x53; Byte.x54; Byte.x30; Byte.x33].
Definition SST_MAGIC_V2_ENCRYPTED : bytes :=
  [Byte.x4c; Byte.x53; Byte.x4d; Byte.x53; Byte.x53; Byte.x54; Byte.x30; Byte.x34].

(** [metadata::MAX_METADATA_BYTES]. *)
Definition MAX_METADATA_BYTES : Z := 64 * 1024 * 1024.

Record BlockMeta := mkBlockMeta {
  bm_first_key : bytes;
  bm_offset : Z;
  bm_size : Z;
  bm_uncompressed_size : Z;
}.

Record MetaBlock := mkMetaBlock {
  mb_blocks : list BlockMeta;
  mb_bloom_filter_data : bytes;
  mb_min_key : bytes;
  mb_max_key : bytes;
  mb_record_count : Z;
  mb_timestamp : Z;
}.

#[global] Instance BlockMeta_eq_dec : EqDecision BlockMeta.
Proof. solve_decision. Defined.
#[global] Instance MetaBlock_eq_dec : EqDecision MetaBlock.
Proof. solve_decision. Defined.

(** The fields of [StorageConfig] the builder reads. *)
Record StorageConfig := mkStorageConfig {
  sc_block_size : Z;
  sc_bloom_false_positive_rate : Q;
  sc_prefix_compression_enabled : bool;
}.

(** The state of [SstableBuilder]: [sb_written] is the file, [sb_rng] the
    entropy source and [sb_draws] how many nonces were taken from it. *)
Record SstableBuilder := mkSstableBuilder {
  sb_written : bytes;
  sb_current_block : Block;
  sb_block_metas : list BlockMeta;
  sb_keys_for_bloom : list bytes;
  sb_config : StorageConfig;
  sb_current_offset : Z;
  sb_first_key : option bytes;
  sb_last_key : option bytes;
  sb_record_count : Z;
  sb_timestamp : Z;
  sb_encryptor : Encryptor;
  sb_prev_key : option bytes;
  sb_rng : nat -> option bytes;
  sb_draws : nat;
}.

Section builder.
Context `{!Crc32, !Lz4, !Aead, !BloomCrate, !Postcard LogRecord, !Postcard MetaBlock}.

(** [SstableBuilder::new_with_encryption]. *)
Definition sb_new_with_encryption (config : StorageConfig) (timestamp : Z)
    (encryption : EncryptionConfig) (rng : nat -> option bytes) : SstableBuilder :=
  let encryptor := Encryptor_new encryption in
  {| sb_written := if enabled encryptor then SST_MAGIC_V2_ENCRYPTED else SST_MAGIC_V2;
     sb_current_block := Block_new (sc_block_size config);
     sb_block_metas := []; sb_keys_for_bloom := []; sb_config := config;
     sb_current_offset := len SST_MAGIC_V2;
     sb_first_key := None; sb_last_key := None; sb_record_count := 0;
     sb_timestamp := timestamp; sb_encryptor := encryptor; sb_prev_key := None;
     sb_rng := rng; sb_draws := 0%nat |}.

(** [extract_first_key_from_block]. *)
Definition extract_first_key_from_block (self : SstableBuilder) : outcome bytes :=
  let encoded := block_encode (sb_current_block self) in
  if len encoded <? 2 then Err CompactionFailed
  else
    let* key_len := read_u16 encoded 0 in
    if len encoded <? 2 + key_len then Err CompactionFailed
    else slice encoded 2 (2 + key_len).

(** [flush_current_block]. *)
Definition flush_current_block (self : SstableBuilder) : outcome SstableBuilder :=
  if blk_is_empty (sb_current_block self) then Ok self
  else
    let* first_key := extract_first_key_from_block self in
    let* block := if sc_prefix_compression_enabled (sb_config self)
                  then compress_keys (sb_current_block self) else Ok (sb_current_block self) in
    let encoded := block_encode block in
    let uncompressed_size := as_u32 (len encoded) in
    let compressed := compress_prepend_size encoded in
    let* to_write := if enabled (sb_encryptor self)
                     then encrypt_block (sb_encryptor self) (sb_rng self (sb_draws self)) compressed
                     else Ok compressed in
    let crc := crc32 to_write in
    let block_meta :=
      {| bm_first_key := first_key; bm_offset := sb_current_offset self;
         bm_size := as_u32 (len to_write) + 4; bm_uncompressed_size := uncompressed_size |} in
    Ok {| sb_written := sb_written self ++ to_write ++ u32_le crc;
          sb_current_block := Block_new (sc_block_size (sb_config self));
          sb_block_metas := sb_block_metas self ++ [block_meta];
          sb_keys_for_bloom := sb_keys_for_bloom self; sb_config := sb_config self;
          sb_current_offset := sb_current_offset self + (len to_write + 4);
          sb_first_key := sb_first_key self; sb_last_key := sb_last_key self;
          sb_record_count := sb_record_count self; sb_timestamp := sb_timestamp self;
          sb_encryptor := sb_encryptor self; sb_prev_key := sb_prev_key self;
          sb_rng := sb_rng self;
          sb_draws := if enabled (sb_encryptor self) then S (sb_draws self) else sb_draws self |}.

(** Updates of single fields used by [add]. *)
Definition sb_set_keys (self : SstableBuilder) (k : bytes) : SstableBuilder :=
  {| sb_written := sb_written self; sb_current_block := sb_current_block self;
     sb_block_metas := sb_block_metas self; sb_keys_for_bloom := sb_keys_for_bloom self;
     sb_config := sb_config self; sb_current_offset := sb_current_offset self;
     sb_first_key := match sb_first_key self with None => Some k | o => o end;
     sb_last_key := Some k; sb_record_count := sb_record_count self;
     sb_timestamp := sb_timestamp self; sb_encryptor := sb_encryptor self;
     sb_prev_key := Some k; sb_rng := sb_rng self; sb_draws := sb_draws self |}.
Definition sb_push (self : SstableBuilder) (block : Block) (k : bytes) : SstableBuilder :=
  {| sb_written := sb_written self; sb_current_block := block;
     sb_block_metas := sb_block_metas self; sb_keys_for_bloom := sb_keys_for_bloom self ++ [k];
     sb_config := sb_config self; sb_current_offset := sb_current_offset self;
     sb_first_key := sb_first_key self; sb_last_key := sb_last_key self;
     sb_record_count := sb_record_count self + 1; sb_timestamp := sb_timestamp self;
     sb_encryptor := sb_encryptor self; sb_prev_key := sb_prev_key self;
     sb_rng := sb_rng self; sb_draws := sb_draws self |}.

(** [SstableBuilder::add]. *)
Definition sb_add (self : SstableBuilder) (k : bytes) (record : LogRecord) : outcome SstableBuilder :=
  if match sb_prev_key self with Some prev => bytes_leb k prev | None => false end
  then Err InvalidSstableFormat
  else
    let self := sb_set_keys self k in
    let* value_bytes := encode record in
    let '(block, fits) := add (sb_current_block self) k value_bytes in
    if (fits : bool) then Ok (sb_push self block k)
    else
      let* self := flush_current_block self in
      let '(block, fits) := add (sb_current_block self) k value_bytes in
      if (fits : bool) then Ok (sb_push self block k) else Err CompactionFailed.

(** [build_bloom_filter]. *)
Definition build_bloom_filter (self : SstableBuilder) : outcome Bloom :=
  let* bloom := ok_or (bloom_new_for_fp_rate (len (sb_keys_for_bloom self))
                         (sc_bloom_false_positive_rate (sb_config self))) CompactionFailed in
  Ok (foldl bloom_set bloom (sb_keys_for_bloom self)).

(** [SstableBuilder::finish]: the finished file. *)
Definition sb_finish (self : SstableBuilder) : outcome bytes :=
  let* self := flush_current_block self in
  match sb_block_metas self with
  | [] => Err CompactionFailed
  | _ =>
      let* bloom := build_bloom_filter self in
      let* min_key := ok_or (sb_first_key self) InvalidSstableFormat in
      let* max_key := ok_or (sb_last_key self) InvalidSstableFormat in
      let meta_block :=
        {| mb_blocks := sb_block_metas self; mb_bloom_filter_data := bloom_into_bytes bloom;
           mb_min_key := min_key; mb_max_key := max_key;
           mb_record_count := sb_record_count self; mb_timestamp := sb_timestamp self |} in
      let* meta_encoded := encode meta_block in
      if MAX_METADATA_BYTES <? len meta_encoded then Err InvalidArgument
      else
        let meta_compressed := compress_prepend_size meta_encoded in
        let* meta_to_write :=
          if enabled (sb_encryptor self)
          then encrypt_block (sb_encryptor self) (sb_rng self (sb_draws self)) meta_compressed
          else Ok meta_compressed in
        let meta_offset := sb_current_offset self in
        Ok (sb_written self ++ meta_to_write ++ u64_le meta_offset)
  end.

(** The builder applied to a sequence of records, as its callers do:
    [new], [add] for each, [finish]. *)
Definition sst_build (config : StorageConfig) (ts : Z) (encryption : EncryptionConfig)
    (rng : nat -> option bytes) (es : list (bytes * LogRecord)) : outcome bytes :=
  let* sb := ofold (fun sb e => sb_add sb e.1 e.2)
                   (sb_new_with_encryption config ts encryption rng) es in
  sb_finish sb.

(** What a build that does not finish leaves in the file: the magic and the
    blocks flushed before the failing call, and by it.  The writer is flushed
    when the builder is dropped. *)
Definition sb_flushed (self : SstableBuilder) : bytes :=
  match flush_current_block self with Ok self => sb_written self | _ => sb_written self end.
Definition sb_add_remains (self : SstableBuilder) (k : bytes) (record : LogRecord) : bytes :=
  if match sb_prev_key self with Some prev => bytes_leb k prev | None => false end
  then sb_written self
  else match encode record with
       | Ok value_bytes =>
           if (add (sb_current_block self) k value_bytes).2 then sb_written self else sb_flushed self
       | _ => sb_written self
       end.
Fixpoint sb_remains (self : SstableBuilder) (es : list (bytes * LogRecord)) : bytes :=
  match es with
  | [] => sb_flushed self
  | e :: es => match sb_add self e.1 e.2 with
               | Ok self => sb_remains self es
               | _ => sb_add_remains self e.1 e.2
               end
  end.
Definition sst_build_remains (config : StorageConfig) (ts : Z) (encryption : EncryptionConfig)
    (rng : nat -> option bytes) (es : list (bytes * LogRecord)) : bytes :=
  sb_remains (sb_new_with_encryption config ts encryption rng) es.

(** ** What a stored block is worth *)

Abbreviation entry := (bytes * LogRecord)%type.

(** The raw entries of a block: the keys with the encoded records. *)
Definition encodes (g : list entry) (raw : list (bytes * bytes)) : Prop :=
  Forall2 (fun e r => r.1 = e.1 /\ encode e.2 = Ok r.2) g raw.

Definition raw_sized (raw : list (bytes * bytes)) : Prop :=
  Forall (fun r => len r.1 <= u16_max /\ len r.2 <= u16_max) raw.

(** The bytes [w] on disk read back as the entries [g] under the encryptor. *)
Definition readable (encr : Encryptor) (w : bytes) (us : Z) (g : list entry) : Prop :=
  exists c bs raw f,
    (if enabled encr then decrypt_block encr w else Ok w) = Ok c /\
    decompress_size_prepended c = Some bs /\ len bs = us /\
    block_decode bs = Ok {| blk_data := raw_data raw; blk_offsets := raw_offsets 0 raw;
                            block_size := BLOCK_SIZE; flags := f |} /\
    encodes g raw /\ raw_sized raw.

(** [layout off gs metas data]: [data], placed at [off], holds the groups of
    entries [gs] as consecutive blocks, and [metas] is their index. *)
Inductive layout (encr : Encryptor) : Z -> list (list entry) -> list BlockMeta -> bytes -> Prop :=
| layout_nil off : layout encr off [] [] []
| layout_cons off e g gs w us metas data :
    readable encr w us (e :: g) -> len w + 4 <= u32_max ->
    layout encr (off + len w + 4) gs metas data ->
    layout encr off ((e :: g) :: gs)
      ({| bm_first_key := e.1; bm_offset := off; bm_size := len w + 4;
          bm_uncompressed_size := us |} :: metas)
      (w ++ u32_le (crc32 w) ++ data).

Lemma layout_snoc encr off gs metas data e g w us :
  layout encr off gs metas data -> readable encr w us (e :: g) -> len w + 4 <= u32_max ->
  layout encr off (gs ++ [e :: g])
    (metas ++ [{| bm_first_key := e.1; bm_offset := off + len data; bm_size := len w + 4;
                  bm_uncompressed_size := us |}])
    (data ++ w ++ u32_le (crc32 w)).
Proof.
  intros Hl Hr Hs. induction Hl as [off|off e' g' gs w' us' metas data Hr' Hs' Hl IH]; simpl.
  - rewrite len_nil, Z.add_0_r. rewrite <- (app_nil_r (u32_le (crc32 w))).
    constructor; [done|done|constructor].
  - rewrite <- !app_assoc. constructor; [done|done|].
    replace (off + len (w' ++ u32_le (crc32 w') ++ data))
      with (off + len w' + 4 + len data) by (autorewrite with apex; lia). done.
Qed.

Lemma raw_sized_built size raw b : built size raw b -> raw_sized raw.
Proof.
  unfold raw_sized. induction 1; [constructor|]. apply Forall_app. split; [done|].
  constructor; [|constructor]. auto.
Qed.

(** The conditions under which prefix compression is lossless. *)
Definition keys_compressible (ks : list bytes) : Prop :=
  keys_fit [] ks /\ Forall (fun k => 0 < len k) ks.

Lemma entries_fit_raw prev g raw :
  encodes g raw -> raw_sized raw -> keys_fit prev (g.*1) -> Forall (fun k => 0 < len k) (g.*1) ->
  entries_fit prev raw.
Proof.
  intros Henc. revert prev; induction Henc as [|e r g raw [Hk _] _ IH]; intros prev Hs Hf Hne; [done|].
  apply Forall_cons in Hs as [[Hs1 Hs2] Hs]. cbn in Hf, Hne. apply Forall_cons in Hne as [Hn Hne].
  destruct Hf as (Hf1 & Hf2 & Hf3). cbn [entries_fit]. rewrite Hk in *. split_and!; auto; lia.
Qed.

Lemma shared_nil k : shared_prefix_len [] k = 0.
Proof. by destruct k. Qed.

Lemma keys_fit_app_r prev l1 l2 : keys_fit prev (l1 ++ l2) -> keys_fit [] l2.
Proof.
  revert prev; induction l1 as [|k l1 IH]; intros prev.
  - destruct l2 as [|k l2]; [done|]. intros (_ & ? & ?).
    cbn [keys_fit]. rewrite shared_nil. split_and!; auto; lia.
  - intros (_ & _ & Hk). by eapply IH.
Qed.

Lemma keys_fit_app_l prev l1 l2 : keys_fit prev (l1 ++ l2) -> keys_fit prev l1.
Proof.
  revert prev; induction l1 as [|k l1 IH]; intros prev; [done|].
  intros (? & ? & ?). simpl. eauto.
Qed.

Lemma keys_compressible_mid ks1 ks2 ks3 :
  keys_compressible (ks1 ++ ks2 ++ ks3) -> keys_compressible ks2.
Proof.
  intros [Hf Hn]. split.
  - by eapply keys_fit_app_l, keys_fit_app_r.
  - rewrite !Forall_app in Hn. tauto.
Qed.

(** [compress_keys] or not, the encoded block decodes to its entries. *)
Lemma flushed_block size pc raw blk g :
  0 <= size <= u32_max -> built size raw blk -> raw <> [] -> encodes g raw ->
  (pc = true -> keys_compressible (g.*1)) ->
  exists b' f, (if (pc : bool) then compress_keys blk else Ok blk) = Ok b' /\
    len (block_encode b') <= size + len raw /\
    block_decode (block_encode b')
    = Ok {| blk_data := raw_data raw; blk_offsets := raw_offsets 0 raw;
            block_size := BLOCK_SIZE; flags := f |}.
Proof.
  intros Hs Hb Hne Henc Hpc. pose proof (raw_sized_built _ _ _ Hb) as Hraw.
  pose proof (len_nonneg raw). pose proof (block_encode_len blk).
  pose proof (built_inv _ _ _ Hs Hb) as (_ & _ & _ & _ & Hc). specialize (Hc Hne).
  destruct pc.
  - destruct (Hpc eq_refl) as [Hf Hn].
    destruct (block_roundtrip_compressed size raw blk) as (b' & E1 & E2 & E3); auto.
    { by eapply entries_fit_raw. }
    exists b', 1. split_and!; [done|lia|done].
  - exists blk, 0. split_and!; [done|lia|by eapply block_roundtrip_raw].
Qed.

(** ** The invariant of the builder *)

Section invariant.
Context (config : StorageConfig) (ts : Z) (encryption : EncryptionConfig) (rng : nat -> option bytes).
(** The block size is at most 32 MiB, which covers what [LsmConfig::validate]
    accepts and what a migration chooses, and the entropy source gives 12-byte
    nonces. *)
Hypothesis block_size_valid : 0 <= sc_block_size config <= 33554432.
Hypothesis rng_valid : forall i n, rng i = Some n -> len n = 12.

Lemma block_size_u32 : 0 <= sc_block_size config <= u32_max.
Proof. unfold u32_max. lia. Qed.

Definition magic_of (encr : Encryptor) : bytes :=
  if enabled encr then SST_MAGIC_V2_ENCRYPTED else SST_MAGIC_V2.

Lemma len_magic encr : len (magic_of encr) = 8.
Proof. unfold magic_of. by destruct (enabled encr). Qed.

(** After the entries [concat gs ++ cur], of which [gs] are in finished blocks
    and [cur] in the current one. *)
Record builder_inv (sb : SstableBuilder) (gs : list (list entry)) (cur : list entry) : Prop := {
  bi_config : sb_config sb = config;
  bi_encryptor : sb_encryptor sb = Encryptor_new encryption;
  bi_rng : sb_rng sb = rng;
  bi_timestamp : sb_timestamp sb = ts;
  bi_blocks : exists data, sb_written sb = magic_of (Encryptor_new encryption) ++ data /\
                layout (Encryptor_new encryption) 8 gs (sb_block_metas sb) data;
  bi_offset : sb_current_offset sb = len (sb_written sb);
  bi_current : exists raw, built (sc_block_size config) raw (sb_current_block sb) /\ encodes cur raw;
  bi_first : sb_first_key sb = (concat gs ++ cur).*1 !! 0%nat;
  bi_last : sb_last_key sb = last ((concat gs ++ cur).*1);
  bi_prev : sb_prev_key sb = last ((concat gs ++ cur).*1);
  bi_bloom : sb_keys_for_bloom sb = (concat gs ++ cur).*1;
  bi_count : sb_record_count sb = len (concat gs ++ cur);
}.

Lemma builder_inv_new : builder_inv (sb_new_with_encryption config ts encryption rng) [] [].
Proof.
  constructor; try done.
  - exists []. unfold magic_of. simpl. rewrite app_nil_r. split; [done|constructor].
  - cbn [sb_current_offset sb_written sb_new_with_encryption]. by destruct (enabled _).
  - exists []. split; constructor.
Qed.

Lemma extract_first_key sb raw e r :
  built (sc_block_size config) raw (sb_current_block sb) -> raw = e :: r -> len e.1 <= u16_max ->
  extract_first_key_from_block sb = Ok e.1.
Proof.
  intros Hb -> Hk. unfold extract_first_key_from_block. rewrite block_encode_len.
  destruct (built_inv _ _ _ block_size_u32 Hb) as (Hd & Ho & _).
  assert (2 + len e.1 <= current_size (sb_current_block sb)) as Hsz.
  { unfold current_size, metadata_size, U32_SIZE, FLAGS_SIZE. rewrite Hd, Ho. cbn [raw_data raw_offsets].
    pose proof (len_nonneg (raw_data r)). pose proof (len_nonneg e.2).
    set (os := raw_offsets _ r). pose proof (len_nonneg os). autorewrite with apex. lia. }
  pose proof (len_nonneg e.1). rewrite (proj2 (Z.ltb_ge _ _)) by lia.
  unfold block_encode. rewrite Hd. cbn [raw_data]. unfold raw_entry. rewrite <- !app_assoc.
  set (rest := _ ++ u32_le (crc32 _)). clearbody rest.
  rewrite read_u16_head by lia. cbn [obind].
  rewrite (proj2 (Z.ltb_ge _ _)) by lia. apply slice_app_mid; len_lia.
Qed.

(** Flushing a non-empty block appends it to the finished ones. *)
Lemma flush_inv sb gs cur sb' :
  builder_inv sb gs cur -> cur <> [] ->
  (sc_prefix_compression_enabled config = true -> keys_compressible (cur.*1)) ->
  flush_current_block sb = Ok sb' ->
  builder_inv sb' (gs ++ [cur]) [].
Proof.
  intros [Hcfg Hencr Hrng Hts (data & Hw & Hl) Hoff (raw & Hb & Henc) Hfst Hlst Hprev Hbl Hcnt] Hne Hpc.
  unfold flush_current_block. rewrite Hcfg, Hencr, Hrng.
  pose proof Hb as Hb0. destruct cur as [|e cur]; [done|].
  destruct raw as [|r raw']; [by inversion Henc|].
  pose proof Henc as [[Hr1 Hr2] Henc']%Forall2_cons.
  pose proof (raw_sized_built _ _ _ Hb) as Hsized. pose proof Hsized as [[Hk Hv] _]%Forall_cons.
  pose proof block_size_u32 as Hsz.
  destruct (built_inv _ _ _ Hsz Hb) as (Hd & Ho & _ & _ & Hc). specialize (Hc ltac:(done)).
  unfold blk_is_empty. rewrite Ho. cbn [raw_offsets].
  rewrite (extract_first_key sb _ r raw' Hb eq_refl Hk). cbn [obind].
  destruct (flushed_block _ (sc_prefix_compression_enabled config) _ _ _ Hsz Hb
              ltac:(done) Henc Hpc) as (blk & f & -> & Hlen & Hdec). cbn [obind].
  assert (4 * len (r :: raw') <= sc_block_size config) as Hn.
  { unfold current_size, metadata_size, U32_SIZE, FLAGS_SIZE in Hc. rewrite Hd, Ho in Hc.
    pose proof (len_nonneg (raw_data (r :: raw'))). unfold len at 2 in Hc.
    rewrite length_raw_offsets in Hc. unfold len at 1. lia. }
  pose proof (lz4_bound (block_encode blk)) as Hlz. pose proof (len_nonneg (block_encode blk)).
  assert (len (block_encode blk) / 255 <= len (block_encode blk)) by (apply Z.div_le_upper_bound; lia).
  intros (w & Hwr & [= <-])%obind_Ok_inv.
  assert (readable (Encryptor_new encryption) w (len (block_encode blk)) (e :: cur)) as Hread.
  { exists (compress_prepend_size (block_encode blk)), (block_encode blk), (r :: raw'), f.
    split_and!; auto; [|apply lz4_roundtrip; unfold u32_max; lia].
    destruct (enabled _) eqn:Een; [|by simplify_eq].
    eapply decrypt_encrypt_block; [|done]. intros. by eapply rng_valid. }
  assert (len w + 4 <= u32_max) as Hwl.
  { destruct (enabled _) eqn:Een; [|simplify_eq; unfold u32_max; lia].
    rewrite (encrypt_block_len _ _ _ _ ltac:(intros; by eapply rng_valid) Hwr).
    rewrite Een. unfold u32_max. lia. }
  pose proof (len_nonneg w).
  assert (concat (gs ++ [e :: cur]) ++ [] = concat gs ++ e :: cur) as Ees
    by (rewrite concat_app; simpl; by rewrite !app_nil_r).
  constructor; simpl; rewrite ?Ees; try done.
  - eexists. split; [rewrite Hw, <- app_assoc; done|].
    rewrite !as_u32_small by (unfold u32_max in *; lia). rewrite Hoff, Hw, len_app, len_magic, Hr1.
    by apply layout_snoc.
  - rewrite Hoff. autorewrite with apex. lia.
  - exists []. split; constructor.
Qed.

Lemma sb_set_keys_push_inv sb gs cur b k r v :
  builder_inv sb gs cur -> len k <= u16_max -> len v <= u16_max -> encode r = Ok v ->
  add (sb_current_block sb) k v = (b, true) ->
  builder_inv (sb_push (sb_set_keys sb k) b k) gs (cur ++ [(k, r)]).
Proof.
  intros [Hcfg Hencr Hrng Hts Hblk Hoff (raw & Hb & Henc) Hfst Hlst Hprev Hbl Hcnt] Hk Hv Hr Hadd.
  constructor; simpl; rewrite ?app_assoc, ?fmap_app; simpl; try done.
  - exists (raw ++ [(k, v)]). split; [by eapply built_add|].
    unfold encodes. apply Forall2_app; [done|]. by constructor.
  - rewrite Hfst, <- fmap_app. by destruct ((concat gs ++ cur).*1).
  - by rewrite last_snoc.
  - by rewrite last_snoc.
  - by rewrite Hbl, fmap_app.
  - rewrite Hcnt, !len_app, len_cons, len_nil. lia.
Qed.

(** [sb_set_keys] commutes with the flush of the current block. *)
Lemma flush_set_keys sb k :
  flush_current_block (sb_set_keys sb k)
  = (let* sb' := flush_current_block sb in Ok (sb_set_keys sb' k)).
Proof.
  unfold flush_current_block, extract_first_key_from_block, sb_set_keys; simpl.
  destruct (blk_is_empty _); [done|]. rewrite obind_assoc.
  match goal with |- obind ?m _ = _ => destruct m end; [|done|done]. cbn [obind]. rewrite obind_assoc.
  match goal with |- obind ?m _ = _ => destruct m end; [|done|done]. cbn [obind]. rewrite obind_assoc.
  match goal with |- obind ?m _ = _ => by destruct m end.
Qed.

Lemma sb_add_inv sb gs cur k r sb' :
  builder_inv sb gs cur -> len k <= u16_max ->
  (forall v, encode r = Ok v -> len v <= u16_max) ->
  (sc_prefix_compression_enabled config = true -> keys_compressible (cur.*1)) ->
  sb_add sb k r = Ok sb' ->
  (forall k', last ((concat gs ++ cur).*1) = Some k' -> bytes_lt k' k) /\
  exists gs' cur', builder_inv sb' gs' cur' /\ concat gs' ++ cur' = (concat gs ++ cur) ++ [(k, r)].
Proof.
  intros Hinv Hk Hv Hpc. unfold sb_add. rewrite (bi_prev _ _ _ Hinv).
  set (bad := match last _ with Some _ => _ | None => _ end).
  destruct bad eqn:Eb; subst bad; [done|]. intros (v & Henc & Hrest)%obind_Ok_inv.
  split.
  { intros k' Hl. rewrite Hl in Eb. bytes_order. }
  specialize (Hv _ Henc). simpl in Hrest.
  destruct (add (sb_current_block sb) k v) as [b fits] eqn:Eadd. destruct fits.
  { injection Hrest as <-. exists gs, (cur ++ [(k, r)]). split; [by eapply sb_set_keys_push_inv|].
    by rewrite app_assoc. }
  rewrite flush_set_keys, obind_assoc in Hrest. apply obind_Ok_inv in Hrest as (sbf & Hflush & Hrest).
  cbn [obind] in Hrest. destruct cur as [|e cur].
  - unfold flush_current_block in Hflush. destruct (bi_current _ _ _ Hinv) as (raw & Hb & Hraw).
    apply Forall2_nil_inv_l in Hraw as ->.
    destruct (built_inv _ _ _ block_size_u32 Hb) as (_ & Ho & _).
    unfold blk_is_empty in Hflush. rewrite Ho in Hflush. injection Hflush as <-.
    change (sb_current_block (sb_set_keys sb k)) with (sb_current_block sb) in Hrest.
    by rewrite Eadd in Hrest.
  - pose proof (flush_inv _ _ _ _ Hinv ltac:(done) Hpc Hflush) as Hinv'.
    change (sb_current_block (sb_set_keys sbf k)) with (sb_current_block sbf) in Hrest.
    destruct (add (sb_current_block sbf) k v) as [b' fits] eqn:Eadd'. destruct fits; [|done].
    injection Hrest as <-. exists (gs ++ [e :: cur]), ([] ++ [(k, r)]).
    split; [by eapply sb_set_keys_push_inv|]. rewrite concat_app. simpl. by rewrite app_nil_r.
Qed.

(** The entries an SSTable can hold: lengths within the [u16] fields of a
    block, and keys the prefix compression can represent when it is on. *)
Definition storable (es : list entry) : Prop :=
  Forall (fun e => len e.1 <= u16_max /\ forall v, encode e.2 = Ok v -> len v <= u16_max) es /\
  (sc_prefix_compression_enabled config = true -> keys_compressible (es.*1)).

Lemma add_all_inv sb gs cur es sb' :
  builder_inv sb gs cur -> storable ((concat gs ++ cur) ++ es) -> key_sorted (concat gs ++ cur) ->
  ofold (fun sb e => sb_add sb e.1 e.2) sb es = Ok sb' ->
  exists gs' cur', builder_inv sb' gs' cur' /\ concat gs' ++ cur' = (concat gs ++ cur) ++ es /\
    key_sorted ((concat gs ++ cur) ++ es).
Proof.
  revert sb gs cur; induction es as [|[k r] es IH]; intros sb gs cur Hinv Hst Hs; simpl.
  { intros [= <-]. exists gs, cur. by rewrite app_nil_r. }
  intros (sb1 & Hadd & Hrest)%obind_Ok_inv. pose proof Hst as [Hsz Hpc].
  apply Forall_app in Hsz as [_ [[Hk Hv] _]%Forall_cons].
  assert (sc_prefix_compression_enabled config = true -> keys_compressible (cur.*1)) as Hpc'.
  { intros E. specialize (Hpc E). rewrite <- !app_assoc, !fmap_app in Hpc.
    by eapply keys_compressible_mid. }
  destruct (sb_add_inv _ _ _ _ _ _ Hinv Hk Hv Hpc' Hadd) as (Hlt & gs1 & cur1 & Hinv1 & Hes).
  assert (concat gs1 ++ cur1 ++ es = (concat gs ++ cur) ++ (k, r) :: es) as Hes1
    by (rewrite app_assoc, Hes, <- app_assoc; done).
  destruct (IH sb1 gs1 cur1 Hinv1) as (gs' & cur' & Hinv' & Hes' & Hs'); [..|done|].
  - by rewrite <- app_assoc, Hes1.
  - rewrite Hes. by apply key_sorted_snoc.
  - exists gs', cur'. rewrite <- app_assoc, Hes1 in Hes', Hs'. done.
Qed.

(** ** The layout of the finished file *)

(** A finished SSTable with the entries [es] in the blocks [gs]: the magic, the
    blocks, the stored metadata [mw] and the footer. *)
Record sst_layout (es : list entry) (file : bytes) (gs : list (list entry))
    (meta : MetaBlock) (data mw : bytes) : Prop := {
  sl_file : file = magic_of (Encryptor_new encryption) ++ data ++ mw ++ u64_le (8 + len data);
  sl_blocks : layout (Encryptor_new encryption) 8 gs (mb_blocks meta) data;
  sl_entries : concat gs = es;
  sl_nonempty : gs <> [];
  sl_sorted : key_sorted es;
  sl_min : es.*1 !! 0%nat = Some (mb_min_key meta);
  sl_max : last (es.*1) = Some (mb_max_key meta);
  sl_count : mb_record_count meta = len es;
  sl_ts : mb_timestamp meta = ts;
  sl_bloom : exists b0, mb_bloom_filter_data meta = bloom_into_bytes (foldl bloom_set b0 (es.*1));
  sl_meta : exists menc,
    encode meta = Ok menc /\ len menc <= MAX_METADATA_BYTES /\
    (if enabled (Encryptor_new encryption) then decrypt_block (Encryptor_new encryption) mw else Ok mw)
    = Ok (compress_prepend_size menc) /\
    len mw <= MAX_METADATA_BYTES + MAX_METADATA_BYTES / 255 + 64;
}.

Lemma layout_nonempty encr off gs metas data : layout encr off gs metas data -> metas <> [] -> gs <> [].
Proof. by inversion 1. Qed.

Lemma finish_layout sb gs file :
  builder_inv sb gs [] -> key_sorted (concat gs) ->
  blk_is_empty (sb_current_block sb) = true ->
  sb_finish sb = Ok file ->
  exists meta data mw, sst_layout (concat gs) file gs meta data mw.
Proof.
  intros [Hcfg Hencr Hrng Hts (data & Hw & Hl) Hoff _ Hfst Hlst Hprev Hbl Hcnt] Hsort Hemp.
  rewrite app_nil_r in *. unfold sb_finish, flush_current_block. rewrite Hemp. cbn [obind].
  destruct (sb_block_metas sb) as [|m0 ms] eqn:Em; [done|]. rewrite <- Em in *.
  assert (gs <> []) as Hgs by (eapply layout_nonempty; [done|congruence]).
  unfold build_bloom_filter. rewrite Hencr, Hrng, Hbl, Hts, Hfst, Hlst, Hcnt.
  rewrite obind_assoc. intros (b0 & Hb0 & Hrest)%obind_Ok_inv. cbn [obind] in Hrest.
  apply obind_Ok_inv in Hrest as (kmin & Hmin & Hrest).
  apply obind_Ok_inv in Hrest as (kmax & Hmax & Hrest).
  apply obind_Ok_inv in Hrest as (menc & Hmenc & Hrest).
  destruct (Z.ltb_spec MAX_METADATA_BYTES (len menc)) as [|Hmlen]; [done|].
  apply obind_Ok_inv in Hrest as (mw & Hmw & [= <-]).
  match type of Hmenc with encode ?m = _ => exists m, data, mw end.
  constructor; cbn [mb_blocks mb_min_key mb_max_key mb_record_count mb_timestamp mb_bloom_filter_data]; try done.
  - rewrite Hoff, Hw, <- !app_assoc, len_app, len_magic. done.
  - by apply ok_or_Ok in Hmin.
  - by apply ok_or_Ok in Hmax.
  - by exists b0.
  - exists menc. split; [exact Hmenc|]. split; [done|].
    pose proof (lz4_bound menc) as Hlz. pose proof (len_nonneg menc).
    assert (len menc / 255 <= MAX_METADATA_BYTES / 255) by (apply Z.div_le_mono; lia).
    destruct (enabled (Encryptor_new encryption)) eqn:Een.
    + split; [eapply decrypt_encrypt_block; [|done]; intros; by eapply rng_valid|].
      rewrite (encrypt_block_len _ _ _ _ ltac:(intros; by eapply rng_valid) Hmw), Een. lia.
    + simplify_eq. split; [done|lia].
Qed.

Lemma sb_finish_flush sb sb' :
  flush_current_block sb = Ok sb' -> blk_is_empty (sb_current_block sb') = true ->
  sb_finish sb = sb_finish sb'.
Proof.
  intros Hf He. unfold sb_finish at 1. rewrite Hf. unfold sb_finish, flush_current_block at 1.
  by rewrite He.
Qed.

(** What [sst_build] writes when it succeeds. *)
Lemma sst_build_layout es file :
  storable es -> sst_build config ts encryption rng es = Ok file ->
  exists gs meta data mw, sst_layout es file gs meta data mw.
Proof.
  intros Hst (sb & Hadds & Hfin)%obind_Ok_inv.
  destruct (add_all_inv _ [] [] es sb builder_inv_new) as (gs & cur & Hinv & Hes & Hs);
    [done|constructor|done|]. cbn [concat app] in *.
  destruct cur as [|e cur].
  - rewrite app_nil_r in Hes. destruct (bi_current _ _ _ Hinv) as (raw & Hb & Hraw).
    apply Forall2_nil_inv_l in Hraw as ->. destruct (built_inv _ _ _ block_size_u32 Hb) as (_ & Ho & _).
    subst es. exists gs. eapply finish_layout; eauto. unfold blk_is_empty. by rewrite Ho.
  - assert (exists sb', flush_current_block sb = Ok sb') as [sb' Hflush].
    { unfold sb_finish in Hfin. apply obind_Ok_inv in Hfin as (sb' & ? & _). eauto. }
    assert (sc_prefix_compression_enabled config = true -> keys_compressible ((e :: cur).*1)) as Hpc.
    { intros E. destruct Hst as [_ Hpc]. specialize (Hpc E). rewrite <- Hes, fmap_app in Hpc.
      rewrite <- (app_nil_r ((e :: cur).*1)) in Hpc. by eapply keys_compressible_mid. }
    pose proof (flush_inv _ _ _ _ Hinv ltac:(done) Hpc Hflush) as Hinv'.
    assert (concat (gs ++ [e :: cur]) = es) as Hes' by (rewrite concat_app; simpl; by rewrite app_nil_r).
    assert (blk_is_empty (sb_current_block sb') = true) as Hemp.
    { destruct (bi_current _ _ _ Hinv') as (raw & Hb & Hraw).
      apply Forall2_nil_inv_l in Hraw as ->. destruct (built_inv _ _ _ block_size_u32 Hb) as (_ & Ho & _).
      unfold blk_is_empty. by rewrite Ho. }
    rewrite (sb_finish_flush _ _ Hflush Hemp) in Hfin. subst es.
    exists (gs ++ [e :: cur]). rewrite <- Hes' in Hs |- *. by eapply finish_layout.
Qed.

End invariant.

(** an SSTable is only ever written from strictly increasing keys: when
    [build] succeeds its input was sorted, and a key that is not above the one
    before it makes [add] return [InvalidSstableFormat] and leaves nothing
    written for it. *)
Theorem sst_build_sorted config ts encryption rng es file :
  0 <= sc_block_size config <= 33554432 ->
  (forall i n, rng i = Some n -> len n = 12) -> storable config es ->
  sst_build config ts encryption rng es = Ok file ->
  key_sorted es /\ es <> [].
Proof.
  intros Hb Hr Hst Hok.
  destruct (sst_build_layout config ts encryption rng Hb Hr es file Hst Hok)
    as (gs & meta & data & mw & Hl).
  split; [apply (sl_sorted _ _ _ _ _ _ _ _ Hl)|]. intros ->.
  by pose proof (sl_min _ _ _ _ _ _ _ _ Hl).
Qed.

End builder.
