(* ===== verification/SstReader.v ===== *)
(** * SstReader: opening and reading an SSTable
    ([src/src/storage/metadata.rs], [src/src/storage/reader.rs],
    [src/src/storage/cache.rs])

    [metadata_read] validates header, footer and block index; [sst_get] and
    [sst_scan_range] find blocks by the sparse index and read them through the
    shared block cache, which is an explicit state.  The theorems close the
    loop with the builder: what was built is what is read, for point reads and
    for ranges, whatever the cache holds or evicts. *)
From Stdlib Require Import ZArith Lia QArith.
From stdpp Require Import base tactics numbers list gmap strings sorting.
From S2P Require Import Prelude Bytes SortedMap LogRecord Extern Encryption.
From S2P Require Import PrefixCompression Block BinarySearch SstBuilder.
Local Open Scope Z_scope.

(** [file.seek(Start(pos)); file.read_exact(n)]. *)
Definition read_exact_at (file : bytes) (pos n : Z) : outcome bytes :=
  if len file <? pos + n then Err (Io UnexpectedEof) else slice file pos (pos + n).

(** The cache of decompressed blocks, keyed by table id and block index. *)
Abbreviation Cache := (gmap (Z * nat) bytes).

(** [SstableReader]: [rd_mmap] is [None] when the file could not be mapped. *)
Record SstableReader := mkSstableReader {
  rd_metadata : MetaBlock;
  rd_file : bytes;
  rd_mmap : option bytes;
  rd_table_id : Z;
  rd_encryptor : Encryptor;
}.

Section reader.
Context `{!Crc32, !Lz4, !Aead, !BloomCrate, !Postcard LogRecord, !Postcard MetaBlock, !Moka (Z * nat) bytes}.

(** ** [metadata::read] *)

(** One turn of the loop over the block index. *)
Definition check_block (meta : MetaBlock) (offset : Z) (st : Z * option bytes) (block : BlockMeta)
    : outcome (Z * option bytes) :=
  let '(previous_end, previous_key) := st in
  if (bm_size block <? 4) || (bm_offset block <? previous_end)
     || (u64_max <? bm_offset block + bm_size block) || (offset <? bm_offset block + bm_size block)
     || bytes_ltb (mb_max_key meta) (bm_first_key block)
     || match previous_key with Some k => bytes_leb (bm_first_key block) k | None => false end
  then Err InvalidSstableFormat
  else Ok (bm_offset block + bm_size block, Some (bm_first_key block)).

Definition metadata_read (file : bytes) (encryption : EncryptionConfig)
    : outcome (MetaBlock * Encryptor) :=
  let length := len file in
  if length <? 16 then Err InvalidSstableFormat
  else
    let* magic := read_exact_at file 0 8 in
    let* encryptor :=
      if bytes_eqb magic SST_MAGIC_V2 then Ok Encryptor_disabled
      else if bytes_eqb magic SST_MAGIC_V2_ENCRYPTED then Ok (Encryptor_new encryption)
      else Err InvalidSstableFormat in
    let* footer := read_exact_at file (length - 8) 8 in
    let offset := from_le_bytes footer in
    if (offset <? 8) || (length - 8 <=? offset) then Err InvalidSstableFormat
    else
      let size := length - 8 - offset in
      if MAX_METADATA_BYTES + MAX_METADATA_BYTES / 255 + 64 <? size then Err InvalidArgument
      else
        let* data := read_exact_at file offset size in
        let* compressed := if bytes_eqb magic SST_MAGIC_V2_ENCRYPTED
                           then decrypt_for_recovery encryptor data else Ok data in
        let* prefix := if len compressed <? 4 then Err InvalidSstableFormat
                       else slice compressed 0 4 in
        if MAX_METADATA_BYTES <? from_le_bytes prefix then Err InvalidArgument
        else
          let* bs := ok_or (decompress_size_prepended compressed) DecompressionFailed in
          let* meta := decode bs in
          if match mb_blocks meta with
             | [] => true
             | b0 :: _ => (mb_record_count meta =? 0) || bytes_ltb (mb_max_key meta) (mb_min_key meta)
                          || negb (bytes_eqb (bm_first_key b0) (mb_min_key meta))
             end
          then Err InvalidSstableFormat
          else
            let* _ := ofold (check_block meta offset) (8, None) (mb_blocks meta) in
            Ok (meta, encryptor).

(** ** [SstableReader] *)

(** [open_with_encryption]; [mapped] says whether [Mmap::map] succeeded. *)
Definition rd_open (file : bytes) (table_id : Z) (encryption : EncryptionConfig) (mapped : bool)
    : outcome SstableReader :=
  let* (metadata, encryptor) := metadata_read file encryption in
  Ok {| rd_metadata := metadata; rd_file := file;
        rd_mmap := if mapped then Some file else None;
        rd_table_id := table_id; rd_encryptor := encryptor |}.

(** [metadata::bloom] and [might_contain]: without a filter every key might be
    present. *)
Definition might_contain (self : SstableReader) (k : bytes) : bool :=
  match bloom_from_bytes (mb_bloom_filter_data (rd_metadata self)) with
  | Some filter => bloom_check filter k
  | None => true
  end.

(** [read_and_decompress_block]. *)
Definition read_and_decompress_block (self : SstableReader) (bm : BlockMeta) : outcome bytes :=
  let offset := bm_offset bm in
  if bm_size bm <? 4 then Panic
  else
    let on_disk_size := bm_size bm - 4 in
    let file_read :=
      let* on_disk_data := read_exact_at (rd_file self) offset on_disk_size in
      let* crc_bytes := read_exact_at (rd_file self) (offset + on_disk_size) 4 in
      Ok (on_disk_data, from_le_bytes crc_bytes) in
    let* (on_disk_data, stored_crc32) :=
      match rd_mmap self with
      | Some mmap =>
          if offset + bm_size bm <=? len mmap then
            let block_end := offset + on_disk_size in
            let* data := slice mmap offset block_end in
            let* crc_bytes := slice mmap block_end (block_end + 4) in
            Ok (data, from_le_bytes crc_bytes)
          else file_read
      | None => file_read
      end in
    if negb (crc32 on_disk_data =? stored_crc32) then Err CorruptedData
    else
      let* compressed_block := if enabled (rd_encryptor self)
                               then decrypt_block (rd_encryptor self) on_disk_data
                               else Ok on_disk_data in
      let* decompressed := ok_or (decompress_size_prepended compressed_block) DecompressionFailed in
      if negb (len decompressed =? bm_uncompressed_size bm) then Err CorruptedData
      else Ok decompressed.

(** [iter().position(|b| b.offset == offset)]. *)
Fixpoint position (offset : Z) (blocks : list BlockMeta) : option nat :=
  match blocks with
  | [] => None
  | b :: blocks => if bm_offset b =? offset then Some 0%nat else S <$> position offset blocks
  end.

(** [read_block]: through the cache. *)
Definition read_block (self : SstableReader) (cache : Cache) (bm : BlockMeta) : outcome bytes * Cache :=
  let block_idx := default 0%nat (position (bm_offset bm) (mb_blocks (rd_metadata self))) in
  match moka_get cache (rd_table_id self, block_idx) with
  | Some cached => (Ok cached, cache)
  | None =>
      match read_and_decompress_block self bm with
      | Ok block_data => (Ok block_data, moka_insert cache (rd_table_id self, block_idx) block_data)
      | Err e => (Err e, cache)
      | Panic => (Panic, cache)
      end
  end.

(** [read_block_by_key]. *)
Definition read_block_by_key (self : SstableReader) (k : bytes) : option BlockMeta :=
  let blocks := mb_blocks (rd_metadata self) in
  match partition_point (fun b => bytes_leb (bm_first_key b) k) blocks with
  | O => None
  | S i => blocks !! i
  end.

(** [extract_key_at_offset]. *)
Definition extract_key_at_offset (data : bytes) (offset : Z) : option bytes :=
  if len data <? offset + 2 then None
  else match read_u16 data offset with
       | Ok key_len =>
           if len data <? offset + 2 + key_len then None
           else ok (slice data (offset + 2) (offset + 2 + key_len))
       | _ => None
       end.

(** [search_in_block]. *)
Definition search_in_block (block : Block) (k : bytes) : outcome (option LogRecord) :=
  let data := blk_data block in
  let cmp offset := match extract_key_at_offset data offset with
                    | Some entry_key => bytes_cmp entry_key k
                    | None => Lt
                    end in
  match binary_search_by cmp (blk_offsets block) with
  | inl pos =>
      let* offset := expect (blk_offsets block !! pos) in
      let* key_len := read_u16 data offset in
      let val_len_offset := offset + 2 + key_len in
      let* val_len := read_u16 data val_len_offset in
      if len data <? val_len_offset + 2 + val_len then Err CorruptedData
      else
        let* entry_value := slice data (val_len_offset + 2) (val_len_offset + 2 + val_len) in
        let* record := decode entry_value in
        Ok (Some record)
  | inr _ => Ok None
  end.

(** [SstableReader::get]. *)
Definition sst_get (self : SstableReader) (cache : Cache) (k : bytes)
    : outcome (option LogRecord) * Cache :=
  if negb (might_contain self k) then (Ok None, cache)
  else match read_block_by_key self k with
       | None => (Ok None, cache)
       | Some bm =>
           let '(block_data, cache) := read_block self cache bm in
           (let* block_data := block_data in
            let* block := block_decode block_data in
            search_in_block block k, cache)
       end.

(** The loop of [scan_range] over the entries of one block; [break] returns
    what was read. *)
Fixpoint scan_entries (data : bytes) (offsets : list Z) (start stop : option bytes)
    (records : list (bytes * LogRecord)) : outcome (list (bytes * LogRecord)) :=
  match offsets with
  | [] => Ok records
  | offset :: offsets =>
      if len data <? offset + 2 then Ok records
      else
        let* key_len := read_u16 data offset in
        if len data <? offset + 2 + key_len + 2 then Ok records
        else
          let* k := slice data (offset + 2) (offset + 2 + key_len) in
          if match start with Some s => bytes_ltb k s | None => false end
          then scan_entries data offsets start stop records
          else if match stop with Some e => bytes_leb e k | None => false end then Ok records
          else
            let val_len_offset := offset + 2 + key_len in
            let* val_len := read_u16 data val_len_offset in
            if len data <? val_len_offset + 2 + val_len then Ok records
            else
              let* value := slice data (val_len_offset + 2) (val_len_offset + 2 + val_len) in
              let* record := decode value in
              scan_entries data offsets start stop (records ++ [(k, record)])
  end.

(** The loop of [scan_range] over the blocks. *)
Fixpoint scan_blocks (self : SstableReader) (blocks : list BlockMeta) (start stop : option bytes)
    (cache : Cache) (records : list (bytes * LogRecord))
    : outcome (list (bytes * LogRecord)) * Cache :=
  match blocks with
  | [] => (Ok records, cache)
  | bm :: blocks =>
      if match stop with Some e => bytes_leb e (bm_first_key bm) | None => false end
      then (Ok records, cache)
      else
        let '(block_data, cache) := read_block self cache bm in
        match (let* block_data := block_data in
               let* block := block_decode block_data in
               scan_entries (blk_data block) (blk_offsets block) start stop records) with
        | Ok records => scan_blocks self blocks start stop cache records
        | Err e => (Err e, cache)
        | Panic => (Panic, cache)
        end
  end.

(** [SstableReader::scan_range]; [scan] is the range without bounds. *)
Definition sst_scan_range (self : SstableReader) (cache : Cache) (start stop : option bytes)
    : outcome (list (bytes * LogRecord)) * Cache :=
  let blocks := mb_blocks (rd_metadata self) in
  let start_block_idx :=
    match start with
    | Some s => Nat.pred (partition_point (fun b => bytes_leb (bm_first_key b) s) blocks)
    | None => 0%nat
    end in
  scan_blocks self (drop start_block_idx blocks) start stop cache [].

Definition sst_scan (self : SstableReader) (cache : Cache) := sst_scan_range self cache None None.

(** ** Entries of a block *)

Lemma raw_offsets_lookup base raw i o :
  raw_offsets base raw !! i = Some o ->
  exists l1 e l2, raw = l1 ++ e :: l2 /\ length l1 = i /\ o = base + len (raw_data l1).
Proof.
  revert base i; induction raw as [|e raw IH]; intros base i; [done|].
  cbn [raw_offsets]. destruct i as [|i]; cbn.
  - intros [= <-]. exists [], e, raw. cbn. rewrite Z.add_0_r. done.
  - intros (l1 & e' & l2 & -> & <- & ->)%IH. exists (e :: l1), e', l2. split_and!; [done|done|].
    cbn [raw_data]. rewrite len_app. lia.
Qed.

Lemma raw_data_at l1 e l2 :
  raw_data (l1 ++ e :: l2) = raw_data l1 ++ raw_entry e ++ raw_data l2.
Proof. by rewrite raw_data_app. Qed.

Lemma extract_key_raw l1 e l2 :
  raw_sized (l1 ++ e :: l2) ->
  extract_key_at_offset (raw_data (l1 ++ e :: l2)) (len (raw_data l1)) = Some e.1.
Proof.
  intros [_ [[Hk Hv] _]%Forall_cons]%Forall_app. rewrite raw_data_at.
  destruct (read_raw_entry (raw_data l1) e (raw_data l2) Hk Hv) as (R1 & R2 & _ & _).
  pose proof (len_nonneg e.1). pose proof (len_nonneg e.2). pose proof (len_nonneg (raw_data l2)).
  unfold extract_key_at_offset. rewrite R1, !(proj2 (Z.ltb_ge _ _)) by (autorewrite with apex; lia).
  by rewrite R2.
Qed.

(** The keys of the raw entries are those of the group. *)
Lemma encodes_lookup g raw l1 r l2 :
  encodes g raw -> raw = l1 ++ r :: l2 ->
  exists g1 e g2, g = g1 ++ e :: g2 /\ length g1 = length l1 /\ r.1 = e.1 /\ encode e.2 = Ok r.2.
Proof.
  intros He ->. apply Forall2_app_inv_r in He as (g1 & g' & H1' & H2' & ->).
  apply Forall2_cons_inv_r in H2' as (e & g2 & [Hk Henc] & _ & ->).
  exists g1, e, g2. split_and!; auto. by eapply Forall2_length.
Qed.

Lemma encodes_keys g raw : encodes g raw -> raw.*1 = g.*1.
Proof. induction 1 as [|e r g raw [Hk _] _ IH]; [done|]. cbn. by f_equal. Qed.

Lemma key_sorted_keys {A B} (l : list (bytes * A)) (l' : list (bytes * B)) :
  l.*1 = l'.*1 -> key_sorted l -> key_sorted l'.
Proof.
  revert l'; induction l as [|[k v] l IH]; intros [|[k' v'] l'] Heq Hs; try done; [constructor|].
  injection Heq as -> Heq. change (l.*1 = l'.*1) in Heq. apply key_sorted_cons in Hs as [Hk Hs]. apply key_sorted_cons.
  split; [|by apply IH]. intros k1 v1 Hin.
  assert (k1 ∈ l.*1) as ([k2 v2] & -> & Hin2)%list_elem_of_fmap.
  { rewrite Heq. apply list_elem_of_fmap. by exists (k1, v1). }
  by eapply Hk.
Qed.

Lemma key_sorted_lookup_lt {A} (l : list (bytes * A)) i j x y :
  key_sorted l -> (i < j)%nat -> l !! i = Some x -> l !! j = Some y -> bytes_lt x.1 y.1.
Proof.
  intros Hs Hij Hi Hj. rewrite <- (take_drop j l) in Hs. apply key_sorted_app in Hs as (_ & _ & Hlt).
  apply Hlt.
  - apply list_elem_of_lookup. exists i. by rewrite lookup_take_lt.
  - apply list_elem_of_lookup. exists 0%nat. by rewrite lookup_drop, Nat.add_0_r.
Qed.

(** The comparison of [search_in_block] on the offsets of a sorted block. *)
Lemma search_cmp raw i o k :
  raw_sized raw -> raw_offsets 0 raw !! i = Some o ->
  exists e, raw !! i = Some e /\
    match extract_key_at_offset (raw_data raw) o with
    | Some entry_key => bytes_cmp entry_key k | None => Lt end = bytes_cmp e.1 k.
Proof.
  intros Hs (l1 & e & l2 & -> & <- & ->)%raw_offsets_lookup. exists e.
  split; [by rewrite lookup_app_r, Nat.sub_diag by lia|].
  by rewrite Z.add_0_l, extract_key_raw.
Qed.

Lemma bytes_cmp_Gt a b : bytes_cmp a b = Gt <-> bytes_lt b a.
Proof. rewrite bytes_lt_cmp, (bytes_cmp_antisym a b). by destruct (bytes_cmp a b). Qed.

Lemma search_in_block_ok g raw f k :
  encodes g raw -> raw_sized raw -> key_sorted g ->
  search_in_block {| blk_data := raw_data raw; blk_offsets := raw_offsets 0 raw;
                     block_size := BLOCK_SIZE; flags := f |} k = Ok (assoc k g).
Proof.
  intros Henc Hsz Hs. assert (key_sorted raw) as Hsr
    by (eapply key_sorted_keys; [symmetry; by apply encodes_keys|done]).
  unfold search_in_block. cbn [blk_data blk_offsets].
  set (cmp := fun offset => match extract_key_at_offset (raw_data raw) offset with
                            | Some entry_key => bytes_cmp entry_key k | None => Lt end).
  assert (cmp_sorted cmp (raw_offsets 0 raw)) as Hcs.
  { intros i j o1 o2 Hij Ho1 Ho2.
    destruct (search_cmp raw i o1 k Hsz Ho1) as (e1 & He1 & Hc1).
    destruct (search_cmp raw j o2 k Hsz Ho2) as (e2 & He2 & Hc2).
    unfold cmp. rewrite Hc1, Hc2. pose proof (key_sorted_lookup_lt raw i j e1 e2 Hsr Hij He1 He2).
    rewrite !bytes_cmp_Gt, <- !bytes_lt_cmp. split; intros; bytes_order. }
  pose proof (binary_search_by_spec cmp _ Hcs) as Hspec.
  destruct (binary_search_by cmp (raw_offsets 0 raw)) as [i|i].
  - destruct Hspec as (o & Ho & Hcmp). rewrite Ho. cbn [expect obind].
    destruct (search_cmp raw i o k Hsz Ho) as (e' & He' & Hc). unfold cmp in Hcmp.
    rewrite Hc in Hcmp. apply bytes_cmp_eq in Hcmp. subst k.
    apply raw_offsets_lookup in Ho as (l1 & e & l2 & -> & <- & ->).
    rewrite lookup_app_r, Nat.sub_diag in He' by lia. injection He' as ->.
    destruct (encodes_lookup g _ l1 e' l2 Henc eq_refl) as (g1 & x & g2 & Hg & _ & Hk & Hr).
    apply Forall_app in Hsz as [_ [[Hk' Hv'] _]%Forall_cons].
    destruct (read_raw_entry (raw_data l1) e' (raw_data l2) Hk' Hv') as (R1 & R2 & R3 & R4).
    rewrite raw_data_at, Z.add_0_l, R1. cbn [obind]. rewrite R3. cbn [obind].
    pose proof (len_nonneg (raw_data l2)).
    rewrite (proj2 (Z.ltb_ge _ _)) by (autorewrite with apex; lia). rewrite R4. cbn [obind].
    rewrite (decode_encode _ _ Hr). cbn [obind]. rewrite Hk. do 2 f_equal. symmetry.
    apply assoc_elem; [done|]. subst g. destruct x. set_solver.
  - destruct Hspec as (_ & Hlo & Hhi). do 2 f_equal. symmetry. apply assoc_None.
    rewrite <- (encodes_keys _ _ Henc). intros (e & -> & Hin)%list_elem_of_fmap.
    apply list_elem_of_lookup in Hin as [j Hj].
    destruct (lookup_lt_is_Some_2 (raw_offsets 0 raw) j) as [o Ho].
    { rewrite length_raw_offsets. by eapply lookup_lt_Some. }
    destruct (search_cmp raw j o e.1 Hsz Ho) as (e2 & He2 & Hc). rewrite Hj in He2. injection He2 as <-.
    rewrite bytes_cmp_refl in Hc.
    destruct (decide (j < i)%nat) as [Hji|Hji].
    + specialize (Hlo j o Hji Ho). unfold cmp in Hlo. congruence.
    + specialize (Hhi j o ltac:(lia) Ho). unfold cmp in Hhi. congruence.
Qed.

(** The half-open range of [scan_range]. *)
Definition in_range (start stop : option bytes) (k : bytes) : bool :=
  match start with Some s => bytes_leb s k | None => true end
  && match stop with Some e => bytes_ltb k e | None => true end.

Lemma in_range_stop start e k k' :
  bytes_leb e k = true -> bytes_le k k' -> in_range start (Some e) k' = false.
Proof.
  intros H1' H2'. unfold in_range. apply andb_false_iff. right. apply bytes_ltb_ge. bytes_prop.
  by transitivity k.
Qed.

Lemma scan_entries_ok start stop l1 l2 g acc :
  encodes g l2 -> raw_sized (l1 ++ l2) -> key_sorted g ->
  scan_entries (raw_data (l1 ++ l2)) (raw_offsets (len (raw_data l1)) l2) start stop acc
  = Ok (acc ++ filter (fun e => in_range start stop e.1 = true) g).
Proof.
  intros Henc. revert l1 acc; induction Henc as [|e r g l2 [Hrk Hre] Henc IH]; intros l1 acc Hsz Hs.
  { cbn. by rewrite app_nil_r. }
  pose proof Hsz as [_ [[Hk Hv] _]%Forall_cons]%Forall_app.
  cbn [raw_offsets scan_entries]. rewrite raw_data_at.
  destruct (read_raw_entry (raw_data l1) r (raw_data l2) Hk Hv) as (R1 & R2 & R3 & R4).
  pose proof (len_nonneg r.1). pose proof (len_nonneg r.2). pose proof (len_nonneg (raw_data l2)).
  rewrite R1. cbn [obind]. rewrite !(proj2 (Z.ltb_ge _ _)) by (autorewrite with apex; lia).
  rewrite R2. cbn [obind].
  assert (len (raw_data l1) + len (raw_entry r) = len (raw_data (l1 ++ [r]))) as Hoff
    by (rewrite raw_data_app, len_app; cbn [raw_data]; by rewrite app_nil_r).
  rewrite Hoff, <- raw_data_at, (cons_middle r l1 l2), app_assoc.
  assert (raw_sized ((l1 ++ [r]) ++ l2)) as Hsz' by (by rewrite <- app_assoc).
  destruct e as [ek er]. cbn [fst snd] in *. apply key_sorted_cons in Hs as [Hlt Hs].
  rewrite filter_cons. cbn [fst]. rewrite <- Hrk.
  destruct (match start with Some s => bytes_ltb r.1 s | None => false end) eqn:Est.
  { rewrite IH by done. rewrite decide_False; [done|]. destruct start as [s|]; [|done].
    unfold in_range. intros [Hle _]%andb_true_iff. bytes_prop. bytes_order. }
  destruct (match stop with Some e => bytes_leb e r.1 | None => false end) eqn:Esp.
  { destruct stop as [e|]; [|done]. rewrite decide_False.
    2:{ rewrite (in_range_stop start e r.1 r.1) by (done || reflexivity). done. }
    rewrite filter_none; [by rewrite app_nil_r|]. intros [k' r'] Hin. cbn [fst].
    rewrite (in_range_stop start e r.1 k'); [done|done|]. apply bytes_lt_le. rewrite Hrk. by eapply Hlt. }
  rewrite <- app_assoc, <- (cons_middle r l1 l2), raw_data_at, R3. cbn [obind].
  rewrite (proj2 (Z.ltb_ge _ _)) by (autorewrite with apex; lia). rewrite R4. cbn [obind].
  rewrite (decode_encode _ _ Hre). cbn [obind].
  rewrite <- raw_data_at, (cons_middle r l1 l2), app_assoc, IH by done.
  rewrite decide_True; [rewrite <- app_assoc, Hrk; done|].
  unfold in_range. apply andb_true_iff. destruct start, stop; bytes_prop; done.
Qed.

(** ** Blocks of a file *)

(** The [i]-th block of a layout: its place in the data, its index entry. *)
Lemma layout_lookup encr off gs metas data i m :
  layout encr off gs metas data -> metas !! i = Some m ->
  exists e g w us pre post,
    gs !! i = Some (e :: g) /\ data = pre ++ w ++ u32_le (crc32 w) ++ post /\
    m = {| bm_first_key := e.1; bm_offset := off + len pre; bm_size := len w + 4;
           bm_uncompressed_size := us |} /\
    readable encr w us (e :: g).
Proof.
  intros Hl. revert i; induction Hl as [off|off e g gs w us metas data Hr Hw Hl IH]; intros i; [done|].
  destruct i as [|i]; cbn.
  - intros [= <-]. exists e, g, w, us, [], data. split_and!; [done|done| |done].
    by rewrite len_nil, Z.add_0_r.
  - intros (e' & g' & w' & us' & pre & post & Hg & -> & -> & Hr')%IH.
    exists e', g', w', us', (w ++ u32_le (crc32 w) ++ pre), post. split_and!; [done| | |done].
    + by rewrite <- !app_assoc.
    + f_equal. autorewrite with apex. lia.
Qed.

Lemma layout_length encr off gs metas data : layout encr off gs metas data -> length metas = length gs.
Proof. induction 1; simpl; auto. Qed.

Lemma layout_offset_ge encr off gs metas data m :
  layout encr off gs metas data -> m ∈ metas -> off <= bm_offset m.
Proof.
  intros Hl Hin. apply list_elem_of_lookup in Hin as [i Hi].
  destruct (layout_lookup _ _ _ _ _ _ _ Hl Hi) as (e & g & w & us & pre & post & _ & _ & -> & _).
  pose proof (len_nonneg pre). simpl. lia.
Qed.

(** Blocks are found back by their offset: the cache index is the index. *)
Lemma layout_position encr off gs metas data i m :
  layout encr off gs metas data -> metas !! i = Some m -> position (bm_offset m) metas = Some i.
Proof.
  intros Hl. revert i; induction Hl as [off|off e g gs w us metas data Hr Hw Hl IH]; intros i; [done|].
  destruct i as [|i]; cbn [lookup list_lookup position bm_offset].
  - intros [= <-]. simpl. by rewrite Z.eqb_refl.
  - intros Hm. pose proof (layout_offset_ge _ _ _ _ _ m Hl (list_elem_of_lookup_2 _ _ _ Hm)).
    pose proof (len_nonneg w). rewrite (proj2 (Z.eqb_neq _ _)) by lia. by rewrite (IH i Hm).
Qed.

(** The first keys of the index, through the groups. *)
Lemma layout_first_key encr off gs metas data i m :
  layout encr off gs metas data -> metas !! i = Some m ->
  exists e g, gs !! i = Some (e :: g) /\ bm_first_key m = e.1.
Proof.
  intros Hl Hm. destruct (layout_lookup _ _ _ _ _ _ _ Hl Hm) as (e & g & ? & ? & ? & ? & Hg & _ & -> & _).
  by exists e, g.
Qed.

Section open.
Context (ts : Z) (encryption : EncryptionConfig) (es : list (bytes * LogRecord))
  (file : bytes) (gs : list (list (bytes * LogRecord))) (meta : MetaBlock) (data mw : bytes).
Hypothesis file_size : len file <= u64_max.
Hypothesis Hsl : sst_layout ts encryption es file gs meta data mw.

Let encr := Encryptor_new encryption.

Lemma file_len : len file = 16 + len data + len mw.
Proof. rewrite (sl_file _ _ _ _ _ _ _ _ Hsl). autorewrite with apex. rewrite len_magic. lia. Qed.

Lemma mw_nonempty : 4 <= len mw.
Proof.
  destruct (sl_meta _ _ _ _ _ _ _ _ Hsl) as (menc & _ & Hm & Hd & _).
  destruct (lz4_prefix menc) as [rest Hp]. { unfold MAX_METADATA_BYTES, u32_max in *. lia. }
  destruct (enabled (Encryptor_new encryption)) eqn:E.
  - revert Hd. unfold decrypt_block. rewrite E. cbn [negb].
    destruct (cipher _); simpl; [|done]. case_cond; [done|lia].
  - injection Hd as ->. rewrite Hp. len_lia.
Qed.

Lemma gs_sorted : key_sorted (concat gs).
Proof. rewrite (sl_entries _ _ _ _ _ _ _ _ Hsl). apply (sl_sorted _ _ _ _ _ _ _ _ Hsl). Qed.

Lemma encryptor_opened :
  (if enabled encr then Encryptor_new encryption else Encryptor_disabled) = encr.
Proof. unfold encr, Encryptor_new. simpl. by destruct (ec_enabled encryption). Qed.

(** The block index of a built file passes the checks of [metadata_read]. *)
Lemma check_blocks_ok off gs' metas data' st :
  layout encr off gs' metas data' -> st.1 = off -> 8 <= off ->
  off + len data' = 8 + len data ->
  key_sorted (concat gs') -> (forall e, e ∈ concat gs' -> bytes_le e.1 (mb_max_key meta)) ->
  (forall k e, st.2 = Some k -> e ∈ concat gs' -> bytes_lt k e.1) ->
  is_ok (ofold (check_block meta (8 + len data)) st metas) = true.
Proof.
  intros Hl. revert st; induction Hl as [off|off e g gs' w us metas data' Hr Hw Hl IH];
    intros [pe pk] Hpe Hoff Hend Hs Hmax Hprev; [done|]. simpl in Hpe. subst pe. cbn [ofold check_block].
  pose proof file_len. pose proof mw_nonempty. pose proof (len_nonneg data'). pose proof (len_nonneg w).
  autorewrite with apex in Hend. cbn [bm_size bm_offset bm_first_key].
  rewrite !(proj2 (Z.ltb_ge _ _)) by (unfold u64_max in *; lia). cbn [orb].
  assert (bytes_ltb (mb_max_key meta) e.1 = false) as ->.
  { apply bytes_ltb_ge. apply Hmax. cbn. set_solver. }
  cbn [orb]. cbn [concat] in *.
  assert (match pk with Some k => bytes_leb e.1 k | None => false end = false) as ->.
  { destruct pk as [k|]; [|done]. apply bytes_leb_gt. apply (Hprev k e eq_refl). set_solver. }
  cbn [obind]. apply key_sorted_app in Hs as (Hsg & Hsr & Hlt).
  apply IH; cbn [fst snd]; [lia|lia|lia|done| |].
  - intros x Hx. apply Hmax. set_solver.
  - intros k x [= <-] Hx. apply (Hlt e x); set_solver.
Qed.

(** Facts about the metadata of a built file, one per check of the reader. *)
Lemma es_le_max e : e ∈ es -> bytes_le e.1 (mb_max_key meta).
Proof.
  intros He. pose proof (sl_max _ _ _ _ _ _ _ _ Hsl) as Hmax.
  pose proof (sl_sorted _ _ _ _ _ _ _ _ Hsl) as Hsort. apply list_elem_of_lookup in He as [i Hi].
  rewrite last_lookup, list_lookup_fmap in Hmax. rewrite length_fmap in Hmax.
  destruct (es !! pred (length es)) as [el|] eqn:El; [|done]. injection Hmax as Hmax.
  pose proof (lookup_lt_Some _ _ _ Hi). destruct (decide (i = pred (length es))) as [->|].
  - rewrite El in Hi. injection Hi as <-. rewrite Hmax. reflexivity.
  - rewrite <- Hmax. apply bytes_lt_le. apply (key_sorted_lookup_lt es i (pred (length es))); auto; lia.
Qed.

Lemma min_in_es : exists e, e ∈ es /\ e.1 = mb_min_key meta.
Proof.
  pose proof (sl_min _ _ _ _ _ _ _ _ Hsl) as Hmin. destruct es as [|e es']; [done|].
  injection Hmin as Hmin. exists e. split; [by left|done].
Qed.

Lemma es_ge_min e : e ∈ es -> bytes_le (mb_min_key meta) e.1.
Proof.
  intros He. pose proof (sl_min _ _ _ _ _ _ _ _ Hsl) as Hmin.
  pose proof (sl_sorted _ _ _ _ _ _ _ _ Hsl) as Hsort. destruct es as [|[k r] es']; [done|].
  injection Hmin as <-. apply key_sorted_cons in Hsort as [Hlt _]. destruct e as [k' r'].
  apply elem_of_cons in He as [[= -> ->]|He]; [reflexivity|]. apply bytes_lt_le. by eapply Hlt.
Qed.

Lemma first_block_min :
  exists b0 bs, mb_blocks meta = b0 :: bs /\ bm_first_key b0 = mb_min_key meta.
Proof.
  destruct Hsl as [_ Hblocks Hes Hne _ Hmin _ _ _ _ _].
  inversion Hblocks as [|? e g ? w us metas data' Hr Hw Hl]; subst; [done|].
  eexists _, metas. split; [done|]. simpl in Hmin |- *. by injection Hmin.
Qed.

Lemma header_fields :
  slice file 0 (0 + 8) = Ok (magic_of encr) /\
  slice file (len file - 8) (len file - 8 + 8) = Ok (u64_le (8 + len data)) /\
  slice file (8 + len data) (8 + len data + (len file - 8 - (8 + len data))) = Ok mw.
Proof.
  pose proof file_len as Hfl. pose proof (sl_file _ _ _ _ _ _ _ _ Hsl) as Hfile.
  pose proof (len_magic encr) as Hlm. fold encr in Hfile. set (mg := magic_of encr) in *.
  rewrite Hfl. split_and!; rewrite Hfile.
  - apply slice_app_l. lia.
  - rewrite !app_assoc. apply slice_app_r; autorewrite with apex; lia.
  - rewrite (app_assoc _ data). apply slice_app_mid; autorewrite with apex; lia.
Qed.

Lemma magic_encryptor :
  (if bytes_eqb (magic_of encr) SST_MAGIC_V2 then Ok Encryptor_disabled
   else if bytes_eqb (magic_of encr) SST_MAGIC_V2_ENCRYPTED
        then Ok (Encryptor_new encryption) else Err InvalidSstableFormat) = Ok encr.
Proof.
  pose proof encryptor_opened as He. unfold magic_of. destruct (enabled encr); [done|].
  exact (f_equal Ok He).
Qed.

(** The tail of [metadata_read], once the metadata is decompressed. *)
Lemma metadata_checks_ok :
  (if match mb_blocks meta with
      | [] => true
      | b0 :: _ => (mb_record_count meta =? 0) || bytes_ltb (mb_max_key meta) (mb_min_key meta)
                   || negb (bytes_eqb (bm_first_key b0) (mb_min_key meta))
      end
   then Err InvalidSstableFormat
   else let* _ := ofold (check_block meta (8 + len data)) (8, None) (mb_blocks meta) in
        Ok (meta, encr)) = Ok (meta, encr).
Proof.
  destruct first_block_min as (b0 & bs & Hb & Hb0). destruct min_in_es as (e & He & Hmin).
  rewrite Hb at 1. rewrite (sl_count _ _ _ _ _ _ _ _ Hsl), Hb0.
  assert (0 < len es). { destruct es; [set_solver|]. len_lia. }
  rewrite (proj2 (Z.eqb_neq _ _)) by lia. rewrite (proj2 (bytes_eqb_eq _ _)) by done.
  assert (bytes_ltb (mb_max_key meta) (mb_min_key meta) = false) as ->.
  { rewrite <- Hmin. apply bytes_ltb_ge. by apply es_le_max. }
  cbn [orb negb].
  pose proof (check_blocks_ok 8 gs (mb_blocks meta) data (8, None) (sl_blocks _ _ _ _ _ _ _ _ Hsl)
                eq_refl ltac:(lia) eq_refl) as Hok.
  rewrite (sl_entries _ _ _ _ _ _ _ _ Hsl) in Hok.
  specialize (Hok (sl_sorted _ _ _ _ _ _ _ _ Hsl) es_le_max ltac:(done)).
  by destruct (ofold _ _ _).
Qed.

Lemma metadata_read_ok : metadata_read file encryption = Ok (meta, encr).
Proof.
  pose proof file_len as Hfl. pose proof mw_nonempty. pose proof (len_nonneg data).
  destruct header_fields as (F1 & F2 & F3).
  destruct (sl_meta _ _ _ _ _ _ _ _ Hsl) as (menc & Hmenc & Hmlen & Hdec & Hmwlen).
  unfold metadata_read, read_exact_at. rewrite !(proj2 (Z.ltb_ge (len file) _)) by lia.
  rewrite F1. cbn [obind]. rewrite magic_encryptor. cbn [obind]. rewrite F2. cbn [obind].
  rewrite from_u64_le by lia.
  rewrite (proj2 (Z.ltb_ge _ 8)), (proj2 (Z.leb_gt _ _)) by lia. cbn [orb].
  rewrite !(proj2 (Z.ltb_ge _ _)) by lia. rewrite F3. cbn [obind].
  assert ((if bytes_eqb (magic_of encr) SST_MAGIC_V2_ENCRYPTED
           then decrypt_for_recovery encr mw else Ok mw) = Ok (compress_prepend_size menc)) as ->.
  { unfold magic_of, encr. destruct (enabled (Encryptor_new encryption)) eqn:E; [|done].
    unfold decrypt_for_recovery. by rewrite E, Hdec. }
  cbn [obind]. pose proof (len_nonneg menc). unfold MAX_METADATA_BYTES in Hmlen.
  destruct (lz4_prefix menc) as [rest Hp]; [unfold u32_max; lia|].
  rewrite Hp at 1. rewrite (proj2 (Z.ltb_ge _ _)) by len_lia.
  rewrite Hp at 1. rewrite slice_app_l by len_lia. cbn [obind].
  rewrite from_u32_le by (unfold u32_max; lia).
  rewrite (proj2 (Z.ltb_ge _ _)) by (unfold MAX_METADATA_BYTES; lia).
  rewrite lz4_roundtrip by (unfold u32_max; lia). cbn [ok_or obind].
  rewrite (decode_encode _ _ Hmenc). apply metadata_checks_ok.
Qed.

(** The reader on the file, mapped or not. *)
Definition opened (table_id : Z) (mapped : bool) : SstableReader :=
  {| rd_metadata := meta; rd_file := file; rd_mmap := if mapped then Some file else None;
     rd_table_id := table_id; rd_encryptor := encr |}.

Lemma rd_open_ok table_id mapped :
  rd_open file table_id encryption mapped = Ok (opened table_id mapped).
Proof. unfold rd_open. by rewrite metadata_read_ok. Qed.

(** ** Reading blocks, with and without the cache *)

Section opened.
Context (table_id : Z) (mapped : bool).
Let self := opened table_id mapped.

(** The cache is coherent for this table: a cached block is what the file
    gives. *)
Definition cache_coherent (cache : Cache) : Prop :=
  forall i d, cache !! (table_id, i) = Some d ->
    exists m, mb_blocks meta !! i = Some m /\ read_and_decompress_block self m = Ok d.

Lemma read_block_direct i m :
  mb_blocks meta !! i = Some m ->
  exists e g bs raw f,
    gs !! i = Some (e :: g) /\ bm_first_key m = e.1 /\
    read_and_decompress_block self m = Ok bs /\
    block_decode bs = Ok {| blk_data := raw_data raw; blk_offsets := raw_offsets 0 raw;
                            block_size := BLOCK_SIZE; flags := f |} /\
    encodes (e :: g) raw /\ raw_sized raw.
Proof.
  intros Hm.
  destruct (layout_lookup _ _ _ _ _ _ _ (sl_blocks _ _ _ _ _ _ _ _ Hsl) Hm)
    as (e & g & w & us & pre & post & Hg & Hdata & -> & c & bs & raw & f & Hdec & Hlz & Hus & Hblk & Henc & Hsz).
  exists e, g, bs, raw, f. split_and!; try done.
  pose proof file_len as Hfl. pose proof (len_nonneg w). pose proof (len_nonneg mw).
  pose proof (len_nonneg pre). pose proof (len_nonneg post).
  assert (len data = len pre + len w + 4 + len post) as Hdl
    by (rewrite Hdata; autorewrite with apex; lia).
  pose proof (sl_file _ _ _ _ _ _ _ _ Hsl) as Hfile. rewrite Hdata, <- !app_assoc in Hfile.
  set (mg := magic_of (Encryptor_new encryption)) in *. assert (len mg = 8) as Hmg by apply len_magic.
  assert (slice file (8 + len pre) (8 + len pre + len w) = Ok w) as S1.
  { rewrite Hfile, (app_assoc mg). apply slice_app_mid; autorewrite with apex; lia. }
  assert (slice file (8 + len pre + len w) (8 + len pre + len w + 4) = Ok (u32_le (crc32 w))) as S2.
  { rewrite Hfile, (app_assoc mg), (app_assoc _ w). apply slice_app_mid; autorewrite with apex; lia. }
  unfold read_and_decompress_block. cbn [bm_offset bm_size bm_uncompressed_size].
  rewrite (proj2 (Z.ltb_ge _ _)) by lia. replace (len w + 4 - 4) with (len w) by lia.
  unfold read_exact_at. subst self. cbn [rd_file rd_mmap opened rd_encryptor].
  rewrite !(proj2 (Z.ltb_ge _ _)) by lia. rewrite S1. cbn [obind]. rewrite S2. cbn [obind].
  pose proof (crc32_range w).
  destruct mapped; [rewrite (proj2 (Z.leb_le _ _)) by lia; rewrite S1; cbn [obind]; rewrite S2|];
    cbn [obind]; rewrite from_u32_le, Z.eqb_refl by done; cbn [negb];
    unfold encr; rewrite Hdec; cbn [obind]; rewrite Hlz; cbn [ok_or obind]; by rewrite Hus, Z.eqb_refl.
Qed.

Lemma read_block_cached cache i m bs :
  cache_coherent cache -> mb_blocks meta !! i = Some m ->
  read_and_decompress_block self m = Ok bs ->
  exists cache', read_block self cache m = (Ok bs, cache') /\ cache_coherent cache'.
Proof.
  intros Hc Hm Hr. unfold read_block, moka_get. cbn [rd_metadata rd_table_id self opened].
  rewrite (layout_position _ _ _ _ _ i m (sl_blocks _ _ _ _ _ _ _ _ Hsl) Hm).
  change (default 0%nat (Some i)) with i.
  destruct (cache !! (table_id, i)) as [d|] eqn:E.
  - destruct (Hc _ _ E) as (m' & Hm' & Hd). rewrite Hm in Hm'. injection Hm' as <-.
    exists cache. split; [|done]. rewrite Hr in Hd. by injection Hd as ->.
  - fold self. rewrite Hr. eexists. split; [done|]. intros j d [[[= ->] ->]|Hl]%moka_insert_lookup.
    + eauto.
    + by apply Hc.
Qed.

(** ** Point reads *)

Lemma concat_lookup_split i g :
  gs !! i = Some g ->
  concat gs = concat (take i gs) ++ g ++ concat (drop (S i) gs).
Proof.
  intros Hi. rewrite <- (take_drop_middle gs i g Hi) at 1. by rewrite concat_app.
Qed.

Lemma group_keys_ge g e x :
  (e :: g) ∈ gs -> x ∈ e :: g -> bytes_le e.1 x.1.
Proof.
  intros Hg Hx. apply list_elem_of_lookup in Hg as [i Hi]. pose proof gs_sorted as Hs.
  rewrite (concat_lookup_split i _ Hi) in Hs. apply key_sorted_app in Hs as (_ & Hs & _).
  apply key_sorted_app in Hs as (Hs & _). destruct e as [k r], x as [k' r'].
  apply key_sorted_cons in Hs as [Hk _]. apply elem_of_cons in Hx as [[= -> ->]|Hx]; [reflexivity|].
  apply bytes_lt_le. by eapply Hk.
Qed.

(** The index entry [partition_point] finds for [k]: everything before its
    block is below [k] and everything after it above. *)
Lemma partition_blocks k :
  let p := partition_point (fun b => bytes_leb (bm_first_key b) k) (mb_blocks meta) in
  (p <= length gs)%nat /\
  (forall j e g, (j < p)%nat -> gs !! j = Some (e :: g) -> bytes_le e.1 k) /\
  (forall j g x, (p <= j)%nat -> gs !! j = Some g -> x ∈ g -> bytes_lt k x.1).
Proof.
  intros p. pose proof (sl_blocks _ _ _ _ _ _ _ _ Hsl) as Hl.
  destruct (partition_point_spec (fun b => bytes_leb (bm_first_key b) k) (mb_blocks meta)) as (Hp & Hlo & Hhi).
  { intros i j m1 m2 Hij Hm1 Hm2 Hle.
    destruct (layout_first_key _ _ _ _ _ _ _ Hl Hm1) as (e1 & g1 & Hg1 & ->).
    destruct (layout_first_key _ _ _ _ _ _ _ Hl Hm2) as (e2 & g2 & Hg2 & Hf2).
    rewrite Hf2 in Hle. pose proof gs_sorted as Hs. rewrite (concat_lookup_split j _ Hg2) in Hs.
    apply key_sorted_app in Hs as (_ & _ & Hlt).
    assert (bytes_lt e1.1 e2.1).
    { apply Hlt; [|set_solver]. apply elem_of_concat. exists (e1 :: g1). split; [|set_solver].
      apply list_elem_of_lookup. exists i. by rewrite lookup_take_lt. }
    change (bytes_le e1.1 k). bytes_order. }
  fold p in Hp, Hlo, Hhi. rewrite <- (layout_length _ _ _ _ _ Hl). split; [done|]. split.
  - intros j e g Hj Hg. destruct (lookup_lt_is_Some_2 (mb_blocks meta) j) as [m Hm]; [lia|].
    destruct (layout_first_key _ _ _ _ _ _ _ Hl Hm) as (e' & g' & Hg' & Hf).
    rewrite Hg in Hg'. injection Hg' as <- <-. specialize (Hlo j m Hj Hm). by rewrite Hf in Hlo.
  - intros j g x Hj Hg Hx.
    destruct (lookup_lt_is_Some_2 (mb_blocks meta) j) as [m Hm].
    { rewrite (layout_length _ _ _ _ _ Hl). by eapply lookup_lt_Some. }
    destruct (layout_first_key _ _ _ _ _ _ _ Hl Hm) as (e' & g' & Hg' & Hf).
    rewrite Hg in Hg'. injection Hg' as ->. specialize (Hhi j m Hj Hm). rewrite Hf in Hhi.
    apply bytes_leb_gt in Hhi. eapply bytes_lt_le_trans; [done|].
    eapply group_keys_ge; [|done]. by eapply list_elem_of_lookup_2.
Qed.

Lemma might_contain_es k : k ∈ es.*1 -> might_contain self k = true.
Proof.
  intros Hk. unfold might_contain. cbn [rd_metadata self opened].
  destruct (sl_bloom _ _ _ _ _ _ _ _ Hsl) as [b0 ->].
  destruct (bloom_roundtrip (foldl bloom_set b0 (es.*1))) as (b' & -> & Hb').
  rewrite Hb'. apply bloom_check_foldl. auto.
Qed.

(** The block that holds [k] holds all of the file's answer for [k]. *)
Lemma assoc_in_block k i e g :
  gs !! i = Some (e :: g) -> bytes_le e.1 k ->
  (forall j g x, (S i <= j)%nat -> gs !! j = Some g -> x ∈ g -> bytes_lt k x.1) ->
  assoc k es = assoc k (e :: g).
Proof.
  intros Hi Hle Hhi. pose proof gs_sorted as Hs. rewrite <- (sl_entries _ _ _ _ _ _ _ _ Hsl).
  rewrite (concat_lookup_split i _ Hi) in Hs |- *.
  destruct (assoc k (e :: g)) as [v|] eqn:E.
  - apply assoc_elem; [done|]. apply assoc_Some_elem in E. set_solver.
  - apply assoc_None. apply assoc_None in E. apply key_sorted_app in Hs as (_ & _ & Hlt).
    rewrite !fmap_app, !elem_of_app. intros [Hin|[Hin|Hin]]; [|done|].
    + apply list_elem_of_fmap in Hin as (x & -> & Hx). specialize (Hlt x e Hx ltac:(set_solver)).
      bytes_order.
    + apply list_elem_of_fmap in Hin as (x & -> & Hx).
      apply elem_of_concat in Hx as (g' & Hg' & Hx).
      apply list_elem_of_lookup in Hg' as [j Hj]. rewrite lookup_drop in Hj.
      specialize (Hhi (S i + j)%nat g' x ltac:(lia) Hj Hx). by apply bytes_lt_irrefl in Hhi.
Qed.

Lemma sst_get_ok cache k :
  cache_coherent cache ->
  exists cache', sst_get self cache k = (Ok (assoc k es), cache') /\ cache_coherent cache'.
Proof.
  intros Hc. unfold sst_get. destruct (might_contain self k) eqn:Hmc; cbn [negb].
  2:{ exists cache. split; [|done]. do 2 f_equal. symmetry. apply assoc_None. intros Hin.
      apply might_contain_es in Hin. congruence. }
  unfold read_block_by_key. cbn [rd_metadata self opened].
  destruct (partition_blocks k) as (Hp & Hlo & Hhi).
  destruct (partition_point _ (mb_blocks meta)) as [|i].
  { exists cache. split; [|done]. do 2 f_equal. symmetry. apply assoc_None.
    intros (x & -> & Hx)%list_elem_of_fmap. rewrite <- (sl_entries _ _ _ _ _ _ _ _ Hsl) in Hx.
    apply elem_of_concat in Hx as (g & Hg & Hx). apply list_elem_of_lookup in Hg as [j Hj].
    specialize (Hhi j g x ltac:(lia) Hj Hx). by apply bytes_lt_irrefl in Hhi. }
  pose proof (layout_length _ _ _ _ _ (sl_blocks _ _ _ _ _ _ _ _ Hsl)) as Hlen.
  destruct (lookup_lt_is_Some_2 (mb_blocks meta) i) as [m Hm]; [lia|]. rewrite Hm.
  destruct (read_block_direct i m Hm) as (e & g & bs & raw & f & Hg & Hf & Hr & Hd & Henc & Hsz).
  destruct (read_block_cached cache i m bs Hc Hm Hr) as (cache' & Hrb & Hc').
  fold self. rewrite Hrb. cbn [obind]. rewrite Hd. cbn [obind].
  exists cache'. split; [|done]. rewrite search_in_block_ok with (g := e :: g); [|done|done|].
  - do 2 f_equal. symmetry. eapply assoc_in_block; [done|eapply Hlo; [|done]; lia|done].
  - pose proof gs_sorted as Hs. rewrite (concat_lookup_split i _ Hg) in Hs.
    apply key_sorted_app in Hs as (_ & Hs & _). by apply key_sorted_app in Hs as (Hs & _).
Qed.

(** ** Range scans *)

Lemma scan_blocks_ok start stop cache i acc :
  cache_coherent cache ->
  exists cache',
    scan_blocks self (drop i (mb_blocks meta)) start stop cache acc
    = (Ok (acc ++ filter (fun e => in_range start stop e.1 = true) (concat (drop i gs))), cache') /\
    cache_coherent cache'.
Proof.
  pose proof (layout_length _ _ _ _ _ (sl_blocks _ _ _ _ _ _ _ _ Hsl)) as Hlen.
  remember (length gs - i)%nat as n eqn:Hn. revert i acc cache Hn.
  induction n as [|n IH]; intros i acc cache Hn Hc.
  { rewrite !drop_ge by lia. cbn. rewrite app_nil_r. by exists cache. }
  destruct (lookup_lt_is_Some_2 (mb_blocks meta) i) as [m Hm]; [lia|].
  destruct (read_block_direct i m Hm) as (e & g & bs & raw & f & Hg & Hf & Hr & Hd & Henc & Hsz).
  rewrite (drop_S _ _ _ Hm), (drop_S _ _ _ Hg). cbn [scan_blocks concat].
  pose proof gs_sorted as Hs. rewrite (concat_lookup_split i _ Hg) in Hs.
  apply key_sorted_app in Hs as (_ & Hs & _).
  destruct (match stop with Some e => bytes_leb e (bm_first_key m) | None => false end) eqn:Esp.
  { destruct stop as [t|]; [|done]. exists cache. split; [|done]. do 2 f_equal.
    rewrite filter_none; [by rewrite app_nil_r|]. intros x Hx. rewrite Hf in Esp.
    rewrite (in_range_stop start t e.1 x.1); [done|done|]. destruct e as [ek er], x as [xk xr].
    apply key_sorted_cons in Hs as [Hlt _]. apply elem_of_cons in Hx as [[= -> ->]|Hx]; [reflexivity|].
    apply bytes_lt_le. by eapply Hlt. }
  destruct (read_block_cached cache i m bs Hc Hm Hr) as (cache1 & Hrb & Hc1).
  rewrite Hrb. cbn [obind]. rewrite Hd. cbn [obind blk_data blk_offsets].
  apply key_sorted_app in Hs as (Hsg & _ & _).
  pose proof (scan_entries_ok start stop [] raw (e :: g) acc Henc Hsz Hsg) as Hse.
  cbn [app raw_data] in Hse. rewrite len_nil in Hse. rewrite Hse.
  destruct (IH (S i) (acc ++ filter (fun e => in_range start stop e.1 = true) (e :: g)) cache1)
    as (cache' & Hsb & Hc'); [lia|done|].
  exists cache'. split; [|done]. rewrite Hsb. by rewrite filter_app, app_assoc.
Qed.

(** The blocks skipped by the sparse index hold nothing of the range. *)
Lemma skipped_blocks s stop p :
  (forall j e g, (j < p)%nat -> gs !! j = Some (e :: g) -> bytes_le e.1 s) ->
  (p <= length gs)%nat ->
  filter (fun e => in_range (Some s) stop e.1 = true) (concat gs)
  = filter (fun e => in_range (Some s) stop e.1 = true) (concat (drop (Nat.pred p) gs)).
Proof.
  intros Hlo Hp. destruct p as [|p]; [done|]. cbn [Nat.pred].
  destruct (lookup_lt_is_Some_2 gs p) as [g0 Hg0]; [lia|].
  pose proof (sl_blocks _ _ _ _ _ _ _ _ Hsl) as Hl.
  destruct (lookup_lt_is_Some_2 (mb_blocks meta) p) as [m Hm]; [rewrite (layout_length _ _ _ _ _ Hl); lia|].
  destruct (layout_first_key _ _ _ _ _ _ _ Hl Hm) as (e & g & Hg & _). clear g0 Hg0.
  assert (concat gs = concat (take p gs) ++ concat (drop p gs)) as Hsplit
    by (by rewrite <- concat_app, take_drop).
  pose proof gs_sorted as Hs. rewrite Hsplit in Hs |- *. rewrite filter_app, filter_none; [done|]. intros x Hx.
  apply key_sorted_app in Hs as (_ & _ & Hlt). rewrite (drop_S _ _ _ Hg) in Hlt.
  specialize (Hlt x e Hx ltac:(cbn; set_solver)). specialize (Hlo p e g ltac:(lia) Hg).
  unfold in_range. intros [Hle _]%andb_true_iff. bytes_prop. bytes_order.
Qed.

Lemma sst_scan_range_ok cache start stop :
  cache_coherent cache ->
  exists cache',
    sst_scan_range self cache start stop
    = (Ok (filter (fun e => in_range start stop e.1 = true) es), cache') /\ cache_coherent cache'.
Proof.
  intros Hc. unfold sst_scan_range. cbn [rd_metadata self opened]. fold self.
  rewrite <- (sl_entries _ _ _ _ _ _ _ _ Hsl). destruct start as [s|].
  - destruct (partition_blocks s) as (Hp & Hlo & _).
    rewrite (skipped_blocks s stop _ Hlo Hp). by apply scan_blocks_ok.
  - by apply (scan_blocks_ok None stop cache 0 []).
Qed.

End opened.
End open.

(** ** Sequences of reads through one cache *)

Inductive read_op : Type :=
| ReadGet (k : bytes)
| ReadScan (start stop : option bytes).

(** What a read answers: a record, or a list of entries. *)
Definition read_result : Type := outcome (option LogRecord) + outcome (list (bytes * LogRecord)).

Fixpoint run_reads (self : SstableReader) (cache : Cache) (ops : list read_op) : list read_result :=
  match ops with
  | [] => []
  | ReadGet k :: ops =>
      let '(res, cache) := sst_get self cache k in inl res :: run_reads self cache ops
  | ReadScan start stop :: ops =>
      let '(res, cache) := sst_scan_range self cache start stop in inr res :: run_reads self cache ops
  end.

Definition read_spec (es : list (bytes * LogRecord)) (op : read_op) : read_result :=
  match op with
  | ReadGet k => inl (Ok (assoc k es))
  | ReadScan start stop => inr (Ok (filter (fun e => in_range start stop e.1 = true) es))
  end.

(** C34: the block cache is transparent.  Any sequence of point reads and scans
    of a built file, sharing one block cache that may evict entries at will,
    answers each read as the list of stored entries does.  The entries are
    [storable]: keys and encoded records within the 16-bit length fields of a
    block. *)
Theorem sstable_cache_transparent config ts encryption rng es file table_id mapped ops :
  0 <= sc_block_size config <= 33554432 ->
  (forall i n, rng i = Some n -> len n = 12) ->
  storable config es -> len file <= u64_max ->
  sst_build config ts encryption rng es = Ok file ->
  exists r, rd_open file table_id encryption mapped = Ok r /\
    run_reads r ∅ ops = read_spec es <$> ops.
Proof.
  intros Hb Hr Hst Hf Hok.
  destruct (sst_build_layout config ts encryption rng Hb Hr es file Hst Hok)
    as (gs & meta & data & mw & Hsl).
  set (r := opened encryption file meta table_id mapped).
  exists r. split; [by eapply rd_open_ok|].
  assert (forall cache, cache_coherent encryption file meta table_id mapped cache ->
            run_reads r cache ops = read_spec es <$> ops) as Hall.
  2:{ apply Hall. intros i d. by rewrite lookup_empty. }
  induction ops as [|[k|start stop] ops IH]; intros cache Hc; [done| |]; cbn [run_reads fmap list_fmap].
  - destruct (sst_get_ok ts encryption es file gs meta data mw Hf Hsl table_id mapped cache k Hc)
      as (c & E & Hc'). fold r in E. rewrite E. f_equal. by apply IH.
  - destruct (sst_scan_range_ok ts encryption es file gs meta data mw Hf Hsl table_id mapped cache start stop Hc)
      as (c & E & Hc'). fold r in E. rewrite E. f_equal. by apply IH.
Qed.

(** ** Arbitrary files *)

Lemma read_exact_at_no_panic file pos n :
  0 <= pos -> 0 <= n -> is_panic (read_exact_at file pos n) = false.
Proof. intros. unfold read_exact_at. case_cond; [done|]. by rewrite slice_in_range by lia. Qed.

Lemma decrypt_block_no_panic self data : is_panic (decrypt_block self data) = false.
Proof.
  unfold decrypt_block. destruct (enabled self); [|done]. cbn [negb].
  destruct (cipher self); simpl; [|done]. case_cond; [done|]. by destruct (aead_decrypt _ _ _).
Qed.

Lemma decrypt_for_recovery_no_panic self data : is_panic (decrypt_for_recovery self data) = false.
Proof.
  unfold decrypt_for_recovery. pose proof (decrypt_block_no_panic self data).
  set (legacy := Encryptor_new _). pose proof (decrypt_block_no_panic legacy data).
  destruct (enabled self); [destruct (decrypt_block self data); try done|];
    by destruct (decrypt_block legacy data).
Qed.

Lemma is_panic_obind {A B} (m : outcome A) (k : A -> outcome B) :
  is_panic m = false -> (forall a, m = Ok a -> is_panic (k a) = false) -> is_panic (obind m k) = false.
Proof. destruct m; simpl; auto. Qed.

Lemma check_blocks_no_panic meta offset st blocks :
  is_panic (ofold (check_block meta offset) st blocks) = false.
Proof.
  revert st; induction blocks as [|b blocks IH]; intros [pe pk]; [done|]. cbn [ofold check_block].
  case_match; [done|]. apply IH.
Qed.

(** The block index is inside the data area, without overlaps and in strictly
    increasing key order. *)
Definition index_ok (meta : MetaBlock) (stop : Z) : Prop :=
  Forall (fun b => 4 <= bm_size b /\ 8 <= bm_offset b /\ bm_offset b + bm_size b <= stop) (mb_blocks meta) /\
  StronglySorted (fun b1 b2 => bm_offset b1 + bm_size b1 <= bm_offset b2 /\
                               bytes_lt (bm_first_key b1) (bm_first_key b2)) (mb_blocks meta).

Lemma check_blocks_sound meta offset blocks pe pk st :
  8 <= pe -> ofold (check_block meta offset) (pe, pk) blocks = Ok st ->
  Forall (fun b => 4 <= bm_size b /\ pe <= bm_offset b /\ bm_offset b + bm_size b <= offset /\
                   forall k, pk = Some k -> bytes_lt k (bm_first_key b)) blocks /\
  StronglySorted (fun b1 b2 => bm_offset b1 + bm_size b1 <= bm_offset b2 /\
                               bytes_lt (bm_first_key b1) (bm_first_key b2)) blocks.
Proof.
  revert pe pk; induction blocks as [|b blocks IH]; intros pe pk Hpe; cbn [ofold check_block].
  { intros _. split; constructor. }
  match goal with |- context [if ?c then _ else _] => destruct c eqn:E end; [done|]. cbn [obind].
  rewrite !orb_false_iff in E. destruct E as [[[[[E1 E2] E3] E4] Em] Ek]. bool_prop.
  intros [Hall Hs]%IH; [|lia]. split.
  - constructor.
    + split_and!; try lia. intros k ->. by apply bytes_leb_gt.
    + eapply Forall_impl; [exact Hall|]. simpl. intros b' (? & ? & ? & Hk). split_and!; try lia.
      intros k ->. specialize (Hk _ eq_refl). apply bytes_leb_gt in Ek. by etrans.
  - constructor; [done|]. eapply Forall_impl; [exact Hall|]. simpl. intros b' (? & ? & ? & Hk).
    split; [lia|]. by apply Hk.
Qed.

(** A [let*] chain does not panic when none of its steps does. *)
Ltac no_panic_step :=
  first
    [ done
    | apply is_panic_obind; [|intros ? ?]
    | match goal with |- is_panic (if ?c then _ else _) = false => destruct c eqn:? end
    | match goal with |- is_panic (ok_or ?o _) = false => by destruct o end ].

Lemma metadata_read_no_panic file encryption : is_panic (metadata_read file encryption) = false.
Proof.
  unfold metadata_read, decode. pose proof (len_nonneg file).
  repeat first
    [ no_panic_step | apply read_exact_at_no_panic; bool_lia | apply decrypt_for_recovery_no_panic
    | apply check_blocks_no_panic ]; rewrite ?orb_false_iff in *; destruct_and?; bool_prop.
  match goal with |- is_panic (slice ?l 0 4) = false => by rewrite (slice_in_range l 0 4) by lia end.
Qed.

Lemma metadata_read_accepts file encryption meta encr :
  metadata_read file encryption = Ok (meta, encr) ->
  mb_blocks meta <> [] /\ index_ok meta (len file - 8).
Proof.
  unfold metadata_read. destruct (Z.ltb_spec (len file) 16); [done|].
  intros (magic & _ & Hm)%obind_Ok_inv. apply obind_Ok_inv in Hm as (e & _ & Hm).
  apply obind_Ok_inv in Hm as (footer & _ & Hm). set (offset := from_le_bytes footer) in *.
  destruct ((offset <? 8) || (len file - 8 <=? offset)) eqn:Eo; [done|].
  apply orb_false_iff in Eo as [Eo1 Eo2]. bool_prop.
  destruct (_ <? _) in Hm; [done|].
  apply obind_Ok_inv in Hm as (d & _ & Hm). apply obind_Ok_inv in Hm as (c & _ & Hm).
  apply obind_Ok_inv in Hm as (pfx & _ & Hm). destruct (_ <? _) in Hm; [done|].
  apply obind_Ok_inv in Hm as (bs & _ & Hm). apply obind_Ok_inv in Hm as (m & _ & Hm).
  destruct (match mb_blocks m with [] => _ | _ => _ end) eqn:Eb in Hm; [done|].
  apply obind_Ok_inv in Hm as (st & Hchk & [= -> ->]).
  split; [by destruct (mb_blocks meta)|].
  apply check_blocks_sound in Hchk as [Hall Hs]; [|lia]. split; [|done].
  eapply Forall_impl; [exact Hall|]. simpl. intros b (? & ? & ? & _). lia.
Qed.

Lemma read_block_no_panic self b :
  4 <= bm_size b -> 0 <= bm_offset b -> is_panic (read_and_decompress_block self b) = false.
Proof.
  intros Hs Ho. unfold read_and_decompress_block. rewrite (proj2 (Z.ltb_ge _ _)) by lia.
  apply is_panic_obind.
  - destruct (rd_mmap self) as [mmap|];
      [destruct (Z.leb_spec (bm_offset b + bm_size b) (len mmap))|];
      repeat first [no_panic_step | apply read_exact_at_no_panic; lia];
      by rewrite slice_in_range by lia.
  - intros [d crc] _. repeat first [no_panic_step | apply decrypt_block_no_panic].
Qed.

(** C38: opening never crashes and never trusts a bad index.  On an arbitrary
    byte string [metadata_read] returns a value or an error, never a panic
    (short files, footers that point anywhere, truncated metadata); and when it
    accepts, every block of the index lies between the header and the metadata,
    blocks do not overlap, first keys strictly increase, so no later block read
    can underflow its size or leave the file. *)
Theorem metadata_read_safe file encryption :
  is_panic (metadata_read file encryption) = false /\
  (forall meta encr, metadata_read file encryption = Ok (meta, encr) ->
     mb_blocks meta <> [] /\ index_ok meta (len file - 8) /\
     forall mapped table_id b, b ∈ mb_blocks meta ->
       is_panic (read_and_decompress_block
         {| rd_metadata := meta; rd_file := file; rd_mmap := if (mapped : bool) then Some file else None;
            rd_table_id := table_id; rd_encryptor := encr |} b) = false).
Proof.
  split; [apply metadata_read_no_panic|]. intros meta encr Hok.
  destruct (metadata_read_accepts _ _ _ _ Hok) as [Hne Hidx]. split_and!; [done|done|].
  intros mapped table_id b Hb. destruct Hidx as [Hall _].
  rewrite Forall_forall in Hall. specialize (Hall b Hb). apply read_block_no_panic; lia.
Qed.
End reader.
