(* ===== verification/Wal.v ===== *)
(** * Wal: the write-ahead log ([src/src/storage/wal.rs])

    Frames, appends with batched fsync, tolerant recovery, deduplication,
    rotation and migration.  A WAL is its file contents together with how much
    of it is known to be on disk.  Recovery reads the file through a
    [BufReader], whose buffer is modelled because the recovery loop looks at
    it. *)
From Stdlib Require Import ZArith Lia.
From stdpp Require Import base tactics numbers list gmap strings sorting.
From S2P Require Import Prelude Bytes LogRecord Extern Encryption.

Definition WAL_FRAME_VERSION_V0 : Z := 0.
Definition WAL_FRAME_VERSION_V1 : Z := 1.
Definition WAL_FRAME_VERSION_V2 : Z := 2.
Definition WAL_FRAME_VERSION_V3_ENCRYPTED : Z := 3.
Definition WAL_CURRENT_FRAME_VERSION : Z := WAL_FRAME_VERSION_V2.
Definition WAL_SYNC_INTERVAL : Z := 4.
Definition MAX_WAL_RECORD_BYTES : Z := 32 * 1024 * 1024.

(** ** Older record formats *)

Record LogRecordV0 := mkLogRecordV0 {
  v0_key : bytes;
  v0_value : bytes;
  v0_timestamp : Z;
  v0_is_deleted : bool;
}.
(** [impl From<LogRecordV0> for LogRecord]. *)
Definition from_V0 (v0 : LogRecordV0) : LogRecord :=
  {| key := v0_key v0; value := v0_value v0; timestamp := v0_timestamp v0;
     is_deleted := v0_is_deleted v0; column_family := None; expires_at := None;
     range_start := None; range_end := None |}.

Record LogRecordV1 := mkLogRecordV1 {
  v1_key : bytes;
  v1_value : bytes;
  v1_timestamp : Z;
  v1_is_deleted : bool;
  v1_column_family : option string;
}.
(** [impl From<LogRecordV1> for LogRecord]. *)
Definition from_V1 (v1 : LogRecordV1) : LogRecord :=
  {| key := v1_key v1; value := v1_value v1; timestamp := v1_timestamp v1;
     is_deleted := v1_is_deleted v1; column_family := v1_column_family v1; expires_at := None;
     range_start := None; range_end := None |}.

(** ** [std::io::BufReader] over a file *)

(** The unread part of the buffer and the unread part of the file after it. *)
Record BufReader := mkBufReader { br_buf : bytes; br_file : bytes }.
(** The default capacity, 8 KiB. *)
Definition BUF_CAP : Z := 8192.

Definition BufReader_new (file : bytes) : BufReader := {| br_buf := []; br_file := file |}.

(** Everything the reader has still to deliver. *)
Definition br_rest (r : BufReader) : bytes := br_buf r ++ br_file r.

(** [fill_buf]: an empty buffer is refilled with up to [BUF_CAP] bytes. *)
Definition fill_buf (r : BufReader) : BufReader :=
  match br_buf r with
  | [] => {| br_buf := take (Z.to_nat BUF_CAP) (br_file r);
             br_file := drop (Z.to_nat BUF_CAP) (br_file r) |}
  | _ => r
  end.

(** [read_exact] of [n] bytes: served by the buffer when it holds enough;
    otherwise the buffer is drained and the remainder is read directly when it
    is at least the capacity, through a refill when it is smaller. *)
Definition read_exact (r : BufReader) (n : Z) : outcome (bytes * BufReader) :=
  if n <=? len (br_buf r) then
    Ok (take (Z.to_nat n) (br_buf r),
        {| br_buf := drop (Z.to_nat n) (br_buf r); br_file := br_file r |})
  else
    let m := n - len (br_buf r) in
    if len (br_file r) <? m then Err (Io UnexpectedEof)
    else if BUF_CAP <=? m then
      Ok (br_buf r ++ take (Z.to_nat m) (br_file r),
          {| br_buf := []; br_file := drop (Z.to_nat m) (br_file r) |})
    else
      let filled := take (Z.to_nat BUF_CAP) (br_file r) in
      Ok (br_buf r ++ take (Z.to_nat m) filled,
          {| br_buf := drop (Z.to_nat m) filled;
             br_file := drop (Z.to_nat BUF_CAP) (br_file r) |}).

(** [read] of one byte; [None] at the end of the file. *)
Definition read_byte (r : BufReader) : option (byte * BufReader) :=
  let r := fill_buf r in
  match br_buf r with
  | [] => None
  | b :: buf => Some (b, {| br_buf := buf; br_file := br_file r |})
  end.

(** ** The log *)

(** [WriteAheadLog]: [wal_file] is the file as the process sees it,
    [wal_synced] how many of its first bytes were covered by an fsync. *)
Record WriteAheadLog := mkWal {
  wal_file : bytes;
  wal_synced : Z;
  wal_batch_count : Z;
  wal_encryptor : Encryptor;
  wal_sync_interval : Z;
  wal_rng : nat -> option bytes;
  wal_draws : nat;
}.

(** [new_with_encryption] on a file with contents [file]. *)
Definition wal_open (file : bytes) (encryption : EncryptionConfig) (rng : nat -> option bytes)
    : WriteAheadLog :=
  {| wal_file := file; wal_synced := len file; wal_batch_count := 0;
     wal_encryptor := Encryptor_new encryption; wal_sync_interval := WAL_SYNC_INTERVAL;
     wal_rng := rng; wal_draws := 0%nat |}.

Definition set_sync_interval (self : WriteAheadLog) (interval : Z) : WriteAheadLog :=
  {| wal_file := wal_file self; wal_synced := wal_synced self; wal_batch_count := wal_batch_count self;
     wal_encryptor := wal_encryptor self; wal_sync_interval := interval;
     wal_rng := wal_rng self; wal_draws := wal_draws self |}.

(** The fields an operation changes. *)
Definition wal_set (self : WriteAheadLog) (file : bytes) (synced count : Z) (draws : nat) : WriteAheadLog :=
  {| wal_file := file; wal_synced := synced; wal_batch_count := count;
     wal_encryptor := wal_encryptor self; wal_sync_interval := wal_sync_interval self;
     wal_rng := wal_rng self; wal_draws := draws |}.

Section wal.
Context `{!Crc32, !Aead, !Postcard LogRecord, !Postcard LogRecordV0, !Postcard LogRecordV1}.

(** The frame of a payload: length, version, payload, CRC-32 over the three.
    [1u32 + payload.len() as u32] wraps in the release profile; [u32_le] keeps
    the low 32 bits. *)
Definition frame_bytes (version : Z) (payload : bytes) : bytes :=
  let body := u32_le (1 + as_u32 (len payload)) ++ [byte_of_Z version] ++ payload in
  body ++ u32_le (crc32 body).

(** The frame [write_record], [write_batch] and [retain] build for a record. *)
Definition encode_frame (encryptor : Encryptor) (nonce : option bytes) (record : LogRecord)
    : outcome bytes :=
  let* serialized := encode record in
  let* (payload, version) :=
    if enabled encryptor then
      let* encrypted := encrypt_block encryptor nonce serialized in
      Ok (encrypted, WAL_FRAME_VERSION_V3_ENCRYPTED)
    else Ok (serialized, WAL_CURRENT_FRAME_VERSION) in
  Ok (frame_bytes version payload).

Definition next_draws (self : WriteAheadLog) : nat :=
  if enabled (wal_encryptor self) then S (wal_draws self) else wal_draws self.

(** [write_record]. *)
Definition write_record (self : WriteAheadLog) (record : LogRecord) : outcome WriteAheadLog :=
  let* frame := encode_frame (wal_encryptor self) (wal_rng self (wal_draws self)) record in
  let file := wal_file self ++ frame in
  let count := wal_batch_count self + 1 in
  if wal_sync_interval self <=? count
  then Ok (wal_set self file (len file) 0 (next_draws self))
  else Ok (wal_set self file (wal_synced self) count (next_draws self)).

(** The frames of a batch, built before any of them is written. *)
Fixpoint encode_frames (encryptor : Encryptor) (rng : nat -> option bytes) (draws : nat)
    (records : list LogRecord) : outcome (bytes * nat) :=
  match records with
  | [] => Ok ([], draws)
  | r :: records =>
      let* frame := encode_frame encryptor (rng draws) r in
      let draws := if enabled encryptor then S draws else draws in
      let* (frames, draws) := encode_frames encryptor rng draws records in
      Ok (frame ++ frames, draws)
  end.

(** [write_batch]. *)
Definition write_batch (self : WriteAheadLog) (records : list LogRecord) : outcome WriteAheadLog :=
  match records with
  | [] => Ok self
  | _ =>
      let* (frames, draws) := encode_frames (wal_encryptor self) (wal_rng self) (wal_draws self) records in
      let file := wal_file self ++ frames in
      Ok (wal_set self file (len file) 0 draws)
  end.

(** [sync]. *)
Definition wal_sync (self : WriteAheadLog) : WriteAheadLog :=
  wal_set self (wal_file self) (len (wal_file self)) 0 (wal_draws self).

(** ** Recovery *)

(** The search for the next plausible frame of [resync_after_invalid_length]. *)
Definition MIN_LENGTH : Z := 35.
Definition plausible_frame (buf : bytes) (pos file_size : Z) : bool :=
  match buf with
  | b0 :: b1 :: b2 :: b3 :: v :: _ =>
      let candidate := from_le_bytes [b0; b1; b2; b3] in
      let version_byte := byte_to_Z v in
      (MIN_LENGTH <=? candidate) && (candidate <=? MAX_WAL_RECORD_BYTES)
      && (pos + 4 + candidate <=? file_size)
      && ((version_byte =? WAL_FRAME_VERSION_V0) || (version_byte =? WAL_FRAME_VERSION_V1)
          || (version_byte =? WAL_FRAME_VERSION_V2) || (version_byte =? WAL_FRAME_VERSION_V3_ENCRYPTED))
  | _ => false
  end.

(** Its loop; the reader and the position, or [None] when no frame was found.
    [fuel] is the scan limit. *)
Fixpoint resync (fuel : nat) (r : BufReader) (pos file_size : Z) : option (BufReader * Z) :=
  match fuel with
  | O => None
  | S fuel =>
      match read_byte r with
      | None => None
      | Some (_, r) =>
          let pos := pos + 1 in
          let r := fill_buf r in
          if plausible_frame (br_buf r) pos file_size then Some (r, pos)
          else resync fuel r pos file_size
      end
  end.

(** [resync_after_invalid_length]: at most [MAX_WAL_RECORD_BYTES] turns, and
    never more than there are bytes left. *)
Definition resync_after_invalid_length (r : BufReader) (pos file_size : Z) : option (BufReader * Z) :=
  resync (Z.to_nat (Z.min MAX_WAL_RECORD_BYTES (len (br_rest r) + 1))) r pos file_size.

(** The record of a frame with a valid checksum: [Ok None] skips the frame, an
    error of an encrypted frame aborts the recovery. *)
Definition decode_frame (encryptor : Encryptor) (version : Z) (payload : bytes)
    : outcome (option LogRecord) :=
  if version =? WAL_FRAME_VERSION_V0 then
    Ok (from_V0 <$> ok (decode payload))
  else if version =? WAL_FRAME_VERSION_V1 then
    Ok (from_V1 <$> ok (decode payload))
  else if version =? WAL_FRAME_VERSION_V2 then
    Ok (ok (decode payload))
  else if version =? WAL_FRAME_VERSION_V3_ENCRYPTED then
    let* decrypted := decrypt_for_recovery encryptor payload in
    let* record := decode decrypted in
    Ok (Some record)
  else Ok None.

(** The loop of [recover_locked]. Every turn consumes a byte at least, so the
    file size bounds the number of turns. *)
Fixpoint recover_loop (fuel : nat) (encryptor : Encryptor) (file_size : Z) (r : BufReader) (pos : Z)
    (records : list LogRecord) : outcome (list LogRecord) :=
  match fuel with
  | O => Ok records
  | S fuel =>
      let r := fill_buf r in
      if len (br_buf r) <? 4 then Ok records
      else
        let* (lengthbuf, r) := read_exact r 4 in
        let pos := pos + 4 in
        let length := from_le_bytes lengthbuf in
        let frame_remaining := 1 + (length - 1) + 4 in
        if (length =? 0) || (MAX_WAL_RECORD_BYTES <? length) || (file_size <? pos + frame_remaining) then
          match resync_after_invalid_length r pos file_size with
          | Some (r, pos) => recover_loop fuel encryptor file_size r pos records
          | None => Ok records
          end
        else
          let* (versionbuf, r) := read_exact r 1 in
          let payload_len := length - 1 in
          match read_exact r payload_len with
          | Err (Io UnexpectedEof) => Ok records
          | Err e => Err e
          | Panic => Panic
          | Ok (payload, r) =>
              match read_exact r 4 with
              | Err (Io UnexpectedEof) => Ok records
              | Err e => Err e
              | Panic => Panic
              | Ok (checksumbuf, r) =>
                  let pos := pos + 1 + payload_len + 4 in
                  let stored_checksum := from_le_bytes checksumbuf in
                  let calculated := crc32 (lengthbuf ++ versionbuf ++ payload) in
                  if negb (stored_checksum =? calculated)
                  then recover_loop fuel encryptor file_size r pos records
                  else
                    let* record := decode_frame encryptor (from_le_bytes versionbuf) payload in
                    match record with
                    | None => recover_loop fuel encryptor file_size r pos records
                    | Some record => recover_loop fuel encryptor file_size r pos (records ++ [record])
                    end
              end
          end
  end.

(** ** [deduplicate_records] *)

(** The key of the map of last occurrences. *)
Definition dedup_key (r : LogRecord) : string * bytes :=
  (default "default"%string (column_family r), key r).

(** One turn of its loop: the map of last occurrences and the kept indices. *)
Definition dedup_step (st : gmap (string * bytes) nat * list nat) (ir : nat * LogRecord)
    : gmap (string * bytes) nat * list nat :=
  let '(last_occurrence, keep) := st in
  let '(i, record) := ir in
  if is_range_tombstone record then (last_occurrence, keep ++ [i])
  else (<[dedup_key record := i]> last_occurrence, keep).

Definition deduplicate_records (records : list LogRecord) : list LogRecord :=
  let '(last_occurrence, keep) := foldl dedup_step (∅, []) (imap pair records) in
  let keep := merge_sort (≤)%nat (keep ++ (map_to_list last_occurrence).*2) in
  omap (fun i => records !! i) keep.

(** [recover_locked] (and [recover]): the records and the log, whose file is
    synced by the call. *)
Definition recover_locked (self : WriteAheadLog) : WriteAheadLog * outcome (list LogRecord) :=
  let self' := wal_set self (wal_file self) (len (wal_file self)) (wal_batch_count self) (wal_draws self) in
  (self',
   let* records := recover_loop (S (length (wal_file self))) (wal_encryptor self) (len (wal_file self))
                     (BufReader_new (wal_file self)) 0 [] in
   Ok (deduplicate_records records)).
Definition recover := recover_locked.

(** ** Rotation *)

(** [clear]: an empty file takes the place of the log. *)
Definition wal_clear (self : WriteAheadLog) : WriteAheadLog :=
  wal_set self [] 0 (wal_batch_count self) (wal_draws self).

(** [retain]: the log is rewritten with the recovered records that satisfy the
    predicate. *)
Definition wal_retain (self : WriteAheadLog) (predicate : LogRecord -> bool) : outcome WriteAheadLog :=
  let '(self, all_records) := recover self in
  let* all_records := all_records in
  let survivors := filter (fun r => predicate r = true) all_records in
  let* (frames, draws) := encode_frames (wal_encryptor self) (wal_rng self) (wal_draws self) survivors in
  Ok (wal_set self frames (len frames) (wal_batch_count self) draws).

(** [archive]: the archived contents and the fresh log. *)
Definition wal_archive (self : WriteAheadLog) : bytes * WriteAheadLog :=
  (wal_file self, wal_set self [] 0 (wal_batch_count self) (wal_draws self)).

Definition wal_size (self : WriteAheadLog) : Z := len (wal_file self).
Definition exceeds_max_size (self : WriteAheadLog) (max_size : Z) : bool := max_size <? wal_size self.

(** ** Migration *)

(** The record in a frame of version [v]: the [match version[0]] of
    [rewrite_for_migration]. *)
Definition migration_decode (encryptor : Encryptor) (allow_legacy_zero : bool) (v : Z) (payload : bytes)
    : outcome LogRecord :=
  if v =? WAL_FRAME_VERSION_V0 then let* r0 := decode payload in Ok (from_V0 r0)
  else if v =? WAL_FRAME_VERSION_V1 then let* r1 := decode payload in Ok (from_V1 r1)
  else if v =? WAL_FRAME_VERSION_V2 then decode payload
  else if v =? WAL_FRAME_VERSION_V3_ENCRYPTED then
    let legacy := Encryptor_new {| ec_enabled := true; ec_key := zero_key |} in
    let* plaintext :=
      match decrypt_for_recovery encryptor payload with
      | Err LegacyEncryptionMigrationRequired =>
          if (allow_legacy_zero : bool) then decrypt_block legacy payload
          else Err LegacyEncryptionMigrationRequired
      | result => result
      end in
    decode plaintext
  else Err WalCorruption.

(** The strict loop of [rewrite_for_migration]: any damage is an error.
    [reader.read(&mut length_bytes[..1])] tells the end of the file. *)
Fixpoint migrate_loop (fuel : nat) (encryptor : Encryptor) (target_enabled allow_legacy_zero : bool)
    (r : BufReader) (output : WriteAheadLog) (count : Z) : outcome (WriteAheadLog * Z) :=
  match fuel with
  | O => Ok (output, count)
  | S fuel =>
      match read_byte r with
      | None => Ok (output, count)
      | Some (b0, r) =>
          let* (length_rest, r) := read_exact r 3 in
          let length_bytes := b0 :: length_rest in
          let length := from_le_bytes length_bytes in
          if (length =? 0) || (MAX_WAL_RECORD_BYTES <? length) then Err WalCorruption
          else
            let* (version, r) := read_exact r 1 in
            let* (payload, r) := read_exact r (length - 1) in
            let* (checksum, r) := read_exact r 4 in
            if negb (crc32 (length_bytes ++ version ++ payload) =? from_le_bytes checksum)
            then Err WalCorruption
            else
              let v := from_le_bytes version in
              let* record := migration_decode encryptor allow_legacy_zero v payload in
              let encryption_overhead := if (target_enabled : bool) then 12 + 16 else 0 in
              let max_payload := MAX_WAL_RECORD_BYTES - 1 - encryption_overhead in
              let* encoded := encode record in
              if max_payload <? len encoded then Err InvalidArgument
              else
                let* output := write_record output record in
                migrate_loop fuel encryptor target_enabled allow_legacy_zero r output (count + 1)
      end
  end.

(** [rewrite_for_migration]: the migrated log and the number of records. *)
Definition rewrite_for_migration (source : bytes) (source_encryption target_encryption : EncryptionConfig)
    (allow_legacy_zero : bool) (rng : nat -> option bytes) : outcome (WriteAheadLog * Z) :=
  let output := set_sync_interval (wal_open [] target_encryption rng) usize_max in
  let* (output, count) :=
    migrate_loop (S (length source)) (Encryptor_new source_encryption) (ec_enabled target_encryption)
      allow_legacy_zero (BufReader_new source) output 0 in
  Ok (wal_sync output, count).

(** ** The buffered reader delivers the file in order *)

Lemma fill_buf_rest r : br_rest (fill_buf r) = br_rest r.
Proof.
  unfold fill_buf, br_rest. destruct (br_buf r) eqn:E; simpl; [by rewrite take_drop|by rewrite E].
Qed.

Lemma fill_buf_nonempty r : br_rest r <> [] -> br_buf (fill_buf r) <> [].
Proof.
  unfold fill_buf, br_rest. destruct (br_buf r) eqn:E; [|by rewrite E]. cbn [br_buf app].
  intros Hne He. apply (f_equal length) in He. rewrite length_take in He. cbn [length] in He.
  apply Hne, nil_length_inv. unfold BUF_CAP in He. lia.
Qed.

Lemma read_exact_ok r n :
  0 <= n <= len (br_rest r) ->
  exists r', read_exact r n = Ok (take (Z.to_nat n) (br_rest r), r') /\
             br_rest r' = drop (Z.to_nat n) (br_rest r).
Proof.
  intros [Hn Hlen]. unfold read_exact, br_rest in *. rewrite len_app in Hlen.
  destruct r as [buf file]; simpl in *. destruct (Z.leb_spec n (len buf)) as [Hb|Hb].
  - rewrite take_app_le, drop_app_le by (unfold len in Hb; lia). by eexists.
  - rewrite (proj2 (Z.ltb_ge _ _)) by lia.
    rewrite take_app_ge, drop_app_ge by (unfold len in Hb; lia).
    replace (Z.to_nat n - length buf)%nat with (Z.to_nat (n - len buf)) by (unfold len; lia).
    destruct (Z.leb_spec BUF_CAP (n - len buf)) as [Hc|Hc]; [by eexists|].
    rewrite take_take, Nat.min_l by lia. eexists. split; [done|]. simpl.
    rewrite <- (take_drop (Z.to_nat BUF_CAP) file) at 3. rewrite drop_app. f_equal.
    rewrite length_take. destruct (decide (Z.to_nat BUF_CAP <= length file)%nat).
    + replace (Z.to_nat (n - len buf) - _)%nat with 0%nat by lia. by rewrite drop_0.
    + rewrite (drop_ge file (Z.to_nat BUF_CAP)) by lia. by rewrite drop_nil.
Qed.

Lemma read_exact_app r a b :
  br_rest r = a ++ b ->
  exists r', read_exact r (len a) = Ok (a, r') /\ br_rest r' = b.
Proof.
  intros Hr. destruct (read_exact_ok r (len a)) as (r' & Hr' & Hrest).
  { rewrite Hr, len_app. pose proof (len_nonneg a). pose proof (len_nonneg b). lia. }
  exists r'. rewrite Hr in Hr', Hrest.
  replace (Z.to_nat (len a)) with (length a) in * by (unfold len; lia).
  by rewrite take_app_length in Hr'; rewrite drop_app_length in Hrest.
Qed.

(** As long as no read bypasses the buffer, the buffer holds the bytes up to
    the next multiple [bnd] of the capacity. *)
Definition aligned (r : BufReader) (pos : Z) : Prop :=
  exists bnd, bnd mod BUF_CAP = 0 /\ 0 <= bnd - pos <= BUF_CAP /\ 0 <= pos /\
              br_buf r = take (Z.to_nat (bnd - pos)) (br_rest r).

Lemma aligned_file r pos bnd :
  br_buf r = take (Z.to_nat (bnd - pos)) (br_rest r) ->
  br_file r = drop (Z.to_nat (bnd - pos)) (br_rest r).
Proof.
  intros Hb. apply (app_inv_head (br_buf r)). change (br_buf r ++ br_file r) with (br_rest r).
  by rewrite Hb, take_drop.
Qed.

Lemma mod_cap_succ bnd : bnd mod BUF_CAP = 0 -> (bnd + BUF_CAP) mod BUF_CAP = 0.
Proof. intros. by rewrite <- (Z.mul_1_l BUF_CAP) at 1; rewrite Z.mod_add by (unfold BUF_CAP; lia). Qed.

Lemma aligned_fill r pos : aligned r pos -> aligned (fill_buf r) pos.
Proof.
  intros (bnd & Hm & Hd & Hp & Hb). pose proof (aligned_file _ _ _ Hb) as Hf.
  unfold aligned. rewrite fill_buf_rest. unfold fill_buf. destruct (br_buf r) as [|x b] eqn:E.
  2:{ exists bnd. rewrite E. done. }
  simpl. unfold br_rest in *. rewrite E in *. simpl in *.
  destruct (decide (bnd = pos)) as [->|].
  - exists (pos + BUF_CAP). split_and!; [by apply mod_cap_succ|unfold BUF_CAP; lia|unfold BUF_CAP; lia|lia|].
    f_equal. lia.
  - exists bnd. split_and!; try lia; auto. destruct (br_file r) as [|y f]; [by rewrite !take_nil|].
    destruct (Z.to_nat (bnd - pos)) eqn:En; [lia|done].
Qed.

Lemma aligned_read r pos n a r' :
  aligned r pos -> 0 <= n < BUF_CAP -> n <= len (br_rest r) ->
  read_exact r n = Ok (a, r') -> aligned r' (pos + n).
Proof.
  intros (bnd & Hm & Hd & Hp & Hb) Hn Hlen Hread. pose proof (aligned_file _ _ _ Hb) as Hf.
  destruct (read_exact_ok r n) as (r2 & Hr2 & Hrest); [lia|]. rewrite Hread in Hr2.
  injection Hr2 as -> <-. unfold aligned. rewrite Hrest. revert Hread. unfold read_exact.
  assert (len (br_buf r) = Z.min (bnd - pos) (len (br_rest r))) as Hlb.
  { rewrite Hb. unfold len. rewrite length_take. lia. }
  destruct (Z.leb_spec n (len (br_buf r))) as [Hle|Hgt].
  - intros [= _ <-]. exists bnd. split_and!; try lia; auto. simpl. rewrite Hb at 1.
    rewrite skipn_firstn_comm. f_equal. lia.
  - case_cond; [done|]. rewrite (proj2 (Z.leb_gt _ _)) by lia. intros [= _ <-].
    exists (bnd + BUF_CAP). split_and!; [by apply mod_cap_succ|lia|lia|lia|]. simpl.
    rewrite skipn_firstn_comm, Hf, drop_drop. f_equal; [lia|]. f_equal. lia.
Qed.

(** What the loop sees in the buffer at a frame boundary. *)
Lemma aligned_filled r pos :
  aligned r pos -> 4 <= len (br_rest r) ->
  (len (br_buf (fill_buf r)) <? 4) = (BUF_CAP - 4 <? pos mod BUF_CAP).
Proof.
  intros Ha Hlen. pose proof (aligned_fill _ _ Ha) as (bnd & Hm & Hd & Hp & Hb).
  rewrite fill_buf_rest in Hb.
  assert (len (br_buf (fill_buf r)) = Z.min (bnd - pos) (len (br_rest r))) as Hlb.
  { rewrite Hb. unfold len. rewrite length_take. lia. }
  assert (bnd <> pos) as Hne.
  { intros ->. assert (br_buf (fill_buf r) = []) as He by (by rewrite Hb, Z.sub_diag).
    apply fill_buf_nonempty in He; [done|]. intros Hn. rewrite Hn in Hlen. len_lia. }
  assert (pos mod BUF_CAP = (BUF_CAP - (bnd - pos)) mod BUF_CAP) as Hmod.
  { replace pos with (bnd + (-1) * (bnd - pos)) at 1 by lia.
    rewrite <- Z.add_mod_idemp_l, Hm by (unfold BUF_CAP; lia).
    replace (BUF_CAP - (bnd - pos)) with (0 + (-1) * (bnd - pos) + 1 * BUF_CAP) by lia.
    by rewrite Z.mod_add by (unfold BUF_CAP; lia). }
  rewrite Hmod, Z.mod_small by lia. rewrite Hlb.
  destruct (Z.ltb_spec (Z.min (bnd - pos) (len (br_rest r))) 4),
    (Z.ltb_spec (BUF_CAP - 4) (BUF_CAP - (bnd - pos))); lia || done.
Qed.

(** ** Frames *)

(** The bytes of a frame that decodes to a record under the encryptor. *)
Definition frame_of (encr : Encryptor) (r : LogRecord) (f : bytes) : Prop :=
  exists version payload,
    f = frame_bytes version payload /\ 0 <= version <= 255 /\
    1 + len payload <= MAX_WAL_RECORD_BYTES /\
    decode_frame encr version payload = Ok (Some r).

Lemma frame_of_parts encr r f :
  frame_of encr r f ->
  exists version payload,
    f = u32_le (1 + len payload) ++ [byte_of_Z version] ++ payload
        ++ u32_le (crc32 (u32_le (1 + len payload) ++ [byte_of_Z version] ++ payload)) /\
    byte_to_Z (byte_of_Z version) = version /\
    1 <= 1 + len payload <= MAX_WAL_RECORD_BYTES /\
    decode_frame encr version payload = Ok (Some r).
Proof.
  intros (v & p & -> & Hv & Hp & Hd). exists v, p. pose proof (len_nonneg p).
  unfold frame_bytes. rewrite as_u32_small by (unfold MAX_WAL_RECORD_BYTES, u32_max in *; lia).
  rewrite <- !app_assoc, byte_to_of_Z, Z.mod_small by lia. split_and!; auto; lia.
Qed.

Lemma frame_of_len encr r f : frame_of encr r f -> 9 <= len f.
Proof.
  intros (v & p & -> & _). unfold frame_bytes. pose proof (len_nonneg p). autorewrite with apex. lia.
Qed.

(** What [encode_frame] writes is a frame of the record. *)
Lemma encode_frame_of encr nonce r f :
  (forall n, nonce = Some n -> len n = 12) ->
  encode_frame encr nonce r = Ok f -> len f <= MAX_WAL_RECORD_BYTES + 8 ->
  frame_of encr r f.
Proof.
  intros Hn. unfold encode_frame. intros (s & Hs & Hrest)%obind_Ok_inv Hlen.
  apply obind_Ok_inv in Hrest as ([payload version] & Hp & Hrest).
  injection Hrest as <-. exists version, payload. unfold frame_bytes in Hlen. autorewrite with apex in Hlen.
  destruct (enabled encr) eqn:Een.
  - apply obind_Ok_inv in Hp as (c & Hc & [= -> <-]). split_and!; [done|done|done|lia|].
    unfold decode_frame. simpl. unfold decrypt_for_recovery. rewrite Een.
    rewrite (decrypt_encrypt_block _ _ _ _ Hn Hc). cbn [obind]. by rewrite (decode_encode _ _ Hs).
  - injection Hp as -> <-. split_and!; [done|done|done|lia|]. unfold decode_frame. simpl.
    by rewrite (decode_encode _ _ Hs).
Qed.

(** One turn of the recovery loop at the start of a good frame: the loop stops
    if fewer than four bytes are buffered, and otherwise takes the record. *)
Lemma recover_step fuel encr file_size rd pos recs r f tail :
  frame_of encr r f -> br_rest rd = f ++ tail -> file_size = pos + len (br_rest rd) ->
  exists rd', br_rest rd' = tail /\
    (aligned rd pos -> len f < BUF_CAP -> aligned rd' (pos + len f)) /\
    recover_loop (S fuel) encr file_size rd pos recs
    = if len (br_buf (fill_buf rd)) <? 4 then Ok recs
      else recover_loop fuel encr file_size rd' (pos + len f) (recs ++ [r]).
Proof.
  intros Hf Hrest Hsize. destruct (frame_of_parts _ _ _ Hf) as (v & p & Ef & Hv & Hp & Hd).
  set (lb := u32_le (1 + len p)) in *. set (vb := [byte_of_Z v]) in *.
  set (cb := u32_le (crc32 (lb ++ vb ++ p))) in *.
  assert (len lb = 4) as Hll by apply len_u32_le. assert (len cb = 4) as Hlc by apply len_u32_le.
  assert (len vb = 1) as Hlv by done. pose proof (len_nonneg p). pose proof (len_nonneg tail).
  assert (br_rest (fill_buf rd) = lb ++ vb ++ p ++ cb ++ tail) as Hr0
    by (rewrite fill_buf_rest, Hrest, Ef, <- !app_assoc; done).
  destruct (read_exact_app _ _ _ Hr0) as (r1 & E1 & Hr1).
  destruct (read_exact_app _ _ _ Hr1) as (r2 & E2 & Hr2).
  destruct (read_exact_app _ _ _ Hr2) as (r3 & E3 & Hr3).
  destruct (read_exact_app _ _ _ Hr3) as (r4 & E4 & Hr4).
  assert (len f = 4 + (1 + len p) + 4) as Hlf by (rewrite Ef, !len_app; lia).
  exists r4. split; [done|]. split.
  { intros Ha Hsmall. apply aligned_fill in Ha.
    eapply aligned_read in Ha; [|..|exact E1]; [|lia|rewrite Hr0, !len_app; lia].
    eapply aligned_read in Ha; [|..|exact E2]; [|lia|rewrite Hr1, !len_app; lia].
    eapply aligned_read in Ha; [|..|exact E3]; [|lia|rewrite Hr2, !len_app; lia].
    eapply aligned_read in Ha; [|..|exact E4]; [|lia|rewrite Hr3, !len_app; lia].
    by replace (pos + len f) with (pos + len lb + len vb + len p + len cb) by lia. }
  cbn [recover_loop]. destruct (len (br_buf (fill_buf rd)) <? 4); [done|].
  rewrite Hll in E1. rewrite E1. cbn [obind].
  assert (from_le_bytes lb = 1 + len p) as Elb
    by (apply from_u32_le; unfold MAX_WAL_RECORD_BYTES, u32_max in *; lia).
  rewrite !Elb.
  rewrite (proj2 (Z.eqb_neq _ _)), !(proj2 (Z.ltb_ge _ _)) by (rewrite ?Hsize, ?Hrest, ?len_app; lia).
  cbn [orb]. rewrite Hlv in E2. rewrite E2. cbn [obind].
  replace (1 + len p - 1) with (len p) by lia. rewrite E3.
  rewrite Hlc in E4. rewrite E4. unfold cb.
  rewrite from_u32_le, Z.eqb_refl by apply crc32_range. cbn [negb].
  assert (from_le_bytes vb = v) as -> by (unfold vb; cbn [from_le_bytes]; lia).
  rewrite Hd. cbn [obind]. f_equal. lia.
Qed.

Definition frames_of (encr : Encryptor) (rs : list LogRecord) (fs : list bytes) : Prop :=
  Forall2 (frame_of encr) rs fs.

(** Offsets at which a frame cannot be seen by the loop: fewer than four bytes
    before the end of an 8 KiB buffer. *)
Definition straddles (pos : Z) : bool := BUF_CAP - 4 <? pos mod BUF_CAP.

(** The records up to the first frame whose start straddles a buffer end. *)
Fixpoint recoverable (pos : Z) (rs : list LogRecord) (fs : list bytes) : list LogRecord :=
  match rs, fs with
  | r :: rs, f :: fs => if straddles pos then [] else r :: recoverable (pos + len f) rs fs
  | _, _ => []
  end.

Definition small_frames (fs : list bytes) : Prop := Forall (fun f => len f < BUF_CAP) fs.

(** No frame start straddles a buffer end. *)
Fixpoint no_straddle (pos : Z) (fs : list bytes) : Prop :=
  match fs with [] => True | f :: fs => straddles pos = false /\ no_straddle (pos + len f) fs end.

Lemma no_straddle_take pos m fs : no_straddle pos fs -> no_straddle pos (take m fs).
Proof.
  revert pos m; induction fs as [|f fs IH]; intros pos [|m]; [done..|]. intros [Hs Hns].
  split; [done|]. by apply IH.
Qed.

Lemma recoverable_all pos rs fs :
  length rs = length fs -> no_straddle pos fs -> recoverable pos rs fs = rs.
Proof.
  revert pos fs; induction rs as [|r rs IH]; intros pos [|f fs]; simpl; try done.
  intros [= Hl] [-> Hns]. by rewrite IH.
Qed.

(** The log of valid frames, whatever their size: recovery returns a prefix of
    the records. *)
Lemma recover_prefix fuel encr file_size rd pos recs rs fs :
  frames_of encr rs fs -> br_rest rd = concat fs -> file_size = pos + len (br_rest rd) ->
  exists n, recover_loop fuel encr file_size rd pos recs = Ok (recs ++ take n rs).
Proof.
  intros Hfs. revert fuel rd pos recs.
  induction Hfs as [|r f rs fs Hf Hfs IH]; intros fuel rd pos recs Hrest Hsize.
  - exists 0%nat. rewrite app_nil_r. destruct fuel; [done|]. cbn [recover_loop concat] in *.
    assert (br_buf (fill_buf rd) = []) as ->.
    { assert (br_rest (fill_buf rd) = []) as [? _]%app_nil; [by rewrite fill_buf_rest|done]. }
    done.
  - destruct fuel as [|fuel]; [exists 0%nat; simpl; by rewrite app_nil_r|].
    destruct (recover_step fuel encr file_size rd pos recs r f (concat fs) Hf Hrest Hsize)
      as (rd' & Hr' & _ & ->).
    case_cond; [exists 0%nat; simpl; by rewrite app_nil_r|].
    destruct (IH fuel rd' (pos + len f) (recs ++ [r]) Hr') as [n Hn].
    { rewrite Hsize, Hrest, Hr'. cbn [concat]. rewrite len_app. lia. }
    exists (S n). rewrite Hn. by rewrite <- app_assoc.
Qed.

(** Frames smaller than the buffer that do not straddle are all read. *)
Lemma recover_small fuel encr file_size rd pos recs rs fs tail :
  frames_of encr rs fs -> small_frames fs -> no_straddle pos fs ->
  br_rest rd = concat fs ++ tail -> file_size = pos + len (br_rest rd) -> aligned rd pos ->
  exists rd', br_rest rd' = tail /\ aligned rd' (pos + len (concat fs)) /\
    recover_loop (length fs + fuel) encr file_size rd pos recs
    = recover_loop fuel encr file_size rd' (pos + len (concat fs)) (recs ++ rs).
Proof.
  intros Hfs. revert rd pos recs.
  induction Hfs as [|r f rs fs Hf Hfs IH]; intros rd pos recs Hsm Hns Hrest Hsize Ha.
  { exists rd. cbn. rewrite Z.add_0_r, app_nil_r. done. }
  apply Forall_cons in Hsm as [Hsf Hsm]. destruct Hns as [Hns1 Hns].
  cbn [concat length Nat.add]. cbn [concat] in Hrest. rewrite <- app_assoc in Hrest.
  destruct (recover_step (length fs + fuel) encr file_size rd pos recs r f (concat fs ++ tail) Hf Hrest Hsize)
    as (rd1 & Hr1 & Ha1 & ->). pose proof (frame_of_len _ _ _ Hf).
  rewrite (aligned_filled rd pos); [|done|rewrite Hrest, len_app; pose proof (len_nonneg (concat fs ++ tail)); lia].
  fold (straddles pos). rewrite Hns1.
  destruct (IH rd1 (pos + len f) (recs ++ [r]) Hsm Hns Hr1) as (rd' & Hr' & Ha' & Hl).
  { rewrite Hsize, Hrest, Hr1, !len_app. lia. }
  { auto. }
  exists rd'. rewrite len_app, Z.add_assoc. split_and!; auto. rewrite Hl. by rewrite <- app_assoc.
Qed.

(** ** A torn tail *)

(** No position of [tail] after its first four bytes looks like a frame. *)
Definition no_frame_inside (tail : bytes) : Prop :=
  forall i, (4 < i)%nat -> plausible_frame (drop i tail) 0 (len (drop i tail)) = false.

Lemma plausible_frame_prefix buf rest pos file_size :
  file_size = pos + len (buf ++ rest) -> plausible_frame buf pos file_size = true ->
  plausible_frame (buf ++ rest) 0 (len (buf ++ rest)) = true.
Proof.
  intros Hs. destruct buf as [|b0 [|b1 [|b2 [|b3 [|v buf]]]]]; try done.
  cbn [app plausible_frame]. intros Hp. apply andb_true_iff in Hp as [Hp ->].
  apply andb_true_iff in Hp as [-> Hp]. bool_prop. rewrite (proj2 (Z.leb_le _ _)); [done|].
  cbn [app] in Hs. lia.
Qed.

Lemma resync_none fuel rd pos file_size :
  (forall i, (0 < i)%nat -> plausible_frame (drop i (br_rest rd)) 0 (len (drop i (br_rest rd))) = false) ->
  file_size = pos + len (br_rest rd) ->
  resync fuel rd pos file_size = None.
Proof.
  revert rd pos; induction fuel as [|fuel IH]; intros rd pos Hno Hsize; [done|]. cbn [resync].
  unfold read_byte. destruct (br_buf (fill_buf rd)) as [|b buf] eqn:E; [done|].
  set (rd1 := {| br_buf := buf; br_file := br_file (fill_buf rd) |}).
  assert (br_rest rd = b :: br_rest rd1) as Hr1
    by (rewrite <- fill_buf_rest; unfold br_rest; by rewrite E).
  assert (file_size = pos + 1 + len (br_rest (fill_buf rd1))) as Hs1
    by (rewrite Hsize, Hr1, fill_buf_rest, len_cons; lia).
  destruct (plausible_frame (br_buf (fill_buf rd1)) (pos + 1) file_size) eqn:Ep.
  - exfalso. apply (plausible_frame_prefix _ (br_file (fill_buf rd1))) in Ep; [|done].
    change (br_buf (fill_buf rd1) ++ br_file (fill_buf rd1)) with (br_rest (fill_buf rd1)) in Ep.
    rewrite fill_buf_rest in Ep. specialize (Hno 1%nat ltac:(lia)). rewrite Hr1 in Hno. simpl in Hno.
    rewrite drop_0 in Hno. congruence.
  - apply IH; [|done]. rewrite fill_buf_rest. intros i Hi.
    specialize (Hno (S i) ltac:(lia)). by rewrite Hr1 in Hno.
Qed.

Lemma recover_torn fuel encr file_size rd pos recs r f torn :
  frame_of encr r f -> torn `prefix_of` f -> torn <> f -> no_frame_inside torn ->
  br_rest rd = torn -> file_size = pos + len torn ->
  recover_loop fuel encr file_size rd pos recs = Ok recs.
Proof.
  intros Hf [rest Hpre] Hne Hno Hrest Hsize. destruct fuel as [|fuel]; [done|]. cbn [recover_loop].
  destruct (Z.ltb_spec (len (br_buf (fill_buf rd))) 4) as [|Hb]; [done|].
  destruct (frame_of_parts _ _ _ Hf) as (v & p & Ef & _ & Hp & _).
  assert (4 <= len torn) as Ht.
  { rewrite <- Hrest, <- fill_buf_rest. unfold br_rest. rewrite len_app.
    pose proof (len_nonneg (br_file (fill_buf rd))). lia. }
  destruct (read_exact_ok (fill_buf rd) 4) as (r1 & -> & Hr1); [rewrite fill_buf_rest, Hrest; lia|].
  cbn [obind]. rewrite fill_buf_rest, Hrest in *. change (Z.to_nat 4) with 4%nat in *.
  assert (take 4 torn = u32_le (1 + len p)) as ->.
  { assert (take 4 f = u32_le (1 + len p)) as <-.
    { rewrite Ef. rewrite take_app_length'; [done|]. pose proof (len_u32_le (1 + len p)) as E.
      unfold len at 1 in E. lia. }
    rewrite Hpre. rewrite take_app_le; [done|unfold len in Ht; lia]. }
  rewrite from_u32_le by (unfold MAX_WAL_RECORD_BYTES, u32_max in *; lia).
  assert (rest <> []) as Hrne by (intros ->; by rewrite app_nil_r in Hpre).
  assert (len torn < len f).
  { rewrite Hpre, len_app. destruct rest; [done|]. rewrite len_cons. pose proof (len_nonneg rest). lia. }
  assert (len f = 4 + (1 + len p) + 4) by (rewrite Ef; autorewrite with apex; lia).
  rewrite (proj2 (Z.eqb_neq _ _)), (proj2 (Z.ltb_ge _ _)), (proj2 (Z.ltb_lt _ _)) by lia. cbn [orb].
  unfold resync_after_invalid_length. rewrite resync_none; [done| |].
  - intros i Hi. rewrite Hr1, drop_drop. apply Hno. lia.
  - rewrite Hr1. unfold len in *. rewrite length_drop. lia.
Qed.

(** ** Deduplication *)

(** The reference: a record stays when it is a range tombstone or when no later
    point record has its column family and key. *)
Definition later_write (r : LogRecord) (rs : list LogRecord) : bool :=
  existsb (fun r' => negb (is_range_tombstone r') && bool_decide (dedup_key r' = dedup_key r)) rs.
Fixpoint last_writes (rs : list LogRecord) : list LogRecord :=
  match rs with
  | [] => []
  | r :: rs => if is_range_tombstone r || negb (later_write r rs) then r :: last_writes rs
               else last_writes rs
  end.

(** Whether the record at index [i] stays. *)
Definition keeps (rs : list LogRecord) (i : nat) : bool :=
  match rs !! i with
  | Some r => is_range_tombstone r || negb (later_write r (drop (S i) rs))
  | None => false
  end.

Lemma later_write_spec r rs :
  later_write r rs = true <->
  exists j r', rs !! j = Some r' /\ is_range_tombstone r' = false /\ dedup_key r' = dedup_key r.
Proof.
  unfold later_write. rewrite existsb_exists. split.
  - intros (r' & Hin & [Hn Hk]%andb_true_iff). apply list_elem_of_In, list_elem_of_lookup in Hin as [j Hj].
    exists j, r'. apply bool_decide_eq_true in Hk. by apply negb_true_iff in Hn.
  - intros (j & r' & Hj & Hn & Hk). exists r'. split.
    + apply list_elem_of_In. by eapply list_elem_of_lookup_2.
    + by rewrite Hn, bool_decide_true.
Qed.

(** The state of the loop after [rs]: the map holds the index of the last
    write of every key, the list the indices of the range tombstones. *)
Definition dedup_inv (rs : list LogRecord) (st : gmap (string * bytes) nat * list nat) : Prop :=
  (forall k i, st.1 !! k = Some i <->
     exists r, rs !! i = Some r /\ is_range_tombstone r = false /\ dedup_key r = k /\
               later_write r (drop (S i) rs) = false) /\
  NoDup st.2 /\
  (forall i, i ∈ st.2 <-> exists r, rs !! i = Some r /\ is_range_tombstone r = true).

Lemma later_write_snoc r rs x :
  later_write r (rs ++ [x]) =
  later_write r rs || (negb (is_range_tombstone x) && bool_decide (dedup_key x = dedup_key r)).
Proof. unfold later_write. rewrite existsb_app. simpl. by rewrite orb_false_r. Qed.

Lemma lookup_snoc_Some {A} (l : list A) x i y :
  (l ++ [x]) !! i = Some y <-> (i < length l)%nat /\ l !! i = Some y \/ i = length l /\ y = x.
Proof.
  split.
  - intros Hi. destruct (decide (i < length l)%nat) as [Hlt|Hge].
    + left. by rewrite lookup_app_l in Hi.
    + right. rewrite lookup_app_r in Hi by lia. apply list_lookup_singleton_Some in Hi as [? ->].
      split; [lia|done].
  - intros [[Hlt Hi]|[-> ->]]; [by rewrite lookup_app_l|]. by rewrite lookup_app_r, Nat.sub_diag by lia.
Qed.

Lemma dedup_inv_step rs x st :
  dedup_inv rs st -> dedup_inv (rs ++ [x]) (dedup_step st (length rs, x)).
Proof.
  destruct st as [m keep]. intros (Hm & Hnd & Hk). cbn [fst snd] in *. unfold dedup_step.
  destruct (is_range_tombstone x) eqn:Ex; split_and!; cbn [fst snd].
  - intros k i. rewrite Hm. setoid_rewrite lookup_snoc_Some. split.
    + intros (r & Hr & Hn & Hd & Hl). pose proof (lookup_lt_Some _ _ _ Hr). exists r.
      split; [auto|]. split_and!; auto. rewrite drop_app_le, later_write_snoc, Hl, Ex by lia. done.
    + intros (r & [[Hi Hr]|[-> ->]] & Hn & Hd & Hl); [|congruence]. exists r. split_and!; auto.
      rewrite drop_app_le, later_write_snoc in Hl by lia. by apply orb_false_iff in Hl as [-> _].
  - apply NoDup_app. split_and!; [done| |apply NoDup_singleton].
    intros i Hi ->%list_elem_of_singleton. apply Hk in Hi as (r & Hr & _).
    apply lookup_lt_Some in Hr. lia.
  - intros i. rewrite elem_of_app, Hk, list_elem_of_singleton. setoid_rewrite lookup_snoc_Some. split.
    + intros [(r & Hr & Ht)| ->]; [|eauto]. pose proof (lookup_lt_Some _ _ _ Hr). eauto 6.
    + intros (r & [[_ Hr]|[-> ->]] & Ht); eauto.
  - intros k i. destruct (decide (k = dedup_key x)) as [->|Hne].
    + rewrite lookup_insert_eq. setoid_rewrite lookup_snoc_Some. split.
      * intros [= <-]. exists x. split_and!; auto. rewrite drop_ge; [done|]. rewrite length_app. simpl. lia.
      * intros (r & [[Hi Hr]|[-> ->]] & Hn & Hd & Hl); [|done]. exfalso.
        rewrite drop_app_le, later_write_snoc in Hl by lia. apply orb_false_iff in Hl as [_ Hl].
        rewrite Ex, Hd, bool_decide_true in Hl by done. done.
    + rewrite lookup_insert_ne by done. rewrite Hm. setoid_rewrite lookup_snoc_Some. split.
      * intros (r & Hr & Hn & Hd & Hl). pose proof (lookup_lt_Some _ _ _ Hr). exists r.
        split; [auto|]. split_and!; auto. rewrite drop_app_le, later_write_snoc, Hl, Ex by lia.
        rewrite bool_decide_false by congruence. done.
      * intros (r & [[Hi Hr]|[-> ->]] & Hn & Hd & Hl); [|congruence]. exists r. split_and!; auto.
        rewrite drop_app_le, later_write_snoc in Hl by lia. by apply orb_false_iff in Hl as [-> _].
  - done.
  - intros i. rewrite Hk. setoid_rewrite lookup_snoc_Some. split.
    + intros (r & Hr & Ht). pose proof (lookup_lt_Some _ _ _ Hr). eauto 6.
    + intros (r & [[_ Hr]|[-> ->]] & Ht); [eauto|congruence].
Qed.

Lemma imap_pair_snoc {A} (l : list A) x :
  imap pair (l ++ [x]) = imap pair l ++ [(length l, x)].
Proof. rewrite imap_app. simpl. by rewrite Nat.add_0_r. Qed.

Lemma dedup_inv_foldl rs : dedup_inv rs (foldl dedup_step (∅, []) (imap pair rs)).
Proof.
  induction rs as [|x rs IH] using rev_ind.
  - split_and!; cbn [fst snd]; [|constructor|].
    + intros k i. cbn. rewrite lookup_empty. split; [done|]. by intros (r & Hr & _).
    + intros i. cbn. split; [by intros ?%elem_of_nil|]. by intros (r & Hr & _).
  - rewrite imap_pair_snoc, foldl_app. cbn [foldl]. by apply dedup_inv_step.
Qed.

Lemma dedup_inv_elem rs m keep i :
  dedup_inv rs (m, keep) -> i ∈ keep ++ (map_to_list m).*2 <-> keeps rs i = true.
Proof.
  intros (Hm & _ & Hk). cbn [fst snd] in *. rewrite elem_of_app, Hk, list_elem_of_fmap. unfold keeps. split.
  - intros [(r & -> & ->)|([k j] & -> & Hkj)]; [done|]. apply elem_of_map_to_list, Hm in Hkj.
    cbn. destruct Hkj as (r & -> & -> & _ & ->). done.
  - destruct (rs !! i) as [r|] eqn:Er; [|done]. destruct (is_range_tombstone r) eqn:Et.
    + left. eauto.
    + cbn [orb]. intros Hl%negb_true_iff. right. exists (dedup_key r, i). split; [done|].
      apply elem_of_map_to_list, Hm. eauto.
Qed.

Lemma dedup_inv_NoDup rs m keep :
  dedup_inv rs (m, keep) -> NoDup (keep ++ (map_to_list m).*2).
Proof.
  intros (Hm & Hnd & Hk). cbn [fst snd] in *. apply NoDup_app. split_and!; [done| |].
  - intros i Hi Hin. apply Hk in Hi as (r & Hr & Ht).
    apply list_elem_of_fmap in Hin as ([k j] & -> & Hkj%elem_of_map_to_list%Hm).
    cbn in Hr. destruct Hkj as (r' & Hr' & Ht' & _). congruence.
  - apply NoDup_fmap_2_strong; [|apply NoDup_map_to_list].
    intros [k1 i1] [k2 i2] H1%elem_of_map_to_list%Hm H2%elem_of_map_to_list%Hm. cbn. intros <-.
    destruct H1 as (r1 & Hr1 & _ & <- & _), H2 as (r2 & Hr2 & _ & <- & _). by simplify_eq.
Qed.

Lemma keeps_cons r rs i : keeps (r :: rs) (S i) = keeps rs i.
Proof. done. Qed.

Lemma omap_keeps rs :
  omap (fun i => rs !! i) (filter (fun i => keeps rs i = true) (seq 0 (length rs))) = last_writes rs.
Proof.
  induction rs as [|r rs IH]; [done|]. cbn [length seq]. rewrite <- fmap_S_seq.
  rewrite filter_cons.
  assert (keeps (r :: rs) 0 = is_range_tombstone r || negb (later_write r rs)) as Hk0 by done.
  assert (omap (fun i => (r :: rs) !! i) (filter (fun i => keeps (r :: rs) i = true) (S <$> seq 0 (length rs)))
          = last_writes rs) as Htail.
  { rewrite <- IH. clear IH. induction (seq 0 (length rs)) as [|i l IHl]; [done|].
    cbn [fmap list_fmap]. rewrite !filter_cons, keeps_cons.
    destruct (decide (keeps rs i = true)); [|exact IHl]. cbn. destruct (rs !! i); [f_equal|]; exact IHl. }
  cbn [last_writes]. destruct (is_range_tombstone r || negb (later_write r rs)).
  - rewrite decide_True by done. cbn. f_equal. exact Htail.
  - rewrite decide_False by congruence. exact Htail.
Qed.

Lemma dedup_last_writes rs : deduplicate_records rs = last_writes rs.
Proof.
  unfold deduplicate_records. pose proof (dedup_inv_foldl rs) as Hinv.
  destruct (foldl dedup_step _ _) as [m keep]. rewrite <- omap_keeps. f_equal.
  apply (StronglySorted_unique (≤)%nat).
  - apply StronglySorted_merge_sort; [apply _|apply _].
  - generalize 0%nat as j. generalize (length rs) as n. induction n as [|n IH]; intros j; [constructor|].
    cbn [seq]. rewrite filter_cons. case_decide; [|apply IH]. constructor; [apply IH|].
    apply Forall_forall. intros i [_ Hi%elem_of_seq]%list_elem_of_filter. lia.
  - rewrite merge_sort_Permutation. apply NoDup_Permutation.
    + by apply dedup_inv_NoDup in Hinv.
    + apply NoDup_filter, NoDup_seq.
    + intros i. rewrite (dedup_inv_elem _ _ _ _ Hinv), list_elem_of_filter, elem_of_seq. split; [|tauto].
      intros Hk. split; [done|]. unfold keeps in Hk. destruct (rs !! i) eqn:E; [|done].
      apply lookup_lt_Some in E. lia.
Qed.

(** deduplication keeps exactly the last write of every key.  The
    implementation (a hash map of last positions, a list of tombstone positions,
    an unstable sort of the union) returns the records in file order from which
    every point record that is overwritten later in the same column family is
    removed, and no range tombstone is. *)
Theorem deduplicate_records_last_writes rs : deduplicate_records rs = last_writes rs.
Proof. apply dedup_last_writes. Qed.

(** ** What recovery returns *)

Lemma recover_small_exact fuel encr file_size rd pos recs rs fs :
  frames_of encr rs fs -> small_frames fs ->
  br_rest rd = concat fs -> file_size = pos + len (br_rest rd) -> aligned rd pos ->
  (length fs < fuel)%nat ->
  recover_loop fuel encr file_size rd pos recs = Ok (recs ++ recoverable pos rs fs).
Proof.
  intros Hfs. revert fuel rd pos recs.
  induction Hfs as [|r f rs fs Hf Hfs IH]; intros fuel rd pos recs Hsm Hrest Hsize Ha Hfuel.
  - destruct (recover_prefix fuel encr file_size rd pos recs [] []) as [n ->]; [constructor|done|done|].
    by rewrite take_nil.
  - destruct fuel as [|fuel]; [simpl in Hfuel; lia|]. apply Forall_cons in Hsm as [Hsf Hsm].
    cbn [concat] in Hrest. pose proof (frame_of_len _ _ _ Hf). pose proof (len_nonneg (concat fs)).
    destruct (recover_step fuel encr file_size rd pos recs r f (concat fs) Hf Hrest Hsize)
      as (rd1 & Hr1 & Ha1 & ->).
    rewrite (aligned_filled rd pos Ha) by (rewrite Hrest, len_app; lia). fold (straddles pos).
    cbn [recoverable]. destruct (straddles pos); [by rewrite app_nil_r|].
    rewrite IH; [by rewrite <- app_assoc|done|done| |auto|simpl in Hfuel; lia].
    rewrite Hsize, Hrest, Hr1, len_app. lia.
Qed.

Lemma aligned_new file : aligned (BufReader_new file) 0.
Proof. exists 0. unfold BUF_CAP. split_and!; try lia; done. Qed.

Lemma frames_of_length encr rs fs : frames_of encr rs fs -> (length fs <= length (concat fs))%nat.
Proof.
  induction 1 as [|r f rs fs Hf _ IH]; [done|]. cbn [concat length]. rewrite length_app.
  apply frame_of_len in Hf. unfold len in Hf. lia.
Qed.

(** the exact outcome of recovery.  On a log of valid frames smaller than
    the 8 KiB read buffer, [recover] returns the last writes of the records up
    to the first frame that starts less than four bytes before a multiple of
    8192 in the file.  That frame and everything after it is dropped without an
    error, although every byte of it is intact. *)
Theorem wal_recover_exact self rs fs :
  wal_file self = concat fs -> frames_of (wal_encryptor self) rs fs -> small_frames fs ->
  (recover self).2 = Ok (last_writes (recoverable 0 rs fs)).
Proof.
  intros Hfile Hfs Hsm. unfold recover, recover_locked. cbn [snd].
  rewrite (recover_small_exact _ _ _ _ 0 [] rs fs Hfs Hsm).
  - cbn [obind app]. by rewrite dedup_last_writes.
  - by rewrite <- Hfile.
  - by rewrite Z.add_0_l.
  - apply aligned_new.
  - pose proof (frames_of_length _ _ _ Hfs). rewrite Hfile. lia.
Qed.

(** A log that fits in the read buffer is recovered completely. *)
Lemma short_no_straddle pos fs :
  0 <= pos -> Forall (fun f => 0 < len f) fs -> pos + len (concat fs) <= BUF_CAP - 4 -> no_straddle pos fs.
Proof.
  intros Hpos Hfs. revert pos Hpos. induction Hfs as [|f fs Hf _ IH]; intros pos Hpos Hlen; [done|].
  cbn [concat no_straddle] in *. rewrite len_app in Hlen. pose proof (len_nonneg (concat fs)).
  split; [|apply IH; lia]. unfold straddles, BUF_CAP in *. rewrite Z.mod_small by lia. apply Z.ltb_ge. lia.
Qed.

Lemma recover_short self rs fs :
  wal_file self = concat fs -> frames_of (wal_encryptor self) rs fs -> len (concat fs) <= BUF_CAP - 4 ->
  (recover self).2 = Ok (last_writes rs).
Proof.
  intros Hfile Hfs Hlen.
  assert (Forall (fun f => 0 < len f) fs) as Hpos.
  { clear -Hfs. induction Hfs as [|r f rs fs Hf _ IH]; constructor; [|done]. apply frame_of_len in Hf. lia. }
  rewrite (wal_recover_exact self rs fs Hfile Hfs), recoverable_all; [done| | |].
  - by eapply Forall2_length.
  - apply short_no_straddle; [lia|done|lia].
  - clear -Hlen. unfold small_frames. apply Forall_forall. intros f (l1 & l2 & ->)%list_elem_of_split.
    rewrite concat_app, len_app in Hlen. cbn [concat] in Hlen. rewrite len_app in Hlen.
    pose proof (len_nonneg (concat l1)). pose proof (len_nonneg (concat l2)). lia.
Qed.

(** recovery never invents, reorders or alters.  On any log of valid frames
    of any size up to the limit, in any mix of the four frame versions, recovery
    succeeds and returns the last writes of a prefix of the logged records. *)
Theorem wal_recover_prefix self rs fs :
  wal_file self = concat fs -> frames_of (wal_encryptor self) rs fs ->
  exists n, (recover self).2 = Ok (last_writes (take n rs)).
Proof.
  intros Hfile Hfs. unfold recover, recover_locked. cbn [snd].
  destruct (recover_prefix (S (length (wal_file self))) (wal_encryptor self) (len (wal_file self))
              (BufReader_new (wal_file self)) 0 [] rs fs Hfs) as [n Hn]; [done|done|].
  exists n. rewrite Hn. cbn [obind app]. by rewrite dedup_last_writes.
Qed.

(** a crash in the middle of an append loses that append only.  When the log
    ends in a strict prefix of a frame, with the frames before it clear of the
    buffer ends and nothing in the torn bytes that looks like a frame, recovery
    returns the last writes of all complete records. *)
Theorem wal_recover_torn_tail self rs fs r f torn :
  frames_of (wal_encryptor self) rs fs -> small_frames fs -> no_straddle 0 fs ->
  frame_of (wal_encryptor self) r f -> torn `prefix_of` f -> torn <> f -> no_frame_inside torn ->
  wal_file self = concat fs ++ torn ->
  (recover self).2 = Ok (last_writes rs).
Proof.
  intros Hfs Hsm Hns Hf Hpre Hne Hno Hfile. unfold recover, recover_locked. cbn [snd].
  pose proof (frames_of_length _ _ _ Hfs) as Hlen.
  assert (exists k, S (length (wal_file self)) = length fs + k)%nat as [k ->].
  { exists (S (length (wal_file self)) - length fs)%nat. rewrite Hfile, length_app. lia. }
  destruct (recover_small k (wal_encryptor self) (len (wal_file self)) (BufReader_new (wal_file self))
              0 [] rs fs torn Hfs Hsm Hns) as (rd' & Hr' & _ & ->); [done|by rewrite Z.add_0_l|apply aligned_new|].
  rewrite (recover_torn _ _ _ _ _ _ r f torn); auto.
  - cbn [obind app]. by rewrite dedup_last_writes.
  - rewrite Hfile, len_app. lia.
Qed.

(** ** Durability of batched appends *)

Inductive wal_op : Type :=
| WalWrite (r : LogRecord)
| WalBatch (rs : list LogRecord)
| WalSync
| WalRecover.

Definition wal_step (w : WriteAheadLog) (op : wal_op) : outcome WriteAheadLog :=
  match op with
  | WalWrite r => write_record w r
  | WalBatch rs => write_batch w rs
  | WalSync => Ok (wal_sync w)
  | WalRecover => Ok (recover w).1
  end.
Definition run_wal (w : WriteAheadLog) (ops : list wal_op) : outcome WriteAheadLog := ofold wal_step w ops.

(** The records an operation logs. *)
Definition logged (op : wal_op) : list LogRecord :=
  match op with WalWrite r => [r] | WalBatch rs => rs | _ => [] end.

(** The file is the frames of the logged records; all but the last
    [batch_count] of them are synced. *)
Definition wal_inv (encr : Encryptor) (rng : nat -> option bytes) (interval : Z) (rs : list LogRecord) (w : WriteAheadLog) : Prop :=
  wal_encryptor w = encr /\ wal_rng w = rng /\ wal_sync_interval w = interval /\
  0 <= wal_batch_count w < Z.max 1 interval /\
  exists fs1 fs2,
    wal_file w = concat (fs1 ++ fs2) /\ wal_synced w = len (concat fs1) /\
    len fs2 <= wal_batch_count w /\
    Forall2 (fun r f => exists i, encode_frame encr (rng i) r = Ok f) rs (fs1 ++ fs2).

Lemma encode_frames_each encr rng draws rs fs draws' :
  encode_frames encr rng draws rs = Ok (fs, draws') ->
  exists frames, fs = concat frames /\
    Forall2 (fun r f => exists i, encode_frame encr (rng i) r = Ok f) rs frames.
Proof.
  revert draws fs draws'; induction rs as [|r rs IH]; intros draws fs draws'; cbn [encode_frames].
  { intros [= <- _]. by exists []. }
  intros (f & Hf & Hrest)%obind_Ok_inv. apply obind_Ok_inv in Hrest as ([fs' d'] & Hfs & [= <- _]).
  destruct (IH _ _ _ Hfs) as (frames & -> & Hall). exists (f :: frames).
  split; [done|]. constructor; [eauto|done].
Qed.

Lemma wal_inv_step encr rng interval rs w op w' :
  wal_inv encr rng interval rs w -> wal_step w op = Ok w' ->
  wal_inv encr rng interval (rs ++ logged op) w'.
Proof.
  intros (He & Hr & Hi & Hc & fs1 & fs2 & Hfile & Hs & Hn & Hall). unfold wal_inv.
  destruct op as [r|brs| |]; cbn [wal_step logged].
  - intros (f & Hf & Hrest)%obind_Ok_inv. rewrite He, Hr in Hf.
    assert (Forall2 (fun r f => exists i, encode_frame encr (rng i) r = Ok f) (rs ++ [r]) ((fs1 ++ fs2) ++ [f]))
      as Hall' by (apply Forall2_app; [done|by constructor; [eauto|]]).
    assert (wal_file w ++ f = concat ((fs1 ++ fs2) ++ [f])) as Hf'
      by (rewrite concat_app, <- Hfile; simpl; by rewrite app_nil_r).
    cbv beta zeta in Hrest. revert Hrest. case_cond; intros [= <-].
    + split_and!; simpl; auto; [lia|lia|]. exists ((fs1 ++ fs2) ++ [f]), [].
      rewrite app_nil_r, <- Hf'. split_and!; auto. by rewrite len_nil.
    + split_and!; simpl; auto; [lia|lia|]. exists fs1, (fs2 ++ [f]). rewrite app_assoc.
      split_and!; auto. rewrite len_app. change (len [f]) with 1. lia.
  - unfold write_batch. destruct brs as [|r brs].
    { intros [= <-]. rewrite app_nil_r. split_and!; auto; [lia|lia|]. exists fs1, fs2. auto. }
    intros ([frames d] & Hfs & [= <-])%obind_Ok_inv. rewrite He, Hr in Hfs.
    apply encode_frames_each in Hfs as (fsb & -> & Hb). split_and!; simpl; auto; [lia|lia|].
    exists ((fs1 ++ fs2) ++ fsb), []. rewrite app_nil_r, concat_app, <- Hfile. split_and!; auto; [done|].
    by apply Forall2_app.
  - intros [= <-]. rewrite app_nil_r. split_and!; simpl; auto; [lia|lia|].
    exists (fs1 ++ fs2), []. rewrite app_nil_r, <- Hfile. split_and!; auto. by rewrite len_nil.
  - intros [= <-]. rewrite app_nil_r. split_and!; simpl; auto; [lia|lia|].
    exists (fs1 ++ fs2), []. rewrite app_nil_r, <- Hfile. split_and!; auto. rewrite len_nil. lia.
Qed.

Lemma wal_inv_run encr rng interval rs w ops w' :
  wal_inv encr rng interval rs w -> run_wal w ops = Ok w' ->
  wal_inv encr rng interval (rs ++ concat (logged <$> ops)) w'.
Proof.
  revert rs w; induction ops as [|op ops IH]; intros rs w Hinv; cbn.
  { intros [= <-]. by rewrite app_nil_r. }
  intros (w1 & Hstep & Hrest)%obind_Ok_inv. rewrite app_assoc.
  eapply IH; [|exact Hrest]. by eapply wal_inv_step.
Qed.

(** The size of the frame of a record: nonce and tag of an encrypted payload
    add 28 bytes. *)
Definition frame_size (encr : Encryptor) (r : LogRecord) : Z :=
  match encode r with
  | Ok b => 9 + len b + (if enabled encr then 28 else 0)
  | _ => 0
  end.

(** How many frames of these sizes the first [n] bytes hold completely, and
    what is left of the next one. *)
Fixpoint complete_frames (sizes : list Z) (n : Z) : nat :=
  match sizes with
  | s :: sizes => if s <=? n then S (complete_frames sizes (n - s)) else 0
  | [] => 0
  end.
Definition torn_tail (sizes : list Z) (n : Z) (file : bytes) : bytes :=
  drop (Z.to_nat (sumZ (fun s => s) (take (complete_frames sizes n) sizes))) (take (Z.to_nat n) file).

(** Frames below the size of the read buffer, none of which starts less than
    four bytes before a multiple of it. *)
Fixpoint clear_of_buffer_ends (pos : Z) (sizes : list Z) : Prop :=
  match sizes with
  | s :: sizes => s < BUF_CAP /\ straddles pos = false /\ clear_of_buffer_ends (pos + s) sizes
  | [] => True
  end.

Lemma encode_frame_size encr nonce r f :
  (forall n, nonce = Some n -> len n = 12) -> encode_frame encr nonce r = Ok f -> len f = frame_size encr r.
Proof.
  intros Hn. unfold encode_frame, frame_size. intros (s & -> & Hrest)%obind_Ok_inv.
  apply obind_Ok_inv in Hrest as ([payload v] & Hp & [= <-]). unfold frame_bytes. autorewrite with apex.
  destruct (enabled encr) eqn:Een.
  - apply obind_Ok_inv in Hp as (c & Hc & [= -> <-]).
    rewrite (encrypt_block_len _ _ _ _ Hn Hc), Een. lia.
  - injection Hp as -> <-. lia.
Qed.

Lemma clear_frames pos sizes fs :
  Forall2 (fun s f => len f = s) sizes fs -> clear_of_buffer_ends pos sizes ->
  small_frames fs /\ no_straddle pos fs.
Proof.
  intros Hfs. revert pos. induction Hfs as [|s f sizes fs <- _ IH]; intros pos; [by repeat constructor|].
  intros (Hs & Hst & Hc). destruct (IH _ Hc) as [Hsm Hns]. by repeat constructor.
Qed.

(** Cutting a concatenation of frames: whole frames, then a strict prefix. *)
Lemma cut_frames sizes (fs : list bytes) n :
  Forall2 (fun s f => len f = s) sizes fs -> 0 <= n ->
  exists torn : bytes,
    take (Z.to_nat n) (concat fs) = concat (take (complete_frames sizes n) fs) ++ torn /\
    (torn = [] \/ exists f, fs !! complete_frames sizes n = Some f /\ torn `prefix_of` f /\ torn <> f) /\
    (forall j, (j <= length fs)%nat -> len (concat (take j fs)) <= n -> (j <= complete_frames sizes n)%nat).
Proof.
  intros Hfs. revert n. induction Hfs as [|s f sizes fs <- _ IH]; intros n Hn.
  { exists []. cbn. rewrite take_nil. split_and!; auto. }
  cbn [concat complete_frames]. case_cond.
  - destruct (IH (n - len f)) as (torn & Ht & Htorn & Hmax); [lia|].
    exists torn. cbn [take concat length]. rewrite take_app_ge by (unfold len in *; lia).
    replace (Z.to_nat n - length f)%nat with (Z.to_nat (n - len f)) by (unfold len; lia).
    rewrite Ht, app_assoc. split_and!; auto. intros [|j] Hj Hlen; [lia|]. cbn in Hlen. rewrite len_app in Hlen.
    specialize (Hmax j ltac:(lia) ltac:(lia)). lia.
  - exists (take (Z.to_nat n) f). cbn [take concat app]. rewrite take_app_le by (unfold len in *; lia).
    split_and!; [done| |].
    + right. exists f. split; [done|]. split; [apply prefix_take|].
      intros E. apply (f_equal length) in E. rewrite length_take in E. unfold len in *. lia.
    + intros [|j] Hj Hlen; [lia|]. cbn in Hlen. rewrite len_app in Hlen.
      pose proof (len_nonneg (concat (take j fs))). lia.
Qed.

Lemma sum_sizes sizes (fs : list bytes) m :
  Forall2 (fun s f => len f = s) sizes fs -> sumZ (fun s => s) (take m sizes) = len (concat (take m fs)).
Proof.
  intros Hfs. revert m. induction Hfs as [|s f sizes fs <- _ IH]; intros [|m]; [done..|].
  cbn [take concat]. rewrite len_app, <- IH. done.
Qed.

Lemma small_frame encr nonce r f :
  (forall n, nonce = Some n -> len n = 12) -> encode_frame encr nonce r = Ok f -> len f < BUF_CAP ->
  frame_of encr r f.
Proof.
  intros Hn Hf Hlen. eapply encode_frame_of; [done..|]. unfold BUF_CAP, MAX_WAL_RECORD_BYTES in *. lia.
Qed.

(** Recovery of whole frames followed by nothing or by a strict prefix of one. *)
Lemma recover_cut self rs fs torn :
  frames_of (wal_encryptor self) rs fs -> small_frames fs -> no_straddle 0 fs -> no_frame_inside torn ->
  (torn = [] \/ exists r f, frame_of (wal_encryptor self) r f /\ torn `prefix_of` f /\ torn <> f) ->
  wal_file self = concat fs ++ torn -> (recover self).2 = Ok (last_writes rs).
Proof.
  intros Hfs Hsm Hns Hno [->|(r & f & Hf & Hpre & Hne)] Hfile; [|by eapply wal_recover_torn_tail].
  rewrite app_nil_r in Hfile. rewrite (wal_recover_exact self rs fs Hfile Hfs Hsm), recoverable_all; [done| |done].
  by eapply Forall2_length.
Qed.

(** What a run leaves: the frames of the logged records, cut anywhere after the
    synced bytes. *)
Lemma run_wal_frames encryption rng interval ops w :
  run_wal (set_sync_interval (wal_open [] encryption rng) interval) ops = Ok w ->
  exists fs j,
    Forall2 (fun r f => exists i, encode_frame (Encryptor_new encryption) (rng i) r = Ok f)
      (concat (logged <$> ops)) fs /\
    wal_file w = concat fs /\ (j <= length fs)%nat /\ wal_synced w = len (concat (take j fs)) /\
    len fs - Z.of_nat j < Z.max 1 interval.
Proof.
  intros Hrun.
  assert (wal_inv (Encryptor_new encryption) rng interval [] (set_sync_interval (wal_open [] encryption rng) interval))
    as Hinv0.
  { split_and!; simpl; auto; [lia|lia|]. exists [], []. split_and!; done. }
  apply (wal_inv_run _ _ _ _ _ _ _ Hinv0) in Hrun as (_ & _ & _ & Hc & fs1 & fs2 & Hfile & Hs & Hl & Hall).
  exists (fs1 ++ fs2), (length fs1). rewrite length_app, take_app_length.
  split_and!; auto; [lia|]. rewrite len_app. unfold len in *. lia.
Qed.

(** C35: the durability window.  Take any sequence of appends, batches, syncs and
    recoveries on a fresh log that all succeed, and crash at any moment: the
    file keeps the synced bytes and any number [n] of bytes in all.  If every
    frame is smaller than the 8 KiB read buffer and none starts less than four
    bytes before one of its ends, and nothing in the torn last frame looks like
    a frame, a log opened on that file recovers the last write of every key
    among the first [m] records, where [m] counts the complete frames in [n]
    bytes; fewer than [sync_interval] records are lost, and none if the interval
    is at most one. *)
Theorem wal_crash_durability encryption rng rng' interval ops w n :
  let rs := concat (logged <$> ops) in
  let sizes := frame_size (Encryptor_new encryption) <$> rs in
  let m := complete_frames sizes n in
  (forall i nonce, rng i = Some nonce -> len nonce = 12) ->
  run_wal (set_sync_interval (wal_open [] encryption rng) interval) ops = Ok w ->
  wal_synced w <= n ->
  clear_of_buffer_ends 0 sizes -> no_frame_inside (torn_tail sizes n (wal_file w)) ->
  (recover (wal_open (take (Z.to_nat n) (wal_file w)) encryption rng')).2 = Ok (last_writes (take m rs)) /\
  len rs - Z.of_nat m < Z.max 1 interval.
Proof.
  intros rs sizes m Hrng Hrun Hn Hclear Hno.
  destruct (run_wal_frames _ _ _ _ _ Hrun) as (fs & j & Hall & Hfile & Hj & Hs & Hl). fold rs in Hall.
  assert (Forall2 (fun s f => len f = s) sizes fs) as Hsz.
  { unfold sizes. apply Forall2_fmap_l. eapply Forall2_impl; [exact Hall|].
    intros r f [i Hf]. eapply encode_frame_size; [apply Hrng|done]. }
  destruct (clear_frames _ _ _ Hsz Hclear) as [Hsm Hns].
  assert (frames_of (Encryptor_new encryption) rs fs) as Hfs.
  { apply Forall2_same_length_lookup. split; [by eapply Forall2_length|]. intros k r f Hr Hf.
    destruct (Forall2_lookup_lr _ _ _ _ _ _ Hall Hr Hf) as [i Hi].
    eapply small_frame; [apply Hrng|done|]. by eapply (Forall_lookup_1 _ _ _ _ Hsm). }
  pose proof (len_nonneg (concat (take j fs))).
  destruct (cut_frames sizes fs n Hsz) as (torn & Ht & Htorn & Hmax); [lia|]. fold m in Ht, Htorn, Hmax.
  assert (torn_tail sizes n (wal_file w) = torn) as Hw.
  { unfold torn_tail. fold m. rewrite (sum_sizes _ _ m Hsz), Hfile, Ht, drop_app_length'; [done|].
    unfold len. lia. }
  rewrite Hw in Hno. split.
  - apply (recover_cut _ (take m rs) (take m fs) torn); simpl; [by apply Forall2_take| | |done| |by rewrite Hfile].
    + by apply Forall_take.
    + by apply no_straddle_take.
    + destruct Htorn as [->|(f & Hf & Hp & Hne)]; [by left|right].
      destruct (Forall2_lookup_r _ _ _ _ _ Hfs Hf) as (r & _ & Hr). by exists r, f.
  - specialize (Hmax j Hj ltac:(lia)). apply Forall2_length in Hfs. unfold len in *. lia.
Qed.

Lemma recover_encryptor self : wal_encryptor (recover self).1 = wal_encryptor self.
Proof. reflexivity. Qed.

(** [retain] rewrites the log with exactly the recovered records that
    satisfy the predicate, in order, in one synced file; the log is replaced
    only if recovery and every re-encoding succeed. *)
Theorem wal_retain_rewrites self predicate self' :
  wal_retain self predicate = Ok self' ->
  exists all fs,
    (recover self).2 = Ok all /\
    wal_file self' = concat fs /\ wal_synced self' = len (wal_file self') /\
    Forall2 (fun r f => exists nonce, encode_frame (wal_encryptor self) nonce r = Ok f)
      (filter (fun r => predicate r = true) all) fs.
Proof.
  unfold wal_retain. destruct (recover self) as [w res] eqn:E.
  pose proof (recover_encryptor self) as Hw. rewrite E in Hw. cbn [fst] in Hw.
  intros (all & -> & Hrest)%obind_Ok_inv. apply obind_Ok_inv in Hrest as ([frames d] & Hf & [= <-]).
  apply encode_frames_each in Hf as (fs & -> & Hall). exists all, fs. simpl.
  split_and!; auto. rewrite Hw in Hall. eapply Forall2_impl; [exact Hall|]. intros x y [i Hxy]; eauto.
Qed.

(** ** Migration *)

Lemma read_byte_cons rd b rest :
  br_rest rd = b :: rest -> exists rd', read_byte rd = Some (b, rd') /\ br_rest rd' = rest.
Proof.
  intros Hr. unfold read_byte. rewrite <- fill_buf_rest in Hr.
  destruct (br_buf (fill_buf rd)) as [|x buf] eqn:E.
  - exfalso. apply fill_buf_nonempty in E; [done|]. rewrite <- fill_buf_rest. congruence.
  - unfold br_rest in Hr. rewrite E in Hr. simpl in Hr. injection Hr as -> Hr. by eexists.
Qed.

Lemma read_byte_nil rd : br_rest rd = [] -> read_byte rd = None.
Proof.
  intros Hr. unfold read_byte. rewrite <- fill_buf_rest in Hr.
  apply app_nil in Hr as [-> _]. done.
Qed.

Lemma read_exact_eof rd n : len (br_rest rd) < n -> read_exact rd n = Err (Io UnexpectedEof).
Proof.
  intros Hn. unfold br_rest in Hn. rewrite len_app in Hn. pose proof (len_nonneg (br_file rd)).
  unfold read_exact. rewrite (proj2 (Z.leb_gt _ _)), (proj2 (Z.ltb_lt _ _)) by lia. done.
Qed.

(** A record that the target log can hold. *)
Definition migratable (target : Encryptor) (rng : nat -> option bytes) (r : LogRecord) : Prop :=
  (exists b, encode r = Ok b /\
     len b <= MAX_WAL_RECORD_BYTES - 1 - (if enabled target then 28 else 0)) /\
  forall i, exists f, encode_frame target (rng i) r = Ok f.

Lemma migrate_decode encr legacy v p r :
  decode_frame encr v p = Ok (Some r) -> migration_decode encr legacy v p = Ok r.
Proof.
  unfold decode_frame, migration_decode.
  destruct (v =? WAL_FRAME_VERSION_V0); [destruct (decode p); simpl; congruence|].
  destruct (v =? WAL_FRAME_VERSION_V1); [destruct (decode p); simpl; congruence|].
  destruct (v =? WAL_FRAME_VERSION_V2); [destruct (decode p); simpl; congruence|].
  destruct (v =? WAL_FRAME_VERSION_V3_ENCRYPTED); [|done].
  destruct (decrypt_for_recovery encr p); simpl; [|done|done].
  destruct (decode a); simpl; congruence.
Qed.

(** The bytes of a frame a migration reads as the record: its own key opens it
    or, where the all-zero key is allowed, that one. *)
Definition legacy_frame_of (encr : Encryptor) (legacy : bool) (r : LogRecord) (f : bytes) : Prop :=
  exists version payload,
    f = frame_bytes version payload /\ 0 <= version <= 255 /\
    1 + len payload <= MAX_WAL_RECORD_BYTES /\
    migration_decode encr legacy version payload = Ok r.

Lemma frame_of_legacy encr legacy r f : frame_of encr r f -> legacy_frame_of encr legacy r f.
Proof.
  intros (v & p & ? & ? & ? & Hd). exists v, p. split_and!; auto; try lia. by apply migrate_decode.
Qed.

Lemma legacy_frame_len encr legacy r f : legacy_frame_of encr legacy r f -> 9 <= len f.
Proof.
  intros (v & p & -> & _). unfold frame_bytes. pose proof (len_nonneg p). autorewrite with apex. lia.
Qed.

Lemma frame_split encr legacy r f :
  legacy_frame_of encr legacy r f ->
  exists b0 l3 v p,
    f = b0 :: l3 ++ [byte_of_Z v] ++ p ++ u32_le (crc32 ((b0 :: l3) ++ [byte_of_Z v] ++ p)) /\
    len l3 = 3 /\ from_le_bytes (b0 :: l3) = 1 + len p /\ byte_to_Z (byte_of_Z v) = v /\
    1 <= 1 + len p <= MAX_WAL_RECORD_BYTES /\ migration_decode encr legacy v p = Ok r.
Proof.
  intros (v & p & -> & Hv & Hp & Hd). pose proof (len_nonneg p).
  pose proof (len_u32_le (1 + len p)) as Hl.
  assert (from_le_bytes (u32_le (1 + len p)) = 1 + len p) as Hval
    by (apply from_u32_le; unfold MAX_WAL_RECORD_BYTES, u32_max in *; lia).
  unfold frame_bytes. rewrite as_u32_small by (unfold MAX_WAL_RECORD_BYTES, u32_max in *; lia).
  rewrite <- !app_assoc.
  destruct (u32_le (1 + len p)) as [|b0 l3]; [done|]. exists b0, l3, v, p.
  rewrite len_cons in Hl. rewrite byte_to_of_Z, Z.mod_small by lia. split_and!; auto; lia.
Qed.

(** One turn of the loop at the start of a frame it can read. *)
Lemma migrate_step fuel encr tgt legacy rd out count r f tail :
  legacy_frame_of encr legacy r f -> br_rest rd = f ++ tail ->
  exists rd', br_rest rd' = tail /\
    migrate_loop (S fuel) encr tgt legacy rd out count
    = let* encoded := encode r in
      if MAX_WAL_RECORD_BYTES - 1 - (if (tgt : bool) then 12 + 16 else 0) <? len encoded
      then Err InvalidArgument
      else let* out' := write_record out r in
           migrate_loop fuel encr tgt legacy rd' out' (count + 1).
Proof.
  intros Hf Hrest.
  destruct (frame_split _ _ _ _ Hf) as (b0 & l3 & v & p & Ef & Hl3 & Hlen & Hv & Hp & Hd).
  rewrite Ef in Hrest. cbn [app] in Hrest. rewrite <- !app_assoc in Hrest. cbn [app] in Hrest.
  destruct (read_byte_cons _ _ _ Hrest) as (r0 & E0 & Hr0).
  destruct (read_exact_app r0 l3 _ Hr0) as (r1 & E1 & Hr1).
  destruct (read_exact_app r1 [byte_of_Z v] _ Hr1) as (r2 & E2 & Hr2).
  rewrite <- app_assoc in Hr2.
  destruct (read_exact_app r2 p _ Hr2) as (r3 & E3 & Hr3).
  destruct (read_exact_app r3 _ _ Hr3) as (r4 & E4 & Hr4). rewrite len_u32_le in E4.
  exists r4. split; [done|]. cbn [migrate_loop]. rewrite E0.
  rewrite Hl3 in E1. rewrite E1. cbn [obind]. rewrite Hlen.
  rewrite (proj2 (Z.eqb_neq _ _)), (proj2 (Z.ltb_ge _ _)) by lia. cbn [orb].
  change (len [byte_of_Z v]) with 1 in E2. rewrite E2. cbn [obind].
  replace (1 + len p - 1) with (len p) by lia. rewrite E3. cbn [obind]. rewrite E4. cbn [obind].
  rewrite from_u32_le, Z.eqb_refl by apply crc32_range. cbn [negb].
  assert (from_le_bytes [byte_of_Z v] = v) as -> by (cbn [from_le_bytes]; lia).
  cbv zeta. by rewrite Hd.
Qed.

Lemma write_record_appends out r out' :
  write_record out r = Ok out' ->
  exists i f, encode_frame (wal_encryptor out) (wal_rng out i) r = Ok f /\
    wal_file out' = wal_file out ++ f /\ wal_encryptor out' = wal_encryptor out /\
    wal_rng out' = wal_rng out.
Proof.
  unfold write_record. intros (f & Hf & Hw)%obind_Ok_inv. exists (wal_draws out), f.
  destruct (_ <=? _) in Hw; injection Hw as <-; done.
Qed.

Lemma write_record_writes out r f :
  encode_frame (wal_encryptor out) (wal_rng out (wal_draws out)) r = Ok f ->
  exists out', write_record out r = Ok out'.
Proof. intros Hf. unfold write_record. rewrite Hf. cbn [obind]. case_cond; eauto. Qed.

(** A record whose encoding leaves room for the target's encryption. *)
Definition fits_log (target_enabled : bool) (r : LogRecord) : Prop :=
  exists b, encode r = Ok b /\
    len b <= MAX_WAL_RECORD_BYTES - 1 - (if target_enabled then 12 + 16 else 0).

Lemma fitting_frame encr nonce r f :
  (forall n, nonce = Some n -> len n = 12) -> fits_log (enabled encr) r ->
  encode_frame encr nonce r = Ok f -> frame_of encr r f.
Proof.
  intros Hn (b & Hb & Hlen) Hf. apply (encode_frame_of _ _ _ _ Hn Hf).
  revert Hf. unfold encode_frame. rewrite Hb. cbn [obind].
  intros ([payload v] & Hp & Hrest)%obind_Ok_inv.
  injection Hrest as <-. unfold frame_bytes. autorewrite with apex.
  destruct (enabled encr) eqn:Een.
  - apply obind_Ok_inv in Hp as (c & Hc & [= -> <-]).
    rewrite (encrypt_block_len _ _ _ _ Hn Hc), Een. lia.
  - injection Hp as -> <-. lia.
Qed.

(** What the loop leaves when it returns: the frames of the records, appended. *)
Lemma migrate_frames fuel encr tgt legacy rd out count rs fs tail w n :
  Forall2 (legacy_frame_of encr legacy) rs fs -> br_rest rd = concat fs ++ tail ->
  migrate_loop (length fs + fuel) encr tgt legacy rd out count = Ok (w, n) ->
  exists rd' fs' out',
    br_rest rd' = tail /\
    Forall2 (fun r f => exists i, encode_frame (wal_encryptor out) (wal_rng out i) r = Ok f) rs fs' /\
    Forall (fits_log tgt) rs /\
    wal_file out' = wal_file out ++ concat fs' /\ wal_encryptor out' = wal_encryptor out /\
    migrate_loop fuel encr tgt legacy rd' out' (count + len rs) = Ok (w, n).
Proof.
  intros Hfs. revert rd out count.
  induction Hfs as [|r f rs fs Hf Hfs IH]; intros rd out count Hrest Hok.
  { exists rd, [], out. cbn. rewrite app_nil_r, Z.add_0_r. split_and!; auto. }
  cbn [concat] in Hrest. rewrite <- app_assoc in Hrest. cbn [length Nat.add] in Hok.
  destruct (migrate_step (length fs + fuel) encr tgt legacy rd out count r f _ Hf Hrest)
    as (rd1 & Hr1 & E). rewrite E in Hok.
  apply obind_Ok_inv in Hok as (b & Hb & Hok). destruct (_ <? _) eqn:Hfit in Hok; [done|]. apply Z.ltb_ge in Hfit.
  apply obind_Ok_inv in Hok as (out1 & Hw & Hok).
  destruct (write_record_appends _ _ _ Hw) as (i & f' & Hf' & Hwf1 & Hwe1 & Hwr1).
  destruct (IH rd1 out1 (count + 1) Hr1 Hok) as (rd' & fs' & out' & Hr' & Hall & Hfits & Hwf' & Hwe' & Hl').
  exists rd', (f' :: fs'), out'. rewrite Hwe1, Hwr1 in *. split_and!; auto.
  - constructor; eauto.
  - constructor; [by exists b|done].
  - rewrite Hwf', Hwf1. by rewrite <- app_assoc.
  - rewrite len_cons. replace (count + (1 + len rs)) with (count + 1 + len rs) by lia. done.
Qed.

(** The loop goes through records the target can hold. *)
Lemma migrate_proceeds fuel encr legacy rd out count rs fs tail :
  Forall2 (legacy_frame_of encr legacy) rs fs ->
  Forall (migratable (wal_encryptor out) (wal_rng out)) rs -> br_rest rd = concat fs ++ tail ->
  exists rd' out', br_rest rd' = tail /\
    migrate_loop (length fs + fuel) encr (enabled (wal_encryptor out)) legacy rd out count
    = migrate_loop fuel encr (enabled (wal_encryptor out)) legacy rd' out' (count + len rs).
Proof.
  intros Hfs. revert rd out count.
  induction Hfs as [|r f rs fs Hf Hfs IH]; intros rd out count Hmig Hrest.
  { exists rd, out. by rewrite Z.add_0_r. }
  apply Forall_cons in Hmig as [((b & Hb & Hbl) & Henc) Hmig].
  cbn [concat] in Hrest. rewrite <- app_assoc in Hrest. cbn [length Nat.add].
  destruct (migrate_step (length fs + fuel) encr (enabled (wal_encryptor out)) legacy rd out count
              r f _ Hf Hrest) as (rd1 & Hr1 & ->).
  destruct (Henc (wal_draws out)) as [f' Hf'].
  destruct (write_record_writes _ _ _ Hf') as [out1 Hw].
  destruct (write_record_appends _ _ _ Hw) as (_ & _ & _ & _ & Hwe1 & Hwr1).
  rewrite <- Hwe1, <- Hwr1 in Hmig.
  destruct (IH rd1 out1 (count + 1) Hmig Hr1) as (rd' & out' & Hr' & Hl').
  rewrite Hwe1 in Hl'. exists rd', out'. split; [done|]. rewrite Hb. cbn [obind].
  rewrite (proj2 (Z.ltb_ge _ _)) by (destruct (enabled (wal_encryptor out)); lia).
  rewrite Hw. cbn [obind]. rewrite Hl', len_cons. f_equal. lia.
Qed.

Lemma legacy_frames_length encr legacy rs fs :
  Forall2 (legacy_frame_of encr legacy) rs fs -> (length fs <= length (concat fs))%nat.
Proof.
  induction 1 as [|r f rs fs Hf _ IH]; [done|]. apply legacy_frame_len in Hf.
  cbn [concat length]. rewrite length_app. unfold len in Hf. lia.
Qed.

(** A log migrated: the same records, in frames of the target. *)
Lemma rewrite_keeps_records source src_enc tgt_enc legacy rng rs fs w n :
  Forall2 (legacy_frame_of (Encryptor_new src_enc) legacy) rs fs -> source = concat fs ->
  rewrite_for_migration source src_enc tgt_enc legacy rng = Ok (w, n) ->
  n = len rs /\ wal_synced w = len (wal_file w) /\
  exists fs', wal_file w = concat fs' /\ Forall (fits_log (ec_enabled tgt_enc)) rs /\
    Forall2 (fun r f => exists i, encode_frame (Encryptor_new tgt_enc) (rng i) r = Ok f) rs fs'.
Proof.
  intros Hfs ->. unfold rewrite_for_migration.
  intros ([out' n'] & Hl & [= <- <-])%obind_Ok_inv. pose proof (legacy_frames_length _ _ _ _ Hfs).
  replace (S (length (concat fs))) with (length fs + S (length (concat fs) - length fs))%nat in Hl by lia.
  set (out := set_sync_interval (wal_open [] tgt_enc rng) usize_max) in Hl.
  apply (migrate_frames _ _ _ _ _ _ _ rs fs []) in Hl
    as (rd' & fs' & out1 & Hr' & Hall & Hfits & Hwf & Hwe & Hl); [|done|by rewrite app_nil_r].
  cbn [migrate_loop] in Hl. rewrite (read_byte_nil _ Hr') in Hl. injection Hl as <- <-.
  split_and!; [lia|done|]. by exists fs'.
Qed.

(** migration keeps every record.  A log of valid frames (of any version,
    encrypted or not) whose records fit the target is rewritten into a log of
    current frames of the same records, in the same order and number, and
    without deduplication; the new log is synced. *)
Theorem wal_migration_lossless source src_enc tgt_enc legacy rng rs fs :
  frames_of (Encryptor_new src_enc) rs fs ->
  Forall (migratable (Encryptor_new tgt_enc) rng) rs ->
  source = concat fs ->
  exists w fs',
    rewrite_for_migration source src_enc tgt_enc legacy rng = Ok (w, len rs) /\
    wal_file w = concat fs' /\ wal_synced w = len (wal_file w) /\
    Forall2 (fun r f => exists i, encode_frame (Encryptor_new tgt_enc) (rng i) r = Ok f) rs fs'.
Proof.
  intros Hfs Hmig ->.
  assert (Forall2 (legacy_frame_of (Encryptor_new src_enc) legacy) rs fs) as Hlf
    by (eapply Forall2_impl; [exact Hfs|intros; by apply frame_of_legacy]).
  pose proof (legacy_frames_length _ _ _ _ Hlf).
  set (out := set_sync_interval (wal_open [] tgt_enc rng) usize_max).
  destruct (migrate_proceeds (S (length (concat fs) - length fs)) (Encryptor_new src_enc) legacy
              (BufReader_new (concat fs)) out 0 rs fs []) as (rd' & out' & Hr' & Hl);
    [done|done|by rewrite app_nil_r|].
  change (enabled (wal_encryptor out)) with (ec_enabled tgt_enc) in Hl.
  cbn [migrate_loop] in Hl. rewrite (read_byte_nil _ Hr') in Hl.
  replace (length fs + S (length (concat fs) - length fs))%nat with (S (length (concat fs))) in Hl by lia.
  assert (rewrite_for_migration (concat fs) src_enc tgt_enc legacy rng = Ok (wal_sync out', len rs)) as E
    by (unfold rewrite_for_migration; fold out; by rewrite Hl).
  destruct (rewrite_keeps_records _ _ _ _ _ _ _ _ _ Hlf eq_refl E) as (_ & Hs & fs' & Hw & _ & Hall).
  by exists (wal_sync out'), fs'.
Qed.

Lemma migrate_torn fuel encr tgt legacy rd out count r f torn rest :
  legacy_frame_of encr legacy r f -> f = torn ++ rest -> torn <> f -> torn <> [] -> br_rest rd = torn ->
  migrate_loop (S fuel) encr tgt legacy rd out count = Err (Io UnexpectedEof).
Proof.
  intros Hf Hpre Hne Hnil Hrest.
  destruct (frame_split _ _ _ _ Hf) as (b0 & l3 & v & p & Ef & Hl3 & Hlen & Hv & Hp & Hd).
  destruct torn as [|b0' t]; [done|]. rewrite Hpre in Ef. injection Ef as -> Ef.
  assert (len t < len (t ++ rest)) as Hlt.
  { rewrite len_app. destruct rest; [by rewrite app_nil_r in Hpre|]. rewrite len_cons.
    pose proof (len_nonneg rest). lia. }
  rewrite Ef in Hlt. autorewrite with apex in Hlt.
  cbn [migrate_loop]. destruct (read_byte_cons _ _ _ Hrest) as (r0 & -> & Hr0).
  destruct (Z.ltb_spec (len t) 3); [by rewrite read_exact_eof by (rewrite Hr0; lia)|].
  assert (t = l3 ++ drop 3 t) as Ht3.
  { assert (take 3 (t ++ rest) = l3) as <-.
    { rewrite Ef, take_app_length'; [done|unfold len in Hl3; lia]. }
    rewrite take_app_le by (unfold len in *; lia). by rewrite take_drop. }
  rewrite Ht3 in Hr0. destruct (read_exact_app r0 l3 _ Hr0) as (r1 & E1 & Hr1).
  rewrite Hl3 in E1. rewrite E1. cbn [obind]. rewrite Hlen.
  rewrite (proj2 (Z.eqb_neq _ _)), (proj2 (Z.ltb_ge _ _)) by lia. cbn [orb].
  assert (len (br_rest r1) = len t - 3) as Hlr1 by (rewrite Hr1; unfold len in *; rewrite length_drop; lia).
  destruct (Z.ltb_spec (len t) 4); [by rewrite read_exact_eof by lia|].
  destruct (read_exact_ok r1 1) as (r2 & -> & Hr2); [lia|]. cbn [obind].
  assert (len (br_rest r2) = len t - 4) as Hlr2 by (rewrite Hr2; unfold len in *; rewrite length_drop; lia).
  destruct (Z.ltb_spec (len t) (4 + len p)); [by rewrite read_exact_eof by lia|].
  destruct (read_exact_ok r2 (1 + len p - 1)) as (r3 & -> & Hr3); [lia|]. cbn [obind].
  rewrite read_exact_eof; [done|]. rewrite Hr3. unfold len in *. rewrite length_drop. lia.
Qed.

(** migration is strict where recovery is tolerant: a log that ends in a
    torn frame is refused with an error instead of being truncated. *)
Theorem wal_migration_refuses_torn source src_enc tgt_enc legacy rng rs fs r f torn :
  frames_of (Encryptor_new src_enc) rs fs ->
  Forall (migratable (Encryptor_new tgt_enc) rng) rs ->
  frame_of (Encryptor_new src_enc) r f -> torn `prefix_of` f -> torn <> f -> torn <> [] ->
  source = concat fs ++ torn ->
  rewrite_for_migration source src_enc tgt_enc legacy rng = Err (Io UnexpectedEof).
Proof.
  intros Hfs Hmig Hf [rest Hpre] Hne Hnil ->.
  assert (Forall2 (legacy_frame_of (Encryptor_new src_enc) legacy) rs fs) as Hlf
    by (eapply Forall2_impl; [exact Hfs|intros; by apply frame_of_legacy]).
  pose proof (legacy_frames_length _ _ _ _ Hlf).
  unfold rewrite_for_migration. rewrite length_app.
  replace (S (length (concat fs) + length torn))
    with (length fs + S (length (concat fs) + length torn - length fs))%nat by lia.
  set (out := set_sync_interval (wal_open [] tgt_enc rng) usize_max).
  destruct (migrate_proceeds (S (length (concat fs) + length torn - length fs)) (Encryptor_new src_enc)
              legacy (BufReader_new (concat fs ++ torn)) out 0 rs fs torn) as (rd' & out' & Hr' & Hl);
    [done|done|done|].
  change (enabled (wal_encryptor out)) with (ec_enabled tgt_enc) in Hl. rewrite Hl. clear Hl.
  rewrite (migrate_torn _ _ _ _ _ _ _ r f torn rest); auto. by apply frame_of_legacy.
Qed.

End wal.
