(* ===== verification/Postcard.v ===== *)
(** * Postcard: the wire format of [postcard], as a concrete instance

    The classes of [Extern] leave serialisation abstract.  This file writes out
    the format the crate documents (LEB128 varints for integers and lengths, one
    tag byte for [bool] and [Option], fields in order) as small codecs with a
    round-trip law, and builds the codecs of the records the engine stores. *)
From Stdlib Require Import ZArith Lia QArith.
From stdpp Require Import base tactics numbers list gmap strings.
From S2P Require Import Prelude Bytes LogRecord Extern SstBuilder.
Local Open Scope Z_scope.
Local Unset Program Cases.

(** An encoder and a decoder that consumes a prefix of its input. *)
Record codec (A : Type) := mkCodec {
  c_enc : A -> option bytes;
  c_dec : bytes -> option (A * bytes);
  c_law a b rest : c_enc a = Some b -> c_dec (b ++ rest) = Some (a, rest);
}.
Arguments c_enc {_} _ _.
Arguments c_dec {_} _ _.
Arguments c_law {_} _ _ _ _ _.

(** ** Integers *)

Fixpoint enc_varint (n : nat) (x : Z) : bytes :=
  match n with
  | O => []
  | S n => if x <? 128 then [byte_of_Z x] else byte_of_Z (x mod 128 + 128) :: enc_varint n (x / 128)
  end.
Fixpoint dec_varint (n : nat) (b : bytes) : option (Z * bytes) :=
  match n, b with
  | S n, x :: b =>
      let v := byte_to_Z x in
      if v <? 128 then Some (v, b)
      else match dec_varint n b with
           | Some (w, rest) => Some (v - 128 + 128 * w, rest)
           | None => None
           end
  | _, _ => None
  end.

Lemma dec_enc_varint n x rest :
  (0 < n)%nat -> 0 <= x < 128 ^ Z.of_nat n -> dec_varint n (enc_varint n x ++ rest) = Some (x, rest).
Proof.
  revert x; induction n as [|n IH]; intros x Hn Hx; [lia|]. cbn [enc_varint].
  destruct (Z.ltb_spec x 128) as [Hlt|Hge].
  - cbn [app dec_varint]. rewrite byte_to_of_Z, Z.mod_small by lia.
    by rewrite (proj2 (Z.ltb_lt _ _)) by lia.
  - cbn [app dec_varint]. pose proof (Z.mod_pos_bound x 128 ltac:(lia)).
    rewrite byte_to_of_Z, (Z.mod_small (_ + _)) by lia.
    rewrite (proj2 (Z.ltb_ge _ _)) by lia. rewrite IH.
    2:{ destruct n; [simpl in Hx|]; lia. }
    + f_equal. f_equal. pose proof (Z.div_mod x 128 ltac:(lia)). lia.
    + rewrite Nat2Z.inj_succ, Z.pow_succ_r in Hx by lia.
      split; [apply Z.div_pos; lia|apply Z.div_lt_upper_bound; lia].
Qed.

(** An unsigned integer of at most [n] varint bytes and maximum [m]. *)
Program Definition c_uint (n : nat) (m : Z) (Hm : (0 <? n)%nat && (m <? 128 ^ Z.of_nat n) = true) : codec Z :=
  {| c_enc x := if (0 <=? x) && (x <=? m) then Some (enc_varint n x) else None;
     c_dec b := match dec_varint n b with
                | Some (x, rest) => if x <=? m then Some (x, rest) else None
                | None => None
                end |}.
Next Obligation.
  intros n m [Hn Hm]%andb_true_iff x b rest. apply Nat.ltb_lt in Hn. simpl.
  destruct (_ && _) eqn:E; [|done]. intros [= <-]. bool_prop.
  rewrite dec_enc_varint by lia. by rewrite (proj2 (Z.leb_le _ _)) by lia.
Qed.

Definition c_u32 : codec Z := c_uint 5 u32_max eq_refl.
Definition c_u64 : codec Z := c_uint 10 u64_max eq_refl.
Definition c_u128 : codec Z := c_uint 19 u128_max eq_refl.

(** ** Composite values *)

Program Definition c_bool : codec bool :=
  {| c_enc x := Some [if x : bool then Byte.x01 else Byte.x00];
     c_dec b := match b with
                | Byte.x00 :: b => Some (false, b)
                | Byte.x01 :: b => Some (true, b)
                | _ => None
                end |}.
Next Obligation. intros x b rest; simpl. intros [= <-]. by destruct x. Qed.

Program Definition c_option {A} (c : codec A) : codec (option A) :=
  {| c_enc x := match x with
                | None => Some [Byte.x00]
                | Some a => (fun b => Byte.x01 :: b) <$> c_enc c a
                end;
     c_dec b := match b with
                | Byte.x00 :: b => Some (None, b)
                | Byte.x01 :: b => match c_dec c b with
                                   | Some (a, rest) => Some (Some a, rest)
                                   | None => None
                                   end
                | _ => None
                end |}.
Next Obligation.
  intros A c [a|] b rest; simpl; [|by intros [= <-]].
  destruct (c_enc c a) eqn:E; simpl; [|done]. intros [= <-]. cbn. by rewrite (c_law _ _ _ _ E).
Qed.

Program Definition c_pair {A B} (c1 : codec A) (c2 : codec B) : codec (A * B) :=
  {| c_enc x := match c_enc c1 x.1, c_enc c2 x.2 with
                | Some b1, Some b2 => Some (b1 ++ b2)
                | _, _ => None
                end;
     c_dec b := match c_dec c1 b with
                | Some (x, b) => match c_dec c2 b with
                                 | Some (y, b) => Some ((x, y), b)
                                 | None => None
                                 end
                | None => None
                end |}.
Next Obligation.
  intros A B c1 c2 [x y] b rest. simpl.
  destruct (c_enc c1 x) eqn:E1; [|done]. destruct (c_enc c2 y) eqn:E2; [|done]. intros [= <-].
  by rewrite <- app_assoc, (c_law _ _ _ _ E1), (c_law _ _ _ _ E2).
Qed.

(** A sequence: the length, then the elements. *)
Fixpoint enc_seq {A} (c : codec A) (l : list A) : option bytes :=
  match l with
  | [] => Some []
  | x :: l => match c_enc c x, enc_seq c l with
              | Some b1, Some b2 => Some (b1 ++ b2)
              | _, _ => None
              end
  end.
Fixpoint dec_seq {A} (c : codec A) (n : nat) (b : bytes) : option (list A * bytes) :=
  match n with
  | O => Some ([], b)
  | S n => match c_dec c b with
           | Some (x, b) => match dec_seq c n b with
                            | Some (l, b) => Some (x :: l, b)
                            | None => None
                            end
           | None => None
           end
  end.

Lemma dec_enc_seq {A} (c : codec A) l b rest :
  enc_seq c l = Some b -> dec_seq c (length l) (b ++ rest) = Some (l, rest).
Proof.
  revert b; induction l as [|x l IH]; intros b; simpl; [by intros [= <-]|].
  destruct (c_enc c x) eqn:E1; [|done]. destruct (enc_seq c l) eqn:E2; [|done]. intros [= <-].
  by rewrite <- app_assoc, (c_law _ _ _ _ E1), (IH _ eq_refl).
Qed.

Program Definition c_list {A} (c : codec A) : codec (list A) :=
  {| c_enc l := match c_enc c_u64 (len l), enc_seq c l with
                | Some b1, Some b2 => Some (b1 ++ b2)
                | _, _ => None
                end;
     c_dec b := match c_dec c_u64 b with
                | Some (n, b) => dec_seq c (Z.to_nat n) b
                | None => None
                end |}.
Next Obligation.
  intros A c l b rest. cbn beta iota. destruct (c_enc c_u64 (len l)) eqn:E1; [|done].
  destruct (enc_seq c l) eqn:E2; [|done]. intros [= <-].
  rewrite <- app_assoc, (c_law _ _ _ _ E1).
  replace (Z.to_nat (len l)) with (length l) by (unfold len; lia). by apply dec_enc_seq.
Qed.

Program Definition c_byte : codec byte :=
  {| c_enc x := Some [x]; c_dec b := match b with x :: b => Some (x, b) | [] => None end |}.
Next Obligation. intros x b rest; simpl. by intros [= <-]. Qed.

(** [Vec<u8>]. *)
Definition c_bytes : codec bytes := c_list c_byte.

(** A codec through a pair of conversions. *)
Program Definition c_iso {A B} (c : codec A) (f : B -> A) (g : A -> B) (Hgf : forall x, g (f x) = x)
    : codec B :=
  {| c_enc x := c_enc c (f x);
     c_dec b := match c_dec c b with Some (a, rest) => Some (g a, rest) | None => None end |}.
Next Obligation.
  intros A B c f g Hgf x b rest E. cbn beta in *. by rewrite (c_law _ _ _ _ E), Hgf.
Qed.

(** [String] as its UTF-8 bytes; the strings here are ASCII. *)
Definition string_to_bytes (s : string) : bytes := (fun a => byte_of_Z (Z.of_N (Ascii.N_of_ascii a))) <$> String.list_ascii_of_string s.
Definition bytes_to_string (b : bytes) : string :=
  String.string_of_list_ascii ((fun x => Ascii.ascii_of_N (Z.to_N (byte_to_Z x))) <$> b).
Lemma bytes_to_string_to_bytes s : bytes_to_string (string_to_bytes s) = s.
Proof.
  unfold bytes_to_string, string_to_bytes. rewrite <- list_fmap_compose.
  rewrite <- (String.string_of_list_ascii_of_string s) at 2. f_equal.
  rewrite <- (list_fmap_id (String.list_ascii_of_string s)) at 2.
  apply list_fmap_ext. intros _ a _. unfold compose, id.
  pose proof (Ascii.N_ascii_bounded a). rewrite byte_to_of_Z, Z.mod_small, N2Z.id by lia.
  apply Ascii.ascii_N_embedding.
Qed.
Definition c_string : codec string := c_iso c_bytes string_to_bytes bytes_to_string bytes_to_string_to_bytes.

(** ** The records of the engine *)

Definition c_LogRecord : codec LogRecord :=
  c_iso (c_pair c_bytes (c_pair c_bytes (c_pair c_u128 (c_pair c_bool (c_pair (c_option c_string)
          (c_pair (c_option c_u128) (c_pair (c_option c_bytes) (c_option c_bytes))))))))
    (fun r => (key r, (value r, (timestamp r, (is_deleted r, (column_family r,
               (expires_at r, (range_start r, range_end r))))))))
    (fun '(k, (v, (t, (d, (cf, (e, (rs, re))))))) => mkLogRecord k v t d cf e rs re)
    (fun r => match r with mkLogRecord _ _ _ _ _ _ _ _ => eq_refl end).

Definition c_BlockMeta : codec BlockMeta :=
  c_iso (c_pair c_bytes (c_pair c_u64 (c_pair c_u32 c_u32)))
    (fun b => (bm_first_key b, (bm_offset b, (bm_size b, bm_uncompressed_size b))))
    (fun '(k, (o, (s, u))) => mkBlockMeta k o s u)
    (fun b => match b with mkBlockMeta _ _ _ _ => eq_refl end).

Definition c_MetaBlock : codec MetaBlock :=
  c_iso (c_pair (c_list c_BlockMeta) (c_pair c_bytes (c_pair c_bytes (c_pair c_bytes
          (c_pair c_u64 c_u128)))))
    (fun m => (mb_blocks m, (mb_bloom_filter_data m, (mb_min_key m, (mb_max_key m,
               (mb_record_count m, mb_timestamp m))))))
    (fun '(b, (f, (mn, (mx, (n, t))))) => mkMetaBlock b f mn mx n t)
    (fun m => match m with mkMetaBlock _ _ _ _ _ _ => eq_refl end).

(** [to_allocvec]/[from_bytes]: [from_bytes] ignores what follows the value. *)
Program Definition postcard_of {A} (c : codec A) : Postcard A :=
  {| to_allocvec := c_enc c; from_bytes b := fst <$> c_dec c b |}.
Next Obligation.
  intros A c a b E. simpl. rewrite <- (app_nil_r b), (c_law _ _ _ _ E). done.
Qed.

#[global] Instance postcard_LogRecord : Postcard LogRecord := postcard_of c_LogRecord.
#[global] Instance postcard_MetaBlock : Postcard MetaBlock := postcard_of c_MetaBlock.
