(* ===== verification/Table.v ===== *)
(** * Table: the tables of the version set ([src/src/core/table.rs])

    A [Table] is an optional in-memory copy of its values together with the
    path of its SSTable.  What the table layer needs of an SSTable is the class
    [SstStore]: writing a sorted list of records, opening, point and range
    reads; [SstStoreLaws] is its contract.  The builder and the reader
    implement it (file [Store]); version set and engine are proved against the
    class only. *)
From Stdlib Require Import ZArith Lia QArith.
From stdpp Require Import base tactics numbers list gmap strings sorting.
From S2P Require Import Prelude Bytes SortedMap LogRecord Iterators Extern.
From S2P Require Import SstReader.
Local Open Scope Z_scope.

(** ** The interface of an SSTable store *)

(** What opening a file gives: the key range and, when it can be read, the
    Bloom filter. *)
Record SstMeta `{!BloomCrate} := mkSstMeta {
  sm_min_key : bytes;
  sm_max_key : bytes;
  sm_bloom : option Bloom;
}.

Class SstStore `{!BloomCrate} := {
  SstFile : Type;
  (** [SstableBuilder]: new, add for each entry, finish; the first argument
      numbers the write (its nonces), the second is the table timestamp *)
  sst_write : nat -> Z -> list (bytes * LogRecord) -> outcome SstFile;
  (** what a builder that is dropped or fails leaves in its file *)
  sst_remains : nat -> Z -> list (bytes * LogRecord) -> SstFile;
  (** [metadata::read] and [metadata::bloom] *)
  sst_meta : SstFile -> outcome SstMeta;
  (** [SstableReader::open] followed by [get] *)
  sst_lookup : SstFile -> bytes -> outcome (option LogRecord);
  (** [SstableReader::open] followed by [scan_range] *)
  sst_range : SstFile -> option bytes -> option bytes -> outcome (list (bytes * LogRecord));
  (** [std::fs::metadata(path).len()] *)
  sst_size : SstFile -> Z;
}.

Class SstStoreLaws `{!BloomCrate} `{!SstStore} := {
  (** the entries the format can hold *)
  sst_entry_ok : bytes * LogRecord -> Prop;
  law_write_sorted n ts es f :
    Forall sst_entry_ok es -> sst_write n ts es = Ok f -> key_sorted es /\ es <> [];
  law_write_meta n ts es f :
    Forall sst_entry_ok es -> sst_write n ts es = Ok f ->
    exists m, sst_meta f = Ok m /\
      (forall k, k ∈ es.*1 -> bytes_le (sm_min_key m) k /\ bytes_le k (sm_max_key m)) /\
      (forall k b, k ∈ es.*1 -> sm_bloom m = Some b -> bloom_check b k = true);
  law_write_lookup n ts es f k :
    Forall sst_entry_ok es -> sst_write n ts es = Ok f -> sst_lookup f k = Ok (assoc k es);
  law_write_range n ts es f lo hi :
    Forall sst_entry_ok es -> sst_write n ts es = Ok f ->
    sst_range f lo hi = Ok (filter (fun e => in_range lo hi e.1 = true) es);
}.

(** ** Tables *)

Section table.
Context `{!BloomCrate} `{!SstStore}.

Record Table := mkTable {
  t_data : gmap bytes bytes;
  t_level : nat;
  t_path : option string;
  t_min_key : bytes;
  t_max_key : bytes;
  t_bloom : option Bloom;
}.

(** [Table::build]: an in-memory table. *)
Definition Table_build (data : gmap bytes bytes) : Table :=
  let entries := sorted_entries data in
  let '(min_key, max_key) :=
    match head entries, last entries with
    | Some first, Some last => (first.1, last.1)
    | _, _ => ([], [])
    end in
  let bloom_filter :=
    match entries with
    | [] => None
    | _ => match bloom_new_for_fp_rate (len entries) (1 # 100)%Q with
           | Some bf => Some (foldl bloom_set bf (entries.*1))
           | None => None
           end
    end in
  {| t_data := data; t_level := 0; t_path := None;
     t_min_key := min_key; t_max_key := max_key; t_bloom := bloom_filter |}.

(** [Table::with_level]. *)
Definition with_level (t : Table) (level : nat) : Table :=
  {| t_data := t_data t; t_level := level; t_path := t_path t;
     t_min_key := t_min_key t; t_max_key := t_max_key t; t_bloom := t_bloom t |}.

(** [Table::from_sstable_path]: the file is the one [path] names. *)
Definition from_sstable_path (path : string) (file : SstFile) : outcome Table :=
  let* meta := sst_meta file in
  Ok {| t_data := ∅; t_level := 1; t_path := Some path;
        t_min_key := sm_min_key meta; t_max_key := sm_max_key meta; t_bloom := sm_bloom meta |}.

Inductive TableLoad :=
| Healthy (t : Table)
| DegradedBloom (t : Table)
| Corrupt (e : LsmError).

(** [Table::load_for_recovery]: only structural damage is classified as
    [Corrupt]; every other error is returned. *)
Definition load_for_recovery (path : string) (file : SstFile) : outcome TableLoad :=
  match from_sstable_path path file with
  | Ok table => match t_bloom table with
                | None => Ok (DegradedBloom table)
                | Some _ => Ok (Healthy table)
                end
  | Err InvalidSstableFormat => Ok (Corrupt InvalidSstableFormat)
  | Err CorruptedData => Ok (Corrupt CorruptedData)
  | Err DecompressionFailed => Ok (Corrupt DecompressionFailed)
  | Err Codec => Ok (Corrupt Codec)
  | Err (Io UnexpectedEof) => Ok (Corrupt (Io UnexpectedEof))
  | Err e => Err e
  | Panic => Panic
  end.

(** [Table::size]. *)
Definition table_size (t : Table) : Z := sumZ (fun e => len e.1 + len e.2) (sorted_entries (t_data t)).

(** [Table::iter]. *)
Definition table_iter (t : Table) : TableIterator := TableIterator_new (t_data t).

(** The range filter and the Bloom filter of a built table admit its keys. *)
Lemma Table_build_admits data k :
  is_Some (data !! k) ->
  bytes_le (t_min_key (Table_build data)) k /\ bytes_le k (t_max_key (Table_build data)) /\
  forall b, t_bloom (Table_build data) = Some b -> bloom_check b k = true.
Proof.
  intros [v Hv]. apply elem_of_sorted_entries in Hv. unfold Table_build.
  pose proof (sorted_entries_sorted data) as Hs.
  destruct (sorted_entries data) as [|[k0 v0] es] eqn:E; [set_solver|]. rewrite <- E in *.
  assert (k ∈ (sorted_entries data).*1) as Hk by (apply list_elem_of_fmap; by exists (k, v)).
  apply list_elem_of_lookup in Hv as [i Hi].
  assert (exists kl vl, last (sorted_entries data) = Some (kl, vl)) as (kl & vl & El).
  { rewrite E. destruct (last ((k0, v0) :: es)) as [[kl vl]|] eqn:El; [eauto|by apply last_None in El]. }
  rewrite El. replace (head (sorted_entries data)) with (Some (k0, v0)) by (by rewrite E).
  cbn [fst t_min_key t_max_key t_bloom]. split_and!.
  - destruct i as [|i]; [rewrite E in Hi; injection Hi as -> ->; reflexivity|].
    apply bytes_lt_le. assert (sorted_entries data !! 0%nat = Some (k0, v0)) as Hk0 by (by rewrite E).
    exact (key_sorted_lookup_lt _ _ _ _ _ Hs (Nat.lt_0_succ i) Hk0 Hi).
  - rewrite last_lookup in El. destruct (decide (i = pred (length (sorted_entries data)))) as [->|Hne].
    { rewrite El in Hi. injection Hi as <- _. reflexivity. }
    apply bytes_lt_le. pose proof (lookup_lt_Some _ _ _ Hi).
    assert (i < pred (length (sorted_entries data)))%nat as Hlt by lia.
    exact (key_sorted_lookup_lt _ _ _ _ _ Hs Hlt Hi El).
  - rewrite E. rewrite <- E. destruct (bloom_new_for_fp_rate _ _) as [bf|]; [|done].
    intros b [= <-]. apply bloom_check_foldl. auto.
Qed.

(** quarantine is reserved for damage.  A table classified [Corrupt] failed
    with a structural error of its file; a missing or wrong key, a pending
    migration, an oversized index or an I/O failure is returned as an error, so
    that no healthy file is moved away because of a configuration mistake; and
    a file that cannot be classified never panics unless reading its metadata
    does. *)
Theorem load_for_recovery_classifies path file :
  match load_for_recovery path file with
  | Ok (Healthy t) => sst_meta file = Ok {| sm_min_key := t_min_key t; sm_max_key := t_max_key t; sm_bloom := t_bloom t |}
                      /\ is_Some (t_bloom t) /\ t_path t = Some path
  | Ok (DegradedBloom t) => sst_meta file = Ok {| sm_min_key := t_min_key t; sm_max_key := t_max_key t; sm_bloom := None |}
  | Ok (Corrupt e) => sst_meta file = Err e /\
      e ∈ [InvalidSstableFormat; CorruptedData; DecompressionFailed; Codec; Io UnexpectedEof]
  | Err e => sst_meta file = Err e /\
      e ∉ [InvalidSstableFormat; CorruptedData; DecompressionFailed; Codec; Io UnexpectedEof]
  | Panic => sst_meta file = Panic
  end.
Proof.
  unfold load_for_recovery, from_sstable_path. destruct (sst_meta file) as [[mn mx bl]|e|]; cbn; [|clear|done].
  - destruct bl; cbn; eauto.
  - destruct e as [[]| | | | | | | | | | | | | | | | | | | | | |]; cbn; split; try done; set_solver.
Qed.

End table.
