(* ===== verification/Store.v ===== *)
(** * Store: the SSTable builder and reader as an [SstStore]

    A file is its bytes.  Writing is [SstableBuilder::new], [add] for every
    entry and [finish]; a lookup opens the file as
    [SstableReader::open_with_encryption] does and reads once.  The laws of
    [SstStoreLaws] are the round trips of the files [SstBuilder] and
    [SstReader]; the block cache, which those files show to be transparent, is
    empty at each read. *)
From Stdlib Require Import ZArith Lia QArith.
From stdpp Require Import base tactics numbers list gmap strings.
From S2P Require Import Prelude Bytes SortedMap LogRecord Extern Encryption.
From S2P Require Import Block SstBuilder SstReader Table.
Local Open Scope Z_scope.

(** The storage and encryption configuration the engine was opened with (it
    never turns prefix compression on) and the entropy source: the nonces of the
    [n]-th file written. *)
Class StoreParams := {
  sp_config : StorageConfig;
  sp_encryption : EncryptionConfig;
  sp_rng : nat -> nat -> option bytes;
  sp_no_prefix : sc_prefix_compression_enabled sp_config = false;
  sp_block_size : 0 <= sc_block_size sp_config <= 33554432;
  sp_nonce n i b : sp_rng n i = Some b -> len b = 12;
}.

Section store.
Context `{!Crc32, !Lz4, !Aead, !BloomCrate, !Postcard LogRecord, !Postcard MetaBlock, !Moka (Z * nat) bytes}.
Context `{!StoreParams}.

(** [SstableBuilder]: [new], [add] for each entry, [finish].  File offsets have
    64 bits: the operating system refuses to write past them. *)
Definition store_write (n : nat) (ts : Z) (es : list (bytes * LogRecord)) : outcome bytes :=
  let* file := sst_build sp_config ts sp_encryption (sp_rng n) es in
  if len file <=? u64_max then Ok file else Err (Io OtherIo).

Definition store_remains (n : nat) (ts : Z) (es : list (bytes * LogRecord)) : bytes :=
  sst_build_remains sp_config ts sp_encryption (sp_rng n) es.

(** [metadata::read] and [metadata::bloom], as [Table::from_sstable_path] calls
    them. *)
Definition store_meta (file : bytes) : outcome SstMeta :=
  let* (meta, _) := metadata_read file sp_encryption in
  Ok {| sm_min_key := mb_min_key meta; sm_max_key := mb_max_key meta;
        sm_bloom := bloom_from_bytes (mb_bloom_filter_data meta) |}.

(** [SstableReader::open_with_encryption] and one read. *)
Definition store_lookup (file : bytes) (k : bytes) : outcome (option LogRecord) :=
  let* r := rd_open file 0 sp_encryption true in (sst_get r ∅ k).1.
Definition store_range (file : bytes) (lo hi : option bytes) : outcome (list (bytes * LogRecord)) :=
  let* r := rd_open file 0 sp_encryption true in (sst_scan_range r ∅ lo hi).1.

#[global] Instance store_instance : SstStore :=
  {| SstFile := bytes;
     sst_write := store_write;
     sst_remains := store_remains;
     sst_meta := store_meta;
     sst_lookup := store_lookup;
     sst_range := store_range;
     sst_size := len |}.

(** The entries the block format can hold: key and encoded record within the
    [u16] length fields. *)
Definition store_entry_ok (e : bytes * LogRecord) : Prop :=
  len e.1 <= u16_max /\ forall v, encode e.2 = Ok v -> len v <= u16_max.

Lemma store_layout n ts es f :
  Forall store_entry_ok es -> store_write n ts es = Ok f ->
  len f <= u64_max /\ exists gs meta data mw, sst_layout ts sp_encryption es f gs meta data mw.
Proof.
  intros Hst (f' & Hok & Hf)%obind_Ok_inv. destruct (Z.leb_spec (len f') u64_max); [|done].
  injection Hf as ->. split; [done|]. eapply (sst_build_layout sp_config ts sp_encryption (sp_rng n)).
  - apply sp_block_size.
  - apply sp_nonce.
  - split; [done|]. intros E. by rewrite sp_no_prefix in E.
  - done.
Qed.

Lemma store_meta_ok n ts es f :
  Forall store_entry_ok es -> sst_write n ts es = Ok f ->
  exists m, sst_meta f = Ok m /\
    (forall k, k ∈ es.*1 -> bytes_le (sm_min_key m) k /\ bytes_le k (sm_max_key m)) /\
    (forall k b, k ∈ es.*1 -> sm_bloom m = Some b -> bloom_check b k = true).
Proof.
  intros Hst Hok. destruct (store_layout _ _ _ _ Hst Hok) as (Hsz & gs & meta & data & mw & Hsl).
  eexists. split.
  { cbn. unfold store_meta. by rewrite (metadata_read_ok _ _ _ _ _ _ _ _ Hsz Hsl). }
  cbn [sm_min_key sm_max_key sm_bloom]. split.
  - intros k Hk. apply list_elem_of_fmap in Hk as (x & -> & Hx). split.
    + by eapply es_ge_min.
    + by eapply es_le_max.
  - intros k b Hk. destruct (sl_bloom _ _ _ _ _ _ _ _ Hsl) as [b0 ->].
    destruct (bloom_roundtrip (foldl bloom_set b0 (es.*1))) as (b' & -> & Hb'). intros [= <-].
    rewrite Hb'. apply bloom_check_foldl. auto.
Qed.

#[global] Program Instance store_laws : SstStoreLaws := {| sst_entry_ok := store_entry_ok |}.
Next Obligation.
  intros n ts es f Hst Hok.
  destruct (store_layout _ _ _ _ Hst Hok) as (Hsz & gs & meta & data & mw & Hsl).
  split; [apply (sl_sorted _ _ _ _ _ _ _ _ Hsl)|]. intros ->.
  by pose proof (sl_min _ _ _ _ _ _ _ _ Hsl).
Qed.
Next Obligation. intros. by eapply store_meta_ok. Qed.
Next Obligation.
  intros n ts es f k Hst Hok. cbn. unfold store_lookup.
  destruct (store_layout _ _ _ _ Hst Hok) as (Hsz & gs & meta & data & mw & Hsl).
  rewrite (rd_open_ok _ _ _ _ _ _ _ _ Hsz Hsl). cbn [obind].
  destruct (sst_get_ok ts sp_encryption es f gs meta data mw Hsz Hsl 0 true ∅ k)
    as (c & -> & _); [intros i d; by rewrite lookup_empty|done].
Qed.
Next Obligation.
  intros n ts es f lo hi Hst Hok. cbn. unfold store_range.
  destruct (store_layout _ _ _ _ Hst Hok) as (Hsz & gs & meta & data & mw & Hsl).
  rewrite (rd_open_ok _ _ _ _ _ _ _ _ Hsz Hsl). cbn [obind].
  destruct (sst_scan_range_ok ts sp_encryption es f gs meta data mw Hsz Hsl 0 true ∅ lo hi)
    as (c & -> & _); [intros i d; by rewrite lookup_empty|done].
Qed.

End store.
