(* ===== verification/VersionSet.v ===== *)
(** * VersionSet: the tables of each column family ([src/src/core/engine/version_set.rs])

    Per column family the tables from oldest to newest, a cache of values, the
    set of quarantined paths and the generation counter that background
    compaction plans are checked against.  The directory of SSTables is the map
    [disk] from paths to files; a path with no file fails to open.  A call that
    asks whether a record is expired reads the clock once, the argument [now]. *)
From Stdlib Require Import ZArith Lia QArith.
From stdpp Require Import base tactics numbers list gmap strings sorting.
From S2P Require Import Prelude Bytes SortedMap LogRecord Iterators Extern.
From S2P Require Import SstReader Table.
Local Open Scope Z_scope.

Section version_set.
Context `{!BloomCrate} `{!SstStore} `{!Moka bytes bytes}.

(** [struct VersionSet]; [vs_block_cache] tells whether a block cache is
    present ([block_cache.is_some()]). *)
Record VersionSet := mkVersionSet {
  kv_cache : gmap bytes bytes;
  tables : gmap string (list Table);
  vs_block_cache : bool;
  compaction_generation : Z;
  quarantined : gset string;
}.

(** [VersionSet::new]. *)
Definition VersionSet_new (block_cache : bool) : VersionSet :=
  {| kv_cache := ∅; tables := ∅; vs_block_cache := block_cache;
     compaction_generation := 0; quarantined := ∅ |}.

(** The fields an operation changes. *)
Definition set_cache (self : VersionSet) (c : gmap bytes bytes) : VersionSet :=
  {| kv_cache := c; tables := tables self; vs_block_cache := vs_block_cache self;
     compaction_generation := compaction_generation self; quarantined := quarantined self |}.
Definition set_tables (self : VersionSet) (ts : gmap string (list Table)) : VersionSet :=
  {| kv_cache := kv_cache self; tables := ts; vs_block_cache := vs_block_cache self;
     compaction_generation := compaction_generation self; quarantined := quarantined self |}.
Definition bump_generation (self : VersionSet) : VersionSet :=
  {| kv_cache := kv_cache self; tables := tables self; vs_block_cache := vs_block_cache self;
     compaction_generation := compaction_generation self + 1; quarantined := quarantined self |}.
Definition set_quarantined (self : VersionSet) (q : gset string) : VersionSet :=
  {| kv_cache := kv_cache self; tables := tables self; vs_block_cache := vs_block_cache self;
     compaction_generation := compaction_generation self; quarantined := q |}.

(** [get_cached], [put_cached], [clear_cache]. *)
Definition get_cached (self : VersionSet) (k : bytes) : option bytes := moka_get (kv_cache self) k.
Definition put_cached (self : VersionSet) (k v : bytes) : VersionSet :=
  set_cache self (moka_insert (kv_cache self) k v).
Definition clear_cache (self : VersionSet) : VersionSet := set_cache self ∅.

(** [self.tables.get(cf)], an empty list when there is none. *)
Definition cf_tables (self : VersionSet) (cf : string) : list Table := default [] (tables self !! cf).

Definition open_file (disk : gmap string SstFile) (path : string) : outcome SstFile :=
  ok_or (disk !! path) (Io OtherIo).

(** [open_record_reader]: a quarantined table cannot be read. *)
Definition open_record_reader (disk : gmap string SstFile) (self : VersionSet) (path : string)
    : outcome SstFile :=
  if bool_decide (path ∈ quarantined self) then Err InvalidSstableFormat
  else open_file disk path.

(** [get_record]. *)
Definition record_skips (table : Table) (k : bytes) : bool :=
  (negb (bytes_eqb (t_min_key table) []) && bytes_ltb k (t_min_key table))
  || (negb (bytes_eqb (t_max_key table) []) && bytes_ltb (t_max_key table) k)
  || match t_bloom table with Some b => negb (bloom_check b k) | None => false end.

Fixpoint get_record_loop (disk : gmap string SstFile) (self : VersionSet) (k : bytes) (ts : list Table)
    : outcome (option LogRecord) :=
  match ts with
  | [] => Ok None
  | table :: ts =>
      if record_skips table k then get_record_loop disk self k ts
      else match t_path table with
           | Some path =>
               let* file := open_record_reader disk self path in
               let* found := sst_lookup file k in
               match found with
               | Some record => Ok (Some record)
               | None => get_record_loop disk self k ts
               end
           | None =>
               match t_data table !! k with
               | Some v => Ok (Some {| key := k; value := v; timestamp := 0;
                                       is_deleted := bytes_eqb v []; column_family := None;
                                       expires_at := None; range_start := None; range_end := None |})
               | None => get_record_loop disk self k ts
               end
           end
  end.
Definition get_record (disk : gmap string SstFile) (self : VersionSet) (cf : string) (k : bytes)
    : outcome (option LogRecord) :=
  get_record_loop disk self k (reverse (cf_tables self cf)).

(** [get]: what one table of the loop does; [None] continues with the next,
    older, table. *)
Definition get_skips (table : Table) (k : bytes) : bool :=
  (negb (bytes_eqb (t_min_key table) []) && negb (bytes_eqb (t_max_key table) [])
   && (bytes_ltb k (t_min_key table) || bytes_ltb (t_max_key table) k))
  || match t_bloom table with Some b => negb (bloom_check b k) | None => false end.

(** The part of [get] that reads the SSTable of a table. *)
Definition get_from_sstable (disk : gmap string SstFile) (now : Z) (self : VersionSet) (table : Table)
    (k : bytes) : option (outcome (option bytes)) * VersionSet :=
  match t_path table with
  | None => (None, self)
  | Some path =>
      if bool_decide (path ∈ quarantined self) then (None, self)
      else if negb (vs_block_cache self) then (None, self)
      else match (let* file := open_file disk path in sst_lookup file k) with
           | Ok (Some record) =>
               if is_deleted record then (Some (Ok None), self)
               else if is_expired_at record now then (None, self)
               else (Some (Ok (Some (value record))), put_cached self k (value record))
           | Ok None => (None, self)
           | Err _ => (None, set_quarantined self ({[path]} ∪ quarantined self))
           | Panic => (Some Panic, self)
           end
  end.

Definition get_from_table (disk : gmap string SstFile) (now : Z) (self : VersionSet) (table : Table)
    (k : bytes) : option (outcome (option bytes)) * VersionSet :=
  if get_skips table k then (None, self)
  else match t_data table !! k with
       | Some [] => match t_path table with
                    | None => (Some (Ok None), self)
                    | Some _ => get_from_sstable disk now self table k
                    end
       | Some v => (Some (Ok (Some v)), put_cached self k v)
       | None => get_from_sstable disk now self table k
       end.

Fixpoint get_loop (disk : gmap string SstFile) (now : Z) (self : VersionSet) (k : bytes) (ts : list Table)
    : outcome (option bytes) * VersionSet :=
  match ts with
  | [] => (Ok None, self)
  | table :: ts =>
      match get_from_table disk now self table k with
      | (Some res, self) => (res, self)
      | (None, self) => get_loop disk now self k ts
      end
  end.

(** [VersionSet::get]. *)
Definition vs_get (disk : gmap string SstFile) (now : Z) (self : VersionSet) (cf : string) (k : bytes)
    : outcome (option bytes) * VersionSet :=
  match get_cached self k with
  | Some [] => (Ok None, self)
  | Some cached => (Ok (Some cached), self)
  | None => get_loop disk now self k (reverse (cf_tables self cf))
  end.

(** [is_quarantined], [quarantined_count], [evacuate_quarantined]: files that
    exist are moved away. *)
Definition is_quarantined (self : VersionSet) (path : string) : bool :=
  bool_decide (path ∈ quarantined self).
Definition quarantined_count (self : VersionSet) : nat := size (quarantined self).
Definition evacuate_quarantined (disk : gmap string SstFile) (self : VersionSet)
    : nat * gmap string SstFile * VersionSet :=
  let moved := filter (fun p => is_Some (disk !! p)) (elements (quarantined self)) in
  (length moved, foldr delete disk moved, set_quarantined self ∅).

(** [scan]: the in-memory values, newest table first, up to [limit]. *)
Definition scan_in_range (lower upper : option bytes) (k : bytes) : bool :=
  match lower with Some lb => bytes_leb lb k | None => true end
  && match upper with Some ub => bytes_ltb k ub | None => true end.
Fixpoint vs_scan_entries (lower upper : option bytes) (limit : option nat)
    (es : list (bytes * bytes)) (results : list (bytes * bytes)) : list (bytes * bytes) :=
  match es with
  | [] => results
  | (k, v) :: es =>
      let results := if scan_in_range lower upper k then results ++ [(k, v)] else results in
      match limit with
      | Some l => if (l <=? length results)%nat then results
                  else vs_scan_entries lower upper limit es results
      | None => vs_scan_entries lower upper limit es results
      end
  end.
Definition vs_scan (self : VersionSet) (cf : string) (lower upper : option bytes) (limit : option nat)
    : list (bytes * bytes) :=
  vs_scan_entries lower upper limit
    (concat ((fun t => sorted_entries (t_data t)) <$> reverse (cf_tables self cf))) [].

(** [add_table]. *)
Definition add_table (self : VersionSet) (cf : string) (table : Table) : VersionSet :=
  bump_generation (clear_cache (set_tables self (<[cf := cf_tables self cf ++ [table]]> (tables self)))).

(** [table_count], [record_count], [column_families]. *)
Definition table_count (self : VersionSet) (cf : string) : nat := length (cf_tables self cf).
Definition record_count (self : VersionSet) (cf : string) : nat :=
  sum_list ((fun t => size (t_data t)) <$> cf_tables self cf).
Definition column_families (self : VersionSet) : list string := (map_to_list (tables self)).*1.

(** [table_iters_in_range]; [table_iters] has no bounds. *)
Definition table_in_range (lower upper : option bytes) (t : Table) : bool :=
  if bytes_eqb (t_min_key t) [] || bytes_eqb (t_max_key t) [] then true
  else if match lower with Some lb => bytes_ltb (t_max_key t) lb | None => false end then false
  else negb (match upper with Some ub => bytes_leb ub (t_min_key t) | None => false end).
Definition table_iters_in_range (self : VersionSet) (cf : string) (lower upper : option bytes)
    : list TableIterator :=
  table_iter <$> filter (fun t => table_in_range lower upper t = true) (reverse (cf_tables self cf)).

(** [record_iters_in_range]: one iterator per table that may meet the range,
    newest first; on-disk tables through the reader. *)
Definition range_skips (lower upper : option bytes) (t : Table) : bool :=
  (negb (bytes_eqb (t_max_key t) [])
   && match lower with Some lb => bytes_ltb (t_max_key t) lb | None => false end)
  || (negb (bytes_eqb (t_min_key t) [])
      && match upper with Some ub => bytes_leb ub (t_min_key t) | None => false end).
Fixpoint record_iters_loop (disk : gmap string SstFile) (self : VersionSet) (lower upper : option bytes)
    (ts : list Table) : outcome (list (MemTableIterator + TableIterator)) :=
  match ts with
  | [] => Ok []
  | table :: ts =>
      if range_skips lower upper table then record_iters_loop disk self lower upper ts
      else match t_path table with
           | Some path =>
               let* file := open_record_reader disk self path in
               let* records := sst_range file lower upper in
               let* rest := record_iters_loop disk self lower upper ts in
               Ok (inl (MemTableIterator_new records) :: rest)
           | None =>
               let* rest := record_iters_loop disk self lower upper ts in
               Ok (inr (table_iter table) :: rest)
           end
  end.
Definition record_iters_in_range (disk : gmap string SstFile) (self : VersionSet) (cf : string)
    (lower upper : option bytes) : outcome (list (MemTableIterator + TableIterator)) :=
  record_iters_loop disk self lower upper (reverse (cf_tables self cf)).

(** [drain_tables], [remove_and_add_table]: the second leaves the cache. *)
Definition drain_tables (self : VersionSet) (cf : string) : list Table * VersionSet :=
  (cf_tables self cf, clear_cache (set_tables self (delete cf (tables self)))).
Definition remove_and_add_table (self : VersionSet) (cf : string) (new_table : Table) : VersionSet :=
  bump_generation (set_tables self (<[cf := [new_table]]> (tables self))).

(** [atomic_replace_groups]: the outputs of a group go to the position of its
    oldest input. *)
Definition replace_plan (n : nat) (groups : list (list nat * list Table))
    : gset nat * gmap nat (list Table) :=
  foldl (fun (st : gset nat * gmap nat (list Table)) g =>
    let '(removed, replacements) := st in
    let valid := filter (fun i => (i < n)%nat) g.1 in
    match valid with
    | [] => st
    | i :: rest => (removed ∪ list_to_set valid, <[foldl Nat.min i rest := g.2]> replacements)
    end) (∅, ∅) groups.

Fixpoint replace_loop (removed : gset nat) (replacements : gmap nat (list Table)) (index : nat)
    (ts : list Table) : list Table * list string :=
  match ts with
  | [] => ([], [])
  | table :: ts =>
      let outputs := default [] (replacements !! index) in
      let '(updated, paths) := replace_loop removed replacements (S index) ts in
      if bool_decide (index ∈ removed)
      then (outputs ++ updated, option_list (t_path table) ++ paths)
      else (outputs ++ table :: updated, paths)
  end.

Definition atomic_replace_groups (self : VersionSet) (cf : string) (groups : list (list nat * list Table))
    : list string * VersionSet :=
  match tables self !! cf with
  | None => ([], self)
  | Some ts =>
      let '(removed, replacements) := replace_plan (length ts) groups in
      if bool_decide (removed = ∅) then ([], self)
      else let '(updated, removed_paths) := replace_loop removed replacements 0 ts in
           (removed_paths,
            clear_cache (bump_generation (set_tables self (<[cf := updated]> (tables self)))))
  end.
Definition atomic_replace (self : VersionSet) (cf : string) (indices : list nat) (new_tables : list Table)
    : list string * VersionSet :=
  atomic_replace_groups self cf [(indices, new_tables)].

(** [VersionStats] and [stats]. *)
Record VersionStats := mkVersionStats {
  num_tables : nat;
  total_size : Z;
  total_records : nat;
  sst_kb : Z;
  sst_files : nat;
  sst_records : nat;
  max_levels_reached : Z;
  num_tables_at_max : Z;
}.
Definition vs_stats (self : VersionSet) (cf : string) : VersionStats :=
  let ts := cf_tables self cf in
  let total := sumZ table_size ts in
  {| num_tables := length ts; total_size := total; total_records := record_count self cf;
     sst_kb := total / 1024; sst_files := length ts; sst_records := record_count self cf;
     max_levels_reached := 0; num_tables_at_max := 0 |}.

(** ** What the tables hold *)

(** The newest version of a key, in lists of entries from newest to oldest. *)
Fixpoint newest (ess : list (list (bytes * LogRecord))) (k : bytes) : option LogRecord :=
  match ess with
  | [] => None
  | es :: ess => match assoc k es with Some r => Some r | None => newest ess k end
  end.

(** The value a version gives to a reader, expiry aside. *)
Definition stored_value (r : LogRecord) : option bytes :=
  if is_deleted r then None else Some (value r).

(** A table that stands for the entries [es]: they are what its file was
    written from, its filters were read from that file, and its in-memory
    values, where it has any, are theirs. *)
Record table_holds (disk : gmap string SstFile) `{!SstStoreLaws} (q : gset string) (t : Table)
    (es : list (bytes * LogRecord)) : Prop := {
  th_file : exists p f n ts m, t_path t = Some p /\ p ∉ q /\ disk !! p = Some f /\
    sst_write n ts es = Ok f /\ sst_meta f = Ok m /\
    t_min_key t = sm_min_key m /\ t_max_key t = sm_max_key m /\ t_bloom t = sm_bloom m;
  th_storable : Forall sst_entry_ok es;
  th_data : forall k v, t_data t !! k = Some v -> exists r, assoc k es = Some r /\ value r = v;
  th_tombstones : forall k r, assoc k es = Some r -> is_deleted r = true -> value r = [];
}.

Section reads.
Context `{!SstStoreLaws} (disk : gmap string SstFile).

Lemma holds_filters q t es k :
  table_holds disk q t es -> k ∈ es.*1 ->
  bytes_le (t_min_key t) k /\ bytes_le k (t_max_key t) /\
  (forall b, t_bloom t = Some b -> bloom_check b k = true).
Proof.
  intros [(p & f & n & ts & m & _ & _ & _ & Hw & Hm & -> & -> & ->) Hst _ _] Hk.
  destruct (law_write_meta _ _ _ _ Hst Hw) as (m' & Hm' & Hr & Hb).
  rewrite Hm in Hm'. injection Hm' as <-. destruct (Hr k Hk). split_and!; eauto.
Qed.

(** A table that has the key is not skipped by any of the filters. *)
Lemma holds_not_skipped q t es k :
  table_holds disk q t es -> k ∈ es.*1 -> record_skips t k = false /\ get_skips t k = false.
Proof.
  intros Ht Hk. destruct (holds_filters _ _ _ _ Ht Hk) as (Hmin & Hmax & Hb).
  unfold record_skips, get_skips. rewrite (proj2 (bytes_ltb_ge _ _) Hmin), (proj2 (bytes_ltb_ge _ _) Hmax).
  rewrite !andb_false_r. cbn [orb]. destruct (t_bloom t) as [b|]; [|done]. by rewrite (Hb b eq_refl).
Qed.

Lemma holds_lookup q t es k :
  table_holds disk q t es ->
  exists p f, t_path t = Some p /\ p ∉ q /\ disk !! p = Some f /\ sst_lookup f k = Ok (assoc k es).
Proof.
  intros [(p & f & n & ts & m & Hp & Hq & Hd & Hw & _) Hst _ _]. exists p, f. split_and!; [done..|].
  by eapply law_write_lookup.
Qed.

Lemma get_record_loop_newest self k ts ess :
  Forall2 (table_holds disk (quarantined self)) ts ess ->
  get_record_loop disk self k ts = Ok (newest ess k).
Proof.
  induction 1 as [|t es ts ess Ht _ IH]; [done|]. cbn [get_record_loop newest].
  destruct (holds_lookup _ _ _ k Ht) as (p & f & Hp & Hq & Hd & Hl).
  destruct (assoc k es) as [r|] eqn:E.
  - rewrite (proj1 (holds_not_skipped _ _ _ k Ht (assoc_Some_key _ _ _ E))), Hp.
    unfold open_record_reader, open_file. rewrite bool_decide_false, Hd by done. cbn [ok_or obind].
    by rewrite Hl.
  - destruct (record_skips t k); [done|]. rewrite Hp. unfold open_record_reader, open_file.
    rewrite bool_decide_false, Hd by done. cbn [ok_or obind]. by rewrite Hl.
Qed.

(** Reading one table: its version of the key if it has one, cached. *)
Lemma get_from_table_holds now self t es k :
  table_holds disk (quarantined self) t es -> vs_block_cache self = true ->
  (forall r, assoc k es = Some r -> is_expired_at r now = false) ->
  get_from_table disk now self t k =
  match assoc k es with
  | None => (None, self)
  | Some r => match stored_value r with
              | None => (Some (Ok None), self)
              | Some v => (Some (Ok (Some v)), put_cached self k v)
              end
  end.
Proof.
  intros Ht Hc Hexp. unfold get_from_table.
  destruct (holds_lookup _ _ _ k Ht) as (p & f & Hp & Hq & Hd & Hl).
  assert (get_from_sstable disk now self t k =
          match assoc k es with
          | None => (None, self)
          | Some r => match stored_value r with
                      | None => (Some (Ok None), self)
                      | Some v => (Some (Ok (Some v)), put_cached self k v)
                      end
          end) as Hsst.
  { unfold get_from_sstable, stored_value, open_file. rewrite Hp, bool_decide_false, Hc, Hd by done.
    cbn [negb ok_or obind]. rewrite Hl. destruct (assoc k es) as [r|]; [|done].
    rewrite (Hexp r eq_refl). by destruct (is_deleted r). }
  destruct (t_data t !! k) as [v|] eqn:Ed.
  - destruct (th_data _ _ _ _ Ht _ _ Ed) as (r & Hr & <-). rewrite Hr in Hsst |- *.
    rewrite (proj2 (holds_not_skipped _ _ _ k Ht (assoc_Some_key _ _ _ Hr))), Hp.
    destruct (value r) as [|b v] eqn:Ev; [done|]. unfold stored_value.
    destruct (is_deleted r) eqn:Edel; [|by rewrite Ev].
    by rewrite (th_tombstones _ _ _ _ Ht _ _ Hr Edel) in Ev.
  - destruct (get_skips t k) eqn:Es; [|done]. destruct (assoc k es) as [r|] eqn:E; [|done].
    by rewrite (proj2 (holds_not_skipped _ _ _ k Ht (assoc_Some_key _ _ _ E))) in Es.
Qed.

Lemma get_loop_newest now self k ts ess :
  Forall2 (table_holds disk (quarantined self)) ts ess -> vs_block_cache self = true ->
  (forall es r, es ∈ ess -> assoc k es = Some r -> is_expired_at r now = false) ->
  get_loop disk now self k ts =
  match newest ess k ≫= stored_value with
  | None => (Ok None, self)
  | Some v => (Ok (Some v), put_cached self k v)
  end.
Proof.
  intros HF Hc. induction HF as [|t es ts ess Ht HF IH]; intros Hexp; [done|]. cbn [get_loop newest].
  rewrite (get_from_table_holds _ _ _ _ _ Ht Hc) by (intros r; apply Hexp; by left).
  destruct (assoc k es) as [r|]; [|apply IH; intros es' r' Hin; apply Hexp; by right].
  cbn [mbind option_bind]. by destruct (stored_value r).
Qed.

Lemma add_table_tables self cf t : cf_tables (add_table self cf t) cf = cf_tables self cf ++ [t].
Proof. unfold cf_tables at 1. cbn. by rewrite lookup_insert_eq. Qed.

(** ** The value cache *)

(** What the cache may hold when the tables of the column family hold [ess]:
    non-empty values of live newest versions. *)
Definition kv_coherent (self : VersionSet) (ess : list (list (bytes * LogRecord))) : Prop :=
  forall k v, kv_cache self !! k = Some v -> v <> [] /\ newest ess k ≫= stored_value = Some v.

Lemma kv_coherent_empty self ess : kv_cache self = ∅ -> kv_coherent self ess.
Proof. intros E k v. by rewrite E, lookup_empty. Qed.

Lemma vs_get_newest now self cf k ess :
  Forall2 (table_holds disk (quarantined self)) (reverse (cf_tables self cf)) ess ->
  vs_block_cache self = true -> kv_coherent self ess ->
  (forall es r, es ∈ ess -> assoc k es = Some r -> is_expired_at r now = false) ->
  newest ess k ≫= stored_value <> Some [] ->
  exists self', vs_get disk now self cf k = (Ok (newest ess k ≫= stored_value), self') /\
    kv_coherent self' ess /\ tables self' = tables self /\ quarantined self' = quarantined self /\
    vs_block_cache self' = true /\ compaction_generation self' = compaction_generation self.
Proof.
  intros HF Hb Hc Hexp Hne. unfold vs_get, get_cached, moka_get.
  destruct (kv_cache self !! k) as [v|] eqn:E.
  - destruct (Hc _ _ E) as [Hv ->]. exists self. by destruct v.
  - rewrite (get_loop_newest _ _ _ _ _ HF Hb Hexp).
    destruct (newest ess k ≫= stored_value) as [v|] eqn:Ev; [|by exists self].
    eexists. split_and!; try done. intros k' v' Hl.
    apply moka_insert_lookup in Hl as [[-> ->]|Hl]; [|by apply Hc]. split; [congruence|done].
Qed.

(** ** Range iterators *)

(** What an iterator of versions shows for a key in the range. *)
Definition record_item (r : LogRecord) : item := (value r, Some r).

Lemma holds_range q t es lower upper :
  table_holds disk q t es ->
  exists p f, t_path t = Some p /\ p ∉ q /\ disk !! p = Some f /\ key_sorted es /\
    sst_range f lower upper = Ok (filter (fun e => in_range lower upper e.1 = true) es).
Proof.
  intros [(p & f & n & ts & m & Hp & Hq & Hd & Hw & _) Hst _ _]. exists p, f. split_and!; [done..| |].
  - by eapply law_write_sorted.
  - by eapply law_write_range.
Qed.

(** A table skipped by the range check has no entry in the range. *)
Lemma range_skips_none q t es lower upper k :
  table_holds disk q t es -> range_skips lower upper t = true ->
  in_range lower upper k = true -> assoc k es = None.
Proof.
  intros Ht Hs Hr. apply assoc_None. intros Hk. destruct (holds_filters _ _ _ _ Ht Hk) as (Hmin & Hmax & _).
  unfold range_skips in Hs. unfold in_range in Hr. apply andb_true_iff in Hr as [Hlo Hhi].
  apply orb_true_iff in Hs as [[_ Hs]%andb_true_iff|[_ Hs]%andb_true_iff].
  - destruct lower as [lb|]; [|done]. bytes_prop. bytes_order.
  - destruct upper as [ub|]; [|done]. bytes_prop. bytes_order.
Qed.

Lemma record_iters_loop_ok self lower upper ts ess :
  Forall2 (table_holds disk (quarantined self)) ts ess ->
  exists its, record_iters_loop disk self lower upper ts = Ok its /\ Forall source_ok its /\
    forall k, newest_wins (remaining <$> its) !! k =
              if in_range lower upper k then record_item <$> newest ess k else None.
Proof.
  induction 1 as [|t es ts ess Ht HF (its & Hits & Hok & Hnw)].
  { exists []. split_and!; [done|constructor|]. intros k. cbn. rewrite lookup_empty.
    by destruct (in_range lower upper k). }
  cbn [record_iters_loop]. destruct (range_skips lower upper t) eqn:Es.
  { exists its. split_and!; [done|done|]. intros k. rewrite Hnw. cbn [newest].
    destruct (in_range lower upper k) eqn:Er; [|done]. by rewrite (range_skips_none _ _ _ _ _ _ Ht Es Er). }
  destruct (holds_range _ _ _ lower upper Ht) as (p & f & Hp & Hq & Hd & Hs & Hr).
  rewrite Hp. unfold open_record_reader, open_file. rewrite bool_decide_false, Hd by done.
  cbn [ok_or obind]. rewrite Hr. cbn [obind]. rewrite Hits. cbn [obind]. eexists. split; [done|].
  set (fes := filter _ es).
  assert (key_sorted fes) as Hfs by (by apply key_sorted_filter).
  assert (remaining (inl (MemTableIterator_new fes) : MemTableIterator + TableIterator) = mem_item <$> fes) as Hrem.
  { cbn. unfold mti_remaining. cbn. by rewrite drop_0. }
  split.
  - constructor; [|done]. split; [done|]. rewrite Hrem. by apply key_sorted_fmap.
  - intros k. rewrite fmap_cons, newest_wins_cons, Hnw, Hrem.
    rewrite (assoc_fmap mem_item record_item) by done. cbn [newest]. subst fes.
    rewrite assoc_filter by done. cbn [fst]. destruct (assoc k es) as [r|]; [|done]. cbn.
    by destruct (in_range lower upper k).
Qed.

End reads.

(** ** Replacing tables *)

Lemma newest_app ess1 ess2 k :
  newest (ess1 ++ ess2) k = match newest ess1 k with Some r => Some r | None => newest ess2 k end.
Proof. induction ess1 as [|es ess1 IH]; simpl; [done|]. by destruct (assoc k es). Qed.

Lemma foldl_min_spec i l :
  foldl Nat.min i l ∈ i :: l /\ forall j, j ∈ i :: l -> (foldl Nat.min i l <= j)%nat.
Proof.
  revert i; induction l as [|x l IH]; intros i; simpl; [set_solver by lia|].
  destruct (IH (Nat.min i x)) as [Hin Hle]. split.
  - destruct (Nat.min_spec i x) as [[_ E]|[_ E]]; rewrite E in *; set_solver.
  - intros j Hj. specialize (Hle (Nat.min i x) ltac:(by left)) as Hm. set_unfold in Hj.
    destruct Hj as [->|[->|Hj]]; [lia|lia|]. apply Hle. by right.
Qed.

Lemma replace_plan_run total n m idx outs :
  idx ≡ₚ seq m n -> (0 < n)%nat -> (m + n <= total)%nat ->
  replace_plan total [(idx, outs)] = (list_to_set idx, {[ m := outs ]}).
Proof.
  intros Hp Hn Ht. unfold replace_plan. cbn [foldl fst snd].
  rewrite filter_all by (intros i Hi; rewrite Hp in Hi; apply elem_of_seq in Hi; lia).
  destruct idx as [|i rest].
  { apply Permutation_nil in Hp. destruct n; [lia|done]. }
  destruct (foldl_min_spec i rest) as [Hin Hle].
  replace (foldl Nat.min i rest) with m; [by rewrite (left_id_L ∅ (∪))|].
  rewrite Hp in Hin. apply elem_of_seq in Hin. specialize (Hle m).
  rewrite Hp, elem_of_seq in Hle. lia.
Qed.

Lemma replace_loop_outside removed reps index ts :
  (forall i, (index <= i < index + length ts)%nat -> i ∉ removed /\ reps !! i = None) ->
  replace_loop removed reps index ts = (ts, []).
Proof.
  revert index; induction ts as [|t ts IH]; intros index Hio; [done|]. cbn [replace_loop].
  destruct (Hio index) as [Hr Hn]; [simpl; lia|]. rewrite Hn, bool_decide_false by done.
  rewrite IH by (intros i Hi; apply Hio; simpl; lia). done.
Qed.

Lemma replace_loop_inside removed reps index run rest :
  (forall i, (index <= i < index + length run)%nat -> i ∈ removed /\ reps !! i = None) ->
  replace_loop removed reps index (run ++ rest) =
  ((replace_loop removed reps (index + length run) rest).1,
   omap t_path run ++ (replace_loop removed reps (index + length run) rest).2).
Proof.
  revert index; induction run as [|t run IH]; intros index Hio; cbn [app length replace_loop].
  { rewrite Nat.add_0_r. by destruct (replace_loop _ _ _ _). }
  destruct (Hio index) as [Hr Hn]; [simpl; lia|]. rewrite Hn, bool_decide_true by done.
  rewrite IH by (intros i Hi; apply Hio; simpl; lia).
  replace (index + S (length run))%nat with (S index + length run)%nat by lia.
  cbn. by destruct (t_path t).
Qed.

Lemma replace_loop_prefix removed reps index old rest :
  (forall i, (index <= i < index + length old)%nat -> i ∉ removed /\ reps !! i = None) ->
  replace_loop removed reps index (old ++ rest) =
  (old ++ (replace_loop removed reps (index + length old) rest).1,
   (replace_loop removed reps (index + length old) rest).2).
Proof.
  revert index; induction old as [|t old IH]; intros index Hio; cbn [app length replace_loop].
  { rewrite Nat.add_0_r. by destruct (replace_loop _ _ _ _). }
  destruct (Hio index) as [Hr Hn]; [simpl; lia|]. rewrite Hn, bool_decide_false by done.
  rewrite IH by (intros i Hi; apply Hio; simpl; lia).
  by replace (index + S (length old))%nat with (S index + length old)%nat by lia.
Qed.

Lemma replace_loop_run idx old run new outs :
  idx ≡ₚ seq (length old) (length run) -> run <> [] ->
  replace_loop (list_to_set idx) {[ length old := outs ]} 0 (old ++ run ++ new)
  = (old ++ outs ++ new, omap t_path run).
Proof.
  intros Hp Hne. assert (forall i, i ∈ (list_to_set idx : gset nat) <->
    (length old <= i < length old + length run)%nat) as Hset.
  { intros i. by rewrite elem_of_list_to_set, Hp, elem_of_seq. }
  rewrite replace_loop_prefix; cbn [Nat.add].
  2:{ intros i Hi. rewrite Hset. split; [lia|]. apply lookup_singleton_ne. lia. }
  destruct run as [|t run]; [done|]. cbn [app replace_loop length] in *.
  rewrite lookup_singleton_eq, bool_decide_true by (apply Hset; lia). cbn [default].
  rewrite replace_loop_inside.
  2:{ intros i Hi. rewrite Hset. split; [lia|]. apply lookup_singleton_ne. lia. }
  rewrite replace_loop_outside.
  2:{ intros i Hi. rewrite Hset. split; [lia|]. apply lookup_singleton_ne. lia. }
  cbn. rewrite app_nil_r. by destruct (t_path t).
Qed.

Lemma atomic_replace_run self cf idx old run new outs :
  tables self !! cf = Some (old ++ run ++ new) ->
  idx ≡ₚ seq (length old) (length run) -> run <> [] ->
  atomic_replace self cf idx outs =
  (omap t_path run,
   clear_cache (bump_generation (set_tables self (<[cf := old ++ outs ++ new]> (tables self))))).
Proof.
  intros Ht Hp Hne. unfold atomic_replace, atomic_replace_groups. rewrite Ht, !length_app.
  assert (0 < length run)%nat by (destruct run; simpl; [done|lia]).
  rewrite (replace_plan_run _ (length run) (length old)) by (done || lia).
  rewrite bool_decide_false.
  { by rewrite (replace_loop_run _ _ _ _ _ Hp Hne). }
  intros He. assert (length old ∈ (list_to_set idx : gset nat)) as Hin.
  { rewrite elem_of_list_to_set, Hp, elem_of_seq. lia. }
  rewrite He in Hin. set_solver.
Qed.

(** ** Properties *)

(** A sequence of point reads through the value cache. *)
Fixpoint vs_gets (disk : gmap string SstFile) (self : VersionSet) (cf : string) (qs : list (Z * bytes))
    : list (outcome (option bytes)) :=
  match qs with
  | [] => []
  | (now, k) :: qs => let '(res, self) := vs_get disk now self cf k in res :: vs_gets disk self cf qs
  end.

(** No version expires and no live value is empty: outside of this a read can
    fall through to an older version, or take a live value for a tombstone. *)
Definition plain_entries (ess : list (list (bytes * LogRecord))) : Prop :=
  forall es k r, es ∈ ess -> assoc k es = Some r ->
    expires_at r = None /\ (is_deleted r = false -> value r <> []).

Lemma plain_live ess k : plain_entries ess -> newest ess k ≫= stored_value <> Some [].
Proof.
  intros Hne. induction ess as [|es ess' IH]; [done|]. cbn [newest].
  destruct (assoc k es) as [r|] eqn:E; [|apply IH; intros es' k' r' Hin; apply Hne; by right].
  cbn. unfold stored_value. destruct (is_deleted r) eqn:Ed; [done|]. intros [= Hv].
  destruct (Hne es k r) as [_ Hl]; [by left|done|]. by apply Hl.
Qed.

Lemma vs_gets_newest `{!SstStoreLaws} disk self cf ess qs :
  Forall2 (table_holds disk (quarantined self)) (reverse (cf_tables self cf)) ess ->
  vs_block_cache self = true -> kv_coherent self ess -> plain_entries ess ->
  vs_gets disk self cf qs = (fun q => Ok (newest ess q.2 ≫= stored_value)) <$> qs.
Proof.
  intros HF Hb Hc Hpl.
  revert self HF Hb Hc. induction qs as [|[now k] qs IH]; intros self HF Hb Hc; [done|].
  cbn [vs_gets fmap list_fmap snd].
  destruct (vs_get_newest disk now self cf k ess HF Hb Hc) as (self' & -> & Hc' & Ht & Hq & Hb' & _).
  { intros es r Hin Hr. unfold is_expired_at. by destruct (Hpl _ _ _ Hin Hr) as [-> _]. }
  { by apply plain_live. }
  f_equal. apply IH; [|done|done]. unfold cf_tables in *. by rewrite Ht, Hq.
Qed.

(** C15: newest version wins, cache or not.  On tables that stand for the
    entries [ess] (newest first), of which none expires and no live value is
    empty, with block cache and a value cache that holds nothing but values of
    this column family, any sequence of reads of the family, each of which may
    fill the value cache and let it evict, answers every read with the value of
    the newest version of its key, and with nothing when that version is a
    tombstone or there is none; no filter hides a stored key.  The
    complete-version lookup [get_record] gives that version. *)
Theorem version_set_newest_wins `{!SstStoreLaws} disk self cf ess qs :
  Forall2 (table_holds disk (quarantined self)) (reverse (cf_tables self cf)) ess ->
  vs_block_cache self = true -> kv_coherent self ess -> plain_entries ess ->
  vs_gets disk self cf qs = (fun q => Ok (newest ess q.2 ≫= stored_value)) <$> qs /\
  forall k, get_record disk self cf k = Ok (newest ess k).
Proof. intros HF Hb Hc Hpl. split; [by apply vs_gets_newest|by intros k; apply get_record_loop_newest]. Qed.

(** C36: replacing a run of adjacent tables keeps the reads.  When the tables
    [run] (indices in any order) are replaced by tables that answer as they do
    together, the complete-version lookup [get_record] of every key is unchanged,
    the older and the newer tables keep their places around the output, the
    replaced files are reported in order, the value cache is emptied and the
    generation moves on, so that plans made before are stale.  Any sequence of
    [get]s, through the value cache, answers as it would have before, if no
    version expires, no live value is empty and the cache held nothing but
    values of the column family. *)
Theorem atomic_replace_preserves_reads `{!SstStoreLaws} disk self cf idx old run new outs
    eold erun enew eouts :
  tables self !! cf = Some (old ++ run ++ new) ->
  idx ≡ₚ seq (length old) (length run) -> run <> [] ->
  Forall2 (table_holds disk (quarantined self)) old eold ->
  Forall2 (table_holds disk (quarantined self)) run erun ->
  Forall2 (table_holds disk (quarantined self)) new enew ->
  Forall2 (table_holds disk (quarantined self)) outs eouts ->
  (forall k, newest (reverse eouts) k = newest (reverse erun) k) ->
  let '(paths, self') := atomic_replace self cf idx outs in
  paths = omap t_path run /\ tables self' !! cf = Some (old ++ outs ++ new) /\
  kv_cache self' = ∅ /\ compaction_generation self' = compaction_generation self + 1 /\
  (forall k, get_record disk self' cf k = get_record disk self cf k) /\
  (vs_block_cache self = true -> kv_coherent self (reverse (eold ++ erun ++ enew)) ->
   plain_entries (eold ++ erun ++ enew ++ eouts) ->
   forall qs, vs_gets disk self' cf qs = vs_gets disk self cf qs).
Proof.
  intros Ht Hp Hne Ho Hr Hn Hu Heq. rewrite (atomic_replace_run _ _ _ _ _ _ _ Ht Hp Hne).
  assert (forall k, newest (reverse (eold ++ eouts ++ enew)) k = newest (reverse (eold ++ erun ++ enew)) k) as Hk.
  { intros k. by rewrite !reverse_app, !newest_app, Heq. }
  assert (forall ts es, Forall2 (table_holds disk (quarantined self)) ts es ->
    Forall2 (table_holds disk (quarantined self)) (reverse (old ++ ts ++ new)) (reverse (eold ++ es ++ enew))) as Hall.
  { intros ts es Hts. apply Forall2_reverse. by repeat apply Forall2_app. }
  cbn. rewrite lookup_insert_eq. split_and!; try done.
  - intros k. unfold get_record, cf_tables. cbn. rewrite lookup_insert_eq, Ht. unfold default, id. cbn [from_option].
    rewrite (get_record_loop_newest disk self k _ _ (Hall _ _ Hr)).
    rewrite (get_record_loop_newest disk _ k _ (reverse (eold ++ eouts ++ enew))) by (by apply Hall). by rewrite Hk.
  - intros Hb Hc Hpl qs.
    rewrite (vs_gets_newest disk _ cf (reverse (eold ++ eouts ++ enew))), (vs_gets_newest disk self cf (reverse (eold ++ erun ++ enew))).
    + apply list_fmap_ext. intros i q _. by rewrite Hk.
    + unfold cf_tables. rewrite Ht. by apply Hall.
    + done.
    + done.
    + intros es k r Hin. apply Hpl. set_solver.
    + unfold cf_tables. cbn. rewrite lookup_insert_eq. by apply Hall.
    + done.
    + by apply kv_coherent_empty.
    + intros es k r Hin. apply Hpl. set_solver.
Qed.

Lemma get_from_table_quarantines disk now self t k :
  let '(res, self') := get_from_table disk now self t k in
  (forall e, res <> Some (Err e)) /\ quarantined self ⊆ quarantined self' /\
  tables self' = tables self /\
  (forall p, p ∈ quarantined self' -> p ∉ quarantined self -> t_path t = Some p /\
     exists e, (let* file := open_file disk p in sst_lookup file k) = Err e).
Proof.
  assert (let '(res, self') := get_from_sstable disk now self t k in
    (forall e, res <> Some (Err e)) /\ quarantined self ⊆ quarantined self' /\
    tables self' = tables self /\
    (forall p, p ∈ quarantined self' -> p ∉ quarantined self -> t_path t = Some p /\
       exists e, (let* file := open_file disk p in sst_lookup file k) = Err e)) as Hsst.
  { unfold get_from_sstable. destruct (t_path t) as [p|]; [|done].
    case_bool_decide; [done|]. destruct (vs_block_cache self); [|done]. cbn [negb].
    destruct (let* file := open_file disk p in sst_lookup file k) as [[r|]|e|] eqn:E; try done.
    - by destruct (is_deleted r), (is_expired_at r now).
    - split_and!; try done; cbn; [set_solver|]. intros p' Hin Hnin.
      assert (p' = p) as -> by set_solver. eauto. }
  unfold get_from_table. destruct (get_skips t k); [done|].
  destruct (t_data t !! k) as [[|b v]|]; [|done|done]. by destruct (t_path t).
Qed.

(** a failing table never fails a point read, and is set aside.  [get]
    reports no error: a table that cannot be opened or read is put in the
    quarantine set and the search goes on with older tables; the set only
    grows, by paths of the column family whose file did not answer. *)
Theorem vs_get_quarantines disk now self cf k :
  (forall e, (vs_get disk now self cf k).1 <> Err e) /\
  quarantined self ⊆ quarantined (vs_get disk now self cf k).2 /\
  (forall p, p ∈ quarantined (vs_get disk now self cf k).2 -> p ∉ quarantined self ->
     p ∈ omap t_path (cf_tables self cf) /\
     exists e, (let* file := open_file disk p in sst_lookup file k) = Err e) /\
  tables (vs_get disk now self cf k).2 = tables self.
Proof.
  assert (forall ts self, 
    let '(res, self') := get_loop disk now self k ts in
    (forall e, res <> Err e) /\ quarantined self ⊆ quarantined self' /\
    (forall p, p ∈ quarantined self' -> p ∉ quarantined self -> p ∈ omap t_path ts /\
       exists e, (let* file := open_file disk p in sst_lookup file k) = Err e) /\
    tables self' = tables self) as Hloop.
  { clear self. induction ts as [|t ts IH]; intros self; [done|]. cbn [get_loop].
    pose proof (get_from_table_quarantines disk now self t k) as Ht.
    destruct (get_from_table disk now self t k) as [[res|] self1]; destruct Ht as (He & Hq & Htb & Hn).
    - split_and!; [intros e ->; by apply (He e)|done| |done]. intros p Hp Hp'. destruct (Hn p Hp Hp') as [Hpt ?].
      split; [|done]. apply list_elem_of_omap. exists t. split; [by left|done].
    - specialize (IH self1). destruct (get_loop disk now self1 k ts) as [res self2].
      destruct IH as (He2 & Hq2 & Hn2 & Ht2). split_and!; [done|set_solver| |congruence].
      intros p Hp Hp'. rewrite list_elem_of_omap. destruct (decide (p ∈ quarantined self1)) as [Hin|Hin].
      + destruct (Hn p Hin Hp') as [Hpt ?]. split; [|done]. exists t. split; [by left|done].
      + destruct (Hn2 p Hp Hin) as [(x & Hx & Hpx)%list_elem_of_omap ?]. split; [|done].
        exists x. split; [by right|done]. }
  unfold vs_get. destruct (get_cached self k) as [[|b v]|]; [done|done|].
  specialize (Hloop (reverse (cf_tables self cf)) self).
  destruct (get_loop disk now self k _) as [res self']. destruct Hloop as (He & Hq & Hn & Ht).
  split_and!; try done. cbn. intros p Hp Hp'. destruct (Hn p Hp Hp') as [Hin ?]. split; [|done].
  rewrite list_elem_of_omap in *. destruct Hin as (x & Hx & ?). exists x. by rewrite elem_of_reverse in Hx.
Qed.

End version_set.
