(* ===== verification/Utf8.v ===== *)
(** * Utf8: [String::from_utf8_lossy] and [String::from_utf8]

    The engine derives the name of a key's expiry entry, and the cursor of a
    prefix search, from the key read as text.  A byte string is cut into
    well-formed UTF-8 characters and maximal invalid sequences; the lossy
    conversion replaces each of the latter by U+FFFD. *)
From Stdlib Require Import ZArith Lia.
From stdpp Require Import base tactics numbers list sets strings.
From S2P Require Import Prelude Bytes.
Local Open Scope Z_scope.

Definition between (lo hi x : Z) : bool := (lo <=? x) && (x <=? hi).
Definition is_continuation (x : Z) : bool := between 0x80 0xBF x.

(** The byte at [i], 0 past the end. *)
Definition safe_get (bs : bytes) (i : nat) : Z :=
  match bs !! i with Some b => byte_to_Z b | None => 0 end.

(** The second byte allowed after the first byte of a three-byte and of a
    four-byte character. *)
Definition second_of_3 (first : Z) : Z -> bool :=
  if first =? 0xE0 then between 0xA0 0xBF
  else if first =? 0xED then between 0x80 0x9F
  else is_continuation.
Definition second_of_4 (first : Z) : Z -> bool :=
  if first =? 0xF0 then between 0x90 0xBF
  else if first =? 0xF4 then between 0x80 0x8F
  else is_continuation.

(** The first chunk of a non-empty string: whether it is a character, and its
    length. *)
Definition utf8_step (bs : bytes) : bool * nat :=
  let b := safe_get bs 0 in
  if b <? 0x80 then (true, 1%nat)
  else if between 0xC2 0xDF b then
    if is_continuation (safe_get bs 1) then (true, 2%nat) else (false, 1%nat)
  else if between 0xE0 0xEF b then
    if second_of_3 b (safe_get bs 1) then
      if is_continuation (safe_get bs 2) then (true, 3%nat) else (false, 2%nat)
    else (false, 1%nat)
  else if between 0xF0 0xF4 b then
    if second_of_4 b (safe_get bs 1) then
      if is_continuation (safe_get bs 2) then
        if is_continuation (safe_get bs 3) then (true, 4%nat) else (false, 3%nat)
      else (false, 2%nat)
    else (false, 1%nat)
  else (false, 1%nat).

(** U+FFFD. *)
Definition replacement : bytes := [Byte.xef; Byte.xbf; Byte.xbd].

Fixpoint lossy_loop (fuel : nat) (bs : bytes) : bytes :=
  match fuel, bs with
  | S fuel, _ :: _ =>
      let '(ok, n) := utf8_step bs in
      (if ok then take n bs else replacement) ++ lossy_loop fuel (drop n bs)
  | _, _ => []
  end.
Definition from_utf8_lossy (bs : bytes) : bytes := lossy_loop (length bs) bs.

Fixpoint utf8_loop (fuel : nat) (bs : bytes) : bool :=
  match fuel, bs with
  | S fuel, _ :: _ => let '(ok, n) := utf8_step bs in ok && utf8_loop fuel (drop n bs)
  | O, _ :: _ => false
  | _, [] => true
  end.
(** [String::from_utf8]. *)
Definition from_utf8 (bs : bytes) : option bytes :=
  if utf8_loop (length bs) bs then Some bs else None.

Lemma utf8_loop_lossy fuel bs : utf8_loop fuel bs = true -> lossy_loop fuel bs = bs.
Proof.
  revert bs; induction fuel as [|fuel IH]; intros [|b bs]; [done..|]. cbn [utf8_loop lossy_loop].
  destruct (utf8_step (b :: bs)) as [ok n]. intros [-> Hr]%andb_true_iff.
  rewrite (IH _ Hr). apply take_drop.
Qed.

(** Text is its own lossy conversion. *)
Lemma from_utf8_lossy_valid bs s : from_utf8 bs = Some s -> s = bs /\ from_utf8_lossy bs = bs.
Proof.
  unfold from_utf8, from_utf8_lossy. destruct (utf8_loop _ _) eqn:E; [|done]. intros [= <-].
  split; [done|]. by apply utf8_loop_lossy.
Qed.

(** A byte 0xFF is never part of text, as [prefix_end] relies on. *)
Lemma is_continuation_lt x : is_continuation x = true -> x < 0xFF.
Proof. unfold is_continuation, between. bool_lia. Qed.
Lemma second_of_3_lt b x : second_of_3 b x = true -> x < 0xFF.
Proof.
  unfold second_of_3. destruct (b =? 0xE0); [|destruct (b =? 0xED)]; [unfold between; bool_lia..|].
  apply is_continuation_lt.
Qed.
Lemma second_of_4_lt b x : second_of_4 b x = true -> x < 0xFF.
Proof.
  unfold second_of_4. destruct (b =? 0xF0); [|destruct (b =? 0xF4)]; [unfold between; bool_lia..|].
  apply is_continuation_lt.
Qed.

Lemma utf8_step_lt bs n i : utf8_step bs = (true, n) -> (i < n)%nat -> safe_get bs i < 0xFF.
Proof.
  unfold utf8_step. intros Hs Hi.
  destruct (Z.ltb_spec (safe_get bs 0) 0x80).
  { injection Hs as <-. assert (i = 0%nat) as -> by lia. lia. }
  destruct (between 0xC2 0xDF (safe_get bs 0)) eqn:E2.
  { destruct (is_continuation (safe_get bs 1)) eqn:C1; [|done]. injection Hs as <-.
    apply is_continuation_lt in C1. unfold between in E2. bool_prop.
    do 2 (destruct i as [|i]; [lia|]). lia. }
  destruct (between 0xE0 0xEF (safe_get bs 0)) eqn:E3.
  { destruct (second_of_3 _ _) eqn:C1; [|done]. destruct (is_continuation (safe_get bs 2)) eqn:C2; [|done].
    injection Hs as <-. apply second_of_3_lt in C1. apply is_continuation_lt in C2.
    unfold between in E3. bool_prop. do 3 (destruct i as [|i]; [lia|]). lia. }
  destruct (between 0xF0 0xF4 (safe_get bs 0)) eqn:E4; [|done].
  destruct (second_of_4 _ _) eqn:C1; [|done]. destruct (is_continuation (safe_get bs 2)) eqn:C2; [|done].
  destruct (is_continuation (safe_get bs 3)) eqn:C3; [|done].
  injection Hs as <-. apply second_of_4_lt in C1. apply is_continuation_lt in C2, C3.
  unfold between in E4. bool_prop. do 4 (destruct i as [|i]; [lia|]). lia.
Qed.

Lemma utf8_loop_no_ff fuel bs : utf8_loop fuel bs = true -> Byte.xff ∉ bs.
Proof.
  revert bs; induction fuel as [|fuel IH]; intros bs; [destruct bs; [set_solver|done]|].
  destruct bs as [|b bs]; [set_solver|]. cbn [utf8_loop].
  destruct (utf8_step (b :: bs)) as [ok n] eqn:Es. intros [-> Hr]%andb_true_iff.
  rewrite <- (take_drop n (b :: bs)), elem_of_app. intros [Hin|Hin]; [|by eapply IH].
  apply list_elem_of_lookup in Hin as [i Hi]. apply lookup_take_Some in Hi as [Hi Hin].
  pose proof (utf8_step_lt _ _ _ Es Hin) as Hlt. unfold safe_get in Hlt. rewrite Hi in Hlt.
  by vm_compute in Hlt.
Qed.
