(* ===== verification/Text.v ===== *)
(** * Text: the string functions of the standard library the parsers use

    Texts are their UTF-8 bytes.  White space is that of Unicode ([White_Space]),
    as [str::trim] has it; separators are ASCII, so that cutting a text at them
    never splits a character. *)
From Stdlib Require Import ZArith Lia.
From stdpp Require Import base tactics numbers list.
From S2P Require Import Prelude Bytes Utf8.
Local Open Scope Z_scope.

(** ** White space *)

Definition ascii_space (b : byte) : bool :=
  let x := byte_to_Z b in ((9 <=? x) && (x <=? 13)) || (x =? 32).

(** The last byte of a space U+2000..U+200A, U+2028, U+2029, U+202F. *)
Definition general_space (b : byte) : bool :=
  let x := byte_to_Z b in
  ((0x80 <=? x) && (x <=? 0x8A)) || (x =? 0xA8) || (x =? 0xA9) || (x =? 0xAF).

(** The length of the white-space character a text starts with, zero if none. *)
Definition space_len (s : bytes) : nat :=
  match s with
  | [] => 0
  | b :: rest =>
      if ascii_space b then 1
      else match b, rest with
           | Byte.xc2, Byte.x85 :: _ | Byte.xc2, Byte.xa0 :: _ => 2
           | Byte.xe1, Byte.x9a :: Byte.x80 :: _ => 3
           | Byte.xe2, Byte.x80 :: c :: _ => if general_space c then 3 else 0
           | Byte.xe2, Byte.x81 :: Byte.x9f :: _ => 3
           | Byte.xe3, Byte.x80 :: Byte.x80 :: _ => 3
           | _, _ => 0
           end
  end.

(** The same for the end of a text, reversed. *)
Definition space_len_rev (s : bytes) : nat :=
  match s with
  | [] => 0
  | b :: rest =>
      if ascii_space b then 1
      else match b, rest with
           | Byte.x85, Byte.xc2 :: _ | Byte.xa0, Byte.xc2 :: _ => 2
           | Byte.x80, Byte.x9a :: Byte.xe1 :: _ => 3
           | Byte.x9f, Byte.x81 :: Byte.xe2 :: _ => 3
           | Byte.x80, Byte.x80 :: Byte.xe3 :: _ => 3
           | c, Byte.x80 :: Byte.xe2 :: _ => if general_space c then 3 else 0
           | _, _ => 0
           end
  end.

Fixpoint trim_with (f : bytes -> nat) (fuel : nat) (s : bytes) : bytes :=
  match fuel with
  | O => s
  | S fuel => match f s with O => s | n => trim_with f fuel (drop n s) end
  end.

(** [str::trim_start], [trim_end] and [trim]. *)
Definition str_trim_start (s : bytes) : bytes := trim_with space_len (length s) s.
Definition str_trim_end (s : bytes) : bytes := reverse (trim_with space_len_rev (length s) (reverse s)).
Definition str_trim (s : bytes) : bytes := str_trim_end (str_trim_start s).

(** ** Searching and cutting *)

(** [s.find(pattern)], an offset. *)
Fixpoint find (pattern s : bytes) : option nat :=
  if starts_with s pattern then Some 0%nat
  else match s with
       | [] => None
       | _ :: s => S <$> find pattern s
       end.

(** [s.split_once(c)] for an ASCII character. *)
Definition split_once (c : byte) (s : bytes) : option (bytes * bytes) :=
  match find [c] s with
  | Some n => Some (take n s, drop (S n) s)
  | None => None
  end.

(** [s.strip_prefix(prefix)]. *)
Definition str_strip_prefix (prefix s : bytes) : option bytes :=
  if starts_with s prefix then Some (drop (length prefix) s) else None.

(** [trim_start_matches(c)], [trim_end_matches(c)] and [trim_matches(c)]. *)
Fixpoint trim_start_matches (c : byte) (s : bytes) : bytes :=
  match s with
  | b :: s' => if decide (b = c) then trim_start_matches c s' else s
  | [] => []
  end.
Definition trim_end_matches (c : byte) (s : bytes) : bytes := reverse (trim_start_matches c (reverse s)).
Definition trim_matches (c : byte) (s : bytes) : bytes := trim_end_matches c (trim_start_matches c s).

(** [str::lines]: cut at line feeds, without a carriage return before one, and
    without the empty line a final line feed leaves. *)
Definition strip_cr (line : bytes) : bytes :=
  match reverse line with Byte.x0d :: rest => reverse rest | _ => line end.
Fixpoint lines_of (segments : list bytes) : list bytes :=
  match segments with
  | [] => []
  | [last] => match last with [] => [] | _ => [last] end
  | line :: rest => strip_cr line :: lines_of rest
  end.
Definition lines (s : bytes) : list bytes := lines_of (split_byte Byte.x0a s).

(** ** Facts *)

Lemma find_spec pattern s n :
  find pattern s = Some n -> starts_with (drop n s) pattern = true /\ (n <= length s)%nat.
Proof.
  revert n; induction s as [|b s IH]; intros n; cbn [find].
  - destruct (starts_with [] pattern) eqn:E; [|done]. intros [= <-]. done.
  - destruct (starts_with (b :: s) pattern) eqn:E; [intros [= <-]; split; [done|cbn; lia]|].
    intros (k & Hk & ->)%fmap_Some. destruct (IH k Hk). cbn [drop length]. split; [done|lia].
Qed.

Lemma trim_with_suffix f fuel s : exists p, s = p ++ trim_with f fuel s.
Proof.
  revert s; induction fuel as [|fuel IH]; intros s; cbn; [by exists []|].
  destruct (f s) as [|n]; [by exists []|]. destruct (IH (drop (S n) s)) as [p Hp].
  exists (take (S n) s ++ p). rewrite <- app_assoc, <- Hp. by rewrite take_drop.
Qed.

(** What trimming leaves is part of the text. *)
Lemma str_trim_infix s : exists p q, s = p ++ str_trim s ++ q.
Proof.
  unfold str_trim, str_trim_end. destruct (trim_with_suffix space_len (length s) s) as [p Hp].
  fold (str_trim_start s) in Hp. set (t := str_trim_start s) in *.
  destruct (trim_with_suffix space_len_rev (length t) (reverse t)) as [q Hq].
  exists p, (reverse q). rewrite Hp at 1. f_equal.
  rewrite <- reverse_app, <- Hq. by rewrite reverse_involutive.
Qed.

(** ASCII is text. *)
Definition is_ascii (b : byte) : Prop := byte_to_Z b < 128.

Lemma ascii_utf8_loop n bs : (length bs <= n)%nat -> Forall is_ascii bs -> utf8_loop n bs = true.
Proof.
  intros Hn Hb. revert n Hn; induction Hb as [|b bs Hb Hbs IH]; intros [|n] Hn; [done|done|cbn in Hn; lia|].
  cbn [utf8_loop]. unfold utf8_step. change (safe_get (b :: bs) 0) with (byte_to_Z b).
  rewrite (proj2 (Z.ltb_lt _ _)) by exact Hb. cbn [drop andb]. apply IH. cbn in Hn. lia.
Qed.

Lemma ascii_text bs : Forall is_ascii bs -> from_utf8 bs = Some bs.
Proof. intros Hb. unfold from_utf8. by rewrite ascii_utf8_loop. Qed.

Lemma ascii_lossy bs : Forall is_ascii bs -> from_utf8_lossy bs = bs.
Proof. intros Hb. by apply (from_utf8_lossy_valid bs bs), ascii_text. Qed.

(** [find] gives the first occurrence. *)
Lemma find_first pattern s n k :
  find pattern s = Some n -> (k < n)%nat -> starts_with (drop k s) pattern = false.
Proof.
  revert n k; induction s as [|b s IH]; intros n k; cbn [find].
  - destruct (starts_with [] pattern); [|done]. intros [= <-]. lia.
  - destruct (starts_with (b :: s) pattern) eqn:E; [intros [= <-]; lia|].
    intros (j & Hj & ->)%fmap_Some Hk. destruct k as [|k]; [done|]. cbn [drop]. apply (IH j); [done|lia].
Qed.

Lemma find_none pattern s k : find pattern s = None -> starts_with (drop k s) pattern = false.
Proof.
  revert k; induction s as [|b s IH]; intros k; cbn [find].
  - rewrite drop_nil. by destruct (starts_with [] pattern).
  - destruct (starts_with (b :: s) pattern) eqn:E; [done|].
    intros Hn%fmap_None. destruct k as [|k]; [done|]. by apply IH.
Qed.

(** A text that starts with a prefix is the prefix and the rest. *)
Lemma starts_with_split s p : starts_with s p = true -> s = p ++ drop (length p) s.
Proof. intros (r & ->)%starts_with_spec. by rewrite drop_app_length. Qed.

(** ** Unicode tables *)

Definition ascii_alphanumeric (b : byte) : bool :=
  let x := byte_to_Z b in
  ((48 <=? x) && (x <=? 57)) || ((65 <=? x) && (x <=? 90)) || ((97 <=? x) && (x <=? 122)).
Definition ascii_lower (b : byte) : byte :=
  let x := byte_to_Z b in if (65 <=? x) && (x <=? 90) then byte_of_Z (x + 32) else b.

(** [str::to_lowercase] and [char::is_alphanumeric], a character being its bytes:
    tables of the Unicode standard, of which the ASCII part is
    fixed here; lowering a text makes no colons. *)
Class Unicode := {
  to_lowercase : bytes -> bytes;
  is_alphanumeric : bytes -> bool;
  to_lowercase_no_colon s : Byte.x3a ∉ s -> Byte.x3a ∉ to_lowercase s;
  to_lowercase_ascii s : Forall is_ascii s -> to_lowercase s = ascii_lower <$> s;
  is_alphanumeric_ascii b : is_ascii b -> is_alphanumeric [b] = ascii_alphanumeric b;
}.

(** [s.chars()], each as its bytes. *)
Fixpoint chars_loop (fuel : nat) (bs : bytes) : list bytes :=
  match fuel, bs with
  | S fuel, _ :: _ =>
      let '(ok, n) := utf8_step bs in
      (if ok then take n bs else replacement) :: chars_loop fuel (drop n bs)
  | _, _ => []
  end.
Definition chars (s : bytes) : list bytes := chars_loop (length s) s.

(** [s.is_char_boundary(i)]. *)
Definition is_char_boundary (s : bytes) (i : nat) : bool :=
  match s !! i with
  | Some b => negb (is_continuation (byte_to_Z b))
  | None => (i =? length s)%nat
  end.

(** [&s[start..stop]], which panics out of range or inside a character. *)
Definition str_slice (s : bytes) (start stop : nat) : outcome bytes :=
  if ((start <=? stop) && (stop <=? length s))%nat && is_char_boundary s start && is_char_boundary s stop
  then Ok (take (stop - start) (drop start s)) else Panic.

Lemma ascii_char_boundary s i : Forall is_ascii s -> (i <= length s)%nat -> is_char_boundary s i = true.
Proof.
  intros Hs Hi. unfold is_char_boundary. destruct (s !! i) as [b|] eqn:E.
  - rewrite Forall_forall in Hs. apply list_elem_of_lookup_2, Hs in E. unfold is_ascii in E.
    unfold is_continuation, between. rewrite (proj2 (Z.leb_gt _ _)) by lia. done.
  - apply lookup_ge_None in E. apply Nat.eqb_eq. lia.
Qed.

(** A character of more than one byte has no ASCII byte. *)
Lemma second_of_3_high b x : second_of_3 b x = true -> 0x80 <= x.
Proof. unfold second_of_3, is_continuation, between. repeat case_match; bool_lia. Qed.
Lemma second_of_4_high b x : second_of_4 b x = true -> 0x80 <= x.
Proof. unfold second_of_4, is_continuation, between. repeat case_match; bool_lia. Qed.
Lemma is_continuation_high x : is_continuation x = true -> 0x80 <= x.
Proof. unfold is_continuation, between. bool_lia. Qed.

Lemma utf8_step_high bs n i : utf8_step bs = (true, n) -> (i < n)%nat -> n = 1%nat \/ 0x80 <= safe_get bs i.
Proof.
  unfold utf8_step. intros Hs Hi. destruct (Z.ltb_spec (safe_get bs 0) 0x80); [left; by injection Hs|right].
  repeat match type of Hs with context [if ?c then _ else _] => destruct c eqn:? end; try done;
    injection Hs as <-;
    repeat match goal with
    | H : second_of_3 _ _ = true |- _ => apply second_of_3_high in H
    | H : second_of_4 _ _ = true |- _ => apply second_of_4_high in H
    | H : is_continuation _ = true |- _ => apply is_continuation_high in H
    end; do 4 (destruct i as [|i]; [lia|]); lia.
Qed.

Lemma chars_ascii s c b : c ∈ chars s -> b ∈ c -> is_ascii b -> c = [b].
Proof.
  unfold chars, is_ascii. generalize (length s) as fuel. intros fuel. revert s; induction fuel as [|fuel IH]; intros s.
  { intros []%elem_of_nil. }
  destruct s as [|x s]; [intros []%elem_of_nil|]. cbn [chars_loop].
  destruct (utf8_step (x :: s)) as [ok n] eqn:Es. intros [->|Hc]%elem_of_cons Hb Ha; [|by eapply IH].
  destruct ok; [|by repeat (apply elem_of_cons in Hb as [->|Hb]; [by vm_compute in Ha|]); apply elem_of_nil in Hb].
  apply list_elem_of_lookup in Hb as [i Hi]. apply lookup_take_Some in Hi as [Hi Hin].
  destruct (utf8_step_high _ _ _ Es Hin) as [->|Hh].
  - assert (i = 0%nat) as -> by lia. injection Hi as ->. done.
  - unfold safe_get in Hh. rewrite Hi in Hh. lia.
Qed.

(** Text after ASCII is text. *)
Lemma ascii_app_text a b : Forall is_ascii a -> is_Some (from_utf8 b) -> is_Some (from_utf8 (a ++ b)).
Proof.
  unfold from_utf8. intros Ha Hb. enough (utf8_loop (length (a ++ b)) (a ++ b) = true) as -> by done.
  destruct (utf8_loop (length b) b) eqn:E; [|by destruct Hb]. clear Hb.
  induction Ha as [|x a Hx _ IH]; [done|]. cbn [app length utf8_loop]. unfold utf8_step.
  change (safe_get (x :: a ++ b) 0) with (byte_to_Z x). rewrite (proj2 (Z.ltb_lt _ _)) by exact Hx. exact IH.
Qed.

Lemma text_lossy s : is_Some (from_utf8 s) -> from_utf8_lossy s = s.
Proof. intros [t Ht]. by apply (from_utf8_lossy_valid s t). Qed.
