(* ===== verification/Engine.v ===== *)
(** * Engine: the operations of the store ([src/src/core/engine/mod.rs])

    [EngineCore], the state behind the engine's lock, and the operations of
    [Engine] on it: writes, deletes, range deletes, batches, point reads, scans,
    prefix searches, secondary indexes, flushes and the replay of the log.  An
    operation is a state transformer [M]: it returns an outcome and the state it
    leaves, also when it fails.  The clock is a stream of readings, one consumed
    per [SystemTime::now()].  Operations run one after the other; the three
    phases of a write (log handle, log append, memtable insert) are its steps in
    that order. *)
From Stdlib Require Import ZArith Lia QArith.
From stdpp Require Import base tactics numbers list gmap strings sorting pretty.
From S2P Require Import Prelude Bytes SortedMap LogRecord Iterators.
From S2P Require Import MemTable Extern Encryption SstReader Wal Table.
From S2P Require Import VersionSet Utf8.
Local Open Scope Z_scope.

Definition DEFAULT_SCAN_LIMIT : Z := 128.
Definition MAX_SCAN_LIMIT : Z := 10000.
Definition MAX_KEY_SIZE : Z := 4096.
Definition MAX_VALUE_SIZE : Z := 16 * 1024 * 1024.

(** String literals as byte strings. *)
Definition lit (s : string) : bytes := String.list_byte_of_string s.
Lemma lit_app a b : lit (a +:+ b) = lit a ++ lit b.
Proof. induction a as [|c a IH]; [done|]. change (lit (String c a +:+ b)) with (lit (String c "") ++ lit (a +:+ b)). by rewrite IH. Qed.
Definition TTL_PREFIX : bytes := lit "__ttl:".
Definition INDEX_PREFIX : bytes := lit "__idx:".
Definition schema_prefix : bytes := INDEX_PREFIX ++ lit "__schema:index:".

(** [format!("__ttl:{}", String::from_utf8_lossy(key))]. *)
Definition ttl_key (k : bytes) : bytes := TTL_PREFIX ++ from_utf8_lossy k.

(** [format!("{}index:{}:{}:{}", INDEX_PREFIX, field, value, lossy key)]. *)
Definition index_entry (field v k : bytes) : bytes :=
  INDEX_PREFIX ++ lit "index:" ++ field ++ lit ":" ++ v ++ lit ":" ++ from_utf8_lossy k.

(** [CompactionStrategyType] and [CompactionOptions]
    ([src/src/core/engine/compaction.rs]). *)
Inductive CompactionStrategyType : Set :=
| SizeTiered
| Leveled
| LazyLeveling.
Record CompactionOptions := mkCompactionOptions {
  strategy_type : CompactionStrategyType;
  compaction_threshold : nat;
  max_tables_per_compaction : nat;
  max_concurrent_compactions : nat;
}.
Definition CompactionOptions_default : CompactionOptions :=
  {| strategy_type := SizeTiered; compaction_threshold := 4;
     max_tables_per_compaction := 8; max_concurrent_compactions := 2 |}.

(** The fields of [EngineOptions] the operations read; durations in
    nanoseconds. *)
Record EngineOptions := mkEngineOptions {
  write_buffer_size : Z;
  max_write_buffer_number : Z;
  compaction_options : CompactionOptions;
  default_ttl : option Z;
  eo_encryption : EncryptionConfig;
  eo_wal_sync_interval : Z;
}.

(** [serde_json::from_slice] on a value, and [get(field)] with [as_str] on the
    document; the empty string is not a JSON document. *)
Class SerdeJson := {
  json_str_field : bytes -> option (bytes -> option bytes);
  json_empty : json_str_field [] = None;
}.

(** The options, the clock, and the entropy source of the log of a column
    family. *)
Class EngineEnv := {
  options : EngineOptions;
  clock : nat -> Z;
  wal_entropy : string -> nat -> option bytes;
}.

(** A source of a scan: a memtable, the records of an SSTable, or the values of
    an in-memory table. *)
Abbreviation scan_source := (MemTableIterator + (MemTableIterator + TableIterator))%type.

Section engine.
Context `{!Crc32, !Aead, !Postcard LogRecord, !Postcard LogRecordV0, !Postcard LogRecordV1}.
Context `{!BloomCrate} `{!SstStore} `{!Moka bytes bytes} `{!SerdeJson} `{!EngineEnv}.

(** [struct EngineCore], with the SSTable directory, the number of SSTables
    written, of clock readings made and of background compactions asked for. *)
Record EngineCore := mkEngineCore {
  memtables : gmap string (list MemTable);
  memtable_bytes : gmap string Z;
  version_set : VersionSet;
  wals : gmap string WriteAheadLog;
  core_range_tombstones : gmap string (list RangeTombstone);
  disk : gmap string SstFile;
  sst_writes : nat;
  ticks : nat;
  compactions_asked : nat;
}.

(** [new_generic] on an empty directory. *)
Definition EngineCore_new : EngineCore :=
  {| memtables := ∅; memtable_bytes := ∅; version_set := VersionSet_new true; wals := ∅;
     core_range_tombstones := ∅; disk := ∅; sst_writes := 0; ticks := 0; compactions_asked := 0 |}.

(** ** State and errors *)

Definition M (A : Type) : Type := EngineCore -> outcome A * EngineCore.
#[global] Instance M_ret : MRet M := fun A a s => (Ok a, s).
#[global] Instance M_bind : MBind M := fun A B k m s =>
  match m s with
  | (Ok a, s) => k a s
  | (Err e, s) => (Err e, s)
  | (Panic, s) => (Panic, s)
  end.
Definition fail {A} (e : LsmError) : M A := fun s => (Err e, s).
Definition lift {A} (o : outcome A) : M A := fun s => (o, s).
Definition query {A} (f : EngineCore -> outcome A) : M A := fun s => (f s, s).
Definition modify (f : EngineCore -> EngineCore) : M unit := fun s => (Ok tt, f s).
Definition gets {A} (f : EngineCore -> A) : M A := fun s => (Ok (f s), s).
(** [if let Ok(Some(v)) = m] and [if let Err(e) = m { warn }]: the error is
    dropped, the effects stay. *)
Definition ok_value {A} (m : M (option A)) : M (option A) := fun s =>
  match m s with (Err _, s) => (Ok None, s) | r => r end.
Definition warn_on_err (m : M unit) : M unit := fun s =>
  match m s with (Err _, s) => (Ok tt, s) | r => r end.

(** Updates of one field. *)
Definition on_memtables (f : gmap string (list MemTable) -> gmap string (list MemTable)) (s : EngineCore) : EngineCore :=
  {| memtables := f (memtables s); memtable_bytes := memtable_bytes s; version_set := version_set s;
     wals := wals s; core_range_tombstones := core_range_tombstones s; disk := disk s;
     sst_writes := sst_writes s; ticks := ticks s; compactions_asked := compactions_asked s |}.
Definition on_memtable_bytes (f : gmap string Z -> gmap string Z) (s : EngineCore) : EngineCore :=
  {| memtables := memtables s; memtable_bytes := f (memtable_bytes s); version_set := version_set s;
     wals := wals s; core_range_tombstones := core_range_tombstones s; disk := disk s;
     sst_writes := sst_writes s; ticks := ticks s; compactions_asked := compactions_asked s |}.
Definition on_version_set (f : VersionSet -> VersionSet) (s : EngineCore) : EngineCore :=
  {| memtables := memtables s; memtable_bytes := memtable_bytes s; version_set := f (version_set s);
     wals := wals s; core_range_tombstones := core_range_tombstones s; disk := disk s;
     sst_writes := sst_writes s; ticks := ticks s; compactions_asked := compactions_asked s |}.
Definition on_wals (f : gmap string WriteAheadLog -> gmap string WriteAheadLog) (s : EngineCore) : EngineCore :=
  {| memtables := memtables s; memtable_bytes := memtable_bytes s; version_set := version_set s;
     wals := f (wals s); core_range_tombstones := core_range_tombstones s; disk := disk s;
     sst_writes := sst_writes s; ticks := ticks s; compactions_asked := compactions_asked s |}.
Definition on_range_tombstones (f : gmap string (list RangeTombstone) -> gmap string (list RangeTombstone)) (s : EngineCore) : EngineCore :=
  {| memtables := memtables s; memtable_bytes := memtable_bytes s; version_set := version_set s;
     wals := wals s; core_range_tombstones := f (core_range_tombstones s); disk := disk s;
     sst_writes := sst_writes s; ticks := ticks s; compactions_asked := compactions_asked s |}.
(** A new SSTable file. *)
Definition add_file (path : string) (file : SstFile) (s : EngineCore) : EngineCore :=
  {| memtables := memtables s; memtable_bytes := memtable_bytes s; version_set := version_set s;
     wals := wals s; core_range_tombstones := core_range_tombstones s; disk := <[path := file]> (disk s);
     sst_writes := S (sst_writes s); ticks := ticks s; compactions_asked := compactions_asked s |}.
(** A file taken out of the SSTable directory. *)
Definition remove_file (path : string) (s : EngineCore) : EngineCore :=
  {| memtables := memtables s; memtable_bytes := memtable_bytes s; version_set := version_set s;
     wals := wals s; core_range_tombstones := core_range_tombstones s; disk := delete path (disk s);
     sst_writes := sst_writes s; ticks := ticks s; compactions_asked := compactions_asked s |}.
Definition tick (s : EngineCore) : EngineCore :=
  {| memtables := memtables s; memtable_bytes := memtable_bytes s; version_set := version_set s;
     wals := wals s; core_range_tombstones := core_range_tombstones s; disk := disk s;
     sst_writes := sst_writes s; ticks := S (ticks s); compactions_asked := compactions_asked s |}.
Definition ask_compaction (s : EngineCore) : EngineCore :=
  {| memtables := memtables s; memtable_bytes := memtable_bytes s; version_set := version_set s;
     wals := wals s; core_range_tombstones := core_range_tombstones s; disk := disk s;
     sst_writes := sst_writes s; ticks := ticks s; compactions_asked := S (compactions_asked s) |}.

(** [SystemTime::now()], in nanoseconds since the epoch. *)
Definition now : M Z := fun s => (Ok (clock (ticks s)), tick s).

(** [maybe_compact]: background compaction is asked for; it runs as a step of
    its own, if at all. *)
Definition maybe_compact : M unit := modify ask_compaction.

(** ** Logs and memtables *)

(** [wal_handle] and [wal_mut]: the log of a column family, created on first
    use.  Startup opens every log file there is, so that a log not in the map
    has no file yet. *)
Definition wal_handle (cf : string) : M WriteAheadLog :=
  ws ← gets wals;
  match ws !! cf with
  | Some w => mret w
  | None =>
      let w := set_sync_interval (wal_open [] (eo_encryption options) (wal_entropy cf))
                                 (eo_wal_sync_interval options) in
      modify (on_wals <[cf := w]>);; mret w
  end.

(** An operation on the log; a failing one leaves it as it was. *)
Definition wal_apply (cf : string) (op : WriteAheadLog -> outcome WriteAheadLog) : M unit :=
  w ← wal_handle cf;
  w' ← lift (op w);
  modify (on_wals <[cf := w']>).

(** [memtables.entry(cf).or_default()], a table pushed when it is empty, and an
    update of the last one. *)
Definition with_last (f : MemTable -> MemTable) (mems : list MemTable) : list MemTable :=
  let mems := match mems with [] => [new_unlimited] | _ => mems end in
  alter f (pred (length mems)) mems.
Definition update_memtable (cf : string) (f : MemTable -> MemTable) : M unit :=
  modify (on_memtables (fun m => <[cf := with_last f (default [] (m !! cf))]> m)).

(** [*memtable_bytes.entry(cf).or_default() += n]. *)
Definition add_memtable_bytes (cf : string) (n : Z) : M unit :=
  modify (on_memtable_bytes (fun m => <[cf := default 0 (m !! cf) + n]> m)).

(** ** Flush *)

(** The file name of a flush: [flush_<timestamp>.sst]. *)
Definition flush_path (timestamp : Z) : string :=
  "flush_" +:+ pretty (Z.to_N timestamp) +:+ ".sst".

(** The entries of the SSTable: unexpired records, each with an expiry followed
    by its [__ttl:] entry. *)
Fixpoint flush_entries (at_ : Z) (sorted : list (bytes * LogRecord)) : M (list (bytes * LogRecord)) :=
  match sorted with
  | [] => mret []
  | (k, record) :: sorted =>
      if is_expired_at record at_ then flush_entries at_ sorted
      else match expires_at record with
           | None => rest ← flush_entries at_ sorted; mret ((k, record) :: rest)
           | Some expires =>
               t ← now;
               rest ← flush_entries at_ sorted;
               mret ((k, record) :: (ttl_key k, LogRecord_new t (ttl_key k) (u128_le expires)) :: rest)
           end
  end.

(** The in-memory values of the flushed table: the unexpired ones and the
    [__ttl:] entries. *)
Definition flush_raw_data (at_ : Z) (mem : MemTable) (combined : list (bytes * LogRecord))
    : gmap bytes bytes :=
  foldl (fun (m : gmap bytes bytes) e =>
           if starts_with e.1 TTL_PREFIX then <[e.1 := value e.2]> m else m)
        (value <$> filter (fun kr => is_expired_at kr.2 at_ = false) (data mem)) combined.

(** [SstableBuilder] on a file of the SSTable directory: new, add for each
    entry, finish.  A build that fails leaves what it had written. *)
Definition write_sst (path : string) (at_ : Z) (es : list (bytes * LogRecord)) : M SstFile :=
  n ← gets sst_writes;
  match sst_write n at_ es with
  | Ok file => modify (add_file path file);; mret file
  | failed => modify (add_file path (sst_remains n at_ es));; lift failed
  end.

(** Building, reopening and registering the SSTable of a memtable that was
    taken out. *)
Definition flush_table (cf : string) (mem : MemTable) : M bool :=
  at_ ← now;
  let path := flush_path at_ in
  combined ← flush_entries at_ (sort_entries (map_to_list (data mem)));
  let combined := sort_entries combined in
  file ← write_sst path at_ combined;
  table ← lift (from_sstable_path path file);
  let table := {| t_data := flush_raw_data at_ mem combined; t_level := 0; t_path := t_path table;
                  t_min_key := t_min_key table; t_max_key := t_max_key table;
                  t_bloom := t_bloom table |} in
  modify (on_version_set (fun vs => add_table vs cf table));;
  bytes_of ← gets memtable_bytes;
  match bytes_of !! cf with
  | None => fail InvalidArgument
  | Some _ =>
      modify (on_memtable_bytes <[cf := 0]>);;
      wal_apply cf (fun w => Ok (wal_clear w));;
      vs ← gets version_set;
      mret (compaction_threshold (compaction_options options) <? table_count vs cf)%nat
  end.

(** [flush_memtable_impl]; whether compaction is worth asking for. *)
Definition flush_memtable_impl (cf : string) : M bool :=
  mems ← gets memtables;
  match mems !! cf with
  | None => mret false
  | Some mems =>
      match last mems with
      | None => mret false
      | Some mem =>
          if mem_is_empty mem then wal_apply cf (fun w => Ok (wal_sync w));; mret false
          else modify (on_memtables <[cf := removelast mems]>);; flush_table cf mem
      end
  end.

(** [flush_memtable_cf]. *)
Definition flush_memtable_cf (cf : string) : M unit := flush_memtable_impl cf;; mret tt.

(** [write_buffer_size * max_write_buffer_number] in [usize]. *)
Definition write_buffer_limit : Z := as_u64 (write_buffer_size options * max_write_buffer_number options).

(** The flush a write triggers when the buffer is full. *)
Definition flush_if_full (cf : string) : M bool :=
  bytes_of ← gets memtable_bytes;
  if write_buffer_limit <=? default 0 (bytes_of !! cf)
  then flush_memtable_impl cf
  else mret false.

(** ** Point reads *)

(** [covering_range_tombstone_ts]. *)
Definition covering_range_tombstone_ts (s : EngineCore) (cf : string) (k : bytes) : option Z :=
  let engine_level := max_covering (default [] (core_range_tombstones s !! cf)) k in
  let memtable_level :=
    maxZ_list (omap (fun mem => max_covering_range_tombstone mem k) (default [] (memtables s !! cf))) in
  match engine_level, memtable_level with
  | Some a, Some b => Some (Z.max a b)
  | Some a, None => Some a
  | None, b => b
  end.

(** The newest memtable that has the key. *)
Fixpoint memtables_get (mems : list MemTable) (k : bytes) : option LogRecord :=
  match mems with
  | [] => None
  | mem :: mems => match data mem !! k with Some v => Some v | None => memtables_get mems k end
  end.

(** [version_set().get(cf, key)]. *)
Definition version_set_get (cf : string) (k : bytes) : M (option bytes) :=
  t ← now;
  res ← gets (fun s => vs_get (disk s) t (version_set s) cf k);
  modify (on_version_set (fun _ => res.2));;
  lift res.1.

(** The expiry side entry of a value found in a table. *)
Definition check_ttl_entry (cf : string) (k : bytes) (result : option bytes) : M (option bytes) :=
  match result with
  | None => mret None
  | Some _ =>
      ttl_value ← version_set_get cf (ttl_key k);
      match ttl_value with
      | Some ttl_value =>
          if len ttl_value =? 16 then
            t ← now;
            mret (if from_le_bytes ttl_value <=? t then None else result)
          else mret result
      | None => mret result
      end
  end.

(** [get_cf]. *)
Definition get_cf (cf : string) (k : bytes) : M (option bytes) :=
  covering ← gets (fun s => covering_range_tombstone_ts s cf k);
  found ← gets (fun s => memtables_get (reverse (default [] (memtables s !! cf))) k);
  match found with
  | Some v =>
      if match covering with Some ts => timestamp v <? ts | None => false end then mret None
      else if is_deleted v then mret None
      else t ← now; mret (if is_expired_at v t then None else Some (value v))
  | None =>
      result ←
        match covering with
        | Some tombstone_ts =>
            record ← query (fun s => get_record (disk s) (version_set s) cf k);
            match record with
            | None => mret None
            | Some record =>
                t ← now;
                mret (if negb (is_deleted record) && negb (is_expired_at record t)
                         && (tombstone_ts <=? timestamp record)
                      then Some (value record) else None)
            end
        | None => version_set_get cf k
        end;
      check_ttl_entry cf k result
  end.

(** ** Scans *)

(** Whether the current version of the merge is visible at [t]; only a version
    without a record consults the [__ttl:] entries. *)
Definition visible_version (cf : string) (t : Z) (k : bytes) (v : bytes) (record : option LogRecord)
    : M bool :=
  let deleted := match record with
                 | None => bytes_eqb v []
                 | Some r => is_deleted r || is_expired_at r t
                 end in
  covering ← gets (fun s => covering_range_tombstone_ts s cf k);
  let covered := match covering with
                 | None => false
                 | Some ts => match record with None => true | Some r => timestamp r <? ts end
                 end in
  legacy_expired ←
    match record with
    | Some _ => mret false
    | None =>
        entry ← version_set_get cf (ttl_key k);
        mret (match entry with
              | Some e => (len e =? 16) && (from_le_bytes e <=? t)
              | None => false
              end)
    end;
  mret (negb deleted && negb covered && negb legacy_expired).

(** The loop of [for_each_visible_record]; [visible] counts the visits and the
    pairs visited are returned in order. *)
Fixpoint visible_loop (fuel : nat) (cf : string) (t : Z) (lower upper : option bytes) (limit : Z)
    (merged : MergeIterator scan_source) (visible : Z) : M (list (bytes * bytes)) :=
  match fuel with
  | O => mret []
  | S fuel =>
      if negb (mi_is_valid merged && (visible <? limit)) then mret []
      else
        let k := mi_key merged in
        if match upper with Some ub => bytes_leb ub k | None => false end then mret []
        else if match lower with Some lb => bytes_ltb k lb | None => false end
                || starts_with k TTL_PREFIX
        then visible_loop fuel cf t lower upper limit (mi_next merged) visible
        else
          shown ← visible_version cf t k (mi_value merged) (mi_record merged);
          if (shown : bool)
          then rest ← visible_loop fuel cf t lower upper limit (mi_next merged) (visible + 1);
               mret ((k, mi_value merged) :: rest)
          else visible_loop fuel cf t lower upper limit (mi_next merged) visible
  end.

(** The sources of a scan, newest first. *)
Definition scan_sources (mems : list MemTable) (table_iters : list (MemTableIterator + TableIterator))
    : list scan_source :=
  ((fun mem => inl (mem_iter mem)) <$> mems) ++ (inr <$> table_iters).

(** [for_each_visible_record]. *)
Definition for_each_visible_record (cf : string) (lower upper : option bytes) (limit : Z)
    : M (list (bytes * bytes)) :=
  if (limit =? 0) || match lower, upper with Some l, Some u => bytes_leb u l | _, _ => false end
  then mret []
  else
    mems ← gets (fun s => reverse (default [] (memtables s !! cf)));
    table_iters ← query (fun s => record_iters_in_range (disk s) (version_set s) cf lower upper);
    let merged := MergeIterator_new (scan_sources mems table_iters) in
    t ← now;
    visible_loop (length (remaining merged)) cf t lower upper limit merged 0.

(** [scan_cf], [scan_range], [scan], [keys], [count]. *)
Definition scan_cf (cf : string) (lower upper : option bytes) (limit : option Z)
    : M (list (bytes * bytes)) :=
  for_each_visible_record cf lower upper (default MAX_SCAN_LIMIT limit).
Definition scan_range (cf : string) (start stop : bytes) (limit : option Z) :=
  scan_cf cf (Some start) (Some stop) limit.
Definition scan := scan_cf "default" None None (Some DEFAULT_SCAN_LIMIT).
Definition keys : M (list bytes) :=
  visited ← for_each_visible_record "default" None None MAX_SCAN_LIMIT; mret visited.*1.
Definition count : M Z :=
  visited ← for_each_visible_record "default" None None usize_max; mret (len visited).

(** [prefix_end]. *)
Fixpoint increment_last (rev_bytes : bytes) : option bytes :=
  match rev_bytes with
  | [] => None
  | b :: rest =>
      if byte_to_Z b <? 0xFF then Some (byte_of_Z (byte_to_Z b + 1) :: rest)
      else (cons Byte.x00) <$> increment_last rest
  end.
Definition prefix_end (prefix : bytes) : option bytes :=
  match prefix with
  | [] => None
  | _ => match increment_last (reverse prefix) with
         | Some r => Some (reverse r)
         | None => Some (replicate (length prefix) Byte.x00 ++ [Byte.x00])
         end
  end.

(** [Iterator::skip_while]. *)
Fixpoint skip_while {A} (p : A -> bool) (l : list A) : list A :=
  match l with
  | [] => []
  | x :: rest => if p x then skip_while p rest else l
  end.

(** [search_prefix]; the cursor of the next page is the last key of this one. *)
Definition search_prefix (prefix : bytes) (cursor : option bytes) (limit : Z)
    : M (list (bytes * bytes) * option bytes) :=
  let start := match cursor with Some c => c | None => prefix end in
  let scan_extra := match cursor with Some _ => 2 | None => 1 end in
  results ← scan_cf "default" (Some start) (prefix_end prefix) (Some (as_u64 (limit + scan_extra)));
  let results := skip_while (fun e => match cursor with Some c => bytes_eqb e.1 c | None => false end)
                            results in
  let has_more := limit <? len results in
  let page := take (Z.to_nat limit) results in
  mret (page, if has_more then last page ≫= (fun e => from_utf8 e.1) else None).

(** ** Writes *)

(** [update_indexes]; [put] is [put_cf].  The schema entries are looked up in
    the column family ["default"]. *)
Definition update_indexes (put : string -> bytes -> bytes -> M unit) (cf : string) (k v : bytes) : M unit :=
  match json_str_field v with
  | None => mret tt
  | Some json_val =>
      '(index_fields, _) ← search_prefix schema_prefix None 100;
      foldr (fun (e : bytes * bytes) (rest : M unit) =>
        let idx_str := from_utf8_lossy e.1 in
        (if starts_with idx_str schema_prefix then
           let field_name := drop (length schema_prefix) idx_str in
           match json_val field_name with
           | Some field_value => put cf (index_entry field_name field_value k) []
           | None => mret tt
           end
         else mret tt);; rest) (mret tt) index_fields
  end.

(** [remove_indexes]; [del] is [delete_cf]. *)
Definition remove_indexes (del : string -> bytes -> M unit) (cf : string) (k old_value : bytes) : M unit :=
  '(index_fields, _) ← search_prefix schema_prefix None 100;
  match index_fields, json_str_field old_value with
  | [], _ | _, None => mret tt
  | _, Some json_val =>
      foldr (fun (e : bytes * bytes) (rest : M unit) =>
        let idx_str := from_utf8_lossy e.1 in
        (if starts_with idx_str schema_prefix then
           let field_name := drop (length schema_prefix) idx_str in
           match json_val field_name with
           | Some field_value => del cf (index_entry field_name field_value k)
           | None => mret tt
           end
         else mret tt);; rest) (mret tt) index_fields
  end.

(** The record of a put: [LogRecord::new] or [new_with_ttl], the column family,
    and the default expiry when none was asked for. *)
Definition put_record (cf : string) (k v : bytes) (ttl : option Z) : M LogRecord :=
  t ← now;
  let record := set_cf cf (match ttl with
                           | Some ttl => new_with_ttl t k v ttl
                           | None => LogRecord_new t k v
                           end) in
  match expires_at record, default_ttl options with
  | None, Some ttl => t ← now; mret (set_expires_at (saturating_add u128_max t ttl) record)
  | _, _ => mret record
  end.

(** The log append and the memtable insert of a write, and the flush when the
    buffer is full. *)
Definition write_phases (cf : string) (record : LogRecord) (insert_ : M (MemTable -> MemTable)) (n : Z)
    : M bool :=
  wal_apply cf (fun w => write_record w record);;
  f ← insert_;
  update_memtable cf f;;
  add_memtable_bytes cf n;;
  flush_if_full cf.

(** [put_cf_with_ttl_inner]; [depth] bounds the nesting of index writes, whose
    empty values have no index entries of their own. *)
Fixpoint put_cf_with_ttl_inner (depth : nat) (cf : string) (k v : bytes) (ttl : option Z) : M unit :=
  match depth with
  | O => lift Panic
  | S depth =>
      if MAX_KEY_SIZE <? len k then fail InvalidArgument
      else if MAX_VALUE_SIZE <? len v then fail InvalidArgument
      else
        record ← put_record cf k v ttl;
        needs_compact ← write_phases cf record (mret (fun mem => mem_insert mem record)) (len k + len v);
        warn_on_err (update_indexes (fun cf k v => put_cf_with_ttl_inner depth cf k v None) cf k v);;
        if (needs_compact : bool) then maybe_compact else mret tt
  end.

(** Index writes nest once: two levels are enough. *)
Definition put_cf (cf : string) (k v : bytes) : M unit := put_cf_with_ttl_inner 2 cf k v None.
Definition set_cf_with_ttl (cf : string) (k v : bytes) (ttl : Z) : M unit :=
  put_cf_with_ttl_inner 2 cf k v (Some ttl).

(** [delete_cf]: the record of the log and the tombstone of the memtable are
    stamped separately. *)
Fixpoint delete_cf_inner (depth : nat) (cf : string) (k : bytes) : M unit :=
  match depth with
  | O => lift Panic
  | S depth =>
      t ← now;
      needs_compact ← write_phases cf (set_cf cf (tombstone t k))
                        (t ← now; mret (fun mem => mem_delete t mem k)) (len k);
      old_value ← ok_value (get_cf cf k);
      match old_value with
      | Some old_value => warn_on_err (remove_indexes (delete_cf_inner depth) cf k old_value)
      | None => ok_value (get_cf cf (ttl_key k));; mret tt
      end;;
      if (needs_compact : bool) then maybe_compact else mret tt
  end.
Definition delete_cf (cf : string) (k : bytes) : M unit := delete_cf_inner 2 cf k.

(** [delete_range_cf]. *)
Definition delete_range_cf (cf : string) (start stop : bytes) : M unit :=
  t ← now;
  let range := {| start_key := start; end_key := stop; rt_timestamp := t |} in
  t ← now;
  let record := set_cf cf (range_tombstone t start stop) in
  wal_apply cf (fun w => write_record w record);;
  modify (on_range_tombstones (fun m => <[cf := default [] (m !! cf) ++ [range]]> m));;
  update_memtable cf (fun mem => add_range_tombstone mem range).

(** [set_batch_cf]: one log append for the batch, then the memtable. *)
Fixpoint batch_records (cf : string) (items : list (bytes * bytes)) : M (list LogRecord) :=
  match items with
  | [] => mret []
  | (k, v) :: items =>
      t ← now;
      rest ← batch_records cf items;
      mret (set_cf cf (LogRecord_new t k v) :: rest)
  end.
Fixpoint batch_puts (cf : string) (items : list (bytes * bytes)) : M unit :=
  match items with
  | [] => mret tt
  | (k, v) :: items =>
      t ← now;
      update_memtable cf (fun mem => mem_put t mem k v);;
      add_memtable_bytes cf (len k + len v);;
      batch_puts cf items
  end.
Definition set_batch_cf (cf : string) (items : list (bytes * bytes)) : M unit :=
  records ← batch_records cf items;
  wal_apply cf (fun w => write_batch w records);;
  batch_puts cf items;;
  needs_compact ← flush_if_full cf;
  if (needs_compact : bool) then maybe_compact else mret tt.

(** [delete_batch_cf]. *)
Fixpoint batch_tombstones (cf : string) (ks : list bytes) : M (list LogRecord) :=
  match ks with
  | [] => mret []
  | k :: ks =>
      t ← now;
      rest ← batch_tombstones cf ks;
      mret (set_cf cf (tombstone t k) :: rest)
  end.
Fixpoint batch_deletes (cf : string) (ks : list bytes) : M unit :=
  match ks with
  | [] => mret tt
  | k :: ks =>
      t ← now;
      update_memtable cf (fun mem => mem_delete t mem k);;
      add_memtable_bytes cf (len k);;
      batch_deletes cf ks
  end.
Definition delete_batch_cf (cf : string) (ks : list bytes) : M unit :=
  records ← batch_tombstones cf ks;
  wal_apply cf (fun w => write_batch w records);;
  batch_deletes cf ks;;
  needs_compact ← flush_if_full cf;
  if (needs_compact : bool) then maybe_compact else mret tt.

(** ** Startup *)

(** [replay_wal_records_core]: records are inserted as they are. *)
Definition replay_record (record : LogRecord) : M unit :=
  let cf := default "default" (column_family record) in
  if is_range_tombstone record then
    let range := {| start_key := default [] (range_start record);
                    end_key := default [] (range_end record);
                    rt_timestamp := timestamp record |} in
    modify (on_range_tombstones (fun m => <[cf := default [] (m !! cf) ++ [range]]> m));;
    update_memtable cf (fun mem => add_range_tombstone mem range)
  else
    update_memtable cf (fun mem => mem_insert mem record);;
    add_memtable_bytes cf (len (key record) + len (value record)).
Fixpoint replay_wal_records_core (records : list LogRecord) : M unit :=
  match records with
  | [] => mret tt
  | record :: records => replay_record record;; replay_wal_records_core records
  end.

(** [create_index], [list_indexes]. *)
Definition create_index (cf : string) (field : bytes) : M unit :=
  put_cf cf (schema_prefix ++ field) (lit "1").
Definition list_indexes : M (list bytes) :=
  '(results, _) ← search_prefix schema_prefix None 100;
  mret (omap (fun e : bytes * bytes =>
          let idx_str := from_utf8_lossy e.1 in
          if starts_with idx_str schema_prefix then Some (drop (length schema_prefix) idx_str) else None)
        results).

End engine.
