(* ===== verification/EngineSpec.v ===== *)
(** * EngineSpec: the engine implements a map

    The abstract state of a column family is a finite map from keys to values.
    [refines] relates it to the engine's memtables, range tombstones, tables,
    files and caches; the lemmas show that every operation keeps the relation
    and answers as the map does. *)
From Stdlib Require Import ZArith Lia QArith.
From stdpp Require Import base tactics numbers list gmap strings sorting pretty.
From S2P Require Import Prelude Bytes SortedMap LogRecord Iterators.
From S2P Require Import MemTable Extern Encryption SstReader Wal Table.
From S2P Require Import VersionSet Utf8 Engine.
Local Open Scope Z_scope.

(** ** File names *)

Lemma string_length_app a b : String.length (a +:+ b) = (String.length a + String.length b)%nat.
Proof. induction a as [|c a IH]; [done|]. change (S (String.length (a +:+ b)) = S (String.length a + String.length b)). by rewrite IH. Qed.

Lemma string_app_assoc a b c : (a +:+ b) +:+ c = a +:+ b +:+ c.
Proof. induction a as [|x a IH]; [done|]. change (String x ((a +:+ b) +:+ c) = String x (a +:+ b +:+ c)). by rewrite IH. Qed.

Lemma string_app_inj_r a b c : a +:+ c = b +:+ c -> a = b.
Proof.
  revert b; induction a as [|x a IH]; intros [|y b] Heq; [done| | |].
  - apply (f_equal String.length) in Heq. rewrite !string_length_app in Heq. cbn in Heq. lia.
  - apply (f_equal String.length) in Heq. rewrite !string_length_app in Heq. cbn in Heq. lia.
  - injection Heq as -> Heq. f_equal. by apply IH.
Qed.

Lemma pretty_N_go_not_L x s s' : s <> "L" +:+ s' -> pretty_N_go x s <> "L" +:+ s'.
Proof.
  revert s. induction (N.lt_wf_0 x) as [x _ IH]; intros s Hs.
  assert (x = 0 \/ 0 < x)%N as [->|Hx] by lia; [by rewrite pretty_N_go_0|].
  rewrite pretty_N_go_step by done. apply IH; [by apply N.div_lt|].
  unfold pretty_N_char. by repeat case_match.
Qed.
Lemma pretty_not_L (n : N) s : pretty n <> "L" +:+ s.
Proof. unfold pretty, pretty_N. case_decide; [done|]. by apply pretty_N_go_not_L. Qed.

(** The SSTable files flushes and compactions write at time [t]. *)
Definition stamped (p : string) (t : Z) : Prop :=
  exists pre, pre ∈ ["flush_"; "sst_"; "sst_L1_"]%string /\ p = pre +:+ pretty (Z.to_N t) +:+ ".sst".

Lemma stamped_flush t : stamped (flush_path t) t.
Proof. exists "flush_"%string. split; [set_solver|done]. Qed.

(** The name of a file tells when it was written. *)
Lemma stamped_inj p t t' : 0 <= t -> 0 <= t' -> stamped p t -> stamped p t' -> t = t'.
Proof.
  intros Ht Ht' (pre & Hpre & ->) (pre' & Hpre' & Heq).
  assert (pre +:+ pretty (Z.to_N t) = pre' +:+ pretty (Z.to_N t')) as Heq'.
  { apply (string_app_inj_r _ _ ".sst"). by rewrite !string_app_assoc. }
  clear Heq. set_unfold. destruct Hpre as [->|[->|[->|[]]]], Hpre' as [->|[->|[->|[]]]]; try discriminate Heq';
    try (apply (inj (String.append _)), (inj pretty) in Heq'; lia).
  - change "sst_L1_"%string with ("sst_" +:+ "L1_")%string in Heq'. rewrite string_app_assoc in Heq'.
    apply (inj (String.append _)) in Heq'. by apply (pretty_not_L _ ("1_" +:+ pretty (Z.to_N t'))) in Heq'.
  - change "sst_L1_"%string with ("sst_" +:+ "L1_")%string in Heq'. rewrite string_app_assoc in Heq'.
    apply (inj (String.append _)) in Heq'. symmetry in Heq'.
    by apply (pretty_not_L _ ("1_" +:+ pretty (Z.to_N t))) in Heq'.
Qed.

(** ** Prefixes *)

Lemma prefix_end_snoc p b :
  byte_to_Z b < 0xFF -> prefix_end (p ++ [b]) = Some (p ++ [byte_of_Z (byte_to_Z b + 1)]).
Proof.
  intros Hb. unfold prefix_end. destruct (p ++ [b]) as [|x l] eqn:E; [by destruct p|]. rewrite <- E.
  rewrite reverse_snoc. cbn [increment_last]. rewrite (proj2 (Z.ltb_lt _ _)) by done.
  by rewrite reverse_cons, reverse_involutive.
Qed.

Lemma byte_succ b : byte_to_Z b < 0xFF -> byte_to_Z (byte_of_Z (byte_to_Z b + 1)) = byte_to_Z b + 1.
Proof. intros Hb. rewrite byte_to_of_Z. apply Z.mod_small. pose proof (byte_to_Z_range b). lia. Qed.

(** Between a prefix and its end lie exactly the keys that start with it. *)
Lemma prefix_snoc_range p b k :
  byte_to_Z b < 0xFF ->
  in_range (Some (p ++ [b])) (Some (p ++ [byte_of_Z (byte_to_Z b + 1)])) k = starts_with k (p ++ [b]).
Proof.
  intros Hb. unfold in_range. revert k. induction p as [|x p IH]; intros [|c k]; [done| |done|];
    unfold bytes_leb, bytes_ltb in *; cbn [app bytes_cmp starts_with].
  - rewrite byte_succ by done.
    destruct (Z.compare_spec (byte_to_Z b) (byte_to_Z c)) as [E|E|E].
    + apply (inj byte_to_Z) in E as ->. rewrite (proj2 (Z.compare_lt_iff _ _)) by lia.
      rewrite bool_decide_true by done. by destruct k.
    + rewrite bool_decide_false by (intros ->; lia).
      destruct (Z.compare_spec (byte_to_Z c) (byte_to_Z b + 1)); [by destruct k|lia|done].
    + rewrite bool_decide_false by (intros ->; lia). done.
  - destruct (Z.compare_spec (byte_to_Z x) (byte_to_Z c)) as [E|E|E].
    + apply (inj byte_to_Z) in E as ->. rewrite Z.compare_refl, bool_decide_true by done. apply IH.
    + rewrite (proj2 (Z.compare_gt_iff _ _)) by done. by rewrite bool_decide_false by (intros ->; lia).
    + by rewrite bool_decide_false by (intros ->; lia).
Qed.

Lemma prefix_range p k : Byte.xff ∉ p -> in_range (Some p) (prefix_end p) k = starts_with k p.
Proof.
  intros Hff. destruct p as [|b p _] using rev_ind.
  { unfold in_range. cbn. by destruct k. }
  assert (byte_to_Z b < 0xFF) as Hb.
  { pose proof (byte_to_Z_range b). destruct (decide (byte_to_Z b = 0xFF)) as [E|]; [|lia].
    change 0xFF with (byte_to_Z Byte.xff) in E. apply (inj byte_to_Z) in E as ->. set_solver. }
  rewrite prefix_end_snoc by done. by apply prefix_snoc_range.
Qed.

(** Whether all tables keep their values in memory, as the tables of an engine
    that was never restarted do. *)
Class Residency : Type := resident : Prop.

Section spec.
Context `{!Crc32, !Aead, !Postcard LogRecord, !Postcard LogRecordV0, !Postcard LogRecordV1}.
Context `{!BloomCrate} `{!SstStore} `{!SstStoreLaws} `{!Moka bytes bytes} `{!SerdeJson} `{!EngineEnv}.
Context {R : Residency} (clock_mono : forall i, 0 <= clock i < clock (S i)).
Context (cf : string).

Abbreviation entries := (list (bytes * LogRecord)).

(** Keys the engine does not use for itself. *)
Definition user_key (k : bytes) : bool :=
  negb (starts_with k TTL_PREFIX) && negb (starts_with k schema_prefix).

(** A version written by the operations of this file: no expiry, an empty value
    exactly when it is a tombstone, stamped before [t], and of a size the table
    format can hold, also when it is stamped again. *)
Record version_ok (t : Z) (k : bytes) (r : LogRecord) : Prop := {
  vo_key : key r = k;
  vo_user : user_key k = true;
  vo_expires : expires_at r = None;
  vo_deleted : is_deleted r = true <-> value r = [];
  vo_time : timestamp r < t;
  vo_storable : sst_entry_ok (k, r);
  vo_rewritable : forall t', sst_entry_ok (k, LogRecord_new t' k (value r));
}.

(** The records of the memtable of the column family; there is at most one. *)
Definition mem_list (s : EngineCore) : list MemTable := default [] (memtables s !! cf).
Definition mem_data (s : EngineCore) : gmap bytes LogRecord :=
  match mem_list s with [] => ∅ | mem :: _ => data mem end.
Definition rts (s : EngineCore) : list RangeTombstone := default [] (core_range_tombstones s !! cf).

(** The in-memory values of a table are those of all its entries.  Tables loaded
    at startup or from a snapshot have none; only compaction reads them. *)
Definition in_memory (t : Table) (es : entries) : Prop :=
  forall k, t_data t !! k = value <$> assoc k es.

Record core_ok (s : EngineCore) (ess : list entries) : Prop := {
  co_mems : (length (mem_list s) <= 1)%nat;
  co_mem_versions : map_Forall (version_ok (clock (ticks s))) (mem_data s);
  co_mem_rts : forall mem rt, mem ∈ mem_list s -> rt ∈ range_tombstones mem -> rt ∈ rts s;
  co_rts : forall rt, rt ∈ rts s -> rt_timestamp rt < clock (ticks s);
  co_tables : Forall2 (table_holds (disk s) (quarantined (version_set s)))
                      (reverse (cf_tables (version_set s) cf)) ess;
  co_versions : forall es k r, es ∈ ess -> assoc k es = Some r -> version_ok (clock (ticks s)) k r;
  co_block_cache : vs_block_cache (version_set s) = true;
  co_quarantined : quarantined (version_set s) = ∅;
  co_cache : kv_coherent (version_set s) ess;
  co_disk : forall p f, disk s !! p = Some f -> exists t, 0 <= t < clock (ticks s) /\ stamped p t;
  co_data : resident -> Forall2 in_memory (reverse (cf_tables (version_set s) cf)) ess;
  co_paths : NoDup (omap t_path (cf_tables (version_set s) cf));
}.

(** The newest version of a key. *)
Definition version (s : EngineCore) (ess : list entries) (k : bytes) : option LogRecord :=
  match mem_data s !! k with Some r => Some r | None => newest ess k end.

(** What a reader sees of a version under the range tombstones of the family. *)
Definition shown (s : EngineCore) (k : bytes) (r : LogRecord) : option bytes :=
  if is_deleted r then None
  else match max_covering (rts s) k with
       | Some ts => if timestamp r <? ts then None else Some (value r)
       | None => Some (value r)
       end.

Definition refines (s : EngineCore) (m : gmap bytes bytes) : Prop :=
  exists ess, core_ok s ess /\ forall k, m !! k = version s ess k ≫= shown s k.

(** ** Time *)

Lemma clock_lt i j : (i < j)%nat -> clock i < clock j.
Proof.
  induction 1 as [|j _ IH]; [apply clock_mono|]. pose proof (clock_mono j). lia.
Qed.
Lemma clock_le i j : (i <= j)%nat -> clock i <= clock j.
Proof. intros [Hlt| ->]%Nat.lt_eq_cases; [apply clock_lt in Hlt|]; lia. Qed.

Lemma version_ok_later t t' k r : t <= t' -> version_ok t k r -> version_ok t' k r.
Proof. intros Ht []. split; try done. lia. Qed.

(** States that differ in logs, counters and time only. *)
Record same_view (s s' : EngineCore) : Prop := {
  sv_memtables : memtables s' = memtables s;
  sv_version_set : version_set s' = version_set s;
  sv_rts : core_range_tombstones s' = core_range_tombstones s;
  sv_disk : disk s' = disk s;
  sv_ticks : (ticks s <= ticks s')%nat;
}.
#[global] Instance same_view_preorder : PreOrder same_view.
Proof.
  split; [intros s; by split|]. intros s1 s2 s3 [] []. split; congruence || lia.
Qed.

Lemma core_ok_frame s s' ess : same_view s s' -> core_ok s ess -> core_ok s' ess.
Proof.
  intros [Hm Hv Hr Hd Ht] []. apply clock_le in Ht.
  split; unfold mem_data, mem_list, rts in *; rewrite ?Hm, ?Hv, ?Hr, ?Hd; try done.
  - eapply map_Forall_impl; [done|]. intros k r. by apply version_ok_later.
  - intros rt Hin. specialize (co_rts0 rt Hin). lia.
  - intros es k r Hin Ha. eapply version_ok_later; [done|eauto].
  - intros p f Hp. destruct (co_disk0 p f Hp) as (t & ? & ?). exists t. split; [lia|done].
Qed.

Lemma refines_frame s s' m : same_view s s' -> refines s m -> refines s' m.
Proof.
  intros Hsv (ess & Hok & Hm). exists ess. split; [by eapply core_ok_frame|].
  intros k. rewrite Hm. destruct Hsv as [Em _ Er _ _]. unfold version, shown, mem_data, mem_list, rts.
  by rewrite Em, Er.
Qed.

(** ** Steps of the monad *)

Lemma bind_Ok_inv {A B} (m : M A) (k : A -> M B) s b s' :
  (m ≫= k) s = (Ok b, s') -> exists a s1, m s = (Ok a, s1) /\ k a s1 = (Ok b, s').
Proof. unfold mbind, M_bind. destruct (m s) as [[a|e|] s1]; intros; simplify_eq; eauto. Qed.

Lemma bind_Ok {A B} (m : M A) (k : A -> M B) s a s1 : m s = (Ok a, s1) -> (m ≫= k) s = k a s1.
Proof. unfold mbind, M_bind. by intros ->. Qed.

Lemma bind_gets {A B} (f : EngineCore -> A) (k : A -> M B) s : (gets f ≫= k) s = k (f s) s.
Proof. done. Qed.
Lemma bind_now {B} (k : Z -> M B) s : (now ≫= k) s = k (clock (ticks s)) (tick s).
Proof. done. Qed.
Lemma bind_modify {B} (f : EngineCore -> EngineCore) (k : unit -> M B) s : (modify f ≫= k) s = k tt (f s).
Proof. done. Qed.

Lemma write_sst_Ok path at_ es s file s' :
  write_sst path at_ es s = (Ok file, s') ->
  sst_write (sst_writes s) at_ es = Ok file /\ s' = add_file path file s.
Proof. unfold write_sst. rewrite bind_gets. by destruct (sst_write _ _ _); intros [= -> <-]. Qed.

Lemma tick_view s : same_view s (tick s).
Proof. split; cbn; done || lia. Qed.

Lemma wal_handle_view c s w s' : wal_handle c s = (Ok w, s') -> same_view s s'.
Proof.
  unfold wal_handle. intros (ws & s1 & [= <- <-] & Hw)%bind_Ok_inv. destruct (wals s !! c).
  - by injection Hw as <- <-.
  - injection Hw as <- <-. by split.
Qed.

Lemma wal_apply_view c op s u s' : wal_apply c op s = (Ok u, s') -> same_view s s'.
Proof.
  unfold wal_apply. intros (w & s1 & Hw & H1')%bind_Ok_inv. apply wal_handle_view in Hw.
  apply bind_Ok_inv in H1' as (w' & s2 & Hl & Hs). injection Hl as _ <-. injection Hs as <- <-.
  etrans; [done|]. by split.
Qed.

Lemma add_memtable_bytes_view c n s u s' : add_memtable_bytes c n s = (Ok u, s') -> same_view s s'.
Proof. intros [= <- <-]. by split. Qed.

(** ** Updates of the memtable *)

Lemma mem_list_cases s ess : core_ok s ess ->
  (mem_list s = [] /\ mem_data s = ∅) \/ exists mem, mem_list s = [mem] /\ mem_data s = data mem.
Proof.
  intros [Hl]. unfold mem_data. destruct (mem_list s) as [|mem [|]]; simpl in Hl; [auto|eauto|lia].
Qed.

(** The state after [update_memtable]. *)
Definition updated (f : MemTable -> MemTable) (s : EngineCore) : EngineCore :=
  on_memtables (fun m => <[cf := with_last f (default [] (m !! cf))]> m) s.

Lemma update_memtable_updated f s : update_memtable cf f s = (Ok tt, updated f s).
Proof. done. Qed.

Lemma updated_mem_list f s ess : core_ok s ess ->
  mem_list (updated f s) =
  [f (match mem_list s with [] => new_unlimited | mem :: _ => mem end)].
Proof.
  intros Hok. unfold mem_list at 1. cbn. rewrite lookup_insert_eq. cbn.
  change (default [] (memtables s !! cf)) with (mem_list s).
  by destruct (mem_list_cases s ess Hok) as [[-> _]|(mem & -> & _)].
Qed.

Lemma covers_none_le l k t r :
  (forall rt, rt ∈ l -> rt_timestamp rt <= t) -> t <= timestamp r ->
  match max_covering l k with Some ts => timestamp r <? ts | None => false end = false.
Proof.
  intros Hall Ht. destruct (max_covering l k) as [ts|] eqn:E; [|done].
  apply max_covering_spec in E as [(rt & Hin & _ & <-) _]. apply Hall in Hin. apply Z.ltb_ge. lia.
Qed.

Lemma shown_live s k r :
  is_deleted r = false -> (forall rt, rt ∈ rts s -> rt_timestamp rt <= timestamp r) ->
  shown s k r = Some (value r).
Proof.
  intros Hd Hall. unfold shown. rewrite Hd.
  pose proof (covers_none_le (rts s) k (timestamp r) r Hall ltac:(lia)) as Hc.
  destruct (max_covering (rts s) k) as [ts|]; [|done]. by rewrite Hc.
Qed.

(** Inserting a version newer than every range tombstone. *)
Lemma insert_refines s m k r :
  refines s m -> version_ok (clock (ticks s)) k r ->
  (forall rt, rt ∈ rts s -> rt_timestamp rt <= timestamp r) ->
  refines (updated (fun mem => mem_insert mem r) s)
          (if is_deleted r then delete k m else <[k := value r]> m).
Proof.
  intros (ess & Hok & Hm) Hr Hrt. exists ess. set (s' := updated _ s).
  pose proof (updated_mem_list (fun mem => mem_insert mem r) s ess Hok) as Hml. fold s' in Hml.
  assert (mem_data s' = <[k := r]> (mem_data s)) as Hmd.
  { unfold mem_data at 1. rewrite Hml. cbn. rewrite (vo_key _ _ _ Hr). f_equal.
    destruct (mem_list_cases s ess Hok) as [[-> ->]|(mem & -> & ->)]; done. }
  assert (range_tombstones (match mem_list s with [] => new_unlimited | mem :: _ => mem end)
          ⊆ rts s) as Hsub.
  { destruct (mem_list_cases s ess Hok) as [[-> _]|(mem & E & _)]; [set_solver|]. rewrite E.
    intros rt Hin. eapply (co_mem_rts _ _ Hok); [|done]. rewrite E. set_solver. }
  split.
  - destruct Hok. split; try done.
    + by rewrite Hml.
    + rewrite Hmd. by apply map_Forall_insert_2.
    + rewrite Hml. intros mem rt ->%list_elem_of_singleton. apply Hsub.
  - intros k'. unfold version. rewrite Hmd. change (shown s' k') with (shown s k').
    destruct (decide (k' = k)) as [->|Hne].
    + rewrite lookup_insert_eq. cbn. destruct (is_deleted r) eqn:Ed.
      * rewrite lookup_delete_eq. unfold shown. by rewrite Ed.
      * by rewrite lookup_insert_eq, shown_live.
    + rewrite lookup_insert_ne by done. fold (version s ess k'). rewrite <- (Hm k').
      destruct (is_deleted r); [by rewrite lookup_delete_ne|by rewrite lookup_insert_ne].
Qed.

(** ** Range deletion *)

(** The keys of [start, stop) removed. *)
Definition delete_keys (start stop : bytes) (m : gmap bytes bytes) : gmap bytes bytes :=
  filter (fun e => in_range (Some start) (Some stop) e.1 = false) m.

Lemma delete_keys_lookup start stop m k :
  delete_keys start stop m !! k = if in_range (Some start) (Some stop) k then None else m !! k.
Proof.
  unfold delete_keys. rewrite map_lookup_filter. destruct (m !! k) as [v|]; cbn.
  - destruct (in_range _ _ k) eqn:E; [by rewrite option_guard_False by (cbn; congruence)|].
    by rewrite option_guard_True.
  - by destruct (in_range _ _ k).
Qed.

(** The state after the range tombstone [rt] was recorded. *)
Definition ranged (rt : RangeTombstone) (s : EngineCore) : EngineCore :=
  updated (fun mem => add_range_tombstone mem rt)
    (on_range_tombstones (fun m => <[cf := default [] (m !! cf) ++ [rt]]> m) s).

Lemma ranged_rts rt s : rts (ranged rt s) = rts s ++ [rt].
Proof. unfold rts. cbn. by rewrite lookup_insert_eq. Qed.

Lemma range_refines s ess m start stop t :
  core_ok s ess -> (forall k, m !! k = version s ess k ≫= shown s k) -> t < clock (ticks s) ->
  (forall k r, version s ess k = Some r -> timestamp r < t) ->
  refines (ranged {| start_key := start; end_key := stop; rt_timestamp := t |} s)
          (delete_keys start stop m).
Proof.
  intros Hok Hm Ht Hts. exists ess. set (rt := mkRangeTombstone _ _ _). set (s' := ranged rt s).
  set (s1 := on_range_tombstones (fun m => <[cf := default [] (m !! cf) ++ [rt]]> m) s).
  assert (mem_list s' = [add_range_tombstone
            (match mem_list s with [] => new_unlimited | mem :: _ => mem end) rt]) as Hml.
  { unfold s', ranged, mem_list at 1. cbn. rewrite lookup_insert_eq. cbn.
    change (default [] (memtables s !! cf)) with (mem_list s).
    by destruct (mem_list_cases s ess Hok) as [[-> _]|(mem & -> & _)]. }
  assert (mem_data s' = mem_data s) as Hmd.
  { unfold mem_data at 1. rewrite Hml. cbn.
    by destruct (mem_list_cases s ess Hok) as [[-> ->]|(mem & -> & ->)]. }
  assert (rts s' = rts s ++ [rt]) as Hrts by apply ranged_rts.
  split.
  - pose proof Hok as []. split; try done.
    + by rewrite Hml.
    + by rewrite Hmd.
    + rewrite Hml, Hrts. intros mem rt' ->%list_elem_of_singleton. cbn. rewrite !elem_of_app.
      intros [Hin|Hin]; [left|by right].
      destruct (mem_list_cases s ess Hok) as [[E _]|(mem & E & _)]; rewrite E in Hin; [set_solver|].
      eapply co_mem_rts0; [|done]. rewrite E. set_solver.
    + rewrite Hrts. intros rt' [Hin| ->%list_elem_of_singleton]%elem_of_app; [by apply co_rts0|done].
  - intros k. rewrite delete_keys_lookup. unfold version. rewrite Hmd. fold (version s ess k).
    rewrite Hm. destruct (version s ess k) as [r|] eqn:Ev; cbn; [|by destruct (in_range _ _ k)].
    specialize (Hts k r Ev). unfold shown. rewrite Hrts, max_covering_app.
    assert (max_covering [rt] k = if in_range (Some start) (Some stop) k then Some t else None) as ->.
    { unfold max_covering. rewrite filter_cons. change (covers rt k) with (in_range (Some start) (Some stop) k).
      destruct (in_range _ _ k); [by rewrite decide_True|by rewrite decide_False]. }
    destruct (in_range _ _ k), (is_deleted r), (max_covering (rts s) k) as [ts|]; try done;
      by rewrite (proj2 (Z.ltb_lt _ _)) by lia.
Qed.

(** ** Point reads *)

(** The memtable's range tombstones are also the engine's. *)
Lemma covering_rts s ess k : core_ok s ess -> covering_range_tombstone_ts s cf k = max_covering (rts s) k.
Proof.
  intros Hok. unfold covering_range_tombstone_ts. fold (rts s) (mem_list s).
  destruct (mem_list_cases s ess Hok) as [[-> _]|(mem & E & _)]; [by destruct (max_covering (rts s) k)|].
  rewrite E. cbn. unfold max_covering_range_tombstone.
  destruct (max_covering (range_tombstones mem) k) as [b|] eqn:Eb; cbn; [|by destruct (max_covering (rts s) k)].
  apply max_covering_spec in Eb as [(rt & Hin & Hc & <-) _].
  assert (rt ∈ rts s) as Hin' by (eapply (co_mem_rts _ _ Hok mem); [rewrite E; by left|done]).
  destruct (max_covering (rts s) k) as [a|] eqn:Ea.
  - apply max_covering_spec in Ea as [_ Hmax]. specialize (Hmax rt Hin' Hc). f_equal. lia.
  - by rewrite (max_covering_None _ _ Ea rt Hin') in Hc.
Qed.

Lemma core_ok_cache s ess vs :
  core_ok s ess -> tables vs = tables (version_set s) -> quarantined vs = quarantined (version_set s) ->
  vs_block_cache vs = true -> kv_coherent vs ess -> core_ok (on_version_set (fun _ => vs) s) ess.
Proof.
  intros [] Ht Hq Hb Hc. split; try done; cbn.
  - unfold cf_tables. by rewrite Ht, Hq.
  - by rewrite Hq.
  - unfold cf_tables. by rewrite Ht.
  - unfold cf_tables. by rewrite Ht.
Qed.

(** Tables are files of the directory. *)
Lemma holds_path_on_disk d q (ts : list Table) ess t p :
  Forall2 (table_holds d q) ts ess -> t ∈ ts -> t_path t = Some p -> is_Some (d !! p).
Proof.
  intros HF Ht Hp. apply list_elem_of_lookup in Ht as [i Hi].
  destruct (Forall2_lookup_l _ _ _ _ _ HF Hi) as (es & _ & [(p' & f & n & at_ & me & Hp' & _ & Hd & _) _ _ _]).
  rewrite Hp in Hp'. injection Hp' as <-. eauto.
Qed.
Lemma path_on_disk s ess p :
  core_ok s ess -> p ∈ omap t_path (cf_tables (version_set s) cf) -> is_Some (disk s !! p).
Proof.
  intros Hok (t & Hin%elem_of_reverse & Hp)%list_elem_of_omap. by eapply holds_path_on_disk; [apply (co_tables _ _ Hok)|..].
Qed.

Lemma newest_version ess k r t :
  (forall es k r, es ∈ ess -> assoc k es = Some r -> version_ok t k r) ->
  newest ess k = Some r -> version_ok t k r.
Proof.
  intros Hv. induction ess as [|es ess IH]; [done|]. cbn.
  destruct (assoc k es) as [r'|] eqn:E.
  - intros [= ->]. eapply Hv; [by left|done].
  - apply IH. intros es' k' r' Hin. apply Hv. by right.
Qed.

Lemma version_version_ok s ess k r :
  core_ok s ess -> version s ess k = Some r -> version_ok (clock (ticks s)) k r.
Proof.
  intros Hok. unfold version. destruct (mem_data s !! k) as [r'|] eqn:E.
  - intros [= ->]. by apply (co_mem_versions _ _ Hok).
  - apply newest_version. apply (co_versions _ _ Hok).
Qed.

(** Reads that leave the contents as they were. *)
Record same_contents (s s' : EngineCore) (ess : list entries) : Prop := {
  sc_ok : core_ok s' ess;
  sc_memtables : memtables s' = memtables s;
  sc_rts : core_range_tombstones s' = core_range_tombstones s;
  sc_ticks : (ticks s <= ticks s')%nat;
}.

Lemma same_contents_refl s ess : core_ok s ess -> same_contents s s ess.
Proof. by split. Qed.
Lemma same_contents_trans s1 s2 s3 ess :
  same_contents s1 s2 ess -> same_contents s2 s3 ess -> same_contents s1 s3 ess.
Proof. intros [] []. split; congruence || lia || done. Qed.
Lemma same_view_contents s s' ess : core_ok s ess -> same_view s s' -> same_contents s s' ess.
Proof. intros Hok Hv. pose proof (core_ok_frame _ _ _ Hv Hok). destruct Hv. by split. Qed.

Lemma same_contents_refines s s' ess m :
  same_contents s s' ess -> (forall k, m !! k = version s ess k ≫= shown s k) -> refines s' m.
Proof.
  intros [Hok Hm Hr _] Hl. exists ess. split; [done|]. intros k. rewrite Hl.
  unfold version, shown, mem_data, mem_list, rts. by rewrite Hm, Hr.
Qed.

Lemma version_set_get_ok s ess k :
  core_ok s ess ->
  exists s', version_set_get cf k s = (Ok (newest ess k ≫= stored_value), s') /\ same_contents s s' ess.
Proof.
  intros Hok. unfold version_set_get. rewrite bind_now.
  pose proof (core_ok_frame _ _ _ (tick_view s) Hok) as Hok1.
  destruct (vs_get_newest (disk s) (clock (ticks s)) (version_set s) cf k ess) as (vs & Hg & Hc & Ht & Hq & Hb & _).
  - apply (co_tables _ _ Hok).
  - apply (co_block_cache _ _ Hok).
  - apply (co_cache _ _ Hok).
  - intros es r Hin Hr. unfold is_expired_at.
    by rewrite (vo_expires _ _ _ (co_versions _ _ Hok _ _ _ Hin Hr)).
  - intros Hv. destruct (newest ess k) as [r|] eqn:E; [|done]. cbn in Hv. unfold stored_value in Hv.
    pose proof (newest_version _ _ _ _ (co_versions _ _ Hok) E) as [_ _ _ Hd].
    destruct (is_deleted r) eqn:Ed; [done|]. injection Hv as Hv. by apply Hd in Hv.
  - rewrite (bind_Ok _ _ _ (Ok (newest ess k ≫= stored_value), vs) (tick s)) by (unfold gets; cbn; by rewrite Hg).
    eexists. split; [done|]. split; [|done|done|cbn; lia]. by apply core_ok_cache.
Qed.

(** An entry of the engine's own has no version. *)
Lemma newest_reserved s ess k : core_ok s ess -> user_key k = false -> newest ess k = None.
Proof.
  intros Hok Hk. destruct (newest ess k) as [r|] eqn:E; [|done].
  pose proof (newest_version _ _ _ _ (co_versions _ _ Hok) E) as [_ Hu]. congruence.
Qed.

Lemma ttl_key_reserved k : user_key (ttl_key k) = false.
Proof.
  unfold user_key, ttl_key. by rewrite (proj2 (starts_with_spec _ _)) by eauto.
Qed.

Lemma check_ttl_entry_ok s ess k res :
  core_ok s ess -> exists s', check_ttl_entry cf k res s = (Ok res, s') /\ same_contents s s' ess.
Proof.
  intros Hok. destruct res as [v|]; [|exists s; split; [done|by apply same_contents_refl]].
  unfold check_ttl_entry. destruct (version_set_get_ok s ess (ttl_key k) Hok) as (s1 & Hg & Hs1).
  rewrite (newest_reserved s ess _ Hok (ttl_key_reserved k)) in Hg. cbn in Hg.
  rewrite (bind_Ok _ _ _ _ _ Hg). by exists s1.
Qed.

Lemma get_cf_contents s ess k :
  core_ok s ess ->
  exists s', get_cf cf k s = (Ok (version s ess k ≫= shown s k), s') /\ same_contents s s' ess.
Proof.
  intros Hok. unfold get_cf. rewrite !bind_gets.
  rewrite (covering_rts s ess k Hok). change (default [] (memtables s !! cf)) with (mem_list s).
  assert (memtables_get (reverse (mem_list s)) k = mem_data s !! k) as ->.
  { destruct (mem_list_cases s ess Hok) as [[-> ->]|(mem & -> & ->)]; [done|]. cbn.
    by destruct (data mem !! k). }
  unfold version. destruct (mem_data s !! k) as [r|] eqn:Em.
  - cbn [mbind option_bind]. unfold shown. pose proof (co_mem_versions _ _ Hok _ _ Em) as Hv.
    set (c := match max_covering (rts s) k with Some ts => timestamp r <? ts | None => false end).
    assert ((if is_deleted r then None else
       match max_covering (rts s) k with
       | Some ts => if timestamp r <? ts then None else Some (value r) | None => Some (value r) end)
       = if c then None else if is_deleted r then None else Some (value r)) as ->.
    { subst c. by destruct (max_covering (rts s) k) as [ts|]; [destruct (timestamp r <? ts)|]; destruct (is_deleted r). }
    destruct c; [exists s; split; [done|by apply same_contents_refl]|].
    destruct (is_deleted r); [exists s; split; [done|by apply same_contents_refl]|].
    rewrite bind_now. exists (tick s). split.
    + unfold is_expired_at. by rewrite (vo_expires _ _ _ Hv).
    + apply same_view_contents; [done|apply tick_view].
  - assert (exists s1, (match max_covering (rts s) k with
        | Some tombstone_ts =>
            record ← query (fun s0 => get_record (disk s0) (version_set s0) cf k);
            match record with
            | Some record0 =>
                t ← now;
                mret (if negb (is_deleted record0) && negb (is_expired_at record0 t) &&
                         (tombstone_ts <=? timestamp record0) then Some (value record0) else None)
            | None => mret None
            end
        | None => version_set_get cf k
        end : M (option bytes)) s = (Ok (newest ess k ≫= shown s k), s1) /\ same_contents s s1 ess)
      as (s1 & Hr & Hs1).
    { unfold shown. destruct (max_covering (rts s) k) as [ts|].
      - rewrite (bind_Ok _ _ s (newest ess k) s).
        2:{ unfold query. f_equal. apply get_record_loop_newest. apply (co_tables _ _ Hok). }
        destruct (newest ess k) as [r|] eqn:E; [|exists s; split; [done|by apply same_contents_refl]].
        pose proof (newest_version _ _ _ _ (co_versions _ _ Hok) E) as Hv.
        rewrite bind_now. exists (tick s). split.
        + unfold is_expired_at, mret, M_ret. rewrite (vo_expires _ _ _ Hv). cbn.
          rewrite andb_true_r, Z.leb_antisym. by destruct (is_deleted r), (timestamp r <? ts).
        + apply same_view_contents; [done|apply tick_view].
      - destruct (version_set_get_ok s ess k Hok) as (s1 & Hg & Hs1). by exists s1. }
    rewrite (bind_Ok _ _ _ _ _ Hr).
    destruct (check_ttl_entry_ok s1 ess k (newest ess k ≫= shown s k) (sc_ok _ _ _ Hs1)) as (s2 & Hc & Hs2).
    exists s2. split; [done|]. by eapply same_contents_trans.
Qed.

Lemma get_refines s m k :
  refines s m -> exists s', get_cf cf k s = (Ok (m !! k), s') /\ refines s' m.
Proof.
  intros (ess & Hok & Hm). destruct (get_cf_contents s ess k Hok) as (s' & Hg & Hs').
  exists s'. rewrite Hm. split; [done|]. by eapply same_contents_refines.
Qed.

(** ** Scans *)

(** What the loop of a scan makes of an item of the merge. *)
Definition scan_item (s : EngineCore) (lower upper : option bytes) (e : bytes * item) : option (bytes * bytes) :=
  if in_range lower upper e.1
  then match e.2.2 with Some r => pair e.1 <$> shown s e.1 r | None => None end
  else None.

(** An item of the merge stands for a version. *)
Definition version_item (t : Z) (e : bytes * item) : Prop :=
  exists r, e.2 = record_item r /\ version_ok t e.1 r.

Lemma visible_version_ok s ess t k r :
  core_ok s ess -> expires_at r = None ->
  visible_version cf t k (value r) (Some r) s = (Ok (bool_decide (is_Some (shown s k r))), s).
Proof.
  intros Hok He. unfold visible_version. rewrite bind_gets, (covering_rts s ess k Hok).
  unfold mbind, M_bind, mret, M_ret. do 2 f_equal. unfold shown, is_expired_at. rewrite He, orb_false_r, andb_true_r.
  destruct (is_deleted r); cbn [negb andb]; [by rewrite bool_decide_false by (intros [? [=]])|].
  destruct (max_covering (rts s) k) as [ts|]; [destruct (timestamp r <? ts)|]; cbn [negb];
    by rewrite ?bool_decide_true, ?bool_decide_false by (eauto || intros [? [=]]).
Qed.

(** Past the upper bound there is nothing more to show. *)
Lemma scan_rest_empty s lower ub k x rest :
  key_sorted ((k, x) :: rest) -> bytes_leb ub k = true ->
  omap (scan_item s lower (Some ub)) ((k, x) :: rest) = [].
Proof.
  intros Hs Hub.
  assert (forall e, e ∈ (k, x) :: rest -> scan_item s lower (Some ub) e = None) as Hall.
  { intros [k' x'] Hin. unfold scan_item. cbn [fst]. rewrite (in_range_stop lower ub k k'); [done|done|].
    apply key_sorted_cons in Hs as [Hlt _]. apply elem_of_cons in Hin as [[= -> ->]|Hin]; [reflexivity|].
    apply bytes_lt_le. by eapply Hlt. }
  clear Hs Hub. induction ((k, x) :: rest) as [|e l IH]; [done|]. cbn. rewrite (Hall e) by (by left).
  apply IH. intros e' He'. apply Hall. by right.
Qed.

Lemma visible_loop_ok s ess t lower upper limit items (merged : MergeIterator scan_source) visible :
  core_ok s ess -> it_wf merged -> remaining merged = items -> key_sorted items ->
  Forall (version_item (clock (ticks s))) items -> 0 <= visible <= limit ->
  visible_loop (length items) cf t lower upper limit merged visible s =
  (Ok (take (Z.to_nat (limit - visible)) (omap (scan_item s lower upper) items)), s).
Proof.
  intros Hok. revert merged visible.
  induction items as [|[k x] items IH]; intros merged visible Hwf Hrem Hs Hv Hvis;
    [cbn [omap list_omap]; by rewrite take_nil|].
  cbn [length visible_loop]. change (mi_is_valid merged) with (it_is_valid merged).
  rewrite (law_is_valid merged Hwf), Hrem. cbn [andb].
  destruct (law_head merged k x items Hwf Hrem) as (Hk & Hx & Hr).
  change (mi_key merged) with (it_key merged). change (mi_value merged) with (it_value merged).
  change (mi_record merged) with (it_record merged). rewrite Hk, Hx, Hr.
  apply Forall_cons in Hv as [(r & Hxr & Hvr) Hv]. cbn in Hxr, Hvr. subst x.
  destruct (Z.ltb_spec visible limit) as [Hlt|Hge]; cbn [negb].
  2:{ by replace (Z.to_nat (limit - visible)) with 0%nat by lia. }
  assert (forall visible', 0 <= visible' <= limit ->
    visible_loop (length items) cf t lower upper limit (mi_next merged) visible' s =
    (Ok (take (Z.to_nat (limit - visible')) (omap (scan_item s lower upper) items)), s)) as IH'.
  { intros visible' Hv'. apply IH; [exact (law_wf_next merged Hwf)| |by apply key_sorted_cons in Hs as [_ ?]|done|done].
    change (mi_next merged) with (it_next merged). by rewrite law_next, Hrem. }
  clear IH. destruct (match upper with Some ub => bytes_leb ub k | None => false end) eqn:Eu.
  { destruct upper as [ub|]; [|done]. by rewrite (scan_rest_empty s lower ub k _ items Hs Eu), take_nil. }
  destruct (vo_user _ _ _ Hvr, Hvr) as [Huser _]. apply andb_true_iff in Huser as [Hu%negb_true_iff _].
  rewrite Hu, orb_false_r. cbn [omap list_omap].
  assert (in_range lower upper k = negb (match lower with Some lb => bytes_ltb k lb | None => false end)) as Hir.
  { unfold in_range. replace (match upper with Some e => bytes_ltb k e | None => true end) with true.
    - rewrite andb_true_r. destruct lower as [lb|]; [|done].
      destruct (bytes_leb_spec lb k), (bytes_ltb_spec k lb); try done; bytes_prop; bytes_order.
    - destruct upper as [ub|]; [|done]. symmetry. by apply bytes_leb_gt. }
  unfold scan_item at 1. cbn [fst snd record_item]. rewrite Hir.
  destruct (match lower with Some lb => bytes_ltb k lb | None => false end); cbn [negb]; [by apply IH'|].
  rewrite (bind_Ok _ _ _ _ _ (visible_version_ok s ess t k r Hok (vo_expires _ _ _ Hvr))).
  destruct (shown s k r) as [v|] eqn:Esh; [rewrite bool_decide_true by eauto|by apply IH'].
  assert (v = value r) as ->.
  { unfold shown in Esh. repeat case_match; simplify_eq; done. }
  rewrite (bind_Ok _ _ _ _ _ (IH' (visible + 1) ltac:(lia))). cbn.
  replace (Z.to_nat (limit - visible)) with (S (Z.to_nat (limit - (visible + 1)))) by lia. done.
Qed.

(** The merged versions of the sources of a scan. *)
Lemma scan_sources_ok s ess its lower upper :
  core_ok s ess ->
  Forall source_ok its ->
  (forall k, newest_wins (remaining <$> its) !! k =
             if in_range lower upper k then record_item <$> newest ess k else None) ->
  let srcs := scan_sources (reverse (mem_list s)) its in
  Forall source_ok srcs /\
  forall k, newest_wins (remaining <$> srcs) !! k =
    record_item <$> match mem_data s !! k with
                    | Some r => Some r
                    | None => if in_range lower upper k then newest ess k else None
                    end.
Proof.
  intros Hok Hits Hnw srcs. subst srcs. unfold scan_sources.
  assert (Forall source_ok ((inr <$> its) : list scan_source)) as Hits'.
  { apply Forall_fmap. eapply Forall_impl; [exact Hits|]. intros it. by destruct it. }
  assert (remaining <$> ((inr <$> its) : list scan_source) = remaining <$> its) as Hrem.
  { rewrite <- list_fmap_compose. apply list_fmap_ext. by intros ? [|] _. }
  destruct (mem_list_cases s ess Hok) as [[-> ->]|(mem & -> & ->)].
  - cbn [reverse rev_append fmap list_fmap app]. split; [done|]. intros k. rewrite Hrem, Hnw, lookup_empty.
    by destruct (in_range lower upper k).
  - rewrite reverse_singleton. cbn [fmap list_fmap app]. split.
    + constructor; [|done]. destruct (mem_iter_source_ok mem). by split.
    + intros k. rewrite newest_wins_cons.
      change (remaining (inl (mem_iter mem) : scan_source)) with (remaining (mem_iter mem)).
      fold ((inr : MemTableIterator + TableIterator -> scan_source) <$> its). rewrite mem_iter_remaining.
      rewrite (assoc_fmap mem_item record_item), assoc_sorted_entries by done.
      destruct (data mem !! k) as [r|]; [done|]. cbn [fmap option_fmap option_map].
      rewrite Hrem, Hnw. by destruct (in_range lower upper k).
Qed.

Lemma for_each_visible_record_ok s m lower upper limit :
  refines s m -> 0 <= limit ->
  exists s', for_each_visible_record cf lower upper limit s =
    (Ok (take (Z.to_nat limit) (filter (fun e => in_range lower upper e.1 = true) (sorted_entries m))), s') /\
    refines s' m.
Proof.
  intros Href Hlim. unfold for_each_visible_record.
  destruct (Z.eqb_spec limit 0) as [->|Hnz]; cbn [orb]; [by exists s|].
  destruct (match lower, upper with Some l, Some u => bytes_leb u l | _, _ => false end) eqn:Elu.
  { exists s. split; [|done]. rewrite filter_none; [by rewrite take_nil|].
    intros e _. destruct lower as [l|], upper as [u|]; try done. unfold in_range.
    intros [Hl Hu]%andb_true_iff. bytes_prop. bytes_order. }
  destruct Href as (ess & Hok & Hm). rewrite bind_gets. fold (mem_list s).
  destruct (record_iters_loop_ok (disk s) (version_set s) lower upper _ ess (co_tables _ _ Hok))
    as (its & Hits & Hsrc & Hnw).
  rewrite (bind_Ok _ _ s its s) by (unfold query, record_iters_in_range; by rewrite Hits).
  rewrite bind_now. destruct (scan_sources_ok s ess its lower upper Hok Hsrc Hnw) as [Hso Hall].
  set (srcs := scan_sources _ _) in *. set (merged := MergeIterator_new srcs).
  assert (remaining merged = sorted_entries (newest_wins (remaining <$> srcs))) as Hrem
    by (by apply merge_collect_newest).
  pose proof (core_ok_frame _ _ _ (tick_view s) Hok) as Hok1. exists (tick s). split.
  2:{ eapply refines_frame; [apply tick_view|]. by exists ess. }
  rewrite Hrem. rewrite (visible_loop_ok (tick s) ess); [|done| |done|apply sorted_entries_sorted| |lia].
  2:{ by apply MergeIterator_new_ok. }
  2:{ apply Forall_forall. intros [k x] Hin%elem_of_sorted_entries. rewrite Hall in Hin.
      match type of Hin with record_item <$> ?o = _ => destruct o as [r|] eqn:Er end; [|done].
      injection Hin as <-. exists r. split; [done|]. cbn [fst].
      eapply version_ok_later; [|apply (version_version_ok s ess k r Hok)].
      - apply clock_le. cbn. lia.
      - unfold version. destruct (mem_data s !! k); [done|]. by destruct (in_range lower upper k). }
  rewrite Z.sub_0_r. do 3 f_equal.
  set (g := fun k (x : item) => if in_range lower upper k
              then match x.2 with Some r => shown s k r | None => None end else None).
  assert (forall k x, scan_item (tick s) lower upper (k, x) = pair k <$> g k x) as Hg.
  { intros k x. unfold scan_item, g. cbn. destruct (in_range lower upper k); [|done].
    by destruct x as [v [r|]]. }
  apply key_sorted_ext.
  - by apply (key_sorted_omap _ g), sorted_entries_sorted.
  - apply key_sorted_filter, sorted_entries_sorted.
  - intros k. rewrite (assoc_omap _ g) by (done || apply sorted_entries_sorted).
    rewrite assoc_filter, !assoc_sorted_entries, Hall by apply sorted_entries_sorted. cbn [fst].
    rewrite Hm. unfold version, g. destruct (in_range lower upper k) eqn:Er.
    + destruct (mem_data s !! k) as [r|]; cbn; [by destruct (shown s k r)|].
      destruct (newest ess k) as [r|]; cbn; [|done]. by destruct (shown s k r).
    + destruct (mem_data s !! k) as [r|]; cbn; [by destruct (shown s k r)|].
      destruct (newest ess k ≫= shown s k); done.
Qed.

Lemma scan_refines s m lower upper limit :
  refines s m -> match limit with Some l => 0 <= l | None => True end ->
  exists s', scan_cf cf lower upper limit s =
    (Ok (take (Z.to_nat (default MAX_SCAN_LIMIT limit))
           (filter (fun e => in_range lower upper e.1 = true) (sorted_entries m))), s') /\ refines s' m.
Proof.
  intros Href Hl. apply for_each_visible_record_ok; [done|]. destruct limit; [done|].
  cbn. unfold MAX_SCAN_LIMIT. lia.
Qed.

(** ** Flush *)

Lemma flush_entries_plain at_ es s :
  Forall (fun e => expires_at e.2 = None) es -> flush_entries at_ es s = (Ok es, s).
Proof.
  induction 1 as [|[k r] es He Hall IH]; [done|]. cbn [flush_entries]. cbn in He.
  unfold is_expired_at. rewrite He. by rewrite (bind_Ok _ _ _ _ _ IH).
Qed.

Lemma flush_raw_data_plain at_ mem es k :
  Forall (fun e => starts_with e.1 TTL_PREFIX = false) es ->
  map_Forall (fun _ r => expires_at r = None) (data mem) ->
  flush_raw_data at_ mem es !! k = value <$> data mem !! k.
Proof.
  intros Hes Hm. unfold flush_raw_data. rewrite <- lookup_fmap.
  assert (filter (fun kr => is_expired_at kr.2 at_ = false) (data mem) = data mem) as ->.
  { apply map_filter_id. intros k' r Hr. unfold is_expired_at. cbn. by rewrite (Hm k' r Hr). }
  generalize (value <$> data mem). induction Hes as [|e es He _ IH]; intros d; [done|]. cbn [foldl].
  rewrite He. apply IH.
Qed.

(** A table is held by its own file only. *)
Lemma table_holds_file d d' q t es :
  (forall p f, t_path t = Some p -> d !! p = Some f -> d' !! p = Some f) ->
  table_holds d q t es -> table_holds d' q t es.
Proof.
  intros Hsub [(p & f & n & ts & me & Hp & Hq & Hd & Hrest) Hst Hda Hto]. split; [|done..].
  exists p, f, n, ts, me. split_and!; [done|done|by apply Hsub|by destruct_and!..].
Qed.
Lemma table_holds_disk d d' q t es : d ⊆ d' -> table_holds d q t es -> table_holds d' q t es.
Proof. intros Hsub. apply table_holds_file. intros p f _ Hp. by eapply lookup_weaken. Qed.
Lemma tables_hold_files d d' q ts ess :
  (forall p f, p ∈ omap t_path ts -> d !! p = Some f -> d' !! p = Some f) ->
  Forall2 (table_holds d q) ts ess -> Forall2 (table_holds d' q) ts ess.
Proof.
  intros Hsub Hts. induction Hts as [|t es ts ess Ht _ IH]; constructor.
  - eapply table_holds_file; [|exact Ht]. intros p f Hp. apply Hsub. apply list_elem_of_omap. exists t. split; [by left|done].
  - apply IH. intros p f (t' & Hin & Hp)%list_elem_of_omap. apply Hsub. apply list_elem_of_omap. exists t'. split; [by right|done].
Qed.

(** The state in which the memtable [mem] became the table [t], stored as
    [file]. *)
Definition flushed (path : string) (file : SstFile) (t : Table) (s : EngineCore) : EngineCore :=
  on_version_set (fun vs => add_table vs cf t)
    (add_file path file (tick (on_memtables <[cf := []]> s))).

Lemma flushed_ok s ess mem file n at_ table :
  core_ok s ess -> mem_list s = [mem] -> at_ = clock (ticks s) ->
  sst_write n at_ (sorted_entries (data mem)) = Ok file ->
  from_sstable_path (flush_path at_) file = Ok table ->
  core_ok (flushed (flush_path at_) file
             {| t_data := flush_raw_data at_ mem (sorted_entries (data mem)); t_level := 0;
                t_path := t_path table; t_min_key := t_min_key table; t_max_key := t_max_key table;
                t_bloom := t_bloom table |} s) (sorted_entries (data mem) :: ess).
Proof.
  intros Hok Hml -> Hw Ht. set (es := sorted_entries (data mem)) in *. set (at_ := clock (ticks s)) in *.
  assert (mem_data s = data mem) as Hmd by (unfold mem_data; by rewrite Hml).
  assert (forall k r, assoc k es = Some r -> version_ok at_ k r) as Hver.
  { intros k r Hr. unfold es in Hr. rewrite assoc_sorted_entries, <- Hmd in Hr. by apply (co_mem_versions _ _ Hok). }
  assert (forall k, flush_raw_data at_ mem es !! k = value <$> data mem !! k) as Hraw.
  { intros k. apply flush_raw_data_plain.
    - apply Forall_forall. intros [k' r] Hin. apply assoc_elem in Hin; [|apply sorted_entries_sorted].
      pose proof (vo_user _ _ _ (Hver _ _ Hin)) as Hu. apply andb_true_iff in Hu as [Hu _].
      by apply negb_true_iff in Hu.
    - rewrite <- Hmd. eapply map_Forall_impl; [apply (co_mem_versions _ _ Hok)|]. intros k' r Hv.
      apply (vo_expires _ _ _ Hv). }
  assert (disk s ⊆ <[flush_path at_ := file]> (disk s)) as Hsub.
  { apply insert_subseteq. destruct (disk s !! flush_path at_) as [f|] eqn:E; [|done].
    destruct (co_disk _ _ Hok _ _ E) as (t & Ht' & Heq).
    apply (stamped_inj _ t at_) in Heq; [lia|lia|apply clock_mono|apply stamped_flush]. }
  assert (table_holds (<[flush_path at_ := file]> (disk s)) ∅
            {| t_data := flush_raw_data at_ mem es; t_level := 0; t_path := t_path table;
               t_min_key := t_min_key table; t_max_key := t_max_key table; t_bloom := t_bloom table |} es) as Hth.
  { apply obind_Ok_inv in Ht as (me & Hme & [= <-]). split; cbn.
    - exists (flush_path at_), file, n, at_, me. rewrite lookup_insert_eq. split_and!; done || set_solver.
    - apply Forall_forall. intros [k r] Hin. apply (vo_storable at_). apply Hver.
      apply assoc_elem; [apply sorted_entries_sorted|done].
    - intros k v. rewrite Hraw. unfold es. rewrite assoc_sorted_entries.
      destruct (data mem !! k) as [r|]; [|done]. intros [= <-]. eauto.
    - intros k r Hr Hd. by apply (vo_deleted _ _ _ (Hver _ _ Hr)). }
  assert (clock (ticks s) <= clock (S (ticks s))) as Hle by (apply clock_le; lia).
  match goal with |- core_ok (flushed _ _ ?t _) _ =>
    assert (Forall2 (table_holds (<[flush_path at_ := file]> (disk s)) (quarantined (version_set s)))
              (reverse (cf_tables (add_table (version_set s) cf t) cf)) (es :: ess)) as Htabs end.
  { rewrite add_table_tables, reverse_app, reverse_singleton.
    constructor; [by rewrite (co_quarantined _ _ Hok)|].
    eapply Forall2_impl; [exact (co_tables _ _ Hok)|]. intros. by eapply table_holds_disk. }
  assert (flush_path at_ ∉ omap t_path (cf_tables (version_set s) cf)) as Hnew.
  { intros [f Hf]%(path_on_disk s ess); [|done]. destruct (co_disk _ _ Hok _ _ Hf) as (t & Ht' & Heq).
    apply (stamped_inj _ t at_) in Heq; [lia|lia|apply clock_mono|apply stamped_flush]. }
  set (s' := flushed _ _ _ _).
  assert (mem_list s' = []) as Hml' by (unfold mem_list; cbn; by rewrite lookup_insert_eq).
  assert (mem_data s' = ∅) as Hmd' by (unfold mem_data; by rewrite Hml').
  destruct Hok. split.
  - rewrite Hml'. simpl. lia.
  - rewrite Hmd'. apply map_Forall_empty.
  - rewrite Hml'. set_solver.
  - intros rt Hin. specialize (co_rts0 rt Hin). cbn. lia.
  - exact Htabs.
  - intros es' k r [->|Hin]%elem_of_cons Hr; (eapply version_ok_later; [exact Hle|]); eauto.
  - done.
  - done.
  - by apply kv_coherent_empty.
  - cbn. intros p f. destruct (decide (p = flush_path at_)) as [->|Hne].
    + intros _. exists at_. pose proof (clock_mono (ticks s)). subst at_. split; [lia|apply stamped_flush].
    + rewrite lookup_insert_ne by done. intros Hp. destruct (co_disk0 p f Hp) as (t & ? & Hst).
      exists t. split; [lia|done].
  - intros Hres. cbn. rewrite add_table_tables, reverse_app, reverse_singleton. constructor; [|by apply co_data0].
    intros k. cbn. unfold es. rewrite assoc_sorted_entries. by apply Hraw.
  - cbn. rewrite add_table_tables, omap_app. apply NoDup_app. split_and!; [done| |].
    + intros p Hp [t' [->%list_elem_of_singleton Hp']]%list_elem_of_omap. cbn in Hp'.
      apply obind_Ok_inv in Ht as (me & Hme & [= <-]). injection Hp' as <-. apply Hnew, Hp.
    + cbn. destruct (t_path table); [apply NoDup_singleton|apply NoDup_nil_2].
Qed.

Lemma sort_sorted_entries (d : gmap bytes LogRecord) : sort_entries (sorted_entries d) = sorted_entries d.
Proof. by apply sort_entries_unique; [|apply sorted_entries_sorted]. Qed.

Lemma flush_table_refines s ess m mem b s' :
  core_ok s ess -> (forall k, m !! k = version s ess k ≫= shown s k) -> mem_list s = [mem] ->
  flush_table cf mem (on_memtables <[cf := []]> s) = (Ok b, s') -> refines s' m.
Proof.
  intros Hok Hm Hml Hf. unfold flush_table in Hf. rewrite bind_now in Hf.
  change (clock (ticks (on_memtables <[cf := []]> s))) with (clock (ticks s)) in Hf.
  set (at_ := clock (ticks s)) in *.
  assert (mem_data s = data mem) as Hmd by (unfold mem_data; by rewrite Hml).
  assert (Forall (fun e => expires_at e.2 = None) (sorted_entries (data mem))) as Hexp.
  { apply Forall_forall. intros [k r] Hin%elem_of_sorted_entries. rewrite <- Hmd in Hin.
    apply (vo_expires _ _ _ (co_mem_versions _ _ Hok _ _ Hin)). }
  change (sort_entries (map_to_list (data mem))) with (sorted_entries (data mem)) in Hf.
  rewrite (bind_Ok _ _ _ _ _ (flush_entries_plain at_ _ _ Hexp)), sort_sorted_entries in Hf.
  apply bind_Ok_inv in Hf as (file & s1 & [Hw ->]%write_sst_Ok & Hf). apply bind_Ok_inv in Hf as (table & s1 & Ht & Hf). injection Ht as Ht <-.
  rewrite bind_modify, bind_gets in Hf.
  pose proof (flushed_ok s ess mem file _ at_ table Hok Hml eq_refl Hw Ht) as Hok'. unfold flushed in Hok'.
  match type of Hok' with core_ok ?st _ => set (s1 := st) in * end.
  assert (refines s1 m) as Href.
  { exists (sorted_entries (data mem) :: ess). split; [done|]. intros k. rewrite Hm.
    unfold version. cbn [newest].
    assert (mem_data s1 = ∅) as -> by (unfold mem_data, mem_list; cbn; by rewrite lookup_insert_eq).
    rewrite lookup_empty, assoc_sorted_entries, Hmd. by destruct (data mem !! k). }
  eapply refines_frame; [|exact Href].
  destruct (memtable_bytes s1 !! cf); [|done]. rewrite bind_modify in Hf.
  apply bind_Ok_inv in Hf as (u & s2 & Hwal & Hf). apply wal_apply_view in Hwal. rewrite bind_gets in Hf.
  injection Hf as _ <-. etrans; [|exact Hwal]. by split.
Qed.

Lemma flush_refines s m b s' :
  refines s m -> flush_memtable_impl cf s = (Ok b, s') -> refines s' m.
Proof.
  intros (ess & Hok & Hm). unfold flush_memtable_impl. rewrite bind_gets.
  assert (refines s m) as Href by (by exists ess).
  pose proof (mem_list_cases s ess Hok) as Hcases. unfold mem_list in Hcases.
  destruct (memtables s !! cf) as [mems|] eqn:E; [|by intros [= _ <-]]. cbn in Hcases.
  destruct Hcases as [[-> _]|(mem & -> & _)]; [by intros [= _ <-]|]. cbn [last removelast].
  destruct (mem_is_empty mem).
  - intros (u & s1 & Hw & Hr)%bind_Ok_inv. apply wal_apply_view in Hw. injection Hr as _ <-.
    by eapply refines_frame.
  - rewrite bind_modify. apply (flush_table_refines _ ess); [done|done|]. unfold mem_list. by rewrite E.
Qed.

Lemma flush_if_full_refines s m b s' :
  refines s m -> flush_if_full cf s = (Ok b, s') -> refines s' m.
Proof.
  intros Href. unfold flush_if_full. rewrite bind_gets. case_match; [|by intros [= _ <-]].
  by apply flush_refines.
Qed.

(** ** Writes *)

(** The records of a key and a value that the operations create fit in a
    table. *)
Definition fits (k v : bytes) : Prop :=
  forall t del c, (c = None \/ c = Some cf) ->
    sst_entry_ok (k, {| key := k; value := v; timestamp := t; is_deleted := del; column_family := c;
                        expires_at := None; range_start := None; range_end := None |}).

(** A write whose memtable insertion makes the version [r] of [k]. *)
Lemma write_phases_refines s m k v del logr (ins : M (MemTable -> MemTable)) n b s' :
  refines s m ->
  (forall s1 f s2, same_view s s1 -> ins s1 = (Ok f, s2) ->
     same_view s1 s2 /\ exists r, f = (fun mem => mem_insert mem r) /\
       version_ok (clock (ticks s2)) k r /\ is_deleted r = del /\ value r = v /\
       forall rt, rt ∈ rts s -> rt_timestamp rt <= timestamp r) ->
  write_phases cf logr ins n s = (Ok b, s') ->
  refines s' (if del then delete k m else <[k := v]> m).
Proof.
  intros Href Hins Hw. unfold write_phases in Hw.
  apply bind_Ok_inv in Hw as (u & s1 & Hwal & Hw). apply wal_apply_view in Hwal.
  apply bind_Ok_inv in Hw as (f & s2 & Hf & Hw).
  destruct (Hins _ _ _ Hwal Hf) as (Hsv & r & -> & Hr & Hd & Hv & Hrt).
  rewrite (bind_Ok _ _ _ _ _ (update_memtable_updated _ _)) in Hw.
  apply bind_Ok_inv in Hw as (u' & s3 & Hb & Hw). apply add_memtable_bytes_view in Hb.
  eapply flush_if_full_refines; [|exact Hw]. eapply refines_frame; [exact Hb|].
  assert (same_view s s2) as Hs2 by (by etrans).
  rewrite <- Hd, <- Hv. apply insert_refines; [by eapply refines_frame|done|].
  intros rt. unfold rts. rewrite (sv_rts _ _ Hs2). apply Hrt.
Qed.

Lemma refines_rts s m rt : refines s m -> rt ∈ rts s -> rt_timestamp rt < clock (ticks s).
Proof. intros (ess & Hok & _). apply (co_rts _ _ Hok). Qed.

(** ** Secondary indexes, when none was created *)

Lemma search_schema_empty s m :
  cf = "default"%string -> refines s m -> (forall k v, m !! k = Some v -> user_key k = true) ->
  exists s', search_prefix schema_prefix None 100 s = (Ok ([], None), s') /\ refines s' m.
Proof.
  intros Hcf Href Hu. unfold search_prefix. rewrite <- Hcf.
  destruct (scan_refines s m (Some schema_prefix) (prefix_end schema_prefix) (Some (100 + 1)) Href)
    as (s' & Hs & Href'); [lia|].
  rewrite (bind_Ok _ _ _ _ _ Hs), filter_none; [by exists s'|].
  intros [k v] Hin%elem_of_sorted_entries. cbn [fst]. rewrite prefix_range by (vm_compute; set_solver).
  apply Hu, andb_true_iff in Hin as [_ Hn]. apply negb_true_iff in Hn. congruence.
Qed.

Lemma refines_user s m k v : refines s m -> m !! k = Some v -> user_key k = true.
Proof.
  intros (ess & Hok & Hm). rewrite Hm. destruct (version s ess k) as [r|] eqn:E; [|done]. intros _.
  apply (vo_user _ _ _ (version_version_ok _ _ _ _ Hok E)).
Qed.

Lemma update_indexes_refines s m put k v :
  cf = "default"%string \/ json_str_field v = None -> refines s m ->
  exists s', update_indexes put cf k v s = (Ok tt, s') /\ refines s' m.
Proof.
  intros Hc Href. unfold update_indexes. destruct (json_str_field v) as [j|]; [|by exists s].
  destruct Hc as [Hc|]; [|done].
  destruct (search_schema_empty s m Hc Href) as (s' & Hs & Href'); [by intros; eapply refines_user|].
  rewrite (bind_Ok _ _ _ _ _ Hs). by exists s'.
Qed.

(** ** The operations *)

Context (no_default_ttl : default_ttl options = None).

Lemma put_record_plain s k v :
  put_record cf k v None s = (Ok (set_cf cf (LogRecord_new (clock (ticks s)) k v)), tick s).
Proof. unfold put_record. rewrite bind_now. cbn. by rewrite no_default_ttl. Qed.

Lemma version_ok_put t t' k v :
  user_key k = true -> v <> [] -> fits k v -> t < t' ->
  version_ok t' k (set_cf cf (LogRecord_new t k v)).
Proof. intros Hu Hv Hf Ht. split; cbn; try done; intros; apply Hf; auto. Qed.

Lemma version_ok_delete t t' k :
  user_key k = true -> fits k [] -> t < t' -> version_ok t' k (tombstone t k).
Proof. intros Hu Hf Ht. split; cbn; try done; intros; apply Hf; auto. Qed.

Lemma version_ok_batch t t' k v :
  user_key k = true -> v <> [] -> fits k v -> t < t' -> version_ok t' k (LogRecord_new t k v).
Proof. intros Hu Hv Hf Ht. split; cbn; try done; intros; apply Hf; auto. Qed.

Lemma compact_view (b : bool) s s' : (if b then maybe_compact else mret tt : M unit) s = (Ok tt, s') -> same_view s s'.
Proof. destruct b; intros [= <-]; by split. Qed.

Lemma put_phase_refines s m k v n b s' :
  refines s m -> user_key k = true -> v <> [] -> fits k v ->
  write_phases cf (set_cf cf (LogRecord_new (clock (ticks s)) k v))
    (mret (fun mem => mem_insert mem (set_cf cf (LogRecord_new (clock (ticks s)) k v)))) n (tick s) = (Ok b, s') ->
  refines s' (<[k := v]> m).
Proof.
  intros Href Hu Hv Hf Hw. apply (write_phases_refines _ m k v false) in Hw; [done| |].
  - eapply refines_frame; [apply tick_view|done].
  - intros s0 f s2 Hsv [= <- <-]. split; [done|]. eexists. split; [done|]. split_and!; try done.
    + apply version_ok_put; try done. apply clock_lt. apply (sv_ticks _ _ Hsv).
    + intros rt Hin. apply (refines_rts s m) in Hin; [cbn; lia|done].
Qed.

Lemma delete_phase_refines s m k n b s' :
  refines s m -> user_key k = true -> fits k [] ->
  write_phases cf (set_cf cf (tombstone (clock (ticks s)) k))
    (t ← now; mret (fun mem => mem_delete t mem k)) n (tick s) = (Ok b, s') ->
  refines s' (delete k m).
Proof.
  intros Href Hu Hf Hw. apply (write_phases_refines _ m k [] true) in Hw; [done| |].
  - eapply refines_frame; [apply tick_view|done].
  - intros s0 f s2 Hsv. rewrite bind_now. intros [= <- <-]. split; [apply tick_view|].
    eexists. split; [done|]. split_and!; try done.
    + apply version_ok_delete; try done. apply clock_lt. cbn. lia.
    + intros rt Hin. apply (refines_rts s m) in Hin; [|done].
      pose proof (clock_le _ _ (sv_ticks _ _ Hsv)) as Hle. pose proof (clock_mono (ticks s)).
      cbn in Hle |- *. lia.
Qed.

Lemma put_refines d s m k v s' :
  refines s m -> user_key k = true -> v <> [] -> fits k v ->
  (cf = "default"%string \/ json_str_field v = None) ->
  put_cf_with_ttl_inner (S d) cf k v None s = (Ok tt, s') -> refines s' (<[k := v]> m).
Proof.
  intros Href Hu Hv Hf Hj Hp. cbn [put_cf_with_ttl_inner] in Hp.
  destruct (_ <? _) in Hp; [done|]. destruct (_ <? _) in Hp; [done|].
  rewrite (bind_Ok _ _ _ _ _ (put_record_plain s k v)) in Hp.
  apply bind_Ok_inv in Hp as (b & s1 & Hw & Hp).
  apply (put_phase_refines s m) in Hw; [|done..].
  destruct (update_indexes_refines s1 _ (fun cf k v => put_cf_with_ttl_inner d cf k v None) k v Hj Hw)
    as (s2 & Hi & Hs2).
  rewrite (bind_Ok _ _ s1 tt s2) in Hp by (unfold warn_on_err; by rewrite Hi).
  eapply refines_frame; [|exact Hs2]. by apply compact_view in Hp.
Qed.

Lemma ok_value_get s m k : refines s m ->
  exists s', ok_value (get_cf cf k) s = (Ok (m !! k), s') /\ refines s' m.
Proof.
  intros Href. destruct (get_refines s m k Href) as (s' & Hg & Hs'). exists s'.
  unfold ok_value. by rewrite Hg.
Qed.

Lemma delete_refines d s m k s' :
  refines s m -> user_key k = true -> fits k [] ->
  delete_cf_inner (S d) cf k s = (Ok tt, s') -> refines s' (delete k m).
Proof.
  intros Href Hu Hf Hp. cbn [delete_cf_inner] in Hp. rewrite bind_now in Hp.
  apply bind_Ok_inv in Hp as (b & s1 & Hw & Hp).
  apply (delete_phase_refines s m) in Hw; [|done..].
  destruct (ok_value_get s1 _ k Hw) as (s2 & Hg & Hs2). rewrite lookup_delete_eq in Hg.
  rewrite (bind_Ok _ _ _ _ _ Hg) in Hp.
  destruct (ok_value_get s2 _ (ttl_key k) Hs2) as (s3 & Hg3 & Hs3).
  rewrite (bind_Ok _ _ s2 tt s3) in Hp by (by rewrite (bind_Ok _ _ _ _ _ Hg3)).
  eapply refines_frame; [|exact Hs3]. by apply compact_view in Hp.
Qed.

Lemma delete_range_refines s m start stop s' :
  refines s m -> delete_range_cf cf start stop s = (Ok tt, s') -> refines s' (delete_keys start stop m).
Proof.
  intros Href. unfold delete_range_cf. rewrite !bind_now.
  intros (u & s1 & Hw & Hp)%bind_Ok_inv. apply wal_apply_view in Hw.
  assert (same_view s s1) as Hsv by (do 2 (etrans; [apply tick_view|]); done).
  rewrite bind_modify, update_memtable_updated in Hp. injection Hp as <-.
  destruct Href as (ess & Hok & Hm).
  assert (forall k, version s1 ess k = version s ess k) as Hve.
  { intros k. unfold version, mem_data, mem_list. by rewrite (sv_memtables _ _ Hsv). }
  apply (range_refines _ ess); [by eapply core_ok_frame| | |].
  - intros k. rewrite Hve, Hm. unfold shown, rts. by rewrite (sv_rts _ _ Hsv).
  - apply clock_lt. pose proof (sv_ticks _ _ Hw) as Hle. cbn in Hle. lia.
  - intros k r Hv. rewrite Hve in Hv. apply (vo_time _ _ _ (version_version_ok _ _ _ _ Hok Hv)).
Qed.

(** ** Batches *)

Lemma batch_puts_refines items s m s' :
  refines s m ->
  Forall (fun e => user_key e.1 = true /\ e.2 <> [] /\ fits e.1 e.2) items ->
  batch_puts cf items s = (Ok tt, s') ->
  refines s' (foldl (fun m e => <[e.1 := e.2]> m) m items).
Proof.
  revert s m; induction items as [|[k v] items IH]; intros s m Href Hall; [by intros [= <-]|].
  apply Forall_cons in Hall as [(Hu & Hv & Hf) Hall]. cbn [fst snd] in Hu, Hv, Hf.
  cbn [batch_puts foldl fst snd]. rewrite bind_now, (bind_Ok _ _ _ _ _ (update_memtable_updated _ _)).
  intros (u & s1 & Hb & Hp)%bind_Ok_inv. apply add_memtable_bytes_view in Hb.
  eapply IH; [|done|exact Hp]. eapply refines_frame; [exact Hb|].
  unfold mem_put. apply (insert_refines (tick s) m k (LogRecord_new (clock (ticks s)) k v)).
  - eapply refines_frame; [apply tick_view|done].
  - apply version_ok_batch; try done. apply clock_lt. cbn. lia.
  - intros rt Hin. apply (refines_rts s m) in Hin; [cbn; lia|done].
Qed.

Lemma batch_deletes_refines ks s m s' :
  refines s m -> Forall (fun k => user_key k = true /\ fits k []) ks ->
  batch_deletes cf ks s = (Ok tt, s') -> refines s' (foldl (fun m k => delete k m) m ks).
Proof.
  revert s m; induction ks as [|k ks IH]; intros s m Href Hall; [by intros [= <-]|].
  apply Forall_cons in Hall as [(Hu & Hf) Hall]. cbn [batch_deletes foldl].
  rewrite bind_now, (bind_Ok _ _ _ _ _ (update_memtable_updated _ _)).
  intros (u & s1 & Hb & Hp)%bind_Ok_inv. apply add_memtable_bytes_view in Hb.
  eapply IH; [|done|exact Hp]. eapply refines_frame; [exact Hb|].
  unfold mem_delete. apply (insert_refines (tick s) m k (tombstone (clock (ticks s)) k)).
  - eapply refines_frame; [apply tick_view|done].
  - apply version_ok_delete; try done. apply clock_lt. cbn. lia.
  - intros rt Hin. apply (refines_rts s m) in Hin; [cbn; lia|done].
Qed.

Lemma batch_records_view items s rs s' : batch_records cf items s = (Ok rs, s') -> same_view s s'.
Proof.
  revert s rs; induction items as [|[k v] items IH]; intros s rs; cbn [batch_records]; [by intros [= _ <-]|].
  rewrite bind_now. intros (rest & s1 & Hr & Hp)%bind_Ok_inv. injection Hp as _ <-.
  etrans; [apply tick_view|]. by eapply IH.
Qed.
Lemma batch_tombstones_view ks s rs s' : batch_tombstones cf ks s = (Ok rs, s') -> same_view s s'.
Proof.
  revert s rs; induction ks as [|k ks IH]; intros s rs; cbn [batch_tombstones]; [by intros [= _ <-]|].
  rewrite bind_now. intros (rest & s1 & Hr & Hp)%bind_Ok_inv. injection Hp as _ <-.
  etrans; [apply tick_view|]. by eapply IH.
Qed.

Lemma set_batch_refines items s m s' :
  refines s m -> Forall (fun e => user_key e.1 = true /\ e.2 <> [] /\ fits e.1 e.2) items ->
  set_batch_cf cf items s = (Ok tt, s') -> refines s' (foldl (fun m e => <[e.1 := e.2]> m) m items).
Proof.
  intros Href Hall Hp. unfold set_batch_cf in Hp.
  apply bind_Ok_inv in Hp as (rs & s1 & Hr & Hp). apply batch_records_view in Hr.
  apply bind_Ok_inv in Hp as (u & s2 & Hw & Hp). apply wal_apply_view in Hw.
  apply bind_Ok_inv in Hp as ([] & s3 & Hb & Hp).
  apply (batch_puts_refines _ _ m) in Hb; [|eapply refines_frame; [|done]; by etrans|done].
  apply bind_Ok_inv in Hp as (b & s4 & Hfl & Hp). apply (flush_if_full_refines _ _ _ _ Hb) in Hfl.
  eapply refines_frame; [|exact Hfl]. by apply compact_view in Hp.
Qed.

Lemma delete_batch_refines ks s m s' :
  refines s m -> Forall (fun k => user_key k = true /\ fits k []) ks ->
  delete_batch_cf cf ks s = (Ok tt, s') -> refines s' (foldl (fun m k => delete k m) m ks).
Proof.
  intros Href Hall Hp. unfold delete_batch_cf in Hp.
  apply bind_Ok_inv in Hp as (rs & s1 & Hr & Hp). apply batch_tombstones_view in Hr.
  apply bind_Ok_inv in Hp as (u & s2 & Hw & Hp). apply wal_apply_view in Hw.
  apply bind_Ok_inv in Hp as ([] & s3 & Hb & Hp).
  apply (batch_deletes_refines _ _ m) in Hb; [|eapply refines_frame; [|done]; by etrans|done].
  apply bind_Ok_inv in Hp as (b & s4 & Hfl & Hp). apply (flush_if_full_refines _ _ _ _ Hb) in Hfl.
  eapply refines_frame; [|exact Hfl]. by apply compact_view in Hp.
Qed.

(** ** Prefix searches *)

(** The entries of a prefix after a cursor. *)
Definition hits (m : gmap bytes bytes) (prefix : bytes) (cursor : option bytes) : list (bytes * bytes) :=
  filter (fun e => starts_with e.1 prefix
                   && match cursor with Some c => bytes_ltb c e.1 | None => true end = true)
         (sorted_entries m).

(** From a cursor of the prefix on: the cursor's own entry, if it is still
    there, and the hits after it. *)
Lemma range_from_cursor (l : list (bytes * bytes)) prefix c :
  key_sorted l -> starts_with c prefix = true -> Byte.xff ∉ prefix ->
  filter (fun e => in_range (Some c) (prefix_end prefix) e.1 = true) l =
  option_list (pair c <$> assoc c l) ++
  filter (fun e => starts_with e.1 prefix && bytes_ltb c e.1 = true) l.
Proof.
  intros Hs Hc Hff. pose proof (prefix_range prefix c Hff) as Hpc. rewrite Hc in Hpc.
  assert (forall k, in_range (Some c) (prefix_end prefix) k = true <-> starts_with k prefix = true /\ bytes_le c k) as Hir.
  { intros k. rewrite <- (prefix_range prefix k Hff). unfold in_range in *.
    apply andb_true_iff in Hpc as [Hpc _]. rewrite !andb_true_iff. split; [|naive_solver].
    intros [Hle ->]. split; [|done]. split; [|done]. change (bytes_le prefix k). bytes_prop. by etrans. }
  induction l as [|[k v] l IH]; [done|]. apply key_sorted_cons in Hs as [Hlt Hs]. specialize (IH Hs).
  cbn [assoc]. rewrite !filter_cons. cbn [fst].
  destruct (bytes_eqb_spec c k) as [->|Hne].
  - rewrite decide_True by (apply Hir; split; [done|reflexivity]).
    rewrite decide_False by (intros [_ Hbad]%andb_true_iff; by apply bytes_lt_irrefl in Hbad). cbn. f_equal.
    apply filter_weaken. intros [k' v'] Hin. rewrite Hir, andb_true_iff. cbn. apply Hlt in Hin.
    split; [naive_solver|]. intros [? _]. split; [done|]. by apply bytes_lt_le.
  - destruct (decide (bytes_lt c k)) as [Hck|Hck].
    + assert (assoc c l = None) as Hnone.
      { apply assoc_None. intros ([k' v'] & -> & Hin)%list_elem_of_fmap. apply Hlt in Hin. cbn in *. bytes_order. }
      rewrite Hnone in IH |- *. cbn in IH |- *. rewrite IH.
      rewrite (decide_ext (in_range (Some c) (prefix_end prefix) k = true) (starts_with k prefix && bytes_ltb c k = true));
        [done|]. rewrite Hir, andb_true_iff. split; [naive_solver|]. intros [? ?]. split; [done|]. by apply bytes_lt_le.
    + rewrite decide_False by (rewrite Hir; intros [_ Hle]; apply bytes_le_iff in Hle; naive_solver).
      rewrite decide_False by (rewrite andb_true_iff; naive_solver). done.
Qed.

Lemma search_prefix_refines s m prefix cursor limit :
  cf = "default"%string -> refines s m -> Byte.xff ∉ prefix -> 0 <= limit <= usize_max - 2 ->
  match cursor with Some c => starts_with c prefix = true | None => True end ->
  exists s', search_prefix prefix cursor limit s =
    (Ok (take (Z.to_nat limit) (hits m prefix cursor),
         if limit <? len (hits m prefix cursor)
         then last (take (Z.to_nat limit) (hits m prefix cursor)) ≫= (fun e => from_utf8 e.1) else None), s') /\
    refines s' m.
Proof.
  intros Hcf Href Hff Hlim Hcur. unfold search_prefix. rewrite <- Hcf. set (l := sorted_entries m).
  rewrite as_u64_small by (destruct cursor; lia).
  assert (forall n (hs : list (bytes * bytes)), limit < n ->
    take (Z.to_nat limit) (take (Z.to_nat n) hs) = take (Z.to_nat limit) hs /\
    (limit <? len (take (Z.to_nat n) hs)) = (limit <? len hs)) as Htake.
  { intros n hs Hn. split; [rewrite take_take; f_equal; lia|]. unfold len. rewrite length_take.
    destruct (Z.ltb_spec limit (Z.of_nat (length hs))); [apply Z.ltb_lt|apply Z.ltb_ge]; lia. }
  destruct cursor as [c|].
  - destruct (scan_refines s m (Some c) (prefix_end prefix) (Some (limit + 2)) Href) as (s' & Hs & Href'); [lia|].
    rewrite (bind_Ok _ _ _ _ _ Hs). exists s'. split; [|done]. unfold mret, M_ret.
    change (default MAX_SCAN_LIMIT (Some (limit + 2))) with (limit + 2).
    rewrite range_from_cursor by (done || apply sorted_entries_sorted). fold (hits m prefix (Some c)).
    set (hs := hits m prefix (Some c)).
    assert (forall e, e ∈ hs -> bytes_eqb e.1 c = false) as Hno.
    { intros e [[_ Hlt]%andb_true_iff _]%list_elem_of_filter. destruct (bytes_eqb_spec e.1 c) as [Heq|]; [|done].
      rewrite Heq in Hlt. by apply bytes_lt_irrefl in Hlt. }
    assert (forall n, skip_while (fun e : bytes * bytes => bytes_eqb e.1 c) (take n hs) = take n hs) as Hskip.
    { intros n. destruct n, hs as [|e hs']; try done. cbn. by rewrite (Hno e) by (by left). }
    destruct (assoc c (sorted_entries m)) as [v|];
      [change (option_list (pair c <$> Some v)) with [(c, v)]; cbn [app]
      |change (option_list (pair c <$> @None bytes) ++ hs) with hs].
    + replace (Z.to_nat (limit + 2)) with (S (Z.to_nat (limit + 1))) by lia. cbn [take skip_while fst].
      rewrite (proj2 (bytes_eqb_eq c c) eq_refl), Hskip. destruct (Htake (limit + 1) hs ltac:(lia)) as [-> ->]. done.
    + rewrite Hskip. destruct (Htake (limit + 2) hs ltac:(lia)) as [-> ->]. done.
  - destruct (scan_refines s m (Some prefix) (prefix_end prefix) (Some (limit + 1)) Href) as (s' & Hs & Href'); [lia|].
    rewrite (bind_Ok _ _ _ _ _ Hs). exists s'. split; [|done]. unfold mret, M_ret.
    change (default MAX_SCAN_LIMIT (Some (limit + 1))) with (limit + 1).
    assert (filter (fun e => in_range (Some prefix) (prefix_end prefix) e.1 = true) (sorted_entries m)
            = hits m prefix None) as ->.
    { apply filter_weaken. intros e _. by rewrite prefix_range, andb_true_r by done. }
    assert (forall l : list (bytes * bytes), skip_while (fun _ => false) l = l) as -> by (by destruct l0).
    by destruct (Htake (limit + 1) (hits m prefix None) ltac:(lia)) as [-> ->].
Qed.

(** ** Histories *)

(** The operations of a client on the column family, and what they answer. *)
Inductive op : Type :=
| Put (k v : bytes)
| Delete (k : bytes)
| DeleteRange (start stop : bytes)
| SetBatch (items : list (bytes * bytes))
| DeleteBatch (ks : list bytes)
| Flush
| Get (k : bytes)
| Scan (lower upper : option bytes) (limit : option Z).
Inductive answer : Type :=
| Done
| Value (v : option bytes)
| Entries (es : list (bytes * bytes)).

Definition run_op (o : op) : M answer :=
  match o with
  | Put k v => put_cf cf k v;; mret Done
  | Delete k => delete_cf cf k;; mret Done
  | DeleteRange start stop => delete_range_cf cf start stop;; mret Done
  | SetBatch items => set_batch_cf cf items;; mret Done
  | DeleteBatch ks => delete_batch_cf cf ks;; mret Done
  | Flush => flush_memtable_cf cf;; mret Done
  | Get k => v ← get_cf cf k; mret (Value v)
  | Scan lower upper limit => es ← scan_cf cf lower upper limit; mret (Entries es)
  end.
Fixpoint run_ops (os : list op) : M (list answer) :=
  match os with
  | [] => mret []
  | o :: os => a ← run_op o; rest ← run_ops os; mret (a :: rest)
  end.

(** The same history on a finite map. *)
Definition spec_op (m : gmap bytes bytes) (o : op) : gmap bytes bytes * answer :=
  match o with
  | Put k v => (<[k := v]> m, Done)
  | Delete k => (delete k m, Done)
  | DeleteRange start stop => (delete_keys start stop m, Done)
  | SetBatch items => (foldl (fun m e => <[e.1 := e.2]> m) m items, Done)
  | DeleteBatch ks => (foldl (fun m k => delete k m) m ks, Done)
  | Flush => (m, Done)
  | Get k => (m, Value (m !! k))
  | Scan lower upper limit =>
      (m, Entries (take (Z.to_nat (default MAX_SCAN_LIMIT limit))
                     (filter (fun e => in_range lower upper e.1 = true) (sorted_entries m))))
  end.
Fixpoint spec_ops (m : gmap bytes bytes) (os : list op) : gmap bytes bytes * list answer :=
  match os with
  | [] => (m, [])
  | o :: os => let '(m, a) := spec_op m o in let '(m, rest) := spec_ops m os in (m, a :: rest)
  end.

(** The arguments the statement is about: keys the engine does not reserve,
    non-empty values, entries a table can hold. *)
Definition op_ok (o : op) : Prop :=
  match o with
  | Put k v => user_key k = true /\ v <> [] /\ fits k v /\
               (cf = "default"%string \/ json_str_field v = None)
  | Delete k => user_key k = true /\ fits k []
  | SetBatch items => Forall (fun e => user_key e.1 = true /\ e.2 <> [] /\ fits e.1 e.2) items
  | DeleteBatch ks => Forall (fun k => user_key k = true /\ fits k []) ks
  | Scan _ _ (Some limit) => 0 <= limit
  | DeleteRange _ _ | Flush | Get _ | Scan _ _ None => True
  end.

Lemma run_op_refines s m o a s' :
  refines s m -> op_ok o -> run_op o s = (Ok a, s') ->
  refines s' (spec_op m o).1 /\ a = (spec_op m o).2.
Proof.
  intros Href Hok Hrun.
  destruct o as [k v|k|start stop|items|ks| |k|lower upper limit]; cbn [run_op spec_op op_ok] in *;
    apply bind_Ok_inv in Hrun as (x & s1 & Hx & Ha); injection Ha as <- <-; cbn [fst snd].
  - destruct x, Hok as (? & ? & ? & ?). split; [|done]. by eapply put_refines.
  - destruct x, Hok. split; [|done]. by eapply delete_refines.
  - destruct x. split; [|done]. by eapply delete_range_refines.
  - destruct x. split; [|done]. by eapply set_batch_refines.
  - destruct x. split; [|done]. by eapply delete_batch_refines.
  - split; [|done]. apply bind_Ok_inv in Hx as (b & s2 & Hx & Hb). injection Hb as _ <-.
    by eapply flush_refines.
  - destruct (get_refines s m k Href) as (s2 & Hg & Hs2). rewrite Hg in Hx. by injection Hx as <- <-.
  - destruct (scan_refines s m lower upper limit Href) as (s2 & Hg & Hs2); [by destruct limit|].
    rewrite Hg in Hx. by injection Hx as <- <-.
Qed.

Lemma run_ops_refines s m os rs s' :
  refines s m -> Forall op_ok os -> run_ops os s = (Ok rs, s') ->
  refines s' (spec_ops m os).1 /\ rs = (spec_ops m os).2.
Proof.
  intros Href Hall. revert s m rs Href. induction Hall as [|o os Ho Hall IH]; intros s m rs Href Hrun.
  { by injection Hrun as <- <-. }
  cbn [run_ops spec_ops] in *. apply bind_Ok_inv in Hrun as (a & s1 & Ha & Hrun).
  destruct (run_op_refines _ _ _ _ _ Href Ho Ha) as [Href1 ->].
  apply bind_Ok_inv in Hrun as (rest & s2 & Hr & Hrun). injection Hrun as <- <-.
  destruct (spec_op m o) as [m1 a1]. cbn [fst snd] in *.
  destruct (IH _ _ _ Href1 Hr) as [Href2 ->]. by destruct (spec_ops m1 os).
Qed.

Lemma refines_new : refines EngineCore_new ∅.
Proof.
  assert (mem_list EngineCore_new = []) as Hml by done. assert (rts EngineCore_new = []) as Hrts by done.
  exists []. split; [|intros k; by rewrite lookup_empty]. split.
  - rewrite Hml. simpl. lia.
  - apply map_Forall_empty.
  - rewrite Hml. set_solver.
  - rewrite Hrts. set_solver.
  - constructor.
  - set_solver.
  - done.
  - done.
  - by apply kv_coherent_empty.
  - cbn. intros p f. by rewrite lookup_empty.
  - constructor.
  - apply NoDup_nil_2.
Qed.

(** ** Pagination *)

(** Page after page of a prefix search, until no cursor is returned. *)
Fixpoint search_pages (fuel : nat) (prefix : bytes) (cursor : option bytes) (limit : Z)
    : M (list (bytes * bytes)) :=
  match fuel with
  | O => mret []
  | S fuel =>
      '(page, next) ← search_prefix prefix cursor limit;
      match next with
      | None => mret page
      | Some c => rest ← search_pages fuel prefix (Some c) limit; mret (page ++ rest)
      end
  end.

Lemma key_sorted_filter_after (l : list (bytes * bytes)) k v rest :
  key_sorted (l ++ (k, v) :: rest) -> filter (fun e => bytes_ltb k e.1 = true) (l ++ (k, v) :: rest) = rest.
Proof.
  intros (_ & Hs & Hlt)%key_sorted_app. apply key_sorted_cons in Hs as [Hk _].
  rewrite filter_app, filter_none.
  - rewrite filter_cons, decide_False by (cbn; intros Hbad; by apply bytes_lt_irrefl in Hbad). cbn.
    apply filter_all. intros [k' v'] Hin. by eapply Hk.
  - intros x Hx Hbad. specialize (Hlt x (k, v) Hx ltac:(by left)). cbn in *.
    change (bytes_lt k x.1) in Hbad. bytes_order.
Qed.

(** The hits after the last key of a page are the rest of the hits. *)
Lemma hits_after m prefix cursor l k v rest :
  hits m prefix cursor = l ++ (k, v) :: rest -> hits m prefix (Some k) = rest.
Proof.
  intros Heq. assert (key_sorted (hits m prefix cursor)) as Hs
    by (apply key_sorted_filter, sorted_entries_sorted).
  rewrite Heq in Hs. rewrite <- (key_sorted_filter_after l k v rest Hs) at 1. rewrite <- Heq.
  unfold hits. rewrite list_filter_filter. apply filter_weaken. intros e _. rewrite !andb_true_iff.
  destruct cursor as [c|]; [|naive_solver]. split; [|naive_solver]. intros [? Hke]. split_and!; try done.
  assert (bytes_lt c k) as Hck.
  { assert ((k, v) ∈ hits m prefix (Some c)) as [[_ Hck]%andb_true_iff _]%list_elem_of_filter; [|done].
    rewrite Heq. set_solver. }
  change (bytes_lt c e.1). by etrans.
Qed.

Lemma search_pages_refines fuel s m prefix cursor limit :
  cf = "default"%string -> refines s m -> Byte.xff ∉ prefix -> 0 < limit <= usize_max - 2 ->
  match cursor with Some c => starts_with c prefix = true | None => True end ->
  map_Forall (fun k _ => is_Some (from_utf8 k)) m ->
  (length (hits m prefix cursor) < fuel)%nat ->
  exists s', search_pages fuel prefix cursor limit s = (Ok (hits m prefix cursor), s') /\ refines s' m.
Proof.
  intros Hcf. revert s cursor. induction fuel as [|fuel IH]; intros s cursor Href Hff Hlim Hcur Htext Hfuel; [lia|].
  cbn [search_pages].
  destruct (search_prefix_refines s m prefix cursor limit Hcf Href Hff ltac:(lia) Hcur) as (s1 & Hp & Href1).
  rewrite (bind_Ok _ _ _ _ _ Hp). clear Hp. set (hs := hits m prefix cursor) in *.
  destruct (Z.ltb_spec limit (len hs)) as [Hmore|Hend].
  2:{ exists s1. split; [|done]. unfold mret, M_ret. do 2 f_equal. apply take_ge. unfold len in Hend. lia. }
  unfold len in Hmore. destruct (last (take (Z.to_nat limit) hs)) as [[k v]|] eqn:El.
  2:{ apply last_None, (f_equal length) in El. rewrite length_take in El. cbn in El. lia. }
  apply last_Some in El as (l & El).
  assert (hs = l ++ (k, v) :: drop (Z.to_nat limit) hs) as Hsplit.
  { rewrite <- (take_drop (Z.to_nat limit) hs) at 1. by rewrite El, <- app_assoc. }
  assert ((k, v) ∈ hs) as Hin by (rewrite Hsplit; set_solver).
  apply list_elem_of_filter in Hin as [[Hsw _]%andb_true_iff Hin%elem_of_sorted_entries].
  destruct (Htext k v Hin) as [k' Hk']. cbn [mbind option_bind fst]. rewrite Hk'.
  apply from_utf8_lossy_valid in Hk' as [-> _].
  pose proof (hits_after m prefix cursor _ _ _ _ Hsplit) as Hafter.
  destruct (IH s1 (Some k) Href1 Hff Hlim Hsw Htext) as (s2 & Hp & Href2).
  { rewrite Hafter, length_drop. fold hs. lia. }
  rewrite (bind_Ok _ _ _ _ _ Hp). exists s2. split; [|done]. unfold mret, M_ret. do 2 f_equal.
  rewrite Hafter. apply take_drop.
Qed.

End spec.

(** ** Histories of a new engine *)

Section histories.
Context `{!Crc32, !Aead, !Postcard LogRecord, !Postcard LogRecordV0, !Postcard LogRecordV1}.
Context `{!BloomCrate} `{!SstStore} `{!SstStoreLaws} `{!Moka bytes bytes} `{!SerdeJson} `{!EngineEnv}.
Context (clock_mono : forall i, 0 <= clock i < clock (S i)).
Context (cf : string) (no_default_ttl : default_ttl options = None).
#[local] Instance all_resident : Residency := True.

(** C1: the engine is a map.  Take any history of puts, deletes, range deletes,
    batches, flushes, reads and scans of one column family, started on an empty
    engine under a strictly increasing clock and without expiry, in which every
    call succeeded, values are not empty, keys are not reserved by the engine and
    every entry fits a block ([op_ok]).  It answered as the same history on a
    finite map does: through memtable, flushed tables, filters, value cache and
    range tombstones, in any interleaving with flushes, explicit or caused by a
    full buffer.  In the state reached, reads cannot fail: every [get] and every
    [scan] succeeds and answers as the map. *)
Theorem engine_refines_map os rs s' :
  Forall (op_ok cf) os -> run_ops cf os EngineCore_new = (Ok rs, s') ->
  rs = (spec_ops ∅ os).2 /\
  (forall k, (get_cf cf k s').1 = Ok ((spec_ops ∅ os).1 !! k)) /\
  (forall lower upper limit, 0 <= limit -> (scan_cf cf lower upper (Some limit) s').1 =
     Ok (take (Z.to_nat limit)
           (filter (fun e => in_range lower upper e.1 = true) (sorted_entries (spec_ops ∅ os).1)))).
Proof.
  intros Hall Hrun. destruct (run_ops_refines clock_mono cf no_default_ttl _ _ _ _ _ (refines_new clock_mono cf no_default_ttl) Hall Hrun) as [Href ->].
  split_and!; [done| |].
  - intros k. by destruct (get_refines clock_mono cf _ _ k Href) as (s2 & -> & _).
  - intros lower upper limit Hl. by destruct (scan_refines clock_mono cf _ _ lower upper (Some limit) Href Hl) as (s2 & -> & _).
Qed.

(** C2: pagination is complete.  After a history of the column family ["default"]
    as [engine_refines_map] takes it, with keys that are UTF-8, following the
    cursors of [search_prefix] page by page from a prefix that is UTF-8 yields
    every entry whose key starts with the prefix exactly once, in key order, and
    ends, for every page size from one to two below the largest [usize]. *)
Theorem search_prefix_pages_complete os rs s' prefix limit fuel :
  cf = "default"%string ->
  Forall (op_ok cf) os -> run_ops cf os EngineCore_new = (Ok rs, s') ->
  is_Some (from_utf8 prefix) -> 0 < limit <= usize_max - 2 ->
  map_Forall (fun k _ => is_Some (from_utf8 k)) (spec_ops ∅ os).1 ->
  (size (spec_ops ∅ os).1 < fuel)%nat ->
  (search_pages fuel prefix None limit s').1 =
  Ok (filter (fun e => starts_with e.1 prefix = true) (sorted_entries (spec_ops ∅ os).1)).
Proof.
  intros Hcf Hall Hrun [p Hp] Hlim Htext Hfuel.
  destruct (run_ops_refines clock_mono cf no_default_ttl _ _ _ _ _ (refines_new clock_mono cf no_default_ttl) Hall Hrun) as [Href _].
  assert (Byte.xff ∉ prefix) as Hff.
  { unfold from_utf8 in Hp. destruct (utf8_loop _ _) eqn:E; [|done]. by eapply utf8_loop_no_ff. }
  assert (hits (spec_ops ∅ os).1 prefix None
          = filter (fun e => starts_with e.1 prefix = true) (sorted_entries (spec_ops ∅ os).1)) as Hh.
  { apply filter_weaken. intros e _. by rewrite andb_true_r. }
  destruct (search_pages_refines clock_mono cf no_default_ttl fuel s' _ prefix None limit Hcf Href Hff Hlim I Htext) as (s2 & -> & _);
    [|by rewrite <- Hh].
  eapply Nat.le_lt_trans; [apply length_filter|]. unfold sorted_entries, sort_entries.
  by rewrite merge_sort_Permutation, length_map_to_list.
Qed.

End histories.
