(* ===== verification/Compaction.v ===== *)
(** * Compaction: strategies and their execution ([src/src/core/engine/compaction.rs])

    The three strategies, the merge they share, and the engine operations that
    run them ([compact_cf_core], [compact_cf], [compact] and the three phases of
    [maybe_compact], [src/src/core/engine/mod.rs]).  The trait
    [CompactionStrategy] is the record of its two operations.  Durations, which
    only metrics report, are left out. *)
From Stdlib Require Import ZArith Lia QArith.
From stdpp Require Import base tactics numbers list gmap strings sorting pretty.
From S2P Require Import Prelude Bytes SortedMap LogRecord Iterators.
From S2P Require Import MemTable Extern Encryption SstReader Wal Table.
From S2P Require Import VersionSet Utf8 Engine.
Local Open Scope Z_scope.

(** [is_key_in_range_tombstones]: timestamps are not compared. *)
Definition is_key_in_range_tombstones (k : bytes) (tombstones : list RangeTombstone) : bool :=
  existsb (fun rt => bytes_leb (start_key rt) k && bytes_ltb k (end_key rt)) tombstones.

(** [struct CompactionMetrics], without the duration. *)
Record CompactionMetrics := mkCompactionMetrics {
  bytes_read : Z;
  bytes_written : Z;
  files_merged : nat;
}.
Definition CompactionMetrics_default : CompactionMetrics :=
  {| bytes_read := 0; bytes_written := 0; files_merged := 0 |}.
Definition add_metrics (a b : CompactionMetrics) : CompactionMetrics :=
  {| bytes_read := bytes_read a + bytes_read b; bytes_written := bytes_written a + bytes_written b;
     files_merged := files_merged a + files_merged b |}.

(** The parameters of the strategies. *)
Record SizeTieredCompaction := mkSizeTieredCompaction {
  bucket_threshold : nat;
  min_tables_to_merge : nat;
}.
Definition SizeTieredCompaction_default : SizeTieredCompaction :=
  {| bucket_threshold := 4; min_tables_to_merge := 2 |}.
Record LeveledCompaction := mkLeveledCompaction {
  level_multiplier : nat;
  max_level_size : list Z;
}.
Definition LeveledCompaction_default : LeveledCompaction :=
  {| level_multiplier := 10;
     max_level_size := [10 * 1024 * 1024; 100 * 1024 * 1024; 1024 * 1024 * 1024] |}.
Record LazyLevelingCompaction := mkLazyLevelingCompaction {
  size_tiered : SizeTieredCompaction;
  leveled : LeveledCompaction;
}.
Definition LazyLevelingCompaction_default : LazyLevelingCompaction :=
  {| size_tiered := SizeTieredCompaction_default; leveled := LeveledCompaction_default |}.

Section compaction.
Context `{!Crc32, !Aead, !Postcard LogRecord, !Postcard LogRecordV0, !Postcard LogRecordV1}.
Context `{!BloomCrate} `{!SstStore} `{!Moka bytes bytes} `{!SerdeJson} `{!EngineEnv}.

(** ** Picking tables *)

(** [SizeTieredCompaction::get_table_size] and the bucket of a size. *)
Definition get_table_size (table : Table) : Z :=
  sumZ (fun e => len e.1 + len e.2) (sorted_entries (t_data table)).
Definition bucket_size (size : Z) : Z :=
  if size <? 64 * 1024 then 64 * 1024
  else if size <? 256 * 1024 then 256 * 1024
  else if size <? 1024 * 1024 then 1024 * 1024
  else usize_max.

(** [buckets.iter_mut().find(..)]: the index joins the bucket of its size, or
    opens one. *)
Fixpoint bucket_push (size : Z) (idx : nat) (buckets : list (Z * list nat)) : list (Z * list nat) :=
  match buckets with
  | [] => [(size, [idx])]
  | (bs, indices) :: buckets =>
      if bs =? size then (bs, indices ++ [idx]) :: buckets
      else (bs, indices) :: bucket_push size idx buckets
  end.
Fixpoint fill_buckets (idx : nat) (ts : list Table) (buckets : list (Z * list nat)) : list (Z * list nat) :=
  match ts with
  | [] => buckets
  | table :: ts => fill_buckets (S idx) ts (bucket_push (bucket_size (get_table_size table)) idx buckets)
  end.

(** [group_into_buckets]. *)
Definition group_into_buckets (ts : list Table) (threshold : nat) : list (list nat) :=
  (filter (fun b => (threshold <= length b.2)%nat) (fill_buckets 0 ts [])).*2.

(** [pick_tables] of the three strategies. *)
Definition l0_indices (ts : list Table) : list nat :=
  (filter (fun e => t_level e.2 = 0%nat) (imap pair ts)).*1.
Definition st_pick_tables (self : SizeTieredCompaction) (ts : list Table) : list (list nat) :=
  group_into_buckets ts (min_tables_to_merge self).
Definition lv_pick_tables (self : LeveledCompaction) (ts : list Table) : list (list nat) :=
  if (level_multiplier self <=? length (l0_indices ts))%nat then [l0_indices ts] else [].
Definition ll_pick_tables (self : LazyLevelingCompaction) (ts : list Table) : list (list nat) :=
  match l0_indices ts with
  | [] => lv_pick_tables (leveled self) ts
  | l0 =>
      let l0_tables := filter (fun t => t_level t = 0%nat) ts in
      (fun bucket : list nat => omap (fun local => l0 !! local) bucket)
        <$> group_into_buckets l0_tables (min_tables_to_merge (size_tiered self))
  end.

(** ** The merge *)

(** The file name of a compaction: [<prefix>_<timestamp>.sst]. *)
Definition output_path (prefix : string) (timestamp : Z) : string :=
  prefix +:+ "_" +:+ pretty (Z.to_N timestamp) +:+ ".sst".

(** The loop over the merge iterator: tombstones and keys in a range tombstone
    are left out, every other version is stamped again. *)
Fixpoint compact_loop (fuel : nat) (tombstones : list RangeTombstone)
    (merged : MergeIterator TableIterator) : M (list (bytes * LogRecord)) :=
  match fuel with
  | O => mret []
  | S fuel =>
      if negb (mi_is_valid merged) then mret []
      else
        let k := mi_key merged in
        let v := mi_value merged in
        if bytes_eqb v [] || is_key_in_range_tombstones k tombstones
        then compact_loop fuel tombstones (mi_next merged)
        else
          t ← now;
          rest ← compact_loop fuel tombstones (mi_next merged);
          mret ((k, LogRecord_new t k v) :: rest)
  end.

(** [execute_compaction]; [merged_data] is the map of the values written.  When
    nothing is left the builder is dropped and its file stays. *)
Definition execute_compaction (ts : list Table) (prefix : string) (level : option nat)
    (tombstones : list RangeTombstone) : M (list Table * CompactionMetrics) :=
  match ts with
  | [] => mret ([], CompactionMetrics_default)
  | _ =>
      let read := sumZ table_size ts in
      let merged := MergeIterator_new (table_iter <$> reverse ts) in
      at_ ← now;
      let path := output_path prefix at_ in
      entries ← compact_loop (length (remaining merged)) tombstones merged;
      match entries with
      | [] =>
          modify (fun s => add_file path (sst_remains (sst_writes s) at_ []) s);;
          mret ([], {| bytes_read := read; bytes_written := 0; files_merged := length ts |})
      | _ =>
          file ← write_sst path at_ entries;
          table ← lift (from_sstable_path path file);
          let table :=
            {| t_data := list_to_map ((fun e => (e.1, value e.2)) <$> entries);
               t_level := default (t_level table) level; t_path := t_path table;
               t_min_key := t_min_key table; t_max_key := t_max_key table;
               t_bloom := t_bloom table |} in
          mret ([table], {| bytes_read := read; bytes_written := sst_size file;
                            files_merged := length ts |})
      end
  end.

(** [trait CompactionStrategy]: its operations, and its three implementations. *)
Record CompactionStrategy := mkCompactionStrategy {
  pick_tables : list Table -> list (list nat);
  execute : list Table -> list RangeTombstone -> M (list Table * CompactionMetrics);
  strategy_name : string;
}.
Definition st_execute (ts : list Table) (tombstones : list RangeTombstone) :=
  execute_compaction ts "sst" None tombstones.
Definition lv_execute (ts : list Table) (tombstones : list RangeTombstone) :=
  execute_compaction ts "sst_L1" (Some 1%nat) tombstones.
Definition ll_execute (ts : list Table) (tombstones : list RangeTombstone) :=
  if existsb (fun t => Nat.eqb (t_level t) 0) ts then st_execute ts tombstones else lv_execute ts tombstones.

Definition size_tiered_strategy : CompactionStrategy :=
  {| pick_tables := st_pick_tables SizeTieredCompaction_default; execute := st_execute;
     strategy_name := "SizeTiered" |}.
Definition leveled_strategy : CompactionStrategy :=
  {| pick_tables := lv_pick_tables LeveledCompaction_default; execute := lv_execute;
     strategy_name := "Leveled" |}.
Definition lazy_leveling_strategy : CompactionStrategy :=
  {| pick_tables := ll_pick_tables LazyLevelingCompaction_default; execute := ll_execute;
     strategy_name := "LazyLeveling" |}.

(** [struct Compaction] and [Compaction::new]. *)
Record Compaction := mkCompaction {
  strategy : CompactionStrategy;
  c_options : CompactionOptions;
}.
Definition Compaction_new (ty : CompactionStrategyType) (opts : CompactionOptions) : Compaction :=
  {| strategy := match ty with
                 | SizeTiered => size_tiered_strategy
                 | Leveled => leveled_strategy
                 | LazyLeveling => lazy_leveling_strategy
                 end;
     c_options := opts |}.

(** [pick_compaction]; [compact] skips indices out of range. *)
Definition pick_compaction (self : Compaction) (ts : list Table) : list (list nat) :=
  pick_tables (strategy self) ts.
Definition compact (self : Compaction) (indices : list nat) (all_tables : list Table)
    (tombstones : list RangeTombstone) : M (list Table * CompactionMetrics) :=
  match omap (fun i => all_tables !! i) indices with
  | [] => mret ([], CompactionMetrics_default)
  | ts => execute (strategy self) ts tombstones
  end.

(** The compaction [new_generic] gives the engine: the strategy follows from the
    threshold, the configured one is not consulted. *)
Definition engine_compaction : Compaction :=
  let opts := compaction_options options in
  let ty := if (compaction_threshold opts <=? 4)%nat then SizeTiered else Leveled in
  Compaction_new ty {| strategy_type := ty; compaction_threshold := compaction_threshold opts;
                       max_tables_per_compaction := max_tables_per_compaction opts;
                       max_concurrent_compactions := max_concurrent_compactions opts |}.

(** ** Running a compaction under the lock *)

(** The outputs of every group; the first failure ends the loop. *)
Fixpoint compact_groups (self : Compaction) (ts : list Table) (tombstones : list RangeTombstone)
    (groups : list (list nat)) : M (list (list nat * list Table) * CompactionMetrics) :=
  match groups with
  | [] => mret ([], CompactionMetrics_default)
  | indices :: groups =>
      '(new_tables, metrics) ← compact self indices ts tombstones;
      '(rest, all_metrics) ← compact_groups self ts tombstones groups;
      mret ((indices, new_tables) :: rest, add_metrics metrics all_metrics)
  end.

(** [atomic_replace_groups], then the removal of the replaced files. *)
Definition install_groups (cf : string) (replacements : list (list nat * list Table)) : M unit :=
  removed_paths ← gets (fun s => (atomic_replace_groups (version_set s) cf replacements).1);
  modify (on_version_set (fun vs => (atomic_replace_groups vs cf replacements).2));;
  modify (fun s => foldr remove_file s removed_paths).

(** [compact_cf_core]. *)
Definition compact_cf_core (self : Compaction) (cf : string) : M (option CompactionMetrics) :=
  ts ← gets (fun s => cf_tables (version_set s) cf);
  if (length ts <? compaction_threshold (c_options self))%nat then mret None
  else match pick_compaction self ts with
       | [] => mret None
       | groups =>
           rt ← gets (fun s => default [] (core_range_tombstones s !! cf));
           '(replacements, all_metrics) ← compact_groups self ts rt groups;
           install_groups cf replacements;;
           mret (Some all_metrics)
       end.

(** [compact_cf] and [compact]: the second goes through the column families and
    stops at the first error. *)
Definition compact_cf (cf : string) : M (option CompactionMetrics) :=
  compact_cf_core engine_compaction cf.
Fixpoint compact_families (cfs : list string) : M (list (string * CompactionMetrics)) :=
  match cfs with
  | [] => mret []
  | cf :: cfs =>
      metrics ← compact_cf_core engine_compaction cf;
      rest ← compact_families cfs;
      mret (match metrics with Some m => (cf, m) :: rest | None => rest end)
  end.
Definition compact_all : M (list (string * CompactionMetrics)) :=
  cfs ← gets (fun s => column_families (version_set s));
  compact_families cfs.

(** ** Background compaction *)

(** [struct CompactionPlan]. *)
Record CompactionPlan := mkCompactionPlan {
  plan_cf : string;
  plan_tables : list Table;
  plan_groups : list (list nat);
  plan_range_tombstones : list RangeTombstone;
  plan_generation : Z;
}.

(** Phase 1: the plans, made under the lock; as many as may run at once. *)
Definition plan_of (s : EngineCore) (cf : string) : option CompactionPlan :=
  let ts := cf_tables (version_set s) cf in
  if (length ts <? compaction_threshold (c_options engine_compaction))%nat then None
  else match pick_compaction engine_compaction ts with
       | [] => None
       | groups => Some {| plan_cf := cf; plan_tables := ts; plan_groups := groups;
                           plan_range_tombstones := default [] (core_range_tombstones s !! cf);
                           plan_generation := compaction_generation (version_set s) |}
       end.
Definition compaction_plans (s : EngineCore) : list CompactionPlan :=
  take (max_concurrent_compactions (compaction_options options))
    (omap (plan_of s) (column_families (version_set s))).

(** Phase 2, without the lock: a group that fails is left out. *)
Fixpoint run_groups (ts : list Table) (tombstones : list RangeTombstone) (groups : list (list nat))
    : M (list (list nat * list Table)) :=
  match groups with
  | [] => mret []
  | indices :: groups => fun s =>
      match compact engine_compaction indices ts tombstones s with
      | (Ok (new_tables, _), s) =>
          (rest ← run_groups ts tombstones groups; mret ((indices, new_tables) :: rest)) s
      | (Err _, s) => run_groups ts tombstones groups s
      | (Panic, s) => (Panic, s)
      end
  end.
Definition run_plan (plan : CompactionPlan) : M (list (list nat * list Table)) :=
  run_groups (plan_tables plan) (plan_range_tombstones plan) (plan_groups plan).

(** Phase 3, under the lock again: a plan of another generation is discarded. *)
Definition apply_plan (plan : CompactionPlan) (results : list (list nat * list Table)) : M unit :=
  generation ← gets (fun s => compaction_generation (version_set s));
  if plan_generation plan =? generation then install_groups (plan_cf plan) results else mret tt.

(** The thread: phases 2 and 3; a panic ends it and is logged. *)
Definition catch_unwind (m : M unit) : M unit := fun s =>
  match m s with (Panic, s) => (Ok tt, s) | r => r end.
Definition background_compaction (plan : CompactionPlan) : M unit :=
  catch_unwind (results ← run_plan plan; apply_plan plan results).

End compaction.
