(* ===== verification/CompactionSpec.v ===== *)
(** * CompactionSpec: compaction keeps what readers see

    A compaction that takes all tables of a column family as one group writes a
    table whose entries are the live newest versions; installing it keeps the
    relation [refines], provided no live flushed key lies in a range tombstone. *)
From Stdlib Require Import ZArith Lia QArith.
From stdpp Require Import base tactics numbers list gmap strings sorting pretty.
From S2P Require Import Prelude Bytes SortedMap LogRecord Iterators.
From S2P Require Import MemTable Extern Encryption SstReader Wal Table.
From S2P Require Import VersionSet Utf8 Engine EngineSpec Compaction.
Local Open Scope Z_scope.

Section spec.
Context `{!Crc32, !Aead, !Postcard LogRecord, !Postcard LogRecordV0, !Postcard LogRecordV1}.
Context `{!BloomCrate} `{!SstStore} `{!SstStoreLaws} `{!Moka bytes bytes} `{!SerdeJson} `{!EngineEnv}.
Context (clock_mono : forall i, 0 <= clock i < clock (S i)).
Context (cf : string).
#[local] Instance all_resident : Residency := True.

Abbreviation entries := (list (bytes * LogRecord)).

(** ** The merge *)

(** What the merge keeps of an item. *)
Definition kept (tombstones : list RangeTombstone) (e : bytes * item) : bool :=
  negb (bytes_eqb e.2.1 [] || is_key_in_range_tombstones e.1 tombstones).

(** An entry is an item stamped between [lo] and [hi]. *)
Definition restamped (lo hi : Z) (e : bytes * LogRecord) (i : bytes * item) : Prop :=
  e.1 = i.1 /\ exists t, lo <= t < hi /\ e.2 = LogRecord_new t i.1 i.2.1.

Lemma restamped_weaken lo hi lo' hi' e i : lo' <= lo -> hi <= hi' -> restamped lo hi e i -> restamped lo' hi' e i.
Proof. intros ? ? (? & t & ? & ?). split; [done|]. exists t. split; [lia|done]. Qed.

Lemma compact_loop_ok tombstones items (merged : MergeIterator TableIterator) s :
  it_wf merged -> remaining merged = items ->
  exists es s', compact_loop (length items) tombstones merged s = (Ok es, s') /\
    same_view s s' /\ sst_writes s' = sst_writes s /\
    Forall2 (restamped (clock (ticks s)) (clock (ticks s'))) es (filter (fun i => kept tombstones i = true) items).
Proof.
  revert merged s. induction items as [|[k x] items IH]; intros merged s Hwf Hrem.
  { exists [], s. split_and!; [done|reflexivity|done|constructor]. }
  cbn [length compact_loop]. change (mi_is_valid merged) with (it_is_valid merged).
  rewrite (law_is_valid merged Hwf), Hrem. cbn [negb].
  destruct (law_head merged k x items Hwf Hrem) as (Hk & Hx & _).
  change (mi_key merged) with (it_key merged). change (mi_value merged) with (it_value merged). rewrite Hk, Hx.
  assert (it_wf (mi_next merged)) as Hwf' by exact (law_wf_next merged Hwf).
  assert (remaining (mi_next merged) = items) as Hrem'.
  { change (mi_next merged) with (it_next merged). by rewrite law_next, Hrem. }
  assert (kept tombstones (k, x) = negb (bytes_eqb x.1 [] || is_key_in_range_tombstones k tombstones)) as Hkept by done.
  rewrite filter_cons. destruct (bytes_eqb x.1 [] || is_key_in_range_tombstones k tombstones); cbn [negb] in Hkept.
  { rewrite decide_False by congruence. by apply IH. }
  rewrite decide_True, bind_now by done.
  destruct (IH (mi_next merged) (tick s) Hwf' Hrem') as (es & s' & Hl & Hsv & Hn & Hes).
  rewrite (bind_Ok _ _ _ _ _ Hl). exists ((k, LogRecord_new (clock (ticks s)) k x.1) :: es), s'.
  pose proof (clock_le clock_mono _ _ (sv_ticks _ _ Hsv)) as Hle. cbn in Hle.
  pose proof (clock_mono (ticks s)). split_and!; [done|etrans; [apply tick_view|done]|done|].
  constructor.
  - split; [done|]. exists (clock (ticks s)). split; [lia|done].
  - eapply Forall2_impl; [exact Hes|]. intros e i. apply restamped_weaken; cbn; lia.
Qed.

Lemma restamped_keys lo hi es items : Forall2 (restamped lo hi) es items -> es.*1 = items.*1.
Proof. induction 1 as [|e i es items [Hk _] _ IH]; [done|]. cbn. by rewrite Hk, IH. Qed.

Lemma restamped_sorted lo hi es items : Forall2 (restamped lo hi) es items -> key_sorted items -> key_sorted es.
Proof.
  induction 1 as [|[k r] [k' x] es items [Hk _] Hall IH]; [constructor|]. cbn in Hk. subst k'.
  intros [Hlt Hs]%key_sorted_cons. apply key_sorted_cons. split; [|by apply IH].
  intros k' r' Hin. assert (k' ∈ items.*1) as Hin'.
  { rewrite <- (restamped_keys _ _ _ _ Hall). apply list_elem_of_fmap. by exists (k', r'). }
  apply list_elem_of_fmap in Hin' as ([k'' x'] & Heq & Hin'). cbn in Heq. subst. by eapply Hlt.
Qed.

Lemma restamped_assoc lo hi es items k :
  Forall2 (restamped lo hi) es items ->
  match assoc k items with
  | Some x => exists t, lo <= t < hi /\ assoc k es = Some (LogRecord_new t k x.1)
  | None => assoc k es = None
  end.
Proof.
  induction 1 as [|[k1 r] [k' x] es items (Hk & t & Ht & Hr) _ IH]; [done|]. cbn in Hk, Hr |- *. subst.
  destruct (bytes_eqb_spec k k') as [->|]; [by exists t|done].
Qed.

(** The merge of tables held in memory shows the newest values. *)
Lemma table_sources_ok ts ess :
  Forall2 in_memory ts ess ->
  Forall source_ok (table_iter <$> ts) /\
  forall k, newest_wins (remaining <$> (table_iter <$> ts)) !! k = (fun r => (value r, None)) <$> newest ess k.
Proof.
  induction 1 as [|t es ts ess Ht _ [Hok Hnw]]; [split; [constructor|intros k; cbn; by rewrite lookup_empty]|].
  cbn [fmap list_fmap]. split.
  - constructor; [|done]. split; [apply TableIterator_new_wf|]. unfold table_iter.
    rewrite TableIterator_new_remaining. by apply key_sorted_fmap, sorted_entries_sorted.
  - intros k. rewrite newest_wins_cons. fold (remaining <$> (table_iter <$> ts)). rewrite Hnw. unfold table_iter.
    rewrite TableIterator_new_remaining, (assoc_fmap table_item (fun v => (v, None))), assoc_sorted_entries by done.
    rewrite (Ht k). cbn [newest]. by destruct (assoc k es).
Qed.

(** ** The outcome of a compaction of all tables *)

(** The entries [ess'] are the live newest versions of [ess] outside the range
    tombstones, stamped again. *)
Definition rewritten (tombstones : list RangeTombstone) (ess ess' : list entries) : Prop :=
  forall k, match newest ess k with
            | Some r =>
                if bytes_eqb (value r) [] || is_key_in_range_tombstones k tombstones
                then newest ess' k = None
                else exists t, newest ess' k = Some (LogRecord_new t k (value r))
            | None => newest ess' k = None
            end.

(** From [s] to [s'] at most one file was added, the output [outs] that holds
    [ess']. *)
Record compacted (s s' : EngineCore) (outs : list Table) (ess' : list entries) : Prop := {
  cd_memtables : memtables s' = memtables s;
  cd_version_set : version_set s' = version_set s;
  cd_rts : core_range_tombstones s' = core_range_tombstones s;
  cd_ticks : (ticks s <= ticks s')%nat;
  cd_disk : disk s ⊆ disk s';
  cd_stamped : forall p f, disk s' !! p = Some f ->
    disk s !! p = Some f \/ exists t, 0 <= t < clock (ticks s') /\ stamped p t;
  cd_length : (length outs <= 1)%nat;
  cd_holds : Forall2 (table_holds (disk s') ∅) outs ess';
  cd_memory : Forall2 in_memory outs ess';
  cd_versions : forall es k r, es ∈ ess' -> assoc k es = Some r -> version_ok (clock (ticks s')) k r;
  cd_fresh : forall t p, t ∈ outs -> t_path t = Some p -> disk s !! p = None;
}.

Lemma view_compacted s s' : same_view s s' -> compacted s s' [] [].
Proof.
  intros [Hm Hv Hr Hd Ht].
  split; rewrite ?Hd; try done; try (by constructor); try set_solver; simpl; auto with lia.
Qed.

Lemma output_stamped pre t : pre ∈ ["sst"; "sst_L1"]%string -> stamped (output_path pre t) t.
Proof.
  intros Hpre. exists (pre +:+ "_"). unfold output_path. rewrite string_app_assoc. split; [|done].
  set_unfold. destruct Hpre as [->|[->|[]]]; auto.
Qed.

(** The entries written for a key. *)
Lemma output_assoc (tombstones : list RangeTombstone) (ess : list entries) (nw : gmap bytes item)
    (lo hi : Z) (es : entries) (k : bytes) :
  (forall k, nw !! k = (fun r => (value r, None)) <$> newest ess k) ->
  Forall2 (restamped lo hi) es (filter (fun i => kept tombstones i = true) (sorted_entries nw)) ->
  match newest ess k with
  | Some r => if bytes_eqb (value r) [] || is_key_in_range_tombstones k tombstones
              then assoc k es = None
              else exists t, lo <= t < hi /\ assoc k es = Some (LogRecord_new t k (value r))
  | None => assoc k es = None
  end.
Proof.
  intros Hnw Hes. pose proof (restamped_assoc _ _ _ _ k Hes) as Ha.
  rewrite assoc_filter, assoc_sorted_entries, Hnw in Ha by apply sorted_entries_sorted.
  destruct (newest ess k) as [r|]; cbn [fmap option_fmap option_map] in Ha; [|done].
  unfold kept in Ha. cbn [fst snd] in Ha. case_decide as Hd.
  - by apply negb_true_iff in Hd as ->.
  - by apply not_true_is_false, negb_false_iff in Hd as ->.
Qed.

Lemma restamped_version_ok s ess k r t :
  core_ok cf s ess -> newest ess k = Some r -> value r <> [] -> forall hi, t < hi ->
  version_ok hi k (LogRecord_new t k (value r)).
Proof.
  intros Hok Hr Hv hi Ht.
  pose proof (newest_version _ _ _ _ (co_versions _ _ _ Hok) Hr) as [_ Hu _ _ _ _ Hw].
  by split.
Qed.

(** The output path is new. *)
Lemma output_path_fresh s ess s1 pre :
  core_ok cf s ess -> same_view s s1 -> (ticks s < ticks s1)%nat -> pre ∈ ["sst"; "sst_L1"]%string ->
  stamped (output_path pre (clock (ticks s))) (clock (ticks s)) /\
  0 <= clock (ticks s) < clock (ticks s1) /\ disk s !! output_path pre (clock (ticks s)) = None.
Proof.
  intros Hok [Hm Hv Hr Hd Htk] Hlt Hpre. set (at_ := clock (ticks s)). set (path := output_path pre at_).
  assert (stamped path at_) as Hpath by (by apply output_stamped).
  split; [done|]. split; [split; [apply clock_mono|by apply clock_lt]|].
  destruct (disk s !! path) as [f|] eqn:E; [|done].
  destruct (co_disk _ _ _ Hok _ _ E) as (t & Ht & Hst).
  pose proof (clock_mono (ticks s)). apply (stamped_inj _ t at_) in Hst; [lia|lia|lia|done].
Qed.

(** A dropped builder: a file that no table refers to. *)
Lemma dropped_compacted s s1 ess file pre :
  core_ok cf s ess -> same_view s s1 -> (ticks s < ticks s1)%nat -> pre ∈ ["sst"; "sst_L1"]%string ->
  compacted s (add_file (output_path pre (clock (ticks s))) file s1) [] [].
Proof.
  intros Hok Hsv Hlt Hpre. destruct (output_path_fresh _ _ _ _ Hok Hsv Hlt Hpre) as (Hpath & Hat & Hfresh).
  destruct Hsv as [Hm Hv Hr Hd Htk]. split; cbn; rewrite ?Hm, ?Hv, ?Hr, ?Hd; try done; try (by constructor); try set_solver;
    try (simpl; lia); [by apply insert_subseteq|].
  intros p f. destruct (decide (p = output_path pre (clock (ticks s)))) as [->|Hne]; [right; by exists (clock (ticks s))|].
  rewrite lookup_insert_ne by done. by left.
Qed.

(** Writing the output of a compaction. *)
Lemma output_compacted s s1 ess es file at_ pre table lvl n :
  core_ok cf s ess -> same_view s s1 -> at_ = clock (ticks s) -> (ticks s < ticks s1)%nat ->
  pre ∈ ["sst"; "sst_L1"]%string -> key_sorted es ->
  (forall k r, assoc k es = Some r -> version_ok (clock (ticks s1)) k r) ->
  sst_write n at_ es = Ok file -> from_sstable_path (output_path pre at_) file = Ok table ->
  compacted s (add_file (output_path pre at_) file s1)
    [{| t_data := list_to_map ((fun e => (e.1, value e.2)) <$> es); t_level := lvl; t_path := t_path table;
        t_min_key := t_min_key table; t_max_key := t_max_key table; t_bloom := t_bloom table |}] [es].
Proof.
  intros Hok Hsv -> Hlt Hpre Hs Hver Hw Ht.
  destruct (output_path_fresh _ _ _ _ Hok Hsv Hlt Hpre) as (Hpath & Hat & Hfresh).
  destruct Hsv as [Hm Hv Hr Hd Htk]. set (at_ := clock (ticks s)) in *.
  set (path := output_path pre at_) in *. apply obind_Ok_inv in Ht as (me & Hme & [= <-]).
  assert (forall k, (list_to_map ((fun e => (e.1, value e.2)) <$> es) : gmap bytes bytes) !! k = value <$> assoc k es) as Hdata.
  { intros k. rewrite assoc_list_to_map. by apply assoc_fmap. }
  split; cbn; rewrite ?Hm, ?Hv, ?Hr, ?Hd; try done.
  - by apply insert_subseteq.
  - intros p f. destruct (decide (p = path)) as [->|Hne]; [right; by exists at_|].
    rewrite lookup_insert_ne by done. by left.
  - constructor; [|constructor]. split; cbn.
    + exists path, file, n, at_, me. rewrite lookup_insert_eq. split_and!; done || set_solver.
    + apply Forall_forall. intros [k r] Hin. eapply vo_storable, Hver. by apply assoc_elem.
    + intros k v. rewrite Hdata. destruct (assoc k es) as [r|]; [|done]. intros [= <-]. eauto.
    + intros k r Hk Hdel. by apply (vo_deleted _ _ _ (Hver _ _ Hk)).
  - by constructor.
  - intros es' k r ->%list_elem_of_singleton. apply Hver.
  - intros t p ->%list_elem_of_singleton. cbn. by intros [= <-].
Qed.

(** Compacting all tables of the column family. *)
Lemma execute_ok s ess ts pre lvl tombstones outs me s' :
  core_ok cf s ess -> cf_tables (version_set s) cf = ts -> pre ∈ ["sst"; "sst_L1"]%string ->
  execute_compaction ts pre lvl tombstones s = (Ok (outs, me), s') ->
  exists ess', rewritten tombstones ess ess' /\ compacted s s' outs ess'.
Proof.
  intros Hok Hts Hpre Hex. unfold execute_compaction in Hex. destruct ts as [|t0 ts0].
  { injection Hex as <- <- <-. exists []. split; [|by apply view_compacted].
    pose proof (co_tables _ _ _ Hok) as HF. rewrite Hts in HF. apply Forall2_nil_inv_l in HF as ->. by intros k. }
  rewrite <- Hts in Hex. clear t0 ts0 Hts. set (ts := cf_tables (version_set s) cf) in *.
  destruct (table_sources_ok _ _ (co_data _ _ _ Hok I)) as [Hsrc Hnw]. fold ts in Hsrc, Hnw.
  set (nw := newest_wins _) in Hnw. set (merged := MergeIterator_new (table_iter <$> reverse ts)) in Hex.
  assert (remaining merged = sorted_entries nw) as Hrem by (by apply merge_collect_newest).
  assert (it_wf merged) as Hwf by (by apply MergeIterator_new_ok).
  rewrite bind_now in Hex. set (at_ := clock (ticks s)) in *.
  destruct (compact_loop_ok tombstones (sorted_entries nw) merged (tick s) Hwf Hrem)
    as (es & s1 & Hl & Hsv & Hn & Hes).
  rewrite Hrem, (bind_Ok _ _ _ _ _ Hl) in Hex.
  assert (same_view s s1) as Hsv1 by (etrans; [apply tick_view|done]).
  assert (ticks s < ticks s1)%nat as Hlt by (pose proof (sv_ticks _ _ Hsv); cbn in *; lia).
  pose proof (fun k => output_assoc tombstones ess nw _ _ es k Hnw Hes) as Hout.
  destruct es as [|e es0] eqn:Ees.
  { rewrite bind_modify in Hex. injection Hex as <- <- <-. exists [].
    split; [|by apply (dropped_compacted s s1 ess)].
    intros k. specialize (Hout k). cbn in Hout |- *. destruct (newest ess k) as [r|]; [|done].
    case_match; [done|]. by destruct Hout as (t & _ & [=]). }
  rewrite <- Ees in *. clear Ees e es0.
  apply bind_Ok_inv in Hex as (file & s2 & [Hw ->]%write_sst_Ok & Hex). apply bind_Ok_inv in Hex as (table & s2 & Ht & Hex). injection Ht as Ht <-.
  injection Hex as <- <- <-. exists [es]. split.
  { intros k. specialize (Hout k). cbn [newest]. destruct (newest ess k) as [r|]; [case_match|]; [by rewrite Hout| |by rewrite Hout].
    destruct Hout as (t & _ & ->). by exists t. }
  apply (output_compacted s s1 ess es file at_ pre table _ (sst_writes s1)); try done.
  - eapply restamped_sorted; [exact Hes|]. apply key_sorted_filter, sorted_entries_sorted.
  - intros k r Hk. specialize (Hout k). destruct (newest ess k) as [r0|] eqn:E; [|congruence].
    destruct (bytes_eqb_spec (value r0) []) as [Hv|Hv]; cbn [orb] in Hout; [congruence|].
    case_match; [congruence|]. destruct Hout as (t & Ht' & Heq). rewrite Heq in Hk. injection Hk as <-.
    eapply restamped_version_ok; [exact Hok|done|done|lia].
Qed.

(** ** Installing the output *)

Lemma foldr_remove_files s ps :
  foldr remove_file s ps =
  {| memtables := memtables s; memtable_bytes := memtable_bytes s; version_set := version_set s;
     wals := wals s; core_range_tombstones := core_range_tombstones s; disk := foldr delete (disk s) ps;
     sst_writes := sst_writes s; ticks := ticks s; compactions_asked := compactions_asked s |}.
Proof. induction ps as [|p ps IH]; [by destruct s|]. cbn. by rewrite IH. Qed.

Lemma lookup_foldr_delete {A} (d : gmap string A) ps p : p ∉ ps -> foldr delete d ps !! p = d !! p.
Proof.
  induction ps as [|q ps IH]; intros Hp; [done|]. cbn. rewrite lookup_delete_ne by set_solver.
  apply IH. set_solver.
Qed.
Lemma foldr_delete_subseteq {A} (d : gmap string A) ps : foldr delete d ps ⊆ d.
Proof. induction ps as [|q ps IH]; [done|]. cbn. etrans; [apply delete_subseteq|done]. Qed.
Lemma Forall2_elem_l {A B} (P : A -> B -> Prop) l k :
  Forall2 P l k -> Forall2 (fun x y => x ∈ l /\ P x y) l k.
Proof.
  induction 1 as [|x y l k Hxy _ IH]; [constructor|]. constructor; [split; [by left|done]|].
  eapply Forall2_impl; [exact IH|]. intros x' y' [Hin ?]. split; [by right|done].
Qed.

(** A range tombstone that drops a key is one that covers it. *)
Lemma in_range_tombstones_covering k l :
  is_key_in_range_tombstones k l = true <-> max_covering l k <> None.
Proof.
  unfold is_key_in_range_tombstones. rewrite existsb_exists. split.
  - intros (rt & Hin%list_elem_of_In & Hc) Hn. change (covers rt k = true) in Hc.
    by rewrite (max_covering_None _ _ Hn rt Hin) in Hc.
  - destruct (max_covering l k) as [t|] eqn:E; [|done]. intros _.
    apply max_covering_spec in E as [(rt & Hin & Hc & _) _]. exists rt. by rewrite <- list_elem_of_In.
Qed.

(** No live flushed key lies in a range tombstone of the family. *)
Definition uncovered (s : EngineCore) (m : gmap bytes bytes) : Prop :=
  forall k, is_Some (m !! k) -> mem_data cf s !! k = None -> max_covering (rts cf s) k = None.

(** What a reader sees of the rewritten versions is what it saw before. *)
Lemma rewritten_shown s ess ess' k :
  core_ok cf s ess -> rewritten (rts cf s) ess ess' ->
  (is_Some (newest ess k ≫= shown cf s k) -> max_covering (rts cf s) k = None) ->
  newest ess' k ≫= shown cf s k = newest ess k ≫= shown cf s k.
Proof.
  intros Hok Hrw Hunc. specialize (Hrw k). destruct (newest ess k) as [r|] eqn:E; [|by rewrite Hrw].
  pose proof (newest_version _ _ _ _ (co_versions _ _ _ Hok) E) as [_ _ _ Hd]. cbn in Hunc |- *.
  destruct (bytes_eqb_spec (value r) []) as [Hv|Hv]; cbn [orb] in Hrw.
  { rewrite Hrw. unfold shown. by rewrite (proj2 Hd Hv). }
  destruct (is_deleted r) eqn:Edel; [by rewrite (proj1 Hd eq_refl) in Hv|].
  destruct (is_key_in_range_tombstones k (rts cf s)) eqn:Ec.
  - rewrite Hrw. apply in_range_tombstones_covering in Ec.
    destruct (shown cf s k r) eqn:Es; [|done]. by destruct Ec; apply Hunc.
  - destruct Hrw as (t & ->). cbn. unfold shown. rewrite Edel. cbn.
    destruct (max_covering (rts cf s) k) eqn:Em; [|done].
    assert (is_key_in_range_tombstones k (rts cf s) = true) by (apply in_range_tombstones_covering; congruence).
    congruence.
Qed.

Lemma install_ok s s1 ess ess' outs idx m s2 :
  core_ok cf s ess -> (forall k, m !! k = version cf s ess k ≫= shown cf s k) ->
  uncovered s m -> rewritten (rts cf s) ess ess' -> compacted s s1 outs ess' ->
  idx ≡ₚ seq 0 (length (cf_tables (version_set s) cf)) -> cf_tables (version_set s) cf <> [] ->
  install_groups cf [(idx, outs)] s1 = (Ok tt, s2) -> refines cf s2 m.
Proof.
  intros Hok Hm Hunc Hrw Hcd Hidx Hne Hin. set (ts := cf_tables (version_set s) cf) in *.
  assert (tables (version_set s1) !! cf = Some ([] ++ ts ++ [])) as Hts.
  { rewrite (cd_version_set _ _ _ _ Hcd), app_nil_r. subst ts. unfold cf_tables in *.
    by destruct (tables (version_set s) !! cf). }
  unfold install_groups in Hin. rewrite bind_gets, bind_modify in Hin.
  change (atomic_replace_groups (version_set s1) cf [(idx, outs)]) with (atomic_replace (version_set s1) cf idx outs) in Hin.
  injection Hin as <-. cbn [version_set on_version_set].
  rewrite foldr_remove_files. cbn.
  change (atomic_replace_groups (version_set s1) cf [(idx, outs)]) with (atomic_replace (version_set s1) cf idx outs).
  rewrite (atomic_replace_run _ _ _ [] ts [] outs Hts) by done. cbn [fst snd app]. rewrite app_nil_r.
  set (s2 := mkEngineCore _ _ _ _ _ _ _ _ _).
  destruct Hcd as [Em Ev Er Hle Hsub Hst Hlen Hhold Hmem Hvers Hfresh].
  assert (cf_tables (version_set s2) cf = outs) as Hcf by (unfold cf_tables; cbn; by rewrite lookup_insert_eq).
  assert (reverse outs = outs) as Hrev by (destruct outs as [|t [|]]; [done|done|simpl in Hlen; lia]).
  assert (mem_list cf s2 = mem_list cf s) as Eml by (unfold mem_list; cbn; by rewrite Em).
  assert (mem_data cf s2 = mem_data cf s) as Emd by (unfold mem_data; by rewrite Eml).
  assert (rts cf s2 = rts cf s) as Ert by (unfold rts; cbn; by rewrite Er).
  pose proof (clock_le clock_mono _ _ Hle) as Hclk.
  exists ess'. split.
  - pose proof Hok as []. split; rewrite ?Eml, ?Emd, ?Ert; try done.
    + eapply map_Forall_impl; [done|]. intros k r. by apply version_ok_later.
    + intros rt Hin. specialize (co_rts rt Hin). cbn. lia.
    + rewrite Hcf, Hrev. cbn. rewrite Ev, co_quarantined.
      eapply Forall2_impl; [exact (Forall2_elem_l _ _ _ Hhold)|].
      intros t es [Hin [(p & f & n & at_ & me & Hp & Hq & Hd & Hrest) Hsto Hda Hto]].
      split; [|done..]. exists p, f, n, at_, me. split_and!; [done|done| |by destruct_and!..].
      cbn. rewrite lookup_foldr_delete; [done|].
      intros (t' & Ht' & Hp')%list_elem_of_omap. apply elem_of_reverse in Ht'.
      destruct (holds_path_on_disk _ _ _ _ _ _ co_tables Ht' Hp') as [f' Hf'].
      by rewrite (Hfresh _ _ Hin Hp) in Hf'.
    + cbn. by rewrite Ev.
    + cbn. by rewrite Ev.
    + cbn. intros p f Hp.
      assert (disk s1 !! p = Some f) as Hp1 by (eapply lookup_weaken; [exact Hp|apply foldr_delete_subseteq]).
      destruct (Hst p f Hp1) as [Hp0|(t & ? & ?)]; [|by exists t].
      destruct (co_disk p f Hp0) as (t & ? & ?). exists t. split; [lia|done].
    + by rewrite Hcf, Hrev.
    + rewrite Hcf. clear -Hlen. destruct outs as [|t [|]]; [by apply NoDup_nil_2| |simpl in Hlen; lia].
      cbn. destruct (t_path t); [apply NoDup_singleton|apply NoDup_nil_2].
  - intros k. rewrite Hm. unfold version. rewrite Emd.
    assert (forall r, shown cf s2 k r = shown cf s k r) as Esh by (intros r; unfold shown; by rewrite Ert).
    destruct (mem_data cf s !! k) as [r|] eqn:Ek; cbn; [by rewrite Esh|].
    transitivity (newest ess' k ≫= shown cf s k); [|by destruct (newest ess' k); cbn; rewrite ?Esh].
    symmetry. apply rewritten_shown; [done|done|]. intros His. apply Hunc; [|done].
    rewrite Hm. unfold version. by rewrite Ek.
Qed.

(** ** Size-tiered and leveled picks *)

Lemma fill_one_bucket size (ts : list Table) idx l :
  Forall (fun t => bucket_size (get_table_size t) = size) ts ->
  fill_buckets idx ts [(size, l)] = [(size, l ++ seq idx (length ts))].
Proof.
  intros Hall. revert idx l. induction Hall as [|t ts Ht _ IH]; intros idx l; cbn [fill_buckets length seq].
  { by rewrite app_nil_r. }
  cbn [bucket_push]. rewrite Ht, Z.eqb_refl, IH. by rewrite <- app_assoc.
Qed.

(** Tables of one size class are picked together. *)
Lemma pick_one_bucket size (ts : list Table) :
  Forall (fun t => bucket_size (get_table_size t) = size) ts -> (2 <= length ts)%nat ->
  pick_tables size_tiered_strategy ts = [seq 0 (length ts)].
Proof.
  intros Hall Hl. cbn. unfold st_pick_tables, group_into_buckets.
  destruct Hall as [|t ts Ht Hall]; [simpl in Hl; lia|]. cbn [fill_buckets bucket_push]. rewrite Ht.
  rewrite (fill_one_bucket size ts 1 [0%nat]) by done. rewrite filter_cons, decide_True; [done|].
  cbn. rewrite length_seq. simpl in Hl. lia.
Qed.

(** The strategies run the same merge. *)
Lemma execute_strategy ty opts :
  exists f : list Table -> string * option nat, (forall ts, (f ts).1 ∈ ["sst"; "sst_L1"]%string) /\
    forall ts rt, execute (strategy (Compaction_new ty opts)) ts rt = execute_compaction ts (f ts).1 (f ts).2 rt.
Proof.
  destruct ty.
  - exists (fun _ => ("sst"%string, None)). split; [intros; set_solver|done].
  - exists (fun _ => ("sst_L1"%string, Some 1%nat)). split; [intros; set_solver|done].
  - exists (fun ts => if existsb (fun t => Nat.eqb (t_level t) 0) ts then ("sst"%string, None) else ("sst_L1"%string, Some 1%nat)).
    split; intros; [case_match; set_solver|]. cbn. unfold ll_execute, st_execute, lv_execute. by case_match.
Qed.

(** All tables of the column family are picked, as one group, or none is. *)
Definition picks_all (s : EngineCore) : Prop :=
  let ts := cf_tables (version_set s) cf in
  pick_compaction engine_compaction ts = [] \/ pick_compaction engine_compaction ts = [seq 0 (length ts)].

Lemma omap_seq_lookup {A} (pre l : list A) : omap (fun i => (pre ++ l) !! i) (seq (length pre) (length l)) = l.
Proof.
  revert pre. induction l as [|x l IH]; intros pre; [done|]. cbn [length seq omap list_omap].
  rewrite lookup_app_r, Nat.sub_diag by lia. cbn. f_equal.
  specialize (IH (pre ++ [x])). rewrite length_app, Nat.add_1_r, <- app_assoc in IH. exact IH.
Qed.

Lemma compact_cf_refines s m r s' :
  refines cf s m -> picks_all s -> uncovered s m -> compact_cf cf s = (Ok r, s') -> refines cf s' m.
Proof.
  intros (ess & Hok & Hm) Hp Hunc Hc. unfold compact_cf, compact_cf_core in Hc. rewrite bind_gets in Hc.
  assert (refines cf s m) as Href by (by exists ess).
  set (ts := cf_tables (version_set s) cf) in *.
  destruct (_ <? _)%nat; [by injection Hc as _ <-|].
  unfold picks_all in Hp. fold ts in Hp.
  destruct Hp as [Hp|Hp]; rewrite Hp in Hc; [by injection Hc as _ <-|].
  rewrite bind_gets in Hc. apply bind_Ok_inv in Hc as ([reps me] & s1 & Hg & Hc). cbn [compact_groups] in Hg.
  apply bind_Ok_inv in Hg as ([outs me1] & s2 & Hcm & Hg). injection Hg as <- _ <-.
  unfold compact in Hcm. pose proof (omap_seq_lookup [] ts) as Hts. cbn [app length] in Hts. rewrite Hts in Hcm.
  apply bind_Ok_inv in Hc as ([] & s3 & Hi & Hc). injection Hc as _ <-.
  destruct ts as [|t0 ts0] eqn:Ets.
  { injection Hcm as <- _ <-. unfold install_groups in Hi. rewrite bind_gets, bind_modify in Hi.
    injection Hi as <-.
    assert (atomic_replace_groups (version_set s) cf [(seq 0 0, [])] = ([], version_set s)) as E.
    { unfold atomic_replace_groups. destruct (tables (version_set s) !! cf); [|done]. cbn.
      by rewrite bool_decide_true. }
    cbn in E |- *. rewrite E. unfold on_version_set. rewrite E. by destruct s. }
  destruct (execute_strategy (if (compaction_threshold (compaction_options options) <=? 4)%nat then SizeTiered else Leveled)
              (c_options engine_compaction)) as (f & Hf & Hex).
  rewrite <- Ets in Hcm, Hi.
  assert (execute_compaction ts (f ts).1 (f ts).2 (rts cf s) s = (Ok (outs, me1), s2)) as Hcm'.
  { rewrite <- Hex. rewrite Ets in *. exact Hcm. }
  destruct (execute_ok s ess ts _ _ _ _ _ _ Hok eq_refl (Hf ts) Hcm') as (ess' & Hrw & Hcd).
  eapply (install_ok s s2 ess ess'); try done; fold ts; rewrite Ets; done.
Qed.

Context (no_default_ttl : default_ttl options = None).

End spec.
