(* ===== verification/Transaction.v ===== *)
(** * Transaction: buffered writes and their commit ([src/src/core/engine/transaction.rs])

    A transaction is its buffer of writes, keyed by column family and key.  Reads
    look at the buffer first and then do what [Engine::get_cf] does; [commit]
    goes through the column families in order, appends their records to the log
    and applies them to the memtable.  The last part of the file shows that a
    transaction reads and commits the overlay of its buffer on the map the engine
    stands for. *)
From Stdlib Require Import ZArith Lia QArith.
From stdpp Require Import base tactics numbers list gmap strings sorting pretty.
From S2P Require Import Prelude Bytes SortedMap LogRecord Iterators.
From S2P Require Import MemTable Extern Encryption SstReader Wal Table.
From S2P Require Import VersionSet Utf8 Engine EngineSpec.
Local Open Scope Z_scope.

(** [TxnWrite]: a value and whether the key is deleted. *)
Definition TxnWrite : Type := bytes * bool.

(** [struct Transaction]. *)
Record Transaction := mkTransaction {
  txn_id : Z;
  txn_writes : gmap (string * bytes) TxnWrite;
}.

(** [Transaction::new]; the counter of identifiers is the argument. *)
Definition Transaction_new (next_txn_id : Z) : Transaction * Z :=
  ({| txn_id := next_txn_id; txn_writes := ∅ |}, as_u64 (next_txn_id + 1)).

(** [put_cf], [delete_cf], [rollback]. *)
Definition txn_put_cf (self : Transaction) (cf : string) (k v : bytes) : Transaction :=
  {| txn_id := txn_id self; txn_writes := <[(cf, k) := (v, false)]> (txn_writes self) |}.
Definition txn_delete_cf (self : Transaction) (cf : string) (k : bytes) : Transaction :=
  {| txn_id := txn_id self; txn_writes := <[(cf, k) := ([], true)]> (txn_writes self) |}.
Definition txn_rollback (self : Transaction) : Transaction :=
  {| txn_id := txn_id self; txn_writes := ∅ |}.

(** The column families of a buffer in the order of a [BTreeMap<String, _>]. *)
Definition family_le (a b : string * gmap bytes TxnWrite) : Prop := bytes_le (lit a.1) (lit b.1).
#[global] Instance family_le_dec : RelDecision family_le.
Proof. intros a b. unfold family_le. apply _. Defined.
Definition cf_writes (w : gmap (string * bytes) TxnWrite) : list (string * gmap bytes TxnWrite) :=
  merge_sort family_le (map_to_list (map_curry (M1 := gmap string) (M2 := gmap bytes) w)).

Section transaction.
Context `{!Crc32, !Aead, !Postcard LogRecord, !Postcard LogRecordV0, !Postcard LogRecordV1}.
Context `{!BloomCrate} `{!SstStore} `{!Moka bytes bytes} `{!SerdeJson} `{!EngineEnv}.

(** [Transaction::get_cf]: the buffer, then the body of [Engine::get_cf]. *)
Definition txn_get_cf (self : Transaction) (cf : string) (k : bytes) : M (option bytes) :=
  match txn_writes self !! (cf, k) with
  | Some (v, is_deleted) => mret (if is_deleted : bool then None else Some v)
  | None => get_cf cf k
  end.

(** [flush_memtable_for_cf]: the memtable becomes a table in memory only. *)
Definition flush_memtable_for_cf (cf : string) : M bool :=
  mems ← gets memtables;
  match mems !! cf with
  | None => mret false
  | Some mems =>
      match last mems with
      | None => mret false
      | Some mem =>
          modify (on_memtables <[cf := removelast mems]>);;
          modify (on_version_set (fun vs => add_table vs cf (Table_build (value <$> data mem))));;
          bytes_of ← gets memtable_bytes;
          match bytes_of !! cf with
          | None => fail InvalidArgument
          | Some _ =>
              modify (on_memtable_bytes <[cf := 0]>);;
              wal_apply cf (fun w => Ok (wal_clear w));;
              vs ← gets version_set;
              mret (compaction_threshold (compaction_options options) <? table_count vs cf)%nat
          end
      end
  end.

(** Phase 1: the records of the log. *)
Fixpoint txn_records (cf : string) (entries : list (bytes * TxnWrite)) : M (list LogRecord) :=
  match entries with
  | [] => mret []
  | (k, (v, is_deleted)) :: entries =>
      t ← now;
      rest ← txn_records cf entries;
      mret (set_cf cf (if is_deleted : bool then tombstone t k else LogRecord_new t k v) :: rest)
  end.

(** Phase 3: the memtable. *)
Fixpoint txn_apply (cf : string) (entries : list (bytes * TxnWrite)) : M unit :=
  match entries with
  | [] => mret tt
  | (k, (v, is_deleted)) :: entries =>
      t ← now;
      update_memtable cf (fun mem => if is_deleted : bool then mem_delete t mem k else mem_put t mem k v);;
      txn_apply cf entries
  end.
Definition txn_bytes (entries : list (bytes * TxnWrite)) : Z := sumZ (fun e => len e.1 + len e.2.1) entries.

(** The four phases of one column family. *)
Definition commit_family (cf : string) (writes : gmap bytes TxnWrite) : M bool :=
  let entries := sorted_entries writes in
  records ← txn_records cf entries;
  wal_apply cf (fun w => write_batch w records);;
  update_memtable cf (fun mem => mem);;
  txn_apply cf entries;;
  add_memtable_bytes cf (txn_bytes entries);;
  bytes_of ← gets memtable_bytes;
  if write_buffer_limit <=? default 0 (bytes_of !! cf)
  then flush_memtable_for_cf cf
  else mret false.
Fixpoint commit_families (families : list (string * gmap bytes TxnWrite)) : M unit :=
  match families with
  | [] => mret tt
  | (cf, writes) :: families => commit_family cf writes;; commit_families families
  end.

(** [commit]: the buffer is taken before anything is written, and stays taken
    when a phase fails. *)
Definition txn_commit (self : Transaction) : M unit * Transaction :=
  if bool_decide (txn_writes self = ∅) then (mret tt, self)
  else (commit_families (cf_writes (txn_writes self)), txn_rollback self).

End transaction.

(** ** The overlay of a buffer on a map *)

(** What a buffer makes of the map of a column family. *)
Definition overlay (ws : gmap bytes TxnWrite) (m : gmap bytes bytes) : gmap bytes bytes :=
  omap (fun w : TxnWrite => if w.2 then None else Some w.1) ws ∪ filter (fun e => ws !! e.1 = None) m.

Lemma overlay_lookup ws m k :
  overlay ws m !! k =
  match ws !! k with Some (v, d) => if d : bool then None else Some v | None => m !! k end.
Proof.
  unfold overlay. rewrite lookup_union, lookup_omap.
  destruct (ws !! k) as [[v d]|] eqn:E; cbn.
  - rewrite (map_lookup_filter_None_2 _ m k) by (right; intros v' _; cbn; congruence). by destruct d.
  - rewrite map_lookup_filter. destruct (m !! k) as [v|]; cbn; [|done].
    by rewrite option_guard_True.
Qed.

(** Applying the writes of a buffer in key order. *)
Lemma foldl_writes_lookup (es : list (bytes * TxnWrite)) (m : gmap bytes bytes) k :
  key_sorted es ->
  foldl (fun m e => if e.2.2 : bool then delete e.1 m else <[e.1 := e.2.1]> m) m es !! k =
  match assoc k es with Some (v, d) => if d : bool then None else Some v | None => m !! k end.
Proof.
  revert m; induction es as [|[k1 [v d]] es IH]; intros m; [done|]. intros [Hlt Hs]%key_sorted_cons.
  cbn [foldl assoc fst snd]. rewrite IH by done. destruct (bytes_eqb_spec k k1) as [->|Hne].
  - assert (assoc k1 es = None) as ->.
    { apply assoc_None. intros ([k' w] & -> & Hin)%list_elem_of_fmap. by apply (bytes_lt_irrefl k'), (Hlt k' w). }
    destruct d; [by rewrite lookup_delete_eq|by rewrite lookup_insert_eq].
  - destruct (assoc k es) as [[v' d']|]; [done|].
    destruct d; [by rewrite lookup_delete_ne|by rewrite lookup_insert_ne].
Qed.

Lemma foldl_overlay (ws : gmap bytes TxnWrite) (m : gmap bytes bytes) :
  foldl (fun m e => if e.2.2 : bool then delete e.1 m else <[e.1 := e.2.1]> m) m (sorted_entries ws) = overlay ws m.
Proof.
  apply map_eq. intros k. rewrite foldl_writes_lookup, overlay_lookup, assoc_sorted_entries
    by apply sorted_entries_sorted. done.
Qed.

(** The writes of a column family. *)
Definition family_writes (w : gmap (string * bytes) TxnWrite) (cf : string) : gmap bytes TxnWrite :=
  default ∅ (map_curry (M1 := gmap string) (M2 := gmap bytes) w !! cf).
Lemma family_writes_lookup w cf k : family_writes w cf !! k = w !! (cf, k).
Proof.
  rewrite <- (lookup_map_curry (M1 := gmap string) (M2 := gmap bytes) w cf k). unfold family_writes.
  destruct (map_curry w !! cf) as [ws|]; [done|]. cbn. apply lookup_empty.
Qed.

Section spec.
Context `{!Crc32, !Aead, !Postcard LogRecord, !Postcard LogRecordV0, !Postcard LogRecordV1}.
Context `{!BloomCrate} `{!SstStore} `{!SstStoreLaws} `{!Moka bytes bytes} `{!SerdeJson} `{!EngineEnv}.
Context (clock_mono : forall i, 0 <= clock i < clock (S i)).
Context (cf : string).
#[local] Instance all_resident : Residency := True.

(** Writes the statement is about: keys the engine does not reserve, non-empty
    values, entries a table can hold. *)
Definition write_ok (k : bytes) (w : TxnWrite) : Prop :=
  user_key k = true /\ (if w.2 then w.1 = [] else w.1 <> []) /\ fits cf k w.1.

Lemma txn_records_view c es s rs s' : txn_records c es s = (Ok rs, s') ->
  same_view s s' /\ memtable_bytes s' = memtable_bytes s.
Proof.
  revert s rs; induction es as [|[k [v d]] es IH]; intros s rs; cbn [txn_records]; [by intros [= _ <-]|].
  rewrite bind_now. intros (rest & s1 & Hr & Hp)%bind_Ok_inv. injection Hp as _ <-.
  destruct (IH _ _ Hr) as [Hv Hb]. split; [etrans; [apply tick_view|done]|done].
Qed.

Lemma wal_apply_bytes c op s u s' : wal_apply c op s = (Ok u, s') -> memtable_bytes s' = memtable_bytes s.
Proof.
  unfold wal_apply, wal_handle. intros (w & s1 & Hw & Hp)%bind_Ok_inv.
  apply bind_Ok_inv in Hp as (w' & s2 & Hl & Hp). injection Hl as _ <-. injection Hp as _ <-. cbn.
  rewrite bind_gets in Hw. destruct (wals s !! c); by injection Hw as _ <-.
Qed.

(** Applying writes to the memtable of the column family. *)
Lemma txn_apply_refines es s m s' :
  refines cf s m -> Forall (fun e => write_ok e.1 e.2) es -> txn_apply cf es s = (Ok tt, s') ->
  memtable_bytes s' = memtable_bytes s /\
  refines cf s' (foldl (fun m e => if e.2.2 : bool then delete e.1 m else <[e.1 := e.2.1]> m) m es).
Proof.
  revert s m; induction es as [|[k [v d]] es IH]; intros s m Href Hall; [by intros [= <-]|].
  apply Forall_cons in Hall as [(Hu & Hv & Hf) Hall]. cbn [fst snd] in Hu, Hv, Hf.
  cbn [txn_apply foldl fst snd]. rewrite bind_now, (bind_Ok _ _ _ _ _ (update_memtable_updated _ _ _)).
  assert (refines cf (tick s) m) as Ht by (by eapply (refines_frame clock_mono), Href; apply tick_view).
  assert (clock (ticks s) < clock (ticks (tick s))) as Hlt by (apply clock_mono).
  assert (forall rt, rt ∈ rts cf (tick s) -> rt_timestamp rt <= clock (ticks s)) as Hrt.
  { intros rt Hin. apply (refines_rts cf s m) in Hin; [lia|done]. }
  intros Hp. eapply IH in Hp; [exact Hp| |done].
  destruct d.
  - subst v. exact (insert_refines clock_mono cf (tick s) m k (tombstone (clock (ticks s)) k) Ht
      (version_ok_delete cf _ _ k Hu Hf Hlt) Hrt).
  - exact (insert_refines clock_mono cf (tick s) m k (LogRecord_new (clock (ticks s)) k v) Ht
      (version_ok_batch cf _ _ k v Hu Hv Hf Hlt) Hrt).
Qed.

(** A write to another column family is not seen. *)
Record other_family (s s' : EngineCore) : Prop := {
  of_memtables : memtables s' !! cf = memtables s !! cf;
  of_version_set : version_set s' = version_set s;
  of_rts : core_range_tombstones s' = core_range_tombstones s;
  of_disk : disk s' = disk s;
  of_ticks : (ticks s <= ticks s')%nat;
}.
#[local] Instance other_family_preorder : PreOrder other_family.
Proof. split; [intros s; by split|]. intros s1 s2 s3 [] []. split; congruence || lia. Qed.

Lemma view_other_family s s' : same_view s s' -> other_family s s'.
Proof. intros []. split; congruence. Qed.

Lemma other_family_refines s s' m : other_family s s' -> refines cf s m -> refines cf s' m.
Proof.
  intros [Hm Hv Hr Hd Ht] (ess & Hok & Hmap).
  assert (refines cf (on_memtables (fun _ => memtables s') s) m) as Href.
  { exists ess. assert (mem_list cf (on_memtables (fun _ => memtables s') s) = mem_list cf s) as El
      by (unfold mem_list; cbn; by rewrite Hm).
    assert (mem_data cf (on_memtables (fun _ => memtables s') s) = mem_data cf s) as Ed
      by (unfold mem_data; by rewrite El).
    split; [destruct Hok; split; rewrite ?El, ?Ed; done|]. intros k. rewrite Hmap.
    unfold version. by rewrite Ed. }
  eapply refines_frame; [done| |exact Href]. by split.
Qed.

Lemma update_other c f s : c <> cf -> other_family s (updated c f s).
Proof. intros Hne. split; try done. cbn. by rewrite lookup_insert_ne. Qed.

Lemma txn_apply_other c es s s' : c <> cf -> txn_apply c es s = (Ok tt, s') ->
  other_family s s' /\ memtable_bytes s' = memtable_bytes s.
Proof.
  intros Hne. revert s; induction es as [|[k [v d]] es IH]; intros s; [by intros [= <-]|].
  cbn [txn_apply]. rewrite bind_now, (bind_Ok _ _ _ _ _ (update_memtable_updated _ _ _)).
  intros [Ho Hb]%IH. split; [|done]. etrans; [apply view_other_family, tick_view|].
  etrans; [by apply update_other|exact Ho].
Qed.

(** Pushing an empty memtable changes nothing. *)
Lemma update_id_refines s m : refines cf s m -> refines cf (updated cf (fun mem => mem) s) m.
Proof.
  intros (ess & Hok & Hm). exists ess. pose proof (updated_mem_list cf (fun mem => mem) s ess Hok) as Hml.
  assert (mem_data cf (updated cf (fun mem => mem) s) = mem_data cf s) as Hmd.
  { unfold mem_data at 1. rewrite Hml. by destruct (mem_list_cases cf s ess Hok) as [[-> ->]|(mem & -> & ->)]. }
  split; [|intros k; rewrite Hm; unfold version; by rewrite Hmd].
  pose proof Hok as []. split; rewrite ?Hmd; try done; rewrite Hml; [simpl; lia|].
  intros mem rt ->%list_elem_of_singleton.
  destruct (mem_list_cases cf s ess Hok) as [[-> _]|(mem & E & _)]; [set_solver|]. rewrite E.
  apply co_mem_rts. rewrite E. by left.
Qed.

(** One column family, when its buffer does not fill up. *)
Lemma commit_family_refines c ws s m b s' :
  refines cf s m -> (c = cf -> map_Forall write_ok ws) ->
  default 0 (memtable_bytes s !! c) + txn_bytes (sorted_entries ws)
    < write_buffer_limit ->
  commit_family c ws s = (Ok b, s') ->
  refines cf s' (if decide (c = cf) then overlay ws m else m) /\
  forall c', c' <> c -> memtable_bytes s' !! c' = memtable_bytes s !! c'.
Proof.
  intros Href Hws Hroom Hc. unfold commit_family in Hc.
  apply bind_Ok_inv in Hc as (rs & s1 & Hr & Hc). apply txn_records_view in Hr as [Hv1 Hb1].
  apply bind_Ok_inv in Hc as (u & s2 & Hw & Hc). pose proof (wal_apply_bytes _ _ _ _ _ Hw) as Hb2.
  apply wal_apply_view in Hw as Hv2.
  rewrite (bind_Ok _ _ _ _ _ (update_memtable_updated _ _ _)) in Hc.
  apply bind_Ok_inv in Hc as ([] & s3 & Ha & Hc).
  apply bind_Ok_inv in Hc as (u' & s4 & Hb & Hc). pose proof (add_memtable_bytes_view _ _ _ _ _ Hb) as Hv4.
  injection Hb as _ <-. rewrite bind_gets in Hc.
  assert (refines cf s2 m) as Href2 by (do 2 (eapply refines_frame; [done|done|]); done).
  assert (memtable_bytes s3 = memtable_bytes s /\ refines cf s3 (if decide (c = cf) then overlay ws m else m)) as [Hb3 Href3].
  { case_decide as Hcf.
    - subst c. specialize (Hws eq_refl).
      apply (txn_apply_refines _ _ m) in Ha as [Hb3 Href3]; [|by apply update_id_refines|].
      + split; [cbn in Hb3; congruence|]. erewrite <- (foldl_overlay ws m); exact Href3.
      + apply Forall_forall. intros [k w] Hin%elem_of_sorted_entries. by apply Hws.
    - apply txn_apply_other in Ha as [Ho Hb3]; [|done]. split; [cbn in Hb3; congruence|].
      eapply other_family_refines; [|exact Href2]. etrans; [by apply update_other|done]. }
  cbn in Hc. rewrite lookup_insert_eq, Hb3 in Hc.
  rewrite (proj2 (Z.leb_gt _ _)) in Hc by (cbn; lia). injection Hc as _ <-.
  split; [eapply refines_frame; [done| |exact Href3]; done|]. intros c' Hne. cbn. by rewrite lookup_insert_ne, Hb3.
Qed.

(** All column families. *)
Lemma commit_families_refines fs s m s' :
  refines cf s m -> NoDup fs.*1 ->
  (forall ws, (cf, ws) ∈ fs -> map_Forall write_ok ws) ->
  (forall c ws, (c, ws) ∈ fs -> default 0 (memtable_bytes s !! c) + txn_bytes (sorted_entries ws)
     < write_buffer_limit) ->
  commit_families fs s = (Ok tt, s') ->
  refines cf s' (match list_find (fun f => f.1 = cf) fs with Some (_, f) => overlay f.2 m | None => m end).
Proof.
  revert s m; induction fs as [|[c ws] fs IH]; intros s m Href Hnd Hok Hroom Hc; [by injection Hc as <-|].
  cbn [commit_families] in Hc. apply bind_Ok_inv in Hc as (b & s1 & Hf & Hc).
  rewrite fmap_cons in Hnd. apply NoDup_cons in Hnd as [Hni Hnd].
  assert (c = cf -> map_Forall write_ok ws) as Hws by (intros ->; apply Hok; by left).
  destruct (commit_family_refines _ _ _ m _ _ Href Hws (Hroom c ws ltac:(by left)) Hf) as [Href1 Hb1].
  apply (IH s1 _ Href1 Hnd) in Hc.
  - cbn [list_find]. destruct (decide (c = cf)) as [Hcf|Hcf].
    + subst c. cbn [fst]. rewrite decide_True by done.
      destruct (list_find (fun f => f.1 = cf) fs) as [[i f]|] eqn:E; [|exact Hc].
      apply list_find_Some in E as (Hi & Hfc & _). destruct Hni. apply list_elem_of_fmap. exists f.
      split; [done|]. by eapply list_elem_of_lookup_2.
    + cbn [fst]. rewrite decide_False by done. 
      destruct (list_find (fun f => f.1 = cf) fs) as [[i f]|]; exact Hc.
  - intros ws' Hin. apply Hok. by right.
  - intros c' ws' Hin. rewrite Hb1; [apply Hroom; by right|]. intros ->. apply Hni.
    apply list_elem_of_fmap. by exists (c, ws').
Qed.

(** The families of a buffer, each once. *)
Lemma cf_writes_perm w : cf_writes w ≡ₚ map_to_list (map_curry (M1 := gmap string) (M2 := gmap bytes) w).
Proof. apply merge_sort_Permutation. Qed.
Lemma elem_of_cf_writes w c ws : (c, ws) ∈ cf_writes w -> ws = family_writes w c.
Proof.
  rewrite cf_writes_perm, elem_of_map_to_list. intros E. unfold family_writes. by rewrite E.
Qed.

Lemma find_cf_writes w m :
  match list_find (fun f => f.1 = cf) (cf_writes w) with Some (_, f) => overlay f.2 m | None => m end
  = overlay (family_writes w cf) m.
Proof.
  destruct (list_find _ (cf_writes w)) as [[i [c ws]]|] eqn:E.
  - apply list_find_Some in E as (Hi%list_elem_of_lookup_2 & Hc & _). cbn in Hc. subst c.
    by rewrite (elem_of_cf_writes _ _ _ Hi).
  - apply list_find_None in E. rewrite Forall_forall in E. apply map_eq. intros k.
    rewrite overlay_lookup. unfold family_writes.
    destruct (map_curry w !! cf) as [ws|] eqn:Ew; cbn; [|by rewrite lookup_empty].
    destruct (E (cf, ws)); [|done]. by rewrite cf_writes_perm, elem_of_map_to_list.
Qed.

(** Room for the writes of a transaction in the buffers of its families. *)
Definition buffer_room (s : EngineCore) (w : gmap (string * bytes) TxnWrite) : Prop :=
  Forall (fun f : string * gmap bytes TxnWrite =>
    default 0 (memtable_bytes s !! f.1) + txn_bytes (sorted_entries f.2)
    < write_buffer_limit) (cf_writes w).

Lemma txn_commit_refines self s m s' :
  refines cf s m -> map_Forall write_ok (family_writes (txn_writes self) cf) ->
  buffer_room s (txn_writes self) ->
  (txn_commit self).1 s = (Ok tt, s') -> refines cf s' (overlay (family_writes (txn_writes self) cf) m).
Proof.
  intros Href Hok Hroom. unfold txn_commit. case_bool_decide as He; cbn [fst].
  { intros [= <-]. replace (overlay (family_writes (txn_writes self) cf) m) with m; [done|].
    apply map_eq. intros k. by rewrite overlay_lookup, family_writes_lookup, He, lookup_empty. }
  intros Hc. rewrite <- find_cf_writes. eapply commit_families_refines; [done| | | |exact Hc].
  - rewrite cf_writes_perm. apply NoDup_fst_map_to_list.
  - intros ws Hin. by rewrite (elem_of_cf_writes _ _ _ Hin).
  - intros c ws Hin. unfold buffer_room in Hroom. rewrite Forall_forall in Hroom. by apply (Hroom (c, ws)).
Qed.

(** ** Histories of a transaction *)

(** What a client does with a transaction: writes to any family, reads of the
    column family. *)
Inductive txn_op : Type :=
| TxnPut (c : string) (k v : bytes)
| TxnDelete (c : string) (k : bytes)
| TxnGet (k : bytes).
Fixpoint run_txn (os : list txn_op) (self : Transaction) : M (list (option bytes) * Transaction) :=
  match os with
  | [] => mret ([], self)
  | TxnPut c k v :: os => run_txn os (txn_put_cf self c k v)
  | TxnDelete c k :: os => run_txn os (txn_delete_cf self c k)
  | TxnGet k :: os =>
      v ← txn_get_cf self cf k;
      '(vs, self) ← run_txn os self;
      mret (v :: vs, self)
  end.

(** The same on the overlay of the writes so far. *)
Fixpoint spec_txn (m : gmap bytes bytes) (w : gmap (string * bytes) TxnWrite) (os : list txn_op)
    : list (option bytes) * gmap (string * bytes) TxnWrite :=
  match os with
  | [] => ([], w)
  | TxnPut c k v :: os => spec_txn m (<[(c, k) := (v, false)]> w) os
  | TxnDelete c k :: os => spec_txn m (<[(c, k) := ([], true)]> w) os
  | TxnGet k :: os =>
      let '(vs, w') := spec_txn m w os in (overlay (family_writes w cf) m !! k :: vs, w')
  end.
Definition txn_op_ok (o : txn_op) : Prop :=
  match o with
  | TxnPut c k v => c = cf -> write_ok k (v, false)
  | TxnDelete c k => c = cf -> write_ok k ([], true)
  | TxnGet _ => True
  end.

Lemma txn_get_refines self s m k :
  refines cf s m ->
  exists s', txn_get_cf self cf k s = (Ok (overlay (family_writes (txn_writes self) cf) m !! k), s') /\ refines cf s' m.
Proof.
  intros Href. unfold txn_get_cf. rewrite overlay_lookup, family_writes_lookup.
  destruct (txn_writes self !! (cf, k)) as [[v d]|]; [by exists s|]. by apply (get_refines clock_mono).
Qed.

Lemma run_txn_refines os self s m vs self' s' :
  refines cf s m -> run_txn os self s = (Ok (vs, self'), s') ->
  refines cf s' m /\ spec_txn m (txn_writes self) os = (vs, txn_writes self').
Proof.
  revert self s vs. induction os as [|[c k v|c k|k] os IH]; intros self s vs Href Hr; cbn [run_txn spec_txn] in *.
  - by injection Hr as <- <- <-.
  - apply IH in Hr; done.
  - apply IH in Hr; done.
  - destruct (txn_get_refines self s m k Href) as (s1 & Hg & Href1). rewrite (bind_Ok _ _ _ _ _ Hg) in Hr.
    apply bind_Ok_inv in Hr as ([vs1 self1] & s2 & Hr & Hp). injection Hp as <- <- <-.
    destruct (IH _ _ _ Href1 Hr) as [? ->]. done.
Qed.

Lemma spec_txn_writes_ok m w os :
  Forall txn_op_ok os -> map_Forall write_ok (family_writes w cf) ->
  map_Forall write_ok (family_writes (spec_txn m w os).2 cf).
Proof.
  intros Hall. revert w. induction Hall as [|o os Ho _ IH]; intros w Hw; [done|].
  assert (forall c k x, (c = cf -> write_ok k x) -> map_Forall write_ok (family_writes (<[(c, k) := x]> w) cf)) as Hins.
  { intros c k x Hx k' x'. rewrite family_writes_lookup.
    destruct (decide ((c, k) = (cf, k'))) as [[= -> ->]|Hne].
    - rewrite lookup_insert_eq. intros [= <-]. by apply Hx.
    - rewrite lookup_insert_ne, <- family_writes_lookup by done. apply Hw. }
  destruct o as [c k v|c k|k]; cbn [spec_txn].
  - by apply IH, Hins.
  - by apply IH, Hins.
  - specialize (IH w Hw). by destruct (spec_txn m w os).
Qed.

Context (no_default_ttl : default_ttl options = None).

(** C7: a transaction reads and commits its overlay.  Started after any history of
    the engine, a transaction reads its own buffered writes over the contents of
    the column family; nothing of it is visible to the engine before the commit;
    and a commit that succeeds with room in the write buffers makes exactly the
    buffered writes visible: every later history answers as on the overlaid map.
    After a rollback the engine still answers as before. *)
Theorem transaction_commits_overlay os rs s tops vs txn s1 :
  Forall (op_ok cf) os -> run_ops cf os EngineCore_new = (Ok rs, s) ->
  Forall txn_op_ok tops -> run_txn tops (Transaction_new 1).1 s = (Ok (vs, txn), s1) ->
  let m := (spec_ops ∅ os).1 in
  spec_txn m ∅ tops = (vs, txn_writes txn) /\
  (forall k, (get_cf cf k s1).1 = Ok (m !! k)) /\
  (forall s2 os2 rs2 s3, buffer_room s1 (txn_writes txn) -> (txn_commit txn).1 s1 = (Ok tt, s2) ->
     Forall (op_ok cf) os2 -> run_ops cf os2 s2 = (Ok rs2, s3) ->
     rs2 = (spec_ops (overlay (family_writes (txn_writes txn) cf) m) os2).2) /\
  (txn_commit (txn_rollback txn)).1 s1 = (Ok tt, s1).
Proof.
  intros Hos Hr Htops Ht m.
  destruct (run_ops_refines clock_mono cf no_default_ttl _ _ _ _ _ (refines_new clock_mono cf no_default_ttl) Hos Hr) as [Href _].
  destruct (run_txn_refines _ _ _ _ _ _ _ Href Ht) as [Href1 Hspec]. split_and!; [done| | |].
  - intros k. by destruct (get_refines clock_mono cf _ _ k Href1) as (s2 & -> & _).
  - intros s2 os2 rs2 s3 Hroom Hc Hos2 Hr2.
    assert (map_Forall write_ok (family_writes (txn_writes txn) cf)) as Hok.
    { replace (txn_writes txn) with (spec_txn m ∅ tops).2 by (subst m; cbn in Hspec; by rewrite Hspec).
      apply spec_txn_writes_ok; [done|]. intros k x. by rewrite family_writes_lookup, lookup_empty. }
    pose proof (txn_commit_refines _ _ _ _ Href1 Hok Hroom Hc) as Href2.
    by destruct (run_ops_refines clock_mono cf no_default_ttl _ _ _ _ _ Href2 Hos2 Hr2) as [_ ->].
  - unfold txn_commit. by rewrite bool_decide_true.
Qed.
End spec.
