(* ===== verification/Background.v ===== *)
(** * Background: compaction plans against concurrent calls

    A background compaction plans under the lock, works without it and installs
    under the lock again; other calls run in between.  The generation counter of
    the version set decides whether the plan may still be installed.  The file
    shows that the counter tells the truth: whatever calls ran in between,
    successful or not, an unchanged counter means unchanged tables. *)
From Stdlib Require Import ZArith Lia QArith.
From stdpp Require Import base tactics numbers list gmap strings sorting pretty.
From S2P Require Import Prelude Bytes SortedMap LogRecord Iterators.
From S2P Require Import MemTable Extern Encryption SstReader Wal Table.
From S2P Require Import VersionSet Utf8 Engine EngineSpec Compaction Transaction.
Local Open Scope Z_scope.

Create HintDb keeps.

Section background.
Context `{!Crc32, !Aead, !Postcard LogRecord, !Postcard LogRecordV0, !Postcard LogRecordV1}.
Context `{!BloomCrate} `{!SstStore} `{!Moka bytes bytes} `{!SerdeJson} `{!EngineEnv}.

(** The calls of a client and of the background threads. *)
Inductive call : Type :=
| CallPut (cf : string) (k v : bytes) (ttl : option Z)
| CallDelete (cf : string) (k : bytes)
| CallDeleteRange (cf : string) (start stop : bytes)
| CallSetBatch (cf : string) (items : list (bytes * bytes))
| CallDeleteBatch (cf : string) (ks : list bytes)
| CallFlush (cf : string)
| CallGet (cf : string) (k : bytes)
| CallScan (cf : string) (lower upper : option bytes) (limit : option Z)
| CallSearchPrefix (prefix : bytes) (cursor : option bytes) (limit : Z)
| CallCreateIndex (cf : string) (field : bytes)
| CallCompact (cf : string)
| CallCommit (txn : Transaction)
| CallRunPlan (plan : CompactionPlan)
| CallApplyPlan (plan : CompactionPlan) (results : list (list nat * list Table)).

Definition run_call (c : call) : M unit :=
  match c with
  | CallPut cf k v ttl => put_cf_with_ttl_inner 2 cf k v ttl
  | CallDelete cf k => delete_cf cf k
  | CallDeleteRange cf start stop => delete_range_cf cf start stop
  | CallSetBatch cf items => set_batch_cf cf items
  | CallDeleteBatch cf ks => delete_batch_cf cf ks
  | CallFlush cf => flush_memtable_cf cf
  | CallGet cf k => get_cf cf k;; mret tt
  | CallScan cf lower upper limit => scan_cf cf lower upper limit;; mret tt
  | CallSearchPrefix prefix cursor limit => search_prefix prefix cursor limit;; mret tt
  | CallCreateIndex cf field => create_index cf field
  | CallCompact cf => compact_cf cf;; mret tt
  | CallCommit txn => (txn_commit txn).1
  | CallRunPlan plan => run_plan plan;; mret tt
  | CallApplyPlan plan results => apply_plan plan results
  end.
(** The state after calls, whatever they returned. *)
Definition after_calls (cs : list call) (s : EngineCore) : EngineCore :=
  foldl (fun s c => (run_call c s).2) s cs.

(** ** What a computation keeps *)

Definition keeps {A} (R : relation EngineCore) (m : M A) : Prop := forall s, R s (m s).2.

Section closure.
Context (R : relation EngineCore) `{!PreOrder R}.

Lemma keeps_ret {A} (a : A) : keeps R (mret a).
Proof. intros s. reflexivity. Qed.
Lemma keeps_lift {A} (o : outcome A) : keeps R (lift o).
Proof. intros s. reflexivity. Qed.
Lemma keeps_fail {A} e : keeps R (fail e : M A).
Proof. intros s. reflexivity. Qed.
Lemma keeps_gets {A} (f : EngineCore -> A) : keeps R (gets f).
Proof. intros s. reflexivity. Qed.
Lemma keeps_query {A} (f : EngineCore -> outcome A) : keeps R (query f).
Proof. intros s. reflexivity. Qed.
Lemma keeps_modify f : (forall s, R s (f s)) -> keeps R (modify f).
Proof. intros Hf s. apply Hf. Qed.
Lemma keeps_bind {A B} (m : M A) (k : A -> M B) : keeps R m -> (forall a, keeps R (k a)) -> keeps R (m ≫= k).
Proof.
  intros Hm Hk s. specialize (Hm s). unfold mbind, M_bind. destruct (m s) as [[a|e|] s1]; cbn in *; [|done..].
  etrans; [exact Hm|apply Hk].
Qed.
Lemma keeps_ok_value {A} (m : M (option A)) : keeps R m -> keeps R (ok_value m).
Proof. intros Hm s. specialize (Hm s). unfold ok_value. by destruct (m s) as [[a|e|] s1]. Qed.
Lemma keeps_warn (m : M unit) : keeps R m -> keeps R (warn_on_err m).
Proof. intros Hm s. specialize (Hm s). unfold warn_on_err. by destruct (m s) as [[a|e|] s1]. Qed.
Lemma keeps_foldr {A} (f : A -> M unit -> M unit) l m :
  keeps R m -> (forall a m, keeps R m -> keeps R (f a m)) -> keeps R (foldr f m l).
Proof. intros Hm Hf. induction l as [|a l IH]; [done|]. by apply Hf. Qed.
End closure.

(** ** The steps of a call *)

(** The families a call writes. *)
Definition call_in (P : string -> Prop) (c : call) : Prop :=
  match c with
  | CallPut cf _ _ _ | CallDelete cf _ | CallDeleteRange cf _ _ | CallSetBatch cf _ | CallDeleteBatch cf _
  | CallFlush cf | CallCreateIndex cf _ | CallCompact cf => P cf
  | CallGet _ _ | CallScan _ _ _ _ | CallSearchPrefix _ _ _ | CallRunPlan _ => True
  | CallCommit txn => Forall (fun f => P f.1) (cf_writes (txn_writes txn))
  | CallApplyPlan plan _ => P (plan_cf plan)
  end.

(** What a relation has to allow so that every call on the families of [P]
    respects it: the changes of memtables and tables the calls are made of. *)
Class Steps (P : string -> Prop) (R : relation EngineCore) : Prop := {
  #[global] steps_preorder :: PreOrder R;
  steps_outside s s' : memtables s' = memtables s -> version_set s' = version_set s -> R s s';
  steps_memtables cf f s : P cf -> R s (on_memtables (fun m => <[cf := f m]> m) s);
  steps_read s vs :
    compaction_generation vs = compaction_generation (version_set s) -> tables vs = tables (version_set s) ->
    R s (on_version_set (fun _ => vs) s);
  steps_add_table cf t s : P cf -> R s (on_version_set (fun vs => add_table vs cf t) s);
  steps_replace cf groups s :
    P cf -> R s (on_version_set (fun vs => (atomic_replace_groups vs cf groups).2) s);
}.

Section steps.
Context (P : string -> Prop) (R : relation EngineCore) `{!Steps P R}.

Ltac keep :=
  repeat first
    [ solve [auto with keeps nocore]
    | apply keeps_ret; apply _ | apply keeps_lift; apply _ | apply keeps_fail; apply _
    | apply keeps_gets; apply _ | apply keeps_query; apply _
    | apply keeps_ok_value | apply keeps_warn
    | apply keeps_bind; [apply _| |intros ?]
    | apply keeps_modify; intros ?; first [ by apply steps_outside | by apply (steps_memtables _ (fun _ => _))
        | by apply steps_memtables | by apply steps_add_table | by apply steps_replace ]
    | match goal with |- keeps _ (match ?x with _ => _ end) => destruct x end ].

Lemma now_steps : keeps R now.
Proof. intros s. by apply steps_outside. Qed.
#[local] Hint Resolve now_steps : keeps.

Lemma wal_apply_steps cf op : keeps R (wal_apply cf op).
Proof. unfold wal_apply, wal_handle. keep. Qed.
Lemma update_memtable_steps cf f : P cf -> keeps R (update_memtable cf f).
Proof. intros Hcf. unfold update_memtable. keep. Qed.
Lemma add_memtable_bytes_steps cf n : keeps R (add_memtable_bytes cf n).
Proof. unfold add_memtable_bytes. keep. Qed.
Lemma maybe_compact_steps : keeps R maybe_compact.
Proof. unfold maybe_compact. keep. Qed.
#[local] Hint Resolve wal_apply_steps update_memtable_steps add_memtable_bytes_steps maybe_compact_steps : keeps.

Lemma flush_entries_steps at_ es : keeps R (flush_entries at_ es).
Proof. induction es as [|[k r] es IH]; cbn [flush_entries]; keep. Qed.
#[local] Hint Resolve flush_entries_steps : keeps.
Lemma flush_impl_steps cf : P cf -> keeps R (flush_memtable_impl cf).
Proof. intros Hcf. unfold flush_memtable_impl, flush_table. keep. Qed.
#[local] Hint Resolve flush_impl_steps : keeps.
Lemma flush_if_full_steps cf : P cf -> keeps R (flush_if_full cf).
Proof. intros Hcf. unfold flush_if_full. keep. Qed.
#[local] Hint Resolve flush_if_full_steps : keeps.

(** Reads change the cache and the quarantine only. *)
Lemma get_from_sstable_same d t vs table k :
  let vs' := (get_from_sstable d t vs table k).2 in
  compaction_generation vs' = compaction_generation vs /\ tables vs' = tables vs.
Proof. unfold get_from_sstable. by repeat case_match. Qed.
Lemma get_loop_same d t vs k ts :
  let vs' := (get_loop d t vs k ts).2 in
  compaction_generation vs' = compaction_generation vs /\ tables vs' = tables vs.
Proof.
  revert vs; induction ts as [|table ts IH]; intros vs; [done|]. cbn [get_loop].
  assert (let vs' := (get_from_table d t vs table k).2 in
          compaction_generation vs' = compaction_generation vs /\ tables vs' = tables vs) as Hone.
  { unfold get_from_table. pose proof (get_from_sstable_same d t vs table k). by repeat case_match. }
  destruct (get_from_table d t vs table k) as [[res|] vs1]; [done|]. cbn in Hone.
  destruct Hone as [<- <-]. apply IH.
Qed.
Lemma version_set_get_steps cf k : keeps R (version_set_get cf k).
Proof.
  intros s. unfold version_set_get. rewrite bind_now, bind_gets, bind_modify.
  etrans; [apply (steps_outside s (tick s)); done|].
  assert (let vs' := (vs_get (disk s) (clock (ticks s)) (version_set s) cf k).2 in
     compaction_generation vs' = compaction_generation (version_set s) /\ tables vs' = tables (version_set s)) as [E1 E2].
  { unfold vs_get. pose proof (get_loop_same (disk s) (clock (ticks s)) (version_set s) k (reverse (cf_tables (version_set s) cf))).
    by repeat case_match. }
  by apply (steps_read (tick s)).
Qed.
#[local] Hint Resolve version_set_get_steps : keeps.

Lemma get_cf_steps cf k : keeps R (get_cf cf k).
Proof. unfold get_cf, check_ttl_entry. keep. Qed.
#[local] Hint Resolve get_cf_steps : keeps.

Lemma visible_loop_steps fuel cf t lower upper limit merged visible :
  keeps R (visible_loop fuel cf t lower upper limit merged visible).
Proof.
  revert merged visible; induction fuel as [|fuel IH]; intros merged visible; cbn [visible_loop];
    unfold visible_version; keep.
Qed.
#[local] Hint Resolve visible_loop_steps : keeps.
Lemma scan_cf_steps cf lower upper limit : keeps R (scan_cf cf lower upper limit).
Proof. unfold scan_cf, for_each_visible_record. keep. Qed.
#[local] Hint Resolve scan_cf_steps : keeps.
Lemma search_prefix_steps prefix cursor limit : keeps R (search_prefix prefix cursor limit).
Proof. unfold search_prefix. keep. Qed.
#[local] Hint Resolve search_prefix_steps : keeps.

Lemma index_loop_steps {A} (l : list A) (f : A -> M unit) :
  (forall a, keeps R (f a)) -> keeps R (foldr (fun a (rest : M unit) => f a;; rest) (mret tt) l).
Proof. intros Hf. apply keeps_foldr; [keep|]. intros a m Hm. keep. Qed.

Lemma put_steps depth cf k v ttl : P cf -> keeps R (put_cf_with_ttl_inner depth cf k v ttl).
Proof.
  revert cf k v ttl; induction depth as [|depth IH]; intros cf k v ttl Hcf; cbn [put_cf_with_ttl_inner]; [keep|].
  unfold put_record, write_phases, update_indexes. keep. apply index_loop_steps. intros e. keep.
Qed.
#[local] Hint Resolve put_steps : keeps.
Lemma delete_steps depth cf k : P cf -> keeps R (delete_cf_inner depth cf k).
Proof.
  revert cf k; induction depth as [|depth IH]; intros cf k Hcf; cbn [delete_cf_inner]; [keep|].
  unfold write_phases, remove_indexes. keep; apply index_loop_steps; intros e'; keep.
Qed.
#[local] Hint Resolve delete_steps : keeps.

Lemma batch_records_steps cf items : keeps R (batch_records cf items).
Proof. induction items as [|[k v] items IH]; cbn [batch_records]; keep. Qed.
Lemma batch_puts_steps cf items : P cf -> keeps R (batch_puts cf items).
Proof. intros Hcf. induction items as [|[k v] items IH]; cbn [batch_puts]; keep. Qed.
Lemma batch_tombstones_steps cf ks : keeps R (batch_tombstones cf ks).
Proof. induction ks as [|k ks IH]; cbn [batch_tombstones]; keep. Qed.
Lemma batch_deletes_steps cf ks : P cf -> keeps R (batch_deletes cf ks).
Proof. intros Hcf. induction ks as [|k ks IH]; cbn [batch_deletes]; keep. Qed.
#[local] Hint Resolve batch_records_steps batch_puts_steps batch_tombstones_steps batch_deletes_steps : keeps.

(** Compactions write files; the replacement of tables advances the counter. *)
Lemma compact_loop_steps fuel rt merged : keeps R (compact_loop fuel rt merged).
Proof. revert merged; induction fuel as [|fuel IH]; intros merged; cbn [compact_loop]; keep. Qed.
#[local] Hint Resolve compact_loop_steps : keeps.
Lemma compact_steps self indices ts rt :
  (exists ty opts, self = Compaction_new ty opts) -> keeps R (compact self indices ts rt).
Proof.
  intros (ty & opts & ->). unfold compact. keep.
  destruct ty; cbn; unfold ll_execute, st_execute, lv_execute, execute_compaction; keep.
Qed.
Lemma remove_files_steps paths : keeps R (modify (fun s => foldr remove_file s paths)).
Proof. intros s. apply steps_outside; cbn; by induction paths. Qed.
#[local] Hint Resolve remove_files_steps : keeps.
Lemma install_groups_steps cf groups : P cf -> keeps R (install_groups cf groups).
Proof. intros Hcf. unfold install_groups. keep. Qed.
#[local] Hint Resolve install_groups_steps : keeps.
Lemma engine_compact_steps indices ts rt : keeps R (compact engine_compaction indices ts rt).
Proof. apply compact_steps. unfold engine_compaction. eauto. Qed.
#[local] Hint Resolve engine_compact_steps : keeps.
Lemma compact_groups_steps ts rt groups : keeps R (compact_groups engine_compaction ts rt groups).
Proof. induction groups as [|g groups IH]; cbn [compact_groups]; keep. Qed.
#[local] Hint Resolve compact_groups_steps : keeps.
Lemma run_groups_steps ts rt groups : keeps R (run_groups ts rt groups).
Proof.
  induction groups as [|g groups IH]; cbn [run_groups]; [keep|]. intros s.
  pose proof (engine_compact_steps g ts rt s) as Hc.
  destruct (compact engine_compaction g ts rt s) as [[[outs me]|e|] s1]; cbn in Hc |- *; [| |done].
  - etrans; [exact Hc|]. apply (keeps_bind R (run_groups ts rt groups)); [exact IH|]. intros ?. keep.
  - etrans; [exact Hc|apply IH].
Qed.
#[local] Hint Resolve run_groups_steps : keeps.

(** Transactions. *)
Lemma txn_records_steps cf es : keeps R (txn_records cf es).
Proof. induction es as [|[k [v d]] es IH]; cbn [txn_records]; keep. Qed.
Lemma txn_apply_steps cf es : P cf -> keeps R (txn_apply cf es).
Proof. intros Hcf. induction es as [|[k [v d]] es IH]; cbn [txn_apply]; keep. Qed.
Lemma txn_flush_steps cf : P cf -> keeps R (flush_memtable_for_cf cf).
Proof. intros Hcf. unfold flush_memtable_for_cf. keep. Qed.
#[local] Hint Resolve txn_records_steps txn_apply_steps txn_flush_steps : keeps.
Lemma commit_families_steps fs : Forall (fun f => P f.1) fs -> keeps R (commit_families fs).
Proof. induction 1 as [|[cf ws] fs Hcf _ IH]; [|cbn in Hcf]; cbn [commit_families]; unfold commit_family; keep. Qed.
#[local] Hint Resolve commit_families_steps : keeps.

Lemma run_call_steps c : call_in P c -> keeps R (run_call c).
Proof.
  intros Hc. destruct c; cbn in Hc; cbn [run_call]; unfold delete_cf, delete_range_cf, set_batch_cf, delete_batch_cf, flush_memtable_cf,
    create_index, put_cf, compact_cf, compact_cf_core, run_plan, apply_plan, txn_commit; keep;
    try (case_bool_decide; cbn; keep).
Qed.

Lemma after_calls_steps cs s : Forall (call_in P) cs -> R s (after_calls cs s).
Proof.
  intros Hcs. revert s; induction Hcs as [|c cs Hc _ IH]; intros s; [reflexivity|].
  etrans; [apply (run_call_steps c Hc s)|apply IH].
Qed.

(** Histories on a family. *)
Lemma run_op_steps cf o : P cf -> keeps R (run_op cf o).
Proof.
  intros Hcf. destruct o; cbn [run_op]; unfold put_cf, delete_cf, delete_range_cf, set_batch_cf, delete_batch_cf,
    flush_memtable_cf; keep.
Qed.
#[local] Hint Resolve run_op_steps : keeps.
Lemma run_ops_steps cf os : P cf -> keeps R (run_ops cf os).
Proof. intros Hcf. induction os as [|o os IH]; cbn [run_ops]; keep. Qed.
End steps.

(** ** The generation counter *)

(** Between two states the counter advanced, or it is the same and so are the
    tables. *)
Definition tracked (s s' : EngineCore) : Prop :=
  let vs := version_set s in let vs' := version_set s' in
  compaction_generation vs < compaction_generation vs' \/
  compaction_generation vs = compaction_generation vs' /\ tables vs = tables vs'.
#[local] Instance tracked_preorder : PreOrder tracked.
Proof.
  split; [intros s; by right|]. intros s1 s2 s3. unfold tracked. intros [H12|[H12 T12]] [H23|[H23 T23]]; try (left; lia).
  right. split; congruence.
Qed.

#[local] Instance tracked_steps : Steps (fun _ => True) tracked.
Proof.
  split; [apply _|..].
  - intros s s' _ E. right. by rewrite E.
  - intros cf f s _. by right.
  - intros s vs E1 E2. by right.
  - intros cf t s _. left. cbn. lia.
  - intros cf groups s _. unfold atomic_replace_groups, tracked. cbn. destruct (tables (version_set s) !! cf); [|by right].
    destruct (replace_plan _ _) as [removed reps]. case_bool_decide; [by right|].
    destruct (replace_loop _ _ _ _). left. cbn. lia.
Qed.

Lemma after_calls_tracked cs s : tracked s (after_calls cs s).
Proof.
  apply (after_calls_steps (fun _ => True) tracked). apply Forall_forall. intros c _.
  destruct c; cbn; try done. by apply Forall_forall.
Qed.

(** C14: a background plan is never installed over other tables.  Between the
    moment a plan was made and the moment its results are installed any calls may
    run, of clients, of transactions and of other compactions, and may fail.
    Installing then either leaves the state as it is, because the generation
    counter moved, or finds the very tables the plan was made from, so that its
    indices mean what they meant. *)
Theorem stale_plan_discarded s cf plan cs results :
  plan_of s cf = Some plan ->
  let s' := after_calls cs s in
  (compaction_generation (version_set s') <> plan_generation plan /\ apply_plan plan results s' = (Ok tt, s')) \/
  (cf_tables (version_set s') (plan_cf plan) = plan_tables plan /\
   apply_plan plan results s' = install_groups (plan_cf plan) results s').
Proof.
  intros Hp s'. pose proof (after_calls_tracked cs s) as Ht. fold s' in Ht.
  assert (plan_cf plan = cf /\ plan_tables plan = cf_tables (version_set s) cf /\
          plan_generation plan = compaction_generation (version_set s)) as (Hcf & -> & Hg).
  { unfold plan_of in Hp. case_match; [done|]. case_match; [done|]. by injection Hp as <-. }
  unfold apply_plan. rewrite bind_gets, Hg. destruct Ht as [Hlt|[Heq Htab]].
  - left. split; [lia|]. by rewrite (proj2 (Z.eqb_neq _ _)) by lia.
  - right. rewrite (proj2 (Z.eqb_eq _ _) Heq). split; [|done]. rewrite Hcf. unfold cf_tables. by rewrite <- Htab.
Qed.
End background.
