(* ===== verification/Recovery.v ===== *)
(** * Recovery: startup ([src/src/core/engine/recovery.rs], [new_generic])

    Opening a data directory: the zero-key check, the replay of every log into
    memtables, and the discovery of the SSTables, each inspected before any is
    moved to quarantine.  The directory is its SSTables, its log files in the
    order the directory listing gives them, and the manifest a snapshot restore
    leaves, already parsed. *)
From Stdlib Require Import ZArith Lia QArith.
From stdpp Require Import base tactics numbers list gmap strings sorting pretty.
From S2P Require Import Prelude Bytes SortedMap LogRecord Iterators.
From S2P Require Import MemTable Extern Encryption SstReader Wal Table.
From S2P Require Import VersionSet Utf8 Engine.
Local Open Scope Z_scope.

(** [SnapshotManifest]: the names of the tables of each column family. *)
Notation Manifest := (list (string * list string)).

Section recovery.
Context `{!Crc32, !Aead, !Postcard LogRecord, !Postcard LogRecordV0, !Postcard LogRecordV1}.
Context `{!BloomCrate} `{!SstStore} `{!Moka bytes bytes} `{!SerdeJson} `{!EngineEnv}.

(** A data directory. *)
Record DataDir := mkDataDir {
  dd_sstables : gmap string SstFile;
  dd_quarantine : gset string;
  dd_default_wal : bytes;
  dd_wals : list (string * bytes);
  dd_manifest : option Manifest;
}.

(** [struct Candidate]. *)
Record Candidate := mkCandidate { c_cf : string; c_path : string; c_outcome : TableLoad }.

(** [recovery::inspect]: every file is classified before anything moves; a
    repeated or missing file and any error that is not damage abort. *)
Fixpoint inspect (files : gmap string SstFile) (seen : gset string) (paths : list (string * string))
    : outcome (list Candidate) :=
  match paths with
  | [] => Ok []
  | (cf, path) :: paths =>
      if bool_decide (path ∈ seen) then Err InvalidArgument
      else
        let* file := open_file files path in
        let* load := load_for_recovery path file in
        let* rest := inspect files ({[path]} ∪ seen) paths in
        Ok ({| c_cf := cf; c_path := path; c_outcome := load |} :: rest)
  end.

(** [recovery::apply]. *)
Fixpoint apply_candidates (candidates : list Candidate) : M unit :=
  match candidates with
  | [] => mret tt
  | c :: candidates =>
      match c_outcome c with
      | Healthy table | DegradedBloom table =>
          modify (on_version_set (fun vs => add_table vs (c_cf c) table))
      | Corrupt _ => modify (remove_file (c_path c))
      end;;
      apply_candidates candidates
  end.

(** [Path::components] of a Unix path: empty segments and [.] inside a path do not
    count. *)
Inductive Component := RootDir | CurDir | ParentDir | Normal (name : bytes).
Definition segments (path : bytes) : list bytes := split_byte Byte.x2f path.
Definition component (seg : bytes) : option Component :=
  if bytes_eqb seg [] || bytes_eqb seg (lit ".") then None
  else if bytes_eqb seg (lit "..") then Some ParentDir
  else Some (Normal seg).
Definition components (path : bytes) : list Component :=
  (if starts_with path (lit "/") then [RootDir]
   else if bytes_eqb (default [] (head (segments path))) (lit ".") then [CurDir] else [])
  ++ omap component (segments path).

(** [Path::extension] is [sst]: the name is a stem followed by [.sst]. *)
Definition has_sst_extension (name : bytes) : bool :=
  (4 <? length name)%nat && bytes_eqb (drop (length name - 4) name) (lit ".sst").

(** [recovery::table_path]: the names of a manifest are plain [.sst] file names. *)
Definition table_path (name : string) : outcome string :=
  match components (lit name) with
  | [Normal file_name] => if has_sst_extension file_name then Ok name else Err InvalidArgument
  | _ => Err InvalidArgument
  end.
Fixpoint table_paths (paths : list (string * string)) : outcome (list (string * string)) :=
  match paths with
  | [] => Ok []
  | (cf, name) :: paths =>
      let* path := table_path name in
      let* rest := table_paths paths in
      Ok ((cf, path) :: rest)
  end.

(** All tables of a manifest. *)
Definition manifest_paths (m : Manifest) : list (string * string) :=
  concat ((fun f : string * list string => pair f.1 <$> f.2) <$> m).

(** The order of file names. *)
Definition path_le (a b : string * string) : Prop := bytes_le (lit a.2) (lit b.2).
#[global] Instance path_le_dec : RelDecision path_le.
Proof. intros a b. unfold path_le. apply _. Defined.
#[global] Instance path_le_total : Total path_le.
Proof. intros a b. unfold path_le. apply (total bytes_le). Qed.

(** The tables discovery looks at: those of the manifest that were not
    quarantined before, or all of the directory as tables of ["default"]; in the
    order of their file names. *)
Definition discovered_paths (dir : DataDir) : list (string * string) :=
  merge_sort path_le
    match dd_manifest dir with
    | Some families =>
        filter (fun p => ~ (dd_sstables dir !! p.2 = None /\ p.2 ∈ dd_quarantine dir)) (manifest_paths families)
    | None => pair "default"%string <$> (map_to_list (dd_sstables dir)).*1
    end.

(** [discover_sstables_from_disk]. *)
Definition discover_sstables_from_disk (dir : DataDir) : M unit :=
  lift (match dd_manifest dir with Some families => table_paths (manifest_paths families) | None => Ok [] end);;
  candidates ← query (fun s => inspect (disk s) ∅ (discovered_paths dir));
  apply_candidates candidates.

(** Opening one log and replaying it. *)
Definition open_wal (cf : string) (file : bytes) : M unit :=
  let w := set_sync_interval (wal_open file (eo_encryption options) (wal_entropy cf))
                             (eo_wal_sync_interval options) in
  let '(w, records) := recover w in
  records ← lift records;
  modify (on_wals <[cf := w]>);;
  replay_wal_records_core records.

Fixpoint open_wals (files : list (string * bytes)) : M unit :=
  match files with
  | [] => mret tt
  | (cf, file) :: files =>
      ws ← gets wals;
      (if bool_decide (cf = "default"%string) || bool_decide (is_Some (ws !! cf)) then mret tt
       else open_wal cf file);;
      open_wals files
  end.

(** The state before anything was recovered; [n] and [t] continue the counts of
    files written and of clock readings. *)
Definition core_of (dir : DataDir) (n t : nat) : EngineCore :=
  {| memtables := ∅; memtable_bytes := ∅; version_set := VersionSet_new true; wals := ∅;
     core_range_tombstones := ∅; disk := dd_sstables dir; sst_writes := n; ticks := t;
     compactions_asked := 0 |}.

(** [new_generic]. *)
Definition new_generic (dir : DataDir) : M unit :=
  if ec_enabled (eo_encryption options) && bytes_eqb (ec_key (eo_encryption options)) (replicate 32 Byte.x00)
  then fail LegacyEncryptionMigrationRequired
  else
    open_wal "default" (dd_default_wal dir);;
    open_wals (dd_wals dir);;
    discover_sstables_from_disk dir.

(** ** Replay *)

(** The version of a key in the memtables of a column family, and the range
    tombstones of the family. *)
Definition mem_version (s : EngineCore) (cf : string) (k : bytes) : option LogRecord :=
  memtables_get (reverse (default [] (memtables s !! cf))) k.
Definition family_rts (s : EngineCore) (cf : string) : list RangeTombstone :=
  default [] (core_range_tombstones s !! cf).

Lemma with_last_reverse f mems :
  reverse (with_last f mems) = f (default new_unlimited (head (reverse mems))) :: tail (reverse mems).
Proof.
  unfold with_last. destruct mems as [|m mems _] using rev_ind; [done|].
  rewrite reverse_snoc. destruct (mems ++ [m]) as [|x l] eqn:E; [by destruct mems|]. rewrite <- E.
  assert (alter f (pred (length (mems ++ [m]))) (mems ++ [m]) = mems ++ [f m]) as ->.
  { clear. rewrite length_app, Nat.add_1_r. cbn [pred].
    induction mems as [|y ms IH]; [done|]. cbn. f_equal. apply IH. }
  by rewrite reverse_snoc.
Qed.

Lemma memtables_get_insert mems r k :
  memtables_get (reverse (with_last (fun mem => mem_insert mem r) mems)) k =
  if bytes_eqb (key r) k then Some r else memtables_get (reverse mems) k.
Proof.
  rewrite with_last_reverse. cbn [memtables_get mem_insert data].
  destruct (bytes_eqb_spec (key r) k) as [<-|Hne]; [by rewrite lookup_insert_eq|].
  rewrite lookup_insert_ne by done. destruct (reverse mems) as [|m ms]; [done|]. cbn. by destruct (data m !! k).
Qed.

Lemma memtables_get_range mems rt k :
  memtables_get (reverse (with_last (fun mem => add_range_tombstone mem rt) mems)) k =
  memtables_get (reverse mems) k.
Proof.
  rewrite with_last_reverse. cbn [memtables_get add_range_tombstone data].
  destruct (reverse mems) as [|m ms]; [done|]. cbn. by destruct (data m !! k).
Qed.

(** The range tombstone a record stands for. *)
Definition range_of (r : LogRecord) : RangeTombstone :=
  {| start_key := default [] (range_start r); end_key := default [] (range_end r);
     rt_timestamp := timestamp r |}.
Definition range_in (cf : string) (r : LogRecord) : bool :=
  is_range_tombstone r && bool_decide (default "default"%string (column_family r) = cf).
Definition writes (cf : string) (k : bytes) (r : LogRecord) : bool :=
  negb (is_range_tombstone r) && bool_decide (dedup_key r = (cf, k)).

Lemma mem_version_updated c f s cf k :
  mem_version (on_memtables (fun m => <[c := with_last f (default [] (m !! c))]> m) s) cf k =
  if decide (c = cf) then memtables_get (reverse (with_last f (default [] (memtables s !! cf)))) k
  else mem_version s cf k.
Proof.
  unfold mem_version, on_memtables. cbn [memtables]. case_decide as Hc.
  - subst. by rewrite lookup_insert_eq.
  - by rewrite lookup_insert_ne.
Qed.

Lemma family_rts_updated c rt s cf :
  family_rts (on_range_tombstones (fun m => <[c := default [] (m !! c) ++ [rt]]> m) s) cf =
  family_rts s cf ++ (if decide (c = cf) then [rt] else []).
Proof.
  unfold family_rts, on_range_tombstones. cbn [core_range_tombstones]. case_decide as Hc.
  - subst. by rewrite lookup_insert_eq.
  - by rewrite lookup_insert_ne, app_nil_r.
Qed.

Lemma replay_record_views r s :
  exists s', replay_record r s = (Ok tt, s') /\
    (forall cf k, mem_version s' cf k = if writes cf k r then Some r else mem_version s cf k) /\
    (forall cf, family_rts s' cf = family_rts s cf ++ (if range_in cf r then [range_of r] else [])).
Proof.
  unfold replay_record, writes, range_in, dedup_key.
  set (c := default "default"%string (column_family r)).
  destruct (is_range_tombstone r); cbn [negb andb]; eexists; (split; [done|]); split.
  - intros cf k. rewrite mem_version_updated. case_decide as Hc; [|done]. subst cf. apply memtables_get_range.
  - intros cf. etrans; [exact (family_rts_updated c (range_of r) s cf)|]. f_equal.
    by case_decide; case_bool_decide.
  - intros cf k. etrans; [exact (mem_version_updated c _ s cf k)|]. case_decide as Hc.
    + subst cf. rewrite memtables_get_insert. fold (mem_version s c k).
      destruct (bytes_eqb_spec (key r) k) as [<-|Hk]; [by rewrite bool_decide_true|].
      by rewrite bool_decide_false by congruence.
    + by rewrite bool_decide_false by congruence.
  - intros cf. by rewrite app_nil_r.
Qed.

(** The last record of a list that satisfies a predicate. *)
Definition last_such (p : LogRecord -> bool) (rs : list LogRecord) : option LogRecord :=
  last (filter (fun r => p r = true) rs).

Lemma last_such_cons p r rs :
  last_such p (r :: rs) =
  match last_such p rs with Some x => Some x | None => if p r then Some r else None end.
Proof.
  unfold last_such. rewrite filter_cons. destruct (p r); [rewrite decide_True by done|rewrite decide_False by done].
  - rewrite last_cons. by destruct (last (filter _ rs)).
  - by destruct (last (filter _ rs)).
Qed.

Lemma replay_views rs s :
  exists s', replay_wal_records_core rs s = (Ok tt, s') /\
    (forall cf k, mem_version s' cf k =
       match last_such (writes cf k) rs with Some r => Some r | None => mem_version s cf k end) /\
    (forall cf, family_rts s' cf = family_rts s cf ++ (range_of <$> filter (fun r => range_in cf r = true) rs)).
Proof.
  revert s; induction rs as [|r rs IH]; intros s.
  { exists s. split_and!; [done|done|]. intros cf. cbn. by rewrite app_nil_r. }
  destruct (replay_record_views r s) as (s1 & Hr & Hv & Ht). destruct (IH s1) as (s2 & Hr2 & Hv2 & Ht2).
  exists s2. split_and!.
  - cbn [replay_wal_records_core]. unfold mbind, M_bind. by rewrite Hr.
  - intros cf k. rewrite Hv2, Hv, last_such_cons. by destruct (last_such _ rs), (writes cf k r).
  - intros cf. rewrite Ht2, Ht, filter_cons, <- app_assoc. f_equal.
    destruct (range_in cf r); [by rewrite decide_True|by rewrite decide_False].
Qed.

Lemma later_write_last_such r rs cf k :
  writes cf k r = true -> later_write r rs = true -> is_Some (last_such (writes cf k) rs).
Proof.
  intros [_ Hk%bool_decide_eq_true]%andb_true_iff (j & r' & Hj & Hn & Hd)%later_write_spec.
  unfold last_such. destruct (last (filter _ rs)) as [x|] eqn:E; [eauto|].
  apply last_None in E. assert (r' ∈ filter (fun r => writes cf k r = true) rs) as Hin; [|rewrite E in Hin; set_solver].
  apply list_elem_of_filter. split; [|by eapply list_elem_of_lookup_2].
  unfold writes. rewrite Hn, bool_decide_true by congruence. done.
Qed.

Lemma last_writes_last_such rs cf k :
  last_such (writes cf k) (last_writes rs) = last_such (writes cf k) rs.
Proof.
  induction rs as [|r rs IH]; [done|]. cbn [last_writes].
  destruct (is_range_tombstone r || negb (later_write r rs)) eqn:E.
  - by rewrite !last_such_cons, IH.
  - rewrite last_such_cons, IH. apply orb_false_iff in E as [_ El%negb_false_iff].
    destruct (last_such (writes cf k) rs) eqn:Els; [done|]. destruct (writes cf k r) eqn:Ew; [|done].
    destruct (later_write_last_such r rs cf k Ew El) as [x Hx]. congruence.
Qed.

Lemma last_writes_ranges rs cf :
  filter (fun r => range_in cf r = true) (last_writes rs) = filter (fun r => range_in cf r = true) rs.
Proof.
  induction rs as [|r rs IH]; [done|]. cbn [last_writes].
  destruct (is_range_tombstone r) eqn:Er; cbn [orb].
  - rewrite !filter_cons, IH. done.
  - rewrite (filter_cons _ r rs), decide_False by (unfold range_in; rewrite Er; done).
    destruct (later_write r rs); cbn [negb]; [done|].
    by rewrite filter_cons, decide_False by (unfold range_in; rewrite Er; done).
Qed.

(** deduplicating the log does not change what is recovered.  Replaying the
    deduplicated records and replaying all of them never fails and leaves the
    same version of every key in every column family and the same range
    tombstones; and that version is the last one the log holds for the key. *)
Theorem replay_deduplicated rs s cf k :
  (replay_wal_records_core rs s).1 = Ok tt /\
  (replay_wal_records_core (deduplicate_records rs) s).1 = Ok tt /\
  mem_version (replay_wal_records_core (deduplicate_records rs) s).2 cf k
  = mem_version (replay_wal_records_core rs s).2 cf k /\
  family_rts (replay_wal_records_core (deduplicate_records rs) s).2 cf
  = family_rts (replay_wal_records_core rs s).2 cf /\
  (forall r, last_such (writes cf k) rs = Some r ->
     mem_version (replay_wal_records_core rs s).2 cf k = Some r).
Proof.
  rewrite dedup_last_writes.
  destruct (replay_views rs s) as (s1 & -> & Hv1 & Ht1).
  destruct (replay_views (last_writes rs) s) as (s2 & -> & Hv2 & Ht2). cbn [fst snd].
  split_and!; [done|done| | |].
  - by rewrite Hv1, Hv2, last_writes_last_such.
  - by rewrite Ht1, Ht2, last_writes_ranges.
  - intros r Hr. by rewrite Hv1, Hr.
Qed.

End recovery.
