(* ===== verification/Migration.v ===== *)
(** * Migration: rewriting a data directory under another key ([src/src/storage/migration.rs])

    A migration reads a database directory, writes every table and log again
    under the target's encryption into a private staging directory, copies the
    other files, and publishes the result with one rename that refuses to replace
    anything.  A file system is a tree; a path is the list of its components, as
    [canonicalize] resolves it.  What other processes do to the tree in the
    meantime is an argument. *)
From Stdlib Require Import ZArith Lia QArith.
From stdpp Require Import base tactics numbers list gmap strings sorting.
From S2P Require Import Prelude Bytes SortedMap LogRecord Extern Encryption.
From S2P Require Import Block SstBuilder SstReader Wal Utf8 Engine.
Local Open Scope Z_scope.

(** ** File trees *)

(** A file with a flag that says whether another process holds its lock; a
    directory; a symbolic link or special file, with whether following it reaches
    something. *)
Inductive node : Type :=
| File (content : bytes) (locked : bool)
| Dir (entries : list (bytes * node))
| Special (resolves : bool).

Fixpoint node_at (n : node) (p : list bytes) : option node :=
  match p with
  | [] => Some n
  | c :: p =>
      match n with
      | Dir es => match assoc c es with Some n' => node_at n' p | None => None end
      | _ => None
      end
  end.

(** The tree with an entry added to the directory at [p]. *)
Fixpoint put_at (n : node) (p : list bytes) (name : bytes) (new : node) : node :=
  match n with
  | Dir es =>
      match p with
      | [] => Dir (es ++ [(name, new)])
      | c :: p => Dir ((fun e => (e.1, if decide (e.1 = c) then put_at e.2 p name new else e.2)) <$> es)
      end
  | _ => n
  end.

(** The names in a directory are distinct, at every level. *)
Fixpoint tree_ok (n : node) : Prop :=
  match n with
  | Dir es => NoDup (es.*1) /\ foldr (fun e P => tree_ok e.2 /\ P) True es
  | _ => True
  end.

(** ** File names *)

Definition LOCK_NAME : bytes := Eval vm_compute in lit ".apexstore.lock".
Definition dot : byte := Byte.x2e.

(** The part of a name after its last dot, and whether something precedes it. *)
Fixpoint after_last_dot (name : bytes) : option bytes :=
  match name with
  | [] => None
  | b :: name =>
      match after_last_dot name with
      | Some ext => Some ext
      | None => if decide (b = dot) then Some name else None
      end
  end.

(** [Path::extension]: none without a dot, or when the only dot comes first. *)
Definition extension (name : bytes) : option bytes :=
  match name with
  | [] => None
  | _ :: rest => after_last_dot rest
  end.

Definition sst_ext : bytes := Eval vm_compute in lit "sst".
Definition wal_log : bytes := Eval vm_compute in lit "wal.log".
Definition wal_prefix : bytes := Eval vm_compute in lit "wal-".
Definition log_suffix : bytes := Eval vm_compute in lit ".log".

Definition is_sstable_name (name : bytes) : bool := bool_decide (extension name = Some sst_ext).

Definition is_log_name (name : bytes) : bool :=
  match from_utf8 name with
  | Some name => bool_decide (name = wal_log) || (starts_with name wal_prefix && ends_with name log_suffix)
  | None => false
  end.

Record MigrationReport := mkMigrationReport {
  sstables : Z;
  wal_frames : Z;
  copied_files : Z;
}.

Definition MigrationReport_default : MigrationReport :=
  {| sstables := 0; wal_frames := 0; copied_files := 0 |}.

Section migration.
Context `{!Crc32, !Lz4, !Aead, !BloomCrate, !Postcard LogRecord, !Postcard MetaBlock, !Moka (Z * nat) bytes}.
Context `{!Postcard LogRecordV0, !Postcard LogRecordV1}.

(** ** [rewrite_sstable] *)

Definition legacy_config : EncryptionConfig := {| ec_enabled := true; ec_key := zero_key |}.

(** One turn of the inner loop. *)
Definition rewrite_record (st : SstableBuilder * Z) (e : bytes * LogRecord) : outcome (SstableBuilder * Z) :=
  let '(builder, count) := st in
  if negb (bytes_eqb e.1 (key e.2)) then Err CorruptedData
  else
    let* builder := sb_add builder e.1 e.2 in
    Ok (builder, count + 1).

(** The loop over the block index: each block is read as the range from its
    first key to that of the next. *)
Fixpoint rewrite_blocks (reader : SstableReader) (cache : Cache) (blocks : list BlockMeta)
    (st : SstableBuilder * Z) : outcome (SstableBuilder * Z) :=
  match blocks with
  | [] => Ok st
  | block :: rest =>
      let stop := match rest with next :: _ => Some (bm_first_key next) | [] => None end in
      let '(records, cache) := sst_scan_range reader cache (Some (bm_first_key block)) stop in
      let* records := records in
      let* st := ofold rewrite_record st records in
      rewrite_blocks reader cache rest st
  end.

(** The configuration of the new table: blocks as large as the largest of the old. *)
Definition migration_config (metadata : MetaBlock) : StorageConfig :=
  let max_block := default 4096 (maxZ_list (bm_uncompressed_size <$> mb_blocks metadata)) in
  {| sc_block_size := Z.min (Z.max max_block 4096) (MAX_VALUE_SIZE + MAX_KEY_SIZE + 4096);
     sc_bloom_false_positive_rate := (1 # 100)%Q;
     sc_prefix_compression_enabled := false |}.

Definition rewrite_sstable (source : bytes) (from to : EncryptionConfig) (allow_legacy_zero : bool)
    (rng : nat -> option bytes) : outcome bytes :=
  let open encryption := rd_open source 0 encryption true in
  let* reader :=
    match open from with
    | Err LegacyEncryptionMigrationRequired =>
        if allow_legacy_zero then open legacy_config else Err LegacyEncryptionMigrationRequired
    | result => result
    end in
  let metadata := rd_metadata reader in
  let builder := sb_new_with_encryption (migration_config metadata) (mb_timestamp metadata) to rng in
  let* (builder, count) := rewrite_blocks reader ∅ (mb_blocks metadata) (builder, 0) in
  if negb (count =? mb_record_count metadata) then Err CorruptedData
  else
    let* file := sb_finish builder in
    if len file <=? u64_max then Ok file else Err (Io OtherIo).

(** ** [rewrite_directory] *)

(** The report so far and the number of files written, which selects the nonces. *)
Definition progress : Type := MigrationReport * nat.

(** The check of a nested database's lock. *)
Definition nested_lock (es : list (bytes * node)) : outcome unit :=
  match assoc LOCK_NAME es with
  | None | Some (Special false) => Ok tt
  | Some (File _ locked) => if (locked : bool) then Err InvalidArgument else Ok tt
  | Some (Dir _) | Some (Special true) => Err InvalidArgument
  end.

(** The entries of a directory, in the order of their names. *)
Fixpoint run_jobs (jobs : list (bytes * (progress -> outcome (list (bytes * node) * progress))))
    (st : progress) : outcome (list (bytes * node) * progress) :=
  match jobs with
  | [] => Ok ([], st)
  | (_, job) :: jobs =>
      let* (out, st) := job st in
      let* (outs, st) := run_jobs jobs st in
      Ok (out ++ outs, st)
  end.

(** One entry: what it adds to the output directory. *)
Fixpoint rewrite_entry (from to : EncryptionConfig) (allow_legacy_zero : bool)
    (rng : nat -> nat -> option bytes) (name : bytes) (n : node) (st : progress)
    : outcome (list (bytes * node) * progress) :=
  let '(report, files) := st in
  match n with
  | Special _ => Err InvalidArgument
  | Dir es =>
      if bool_decide (name = LOCK_NAME) then Ok ([], st)
      else
        let* _ := nested_lock es in
        let* (out, st) :=
          run_jobs (sort_entries
            ((fun e => (e.1, rewrite_entry from to allow_legacy_zero rng e.1 e.2)) <$> es)) st in
        Ok ([(name, Dir out)], st)
  | File content _ =>
      if bool_decide (name = LOCK_NAME) then Ok ([], st)
      else if is_sstable_name name then
        let* file := rewrite_sstable content from to allow_legacy_zero (rng files) in
        Ok ([(name, File file false)],
            ({| sstables := sstables report + 1; wal_frames := wal_frames report;
                copied_files := copied_files report |}, S files))
      else if is_log_name name then
        let* (log, n) := rewrite_for_migration content from to allow_legacy_zero (rng files) in
        Ok ([(name, File (wal_file log) false)],
            ({| sstables := sstables report; wal_frames := wal_frames report + n;
                copied_files := copied_files report |}, S files))
      else
        Ok ([(name, File content false)],
            ({| sstables := sstables report; wal_frames := wal_frames report;
                copied_files := copied_files report + 1 |}, files))
  end.

Definition rewrite_directory (es : list (bytes * node)) (from to : EncryptionConfig)
    (allow_legacy_zero : bool) (rng : nat -> nat -> option bytes) (st : progress)
    : outcome (list (bytes * node) * progress) :=
  run_jobs (sort_entries ((fun e => (e.1, rewrite_entry from to allow_legacy_zero rng e.1 e.2)) <$> es)) st.

(** ** [migrate_inner] *)

(** An output path: its parent as [canonicalize] resolves it, and its last
    component. *)
Record OutputPath := mkOutputPath {
  op_parent : option (list bytes);
  op_name : option bytes;
}.

(** [output.exists() || output.symlink_metadata().is_ok()]. *)
Definition output_exists (fs : node) (output : OutputPath) : bool :=
  match op_parent output, op_name output with
  | Some parent, Some name => bool_decide (is_Some (node_at fs (parent ++ [name])))
  | _, _ => false
  end.

(** [publish_directory]: a rename that does not replace. *)
Definition publish_directory (fs : node) (staging : node) (parent : list bytes) (name : bytes)
    : outcome node :=
  match node_at fs parent with
  | Some (Dir es) =>
      match assoc name es with
      | Some _ => Err (Io OtherIo)
      | None => Ok (put_at fs parent name staging)
      end
  | _ => Err (Io OtherIo)
  end.

(** The source with its lock file, which opening the lock creates. *)
Definition lock_source (fs : node) (source : list bytes) : node :=
  match node_at fs source with
  | Some (Dir es) =>
      match assoc LOCK_NAME es with
      | None => put_at fs source LOCK_NAME (File [] false)
      | Some _ => fs
      end
  | _ => fs
  end.

(** The source's lock, before it is opened: none, or a file nobody holds. *)
Definition lock_available (es : list (bytes * node)) : bool :=
  match assoc LOCK_NAME es with
  | None => true
  | Some (File _ locked) => negb locked
  | Some _ => false
  end.

(** The calls to the file system that can fail for reasons of their own, the
    reads and writes of the conversion taken together.  The last is the removal
    of the staging directory when it is dropped, whose errors are ignored. *)
Inductive io_point : Set :=
| OpenLock
| CreateStaging
| LockStaging
| Convert
| SyncStaging
| Rename
| SyncParent
| RemoveStaging.

#[global] Instance io_point_eq_dec : EqDecision io_point.
Proof. solve_decision. Defined.

(** What the surroundings contribute: which of these calls succeed, the name
    [tempdir_in] draws for the staging directory, what a removal that fails
    leaves in it, and what other processes do to the rest of the tree during the
    conversion and between the last check and the rename. *)
Record MigrationEnv := mkMigrationEnv {
  me_io : io_point -> bool;
  me_staging : bytes;
  me_left : list (bytes * node);
  me_during : node -> node;
  me_before_publish : node -> node;
}.

(** The tree when the staging directory is dropped: it is removed, or what the
    removal left of it stays.  Nobody else uses its name. *)
Definition drop_staging (env : MigrationEnv) (parent : list bytes) (fs : node) : node :=
  if me_io env RemoveStaging || bool_decide (is_Some (node_at fs (parent ++ [me_staging env]))) then fs
  else put_at fs parent (me_staging env) (Dir (me_left env)).

(** [migrate_inner]: the outcome and the tree it leaves.  The entries converted
    are those before the lock file was created, which the conversion skips
    anyway. *)
Definition migrate_inner (fs : node) (source : option (list bytes)) (output : OutputPath)
    (from to : EncryptionConfig) (allow_legacy_zero : bool) (rng : nat -> nat -> option bytes)
    (env : MigrationEnv) : outcome MigrationReport * node :=
  if ec_enabled to && bytes_eqb (ec_key to) zero_key then (Err InvalidArgument, fs) else
  match source with
  | None => (Err (Io OtherIo), fs)
  | Some source =>
  match node_at fs source with
  | Some (Dir es) =>
    if match assoc LOCK_NAME es with Some (File _ _) | None => false | Some _ => true end
    then (Err InvalidArgument, fs) else
    if negb (me_io env OpenLock) then (Err (Io OtherIo), fs) else
    if negb (lock_available es) then (Err InvalidArgument, fs) else
    let fs := lock_source fs source in
    if output_exists fs output then (Err InvalidArgument, fs) else
    match op_parent output, op_name output with
    | None, _ => (Err (Io OtherIo), fs)
    | Some _, None => (Err InvalidArgument, fs)
    | Some parent, Some name =>
      if bool_decide (source `prefix_of` parent ++ [name]) then (Err InvalidArgument, fs) else
      match node_at fs parent with
      | Some (Dir ps) =>
        if negb (me_io env CreateStaging) || bool_decide (is_Some (assoc (me_staging env) ps))
        then (Err (Io OtherIo), fs) else
        if negb (me_io env LockStaging) then (Err (Io OtherIo), drop_staging env parent fs) else
        let converted := rewrite_directory es from to allow_legacy_zero rng (MigrationReport_default, 0%nat) in
        let fs := me_during env fs in
        match converted with
        | Ok (out, (report, _)) =>
            if negb (me_io env Convert && me_io env SyncStaging)
            then (Err (Io OtherIo), drop_staging env parent fs) else
            if output_exists fs output then (Err InvalidArgument, drop_staging env parent fs) else
            let fs := me_before_publish env fs in
            if negb (me_io env Rename) then (Err (Io OtherIo), drop_staging env parent fs) else
            match publish_directory fs (Dir ((LOCK_NAME, File [] false) :: out)) parent name with
            | Ok fs => if me_io env SyncParent then (Ok report, fs) else (Err (Io OtherIo), fs)
            | Err e => (Err e, drop_staging env parent fs)
            | Panic => (Panic, fs)
            end
        | Err e => (Err e, drop_staging env parent fs)
        | Panic => (Panic, drop_staging env parent fs)
        end
      | _ => (Err (Io OtherIo), fs)
      end
    end
  | _ => (Err InvalidArgument, fs)
  end
  end.

(** [migrate_encryption] and [migrate_encryption_with_legacy_fallback]. *)
Definition migrate_encryption fs source output from to :=
  migrate_inner fs source output from to false.
Definition migrate_encryption_with_legacy_fallback fs source output from to :=
  migrate_inner fs source output from to true.

(** ** Trees *)

Lemma node_ind' (P : node -> Prop) :
  (forall c l, P (File c l)) -> (forall es, Forall (fun e => P e.2) es -> P (Dir es)) ->
  (forall b, P (Special b)) -> forall n, P n.
Proof.
  intros HF HD HS. fix IH 1. intros [c l|es|b]; [apply HF| |apply HS].
  apply HD. induction es as [|e es IHes]; constructor; [apply IH|apply IHes].
Qed.

Lemma tree_ok_Dir es : tree_ok (Dir es) <-> NoDup (es.*1) /\ Forall (fun e => tree_ok e.2) es.
Proof.
  cbn [tree_ok]. apply and_iff_compat_l. induction es as [|e es IH]; cbn; [done|].
  rewrite IH, Forall_cons. done.
Qed.

Lemma assoc_snoc_ne {A} k k' (v : A) l : k <> k' -> assoc k (l ++ [(k', v)]) = assoc k l.
Proof.
  intros Hne. induction l as [|[k0 v0] l IH]; cbn.
  - destruct (bytes_eqb_spec k k'); done.
  - destruct (bytes_eqb k k0); [done|apply IH].
Qed.

Lemma assoc_snoc_eq {A} k (v : A) l : assoc k l = None -> assoc k (l ++ [(k, v)]) = Some v.
Proof.
  induction l as [|[k0 v0] l IH]; cbn.
  - destruct (bytes_eqb_spec k k); done.
  - destruct (bytes_eqb k k0); [done|apply IH].
Qed.

Lemma assoc_alter {A} k c (f : A -> A) l :
  assoc k ((fun e => (e.1, if decide (e.1 = c) then f e.2 else e.2)) <$> l)
  = (if decide (k = c) then f <$> assoc k l else assoc k l).
Proof.
  induction l as [|[k0 v0] l IH]; cbn; [by destruct (decide _)|].
  destruct (bytes_eqb_spec k k0) as [->|]; [|done]. by destruct (decide (k0 = c)).
Qed.

(** Adding an entry keeps every file where it was. *)
Lemma put_at_keeps n p name new q c l :
  node_at n (p ++ [name]) = None -> node_at n q = Some (File c l) ->
  node_at (put_at n p name new) q = Some (File c l).
Proof.
  revert n q; induction p as [|d p IH]; intros n q Hno Hq.
  - destruct n as [| es |]; [done| |done]. destruct q as [|k q]; [done|]. cbn in Hno, Hq |- *.
    destruct (decide (k = name)) as [->|Hne].
    + by destruct (assoc name es).
    + by rewrite assoc_snoc_ne.
  - destruct n as [| es |]; [done| |done]. destruct q as [|k q]; [done|]. cbn in Hno, Hq |- *.
    rewrite (assoc_alter k d (fun m => put_at m p name new)).
    destruct (decide (k = d)) as [->|]; [|done].
    destruct (assoc d es) as [m|]; [|done]. by apply IH.
Qed.

(** The added entry is there. *)
Lemma put_at_added n p name new q es :
  node_at n p = Some (Dir es) -> assoc name es = None ->
  node_at (put_at n p name new) (p ++ name :: q) = node_at new q.
Proof.
  intros Hp Hno. revert n Hp; induction p as [|d p IH]; intros n Hp.
  - injection Hp as ->. cbn. by rewrite assoc_snoc_eq.
  - destruct n as [| es' |]; [done| |done]. cbn in Hp |- *.
    rewrite (assoc_alter d d (fun m => put_at m p name new)), decide_True by done.
    destruct (assoc d es') as [m|]; [|done]. by apply IH.
Qed.

Lemma node_at_app n p q m : node_at n p = Some m -> node_at n (p ++ q) = node_at m q.
Proof.
  revert n; induction p as [|d p IH]; intros n; cbn; [by intros [= ->]|].
  destruct n as [| es |]; [done| |done]. destruct (assoc d es); [apply IH|done].
Qed.

Lemma node_at_lock es n p :
  LOCK_NAME ∉ p -> p <> [] -> node_at (Dir es) p = node_at (Dir ((LOCK_NAME, n) :: es)) p.
Proof.
  destruct p as [|k p]; [done|]. intros [Hne _]%not_elem_of_cons _. cbn [node_at assoc].
  by destruct (bytes_eqb_spec k LOCK_NAME).
Qed.

Lemma node_at_snoc n p name :
  node_at n (p ++ [name]) = match node_at n p with Some (Dir es) => assoc name es | _ => None end.
Proof.
  revert n; induction p as [|d p IH]; intros n; cbn.
  - destruct n; [done| |done]. by destruct (assoc name entries).
  - destruct n as [| es |]; [done| |done]. destruct (assoc d es); [apply IH|done].
Qed.

(** ** Tables *)

(** The file is a table of the entries, readable with the configuration. *)
Definition sst_holds (encryption : EncryptionConfig) (ts : Z) (es : list (bytes * LogRecord))
    (file : bytes) : Prop :=
  len file <= u64_max /\ exists gs meta data mw, sst_layout ts encryption es file gs meta data mw.

(** The file is a table a migration can read: under the source's key, not
    encrypted, or, where allowed, under the all-zero key. *)
Definition sst_source (from : EncryptionConfig) (legacy : bool) (ts : Z)
    (es : list (bytes * LogRecord)) (file : bytes) : Prop :=
  sst_holds from ts es file \/ sst_holds EncryptionConfig_default ts es file \/
  (legacy = true /\ metadata_read file from = Err LegacyEncryptionMigrationRequired /\
   sst_holds legacy_config ts es file).

Lemma filter_block {A} (pre post : list (bytes * A)) e g :
  key_sorted (pre ++ (e :: g) ++ post) ->
  filter (fun x => in_range (Some e.1) (fst <$> head post) x.1 = true) (pre ++ (e :: g) ++ post) = e :: g.
Proof.
  intros (_ & Hs & Hpre)%key_sorted_app. pose proof Hs as (Hg & Hpost & Hlt)%key_sorted_app.
  rewrite !filter_app, (filter_none _ pre), (filter_all _ (e :: g)), (filter_none _ post), app_nil_r; [done|..].
  - intros x Hx. unfold in_range. destruct post as [|p post]; [by apply not_elem_of_nil in Hx|].
    cbn [head fmap option_fmap option_map]. rewrite andb_true_iff. intros [_ Hlo].
    destruct p as [kp vp]. apply key_sorted_cons in Hpost as [Hp _].
    apply elem_of_cons in Hx as [->|Hx]; [by apply (bytes_lt_irrefl kp)|]. destruct x as [kx vx].
    by apply (bytes_lt_asym kp kx); [eapply Hp|].
  - intros x Hx. unfold in_range. rewrite andb_true_iff. split.
    + destruct e as [ke ve]. apply key_sorted_cons in Hg as [He _].
      change (bytes_le ke x.1). apply elem_of_cons in Hx as [->|Hx]; [reflexivity|].
      destruct x as [kx vx]. apply bytes_lt_le. by eapply He.
    + destruct post as [|p post]; [done|]. apply Hlt; [done|by left].
  - intros x Hx. unfold in_range. rewrite andb_true_iff. intros [Hle _].
    assert (bytes_lt x.1 e.1) as Hxe by (apply Hpre; [done|by left]).
    apply (bytes_lt_irrefl x.1). eapply bytes_lt_le_trans; [exact Hxe|exact Hle].
Qed.

Lemma layout_firsts encr off gs metas data :
  layout encr off gs metas data ->
  Forall2 (fun g m => exists e g', g = e :: g' /\ bm_first_key m = e.1) gs metas.
Proof. induction 1; constructor; eauto. Qed.

Section rewrite.
Context (ts : Z) (encryption : EncryptionConfig) (es : list (bytes * LogRecord))
  (file : bytes) (gs : list (list (bytes * LogRecord))) (meta : MetaBlock) (data mw : bytes).
Hypothesis file_size : len file <= u64_max.
Hypothesis Hsl : sst_layout ts encryption es file gs meta data mw.

(** Going through the blocks of a table is going through its entries. *)
Lemma rewrite_blocks_ok gs' metas' pre cache st :
  Forall2 (fun g m => exists e g', g = e :: g' /\ bm_first_key m = e.1) gs' metas' ->
  es = pre ++ concat gs' -> cache_coherent encryption file meta 0 true cache ->
  rewrite_blocks (opened encryption file meta 0 true) cache metas' st = ofold rewrite_record st (concat gs').
Proof.
  intros Hf. revert pre cache st.
  induction Hf as [|g m gs' metas' (e & g' & -> & Hm) Hf IH]; intros pre cache st Hes Hc; [done|].
  cbn [concat] in Hes |- *. cbn [rewrite_blocks]. rewrite Hm.
  assert (match metas' with next :: _ => Some (bm_first_key next) | [] => None end
          = fst <$> head (concat gs')) as ->.
  { destruct Hf as [|? ? ? ? (e2 & g2 & -> & Hm2)]; cbn; congruence. }
  destruct (sst_scan_range_ok ts encryption es file gs meta data mw file_size Hsl 0 true cache
              (Some e.1) (fst <$> head (concat gs')) Hc) as (cache' & -> & Hc').
  cbn [obind]. rewrite Hes, filter_block by (rewrite <- Hes; apply (sl_sorted _ _ _ _ _ _ _ _ Hsl)).
  rewrite ofold_app. destruct (ofold rewrite_record st (e :: g')) as [st'| |]; cbn [obind]; [|done|done].
  apply (IH (pre ++ e :: g')); [by rewrite <- app_assoc|done].
Qed.

Lemma rewrite_table st :
  rewrite_blocks (opened encryption file meta 0 true) ∅ (mb_blocks meta) st = ofold rewrite_record st es.
Proof.
  rewrite <- (sl_entries _ _ _ _ _ _ _ _ Hsl). apply (rewrite_blocks_ok gs (mb_blocks meta) []).
  - eapply layout_firsts, (sl_blocks _ _ _ _ _ _ _ _ Hsl).
  - symmetry. apply (sl_entries _ _ _ _ _ _ _ _ Hsl).
  - intros i d. by rewrite lookup_empty.
Qed.

(** The entries of a table fit the fields of a block. *)
Lemma layout_storable encr off gs' metas' data' :
  layout encr off gs' metas' data' ->
  Forall (fun e => len e.1 <= u16_max /\ forall v, encode e.2 = Ok v -> len v <= u16_max) (concat gs').
Proof.
  induction 1 as [|off e g gs' w us metas' data' (c & bs & raw & f & _ & _ & _ & _ & Henc & Hsz) _ _ IH];
    [constructor|].
  cbn [concat]. apply Forall_app. split; [|done]. clear -Henc Hsz.
  unfold encodes in Henc. revert Hsz. generalize (e :: g), Henc. clear e g Henc.
  induction 1 as [|x r l raw [Hk Hv] _ IHl]; [constructor|].
  intros [[Hk' Hv'] Hsz]%Forall_cons. constructor; [|by apply IHl].
  rewrite <- Hk. split; [done|]. intros v Hx. rewrite Hv in Hx. by injection Hx as <-.
Qed.

End rewrite.

Lemma rewrite_records_ok b n es :
  Forall (fun e => key e.2 = e.1) es ->
  ofold rewrite_record (b, n) es
  = let* b' := ofold (fun sb e => sb_add sb e.1 e.2) b es in Ok (b', n + len es).
Proof.
  intros Hk. revert b n; induction Hk as [|e es He Hk IH]; intros b n; cbn [ofold obind].
  { by rewrite len_nil, Z.add_0_r. }
  unfold rewrite_record at 1. rewrite He. destruct (bytes_eqb_spec e.1 e.1); [|done]. cbn [negb].
  destruct (sb_add b e.1 e.2) as [b1| |]; cbn [obind]; [|done|done].
  rewrite IH, len_cons. destruct (ofold _ b1 es); cbn [obind]; [|done|done]. do 2 f_equal. lia.
Qed.

Lemma rewrite_records_inv b n es b' n' :
  ofold rewrite_record (b, n) es = Ok (b', n') -> Forall (fun e => key e.2 = e.1) es.
Proof.
  revert b n; induction es as [|e es IH]; intros b n; cbn [ofold]; [constructor|].
  intros ([b1 n1] & Hr & Hrest)%obind_Ok_inv. constructor; [|by eapply IH].
  unfold rewrite_record in Hr. by destruct (bytes_eqb_spec e.1 (key e.2)).
Qed.

(** A table that is not encrypted reads the same whatever the key. *)
Lemma metadata_read_plain ts es file gs meta data mw encryption :
  sst_layout ts EncryptionConfig_default es file gs meta data mw ->
  metadata_read file encryption = metadata_read file EncryptionConfig_default.
Proof.
  intros Hsl. unfold metadata_read. case_cond; [done|].
  destruct (header_fields _ _ _ _ _ _ _ _ Hsl) as (E & _). unfold read_exact_at at 1 4.
  rewrite (proj2 (Z.ltb_ge (len file) (0 + 8))) by lia. rewrite E. cbn [obind].
  change (magic_of (Encryptor_new EncryptionConfig_default)) with SST_MAGIC_V2.
  destruct (bytes_eqb_spec SST_MAGIC_V2 SST_MAGIC_V2); done.
Qed.

Definition open_for_migration (file : bytes) (from : EncryptionConfig) (legacy : bool)
    : outcome SstableReader :=
  match rd_open file 0 from true with
  | Err LegacyEncryptionMigrationRequired =>
      if legacy then rd_open file 0 legacy_config true else Err LegacyEncryptionMigrationRequired
  | result => result
  end.

Lemma source_opens from legacy ts es file :
  sst_source from legacy ts es file ->
  exists encryption gs meta data mw,
    len file <= u64_max /\ sst_layout ts encryption es file gs meta data mw /\
    open_for_migration file from legacy = Ok (opened encryption file meta 0 true).
Proof.
  unfold open_for_migration.
  intros [(Hsz & gs & meta & data & mw & Hsl)
         |[(Hsz & gs & meta & data & mw & Hsl)|(-> & Hmd & Hsz & gs & meta & data & mw & Hsl)]].
  - exists from, gs, meta, data, mw. split_and!; [done|done|]. by rewrite (rd_open_ok _ _ _ _ _ _ _ _ Hsz Hsl).
  - exists EncryptionConfig_default, gs, meta, data, mw. split_and!; [done|done|].
    pose proof (rd_open_ok _ _ _ _ _ _ _ _ Hsz Hsl 0 true) as E. unfold rd_open in E |- *.
    by rewrite (metadata_read_plain _ _ _ _ _ _ _ from Hsl), E.
  - exists legacy_config, gs, meta, data, mw. split_and!; [done|done|].
    unfold rd_open at 1. rewrite Hmd. cbn [obind]. by rewrite (rd_open_ok _ _ _ _ _ _ _ _ Hsz Hsl).
Qed.

Lemma migration_config_valid meta :
  0 <= sc_block_size (migration_config meta) <= 33554432.
Proof. unfold migration_config, MAX_VALUE_SIZE, MAX_KEY_SIZE. cbn [sc_block_size]. lia. Qed.

(** Rewriting a table whose entries carry their own keys is building a table of
    the same entries and timestamp. *)
Lemma rewrite_sstable_exact from to legacy rng ts es file :
  sst_source from legacy ts es file -> Forall (fun e => key e.2 = e.1) es ->
  exists meta,
    rewrite_sstable file from to legacy rng
    = let* f := sst_build (migration_config meta) ts to rng es in
      if len f <=? u64_max then Ok f else Err (Io OtherIo).
Proof.
  intros Hsrc Hk. destruct (source_opens _ _ _ _ _ Hsrc) as (enc & gs & meta & data & mw & Hsz & Hsl & Ho).
  exists meta. unfold rewrite_sstable. fold (open_for_migration file from legacy). rewrite Ho. cbn [obind].
  cbn [rd_metadata opened]. rewrite (rewrite_table _ _ _ _ _ _ _ _ Hsz Hsl), rewrite_records_ok by done.
  rewrite (sl_ts _ _ _ _ _ _ _ _ Hsl), (sl_count _ _ _ _ _ _ _ _ Hsl). unfold sst_build.
  rewrite obind_assoc, obind_assoc. destruct (ofold _ _ es) as [b| |]; cbn [obind]; [|done|done].
  by rewrite Z.add_0_l, Z.eqb_refl.
Qed.

Lemma rewrite_sstable_keys from to legacy rng ts es file file' :
  sst_source from legacy ts es file -> rewrite_sstable file from to legacy rng = Ok file' ->
  Forall (fun e => key e.2 = e.1) es.
Proof.
  intros Hsrc. destruct (source_opens _ _ _ _ _ Hsrc) as (enc & gs & meta & data & mw & Hsz & Hsl & Ho).
  unfold rewrite_sstable. fold (open_for_migration file from legacy). rewrite Ho. cbn [obind].
  cbn [rd_metadata opened]. rewrite (rewrite_table _ _ _ _ _ _ _ _ Hsz Hsl).
  intros ([b n] & Hr & _)%obind_Ok_inv. by eapply rewrite_records_inv.
Qed.

(** A rewritten table holds the same entries, readable with the target's key. *)
Lemma rewrite_sstable_keeps from to legacy rng ts es file file' :
  (forall i n, rng i = Some n -> len n = 12) ->
  sst_source from legacy ts es file -> rewrite_sstable file from to legacy rng = Ok file' ->
  sst_holds to ts es file'.
Proof.
  intros Hrng Hsrc Hok. pose proof (rewrite_sstable_keys _ _ _ _ _ _ _ _ Hsrc Hok) as Hk.
  destruct (rewrite_sstable_exact from to legacy rng ts es file Hsrc Hk) as [meta E].
  rewrite E in Hok. apply obind_Ok_inv in Hok as (f & Hb & Hok).
  destruct (Z.leb_spec (len f) u64_max) as [Hlen|]; [|done]. injection Hok as ->. split; [done|].
  destruct (source_opens _ _ _ _ _ Hsrc) as (enc & gs & meta0 & data & mw & _ & Hsl & _).
  apply (sst_build_layout _ _ _ _ (migration_config_valid meta) Hrng); [|done]. split; [|done].
  rewrite <- (sl_entries _ _ _ _ _ _ _ _ Hsl). eapply layout_storable, (sl_blocks _ _ _ _ _ _ _ _ Hsl).
Qed.

(** ** Directories *)

Section directory.
Context (from to : EncryptionConfig) (legacy : bool) (rng : nat -> nat -> option bytes).
Hypothesis rng_valid : forall f i n, rng f i = Some n -> len n = 12.

(** The file is a log of the records, readable with the configuration. *)
Definition log_holds (encryption : EncryptionConfig) (rs : list LogRecord) (file : bytes) : Prop :=
  exists fs, frames_of (Encryptor_new encryption) rs fs /\ file = concat fs.

(** The file is a log a migration can read. *)
Definition log_source (rs : list LogRecord) (file : bytes) : Prop :=
  exists fs, Forall2 (legacy_frame_of (Encryptor_new from) legacy) rs fs /\ file = concat fs.

(** What a rewritten file has to do with the original. *)
Definition file_kept (name file file' : bytes) : Prop :=
  if is_sstable_name name then forall ts es, sst_source from legacy ts es file -> sst_holds to ts es file'
  else if is_log_name name then forall rs, log_source rs file -> log_holds to rs file'
  else file' = file.

Definition corresponds (name : bytes) (a b : option node) : Prop :=
  match a with
  | Some (File c _) => exists c', b = Some (File c' false) /\ file_kept name c c'
  | Some (Dir _) => exists es, b = Some (Dir es)
  | Some (Special _) => False
  | None => b = None
  end.

(** A rewritten tree has the files of the original, but for the locks. *)
Definition rewritten (name : bytes) (n n' : node) : Prop :=
  forall p, (LOCK_NAME ∉ p -> corresponds (default name (last p)) (node_at n p) (node_at n' p)) /\
            (LOCK_NAME ∈ p -> node_at n' p = None).

Definition entry_rewritten (e : bytes * node) (out : list (bytes * node)) : Prop :=
  (e.1 = LOCK_NAME /\ out = []) \/
  (e.1 <> LOCK_NAME /\ exists n', out = [(e.1, n')] /\ rewritten e.1 e.2 n').

Lemma sort_entries_fmap {A B} (f : bytes * A -> B) (l : list (bytes * A)) :
  NoDup (l.*1) -> sort_entries ((fun e => (e.1, f e)) <$> l) = (fun e => (e.1, f e)) <$> sort_entries l.
Proof.
  intros Hnd. apply sort_entries_unique.
  - apply fmap_Permutation. symmetry. apply merge_sort_Permutation.
  - apply key_sorted_fmap; [done|]. by apply sort_entries_sorted.
Qed.

Lemma assoc_sort_entries {A} k (l : list (bytes * A)) :
  NoDup (l.*1) -> assoc k (sort_entries l) = assoc k l.
Proof.
  intros Hnd. rewrite <- !assoc_list_to_map. f_equal. unfold sort_entries. apply list_to_map_proper.
  - by rewrite merge_sort_Permutation.
  - apply merge_sort_Permutation.
Qed.

Lemma run_jobs_inv {A} (f : bytes * A -> progress -> outcome (list (bytes * node) * progress)) es st out st' :
  run_jobs ((fun e => (e.1, f e)) <$> es) st = Ok (out, st') ->
  exists outs, out = concat outs /\ Forall2 (fun e o => exists st1 st2, f e st1 = Ok (o, st2)) es outs.
Proof.
  revert st out; induction es as [|e es IH]; intros st out; cbn [fmap list_fmap run_jobs].
  { intros [= <- _]. by exists []. }
  intros ([o st1] & Ho & Hrest)%obind_Ok_inv.
  apply obind_Ok_inv in Hrest as ([os st2] & Hos & [= <- <-]).
  destruct (IH _ _ Hos) as (outs & -> & Hall). exists (o :: outs). split; [done|]. constructor; eauto.
Qed.

(** The lookups in a rewritten directory. *)
Lemma assoc_rewritten es outs k :
  Forall2 entry_rewritten es outs ->
  if decide (k = LOCK_NAME) then assoc k (concat outs) = None
  else match assoc k es with
       | Some n => exists n', assoc k (concat outs) = Some n' /\ rewritten k n n'
       | None => assoc k (concat outs) = None
       end.
Proof.
  induction 1 as [|[k0 n0] o es outs Ho _ IH]; [by destruct (decide _)|]. cbn [concat assoc].
  destruct Ho as [[Hl ->]|(Hl & n' & -> & Hr)]; cbn [fst snd app assoc] in *.
  - destruct (decide (k = LOCK_NAME)) as [|Hk]; [done|].
    destruct (bytes_eqb_spec k k0) as [->|]; [done|exact IH].
  - destruct (bytes_eqb_spec k k0) as [->|Hne]; [|exact IH]. rewrite decide_False by done. eauto.
Qed.

Lemma directory_rewritten name es outs :
  NoDup (es.*1) -> Forall2 entry_rewritten (sort_entries es) outs ->
  rewritten name (Dir es) (Dir (concat outs)).
Proof.
  intros Hnd Hall [|k p]; [split; [cbn; eauto|by intros ?%elem_of_nil]|].
  pose proof (assoc_rewritten _ _ k Hall) as Hk. rewrite assoc_sort_entries in Hk by done.
  cbn [node_at]. destruct (decide (k = LOCK_NAME)) as [->|Hne].
  { rewrite Hk. split; [|done]. intros Hn. destruct Hn. by left. }
  destruct (assoc k es) as [n|]; [|by rewrite Hk].
  destruct Hk as (n' & -> & Hr). destruct (Hr p) as [Hc Hno]. split.
  - intros [_ Hp]%not_elem_of_cons. specialize (Hc Hp).
    replace (default name (last (k :: p))) with (default k (last p)); [done|].
    rewrite last_cons. by destruct (last p).
  - intros [Hk|Hp]%elem_of_cons; [by destruct Hne|auto].
Qed.

Lemma file_rewritten name c l c' : file_kept name c c' -> rewritten name (File c l) (File c' false).
Proof.
  intros Hk [|k p]; cbn; split; auto.
  - eauto.
  - by intros ?%elem_of_nil.
Qed.

(** A directory whose entries are each rewritten is rewritten. *)
Lemma entries_rewritten es st out st' name :
  NoDup (es.*1) ->
  (forall e st out st', e ∈ es ->
     rewrite_entry from to legacy rng e.1 e.2 st = Ok (out, st') -> entry_rewritten e out) ->
  rewrite_directory es from to legacy rng st = Ok (out, st') -> rewritten name (Dir es) (Dir out).
Proof.
  intros Hnd Hent Hrun. unfold rewrite_directory in Hrun.
  rewrite (sort_entries_fmap (fun e => rewrite_entry from to legacy rng e.1 e.2)) in Hrun by done.
  apply run_jobs_inv in Hrun as (outs & -> & Hall). apply directory_rewritten; [done|].
  apply Forall2_same_length_lookup in Hall as [Hlen Hall]. apply Forall2_same_length_lookup.
  split; [done|]. intros i e o He Ho. destruct (Hall i e o He Ho) as (st2 & st3 & Hr).
  eapply Hent, Hr. apply list_elem_of_lookup_2 in He. unfold sort_entries in He.
  by rewrite merge_sort_Permutation in He.
Qed.

Lemma log_rewritten name c l w n st :
  is_sstable_name name = false -> is_log_name name = true ->
  rewrite_for_migration c from to legacy (rng st) = Ok (w, n) ->
  rewritten name (File c l) (File (wal_file w) false).
Proof.
  intros Es Ew Hw. apply file_rewritten. unfold file_kept. rewrite Es, Ew. intros rs (fs & Hfs & Hc).
  destruct (rewrite_keeps_records _ _ _ _ _ _ _ _ _ Hfs Hc Hw) as (_ & _ & fs' & Hwf & Hfit & Hall).
  exists fs'. split; [|done]. unfold frames_of. rewrite Forall2_same_length_lookup in Hall |- *.
  destruct Hall as [Hlen Hall]. split; [done|]. intros i r f Hr Hf.
  destruct (Hall i r f Hr Hf) as [j Hj]. eapply fitting_frame; [|by eapply Forall_lookup_1|done].
  intros ?. apply rng_valid.
Qed.

Lemma rewrite_entry_ok n :
  forall name st out st', tree_ok n ->
  rewrite_entry from to legacy rng name n st = Ok (out, st') -> entry_rewritten (name, n) out.
Proof.
  induction n as [c l|es IH|b] using node_ind'; intros name [report files] out st' Hok;
    cbn [rewrite_entry]; [| |done].
  - case_bool_decide as Hl; [intros [= <- _]; by left|]. intros Hrun. right.
    cbn [fst snd]. split; [done|]. destruct (is_sstable_name name) eqn:Es.
    { apply obind_Ok_inv in Hrun as (f & Hf & [= <- _]). eexists. split; [done|].
      apply file_rewritten. unfold file_kept. rewrite Es. intros ts es Hsrc.
      eapply rewrite_sstable_keeps; [|done|done]. apply rng_valid. }
    destruct (is_log_name name) eqn:Ew.
    { apply obind_Ok_inv in Hrun as ([w n] & Hw & [= <- _]). eexists. split; [done|].
      by eapply log_rewritten. }
    injection Hrun as <- _. eexists. split; [done|].
    apply file_rewritten. unfold file_kept. by rewrite Es, Ew.
  - apply tree_ok_Dir in Hok as [Hnd Htree].
    case_bool_decide as Hl; [intros [= <- _]; by left|]. intros Hrun. right. split; [done|].
    apply obind_Ok_inv in Hrun as ([] & _ & Hrun).
    apply obind_Ok_inv in Hrun as ([o st1] & Hrun & [= <- _]). eexists. split; [done|].
    eapply entries_rewritten; [done| |exact Hrun]. rewrite Forall_forall in IH, Htree.
    intros [k m] st2 out st3 Hin. by apply (IH _ Hin), (Htree _ Hin).
Qed.

Lemma rewrite_directory_ok es st out st' name :
  tree_ok (Dir es) -> rewrite_directory es from to legacy rng st = Ok (out, st') ->
  rewritten name (Dir es) (Dir out).
Proof.
  intros [Hnd Htree]%tree_ok_Dir. apply entries_rewritten; [done|].
  rewrite Forall_forall in Htree. intros [k m] st2 out2 st3 Hin. apply rewrite_entry_ok, (Htree _ Hin).
Qed.

End directory.

(** ** The migration *)

Section migrate.
Context (fs : node) (source : list bytes) (parent : list bytes) (name : bytes).
Context (from to : EncryptionConfig) (legacy : bool) (rng : nat -> nat -> option bytes).
Context (env : MigrationEnv).

Let output := {| op_parent := Some parent; op_name := Some name |}.

Lemma publish_ok fs0 staging fs' :
  publish_directory fs0 staging parent name = Ok fs' ->
  exists es, node_at fs0 parent = Some (Dir es) /\ assoc name es = None /\
    fs' = put_at fs0 parent name staging.
Proof.
  unfold publish_directory. destruct (node_at fs0 parent) as [[| es |]|]; try done.
  destruct (assoc name es) eqn:E; [done|]. intros [= <-]. eauto.
Qed.

(** The tree at the moment of publication, as others left it. *)
Definition unpublished : node := me_before_publish env (me_during env (lock_source fs source)).

(** The complete conversion of the source is in the tree, where nothing was. *)
Definition published (report : MigrationReport) (fs' : node) : Prop :=
  exists es out files ps,
    node_at fs source = Some (Dir es) /\
    rewrite_directory es from to legacy rng (MigrationReport_default, 0%nat) = Ok (out, (report, files)) /\
    node_at unpublished parent = Some (Dir ps) /\ assoc name ps = None /\
    fs' = put_at unpublished parent name (Dir ((LOCK_NAME, File [] false) :: out)) /\
    ~ source `prefix_of` parent ++ [name].

Ltac gave_up H := intros [? ->]%H; [|done]; right; split; [done|left; set_solver].
Ltac dropped H :=
  let Hx := fresh in intros Hx; right; eapply H; [|exact Hx|]; [done|set_solver].

(** How a migration ends: published, with or without the final sync, or given up
    at one of the stages, the staging directory dropped if it was created. *)
Lemma migrate_inner_cases r fs' :
  migrate_inner fs (Some source) output from to legacy rng env = (r, fs') ->
  (exists report, published report fs' /\
     (r = Ok report \/ r = Err (Io OtherIo) /\ me_io env SyncParent = false)) \/
  (forall report, r <> Ok report) /\
    (fs' ∈ [fs; lock_source fs source] \/
     exists fs0, fs0 ∈ [lock_source fs source; me_during env (lock_source fs source); unpublished] /\
       (fs' = fs0 \/ fs' = drop_staging env parent fs0)).
Proof.
  unfold migrate_inner, unpublished. set (fs1 := lock_source fs source).
  assert (forall (o : outcome MigrationReport) fs2, (forall report, o <> Ok report) -> (o, fs2) = (r, fs') ->
    (forall report, r <> Ok report) /\ fs' = fs2) as Hend by (by intros o fs2 Ho [= <- <-]).
  assert (forall (o : outcome MigrationReport) fs0, (forall report, o <> Ok report) ->
    (o, drop_staging env parent fs0) = (r, fs') ->
    fs0 ∈ [fs1; me_during env fs1; me_before_publish env (me_during env fs1)] ->
    (forall report, r <> Ok report) /\ (fs' ∈ [fs; fs1] \/ exists fs0,
      fs0 ∈ [fs1; me_during env fs1; me_before_publish env (me_during env fs1)] /\
      (fs' = fs0 \/ fs' = drop_staging env parent fs0))) as Hdrop by (intros o fs0 Ho [= <- <-] Hin; eauto 6).
  destruct (_ && _); [gave_up Hend|].
  destruct (node_at fs source) as [[| es |]|] eqn:Hs;
    try (gave_up Hend).
  destruct (match assoc LOCK_NAME es with Some (File _ _) | None => false | Some _ => true end);
    [gave_up Hend|].
  destruct (negb _); [gave_up Hend|].
  destruct (negb _); [gave_up Hend|].
  destruct (output_exists _ _); [gave_up Hend|].
  cbn [op_parent op_name output].
  case_bool_decide as Hpre; [gave_up Hend|].
  destruct (node_at fs1 parent) as [[| ps |]|];
    try (gave_up Hend).
  destruct (negb _ || _); [gave_up Hend|].
  destruct (negb _); [dropped Hdrop|].
  cbv zeta.
  destruct (rewrite_directory _ _ _ _ _ _) as [[out [rep files]]| |] eqn:Hrw;
    try (dropped Hdrop).
  destruct (negb _); [dropped Hdrop|].
  destruct (output_exists _ _); [dropped Hdrop|].
  destruct (negb _); [dropped Hdrop|].
  destruct (publish_directory _ _ _ _) as [fs4| |] eqn:Hp.
  - destruct (publish_ok _ _ _ Hp) as (ps' & Hps & Hno & ->).
    intros Hx. left. exists rep. destruct (me_io env SyncParent); injection Hx as <- <-;
      (split; [by exists es, out, files, ps'|auto]).
  - dropped Hdrop.
  - intros [Hr ->]%Hend; [|done]. right. split; [done|]. right. exists (me_before_publish env (me_during env fs1)).
    split; [set_solver|by left].
Qed.

Lemma lock_source_keeps q c l :
  node_at fs q = Some (File c l) -> node_at (lock_source fs source) q = Some (File c l).
Proof.
  intros Hq. unfold lock_source. destruct (node_at fs source) as [[| es |]|] eqn:Hs; try done.
  destruct (assoc LOCK_NAME es) eqn:E; [done|]. apply put_at_keeps; [|done].
  rewrite node_at_snoc, Hs. done.
Qed.

Lemma drop_staging_keeps fs0 q c l :
  node_at fs0 q = Some (File c l) -> node_at (drop_staging env parent fs0) q = Some (File c l).
Proof.
  intros Hq. unfold drop_staging. destruct (me_io env RemoveStaging); [done|]. cbn [orb].
  case_bool_decide as Hs; [done|]. apply put_at_keeps; [by apply eq_None_not_Some|done].
Qed.

Lemma published_keeps report fs' :
  published report fs' ->
  node_at unpublished (parent ++ [name]) = None /\ ~ source `prefix_of` parent ++ [name] /\
  forall q c l, node_at unpublished q = Some (File c l) -> node_at fs' q = Some (File c l).
Proof.
  intros (es & out & files & ps & _ & _ & Hp & Hno & -> & Hpre).
  assert (node_at unpublished (parent ++ [name]) = None) as Habs by (by rewrite node_at_snoc, Hp).
  split_and!; [done|done|]. intros q c l. by apply put_at_keeps.
Qed.

(** C31: a migration is all or nothing and never replaces anything.  Whatever
    other processes do to the rest of the file tree meanwhile and whatever calls
    to the file system fail: the migration ends with the complete conversion of
    the source published at a path outside the source where nothing was at that
    moment, and then it succeeds unless the final sync of the parent directory
    fails; or it fails and the tree is the one others left, with at most the
    lock file of the source added, and what a failed removal of the staging
    directory left of it.  In all cases every file that was there, those of the
    source included, is there unchanged. *)
Theorem migration_all_or_nothing r fs' :
  migrate_inner fs (Some source) output from to legacy rng env = (r, fs') ->
  ((exists report, published report fs' /\
      (r = Ok report \/ r = Err (Io OtherIo) /\ me_io env SyncParent = false)) /\
   node_at unpublished (parent ++ [name]) = None /\ ~ source `prefix_of` parent ++ [name] /\
   (forall q c l, node_at unpublished q = Some (File c l) -> node_at fs' q = Some (File c l))
   \/
   (forall report, r <> Ok report) /\
   exists fs0, fs0 ∈ [fs; lock_source fs source; me_during env (lock_source fs source); unpublished] /\
     (fs' = fs0 \/ me_io env RemoveStaging = false /\ fs' = put_at fs0 parent (me_staging env) (Dir (me_left env))) /\
     (forall q c l, node_at fs0 q = Some (File c l) -> node_at fs' q = Some (File c l))) /\
  (forall q c l, node_at fs q = Some (File c l) -> node_at (lock_source fs source) q = Some (File c l)).
Proof.
  intros Hm. split; [|apply lock_source_keeps].
  destruct (migrate_inner_cases _ _ Hm) as [(report & Hp & Hr)|[Hr Hfs]]; [left|right; split; [done|]].
  - destruct (published_keeps _ _ Hp) as (? & ? & ?). eauto 6.
  - destruct Hfs as [Hin|(fs0 & Hin & Hfs)]; [exists fs'; split_and!; [set_solver|by left|done]|].
    exists fs0. split; [set_solver|]. destruct Hfs as [->| ->]; [by split; [left|]|].
    split; [|by apply drop_staging_keeps]. unfold drop_staging.
    destruct (me_io env RemoveStaging); [by left|]. cbn [orb]. case_bool_decide; [by left|by right].
Qed.

(** C13: a migration keeps what the store holds.  When it succeeds, every file of
    the source, at any depth and but for lock files, has a counterpart at the
    same place below the output, and nothing else is there: a table of entries
    (readable with the source's key, in the clear, or with the all-zero key where
    allowed) has become a table of the same entries with the same timestamp,
    readable with the target's key; a log of records has become a log of the same
    records; any other file is copied. *)
Theorem migration_preserves_contents es report fs' p :
  (forall f i n, rng f i = Some n -> len n = 12) ->
  node_at fs source = Some (Dir es) -> tree_ok (Dir es) -> LOCK_NAME ∉ p ->
  migrate_inner fs (Some source) output from to legacy rng env = (Ok report, fs') ->
  corresponds from to legacy (default name (last p))
    (node_at fs (source ++ p)) (node_at fs' (parent ++ name :: p)).
Proof.
  intros Hrng Hs Htree Hp Hm.
  destruct (migrate_inner_cases _ _ Hm) as [(rep & Hpub & _)|[Hbad _]]; [|by destruct (Hbad report)].
  destruct Hpub as (es' & out & files & ps & Hs' & Hr & Hps & Hno & -> & _).
  rewrite Hs in Hs'. injection Hs' as <-. rewrite (put_at_added _ _ _ _ _ _ Hps Hno).
  destruct (rewrite_directory_ok from to legacy rng Hrng _ _ _ _ name Htree Hr p) as [Hc _].
  specialize (Hc Hp). rewrite (node_at_app _ _ _ _ Hs).
  destruct p as [|k p]; [cbn; eauto|].
  by rewrite <- (node_at_lock out _ (k :: p)) by done.
Qed.

End migrate.

End migration.
