(* ===== verification/Durability.v ===== *)
(** * Durability: what a restart finds again

    The log of a column family and its memtable move together: every write
    appends to the log what it inserts, and a flush that empties the memtable
    clears the log.  [logged] is that relation; every operation keeps it.  With
    the tables on disk it makes the state after [new_generic] stand for the same
    map as the state before. *)
From Stdlib Require Import ZArith Lia QArith.
From stdpp Require Import base tactics numbers list gmap strings sorting.
From S2P Require Import Prelude Bytes SortedMap LogRecord Iterators.
From S2P Require Import MemTable Extern Encryption SstReader Wal Table.
From S2P Require Import VersionSet Utf8 Engine EngineSpec Recovery Background.
Local Open Scope Z_scope.

Section durability.
Context `{!Crc32, !Aead, !Postcard LogRecord, !Postcard LogRecordV0, !Postcard LogRecordV1}.
Context `{!BloomCrate} `{!SstStore} `{!SstStoreLaws} `{!Moka bytes bytes} `{!SerdeJson} `{!EngineEnv}.
Context (clock_mono : forall i, 0 <= clock i < clock (S i)).
Context (cf : string).
(** Tables found at startup have no values in memory. *)
#[local] Instance none_resident : Residency := False.

(** ** The log of the column family *)

Definition blank_log : WriteAheadLog :=
  set_sync_interval (wal_open [] (eo_encryption options) (wal_entropy cf)) (eo_wal_sync_interval options).
Definition log_of (s : EngineCore) : WriteAheadLog := default blank_log (wals s !! cf).

(** Nothing changed that the relation of log and memtable depends on. *)
Record same_log (s s' : EngineCore) : Prop := {
  sl_memtables : memtables s' = memtables s;
  sl_log : log_of s' = log_of s;
  sl_rts : core_range_tombstones s' = core_range_tombstones s;
  sl_others c : c <> cf -> wals s !! c = None -> wals s' !! c = None;
  sl_ticks : (ticks s <= ticks s')%nat;
}.
#[local] Instance same_log_preorder : PreOrder same_log.
Proof.
  split; [intros s; split; done || lia|].
  intros s1 s2 s3 [] []. split; try congruence; auto; lia.
Qed.

Lemma same_log_same s s' :
  memtables s' = memtables s -> wals s' = wals s -> core_range_tombstones s' = core_range_tombstones s ->
  (ticks s <= ticks s')%nat -> same_log s s'.
Proof. intros ? E ? ?. split; try done; [unfold log_of|]; by rewrite E. Qed.

Ltac keep_log :=
  repeat first
    [ solve [auto with keeps nocore]
    | apply keeps_ret; apply _ | apply keeps_lift; apply _ | apply keeps_fail; apply _
    | apply keeps_gets; apply _ | apply keeps_query; apply _
    | apply keeps_ok_value | apply keeps_warn
    | apply keeps_bind; [apply _| |intros ?]
    | apply keeps_modify; intros ?; by apply same_log_same
    | match goal with |- keeps _ (match ?x with _ => _ end) => destruct x end ].

Lemma now_same_log : keeps same_log now.
Proof. intros s. apply same_log_same; cbn; done || lia. Qed.
#[local] Hint Resolve now_same_log : keeps.
Lemma version_set_get_same_log c k : keeps same_log (version_set_get c k).
Proof. unfold version_set_get. keep_log. Qed.
#[local] Hint Resolve version_set_get_same_log : keeps.
Lemma get_cf_same_log c k : keeps same_log (get_cf c k).
Proof. unfold get_cf, check_ttl_entry. keep_log. Qed.
#[local] Hint Resolve get_cf_same_log : keeps.
Lemma visible_loop_same_log fuel c t lower upper limit merged visible :
  keeps same_log (visible_loop fuel c t lower upper limit merged visible).
Proof.
  revert merged visible; induction fuel as [|fuel IH]; intros merged visible; cbn [visible_loop];
    unfold visible_version; keep_log.
Qed.
#[local] Hint Resolve visible_loop_same_log : keeps.
Lemma scan_cf_same_log c lower upper limit : keeps same_log (scan_cf c lower upper limit).
Proof. unfold scan_cf, for_each_visible_record. keep_log. Qed.
#[local] Hint Resolve scan_cf_same_log : keeps.
Lemma search_prefix_same_log prefix cursor limit : keeps same_log (search_prefix prefix cursor limit).
Proof. unfold search_prefix. keep_log. Qed.
#[local] Hint Resolve search_prefix_same_log : keeps.
Lemma maybe_compact_same_log : keeps same_log maybe_compact.
Proof. unfold maybe_compact. keep_log. Qed.
Lemma add_memtable_bytes_same_log n : keeps same_log (add_memtable_bytes cf n).
Proof. unfold add_memtable_bytes. keep_log. Qed.
Lemma flush_entries_same_log at_ es : keeps same_log (flush_entries at_ es).
Proof. induction es as [|[k r] es IH]; cbn [flush_entries]; keep_log. Qed.
Lemma batch_records_same_log items : keeps same_log (batch_records cf items).
Proof. induction items as [|[k v] items IH]; cbn [batch_records]; keep_log. Qed.
Lemma batch_tombstones_same_log ks : keeps same_log (batch_tombstones cf ks).
Proof. induction ks as [|k ks IH]; cbn [batch_tombstones]; keep_log. Qed.
#[local] Hint Resolve maybe_compact_same_log add_memtable_bytes_same_log flush_entries_same_log
  batch_records_same_log batch_tombstones_same_log : keeps.

(** A computation that keeps the log, when it returns. *)
Lemma keeps_result {A} (m : M A) s r s' : keeps same_log m -> m s = (r, s') -> same_log s s'.
Proof. intros Hk E. specialize (Hk s). by rewrite E in Hk. Qed.

(** [wal_apply] on the log of the family. *)
Lemma wal_apply_log op s u s' :
  wal_apply cf op s = (Ok u, s') ->
  exists w', op (log_of s) = Ok w' /\ s' = on_wals (fun ws => <[cf := w']> (wals s)) s.
Proof.
  unfold wal_apply, wal_handle. intros (w & s1 & Hw & H1')%bind_Ok_inv.
  apply bind_Ok_inv in Hw as (ws & s0 & [= <- <-] & Hw).
  apply bind_Ok_inv in H1' as (w' & s2 & Hl & Hs). injection Hl as Hl <-. injection Hs as _ <-.
  unfold log_of. destruct (wals s !! cf) as [w0|] eqn:E; cbn.
  - injection Hw as <- <-. by exists w'.
  - injection Hw as <- <-. exists w'. split; [done|]. destruct s. unfold on_wals. cbn.
    by rewrite insert_insert_eq.
Qed.

(** ** Log and memtable agree *)

(** What a version is to a reader when there are no range tombstones. *)
Definition shape (r : LogRecord) : bool * bytes := (is_deleted r, value r).

Definition agree (d : gmap bytes LogRecord) (rs : list LogRecord) : Prop :=
  forall k, shape <$> d !! k = shape <$> last_such (writes cf k) rs.

Definition log_record_ok (t : Z) (r : LogRecord) : Prop :=
  version_ok t (key r) r /\ is_range_tombstone r = false /\ column_family r = Some cf.

Definition encoded (r : LogRecord) (f : bytes) : Prop :=
  exists i, encode_frame (Encryptor_new (eo_encryption options)) (wal_entropy cf i) r = Ok f.

(** The log holds the records of [rs], which the memtable agrees with, and ahead
    of it those of [pending]; it is the only log, and there are no range
    tombstones. *)
Record ahead (s : EngineCore) (rs pending : list LogRecord) (fs : list bytes) : Prop := {
  ah_file : wal_file (log_of s) = concat fs;
  ah_frames : Forall2 encoded (rs ++ pending) fs;
  ah_encryptor : wal_encryptor (log_of s) = Encryptor_new (eo_encryption options);
  ah_rng : wal_rng (log_of s) = wal_entropy cf;
  ah_records : Forall (log_record_ok (clock (ticks s))) (rs ++ pending);
  ah_agree : agree (mem_data cf s) rs;
  ah_mems : (length (mem_list cf s) <= 1)%nat;
  ah_mem_rts mem : mem ∈ mem_list cf s -> range_tombstones mem = [];
  ah_rts : rts cf s = [];
  ah_others c : c <> cf -> wals s !! c = None;
}.
Definition logged (s : EngineCore) : Prop := exists rs fs, ahead s rs [] fs.

Lemma log_record_ok_later t t' r : t <= t' -> log_record_ok t r -> log_record_ok t' r.
Proof. intros Ht (Hv & ? & ?). split_and!; [by eapply version_ok_later|done..]. Qed.

Lemma log_records_later t t' rs : t <= t' -> Forall (log_record_ok t) rs -> Forall (log_record_ok t') rs.
Proof. intros Ht Hrs. eapply Forall_impl; [exact Hrs|]. intros r. by apply log_record_ok_later. Qed.

Lemma ahead_frame s s' rs ps fs : same_log s s' -> ahead s rs ps fs -> ahead s' rs ps fs.
Proof.
  intros [Em El Er Eo Et] [Hfile Hframes Henc Hrng Hrs Hag Hml Hmr Hrts Ho].
  assert (mem_list cf s' = mem_list cf s) as Eml by (unfold mem_list; by rewrite Em).
  split; rewrite ?El; try done.
  - eapply log_records_later; [|exact Hrs]. by apply (clock_le clock_mono).
  - unfold mem_data. by rewrite Eml.
  - by rewrite Eml.
  - rewrite Eml. done.
  - unfold rts. by rewrite Er.
  - auto.
Qed.

Lemma logged_frame s s' : same_log s s' -> logged s -> logged s'.
Proof. intros Hs (rs & fs & Ha). exists rs, fs. by eapply ahead_frame. Qed.

Lemma last_such_snoc p rs r :
  last_such p (rs ++ [r]) = if p r then Some r else last_such p rs.
Proof.
  unfold last_such. rewrite filter_app, filter_cons, filter_nil. destruct (p r).
  - rewrite decide_True by done. apply last_snoc.
  - rewrite decide_False by done. by rewrite app_nil_r.
Qed.

Lemma writes_key c k r :
  is_range_tombstone r = false -> column_family r = Some cf -> c = cf ->
  writes c k r = bool_decide (key r = k).
Proof.
  intros Hr Hc ->. unfold writes, dedup_key. rewrite Hr, Hc. cbn. apply bool_decide_ext.
  split; congruence.
Qed.

(** One record more in the log, its version in the memtable. *)
Lemma agree_insert d rs k r r' :
  agree d rs -> key r' = k -> is_range_tombstone r' = false -> column_family r' = Some cf ->
  shape r = shape r' -> agree (<[k := r]> d) (rs ++ [r']).
Proof.
  intros Hag Hk Hr Hc Hs k'. rewrite last_such_snoc, writes_key by done.
  case_bool_decide as Hd.
  - replace k' with k by congruence. rewrite lookup_insert_eq. cbn. by rewrite Hs.
  - rewrite lookup_insert_ne by congruence. apply Hag.
Qed.

Lemma agree_nil : agree ∅ [].
Proof. intros k. by rewrite lookup_empty. Qed.

(** ** Appending to the log *)

Lemma write_record_encoded w r w' :
  write_record w r = Ok w' -> wal_encryptor w = Encryptor_new (eo_encryption options) ->
  wal_rng w = wal_entropy cf ->
  exists f, wal_file w' = wal_file w ++ f /\ encoded r f /\
    wal_encryptor w' = wal_encryptor w /\ wal_rng w' = wal_rng w.
Proof.
  intros (i & f & Hf & ? & ? & ?)%write_record_appends He Hr. exists f.
  rewrite He, Hr in Hf. split_and!; try done. by eexists.
Qed.

Lemma write_batch_appends w rs w' :
  write_batch w rs = Ok w' -> wal_encryptor w = Encryptor_new (eo_encryption options) ->
  wal_rng w = wal_entropy cf ->
  exists fs, wal_file w' = wal_file w ++ concat fs /\ Forall2 encoded rs fs /\
    wal_encryptor w' = wal_encryptor w /\ wal_rng w' = wal_rng w.
Proof.
  unfold write_batch. intros Hw He Hr. destruct rs as [|r rs].
  { injection Hw as <-. exists []. rewrite app_nil_r. by split_and!. }
  apply obind_Ok_inv in Hw as ([frames d] & Hf & Hw). injection Hw as <-.
  apply encode_frames_each in Hf as (fs & -> & Hall). exists fs. rewrite He, Hr in Hall. by split_and!.
Qed.

Lemma append_ahead s rs fs op ps s' u :
  ahead s rs [] fs -> Forall (log_record_ok (clock (ticks s))) ps ->
  (forall w', op (log_of s) = Ok w' -> exists gs, wal_file w' = wal_file (log_of s) ++ concat gs /\
     Forall2 encoded ps gs /\ wal_encryptor w' = wal_encryptor (log_of s) /\
     wal_rng w' = wal_rng (log_of s)) ->
  wal_apply cf op s = (Ok u, s') -> exists gs, ahead s' rs ps (fs ++ gs).
Proof.
  intros [Hfile Hframes Henc Hrng Hrs Hag Hml Hmr Hrts Ho] Hps Hop (w' & Hw & ->)%wal_apply_log.
  rewrite app_nil_r in *.
  destruct (Hop w' Hw) as (gs & Hf & Hgs & He & Hr). exists gs.
  assert (log_of (on_wals (fun _ => <[cf := w']> (wals s)) s) = w') as El.
  { unfold log_of. cbn. by rewrite lookup_insert_eq. }
  split; rewrite ?El; try done.
  - by rewrite Hf, Hfile, concat_app.
  - by apply Forall2_app.
  - congruence.
  - congruence.
  - by apply Forall_app.
  - intros c Hc. cbn. rewrite lookup_insert_ne by done. auto.
Qed.

Lemma updated_single f s :
  (length (mem_list cf s) <= 1)%nat ->
  mem_list cf (updated cf f s) = [f (match mem_list cf s with [] => new_unlimited | mem :: _ => mem end)].
Proof.
  intros Hml. unfold mem_list at 1. cbn. rewrite lookup_insert_eq. cbn.
  change (default [] (memtables s !! cf)) with (mem_list cf s).
  by destruct (mem_list cf s) as [|m0 [|]]; cbn in *; [| |lia].
Qed.

(** Inserting the version of the next pending record. *)
Lemma ahead_insert s rs r' ps fs r :
  ahead s rs (r' :: ps) fs -> key r = key r' -> shape r = shape r' ->
  ahead (updated cf (fun mem => mem_insert mem r) s) (rs ++ [r']) ps fs.
Proof.
  intros [Hfile Hframes Henc Hrng Hrs Hag Hml Hmr Hrts Ho] Hk Hs.
  assert (rs ++ r' :: ps = (rs ++ [r']) ++ ps) as Happ by by rewrite <- app_assoc.
  rewrite Happ in Hframes, Hrs.
  set (mem := match mem_list cf s with [] => new_unlimited | mem :: _ => mem end).
  assert (mem_list cf (updated cf (fun mem => mem_insert mem r) s) = [mem_insert mem r]) as Eml.
  { by rewrite updated_single. }
  assert (data mem = mem_data cf s) as Ed by (subst mem; unfold mem_data; by destruct (mem_list cf s)).
  split; try done.
  - unfold mem_data. rewrite Eml. cbn. rewrite Ed, Hk.
    apply Forall_app in Hrs as [Hrs _]. apply Forall_app in Hrs as [_ (Hv & ? & ?)%Forall_singleton].
    by apply agree_insert.
  - rewrite Eml. cbn. lia.
  - rewrite Eml. intros m0 ->%list_elem_of_singleton. cbn. subst mem.
    destruct (mem_list cf s) as [|m0 l]; [done|]. apply Hmr. by left.
Qed.

(** ** Flushes *)

Lemma flush_table_log mem s b s' :
  flush_table cf mem s = (Ok b, s') ->
  exists s1 s2, same_log s s1 /\ s2 = on_wals (fun ws => <[cf := wal_clear (log_of s1)]> (wals s1)) s1 /\
    same_log s2 s'.
Proof.
  unfold flush_table. intros (at_ & s1 & H1' & Hr)%bind_Ok_inv.
  eapply keeps_result in H1'; [|apply now_same_log].
  apply bind_Ok_inv in Hr as (es & s2 & H2' & Hr). eapply keeps_result in H2'; [|apply flush_entries_same_log].
  apply bind_Ok_inv in Hr as (file & s3 & [_ ->]%write_sst_Ok & Hr).
  apply bind_Ok_inv in Hr as (table & s4 & [= _ <-] & Hr). rewrite bind_modify, bind_gets in Hr.
  destruct (memtable_bytes _ !! cf) in Hr; [|done]. rewrite bind_modify in Hr.
  apply bind_Ok_inv in Hr as (u & s5 & Hw & Hr). rewrite bind_gets in Hr. injection Hr as _ <-.
  apply wal_apply_log in Hw as (w' & [= <-] & ->).
  eexists _, _. split_and!; [|done|reflexivity]. etrans; [exact H1'|]. etrans; [exact H2'|].
  by apply same_log_same.
Qed.

Lemma flush_logged s b s' : logged s -> flush_memtable_impl cf s = (Ok b, s') -> logged s'.
Proof.
  intros Hlog. unfold flush_memtable_impl. rewrite bind_gets.
  destruct (memtables s !! cf) as [mems|] eqn:Em; [|by intros [= _ <-]].
  destruct (last mems) as [mem|] eqn:El; [|by intros [= _ <-]]. case_match.
  - intros (u & s1 & Hw & Hr)%bind_Ok_inv. injection Hr as _ <-.
    apply wal_apply_log in Hw as (w' & [= <-] & ->).
    destruct Hlog as (rs & fs & [Hfile Hframes Henc Hrng Hrs Hag Hml Hmr Hrts Ho]). exists rs, fs.
    assert (log_of (on_wals (fun _ => <[cf := wal_sync (log_of s)]> (wals s)) s) = wal_sync (log_of s)) as E.
    { unfold log_of. cbn. by rewrite lookup_insert_eq. }
    split; rewrite ?E; try done. intros c Hc. cbn. rewrite lookup_insert_ne by done. auto.
  - rewrite bind_modify. intros (s1 & s2 & Hs1 & -> & Hs2)%flush_table_log.
    eapply logged_frame; [exact Hs2|]. clear Hs2. exists [], [].
    destruct Hlog as (rs & fs & [Hfile Hframes Henc Hrng Hrs Hag Hml Hmr Hrts Ho]).
    destruct Hs1 as [Em1 El1 Er1 Eo1 Et1].
    assert (log_of (on_memtables <[cf := removelast mems]> s) = log_of s) as E0 by done.
    assert (mem_list cf s1 = []) as Eml.
    { unfold mem_list. rewrite Em1. cbn. rewrite lookup_insert_eq. cbn.
      unfold mem_list in Hml. rewrite Em in Hml. cbn in Hml. by destruct mems as [|m0 [|]]; cbn in *; [| |lia]. }
    assert (forall ws, log_of (on_wals (fun _ => <[cf := wal_clear (log_of s1)]> ws) s1) = wal_clear (log_of s1)) as E.
    { intros ws. unfold log_of. cbn. by rewrite lookup_insert_eq. }
    split; rewrite ?E, ?El1, ?E0; try done.
    + unfold mem_data. change (mem_list cf (on_wals _ s1)) with (mem_list cf s1). rewrite Eml. apply agree_nil.
    + change (mem_list cf (on_wals _ s1)) with (mem_list cf s1). rewrite Eml. cbn. lia.
    + change (mem_list cf (on_wals _ s1)) with (mem_list cf s1). rewrite Eml. set_solver.
    + unfold rts. cbn. by rewrite Er1.
    + intros c Hc. cbn. rewrite lookup_insert_ne by done. apply Eo1; [done|]. cbn. auto.
Qed.

Lemma flush_if_full_logged s b s' : logged s -> flush_if_full cf s = (Ok b, s') -> logged s'.
Proof.
  intros Hlog. unfold flush_if_full. rewrite bind_gets. case_match; [|by intros [= _ <-]]. by apply flush_logged.
Qed.

(** ** Writes *)

Lemma write_phases_logged s logr (ins : M (MemTable -> MemTable)) n b s' :
  logged s -> log_record_ok (clock (ticks s)) logr ->
  (forall s1 f s2, ins s1 = (Ok f, s2) -> same_log s1 s2 /\
     exists r, f = (fun mem => mem_insert mem r) /\ key r = key logr /\ shape r = shape logr) ->
  write_phases cf logr ins n s = (Ok b, s') -> logged s'.
Proof.
  intros (rs & fs & Ha) Hr Hins. unfold write_phases. intros (u & s1 & Hw & Hp)%bind_Ok_inv.
  assert (exists gs, ahead s1 rs [logr] (fs ++ gs)) as (gs & Ha1).
  { eapply append_ahead; [done|by constructor| |exact Hw]. intros w' Hw'.
    apply write_record_encoded in Hw' as (f & ? & ? & ? & ?); [|apply Ha..].
    exists [f]. cbn. rewrite app_nil_r. split_and!; try done. by repeat constructor. }
  apply bind_Ok_inv in Hp as (f & s2 & Hi & Hp). destruct (Hins _ _ _ Hi) as (Hsl & r & -> & Hk & Hs).
  apply bind_Ok_inv in Hp as (u2 & s3 & [= _ <-] & Hp).
  apply bind_Ok_inv in Hp as (u3 & s4 & Hb & Hp).
  eapply keeps_result in Hb; [|apply add_memtable_bytes_same_log].
  eapply flush_if_full_logged; [|exact Hp]. eapply logged_frame; [exact Hb|].
  eexists _, _. eapply ahead_insert; [|done..]. by eapply ahead_frame.
Qed.

Context (no_default_ttl : default_ttl options = None).

Lemma log_record_ok_put t t' k v :
  user_key k = true -> v <> [] -> fits cf k v -> t < t' -> log_record_ok t' (set_cf cf (LogRecord_new t k v)).
Proof. intros. split_and!; [by apply version_ok_put|done..]. Qed.

Lemma log_record_ok_delete t t' k :
  user_key k = true -> fits cf k [] -> t < t' -> log_record_ok t' (set_cf cf (tombstone t k)).
Proof.
  intros Hu Hf Ht. split_and!; [|done..]. split; cbn; try done; intros; apply Hf; auto.
Qed.

Lemma update_indexes_same_log s m put k v s' :
  cf = "default"%string \/ json_str_field v = None -> refines cf s m ->
  update_indexes put cf k v s = (Ok tt, s') -> same_log s s'.
Proof.
  intros Hc Href. unfold update_indexes. destruct (json_str_field v) as [j|]; [|by intros [= <-]].
  destruct Hc as [Hc|]; [|done].
  destruct (search_schema_empty clock_mono cf s m Hc Href) as (s1 & Hs & _).
  { intros. by eapply (refines_user cf s m). }
  rewrite (bind_Ok _ _ _ _ _ Hs). intros [= <-]. eapply keeps_result; [|exact Hs].
  apply search_prefix_same_log.
Qed.

Lemma compact_same_log (b : bool) s s' :
  (if b then maybe_compact else mret tt : M unit) s = (Ok tt, s') -> same_log s s'.
Proof. destruct b; intros [= <-]; by apply same_log_same. Qed.

Lemma put_logged d s m k v s' :
  refines cf s m -> logged s -> user_key k = true -> v <> [] -> fits cf k v ->
  (cf = "default"%string \/ json_str_field v = None) ->
  put_cf_with_ttl_inner (S d) cf k v None s = (Ok tt, s') -> logged s'.
Proof.
  intros Href Hlog Hu Hv Hf Hj Hp. cbn [put_cf_with_ttl_inner] in Hp.
  destruct (_ <? _) in Hp; [done|]. destruct (_ <? _) in Hp; [done|].
  rewrite (bind_Ok _ _ _ _ _ (put_record_plain cf no_default_ttl s k v)) in Hp.
  apply bind_Ok_inv in Hp as (b & s1 & Hw & Hp).
  pose proof (put_phase_refines clock_mono cf s m k v _ _ _ Href Hu Hv Hf Hw) as Href1.
  apply write_phases_logged in Hw.
  - destruct (update_indexes_refines clock_mono cf s1 _ (fun cf k v => put_cf_with_ttl_inner d cf k v None) k v Hj Href1)
      as (s2 & Hi & Hs2).
    rewrite (bind_Ok _ _ s1 tt s2) in Hp by (unfold warn_on_err; by rewrite Hi).
    eapply logged_frame; [by eapply compact_same_log|].
    eapply logged_frame; [exact (update_indexes_same_log _ _ _ _ _ _ Hj Href1 Hi)|done].
  - eapply logged_frame; [|exact Hlog]. apply (now_same_log s).
  - apply log_record_ok_put; try done. apply clock_mono.
  - intros s0 f s2 [= <- <-]. split; [done|]. by eexists.
Qed.

Lemma delete_logged d s m k s' :
  refines cf s m -> logged s -> user_key k = true -> fits cf k [] ->
  delete_cf_inner (S d) cf k s = (Ok tt, s') -> logged s'.
Proof.
  intros Href Hlog Hu Hf Hp. cbn [delete_cf_inner] in Hp. rewrite bind_now in Hp.
  apply bind_Ok_inv in Hp as (b & s1 & Hw & Hp).
  pose proof (delete_phase_refines clock_mono cf s m k _ _ _ Href Hu Hf Hw) as Href1.
  apply write_phases_logged in Hw.
  - destruct (ok_value_get clock_mono cf s1 _ k Href1) as (s2 & Hg & Hs2). rewrite lookup_delete_eq in Hg.
    rewrite (bind_Ok _ _ _ _ _ Hg) in Hp.
    destruct (ok_value_get clock_mono cf s2 _ (ttl_key k) Hs2) as (s3 & Hg3 & Hs3).
    rewrite (bind_Ok _ _ s2 tt s3) in Hp by (by rewrite (bind_Ok _ _ _ _ _ Hg3)).
    eapply logged_frame; [by eapply compact_same_log|].
    eapply logged_frame; [eapply keeps_result, Hg3; apply keeps_ok_value, get_cf_same_log|].
    eapply logged_frame; [eapply keeps_result, Hg; apply keeps_ok_value, get_cf_same_log|done].
  - eapply logged_frame; [|exact Hlog]. apply (now_same_log s).
  - apply log_record_ok_delete; try done. apply clock_mono.
  - intros s0 f s2. rewrite bind_now. intros [= <- <-]. split; [apply (now_same_log s0)|]. by eexists.
Qed.

(** ** Batches *)

(** The record a batch logs for an entry. *)
Definition logs_entry (t : Z) (r : LogRecord) (e : bytes * (bool * bytes)) : Prop :=
  log_record_ok t r /\ key r = e.1 /\ shape r = e.2.

Lemma logs_entry_later t t' rs es : t <= t' -> Forall2 (logs_entry t) rs es -> Forall2 (logs_entry t') rs es.
Proof.
  intros Ht Hrs. eapply Forall2_impl; [exact Hrs|]. intros r e (? & ? & ?).
  split_and!; [by eapply log_record_ok_later|done..].
Qed.

Lemma batch_records_log items s rs s' :
  Forall (fun e => user_key e.1 = true /\ e.2 <> [] /\ fits cf e.1 e.2) items ->
  batch_records cf items s = (Ok rs, s') ->
  Forall2 (logs_entry (clock (ticks s'))) rs ((fun e => (e.1, (false, e.2))) <$> items).
Proof.
  intros Hall. revert s rs. induction Hall as [|[k v] items (Hu & Hv & Hf) _ IH]; intros s rs; cbn [batch_records].
  { intros [= <- _]. constructor. }
  rewrite bind_now. intros (rest & s1 & Hr & Hs)%bind_Ok_inv. injection Hs as <- <-.
  constructor; [|by eapply IH]. split_and!; [|done..]. apply log_record_ok_put; try done.
  apply (clock_lt clock_mono). eapply keeps_result in Hr; [|apply batch_records_same_log].
  pose proof (sl_ticks _ _ Hr) as Ht. cbn in Ht. lia.
Qed.

Lemma batch_tombstones_log ks s rs s' :
  Forall (fun k => user_key k = true /\ fits cf k []) ks ->
  batch_tombstones cf ks s = (Ok rs, s') ->
  Forall2 (logs_entry (clock (ticks s'))) rs ((fun k => (k, (true, []))) <$> ks).
Proof.
  intros Hall. revert s rs. induction Hall as [|k ks (Hu & Hf) _ IH]; intros s rs; cbn [batch_tombstones].
  { intros [= <- _]. constructor. }
  rewrite bind_now. intros (rest & s1 & Hr & Hs)%bind_Ok_inv. injection Hs as <- <-.
  constructor; [|by eapply IH]. split_and!; [|done..]. apply log_record_ok_delete; try done.
  apply (clock_lt clock_mono). eapply keeps_result in Hr; [|apply batch_tombstones_same_log].
  pose proof (sl_ticks _ _ Hr) as Ht. cbn in Ht. lia.
Qed.

Lemma batch_puts_ahead items t ps s rs fs s' :
  ahead s rs ps fs -> Forall2 (logs_entry t) ps ((fun e => (e.1, (false, e.2))) <$> items) ->
  batch_puts cf items s = (Ok tt, s') -> logged s'.
Proof.
  revert ps s rs. induction items as [|[k v] items IH]; intros ps s rs Ha Hps; cbn [batch_puts].
  { apply Forall2_nil_inv_r in Hps as ->. intros [= <-]. by eexists _, _. }
  apply Forall2_cons_inv_r in Hps as (p & ps' & (Hr & Hk & Hs) & Hps & ->).
  rewrite bind_now. intros (u & s1 & [= _ <-] & Hp)%bind_Ok_inv.
  apply bind_Ok_inv in Hp as (u2 & s2 & Hb & Hp). eapply keeps_result in Hb; [|apply add_memtable_bytes_same_log].
  eapply IH; [|exact Hps|exact Hp]. eapply ahead_frame; [exact Hb|].
  eapply ahead_insert; [eapply ahead_frame; [apply (now_same_log s)|exact Ha]| |]; by cbn.
Qed.

Lemma batch_deletes_ahead ks t ps s rs fs s' :
  ahead s rs ps fs -> Forall2 (logs_entry t) ps ((fun k => (k, (true, []))) <$> ks) ->
  batch_deletes cf ks s = (Ok tt, s') -> logged s'.
Proof.
  revert ps s rs. induction ks as [|k ks IH]; intros ps s rs Ha Hps; cbn [batch_deletes].
  { apply Forall2_nil_inv_r in Hps as ->. intros [= <-]. by eexists _, _. }
  apply Forall2_cons_inv_r in Hps as (p & ps' & (Hr & Hk & Hs) & Hps & ->).
  rewrite bind_now. intros (u & s1 & [= _ <-] & Hp)%bind_Ok_inv.
  apply bind_Ok_inv in Hp as (u2 & s2 & Hb & Hp). eapply keeps_result in Hb; [|apply add_memtable_bytes_same_log].
  eapply IH; [|exact Hps|exact Hp]. eapply ahead_frame; [exact Hb|].
  eapply ahead_insert; [eapply ahead_frame; [apply (now_same_log s)|exact Ha]| |]; by cbn.
Qed.

(** The log append of a batch. *)
Lemma batch_append_ahead s s1 s2 u rs es :
  logged s -> same_log s s1 -> Forall2 (logs_entry (clock (ticks s1))) rs es ->
  wal_apply cf (fun w => write_batch w rs) s1 = (Ok u, s2) -> exists rs0 fs, ahead s2 rs0 rs fs.
Proof.
  intros Hlog Hs1 Hrs Hw. eapply logged_frame in Hlog as (rs0 & fs & Ha); [|exact Hs1].
  assert (exists gs, ahead s2 rs0 rs (fs ++ gs)) as (gs & Ha2); [|by eexists _, _].
  eapply append_ahead; [exact Ha| | |exact Hw].
  - clear -Hrs. induction Hrs as [|r e rs es (? & _) _ IH]; by constructor.
  - intros w' Hw'. apply write_batch_appends in Hw'; [done|apply Ha..].
Qed.

Lemma set_batch_logged items s s' :
  logged s -> Forall (fun e => user_key e.1 = true /\ e.2 <> [] /\ fits cf e.1 e.2) items ->
  set_batch_cf cf items s = (Ok tt, s') -> logged s'.
Proof.
  intros Hlog Hall. unfold set_batch_cf. intros (rs & s1 & Hr & Hp)%bind_Ok_inv.
  pose proof (batch_records_log _ _ _ _ Hall Hr) as Hrs.
  eapply keeps_result in Hr; [|apply batch_records_same_log].
  apply bind_Ok_inv in Hp as (u & s2 & Hw & Hp).
  destruct (batch_append_ahead _ _ _ _ _ _ Hlog Hr Hrs Hw) as (rs0 & fs & Ha).
  apply bind_Ok_inv in Hp as ([] & s3 & Hb & Hp). eapply batch_puts_ahead in Hb; [|done..].
  apply bind_Ok_inv in Hp as (b & s4 & Hfl & Hp). eapply flush_if_full_logged in Hfl; [|done].
  eapply logged_frame; [by eapply compact_same_log|done].
Qed.

Lemma delete_batch_logged ks s s' :
  logged s -> Forall (fun k => user_key k = true /\ fits cf k []) ks ->
  delete_batch_cf cf ks s = (Ok tt, s') -> logged s'.
Proof.
  intros Hlog Hall. unfold delete_batch_cf. intros (rs & s1 & Hr & Hp)%bind_Ok_inv.
  pose proof (batch_tombstones_log _ _ _ _ Hall Hr) as Hrs.
  eapply keeps_result in Hr; [|apply batch_tombstones_same_log].
  apply bind_Ok_inv in Hp as (u & s2 & Hw & Hp).
  destruct (batch_append_ahead _ _ _ _ _ _ Hlog Hr Hrs Hw) as (rs0 & fs & Ha).
  apply bind_Ok_inv in Hp as ([] & s3 & Hb & Hp). eapply batch_deletes_ahead in Hb; [|done..].
  apply bind_Ok_inv in Hp as (b & s4 & Hfl & Hp). eapply flush_if_full_logged in Hfl; [|done].
  eapply logged_frame; [by eapply compact_same_log|done].
Qed.

(** ** Histories *)

Definition no_range (o : op) : Prop := match o with DeleteRange _ _ => False | _ => True end.

Lemma run_op_logged s m o a s' :
  refines cf s m -> logged s -> op_ok cf o -> no_range o -> run_op cf o s = (Ok a, s') -> logged s'.
Proof.
  intros Href Hlog Hok Hnr Hrun.
  destruct o as [k v|k|start stop|items|ks| |k|lower upper limit]; cbn [run_op op_ok no_range] in *;
    apply bind_Ok_inv in Hrun as (x & s1 & Hx & Ha); injection Ha as _ <-.
  - destruct x, Hok as (? & ? & ? & ?). by eapply put_logged.
  - destruct x, Hok. by eapply delete_logged.
  - done.
  - destruct x. by eapply set_batch_logged.
  - destruct x. by eapply delete_batch_logged.
  - unfold flush_memtable_cf in Hx. apply bind_Ok_inv in Hx as (b & s2 & Hf & [= _ <-]).
    by eapply flush_logged.
  - eapply logged_frame; [|exact Hlog]. eapply keeps_result, Hx. apply get_cf_same_log.
  - eapply logged_frame; [|exact Hlog]. eapply keeps_result, Hx. apply scan_cf_same_log.
Qed.

Lemma run_ops_logged os s m rs s' :
  refines cf s m -> logged s -> Forall (op_ok cf) os -> Forall no_range os ->
  run_ops cf os s = (Ok rs, s') -> logged s'.
Proof.
  intros Href Hlog Hok Hnr. revert s m rs Href Hlog. induction Hok as [|o os Ho _ IH]; intros s m rs Href Hlog.
  { by intros [= _ <-]. }
  apply Forall_cons in Hnr as [Hn Hnr]. cbn [run_ops]. intros (a & s1 & Ha & Hr)%bind_Ok_inv.
  apply bind_Ok_inv in Hr as (rest & s2 & Hr & [= _ <-]).
  pose proof (run_op_logged _ _ _ _ _ Href Hlog Ho Hn Ha) as Hlog1.
  apply (run_op_refines clock_mono cf no_default_ttl _ m) in Ha as [Href1 _]; [|done..].
  by eapply IH.
Qed.

Lemma logged_new : logged EngineCore_new.
Proof.
  exists [], []. assert (mem_list cf EngineCore_new = []) as Hml by done.
  split; try done; rewrite ?Hml; try done; cbn; first [apply agree_nil|lia|set_solver].
Qed.

(** ** Replay *)

(** Between two states only the memtable of the family changed, by inserts. *)
Record replayed (s s' : EngineCore) : Prop := {
  rp_version_set : version_set s' = version_set s;
  rp_disk : disk s' = disk s;
  rp_wals : wals s' = wals s;
  rp_ticks : ticks s' = ticks s;
  rp_rts : core_range_tombstones s' = core_range_tombstones s;
  rp_mems : (length (mem_list cf s') <= 1)%nat;
  rp_mem_rts mem : mem ∈ mem_list cf s' -> range_tombstones mem = [];
}.

Lemma replay_replayed t rs s :
  Forall (log_record_ok t) rs -> (length (mem_list cf s) <= 1)%nat ->
  (forall mem, mem ∈ mem_list cf s -> range_tombstones mem = []) ->
  replayed s (replay_wal_records_core rs s).2.
Proof.
  intros Hrs. revert s. induction Hrs as [|r rs (Hv & Hr & Hc) _ IH]; intros s Hml Hmr; [by split|].
  cbn [replay_wal_records_core]. unfold replay_record. rewrite Hr, Hc. cbn [default].
  set (s1 := (add_memtable_bytes cf (len (key r) + len (value r)) (updated cf (fun mem => mem_insert mem r) s)).2).
  change (replayed s (replay_wal_records_core rs s1).2).
  assert (mem_list cf s1 = mem_list cf (updated cf (fun mem => mem_insert mem r) s)) as E by done.
  rewrite updated_single in E by done.
  destruct (IH s1) as [? ? ? ? ? ? ?].
  - rewrite E. cbn. lia.
  - rewrite E. intros mem ->%list_elem_of_singleton. cbn.
    destruct (mem_list cf s) as [|m0 l]; [done|]. apply Hmr. by left.
  - by split.
Qed.

Lemma mem_version_single s k : (length (mem_list cf s) <= 1)%nat -> mem_version s cf k = mem_data cf s !! k.
Proof.
  unfold mem_version, mem_data. fold (mem_list cf s). intros Hml.
  destruct (mem_list cf s) as [|mem [|]]; cbn in *; [by rewrite lookup_empty|by destruct (data mem !! k)|lia].
Qed.

(** ** Tables found at startup *)

Definition loaded (t : Table) : Table :=
  {| t_data := ∅; t_level := 1; t_path := t_path t;
     t_min_key := t_min_key t; t_max_key := t_max_key t; t_bloom := t_bloom t |}.

Lemma loaded_paths (ts : list Table) : omap t_path (loaded <$> ts) = omap t_path ts.
Proof. induction ts as [|t ts IH]; [done|]. cbn. by rewrite IH. Qed.

Lemma loaded_holds d q t es : table_holds d q t es -> table_holds d ∅ (loaded t) es.
Proof.
  intros [(p & f & n & ts & m & Hp & Hq & Hd & Hw & Hm & ? & ? & ?) Hst Hdata Htomb]. split; try done.
  exists p, f, n, ts, m. by split_and!.
Qed.

Lemma load_holds d q t es p :
  table_holds d q t es -> t_path t = Some p ->
  exists f, d !! p = Some f /\
    (load_for_recovery p f = Ok (Healthy (loaded t)) \/ load_for_recovery p f = Ok (DegradedBloom (loaded t))).
Proof.
  intros [(p' & f & n & ts & m & Hp & Hq & Hd & Hw & Hm & H1' & H2' & H3') _ _ _] Ht.
  rewrite Hp in Ht. injection Ht as <-. exists f. split; [done|].
  unfold load_for_recovery, from_sstable_path. rewrite Hm. cbn. unfold loaded. rewrite Hp, H1', H2', H3'.
  destruct (sm_bloom m); auto.
Qed.

Definition registers (c : Candidate) (t : Table) : Prop :=
  c_cf c = cf /\ (c_outcome c = Healthy (loaded t) \/ c_outcome c = DegradedBloom (loaded t)).

Lemma inspect_holds d q ts ess ps seen :
  Forall2 (table_holds d q) ts ess -> Forall2 (fun t p => t_path t = Some p) ts ps ->
  NoDup ps -> (forall p, p ∈ ps -> p ∉ seen) ->
  exists cs, inspect d seen (pair cf <$> ps) = Ok cs /\ Forall2 registers cs ts.
Proof.
  intros Hts Hps. revert ess seen Hts. induction Hps as [|t p ts ps Hp _ IH]; intros ess seen Hts Hnd Hseen.
  { exists []. split; [done|constructor]. }
  apply Forall2_cons_inv_l in Hts as (es & ess' & Ht & Hts & ->). apply NoDup_cons in Hnd as [Hni Hnd].
  cbn [inspect fmap list_fmap]. rewrite bool_decide_false by (apply Hseen; by left).
  destruct (load_holds _ _ _ _ _ Ht Hp) as (f & Hf & Hload). unfold open_file. rewrite Hf. cbn [ok_or obind].
  destruct (IH ess' ({[p]} ∪ seen) Hts Hnd) as (cs & Hcs & Hreg).
  { intros p' Hp'. specialize (Hseen p' ltac:(by right)). set_solver. }
  assert (exists l, load_for_recovery p f = Ok l /\ (l = Healthy (loaded t) \/ l = DegradedBloom (loaded t)))
    as (l & -> & Hl) by (destruct Hload; eauto).
  cbn [obind]. rewrite Hcs. cbn [obind]. eexists. split; [done|]. constructor; [|done]. by split.
Qed.

Lemma apply_registers cs ts s :
  Forall2 registers cs ts ->
  exists s', apply_candidates cs s = (Ok tt, s') /\
    cf_tables (version_set s') cf = cf_tables (version_set s) cf ++ (loaded <$> ts) /\
    memtables s' = memtables s /\ core_range_tombstones s' = core_range_tombstones s /\
    disk s' = disk s /\ wals s' = wals s /\ ticks s' = ticks s /\
    vs_block_cache (version_set s') = vs_block_cache (version_set s) /\
    quarantined (version_set s') = quarantined (version_set s) /\
    (kv_cache (version_set s) = ∅ -> kv_cache (version_set s') = ∅).
Proof.
  intros Hreg. revert s. induction Hreg as [|c t cs ts [Hc Ho] _ IH]; intros s.
  { exists s. cbn. rewrite app_nil_r. by split_and!. }
  set (s1 := on_version_set (fun vs => add_table vs cf (loaded t)) s).
  assert (apply_candidates (c :: cs) s = apply_candidates cs s1) as ->.
  { cbn [apply_candidates]. by destruct Ho as [-> | ->]; rewrite bind_modify, Hc. }
  destruct (IH s1) as (s' & Hs' & Ht & Hm & Hr & Hd & Hw & Htk & Hb & Hq & Hk). exists s'.
  split_and!; [done| |exact Hm|exact Hr|exact Hd|exact Hw|exact Htk|exact Hb|exact Hq|intros _; by apply Hk].
  rewrite Ht. unfold s1. cbn [on_version_set version_set]. rewrite add_table_tables, fmap_cons, <- app_assoc. done.
Qed.

(** ** Restart *)

(** The directory a stopped engine leaves. *)
Definition closed_dir (s : EngineCore) : DataDir :=
  {| dd_sstables := disk s; dd_quarantine := ∅;
     dd_default_wal := from_option wal_file [] (wals s !! "default"%string);
     dd_wals := (fun cw => (cw.1, wal_file cw.2)) <$> filter (fun cw => cw.1 <> "default"%string) (map_to_list (wals s));
     dd_manifest := None |}.

(** Opening it again; clock and file counter go on. *)
Definition reopen (s : EngineCore) : outcome unit * EngineCore :=
  new_generic (closed_dir s) (core_of (closed_dir s) (sst_writes s) (ticks s)).

(** The directory holds the tables of the family and no other file, and the
    order of the names is that of the ages: what startup takes for granted. *)
Definition names_in_age_order (s : EngineCore) : Prop :=
  discovered_paths (closed_dir s) = pair cf <$> omap t_path (cf_tables (version_set s) cf).

(** The log is shorter than the read buffer of recovery. *)
Definition short_log (s : EngineCore) : Prop := len (wal_file (log_of s)) <= BUF_CAP - 4.

(** A state with the same tables and their files and a memtable that agrees with
    the log stands for the same map. *)
Record restored (s s' : EngineCore) (rs : list LogRecord) : Prop := {
  rs_tables : cf_tables (version_set s') cf = loaded <$> cf_tables (version_set s) cf;
  rs_files p f : p ∈ omap t_path (cf_tables (version_set s) cf) -> disk s !! p = Some f -> disk s' !! p = Some f;
  rs_disk p : is_Some (disk s' !! p) -> is_Some (disk s !! p);
  rs_ticks : (ticks s <= ticks s')%nat;
  rs_rts : rts cf s' = [];
  rs_mems : (length (mem_list cf s') <= 1)%nat;
  rs_mem_rts mem : mem ∈ mem_list cf s' -> range_tombstones mem = [];
  rs_data k : mem_data cf s' !! k = last_such (writes cf k) rs;
  rs_block_cache : vs_block_cache (version_set s') = true;
  rs_quarantined : quarantined (version_set s') = ∅;
  rs_cache : kv_cache (version_set s') = ∅;
}.

Lemma last_such_elem p rs r : last_such p rs = Some r -> r ∈ rs /\ p r = true.
Proof. unfold last_such. intros Hl%last_Some_elem_of. by apply list_elem_of_filter in Hl as [? ?]. Qed.

Lemma shown_shape s k r r' : rts cf s = [] -> shape r = shape r' -> shown cf s k r = shown cf s k r'.
Proof. unfold shown, shape. intros -> [= -> ->]. done. Qed.

Lemma restored_ok s s' ess rs fs :
  core_ok cf s ess -> ahead s rs [] fs -> restored s s' rs -> core_ok cf s' ess.
Proof.
  intros Hok Ha [Hts Hf Hd Ht Hrts Hml Hmr Hdata Hb Hq Hk].
  pose proof (clock_le clock_mono _ _ Ht) as Hle.
  split; rewrite ?Hq; try done.
  - intros k r Hr. rewrite Hdata in Hr. apply last_such_elem in Hr as [Hin Hw].
    destruct Ha as [_ _ _ _ Hrs _ _ _ _ _]. rewrite app_nil_r, Forall_forall in Hrs.
    destruct (Hrs r Hin) as (Hv & Hn & Hc). rewrite writes_key in Hw by done.
    apply bool_decide_eq_true in Hw as <-. by eapply version_ok_later.
  - intros mem rt Hmem Hrt. rewrite (Hmr mem Hmem) in Hrt. set_solver.
  - rewrite Hrts. set_solver.
  - rewrite Hts, <- fmap_reverse. apply Forall2_fmap_l.
    eapply (Forall2_impl (table_holds (disk s') (quarantined (version_set s)))); [|intros t es; apply loaded_holds].
    eapply tables_hold_files; [|apply (co_tables _ _ _ Hok)]. intros p f Hp. apply Hf.
    apply list_elem_of_omap in Hp as (t & Hin & Hp). apply list_elem_of_omap. exists t. by rewrite <- elem_of_reverse.
  - intros es k r Hin Hr. eapply version_ok_later; [exact Hle|]. by eapply (co_versions _ _ _ Hok).
  - by apply kv_coherent_empty.
  - intros p f Hp. destruct (Hd p ltac:(by eexists)) as [f' Hf'].
    destruct (co_disk _ _ _ Hok _ _ Hf') as (t & ? & ?). exists t. split; [lia|done].
  - rewrite Hts, loaded_paths. apply (co_paths _ _ _ Hok).
Qed.

Lemma restored_refines s s' m ess rs fs :
  core_ok cf s ess -> (forall k, m !! k = version cf s ess k ≫= shown cf s k) -> ahead s rs [] fs ->
  restored s s' rs -> refines cf s' m.
Proof.
  intros Hok Hm Ha Hrs. exists ess. split; [by eapply restored_ok|].
  destruct Hrs as [Hts Hf Hd Ht Hrts Hml Hmr Hdata Hb Hq Hk].
  intros k. rewrite Hm. unfold version. rewrite Hdata.
  pose proof (ah_agree _ _ _ _ Ha k) as Hag. pose proof (ah_rts _ _ _ _ Ha) as Hr0.
  assert (forall r, shown cf s k r = shown cf s' k r) as Hsh by (intros r; unfold shown; by rewrite Hrts, Hr0).
  destruct (mem_data cf s !! k) as [r|], (last_such (writes cf k) rs) as [r'|]; try done; cbn.
  - rewrite Hsh. apply shown_shape; [done|]. by apply (inj Some) in Hag.
  - destruct (newest ess k); [apply Hsh|done].
Qed.

Context (cf_default : cf = "default"%string).
Context (entropy_ok : forall i n, wal_entropy cf i = Some n -> len n = 12).
Context (no_legacy_key : ec_enabled (eo_encryption options) &&
  bytes_eqb (ec_key (eo_encryption options)) (replicate 32 Byte.x00) = false).

Lemma recover_logged s rs fs :
  ahead s rs [] fs -> short_log s ->
  exists w, recover (set_sync_interval (wal_open (wal_file (log_of s)) (eo_encryption options) (wal_entropy cf))
    (eo_wal_sync_interval options)) = (w, Ok (last_writes rs)).
Proof.
  intros [Hfile Hframes _ _ _ _ _ _ _ _] Hshort. rewrite app_nil_r in Hframes. unfold short_log in Hshort.
  rewrite Hfile in *. eexists. rewrite (surjective_pairing (recover _)). f_equal.
  apply (recover_short _ rs fs); [done| |done]. cbn.
  assert (forall f, f ∈ fs -> len f <= MAX_WAL_RECORD_BYTES + 8) as Hlen.
  { intros f (l1 & l2 & ->)%list_elem_of_split. rewrite concat_app, len_app in Hshort. cbn [concat] in Hshort.
    rewrite len_app in Hshort. pose proof (len_nonneg (concat l1)). pose proof (len_nonneg (concat l2)).
    unfold BUF_CAP, MAX_WAL_RECORD_BYTES in *. lia. }
  clear Hfile Hshort. induction Hframes as [|r f rs fs [i Hf] _ IH]; constructor.
  - eapply encode_frame_of; [|exact Hf|apply Hlen; by left]. by apply entropy_ok.
  - apply IH. intros f' Hf'. apply Hlen. by right.
Qed.

(** Opening the log replays the memtable. *)
Lemma open_wal_logged s rs fs s0 :
  ahead s rs [] fs -> short_log s -> mem_list cf s0 = [] ->
  exists w s1, open_wal cf (wal_file (log_of s)) s0 = (Ok tt, s1) /\
    replayed (on_wals <[cf := w]> s0) s1 /\ forall k, mem_data cf s1 !! k = last_such (writes cf k) rs.
Proof.
  intros Ha Hshort Hml. destruct (recover_logged _ _ _ Ha Hshort) as [w Hrec]. unfold open_wal. rewrite Hrec.
  set (s1 := on_wals <[cf := w]> s0). assert (mem_list cf s1 = []) as Hml1 by done.
  exists w, (replay_wal_records_core (last_writes rs) s1).2.
  assert (Forall (log_record_ok (clock (ticks s))) (last_writes rs)) as Hok.
  { destruct Ha as [_ _ _ _ Hrs _ _ _ _ _]. rewrite app_nil_r in Hrs. rewrite Forall_forall in *.
    intros r Hr. apply Hrs. clear -Hr. induction rs as [|x rs IH]; [done|]. cbn [last_writes] in Hr.
    destruct (_ || _); set_solver. }
  assert (replayed s1 (replay_wal_records_core (last_writes rs) s1).2) as Hrp.
  { eapply replay_replayed; [exact Hok|..]; rewrite Hml1; [cbn; lia|set_solver]. }
  destruct (replay_views (last_writes rs) s1) as (s2 & Hr2 & Hv & _). split_and!; [|done|].
  - change (replay_wal_records_core (last_writes rs) s1 = (Ok tt, (replay_wal_records_core (last_writes rs) s1).2)).
    by rewrite Hr2.
  - intros k. rewrite <- mem_version_single by apply Hrp. rewrite Hr2. cbn [snd]. rewrite Hv, last_writes_last_such.
    unfold mem_version. change (default [] (memtables s1 !! cf)) with (mem_list cf s1). rewrite Hml1.
    by destruct (last_such _ rs).
Qed.

Lemma omap_paths d q ts ess :
  Forall2 (table_holds d q) ts ess -> Forall2 (fun t p => t_path t = Some p) ts (omap t_path ts).
Proof.
  induction 1 as [|t es ts ess [(p & f & n & tm & mt & Hp & _) _ _ _] _ IH]; [constructor|].
  cbn. rewrite Hp. by constructor.
Qed.

Lemma discovered_NoDup dir : dd_manifest dir = None -> NoDup (discovered_paths dir).*2.
Proof.
  intros Hn. unfold discovered_paths. rewrite merge_sort_Permutation, Hn.
  rewrite <- list_fmap_compose. cbn. rewrite list_fmap_id. apply NoDup_fst_map_to_list.
Qed.

(** Discovery registers the tables of the family again, in their order. *)
Lemma tables_reopened s s1 ess :
  core_ok cf s ess -> disk s1 = disk s -> cf_tables (version_set s1) cf = [] -> names_in_age_order s ->
  exists s2, discover_sstables_from_disk (closed_dir s) s1 = (Ok tt, s2) /\
    cf_tables (version_set s2) cf = loaded <$> cf_tables (version_set s) cf /\
    memtables s2 = memtables s1 /\ core_range_tombstones s2 = core_range_tombstones s1 /\
    disk s2 = disk s1 /\ ticks s2 = ticks s1 /\
    vs_block_cache (version_set s2) = vs_block_cache (version_set s1) /\
    quarantined (version_set s2) = quarantined (version_set s1) /\
    (kv_cache (version_set s1) = ∅ -> kv_cache (version_set s2) = ∅).
Proof.
  intros Hok Hd Ht Hnames. set (ts := cf_tables (version_set s) cf) in *.
  assert (Forall2 (table_holds (disk s) (quarantined (version_set s))) ts (reverse ess)) as Hts.
  { rewrite <- (reverse_involutive ts). apply Forall2_reverse, (co_tables _ _ _ Hok). }
  pose proof (discovered_NoDup (closed_dir s) eq_refl) as Hnd. rewrite Hnames in Hnd.
  rewrite <- list_fmap_compose in Hnd. cbn in Hnd. rewrite list_fmap_id in Hnd.
  destruct (inspect_holds _ _ ts (reverse ess) (omap t_path ts) ∅ Hts) as (cs & Hcs & Hreg);
    [by eapply omap_paths|done|set_solver|].
  destruct (apply_registers cs ts s1 Hreg) as (s2 & Hs2 & Hts2 & ? & ? & ? & ? & ? & ? & ? & ?).
  exists s2. split_and!; try done; [|by rewrite Hts2, Ht].
  unfold discover_sstables_from_disk. rewrite Hnames. fold ts.
  rewrite (bind_Ok _ _ s1 [] s1) by done.
  rewrite (bind_Ok _ _ s1 cs s1); [done|]. unfold query. by rewrite Hd, Hcs.
Qed.

Lemma restart_refines s m :
  refines cf s m -> logged s -> short_log s -> names_in_age_order s ->
  exists s', reopen s = (Ok tt, s') /\ refines cf s' m.
Proof.
  intros (ess & Hok & Hm) (rs & fs & Ha) Hshort Hnames.
  set (s0 := core_of (closed_dir s) (sst_writes s) (ticks s)).
  assert (dd_default_wal (closed_dir s) = wal_file (log_of s)) as Hwal.
  { unfold closed_dir, log_of. cbn. rewrite <- cf_default. by destruct (wals s !! cf). }
  assert (dd_wals (closed_dir s) = []) as Hwals.
  { unfold closed_dir. cbn. rewrite filter_none; [done|]. intros [c w] Hin%elem_of_map_to_list Hc. cbn in Hc.
    rewrite (ah_others _ _ _ _ Ha c) in Hin by congruence. done. }
  destruct (open_wal_logged s rs fs s0 Ha Hshort) as (w & s1 & Hopen & [V D W T Rr Hml Hmr] & Hdata); [done|].
  destruct (tables_reopened s s1 ess Hok D) as (s2 & Hdisc & Hts & Em & Er & Ed & Et & Hb & Hq & Hk);
    [by rewrite V|done|].
  exists s2. split.
  { unfold reopen, new_generic. rewrite no_legacy_key, Hwal, Hwals, <- cf_default.
    fold s0. rewrite (bind_Ok _ _ _ _ _ Hopen). exact Hdisc. }
  apply (restored_refines s s2 m ess rs fs Hok Hm Ha).
  assert (mem_list cf s2 = mem_list cf s1) as Eml by (unfold mem_list; by rewrite Em).
  split; rewrite ?Ed, ?Et, ?Hb, ?Hq, ?V, ?Eml; try done.
  - by rewrite D.
  - by rewrite D.
  - by rewrite T.
  - unfold rts. by rewrite Er, Rr.
  - intros k. unfold mem_data. rewrite Eml. apply Hdata.
  - apply Hk. by rewrite V.
Qed.


End durability.
