(* ===== verification/Kv.v ===== *)
(** * Kv: what the layers above need of the store

    The notes and the models above the engine use four of its calls:
    [get_cf], [put_cf], [delete_cf] and [search_prefix].  [KvStore] is that
    interface, [KvLaws] its contract: a store stands for a finite map, reads
    answer as the map and cannot fail, and writes that succeed change the map.
    The layers are proved against the contract; the engine fulfils it by the
    lemmas of [EngineSpec], and so does a plain map. *)
From Stdlib Require Import ZArith Lia.
From stdpp Require Import base tactics numbers list gmap strings sorting pretty.
From S2P Require Import Prelude Bytes SortedMap LogRecord Iterators.
From S2P Require Import MemTable Extern Encryption SstReader Wal Table.
From S2P Require Import VersionSet Utf8 Engine EngineSpec.
Local Open Scope Z_scope.

(** ** The interface *)

Class KvStore (St : Type) := {
  kv_get : bytes -> St -> outcome (option bytes) * St;
  kv_put : bytes -> bytes -> St -> outcome unit * St;
  kv_delete : bytes -> St -> outcome unit * St;
  kv_search_prefix : bytes -> option bytes -> Z -> St -> outcome (list (bytes * bytes) * option bytes) * St;
}.

Class KvLaws (St : Type) `{!KvStore St} := {
  (** the store stands for the map *)
  models : St -> gmap bytes bytes -> Prop;
  (** the entries a store can hold, and the keys it can delete *)
  kv_writable : bytes -> bytes -> Prop;
  kv_removable : bytes -> Prop;
  kv_get_ok s m k : models s m -> exists s', kv_get k s = (Ok (m !! k), s') /\ models s' m;
  kv_put_ok s m k v s' :
    models s m -> kv_writable k v -> kv_put k v s = (Ok tt, s') -> models s' (<[k := v]> m);
  kv_delete_ok s m k s' :
    models s m -> kv_removable k -> kv_delete k s = (Ok tt, s') -> models s' (delete k m);
  kv_search_ok s m prefix limit :
    models s m -> is_Some (from_utf8 prefix) -> 0 <= limit <= usize_max - 2 ->
    exists cursor s',
      kv_search_prefix prefix None limit s =
      (Ok (take (Z.to_nat limit)
             (filter (fun e => starts_with e.1 prefix = true) (sorted_entries m)), cursor), s') /\
      models s' m;
}.

(** ** Programs over a store *)

Definition KvM (St A : Type) : Type := St -> outcome A * St.
#[global] Instance KvM_ret St : MRet (KvM St) := fun A a s => (Ok a, s).
#[global] Instance KvM_bind St : MBind (KvM St) := fun A B k m s =>
  match m s with
  | (Ok a, s) => k a s
  | (Err e, s) => (Err e, s)
  | (Panic, s) => (Panic, s)
  end.
Definition kv_lift {St A} (o : outcome A) : KvM St A := fun s => (o, s).
(** [let _ = m]: the result is dropped, an error as well. *)
Definition kv_ignore {St A} (m : KvM St A) : KvM St unit := fun s =>
  match m s with (Panic, s) => (Panic, s) | (_, s) => (Ok tt, s) end.

(** [for x in l { f(x)?; }]. *)
Fixpoint kv_for {St A} (l : list A) (f : A -> KvM St unit) : KvM St unit :=
  match l with
  | [] => mret tt
  | x :: l => f x;; kv_for l f
  end.

Section logic.
Context {St : Type} `{!KvStore St} `{!KvLaws St}.
Implicit Types (m : gmap bytes bytes) (k v : bytes).

(** The calls of the interface as programs. *)
Definition get (k : bytes) : KvM St (option bytes) := kv_get k.
Definition put (k v : bytes) : KvM St unit := kv_put k v.
Definition remove (k : bytes) : KvM St unit := kv_delete k.
Definition search (prefix : bytes) (cursor : option bytes) (limit : Z)
    : KvM St (list (bytes * bytes) * option bytes) := kv_search_prefix prefix cursor limit.

(** On a store that stands for [m], the program does not fail, answers [a] and
    leaves the map. *)
Definition reads {A : Type} (m : gmap bytes bytes) (c : KvM St A) (a : A) : Prop :=
  forall s, models s m -> exists s', c s = (Ok a, s') /\ models s' m.

(** On a store that stands for [m], when the program succeeds, the answer and
    the map it leaves satisfy [Q]. *)
Definition triple {A : Type} (m : gmap bytes bytes) (c : KvM St A) (Q : A -> gmap bytes bytes -> Prop) : Prop :=
  forall s a s', models s m -> c s = (Ok a, s') -> exists m', models s' m' /\ Q a m'.

Lemma reads_ret {A : Type} m (a : A) : reads m (mret a) a.
Proof. intros s Hs. by exists s. Qed.

Lemma reads_bind {A B : Type} m (c : KvM St A) (f : A -> KvM St B) a b :
  reads m c a -> reads m (f a) b -> reads m (c ≫= f) b.
Proof.
  intros Hc Hk s Hs. destruct (Hc s Hs) as (s1 & E1 & Hs1). destruct (Hk s1 Hs1) as (s2 & E2 & Hs2).
  exists s2. split; [|done]. cbv [mbind KvM_bind]. by rewrite E1.
Qed.

Lemma reads_get m k : reads m (get k) (m !! k).
Proof. intros s Hs. by apply kv_get_ok. Qed.

Lemma reads_lift {A : Type} m (a : A) : reads m (kv_lift (Ok a)) a.
Proof. intros s Hs. by exists s. Qed.

Lemma triple_reads {A : Type} m (c : KvM St A) a : reads m c a -> triple m c (fun b m' => b = a /\ m' = m).
Proof.
  intros Hc s b s' Hs E. destruct (Hc s Hs) as (s1 & E1 & Hs1). rewrite E1 in E. injection E as <- <-.
  by exists m.
Qed.

Lemma triple_ret {A : Type} m (a : A) (Q : A -> gmap bytes bytes -> Prop) : Q a m -> triple m (mret a) Q.
Proof. intros HQ s b s' Hs [= <- <-]. eauto. Qed.

Lemma triple_bind {A B : Type} m (c : KvM St A) (f : A -> KvM St B) Q R :
  triple m c Q -> (forall a m', Q a m' -> triple m' (f a) R) -> triple m (c ≫= f) R.
Proof.
  intros Hc Hk s b s' Hs E. cbv [mbind KvM_bind] in E. destruct (c s) as [[a|e|] s1] eqn:E1; [|done|done].
  destruct (Hc s a s1 Hs E1) as (m1 & Hs1 & HQ). by apply (Hk a m1 HQ s1).
Qed.

(** A read first: the rest starts from the same map with its answer. *)
Lemma triple_read_bind {A B : Type} m (c : KvM St A) (f : A -> KvM St B) a R :
  reads m c a -> triple m (f a) R -> triple m (c ≫= f) R.
Proof.
  intros Hc Hk. eapply triple_bind; [by apply triple_reads|]. by intros b m' [-> ->].
Qed.

Lemma triple_put m k v (Q : unit -> gmap bytes bytes -> Prop) :
  kv_writable k v -> Q tt (<[k := v]> m) -> triple m (put k v) Q.
Proof. intros Hw HQ s [] s' Hs E. exists (<[k := v]> m). split; [|done]. by eapply kv_put_ok. Qed.

Lemma triple_remove m k (Q : unit -> gmap bytes bytes -> Prop) :
  kv_removable k -> Q tt (delete k m) -> triple m (remove k) Q.
Proof. intros Hw HQ s [] s' Hs E. exists (delete k m). split; [|done]. by eapply kv_delete_ok. Qed.

Lemma triple_weaken {A : Type} m (c : KvM St A) (Q R : A -> gmap bytes bytes -> Prop) :
  triple m c Q -> (forall a m', Q a m' -> R a m') -> triple m c R.
Proof. intros Hc HQR s a s' Hs E. destruct (Hc s a s' Hs E) as (m' & ? & ?). eauto. Qed.

(** A loop keeps an invariant that may speak of the elements still to come. *)
Lemma triple_for {A : Type} (I : list A -> gmap bytes bytes -> Prop) l (f : A -> KvM St unit) m :
  I l m -> (forall x l m, I (x :: l) m -> triple m (f x) (fun _ => I l)) ->
  triple m (kv_for l f) (fun _ => I []).
Proof.
  intros HI Hf. revert m HI; induction l as [|x l IH]; intros m HI; cbn [kv_for].
  - by apply triple_ret.
  - eapply triple_bind; [by apply Hf|]. intros [] m' HI'. by apply IH.
Qed.

(** A search with room for all keys of the prefix gives all its entries. *)
Lemma kv_search_all m (prefix : bytes) (limit : Z) (X : gset bytes) (s : St) :
  models s m -> is_Some (from_utf8 prefix) ->
  (forall k, is_Some (m !! k) -> starts_with k prefix = true -> k ∈ X) ->
  Z.of_nat (size X) <= limit <= usize_max - 2 ->
  exists cursor s', search prefix None limit s =
    (Ok (filter (fun e => starts_with e.1 prefix = true) (sorted_entries m), cursor), s') /\ models s' m.
Proof.
  intros Hs Hp HX Hl. destruct (kv_search_ok s m prefix limit Hs Hp) as (cursor & s' & E & Hs'); [lia|].
  exists cursor, s'. split; [|done]. unfold search. rewrite E. do 3 f_equal. apply take_ge.
  set (es := filter _ _). rewrite <- (length_fmap fst).
  assert (NoDup es.*1) as Hnd.
  { eapply sublist_NoDup; [|apply (fmap_sublist fst), sublist_filter].
    rewrite sorted_entries_Permutation. apply NoDup_fst_map_to_list. }
  rewrite <- (size_list_to_set (C := gset bytes) _ Hnd). enough (size (list_to_set (C := gset bytes) es.*1) <= size X)%nat by lia.
  apply subseteq_size. intros k Hk. apply elem_of_list_to_set, list_elem_of_fmap in Hk as ([k' v] & -> & He).
  apply list_elem_of_filter in He as [He Hk%elem_of_sorted_entries]. apply HX; [by eexists|done].
Qed.

Lemma triple_search_bind {B : Type} m (prefix : bytes) (limit : Z) (X : gset bytes) (f : _ -> KvM St B) R :
  is_Some (from_utf8 prefix) ->
  (forall k, is_Some (m !! k) -> starts_with k prefix = true -> k ∈ X) -> Z.of_nat (size X) <= limit <= usize_max - 2 ->
  (forall cursor, triple m (f (filter (fun e => starts_with e.1 prefix = true) (sorted_entries m), cursor)) R) ->
  triple m (search prefix None limit ≫= f) R.
Proof.
  intros Hp HX Hl Hf s b s' Hs E. destruct (kv_search_all m prefix limit X s) as (cursor & s1 & E1 & Hs1); [done..|].
  cbv [mbind KvM_bind] in E. rewrite E1 in E. by apply (Hf cursor s1).
Qed.

Lemma reads_search_bind {B : Type} m (prefix : bytes) (limit : Z) (X : gset bytes) (f : _ -> KvM St B) b :
  is_Some (from_utf8 prefix) ->
  (forall k, is_Some (m !! k) -> starts_with k prefix = true -> k ∈ X) -> Z.of_nat (size X) <= limit <= usize_max - 2 ->
  (forall cursor, reads m (f (filter (fun e => starts_with e.1 prefix = true) (sorted_entries m), cursor)) b) ->
  reads m (search prefix None limit ≫= f) b.
Proof.
  intros Hp HX Hl Hf s Hs. destruct (kv_search_all m prefix limit X s) as (cursor & s1 & E1 & Hs1); [done..|].
  destruct (Hf cursor s1 Hs1) as (s2 & E2 & Hs2). exists s2. split; [|done].
  cbv [mbind KvM_bind]. by rewrite E1.
Qed.

End logic.

(** ** A map is a store *)

Section map_store.

#[global] Instance map_store : KvStore (gmap bytes bytes) := {|
  kv_get k m := (Ok (m !! k), m);
  kv_put k v m := (Ok tt, <[k := v]> m);
  kv_delete k m := (Ok tt, delete k m);
  kv_search_prefix prefix cursor limit m :=
    (Ok (take (Z.to_nat limit) (hits m prefix cursor),
         if limit <? len (hits m prefix cursor)
         then last (take (Z.to_nat limit) (hits m prefix cursor)) ≫= (fun e => from_utf8 e.1) else None), m);
|}.

Lemma hits_no_cursor m prefix :
  hits m prefix None = filter (fun e => starts_with e.1 prefix = true) (sorted_entries m).
Proof. apply filter_weaken. intros e _. by rewrite andb_true_r. Qed.

#[global] Program Instance map_laws : KvLaws (gmap bytes bytes) :=
  {| models := eq; kv_writable _ _ := True; kv_removable _ := True |}.
Next Obligation. intros s m k ->. by exists m. Qed.
Next Obligation. intros s m k v s' -> _ [= <-]. done. Qed.
Next Obligation. intros s m k s' -> _ [= <-]. done. Qed.
Next Obligation. intros s m prefix limit -> _ _. cbn. rewrite hits_no_cursor. eauto. Qed.

End map_store.

(** ** The engine is a store *)

Section engine_store.
Context `{!Crc32, !Aead, !Postcard LogRecord, !Postcard LogRecordV0, !Postcard LogRecordV1}.
Context `{!BloomCrate} `{!SstStore} `{!SstStoreLaws} `{!Moka bytes bytes} `{!SerdeJson} `{!EngineEnv}.
Context {R : Residency} (clock_mono : forall i, 0 <= clock i < clock (S i)).
Context (no_default_ttl : default_ttl options = None).

(** The engine used through its default column family. *)
#[global] Instance engine_store : KvStore EngineCore := {|
  kv_get := get_cf "default";
  kv_put := put_cf "default";
  kv_delete := delete_cf "default";
  kv_search_prefix := search_prefix;
|}.

Program Definition engine_laws : KvLaws EngineCore :=
  {| models := refines "default";
     kv_writable k v := user_key k = true /\ v <> [] /\ fits "default" k v;
     kv_removable k := user_key k = true /\ fits "default" k [] |}.
Next Obligation. intros s m k Hs. by apply get_refines. Qed.
Next Obligation.
  intros s m k v s' Hs (Hu & Hv & Hf) Hp.
  exact (put_refines clock_mono "default" no_default_ttl 1 s m k v s' Hs Hu Hv Hf (or_introl eq_refl) Hp).
Qed.
Next Obligation.
  intros s m k s' Hs (Hu & Hf) Hp.
  exact (delete_refines clock_mono "default" 1 s m k s' Hs Hu Hf Hp).
Qed.
Next Obligation.
  intros s m prefix limit Hs [p Hp] Hl.
  assert (Byte.xff ∉ prefix) as Hff.
  { unfold from_utf8 in Hp. destruct (utf8_loop _ _) eqn:E; [|done]. by eapply utf8_loop_no_ff. }
  destruct (search_prefix_refines clock_mono "default" s m prefix None limit) as (s' & E & Hs'); try done.
  rewrite hits_no_cursor in E. eauto.
Qed.

End engine_store.

(** ** Sets of keys *)

Lemma size_union_le (X Y : gset bytes) : (size (X ∪ Y) <= size X + size Y)%nat.
Proof. rewrite size_union_alt. apply Nat.add_le_mono_l, subseteq_size. set_solver. Qed.

Lemma size_set_map_le (f : bytes -> bytes) (X : gset bytes) : (size (set_map (D := gset bytes) f X) <= size X)%nat.
Proof.
  induction X as [|x X Hx IH] using set_ind_L; [by rewrite set_map_empty|].
  rewrite set_map_union_L, set_map_singleton_L. rewrite (size_union {[x]} X), size_singleton by set_solver.
  pose proof (size_union_le {[f x]} (set_map f X)) as Hu. rewrite size_singleton in Hu. lia.
Qed.

(** ** Numbers in keys *)

(** [format!("{}", n)]. *)
Definition decimal (n : N) : bytes := lit (pretty n).

Lemma lit_inj a b : lit a = lit b -> a = b.
Proof.
  intros E. apply (f_equal String.string_of_list_byte) in E.
  unfold lit in E. by rewrite !String.string_of_list_byte_of_string in E.
Qed.

#[global] Instance decimal_inj : Inj (=) (=) decimal.
Proof. intros a b E. by apply (inj pretty), lit_inj. Qed.

Lemma pretty_go_digits x s :
  Forall (fun b => 48 <= byte_to_Z b <= 57) (lit s) ->
  Forall (fun b => 48 <= byte_to_Z b <= 57) (lit (pretty_N_go x s)).
Proof.
  revert s. induction (N.lt_wf_0 x) as [x _ IH]; intros s Hs.
  assert (x = 0 \/ 0 < x)%N as [->|Hx] by lia; [by rewrite pretty_N_go_0|].
  rewrite pretty_N_go_step by done. apply IH; [by apply N.div_lt|].
  change (String (pretty_N_char (x `mod` 10)) s) with (String (pretty_N_char (x `mod` 10)) "" +:+ s).
  rewrite lit_app. apply Forall_app. split; [|done]. unfold pretty_N_char.
  repeat case_match; repeat constructor; by vm_compute.
Qed.

Lemma decimal_digits n : Forall (fun b => 48 <= byte_to_Z b <= 57) (decimal n).
Proof.
  unfold decimal, pretty, pretty_N. case_decide; [repeat constructor; by vm_compute|].
  apply pretty_go_digits. constructor.
Qed.

Definition colon : byte := Byte.x3a.

Lemma decimal_no_colon n : colon ∉ decimal n.
Proof.
  intros Hin. pose proof (decimal_digits n) as Hd. rewrite Forall_forall in Hd.
  destruct (Hd _ Hin) as [_ Hlt]. vm_compute in Hlt. by apply Hlt.
Qed.

(** The text before the last separator and the one after it. *)
Lemma app_last_sep {A : Type} (c : A) a1 a2 d1 d2 :
  c ∉ d1 -> c ∉ d2 -> a1 ++ c :: d1 = a2 ++ c :: d2 -> a1 = a2 /\ d1 = d2.
Proof.
  intros H1 H2. revert a2; induction a1 as [|x a1 IH]; intros [|y a2] E; cbn in E.
  - by injection E.
  - injection E as <- ->. destruct H1. set_solver.
  - injection E as -> <-. destruct H2. set_solver.
  - injection E as -> E. by destruct (IH a2 E) as [-> ->].
Qed.
