(* ===== verification/Blob.v ===== *)
(** * Blob: chunked storage of large values ([src/src/infra/blob_store.rs])

    A blob is a metadata entry with its size and number of chunks, and one entry
    per chunk.  The trait [BlobEngine] is the [KvStore] without searches; its
    errors are those of the store.  Storing, retrieving and deleting blobs by name
    is a map from names to contents, whatever chunks earlier blobs left behind. *)
From Stdlib Require Import ZArith Lia.
From stdpp Require Import base tactics numbers list gmap strings sorting pretty.
From S2P Require Import Prelude Bytes Engine Kv.
Local Open Scope Z_scope.

Definition BLOB_META_PREFIX : bytes := Eval vm_compute in lit "__blob_meta:".
Definition BLOB_CHUNK_PREFIX : bytes := Eval vm_compute in lit "__blob_chunk:".
Definition DEFAULT_MAX_CHUNK_SIZE : Z := 256 * 1024.

Record BlobMeta := mkBlobMeta {
  total_size : Z;
  chunk_count : Z;
}.

(** [serde_json::to_vec] and [from_slice] on the metadata. *)
Class BlobJson := {
  meta_to_json : BlobMeta -> bytes;
  meta_from_json : bytes -> option BlobMeta;
  meta_json_roundtrip meta :
    0 <= total_size meta <= u64_max -> 0 <= chunk_count meta <= u32_max ->
    meta_from_json (meta_to_json meta) = Some meta;
}.

Definition meta_key (name : bytes) : bytes := BLOB_META_PREFIX ++ name.
Definition chunk_key (name : bytes) (i : Z) : bytes :=
  BLOB_CHUNK_PREFIX ++ name ++ colon :: decimal (Z.to_N i).

(** [0..n]. *)
Definition range (n : Z) : list Z := Z.of_nat <$> seq 0 (Z.to_nat n).

Section blob.
Context {St : Type} `{!KvStore St} `{!BlobJson}.
(** [config.max_chunk_size]. *)
Context (max_chunk_size : Z).

(** [data.len().div_ceil(chunk_size)], which panics on a chunk size of zero. *)
Definition count_chunks (data : bytes) : outcome Z :=
  match data with
  | [] => Ok 1
  | _ => if max_chunk_size =? 0 then Panic
         else Ok (as_u32 ((len data + max_chunk_size - 1) / max_chunk_size))
  end.

Definition store_chunk (name data : bytes) (i : Z) : KvM St unit :=
  let start := i * max_chunk_size in
  let stop := Z.min (start + max_chunk_size) (len data) in
  chunk ← kv_lift (slice data start stop);
  put (chunk_key name i) chunk.

Definition store (name data : bytes) : KvM St Z :=
  count ← kv_lift (count_chunks data);
  kv_for (range count) (store_chunk name data);;
  put (meta_key name) (meta_to_json {| total_size := len data; chunk_count := count |});;
  mret count.

(** The loop of [retrieve]. *)
Fixpoint retrieve_chunks (name : bytes) (idxs : list Z) (result : bytes) : KvM St bytes :=
  match idxs with
  | [] => mret result
  | i :: idxs =>
      chunk ← get (chunk_key name i);
      retrieve_chunks name idxs (result ++ default [] chunk)
  end.

Definition retrieve (name : bytes) : KvM St (option bytes) :=
  meta_bytes ← get (meta_key name);
  match meta_bytes with
  | None => mret None
  | Some b =>
      meta ← kv_lift (ok_or (meta_from_json b) JsonError);
      result ← retrieve_chunks name (range (chunk_count meta)) [];
      mret (Some result)
  end.

Definition delete_blob (name : bytes) : KvM St unit :=
  meta_bytes ← get (meta_key name);
  match meta_bytes ≫= meta_from_json with
  | Some meta => kv_for (range (chunk_count meta)) (fun i => remove (chunk_key name i))
  | None => mret tt
  end;;
  remove (meta_key name).

(** ** Keys *)

Lemma meta_key_inj n n' : meta_key n = meta_key n' -> n = n'.
Proof. apply app_inv_head. Qed.

Lemma chunk_key_inj n i n' i' :
  0 <= i -> 0 <= i' -> chunk_key n i = chunk_key n' i' -> n = n' /\ i = i'.
Proof.
  intros Hi Hi' E. apply app_inv_head, app_last_sep in E as [-> E]; [|apply decimal_no_colon..].
  apply (inj decimal) in E. split; [done|]. lia.
Qed.

Lemma meta_chunk_ne n n' i : meta_key n <> chunk_key n' i.
Proof. by intros [=]. Qed.

Lemma elem_of_range i n : i ∈ range n <-> 0 <= i < n.
Proof.
  unfold range. rewrite list_elem_of_fmap. split.
  - intros (k & -> & Hk%elem_of_seq). lia.
  - intros Hi. exists (Z.to_nat i). rewrite elem_of_seq. lia.
Qed.

(** ** The chunks of a blob *)

Context `{!KvLaws St}.

(** The chunk entries [idxs] of [name], concatenated. *)
Definition gathered (m : gmap bytes bytes) (name : bytes) (idxs : list Z) : bytes :=
  concat ((fun i => default [] (m !! chunk_key name i)) <$> idxs).

Definition holds_blob (m : gmap bytes bytes) (name data : bytes) : Prop :=
  exists count, 0 <= count <= u32_max /\ len data <= u64_max /\
    m !! meta_key name = Some (meta_to_json {| total_size := len data; chunk_count := count |}) /\
    gathered m name (range count) = data.

(** The store holds the blobs. *)
Definition holds_blobs (m : gmap bytes bytes) (b : gmap bytes bytes) : Prop :=
  forall name, match b !! name with
               | Some data => holds_blob m name data
               | None => m !! meta_key name = None
               end.

Lemma retrieve_chunks_reads m name idxs result :
  reads m (retrieve_chunks name idxs result) (result ++ gathered m name idxs).
Proof.
  revert result; induction idxs as [|i idxs IH]; intros result; cbn [retrieve_chunks].
  - unfold gathered. cbn. rewrite app_nil_r. apply reads_ret.
  - eapply reads_bind; [apply reads_get|]. unfold gathered. cbn [fmap list_fmap concat].
    rewrite app_assoc. apply IH.
Qed.

Lemma retrieve_reads m b name : holds_blobs m b -> reads m (retrieve name) (b !! name).
Proof.
  intros Hb. specialize (Hb name). eapply reads_bind; [apply reads_get|].
  destruct (b !! name) as [data|].
  - destruct Hb as (count & Hc & Hl & -> & Hg). pose proof (len_nonneg data).
    rewrite meta_json_roundtrip by done. eapply reads_bind; [apply reads_lift|].
    eapply reads_bind; [apply retrieve_chunks_reads|]. cbn [chunk_count]. rewrite Hg. apply reads_ret.
  - rewrite Hb. apply reads_ret.
Qed.

(** Entries of another blob. *)
Lemma holds_blob_frame m m' name data :
  m' !! meta_key name = m !! meta_key name ->
  (forall i, 0 <= i -> m' !! chunk_key name i = m !! chunk_key name i) ->
  holds_blob m name data -> holds_blob m' name data.
Proof.
  intros Hm Hc (count & ? & ? & E & Hg). exists count. rewrite Hm. split_and!; [lia|lia|done|done|].
  rewrite <- Hg. unfold gathered. f_equal. apply list_fmap_ext. intros j i Hi.
  apply list_elem_of_lookup_2, elem_of_range in Hi. by rewrite Hc by lia.
Qed.

(** Only entries of the blob [name] differ. *)
Definition only_blob (name : bytes) (m m' : gmap bytes bytes) : Prop :=
  forall k, k <> meta_key name -> (forall i, 0 <= i -> k <> chunk_key name i) -> m' !! k = m !! k.

Lemma only_blob_others name m m' name' :
  only_blob name m m' -> name' <> name ->
  m' !! meta_key name' = m !! meta_key name' /\
  forall i, 0 <= i -> m' !! chunk_key name' i = m !! chunk_key name' i.
Proof.
  intros Ho Hne. split.
  - apply Ho; [by intros ?%meta_key_inj|]. intros i _. apply meta_chunk_ne.
  - intros i Hi. apply Ho; [by intros ?%eq_sym%meta_chunk_ne|].
    intros j Hj [? _]%chunk_key_inj; done.
Qed.

Lemma holds_blobs_update name m m' b b' :
  holds_blobs m b -> only_blob name m m' -> (forall n, n <> name -> b' !! n = b !! n) ->
  match b' !! name with Some d => holds_blob m' name d | None => m' !! meta_key name = None end ->
  holds_blobs m' b'.
Proof.
  intros Hb Ho Hother Hname n. destruct (decide (n = name)) as [->|Hne]; [done|].
  rewrite Hother by done. specialize (Hb n). destruct (only_blob_others _ _ _ n Ho Hne) as [Hm Hc].
  destruct (b !! n) as [d|]; [by eapply holds_blob_frame|by rewrite Hm].
Qed.

(** ** Storing and deleting *)

Definition chunk (data : bytes) (i : Z) : bytes :=
  take (Z.to_nat max_chunk_size) (drop (Z.to_nat (i * max_chunk_size)) data).

Lemma concat_chunks data (n : nat) :
  0 <= max_chunk_size ->
  concat (chunk data <$> (Z.of_nat <$> seq 0 n)) = take (n * Z.to_nat max_chunk_size) data.
Proof.
  intros Hs. induction n as [|n IH]; [done|].
  rewrite seq_S, !fmap_app, concat_app, IH. cbn [fmap list_fmap concat Nat.add]. rewrite app_nil_r.
  unfold chunk. replace (Z.to_nat (Z.of_nat n * max_chunk_size)) with (n * Z.to_nat max_chunk_size)%nat by lia.
  rewrite take_take_drop. f_equal. lia.
Qed.

(** What fits: chunks that can be written, and a number of them that fits its
    field. *)
Definition blob_ok (name data : bytes) : Prop :=
  0 < max_chunk_size /\ len data <= u64_max /\
  (len data + max_chunk_size - 1) / max_chunk_size <= u32_max /\
  forall count, count_chunks data = Ok count ->
    (forall i, 0 <= i < count -> kv_writable (chunk_key name i) (chunk data i)) /\
    kv_writable (meta_key name) (meta_to_json {| total_size := len data; chunk_count := count |}).

Lemma count_chunks_ok name data :
  blob_ok name data ->
  exists count, count_chunks data = Ok count /\ 1 <= count <= u32_max /\
    (count - 1) * max_chunk_size <= len data <= count * max_chunk_size.
Proof.
  intros (Hs & _ & Hc & _). unfold count_chunks. destruct data as [|x data].
  - exists 1. change (len []) with 0. unfold u32_max. split_and!; [done|lia..].
  - set (l := x :: data) in *. assert (1 <= len l) by (unfold l; rewrite len_cons; pose proof (len_nonneg data); lia).
    rewrite (proj2 (Z.eqb_neq _ _)) by lia.
    pose proof (Z.div_mod (len l + max_chunk_size - 1) max_chunk_size ltac:(lia)) as Hd.
    pose proof (Z.mod_pos_bound (len l + max_chunk_size - 1) max_chunk_size Hs).
    assert (1 <= (len l + max_chunk_size - 1) / max_chunk_size) by (apply Z.div_le_lower_bound; lia).
    eexists. split; [done|]. rewrite as_u32_small by lia. split; [lia|]. nia.
Qed.

Lemma store_chunk_ok m name data i count :
  blob_ok name data -> count_chunks data = Ok count -> 0 <= i < count -> (count - 1) * max_chunk_size <= len data ->
  triple m (store_chunk name data i) (fun _ m' => m' = <[chunk_key name i := chunk data i]> m).
Proof.
  intros (Hs & _ & _ & Hw) Hcount Hi Hlen. destruct (Hw count Hcount) as [Hwr _]. unfold store_chunk.
  assert (slice data (i * max_chunk_size) (Z.min (i * max_chunk_size + max_chunk_size) (len data))
          = Ok (chunk data i)) as ->.
  { unfold slice. rewrite !(proj2 (Z.leb_le _ _)) by nia. cbn [andb]. unfold chunk. f_equal.
    destruct (Z.le_gt_cases (i * max_chunk_size + max_chunk_size) (len data)).
    - rewrite Z.min_l by lia. f_equal. lia.
    - rewrite Z.min_r by lia. rewrite !take_ge; [done|..]; rewrite length_drop; unfold len in *; lia. }
  eapply triple_read_bind; [apply reads_lift|]. apply triple_put; [by apply Hwr|done].
Qed.

Lemma store_ok m name data :
  blob_ok name data ->
  triple m (store name data) (fun _ m' => only_blob name m m' /\ holds_blob m' name data).
Proof.
  intros Hok. destruct (count_chunks_ok name data Hok) as (count & E & Hc & Hlen). unfold store. rewrite E.
  eapply triple_read_bind; [apply reads_lift|]. eapply triple_bind.
  { apply (triple_for (fun rest m' =>
      (forall i, i ∈ rest -> 0 <= i < count) /\ only_blob name m m' /\
      (forall i, 0 <= i < count -> i ∈ rest \/ m' !! chunk_key name i = Some (chunk data i)))).
    - split_and!; [intros i; apply elem_of_range|done|]. intros i Hi. left. by apply elem_of_range.
    - intros i rest m1 (Hr & Ho & Hd). eapply triple_weaken.
      { eapply (store_chunk_ok _ _ _ _ count); [done|done|apply Hr; by left|lia]. }
      intros [] m2 ->. split_and!.
      + intros j Hj. apply Hr. by right.
      + intros k Hk Hk'. rewrite lookup_insert_ne; [by apply Ho|]. intros <-. apply (Hk' i); [|done].
        apply Hr. by left.
      + intros j Hj. destruct (decide (j = i)) as [->|Hne]; [right; apply lookup_insert_eq|].
        destruct (Hd j Hj) as [Hin|Hm]; [left; set_solver|right].
        rewrite lookup_insert_ne; [done|]. intros [_ ?]%chunk_key_inj; [done|apply Hr; by left|lia]. }
  intros [] m1 (_ & Ho & Hd). destruct Hok as (Hs & Hl & _ & Hw). destruct (Hw count E) as [_ Hmeta].
  eapply (triple_bind _ _ _ (fun _ m' => m' = _)); [by apply triple_put|]. intros [] m2 ->. apply triple_ret.
  split.
  - intros k Hk Hk'. rewrite lookup_insert_ne by done. by apply Ho.
  - exists count. split_and!; [lia|lia|done|apply lookup_insert_eq|]. unfold gathered.
    rewrite (list_fmap_ext _ (chunk data)).
    + unfold range. rewrite concat_chunks by lia. apply take_ge. unfold len in Hlen. nia.
    + intros j i Hi. apply list_elem_of_lookup_2, elem_of_range in Hi.
      rewrite lookup_insert_ne by apply meta_chunk_ne.
      destruct (Hd i Hi) as [[]%elem_of_nil| ->]. done.
Qed.

Lemma delete_blob_ok m b name :
  holds_blobs m b -> (forall i, 0 <= i < u32_max -> kv_removable (chunk_key name i)) ->
  kv_removable (meta_key name) ->
  triple m (delete_blob name) (fun _ m' => only_blob name m m' /\ m' !! meta_key name = None).
Proof.
  intros Hb Hc Hm. unfold delete_blob. eapply triple_read_bind; [apply reads_get|].
  eapply (triple_bind _ _ _ (fun _ => only_blob name m)).
  - destruct (m !! meta_key name ≫= meta_from_json) as [meta|] eqn:E; [|by apply triple_ret].
    assert (chunk_count meta <= u32_max) as Hcount.
    { specialize (Hb name). destruct (b !! name) as [data|]; [|by rewrite Hb in E].
      destruct Hb as (count & Hcount & Hl & Hmeta & _). rewrite Hmeta in E. cbn in E.
      rewrite meta_json_roundtrip in E by (try done; pose proof (len_nonneg data); cbn; lia).
      injection E as <-. cbn. lia. }
    eapply triple_weaken; [apply (triple_for (fun rest m' =>
      (forall i, i ∈ rest -> 0 <= i < u32_max) /\ only_blob name m m'))|].
    + split; [|done]. intros i Hi%elem_of_range. lia.
    + intros i rest m1 [Hr Ho]. apply triple_remove; [apply Hc, Hr; by left|]. split; [set_solver|].
      intros k Hk Hk'. rewrite lookup_delete_ne; [by apply Ho|]. intros <-. apply (Hk' i); [|done].
      apply Hr. by left.
    + by intros [] m' [_ ?].
  - intros [] m1 Ho. apply triple_remove; [done|]. split.
    + intros k Hk Hk'. rewrite lookup_delete_ne by done. by apply Ho.
    + apply lookup_delete_eq.
Qed.

(** ** Histories *)

Inductive blob_op : Type :=
| StoreBlob (name data : bytes)
| DeleteBlob (name : bytes).

Definition run_blob_op (o : blob_op) : KvM St unit :=
  match o with
  | StoreBlob name data => store name data;; mret tt
  | DeleteBlob name => delete_blob name
  end.

Definition spec_blob_op (b : gmap bytes bytes) (o : blob_op) : gmap bytes bytes :=
  match o with
  | StoreBlob name data => <[name := data]> b
  | DeleteBlob name => delete name b
  end.

Definition blob_op_ok (o : blob_op) : Prop :=
  match o with
  | StoreBlob name data => blob_ok name data
  | DeleteBlob name => (forall i, 0 <= i < u32_max -> kv_removable (chunk_key name i)) /\
                       kv_removable (meta_key name)
  end.

Lemma run_blob_op_ok m b o :
  holds_blobs m b -> blob_op_ok o ->
  triple m (run_blob_op o) (fun _ m' => holds_blobs m' (spec_blob_op b o)).
Proof.
  intros Hb. destruct o as [name data|name]; cbn [blob_op_ok run_blob_op spec_blob_op].
  - intros Hok. eapply triple_bind; [by apply store_ok|]. intros count m' [Ho Hh]. apply triple_ret.
    eapply holds_blobs_update; [done|done| |by rewrite lookup_insert_eq].
    intros n Hn. by apply lookup_insert_ne.
  - intros [Hc Hm]. eapply triple_weaken; [by eapply delete_blob_ok|]. intros [] m' [Ho Hh].
    eapply holds_blobs_update; [done|done| |by rewrite lookup_delete_eq].
    intros n Hn. by apply lookup_delete_ne.
Qed.

Lemma run_blob_ops_ok m b os :
  holds_blobs m b -> Forall blob_op_ok os ->
  triple m (kv_for os run_blob_op) (fun _ m' => holds_blobs m' (foldl spec_blob_op b os)).
Proof.
  intros Hb Hok. revert m b Hb. induction Hok as [|o os Ho Hok IH]; intros m b Hb; cbn [kv_for foldl].
  { by apply triple_ret. }
  eapply triple_bind; [by apply run_blob_op_ok|]. intros [] m1 Hb1. by apply IH.
Qed.

(** C27: a blob store is a map from names to contents.  After any history of
    stores and deletions in which every call succeeded, [retrieve] cannot fail
    and gives, for every name, the content last stored under it, byte for byte,
    or nothing after a deletion: whatever the sizes, and whatever chunks an
    earlier, longer blob of the name has left behind. *)
Theorem blob_store_refines_map m os s s' name :
  models s m -> (forall n, m !! meta_key n = None) ->
  Forall blob_op_ok os -> kv_for os run_blob_op s = (Ok tt, s') ->
  (retrieve name s').1 = Ok (foldl spec_blob_op ∅ os !! name).
Proof.
  intros Hs Hm Hok Hrun.
  assert (holds_blobs m ∅) as Hb0 by (intros n; by rewrite lookup_empty).
  destruct (run_blob_ops_ok m ∅ os Hb0 Hok s tt s' Hs Hrun) as (m' & Hs' & Hb).
  by destruct (retrieve_reads m' _ name Hb s' Hs') as (s2 & -> & _).
Qed.

End blob.
