(* ===== verification/Postings.v ===== *)
(** * Postings: lists of notes under keys

    The index of links and the index of tags keep, under a prefix and a term, the
    JSON list of the notes the term leads to.  Adding a note to lists and taking it
    out, for any prefix, terms and notes whose entries fit in the store. *)
From Stdlib Require Import ZArith Lia.
From stdpp Require Import base tactics numbers list gmap strings sorting.
From S2P Require Import Prelude Bytes SortedMap Utf8 Engine Kv.
Local Open Scope Z_scope.

(** [serde_json::to_string] and [from_str] on lists of texts: what was written is
    read back, also through the lossy conversion the code applies first. *)
Class JsonStrings := {
  to_json : list bytes -> bytes;
  from_json : bytes -> option (list bytes);
  json_roundtrip l :
    Forall (fun x => is_Some (from_utf8 x)) l -> from_json (from_utf8_lossy (to_json l)) = Some l;
}.

Section postings.
Context {St : Type} `{!KvStore St} `{!JsonStrings}.
Implicit Types (m : gmap bytes bytes) (p t x : bytes) (l : list bytes).
(** Where the lists are kept. *)
Context (prefix : bytes).

(** The list an entry holds, an error when it is not one. *)
Definition parse_list (v : option bytes) : outcome (list bytes) :=
  match v with
  | Some bytes => ok_or (from_json (from_utf8_lossy bytes)) InvalidArgument
  | None => Ok []
  end.
(** The same with [unwrap_or_default]. *)
Definition parse_or_default (bytes : bytes) : list Bytes.bytes :=
  default [] (from_json (from_utf8_lossy bytes)).

Definition add_to_list (target source : bytes) : KvM St unit :=
  v ← get (prefix ++ target);
  let sources := match v with Some bytes => parse_or_default bytes | None => [] end in
  if decide (source ∈ sources) then mret tt
  else put (prefix ++ target) (to_json (sources ++ [source])).

(** What is left of a list is written back, an empty list as a deletion. *)
Definition store_list (key : bytes) (l : list bytes) : KvM St unit :=
  match l with
  | [] => remove key
  | _ => put key (to_json l)
  end.

Definition remove_from_list (target source : bytes) : KvM St unit :=
  v ← get (prefix ++ target);
  match v with
  | None => mret tt
  | Some bytes => store_list (prefix ++ target) (filter (fun s => s <> source) (parse_or_default bytes))
  end.

(** ** What a list holds *)

(** The terms and notes in play: the notes are text, and all lists of distinct
    ones fit in an entry of the store. *)
Context `{!KvLaws St} (term note : bytes -> Prop).
Hypothesis note_text : forall x, note x -> is_Some (from_utf8 x).
Hypothesis lists_fit : forall t l, term t -> NoDup l -> Forall note l ->
  kv_writable (prefix ++ t) (to_json l) /\ kv_removable (prefix ++ t).

(** The notes of a term. *)
Definition listed_at (v : option bytes) : list bytes :=
  match v with Some bytes => parse_or_default bytes | None => [] end.
Definition listed m t : list bytes := listed_at (m !! (prefix ++ t)).

Definition list_ok m t : Prop :=
  m !! (prefix ++ t) = None \/
  exists l, m !! (prefix ++ t) = Some (to_json l) /\ l <> [] /\ NoDup l /\ Forall note l.

Lemma notes_text l : Forall note l -> Forall (fun x => is_Some (from_utf8 x)) l.
Proof. intros Hl. eapply Forall_impl; [exact Hl|exact note_text]. Qed.

Lemma parse_json l : Forall note l -> parse_or_default (to_json l) = l.
Proof. intros Hl. unfold parse_or_default. by rewrite json_roundtrip by (by apply notes_text). Qed.

Lemma parse_list_json l : Forall note l -> parse_list (Some (to_json l)) = Ok l.
Proof. intros Hl. cbn. by rewrite json_roundtrip by (by apply notes_text). Qed.

Lemma starts_with_app_l a b : starts_with (a ++ b) a = true.
Proof. apply starts_with_spec. eauto. Qed.

Lemma listed_frame m k v t : starts_with k prefix = false -> listed (<[k := v]> m) t = listed m t.
Proof.
  intros Hk. unfold listed. rewrite lookup_insert_ne; [done|]. intros ->. by rewrite starts_with_app_l in Hk.
Qed.
Lemma listed_frame_delete m k t : starts_with k prefix = false -> listed (delete k m) t = listed m t.
Proof.
  intros Hk. unfold listed. rewrite lookup_delete_ne; [done|]. intros ->. by rewrite starts_with_app_l in Hk.
Qed.
Lemma list_ok_frame m m' t :
  m' !! (prefix ++ t) = m !! (prefix ++ t) -> list_ok m t -> list_ok m' t.
Proof. unfold list_ok. by intros ->. Qed.

(** An entry in terms of the list it holds. *)
Lemma list_ok_listed m t :
  list_ok m t -> NoDup (listed m t) /\ Forall note (listed m t) /\
    parse_list (m !! (prefix ++ t)) = Ok (listed m t).
Proof.
  unfold listed. intros [->|(l & -> & _ & Hnd & Hl)]; cbn [listed_at].
  - split_and!; [constructor..|done].
  - rewrite parse_json by done. split_and!; [done..|by apply parse_list_json].
Qed.

Lemma listed_insert m t l t' :
  Forall note l -> listed (<[prefix ++ t := to_json l]> m) t' = if decide (t' = t) then l else listed m t'.
Proof.
  intros Hl. unfold listed. destruct (decide (t' = t)) as [->|Hne].
  - rewrite lookup_insert_eq. cbn. by apply parse_json.
  - rewrite lookup_insert_ne; [done|]. by intros ?%app_inv_head.
Qed.

Lemma listed_delete m t t' :
  listed (delete (prefix ++ t) m) t' = if decide (t' = t) then [] else listed m t'.
Proof.
  unfold listed. destruct (decide (t' = t)) as [->|Hne].
  - by rewrite lookup_delete_eq.
  - rewrite lookup_delete_ne; [done|]. by intros ?%app_inv_head.
Qed.

Lemma list_ok_insert m t l t' :
  l <> [] -> NoDup l -> Forall note l -> list_ok m t' -> list_ok (<[prefix ++ t := to_json l]> m) t'.
Proof.
  intros. unfold list_ok. destruct (decide (t' = t)) as [->|Hne].
  - rewrite lookup_insert_eq. right. by exists l.
  - rewrite lookup_insert_ne; [done|]. by intros ?%app_inv_head.
Qed.

Lemma list_ok_delete m t t' : list_ok m t' -> list_ok (delete (prefix ++ t) m) t'.
Proof.
  intros. unfold list_ok. destruct (decide (t' = t)) as [->|Hne].
  - rewrite lookup_delete_eq. by left.
  - rewrite lookup_delete_ne; [done|]. by intros ?%app_inv_head.
Qed.

(** The change of one link entry: [edit m t m' P] when [m'] differs from [m] only
    there, and its sources are now those with [P]. *)
Record edit m t m' (P : bytes -> Prop) : Prop := {
  ed_links t' : list_ok m' t';
  ed_other k : k <> prefix ++ t -> m' !! k = m !! k;
  ed_listed x : x ∈ listed m' t <-> P x;
}.

Lemma edit_other m t m' P t' : edit m t m' P -> t' <> t -> listed m' t' = listed m t'.
Proof. intros He Hne. unfold listed. rewrite (ed_other _ _ _ _ He); [done|]. by intros ?%app_inv_head. Qed.

Lemma edit_insert m t l :
  (forall t, list_ok m t) -> l <> [] -> NoDup l -> Forall note l ->
  edit m t (<[prefix ++ t := to_json l]> m) (fun x => x ∈ l).
Proof.
  intros Hok Hne Hnd Hl. constructor.
  - intros t'. by apply list_ok_insert.
  - intros k Hk. by apply lookup_insert_ne.
  - intros x. rewrite listed_insert, decide_True by done. done.
Qed.

Lemma add_to_list_ok m t x :
  (forall t, list_ok m t) -> term t -> note x ->
  triple m (add_to_list t x) (fun _ m' => edit m t m' (fun y => y ∈ listed m t \/ y = x)).
Proof.
  intros Hok Ht Hx. destruct (list_ok_listed m t (Hok t)) as (Hnd & Hl & _).
  eapply triple_read_bind; [apply reads_get|]. cbv zeta. fold (listed_at (m !! (prefix ++ t))).
  fold (listed m t). destruct (decide (x ∈ listed m t)) as [Hin|Hno].
  - apply triple_ret. constructor; [done|done|]. intros y. split; [by left|intros [Hy| ->]; done].
  - assert (NoDup (listed m t ++ [x]) /\ Forall note (listed m t ++ [x])) as [Hnd' Hl'].
    { split; [|apply Forall_app; split; [done|by constructor]].
      apply NoDup_app. split_and!; [done|set_solver|apply NoDup_singleton]. }
    apply triple_put; [by apply lists_fit|].
    destruct (edit_insert m t (listed m t ++ [x]) Hok) as [H1 H2 H3]; [by destruct (listed m t)|done..|].
    constructor; [done|done|]. intros y. rewrite H3. set_solver.
Qed.

Lemma store_list_ok m t l :
  (forall t, list_ok m t) -> term t -> NoDup l -> Forall note l ->
  triple m (store_list (prefix ++ t) l) (fun _ m' => edit m t m' (fun y => y ∈ l)).
Proof.
  intros Hok Ht Hnd Hl. unfold store_list. destruct l as [|x l].
  - apply triple_remove; [by apply (lists_fit t [])|]. constructor.
    + intros t'. by apply list_ok_delete.
    + intros k Hk. by apply lookup_delete_ne.
    + intros y. by rewrite listed_delete, decide_True.
  - apply triple_put; [by apply lists_fit|]. by apply edit_insert.
Qed.

(** A list without one of its notes. *)
Lemma store_without_ok m t x :
  (forall t, list_ok m t) -> term t ->
  triple m (store_list (prefix ++ t) (filter (fun s => s <> x) (listed m t)))
    (fun _ m' => edit m t m' (fun y => y ∈ listed m t /\ y <> x)).
Proof.
  intros Hok Ht. destruct (list_ok_listed m t (Hok t)) as (Hnd & Hl & _).
  eapply triple_weaken; [apply store_list_ok; [done|done|by apply NoDup_filter|]|].
  - rewrite Forall_forall in Hl |- *. intros y [_ Hy]%list_elem_of_filter. auto.
  - intros [] m' [H1 H2 H3]. constructor; [done|done|]. intros y. rewrite H3, list_elem_of_filter. tauto.
Qed.

Lemma remove_from_list_ok m t x :
  (forall t, list_ok m t) -> term t ->
  triple m (remove_from_list t x) (fun _ m' => edit m t m' (fun y => y ∈ listed m t /\ y <> x)).
Proof.
  intros Hok Ht. eapply triple_read_bind; [apply reads_get|].
  destruct (m !! (prefix ++ t)) as [v|] eqn:E.
  - assert (parse_or_default v = listed m t) as -> by (unfold listed; by rewrite E).
    by apply store_without_ok.
  - apply triple_ret. constructor; [done|done|]. intros y. unfold listed. rewrite E. set_solver.
Qed.

(** Removing a note from the entries of a list of targets. *)
Lemma remove_lists_ok m x l :
  (forall t, list_ok m t) -> Forall term l ->
  triple m (kv_for l (fun t => remove_from_list t x)) (fun _ m' =>
    (forall t, list_ok m' t) /\
    (forall k, starts_with k prefix = false -> m' !! k = m !! k) /\
    (forall t y, y ∈ listed m' t <-> y ∈ listed m t /\ ~ (y = x /\ t ∈ l))).
Proof.
  intros Hok Hl.
  eapply triple_weaken; [apply (triple_for (fun rest m' =>
    Forall term rest /\ rest ⊆ l /\ (forall t, list_ok m' t) /\
    (forall k, starts_with k prefix = false -> m' !! k = m !! k) /\
    (forall t y, y ∈ listed m' t -> y ∈ listed m t /\ (y = x -> t ∈ l -> t ∈ rest)) /\
    (forall t y, y ∈ listed m t -> ~ (y = x /\ t ∈ l) -> y ∈ listed m' t)))|].
  - by split_and!.
  - intros t rest m1 ([Ht Hrest]%Forall_cons & Hsub & Hok1 & Hout & Hd & Hu).
    eapply triple_weaken; [by apply remove_from_list_ok|]. intros [] m2 He.
    split_and!; [done|set_solver|apply He| | |].
    + intros k Hk. rewrite (ed_other _ _ _ _ He); [by apply Hout|]. intros ->.
      by rewrite (proj2 (starts_with_spec _ _) (ex_intro _ t eq_refl)) in Hk.
    + intros t' y Hy. destruct (decide (t' = t)) as [->|Hne].
      * apply (ed_listed _ _ _ _ He) in Hy as [Hy Hyx]. split; [by apply Hd|]. by intros ->.
      * rewrite (edit_other _ _ _ _ _ He Hne) in Hy. destruct (Hd t' y Hy) as [? Hr].
        split; [done|]. intros ? ?. destruct (proj1 (elem_of_cons _ _ _) (Hr ltac:(done) ltac:(done))); done.
    + intros t' y Hy Hno. specialize (Hu t' y Hy Hno). destruct (decide (t' = t)) as [->|Hne].
      * apply (ed_listed _ _ _ _ He). split; [done|]. intros ->. apply Hno. split; [done|set_solver].
      * by rewrite (edit_other _ _ _ _ _ He Hne).
  - intros [] m' (_ & _ & Hok' & Hout & Hd & Hu). split_and!; [done|done|]. intros t y. split.
    + intros Hy. destruct (Hd t y Hy) as [Hy' Hr]. split; [done|]. intros [-> Hin].
      by apply not_elem_of_nil in Hr.
    + intros [Hy Hno]. by apply Hu.
Qed.

(** Adding a note to the entries of a list of targets. *)
Lemma add_lists_ok m x l :
  (forall t, list_ok m t) -> note x -> Forall term l ->
  triple m (kv_for l (fun t => add_to_list t x)) (fun _ m' =>
    (forall t, list_ok m' t) /\
    (forall k, starts_with k prefix = false -> m' !! k = m !! k) /\
    (forall t y, y ∈ listed m' t <-> y ∈ listed m t \/ (y = x /\ t ∈ l))).
Proof.
  intros Hok Hx Hl.
  eapply triple_weaken; [apply (triple_for (fun rest m' =>
    Forall term rest /\ rest ⊆ l /\ (forall t, list_ok m' t) /\
    (forall k, starts_with k prefix = false -> m' !! k = m !! k) /\
    (forall t y, y ∈ listed m' t -> y ∈ listed m t \/ (y = x /\ t ∈ l)) /\
    (forall t y, y ∈ listed m t -> y ∈ listed m' t) /\
    (forall t, t ∈ l -> t ∈ rest \/ x ∈ listed m' t)))|].
  - split_and!; try done; [set_solver..|]. intros t Ht. by left.
  - intros t rest m1 ([Ht Hrest]%Forall_cons & Hsub & Hok1 & Hout & Hd & Hu & Hc).
    eapply triple_weaken; [by apply add_to_list_ok|]. intros [] m2 He.
    split_and!; [done|set_solver|apply He| | | |].
    + intros k Hk. rewrite (ed_other _ _ _ _ He); [by apply Hout|]. intros ->.
      by rewrite (proj2 (starts_with_spec _ _) (ex_intro _ t eq_refl)) in Hk.
    + intros t' y Hy. destruct (decide (t' = t)) as [->|Hne].
      * apply (ed_listed _ _ _ _ He) in Hy as [Hy| ->]; [by apply Hd|]. right. set_solver.
      * rewrite (edit_other _ _ _ _ _ He Hne) in Hy. by apply Hd.
    + intros t' y Hy. apply Hu in Hy. destruct (decide (t' = t)) as [->|Hne].
      * apply (ed_listed _ _ _ _ He). by left.
      * by rewrite (edit_other _ _ _ _ _ He Hne).
    + intros t' Ht'. destruct (decide (t' = t)) as [->|Hne].
      * right. apply (ed_listed _ _ _ _ He). by right.
      * rewrite (edit_other _ _ _ _ _ He Hne). destruct (Hc t' Ht') as [Hr|]; [|by right]. set_solver.
  - intros [] m' (_ & _ & Hok' & Hout & Hd & Hu & Hc). split_and!; [done|done|]. intros t y. split.
    + apply Hd.
    + intros [Hy|[-> Ht]]; [by apply Hu|]. destruct (Hc t Ht) as [Hn|]; [|done].
      by apply not_elem_of_nil in Hn.
Qed.

End postings.
