(* ===== verification/NoteIndex.v ===== *)
(** * NoteIndex: the link index of the notes ([src/src/notes/index.rs])

    Under [backlink:p] the index keeps the targets of the links of note [p], under
    [link:t] the notes that link to [t]; both are JSON lists of paths.  The
    programs run over any [KvStore].  The theorem is that the two indexes stay
    inverse to each other through any history of updates and deletions. *)
From Stdlib Require Import ZArith Lia.
From stdpp Require Import base tactics numbers list gmap strings sorting.
From S2P Require Import Prelude Bytes SortedMap Utf8 Engine Kv Postings.
Local Open Scope Z_scope.

Definition LINK_PREFIX : bytes := Eval vm_compute in lit "link:".
Definition BACKLINK_PREFIX : bytes := Eval vm_compute in lit "backlink:".

Record LinkDiff := mkLinkDiff {
  added : list bytes;
  removed : list bytes;
}.

(** The notes that link to a note. *)
Notation sources := (listed LINK_PREFIX).

Section index.
Context {St : Type} `{!KvStore St} `{!JsonStrings}.
Implicit Types (m : gmap bytes bytes) (p t x : bytes) (l : list bytes).

Definition get_backlinks (note_path : bytes) : KvM St (list bytes) :=
  v ← get (LINK_PREFIX ++ note_path); kv_lift (parse_list v).

Definition get_forward_links (note_path : bytes) : KvM St (list bytes) :=
  v ← get (BACKLINK_PREFIX ++ note_path); kv_lift (parse_list v).

Definition add_to_link_index : bytes -> bytes -> KvM St unit := add_to_list LINK_PREFIX.
Definition remove_from_link_index : bytes -> bytes -> KvM St unit := remove_from_list LINK_PREFIX.

Definition compute_link_diff (old new : list bytes) : LinkDiff :=
  {| added := filter (fun t => t ∉ old) new; removed := filter (fun t => t ∉ new) old |}.

Definition index_links (note_path : bytes) (new_targets : list bytes) : KvM St LinkDiff :=
  current_targets ← get_forward_links note_path;
  let diff := compute_link_diff current_targets new_targets in
  kv_for (removed diff) (fun target => remove_from_link_index target note_path);;
  kv_for (added diff) (fun target => add_to_link_index target note_path);;
  put (BACKLINK_PREFIX ++ note_path) (to_json new_targets);;
  mret diff.

Definition remove_note_links (note_path : bytes) : KvM St unit :=
  targets ← get_forward_links note_path;
  kv_for targets (fun target => remove_from_link_index target note_path);;
  remove (BACKLINK_PREFIX ++ note_path).

Definition rename_note (old_path new_path : bytes) (new_content : list bytes) : KvM St unit :=
  backlinks ← get_backlinks old_path;
  remove_note_links old_path;;
  kv_for backlinks (fun source =>
    remove_from_link_index old_path source;;
    add_to_link_index new_path source);;
  kv_ignore (remove (BACKLINK_PREFIX ++ new_path));;
  index_links new_path new_content;;
  mret tt.

(** ** The invariant *)

(** The notes in play: their paths are text, and all lists of distinct ones fit
    in an entry of the store. *)
Context `{!KvLaws St} (note : bytes -> Prop).
Hypothesis note_text : forall x, note x -> is_Some (from_utf8 x).
Hypothesis links_fit : forall t l, note t -> NoDup l -> Forall note l ->
  kv_writable (LINK_PREFIX ++ t) (to_json l) /\ kv_removable (LINK_PREFIX ++ t).

Local Notation link_ok := (list_ok LINK_PREFIX note).

(** Nothing outside the index differs. *)
Definition same_outside m m' : Prop :=
  forall k, starts_with k LINK_PREFIX = false -> starts_with k BACKLINK_PREFIX = false -> m' !! k = m !! k.

(** The index stands for the links [g] of the notes. *)
Record indexed m (g : gmap bytes (list bytes)) : Prop := {
  ix_forward p : m !! (BACKLINK_PREFIX ++ p) = to_json <$> g !! p;
  ix_links t : link_ok m t;
  ix_inverse t x : x ∈ sources m t <-> exists ts, g !! x = Some ts /\ t ∈ ts;
  ix_notes p ts : g !! p = Some ts -> note p /\ Forall note ts;
}.

Lemma link_backlink_ne t p : LINK_PREFIX ++ t <> BACKLINK_PREFIX ++ p.
Proof. by intros [=]. Qed.

(** ** The programs on an index *)

Lemma reads_forward m g p :
  indexed m g -> reads m (get_forward_links p) (default [] (g !! p)).
Proof.
  intros Hi. eapply reads_bind; [apply reads_get|]. rewrite (ix_forward _ _ Hi).
  destruct (g !! p) as [ts|] eqn:E; cbn [fmap option_fmap option_map default]; [|apply reads_lift].
  destruct (ix_notes _ _ Hi p ts E) as [_ Hts]. rewrite (parse_list_json note note_text) by done. apply reads_lift.
Qed.

Lemma reads_backlinks m g t : indexed m g -> reads m (get_backlinks t) (sources m t).
Proof.
  intros Hi. eapply reads_bind; [apply reads_get|].
  destruct (list_ok_listed LINK_PREFIX note note_text m t (ix_links _ _ Hi t)) as (_ & _ & ->). apply reads_lift.
Qed.

Lemma backlink_not_link p : starts_with (BACKLINK_PREFIX ++ p) LINK_PREFIX = false.
Proof. done. Qed.

(** [index_links] replaces the links of a note. *)
Lemma index_links_ok m g p new :
  indexed m g -> note p -> Forall note new -> kv_writable (BACKLINK_PREFIX ++ p) (to_json new) ->
  triple m (index_links p new) (fun d m' =>
    d = compute_link_diff (default [] (g !! p)) new /\
    indexed m' (<[p := new]> g) /\ same_outside m m').
Proof.
  intros Hi Hp Hnew Hfit. unfold index_links. set (old := default [] (g !! p)).
  eapply triple_read_bind; [by apply reads_forward|]. fold old.
  assert (Forall note old) as Hold.
  { unfold old. destruct (g !! p) as [ts|] eqn:E; [|constructor]. by destruct (ix_notes _ _ Hi p ts E). }
  assert (forall y, y ∈ old <-> exists ts, g !! p = Some ts /\ y ∈ ts) as Hmem.
  { intros y. unfold old. destruct (g !! p) as [ts|]; cbn; [naive_solver|set_solver]. }
  cbn [removed added compute_link_diff]. eapply triple_bind.
  { apply (remove_lists_ok LINK_PREFIX note note note_text links_fit); [apply Hi|]. rewrite Forall_forall in Hold |- *.
    intros y [_ Hy]%list_elem_of_filter. auto. }
  intros [] m1 (Hok1 & Hout1 & Hs1). eapply triple_bind.
  { apply (add_lists_ok LINK_PREFIX note note note_text links_fit); [done|done|]. rewrite Forall_forall in Hnew |- *.
    intros y [_ Hy]%list_elem_of_filter. auto. }
  intros [] m2 (Hok2 & Hout2 & Hs2). eapply (triple_bind _ _ _ (fun _ m' => m' = _)); [by apply triple_put|].
  intros [] m3 ->. apply triple_ret. split; [done|]. split.
  - constructor.
    + intros q. destruct (decide (q = p)) as [->|Hne].
      * by rewrite !lookup_insert_eq.
      * rewrite !lookup_insert_ne by (try done; by intros ?%app_inv_head).
        rewrite Hout2, Hout1 by apply backlink_not_link. apply Hi.
    + intros t. apply (list_ok_frame LINK_PREFIX note m2); [|apply Hok2]. apply lookup_insert_ne. symmetry. apply link_backlink_ne.
    + intros t y. rewrite listed_frame, Hs2, Hs1, !list_elem_of_filter, (ix_inverse _ _ Hi) by done.
      destruct (decide (y = p)) as [->|Hne].
      * rewrite <- Hmem. rewrite lookup_insert_eq. destruct (decide (t ∈ new)), (decide (t ∈ old)); naive_solver.
      * rewrite lookup_insert_ne by done. naive_solver.
    + intros q ts. destruct (decide (q = p)) as [->|Hne].
      * rewrite lookup_insert_eq. by intros [= <-].
      * rewrite lookup_insert_ne by done. apply Hi.
  - intros k Hk Hk'. rewrite lookup_insert_ne; [by rewrite Hout2, Hout1|].
    intros <-. by rewrite starts_with_app_l in Hk'.
Qed.

(** [remove_note_links] forgets the links of a note. *)
Lemma remove_note_links_ok m g p :
  indexed m g -> kv_removable (BACKLINK_PREFIX ++ p) ->
  triple m (remove_note_links p) (fun _ m' => indexed m' (delete p g) /\ same_outside m m').
Proof.
  intros Hi Hfit. unfold remove_note_links.
  eapply triple_read_bind; [by apply reads_forward|]. eapply triple_bind.
  { apply (remove_lists_ok LINK_PREFIX note note note_text links_fit); [apply Hi|]. destruct (g !! p) as [ts|] eqn:E; [|constructor].
    by destruct (ix_notes _ _ Hi p ts E). }
  intros [] m1 (Hok1 & Hout1 & Hs1). apply triple_remove; [done|]. split.
  - constructor.
    + intros q. destruct (decide (q = p)) as [->|Hne].
      * by rewrite !lookup_delete_eq.
      * rewrite !lookup_delete_ne by (try done; by intros ?%app_inv_head).
        rewrite Hout1 by apply backlink_not_link. apply Hi.
    + intros t. apply (list_ok_frame LINK_PREFIX note m1); [|apply Hok1]. apply lookup_delete_ne. symmetry. apply link_backlink_ne.
    + intros t y. rewrite listed_frame_delete, Hs1, (ix_inverse _ _ Hi) by done.
      destruct (decide (y = p)) as [->|Hne].
      * rewrite lookup_delete_eq. split; [|by intros (? & ? & _)].
        intros [(ts & E & Ht) Hno]. destruct Hno. split; [done|]. by rewrite E.
      * rewrite lookup_delete_ne by done. naive_solver.
    + intros q ts. rewrite lookup_delete_Some. intros [_ Hq]. by apply Hi.
  - intros k Hk Hk'. rewrite lookup_delete_ne; [by apply Hout1|].
    intros <-. by rewrite starts_with_app_l in Hk'.
Qed.

(** An index of nothing. *)
Lemma indexed_empty m :
  (forall k, is_Some (m !! k) -> starts_with k LINK_PREFIX = false /\ starts_with k BACKLINK_PREFIX = false) ->
  indexed m ∅.
Proof.
  clear note_text links_fit. intros Hm.
  assert (forall p, m !! (BACKLINK_PREFIX ++ p) = None /\ m !! (LINK_PREFIX ++ p) = None) as Hn.
  { intros p. split; apply eq_None_not_Some; intros [H1 H2]%Hm; [by rewrite starts_with_app_l in H2|by rewrite starts_with_app_l in H1]. }
  constructor.
  - intros p. rewrite lookup_empty. apply Hn.
  - intros t. left. apply Hn.
  - intros t x. unfold listed. rewrite (proj2 (Hn t)). setoid_rewrite lookup_empty. set_solver.
  - intros p ts. by rewrite lookup_empty.
Qed.

(** ** Histories *)

Inductive index_op : Type :=
| IndexLinks (path : bytes) (targets : list bytes)
| RemoveLinks (path : bytes).

Definition run_index_op (o : index_op) : KvM St unit :=
  match o with
  | IndexLinks p ts => index_links p ts;; mret tt
  | RemoveLinks p => remove_note_links p
  end.

Definition spec_index_op (g : gmap bytes (list bytes)) (o : index_op) : gmap bytes (list bytes) :=
  match o with
  | IndexLinks p ts => <[p := ts]> g
  | RemoveLinks p => delete p g
  end.

Definition index_op_ok (o : index_op) : Prop :=
  match o with
  | IndexLinks p ts => note p /\ Forall note ts /\ kv_writable (BACKLINK_PREFIX ++ p) (to_json ts)
  | RemoveLinks p => kv_removable (BACKLINK_PREFIX ++ p)
  end.

Lemma run_index_op_ok m g o :
  indexed m g -> index_op_ok o ->
  triple m (run_index_op o) (fun _ m' => indexed m' (spec_index_op g o) /\ same_outside m m').
Proof.
  intros Hi. destruct o as [p ts|p]; cbn [index_op_ok run_index_op spec_index_op].
  - intros (Hp & Hts & Hfit). eapply triple_bind; [by apply index_links_ok|].
    intros d m' (_ & Hi' & Hout). by apply triple_ret.
  - intros Hfit. by apply remove_note_links_ok.
Qed.

Lemma run_index_ops_ok m g os :
  indexed m g -> Forall index_op_ok os ->
  triple m (kv_for os run_index_op) (fun _ m' => indexed m' (foldl spec_index_op g os) /\ same_outside m m').
Proof.
  intros Hi Hok. revert m g Hi. induction Hok as [|o os Ho Hok IH]; intros m g Hi; cbn [kv_for foldl].
  { apply triple_ret. done. }
  eapply triple_bind; [by apply run_index_op_ok|]. intros [] m1 [Hi1 Ho1].
  eapply triple_weaken; [by apply IH|]. intros [] m2 [Hi2 Ho2]. split; [done|].
  intros k Hk Hk'. by rewrite Ho2, Ho1.
Qed.

(** the two link indexes are inverse to each other.  After any history of
    [index_links] and [remove_note_links] on a store without index entries, in
    which every call succeeded, reading cannot fail: the forward links of a note
    are the targets it was last indexed with, and its backlinks are, each once,
    exactly the notes whose forward links contain it.  Entries of other kinds are
    untouched. *)
Theorem note_index_inverse m os s s' :
  models s m ->
  (forall k, is_Some (m !! k) -> starts_with k LINK_PREFIX = false /\ starts_with k BACKLINK_PREFIX = false) ->
  Forall index_op_ok os -> kv_for os run_index_op s = (Ok tt, s') ->
  let g := foldl spec_index_op ∅ os in
  (forall p, (get_forward_links p s').1 = Ok (default [] (g !! p))) /\
  (forall p, exists l, (get_backlinks p s').1 = Ok l /\ NoDup l /\
     forall x, x ∈ l <-> exists ts, g !! x = Some ts /\ p ∈ ts) /\
  exists m', models s' m' /\ same_outside m m'.
Proof.
  intros Hs Hm Hok Hrun g.
  destruct (run_index_ops_ok m ∅ os (indexed_empty m Hm) Hok s tt s' Hs Hrun) as (m' & Hs' & Hi & Ho).
  split_and!; [| |eauto].
  - intros p. by destruct (reads_forward m' _ p Hi s' Hs') as (s2 & -> & _).
  - intros p. destruct (reads_backlinks m' _ p Hi s' Hs') as (s2 & E & _). exists (sources m' p).
    rewrite E. split_and!; [done|apply (list_ok_listed LINK_PREFIX note note_text _ _ (ix_links _ _ Hi p))|].
    intros x. apply (ix_inverse _ _ Hi).
Qed.

End index.
