(* ===== verification/NoteGraph.v ===== *)
(** * NoteGraph: the graph around a note ([src/src/notes/graph.rs])

    A breadth-first traversal of links and backlinks from a note, limited in
    depth and in the number of nodes; then the tag filter, the removal of edges
    that lost an end or repeat a pair, and grouping by tag.  The loop of the
    traversal takes fuel: every turn takes one entry off the queue, and an entry
    is only added together with a node, of which there are at most [max_nodes]. *)
From Stdlib Require Import ZArith Lia.
From stdpp Require Import base tactics numbers list gmap strings sorting.
From S2P Require Import Prelude Bytes SortedMap Utf8 Engine Kv Postings NoteIndex.
Local Open Scope Z_scope.

(** ** Data *)

Record GraphNode := mkGraphNode {
  gn_id : bytes;
  gn_label : bytes;
  gn_group : option bytes;
  gn_size : Z;
}.

Record GraphEdge := mkGraphEdge {
  ge_source : bytes;
  ge_target : bytes;
  ge_weight : Z;
}.

Record GraphData := mkGraphData {
  gd_nodes : list GraphNode;
  gd_edges : list GraphEdge;
  gd_root : bytes;
}.

Inductive GraphDepth : Set := Direct | Extended | Deep.

(** [depth as usize] and [from_usize]. *)
Definition depth_nat (d : GraphDepth) : nat :=
  match d with Direct => 1 | Extended => 2 | Deep => 3 end.
Definition from_usize (depth : Z) : GraphDepth :=
  if (depth =? 0) || (depth =? 1) then Direct else if depth =? 2 then Extended else Deep.

Record GraphConfig := mkGraphConfig {
  gc_depth : GraphDepth;
  gc_include_tags : bool;
  gc_max_nodes : nat;
  gc_tag_filter : option bytes;
  gc_include_isolated : bool;
}.

Definition GraphConfig_default : GraphConfig :=
  {| gc_depth := Direct; gc_include_tags := true; gc_max_nodes := 500; gc_tag_filter := None;
     gc_include_isolated := false |}.

(** ** Labels *)

Definition slash : byte := Byte.x2f.
Definition md_rev : bytes := Eval vm_compute in reverse (lit ".md").

(** [trim_end_matches(".md")], on the reversed text. *)
Fixpoint strip_md (fuel : nat) (s : bytes) : bytes :=
  match fuel with
  | O => s
  | S fuel => if starts_with s md_rev then strip_md fuel (drop 3 s) else s
  end.
Definition trim_end_md (s : bytes) : bytes := reverse (strip_md (length s) (reverse s)).

(** [replace(['-', '_'], " ")]. *)
Definition dashes_to_spaces (s : bytes) : bytes :=
  (fun b => if decide (b = Byte.x2d \/ b = Byte.x5f) then Byte.x20 else b) <$> s.

(** [path.split('/').next_back()]. *)
Definition last_component (path : bytes) : bytes := default path (last (split_byte slash path)).

Definition note_label (path : bytes) : bytes := dashes_to_spaces (trim_end_md (last_component path)).

(** ** The traversal *)

Record Traversal := mkTraversal {
  tr_nodes : gmap bytes GraphNode;
  tr_edges : list GraphEdge;
  tr_visited : gset bytes;
  tr_queue : list (bytes * nat);
}.

(** [nodes.entry(id).and_modify(|n| n.size = n.size.saturating_add(1))]. *)
Definition count_edge (id : bytes) (nodes : gmap bytes GraphNode) : gmap bytes GraphNode :=
  alter (fun n => {| gn_id := gn_id n; gn_label := gn_label n; gn_group := gn_group n;
                     gn_size := Z.min (gn_size n + 1) usize_max |}) id nodes.

Definition new_node (id : bytes) : GraphNode :=
  {| gn_id := id; gn_label := note_label id; gn_group := None; gn_size := 1 |}.

(** One link of the current note to [other]; [forward] gives the direction of the
    edge. *)
Definition visit_link (config : GraphConfig) (forward : bool) (current : bytes) (depth : nat)
    (st : Traversal) (other : bytes) : Traversal :=
  let edge := if forward then {| ge_source := current; ge_target := other; ge_weight := 1 |}
              else {| ge_source := other; ge_target := current; ge_weight := 1 |} in
  let edges := tr_edges st ++ [edge] in
  let nodes := count_edge other (count_edge current (tr_nodes st)) in
  if decide (other ∈ tr_visited st) then
    {| tr_nodes := nodes; tr_edges := edges; tr_visited := tr_visited st; tr_queue := tr_queue st |}
  else
    {| tr_nodes := <[other := new_node other]> nodes; tr_edges := edges;
       tr_visited := {[ other ]} ∪ tr_visited st;
       tr_queue := if (depth + 1 <? depth_nat (gc_depth config))%nat
                   then tr_queue st ++ [(other, (depth + 1)%nat)] else tr_queue st |}.

(** The loop over the links in one direction, left when the graph is full. *)
Fixpoint visit_links (config : GraphConfig) (forward : bool) (current : bytes) (depth : nat)
    (links : list bytes) (st : Traversal) : Traversal :=
  match links with
  | [] => st
  | other :: links =>
      if (gc_max_nodes config <=? size (tr_nodes st))%nat then st
      else visit_links config forward current depth links (visit_link config forward current depth st other)
  end.

Section graph.
Context {St : Type} `{!KvStore St} `{!JsonStrings}.

Fixpoint traverse (fuel : nat) (config : GraphConfig) (st : Traversal) : KvM St Traversal :=
  match tr_queue st with
  | [] => mret st
  | (current, depth) :: queue =>
      match fuel with
      | O => kv_lift Panic
      | S fuel =>
          let st := {| tr_nodes := tr_nodes st; tr_edges := tr_edges st; tr_visited := tr_visited st;
                       tr_queue := queue |} in
          if (depth_nat (gc_depth config) <=? depth)%nat then traverse fuel config st
          else
            forward_links ← get_forward_links current;
            let st := visit_links config true current depth forward_links st in
            backlinks ← get_backlinks current;
            let st := visit_links config false current depth backlinks st in
            traverse fuel config st
      end
  end.

Definition start (center : bytes) : Traversal :=
  {| tr_nodes := {[ center := new_node center ]}; tr_edges := []; tr_visited := {[ center ]};
     tr_queue := [(center, 0%nat)] |}.

(** ** Tags *)

Definition TAG_PREFIX : bytes := Eval vm_compute in lit "tag:".

Definition notes_of_tag (v : option bytes) : list bytes :=
  match v with Some bytes => parse_or_default bytes | None => [] end.

Definition note_has_tag (note_path tag : bytes) : KvM St bool :=
  v ← get (TAG_PREFIX ++ tag);
  mret (bool_decide (note_path ∈ notes_of_tag v)).

(** [m.unwrap_or(d)]. *)
Definition kv_unwrap_or {A} (d : A) (m : KvM St A) : KvM St A := fun s =>
  match m s with (Err _, s) => (Ok d, s) | r => r end.

(** [nodes.into_iter().filter(..).collect()]. *)
Fixpoint filter_nodes (tag : bytes) (l : list (bytes * GraphNode)) : KvM St (list (bytes * GraphNode)) :=
  match l with
  | [] => mret []
  | (id, n) :: l =>
      keep ← kv_unwrap_or false (note_has_tag id tag);
      rest ← filter_nodes tag l;
      mret (if (keep : bool) then (id, n) :: rest else rest)
  end.

Definition common_tags : list bytes :=
  Eval vm_compute in [lit "important"; lit "project"; lit "reference"; lit "archive"; lit "personal"].

(** The first of the common tags the note has. *)
Fixpoint first_tag (id : bytes) (tags : list bytes) : KvM St (option bytes) :=
  match tags with
  | [] => mret None
  | tag :: tags =>
      v ← kv_unwrap_or None (get (TAG_PREFIX ++ tag));
      if decide (id ∈ notes_of_tag v) then mret (Some tag) else first_tag id tags
  end.

Fixpoint apply_tag_groups (l : list (bytes * GraphNode)) : KvM St (list (bytes * GraphNode)) :=
  match l with
  | [] => mret []
  | (id, n) :: l =>
      group ← first_tag id common_tags;
      rest ← apply_tag_groups l;
      let n := {| gn_id := gn_id n; gn_label := gn_label n;
                  gn_group := match group with Some tag => Some tag | None => gn_group n end;
                  gn_size := gn_size n |} in
      mret ((id, n) :: rest)
  end.

(** ** [build_graph] *)

(** The unordered pair of an edge's ends. *)
Definition edge_pair (e : GraphEdge) : bytes * bytes :=
  if bytes_ltb (ge_source e) (ge_target e) then (ge_source e, ge_target e) else (ge_target e, ge_source e).

(** [edges.retain(|e| seen_edges.insert(key))]. *)
Fixpoint dedup_edges (seen : gset (bytes * bytes)) (edges : list GraphEdge) : list GraphEdge :=
  match edges with
  | [] => []
  | e :: edges =>
      if decide (edge_pair e ∈ seen) then dedup_edges seen edges
      else e :: dedup_edges ({[ edge_pair e ]} ∪ seen) edges
  end.

Definition build_graph (center_note : bytes) (config : GraphConfig) : KvM St GraphData :=
  st ← traverse (S (gc_max_nodes config)) config (start center_note);
  nodes ← match gc_tag_filter config with
          | Some filter_tag => filter_nodes filter_tag (map_to_list (tr_nodes st))
          | None => mret (map_to_list (tr_nodes st))
          end;
  let edges := filter (fun e => ge_source e ∈ nodes.*1 /\ ge_target e ∈ nodes.*1) (tr_edges st) in
  let edges := dedup_edges ∅ edges in
  nodes ← if gc_include_tags config then apply_tag_groups nodes else mret nodes;
  mret {| gd_nodes := nodes.*2; gd_edges := edges; gd_root := center_note |}.

End graph.

(** ** What the traversal finds *)

Section search.
Context (config : GraphConfig) (center : bytes) (forward back : bytes -> list bytes).
Hypothesis inverse : forall x y, y ∈ back x <-> x ∈ forward y.

Definition adjacent (x y : bytes) : Prop := y ∈ forward x \/ x ∈ forward y.

(** The notes at most [n] hops from the center. *)
Fixpoint within (n : nat) (y : bytes) : Prop :=
  match n with
  | O => y = center
  | S n => within n y \/ exists x, within n x /\ adjacent x y
  end.

Notation limit := (depth_nat (gc_depth config)).
Notation full st := (gc_max_nodes config <= size (tr_nodes st))%nat.

Lemma within_mono n n' x : (n <= n')%nat -> within n x -> within n' x.
Proof. induction 1; [done|]. intros Hx. left. auto. Qed.

Lemma within_step d x y : (d < limit)%nat -> within d x -> adjacent x y -> within limit y.
Proof. intros Hd Hx Ha. apply (within_mono (S d)); [lia|]. right. eauto. Qed.

(** One turn of the loop, with the links given. *)
Definition turn (st : Traversal) : Traversal :=
  match tr_queue st with
  | [] => st
  | (current, depth) :: queue =>
      let st := {| tr_nodes := tr_nodes st; tr_edges := tr_edges st; tr_visited := tr_visited st;
                   tr_queue := queue |} in
      if (limit <=? depth)%nat then st
      else visit_links config false current depth (back current)
             (visit_links config true current depth (forward current) st)
  end.

Record sound (st : Traversal) : Prop := {
  so_dom : dom (tr_nodes st) = tr_visited st;
  so_ids x n : tr_nodes st !! x = Some n -> gn_id n = x;
  so_center : center ∈ tr_visited st;
  so_within x : x ∈ tr_visited st -> within limit x;
  so_queue x d : (x, d) ∈ tr_queue st -> (d < limit)%nat /\ within d x /\ x ∈ tr_visited st;
  so_edges e : e ∈ tr_edges st -> ge_target e ∈ forward (ge_source e) /\
    ge_source e ∈ tr_visited st /\ ge_target e ∈ tr_visited st;
  so_size : (size (tr_nodes st) <= Nat.max 1 (gc_max_nodes config))%nat;
}.

Lemma dom_count_edge x nodes : dom (count_edge x nodes) = dom nodes.
Proof. apply dom_alter_L. Qed.

Lemma size_count_edge x nodes : size (count_edge x nodes) = size nodes.
Proof. rewrite <- !size_dom. by rewrite dom_count_edge. Qed.

Lemma count_edge_id x nodes y n :
  (forall y n, nodes !! y = Some n -> gn_id n = y) -> count_edge x nodes !! y = Some n -> gn_id n = y.
Proof.
  intros Hn. unfold count_edge. rewrite lookup_alter_Some.
  intros [(-> & n' & Hn' & ->)|[_ Hn']]; [cbn|]; by apply Hn.
Qed.

Lemma sound_start : sound (start center).
Proof. clear inverse back.
  assert (0 < limit)%nat by (destruct (gc_depth config); cbn; lia). constructor; cbn.
  - apply dom_singleton_L.
  - intros x n. rewrite lookup_singleton_Some. by intros [-> <-].
  - set_solver.
  - intros x ->%elem_of_singleton. by apply (within_mono 0); [lia|].
  - intros x d [[= -> ->]|[]%elem_of_nil]%elem_of_cons. split_and!; [done|done|set_solver].
  - intros e []%elem_of_nil.
  - rewrite map_size_singleton. lia.
Qed.

Lemma visit_link_sound dir current d st other :
  sound st -> (d < limit)%nat -> within d current -> current ∈ tr_visited st ->
  (if (dir : bool) then other ∈ forward current else other ∈ back current) -> ~ full st ->
  sound (visit_link config dir current d st other).
Proof.
  intros [Hdom Hids Hc Hw Hq He Hs] Hd Hcur Hin Hl Hfull.
  assert (adjacent current other) as Hadj by (destruct dir; [by left|right; by apply inverse]).
  assert (within limit other) as Hother by (by eapply within_step).
  assert (forall V, current ∈ V -> other ∈ V -> forall e,
    e = (if dir then {| ge_source := current; ge_target := other; ge_weight := 1 |}
         else {| ge_source := other; ge_target := current; ge_weight := 1 |}) ->
    ge_target e ∈ forward (ge_source e) /\ ge_source e ∈ V /\ ge_target e ∈ (V : gset bytes)) as Hedge.
  { intros V H1 H2 e ->. destruct dir; cbn; split_and!; try done. by apply inverse. }
  unfold visit_link. destruct (decide (other ∈ tr_visited st)) as [Hv|Hv]; constructor;
    cbn [tr_nodes tr_edges tr_visited tr_queue].
  - by rewrite !dom_count_edge.
  - intros x n. apply count_edge_id. intros y n'. by apply count_edge_id.
  - done.
  - done.
  - done.
  - intros e [He'| ->%list_elem_of_singleton]%elem_of_app; [by apply He|]. by apply Hedge.
  - by rewrite !size_count_edge.
  - rewrite dom_insert_L, !dom_count_edge, Hdom. done.
  - intros x n. rewrite lookup_insert_Some. intros [[-> <-]|[_ Hn]]; [done|]. revert Hn.
    apply count_edge_id. intros y n'. by apply count_edge_id.
  - set_solver.
  - intros x [->%elem_of_singleton|Hx]%elem_of_union; auto.
  - intros x d'. destruct (Nat.ltb_spec (d + 1) limit) as [Hlt|].
    + intros [Hx|[= -> ->]%list_elem_of_singleton]%elem_of_app.
      * destruct (Hq x d' Hx) as (? & ? & ?). split_and!; [done|done|set_solver].
      * split_and!; [done| |set_solver]. rewrite Nat.add_1_r. right. eauto.
    + intros Hx. destruct (Hq x d' Hx) as (? & ? & ?). split_and!; [done|done|set_solver].
  - intros e [He'| ->%list_elem_of_singleton]%elem_of_app.
    + destruct (He e He') as (? & ? & ?). split_and!; [done|set_solver..].
    + apply Hedge; [set_solver..|done].
  - rewrite map_size_insert_None; [rewrite !size_count_edge; lia|].
    apply not_elem_of_dom. by rewrite !dom_count_edge, Hdom.
Qed.

Lemma visit_link_visited dir current d st other :
  tr_visited st ⊆ tr_visited (visit_link config dir current d st other) /\
  other ∈ tr_visited (visit_link config dir current d st other).
Proof. unfold visit_link. destruct (decide _); cbn; set_solver. Qed.

(** The effect of following links: the new notes, and where they go. *)
Lemma visit_links_spec dir current d links st :
  sound st -> (d < limit)%nat -> within d current -> current ∈ tr_visited st ->
  (forall y, y ∈ links -> if (dir : bool) then y ∈ forward current else y ∈ back current) ->
  let st' := visit_links config dir current d links st in
  sound st' /\ (size (tr_nodes st) <= size (tr_nodes st'))%nat /\
  (length (tr_queue st') + (gc_max_nodes config - size (tr_nodes st')) <=
   length (tr_queue st) + (gc_max_nodes config - size (tr_nodes st)))%nat /\
  exists new, tr_visited st' = tr_visited st ∪ list_to_set new /\
    (forall y, y ∈ new -> y ∉ tr_visited st) /\
    tr_queue st' = tr_queue st ++ (if (d + 1 <? limit)%nat then (., (d + 1)%nat) <$> new else []) /\
    (~ full st' -> forall y, y ∈ links -> y ∈ tr_visited st').
Proof.
  intros Hst Hd Hcur Hin Hl. cbv zeta. revert st Hst Hin.
  induction links as [|other links IH]; intros st Hst Hin; cbn [visit_links].
  { split_and!; [done|done|done|]. exists []. split_and!; [set_solver|set_solver| |set_solver].
    by destruct (_ <? _)%nat; cbn; rewrite ?app_nil_r. }
  destruct (Nat.leb_spec (gc_max_nodes config) (size (tr_nodes st))) as [Hf|Hf].
  { split_and!; [done|done|done|]. exists []. split_and!; [set_solver|set_solver| |lia].
    by destruct (_ <? _)%nat; cbn; rewrite ?app_nil_r. }
  assert (sound (visit_link config dir current d st other)) as Hst1
    by (apply visit_link_sound; auto; [apply Hl; by left|lia]).
  destruct (visit_link_visited dir current d st other) as [Hsub Hoth].
  destruct (IH ltac:(intros; apply Hl; by right) _ Hst1 (Hsub _ Hin))
    as (Hst2 & Hsz & Hlen & new & Hv & Hnew & Hq & Hall).
  set (st2 := visit_links _ _ _ _ links _) in *.
  assert (size (tr_nodes (visit_link config dir current d st other))
          = size (tr_nodes st) + (if decide (other ∈ tr_visited st) then 0 else 1))%nat as Hsz1.
  { rewrite <- !size_dom, (so_dom _ Hst1), (so_dom _ Hst). unfold visit_link.
    destruct (decide (other ∈ tr_visited st)); cbn; [lia|].
    rewrite size_union, size_singleton by set_solver. lia. }
  assert (exists fresh, tr_visited (visit_link config dir current d st other) = tr_visited st ∪ list_to_set fresh /\
    (forall y, y ∈ fresh -> y ∉ tr_visited st) /\ length fresh = (if decide (other ∈ tr_visited st) then 0 else 1)%nat /\
    tr_queue (visit_link config dir current d st other)
    = tr_queue st ++ (if (d + 1 <? limit)%nat then (., (d + 1)%nat) <$> fresh else [])) as (fresh & Hv1 & Hf1 & Hl1 & Hq1).
  { unfold visit_link. destruct (decide (other ∈ tr_visited st)); cbn [tr_visited tr_queue].
    - exists []. split_and!; [set_solver|set_solver|done|]. by destruct (_ <? _)%nat; cbn; rewrite ?app_nil_r.
    - exists [other]. split_and!; [set_solver|set_solver|done|].
      by destruct (_ <? _)%nat; cbn; rewrite ?app_nil_r. }
  assert (length (tr_queue (visit_link config dir current d st other)) <= length (tr_queue st) + length fresh)%nat.
  { rewrite Hq1, length_app. destruct (_ <? _)%nat; [rewrite length_fmap|cbn]; lia. }
  split_and!; [done|destruct (decide _) in *; lia|destruct (decide _) in *; lia|].
  exists (fresh ++ new). split_and!.
  - rewrite Hv, Hv1. set_solver.
  - intros y [Hy|Hy]%elem_of_app; [auto|]. apply Hnew in Hy. set_solver.
  - rewrite Hq, Hq1, <- app_assoc. f_equal. destruct (_ <? _)%nat; [by rewrite fmap_app|done].
  - intros Hnf y [->|Hy]%elem_of_cons; [|by apply Hall]. rewrite Hv. set_solver.
Qed.

Definition potential (st : Traversal) : nat :=
  (length (tr_queue st) + (gc_max_nodes config - size (tr_nodes st)))%nat.

(** A turn on a queue that is not empty. *)
Lemma turn_spec st current d queue :
  sound st -> tr_queue st = (current, d) :: queue ->
  sound (turn st) /\ (size (tr_nodes st) <= size (tr_nodes (turn st)))%nat /\
  (potential (turn st) < potential st)%nat /\
  exists new, tr_visited (turn st) = tr_visited st ∪ list_to_set new /\
    (forall y, y ∈ new -> y ∉ tr_visited st) /\
    tr_queue (turn st) = queue ++ (if (d + 1 <? limit)%nat then (., (d + 1)%nat) <$> new else []) /\
    (~ full (turn st) -> forall y, adjacent current y -> y ∈ tr_visited (turn st)).
Proof.
  intros Hst Hq. destruct (so_queue _ Hst current d) as (Hd & Hcur & Hin); [rewrite Hq; by left|].
  unfold turn, potential. rewrite Hq, (proj2 (Nat.leb_gt _ _)) by done.
  set (st0 := {| tr_nodes := _ |}).
  assert (sound st0) as Hst0.
  { destruct Hst. constructor; auto. intros x d' Hx. apply so_queue0. rewrite Hq. by right. }
  destruct (visit_links_spec true current d (forward current) st0) as (Hst1 & Hz1 & Hp1 & new1 & Hv1 & Hn1 & Hq1 & Ha1);
    [done..|]. set (st1 := visit_links config true current d (forward current) st0) in *.
  destruct (visit_links_spec false current d (back current) st1) as (Hst2 & Hz2 & Hp2 & new2 & Hv2 & Hn2 & Hq2 & Ha2);
    [done|done|done|rewrite Hv1; set_solver|done|].
  set (st2 := visit_links config false current d (back current) st1) in *.
  change (tr_nodes st0) with (tr_nodes st) in *. change (tr_queue st0) with queue in *.
  change (tr_visited st0) with (tr_visited st) in *. cbn [length].
  split_and!; [done|lia|lia|]. exists (new1 ++ new2). split_and!.
  - rewrite Hv2, Hv1. set_solver.
  - intros y [Hy|Hy]%elem_of_app; [auto|]. apply Hn2 in Hy. set_solver.
  - rewrite Hq2, Hq1, <- app_assoc. f_equal. destruct (_ <? _)%nat; [by rewrite fmap_app|done].
  - intros Hnf y [Hy|Hy].
    + rewrite Hv2. apply elem_of_union. left. apply Ha1; [lia|done].
    + apply Ha2; [done|]. by apply inverse.
Qed.

(** ** Completeness *)

(** The traversal is at level [d]: the queue has the rest of level [d] and what
    was found of the next; all notes within [d] hops are found; a note found has
    been expanded, is in the queue, or is beyond level [d] and there is no
    further level. *)
Record at_level (d : nat) (st : Traversal) : Prop := {
  al_queue : exists q1 q2, tr_queue st = ((., d) <$> q1) ++ ((., S d) <$> q2);
  al_within x : within d x -> x ∈ tr_visited st;
  al_found x : x ∈ tr_visited st ->
    (forall y, adjacent x y -> y ∈ tr_visited st) \/ (x, d) ∈ tr_queue st \/
    (~ within d x /\ ((x, S d) ∈ tr_queue st \/ (limit <= S d)%nat));
}.

Lemma at_level_start : at_level 0 (start center).
Proof. clear inverse back.
  constructor; cbn.
  - by exists [center], [].
  - intros x ->. set_solver.
  - intros x ->%elem_of_singleton. right. left. set_solver.
Qed.

(** A level that is done gives the next. *)
Lemma at_level_next d st q :
  at_level d st -> tr_queue st = (., S d) <$> q -> (S d < limit)%nat -> at_level (S d) st.
Proof.
  intros [Hq Hw Hf] Eq Hd.
  assert (forall x, (x, d) ∉ tr_queue st) as Hno.
  { intros x. rewrite Eq. intros (y & [= _ He] & _)%list_elem_of_fmap. lia. }
  constructor.
  - exists q, []. by rewrite app_nil_r.
  - intros y [Hy|(x & Hx & Ha)]; [auto|].
    destruct (Hf x (Hw x Hx)) as [He|[Hq'|[Hn _]]]; [auto|by destruct (Hno x)|done].
  - intros x Hx. destruct (Hf x Hx) as [He|[Hq'|[_ [Hq'|?]]]]; [by left|by destruct (Hno x)| |lia].
    right. by left.
Qed.

(** A turn stays at its level. *)
Lemma at_level_turn d st current queue :
  sound st -> at_level d st -> tr_queue st = (current, d) :: queue -> ~ full (turn st) -> at_level d (turn st).
Proof.
  intros Hst [Hq Hw Hf] Eq Hnf.
  destruct (turn_spec st current d queue Hst Eq) as (_ & _ & _ & new & Hv & Hnew & Hq' & Hall).
  assert (forall e, e ∈ queue -> e ∈ tr_queue (turn st)) as Hkeep by (intros e He; rewrite Hq'; set_solver).
  constructor.
  - destruct Hq as (q1 & q2 & Hq). rewrite Eq in Hq. rewrite Hq', Nat.add_1_r.
    destruct q1 as [|c q1]; [destruct q2; [done|]; injection Hq as _ He _; lia|].
    injection Hq as _ ->. exists q1, (q2 ++ if (S d <? limit)%nat then new else []).
    rewrite fmap_app, app_assoc. f_equal. by destruct (S d <? limit)%nat.
  - intros x Hx. rewrite Hv. apply elem_of_union. left. auto.
  - intros x. rewrite Hv, elem_of_union, elem_of_list_to_set. intros [Hx|Hx].
    + destruct (Hf x Hx) as [He|[Hin|[Hn Hin]]].
      * left. intros y Hy. apply elem_of_union. left. auto.
      * rewrite Eq in Hin. apply elem_of_cons in Hin as [[= ->]|Hin].
        -- left. intros y Hy. rewrite <- Hv. auto.
        -- right. left. auto.
      * right. right. split; [done|]. destruct Hin as [Hin|]; [left|by right].
        rewrite Eq in Hin. apply elem_of_cons in Hin as [[= _ He]|Hin]; [lia|auto].
    + right. right. split; [intros Hx'; apply (Hnew x Hx); auto|].
      destruct (Nat.ltb_spec (d + 1) limit) as [Hlt|Hge]; [|right; lia]. left.
      rewrite Hq', Nat.add_1_r.
      apply elem_of_app. right. apply list_elem_of_fmap. by exists x.
Qed.

Definition complete (st : Traversal) : Prop := ~ full st -> exists d, at_level d st.

Lemma complete_turn st : sound st -> complete st -> complete (turn st).
Proof.
  intros Hst Hc Hnf. destruct (tr_queue st) as [|[current d] queue] eqn:Eq.
  { unfold turn in *. rewrite Eq in *. by apply Hc. }
  destruct (turn_spec st current d queue Hst Eq) as (_ & Hz & _).
  destruct Hc as [d0 Hl]; [lia|].
  destruct (so_queue _ Hst current d) as (Hd & _); [rewrite Eq; by left|].
  destruct (al_queue _ _ Hl) as (q1 & q2 & Hq). rewrite Eq in Hq. destruct q1 as [|c q1].
  - destruct q2 as [|c q2]; [done|]. injection Hq as -> -> ->.
    exists (S d0). eapply at_level_turn; [done| |done|done]. eapply (at_level_next d0 st (c :: q2)); done.
  - injection Hq as -> -> ->. exists d0. by eapply at_level_turn.
Qed.

(** A traversal that ended has found everything within the limit. *)
Lemma at_level_end d st n x :
  at_level d st -> tr_queue st = [] -> (n <= limit)%nat -> within n x -> x ∈ tr_visited st.
Proof.
  intros [_ Hw Hf] Eq. revert x; induction n as [|n IH]; intros y Hn.
  { intros Hy. apply Hw. by apply (within_mono 0); [lia|]. }
  intros [Hy|(x & Hx & Ha)]; [apply IH; [lia|done]|].
  destruct (Hf x) as [He|[Hin|[Hno Hin]]]; [apply IH; [lia|done]|auto| |].
  - rewrite Eq in Hin. by apply elem_of_nil in Hin.
  - destruct Hin as [Hin|Hd]; [rewrite Eq in Hin; by apply elem_of_nil in Hin|].
    destruct Hno. apply (within_mono n); [lia|done].
Qed.

End search.

(** ** Edges *)

Lemma dedup_edges_spec seen edges :
  NoDup (edge_pair <$> dedup_edges seen edges) /\
  (forall e, e ∈ dedup_edges seen edges -> e ∈ edges /\ edge_pair e ∉ seen) /\
  (forall e, e ∈ edges -> edge_pair e ∈ seen \/ edge_pair e ∈ edge_pair <$> dedup_edges seen edges).
Proof.
  revert seen; induction edges as [|e edges IH]; intros seen; cbn [dedup_edges].
  { split_and!; [constructor|set_solver..]. }
  destruct (decide (edge_pair e ∈ seen)) as [Hin|Hno].
  - destruct (IH seen) as (H1 & H2 & H3). split_and!; [done|set_solver|].
    intros e' [->|He]%elem_of_cons; auto.
  - destruct (IH ({[ edge_pair e ]} ∪ seen)) as (H1 & H2 & H3). split_and!.
    + cbn. constructor; [|done]. intros (e' & He & Hin)%list_elem_of_fmap. apply H2 in Hin as [_ Hin]. set_solver.
    + intros e' [->|He]%elem_of_cons; [split; [by left|done]|]. apply H2 in He. set_solver.
    + intros e' [->|He]%elem_of_cons; [right; cbn; by left|].
      destruct (H3 e' He) as [[->%elem_of_singleton|?]%elem_of_union|?]; cbn; [right; by left|by left|right; by right].
Qed.

(** ** The whole graph *)

Section build.
Context {St : Type} `{!KvStore St} `{!JsonStrings} `{!KvLaws St} (note : bytes -> Prop).
Hypothesis note_text : forall x, note x -> is_Some (from_utf8 x).
Context (m : gmap bytes bytes) (g : gmap bytes (list bytes)).
Hypothesis Hix : indexed note m g.

Definition links_of (x : bytes) : list bytes := default [] (g !! x).

Lemma links_inverse x y : y ∈ sources m x <-> x ∈ links_of y.
Proof.
  rewrite (ix_inverse _ _ _ Hix). unfold links_of. destruct (g !! y) as [ts|]; cbn; [naive_solver|set_solver].
Qed.

Lemma traverse_reads fuel config center st :
  sound config center links_of st -> complete config center links_of st ->
  (potential config st <= fuel)%nat ->
  exists st', reads m (traverse fuel config st) st' /\ tr_queue st' = [] /\
    sound config center links_of st' /\ complete config center links_of st'.
Proof.
  revert st; induction fuel as [|fuel IH]; intros st Hs Hc Hp; cbn [traverse].
  all: destruct (tr_queue st) as [|[current d] queue] eqn:Eq; [exists st; split; [apply reads_ret|done]|].
  { unfold potential in Hp. rewrite Eq in Hp. cbn in Hp. lia. }
  destruct (turn_spec config center links_of (sources m) links_inverse st current d queue Hs Eq)
    as (Hs' & _ & Hp' & _).
  pose proof (complete_turn config center links_of (sources m) links_inverse st Hs Hc) as Hc'.
  destruct (so_queue _ _ _ _ Hs current d) as (Hd & _); [rewrite Eq; by left|].
  destruct (IH _ Hs' Hc') as (st' & Hr & Hst'); [lia|]. exists st'. split; [|done].
  unfold turn in Hr. rewrite Eq in Hr. rewrite (proj2 (Nat.leb_gt _ _)) in Hr |- * by done.
  eapply reads_bind; [by eapply reads_forward|]. fold (links_of current).
  eapply reads_bind; [by eapply reads_backlinks|]. exact Hr.
Qed.

Definition tagged (tag x : bytes) : Prop := x ∈ notes_of_tag (m !! (TAG_PREFIX ++ tag)).
#[local] Instance tagged_dec tag x : Decision (tagged tag x).
Proof. unfold tagged. apply _. Defined.

Lemma reads_unwrap {A : Type} (d : A) (c : KvM St A) a : reads m c a -> reads m (kv_unwrap_or d c) a.
Proof. intros Hc s Hs. destruct (Hc s Hs) as (s' & E & Hs'). exists s'. unfold kv_unwrap_or. by rewrite E. Qed.

Lemma filter_nodes_reads tag l :
  reads m (filter_nodes tag l) (filter (fun e => tagged tag e.1) l).
Proof.
  induction l as [|[id n] l IH]; cbn [filter_nodes]; [apply reads_ret|].
  eapply reads_bind; [apply reads_unwrap; eapply reads_bind; [apply reads_get|apply reads_ret]|].
  eapply reads_bind; [exact IH|]. rewrite filter_cons. cbn [fst].
  case_bool_decide as Ht; destruct (decide (tagged tag id)); first [apply reads_ret|done].
Qed.

Lemma first_tag_reads id tags : exists o, reads m (first_tag id tags) o.
Proof.
  induction tags as [|tag tags [o IH]]; cbn [first_tag]; [eexists; apply reads_ret|].
  destruct (decide (tagged tag id)) as [Ht|Ht]; [exists (Some tag)|exists o].
  all: eapply reads_bind; [apply reads_unwrap, reads_get|].
  - rewrite decide_True by done. apply reads_ret.
  - rewrite decide_False by done. exact IH.
Qed.

Lemma apply_tag_groups_reads l :
  exists l', reads m (apply_tag_groups l) l' /\ gn_id <$> l'.*2 = gn_id <$> l.*2.
Proof.
  induction l as [|[id n] l (l' & IH & Hl)]; cbn [apply_tag_groups]; [eexists; split; [apply reads_ret|done]|].
  destruct (first_tag_reads id common_tags) as [o Ho]. eexists. split.
  - eapply reads_bind; [exact Ho|]. eapply reads_bind; [exact IH|]. apply reads_ret.
  - cbn. by rewrite Hl.
Qed.

(** A graph's condition on tags. *)
Definition chosen (config : GraphConfig) (x : bytes) : Prop :=
  match gc_tag_filter config with Some tag => tagged tag x | None => True end.
#[local] Instance chosen_dec config x : Decision (chosen config x).
Proof. unfold chosen. destruct (gc_tag_filter config); apply _. Defined.

Lemma select_nodes_reads config (st : Traversal) :
  reads m (match gc_tag_filter config with
           | Some filter_tag => filter_nodes filter_tag (map_to_list (tr_nodes st))
           | None => mret (map_to_list (tr_nodes st))
           end) (filter (fun e => chosen config e.1) (map_to_list (tr_nodes st))).
Proof.
  destruct (gc_tag_filter config) as [tag|] eqn:E.
  - rewrite (filter_weaken _ (fun e => tagged tag e.1)); [apply filter_nodes_reads|].
    intros e _. unfold chosen. by rewrite E.
  - rewrite filter_all; [apply reads_ret|]. intros e _. unfold chosen. by rewrite E.
Qed.

Lemma selected_nodes config center st :
  sound config center links_of st ->
  let nodes := filter (fun e => chosen config e.1) (map_to_list (tr_nodes st)) in
  gn_id <$> nodes.*2 = nodes.*1 /\ NoDup (nodes.*1) /\
  (length nodes <= Nat.max 1 (gc_max_nodes config))%nat /\
  forall x, x ∈ nodes.*1 <-> x ∈ tr_visited st /\ chosen config x.
Proof.
  intros Hs. cbv zeta. split_and!.
  - rewrite <- list_fmap_compose. apply list_fmap_ext. intros i [x n] Hi. cbn.
    apply list_elem_of_lookup_2, list_elem_of_filter in Hi as [_ Hi%elem_of_map_to_list].
    by eapply so_ids.
  - eapply sublist_NoDup; [apply (NoDup_fst_map_to_list (tr_nodes st))|].
    apply (fmap_sublist fst), sublist_filter.
  - etransitivity; [apply length_filter|]. rewrite length_map_to_list. by eapply so_size.
  - intros x. rewrite <- (so_dom _ _ _ _ Hs), elem_of_dom, list_elem_of_fmap. split.
    + intros ([y n] & -> & [Hc Hn%elem_of_map_to_list]%list_elem_of_filter). eauto.
    + intros [[n Hn] Hc]. exists (x, n). split; [done|]. apply list_elem_of_filter. split; [done|].
      by apply elem_of_map_to_list.
Qed.

(** C26: the graph around a note is what its links say.  On a store whose two
    link indexes are inverse to each other ([indexed], as [put_note] and
    [delete_note] leave them; [rename_note] does not keep it), [build_graph] ends
    without failing and changes nothing.  The nodes are distinct, at most
    [max_nodes] (but for the center), each within the depth of the center along
    links in either direction and with the tag that was asked for; when the notes
    within the depth are fewer than [max_nodes], all of them are there.  Every
    edge is a link between two nodes, and no two edges join the same pair. *)
Theorem note_graph_exact center config s :
  models s m ->
  exists data s', build_graph center config s = (Ok data, s') /\ models s' m /\
    gd_root data = center /\
    let ids := gn_id <$> gd_nodes data in
    let near := within center links_of (depth_nat (gc_depth config)) in
    NoDup ids /\ (length ids <= Nat.max 1 (gc_max_nodes config))%nat /\
    (forall x, x ∈ ids -> near x /\ chosen config x) /\
    (forall X : gset bytes, (forall x, near x -> x ∈ X) -> (size X < gc_max_nodes config)%nat ->
       forall x, near x -> chosen config x -> x ∈ ids) /\
    (forall e, e ∈ gd_edges data ->
       ge_target e ∈ links_of (ge_source e) /\ ge_source e ∈ ids /\ ge_target e ∈ ids) /\
    NoDup (edge_pair <$> gd_edges data).
Proof.
  intros Hm.
  destruct (traverse_reads (S (gc_max_nodes config)) config center (start center)) as (st & Hr & Hq & Hs & Hc).
  { by apply (sound_start config center links_of). }
  { intros _. exists 0%nat. apply at_level_start. }
  { unfold potential. cbn [start tr_queue tr_nodes length]. lia. }
  destruct (selected_nodes config center st Hs) as (Hids & Hnd & Hlen & Hmem).
  pose proof (select_nodes_reads config st) as Hsel. set (nodes := filter _ (map_to_list _)) in *.
  assert (exists l, reads m (if gc_include_tags config then apply_tag_groups nodes else mret nodes) l /\
                    gn_id <$> l.*2 = nodes.*1) as (l & Hl & Hl2).
  { rewrite <- Hids. destruct (gc_include_tags config); [apply apply_tag_groups_reads|].
    eexists. split; [apply reads_ret|done]. }
  set (edges := filter (fun e => ge_source e ∈ nodes.*1 /\ ge_target e ∈ nodes.*1) (tr_edges st)).
  assert (reads m (build_graph center config)
            {| gd_nodes := l.*2; gd_edges := dedup_edges ∅ edges; gd_root := center |}) as Hb.
  { unfold build_graph. eapply reads_bind; [exact Hr|]. eapply reads_bind; [exact Hsel|].
    eapply reads_bind; [exact Hl|]. apply reads_ret. }
  destruct (Hb s Hm) as (s' & E & Hs'). eexists _, s'. split_and!; [exact E|done|done|].
  cbn [gd_nodes gd_edges gd_root]. cbv zeta. rewrite Hl2.
  destruct (dedup_edges_spec ∅ edges) as (Hdd & Hde & _). split_and!; [done| | | | |done].
  - by rewrite length_fmap.
  - intros x [Hx Hch]%Hmem. split; [by eapply so_within|done].
  - intros X HX Hsz x Hx Hch. apply Hmem. split; [|done].
    destruct Hc as [d Hd].
    { rewrite <- size_dom, (so_dom _ _ _ _ Hs). apply Nat.lt_nge. eapply Nat.le_lt_trans; [|exact Hsz].
      apply subseteq_size. intros y Hy. apply HX. by eapply so_within. }
    by eapply at_level_end.
  - intros e He. apply Hde in He as [[[? ?] He]%list_elem_of_filter _].
    destruct (so_edges _ _ _ _ Hs e He) as (? & _). done.
Qed.

End build.
