(* ===== verification/NoteParser.v ===== *)
(** * NoteParser: links, tags and frontmatter of a note ([src/src/notes/parser.rs])

    Contents are UTF-8 bytes, and offsets count bytes.  The scanning loops carry
    the rest of the content instead of an index into it; each turn consumes at
    least a byte, so the length of the content is fuel enough.  The theorem states
    which links and tags are found, for every content. *)
From Stdlib Require Import ZArith Lia.
From stdpp Require Import base tactics numbers list gmap strings sorting.
From S2P Require Import Prelude Bytes Utf8 Text Engine.
Local Open Scope Z_scope.

Inductive LinkType : Set := WikiLink | Embed | HeadingRef | BlockRef.
#[global] Instance LinkType_eq_dec : EqDecision LinkType.
Proof. solve_decision. Defined.

Record Wikilink := mkWikilink {
  target : bytes;
  display_text : option bytes;
  link_type : LinkType;
  start_offset : nat;
  end_offset : nat;
}.

Record Frontmatter := mkFrontmatter {
  fm_title : option bytes;
  fm_aliases : list bytes;
  fm_tags : list bytes;
  fm_created : option bytes;
  fm_updated : option bytes;
  fm_custom : gmap bytes bytes;
}.
Definition Frontmatter_default : Frontmatter := mkFrontmatter None [] [] None None ∅.

Record ParsedNote := mkParsedNote {
  pn_content : bytes;
  pn_links : list Wikilink;
  pn_inline_tags : list bytes;
  pn_frontmatter : Frontmatter;
}.

(** ** Links *)

Definition hash : byte := Byte.x23.
Definition caret : byte := Byte.x5e.
Definition pipe : byte := Byte.x7c.
Definition backtick : byte := Byte.x60.
Definition OPEN : bytes := Eval vm_compute in lit "[[".
Definition EMBED : bytes := Eval vm_compute in lit "![[".
Definition CLOSE : bytes := Eval vm_compute in lit "]]".

(** [bytes] from [start] on: where its closing brackets are. *)
Definition find_closing_brackets (rest : bytes) : option nat := find CLOSE rest.

Definition contains (c : byte) (s : bytes) : bool := bool_decide (c ∈ s).

Definition classify (is_embed : bool) (inner : bytes) : LinkType :=
  if is_embed then Embed
  else if starts_with inner [hash] then (if contains caret inner then BlockRef else HeadingRef)
  else if contains hash inner then
    (if bool_decide (is_Some (find (lit "^block") inner)) || contains caret inner then BlockRef else WikiLink)
  else WikiLink.

Definition split_display (inner : bytes) : bytes * option bytes :=
  match find [pipe] inner with
  | Some pos =>
      let display := str_trim (drop (S pos) inner) in
      (str_trim (take pos inner), if bool_decide (display = []) then None else Some display)
  | None => (str_trim inner, None)
  end.

Definition wikilink (is_embed : bool) (inner : bytes) (start : nat) : Wikilink :=
  let '(target, display) := split_display inner in
  {| target := target; display_text := display; link_type := classify is_embed inner;
     start_offset := start;
     end_offset := start + (if is_embed then 3 else 2) + length inner + 2 |}.

(** The loop of [parse_wikilinks] at offset [i], with [rest] left. *)
Fixpoint wikilinks_loop (fuel i : nat) (rest : bytes) : list Wikilink :=
  match fuel, rest with
  | S fuel, _ :: rest' =>
      let is_embed := starts_with rest EMBED in
      let is_link := starts_with rest OPEN in
      let skip := if is_embed then 3%nat else 2%nat in
      match (if is_embed || is_link then find_closing_brackets (drop skip rest) else None) with
      | Some e =>
          let link := wikilink is_embed (take e (drop skip rest)) i in
          link :: wikilinks_loop fuel (i + (skip + e + 2)) (drop (skip + e + 2) rest)
      | None => wikilinks_loop fuel (S i) rest'
      end
  | _, _ => []
  end.
Definition parse_wikilinks (content : bytes) : list Wikilink := wikilinks_loop (length content) 0 content.

(** ** Tags *)

Definition is_tag_boundary (b : byte) : bool :=
  negb (ascii_alphanumeric b) && negb (bool_decide (b = Byte.x5f)).
Definition is_tag_char (b : byte) : bool :=
  ascii_alphanumeric b || bool_decide (b = Byte.x5f) || bool_decide (b = Byte.x2f) || bool_decide (b = Byte.x2d).

Fixpoint take_while (f : byte -> bool) (s : bytes) : bytes :=
  match s with
  | b :: s => if f b then b :: take_while f s else []
  | [] => []
  end.

Definition add_tag (tag : bytes) (tags : list bytes) : list bytes :=
  if bool_decide ((0 < length tag <= 100)%nat /\ tag ∉ tags) then tags ++ [tag] else tags.

Definition FENCE : bytes := Eval vm_compute in lit "```".
Definition COMMENT : bytes := Eval vm_compute in lit "<!--".
Definition COMMENT_END : bytes := Eval vm_compute in lit "-->".

(** Whether a tag may start after the byte [prev], or at the start. *)
Definition boundary (prev : option byte) : bool :=
  match prev with Some b => is_tag_boundary b | None => true end.

(** The loop of [parse_tags]: the flags, the byte before [rest], and the tags so
    far. *)
Fixpoint tags_loop (fuel : nat) (code inline comment : bool) (prev : option byte) (rest : bytes)
    (tags : list bytes) : list bytes :=
  match fuel, rest with
  | S fuel, b :: rest' =>
      if starts_with rest FENCE then
        tags_loop fuel (negb code) inline comment (Some backtick) (drop 3 rest) tags
      else if bool_decide (b = backtick) && negb code then
        tags_loop fuel code (negb inline) comment (Some b) rest' tags
      else if starts_with rest COMMENT then
        tags_loop fuel code inline true (Some Byte.x2d) (drop 4 rest) tags
      else if comment && starts_with rest COMMENT_END then
        tags_loop fuel code inline false (Some Byte.x3e) (drop 3 rest) tags
      else if negb code && negb inline && negb comment && bool_decide (b = hash) && boundary prev then
        let tag := take_while is_tag_char rest' in
        tags_loop fuel code inline comment (Some (default b (last tag))) (drop (length tag) rest')
          (add_tag tag tags)
      else tags_loop fuel code inline comment (Some b) rest' tags
  | _, _ => tags
  end.
Definition parse_tags (content : bytes) : list bytes :=
  tags_loop (length content) false false false None content [].

(** ** Frontmatter *)

Section frontmatter.
Context `{!Unicode}.

Definition unquote (s : bytes) : bytes := trim_matches Byte.x27 (trim_matches Byte.x22 s).

(** [[item1, item2, ...]]. *)
Definition inline_list (value : bytes) : list bytes :=
  filter (fun s => s <> [])
    ((fun s => unquote (str_trim s)) <$>
       split_byte Byte.x2c (trim_end_matches Byte.x5d (trim_start_matches Byte.x5b value))).

(** The items at the start of the lines, and the lines after them. *)
Fixpoint list_items (lines : list bytes) : list bytes * list bytes :=
  match lines with
  | next :: rest =>
      match str_strip_prefix (lit "- ") next, str_strip_prefix (lit "-") next with
      | Some item, _ | None, Some item =>
          let '(items, rest) := list_items rest in (str_trim item :: items, rest)
      | None, None => ([], lines)
      end
  | [] => ([], [])
  end.

Definition set_list (key : bytes) (values : list bytes) (fm : Frontmatter) : Frontmatter :=
  let '(mkFrontmatter title aliases tags created updated custom) := fm in
  if bool_decide (key = lit "aliases") then mkFrontmatter title values tags created updated custom
  else if bool_decide (key = lit "tags") then mkFrontmatter title aliases values created updated custom
  else mkFrontmatter title aliases tags created updated
         (foldl (fun c v => <[key ++ lit "_item" := v]> c) custom values).

Definition set_field (key value : bytes) (fm : Frontmatter) : Frontmatter :=
  let '(mkFrontmatter title aliases tags created updated custom) := fm in
  if bool_decide (key = lit "title") then mkFrontmatter (Some (unquote value)) aliases tags created updated custom
  else if bool_decide (key = lit "created") then mkFrontmatter title aliases tags (Some value) updated custom
  else if bool_decide (key = lit "updated") then mkFrontmatter title aliases tags created (Some value) custom
  else if bool_decide (key = lit "tags") then
    mkFrontmatter title aliases (if bool_decide (unquote value = []) then tags else tags ++ [unquote value])
      created updated custom
  else mkFrontmatter title aliases tags created updated (<[key := unquote value]> custom).

(** The loop over the lines; after a list on lines of its own the line that ends
    it is skipped. *)
Fixpoint yaml_loop (fuel : nat) (lines : list bytes) (fm : Frontmatter) : Frontmatter :=
  match fuel, lines with
  | S fuel, line :: rest =>
      match split_once Byte.x3a line with
      | None => yaml_loop fuel rest fm
      | Some (key, value) =>
          let key := to_lowercase (str_trim key) in
          let value := str_trim value in
          if bool_decide (value = []) || starts_with value (lit "[") || starts_with value (lit "-") then
            if starts_with value (lit "[") && ends_with value (lit "]") then
              yaml_loop fuel rest (set_list key (inline_list value) fm)
            else
              let '(items, rest) := list_items rest in
              yaml_loop fuel (drop 1 rest) (set_list key items fm)
          else yaml_loop fuel rest (set_field key value fm)
      end
  | _, _ => fm
  end.

Definition parse_yaml_block (block : bytes) : Frontmatter :=
  let ls := filter (fun l => l <> []) (str_trim <$> lines block) in
  yaml_loop (length ls) ls Frontmatter_default.

Definition parse_frontmatter (content : bytes) : Frontmatter * bytes :=
  let content := str_trim_start content in
  if negb (starts_with content (lit "---")) then (Frontmatter_default, content)
  else
    let after_first := drop 3 content in
    match find (Byte.x0a :: lit "---") after_first with
    | Some e => (parse_yaml_block (take e after_first), str_trim_start (drop (e + 4) after_first))
    | None => (Frontmatter_default, content)
    end.

(** [if !all_tags.contains(tag) { push }]. *)
Fixpoint merge_tags (all inline : list bytes) : list bytes :=
  match inline with
  | tag :: inline => merge_tags (if decide (tag ∈ all) then all else all ++ [tag]) inline
  | [] => all
  end.

Definition parse_note (content : bytes) : ParsedNote :=
  let '(frontmatter, body) := parse_frontmatter content in
  {| pn_content := body; pn_links := parse_wikilinks body;
     pn_inline_tags := merge_tags (fm_tags frontmatter) (parse_tags body);
     pn_frontmatter := frontmatter |}.

End frontmatter.

(** ** Which links are found *)

Definition opening (embed : bool) : bytes := if embed then EMBED else OPEN.

(** The link [l] stands in the content at its offsets: opening brackets, an inner
    text that ends at the first closing brackets, and these. *)
Definition link_at (content : bytes) (l : Wikilink) : Prop :=
  exists embed inner, l = wikilink embed inner (start_offset l) /\
    take (end_offset l - start_offset l) (drop (start_offset l) content) = opening embed ++ inner ++ CLOSE /\
    (forall k, (k < length inner)%nat -> starts_with (drop k (inner ++ CLOSE)) CLOSE = false).

Record links_exact (content : bytes) (links : list Wikilink) : Prop := {
  le_at : Forall (link_at content) links;
  le_bounds : Forall (fun l => start_offset l < end_offset l <= length content)%nat links;
  le_ordered : StronglySorted (fun a b => end_offset a <= start_offset b)%nat links;
  le_all j : starts_with (drop j content) OPEN = true -> is_Some (find CLOSE (drop (j + 2) content)) ->
    exists l, l ∈ links /\ (start_offset l <= j < end_offset l)%nat;
}.

Lemma wikilink_offsets embed inner i :
  start_offset (wikilink embed inner i) = i /\
  end_offset (wikilink embed inner i) = (i + (length (opening embed) + length inner + 2))%nat.
Proof. unfold wikilink. destruct (split_display inner). cbn. destruct embed; cbn; lia. Qed.

Lemma starts_with_app a b p : starts_with a p = true -> starts_with (a ++ b) p = true.
Proof. intros (r & ->)%starts_with_spec. apply starts_with_spec. exists (r ++ b). by rewrite app_assoc. Qed.

(** The text between opening and closing brackets. *)
Lemma bracketed embed rest e :
  starts_with rest (opening embed) = true ->
  find_closing_brackets (drop (length (opening embed)) rest) = Some e ->
  let inner := take e (drop (length (opening embed)) rest) in
  length inner = e /\
  rest = opening embed ++ inner ++ CLOSE ++ drop (length (opening embed) + e + 2) rest /\
  (forall k, (k < length inner)%nat -> starts_with (drop k (inner ++ CLOSE)) CLOSE = false).
Proof.
  intros Ho Hf. set (after := drop (length (opening embed)) rest) in *. intros inner.
  pose proof (find_spec _ _ _ Hf) as [Hc He]. assert (length inner = e) as Hl by (unfold inner; rewrite length_take; lia).
  assert (after = inner ++ CLOSE ++ drop (e + 2) after) as Ha.
  { rewrite <- (take_drop e after) at 1. unfold inner. f_equal. rewrite (starts_with_split _ _ Hc) at 1.
    rewrite drop_drop. done. }
  split_and!; [done| |].
  - rewrite (starts_with_split _ _ Ho) at 1. fold after. rewrite Ha at 1. do 3 f_equal.
    unfold after. rewrite drop_drop. f_equal. lia.
  - intros k Hk. apply not_true_is_false. intros Hs. apply (starts_with_app _ (drop (e + 2) after)) in Hs.
    rewrite <- drop_app_le, <- app_assoc, <- Ha in Hs by (rewrite length_app; lia).
    rewrite (find_first _ _ _ k Hf) in Hs; [done|lia].
Qed.

(** What the loop gives from offset [i] on. *)
Record links_from (content : bytes) (i : nat) (links : list Wikilink) : Prop := {
  lf_at : Forall (link_at content) links;
  lf_bounds : Forall (fun l => i <= start_offset l /\ start_offset l < end_offset l <= length content)%nat links;
  lf_ordered : StronglySorted (fun a b => end_offset a <= start_offset b)%nat links;
  lf_all j : (i <= j)%nat -> starts_with (drop j content) OPEN = true ->
    is_Some (find CLOSE (drop (j + 2) content)) ->
    exists l, l ∈ links /\ (start_offset l <= j < end_offset l)%nat;
}.

Lemma links_from_nil content i : drop i content = [] -> links_from content i [].
Proof.
  intros Hn. constructor; [constructor..|]. intros j Hj Ho. replace j with (i + (j - i))%nat in Ho by lia.
  rewrite <- drop_drop, Hn, drop_nil in Ho. done.
Qed.

(** Nothing starts at [i]. *)
Lemma links_from_skip content i links :
  (starts_with (drop i content) OPEN = true -> find CLOSE (drop (i + 2) content) = None) ->
  links_from content (S i) links -> links_from content i links.
Proof.
  intros Hno [Ha Hb Ho Hall]. constructor; [done| |done|].
  - eapply Forall_impl; [exact Hb|]. intros l. cbn. lia.
  - intros j Hj Hs Hf. destruct (decide (j = i)) as [->|]; [|apply Hall; [lia|done..]].
    rewrite Hno in Hf by done. by destruct Hf.
Qed.

(** A link starts at [i]. *)
Lemma links_from_cons content i l links :
  link_at content l -> start_offset l = i -> (i < end_offset l <= length content)%nat ->
  links_from content (end_offset l) links -> links_from content i (l :: links).
Proof.
  intros Hl Hi He [Ha Hb Ho Hall]. constructor.
  - by constructor.
  - constructor; [lia|]. eapply Forall_impl; [exact Hb|]. intros l'. cbn. lia.
  - constructor; [done|]. eapply Forall_impl; [exact Hb|]. intros l'. cbn. lia.
  - intros j Hj Hs Hf. destruct (decide (j < end_offset l)%nat).
    + exists l. split; [left|lia].
    + destruct (Hall j) as (l' & Hl' & ?); [lia|done..|]. exists l'. split; [by right|done].
Qed.

Lemma wikilinks_loop_spec content fuel i :
  (length (drop i content) <= fuel)%nat -> links_from content i (wikilinks_loop fuel i (drop i content)).
Proof.
  revert i; induction fuel as [|fuel IH]; intros i Hl.
  { apply links_from_nil, length_zero_iff_nil. lia. }
  destruct (drop i content) as [|b rest'] eqn:Hr; [by apply links_from_nil|]. cbn [wikilinks_loop].
  assert (rest' = drop (S i) content) as Hr'.
  { replace (S i) with (i + 1)%nat by lia. by rewrite <- drop_drop, Hr. }
  assert (i < length content)%nat as Hi.
  { apply (f_equal length) in Hr. rewrite length_drop in Hr. cbn in Hr. lia. }
  set (rest := b :: rest') in *. remember (starts_with rest EMBED) as embed eqn:Hemb.
  replace (if embed then 3%nat else 2%nat) with (length (opening embed)) by by destruct embed.
  destruct (if embed || starts_with rest OPEN then _ else None) as [e|] eqn:Hf.
  - assert (starts_with rest (opening embed) = true) as Ho.
    { destruct embed; [done|]. cbn [orb opening] in *. by destruct (starts_with rest OPEN). }
    assert (find_closing_brackets (drop (length (opening embed)) rest) = Some e) as Hc.
    { by destruct (embed || starts_with rest OPEN). }
    destruct (bracketed embed rest e Ho Hc) as (Hlen & Hsplit & Hfirst).
    set (inner := take e _) in *. set (n := (length (opening embed) + e + 2)%nat) in *.
    destruct (wikilink_offsets embed inner i) as [Hs He]. rewrite Hlen in He. fold n in He.
    assert (n <= length rest)%nat as Hn.
    { rewrite Hsplit. rewrite !length_app, Hlen. change (length CLOSE) with 2%nat. unfold n. lia. }
    rewrite <- Hr in Hn |- *. rewrite length_drop in Hn. rewrite drop_drop.
    apply links_from_cons; rewrite ?Hs, ?He; [|done|unfold n; lia|].
    + exists embed, inner. rewrite Hs, He. split_and!; [done| |done].
      replace (i + n - i)%nat with n by lia. rewrite Hr, Hsplit, !app_assoc. rewrite take_app_length'; [done|].
      rewrite !length_app, Hlen. change (length CLOSE) with 2%nat. unfold n. lia.
    + apply IH. rewrite <- Hr, length_drop in Hl. rewrite length_drop. unfold n. lia.
  - apply links_from_skip; [|rewrite Hr'; apply IH; rewrite <- Hr'; cbn in Hl; lia].
    rewrite Hr. intros Ho. rewrite Ho, orb_true_r in Hf.
    assert (embed = false) as E.
    { cbn [rest OPEN starts_with] in Ho. apply andb_true_iff in Ho as [<-%bool_decide_eq_true _]. by subst. }
    rewrite E in Hf. rewrite <- drop_drop, Hr. exact Hf.
Qed.

Lemma parse_wikilinks_exact content : links_exact content (parse_wikilinks content).
Proof.
  destruct (wikilinks_loop_spec content (length content) 0 ltac:(done)) as [Ha Hb Ho Hall].
  constructor; [done| |done|intros j; apply Hall; lia]. eapply Forall_impl; [exact Hb|]. cbn. lia.
Qed.

(** ** Which tags are found *)

(** The byte before offset [i]. *)
Definition before (content : bytes) (i : nat) : option byte :=
  match i with O => None | S j => content !! j end.

(** At offset [i] a [#] at a boundary introduces the longest run of tag characters. *)
Definition tag_at (content : bytes) (i : nat) (tag : bytes) : Prop :=
  content !! i = Some hash /\ boundary (before content i) = true /\
  tag = take_while is_tag_char (drop (S i) content).

(** Text without code and comments. *)
Definition plain (s : bytes) : Prop := backtick ∉ s /\ find COMMENT s = None.

Definition tag_ok (tag : bytes) : Prop := (0 < length tag <= 100)%nat.
#[global] Instance tag_ok_dec tag : Decision (tag_ok tag).
Proof. unfold tag_ok. apply _. Defined.

Record tags_exact (content : bytes) (tags : list bytes) : Prop := {
  te_distinct : NoDup tags;
  te_sound tag : tag ∈ tags -> tag_ok tag /\ exists i, tag_at content i tag;
  te_complete i tag : plain content -> tag_at content i tag -> tag_ok tag -> tag ∈ tags;
}.

Lemma add_tag_eq tag tags : add_tag tag tags = if decide (tag_ok tag /\ tag ∉ tags) then tags ++ [tag] else tags.
Proof. unfold add_tag, tag_ok. case_bool_decide; by case_decide. Qed.

Lemma elem_of_add_tag t tag tags : t ∈ add_tag tag tags <-> t ∈ tags \/ (t = tag /\ tag_ok tag).
Proof.
  rewrite add_tag_eq. case_decide as Hd; [set_solver|]. split; [by left|].
  intros [?|[-> Hok]]; [done|]. destruct (decide (tag ∈ tags)) as [?|Hn]; [done|]. by destruct Hd.
Qed.

Lemma NoDup_add_tag tag tags : NoDup tags -> NoDup (add_tag tag tags).
Proof.
  intros Hn. rewrite add_tag_eq. case_decide as Hd; [|done]. apply NoDup_app. split_and!; [done| |].
  - intros x Hx ->%list_elem_of_singleton. by destruct Hd.
  - apply NoDup_singleton.
Qed.

Lemma take_while_prefix f s : s = take_while f s ++ drop (length (take_while f s)) s.
Proof. induction s as [|b s IH]; [done|]. cbn. destruct (f b); [|done]. cbn. by rewrite <- IH. Qed.

Lemma take_while_all f s : Forall (fun b => f b = true) (take_while f s).
Proof. induction s as [|b s IH]; cbn; [constructor|]. destruct (f b) eqn:E; by constructor. Qed.

Lemma last_prev (pre : bytes) b t : last ((pre ++ [b]) ++ t) = Some (default b (last t)).
Proof. rewrite last_app. destruct (last t); [done|]. by rewrite last_snoc. Qed.

Lemma before_app pre rest : before (pre ++ rest) (length pre) = last pre.
Proof.
  destruct pre as [|x pre] using rev_ind; [done|]. rewrite length_app. cbn [length]. rewrite Nat.add_1_r. cbn [before].
  rewrite last_snoc, <- app_assoc. by apply list_lookup_middle.
Qed.

(** The loop on a content cut before [rest]. *)
Lemma tags_loop_sound fuel code inline comment pre rest tags content :
  content = pre ++ rest -> NoDup tags ->
  let tags' := tags_loop fuel code inline comment (last pre) rest tags in
  NoDup tags' /\ forall t, t ∈ tags' -> t ∈ tags \/ (tag_ok t /\ exists i, tag_at content i t).
Proof.
  revert code inline comment pre rest tags;
    induction fuel as [|fuel IH]; intros code inline comment pre rest tags Hc Hn; [by split; [|left]|].
  destruct rest as [|b rest']; [by split; [|left]|]. cbn [tags_loop].
  assert (forall cd il cm n, (n < length (b :: rest'))%nat ->
    let c := default b ((b :: rest') !! n) in
    let tags' := tags_loop fuel cd il cm (Some c) (drop (S n) (b :: rest')) tags in
    NoDup tags' /\ forall t, t ∈ tags' -> t ∈ tags \/ (tag_ok t /\ exists i, tag_at content i t)) as Hskip.
  { intros cd il cm n Hlen. destruct (lookup_lt_is_Some_2 (b :: rest') n Hlen) as [c' Hc'].
    rewrite Hc'. cbv zeta. change (default b (Some c')) with c'. rewrite <- (last_snoc c' (pre ++ take n (b :: rest'))).
    rewrite <- app_assoc, <- take_S_r by done. apply IH; [|done]. by rewrite <- app_assoc, take_drop. }
  destruct (starts_with (b :: rest') FENCE) eqn:E1.
  { apply starts_with_spec in E1 as (r & E1). rewrite E1 in *. by apply (Hskip (negb code) inline comment 2%nat); cbn; lia. }
  destruct (bool_decide (b = backtick) && negb code) eqn:E2.
  { by apply (Hskip code (negb inline) comment 0%nat); cbn; lia. }
  destruct (starts_with (b :: rest') COMMENT) eqn:E3.
  { apply starts_with_spec in E3 as (r & E3). rewrite E3 in *. by apply (Hskip code inline true 3%nat); cbn; lia. }
  destruct (comment && starts_with (b :: rest') COMMENT_END) eqn:E4.
  { apply andb_true_iff in E4 as [_ (r & E4)%starts_with_spec]. rewrite E4 in *.
    by apply (Hskip code inline false 2%nat); cbn; lia. }
  destruct (negb code && negb inline && negb comment && bool_decide (b = hash) && boundary (last pre)) eqn:E5.
  2: { by apply (Hskip code inline comment 0%nat); cbn; lia. }
  apply andb_true_iff in E5 as [[_ ->%bool_decide_eq_true]%andb_true_iff Hb]. clear Hskip.
  set (tag := take_while is_tag_char rest'). rewrite <- (last_prev pre hash tag).
  destruct (IH code inline comment ((pre ++ [hash]) ++ tag) (drop (length tag) rest') (add_tag tag tags)) as [Hn' Hin'].
  { rewrite Hc, <- !app_assoc. cbn [app]. do 2 f_equal. apply take_while_prefix. }
  { by apply NoDup_add_tag. }
  split; [exact Hn'|]. intros t [[Ht|[-> Hok]]%elem_of_add_tag|?]%Hin'; [by left| |by right].
  right. split; [done|]. exists (length pre). subst content. split_and!.
  - by apply list_lookup_middle.
  - by rewrite before_app.
  - unfold tag. f_equal. rewrite cons_middle, app_assoc. rewrite drop_app_length'; [done|].
    rewrite length_app. cbn. lia.
Qed.

(** Fuel beyond the length, and a different byte before with the same status, do
    not matter. *)
Lemma tags_loop_ext fuel fuel' code inline comment prev prev' rest tags :
  (length rest <= fuel)%nat -> (length rest <= fuel')%nat -> boundary prev = boundary prev' ->
  tags_loop fuel code inline comment prev rest tags = tags_loop fuel' code inline comment prev' rest tags.
Proof.
  revert fuel' code inline comment prev prev' rest tags;
    induction fuel as [|fuel IH]; intros [|fuel'] code inline comment prev prev' [|b rest'] tags Hf Hf' Hp;
    try done; try (cbn in Hf, Hf'; lia).
  cbn [tags_loop]. rewrite Hp. cbn [length] in Hf, Hf'.
  repeat case_match; apply IH; try done; rewrite ?length_drop; cbn [length]; lia.
Qed.

Lemma plain_drop n s : plain s -> plain (drop n s).
Proof.
  intros [Hb Hc]. split.
  - intros Hin. apply Hb. rewrite <- (take_drop n s). apply elem_of_app. by right.
  - destruct (find COMMENT (drop n s)) as [k|] eqn:E; [|done]. apply find_spec in E as [E _].
    rewrite drop_drop in E. by rewrite (find_none _ _ _ Hc) in E.
Qed.

(** What may follow a plain text: nothing, or a fence. *)
Definition fence_or_end (r : bytes) : Prop := r = [] \/ exists r', r = FENCE ++ r'.

Lemma starts_with_stop a r p :
  fence_or_end r -> backtick ∉ p -> starts_with (a ++ r) p = true -> starts_with a p = true.
Proof.
  intros Hr. revert p; induction a as [|x a IH]; intros [|y p] Hp Hs; [done| |done|].
  - destruct Hr as [->|[r' ->]]; [done|]. cbn in Hs. case_bool_decide; [|done]. subst y. set_solver.
  - cbn in Hs |- *. apply andb_true_iff in Hs as [-> Hs]. cbn. apply IH; [set_solver|done].
Qed.

Lemma take_while_stop a r : fence_or_end r -> take_while is_tag_char (a ++ r) = take_while is_tag_char a.
Proof.
  intros Hr. induction a as [|x a IH]; cbn; [by destruct Hr as [->|[r' ->]]|]. by rewrite IH.
Qed.

Lemma length_take_while f s : (length (take_while f s) <= length s)%nat.
Proof. induction s as [|b s IH]; [done|]. cbn. destruct (f b); cbn; lia. Qed.

(** A turn at a byte of plain text. *)
Lemma tags_loop_plain fuel code prev b a r tags :
  plain (b :: a) -> fence_or_end r ->
  tags_loop (S fuel) code false false prev (b :: a ++ r) tags =
  (if negb code && bool_decide (b = hash) && boundary prev then
     let tag := take_while is_tag_char a in
     tags_loop fuel code false false (Some (default b (last tag))) (drop (length tag) a ++ r) (add_tag tag tags)
   else tags_loop fuel code false false (Some b) (a ++ r) tags).
Proof.
  intros [Hb Hc] Hr. cbn [tags_loop].
  assert (b <> backtick) as Hne by set_solver.
  assert (starts_with (b :: a ++ r) FENCE = false) as ->.
  { cbn. by rewrite bool_decide_eq_false_2. }
  rewrite (bool_decide_eq_false_2 (b = backtick)) by done. cbn [andb].
  assert (starts_with (b :: a ++ r) COMMENT = false) as ->.
  { apply not_true_is_false. intros Hs. apply (starts_with_stop (b :: a)) in Hs; [|done|set_solver].
    pose proof (find_none _ _ 0 Hc) as Hn. cbn [drop] in Hn. congruence. }
  cbn [negb andb]. rewrite !andb_true_r, take_while_stop by done.
  case_match; [|done]. cbv zeta. rewrite drop_app_le by apply length_take_while. done.
Qed.

(** A turn at a fence. *)
Lemma tags_loop_fence fuel code inline comment prev r tags :
  (length r < fuel)%nat ->
  tags_loop fuel code inline comment prev (FENCE ++ r) tags =
  tags_loop (length r) (negb code) inline comment None r tags.
Proof.
  intros Hf. destruct fuel as [|fuel]; [lia|].
  transitivity (tags_loop fuel (negb code) inline comment (Some backtick) r tags).
  { assert (starts_with (FENCE ++ r) FENCE = true) as E by (apply starts_with_spec; eauto).
    cbn [app FENCE tags_loop] in E |- *. by rewrite E. }
  apply tags_loop_ext; [lia|done|done].
Qed.

(** Plain text is scanned as it is alone. *)
Lemma tags_loop_text fuel prev a r tags :
  plain a -> fence_or_end r -> (length (a ++ r) <= fuel)%nat ->
  tags_loop fuel false false false prev (a ++ r) tags =
  tags_loop (length r) false false false None r (tags_loop (length a) false false false prev a tags).
Proof.
  revert prev a tags; induction fuel as [|fuel IH]; intros prev a tags Ha Hr Hf.
  { destruct a; [|cbn in Hf; lia]. destruct r; [done|cbn in Hf; lia]. }
  destruct a as [|b a].
  { change (tags_loop (length []) false false false prev [] tags) with tags. destruct Hr as [->|[r' ->]]; [done|].
    rewrite app_nil_l in Hf. rewrite length_app in Hf. change (length FENCE) with 3%nat in Hf.
    rewrite app_nil_l, !tags_loop_fence; [done|rewrite length_app; cbn; lia|lia]. }
  assert (plain a) as Ha' by (apply (plain_drop 1 (b :: a)); done).
  assert (fence_or_end []) as Hnil by by left.
  change ((b :: a) ++ r) with (b :: a ++ r) in *. cbn [length] in Hf |- *. rewrite length_app in Hf.
  rewrite (tags_loop_plain fuel false) by done.
  pose proof (tags_loop_plain (length a) false prev b a [] tags Ha Hnil) as E.
  cbv zeta in E. rewrite !app_nil_r in E. rewrite E. clear E. pose proof (length_take_while is_tag_char a).
  case_match; cbv zeta.
  - rewrite IH; [|by apply plain_drop|done|rewrite length_app, length_drop; lia].
    f_equal. apply tags_loop_ext; [done|rewrite length_drop; lia|done].
  - apply IH; [done..|]. rewrite length_app. lia.
Qed.

(** Code between fences is skipped. *)
Lemma tags_loop_code fuel prev c r tags :
  plain c -> (length (c ++ FENCE ++ r) <= fuel)%nat ->
  tags_loop fuel true false false prev (c ++ FENCE ++ r) tags =
  tags_loop (length r) false false false None r tags.
Proof.
  revert prev c; induction fuel as [|fuel IH]; intros prev c Hc Hf; [rewrite length_app in Hf; cbn in Hf; lia|].
  destruct c as [|b c].
  - cbn in Hf. rewrite app_nil_l, tags_loop_fence by lia. done.
  - change ((b :: c) ++ FENCE ++ r) with (b :: c ++ FENCE ++ r) in *.
    rewrite (tags_loop_plain fuel true) by (try done; right; eauto). cbn [negb andb].
    apply IH; [apply (plain_drop 1 (b :: c)); done|cbn [length] in Hf; lia].
Qed.

(** *** Documents *)

(** Plain text with fenced code in it: a first text, then code and text in turn. *)
Definition render (p : bytes) (l : list (bytes * bytes)) : bytes :=
  p ++ concat ((fun e => FENCE ++ e.1 ++ FENCE ++ e.2) <$> l).

Lemma merge_tags_app a b c : merge_tags a (b ++ c) = merge_tags (merge_tags a b) c.
Proof. revert a; induction b as [|x b IH]; intros a; [done|]. cbn. apply IH. Qed.

Lemma elem_of_merge_tags t a b : t ∈ merge_tags a b <-> t ∈ a \/ t ∈ b.
Proof.
  revert a; induction b as [|x b IH]; intros a; cbn; [set_solver|]. rewrite IH. case_decide; set_solver.
Qed.

Lemma merge_tags_assoc a b c : merge_tags (merge_tags a b) c = merge_tags a (merge_tags b c).
Proof.
  revert b; induction c as [|x c IH]; intros b; [done|]. cbn [merge_tags]. rewrite <- IH. f_equal.
  destruct (decide (x ∈ b)) as [Hb|Hb].
  - apply decide_True. apply elem_of_merge_tags. by right.
  - by rewrite merge_tags_app.
Qed.

Lemma add_tag_merge tag tags : add_tag tag tags = merge_tags tags (add_tag tag []).
Proof.
  rewrite !add_tag_eq. destruct (decide (tag_ok tag)) as [Hok|Hok].
  - rewrite (decide_True (P := tag_ok tag /\ tag ∉ [])) by (split; [done|set_solver]). cbn.
    destruct (decide (tag ∈ tags)); case_decide; naive_solver.
  - rewrite !decide_False by naive_solver. done.
Qed.

(** The tags so far stay, in front. *)
Lemma tags_loop_merge fuel code inline comment prev rest tags :
  tags_loop fuel code inline comment prev rest tags =
  merge_tags tags (tags_loop fuel code inline comment prev rest []).
Proof.
  revert code inline comment prev rest tags;
    induction fuel as [|fuel IH]; intros code inline comment prev [|b rest] tags; try done.
  cbn [tags_loop]. repeat case_match; try apply IH.
  rewrite (IH _ _ _ _ _ (add_tag _ tags)), (IH _ _ _ _ _ (add_tag _ [])).
  by rewrite add_tag_merge, merge_tags_assoc.
Qed.

Lemma tags_of_text p tags : tags_loop (length p) false false false None p tags = merge_tags tags (parse_tags p).
Proof. apply tags_loop_merge. Qed.

Lemma parse_tags_document p l :
  plain p -> Forall (fun e => plain e.1 /\ plain e.2) l ->
  parse_tags (render p l) = foldl merge_tags (parse_tags p) (parse_tags <$> l.*2).
Proof.
  intros Hp Hl. unfold parse_tags at 1.
  change (parse_tags p) with (tags_loop (length p) false false false None p []).
  generalize (@nil bytes) as tags. revert p Hp; induction Hl as [|[c q] l [Hc Hq] Hl IH]; intros p Hp tags.
  { unfold render. cbn. by rewrite app_nil_r. }
  cbn [fst snd] in Hc, Hq.
  assert (render p ((c, q) :: l) = p ++ FENCE ++ c ++ FENCE ++ render q l) as ->.
  { unfold render. cbn [fmap list_fmap concat fst snd]. by rewrite <- !app_assoc. }
  rewrite tags_loop_text; [|done|right; eauto|done].
  rewrite tags_loop_fence by (rewrite (length_app FENCE); cbn; lia). cbn [negb].
  rewrite tags_loop_code by done. cbn [fmap list_fmap foldl snd]. rewrite IH by done.
  by rewrite tags_of_text.
Qed.

(** ** The theorem *)

Lemma tag_char_not_hash : is_tag_char hash = false.
Proof. reflexivity. Qed.

(** No tag starts inside a run of tag characters. *)
Lemma no_tag_inside content pre tag rest i t :
  content = (pre ++ [hash]) ++ tag ++ rest -> Forall (fun b => is_tag_char b = true) tag ->
  (length pre < i)%nat -> tag_at content i t -> (length ((pre ++ [hash]) ++ tag) <= i)%nat.
Proof.
  intros Hc Htag Hi (Hh & _). destruct (decide (length ((pre ++ [hash]) ++ tag) <= i)%nat) as [|Hlt]; [done|].
  assert (length (pre ++ [hash]) = S (length pre)) as Hl by (rewrite length_app; cbn; lia).
  rewrite Hc, lookup_app_r in Hh by lia. rewrite length_app in Hlt. rewrite lookup_app_l in Hh by lia.
  rewrite Forall_forall in Htag. apply list_elem_of_lookup_2, Htag in Hh. by rewrite tag_char_not_hash in Hh.
Qed.

Lemma tags_loop_complete fuel pre rest tags content i t :
  content = pre ++ rest -> plain rest -> (length rest <= fuel)%nat -> tag_ok t ->
  (t ∈ tags \/ ((length pre <= i)%nat /\ tag_at content i t)) ->
  t ∈ tags_loop fuel false false false (last pre) rest tags.
Proof.
  intros Hc Hp Hf Ht. revert pre rest tags Hc Hp Hf;
    induction fuel as [|fuel IH]; intros pre rest tags Hc Hp Hf Hin.
  all: destruct rest as [|b a]; [|try (cbn in Hf; lia)].
  1-2: destruct Hin as [Hin|[Hi (Hh & _)]]; [done|];
       apply lookup_lt_Some in Hh; rewrite Hc, app_nil_r in Hh; lia.
  assert (plain a) as Hp' by (apply (plain_drop 1 (b :: a)); done).
  pose proof (tags_loop_plain fuel false (last pre) b a [] tags Hp (or_introl eq_refl)) as E.
  cbv zeta in E. rewrite !app_nil_r in E. rewrite E. clear E. cbn [negb andb length] in Hf |- *.
  pose proof (take_while_prefix is_tag_char a) as Hrun. pose proof (take_while_all is_tag_char a) as Hall.
  set (tag := take_while is_tag_char a) in *.
  destruct (bool_decide (b = hash) && boundary (last pre)) eqn:Eh.
  - apply andb_true_iff in Eh as [->%bool_decide_eq_true Hb]. rewrite <- (last_prev pre hash tag).
    apply IH; [|by apply plain_drop|rewrite length_drop; lia|].
    { rewrite Hc, <- !app_assoc. cbn [app]. by rewrite Hrun at 1. }
    rewrite elem_of_add_tag. destruct Hin as [Hin|[Hi Hat]]; [by do 2 left|].
    destruct (decide (i = length pre)) as [->|Hne].
    + left. right. destruct Hat as (_ & _ & Et).
      assert (t = tag) as <-; [|done]. rewrite Et. unfold tag. f_equal.
      rewrite Hc, cons_middle, app_assoc, drop_app_length'; [done|rewrite length_app; cbn; lia].
    + right. split; [|done]. eapply no_tag_inside; [|exact Hall|lia|exact Hat].
      rewrite Hc, <- !app_assoc. cbn [app]. by rewrite Hrun at 1.
  - rewrite <- (last_snoc b pre). apply IH; [by rewrite <- app_assoc|done|lia|].
    destruct Hin as [Hin|[Hi Hat]]; [by left|]. right. split; [|done]. rewrite length_app. cbn.
    destruct (decide (i = length pre)) as [->|]; [|lia]. destruct Hat as (Hh & Hb & _).
    rewrite Hc in Hh, Hb. rewrite list_lookup_middle in Hh by done. injection Hh as ->.
    rewrite before_app in Hb. by rewrite Hb in Eh.
Qed.

Lemma parse_tags_exact content : tags_exact content (parse_tags content).
Proof.
  unfold parse_tags. change None with (last (@nil byte)).
  destruct (tags_loop_sound (length content) false false false [] content [] content) as [Hn Hs];
    [done|constructor|]. constructor; [done| |].
  - intros t [Ht%elem_of_nil|?]%Hs; done.
  - intros i t Hp Hat Ht. apply (tags_loop_complete _ [] content [] content i t); try done.
    right. split; [cbn; lia|done].
Qed.

(** C21: the links and tags of a note are those it contains.  For every content,
    [parse_wikilinks] gives links that stand in it between double brackets, in
    order and without overlap, and no pair of opening brackets with closing ones
    after it lies outside of them all; [parse_tags] gives distinct tags of one to
    a hundred characters, each a whole run of tag characters after a [#] at a
    boundary, and in text without code or comments all of them.  In a document
    with fenced code the tags are those of the texts around it, merged in order. *)
Theorem note_parse_exact content p l :
  links_exact content (parse_wikilinks content) /\ tags_exact content (parse_tags content) /\
  (plain p -> Forall (fun e => plain e.1 /\ plain e.2) l ->
   parse_tags (render p l) = foldl merge_tags (parse_tags p) (parse_tags <$> l.*2)).
Proof.
  split_and!; [apply parse_wikilinks_exact|apply parse_tags_exact|apply parse_tags_document].
Qed.
