(* ===== verification/NoteSearch.v ===== *)
(** * NoteSearch: full-text search over the notes ([src/src/notes/search.rs])

    An inverted index: under [fts:term] the notes that contain the term and how
    often, under [fts:meta:path] a checksum of the content last indexed.  The
    theorem states what the index holds after any history and which notes a query
    selects; the order of the hits, by floating-point scores, is not modelled. *)
From Stdlib Require Import ZArith Lia.
From stdpp Require Import base tactics numbers list gmap strings sorting.
From S2P Require Import Prelude Bytes SortedMap Utf8 Text Engine Kv Postings.
Local Open Scope Z_scope.

Record TermEntry := mkTermEntry {
  te_path : bytes;
  te_count : Z;
}.
#[global] Instance TermEntry_eq_dec : EqDecision TermEntry.
Proof. solve_decision. Defined.

Record FtsMeta := mkFtsMeta {
  fm_checksum : Z;
  fm_word_count : Z;
}.

(** [serde_json] on the two records, [DefaultHasher] on a content, and the order
    in which a [HashMap] gives its entries. *)
Class SearchEnv := {
  entries_to_json : list TermEntry -> bytes;
  entries_from_json : bytes -> option (list TermEntry);
  fts_meta_to_json : FtsMeta -> bytes;
  fts_meta_from_json : bytes -> option FtsMeta;
  checksum : bytes -> Z;
  hash_order : gmap bytes Z -> list (bytes * Z);
  entries_roundtrip es :
    Forall (fun e => is_Some (from_utf8 (te_path e)) /\ 0 <= te_count e <= u64_max) es ->
    entries_from_json (entries_to_json es) = Some es;
  fts_meta_roundtrip meta :
    0 <= fm_checksum meta <= u64_max -> 0 <= fm_word_count meta <= u64_max ->
    fts_meta_from_json (fts_meta_to_json meta) = Some meta;
  checksum_range c : 0 <= checksum c <= u64_max;
  hash_order_perm tf : hash_order tf ≡ₚ map_to_list tf;
}.

Definition FTS_PREFIX : bytes := Eval vm_compute in lit "fts:".
Definition META_INFIX : bytes := Eval vm_compute in lit "meta:".

Definition STOP_WORDS : list bytes := Eval vm_compute in lit <$>
  [ "the"; "a"; "an"; "and"; "or"; "but"; "in"; "on"; "at"; "to"; "for"; "of"; "with"; "by";
    "from"; "as"; "is"; "was"; "are"; "were"; "be"; "been"; "being"; "have"; "has"; "had"; "do";
    "does"; "did"; "will"; "would"; "could"; "should"; "may"; "might"; "shall"; "can"; "not"; "no";
    "nor"; "so"; "if"; "then"; "than"; "that"; "this"; "these"; "those"; "it"; "its"; "he"; "she";
    "they"; "them"; "we"; "you"; "all"; "each"; "every"; "some"; "any"; "both"; "few"; "more";
    "most"; "other"; "such"; "only"; "own"; "same"; "too"; "very"; "just"; "also"; "about";
    "above"; "after"; "again"; "against"; "below"; "between"; "into"; "through"; "during";
    "before"; "after"; "up"; "down"; "out"; "off"; "over"; "under"; "here"; "there"; "where";
    "why"; "how" ]%string.

Section search.
Context {St : Type} `{!KvStore St} `{!Unicode} `{!SearchEnv}.

(** ** Terms *)

Definition push_term (current : bytes) (terms : list bytes) : list bytes :=
  let term := to_lowercase current in
  if (2 <=? length term)%nat && (length term <=? 50)%nat && negb (bool_decide (term ∈ STOP_WORDS))
  then terms ++ [term] else terms.

Fixpoint tokenize_loop (cs : list bytes) (current : bytes) (terms : list bytes) : list bytes :=
  match cs with
  | ch :: cs =>
      if is_alphanumeric ch then tokenize_loop cs (current ++ ch) terms
      else match current with
           | [] => tokenize_loop cs current terms
           | _ => tokenize_loop cs [] (push_term current terms)
           end
  | [] => match current with [] => terms | _ => push_term current terms end
  end.
Definition tokenize (content : bytes) : list bytes := tokenize_loop (chars content) [] [].

(** [*tf_map.entry(term).or_insert(0) += 1], over the terms. *)
Definition tf_map (terms : list bytes) : gmap bytes Z :=
  foldl (fun tf term => <[term := default 0 (tf !! term) + 1]> tf) ∅ terms.

(** ** The index *)

Definition fts_meta_key (path : bytes) : bytes := FTS_PREFIX ++ META_INFIX ++ path.
Definition parse_entries (v : bytes) : list TermEntry := default [] (entries_from_json v).

(** The entry of a note is updated in place, or appended. *)
Fixpoint upsert (path : bytes) (count : Z) (entries : list TermEntry) : list TermEntry :=
  match entries with
  | e :: entries =>
      if decide (te_path e = path) then {| te_path := te_path e; te_count := count |} :: entries
      else e :: upsert path count entries
  | [] => [{| te_path := path; te_count := count |}]
  end.

Definition index_term (path : bytes) (tc : bytes * Z) : KvM St unit :=
  v ← get (FTS_PREFIX ++ tc.1);
  let entries := match v with Some b => parse_entries b | None => [] end in
  put (FTS_PREFIX ++ tc.1) (entries_to_json (upsert path tc.2 entries)).

(** Whether the content is the one last indexed, by its checksum. *)
Definition unchanged (v : option bytes) (content : bytes) : outcome bool :=
  match v with
  | Some b =>
      let* meta := ok_or (fts_meta_from_json b) InvalidArgument in
      Ok (fm_checksum meta =? checksum content)
  | None => Ok false
  end.

Definition index_note (path content : bytes) : KvM St unit :=
  v ← get (fts_meta_key path);
  same ← kv_lift (unchanged v content);
  if (same : bool) then mret tt
  else
    let terms := tokenize content in
    kv_for (hash_order (tf_map terms)) (index_term path);;
    put (fts_meta_key path)
      (fts_meta_to_json {| fm_checksum := checksum content; fm_word_count := len terms |}).

(** What becomes of an entry of the index when the note goes. *)
Definition update_of (path : bytes) (e : bytes * bytes) : option (bytes * list TermEntry) :=
  match str_strip_prefix FTS_PREFIX (from_utf8_lossy e.1) with
  | Some term =>
      if starts_with term META_INFIX then None
      else
        let entries := parse_entries e.2 in
        if bool_decide (path ∈ te_path <$> entries)
        then Some (term, filter (fun e => te_path e <> path) entries) else None
  | None => None
  end.

Definition write_back (u : bytes * list TermEntry) : KvM St unit :=
  match u.2 with
  | [] => remove (FTS_PREFIX ++ u.1)
  | entries => put (FTS_PREFIX ++ u.1) (entries_to_json entries)
  end.

Definition remove_note (path : bytes) : KvM St unit :=
  found ← search FTS_PREFIX None 10000;
  kv_for (omap (update_of path) found.1) write_back;;
  remove (fts_meta_key path).

(** ** Queries *)

Definition paths_of (v : option bytes) : gset bytes :=
  match v with Some b => list_to_set (te_path <$> parse_entries b) | None => ∅ end.

(** The notes that get a score. *)
Fixpoint search_terms (terms : list bytes) (scored : gset bytes) : KvM St (gset bytes) :=
  match terms with
  | term :: terms =>
      v ← get (FTS_PREFIX ++ term);
      search_terms terms (scored ∪ paths_of v)
  | [] => mret scored
  end.

Fixpoint intersect_terms (terms : list bytes) (candidates : gset bytes) : KvM St (gset bytes) :=
  match terms with
  | term :: terms =>
      v ← get (FTS_PREFIX ++ term);
      let candidates := candidates ∩ paths_of v in
      if decide (candidates = ∅) then mret ∅ else intersect_terms terms candidates
  | [] => mret candidates
  end.

Definition search_phrase (phrase_terms : list bytes) : KvM St (gset bytes) :=
  match phrase_terms with
  | [] => mret ∅
  | first :: rest =>
      v ← get (FTS_PREFIX ++ first);
      match v with
      | None => mret ∅
      | Some _ => intersect_terms rest (paths_of v)
      end
  end.

(** The phrase of a quoted query. *)
Definition phrase_of (query : bytes) : option bytes :=
  if starts_with query [Byte.x22] && ends_with query [Byte.x22] && (1 <? length query)%nat
  then Some (take (length query - 2) (drop 1 query)) else None.

(** The notes a query selects. *)
Definition search_notes (query : bytes) : KvM St (gset bytes) :=
  let query := str_trim query in
  match phrase_of query with
  | Some phrase => search_phrase (tokenize phrase)
  | None => search_terms (tokenize query) ∅
  end.

(** ** Snippets *)

(** [content.chars().take(100).collect()]. *)
Definition first_chars (content : bytes) : bytes :=
  let truncated := concat (take 100 (chars content)) in
  if (100 <? length content)%nat then truncated ++ lit "..." else truncated.

Definition generate_snippet (content term : bytes) : outcome bytes :=
  match term with
  | [] => Ok (first_chars content)
  | _ =>
      match find term (to_lowercase content) with
      | Some pos =>
          let start := (pos - 40)%nat in
          let stop := Nat.min (pos + length term + 60) (length content) in
          let* snippet := str_slice content start stop in
          Ok ((if (0 <? start)%nat then lit "..." else []) ++ snippet ++
              (if (stop <? length content)%nat then lit "..." else []))
      | None => Ok (first_chars content)
      end
  end.

(** On ASCII text a snippet is always found; elsewhere a cut can fall inside a
    character, or beyond the end where lowering changes lengths. *)
Lemma generate_snippet_ascii content term :
  Forall is_ascii content -> exists snippet, generate_snippet content term = Ok snippet.
Proof.
  intros Ha. unfold generate_snippet. destruct term as [|b term]; [by eexists|]. set (t := b :: term).
  rewrite to_lowercase_ascii by done. destruct (find t (ascii_lower <$> content)) as [pos|] eqn:E; [|by eexists].
  apply find_spec in E as [_ Hp]. rewrite length_fmap in Hp. cbv zeta. unfold str_slice.
  rewrite !ascii_char_boundary by (try done; lia). rewrite !(proj2 (Nat.leb_le _ _)) by lia. by eexists.
Qed.

(** ** Terms have no colon *)

Lemma push_term_in x current terms :
  x ∈ push_term current terms -> x ∈ terms \/ x = to_lowercase current.
Proof. unfold push_term. cbv zeta. case_match; [|by left]. intros [?|?%list_elem_of_singleton]%elem_of_app; auto. Qed.

Lemma tokenize_loop_no_colon cs current terms x :
  (forall c, c ∈ cs -> colon ∈ c -> c = [colon]) -> colon ∉ current ->
  (forall x, x ∈ terms -> colon ∉ x) -> x ∈ tokenize_loop cs current terms -> colon ∉ x.
Proof.
  revert current terms; induction cs as [|ch cs IH]; intros current terms Hcs Hcur Hterms; cbn [tokenize_loop].
  { destruct current; [apply Hterms|]. intros [?| ->]%push_term_in; [auto|]. by apply to_lowercase_no_colon. }
  assert (forall c, c ∈ cs -> colon ∈ c -> c = [colon]) as Hcs' by (intros c Hc; apply Hcs; by right).
  destruct (is_alphanumeric ch) eqn:Ea.
  - apply IH; [done| |done]. intros [Hin|Hin]%elem_of_app; [done|].
    rewrite (Hcs ch) in Ea; [|by left|done]. rewrite is_alphanumeric_ascii in Ea by by vm_compute. done.
  - destruct current as [|b current]; [by apply IH|]. apply IH; [done|set_solver|].
    intros y [?| ->]%push_term_in; [auto|]. by apply to_lowercase_no_colon.
Qed.

Lemma tokenize_not_meta content x : x ∈ tokenize content -> starts_with x META_INFIX = false.
Proof.
  intros Hx. apply not_true_is_false. intros (r & ->)%starts_with_spec.
  eapply tokenize_loop_no_colon in Hx; [apply Hx| | |].
  - apply elem_of_app. left. unfold META_INFIX, colon. set_solver.
  - intros c Hc Hin. by eapply chars_ascii.
  - set_solver.
  - set_solver.
Qed.

(** ** Frequencies *)

Lemma tf_map_snoc terms t : tf_map (terms ++ [t]) = <[t := default 0 (tf_map terms !! t) + 1]> (tf_map terms).
Proof. unfold tf_map. by rewrite foldl_app. Qed.

Lemma tf_map_range terms t n : tf_map terms !! t = Some n -> t ∈ terms /\ 1 <= n <= len terms.
Proof.
  revert n; induction terms as [|x terms IH] using rev_ind; intros n; [change (tf_map []) with (∅ : gmap bytes Z); by rewrite lookup_empty|].
  rewrite tf_map_snoc, len_app. change (len [x]) with 1. destruct (decide (t = x)) as [->|Hne].
  - rewrite lookup_insert_eq. intros [= <-]. split; [set_solver|]. pose proof (len_nonneg terms).
    destruct (tf_map terms !! x) as [k|] eqn:E; cbn; [destruct (IH k); [done|]|]; lia.
  - rewrite lookup_insert_ne by done. intros Hn. destruct (IH n Hn). split; [set_solver|lia].
Qed.

Lemma tf_map_in terms t : t ∈ terms -> is_Some (tf_map terms !! t).
Proof.
  induction terms as [|x terms IH] using rev_ind; [set_solver|]. rewrite tf_map_snoc.
  intros Ht. rewrite lookup_insert_is_Some'. destruct (decide (x = t)); [by left|right].
  apply elem_of_app in Ht as [Ht|Ht]; [auto|set_solver].
Qed.

Lemma hash_order_map tf : NoDup (hash_order tf).*1 /\ list_to_map (hash_order tf) = tf.
Proof.
  assert (NoDup (hash_order tf).*1) as Hnd.
  { rewrite hash_order_perm. apply NoDup_fst_map_to_list. }
  split; [done|]. rewrite (list_to_map_proper _ _ Hnd (hash_order_perm tf)). apply list_to_map_to_list.
Qed.

(** ** What the index holds *)

(** The terms and the notes in play: they fit in entries of the store, and their
    keys within the limit of a scan. *)
Context `{!KvLaws St} (terms notes : gset bytes).

Definition entry_ok (e : TermEntry) : Prop := te_path e ∈ notes /\ 0 <= te_count e <= u64_max.

Record search_fits : Prop := {
  sf_notes p : p ∈ notes -> is_Some (from_utf8 p);
  sf_terms t : t ∈ terms -> is_Some (from_utf8 t);
  sf_entries t es : t ∈ terms -> NoDup (te_path <$> es) -> Forall entry_ok es ->
    kv_writable (FTS_PREFIX ++ t) (entries_to_json es) /\ kv_removable (FTS_PREFIX ++ t);
  sf_meta p meta : p ∈ notes -> 0 <= fm_checksum meta <= u64_max -> 0 <= fm_word_count meta <= u64_max ->
    kv_writable (fts_meta_key p) (fts_meta_to_json meta) /\ kv_removable (fts_meta_key p);
  sf_scan : Z.of_nat (size terms + size notes) <= 10000;
}.
Context (fit : search_fits).
Implicit Types (m : gmap bytes bytes) (t p c : bytes) (es : list TermEntry).

Definition entries_at m t : list TermEntry :=
  match m !! (FTS_PREFIX ++ t) with Some b => parse_entries b | None => [] end.

Definition entry_wf m t : Prop :=
  m !! (FTS_PREFIX ++ t) = None \/
  exists es, m !! (FTS_PREFIX ++ t) = Some (entries_to_json es) /\ NoDup (te_path <$> es) /\ Forall entry_ok es.

(** A term, not the key of a note's metadata. *)
Definition plain_term t : Prop := starts_with t META_INFIX = false.

Definition meta_of c : FtsMeta := {| fm_checksum := checksum c; fm_word_count := len (tokenize c) |}.

(** The index stands for the contents [cs] last indexed, and for the terms [ever]
    each note was indexed with since it was last removed. *)
Record fts_ok m (cs : gmap bytes bytes) (ever : gmap bytes (gmap bytes Z)) : Prop := {
  fo_meta p : m !! fts_meta_key p = (fun c => fts_meta_to_json (meta_of c)) <$> cs !! p;
  fo_entries t : plain_term t -> entry_wf m t;
  fo_keys t : is_Some (m !! (FTS_PREFIX ++ t)) -> plain_term t -> t ∈ terms;
  fo_holds t e : plain_term t -> e ∈ entries_at m t <->
    exists T, ever !! te_path e = Some T /\ T !! t = Some (te_count e);
  fo_cover p c : cs !! p = Some c -> exists T, ever !! p = Some T /\ tf_map (tokenize c) ⊆ T;
  fo_live p : is_Some (ever !! p) -> is_Some (cs !! p);
  fo_notes p c : cs !! p = Some c -> p ∈ notes /\ len (tokenize c) <= u64_max;
}.

Definition fts_only m m' : Prop := forall k, starts_with k FTS_PREFIX = false -> m' !! k = m !! k.

Lemma parse_entries_json es : Forall entry_ok es -> parse_entries (entries_to_json es) = es.
Proof.
  intros He. unfold parse_entries. rewrite entries_roundtrip; [done|]. eapply Forall_impl; [exact He|].
  intros e [Hp Hc]. split; [by apply (sf_notes fit)|done].
Qed.

Lemma entries_at_wf m t :
  entry_wf m t -> NoDup (te_path <$> entries_at m t) /\ Forall entry_ok (entries_at m t).
Proof.
  unfold entries_at. intros [->|(es & -> & Hnd & Hes)]; [split; constructor|]. by rewrite parse_entries_json.
Qed.

Lemma upsert_spec p n es :
  NoDup (te_path <$> es) ->
  NoDup (te_path <$> upsert p n es) /\
  (forall e, e ∈ upsert p n es <-> e = mkTermEntry p n \/ (e ∈ es /\ te_path e <> p)).
Proof.
  clear fit.
  induction es as [|x es IH]; cbn [upsert]; intros Hnd.
  { split; [apply NoDup_singleton|]. set_solver. }
  apply NoDup_cons in Hnd as [Hx Hnd]. destruct (decide (te_path x = p)) as [<-|Hne].
  - split; [cbn; by apply NoDup_cons|]. intros e. rewrite !elem_of_cons. split.
    + intros [->|He]; [by left|]. right. split; [by right|]. intros E. apply Hx. rewrite <- E.
      by apply list_elem_of_fmap_2.
    + naive_solver.
  - destruct (IH Hnd) as [Hnd' Hel]. split.
    + cbn. apply NoDup_cons. split; [|done]. intros (e & E & He)%list_elem_of_fmap.
      apply Hel in He as [->|[He _]]; [done|]. apply Hx. rewrite E. by apply list_elem_of_fmap_2.
    + intros e. rewrite !elem_of_cons, Hel. naive_solver.
Qed.

(** Writing the entries of one term. *)
Lemma entries_at_insert m t es t' :
  Forall entry_ok es ->
  entries_at (<[FTS_PREFIX ++ t := entries_to_json es]> m) t' = if decide (t' = t) then es else entries_at m t'.
Proof.
  intros Hes. unfold entries_at. destruct (decide (t' = t)) as [->|Hne].
  - by rewrite lookup_insert_eq, parse_entries_json.
  - rewrite lookup_insert_ne; [done|]. by intros ?%app_inv_head.
Qed.

Lemma entry_wf_insert m t es t' :
  NoDup (te_path <$> es) -> Forall entry_ok es -> entry_wf m t' ->
  entry_wf (<[FTS_PREFIX ++ t := entries_to_json es]> m) t'.
Proof.
  intros. unfold entry_wf. destruct (decide (t' = t)) as [->|Hne].
  - rewrite lookup_insert_eq. right. eauto.
  - rewrite lookup_insert_ne; [done|]. by intros ?%app_inv_head.
Qed.

(** The metadata keys are not those of terms. *)
Lemma fts_key_meta t p : FTS_PREFIX ++ t = fts_meta_key p -> plain_term t -> False.
Proof.
  unfold fts_meta_key, plain_term. intros ->%app_inv_head. by rewrite starts_with_app_l.
Qed.

(** What changes when terms of a note are written. *)
Record terms_written m p (l : list (bytes * Z)) m' : Prop := {
  tw_entries t : plain_term t -> entry_wf m' t;
  tw_other k : (forall t, t ∈ l.*1 -> k <> FTS_PREFIX ++ t) -> m' !! k = m !! k;
  tw_holds t e : plain_term t -> e ∈ entries_at m' t <->
    match (list_to_map l : gmap bytes Z) !! t with
    | Some n => e = mkTermEntry p n \/ (e ∈ entries_at m t /\ te_path e <> p)
    | None => e ∈ entries_at m t
    end;
}.

Lemma index_terms_ok p l m :
  p ∈ notes -> NoDup l.*1 -> (forall t, plain_term t -> entry_wf m t) ->
  Forall (fun tc => tc.1 ∈ terms /\ plain_term tc.1 /\ 0 <= tc.2 <= u64_max) l ->
  triple m (kv_for l (index_term p)) (fun _ => terms_written m p l).
Proof.
  intros Hp. revert m; induction l as [|[t n] l IH]; intros m Hnd Hwf Hl; cbn [kv_for].
  { apply triple_ret. constructor; [done|done|]. intros t e _. cbn. by rewrite lookup_empty. }
  apply Forall_cons in Hl as [(Ht & Hpt & Hn) Hl]. rewrite fmap_cons in Hnd.
  apply NoDup_cons in Hnd as [Hnt Hnd]. cbn [fst snd] in Ht, Hpt, Hn, Hnt.
  destruct (entries_at_wf m t (Hwf t Hpt)) as [Hd He]. destruct (upsert_spec p n _ Hd) as [Hd' Hel].
  assert (Forall entry_ok (upsert p n (entries_at m t))) as He'.
  { rewrite Forall_forall in He |- *. intros e [->|[Hin _]]%Hel; [by split|auto]. }
  eapply (triple_bind _ _ _ (fun _ m' => m' = <[FTS_PREFIX ++ t := entries_to_json (upsert p n (entries_at m t))]> m)).
  { eapply triple_read_bind; [apply reads_get|]. cbv zeta. cbn [fst snd]. fold (entries_at m t).
    apply triple_put; [by apply (sf_entries fit)|done]. }
  intros [] m1 ->. eapply triple_weaken; [apply IH; [done| |done]|].
  { intros t' Ht'. apply entry_wf_insert; auto. }
  intros [] m' [Hw Ho Hh]. constructor; [done| |].
  - intros k Hk. rewrite fmap_cons in Hk. rewrite Ho by (intros t' Ht'; apply Hk; by right).
    apply lookup_insert_ne. apply not_eq_sym, Hk. by left.
  - intros t' e Ht'. rewrite Hh by done. rewrite entries_at_insert by done. cbn [list_to_map foldr].
    destruct (decide (t' = t)) as [->|Hne].
    + rewrite (not_elem_of_list_to_map_1 l t Hnt), lookup_insert_eq. cbn. apply Hel.
    + cbn. rewrite lookup_insert_ne by done. done.
Qed.

(** [index_note]. *)

Lemma unchanged_ok m cs ever p c :
  fts_ok m cs ever -> unchanged (m !! fts_meta_key p) c =
    Ok (match cs !! p with Some c' => checksum c' =? checksum c | None => false end).
Proof.
  intros Hf. rewrite (fo_meta _ _ _ Hf). destruct (cs !! p) as [c'|] eqn:E; [|done]. cbn.
  destruct (fo_notes _ _ _ Hf p c' E) as [_ Hl].
  rewrite fts_meta_roundtrip; [done|apply checksum_range|]. cbn. pose proof (len_nonneg (tokenize c')). lia.
Qed.

Lemma terms_written_only m p l m' : terms_written m p l m' -> fts_only m m'.
Proof.
  intros Hw k Hk. apply (tw_other _ _ _ _ Hw). intros t _ ->. by rewrite starts_with_app_l in Hk.
Qed.

Definition index_spec (ever : gmap bytes (gmap bytes Z)) p c : gmap bytes (gmap bytes Z) :=
  <[p := tf_map (tokenize c) ∪ default ∅ (ever !! p)]> ever.

(** Metadata does not touch the terms. *)
Lemma entries_at_meta m p v t : plain_term t ->
  entries_at (<[fts_meta_key p := v]> m) t = entries_at m t /\ (entry_wf m t -> entry_wf (<[fts_meta_key p := v]> m) t).
Proof.
  intros Ht. unfold entries_at, entry_wf.
  rewrite lookup_insert_ne; [done|]. intros E. by eapply fts_key_meta.
Qed.

Lemma fts_ok_indexed m cs ever p c l m1 :
  fts_ok m cs ever -> p ∈ notes -> len (tokenize c) <= u64_max ->
  list_to_map l = tf_map (tokenize c) -> (forall t, t ∈ l.*1 -> t ∈ terms /\ plain_term t) ->
  terms_written m p l m1 ->
  fts_ok (<[fts_meta_key p := fts_meta_to_json (meta_of c)]> m1) (<[p := c]> cs) (index_spec ever p c).
Proof.
  intros Hf Hp Hl Hmap Hin Hw. unfold index_spec. set (tf := tf_map (tokenize c)) in *.
  assert (forall q, m1 !! fts_meta_key q = m !! fts_meta_key q) as Hm1.
  { intros q. apply (tw_other _ _ _ _ Hw). intros t Ht E. by eapply fts_key_meta; [|apply (Hin t Ht)]. }
  constructor.
  - intros q. destruct (decide (q = p)) as [->|Hne].
    + by rewrite !lookup_insert_eq.
    + rewrite !lookup_insert_ne by (try done; by intros ?%app_inv_head%app_inv_head).
      rewrite Hm1. apply (fo_meta _ _ _ Hf).
  - intros t Ht. apply entries_at_meta; [done|]. by apply (tw_entries _ _ _ _ Hw).
  - intros t Hk Ht. rewrite lookup_insert_ne in Hk by (intros E; by eapply fts_key_meta).
    destruct (decide (t ∈ l.*1)) as [Htl|Htl]; [by apply Hin|].
    rewrite (tw_other _ _ _ _ Hw) in Hk; [by apply (fo_keys _ _ _ Hf)|].
    intros t' Ht' E%app_inv_head. by subst.
  - intros t [q n] Ht. rewrite (proj1 (entries_at_meta _ _ _ _ Ht)). rewrite (tw_holds _ _ _ _ Hw) by done.
    pose proof (fo_holds _ _ _ Hf t (mkTermEntry q n) Ht) as Ho. cbn [te_path te_count] in Ho |- *.
    replace ((list_to_map l : gmap bytes Z) !! t) with (tf !! t) by (by rewrite Hmap).
    destruct (decide (q = p)) as [->|Hne].
    + rewrite lookup_insert_eq. destruct (tf !! t) as [k|] eqn:Et; rewrite Ho; clear Ho.
      * split.
        { intros [[= ->]|[_ []]]; [|done]. eexists. split; [done|]. by apply lookup_union_Some_l. }
        { intros (T & [= <-] & HT). rewrite (lookup_union_Some_l _ _ _ _ Et) in HT. injection HT as ->. by left. }
      * split.
        { intros (T & HT & Hn). eexists. split; [done|]. rewrite lookup_union_r by done. by rewrite HT. }
        { intros (T & [= <-] & Hn). rewrite lookup_union_r in Hn by done. destruct (ever !! p) as [T|]; [by exists T|].
          change ((∅ : gmap bytes Z) !! t = Some n) in Hn. by rewrite lookup_empty in Hn. }
    + rewrite lookup_insert_ne by done. destruct (tf !! t); rewrite Ho; [|done]. naive_solver.
  - intros q c'. destruct (decide (q = p)) as [->|Hne].
    + rewrite lookup_insert_eq. intros [= <-]. rewrite lookup_insert_eq. eexists.
      split; [done|]. apply map_union_subseteq_l.
    + rewrite lookup_insert_ne by done. rewrite lookup_insert_ne by done. apply (fo_cover _ _ _ Hf).
  - intros q. rewrite !lookup_insert_is_Some'. intros [?|?]; [by left|right]. by apply (fo_live _ _ _ Hf).
  - intros q c' [[<- <-]|[_ Hq]]%lookup_insert_Some; [done|]. by apply (fo_notes _ _ _ Hf).
Qed.

Lemma index_note_ok m cs ever p c :
  fts_ok m cs ever -> p ∈ notes -> (forall t, t ∈ tokenize c -> t ∈ terms) -> len (tokenize c) <= u64_max ->
  (forall c', cs !! p = Some c' -> checksum c' = checksum c -> c' = c) ->
  triple m (index_note p c) (fun _ m' => fts_ok m' (<[p := c]> cs) (index_spec ever p c) /\ fts_only m m').
Proof.
  intros Hf Hp Ht Hl Hcol. unfold index_note. eapply triple_read_bind; [apply reads_get|].
  rewrite (unchanged_ok m cs ever p c Hf). eapply triple_read_bind; [apply reads_lift|].
  destruct (match cs !! p with Some c' => checksum c' =? checksum c | None => false end) eqn:Esame.
  - destruct (cs !! p) as [c'|] eqn:E; [|done]. apply Z.eqb_eq, Hcol in Esame as ->; [|done].
    destruct (fo_cover _ _ _ Hf p c E) as (T & HT & Hsub). apply triple_ret. split; [|done].
    unfold index_spec. rewrite HT. cbn. rewrite insert_id by done. rewrite map_subseteq_union by done.
    by rewrite insert_id.
  - clear Esame Hcol. set (tf := tf_map (tokenize c)). cbv zeta. destruct (hash_order_map tf) as [Hnd Hmap].
    assert (forall t n, (t, n) ∈ hash_order tf -> t ∈ terms /\ plain_term t /\ 0 <= n <= u64_max) as Hin.
    { intros t n Hin. rewrite hash_order_perm in Hin. apply elem_of_map_to_list, tf_map_range in Hin as [Hin ?].
      split_and!; [by apply Ht|by apply (tokenize_not_meta c)|lia|lia]. }
    assert (forall t, t ∈ (hash_order tf).*1 -> t ∈ terms /\ plain_term t) as Hin1.
    { intros t ([t' n] & -> & Hn)%list_elem_of_fmap. by destruct (Hin _ _ Hn) as (? & ? & _). }
    eapply triple_bind.
    { apply (index_terms_ok p (hash_order tf) m); [done|done|apply (fo_entries _ _ _ Hf)|].
      apply Forall_forall. intros [t n]. apply Hin. }
    intros [] m1 Hw. pose proof (len_nonneg (tokenize c)). apply triple_put.
    { apply (sf_meta fit); [done|apply checksum_range|]. cbn. lia. }
    split.
    + by apply (fts_ok_indexed m cs ever p c (hash_order tf) m1).
    + intros k Hk. rewrite lookup_insert_ne; [by apply (terms_written_only _ _ _ _ Hw)|].
      intros <-. unfold fts_meta_key in Hk. by rewrite starts_with_app_l in Hk.
Qed.

(** [remove_note]. *)

(** What the write-backs change. *)
Record written_back m (u : list (bytes * list TermEntry)) m' : Prop := {
  wb_entries t : plain_term t -> entry_wf m' t;
  wb_other k : (forall t, t ∈ u.*1 -> k <> FTS_PREFIX ++ t) -> m' !! k = m !! k;
  wb_at t : entries_at m' t = default (entries_at m t) ((list_to_map u : gmap bytes (list TermEntry)) !! t);
}.

Lemma write_backs_ok u m :
  NoDup u.*1 -> (forall t, plain_term t -> entry_wf m t) ->
  Forall (fun te => te.1 ∈ terms /\ NoDup (te_path <$> te.2) /\ Forall entry_ok te.2) u ->
  triple m (kv_for u write_back) (fun _ => written_back m u).
Proof.
  revert m; induction u as [|[t es] u IH]; intros m Hnd Hwf Hu; cbn [kv_for].
  { apply triple_ret. constructor; [done|done|]. intros t. cbn. by rewrite lookup_empty. }
  apply Forall_cons in Hu as [(Ht & Hd & He) Hu]. rewrite fmap_cons in Hnd.
  apply NoDup_cons in Hnd as [Hnt Hnd]. cbn [fst snd] in Ht, Hd, He, Hnt.
  destruct (sf_entries fit t es Ht Hd He) as [Hwr Hrm].
  eapply (triple_bind _ _ _ (fun _ m' => (forall t, plain_term t -> entry_wf m' t) /\
    (forall k, k <> FTS_PREFIX ++ t -> m' !! k = m !! k) /\ entries_at m' t = es)).
  { unfold write_back. cbn [fst snd]. destruct es as [|e es].
    - apply triple_remove; [done|]. split_and!.
      + intros t' Ht'. unfold entry_wf. destruct (decide (t' = t)) as [->|Hne]; [left; apply lookup_delete_eq|].
        rewrite lookup_delete_ne by (by intros ?%app_inv_head). by apply Hwf.
      + intros k Hk. by apply lookup_delete_ne.
      + unfold entries_at. by rewrite lookup_delete_eq.
    - apply triple_put; [done|]. split_and!.
      + intros t' Ht'. apply entry_wf_insert; auto.
      + intros k Hk. by apply lookup_insert_ne.
      + rewrite entries_at_insert by done. by rewrite decide_True. }
  intros [] m1 (Hwf1 & Ho1 & He1). eapply triple_weaken; [by apply IH|].
  intros [] m' [Hw Ho Hat]. constructor; [done| |].
  - intros k Hk. rewrite fmap_cons in Hk. rewrite Ho by (intros t' Ht'; apply Hk; by right).
    apply Ho1, Hk. by left.
  - intros t'. rewrite Hat. cbn [list_to_map foldr]. destruct (decide (t' = t)) as [->|Hne].
    + rewrite (not_elem_of_list_to_map_1 u t Hnt), lookup_insert_eq. exact He1.
    + cbn. rewrite lookup_insert_ne by done. f_equal. unfold entries_at. rewrite Ho1; [done|]. by intros ?%app_inv_head.
Qed.

(** The keys of the index. *)
Definition fts_keys : gset bytes := set_map (app FTS_PREFIX) terms ∪ set_map fts_meta_key notes.

Lemma fts_keys_size : Z.of_nat (size fts_keys) <= 10000 <= usize_max - 2.
Proof.
  pose proof (sf_scan fit). unfold fts_keys.
  pose proof (size_union_le (set_map (app FTS_PREFIX) terms) (set_map fts_meta_key notes)).
  pose proof (size_set_map_le (app FTS_PREFIX) terms). pose proof (size_set_map_le fts_meta_key notes).
  unfold usize_max, u64_max. lia.
Qed.

Lemma fts_key_cases m cs ever k :
  fts_ok m cs ever -> is_Some (m !! k) -> starts_with k FTS_PREFIX = true ->
  (exists t, k = FTS_PREFIX ++ t /\ plain_term t /\ t ∈ terms) \/ (exists p, k = fts_meta_key p /\ p ∈ notes).
Proof.
  intros Hf Hk (t & ->)%starts_with_spec. destruct (starts_with t META_INFIX) eqn:Ht.
  - right. apply starts_with_spec in Ht as (p & ->). exists p. split; [done|].
    destruct (cs !! p) as [c|] eqn:E; [by eapply fo_notes|].
    change (is_Some (m !! fts_meta_key p)) in Hk. rewrite (fo_meta _ _ _ Hf), E in Hk. by destruct Hk.
  - left. exists t. split_and!; [done|done|]. by eapply fo_keys.
Qed.

Lemma fts_key_text k :
  (exists t, k = FTS_PREFIX ++ t /\ plain_term t /\ t ∈ terms) \/ (exists p, k = fts_meta_key p /\ p ∈ notes) ->
  k ∈ fts_keys /\ from_utf8_lossy k = k.
Proof.
  assert (Forall is_ascii FTS_PREFIX /\ Forall is_ascii (FTS_PREFIX ++ META_INFIX)) as [H1 H2]
    by (split; repeat constructor; by vm_compute).
  intros [(t & -> & _ & Ht)|(p & -> & Hp)]; (split; [unfold fts_keys; set_solver|apply text_lossy]).
  - by apply ascii_app_text, (sf_terms fit).
  - unfold fts_meta_key. rewrite app_assoc. by apply ascii_app_text, (sf_notes fit).
Qed.

(** The updates a scan gives. *)
Lemma update_of_spec m cs ever p k v :
  fts_ok m cs ever -> m !! k = Some v -> starts_with k FTS_PREFIX = true ->
  match update_of p (k, v) with
  | Some (t, es) => k = FTS_PREFIX ++ t /\ plain_term t /\ t ∈ terms /\
      p ∈ te_path <$> entries_at m t /\ es = filter (fun e => te_path e <> p) (entries_at m t)
  | None => forall t, k = FTS_PREFIX ++ t -> plain_term t -> p ∉ te_path <$> entries_at m t
  end.
Proof.
  intros Hf Hk Hs. pose proof (fts_key_cases m cs ever k Hf (ex_intro _ v Hk) Hs) as Hc.
  destruct (fts_key_text k Hc) as [_ Hl]. unfold update_of. cbn [fst snd]. rewrite Hl.
  unfold str_strip_prefix. rewrite Hs. destruct Hc as [(t & -> & Ht & Hin)|(q & -> & Hq)].
  - rewrite drop_app_length, Ht. assert (parse_entries v = entries_at m t) as -> by (unfold entries_at; by rewrite Hk).
    case_bool_decide as Hp; [done|]. intros t' <-%app_inv_head _. done.
  - unfold fts_meta_key. rewrite drop_app_length, starts_with_app_l. intros t E Ht. by edestruct fts_key_meta.
Qed.

Lemma updates_sublist p (l : list (bytes * bytes)) :
  (forall e t es, e ∈ l -> update_of p e = Some (t, es) -> e.1 = FTS_PREFIX ++ t) ->
  app FTS_PREFIX <$> (omap (update_of p) l).*1 `sublist_of` l.*1.
Proof.
  induction l as [|e l IH]; intros Hl; [constructor|]. rewrite fmap_cons. cbn [omap list_omap].
  destruct (update_of p e) as [[t es]|] eqn:E.
  - rewrite !fmap_cons. rewrite (Hl e t es) by (try done; by left). apply sublist_skip, IH.
    intros e' t' es' He'. apply Hl. by right.
  - apply sublist_cons, IH. intros e' t' es' He'. apply Hl. by right.
Qed.

Definition updates m p : list (bytes * list TermEntry) :=
  omap (update_of p) (filter (fun e => starts_with e.1 FTS_PREFIX = true) (sorted_entries m)).

Lemma updates_spec m cs ever p :
  fts_ok m cs ever ->
  NoDup (updates m p).*1 /\
  (forall t es, (t, es) ∈ updates m p <-> plain_term t /\ t ∈ terms /\ p ∈ te_path <$> entries_at m t /\
     es = filter (fun e => te_path e <> p) (entries_at m t)).
Proof.
  intros Hf. unfold updates. set (found := filter _ _).
  assert (forall k v, (k, v) ∈ found <-> starts_with k FTS_PREFIX = true /\ m !! k = Some v) as Hfound.
  { intros k v. unfold found. rewrite list_elem_of_filter. by rewrite elem_of_sorted_entries. }
  split.
  - apply (NoDup_fmap_1 (app FTS_PREFIX)). eapply sublist_NoDup; [|apply updates_sublist].
    + unfold found. eapply sublist_NoDup; [|apply (fmap_sublist fst), sublist_filter].
      rewrite sorted_entries_Permutation. apply NoDup_fst_map_to_list.
    + intros [k v] t es [Hs Hk]%Hfound E. pose proof (update_of_spec m cs ever p k v Hf Hk Hs) as Hu.
      rewrite E in Hu. apply Hu.
  - intros t es. rewrite list_elem_of_omap. split.
    + intros ([k v] & [Hs Hk]%Hfound & E). pose proof (update_of_spec m cs ever p k v Hf Hk Hs) as Hu.
      rewrite E in Hu. apply Hu.
    + intros (Ht & Hin & Hp & ->). destruct (m !! (FTS_PREFIX ++ t)) as [v|] eqn:Hk.
      2: { unfold entries_at in Hp. rewrite Hk in Hp. set_solver. }
      exists (FTS_PREFIX ++ t, v). assert (starts_with (FTS_PREFIX ++ t) FTS_PREFIX = true) as Hs
        by apply starts_with_app_l. split; [by apply Hfound|].
      pose proof (update_of_spec m cs ever p _ v Hf Hk Hs) as Hu.
      destruct (update_of p (FTS_PREFIX ++ t, v)) as [[t' es']|].
      * destruct Hu as (<-%app_inv_head & _ & _ & _ & ->). done.
      * by destruct (Hu t eq_refl Ht).
Qed.

Lemma fts_ok_removed m cs ever p m1 :
  fts_ok m cs ever -> written_back m (updates m p) m1 ->
  fts_ok (delete (fts_meta_key p) m1) (delete p cs) (delete p ever).
Proof.
  intros Hf Hw. destruct (updates_spec m cs ever p Hf) as [Hnd Hu].
  assert (forall t, t ∈ (updates m p).*1 -> t ∈ terms /\ plain_term t) as Hin.
  { intros t ([t' es] & -> & (? & ? & _)%Hu)%list_elem_of_fmap. done. }
  assert (forall t m', plain_term t -> delete (fts_meta_key p) m' !! (FTS_PREFIX ++ t) = m' !! (FTS_PREFIX ++ t)) as Hd.
  { intros t m' Ht. apply lookup_delete_ne. intros E. by eapply fts_key_meta. }
  constructor.
  - intros q. destruct (decide (q = p)) as [->|Hne].
    + by rewrite !lookup_delete_eq.
    + rewrite !lookup_delete_ne by (try done; by intros ?%app_inv_head%app_inv_head).
      rewrite (wb_other _ _ _ Hw); [apply (fo_meta _ _ _ Hf)|].
      intros t Ht E. by eapply fts_key_meta; [|apply (Hin t Ht)].
  - intros t Ht. unfold entry_wf. rewrite Hd by done. by apply (wb_entries _ _ _ Hw).
  - intros t Hk Ht. rewrite Hd in Hk by done.
    destruct (decide (t ∈ (updates m p).*1)) as [Htl|Htl]; [by apply Hin|].
    rewrite (wb_other _ _ _ Hw) in Hk; [by apply (fo_keys _ _ _ Hf)|].
    intros t' Ht' E%app_inv_head. by subst.
  - intros t e Ht.
    assert (entries_at (delete (fts_meta_key p) m1) t = filter (fun e => te_path e <> p) (entries_at m t)) as ->.
    { unfold entries_at at 1. rewrite Hd by done. fold (entries_at m1 t). rewrite (wb_at _ _ _ Hw).
      destruct (decide (p ∈ te_path <$> entries_at m t)) as [Hp|Hp].
      - rewrite (elem_of_list_to_map_1 _ t (filter (fun e => te_path e <> p) (entries_at m t))); [done|done|].
        apply Hu. split_and!; [done| |done|done]. apply (fo_keys _ _ _ Hf); [|done].
        unfold entries_at in Hp. destruct (m !! _); [done|set_solver].
      - rewrite not_elem_of_list_to_map_1.
        + symmetry. apply filter_all. intros x Hx E. apply Hp. rewrite <- E. by apply list_elem_of_fmap_2.
        + intros ([t' es] & -> & (_ & _ & ? & _)%Hu)%list_elem_of_fmap. done. }
    rewrite list_elem_of_filter, (fo_holds _ _ _ Hf) by done. destruct (decide (te_path e = p)) as [->|Hne].
    + rewrite lookup_delete_eq. naive_solver.
    + rewrite lookup_delete_ne by done. naive_solver.
  - intros q c [Hne Hq]%lookup_delete_Some. rewrite lookup_delete_ne by done. by apply (fo_cover _ _ _ Hf).
  - intros q [T [Hne HT]%lookup_delete_Some]. rewrite lookup_delete_ne by done. apply (fo_live _ _ _ Hf). by eexists.
  - intros q c [_ Hq]%lookup_delete_Some. by apply (fo_notes _ _ _ Hf).
Qed.

Lemma remove_note_ok m cs ever p :
  fts_ok m cs ever -> p ∈ notes ->
  triple m (remove_note p) (fun _ m' => fts_ok m' (delete p cs) (delete p ever) /\ fts_only m m').
Proof.
  intros Hf Hp. unfold remove_note. destruct (updates_spec m cs ever p Hf) as [Hnd Hu].
  apply (triple_search_bind _ _ _ fts_keys); [by eexists| |apply fts_keys_size|].
  { intros k Hk Hs. apply fts_key_text. by apply (fts_key_cases m cs ever). }
  intros cursor. cbn [fst]. fold (updates m p). eapply triple_bind.
  { apply write_backs_ok; [done|apply (fo_entries _ _ _ Hf)|]. apply Forall_forall.
    intros [t es] (Ht & Hin & _ & ->)%Hu. cbn [fst snd].
    destruct (entries_at_wf m t (fo_entries _ _ _ Hf t Ht)) as [Hd He]. split_and!; [done| |].
    - eapply sublist_NoDup; [exact Hd|]. apply (fmap_sublist te_path), sublist_filter.
    - rewrite Forall_forall in He |- *. intros e [_ Hx]%list_elem_of_filter. auto. }
  intros [] m1 Hw. apply triple_remove.
  { apply (sf_meta fit p (mkFtsMeta 0 0)); cbn; [done|unfold u64_max; lia..]. }
  split; [by apply (fts_ok_removed m)|]. intros k Hk.
  rewrite lookup_delete_ne by (intros <-; unfold fts_meta_key in Hk; by rewrite starts_with_app_l in Hk).
  apply (wb_other _ _ _ Hw). intros t _ ->. by rewrite starts_with_app_l in Hk.
Qed.

(** *** Queries *)

(** A note was indexed with the term. *)
Definition has_term (ever : gmap bytes (gmap bytes Z)) p t : Prop :=
  exists T, ever !! p = Some T /\ is_Some (T !! t).

Lemma paths_of_spec m cs ever p t :
  fts_ok m cs ever -> plain_term t -> p ∈ paths_of (m !! (FTS_PREFIX ++ t)) <-> has_term ever p t.
Proof.
  clear fit.
  intros Hf Ht. transitivity (p ∈ te_path <$> entries_at m t).
  { unfold paths_of, entries_at. destruct (m !! _); [by rewrite elem_of_list_to_set|]. cbn. set_solver. }
  rewrite list_elem_of_fmap. split.
  - intros (e & -> & (T & HT & Hn)%(fo_holds _ _ _ Hf)); [|done]. by exists T; split; [|eexists].
  - intros (T & HT & [n Hn]). exists (mkTermEntry p n). split; [done|]. apply (fo_holds _ _ _ Hf); [done|]. by exists T.
Qed.

Lemma search_terms_reads m cs ever l scored :
  fts_ok m cs ever -> Forall plain_term l ->
  exists hits, reads m (search_terms l scored) hits /\
    forall p, p ∈ hits <-> p ∈ scored \/ exists t, t ∈ l /\ has_term ever p t.
Proof.
  clear fit.
  intros Hf. revert scored; induction l as [|t l IH]; intros scored Hl; cbn [search_terms].
  { exists scored. split; [apply reads_ret|]. set_solver. }
  apply Forall_cons in Hl as [Ht Hl]. destruct (IH (scored ∪ paths_of (m !! (FTS_PREFIX ++ t))) Hl) as (hits & Hr & Hh).
  exists hits. split; [eapply reads_bind; [apply reads_get|exact Hr]|]. intros p.
  rewrite Hh, elem_of_union, (paths_of_spec m cs ever p t Hf Ht). set_solver.
Qed.

Lemma intersect_terms_reads m cs ever l cands :
  fts_ok m cs ever -> Forall plain_term l ->
  exists hits, reads m (intersect_terms l cands) hits /\
    forall p, p ∈ hits <-> p ∈ cands /\ forall t, t ∈ l -> has_term ever p t.
Proof.
  clear fit.
  intros Hf. revert cands; induction l as [|t l IH]; intros cands Hl; cbn [intersect_terms].
  { exists cands. split; [apply reads_ret|]. set_solver. }
  apply Forall_cons in Hl as [Ht Hl]. set (c := cands ∩ paths_of (m !! (FTS_PREFIX ++ t))).
  assert (forall p, p ∈ c <-> p ∈ cands /\ has_term ever p t) as Hc.
  { intros p. unfold c. by rewrite elem_of_intersection, (paths_of_spec m cs ever p t Hf Ht). }
  destruct (IH c Hl) as (hits & Hr & Hh). destruct (decide (c = ∅)) as [He|He].
  - exists ∅. split; [eapply reads_bind; [apply reads_get|]; fold c; rewrite decide_True by done; apply reads_ret|].
    intros p. rewrite He in Hc. set_solver.
  - exists hits. split; [eapply reads_bind; [apply reads_get|]; fold c; rewrite decide_False by done; exact Hr|].
    intros p. rewrite Hh, Hc. set_solver.
Qed.

Lemma search_phrase_reads m cs ever l :
  fts_ok m cs ever -> Forall plain_term l ->
  exists hits, reads m (search_phrase l) hits /\
    forall p, p ∈ hits <-> l <> [] /\ forall t, t ∈ l -> has_term ever p t.
Proof.
  clear fit.
  intros Hf Hl. destruct l as [|t l]; cbn [search_phrase].
  { exists ∅. split; [apply reads_ret|]. set_solver. }
  apply Forall_cons in Hl as [Ht Hl]. pose proof (fun p => paths_of_spec m cs ever p t Hf Ht) as Hp.
  destruct (m !! (FTS_PREFIX ++ t)) as [v|] eqn:E.
  - destruct (intersect_terms_reads m cs ever l (paths_of (Some v)) Hf Hl) as (hits & Hr & Hh).
    exists hits. split; [eapply reads_bind; [apply reads_get|]; by rewrite E|].
    intros p. rewrite Hh, Hp. set_solver.
  - exists ∅. split; [eapply reads_bind; [apply reads_get|]; rewrite E; apply reads_ret|].
    intros p. split; [set_solver|]. intros [_ Hall]. apply Hp, Hall. by left.
Qed.

(** What a query asks of a note whose terms are [has]: all the terms of a quoted
    phrase, or one of the terms of any other query. *)
Definition matches (query : bytes) (has : bytes -> Prop) : Prop :=
  match phrase_of (str_trim query) with
  | Some phrase => tokenize phrase <> [] /\ forall t, t ∈ tokenize phrase -> has t
  | None => exists t, t ∈ tokenize (str_trim query) /\ has t
  end.

Lemma matches_mono query (has has' : bytes -> Prop) :
  (forall t, has t -> has' t) -> matches query has -> matches query has'.
Proof. unfold matches. destruct (phrase_of _); naive_solver. Qed.

Lemma tokens_plain c : Forall plain_term (tokenize c).
Proof. apply Forall_forall. intros t. apply tokenize_not_meta. Qed.

Lemma search_notes_reads m cs ever query :
  fts_ok m cs ever ->
  exists hits, reads m (search_notes query) hits /\ forall p, p ∈ hits <-> matches query (has_term ever p).
Proof.
  clear fit.
  intros Hf. unfold search_notes, matches. cbv zeta. destruct (phrase_of (str_trim query)) as [phrase|].
  - by apply (search_phrase_reads m cs), tokens_plain.
  - destruct (search_terms_reads m cs ever (tokenize (str_trim query)) ∅ Hf) as (hits & Hr & Hh); [apply tokens_plain|].
    exists hits. split; [done|]. intros p. rewrite Hh. set_solver.
Qed.

(** The terms of the last content are among them. *)
Lemma indexed_has_term m cs ever p c t :
  fts_ok m cs ever -> cs !! p = Some c -> t ∈ tokenize c -> has_term ever p t.
Proof.
  intros Hf Hp Ht. destruct (fo_cover _ _ _ Hf p c Hp) as (T & HT & Hsub). exists T. split; [done|].
  destruct (tf_map_in _ _ Ht) as [n Hn]. exists n. by eapply lookup_weaken.
Qed.

(** *** Histories *)

Inductive fts_op : Type :=
| IndexNote (path content : bytes)
| RemoveNote (path : bytes).

Definition run_fts_op (o : fts_op) : KvM St unit :=
  match o with IndexNote p c => index_note p c | RemoveNote p => remove_note p end.

(** The contents last indexed, and the terms since the last removal. *)
Definition spec_fts_op (x : gmap bytes bytes * gmap bytes (gmap bytes Z)) (o : fts_op) :=
  match o with
  | IndexNote p c => (<[p := c]> x.1, index_spec x.2 p c)
  | RemoveNote p => (delete p x.1, delete p x.2)
  end.

Definition fts_op_ok (contents : list bytes) (o : fts_op) : Prop :=
  match o with
  | IndexNote p c => p ∈ notes /\ c ∈ contents /\ (forall t, t ∈ tokenize c -> t ∈ terms) /\ len (tokenize c) <= u64_max
  | RemoveNote p => p ∈ notes
  end.

Lemma run_fts_ops_ok contents os m cs ever :
  (forall c c', c ∈ contents -> c' ∈ contents -> checksum c = checksum c' -> c = c') ->
  fts_ok m cs ever -> map_Forall (fun _ c => c ∈ contents) cs -> Forall (fts_op_ok contents) os ->
  triple m (kv_for os run_fts_op) (fun _ m' =>
    let x := foldl spec_fts_op (cs, ever) os in fts_ok m' x.1 x.2 /\ fts_only m m').
Proof.
  intros Hcol Hf Hcs Hok. revert m cs ever Hf Hcs. induction Hok as [|o os Ho Hok IH]; intros m cs ever Hf Hcs; cbn [kv_for foldl].
  { by apply triple_ret. }
  eapply (triple_bind _ _ _ (fun _ m' =>
    let x := spec_fts_op (cs, ever) o in fts_ok m' x.1 x.2 /\ fts_only m m' /\ map_Forall (fun _ c => c ∈ contents) x.1)).
  { destruct o as [p c|p]; cbn [run_fts_op spec_fts_op fts_op_ok fst snd] in *.
    - destruct Ho as (Hp & Hc & Ht & Hl). eapply triple_weaken; [apply index_note_ok; try done|].
      + intros c' Hc' E. apply Hcol; [by eapply Hcs|done|done].
      + intros [] m' [? ?]. split_and!; [done|done|]. by apply map_Forall_insert_2.
    - eapply triple_weaken; [by apply remove_note_ok|]. intros [] m' [? ?]. split_and!; [done|done|].
      by apply map_Forall_delete. }
  intros [] m1. destruct (spec_fts_op (cs, ever) o) as [cs1 ever1]. cbn [fst snd]. intros (Hf1 & Ho1 & Hcs1).
  eapply triple_weaken; [by apply IH|]. intros [] m2 [Hf2 Ho2]. split; [done|].
  intros k Hk. by rewrite Ho2, Ho1.
Qed.

Lemma fts_ok_empty m :
  (forall k, is_Some (m !! k) -> starts_with k FTS_PREFIX = false) -> fts_ok m ∅ ∅.
Proof.
  clear fit.
  intros Hm. assert (forall t, m !! (FTS_PREFIX ++ t) = None) as Hn.
  { intros t. apply eq_None_not_Some. intros Hk%Hm. by rewrite starts_with_app_l in Hk. }
  constructor.
  - intros p. rewrite lookup_empty. apply Hn.
  - intros t _. by left.
  - intros t Hk. rewrite Hn in Hk. by destruct Hk.
  - intros t e _. unfold entries_at. rewrite Hn. split; [set_solver|]. intros (T & HT & _). by rewrite lookup_empty in HT.
  - intros p c Hp. by rewrite lookup_empty in Hp.
  - intros p Hp. rewrite lookup_empty in Hp. by destruct Hp.
  - intros p c Hp. by rewrite lookup_empty in Hp.
Qed.

(** Only notes that are indexed are found. *)
Lemma found_live m cs ever query p :
  fts_ok m cs ever -> matches query (has_term ever p) -> is_Some (cs !! p).
Proof.
  intros Hf Hp. apply (fo_live _ _ _ Hf). unfold matches in Hp. destruct (phrase_of _) as [phrase|].
  - destruct Hp as [Hne Hall]. destruct (tokenize phrase) as [|t l]; [done|].
    destruct (Hall t) as (T & HT & _); [by left|]. by eexists.
  - destruct Hp as (t & _ & T & HT & _). by eexists.
Qed.

(** a search selects the notes that contain its terms.  After any history of
    indexing and removing notes in which every call succeeded, with contents of
    distinct checksums, a query cannot fail and selects exactly the notes that were
    indexed with its terms since their last removal: all the terms of a quoted
    phrase, in any order, or one of them otherwise.  So every note whose last
    content matches is found, and no removed note is. *)
Theorem note_search_exact contents os m s s' query :
  models s m -> (forall k, is_Some (m !! k) -> starts_with k FTS_PREFIX = false) ->
  (forall c c', c ∈ contents -> c' ∈ contents -> checksum c = checksum c' -> c = c') ->
  Forall (fts_op_ok contents) os -> kv_for os run_fts_op s = (Ok tt, s') ->
  let '(cs, ever) := foldl spec_fts_op (∅, ∅) os in
  exists hits, (search_notes query s').1 = Ok hits /\
    (forall p, p ∈ hits <-> matches query (has_term ever p)) /\
    (forall p c, cs !! p = Some c -> matches query (fun t => t ∈ tokenize c) -> p ∈ hits) /\
    (forall p, p ∈ hits -> is_Some (cs !! p)).
Proof.
  intros Hs Hm Hcol Hok Hrun.
  destruct (run_fts_ops_ok contents os m ∅ ∅ Hcol (fts_ok_empty m Hm) (map_Forall_empty _) Hok s tt s' Hs Hrun)
    as (m' & Hs' & Hf & _).
  destruct (foldl spec_fts_op (∅, ∅) os) as [cs ever]. cbn [fst snd] in Hf.
  destruct (search_notes_reads m' cs ever query Hf) as (hits & Hr & Hh).
  destruct (Hr s' Hs') as (s2 & E & _). exists hits. rewrite E. split_and!; [done|done| |].
  - intros p c Hp Hq. apply Hh. eapply matches_mono; [|exact Hq]. intros t Ht.
    by eapply indexed_has_term.
  - intros p Hp%Hh. by eapply found_live.
Qed.

End search.
