(* ===== verification/Snapshot.v ===== *)
(** * Snapshot: backups of an engine ([create_snapshot], [restore_snapshot], [reconcile_tables])

    A snapshot directory is its SSTables, its log files by name and its manifest.
    A [Host] is an engine with what is in its data directory besides: the log
    files no family has open, and the manifest a restore leaves there.  The files
    of a directory are listed in the order of the map that models it. *)
From Stdlib Require Import ZArith Lia QArith.
From stdpp Require Import base tactics numbers list gmap strings sorting pretty.
From S2P Require Import Prelude Bytes SortedMap LogRecord Iterators.
From S2P Require Import MemTable Extern Encryption SstReader Wal Table.
From S2P Require Import VersionSet Utf8 Engine EngineSpec Recovery.
From S2P Require Import Compaction CompactionSpec Transaction Background Durability.
Local Open Scope Z_scope.

Section snapshot.
Context `{!Crc32, !Aead, !Postcard LogRecord, !Postcard LogRecordV0, !Postcard LogRecordV1}.
Context `{!BloomCrate} `{!SstStore} `{!Moka bytes bytes} `{!SerdeJson} `{!EngineEnv}.

Record SnapshotDir := mkSnapshotDir {
  sn_sstables : gmap string SstFile;
  sn_wals : gmap string bytes;
  sn_manifest : option Manifest;
}.
Definition empty_snapshot : SnapshotDir := {| sn_sstables := ∅; sn_wals := ∅; sn_manifest := None |}.

(** ** Creating a snapshot *)

(** [persist_table_to_sstable]: every value of the table becomes a live record;
    the file goes to the snapshot, not to the SSTable directory. *)
Definition count_write (s : EngineCore) : EngineCore :=
  {| memtables := memtables s; memtable_bytes := memtable_bytes s; version_set := version_set s;
     wals := wals s; core_range_tombstones := core_range_tombstones s; disk := disk s;
     sst_writes := S (sst_writes s); ticks := ticks s; compactions_asked := compactions_asked s |}.
Fixpoint persisted_entries (es : list (bytes * bytes)) : M (list (bytes * LogRecord)) :=
  match es with
  | [] => mret []
  | (k, v) :: es =>
      t ← now;
      rest ← persisted_entries es;
      mret ((k, LogRecord_new t k v) :: rest)
  end.
Definition persist_table_to_sstable (t : Table) : M SstFile :=
  at_ ← now;
  entries ← persisted_entries (sorted_entries (t_data t));
  n ← gets sst_writes;
  modify count_write;;
  lift (sst_write n at_ entries).

(** [flush_all_memtables]: a family with memtables is flushed until there is none;
    [false] when the fuel ran out. *)
Fixpoint flush_all_memtables (fuel : nat) : M bool :=
  match fuel with
  | O => mret false
  | S fuel =>
      mems ← gets memtables;
      match list_find (fun e : string * list MemTable => e.2 <> []) (map_to_list mems) with
      | None => mret true
      | Some (_, (cf, _)) => flush_memtable_impl cf;; flush_all_memtables fuel
      end
  end.

(** The copies of the tables of a family, under their own names or, for a table
    in memory, under the name of the family and the position. *)
Definition copy_table (cf : string) (i : nat) (t : Table) (files : gmap string SstFile)
    : M (string * gmap string SstFile) :=
  match t_path t with
  | Some path =>
      file ← query (fun s => open_file (disk s) path);
      mret (path, <[path := file]> files)
  | None =>
      let name := (cf +:+ "_" +:+ pretty (N.of_nat i) +:+ ".sst") in
      file ← persist_table_to_sstable t;
      mret (name, <[name := file]> files)
  end.
Fixpoint copy_tables (cf : string) (i : nat) (ts : list Table) (files : gmap string SstFile)
    : M (list string * gmap string SstFile) :=
  match ts with
  | [] => mret ([], files)
  | t :: ts =>
      c ← copy_table cf i t files;
      rest ← copy_tables cf (S i) ts c.2;
      mret (c.1 :: rest.1, rest.2)
  end.
Fixpoint copy_families (vs : VersionSet) (cfs : list string) (files : gmap string SstFile)
    : M (Manifest * gmap string SstFile) :=
  match cfs with
  | [] => mret ([], files)
  | cf :: cfs =>
      c ← copy_tables cf 0 (cf_tables vs cf) files;
      rest ← copy_families vs cfs c.2;
      mret ((cf, c.1) :: rest.1, rest.2)
  end.

(** The name of the log file of a family. *)
Definition wal_name (cf : string) : string :=
  if bool_decide (cf = "default"%string) || bool_decide (cf = ""%string) then "wal.log"
  else "wal-" +:+ cf +:+ ".log".

(** The logs saved before the flush: the empty ones are left out, and when all
    are empty an empty [wal.log] is written. *)
Definition is_empty_log (data : bytes) : bool := bytes_eqb data [].
Definition save_wals (saved : list (string * bytes)) (ws : gmap string bytes) : gmap string bytes :=
  if existsb (fun cw => negb (is_empty_log cw.2)) saved
  then foldl (fun (ws : gmap string bytes) (cw : string * bytes) =>
                if is_empty_log cw.2 then ws else <[wal_name cw.1 := cw.2]> ws) ws saved
  else <["wal.log"%string := []]> ws.

(** [create_snapshot] in a directory that may hold files already; [None] when the
    fuel of [flush_all_memtables] ran out. *)
Definition create_snapshot (fuel : nat) (backup : SnapshotDir) : M (option SnapshotDir) :=
  saved ← gets (fun s => (fun cw : string * WriteAheadLog => (cw.1, wal_file cw.2)) <$> map_to_list (wals s));
  flushed ← flush_all_memtables fuel;
  if negb flushed then mret None
  else
    vs ← gets version_set;
    c ← copy_families vs (column_families vs) (sn_sstables backup);
    d ← gets disk;
    mret (Some {| sn_sstables := c.2 ∪ d; sn_wals := save_wals saved (sn_wals backup); sn_manifest := Some c.1 |}).

(** ** Restoring a snapshot *)

Record Host := mkHost {
  h_core : EngineCore;
  h_logs : gmap string bytes;
  h_manifest : option Manifest;
}.

Context `{!EqDecision SstFile}.

(** The tables of the snapshot: those of its manifest, or all its files. *)
Definition snapshot_paths (sn : SnapshotDir) : outcome (list (string * string)) :=
  match sn_manifest sn with
  | Some m => table_paths (manifest_paths m)
  | None => Ok (pair "default"%string <$> (map_to_list (sn_sstables sn)).*1)
  end.

(** A file of the same name and other contents in the SSTable directory. *)
Definition conflicts (d : gmap string SstFile) (sn : SnapshotDir) (c : Candidate) : bool :=
  match d !! c_path c, sn_sstables sn !! c_path c with
  | Some f, Some g => bool_decide (f <> g)
  | _, _ => false
  end.
Definition copy_candidate (sn : SnapshotDir) (d : gmap string SstFile) (c : Candidate) : gmap string SstFile :=
  match d !! c_path c, sn_sstables sn !! c_path c with
  | None, Some f => <[c_path c := f]> d
  | _, _ => d
  end.

(** Logs are copied over those of the data directory; an open one goes on
    appending to what was copied. *)
Definition overwrite_log (sn : SnapshotDir) (cf : string) (w : WriteAheadLog) : WriteAheadLog :=
  match sn_wals sn !! wal_name cf with
  | Some file => wal_set w file 0 (wal_batch_count w) (wal_draws w)
  | None => w
  end.
Definition open_log_names (s : EngineCore) : list string := wal_name <$> (map_to_list (wals s)).*1.

(** The directory after the copies, before the tables are registered. *)
Definition copied (sn : SnapshotDir) (cs : list Candidate) (s : EngineCore) : EngineCore :=
  {| memtables := memtables s; memtable_bytes := memtable_bytes s; version_set := version_set s;
     wals := map_imap (fun cf w => Some (overwrite_log sn cf w)) (wals s);
     core_range_tombstones := core_range_tombstones s;
     disk := foldl (copy_candidate sn) (disk s) cs;
     sst_writes := sst_writes s; ticks := ticks s; compactions_asked := compactions_asked s |}.

(** [restore_snapshot]. *)
Definition restore_snapshot (sn : SnapshotDir) (h : Host) : outcome unit * Host :=
  let s := h_core h in
  match (let* paths := snapshot_paths sn in inspect (sn_sstables sn) ∅ paths) with
  | Ok candidates =>
      if existsb (conflicts (disk s) sn) candidates then (Err InvalidArgument, h)
      else
        let '(r, s') := apply_candidates candidates (copied sn candidates s) in
        (r, {| h_core := s';
               h_logs := filter (fun e => e.1 ∉ open_log_names s) (sn_wals sn) ∪ h_logs h;
               h_manifest := match sn_manifest sn with Some m => Some m | None => h_manifest h end |})
  | Err e => (Err e, h)
  | Panic => (Panic, h)
  end.

(** ** [reconcile_tables] *)

Definition tracked_paths (vs : VersionSet) : gset string :=
  list_to_set (concat ((fun cf => omap t_path (cf_tables vs cf)) <$> column_families vs)).
Definition orphaned (s : EngineCore) : list string :=
  filter (fun path => path ∉ tracked_paths (version_set s)) (map_to_list (disk s)).*1.
(** How many files were removed. *)
Definition reconcile_tables : M nat :=
  orphans ← gets orphaned;
  modify (fun s => foldr remove_file s orphans);;
  mret (length orphans).

End snapshot.

(** ** Listing snapshots ([list_snapshots], [dir_size], [file_count]) *)

(** A directory tree with the sizes of its files; the directories with the time
    of their creation. *)
Inductive Entry : Type :=
| FileEntry (name : string) (size : Z)
| DirEntry (name : string) (created : Z) (entries : list Entry).
Definition entry_name (e : Entry) : string :=
  match e with FileEntry name _ => name | DirEntry name _ _ => name end.

Fixpoint entry_size (e : Entry) : Z :=
  match e with
  | FileEntry _ size => size
  | DirEntry _ _ entries => foldr (fun e total => entry_size e + total) 0 entries
  end.
Definition dir_size (entries : list Entry) : Z := foldr (fun e total => entry_size e + total) 0 entries.
Fixpoint entry_count (e : Entry) : nat :=
  match e with
  | FileEntry _ _ => 1
  | DirEntry _ _ entries => foldr (fun e total => entry_count e + total)%nat 0%nat entries
  end.
Definition file_count (entries : list Entry) : nat := foldr (fun e total => entry_count e + total)%nat 0%nat entries.

Record SnapshotInfo := mkSnapshotInfo {
  si_path : string;
  si_created_at : Z;
  si_size_bytes : Z;
  si_file_count : nat;
}.
Definition snapshot_info (e : Entry) : option SnapshotInfo :=
  match e with
  | FileEntry _ _ => None
  | DirEntry name created entries =>
      if bool_decide ("wal.log"%string ∈ entry_name <$> entries)
      then Some {| si_path := name; si_created_at := created; si_size_bytes := dir_size entries;
                   si_file_count := file_count entries |}
      else None
  end.
(** Newest first; [sort_by_key] is stable. *)
Definition newer (a b : SnapshotInfo) : Prop := si_created_at b <= si_created_at a.
#[global] Instance newer_dec : RelDecision newer.
Proof. intros a b. unfold newer. apply _. Defined.
Definition list_snapshots (backup_dir : option (list Entry)) : list SnapshotInfo :=
  match backup_dir with
  | None => []
  | Some entries => merge_sort newer (omap snapshot_info entries)
  end.

(** ** Termination of [flush_all_memtables] *)

Section flush_all.
Context `{!Crc32, !Aead, !Postcard LogRecord, !Postcard LogRecordV0, !Postcard LogRecordV1}.
Context `{!BloomCrate} `{!SstStore} `{!Moka bytes bytes} `{!SerdeJson} `{!EngineEnv}.

Definition same_memtables (s s' : EngineCore) : Prop := memtables s' = memtables s.
#[local] Instance same_memtables_preorder : PreOrder same_memtables.
Proof. split; [done|]. intros s1 s2 s3 E1 E2. by etrans. Qed.

Ltac keep_mems :=
  repeat first
    [ solve [auto with keeps nocore]
    | apply keeps_ret; apply _ | apply keeps_lift; apply _ | apply keeps_fail; apply _ | apply keeps_gets; apply _
    | apply keeps_bind; [apply _| |intros ?] | apply keeps_modify; by intros ?
    | match goal with |- keeps _ (match ?x with _ => _ end) => destruct x end ].

Lemma flush_entries_mems at_ es : keeps same_memtables (flush_entries at_ es).
Proof. induction es as [|[k r] es IH]; cbn [flush_entries]; unfold now; keep_mems; by intros s. Qed.
#[local] Hint Resolve flush_entries_mems : keeps.
Lemma flush_table_mems cf mem : keeps same_memtables (flush_table cf mem).
Proof. unfold flush_table, wal_apply, wal_handle. keep_mems. Qed.

(** The number of memtables. *)
Definition mem_count (m : gmap string (list MemTable)) : nat := map_fold (fun _ l n => length l + n)%nat 0%nat m.
Lemma mem_count_insert m cf l : mem_count (<[cf := l]> m) = (length l + mem_count (delete cf m))%nat.
Proof.
  unfold mem_count. rewrite <- insert_delete_eq, map_fold_insert_L; [done|intros; lia|apply lookup_delete_eq].
Qed.
Lemma mem_count_lookup m cf l : m !! cf = Some l -> mem_count m = (length l + mem_count (delete cf m))%nat.
Proof. intros E. rewrite <- (insert_id m cf l E) at 1. apply mem_count_insert. Qed.

(** Every memtable has data: what a flush needs to take it out. *)
Definition all_have_data (s : EngineCore) : Prop :=
  forall cf mems mem, memtables s !! cf = Some mems -> mem ∈ mems -> data mem <> ∅.

Lemma last_removelast {A} (l : list A) x : last l = Some x -> l = removelast l ++ [x].
Proof.
  intros E. destruct l as [|y l _] using rev_ind; [done|]. rewrite last_snoc in E. injection E as <-.
  by rewrite removelast_last.
Qed.

(** One flush takes one memtable out, whatever it returns. *)
Lemma flush_takes_one s cf mems :
  memtables s !! cf = Some mems -> mems <> [] -> all_have_data s ->
  let s' := (flush_memtable_impl cf s).2 in
  S (mem_count (memtables s')) = mem_count (memtables s) /\ all_have_data s'.
Proof.
  intros E Hne Hall. unfold flush_memtable_impl. rewrite bind_gets, E.
  destruct (last mems) as [mem|] eqn:El; [|by apply last_None in El].
  pose proof (last_removelast _ _ El) as Hmems.
  assert (mem_is_empty mem = false) as ->.
  { unfold mem_is_empty. apply bool_decide_eq_false. intros Hd. eapply (Hall cf mems mem); [done| |done].
    rewrite Hmems. set_solver. }
  rewrite bind_modify. pose proof (flush_table_mems cf mem (on_memtables <[cf := removelast mems]> s)) as Hm.
  unfold same_memtables in Hm. cbn zeta. unfold all_have_data. rewrite Hm. cbn. split.
  - rewrite mem_count_insert, (mem_count_lookup _ _ _ E). apply (f_equal length) in Hmems. rewrite length_app in Hmems. cbn in *. lia.
  - intros c l m0. destruct (decide (c = cf)) as [->|Hc].
    + rewrite lookup_insert_eq. intros [= <-] Hin. apply (Hall cf mems); [done|]. rewrite Hmems. set_solver.
    + rewrite lookup_insert_ne by done. apply Hall.
Qed.

Lemma find_family (m : gmap string (list MemTable)) i cf mems :
  list_find (fun e : string * list MemTable => e.2 <> []) (map_to_list m) = Some (i, (cf, mems)) ->
  m !! cf = Some mems /\ mems <> [].
Proof.
  intros (Hi & Hne & _)%list_find_Some. split; [|done]. apply elem_of_map_to_list. by eapply list_elem_of_lookup_2.
Qed.

(** C24: Flushing all memtables ends when every memtable has data: one memtable
    goes per flush, so a round more than there are memtables is enough to return
    or to report the error of a flush; on success no memtable is left. *)
Theorem flush_all_terminates fuel s :
  all_have_data s -> (mem_count (memtables s) < fuel)%nat ->
  let '(r, s') := flush_all_memtables fuel s in
  r <> Ok false /\ (r = Ok true -> forall cf mems, memtables s' !! cf = Some mems -> mems = []).
Proof.
  revert s; induction fuel as [|fuel IH]; intros s Hall Hf; [lia|]. cbn [flush_all_memtables]. rewrite bind_gets.
  destruct (list_find _ _) as [[i [cf mems]]|] eqn:E.
  - apply find_family in E as [E Hne]. destruct (flush_takes_one s cf mems E Hne Hall) as [Hc Hall'].
    unfold mbind, M_bind. destruct (flush_memtable_impl cf s) as [[b|e|] s1]; cbn in Hc, Hall' |- *; [|done..].
    apply IH; [done|lia].
  - cbn. split; [done|]. intros _ cf mems Hm. apply list_find_None in E. rewrite Forall_forall in E.
    destruct mems as [|m0 ms]; [done|]. exfalso. apply (E (cf, m0 :: ms)); [by apply elem_of_map_to_list|done].
Qed.

(** A memtable that holds range tombstones and no data is never taken out. *)
Lemma flush_all_stuck fuel s cf mem :
  memtables s = {[cf := [mem]]} -> data mem = ∅ -> (flush_all_memtables fuel s).1 = Ok false.
Proof.
  revert s; induction fuel as [|fuel IH]; intros s Em Hd; [done|]. cbn [flush_all_memtables].
  rewrite bind_gets, Em, map_to_list_singleton. cbn [list_find fst snd]. rewrite decide_True by done.
  assert (exists s', flush_memtable_impl cf s = (Ok false, s') /\ memtables s' = memtables s) as (s' & Hf & Em').
  { unfold flush_memtable_impl. rewrite bind_gets, Em, lookup_singleton_eq. cbn [last].
    assert (mem_is_empty mem = true) as -> by (unfold mem_is_empty; by rewrite Hd).
    assert (exists s', wal_apply cf (fun w => Ok (wal_sync w)) s = (Ok tt, s') /\ memtables s' = memtables s)
      as (s' & Hw & Em').
    { unfold wal_apply, wal_handle, mbind, M_bind. cbn. destruct (wals s !! cf); eexists; by split. }
    exists s'. split; [by rewrite (bind_Ok _ _ _ _ _ Hw)|congruence]. }
  rewrite (bind_Ok _ _ _ _ _ Hf). apply IH; congruence.
Qed.

End flush_all.

(** ** The names of tables are plain *)

Definition no_slash (b : bytes) : Prop := Forall (fun c => Byte.eqb c Byte.x2f = false) b.
Lemma segments_no_slash b : no_slash b -> segments b = [b].
Proof. unfold segments. induction 1 as [|c b Hc _ IH]; [done|]. cbn. by rewrite Hc, IH. Qed.

Lemma table_path_plain name : no_slash (lit name) -> has_sst_extension (lit name) = true -> table_path name = Ok name.
Proof.
  intros Hns Hext. unfold table_path, components. rewrite (segments_no_slash _ Hns). cbn [head default from_option].
  set (b := lit name) in *. assert (4 < length b)%nat as Hl.
  { unfold has_sst_extension in Hext. apply andb_true_iff in Hext as [Hl _]. by apply Nat.ltb_lt. }
  assert (starts_with b (lit "/") = false) as ->.
  { destruct b as [|c b]; [done|]. apply Forall_cons in Hns as [Hc _]. cbn. rewrite bool_decide_false; [done|]. by intros <-. }
  assert (forall x : bytes, (length x <= 4)%nat -> bytes_eqb b x = false) as Hx.
  { intros x Hx. destruct (bytes_eqb_spec b x) as [->|]; [lia|done]. }
  cbn [omap list_omap]. unfold component. rewrite !Hx by (cbn; lia). cbn. by rewrite Hext.
Qed.

Lemma pretty_N_go_no_slash x s : no_slash (lit s) -> no_slash (lit (pretty_N_go x s)).
Proof.
  revert s. induction (N.lt_wf_0 x) as [x _ IH]; intros s Hs.
  assert (x = 0 \/ 0 < x)%N as [->|Hx] by lia; [by rewrite pretty_N_go_0|].
  rewrite pretty_N_go_step by done. apply IH; [by apply N.div_lt|].
  change (no_slash (lit (String (pretty_N_char (x `mod` 10)) "") ++ lit s)). apply Forall_app. split; [|done].
  unfold pretty_N_char. repeat case_match; by repeat constructor.
Qed.
Lemma pretty_no_slash (n : N) : no_slash (lit (pretty n)).
Proof. unfold pretty, pretty_N. case_decide; [by repeat constructor|]. apply pretty_N_go_no_slash. constructor. Qed.

Lemma stamped_plain p t : stamped p t -> table_path p = Ok p.
Proof.
  intros (pre & Hpre & ->). apply table_path_plain.
  - rewrite !lit_app. apply Forall_app. split; [|apply Forall_app; split; [apply pretty_no_slash|by repeat constructor]].
    set_unfold. destruct Hpre as [->|[->|[->|[]]]]; by repeat constructor.
  - rewrite !lit_app. unfold has_sst_extension. rewrite (assoc_L (++)). set (b := lit pre ++ _).
    assert (0 < length b)%nat as Hb.
    { subst b. rewrite length_app. set_unfold. destruct Hpre as [->|[->|[->|[]]]]; cbn; lia. }
    rewrite length_app. change (length (lit ".sst")) with 4%nat. rewrite (proj2 (Nat.ltb_lt _ _)) by lia.
    rewrite Nat.add_sub, drop_app_length. done.
Qed.

(** ** One column family *)

Section one_family.
Context `{!Crc32, !Aead, !Postcard LogRecord, !Postcard LogRecordV0, !Postcard LogRecordV1}.
Context `{!BloomCrate} `{!SstStore} `{!Moka bytes bytes} `{!SerdeJson} `{!EngineEnv}.
Context (cf : string).

(** Calls on one family leave the memtables and tables of the others. *)
Definition confined (s s' : EngineCore) : Prop :=
  forall c, c <> cf -> memtables s' !! c = memtables s !! c /\
    tables (version_set s') !! c = tables (version_set s) !! c.
#[local] Instance confined_preorder : PreOrder confined.
Proof.
  split; [done|]. intros s1 s2 s3 H12 H23 c Hc. destruct (H12 c Hc) as [<- <-]. by apply H23.
Qed.
Lemma replace_groups_others vs c groups :
  c <> cf -> tables (atomic_replace_groups vs cf groups).2 !! c = tables vs !! c.
Proof.
  intros Hc. unfold atomic_replace_groups. destruct (tables vs !! cf); [|done].
  destruct (replace_plan _ _). case_bool_decide; [done|]. destruct (replace_loop _ _ _ _). cbn.
  by rewrite lookup_insert_ne.
Qed.
#[global] Instance confined_steps : Steps (fun c => c = cf) confined.
Proof.
  split; [apply _|..].
  - intros s s' E1 E2 c _. by rewrite E1, E2.
  - intros c' f s -> c Hc. cbn. by rewrite lookup_insert_ne.
  - intros s vs _ E c _. cbn. by rewrite E.
  - intros c' t s -> c Hc. cbn. by rewrite lookup_insert_ne.
  - intros c' groups s -> c Hc. cbn. by rewrite replace_groups_others.
Qed.

(** Nothing but the family [cf]. *)
Definition only_family (s : EngineCore) : Prop :=
  forall c, c <> cf -> memtables s !! c = None /\ tables (version_set s) !! c = None.
Lemma only_family_confined s s' : confined s s' -> only_family s -> only_family s'.
Proof. intros Hs Ho c Hc. destruct (Hs c Hc) as [-> ->]. by apply Ho. Qed.
Lemma run_ops_only os : only_family (run_ops cf os EngineCore_new).2.
Proof. eapply only_family_confined; [by apply (run_ops_steps (fun c => c = cf) confined)|]. by intros c _. Qed.

Lemma only_key {A} (m : gmap string A) :
  (forall c, c <> cf -> m !! c = None) -> m = match m !! cf with Some x => {[cf := x]} | None => ∅ end.
Proof.
  intros Hm. apply map_eq. intros c. destruct (decide (c = cf)) as [->|Hc].
  - destruct (m !! cf); by rewrite ?lookup_singleton_eq, ?lookup_empty.
  - rewrite (Hm c Hc). destruct (m !! cf); by rewrite ?lookup_singleton_ne, ?lookup_empty.
Qed.

(** The copies of tables on disk. *)
Definition copies (ps : list string) (d files files' : gmap string SstFile) : Prop :=
  forall p, if decide (p ∈ ps) then files' !! p = d !! p else files' !! p = files !! p.

Lemma copy_tables_run `{!SstStoreLaws} q ts ess i files s :
  Forall2 (table_holds (disk s) q) ts ess ->
  exists files', copy_tables cf i ts files s = (Ok (omap t_path ts, files'), s) /\
    copies (omap t_path ts) (disk s) files files'.
Proof.
  intros Hts. revert i files. induction Hts as [|t es ts ess [(p & f & ? & ? & ? & Hp & _ & Hd & _) _ _ _] _ IH]; intros i files.
  { exists files. split; [done|]. intros p. rewrite decide_False by set_solver. done. }
  cbn [copy_tables]. unfold copy_table. rewrite Hp.
  rewrite (bind_Ok _ _ s (p, <[p := f]> files) s).
  2:{ rewrite (bind_Ok _ _ s f s); [done|]. unfold query, open_file. by rewrite Hd. }
  destruct (IH (S i) (<[p := f]> files)) as (files' & Hrun & Hc). cbn [snd].
  rewrite (bind_Ok _ _ _ _ _ Hrun). exists files'. cbn. rewrite Hp. split; [done|]. intros p'. specialize (Hc p').
  destruct (decide (p' = p)) as [->|Hne].
  - rewrite (decide_True (P := p ∈ p :: omap t_path ts)) by (by left). case_decide; rewrite Hc; [done|].
    by rewrite lookup_insert_eq.
  - rewrite lookup_insert_ne in Hc by done. case_decide as Hin.
    + rewrite decide_True by (by right). done.
    + rewrite decide_False; [done|]. by intros [?|?]%elem_of_cons.
Qed.

Lemma families_copied `{!SstStoreLaws} q ess files s :
  only_family s -> Forall2 (table_holds (disk s) q) (cf_tables (version_set s) cf) ess ->
  exists man files', copy_families (version_set s) (column_families (version_set s)) files s = (Ok (man, files'), s) /\
    manifest_paths man = pair cf <$> omap t_path (cf_tables (version_set s) cf) /\
    copies (omap t_path (cf_tables (version_set s) cf)) (disk s) files files'.
Proof.
  intros Ho Hts. pose proof (only_key (tables (version_set s)) (fun c Hc => proj2 (Ho c Hc))) as Hkey.
  unfold column_families, cf_tables in *.
  assert (map_to_list (tables (version_set s)) = map_to_list (match tables (version_set s) !! cf with
    Some x => {[cf := x]} | None => ∅ end)) as -> by (by rewrite <- Hkey).
  clear Hkey. destruct (tables (version_set s) !! cf) as [ts|] eqn:E; cbn [default from_option] in *.
  - rewrite map_to_list_singleton. cbn [fmap list_fmap copy_families fst]. change (id ts) with ts in *. unfold cf_tables. rewrite E.
    change (default [] (Some ts)) with ts.
    destruct (copy_tables_run q ts ess 0 files s Hts) as (files' & Hrun & Hc).
    rewrite (bind_Ok _ _ _ _ _ Hrun). exists [(cf, omap t_path ts)], files'. split_and!; [done| |done].
    unfold manifest_paths. cbn. by rewrite app_nil_r.
  - rewrite map_to_list_empty. cbn. exists [], files. split_and!; [done..|]. intros p. by rewrite decide_False by set_solver.
Qed.

End one_family.

(** ** Round trip *)

Section roundtrip.
Context `{!Crc32, !Aead, !Postcard LogRecord, !Postcard LogRecordV0, !Postcard LogRecordV1}.
Context `{!BloomCrate} `{!SstStore} `{!SstStoreLaws} `{!Moka bytes bytes} `{!SerdeJson} `{!EngineEnv}.
Context `{!EqDecision SstFile}.
Context (clock_mono : forall i, 0 <= clock i < clock (S i)).
Context (cf : string).
Context (no_default_ttl : default_ttl options = None).
#[local] Existing Instance none_resident.

Lemma flush_all_refines fuel s m s' :
  refines cf s m -> logged cf s -> only_family cf s -> flush_all_memtables fuel s = (Ok true, s') ->
  refines cf s' m /\ logged cf s' /\ only_family cf s' /\ mem_list cf s' = [].
Proof.
  revert s; induction fuel as [|fuel IH]; intros s Href Hlog Ho Hf; [done|]. cbn [flush_all_memtables] in Hf.
  rewrite bind_gets in Hf. destruct (list_find _ _) as [[i [c mems]]|] eqn:E.
  - apply find_family in E as [E Hne]. apply bind_Ok_inv in Hf as (b & s1 & Hb & Hf).
    assert (c = cf) as ->.
    { destruct (decide (c = cf)); [done|]. destruct (Ho c) as [Hn _]; [done|]. congruence. }
    apply (IH s1); [by eapply flush_refines|by eapply flush_logged| |done].
    eapply only_family_confined; [|exact Ho].
    pose proof (flush_impl_steps (fun c => c = cf) (confined cf) cf eq_refl s) as Hk. by rewrite Hb in Hk.
  - injection Hf as <-. split_and!; try done. unfold mem_list. apply list_find_None in E. rewrite Forall_forall in E.
    destruct (memtables s !! cf) as [[|m0 ms]|] eqn:Em; try done. exfalso.
    apply (E (cf, m0 :: ms)); [by apply elem_of_map_to_list|done].
Qed.

(** What a snapshot holds of a state without memtables. *)
Record holds_tables (sn : SnapshotDir) (s : EngineCore) : Prop := {
  ht_manifest : exists man, sn_manifest sn = Some man /\
    manifest_paths man = pair cf <$> omap t_path (cf_tables (version_set s) cf);
  ht_files p f : p ∈ omap t_path (cf_tables (version_set s) cf) -> disk s !! p = Some f ->
    sn_sstables sn !! p = Some f;
}.

Lemma reverse_tables s ess :
  core_ok cf s ess -> Forall2 (table_holds (disk s) (quarantined (version_set s))) (cf_tables (version_set s) cf) (reverse ess).
Proof.
  intros Hok. rewrite <- (reverse_involutive (cf_tables _ _)). apply Forall2_reverse, (co_tables _ _ _ Hok).
Qed.

Lemma create_snapshot_holds fuel backup s m sn s' :
  refines cf s m -> logged cf s -> only_family cf s -> create_snapshot fuel backup s = (Ok (Some sn), s') ->
  refines cf s' m /\ logged cf s' /\ mem_list cf s' = [] /\ holds_tables sn s'.
Proof.
  intros Href Hlog Ho Hc. unfold create_snapshot in Hc. rewrite bind_gets in Hc.
  apply bind_Ok_inv in Hc as ([|] & s1 & Hf & Hc); [|done]. cbn [negb] in Hc. rewrite bind_gets in Hc.
  destruct (flush_all_refines _ _ _ _ Href Hlog Ho Hf) as (Href1 & Hlog1 & Ho1 & Hml).
  destruct Href1 as (ess & Hok & Hm).
  destruct (families_copied cf _ _ (sn_sstables backup) s1 Ho1 (reverse_tables _ _ Hok)) as (man & files & Hcp & Hman & Hfiles).
  rewrite (bind_Ok _ _ _ _ _ Hcp), bind_gets in Hc. injection Hc as <- <-.
  split_and!; [by exists ess|done|done|]. split; cbn; [by exists man|].
  intros p f Hp Hd. specialize (Hfiles p). rewrite decide_True in Hfiles by done.
  apply lookup_union_Some_l. congruence.
Qed.

(** An engine without data. *)
Record blank (s : EngineCore) : Prop := {
  bl_memtables : memtables s = ∅;
  bl_version_set : version_set s = VersionSet_new true;
  bl_rts : core_range_tombstones s = ∅;
  bl_disk : disk s = ∅;
}.

Lemma table_paths_stamped s ess :
  core_ok cf s ess -> let ps := pair cf <$> omap t_path (cf_tables (version_set s) cf) in table_paths ps = Ok ps.
Proof.
  intros Hok. cbn zeta. assert (Forall (fun p => table_path p = Ok p) (omap t_path (cf_tables (version_set s) cf))) as Hall.
  { apply Forall_forall. intros p [f Hf]%(path_on_disk cf s ess); [|done].
    destruct (co_disk _ _ _ Hok _ _ Hf) as (t & _ & Hst). by eapply stamped_plain. }
  induction Hall as [|p ps Hp _ IH]; [done|]. cbn [fmap list_fmap table_paths]. by rewrite Hp, IH.
Qed.

Lemma inspect_paths files seen ps cs : inspect files seen ps = Ok cs -> c_path <$> cs = ps.*2.
Proof.
  revert seen cs; induction ps as [|[c p] ps IH]; intros seen cs Hi; cbn [inspect] in Hi; [by injection Hi as <-|].
  case_bool_decide; [done|]. apply obind_Ok_inv in Hi as (f & _ & Hi). apply obind_Ok_inv in Hi as (l & _ & Hi).
  apply obind_Ok_inv in Hi as (rest & Hr & [= <-]). cbn. f_equal. by eapply IH.
Qed.

Lemma copied_disk sn d cs p :
  foldl (copy_candidate sn) d cs !! p =
  match d !! p with Some f => Some f | None => if decide (p ∈ c_path <$> cs) then sn_sstables sn !! p else None end.
Proof.
  revert d; induction cs as [|c cs IH]; intros d; cbn [foldl].
  { rewrite decide_False by set_solver. by destruct (d !! p). }
  rewrite IH. unfold copy_candidate. cbn [fmap list_fmap]. destruct (decide (p = c_path c)) as [->|Hne].
  - rewrite (decide_True (P := c_path c ∈ c_path c :: _)) by (by left).
    destruct (d !! c_path c) eqn:E; [by rewrite E|].
    destruct (sn_sstables sn !! c_path c) eqn:E'; [by rewrite lookup_insert_eq|]. rewrite E. by case_decide.
  - assert (forall x : gmap string SstFile, x = d \/ (exists f, x = <[c_path c := f]> d) -> x !! p = d !! p) as Hx.
    { intros x [->|[f ->]]; [done|by rewrite lookup_insert_ne]. }
    rewrite Hx by (repeat case_match; eauto). destruct (d !! p); [done|].
    destruct (decide (p ∈ c_path <$> cs)) as [Hin|Hin].
    + by rewrite decide_True by (by right).
    + rewrite decide_False; [done|]. by intros [?|?]%elem_of_cons.
Qed.

Lemma restore_blank sn s ess rs fs h :
  core_ok cf s ess -> ahead cf s rs [] fs -> mem_list cf s = [] -> holds_tables sn s ->
  blank (h_core h) -> (ticks s <= ticks (h_core h))%nat ->
  exists h', restore_snapshot sn h = (Ok tt, h') /\ restored cf s (h_core h') rs.
Proof.
  intros Hok Ha Hml [(man & Hman & Hps) Hfiles] [Bm Bv Br Bd] Ht.
  set (ps := omap t_path (cf_tables (version_set s) cf)) in *.
  assert (Forall2 (table_holds (sn_sstables sn) (quarantined (version_set s))) (cf_tables (version_set s) cf) (reverse ess)) as Hts
    by (eapply tables_hold_files; [exact Hfiles|by apply reverse_tables]).
  destruct (inspect_holds clock_mono cf no_default_ttl _ _ _ _ ps ∅ Hts) as (cs & Hcs & Hreg);
    [by eapply omap_paths, Hts|apply (co_paths _ _ _ Hok)|set_solver|].
  pose proof (inspect_paths _ _ _ _ Hcs) as Hpaths. rewrite <- list_fmap_compose in Hpaths. cbn in Hpaths.
  rewrite list_fmap_id in Hpaths.
  destruct (apply_registers cf cs _ (copied sn cs (h_core h)) Hreg) as (s' & Hs' & Ets & Em & Er & Ed & _ & Et & Eb & Eq & Ek).
  cbn in Ets, Em, Er, Ed, Et, Eb, Eq, Ek. rewrite Bv in *. rewrite Bd in Ed.
  unfold restore_snapshot, snapshot_paths. rewrite Hman, Hps.
  pose proof (table_paths_stamped s ess Hok) as Hplain. fold ps in Hplain. rewrite Hplain. cbn [obind]. rewrite Hcs.
  assert (existsb (conflicts (disk (h_core h)) sn) cs = false) as ->.
  { rewrite Bd. clear. induction cs as [|c cs IH]; [done|]. cbn. unfold conflicts at 1. by rewrite lookup_empty. }
  rewrite Hs'. eexists. split; [done|]. cbn [h_core].
  assert (mem_list cf s' = []) as Eml by (unfold mem_list; by rewrite Em, Bm).
  split; rewrite ?Eml, ?Et, ?Eb, ?Eq; try done.
  - intros p f Hp Hd. rewrite Ed, copied_disk, lookup_empty, Hpaths, decide_True by done. by apply Hfiles.
  - intros p. rewrite Ed, copied_disk, lookup_empty, Hpaths. case_decide; [|by intros []]. intros _.
    by eapply (path_on_disk cf).
  - unfold rts. by rewrite Er, Br.
  - cbn. lia.
  - set_solver.
  - intros k. unfold mem_data. rewrite Eml. pose proof (ah_agree _ _ _ _ _ Ha k) as Hag.
    unfold mem_data in Hag. rewrite Hml in Hag. by destruct (last_such _ rs).
  - by apply Ek.
Qed.

(** The state answers as the map, now and through every later history of
    successful calls. *)
Definition answers_as (s : EngineCore) (m : gmap bytes bytes) : Prop :=
  (forall k, (get_cf cf k s).1 = Ok (m !! k)) /\
  forall os rs s', Forall (op_ok cf) os -> run_ops cf os s = (Ok rs, s') -> rs = (spec_ops m os).2.

Lemma refines_answers s m : refines cf s m -> answers_as s m.
Proof.
  intros Href. split.
  - intros k. by destruct (get_refines clock_mono cf _ _ k Href) as (s' & -> & _).
  - intros os rs s' Hos Hrun. by destruct (run_ops_refines clock_mono cf no_default_ttl _ _ _ _ _ Href Hos Hrun) as [_ ->].
Qed.


(** ** Reconciliation *)

Lemma cf_tracked vs p : p ∈ omap t_path (cf_tables vs cf) -> p ∈ tracked_paths vs.
Proof.
  intros Hp. unfold tracked_paths. apply elem_of_list_to_set, list_elem_of_In, in_concat.
  exists (omap t_path (cf_tables vs cf)). split; [|by apply list_elem_of_In]. apply list_elem_of_In, list_elem_of_fmap.
  exists cf. split; [done|]. unfold column_families, cf_tables in *.
  destruct (tables vs !! cf) as [ts|] eqn:E; [|by apply elem_of_nil in Hp].
  apply list_elem_of_fmap. exists (cf, ts). split; [done|]. by apply elem_of_map_to_list.
Qed.

Lemma reconciled_disk s p :
  foldr delete (disk s) (orphaned s) !! p =
  if decide (p ∈ tracked_paths (version_set s)) then disk s !! p else None.
Proof.
  assert (forall l, foldr delete (disk s) l !! p = if decide (p ∈ l) then None else disk s !! p) as Hl.
  { clear. induction l as [|q l IH]; cbn; [by rewrite decide_False by set_solver|]. destruct (decide (p = q)) as [->|Hne].
    - by rewrite lookup_delete_eq, decide_True by (by left).
    - rewrite lookup_delete_ne, IH by done. destruct (decide (p ∈ l)).
      + by rewrite decide_True by (by right).
      + rewrite decide_False; [done|]. by intros [?|?]%elem_of_cons. }
  rewrite Hl. unfold orphaned. destruct (decide (p ∈ tracked_paths (version_set s))) as [Ht|Ht].
  - rewrite decide_False; [done|]. intros [Hn _]%list_elem_of_filter. done.
  - case_decide as Hin; [done|]. destruct (disk s !! p) as [f|] eqn:E; [|done]. destruct Hin. apply list_elem_of_filter.
    split; [done|]. apply list_elem_of_fmap. exists (p, f). split; [done|]. by apply elem_of_map_to_list.
Qed.

Lemma reconcile_refines s m n s' :
  refines cf s m -> reconcile_tables s = (Ok n, s') -> refines cf s' m.
Proof.
  intros (ess & Hok & Hm) Hr. unfold reconcile_tables in Hr. rewrite bind_gets, bind_modify in Hr.
  injection Hr as _ <-. rewrite foldr_remove_files. exists ess. split; [|done].
  pose proof Hok as []. split; try done; cbn.
  - eapply tables_hold_files; [|done]. intros p f (t & Ht & Hp)%list_elem_of_omap Hd.
    rewrite reconciled_disk, decide_True; [done|]. apply cf_tracked, list_elem_of_omap. exists t. by rewrite <- elem_of_reverse.
  - intros p f. rewrite reconciled_disk. case_decide; [|done]. apply co_disk.
Qed.


End roundtrip.

(** ** After a range deletion *)

Section range_deletion.
Context `{!Crc32, !Aead, !Postcard LogRecord, !Postcard LogRecordV0, !Postcard LogRecordV1}.
Context `{!BloomCrate} `{!SstStore} `{!Moka bytes bytes} `{!SerdeJson} `{!EngineEnv}.

(** No snapshot can be taken while a memtable holds a range deletion and no
    data: on an engine whose first write is a range deletion
    [flush_all_memtables] never returns, for no number of rounds. *)
Theorem snapshot_never_returns fuel backup cf start stop s :
  delete_range_cf cf start stop EngineCore_new = (Ok tt, s) ->
  (create_snapshot fuel backup s).1 = Ok None.
Proof.
  unfold delete_range_cf. rewrite !bind_now. intros Hd. apply bind_Ok_inv in Hd as (u & s1 & Hw & Hd).
  rewrite bind_modify in Hd. injection Hd as <-.
  assert (memtables s1 = ∅) as Em.
  { assert (keeps same_memtables (wal_apply cf (fun w => write_record w
       (set_cf cf (range_tombstone (clock (ticks (tick EngineCore_new))) start stop))))) as Hk.
    { unfold wal_apply, wal_handle.
      repeat first [apply keeps_bind; [apply same_memtables_preorder| |intros ?] | apply keeps_gets; apply same_memtables_preorder
        | apply keeps_lift; apply same_memtables_preorder | apply keeps_modify; by intros ?
        | apply keeps_ret; apply same_memtables_preorder
        | match goal with |- keeps _ (match ?x with _ => _ end) => destruct x end]. }
    specialize (Hk (tick (tick EngineCore_new))). rewrite Hw in Hk. exact Hk. }
  unfold create_snapshot. rewrite bind_gets. unfold mbind, M_bind.
  match goal with |- context [flush_all_memtables fuel ?st] =>
    pose proof (flush_all_stuck fuel st cf (add_range_tombstone new_unlimited
      {| start_key := start; end_key := stop; rt_timestamp := clock (ticks EngineCore_new) |})) as Hst end.
  destruct (flush_all_memtables fuel _) as [r s2]. cbn [fst] in Hst. rewrite Hst; [done| |done].
  cbn. by rewrite Em, lookup_empty.
Qed.

End range_deletion.

(** ** Listing *)

(** The snapshots listed are the directories with a [wal.log], newest first. *)
Lemma list_snapshots_newest_first entries :
  Sorted newer (list_snapshots (Some entries)) /\ list_snapshots (Some entries) ≡ₚ omap snapshot_info entries.
Proof.
  assert (Total newer) by (intros a b; unfold newer; lia).
  split; [by apply Sorted_merge_sort|apply merge_sort_Permutation].
Qed.
