(* ===== verification/BackupScheduler.v ===== *)
(** * BackupScheduler: periodic backups ([src/src/infra/backup_scheduler.rs])

    The scheduler is given two functions, one that makes a snapshot of the engine in
    a directory and one that lists the snapshots of a directory; here they act on
    the directories of the file system, each the list of its entries.  Background
    threads are the configurations they copied when they were started, and one turn
    of their loop is a step.  The time is an argument, as the name that is made of
    it, and so are the failures of the file system. *)
From Stdlib Require Import ZArith Lia.
From stdpp Require Import base tactics numbers list gmap strings sorting.
From S2P Require Import Prelude Bytes LogRecord Engine Snapshot.
Local Open Scope Z_scope.

Record BackupInfo := mkBackupInfo {
  bi_id : string;
  bi_path : string;
  bi_size_bytes : Z;
  bi_file_count : nat;
  bi_created_at : Z;
}.
Record BackupConfig := mkBackupConfig {
  retention_count : nat;
  backup_dir : string;
}.
Definition BackupConfig_default : BackupConfig := mkBackupConfig 10 "backups".

(** The directories by path. *)
Abbreviation FileSystem := (gmap string (list Entry)).

(** [thread_handle] and [running], with the threads that were ever started: the
    flag each tests is its own and nothing clears it. *)
Record BackupScheduler := mkBackupScheduler {
  bs_config : BackupConfig;
  bs_running : bool;
  bs_handle : bool;
  bs_threads : list BackupConfig;
}.
Definition BackupScheduler_new (dir : string) : BackupScheduler :=
  mkBackupScheduler (mkBackupConfig (retention_count BackupConfig_default) dir) false false [].

Definition schedule (b : BackupScheduler) : BackupScheduler :=
  if bs_running b then b
  else mkBackupScheduler (bs_config b) true true (bs_threads b ++ [bs_config b]).
Definition stop (b : BackupScheduler) : BackupScheduler :=
  mkBackupScheduler (bs_config b) false false (bs_threads b).
Definition set_config (config : BackupConfig) (b : BackupScheduler) : BackupScheduler :=
  mkBackupScheduler config (bs_running b) (bs_handle b) (bs_threads b).

(** ** Directories *)

(** [create_dir_all] of a directory, and of a directory in it. *)
Definition create_dir (dir : string) (fs : FileSystem) : FileSystem :=
  match fs !! dir with Some _ => fs | None => <[dir := []]> fs end.
Definition create_subdir (dir name : string) (created : Z) (fs : FileSystem) : FileSystem :=
  let fs := create_dir dir fs in
  let entries := default [] (fs !! dir) in
  if decide (name ∈ entry_name <$> entries) then fs else <[dir := entries ++ [DirEntry name created []]]> fs.

(** [let _ = remove_dir_all]: a directory that cannot be removed stays. *)
Definition remove_entry (name : string) (entries : list Entry) : list Entry :=
  filter (fun e => entry_name e <> name) entries.
Definition remove_dir_all (fails : string -> bool) (dir name : string) (fs : FileSystem) : FileSystem :=
  if fails name then fs else alter (remove_entry name) dir fs.

(** [dir_size] and [file_count_dir] of a directory that may not exist. *)
Definition entries_of (name : string) (entries : list Entry) : list Entry :=
  match list_find (fun e => entry_name e = name) entries with
  | Some (_, DirEntry _ _ es) => es
  | _ => []
  end.

Section scheduler.
Context (snapshot_fn : string -> string -> FileSystem -> outcome unit * FileSystem).
Context (list_fn : string -> FileSystem -> outcome (list SnapshotInfo)).
Context (remove_fails : string -> bool).

(** ** Retention *)

Definition prune (dir : string) (retention : nat) (snapshots : list SnapshotInfo) (fs : FileSystem) : FileSystem :=
  if (retention <? length snapshots)%nat then
    let to_remove := (length snapshots - retention)%nat in
    foldl (fun fs snap => remove_dir_all remove_fails dir (si_path snap) fs) fs (take to_remove (reverse snapshots))
  else fs.
Definition enforce_retention (dir : string) (retention : nat) (fs : FileSystem) : outcome unit * FileSystem :=
  match list_fn dir fs with
  | Ok snapshots => (Ok tt, prune dir retention snapshots fs)
  | Err e => (Err e, fs)
  | Panic => (Panic, fs)
  end.

(** ** Operations *)

(** [backup_now] under the name [timestamp], with the later reading [created];
    [mkdir] is the failure of creating the directory, if it fails. *)
Definition backup_now (timestamp : string) (created : Z) (mkdir : option IoErrorKind) (b : BackupScheduler) (fs : FileSystem)
    : outcome BackupInfo * FileSystem :=
  let dir := backup_dir (bs_config b) in
  let retention := retention_count (bs_config b) in
  match mkdir with Some e => (Err (Io e), fs) | None =>
  match snapshot_fn dir timestamp (create_dir dir fs) with
  | (Ok _, fs) =>
      let es := entries_of timestamp (default [] (fs !! dir)) in
      let info := mkBackupInfo timestamp timestamp (dir_size es) (file_count es) created in
      match enforce_retention dir retention fs with
      | (Ok _, fs) => (Ok info, fs)
      | (Err e, fs) => (Err e, fs)
      | (Panic, fs) => (Panic, fs)
      end
  | (Err e, fs) => (Err e, fs)
  | (Panic, fs) => (Panic, fs)
  end end.

(** One turn of the loop of a background thread, after its sleep. *)
Definition thread_turn (config : BackupConfig) (timestamp : string) (now : Z) (mkdir : bool) (fs : FileSystem)
    : outcome unit * FileSystem :=
  let dir := backup_dir config in
  if negb mkdir then (Ok tt, fs) else
  match snapshot_fn dir timestamp (create_subdir dir timestamp now fs) with
  | (Ok _, fs) =>
      match list_fn dir fs with
      | Ok backups => (Ok tt, prune dir (retention_count config) backups fs)
      | Err _ => (Ok tt, fs)
      | Panic => (Panic, fs)
      end
  | (Err _, fs) => (Ok tt, fs)
  | (Panic, fs) => (Panic, fs)
  end.

Definition list_backups (b : BackupScheduler) (fs : FileSystem) : outcome (list BackupInfo) :=
  match list_fn (backup_dir (bs_config b)) fs with
  | Ok snapshots =>
      Ok ((fun s => mkBackupInfo (si_path s) (si_path s) (si_size_bytes s) (si_file_count s) (si_created_at s)) <$> snapshots)
  | Err e => Err e
  | Panic => Panic
  end.

(** [restore] of a backup whose identifier is a plain name, with what the given
    function does with the directory. *)
Definition restore {A : Type} (backup_id : string) (restore_fn : string -> string -> outcome A) (b : BackupScheduler)
    (fs : FileSystem) : outcome A :=
  let dir := backup_dir (bs_config b) in
  if decide (backup_id ∈ entry_name <$> default [] (fs !! dir)) then restore_fn dir backup_id else Err InvalidArgument.

End scheduler.

(** ** What retention keeps *)

(** The listing of [Engine::list_snapshots]. *)
Definition engine_list (dir : string) (fs : FileSystem) : outcome (list SnapshotInfo) := Ok (list_snapshots (fs !! dir)).

Definition keep_names (names : list string) (entries : list Entry) : list Entry :=
  filter (fun e => entry_name e ∉ names) entries.

Lemma remove_all_names dir (snaps : list SnapshotInfo) : forall (fs : FileSystem) entries,
  fs !! dir = Some entries ->
  foldl (fun fs snap => remove_dir_all (fun _ => false) dir (si_path snap) fs) fs snaps =
  <[dir := keep_names (si_path <$> snaps) entries]> fs.
Proof.
  induction snaps as [|s snaps IH]; intros fs entries E; cbn [foldl fmap list_fmap].
  - unfold keep_names. rewrite filter_all by (intros e _; apply not_elem_of_nil). by rewrite insert_id.
  - unfold remove_dir_all at 2. rewrite (IH _ (remove_entry (si_path s) entries)) by (by rewrite lookup_alter_eq, E).
    assert (keep_names (si_path s :: (si_path <$> snaps)) entries =
            keep_names (si_path <$> snaps) (remove_entry (si_path s) entries)) as ->.
    { unfold keep_names, remove_entry. rewrite list_filter_filter. apply list_filter_iff. intros e. rewrite not_elem_of_cons. tauto. }
    apply map_eq. intros d. destruct (decide (d = dir)) as [->|Hd]; [by rewrite !lookup_insert_eq|].
    by rewrite !lookup_insert_ne, lookup_alter_ne.
Qed.

#[global] Instance SnapshotInfo_eq_dec : EqDecision SnapshotInfo.
Proof. solve_decision. Defined.

Lemma same_name entries e e' :
  NoDup (entry_name <$> entries) -> e ∈ entries -> e' ∈ entries -> entry_name e = entry_name e' -> e = e'.
Proof.
  intros Hnd (i & Hi)%list_elem_of_lookup_1 (j & Hj)%list_elem_of_lookup_1 E.
  assert (i = j) as ->; [|congruence].
  eapply (NoDup_lookup _ i j (entry_name e) Hnd); rewrite list_lookup_fmap; [by rewrite Hi|by rewrite Hj, E].
Qed.

Lemma snapshot_info_name e s : snapshot_info e = Some s -> si_path s = entry_name e.
Proof. destruct e; cbn; [done|]. case_match; [|done]. by intros [= <-]. Qed.

Lemma omap_keep_names names entries :
  omap snapshot_info (keep_names names entries) = filter (fun s => si_path s ∉ names) (omap snapshot_info entries).
Proof.
  unfold keep_names. induction entries as [|e es IH]; [done|]. rewrite filter_cons.
  destruct (snapshot_info e) as [s|] eqn:E.
  - pose proof (snapshot_info_name _ _ E) as Hn. cbn [omap list_omap]. rewrite E, filter_cons, Hn.
    case_decide; [|exact IH]. cbn [omap list_omap]. by rewrite E, IH.
  - case_decide; cbn [omap list_omap]; by rewrite E.
Qed.

Lemma omap_names_sublist entries : si_path <$> omap snapshot_info entries `sublist_of` entry_name <$> entries.
Proof.
  induction entries as [|e es IH]; [done|]. cbn [omap list_omap fmap list_fmap].
  destruct (snapshot_info e) as [s|] eqn:E; cbn [fmap list_fmap]; [|by constructor].
  rewrite (snapshot_info_name _ _ E). by constructor.
Qed.

Lemma listed_nodup entries : NoDup (entry_name <$> entries) -> NoDup (si_path <$> list_snapshots (Some entries)).
Proof.
  intros Hnd. rewrite (fmap_Permutation si_path _ _ (proj2 (list_snapshots_newest_first entries))).
  eapply sublist_NoDup; [exact Hnd|apply omap_names_sublist].
Qed.

Lemma filter_left_names (l1 l2 : list SnapshotInfo) :
  NoDup (si_path <$> l1 ++ l2) -> filter (fun s => si_path s ∉ si_path <$> l2) (l1 ++ l2) = l1.
Proof.
  rewrite fmap_app. intros (_ & Hl & _)%NoDup_app. rewrite filter_app, filter_all, filter_none, app_nil_r; [done| |].
  - intros s Hs Hn. apply Hn, list_elem_of_fmap. eauto.
  - intros s Hs. apply Hl, list_elem_of_fmap. eauto.
Qed.

(** What is pruned is what was listed beyond the limit, which are the oldest; what is
    listed afterwards is the rest, and entries that are no snapshots stay. *)
Theorem prune_keeps_newest dir r (fs : FileSystem) entries :
  fs !! dir = Some entries -> NoDup (entry_name <$> entries) ->
  let listed := list_snapshots (Some entries) in
  exists entries', prune (fun _ => false) dir r listed fs = <[dir := entries']> fs /\
    list_snapshots (Some entries') ≡ₚ take r listed /\
    (forall e, e ∈ entries' <-> e ∈ entries /\ entry_name e ∉ si_path <$> drop r listed) /\
    (forall a b, a ∈ take r listed -> b ∈ drop r listed -> newer a b).
Proof.
  intros E Hnd listed. exists (keep_names (si_path <$> drop r listed) entries). split_and!.
  - unfold prune. destruct (r <? length listed)%nat eqn:Hr.
    + rewrite (remove_all_names _ _ _ entries E). f_equal. unfold keep_names. apply list_filter_iff. intros e.
      apply Nat.ltb_lt in Hr. assert (take (length listed - r) (reverse listed) = reverse (drop r listed)) as ->.
      { rewrite <- (take_drop r listed) at 2. rewrite reverse_app. apply take_app_length'.
        by rewrite length_reverse, length_drop. }
      by rewrite fmap_reverse, elem_of_reverse.
    + apply Nat.ltb_ge in Hr. rewrite drop_ge by done. unfold keep_names.
      rewrite filter_all by (intros e _; apply not_elem_of_nil). by rewrite insert_id.
  - rewrite (proj2 (list_snapshots_newest_first _)), omap_keep_names.
    rewrite <- (proj2 (list_snapshots_newest_first entries)). fold listed.
    pose proof (filter_left_names (take r listed) (drop r listed)) as Hf. rewrite (take_drop r listed) in Hf.
    rewrite Hf; [done|by apply listed_nodup].
  - intros e. unfold keep_names. rewrite list_elem_of_filter. tauto.
  - destruct (list_snapshots_newest_first entries) as [Hs _]. fold listed in Hs.
    assert (Transitive newer) by (intros x y z; unfold newer; lia).
    apply Sorted_StronglySorted in Hs; [|done]. rewrite <- (take_drop r listed) in Hs.
    intros a b Ha Hb. by eapply StronglySorted_app_1_elem_of.
Qed.

(** ** A backup *)

(** A newest snapshot heads the listing. *)
Lemma list_snapshots_head entries s :
  s ∈ omap snapshot_info entries ->
  (forall s', s' ∈ omap snapshot_info entries -> s' <> s -> si_created_at s' < si_created_at s) ->
  head (list_snapshots (Some entries)) = Some s.
Proof.
  intros Hs Hmax. destruct (list_snapshots_newest_first entries) as [Hsort Hperm].
  assert (s ∈ list_snapshots (Some entries)) as Hin by (by rewrite Hperm).
  assert (Transitive newer) by (intros x y z; unfold newer; lia). apply Sorted_StronglySorted in Hsort; [|done].
  destruct (list_snapshots (Some entries)) as [|s1 l] eqn:El; [by apply elem_of_nil in Hin|]. cbn.
  assert (s1 ∈ omap snapshot_info entries) as H1 by (rewrite <- Hperm; by left).
  apply StronglySorted_inv in Hsort as [_ Hfirst]. rewrite Forall_forall in Hfirst.
  apply elem_of_cons in Hin as [->|Hin]; [done|]. specialize (Hfirst s Hin). unfold newer in Hfirst.
  destruct (decide (si_created_at s1 = si_created_at s)) as [Ht|Ht].
  - destruct (decide (s1 = s)) as [->|Hne]; [done|]. specialize (Hmax s1 H1 Hne). lia.
  - assert (s1 <> s) as Hne by (by intros ->). specialize (Hmax s1 H1 Hne). lia.
Qed.

(** C28: a backup is kept, and no more than the limit.  When the snapshot function
    leaves a new directory with a log in the backup directory, newer than the
    snapshots there, [backup_now] succeeds and reports its size and files.  The
    snapshots listed afterwards are at most [retention_count]; the new one is among
    them unless the limit is zero; they are the newest; and nothing else of the
    directory is removed than the snapshots beyond the limit. *)
Theorem backup_now_retains snapshot_fn name created b fs (dir := backup_dir (bs_config b)) entries t es :
  NoDup (entry_name <$> entries) -> name ∉ entry_name <$> entries -> "wal.log"%string ∈ entry_name <$> es ->
  (forall s, s ∈ omap snapshot_info entries -> si_created_at s < t) ->
  snapshot_fn dir name (create_dir dir fs) = (Ok tt, <[dir := entries ++ [DirEntry name t es]]> fs) ->
  exists entries',
    backup_now snapshot_fn engine_list (fun _ => false) name created None b fs =
      (Ok (mkBackupInfo name name (dir_size es) (file_count es) created), <[dir := entries']> fs) /\
    let listed := list_snapshots (Some (entries ++ [DirEntry name t es])) in
    list_snapshots (Some entries') ≡ₚ take (retention_count (bs_config b)) listed /\
    (length (list_snapshots (Some entries')) <= retention_count (bs_config b))%nat /\
    ((0 < retention_count (bs_config b))%nat -> name ∈ si_path <$> list_snapshots (Some entries')) /\
    (forall e, e ∈ entries -> snapshot_info e = None -> e ∈ entries').
Proof.
  intros Hnd Hname Hwal Hnew Hsnap. set (all := entries ++ [DirEntry name t es]).
  set (info := {| si_path := name; si_created_at := t; si_size_bytes := dir_size es; si_file_count := file_count es |}).
  assert (omap snapshot_info all = omap snapshot_info entries ++ [info]) as Homap.
  { unfold all. rewrite omap_app. cbn. by rewrite bool_decide_eq_true_2. }
  assert (NoDup (entry_name <$> all)) as Hnd'.
  { unfold all. rewrite fmap_app. apply NoDup_app. split_and!; [done| |apply NoDup_singleton].
    intros x Hx ->%list_elem_of_singleton. done. }
  assert (entries_of name all = es) as Hes.
  { unfold entries_of, all. rewrite list_find_app_r; [cbn; by rewrite decide_True|].
    apply list_find_None, Forall_forall. intros e He <-. apply Hname, list_elem_of_fmap. eauto. }
  destruct (prune_keeps_newest dir (retention_count (bs_config b)) (<[dir := all]> fs) all) as (entries' & Hp & Hlist & Hin & _);
    [by rewrite lookup_insert_eq|done|]. exists entries'.
  split; [|cbv zeta; fold all; split_and!; [exact Hlist|rewrite Hlist, length_take; lia| |]].
  - unfold backup_now. fold dir. rewrite Hsnap. cbv zeta. rewrite lookup_insert_eq. cbn [from_option id]. fold all. rewrite Hes.
    unfold enforce_retention, engine_list. rewrite lookup_insert_eq. rewrite Hp. by rewrite insert_insert_eq.
  - intros Hr. rewrite Hlist.
    assert (head (list_snapshots (Some all)) = Some info) as Hhead.
    { apply list_snapshots_head; rewrite Homap; [set_solver|]. intros s' Hs' Hne.
      apply elem_of_app in Hs' as [Hs'| ->%list_elem_of_singleton]; [by apply Hnew|done]. }
    destruct (list_snapshots (Some all)) as [|s1 l]; [done|]. injection Hhead as ->.
    destruct (retention_count (bs_config b)) as [|r]; [lia|]. by left.
  - intros e He Hno. assert (e ∈ all) as Hall by (unfold all; set_solver). apply Hin. split; [done|].
    intros (s & Es & Hd)%list_elem_of_fmap. eapply elem_of_sublist in Hd; [|apply sublist_drop].
    rewrite (proj2 (list_snapshots_newest_first all)) in Hd. apply list_elem_of_omap in Hd as (e' & He' & Hs).
    rewrite (snapshot_info_name _ _ Hs) in Es. by rewrite (same_name all e e' Hnd' Hall He' Es), Hs in Hno.
Qed.

(** ** The life of the threads *)

(** [stop] forgets the thread and does not end it: the flag of its loop is another
    than the one that [stop] clears. *)
Theorem stop_leaves_threads b : bs_threads (stop b) = bs_threads b.
Proof. done. Qed.
(** Started again, there are two. *)
Theorem restarted_twice dir : length (bs_threads (schedule (stop (schedule (BackupScheduler_new dir))))) = 2%nat.
Proof. done. Qed.
(** A new configuration does not reach a thread that runs. *)
Theorem running_config_fixed dir config :
  bs_threads (set_config config (schedule (BackupScheduler_new dir))) = [bs_config (BackupScheduler_new dir)].
Proof. done. Qed.
