(* ===== verification/EngineQueries.v ===== *)
(** * EngineQueries: searches, index queries, statistics and shutdown

    The queries of the engine that go through [scan_cf] and [search_prefix]:
    [search_contains], [value_search], [query_index]; [stats] and [stats_all]; and
    [close]. *)
From Stdlib Require Import ZArith Lia QArith.
From stdpp Require Import base tactics numbers list gmap strings sorting.
From S2P Require Import Prelude Bytes SortedMap LogRecord Iterators.
From S2P Require Import MemTable Extern Encryption SstReader Wal Table.
From S2P Require Import VersionSet Utf8 Engine EngineSpec.
Local Open Scope Z_scope.

(** [haystack.contains(needle)]. *)
Fixpoint contains (haystack needle : bytes) : bool :=
  starts_with haystack needle ||
  match haystack with
  | [] => false
  | _ :: haystack => contains haystack needle
  end.

(** [&s[s.rfind(':')? + 1..]]. *)
Definition after_last_colon (s : bytes) : option bytes :=
  match reverse (split_byte Byte.x3a s) with
  | seg :: _ :: _ => Some seg
  | _ => None
  end.

Section queries.
Context `{!Crc32, !Aead, !Postcard LogRecord, !Postcard LogRecordV0, !Postcard LogRecordV1}.
Context `{!BloomCrate} `{!SstStore} `{!Moka bytes bytes} `{!SerdeJson} `{!EngineEnv}.

(** ** Searches *)

(** [search_contains] on keys, [value_search] on values: the first matches among
    the first ten thousand entries. *)
Definition search_where (p : bytes * bytes -> bool) (limit : Z) : M (list (bytes * bytes)) :=
  results ← scan_cf "default" None None (Some 10000);
  mret (take (Z.to_nat (Z.min limit 100)) (filter (fun e => p e = true) results)).
Definition search_contains (substring : bytes) : Z -> M (list (bytes * bytes)) :=
  search_where (fun e => contains (from_utf8_lossy e.1) substring).
Definition value_search (query : bytes) : Z -> M (list (bytes * bytes)) :=
  search_where (fun e => contains (from_utf8_lossy e.2) query).

(** ** Index queries *)

Definition index_query_prefix (field v : bytes) : bytes :=
  INDEX_PREFIX ++ lit "index:" ++ field ++ lit ":" ++ v ++ lit ":".
Definition primary_keys (results : list (bytes * bytes)) : list bytes :=
  omap (fun e : bytes * bytes => after_last_colon (from_utf8_lossy e.1)) results.

(** The values of the primary keys; keys that are gone or fail are left out. *)
Fixpoint fetch (cf : string) (pks : list bytes) : M (list (bytes * bytes)) :=
  match pks with
  | [] => mret []
  | pk :: pks =>
      v ← ok_value (get_cf cf pk);
      rest ← fetch cf pks;
      mret (match v with Some v => (pk, v) :: rest | None => rest end)
  end.

(** The candidates whose documents have the other fields, until the limit is
    reached. *)
Definition matches_rest (v : bytes) (conds : list (bytes * bytes)) : bool :=
  match json_str_field v with
  | Some json_val => forallb (fun fv : bytes * bytes => bool_decide (json_val fv.1 = Some fv.2)) conds
  | None => false
  end.
Fixpoint filter_candidates (cf : string) (conds : list (bytes * bytes)) (limit : Z) (pks : list bytes)
    (output : list (bytes * bytes)) : M (list (bytes * bytes)) :=
  match pks with
  | [] => mret output
  | pk :: pks =>
      v ← ok_value (get_cf cf pk);
      let output := match v with
                    | Some v => if matches_rest v conds then output ++ [(pk, v)] else output
                    | None => output
                    end in
      if limit <=? len output then mret output else filter_candidates cf conds limit pks output
  end.

Definition query_index (cf : string) (fields values : bytes) (limit : Z) : M (list (bytes * bytes)) :=
  match split_byte Byte.x2c fields, split_byte Byte.x2c values with
  | [field], [v] =>
      '(results, _) ← search_prefix (index_query_prefix field v) None limit;
      fetch cf (primary_keys results)
  | field :: fields, v :: values =>
      if negb (Nat.eqb (length fields) (length values)) then fail InvalidArgument
      else
        '(results, _) ← search_prefix (index_query_prefix field v) None 10000;
        filter_candidates cf (zip fields values) limit (primary_keys results) []
  | _, _ => fail InvalidArgument
  end.

(** ** Statistics *)

(** The fields of [LsmStats] the engine computes from its tables, memtables and
    logs. *)
Record LsmStats := mkLsmStats {
  ls_tables : VersionStats;
  ls_mem_records : nat;
  ls_mem_kb : Z;
  ls_wal_kb : Z;
}.
Definition wal_kb (s : EngineCore) : Z := sumZ (fun cw => wal_size cw.2) (map_to_list (wals s)) / 1024.
Definition mem_records (s : EngineCore) (cf : string) : nat :=
  sum_list ((fun mem => size (data mem)) <$> default [] (memtables s !! cf)).
Definition mem_kb (s : EngineCore) (cf : string) : Z :=
  if bool_decide (is_Some (memtables s !! cf)) then default 0 (memtable_bytes s !! cf) / 1024 else 0.
Definition stats (s : EngineCore) (cf : string) : LsmStats :=
  {| ls_tables := vs_stats (version_set s) cf; ls_mem_records := mem_records s cf;
     ls_mem_kb := mem_kb s cf; ls_wal_kb := wal_kb s |}.
(** [stats_all] adds up every count but the two level figures, which it leaves
    at their default. *)
Definition add_stats (a b : VersionStats) : VersionStats :=
  {| num_tables := num_tables a + num_tables b; total_size := total_size a + total_size b;
     total_records := total_records a + total_records b; sst_kb := sst_kb a + sst_kb b;
     sst_files := sst_files a + sst_files b; sst_records := sst_records a + sst_records b;
     max_levels_reached := max_levels_reached a; num_tables_at_max := num_tables_at_max a |}.
Definition no_stats : VersionStats :=
  {| num_tables := 0; total_size := 0; total_records := 0; sst_kb := 0; sst_files := 0; sst_records := 0;
     max_levels_reached := 0; num_tables_at_max := 0 |}.
Definition stats_all (s : EngineCore) : LsmStats :=
  let cfs := column_families (version_set s) in
  {| ls_tables := foldl (fun a cf => add_stats a (vs_stats (version_set s) cf)) no_stats cfs;
     ls_mem_records := sum_list (mem_records s <$> cfs);
     ls_mem_kb := sumZ (mem_kb s) cfs; ls_wal_kb := wal_kb s |}.

(** ** Shutdown *)

(** [close]: the logs are synced; memtables stay as they are. *)
Definition close : M unit := modify (on_wals (fmap wal_sync)).

(** ** What they answer *)

(** A document that is answered for several fields has the fields after the
    first. *)
Lemma filter_candidates_sound cf conds limit pks output s r s' :
  filter_candidates cf conds limit pks output s = (Ok r, s') ->
  Forall (fun e => matches_rest e.2 conds = true) output -> Forall (fun e => matches_rest e.2 conds = true) r.
Proof.
  revert output s; induction pks as [|pk pks IH]; intros output s Hf Ho; cbn [filter_candidates] in Hf;
    [by injection Hf as <- _|].
  apply bind_Ok_inv in Hf as (v & s1 & _ & Hf).
  set (out := match v with Some v => if matches_rest v conds then output ++ [(pk, v)] else output | None => output end) in Hf.
  assert (Forall (fun e => matches_rest e.2 conds = true) out) as Hout.
  { subst out. destruct v as [v|]; [|done]. destruct (matches_rest v conds) eqn:E; [|done]. apply Forall_app. by repeat constructor. }
  destruct (limit <=? len out); [by injection Hf as <- _|]. by eapply IH.
Qed.

Lemma query_index_compound_sound cf fields values f fs v vs limit s r s' e f' v' :
  split_byte Byte.x2c fields = f :: fs -> split_byte Byte.x2c values = v :: vs -> fs <> [] ->
  query_index cf fields values limit s = (Ok r, s') -> e ∈ r -> (f', v') ∈ zip fs vs ->
  exists json_val, json_str_field e.2 = Some json_val /\ json_val f' = Some v'.
Proof.
  intros Hf Hv Hne Hq He Hc. unfold query_index in Hq. rewrite Hf, Hv in Hq. destruct fs as [|f1 fs]; [done|].
  destruct (negb _); [done|]. apply bind_Ok_inv in Hq as ([results c] & s1 & _ & Hq).
  apply filter_candidates_sound in Hq; [|constructor]. rewrite Forall_forall in Hq. specialize (Hq e He).
  unfold matches_rest in Hq. destruct (json_str_field e.2) as [j|]; [|done]. exists j. split; [done|].
  rewrite forallb_forall in Hq. specialize (Hq (f', v') (proj1 (list_elem_of_In _ _) Hc)).
  by apply bool_decide_eq_true in Hq.
Qed.

End queries.

Section answers.
Context `{!Crc32, !Aead, !Postcard LogRecord, !Postcard LogRecordV0, !Postcard LogRecordV1}.
Context `{!BloomCrate} `{!SstStore} `{!SstStoreLaws} `{!Moka bytes bytes} `{!SerdeJson} `{!EngineEnv}.
Context (clock_mono : forall i, 0 <= clock i < clock (S i)).
Context (no_default_ttl : default_ttl options = None).
#[local] Instance all_resident : Residency := True.

Lemma search_where_refines p limit s m :
  refines "default" s m ->
  exists s', search_where p limit s =
    (Ok (take (Z.to_nat (Z.min limit 100)) (filter (fun e => p e = true) (take 10000 (sorted_entries m)))), s') /\
    refines "default" s' m.
Proof.
  intros Href. destruct (scan_refines clock_mono "default" s m None None (Some 10000) Href) as (s' & Hs & Href'); [lia|].
  exists s'. split; [|done]. unfold search_where. rewrite (bind_Ok _ _ _ _ _ Hs).
  change (Z.to_nat (default MAX_SCAN_LIMIT (Some 10000))) with (Z.to_nat 10000).
  replace (Z.to_nat 10000) with 10000%nat by (vm_compute; reflexivity).
  rewrite (filter_all (fun e => in_range None None e.1 = true)) by done. reflexivity.
Qed.

(** The matches of a search in a map, in the order of keys. *)
Definition spec_search (p : bytes * bytes -> bool) (limit : Z) (m : gmap bytes bytes) : list (bytes * bytes) :=
  take (Z.to_nat (Z.min limit 100)) (filter (fun e => p e = true) (sorted_entries m)).

(** Searches by substring find every match.  After any history on the column
    family ["default"] that leaves at most ten thousand keys, [search_contains]
    answers the entries whose key contains the text and [value_search] those whose
    value does, in the order of keys, at most as many as asked for and at most a
    hundred; both leave the map as it is. *)
Theorem substring_search_exact os rs s text limit :
  Forall (op_ok "default") os -> run_ops "default" os EngineCore_new = (Ok rs, s) ->
  (size (spec_ops ∅ os).1 <= 10000)%nat ->
  exists s1 s2,
    search_contains text limit s =
      (Ok (spec_search (fun e => contains (from_utf8_lossy e.1) text) limit (spec_ops ∅ os).1), s1) /\
    value_search text limit s =
      (Ok (spec_search (fun e => contains (from_utf8_lossy e.2) text) limit (spec_ops ∅ os).1), s2) /\
    refines "default" s1 (spec_ops ∅ os).1 /\ refines "default" s2 (spec_ops ∅ os).1.
Proof.
  intros Hok Hrun Hsz.
  destruct (run_ops_refines clock_mono "default" no_default_ttl _ _ _ _ _
    (refines_new clock_mono "default" no_default_ttl) Hok Hrun) as [Href _].
  assert (forall p, exists s', search_where p limit s = (Ok (spec_search p limit (spec_ops ∅ os).1), s') /\
    refines "default" s' (spec_ops ∅ os).1) as Hp.
  { intros p. destruct (search_where_refines p limit _ _ Href) as (s' & -> & Href'). exists s'. split; [|done].
    unfold spec_search. rewrite (take_ge (sorted_entries _)); [done|].
    unfold sorted_entries, sort_entries. by rewrite (Permutation_length (merge_sort_Permutation _ _)), length_map_to_list. }
  destruct (Hp (fun e => contains (from_utf8_lossy e.1) text)) as (s1 & H1' & R1).
  destruct (Hp (fun e => contains (from_utf8_lossy e.2) text)) as (s2 & H2' & R2). by exists s1, s2.
Qed.

End answers.

(** Text that contains another one. *)
Lemma contains_spec haystack needle :
  contains haystack needle = true <-> exists before after, haystack = before ++ needle ++ after.
Proof.
  induction haystack as [|c h IH]; cbn [contains]; rewrite orb_true_iff, starts_with_spec.
  - split; [intros [[rest ->]|?]; [|done]; by exists [], rest|].
    intros (b & a & E). left. destruct b; [|done]. by exists a.
  - rewrite IH. split.
    + intros [[rest E]|(b & a & ->)]; [by exists [], rest|by exists (c :: b), a].
    + intros ([|c' b] & a & E); [left; by exists a|]. injection E as -> ->. right. by exists b, a.
Qed.

Section shutdown.
Context `{!Crc32, !Aead, !Postcard LogRecord, !Postcard LogRecordV0, !Postcard LogRecordV1}.
Context `{!BloomCrate} `{!SstStore} `{!Moka bytes bytes} `{!SerdeJson} `{!EngineEnv}.

(** After [close] every log is on disk in full. *)
Lemma close_syncs s cf w :
  wals (close s).2 !! cf = Some w ->
  wal_synced w = len (wal_file w) /\ exists w0, wals s !! cf = Some w0 /\ wal_file w = wal_file w0.
Proof.
  cbn. rewrite lookup_fmap. destruct (wals s !! cf) as [w0|]; [|done]. intros [= <-]. split; [done|]. eauto.
Qed.

End shutdown.
