(* ===== verification/Sql.v ===== *)
(** * Sql: the SQL front end ([src/src/infra/sql.rs])

    Statements are the syntax trees the parser gives, as far as the front end looks
    at them: what it does not look at is [Other..] or left out.  The parser itself
    is a library of its own and a parameter of [execute]. *)
From Stdlib Require Import ZArith Lia QArith.
From stdpp Require Import base tactics numbers list gmap strings sorting pretty.
From S2P Require Import Prelude Bytes SortedMap LogRecord Iterators.
From S2P Require Import MemTable Extern Encryption SstReader Wal Table.
From S2P Require Import VersionSet Utf8 Engine EngineSpec.
Local Open Scope Z_scope.

(** ** Syntax trees *)

Inductive SqlValue : Set :=
| SingleQuotedString (s : bytes)
| NumberLiteral (s : bytes)
| Boolean (b : bool)
| OtherValue.
Inductive Expr : Set :=
| EValue (v : SqlValue)
| EIdentifier (name : bytes)
| EBinaryOp (left : Expr) (op : bytes) (right : Expr)
| EOther.
Notation ObjectName := (list bytes).
Inductive TableFactor : Set :=
| TableNamed (name : ObjectName)
| TableOther.
Inductive SetExpr : Set :=
| SetSelect (from : list TableFactor) (selection : option Expr)
| SetValues (rows : list (list Expr))
| SetOther.
Inductive Statement : Set :=
| SQuery (body : SetExpr)
| SInsert (table_name : ObjectName) (columns : list bytes) (source : option SetExpr)
| SDelete (from : list TableFactor) (selection : option Expr)
| SOther.

Inductive SqlResult : Set :=
| Rows (columns : list bytes) (data : list (list bytes))
| Affected (n : Z).

(** ** Helpers *)

Definition object_name_to_string (name : ObjectName) : bytes := default (lit "default") (head name).
Definition table_factor_name (factor : TableFactor) : option bytes :=
  match factor with TableNamed name => Some (object_name_to_string name) | TableOther => None end.
Definition table_name_from_from_clause (from : list TableFactor) : option bytes := head from ≫= table_factor_name.
Definition family (name : bytes) : string := String.string_of_list_byte name.

Definition bool_text (b : bool) : bytes := if b then lit "true" else lit "false".
Definition quote_char : bytes := [Byte.x27].
Definition extract_string_value (e : Expr) : outcome bytes :=
  match e with
  | EValue (SingleQuotedString s) => Ok (quote_char ++ s ++ quote_char)
  | EValue (NumberLiteral n) => Ok n
  | EValue (Boolean b) => Ok (bool_text b)
  | EIdentifier name => Ok name
  | _ => Err InvalidArgument
  end.

(** [s.trim_matches('\'')]: all quotes at both ends. *)
Fixpoint strip_quotes (s : bytes) : bytes :=
  match s with
  | c :: s' => if Byte.eqb c Byte.x27 then strip_quotes s' else s
  | [] => []
  end.
Definition trim_quotes (s : bytes) : bytes := reverse (strip_quotes (reverse (strip_quotes s))).

(** [to_lowercase], exact where the result is compared with ASCII names: the one
    character outside ASCII with an ASCII lower case is the Kelvin sign. *)
Definition lower_byte (b : Byte.byte) : Byte.byte :=
  let x := byte_to_Z b in if (65 <=? x) && (x <=? 90) then byte_of_Z (x + 32) else b.
Fixpoint to_lowercase (s : bytes) : bytes :=
  match s with
  | Byte.xe2 :: Byte.x84 :: Byte.xaa :: s => Byte.x6b :: to_lowercase s
  | b :: s => lower_byte b :: to_lowercase s
  | [] => []
  end.

(** [iter().position(|c| c == name)]. *)
Fixpoint position (name : bytes) (l : list bytes) : option nat :=
  match l with
  | [] => None
  | c :: l => if bytes_eqb c name then Some 0%nat else S <$> position name l
  end.

(** [row[i]]. *)
Definition index_row (row : list Expr) (i : nat) : outcome Expr :=
  match row !! i with Some e => Ok e | None => Panic end.

(** The texts of key and value of a row of [INSERT]. *)
Definition insert_values (columns : list bytes) (row : list Expr) : outcome (bytes * bytes) :=
  let col_names := to_lowercase <$> columns in
  let key_idx := position (lit "key") col_names in
  let value_idx := position (lit "value") col_names in
  match columns, row with
  | [], k :: v :: _ =>
      let* key_str := extract_string_value k in
      let* value_str := extract_string_value v in
      Ok (key_str, value_str)
  | _, _ =>
      let* ki := ok_or key_idx InvalidArgument in
      let* vi := ok_or value_idx InvalidArgument in
      let* k := index_row row ki in
      let* key_str := extract_string_value k in
      let* v := index_row row vi in
      let* value_str := extract_string_value v in
      Ok (key_str, value_str)
  end.

Definition key_value_columns : list bytes := [lit "key"; lit "value"].

Section sql.
Context `{!Crc32, !Aead, !Postcard LogRecord, !Postcard LogRecordV0, !Postcard LogRecordV1}.
Context `{!BloomCrate} `{!SstStore} `{!Moka bytes bytes} `{!SerdeJson} `{!EngineEnv}.

(** [execute_statement]. *)
Definition execute_select (cf : string) (selection : option Expr) : M SqlResult :=
  match selection with
  | Some (EBinaryOp _ _ rhs) =>
      key ← lift (extract_string_value rhs);
      let key_str := trim_quotes key in
      found ← get_cf cf key_str;
      mret (Rows key_value_columns
              match found with Some v => [[key_str; from_utf8_lossy v]] | None => [] end)
  | Some _ => fail InvalidArgument
  | None =>
      results ← scan_cf cf None None (Some MAX_SCAN_LIMIT);
      mret (Rows key_value_columns
              ((fun e : bytes * bytes => [from_utf8_lossy e.1; from_utf8_lossy e.2]) <$> results))
  end.
Definition execute_insert (cf : string) (columns : list bytes) (source : option SetExpr) : M SqlResult :=
  match source with
  | None => fail InvalidArgument
  | Some (SetValues []) => fail InvalidArgument
  | Some (SetValues (row :: _)) =>
      kv ← lift (insert_values columns row);
      put_cf cf (trim_quotes kv.1) (trim_quotes kv.2);;
      mret (Affected 1)
  | Some _ => fail InvalidArgument
  end.
Definition execute_delete (cf : string) (selection : option Expr) : M SqlResult :=
  match selection with
  | Some (EBinaryOp _ _ rhs) =>
      key_str ← lift (extract_string_value rhs);
      delete_cf cf (trim_quotes key_str);;
      mret (Affected 1)
  | _ => fail InvalidArgument
  end.
Definition execute_statement (stmt : Statement) : M SqlResult :=
  match stmt with
  | SQuery (SetSelect from selection) =>
      execute_select (family (default (lit "default") (table_name_from_from_clause from))) selection
  | SQuery _ => fail InvalidArgument
  | SInsert table_name columns source => execute_insert (family (object_name_to_string table_name)) columns source
  | SDelete from selection =>
      execute_delete (family (default (lit "default") (table_name_from_from_clause from))) selection
  | SOther => fail InvalidArgument
  end.

(** [execute]: the first statement of the text; [parse_sql] is the parser. *)
Definition execute (parse_sql : bytes -> option (list Statement)) (sql : bytes) : M SqlResult :=
  match parse_sql sql with
  | None => fail InvalidArgument
  | Some [] => fail InvalidArgument
  | Some (stmt :: _) => execute_statement stmt
  end.

End sql.

(** ** [format_sql_result] *)

(** The number of characters of a text. *)
Definition char_count (s : bytes) : Z := len (filter (fun b => ~ 128 <= byte_to_Z b < 192) s).
(** [format!("{:width$}", s)]: padded on the right, by characters. *)
Definition pad (s : bytes) (width : Z) : bytes := s ++ replicate (Z.to_nat (width - char_count s)) Byte.x20.
Definition column_width (col : bytes) (i : nat) (data : list (list bytes)) : Z :=
  Z.max (len col) (foldr Z.max 0 ((fun row : list bytes => from_option len 0 (row !! i)) <$> data)).
Fixpoint col_widths (i : nat) (columns : list bytes) (data : list (list bytes)) : list Z :=
  match columns with
  | [] => []
  | col :: columns => column_width col i data :: col_widths (S i) columns data
  end.
(** One line; [col_widths[i]] panics beyond the columns. *)
Fixpoint format_cells (i : nat) (widths : list Z) (row : list bytes) : outcome bytes :=
  match row with
  | [] => Ok []
  | cell :: row =>
      match widths !! i with
      | None => Panic
      | Some w =>
          let* rest := format_cells (S i) widths row in
          Ok ((if Nat.eqb i 0 then [] else lit " | ") ++ pad cell w ++ rest)
      end
  end.
Fixpoint separator (i : nat) (widths : list Z) : bytes :=
  match widths with
  | [] => []
  | w :: widths => (if Nat.eqb i 0 then [] else lit "-+-") ++ replicate (Z.to_nat w) Byte.x2d ++ separator (S i) widths
  end.
Definition newline : bytes := [Byte.x0a].
Fixpoint format_rows (widths : list Z) (data : list (list bytes)) : outcome bytes :=
  match data with
  | [] => Ok []
  | row :: data =>
      let* line := format_cells 0 widths row in
      let* rest := format_rows widths data in
      Ok (line ++ newline ++ rest)
  end.
Definition format_sql_result (result : SqlResult) : outcome bytes :=
  match result with
  | Rows columns [] => Ok (lit "(no rows)")
  | Rows columns data =>
      let widths := col_widths 0 columns data in
      let* header := format_cells 0 widths columns in
      let* body := format_rows widths data in
      Ok (header ++ newline ++ separator 0 widths ++ newline ++ body ++
          lit "(" ++ lit (pretty (N.of_nat (length data))) ++ lit " row(s))" ++ newline)
  | Affected n => Ok (lit "Affected rows: " ++ lit (pretty (Z.to_N n)))
  end.

(** ** Statements as operations of the engine *)

(** The statements of the documentation on one table. *)
Inductive command : Type :=
| SelectAll
| SelectKey (k : bytes)
| InsertKey (k v : bytes)
| DeleteKey (k : bytes).

Definition literal (s : bytes) : Expr := EValue (SingleQuotedString s).
Definition key_equals (k : bytes) : Expr := EBinaryOp (EIdentifier (lit "key")) (lit "=") (literal k).
Definition statement_of (table : bytes) (c : command) : Statement :=
  match c with
  | SelectAll => SQuery (SetSelect [TableNamed [table]] None)
  | SelectKey k => SQuery (SetSelect [TableNamed [table]] (Some (key_equals k)))
  | InsertKey k v => SInsert [table] [lit "key"; lit "value"] (Some (SetValues [[literal k; literal v]]))
  | DeleteKey k => SDelete [TableNamed [table]] (Some (key_equals k))
  end.
Definition op_of (c : command) : op :=
  match c with
  | SelectAll => Scan None None (Some MAX_SCAN_LIMIT)
  | SelectKey k => Get k
  | InsertKey k v => Put k v
  | DeleteKey k => Delete k
  end.
(** What a statement answers when the operation answers [a]. *)
Definition result_of (c : command) (a : answer) : SqlResult :=
  match c, a with
  | SelectAll, Entries es =>
      Rows key_value_columns ((fun e : bytes * bytes => [from_utf8_lossy e.1; from_utf8_lossy e.2]) <$> es)
  | SelectKey k, Value (Some v) => Rows key_value_columns [[k; from_utf8_lossy v]]
  | SelectKey k, _ => Rows key_value_columns []
  | _, _ => Affected 1
  end.

(** Texts without a quote at either end. *)
Definition unquoted (s : bytes) : Prop := head s <> Some Byte.x27 /\ last s <> Some Byte.x27.
Definition command_ok (c : command) : Prop :=
  match c with
  | SelectAll => True
  | SelectKey k | DeleteKey k => unquoted k
  | InsertKey k v => unquoted k /\ unquoted v
  end.

Lemma strip_quotes_id s : head s <> Some Byte.x27 -> strip_quotes s = s.
Proof.
  destruct s as [|c s]; [done|]. cbn. intros Hc. destruct (Byte.eqb c Byte.x27) eqn:E; [|done].
  apply Byte.byte_dec_bl in E. congruence.
Qed.
Lemma trim_quotes_literal s : unquoted s -> trim_quotes (quote_char ++ s ++ quote_char) = s.
Proof.
  intros [Hh Hl]. unfold trim_quotes, quote_char. change (strip_quotes ([Byte.x27] ++ s ++ [Byte.x27])) with (strip_quotes (s ++ [Byte.x27])).
  destruct s as [|c s]; [done|]. rewrite (strip_quotes_id ((c :: s) ++ _)) by exact Hh. rewrite reverse_snoc. cbn [strip_quotes].
  change (Byte.eqb Byte.x27 Byte.x27) with true. cbn iota.
  rewrite strip_quotes_id; [apply reverse_involutive|]. intros Hr. apply Hl. by rewrite <- head_reverse.
Qed.

Section commands.
Context `{!Crc32, !Aead, !Postcard LogRecord, !Postcard LogRecordV0, !Postcard LogRecordV1}.
Context `{!BloomCrate} `{!SstStore} `{!Moka bytes bytes} `{!SerdeJson} `{!EngineEnv}.

Fixpoint run_statements (stmts : list Statement) : M (list SqlResult) :=
  match stmts with
  | [] => mret []
  | stmt :: stmts => r ← execute_statement stmt; rest ← run_statements stmts; mret (r :: rest)
  end.

Lemma lift_Ok_inv {A} (x y : A) s s' : lift (Ok x) s = (Ok y, s') -> y = x /\ s' = s.
Proof. by intros [= -> ->]. Qed.

(** A statement runs its operation. *)
Lemma statement_runs_op table c s r s' :
  command_ok c -> execute_statement (statement_of table c) s = (Ok r, s') ->
  exists a, run_op (family table) (op_of c) s = (Ok a, s') /\ r = result_of c a.
Proof.
  intros Hc He. destruct c as [|k|k v|k]; cbn -[trim_quotes quote_char app mbind] in He.
  - apply bind_Ok_inv in He as (es & s1 & Hs & He). injection He as <- <-. exists (Entries es). cbn [op_of run_op].
    by rewrite (bind_Ok _ _ _ _ _ Hs).
  - apply bind_Ok_inv in He as (key & s0 & Hl & He). apply lift_Ok_inv in Hl as [-> ->]. rewrite trim_quotes_literal in He by done.
    apply bind_Ok_inv in He as (v & s1 & Hg & He). injection He as <- <-. exists (Value v). cbn [op_of run_op].
    change (get_cf (family table) k s = (Ok v, s1)) in Hg. rewrite (bind_Ok _ _ _ _ _ Hg). by destruct v.
  - destruct Hc as [Hk Hv]. apply bind_Ok_inv in He as (kv & s0 & Hl & He). apply lift_Ok_inv in Hl as [-> ->]. cbn [fst snd] in He.
    rewrite !trim_quotes_literal in He by done.
    apply bind_Ok_inv in He as (u & s1 & Hp & He). injection He as <- <-. exists Done. cbn [op_of run_op].
    by rewrite (bind_Ok _ _ _ _ _ Hp).
  - apply bind_Ok_inv in He as (key & s0 & Hl & He). apply lift_Ok_inv in Hl as [-> ->]. rewrite trim_quotes_literal in He by done.
    apply bind_Ok_inv in He as (u & s1 & Hp & He). injection He as <- <-. exists Done. cbn [op_of run_op].
    by rewrite (bind_Ok _ _ _ _ _ Hp).
Qed.

Lemma statements_run_ops table cs s rs s' :
  Forall command_ok cs -> run_statements (statement_of table <$> cs) s = (Ok rs, s') ->
  exists answers, run_ops (family table) (op_of <$> cs) s = (Ok answers, s') /\ rs = zip_with result_of cs answers.
Proof.
  intros Hcs. revert s rs. induction Hcs as [|c cs Hc _ IH]; intros s rs Hr.
  { injection Hr as <- <-. by exists []. }
  cbn [fmap list_fmap run_statements] in Hr. apply bind_Ok_inv in Hr as (r & s1 & He & Hr).
  apply bind_Ok_inv in Hr as (rest & s2 & Hrest & Hr). injection Hr as <- <-.
  destruct (statement_runs_op _ _ _ _ _ Hc He) as (a & Ha & ->). destruct (IH _ _ Hrest) as (answers & Has & ->).
  exists (a :: answers). cbn [fmap list_fmap run_ops]. rewrite (bind_Ok _ _ _ _ _ Ha), (bind_Ok _ _ _ _ _ Has). done.
Qed.

End commands.

Section refinement.
Context `{!Crc32, !Aead, !Postcard LogRecord, !Postcard LogRecordV0, !Postcard LogRecordV1}.
Context `{!BloomCrate} `{!SstStore} `{!SstStoreLaws} `{!Moka bytes bytes} `{!SerdeJson} `{!EngineEnv}.
Context (clock_mono : forall i, 0 <= clock i < clock (S i)).
Context (no_default_ttl : default_ttl options = None).
#[local] Instance all_resident : Residency := True.


End refinement.

(** ** Formatting *)

Lemma format_cells_Ok i widths row :
  (i + length row <= length widths)%nat -> exists b, format_cells i widths row = Ok b.
Proof.
  revert i; induction row as [|cell row IH]; intros i Hl; [by eexists|]. cbn in Hl |- *.
  destruct (lookup_lt_is_Some_2 widths i) as [w ->]; [lia|].
  destruct (IH (S i)) as [b ->]; [lia|]. by eexists.
Qed.
Lemma format_rows_Ok widths data :
  Forall (fun row => length row <= length widths)%nat data -> exists b, format_rows widths data = Ok b.
Proof.
  induction 1 as [|row data Hr _ [b IH]]; [by eexists|]. cbn.
  destruct (format_cells_Ok 0 widths row) as [line ->]; [done|]. rewrite IH. by eexists.
Qed.
Lemma length_col_widths i columns data : length (col_widths i columns data) = length columns.
Proof. revert i; induction columns as [|c cs IH]; intros i; [done|]. cbn. by rewrite IH. Qed.

(** Every result of a statement can be printed. *)
Lemma format_total columns data :
  Forall (fun row => length row <= length columns)%nat data -> exists text, format_sql_result (Rows columns data) = Ok text.
Proof.
  intros Hd. unfold format_sql_result. destruct data as [|row data]; [by eexists|]. set (ws := col_widths _ _ _).
  assert (length ws = length columns) as Hw by apply length_col_widths.
  destruct (format_cells_Ok 0 ws columns) as [h ->]; [lia|].
  destruct (format_rows_Ok ws (row :: data)) as [b ->]; [by rewrite Hw|]. by eexists.
Qed.
