(* ===== verification/Config.v ===== *)
(** * Config: the configuration and the options made from it ([src/src/infra/config.rs])

    The configuration groups with their defaults and validation, the builder, and
    [EngineOptions::try_from] ([src/src/core/engine/mod.rs]).  Sizes and counts are
    integers; a rate is a number or one of the other values of an [f64]; the key
    file of the encryption is given by what reading it gives. *)
From Stdlib Require Import ZArith Lia QArith.
From stdpp Require Import base tactics numbers list gmap strings.
From S2P Require Import Prelude Bytes Extern Encryption SstBuilder Wal Table.
From S2P Require Import VersionSet Engine.
Local Open Scope Z_scope.

(** An [f64]. *)
Inductive f64 : Set :=
| Number (q : Q)
| Infinity
| NegInfinity
| NaN.
(** [x <= 0.0 || x >= 1.0]: false for [NaN]. *)
Definition out_of_unit (x : f64) : bool :=
  match x with
  | Number q => Qle_bool q 0 || Qle_bool 1 q
  | Infinity | NegInfinity => true
  | NaN => false
  end.

Inductive CompactionStrategy : Set := CfgSizeTiered | CfgLeveled | CfgLazyLeveling.
Inductive ReplicationRole : Set := Primary | Replica.

Record CoreConfig := mkCoreConfig { cc_dir_path : string; cc_memtable_max_size : Z }.
Record StorageCfg := mkStorageCfg {
  st_block_size : Z;
  st_block_cache_size_mb : Z;
  st_sparse_index_interval : Z;
  st_bloom_false_positive_rate : f64;
  st_encryption_enabled : bool;
  st_encryption_key_path : option (bytes * option bytes);
  st_prefix_compression_enabled : bool;
}.
Record CompactionConfig := mkCompactionConfig {
  cp_level_size : Z;
  cp_max_sstables : Z;
  cp_min_compaction_threshold : Z;
  cp_strategy : CompactionStrategy;
}.
Record ReplicationConfig := mkReplicationConfig {
  rc_role : ReplicationRole;
  rc_replica_endpoints : list string;
  rc_sync_interval_ms : Z;
}.
Record WalConfig := mkWalConfig {
  wc_max_wal_size : Z;
  wc_archive_enabled : bool;
  wc_check_interval_secs : Z;
  wc_sync_interval : Z;
}.
Record LsmConfig := mkLsmConfig {
  lc_core : CoreConfig;
  lc_storage : StorageCfg;
  lc_compaction : CompactionConfig;
  lc_replication : ReplicationConfig;
  lc_wal : WalConfig;
}.

(** ** Defaults *)

Definition CoreConfig_default : CoreConfig :=
  {| cc_dir_path := "./.lsmdata"; cc_memtable_max_size := 4 * 1024 * 1024 |}.
Definition StorageCfg_default : StorageCfg :=
  {| st_block_size := 4096; st_block_cache_size_mb := 64; st_sparse_index_interval := 16;
     st_bloom_false_positive_rate := Number (1 # 100); st_encryption_enabled := false;
     st_encryption_key_path := None; st_prefix_compression_enabled := false |}.
Definition CompactionConfig_default : CompactionConfig :=
  {| cp_level_size := 4; cp_max_sstables := 16; cp_min_compaction_threshold := 4; cp_strategy := CfgSizeTiered |}.
Definition ReplicationConfig_default : ReplicationConfig :=
  {| rc_role := Primary; rc_replica_endpoints := []; rc_sync_interval_ms := 100 |}.
Definition WalConfig_default : WalConfig :=
  {| wc_max_wal_size := 64 * 1024 * 1024; wc_archive_enabled := false; wc_check_interval_secs := 60;
     wc_sync_interval := 4 |}.
Definition LsmConfig_default : LsmConfig :=
  {| lc_core := CoreConfig_default; lc_storage := StorageCfg_default; lc_compaction := CompactionConfig_default;
     lc_replication := ReplicationConfig_default; lc_wal := WalConfig_default |}.

(** ** Validation *)

Definition core_validate (self : CoreConfig) : outcome unit :=
  let size := cc_memtable_max_size self in
  if size =? 0 then Err InvalidMemtableSize
  else if size <? 1024 then Err InvalidMemtableSize
  else if 1024 * 1024 * 1024 <? size then Err InvalidMemtableSize
  else Ok tt.
Definition storage_validate (self : StorageCfg) : outcome unit :=
  if st_block_size self =? 0 then Err InvalidBlockSize
  else if st_block_size self <? 256 then Err InvalidBlockSize
  else if 1024 * 1024 <? st_block_size self then Err InvalidBlockSize
  else if st_block_cache_size_mb self =? 0 then Err InvalidCacheSize
  else if st_sparse_index_interval self =? 0 then Err InvalidIndexInterval
  else if out_of_unit (st_bloom_false_positive_rate self) then Err InvalidBloomRate
  else Ok tt.
Definition compaction_validate (self : CompactionConfig) : outcome unit :=
  if cp_level_size self =? 0 then Err InvalidCompactionConfig
  else if cp_level_size self <? 2 then Err InvalidCompactionConfig
  else if cp_max_sstables self =? 0 then Err InvalidCompactionConfig
  else if cp_max_sstables self <? 2 then Err InvalidCompactionConfig
  else if cp_max_sstables self <? cp_level_size self then Err InvalidCompactionConfig
  else if cp_min_compaction_threshold self =? 0 then Err InvalidCompactionConfig
  else if cp_min_compaction_threshold self <? 2 then Err InvalidCompactionConfig
  else if cp_max_sstables self <? cp_min_compaction_threshold self then Err InvalidCompactionConfig
  else Ok tt.
Definition validate (self : LsmConfig) : outcome unit :=
  let* _ := core_validate (lc_core self) in
  let* _ := storage_validate (lc_storage self) in
  compaction_validate (lc_compaction self).

(** ** The builder *)

Record LsmConfigBuilder := mkBuilder {
  b_dir_path : option string;
  b_memtable_max_size : option Z;
  b_block_size : option Z;
  b_block_cache_size_mb : option Z;
  b_sparse_index_interval : option Z;
  b_bloom_false_positive_rate : option f64;
  b_level_size : option Z;
  b_max_sstables : option Z;
  b_min_compaction_threshold : option Z;
  b_strategy : option CompactionStrategy;
  b_encryption_enabled : option bool;
  b_encryption_key_path : option (bytes * option bytes);
  b_prefix_compression_enabled : option bool;
  b_replication_role : option ReplicationRole;
  b_replica_endpoints : option (list string);
  b_replication_sync_interval_ms : option Z;
  b_wal_max_size : option Z;
  b_wal_archive_enabled : option bool;
  b_wal_check_interval_secs : option Z;
  b_wal_sync_interval : option Z;
}.
Definition builder : LsmConfigBuilder :=
  {| b_dir_path := None; b_memtable_max_size := None; b_block_size := None; b_block_cache_size_mb := None;
     b_sparse_index_interval := None; b_bloom_false_positive_rate := None; b_level_size := None;
     b_max_sstables := None; b_min_compaction_threshold := None; b_strategy := None;
     b_encryption_enabled := None; b_encryption_key_path := None; b_prefix_compression_enabled := None;
     b_replication_role := None; b_replica_endpoints := None; b_replication_sync_interval_ms := None;
     b_wal_max_size := None; b_wal_archive_enabled := None; b_wal_check_interval_secs := None;
     b_wal_sync_interval := None |}.

(** The configuration a builder stands for, and [build]. *)
Definition built (self : LsmConfigBuilder) : LsmConfig :=
  let d := LsmConfig_default in
  {| lc_core :=
       {| cc_dir_path := default (cc_dir_path (lc_core d)) (b_dir_path self);
          cc_memtable_max_size := default (cc_memtable_max_size (lc_core d)) (b_memtable_max_size self) |};
     lc_storage :=
       {| st_block_size := default (st_block_size (lc_storage d)) (b_block_size self);
          st_block_cache_size_mb := default (st_block_cache_size_mb (lc_storage d)) (b_block_cache_size_mb self);
          st_sparse_index_interval := default (st_sparse_index_interval (lc_storage d)) (b_sparse_index_interval self);
          st_bloom_false_positive_rate :=
            default (st_bloom_false_positive_rate (lc_storage d)) (b_bloom_false_positive_rate self);
          st_encryption_enabled := default (st_encryption_enabled (lc_storage d)) (b_encryption_enabled self);
          st_encryption_key_path :=
            match b_encryption_key_path self with Some p => Some p | None => st_encryption_key_path (lc_storage d) end;
          st_prefix_compression_enabled :=
            default (st_prefix_compression_enabled (lc_storage d)) (b_prefix_compression_enabled self) |};
     lc_compaction :=
       {| cp_level_size := default (cp_level_size (lc_compaction d)) (b_level_size self);
          cp_max_sstables := default (cp_max_sstables (lc_compaction d)) (b_max_sstables self);
          cp_min_compaction_threshold :=
            default (cp_min_compaction_threshold (lc_compaction d)) (b_min_compaction_threshold self);
          cp_strategy := default (cp_strategy (lc_compaction d)) (b_strategy self) |};
     lc_replication :=
       {| rc_role := default (rc_role (lc_replication d)) (b_replication_role self);
          rc_replica_endpoints := default (rc_replica_endpoints (lc_replication d)) (b_replica_endpoints self);
          rc_sync_interval_ms := default (rc_sync_interval_ms (lc_replication d)) (b_replication_sync_interval_ms self) |};
     lc_wal :=
       {| wc_max_wal_size := default (wc_max_wal_size (lc_wal d)) (b_wal_max_size self);
          wc_archive_enabled := default (wc_archive_enabled (lc_wal d)) (b_wal_archive_enabled self);
          wc_check_interval_secs := default (wc_check_interval_secs (lc_wal d)) (b_wal_check_interval_secs self);
          wc_sync_interval := default (wc_sync_interval (lc_wal d)) (b_wal_sync_interval self) |} |}.
Definition build (self : LsmConfigBuilder) : outcome LsmConfig :=
  let* _ := validate (built self) in
  Ok (built self).

(** ** Options *)

(** [impl From<CompactionStrategy> for CompactionStrategyType]. *)
Definition strategy_type_of (s : CompactionStrategy) : CompactionStrategyType :=
  match s with CfgSizeTiered => SizeTiered | CfgLeveled => Leveled | CfgLazyLeveling => LazyLeveling end.

(** [EngineOptions::try_from]; the second component is [block_size], which only
    the files written see. *)
Definition try_from_config (config : LsmConfig) : outcome (EngineOptions * Z) :=
  let* encryption := from_storage_config (st_encryption_enabled (lc_storage config))
                                         (st_encryption_key_path (lc_storage config)) in
  Ok ({| write_buffer_size := cc_memtable_max_size (lc_core config);
         max_write_buffer_number := 4;
         compaction_options :=
           {| strategy_type := strategy_type_of (cp_strategy (lc_compaction config));
              compaction_threshold := Z.to_nat (cp_min_compaction_threshold (lc_compaction config));
              max_tables_per_compaction := Z.to_nat (cp_max_sstables (lc_compaction config));
              max_concurrent_compactions := 2 |};
         default_ttl := None;
         eo_encryption := encryption;
         eo_wal_sync_interval := wc_sync_interval (lc_wal config) |},
      st_block_size (lc_storage config)).

(** ** What validation guarantees *)

Record valid (c : LsmConfig) : Prop := {
  va_memtable : 1024 <= cc_memtable_max_size (lc_core c) <= 1024 * 1024 * 1024;
  va_block : 256 <= st_block_size (lc_storage c) <= 1024 * 1024;
  va_cache : st_block_cache_size_mb (lc_storage c) <> 0;
  va_interval : st_sparse_index_interval (lc_storage c) <> 0;
  va_rate : match st_bloom_false_positive_rate (lc_storage c) with
            | Number q => (0 < q < 1)%Q
            | NaN => True
            | _ => False
            end;
  va_level : 2 <= cp_level_size (lc_compaction c) <= cp_max_sstables (lc_compaction c);
  va_threshold : 2 <= cp_min_compaction_threshold (lc_compaction c) <= cp_max_sstables (lc_compaction c);
}.

Lemma out_of_unit_false q : out_of_unit (Number q) = false <-> (0 < q < 1)%Q.
Proof.
  cbn. rewrite orb_false_iff, <- !not_true_iff_false, !Qle_bool_iff.
  split; intros [H1 H2]; split; (apply Qnot_le_lt || apply Qlt_not_le); assumption.
Qed.

Lemma core_validate_spec c :
  core_validate c = Ok tt <-> 1024 <= cc_memtable_max_size c <= 1024 * 1024 * 1024.
Proof. unfold core_validate. repeat case_match; bool_prop; split; (done || lia). Qed.
Lemma compaction_validate_spec c :
  compaction_validate c = Ok tt <->
  2 <= cp_level_size c <= cp_max_sstables c /\ 2 <= cp_min_compaction_threshold c <= cp_max_sstables c.
Proof. unfold compaction_validate. repeat case_match; bool_prop; split; (done || lia). Qed.
Lemma storage_validate_spec c :
  storage_validate c = Ok tt <->
  256 <= st_block_size c <= 1024 * 1024 /\ st_block_cache_size_mb c <> 0 /\ st_sparse_index_interval c <> 0 /\
  out_of_unit (st_bloom_false_positive_rate c) = false.
Proof. unfold storage_validate. repeat case_match; bool_prop; split; (done || lia || (intros; destruct_and!; congruence)). Qed.

Lemma obind_unit_Ok (m k : outcome unit) : (let* _ := m in k) = Ok tt <-> m = Ok tt /\ k = Ok tt.
Proof. destruct m as [[]|e|]; cbn; split; [by split|by intros [_ ?]|done|by intros [? _]|done|by intros [? _]]. Qed.

Lemma validate_spec c : validate c = Ok tt <-> valid c.
Proof.
  unfold validate. rewrite !obind_unit_Ok, core_validate_spec, storage_validate_spec, compaction_validate_spec.
  split.
  - intros (? & (? & ? & ? & Hr) & ? & ?). split; try done.
    destruct (st_bloom_false_positive_rate (lc_storage c)); [by apply out_of_unit_false|done..].
  - intros [? ? ? ? Hr ? ?]. split_and!; try done; try lia.
    destruct (st_bloom_false_positive_rate (lc_storage c)); [by apply out_of_unit_false|done..].
Qed.

(** The builder gives a configuration exactly when the settings are in their
    ranges: it takes what was set and the defaults for the rest, refuses what is out
    of range, and never panics. *)
Theorem build_exact b c : build b = Ok c <-> c = built b /\ valid (built b).
Proof.
  unfold build. rewrite <- validate_spec. destruct (validate (built b)) as [[]|e|] eqn:E; cbn.
  - split; [by intros [= <-]|by intros [-> _]].
  - by split; [|intros [_ ?]].
  - by split; [|intros [_ ?]].
Qed.

(** The kind of the error names the group that is wrong. *)
Lemma validate_error c e :
  validate c = Err e ->
  match e with
  | InvalidMemtableSize => ~ 1024 <= cc_memtable_max_size (lc_core c) <= 1024 * 1024 * 1024
  | InvalidBlockSize => ~ 256 <= st_block_size (lc_storage c) <= 1024 * 1024
  | InvalidCacheSize => st_block_cache_size_mb (lc_storage c) = 0
  | InvalidIndexInterval => st_sparse_index_interval (lc_storage c) = 0
  | InvalidBloomRate => out_of_unit (st_bloom_false_positive_rate (lc_storage c)) = true
  | InvalidCompactionConfig => compaction_validate (lc_compaction c) <> Ok tt
  | _ => False
  end.
Proof.
  unfold validate. destruct (core_validate (lc_core c)) as [[]|e1|] eqn:E1; cbn [obind].
  - destruct (storage_validate (lc_storage c)) as [[]|e2|] eqn:E2; cbn [obind]; [|intros [= <-]|done].
    + intros E3. assert (e = InvalidCompactionConfig) as -> by (unfold compaction_validate in E3; repeat case_match; congruence).
      congruence.
    + unfold storage_validate in E2. repeat case_match; simplify_eq; bool_prop; try done; lia.
  - intros [= <-]. unfold core_validate in E1. repeat case_match; simplify_eq; bool_prop; lia.
  - done.
Qed.

(** The keys [from_storage_config] gives are off, or not the all-zero key. *)
Lemma from_storage_config_key enabled path ec :
  from_storage_config enabled path = Ok ec ->
  ec_enabled ec && bytes_eqb (ec_key ec) (replicate 32 Byte.x00) = false /\ ec_enabled ec = enabled.
Proof.
  unfold from_storage_config. destruct enabled; cbn [negb]; [|by intros [= <-]].
  destruct path as [[p contents]|]; [|done]. destruct (bytes_eqb (trim p) []); [done|].
  unfold from_key_path. intros (cs & _ & Hk)%obind_Ok_inv. apply obind_Ok_inv in Hk as (kb & _ & Hk).
  destruct (negb _); [done|]. destruct (bytes_eqb kb zero_key) eqn:Ez; [done|]. injection Hk as <-. by split.
Qed.

(** Options made from a built configuration meet what the engine relies on:
    there is no default expiry, an enabled encryption has a key that is not the
    all-zero one, blocks have at most a mebibyte, the write buffers hold between
    four kibibytes and four gibibytes, and a compaction has at least two tables. *)
Theorem built_options_meet_engine b c opts block_size :
  build b = Ok c -> try_from_config c = Ok (opts, block_size) ->
  default_ttl opts = None /\
  ec_enabled (eo_encryption opts) && bytes_eqb (ec_key (eo_encryption opts)) (replicate 32 Byte.x00) = false /\
  ec_enabled (eo_encryption opts) = st_encryption_enabled (lc_storage c) /\
  256 <= block_size <= 1048576 /\
  4096 <= write_buffer_size opts * max_write_buffer_number opts <= 4 * 1024 * 1024 * 1024 /\
  (2 <= compaction_threshold (compaction_options opts) <= max_tables_per_compaction (compaction_options opts))%nat.
Proof.
  intros Hb'. assert (valid c) as [Hm Hb _ _ _ _ Ht].
  { unfold build in Hb'. apply obind_Ok_inv in Hb' as ([] & Hv & [= <-]). by apply validate_spec. }
  unfold try_from_config. intros (ec & Hec & [= <- <-])%obind_Ok_inv.
  apply from_storage_config_key in Hec as [Hk He].
  cbn [default_ttl eo_encryption write_buffer_size max_write_buffer_number compaction_options
       compaction_threshold max_tables_per_compaction]. split_and!; try done; lia.
Qed.
