(* ===== verification/TimeTravel.v ===== *)
(** * TimeTravel: queries of the past ([src/src/infra/time_travel.rs])

    The engine keeps the last captures in memory and, when it has a directory,
    writes each to a file of its own; the directory is a map from file names to
    contents.  JSON is a class with its round trip; clock readings are arguments. *)
From Stdlib Require Import ZArith Lia.
From stdpp Require Import base tactics numbers list gmap strings sorting pretty.
From S2P Require Import Prelude Bytes Encryption Engine.
Local Open Scope Z_scope.

Record Snapshot := mkSnapshot {
  s_timestamp : Z;
  s_data : gmap bytes bytes;
  s_label : bytes;
}.

(** ** The serialised form *)

(** [hex::encode]. *)
Definition hex_char (x : Z) : Byte.byte := byte_of_Z (if x <? 10 then x + 48 else x + 87).
Definition hex_encode (b : bytes) : bytes :=
  concat ((fun c => [hex_char (byte_to_Z c / 16); hex_char (byte_to_Z c `mod` 16)]) <$> b).

(** A snapshot as it is written: its entries in hexadecimal ([hex_map_serde]). *)
Record RawSnapshot := mkRaw {
  raw_timestamp : Z;
  raw_entries : list (bytes * bytes);
  raw_label : bytes;
}.
Definition to_raw (s : Snapshot) : RawSnapshot :=
  {| raw_timestamp := s_timestamp s;
     raw_entries := (fun e : bytes * bytes => (hex_encode e.1, hex_encode e.2)) <$> map_to_list (s_data s);
     raw_label := s_label s |}.
Fixpoint decode_entries (es : list (bytes * bytes)) (m : gmap bytes bytes) : option (gmap bytes bytes) :=
  match es with
  | [] => Some m
  | (k, v) :: es =>
      match hex_decode k, hex_decode v with
      | Some k, Some v => decode_entries es (<[k := v]> m)
      | _, _ => None
      end
  end.
Definition of_raw (r : RawSnapshot) : option Snapshot :=
  match decode_entries (raw_entries r) ∅ with
  | Some data => Some {| s_timestamp := raw_timestamp r; s_data := data; s_label := raw_label r |}
  | None => None
  end.

(** [serde_json::to_string_pretty] and [from_str] on the written form. *)
Class SnapshotJson := {
  to_json : RawSnapshot -> option bytes;
  from_json : bytes -> option RawSnapshot;
  json_roundtrip r b : to_json r = Some b -> from_json b = Some r;
}.

(** ** The engine *)

Record TimeTravelEngine := mkTimeTravel {
  snapshots : list Snapshot;
  max_snapshots : nat;
  persistent : bool;
}.
Notation Directory := (gmap string bytes).

Definition new (max : nat) : TimeTravelEngine := {| snapshots := []; max_snapshots := max; persistent := false |}.
Definition new_with_persistence (max : nat) : TimeTravelEngine :=
  {| snapshots := []; max_snapshots := max; persistent := true |}.
Definition set_snapshots (l : list Snapshot) (self : TimeTravelEngine) : TimeTravelEngine :=
  {| snapshots := l; max_snapshots := max_snapshots self; persistent := persistent self |}.

(** [while len > max { remove(0) }]. *)
Definition evict (max : nat) (l : list Snapshot) : list Snapshot := drop (length l - max) l.

Definition snapshot_file (timestamp : Z) : string := "snapshot_" +:+ pretty (Z.to_N timestamp) +:+ ".json".

Section engine.
Context `{!SnapshotJson}.

(** [persist_snapshot]. *)
Definition persist_snapshot (s : Snapshot) (dir : Directory) : Directory :=
  match to_json (to_raw s) with
  | Some text => <[snapshot_file (s_timestamp s) := text]> dir
  | None => dir
  end.

(** [capture] at the clock reading [timestamp], which it returns. *)
Definition capture (timestamp : Z) (data : gmap bytes bytes) (label : bytes) (self : TimeTravelEngine)
    (dir : Directory) : TimeTravelEngine * Directory :=
  let snapshot := {| s_timestamp := timestamp; s_data := data; s_label := label |} in
  (set_snapshots (evict (max_snapshots self) (snapshots self ++ [snapshot])) self,
   if persistent self then persist_snapshot snapshot dir else dir).

(** [snapshot_at_or_before]: [max_by_key] takes the last of equal maxima. *)
Definition later (best : option Snapshot) (s : Snapshot) : option Snapshot :=
  match best with
  | Some b => if s_timestamp s <? s_timestamp b then Some b else Some s
  | None => Some s
  end.
Definition snapshot_at_or_before (timestamp : Z) (self : TimeTravelEngine) : option Snapshot :=
  foldl later None (filter (fun s => s_timestamp s <= timestamp) (snapshots self)).

Definition query_as_of (key : bytes) (timestamp : Z) (self : TimeTravelEngine) : option bytes :=
  s ← snapshot_at_or_before timestamp self; s_data s !! key.
Definition query_range (start_ts end_ts : Z) (self : TimeTravelEngine) : option (gmap bytes bytes) :=
  s ← snapshot_at_or_before end_ts self;
  if s_timestamp s <? start_ts then None else Some (s_data s).

Definition list_snapshots (self : TimeTravelEngine) : list (Z * bytes) :=
  (fun s => (s_timestamp s, s_label s)) <$> snapshots self.
Definition snapshot_count (self : TimeTravelEngine) : nat := length (snapshots self).
Fixpoint remove_first (timestamp : Z) (l : list Snapshot) : option (list Snapshot) :=
  match l with
  | [] => None
  | s :: l => if s_timestamp s =? timestamp then Some l else cons s <$> remove_first timestamp l
  end.
Definition remove_snapshot (timestamp : Z) (self : TimeTravelEngine) : bool * TimeTravelEngine :=
  match remove_first timestamp (snapshots self) with
  | Some l => (true, set_snapshots l self)
  | None => (false, self)
  end.
Definition clear (self : TimeTravelEngine) : TimeTravelEngine := set_snapshots [] self.

(** ** Restoring *)

(** [str::parse::<u128>]: an optional plus sign and digits, up to the maximum. *)
Fixpoint parse_digits (acc : Z) (s : bytes) : option Z :=
  match s with
  | [] => Some acc
  | c :: s =>
      let x := byte_to_Z c in
      if (48 <=? x) && (x <=? 57) && (10 * acc + (x - 48) <=? u128_max)
      then parse_digits (10 * acc + (x - 48)) s
      else None
  end.
Definition parse_u128 (s : bytes) : option Z :=
  match s with
  | [] => None
  | c :: rest =>
      if Byte.eqb c Byte.x2b then match rest with [] => None | _ => parse_digits 0 rest end
      else parse_digits 0 s
  end.
Definition strip_prefix (p s : bytes) : option bytes :=
  if starts_with s p then Some (drop (length p) s) else None.
Definition strip_suffix (p s : bytes) : option bytes :=
  if starts_with (reverse s) (reverse p) then Some (take (length s - length p) s) else None.
Definition file_timestamp (name : string) : option Z :=
  s ← strip_prefix (lit "snapshot_") (lit name); s ← strip_suffix (lit ".json") s; parse_u128 s.

Definition older (a b : Z * bytes) : Prop := a.1 <= b.1.
#[global] Instance older_dec : RelDecision older.
Proof. intros a b. unfold older. apply _. Defined.

(** [load_snapshots]: the files by timestamp, with their contents. *)
Definition load_snapshots (dir : Directory) : list (Z * bytes) :=
  merge_sort older
    (omap (fun e : string * bytes => (fun ts => (ts, e.2)) <$> file_timestamp e.1) (map_to_list dir)).

(** The loop of [restore_snapshots]: a file that cannot be decoded stops it, with
    the snapshots pushed so far. *)
Fixpoint restore_loop (entries : list (Z * bytes)) (restored : nat) (l : list Snapshot)
    : option nat * list Snapshot :=
  match entries with
  | [] => (Some restored, l)
  | (_, raw) :: entries =>
      match from_json raw ≫= of_raw with
      | None => (None, l)
      | Some s =>
          if existsb (fun s' => s_timestamp s' =? s_timestamp s) l then restore_loop entries restored l
          else restore_loop entries (S restored) (l ++ [s])
      end
  end.
Definition by_timestamp (a b : Snapshot) : Prop := s_timestamp a <= s_timestamp b.
#[global] Instance by_timestamp_dec : RelDecision by_timestamp.
Proof. intros a b. unfold by_timestamp. apply _. Defined.
Definition restore_snapshots (dir : Directory) (self : TimeTravelEngine) : option nat * TimeTravelEngine :=
  if negb (persistent self) then (None, self)
  else
    match restore_loop (load_snapshots dir) 0 (snapshots self) with
    | (None, l) => (None, set_snapshots l self)
    | (Some n, l) => (Some n, set_snapshots (evict (max_snapshots self) (merge_sort by_timestamp l)) self)
    end.

End engine.

(** ** Hexadecimal *)

Lemma hex_digit_char x : 0 <= x < 16 -> hex_digit (hex_char x) = Some x.
Proof.
  intros Hx. unfold hex_digit, hex_char. rewrite byte_to_of_Z, Z.mod_small by (destruct (x <? 10); lia).
  destruct (Z.ltb_spec x 10) as [Hs|Hs].
  - rewrite (proj2 (Z.leb_le 48 _)), (proj2 (Z.leb_le _ 57)) by lia. cbn. f_equal. lia.
  - rewrite (proj2 (Z.leb_gt (x + 87) 57)), andb_false_r by lia.
    rewrite (proj2 (Z.leb_le 97 _)), (proj2 (Z.leb_le _ 102)) by lia. cbn. f_equal. lia.
Qed.
Lemma hex_roundtrip b : hex_decode (hex_encode b) = Some b.
Proof.
  induction b as [|c b IH]; [done|]. unfold hex_encode in *. cbn [fmap list_fmap concat app hex_decode].
  pose proof (byte_to_Z_range c). rewrite !hex_digit_char, IH.
  - do 2 f_equal. rewrite <- (byte_of_to_Z c) at 3. f_equal. rewrite <- Z.div_mod; lia.
  - apply Z.mod_pos_bound. lia.
  - split; [apply Z.div_pos; lia|]. apply Z.div_lt_upper_bound; lia.
Qed.
Lemma decode_entries_fmap es m :
  decode_entries ((fun e : bytes * bytes => (hex_encode e.1, hex_encode e.2)) <$> es) m =
  Some (foldl (fun m (e : bytes * bytes) => <[e.1 := e.2]> m) m es).
Proof. revert m; induction es as [|[k v] es IH]; intros m; [done|]. cbn [fmap list_fmap fst snd decode_entries foldl].
  by rewrite !hex_roundtrip, IH.
Qed.
Lemma foldl_insert_lookup (es : list (bytes * bytes)) (m : gmap bytes bytes) k :
  NoDup es.*1 -> foldl (fun (m : gmap bytes bytes) (e : bytes * bytes) => <[e.1 := e.2]> m) m es !! k =
  match (list_to_map es : gmap bytes bytes) !! k with Some v => Some v | None => m !! k end.
Proof.
  revert m; induction es as [|[k' v] es IH]; intros m Hnd; [cbn; by rewrite lookup_empty|].
  rewrite fmap_cons in Hnd. apply NoDup_cons in Hnd as [Hni Hnd]. cbn [foldl fst snd] in *.
  rewrite IH, list_to_map_cons by done.
  destruct (decide (k' = k)) as [->|Hne].
  - rewrite !lookup_insert_eq. destruct (list_to_map es !! k) eqn:E; [|done].
    apply elem_of_list_to_map_2 in E. destruct Hni. apply list_elem_of_fmap. by eexists (k, _).
  - rewrite !lookup_insert_ne by done. done.
Qed.

(** What was written is read back. *)
Lemma raw_roundtrip s : of_raw (to_raw s) = Some s.
Proof.
  unfold of_raw, to_raw. cbn [raw_entries raw_timestamp raw_label]. rewrite decode_entries_fmap.
  destruct s as [ts data label]. cbn. do 2 f_equal. apply map_eq. intros k.
  rewrite foldl_insert_lookup by apply NoDup_fst_map_to_list. rewrite list_to_map_to_list, lookup_empty.
  by destruct (data !! k).
Qed.

(** ** Numbers *)

Lemma parse_pretty_go x s :
  (0 < x)%N -> Z.of_N x <= u128_max -> parse_digits 0 (lit (pretty_N_go x s)) = parse_digits (Z.of_N x) (lit s).
Proof.
  revert s. induction (N.lt_wf_0 x) as [x _ IH]; intros s Hx Hm. rewrite pretty_N_go_step by done.
  assert (x `mod` 10 < 10)%N as Hd by (apply N.mod_lt; lia).
  assert (forall acc, 0 <= acc -> 10 * acc + Z.of_N (x `mod` 10) <= u128_max ->
    parse_digits acc (lit (String (pretty_N_char (x `mod` 10)) s)) = parse_digits (10 * acc + Z.of_N (x `mod` 10)) (lit s)) as Hstep.
  { intros acc Ha Hb.
    change (lit (String (pretty_N_char (x `mod` 10)) s)) with (lit (String (pretty_N_char (x `mod` 10)) "") ++ lit s).
    assert (exists c, lit (String (pretty_N_char (x `mod` 10)) "") = [c] /\ byte_to_Z c = 48 + Z.of_N (x `mod` 10)) as (c & -> & Hc).
    { clear -Hd. generalize dependent (x `mod` 10)%N. intros d Hd. assert (d ∈ N.of_nat <$> seq 0 10) as Hin.
      { apply list_elem_of_fmap. exists (N.to_nat d). split; [lia|]. apply elem_of_seq. lia. }
      clear Hd. revert d Hin. apply Forall_forall. vm_compute. repeat constructor; eexists; split; reflexivity. }
    cbn [app parse_digits]. rewrite Hc. clear -Hd Hb. revert Hd Hb. generalize (x `mod` 10)%N as d. intros d Hd Hb.
    replace (10 * acc + (48 + Z.of_N d - 48)) with (10 * acc + Z.of_N d) by lia.
    rewrite (proj2 (Z.leb_le 48 _)), (proj2 (Z.leb_le _ 57)), (proj2 (Z.leb_le _ u128_max)) by lia. done. }
  pose proof (N.div_mod x 10 ltac:(lia)) as Hdm.
  destruct (decide (x `div` 10 = 0)%N) as [E|E].
  - rewrite E, pretty_N_go_0, Hstep by lia. f_equal. lia.
  - assert (x `div` 10 < x)%N as Hlt by (apply N.div_lt; lia). revert Hdm E Hlt Hstep.
    generalize (x `div` 10)%N as q, (x `mod` 10)%N as r. intros q r Hdm E Hlt Hstep.
    rewrite IH, Hstep by lia. f_equal. lia.
Qed.
Lemma parse_pretty x : 0 <= x <= u128_max -> parse_u128 (lit (pretty (Z.to_N x))) = Some x.
Proof.
  intros Hx. assert (x = 0 \/ 0 < x) as [->|Hp] by lia; [done|].
  assert (parse_digits 0 (lit (pretty (Z.to_N x))) = Some x) as Hd.
  { unfold pretty, pretty_N. rewrite decide_False by lia. rewrite parse_pretty_go by lia. cbn. f_equal. lia. }
  unfold parse_u128. destruct (lit (pretty (Z.to_N x))) as [|c rest] eqn:E; [injection Hd; lia|].
  destruct (Byte.eqb c Byte.x2b) eqn:Ec; [|done]. apply Byte.byte_dec_bl in Ec as ->. cbn in Hd. done.
Qed.

(** ** Captures *)

Section captures.
Context `{!SnapshotJson}.

Definition capture_all (cs : list Snapshot) (st : TimeTravelEngine * Directory) : TimeTravelEngine * Directory :=
  foldl (fun st c => capture (s_timestamp c) (s_data c) (s_label c) st.1 st.2) st cs.

Lemma evict_snoc max l c : evict max (evict max l ++ [c]) = evict max (l ++ [c]).
Proof.
  unfold evict. destruct (decide (length l <= max)%nat) as [Hl|Hl].
  - replace (length l - max)%nat with 0%nat by lia. done.
  - rewrite <- drop_app_le by lia. rewrite drop_drop. f_equal. rewrite length_drop, length_app. cbn. lia.
Qed.
Lemma capture_all_snapshots cs st :
  snapshots (capture_all cs st).1 = match cs with [] => snapshots st.1 | _ => evict (max_snapshots st.1) (snapshots st.1 ++ cs) end /\
  max_snapshots (capture_all cs st).1 = max_snapshots st.1 /\ persistent (capture_all cs st).1 = persistent st.1.
Proof.
  induction cs as [|c cs IH] using rev_ind; [done|]. unfold capture_all in *. rewrite foldl_app. cbn [foldl].
  destruct IH as (IHs & IHm & IHp). cbn [capture fst snapshots set_snapshots max_snapshots persistent].
  rewrite IHs, IHm, IHp. split; [|done]. destruct (cs ++ [c]) as [|x l] eqn:E; [by destruct cs|]. rewrite <- E.
  destruct cs as [|y cs]; [by destruct c|].
  rewrite evict_snoc, <- app_assoc. by destruct c.
Qed.

(** Captures at increasing times. *)
Definition increasing (cs : list Snapshot) : Prop := StronglySorted (fun a b => s_timestamp a < s_timestamp b) cs.

Lemma foldl_later_last l best :
  StronglySorted (fun a b => s_timestamp a < s_timestamp b) (option_list best ++ l) ->
  foldl later best l = match last l with Some s => Some s | None => best end.
Proof.
  revert best; induction l as [|s l IH]; intros best Hs; [done|]. cbn [foldl].
  assert (later best s = Some s) as ->.
  { destruct best as [b|]; [|done]. cbn in Hs |- *. apply StronglySorted_inv in Hs as [_ Hall].
    apply Forall_cons in Hall as [Hlt _]. by rewrite (proj2 (Z.ltb_ge _ _)) by lia. }
  rewrite IH.
  - destruct l as [|s' l]; [done|]. rewrite !last_cons. by destruct (last l).
  - destruct best as [b|]; [|done]. cbn in Hs. by apply StronglySorted_inv in Hs as [Hs _].
Qed.

Lemma increasing_filter (P : Snapshot -> Prop) `{!forall x, Decision (P x)} cs : increasing cs -> increasing (filter P cs).
Proof.
  unfold increasing. induction 1 as [|c cs Hs IH Hall]; [constructor|]. rewrite filter_cons. case_decide; [|done].
  constructor; [done|]. apply Forall_forall. intros x [_ Hx]%list_elem_of_filter. by eapply Forall_forall in Hall.
Qed.
Lemma increasing_drop n cs : increasing cs -> increasing (drop n cs).
Proof.
  unfold increasing. revert n; induction cs as [|c cs IH]; intros [|n] Hs; [done..|]. cbn.
  apply IH. by apply StronglySorted_inv in Hs as [Hs _].
Qed.

(** The latest capture at or before a time. *)
Definition latest_at (t : Z) (cs : list Snapshot) : option Snapshot := last (filter (fun s => s_timestamp s <= t) cs).

Lemma snapshot_at_or_before_last t self :
  increasing (snapshots self) -> snapshot_at_or_before t self = latest_at t (snapshots self).
Proof.
  intros Hs. unfold snapshot_at_or_before, latest_at. rewrite foldl_later_last; [by destruct (last _)|].
  by apply increasing_filter.
Qed.

(** C40: Time travel answers the past.  After captures at increasing times a query
    at a time not before the oldest capture that is kept answers the value of the
    latest capture made until then, of all that were made; before that it answers
    nothing; at most [max] captures are kept, the newest ones. *)
Theorem time_travel_exact max cs k t dir :
  increasing cs ->
  let self := (capture_all cs (new max, dir)).1 in
  snapshots self = evict max cs /\ (length (snapshots self) <= max)%nat /\
  query_as_of k t self =
    (if bool_decide (Exists (fun s => s_timestamp s <= t) (evict max cs))
     then latest_at t cs ≫= (fun s => s_data s !! k) else None).
Proof.
  intros Hs self. assert (snapshots self = evict max cs) as Hkept.
  { subst self. destruct (capture_all_snapshots cs (new max, dir)) as (-> & _). by destruct cs. }
  split_and!; [done| |].
  { rewrite Hkept. unfold evict. rewrite length_drop. lia. }
  unfold query_as_of. rewrite snapshot_at_or_before_last by (rewrite Hkept; by apply increasing_drop). rewrite Hkept.
  case_bool_decide as He.
  - f_equal. unfold latest_at, evict in *. set (n := (length cs - max)%nat) in *.
    assert (filter (fun s => s_timestamp s <= t) cs = filter (fun s => s_timestamp s <= t) (take n cs) ++
      filter (fun s => s_timestamp s <= t) (drop n cs)) as -> by (by rewrite <- filter_app, take_drop).
    rewrite last_app. destruct (last (filter _ (drop _ cs))) eqn:El; [done|]. exfalso. apply last_None in El.
    apply Exists_exists in He as (c & Hin & Hc). exact (filter_nil_not_elem_of _ _ _ El Hc Hin).
  - unfold latest_at. rewrite filter_none; [done|]. intros s Hin Hle. apply He, Exists_exists. by exists s.
Qed.

(** ** Restart *)

Lemma file_timestamp_snapshot ts : 0 <= ts <= u128_max -> file_timestamp (snapshot_file ts) = Some ts.
Proof.
  intros Hts. unfold file_timestamp, snapshot_file, strip_prefix. rewrite !lit_app. set (d := lit (pretty _)).
  rewrite (proj2 (starts_with_spec _ _)) by eauto. rewrite drop_app_length. cbn [mbind option_bind].
  unfold strip_suffix. rewrite reverse_app. rewrite (proj2 (starts_with_spec _ _)) by eauto. cbn [mbind option_bind].
  rewrite length_app, Nat.add_sub, take_app_length. by apply parse_pretty.
Qed.
Lemma snapshot_file_inj a b :
  0 <= a <= u128_max -> 0 <= b <= u128_max -> snapshot_file a = snapshot_file b -> a = b.
Proof.
  intros Ha Hb E. apply (f_equal file_timestamp) in E. rewrite !file_timestamp_snapshot in E by done. by injection E.
Qed.

(** Each capture is written as a text. *)
Definition written (cs : list Snapshot) (texts : list bytes) : Prop :=
  Forall2 (fun c text => to_json (to_raw c) = Some text /\ 0 <= s_timestamp c <= u128_max) cs texts.

Lemma increasing_snoc cs c : increasing (cs ++ [c]) -> increasing cs /\ Forall (fun s => s_timestamp s < s_timestamp c) cs.
Proof.
  unfold increasing. induction cs as [|x cs IH]; cbn; [by repeat constructor|].
  intros [Hs Hall]%StronglySorted_inv. apply Forall_app in Hall as [Hall Hx]. apply Forall_cons in Hx as [Hx _].
  destruct (IH Hs). split; [by apply SSorted_cons|by apply Forall_cons].
Qed.

Lemma capture_all_dir max cs texts :
  increasing cs -> written cs texts ->
  map_to_list (capture_all cs (new_with_persistence max, ∅)).2 ≡ₚ
    zip_with (fun c text => (snapshot_file (s_timestamp c), text)) cs texts.
Proof.
  intros Hs Hw. revert texts Hw Hs. induction cs as [|c cs IH] using rev_ind; intros texts Hw Hs.
  { apply Forall2_nil_inv_l in Hw as ->. cbn. by rewrite map_to_list_empty. }
  apply Forall2_app_inv_l in Hw as (ts1 & ts2 & Hw1 & Hw2 & ->).
  apply Forall2_cons_inv_l in Hw2 as (text & ts3 & [Ht Hr] & Hw3 & ->). apply Forall2_nil_inv_l in Hw3 as ->.
  destruct (increasing_snoc _ _ Hs) as [Hs1 Hall]. specialize (IH _ Hw1 Hs1).
  unfold capture_all in *. rewrite foldl_app. cbn [foldl]. set (st := foldl _ _ cs) in *.
  destruct (capture_all_snapshots cs (new_with_persistence max, ∅)) as (_ & _ & Hp). unfold capture_all in Hp. fold st in Hp.
  cbn [new_with_persistence persistent fst] in Hp.
  cbn [capture snd]. rewrite Hp. unfold persist_snapshot.
  assert (Snapshot_eta : {| s_timestamp := s_timestamp c; s_data := s_data c; s_label := s_label c |} = c) by (by destruct c).
  rewrite Snapshot_eta, Ht. rewrite zip_with_app by (by apply Forall2_length in Hw1).
  rewrite map_to_list_insert; [rewrite IH; cbn; by rewrite Permutation_cons_append|].
  apply not_elem_of_dom_1. intros [t' Ht']%elem_of_dom. apply elem_of_map_to_list in Ht'. rewrite IH in Ht'.
  apply elem_of_zip_with in Ht' as (c' & text' & Heq & Hin & _).
  pose proof (f_equal fst Heq : snapshot_file (s_timestamp c) = snapshot_file (s_timestamp c')) as Hf.
  rewrite Forall_forall in Hall. specialize (Hall c' Hin).
  assert (0 <= s_timestamp c' <= u128_max) as Hr'.
  { apply list_elem_of_lookup in Hin as [i Hi]. by destruct (Forall2_lookup_l _ _ _ _ _ Hw1 Hi) as (? & _ & _ & ?). }
  apply snapshot_file_inj in Hf; [lia|done|done].
Qed.

Lemma increasing_total (cs : list Snapshot) a b :
  increasing cs -> a ∈ cs -> b ∈ cs -> s_timestamp a = s_timestamp b -> a = b.
Proof.
  unfold increasing. induction 1 as [|c cs Hs IH Hall]; [by intros ?%elem_of_nil|]. rewrite Forall_forall in Hall.
  intros [->|Ha]%elem_of_cons [->|Hb]%elem_of_cons E; [done|apply Hall in Hb; lia|apply Hall in Ha; lia|auto].
Qed.

Lemma increasing_by_timestamp cs : increasing cs -> StronglySorted by_timestamp cs.
Proof.
  unfold increasing. induction 1 as [|c cs Hs IH Hall]; constructor; [done|]. eapply Forall_impl; [exact Hall|].
  intros s Hlt. cbn in Hlt. unfold by_timestamp. lia.
Qed.

Lemma load_captured max cs texts :
  increasing cs -> written cs texts ->
  load_snapshots (capture_all cs (new_with_persistence max, ∅)).2 = zip_with (fun c text => (s_timestamp c, text)) cs texts.
Proof.
  intros Hs Hw. unfold load_snapshots.
  assert (Total older) by (intros a b; unfold older; lia). assert (Transitive older) by (intros a b c; unfold older; lia).
  set (E := zip_with (fun c text => (s_timestamp c, text)) cs texts).
  assert (omap (fun e : string * bytes => (fun ts => (ts, e.2)) <$> file_timestamp e.1)
            (zip_with (fun c text => (snapshot_file (s_timestamp c), text)) cs texts) = E) as HE.
  { subst E. clear Hs. induction Hw as [|c text cs texts [_ Hr] _ IH]; [done|]. cbn [zip_with omap list_omap fst snd].
    rewrite file_timestamp_snapshot by done. cbn. by rewrite IH. }
  assert (forall e, e ∈ E -> exists c, c ∈ cs /\ e.1 = s_timestamp c /\ to_json (to_raw c) = Some e.2) as HEin.
  { subst E. clear -Hw. intros e (i & c & text & -> & Hc & Hlk)%elem_of_lookup_zip_with. cbn.
    destruct (Forall2_lookup_lr _ _ _ _ _ _ Hw Hc Hlk) as [? _]. exists c. split_and!; [|done|done]. by eapply list_elem_of_lookup_2. }
  apply (StronglySorted_unique_strong older).
  - intros x1 x2 Hx1 Hx2 Hle Hge. rewrite merge_sort_Permutation, (capture_all_dir max cs texts Hs Hw), HE in Hx1.
    destruct (HEin _ Hx1) as (c1 & Hc1 & E1 & T1), (HEin _ Hx2) as (c2 & Hc2 & E2 & T2). unfold older in *.
    assert (c1 = c2) as -> by (eapply increasing_total; [exact Hs|done|done|lia]).
    destruct x1, x2. cbn in *. congruence.
  - by apply StronglySorted_merge_sort.
  - subst E. clear -Hs Hw. revert texts Hw. induction Hs as [|c cs Hs IH Hall]; intros texts Hw; [constructor|].
    apply Forall2_cons_inv_l in Hw as (text & texts' & _ & Hw & ->). cbn. constructor; [by apply IH|].
    apply Forall_forall. intros e (c' & t' & -> & Hin & _)%elem_of_zip_with. rewrite Forall_forall in Hall.
    specialize (Hall c' Hin). unfold older. cbn. lia.
  - by rewrite merge_sort_Permutation, (capture_all_dir max cs texts Hs Hw), HE.
Qed.

Lemma restore_loop_all cs texts n l :
  written cs texts -> increasing (l ++ cs) ->
  restore_loop (zip_with (fun c text => (s_timestamp c, text)) cs texts) n l = (Some (n + length cs)%nat, l ++ cs).
Proof.
  intros Hw. revert n l. induction Hw as [|c text cs texts [Ht _] _ IH]; intros n l Hs.
  { cbn. by rewrite Nat.add_0_r, app_nil_r. }
  cbn [zip_with restore_loop]. rewrite (json_roundtrip _ _ Ht). cbn [mbind option_bind]. rewrite raw_roundtrip.
  assert (existsb (fun s' => s_timestamp s' =? s_timestamp c) l = false) as ->.
  { change (c :: cs) with ([c] ++ cs) in Hs. rewrite (assoc_L (++)) in Hs.
    assert (increasing (l ++ [c])) as [_ Hall]%increasing_snoc.
    { clear -Hs. unfold increasing in *. by eapply StronglySorted_app_1_l. }
    clear -Hall. induction Hall as [|x l Hx _ IH]; [done|]. cbn. rewrite IH, (proj2 (Z.eqb_neq _ _)) by lia. done. }
  rewrite IH by (by rewrite <- app_assoc). rewrite <- app_assoc. do 2 f_equal. cbn. lia.
Qed.

(** Captures survive a restart.  When every capture could be written, an engine
    opened on the directory restores all of them: it holds the very captures the
    first engine held, and so answers every query alike. *)
Theorem time_travel_restart max cs texts :
  increasing cs -> written cs texts ->
  let '(self, dir) := capture_all cs (new_with_persistence max, ∅) in
  restore_snapshots dir (new_with_persistence max) = (Some (length cs), self).
Proof.
  intros Hs Hw. pose proof (load_captured max cs texts Hs Hw) as Hload.
  destruct (capture_all_snapshots cs (new_with_persistence max, ∅)) as (Hsn & Hm & Hp).
  destruct (capture_all cs (new_with_persistence max, ∅)) as [self dir]. cbn [fst snd] in *.
  unfold restore_snapshots. cbn [persistent new_with_persistence negb snapshots]. rewrite Hload.
  rewrite (restore_loop_all cs texts 0 [] Hw Hs). cbn [app Nat.add].
  assert (merge_sort by_timestamp cs = cs) as ->.
  { assert (Total by_timestamp) by (intros a b; unfold by_timestamp; lia).
    assert (Transitive by_timestamp) by (intros a b c; unfold by_timestamp; lia).
    apply (StronglySorted_unique_strong by_timestamp); [| |by apply increasing_by_timestamp|apply merge_sort_Permutation].
    - intros a b Ha Hb Hab Hba. rewrite merge_sort_Permutation in Ha. unfold by_timestamp in *.
      eapply increasing_total; [exact Hs|done|done|lia].
    - by apply StronglySorted_merge_sort. }
  f_equal. destruct self as [sn mx pe]. cbn in Hsn, Hm, Hp. subst. unfold set_snapshots. cbn. f_equal. by destruct cs.
Qed.

End captures.
