(* ===== verification/NoteEngine.v ===== *)
(** * NoteEngine: notes over the store ([src/src/notes/mod.rs])

    A note is stored under [note:path]; writing it parses its links and tags and
    updates the link index, the tag index and the search index.  The engine here is
    [NoteEngine::new], which keeps everything in the default column family.  The
    theorem is that through any history of writes and deletions the contents and
    the four indexes agree. *)
From Stdlib Require Import ZArith Lia.
From stdpp Require Import base tactics numbers list gmap strings sorting.
From S2P Require Import Prelude Bytes SortedMap Utf8 Text Engine TimeTravel.
From S2P Require Import Kv Postings NoteIndex NoteGraph NoteParser NoteSearch.
Local Open Scope Z_scope.

(** [serde_json] on the times of a note's versions. *)
Class VersionJson := {
  versions_to_json : list Z -> bytes;
  versions_from_json : bytes -> option (list Z);
  versions_roundtrip l :
    Forall (fun t => 0 <= t <= u128_max) l -> versions_from_json (versions_to_json l) = Some l;
}.

Definition NOTE_PREFIX : bytes := Eval vm_compute in lit "note:".
Definition VERSION_PREFIX : bytes := Eval vm_compute in lit "__version:".
Definition VERSION_CONTENT_PREFIX : bytes := Eval vm_compute in lit "__version_content:".
Definition MAX_VERSIONS : nat := 100.

Section notes.
Context {St : Type} `{!KvStore St} `{!Unicode} `{!JsonStrings} `{!SearchEnv} `{!VersionJson} `{!SnapshotJson}.

(** ** Tags *)

Definition index_tags (note_path : bytes) (tags : list bytes) : KvM St unit :=
  kv_for tags (fun tag => add_to_list TAG_PREFIX tag note_path).

Definition remove_tag (note_path : bytes) (e : bytes * bytes) : KvM St unit :=
  let notes := parse_or_default e.2 in
  if decide (note_path ∈ notes) then store_list e.1 (filter (fun n => n <> note_path) notes) else mret tt.

Definition remove_note_tags (note_path : bytes) : KvM St unit :=
  found ← search TAG_PREFIX None MAX_SCAN_LIMIT;
  kv_for found.1 (remove_tag note_path).

Definition get_notes_by_tag (tag : bytes) : KvM St (list bytes) :=
  v ← get (TAG_PREFIX ++ tag);
  mret (match v with Some bytes => parse_or_default bytes | None => [] end).

Definition list_tags : KvM St (list (bytes * Z)) :=
  found ← search TAG_PREFIX None MAX_SCAN_LIMIT;
  mret (omap (fun e => (fun tag_name => (tag_name, len (parse_or_default e.2))) <$>
                       str_strip_prefix TAG_PREFIX (from_utf8_lossy e.1)) found.1).

Definition search_by_tag (tag : bytes) (cursor : option bytes) (limit : Z)
    : KvM St (list bytes * option bytes) :=
  found ← search (TAG_PREFIX ++ tag) cursor limit;
  let notes_of e := if decide (from_utf8_lossy e.1 = TAG_PREFIX ++ tag) then parse_or_default e.2 else [] in
  mret (concat (notes_of <$> found.1), from_utf8_lossy <$> found.2).

(** ** Notes *)

(** The targets that are indexed. *)
Definition link_targets (parsed : ParsedNote) : list bytes :=
  target <$> filter (fun l => link_type l = WikiLink \/ link_type l = BlockRef) (pn_links parsed).

(** [put_note], with what is made of the result of the search index; the code
    drops it. *)
Definition put_note_with (handle : KvM St unit -> KvM St unit) (path content : bytes) : KvM St unit :=
  let parsed := parse_note content in
  put (NOTE_PREFIX ++ path) content;;
  index_links path (link_targets parsed);;
  index_tags path (pn_inline_tags parsed);;
  handle (index_note path content).
Definition put_note : bytes -> bytes -> KvM St unit := put_note_with kv_ignore.

Definition get_note (path : bytes) : KvM St (option bytes) :=
  v ← get (NOTE_PREFIX ++ path); mret (from_utf8_lossy <$> v).

Definition delete_note_with (handle : KvM St unit -> KvM St unit) (path : bytes) : KvM St unit :=
  remove_note_links path;;
  remove_note_tags path;;
  handle (remove_note path);;
  remove (NOTE_PREFIX ++ path).
Definition delete_note : bytes -> KvM St unit := delete_note_with kv_ignore.

Definition rename (old_path new_path : bytes) : KvM St unit :=
  content ← get_note old_path;
  match content with
  | None => kv_lift (Err InvalidArgument)
  | Some content =>
      rename_note old_path new_path (link_targets (parse_note content));;
      put (NOTE_PREFIX ++ new_path) content;;
      remove (NOTE_PREFIX ++ old_path)
  end.

Definition list_notes (prefix : option bytes) : KvM St (list bytes) :=
  found ← search (NOTE_PREFIX ++ default [] prefix) None MAX_SCAN_LIMIT;
  mret ((fun e => let key := from_utf8_lossy e.1 in default key (str_strip_prefix NOTE_PREFIX key)) <$> found.1).

Definition reindex_note (path : bytes) : KvM St unit :=
  content ← get_note path;
  match content with
  | Some content => index_note path content
  | None => mret tt
  end.

(** ** Versions *)

Definition version_key (path : bytes) : bytes := VERSION_PREFIX ++ path.
Definition version_entry_key (path : bytes) (ts : Z) : bytes :=
  VERSION_CONTENT_PREFIX ++ path ++ colon :: decimal (Z.to_N ts).

Definition parse_versions (v : bytes) : list Z := default [] (versions_from_json v).

(** [while timestamps.len() > 100]: the oldest goes, and its content, whose
    removal is not checked in the code. *)
Fixpoint trim_versions (handle : KvM St unit -> KvM St unit) (path : bytes) (timestamps : list Z) : KvM St (list Z) :=
  match timestamps with
  | removed :: rest =>
      if (MAX_VERSIONS <? length timestamps)%nat then
        handle (remove (version_entry_key path removed));;
        trim_versions handle path rest
      else mret timestamps
  | [] => mret []
  end.

(** At the time [ts]. *)
Definition save_version_with (handle : KvM St unit -> KvM St unit) (ts : Z) (path : bytes) : KvM St unit :=
  content ← get_note path;
  match content with
  | None => mret tt
  | Some content =>
      put (version_entry_key path ts) content;;
      v ← get (version_key path);
      let timestamps := match v with Some bytes => parse_versions bytes | None => [] end in
      timestamps ← trim_versions handle path (timestamps ++ [ts]);
      put (version_key path) (versions_to_json timestamps)
  end.

(** Writing a note with its version, with what is made of dropped results. *)
Definition put_version_with (handle : KvM St unit -> KvM St unit) (ts : Z) (path content : bytes) : KvM St unit :=
  put_note_with handle path content;; save_version_with handle ts path.
Definition put_note_with_version : Z -> bytes -> bytes -> KvM St unit := put_version_with kv_ignore.

Definition get_version_history (path : bytes) : KvM St (list Z) :=
  v ← get (version_key path);
  mret (match v with Some bytes => parse_versions bytes | None => [] end).

Definition get_note_at_version (path : bytes) (timestamp : Z) : KvM St (option bytes) :=
  v ← get (version_entry_key path timestamp); mret (from_utf8_lossy <$> v).

Definition remove_version (path : bytes) (timestamp : Z) : KvM St bool :=
  remove (version_entry_key path timestamp);;
  v ← get (version_key path);
  match v with
  | None => mret false
  | Some bytes =>
      let before := parse_versions bytes in
      match filter (fun t => t <> timestamp) before with
      | [] => remove (version_key path);; mret (bool_decide (before <> []))
      | timestamps => put (version_key path) (versions_to_json timestamps);; mret true
      end
  end.

Definition restore_with (handle : KvM St unit -> KvM St unit) (now now' : Z) (path : bytes) (timestamp : Z)
    : KvM St bool :=
  content ← get_note_at_version path timestamp;
  match content with
  | Some old_content =>
      save_version_with handle now path;;
      put_note_with handle path old_content;;
      save_version_with handle now' path;;
      mret true
  | None => mret false
  end.
Definition restore_version : Z -> Z -> bytes -> Z -> KvM St bool := restore_with kv_ignore.

(** ** Snapshots *)

Definition get_notes_at_timestamp (time_travel : TimeTravelEngine) (timestamp : Z) : KvM St (list (bytes * bytes)) :=
  current_notes ← list_notes None;
  mret (omap (fun path => (fun content => (path, from_utf8_lossy content)) <$>
                          query_as_of (NOTE_PREFIX ++ path) timestamp time_travel) current_notes).

Fixpoint collect_notes (paths : list bytes) (data : gmap bytes bytes) : KvM St (gmap bytes bytes) :=
  match paths with
  | path :: paths =>
      content ← kv_unwrap_or None (get_note path);
      collect_notes paths (match content with Some c => <[NOTE_PREFIX ++ path := c]> data | None => data end)
  | [] => mret data
  end.

Definition create_snapshot (now : Z) (label : bytes) (time_travel : TimeTravelEngine * Directory)
    : KvM St (Z * (TimeTravelEngine * Directory)) :=
  notes ← kv_unwrap_or [] (list_notes None);
  data ← collect_notes notes ∅;
  mret (now, capture now data label time_travel.1 time_travel.2).

(** ** What the store holds *)

Context `{!KvLaws St} (terms notes tags : gset bytes).
Implicit Types (m : gmap bytes bytes) (p t x c : bytes).

Definition a_note x : Prop := x ∈ notes.
Definition a_tag t : Prop := t ∈ tags.

(** The paths, tags and terms in play fit in the entries of the store and within
    the limits of its scans. *)
Record notes_fit : Prop := {
  nf_links t l : a_note t -> NoDup l -> Forall a_note l ->
    kv_writable (LINK_PREFIX ++ t) (to_json l) /\ kv_removable (LINK_PREFIX ++ t);
  nf_tags t l : a_tag t -> NoDup l -> Forall a_note l ->
    kv_writable (TAG_PREFIX ++ t) (to_json l) /\ kv_removable (TAG_PREFIX ++ t);
  nf_search : search_fits terms notes;
  nf_scan : Z.of_nat (size tags) <= MAX_SCAN_LIMIT /\ Z.of_nat (size notes) <= MAX_SCAN_LIMIT;
}.
Context (fit : notes_fit).

Lemma a_note_text x : a_note x -> is_Some (from_utf8 x).
Proof. apply (sf_notes _ _ (nf_search fit)). Qed.

(** The tag index stands for the tags [tg] of the notes. *)
Record tags_ok m (tg : gmap bytes (gset bytes)) : Prop := {
  to_lists t : list_ok TAG_PREFIX a_note m t;
  to_tags t x : x ∈ listed TAG_PREFIX m t <-> exists T, tg !! x = Some T /\ t ∈ T;
  to_known x T t : tg !! x = Some T -> t ∈ T -> a_tag t;
}.

Definition tags_only m m' : Prop := forall k, starts_with k TAG_PREFIX = false -> m' !! k = m !! k.

(** The entries of the tag index are those of tags in use. *)
Lemma tags_keys m tg t : tags_ok m tg -> is_Some (m !! (TAG_PREFIX ++ t)) -> a_tag t.
Proof.
  intros Ht Hk. destruct (to_lists _ _ Ht t) as [E|(l & E & Hne & _ & Hl)]; [rewrite E in Hk; by destruct Hk|].
  destruct l as [|x l]; [done|].
  assert (x ∈ listed TAG_PREFIX m t) as Hx.
  { unfold listed. rewrite E. cbn. rewrite (parse_json a_note a_note_text) by done. by left. }
  apply (to_tags _ _ Ht) in Hx as (T & HT & HtT). by eapply to_known.
Qed.

Lemma index_tags_ok m tg p l :
  tags_ok m tg -> a_note p -> Forall a_tag l ->
  triple m (index_tags p l) (fun _ m' =>
    tags_ok m' (<[p := default ∅ (tg !! p) ∪ list_to_set l]> tg) /\ tags_only m m').
Proof.
  intros Ht Hp Hl. eapply triple_weaken.
  { apply (add_lists_ok TAG_PREFIX a_tag a_note a_note_text (nf_tags fit)); [apply Ht|done|done]. }
  intros [] m' (Hok & Hout & Hs). split; [|done]. constructor; [done| |].
  - intros t x. rewrite Hs, (to_tags _ _ Ht). destruct (decide (x = p)) as [->|Hne].
    + rewrite lookup_insert_eq. split.
      * intros [(T & -> & Hin)|[_ Hin]]; (eexists; split; [done|]); apply elem_of_union; [by left|right].
        by apply elem_of_list_to_set.
      * intros (T & [= <-] & [Hin|Hin%elem_of_list_to_set]%elem_of_union); [left|by right].
        destruct (tg !! p) as [T|]; [by exists T|by apply elem_of_empty in Hin].
    + rewrite lookup_insert_ne by done. split; [by intros [?|[? _]]|by left].
  - intros x T t HT HtT. apply lookup_insert_Some in HT as [[<- <-]|[_ HT]]; [|by eapply to_known].
    apply elem_of_union in HtT as [HtT|HtT]; [|apply elem_of_list_to_set in HtT; rewrite Forall_forall in Hl; by apply Hl].
    destruct (tg !! p) as [T|] eqn:E; [by eapply to_known|by apply elem_of_empty in HtT].
Qed.

(** Taking a note out of the lists a scan has found. *)
Lemma remove_tags_ok p l m :
  NoDup l.*1 -> (forall t, list_ok TAG_PREFIX a_note m t) ->
  (forall k v, (k, v) ∈ l -> m !! k = Some v /\ exists t, k = TAG_PREFIX ++ t /\ a_tag t) ->
  triple m (kv_for l (remove_tag p)) (fun _ m' =>
    (forall t, list_ok TAG_PREFIX a_note m' t) /\ tags_only m m' /\
    (forall t x, x ∈ listed TAG_PREFIX m' t <-> x ∈ listed TAG_PREFIX m t /\ ~ (x = p /\ TAG_PREFIX ++ t ∈ l.*1))).
Proof.
  revert m; induction l as [|[k v] l IH]; intros m Hnd Hok Hl; cbn [kv_for].
  { apply triple_ret. split_and!; [done|done|]. intros t x. split; [|by intros [? _]].
    intros Hx. split; [done|]. intros [_ Hin]. by apply elem_of_nil in Hin. }
  rewrite fmap_cons in Hnd. apply NoDup_cons in Hnd as [Hk Hnd]. cbn [fst] in Hk.
  destruct (Hl k v) as (Hv & t & -> & Ht); [by left|].
  eapply (triple_bind _ _ _ (fun _ m' => edit TAG_PREFIX a_note m t m' (fun x => x ∈ listed TAG_PREFIX m t /\ x <> p))).
  { unfold remove_tag. cbn [fst snd].
    assert (parse_or_default v = listed TAG_PREFIX m t) as -> by (unfold listed; by rewrite Hv).
    case_decide as Hp.
    - by apply (store_without_ok TAG_PREFIX a_tag a_note a_note_text (nf_tags fit)).
    - apply triple_ret. constructor; [done|done|]. intros x. split; [|by intros [? _]].
      intros Hx. split; [done|]. by intros ->. }
  intros [] m1 He. eapply triple_weaken; [apply IH; [done|apply He|]|].
  { intros k' v' Hin. destruct (Hl k' v') as [Hv' Ht']; [by right|]. split; [|done].
    rewrite (ed_other _ _ _ _ _ _ He); [done|]. intros ->. apply Hk. rewrite list_elem_of_fmap. by eexists (_, _). }
  intros [] m' (Hok' & Hout & Hs). split_and!; [done| |].
  - intros k' Hk'. rewrite Hout by done. apply (ed_other _ _ _ _ _ _ He). intros ->. by rewrite starts_with_app_l in Hk'.
  - intros t' x. rewrite Hs, fmap_cons. cbn [fst]. destruct (decide (t' = t)) as [->|Hne].
    + rewrite (ed_listed _ _ _ _ _ _ He), elem_of_cons. tauto.
    + rewrite (edit_other _ _ _ _ _ _ _ He Hne). rewrite elem_of_cons.
      assert (TAG_PREFIX ++ t' <> TAG_PREFIX ++ t) by (by intros ?%app_inv_head). tauto.
Qed.

Lemma remove_note_tags_ok m tg p :
  tags_ok m tg -> triple m (remove_note_tags p) (fun _ m' => tags_ok m' (delete p tg) /\ tags_only m m').
Proof.
  intros Ht. unfold remove_note_tags.
  assert (forall k, is_Some (m !! k) -> starts_with k TAG_PREFIX = true ->
            exists t, k = TAG_PREFIX ++ t /\ a_tag t) as Hkeys.
  { intros k Hk (t & ->)%starts_with_spec. exists t. split; [done|]. by eapply tags_keys. }
  apply (triple_search_bind _ _ _ (set_map (app TAG_PREFIX) tags)).
  { by eexists. }
  { intros k Hk Hs. destruct (Hkeys k Hk Hs) as (t & -> & ?). by apply elem_of_map_2. }
  { destruct (nf_scan fit) as [Hn _]. pose proof (size_set_map_le (app TAG_PREFIX) tags). unfold MAX_SCAN_LIMIT, usize_max, u64_max in *. lia. }
  intros cursor. cbn [fst]. set (found := filter _ _).
  assert (forall k v, (k, v) ∈ found <-> starts_with k TAG_PREFIX = true /\ m !! k = Some v) as Hfound.
  { intros k v. unfold found. rewrite list_elem_of_filter. by rewrite elem_of_sorted_entries. }
  eapply triple_weaken; [apply remove_tags_ok|].
  - eapply sublist_NoDup; [|apply (fmap_sublist fst), sublist_filter].
    rewrite sorted_entries_Permutation. apply NoDup_fst_map_to_list.
  - apply Ht.
  - intros k v [Hs Hv]%Hfound. split; [done|]. by apply Hkeys.
  - intros [] m' (Hok & Hout & Hs). split; [|done].
    assert (forall t, p ∈ listed TAG_PREFIX m t -> TAG_PREFIX ++ t ∈ found.*1) as Hin.
    { intros t Hp. unfold listed in Hp. destruct (m !! (TAG_PREFIX ++ t)) as [v|] eqn:E; [|by apply elem_of_nil in Hp].
      apply list_elem_of_fmap. exists (TAG_PREFIX ++ t, v). split; [done|]. apply Hfound.
      split; [apply starts_with_app_l|done]. }
    constructor; [done| |].
    + intros t x. rewrite Hs. destruct (decide (x = p)) as [->|Hne].
      * rewrite lookup_delete_eq. split; [|naive_solver]. intros [Hx Hno]. destruct Hno. auto.
      * rewrite lookup_delete_ne by done. rewrite (to_tags _ _ Ht). naive_solver.
    + intros x T t [_ HT]%lookup_delete_Some. by eapply to_known.
Qed.

(** *** Entries of other kinds *)

Definition distinct_heads (P Q : bytes) : Prop :=
  match P, Q with a :: _, b :: _ => a <> b | _, _ => False end.

Lemma distinct_prefix P Q k : distinct_heads P Q -> starts_with k P = true -> starts_with k Q = false.
Proof.
  destruct P as [|a P], Q as [|b Q]; try done. intros Hne (r & ->)%starts_with_spec. cbn.
  by rewrite bool_decide_eq_false_2.
Qed.

Definition agree (P : bytes) m m' : Prop := forall k, starts_with k P = true -> m' !! k = m !! k.

Lemma tags_only_agree P m m' : distinct_heads P TAG_PREFIX -> tags_only m m' -> agree P m m'.
Proof. intros Hd Ho k Hk. by eapply Ho, distinct_prefix. Qed.
Lemma fts_only_agree P m m' : distinct_heads P FTS_PREFIX -> fts_only m m' -> agree P m m'.
Proof. intros Hd Ho k Hk. by eapply Ho, distinct_prefix. Qed.

Lemma links_agree P m m' :
  distinct_heads P LINK_PREFIX -> distinct_heads P BACKLINK_PREFIX -> same_outside m m' -> agree P m m'.
Proof. intros G1 G2 Ho k Hk. apply Ho; by eapply distinct_prefix. Qed.

Lemma insert_agree P Q m p v : distinct_heads P Q -> agree P m (<[Q ++ p := v]> m).
Proof.
  intros Hd k Hk. apply lookup_insert_ne. intros <-. apply (distinct_prefix _ Q) in Hk; [|done].
  by rewrite starts_with_app_l in Hk.
Qed.
Lemma delete_agree P Q m p : distinct_heads P Q -> agree P m (delete (Q ++ p) m).
Proof.
  intros Hd k Hk. apply lookup_delete_ne. intros <-. apply (distinct_prefix _ Q) in Hk; [|done].
  by rewrite starts_with_app_l in Hk.
Qed.

Lemma agree_trans P m m' m'' : agree P m m' -> agree P m' m'' -> agree P m m''.
Proof. intros G1 G2 k Hk. by rewrite G2, G1. Qed.

Lemma agree_key P m m' p : agree P m m' -> m' !! (P ++ p) = m !! (P ++ p).
Proof. intros Ha. apply Ha, starts_with_app_l. Qed.

Lemma indexed_agree m m' g :
  agree LINK_PREFIX m m' -> agree BACKLINK_PREFIX m m' -> indexed a_note m g -> indexed a_note m' g.
Proof.
  intros Hl Hb [G1 G2 G3 G4]. constructor; [| | |done].
  - intros p. by rewrite (agree_key _ _ _ _ Hb).
  - intros t. eapply list_ok_frame; [by apply agree_key|done].
  - intros t x. unfold listed. rewrite (agree_key _ _ _ _ Hl). apply G3.
Qed.

Lemma tags_agree m m' tg : agree TAG_PREFIX m m' -> tags_ok m tg -> tags_ok m' tg.
Proof.
  intros Ha [G1 G2 G3]. constructor; [| |done].
  - intros t. eapply list_ok_frame; [by apply agree_key|done].
  - intros t x. unfold listed. rewrite (agree_key _ _ _ _ Ha). apply G2.
Qed.

Lemma fts_agree m m' cs ever :
  agree FTS_PREFIX m m' -> fts_ok terms notes m cs ever -> fts_ok terms notes m' cs ever.
Proof.
  intros Ha [G1 G2 G3 G4 G5 G6 G7]. constructor; [| | | |done..].
  - intros p. unfold fts_meta_key. rewrite (agree_key _ _ _ _ Ha). apply G1.
  - intros t Ht. unfold entry_wf. rewrite (agree_key _ _ _ _ Ha). by apply G2.
  - intros t. rewrite (agree_key _ _ _ _ Ha). apply G3.
  - intros t e Ht. unfold entries_at. rewrite (agree_key _ _ _ _ Ha). by apply G4.
Qed.

(** *** The notes *)

Definition targets_of c : list bytes := link_targets (parse_note c).
Definition tags_of c : list bytes := pn_inline_tags (parse_note c).

(** The contents of the notes, the tags and the terms each was written with since
    it was last deleted. *)
Record Notes := mkNotes {
  contents : gmap bytes bytes;
  tagged_with : gmap bytes (gset bytes);
  indexed_with : gmap bytes (gmap bytes Z);
}.
Definition no_notes : Notes := mkNotes ∅ ∅ ∅.

Record notes_ok m (n : Notes) : Prop := {
  no_content p : m !! (NOTE_PREFIX ++ p) = contents n !! p;
  no_links : indexed a_note m (targets_of <$> contents n);
  no_tags : tags_ok m (tagged_with n);
  no_fts : fts_ok terms notes m (contents n) (indexed_with n);
  no_text p c : contents n !! p = Some c -> is_Some (from_utf8 c);
}.

Definition spec_put p c (n : Notes) : Notes :=
  {| contents := <[p := c]> (contents n);
     tagged_with := <[p := default ∅ (tagged_with n !! p) ∪ list_to_set (tags_of c)]> (tagged_with n);
     indexed_with := index_spec (indexed_with n) p c |}.
Definition spec_delete p (n : Notes) : Notes :=
  {| contents := delete p (contents n); tagged_with := delete p (tagged_with n);
     indexed_with := delete p (indexed_with n) |}.

(** What fits of a note and its content. *)
Record put_fits p c : Prop := {
  pf_note : a_note p;
  pf_text : is_Some (from_utf8 c);
  pf_content : kv_writable (NOTE_PREFIX ++ p) c;
  pf_targets : Forall a_note (targets_of c);
  pf_links : kv_writable (BACKLINK_PREFIX ++ p) (to_json (targets_of c));
  pf_tags : Forall a_tag (tags_of c);
  pf_terms t : t ∈ tokenize c -> t ∈ terms;
  pf_words : len (tokenize c) <= u64_max;
}.
Record delete_fits p : Prop := {
  df_note : a_note p;
  df_content : kv_removable (NOTE_PREFIX ++ p);
  df_links : kv_removable (BACKLINK_PREFIX ++ p);
}.

(** The writing and deleting of notes touches only entries of its five kinds. *)
Definition note_prefixes : list bytes := [NOTE_PREFIX; LINK_PREFIX; BACKLINK_PREFIX; TAG_PREFIX; FTS_PREFIX].
Definition touches_notes m m' : Prop := forall P, Forall (distinct_heads P) note_prefixes -> agree P m m'.

Lemma put_note_ok m n p c :
  notes_ok m n -> put_fits p c ->
  (forall c', contents n !! p = Some c' -> checksum c' = checksum c -> c' = c) ->
  triple m (put_note_with id p c) (fun _ m' => notes_ok m' (spec_put p c n) /\ touches_notes m m').
Proof.
  intros [Hc Hl Ht Hf Htext] Hp Hcol. unfold put_note_with. cbv zeta.
  fold (targets_of c). fold (tags_of c).
  eapply (triple_bind _ _ _ (fun _ m' => m' = _)); [by apply triple_put; [apply Hp|]|]. intros [] m1 ->.
  eapply triple_bind.
  { apply (index_links_ok a_note a_note_text (nf_links fit)); [|apply Hp..].
    eapply indexed_agree; [by apply insert_agree..|exact Hl]. }
  intros d m2 (_ & Hl2 & Hout2). eapply triple_bind.
  { apply index_tags_ok; [|apply Hp..].
    eapply tags_agree; [|exact Ht]. eapply agree_trans; [|by apply links_agree]. by apply insert_agree. }
  intros [] m3 (Ht3 & Hout3). eapply triple_weaken.
  { apply (index_note_ok terms notes (nf_search fit)); [|apply Hp..|exact Hcol].
    eapply fts_agree; [|exact Hf]. eapply agree_trans; [|by apply tags_only_agree].
    eapply agree_trans; [|by apply links_agree]. by apply insert_agree. }
  intros [] m4 (Hf4 & Hout4). split.
  2:{ intros P HP. repeat (apply Forall_cons in HP as [? HP]). eapply agree_trans; [by apply (insert_agree P NOTE_PREFIX)|].
      eapply agree_trans; [by apply links_agree|]. eapply agree_trans; [by apply tags_only_agree|by apply fts_only_agree]. }
  constructor; cbn [spec_put contents tagged_with indexed_with].
  - intros q. assert (agree NOTE_PREFIX (<[NOTE_PREFIX ++ p := c]> m) m4) as Ha.
    { eapply agree_trans; [by apply links_agree|]. eapply agree_trans; [by apply tags_only_agree|by apply fts_only_agree]. }
    rewrite (agree_key _ _ _ _ Ha). destruct (decide (q = p)) as [->|Hne]; [by rewrite !lookup_insert_eq|].
    rewrite !lookup_insert_ne by (try done; by intros ?%app_inv_head). apply Hc.
  - rewrite fmap_insert. eapply indexed_agree; [| |exact Hl2]; (eapply agree_trans; [by apply tags_only_agree|by apply fts_only_agree]).
  - eapply tags_agree; [by apply fts_only_agree|exact Ht3].
  - exact Hf4.
  - intros q c' [[<- <-]|[_ Hq]]%lookup_insert_Some; [apply Hp|by eapply Htext].
Qed.

Lemma delete_note_ok m n p :
  notes_ok m n -> delete_fits p -> triple m (delete_note_with id p)
    (fun _ m' => notes_ok m' (spec_delete p n) /\ touches_notes m m').
Proof.
  intros [Hc Hl Ht Hf Htext] Hp. unfold delete_note_with. eapply triple_bind.
  { apply (remove_note_links_ok a_note a_note_text (nf_links fit)); [exact Hl|apply Hp]. }
  intros [] m1 (Hl1 & Hout1). eapply triple_bind.
  { apply remove_note_tags_ok. eapply tags_agree; [by apply links_agree|exact Ht]. }
  intros [] m2 (Ht2 & Hout2). eapply triple_bind.
  { apply (remove_note_ok terms notes (nf_search fit)); [|apply Hp].
    eapply fts_agree; [|exact Hf]. eapply agree_trans; [by apply links_agree|by apply tags_only_agree]. }
  intros [] m3 (Hf3 & Hout3). apply triple_remove; [apply Hp|]. split.
  2:{ intros P HP. repeat (apply Forall_cons in HP as [? HP]). eapply agree_trans; [by apply links_agree|].
      eapply agree_trans; [by apply tags_only_agree|]. eapply agree_trans; [by apply fts_only_agree|by apply delete_agree]. }
  constructor; cbn [spec_delete contents tagged_with indexed_with].
  - intros q. destruct (decide (q = p)) as [->|Hne]; [by rewrite !lookup_delete_eq|].
    rewrite !lookup_delete_ne by (try done; by intros ?%app_inv_head).
    assert (agree NOTE_PREFIX m m3) as Ha.
    { eapply agree_trans; [by apply links_agree|]. eapply agree_trans; [by apply tags_only_agree|by apply fts_only_agree]. }
    rewrite (agree_key _ _ _ _ Ha). apply Hc.
  - rewrite fmap_delete. eapply indexed_agree; [| |exact Hl1];
      (eapply agree_trans; [by apply tags_only_agree|]; eapply agree_trans; [by apply fts_only_agree|by apply delete_agree]).
  - eapply tags_agree; [eapply agree_trans; [by apply fts_only_agree|by apply delete_agree]|exact Ht2].
  - eapply fts_agree; [by apply delete_agree|exact Hf3].
  - intros q c' [_ Hq]%lookup_delete_Some. by eapply Htext.
Qed.

(** *** Reads *)

Lemma get_note_reads m n p : notes_ok m n -> reads m (get_note p) (contents n !! p).
Proof.
  intros Hn. eapply reads_bind; [apply reads_get|]. rewrite (no_content _ _ Hn).
  destruct (contents n !! p) as [c|] eqn:E; cbn; [|apply reads_ret].
  rewrite text_lossy by (by eapply no_text). apply reads_ret.
Qed.

Lemma list_notes_reads m n :
  notes_ok m n -> exists l, reads m (list_notes None) l /\ NoDup l /\ forall p, p ∈ l <-> is_Some (contents n !! p).
Proof.
  intros Hn. set (found := filter (fun e => starts_with e.1 NOTE_PREFIX = true) (sorted_entries m)).
  set (strip := fun e : bytes * bytes => let key := from_utf8_lossy e.1 in default key (str_strip_prefix NOTE_PREFIX key)).
  assert (forall k v, (k, v) ∈ found <-> starts_with k NOTE_PREFIX = true /\ m !! k = Some v) as Hfound.
  { intros k v. unfold found. rewrite list_elem_of_filter. by rewrite elem_of_sorted_entries. }
  assert (forall k, is_Some (m !! k) -> starts_with k NOTE_PREFIX = true -> exists p, k = NOTE_PREFIX ++ p /\ a_note p) as Hkeys.
  { intros k [v Hk] (p & ->)%starts_with_spec. exists p. split; [done|].
    rewrite (no_content _ _ Hn) in Hk. by destruct (fo_notes _ _ _ _ _ (no_fts _ _ Hn) p v Hk). }
  assert (forall e, e ∈ found -> NOTE_PREFIX ++ strip e = e.1) as Hstrip.
  { intros [k v] [Hs Hv]%Hfound. destruct (Hkeys k (ex_intro _ v Hv) Hs) as (p & -> & Hp). unfold strip.
    cbn [fst]. rewrite text_lossy by (apply ascii_app_text; [repeat constructor; by vm_compute|by apply a_note_text]).
    unfold str_strip_prefix. rewrite starts_with_app_l, drop_app_length. done. }
  assert (app NOTE_PREFIX <$> (strip <$> found) = found.*1) as Hmap.
  { rewrite <- list_fmap_compose. apply list_fmap_ext. intros i e He. by eapply Hstrip, list_elem_of_lookup_2. }
  exists (strip <$> found). split_and!.
  - unfold list_notes. cbn [default]. rewrite app_nil_r.
    apply (reads_search_bind _ _ _ (set_map (app NOTE_PREFIX) notes)).
    + by eexists.
    + intros k Hk Hs. destruct (Hkeys k Hk Hs) as (p & -> & ?). by apply elem_of_map_2.
    + destruct (nf_scan fit) as [_ Hsz]. pose proof (size_set_map_le (app NOTE_PREFIX) notes).
      unfold MAX_SCAN_LIMIT, usize_max, u64_max in *. lia.
    + intros cursor. apply reads_ret.
  - apply (NoDup_fmap_1 (app NOTE_PREFIX)). rewrite Hmap. unfold found.
    eapply sublist_NoDup; [|apply (fmap_sublist fst), sublist_filter].
    rewrite sorted_entries_Permutation. apply NoDup_fst_map_to_list.
  - intros p. rewrite <- (no_content _ _ Hn). transitivity (NOTE_PREFIX ++ p ∈ found.*1).
    + rewrite <- Hmap. rewrite (list_elem_of_fmap (app NOTE_PREFIX)). split; [eauto|].
      intros (q & <-%app_inv_head & Hq). done.
    + rewrite list_elem_of_fmap. split.
      * intros ([k v] & -> & [_ Hv]%Hfound). by eexists.
      * intros [v Hv]. exists (NOTE_PREFIX ++ p, v). split; [done|]. apply Hfound.
        split; [apply starts_with_app_l|done].
Qed.

Lemma notes_by_tag_reads m n t :
  notes_ok m n -> reads m (get_notes_by_tag t) (listed TAG_PREFIX m t).
Proof. intros Hn. eapply reads_bind; [apply reads_get|]. apply reads_ret. Qed.

(** *** Histories *)

Inductive note_op : Type :=
| PutNote (path content : bytes)
| DeleteNote (path : bytes).

Definition run_note_op (handle : KvM St unit -> KvM St unit) (o : note_op) : KvM St unit :=
  match o with
  | PutNote p c => put_note_with handle p c
  | DeleteNote p => delete_note_with handle p
  end.
Definition spec_note_op (n : Notes) (o : note_op) : Notes :=
  match o with PutNote p c => spec_put p c n | DeleteNote p => spec_delete p n end.
Definition note_op_fits (texts : list bytes) (o : note_op) : Prop :=
  match o with PutNote p c => put_fits p c /\ c ∈ texts | DeleteNote p => delete_fits p end.

Lemma run_note_ops_ok texts os m n :
  (forall c c', c ∈ texts -> c' ∈ texts -> checksum c = checksum c' -> c = c') ->
  notes_ok m n -> map_Forall (fun _ c => c ∈ texts) (contents n) -> Forall (note_op_fits texts) os ->
  triple m (kv_for os (run_note_op id)) (fun _ m' => notes_ok m' (foldl spec_note_op n os)).
Proof.
  intros Hcol Hn Htexts Hok. revert m n Hn Htexts.
  induction Hok as [|o os Ho Hok IH]; intros m n Hn Htexts; cbn [kv_for foldl]; [by apply triple_ret|].
  eapply (triple_bind _ _ _ (fun _ m' => notes_ok m' (spec_note_op n o) /\ touches_notes m m')).
  { destruct o as [p c|p]; cbn [run_note_op spec_note_op note_op_fits] in *; [|by apply delete_note_ok].
    destruct Ho as [Hfit Hc]. apply put_note_ok; [done|done|]. intros c' Hc' E. apply Hcol; [by eapply Htexts|done|done]. }
  intros [] m1 [Hn1 _]. apply IH; [done|]. destruct o as [p c|p]; cbn; [|by apply map_Forall_delete].
  apply map_Forall_insert_2; [apply Ho|done].
Qed.

(** A run without failures is the same when failures of the search index are
    dropped. *)
Lemma bind_ok {A B : Type} (a : KvM St A) (f g : A -> KvM St B) s b s' :
  (a ≫= f) s = (Ok b, s') -> (forall (y : A) (s1 : St), f y s1 = (Ok b, s') -> g y s1 = (Ok b, s')) -> (a ≫= g) s = (Ok b, s').
Proof. cbv [mbind KvM_bind]. destruct (a s) as [[x|e|] s1]; [|done|done]. eauto. Qed.

Lemma kv_ignore_ok (a : KvM St unit) s s' : a s = (Ok tt, s') -> kv_ignore a s = (Ok tt, s').
Proof. unfold kv_ignore. by intros ->. Qed.

Lemma run_note_op_ignore o s s' :
  run_note_op id o s = (Ok tt, s') -> run_note_op kv_ignore o s = (Ok tt, s').
Proof.
  destruct o as [p c|p]; cbn [run_note_op]; unfold put_note_with, delete_note_with; intros E.
  - repeat (eapply bind_ok; [exact E|clear E; intros ? ? E]). by apply kv_ignore_ok.
  - do 2 (eapply bind_ok; [exact E|clear E; intros ? ? E]). cbv [mbind KvM_bind id] in E |- *.
    unfold kv_ignore. by destruct (remove_note p _) as [[?|?|] ?].
Qed.

Lemma run_note_ops_ignore os s s' :
  kv_for os (run_note_op id) s = (Ok tt, s') -> kv_for os (run_note_op kv_ignore) s = (Ok tt, s').
Proof.
  revert s; induction os as [|o os IH]; intros s; [done|]. cbn [kv_for]. cbv [mbind KvM_bind].
  destruct (run_note_op id o s) as [[[]|e|] s1] eqn:E; [|done|done].
  rewrite (run_note_op_ignore _ _ _ E). apply IH.
Qed.

(** A store without entries of the notes. *)
Definition fresh m : Prop :=
  forall k, is_Some (m !! k) -> Forall (fun P => starts_with k P = false) note_prefixes.

Lemma fresh_ok m : fresh m -> notes_ok m no_notes.
Proof.
  intros Hm. assert (forall k, is_Some (m !! k) -> starts_with k NOTE_PREFIX = false /\ starts_with k LINK_PREFIX = false /\
    starts_with k BACKLINK_PREFIX = false /\ starts_with k TAG_PREFIX = false /\ starts_with k FTS_PREFIX = false) as Hf.
  { intros k Hk%Hm. by repeat (apply Forall_cons in Hk as [? Hk]). }
  assert (forall P p, (forall k, is_Some (m !! k) -> starts_with k P = false) -> m !! (P ++ p) = None) as Hn.
  { intros P p HP. apply eq_None_not_Some. intros Hk%HP. by rewrite starts_with_app_l in Hk. }
  constructor; cbn [contents tagged_with indexed_with no_notes].
  - intros p. rewrite lookup_empty. apply Hn. intros k Hk. by apply Hf.
  - rewrite fmap_empty. apply indexed_empty. intros k (_ & ? & ? & _)%Hf. done.
  - assert (forall t, m !! (TAG_PREFIX ++ t) = None) as Ht by (intros t; apply Hn; intros k Hk; by apply Hf).
    constructor.
    + intros t. by left.
    + intros t x. unfold listed. rewrite Ht. split; [by intros ?%elem_of_nil|]. intros (T & HT & _).
      by rewrite lookup_empty in HT.
    + intros x T t HT. by rewrite lookup_empty in HT.
  - apply (fts_ok_empty terms notes). intros k Hk. by apply Hf.
  - intros p c Hp. by rewrite lookup_empty in Hp.
Qed.


End notes.
