(* ===== verification/NoteRules.v ===== *)
(** * NoteRules: templates and frontmatter schemas
    ([src/src/notes/template.rs], [src/src/notes/validate.rs])

    Rendering a template substitutes variables and formatted dates; validation
    lists what a note's frontmatter lacks of a schema.  Both are compared with
    reference definitions: the rendering of the pieces a template is made of, and
    the conditions a schema states.  Dates are formatted by [chrono], a parameter;
    clock readings are arguments. *)
From Stdlib Require Import ZArith Lia.
From stdpp Require Import base tactics numbers list gmap strings sorting.
From S2P Require Import Prelude Bytes SortedMap Utf8 Text Engine Kv Postings.
From S2P Require Import NoteIndex NoteGraph NoteParser NoteSearch NoteEngine.
Local Open Scope Z_scope.

(** ** Templates *)

(** [now.format(fmt).to_string()] at a clock reading; a format [chrono] does not
    know panics. *)
Class Chrono := { format_time : Z -> bytes -> option bytes }.

Definition LEFT : bytes := Eval vm_compute in lit "{{".
Definition RIGHT : bytes := Eval vm_compute in lit "}}".
Definition DATE : bytes := Eval vm_compute in lit "date:".
Definition TIME : bytes := Eval vm_compute in lit "time:".

Section template.
Context `{!Chrono}.
(** The [i]th reading of the clock, and the variables. *)
Context (readings : nat -> Z) (variables : gmap bytes bytes).

(** The value of a placeholder, and the readings it takes. *)
Definition placeholder_value (i : nat) (placeholder : bytes) : outcome bytes * nat :=
  match str_strip_prefix DATE placeholder, str_strip_prefix TIME placeholder with
  | Some fmt, _ | None, Some fmt => (expect (format_time (readings i) fmt), S i)
  | None, None => (ok_or (variables !! str_trim placeholder) InvalidArgument, i)
  end.

Fixpoint render_loop (fuel i : nat) (rest : bytes) : outcome bytes :=
  match fuel with
  | O => Ok rest
  | S fuel =>
      match find LEFT rest with
      | None => Ok rest
      | Some start =>
          let after_start := drop (start + 2) rest in
          let* e := ok_or (find RIGHT after_start) InvalidArgument in
          let '(value, i) := placeholder_value i (take e after_start) in
          let* value := value in
          let* rendered := render_loop fuel i (drop (e + 2) after_start) in
          Ok (take start rest ++ value ++ rendered)
      end
  end.
Definition render_template (template : bytes) : outcome bytes := render_loop (length template) 0 template.

(** *** A template made of pieces *)

(** Texts and placeholders in turn, and a last text. *)
Fixpoint print_template (pieces : list (bytes * bytes)) (last : bytes) : bytes :=
  match pieces with
  | (text, placeholder) :: pieces => text ++ LEFT ++ placeholder ++ RIGHT ++ print_template pieces last
  | [] => last
  end.
Fixpoint render_pieces (i : nat) (pieces : list (bytes * bytes)) (last : bytes) : outcome bytes :=
  match pieces with
  | (text, placeholder) :: pieces =>
      let '(value, i) := placeholder_value i placeholder in
      let* value := value in
      let* rendered := render_pieces i pieces last in
      Ok (text ++ value ++ rendered)
  | [] => Ok last
  end.

(** The brackets after [s] are the first. *)
Definition ends_at (brackets s : bytes) : Prop := find brackets (s ++ brackets) = Some (length s).

Lemma starts_with_long a r p : (length p <= length a)%nat -> starts_with (a ++ r) p = starts_with a p.
Proof.
  revert a; induction p as [|x p IH]; intros a Hl; [by destruct a, r|].
  destruct a as [|y a]; cbn [length] in Hl; [lia|]. cbn. by rewrite IH by lia.
Qed.

Lemma find_ends_at brackets s r : ends_at brackets s -> find brackets (s ++ brackets ++ r) = Some (length s).
Proof.
  unfold ends_at. induction s as [|x s IH]; intros Hs.
  - cbn [app length] in *. assert (starts_with (brackets ++ r) brackets = true) as E
      by (apply starts_with_spec; eauto). destruct (brackets ++ r) eqn:Er; cbn [find]; by rewrite E.
  - change ((x :: s) ++ brackets ++ r) with (x :: (s ++ brackets ++ r)).
    change ((x :: s) ++ brackets) with (x :: (s ++ brackets)) in Hs. cbn [find] in Hs |- *.
    assert (starts_with (x :: s ++ brackets ++ r) brackets = starts_with (x :: s ++ brackets) brackets) as ->.
    { rewrite (app_assoc s), <- (starts_with_long (x :: s ++ brackets) r); [done|].
      cbn. rewrite length_app. lia. }
    destruct (starts_with (x :: s ++ brackets) brackets); [done|].
    apply fmap_Some in Hs as (k & Hk & E). injection E as E. by rewrite IH by (by rewrite E).
Qed.

(** Rendering a template is rendering its pieces.  A template whose texts and
    placeholders are delimited by the brackets they are printed with renders as the
    texts with the values of the placeholders between them, the first missing
    variable or unknown format deciding the failure. *)
Theorem template_render_exact pieces last :
  Forall (fun p => ends_at LEFT p.1 /\ ends_at RIGHT p.2) pieces -> find LEFT last = None ->
  render_template (print_template pieces last) = render_pieces 0 pieces last.
Proof.
  intros Hp Hlast. unfold render_template.
  assert (forall fuel i, (length (print_template pieces last) <= fuel)%nat ->
    render_loop fuel i (print_template pieces last) = render_pieces i pieces last) as Hgen; [|by apply Hgen].
  induction Hp as [|[text ph] pieces [Ht Hph] Hp IH]; intros fuel i Hf; cbn [print_template render_pieces] in *.
  - destruct fuel; cbn [render_loop]; [done|]. by rewrite Hlast.
  - cbn [fst snd] in Ht, Hph. rewrite !length_app in Hf. change (length LEFT) with 2%nat in Hf.
    destruct fuel as [|fuel]; [lia|]. cbn [render_loop]. rewrite find_ends_at by done.
    rewrite app_assoc, drop_app_length' by (rewrite length_app; cbn; lia).
    rewrite find_ends_at by done. cbn [ok_or obind].
    rewrite take_app_length. destruct (placeholder_value i ph) as [[value|e|] i']; cbn [obind]; [|done..].
    rewrite app_assoc, drop_app_length' by (rewrite length_app; cbn; lia).
    rewrite IH by (change (length RIGHT) with 2%nat in Hf; lia).
    rewrite <- app_assoc, take_app_length. done.
Qed.

End template.

(** ** Schemas *)

Inductive FieldType : Set := TString | TNumber | TDate | TTagList | TStringList.

Record FrontmatterSchema := mkSchema {
  required_fields : list bytes;
  field_types : gmap bytes FieldType;
  allowed_tags : option (list bytes);
  max_tags : nat;
}.
Definition FrontmatterSchema_default : FrontmatterSchema := mkSchema [] ∅ None 20.

Definition get_default_schema : FrontmatterSchema :=
  {| required_fields := [lit "title"];
     field_types := <[lit "tags" := TTagList]> (<[lit "updated" := TDate]>
                      (<[lit "created" := TDate]> (<[lit "title" := TString]> ∅)));
     allowed_tags := None; max_tags := 20 |}.

(** The messages, by what they report. *)
Inductive FmError : Type :=
| MissingOrEmpty (field : bytes)
| Missing (field : bytes)
| WrongType (field : bytes) (expected : FieldType) (value : bytes)
| TagNotAllowed (tag : bytes)
| TooManyTags (count max : nat).

(** [value.parse::<f64>().is_ok()]: a sign, then [inf], [infinity] or [nan] in any
    case, or digits with a point and an exponent. *)
Definition is_digit (b : byte) : bool := let x := byte_to_Z b in (48 <=? x) && (x <=? 57).
Definition strip_sign (s : bytes) : bytes :=
  match s with Byte.x2b :: r | Byte.x2d :: r => r | _ => s end.
Definition parses_exponent (s : bytes) : bool :=
  match s with
  | [] => true
  | b :: r => (bool_decide (b = Byte.x65) || bool_decide (b = Byte.x45)) &&
              let digits := strip_sign r in negb (bool_decide (digits = [])) && forallb is_digit digits
  end.
Definition parses_decimal (s : bytes) : bool :=
  let whole := take_while is_digit s in
  let rest := drop (length whole) s in
  let '(fraction, rest) :=
    match rest with
    | Byte.x2e :: r => (take_while is_digit r, drop (length (take_while is_digit r)) r)
    | _ => ([], rest)
    end in
  negb (bool_decide (whole = [] /\ fraction = [])) && parses_exponent rest.
Definition parses_f64 (s : bytes) : bool :=
  let body := strip_sign s in
  bool_decide (ascii_lower <$> body ∈ [lit "inf"; lit "infinity"; lit "nan"]) || parses_decimal body.

Definition dashes (s : bytes) : nat := length (filter (fun b => b = Byte.x2d) s).

Definition validate_type (value : bytes) (field_type : FieldType) : bool :=
  match field_type with
  | TString => true
  | TNumber => parses_f64 value
  | TDate => (10 <=? length value)%nat && contains Byte.x2d value && (2 <=? dashes value)%nat
  | TTagList => negb (bool_decide (value = [])) && negb (contains Byte.x20 value)
  | TStringList => negb (bool_decide (value = []))
  end.

Definition blank (v : option bytes) : bool :=
  match v with Some s => bool_decide (str_trim s = []) | None => true end.

Definition check_required (fm : Frontmatter) (field : bytes) : list FmError :=
  if bool_decide (field = lit "title") then (if blank (fm_title fm) then [MissingOrEmpty field] else [])
  else if bool_decide (field = lit "created") then (if blank (fm_created fm) then [MissingOrEmpty field] else [])
  else if bool_decide (field = lit "updated") then (if blank (fm_updated fm) then [MissingOrEmpty field] else [])
  else if bool_decide (field = lit "tags") then (if bool_decide (fm_tags fm = []) then [MissingOrEmpty field] else [])
  else if bool_decide (field = lit "aliases") then []
  else match fm_custom fm !! field with Some _ => [] | None => [Missing field] end.

Definition field_value (fm : Frontmatter) (field_name : bytes) : option bytes :=
  if bool_decide (field_name = lit "title") then fm_title fm
  else if bool_decide (field_name = lit "created") then fm_created fm
  else if bool_decide (field_name = lit "updated") then fm_updated fm
  else fm_custom fm !! field_name.

Definition check_type (fm : Frontmatter) (e : bytes * FieldType) : list FmError :=
  match field_value fm e.1 with
  | Some val => if validate_type val e.2 then [] else [WrongType e.1 e.2 val]
  | None => []
  end.

Definition check_allowed (fm : Frontmatter) (allowed : option (list bytes)) : list FmError :=
  match allowed with
  | Some allowed => TagNotAllowed <$> filter (fun tag => tag ∉ allowed) (fm_tags fm)
  | None => []
  end.

Definition validate_frontmatter (fm : Frontmatter) (schema : FrontmatterSchema) : outcome (list FmError) :=
  Ok (concat (check_required fm <$> required_fields schema) ++
      concat (check_type fm <$> map_to_list (field_types schema)) ++
      check_allowed fm (allowed_tags schema) ++
      (if (max_tags schema <? length (fm_tags fm))%nat
       then [TooManyTags (length (fm_tags fm)) (max_tags schema)] else [])).

(** *** What a schema asks *)

Definition has_field (fm : Frontmatter) (field : bytes) : Prop :=
  if bool_decide (field = lit "tags") then fm_tags fm <> []
  else if bool_decide (field = lit "aliases") then True
  else if bool_decide (field ∈ [lit "title"; lit "created"; lit "updated"])
       then exists v, field_value fm field = Some v /\ str_trim v <> []
       else is_Some (fm_custom fm !! field).

Record meets (fm : Frontmatter) (schema : FrontmatterSchema) : Prop := {
  me_required field : field ∈ required_fields schema -> has_field fm field;
  me_types field ty v : field_types schema !! field = Some ty -> field_value fm field = Some v ->
    validate_type v ty = true;
  me_allowed l tag : allowed_tags schema = Some l -> tag ∈ fm_tags fm -> tag ∈ l;
  me_count : (length (fm_tags fm) <= max_tags schema)%nat;
}.

Lemma blank_spec v : blank v = false <-> exists s, v = Some s /\ str_trim s <> [].
Proof. destruct v as [s|]; cbn; [rewrite bool_decide_eq_false|]; naive_solver. Qed.

Lemma check_required_spec fm field : check_required fm field = [] <-> has_field fm field.
Proof.
  assert (lit "title" <> lit "tags" /\ lit "title" <> lit "aliases" /\ lit "created" <> lit "tags" /\
    lit "created" <> lit "aliases" /\ lit "updated" <> lit "tags" /\ lit "updated" <> lit "aliases" /\
    lit "created" <> lit "title" /\ lit "updated" <> lit "title" /\ lit "updated" <> lit "created" /\
    lit "aliases" <> lit "tags") as Hne by (split_and!; by vm_compute).
  destruct Hne as (N1 & N2 & N3 & N4 & N5 & N6 & N7 & N8 & N9 & N10).
  unfold check_required, has_field, field_value.
  destruct (decide (field = lit "title")) as [->|Ht]; [|rewrite (bool_decide_eq_false_2 (field = lit "title")) by done].
  { rewrite (bool_decide_eq_true_2 (lit "title" = _)), !(bool_decide_eq_false_2 (lit "title" = lit _)) by done.
    rewrite bool_decide_eq_true_2 by set_solver. rewrite <- blank_spec. by destruct (blank _). }
  destruct (decide (field = lit "created")) as [->|Hc]; [|rewrite (bool_decide_eq_false_2 (field = lit "created")) by done].
  { rewrite (bool_decide_eq_true_2 (lit "created" = lit "created")), !(bool_decide_eq_false_2 (lit "created" = lit _)) by done.
    rewrite bool_decide_eq_true_2 by set_solver. rewrite <- blank_spec. by destruct (blank _). }
  destruct (decide (field = lit "updated")) as [->|Hu]; [|rewrite (bool_decide_eq_false_2 (field = lit "updated")) by done].
  { rewrite (bool_decide_eq_true_2 (lit "updated" = lit "updated")), !(bool_decide_eq_false_2 (lit "updated" = lit _)) by done.
    rewrite bool_decide_eq_true_2 by set_solver. rewrite <- blank_spec. by destruct (blank _). }
  case_bool_decide as Hg; [subst; case_bool_decide; naive_solver|].
  case_bool_decide as Ha; [done|]. rewrite bool_decide_eq_false_2 by set_solver.
  destruct (fm_custom fm !! field); naive_solver.
Qed.

Lemma concat_nil_iff {A : Type} (l : list (list A)) : concat l = [] <-> forall x, x ∈ l -> x = [].
Proof.
  induction l as [|x l IH]; cbn; [set_solver|]. split.
  - intros [-> E]%app_nil y [->|Hy]%elem_of_cons; [done|]. by apply IH.
  - intros Hl. rewrite (Hl x) by left. apply IH. intros y Hy. apply Hl. by right.
Qed.

(** Validation reports nothing exactly when the frontmatter meets the schema. *)
Theorem frontmatter_validation_exact fm schema :
  exists errors, validate_frontmatter fm schema = Ok errors /\ (errors = [] <-> meets fm schema).
Proof.
  eexists. split; [done|]. rewrite !app_nil, !concat_nil_iff. split.
  - intros (Hr & Ht & Ha & Hc). constructor.
    + intros field Hf. apply check_required_spec, Hr. by apply list_elem_of_fmap_2.
    + intros field ty v Hty Hv. apply elem_of_map_to_list in Hty.
      specialize (Ht _ (list_elem_of_fmap_2 (check_type fm) _ _ Hty)). unfold check_type in Ht. cbn [fst snd] in Ht.
      rewrite Hv in Ht. by destruct (validate_type v ty).
    + intros l tag Hl Htag. unfold check_allowed in Ha. rewrite Hl in Ha. apply fmap_nil_inv in Ha.
      destruct (decide (tag ∈ l)) as [|Hn]; [done|]. assert (tag ∈ filter (fun tag => tag ∉ l) (fm_tags fm)) as Hin
        by (by apply list_elem_of_filter). rewrite Ha in Hin. by apply elem_of_nil in Hin.
    + destruct (max_tags schema <? length (fm_tags fm))%nat eqn:E; [done|]. by apply Nat.ltb_ge.
  - intros [Hr Ht Ha Hc]. split_and!.
    + intros x (field & -> & Hf)%list_elem_of_fmap. by apply check_required_spec, Hr.
    + intros x ([field ty] & -> & Hf%elem_of_map_to_list)%list_elem_of_fmap. unfold check_type. cbn [fst snd].
      destruct (field_value fm field) as [v|] eqn:E; [|done]. by rewrite (Ht _ _ _ Hf E).
    + unfold check_allowed. destruct (allowed_tags schema) as [l|]; [|done].
      destruct (filter (fun tag => tag ∉ l) (fm_tags fm)) as [|tag r] eqn:E; [done|].
      assert (tag ∈ filter (fun tag => tag ∉ l) (fm_tags fm)) as Hin by (rewrite E; by left).
      apply list_elem_of_filter in Hin as [Hn Hin]. by destruct (Hn (Ha _ _ eq_refl Hin)).
    + by rewrite (proj2 (Nat.ltb_ge _ _)).
Qed.

(** ** In the store *)

(** [serde_json] on schemas. *)
Class SchemaJson := {
  schema_to_json : FrontmatterSchema -> bytes;
  schema_from_json : bytes -> option FrontmatterSchema;
  schema_roundtrip schema : schema_from_json (schema_to_json schema) = Some schema;
}.

Definition SCHEMA_PREFIX : bytes := Eval vm_compute in lit "__frontmatter_schema:".
Definition TEMPLATE_PREFIX : bytes := Eval vm_compute in lit "__template:".

Section stored.
Context {St : Type} `{!KvStore St} `{!Unicode} `{!JsonStrings} `{!SearchEnv} `{!SchemaJson} `{!Chrono}.

(** [map_err(|e| InvalidArgument(..))]. *)
Definition invalid {A} (c : KvM St A) : KvM St A := fun s =>
  match c s with (Err _, s) => (Err InvalidArgument, s) | r => r end.

(** The names under a prefix. *)
Definition list_names (prefix : bytes) : KvM St (list bytes) :=
  found ← invalid (search prefix None MAX_SCAN_LIMIT);
  mret (omap (fun e => str_strip_prefix prefix (from_utf8_lossy e.1)) found.1).

Definition save_schema (name : bytes) (schema : FrontmatterSchema) : KvM St unit :=
  invalid (put (SCHEMA_PREFIX ++ name) (schema_to_json schema)).
Definition load_schema (name : bytes) : KvM St (option FrontmatterSchema) :=
  v ← invalid (get (SCHEMA_PREFIX ++ name));
  match v with
  | Some bytes => schema ← kv_lift (ok_or (schema_from_json bytes) InvalidArgument); mret (Some schema)
  | None => mret None
  end.
Definition delete_schema (name : bytes) : KvM St unit := invalid (remove (SCHEMA_PREFIX ++ name)).
Definition list_schemas : KvM St (list bytes) := list_names SCHEMA_PREFIX.

Definition register_default_schema : KvM St unit :=
  existing ← load_schema (lit "default");
  match existing with
  | None => save_schema (lit "default") get_default_schema
  | Some _ => mret tt
  end.

Definition save_template (name content : bytes) : KvM St unit := invalid (put (TEMPLATE_PREFIX ++ name) content).
Definition delete_template (name : bytes) : KvM St unit := invalid (remove (TEMPLATE_PREFIX ++ name)).
Definition get_template (name : bytes) : KvM St (option bytes) :=
  v ← invalid (get (TEMPLATE_PREFIX ++ name)); mret (from_utf8_lossy <$> v).
Definition list_templates : KvM St (list bytes) := list_names TEMPLATE_PREFIX.

Definition DATE_FORMAT : bytes := Eval vm_compute in lit "%Y-%m-%d".
Definition TIME_FORMAT : bytes := Eval vm_compute in lit "%H:%M:%S".

(** The content of a daily note without a template. *)
Definition daily_heading (date : bytes) : bytes :=
  lit "# Daily Note " ++ [Byte.xe2; Byte.x80; Byte.x94] ++ lit " " ++ date ++ [Byte.x0a; Byte.x0a].

Definition daily_content (now : Z) (readings : nat -> Z) (template_name : option bytes) (date : bytes) : KvM St bytes :=
  match template_name with
  | Some tname =>
      raw ← get_template tname;
      raw ← kv_lift (ok_or raw InvalidArgument);
      time ← kv_lift (expect (format_time now TIME_FORMAT));
      kv_lift (render_template readings (<[lit "time" := time]> (<[lit "date" := date]> ∅)) raw)
  | None => mret (daily_heading date)
  end.

Definition create_daily_note (now : Z) (readings : nat -> Z) (template_name : option bytes) : KvM St bytes :=
  date ← kv_lift (expect (format_time now DATE_FORMAT));
  let note_path := lit "daily/" ++ date in
  existing ← kv_unwrap_or None (get_note note_path);
  match existing with
  | Some _ => mret note_path
  | None =>
      content ← daily_content now readings template_name date;
      put_note note_path content;;
      mret note_path
  end.

(** *** What was saved is loaded *)

Context `{!KvLaws St}.

Lemma invalid_reads {A : Type} m (c : KvM St A) (a : A) : reads m c a -> reads m (invalid c) a.
Proof. intros Hc s Hs. destruct (Hc s Hs) as (s' & E & Hs'). exists s'. unfold invalid. by rewrite E. Qed.

Lemma invalid_triple {A : Type} m (c : KvM St A) Q : triple m c Q -> triple m (invalid c) Q.
Proof.
  intros Hc s a s' Hs E. unfold invalid in E. destruct (c s) as [[x|e|] s1] eqn:Ec; [|done..].
  injection E as <- <-. by apply (Hc s).
Qed.

Lemma load_schema_reads m name v :
  m !! (SCHEMA_PREFIX ++ name) = schema_to_json <$> v -> reads m (load_schema name) v.
Proof.
  intros E. eapply reads_bind; [apply invalid_reads, reads_get|]. rewrite E.
  destruct v as [schema|]; cbn [fmap option_fmap option_map]; [|apply reads_ret].
  rewrite schema_roundtrip. eapply reads_bind; [apply reads_lift|]. apply reads_ret.
Qed.

(** A schema saved under a name is the one loaded under it, other names are not
    touched; registering the default schema never replaces one. *)
Theorem schemas_stored m name schema :
  kv_writable (SCHEMA_PREFIX ++ name) (schema_to_json schema) ->
  triple m (save_schema name schema) (fun _ m' =>
    reads m' (load_schema name) (Some schema) /\
    (forall name' v, name' <> name -> m !! (SCHEMA_PREFIX ++ name') = schema_to_json <$> v ->
       reads m' (load_schema name') v) /\
    (name = lit "default" -> reads m' register_default_schema tt)).
Proof.
  intros Hw. apply invalid_triple, triple_put; [done|].
  assert (reads (<[SCHEMA_PREFIX ++ name := schema_to_json schema]> m) (load_schema name) (Some schema)) as Hload.
  { apply load_schema_reads. by rewrite lookup_insert_eq. }
  split_and!; [done| |].
  - intros name' v Hne Hv. apply load_schema_reads. rewrite lookup_insert_ne; [done|]. by intros ?%app_inv_head.
  - intros ->. eapply reads_bind; [exact Hload|]. apply reads_ret.
Qed.

(** A daily note that exists is kept, whatever the template. *)
Theorem daily_note_kept m now readings template_name date c :
  format_time now DATE_FORMAT = Some date ->
  m !! (NOTE_PREFIX ++ lit "daily/" ++ date) = Some c ->
  reads m (create_daily_note now readings template_name) (lit "daily/" ++ date).
Proof.
  intros Hd Hc. unfold create_daily_note. rewrite Hd. eapply reads_bind; [apply reads_lift|]. cbv zeta.
  assert (reads m (get_note (lit "daily/" ++ date)) (Some (from_utf8_lossy c))) as Hg.
  { eapply reads_bind; [apply reads_get|]. rewrite Hc. apply reads_ret. }
  eapply (reads_bind _ _ _ (Some (from_utf8_lossy c))); [|apply reads_ret].
  intros s Hs. destruct (Hg s Hs) as (s' & E & Hs'). exists s'. split; [|done]. unfold kv_unwrap_or. by rewrite E.
Qed.

End stored.
