(* ===== verification/Crdt.v ===== *)
(** * Crdt: replicated data types ([src/src/infra/crdt.rs])

    A last-writer-wins map, a grow-only counter, a positive-negative counter and
    an observed-remove set.  What a replica promises its peers is the class
    [JoinSemilattice]: merging is associative, commutative and idempotent, and
    then the outcome of a gossip depends only on which states were merged.  The
    counters and the set are instances; the last-writer-wins map is not, unless
    timestamps decide. *)
From Stdlib Require Import ZArith Lia.
From stdpp Require Import base tactics numbers list gmap strings fin_map_dom.
From S2P Require Import Prelude Bytes.

(** ** Join semilattices *)

Class JoinSemilattice (A : Type) := {
  join : A -> A -> A;
  join_assoc x y z : join x (join y z) = join (join x y) z;
  join_comm x y : join x y = join y x;
  join_idem x : join x x = x }.

(** Merging a list of states into a replica, one after the other. *)
Definition merge_all {A} `{!JoinSemilattice A} (x : A) (l : list A) : A := foldl join x l.

(** The order a semilattice induces: [x] adds nothing to [y]. *)
Definition join_le {A} `{!JoinSemilattice A} (x y : A) : Prop := join x y = y.

Section semilattice.
Context {A : Type} `{!JoinSemilattice A}.
Implicit Types (x y z : A) (l : list A).

#[global] Instance join_le_preorder : PreOrder (join_le (A := A)).
Proof.
  split; [intros x; apply join_idem|]. unfold join_le. intros x y z Hxy Hyz.
  by rewrite <- Hyz, join_assoc, Hxy.
Qed.

Lemma join_le_l x y : join_le x (join x y).
Proof. unfold join_le. by rewrite join_assoc, join_idem. Qed.

Lemma join_le_r x y : join_le y (join x y).
Proof. rewrite join_comm. apply join_le_l. Qed.

Lemma join_least x y z : join_le x z -> join_le y z -> join_le (join x y) z.
Proof. unfold join_le. intros Hx Hy. by rewrite <- join_assoc, Hy. Qed.

Lemma join_le_antisym x y : join_le x y -> join_le y x -> x = y.
Proof. unfold join_le. intros Hx Hy. rewrite <- Hy, join_comm. done. Qed.

Lemma merge_all_upper x l y : y = x \/ y ∈ l -> join_le y (merge_all x l).
Proof.
  revert x y. induction l as [|z l IH]; intros x y Hy; simpl.
  { destruct Hy as [->|?%elem_of_nil]; done. }
  rewrite elem_of_cons in Hy. destruct Hy as [->|[->|Hy]].
  - transitivity (join x z); [apply join_le_l|]. apply IH; by left.
  - transitivity (join x z); [apply join_le_r|]. apply IH; by left.
  - apply IH; by right.
Qed.

Lemma merge_all_least x l z :
  join_le x z -> (forall y, y ∈ l -> join_le y z) -> join_le (merge_all x l) z.
Proof.
  revert x. induction l as [|y l IH]; intros x Hx Hl; simpl; [done|].
  apply IH; [apply join_least; [done|apply Hl; by left]|]. intros; apply Hl; by right.
Qed.

(** Gossip converges: the merged state depends only on the set of states seen,
    not on their order or on how often each was delivered. *)
Lemma merge_all_converges x l1 l2 :
  (forall y, y ∈ l1 <-> y ∈ l2) -> merge_all x l1 = merge_all x l2.
Proof.
  intros Heq. apply join_le_antisym; apply merge_all_least;
    intros; apply merge_all_upper; naive_solver.
Qed.
End semilattice.
#[export] Hint Resolve join_le_l join_le_r join_least : apex.

(** ** The last-writer-wins engine *)

Module Lww.

Record CrdtEntry := mk_entry {
  key : bytes;
  value : bytes;
  timestamp : Z }.

(** The field [state] of [CrdtEngine]. *)
Notation CrdtEngine := (gmap bytes (bytes * Z)).

Definition new : CrdtEngine := ∅.

Definition merge (k v : bytes) (ts : Z) (e : CrdtEngine) : CrdtEngine :=
  match e !! k with
  | Some (_, existing_ts) => if ts <=? existing_ts then e else <[k := (v, ts)]> e
  | None => <[k := (v, ts)]> e
  end.

Definition resolve_conflicts (k : bytes) (e : CrdtEngine) : option CrdtEntry :=
  (fun '(v, ts) => mk_entry k v ts) <$> e !! k.

Definition get_state (k : bytes) (e : CrdtEngine) : option (bytes * Z) := e !! k.

Definition len (e : CrdtEngine) : Z := Z.of_nat (size e).

Definition is_empty (e : CrdtEngine) : bool := bool_decide (e = ∅).

(** The order of the result is that of the hash map: a permutation of the list
    given here. *)
Definition get_all_entries (e : CrdtEngine) : list CrdtEntry :=
  (fun '(k, (v, ts)) => mk_entry k v ts) <$> map_to_list e.

Definition clear (e : CrdtEngine) : CrdtEngine := ∅.

(** A replica applies a sequence of updates. *)
Definition apply_entry (e : CrdtEngine) (u : CrdtEntry) : CrdtEngine :=
  merge (key u) (value u) (timestamp u) e.

Definition apply_entries (us : list CrdtEntry) (e : CrdtEngine) : CrdtEngine :=
  foldl apply_entry e us.

(** The reference: of the updates of a key, the first with the highest
    timestamp wins. *)
Definition better (best : option (bytes * Z)) (u : CrdtEntry) : option (bytes * Z) :=
  match best with
  | Some (_, t) => if timestamp u <=? t then best else Some (value u, timestamp u)
  | None => Some (value u, timestamp u)
  end.

Definition winner (k : bytes) (us : list CrdtEntry) (best : option (bytes * Z)) :=
  foldl better best (filter (fun u => key u = k) us).

Lemma apply_entries_winner k us e :
  get_state k (apply_entries us e) = winner k us (get_state k e).
Proof.
  unfold apply_entries, get_state, winner. revert e.
  induction us as [|u us IH]; intros e; simpl; [done|]. rewrite IH, filter_cons.
  unfold apply_entry, merge. case_decide as Hk; simpl; f_equal.
  - subst. unfold better. destruct (e !! key u) as [[v t]|] eqn:E; [case_cond; [done|]|];
      apply lookup_insert_eq.
  - destruct (e !! key u) as [[v t]|]; [case_cond; [done|]|]; by apply lookup_insert_ne.
Qed.

(** Timestamps decide: two updates of a key with one timestamp are equal. *)
Definition decided (us : list CrdtEntry) : Prop :=
  forall u1 u2, u1 ∈ us -> u2 ∈ us -> key u1 = key u2 -> timestamp u1 = timestamp u2 ->
    value u1 = value u2.

Lemma better_spec best u :
  exists r, better best u = Some r /\ (best = Some r \/ (value u, timestamp u) = r) /\
    (forall b, best = Some b -> b.2 <= r.2) /\ timestamp u <= r.2.
Proof.
  destruct best as [[v t]|]; simpl; [case_cond|]; eexists;
    (split; [done|]); (split; [auto|]); (split; [intros b [= <-]|]); simpl; lia.
Qed.

(** What the winner is, without an order: an upper bound that occurs. *)
Lemma foldl_better_spec us best r :
  foldl better best us = Some r ->
  (best = Some r \/ exists u, u ∈ us /\ (value u, timestamp u) = r) /\
  (forall b, best = Some b -> b.2 <= r.2) /\
  (forall u, u ∈ us -> timestamp u <= r.2).
Proof.
  revert best. induction us as [|u us IH]; intros best Hr; simpl in *.
  { split; [by left|]. split; [intros b ->; by simplify_eq|set_solver]. }
  apply IH in Hr as (Hocc & Hb & Hu). clear IH.
  destruct (better_spec best u) as (b & Eb & Hocc' & Hb' & Hu').
  specialize (Hb b Eb). repeat split.
  - rewrite Eb in Hocc. destruct Hocc as [[= <-]|(u' & ? & ?)]; [|set_solver].
    destruct Hocc' as [?|?]; set_solver.
  - intros b' Hb''. specialize (Hb' _ Hb''). lia.
  - intros u' [->|?]%elem_of_cons; [lia|auto].
Qed.

Lemma winner_Some k us r :
  winner k us None = Some r ->
  exists u, u ∈ us /\ key u = k /\ (value u, timestamp u) = r /\
    forall u', u' ∈ us -> key u' = k -> timestamp u' <= r.2.
Proof.
  intros ([?|(u & Hin & Hr)] & _ & Hmax)%foldl_better_spec; [done|].
  apply list_elem_of_filter in Hin as [Hk Hin]. exists u. repeat split; try done.
  intros u' ??. apply Hmax. by apply list_elem_of_filter.
Qed.

Lemma winner_None k us u : winner k us None = None -> u ∈ us -> key u <> k.
Proof.
  unfold winner. intros Hn Hu Hk.
  assert (u ∈ filter (fun u => key u = k) us) as Hf by by apply list_elem_of_filter.
  destruct (filter _ us) as [|u0 l] using rev_ind; [by apply elem_of_nil in Hf|].
  rewrite foldl_app in Hn. simpl in Hn.
  destruct (better_spec (foldl better None l) u0) as (r & Hr & _). congruence.
Qed.

Lemma get_all_entries_spec u e :
  u ∈ get_all_entries e <-> get_state (key u) e = Some (value u, timestamp u).
Proof.
  unfold get_all_entries, get_state. rewrite list_elem_of_fmap. split.
  - intros ([k [v t]] & -> & Hin%elem_of_map_to_list). done.
  - intros Hl. exists (key u, (value u, timestamp u)).
    split; [by destruct u|by apply elem_of_map_to_list].
Qed.

(** Replicas that applied the same updates agree, whatever the order and the
    number of deliveries, when timestamps decide. *)
Lemma lww_converges us1 us2 :
  decided us1 -> (forall u, u ∈ us1 <-> u ∈ us2) ->
  apply_entries us1 new = apply_entries us2 new.
Proof.
  intros Hdec Heq. apply map_eq. intros k.
  change (get_state k (apply_entries us1 new) = get_state k (apply_entries us2 new)).
  rewrite !apply_entries_winner. change (get_state k new) with (@None (bytes * Z)).
  destruct (winner k us1 None) as [r1|] eqn:E1, (winner k us2 None) as [r2|] eqn:E2; [| | |done].
  - apply winner_Some in E1 as (u1 & Hi1 & Hk1 & <- & Hm1).
    apply winner_Some in E2 as (u2 & Hi2 & Hk2 & <- & Hm2).
    assert (timestamp u1 = timestamp u2).
    { apply Z.le_antisymm; [apply (Hm2 u1)|apply (Hm1 u2)]; naive_solver. }
    rewrite (Hdec u1 u2) by naive_solver. congruence.
  - apply winner_Some in E1 as (u1 & Hi1 & Hk1 & _). eapply winner_None in E2; naive_solver.
  - apply winner_Some in E2 as (u2 & Hi2 & Hk2 & _). eapply winner_None in E1; naive_solver.
Qed.
End Lww.

(** ** Merging hash maps entry by entry *)

(** A loop over the entries of [other]: [entry(k).or_insert(d)], which is then
    combined with the other's value. *)
Definition merge_entries {K V} `{Countable K} (f : V -> V -> V) (d : V) (self other : gmap K V) :
    gmap K V :=
  foldl (fun s '(k, x) => <[k := f (default d (s !! k)) x]> s) self (map_to_list other).

Lemma merge_entries_list {K V} `{Countable K} (f : V -> V -> V) d (self : gmap K V) l k :
  NoDup l.*1 ->
  foldl (fun s '(k, x) => <[k := f (default d (s !! k)) x]> s) self l !! k =
  match (list_to_map l : gmap K V) !! k with
  | Some x => Some (f (default d (self !! k)) x)
  | None => self !! k
  end.
Proof.
  revert self. induction l as [|[k' x] l IH]; intros self Hnd; simpl; [done|].
  apply NoDup_cons in Hnd as [Hni Hnd]. rewrite IH by done.
  destruct (decide (k = k')) as [->|Hne].
  - rewrite not_elem_of_list_to_map_1 by done. by rewrite !lookup_insert_eq.
  - by rewrite !lookup_insert_ne by done.
Qed.

Lemma lookup_merge_entries {K V} `{Countable K} (f : V -> V -> V) d (self other : gmap K V) k :
  merge_entries f d self other !! k =
  match other !! k with
  | Some x => Some (f (default d (self !! k)) x)
  | None => self !! k
  end.
Proof.
  unfold merge_entries. rewrite merge_entries_list by apply NoDup_fst_map_to_list.
  by rewrite list_to_map_to_list.
Qed.

(** When [f] with unit [d] is a join, merging maps entry by entry is one too. *)
Section merge_entries.
Context {K V : Type} `{Countable K} (f : V -> V -> V) (d : V).
Context (f_assoc : forall x y z, f x (f y z) = f (f x y) z) (f_comm : forall x y, f x y = f y x).
Context (f_idem : forall x, f x x = x) (f_unit : forall x, f d x = x).
Implicit Types (a b c : gmap K V).

Ltac pointwise :=
  apply map_eq; intros k; rewrite !lookup_merge_entries;
  repeat match goal with |- context [?m !! k] => is_var m; destruct (m !! k) end; simpl;
  rewrite ?f_unit; try done; f_equal.

Lemma merge_entries_assoc a b c :
  merge_entries f d a (merge_entries f d b c) = merge_entries f d (merge_entries f d a b) c.
Proof. pointwise; rewrite ?f_unit; auto. Qed.

Lemma merge_entries_comm a b : merge_entries f d a b = merge_entries f d b a.
Proof. pointwise; rewrite ?f_unit; auto. Qed.

Lemma merge_entries_idem a : merge_entries f d a a = a.
Proof. pointwise; auto. Qed.
End merge_entries.

(** ** The grow-only counter *)

Module GCounter.

(** The field [counters]; a [u64] is an [N] here. *)
Notation GCounter := (gmap string N).

Definition new : GCounter := ∅.

Definition u64_max : N := Z.to_N Prelude.u64_max.

Definition increment (node_id : string) (amount : N) (c : GCounter) : GCounter :=
  <[node_id := N.min u64_max (default 0%N (c !! node_id) + amount)]> c.

(** The sum of all counts, before the addition wraps. *)
Definition total (c : GCounter) : Z := sumZ (fun '(_, n) => Z.of_N n) (map_to_list c).

(** [Iterator::sum] wraps at 64 bits in the release profile (and panics in a
    build with overflow checks). *)
Definition value (c : GCounter) : Z := as_u64 (total c).

Definition merge (c other : GCounter) : GCounter := merge_entries N.max 0%N c other.

#[global] Program Instance gcounter_join : JoinSemilattice GCounter := {| join := merge |}.
Next Obligation. intros. apply merge_entries_assoc; lia. Qed.
Next Obligation. intros. apply merge_entries_comm; lia. Qed.
Next Obligation. intros. apply merge_entries_idem; lia. Qed.

Definition count (c : GCounter) (n : string) : N := default 0%N (c !! n).

Lemma count_merge c1 c2 n : count (merge c1 c2) n = N.max (count c1 n) (count c2 n).
Proof.
  unfold count, merge. rewrite lookup_merge_entries. destruct (c2 !! n); simpl; lia.
Qed.

Lemma count_increment n a c m :
  count (increment n a c) m =
  if decide (m = n) then N.min u64_max (count c n + a) else count c m.
Proof.
  unfold count, increment. case_decide as Hm; [subst|]; by simplify_map_eq.
Qed.

(** The total, summed over any list of nodes that has them all. *)
Lemma total_nodes c nodes :
  NoDup nodes -> dom c ⊆ list_to_set nodes ->
  total c = sumZ (fun n => Z.of_N (count c n)) nodes.
Proof.
  intros Hnd. induction c as [|n x c Hfresh IH] using map_ind; intros Hdom.
  { unfold total. rewrite map_to_list_empty. simpl. clear. induction nodes; simpl; [done|].
    unfold count at 1. rewrite lookup_empty. simpl. lia. }
  unfold total. rewrite map_to_list_insert by done. simpl.
  rewrite dom_insert in Hdom. fold (total c). rewrite IH by set_solver.
  assert (n ∈ nodes) as Hin by set_solver. clear IH Hdom.
  apply list_elem_of_split in Hin as (l1 & l2 & ->).
  assert (forall l, n ∉ l -> sumZ (fun m => Z.of_N (count (<[n:=x]> c) m)) l =
                        sumZ (fun m => Z.of_N (count c m)) l) as Hrest.
  { clear. induction l as [|m l IH]; simpl; [done|]. intros Hn. rewrite IH by set_solver.
    unfold count. by rewrite lookup_insert_ne by set_solver. }
  rewrite !sumZ_app. simpl. apply NoDup_app in Hnd as (_ & Hn1 & Hnd2).
  apply NoDup_cons in Hnd2 as [Hn2 _]. rewrite !Hrest by set_solver.
  unfold count at 2 5. rewrite lookup_insert_eq, Hfresh. simpl. lia.
Qed.
End GCounter.

(** ** Replicas of a counter *)

(** Nodes increment their own entry and merge what they receive; [issued] is what
    each node was asked to add in total, which no replica knows. *)
Module Replicas.
Import GCounter.

Record system := mk_system {
  replica : gmap string (gmap string N);
  issued : gmap string N }.

Definition counter_of (s : system) (n : string) : gmap string N := default ∅ (replica s !! n).
Definition issued_by (s : system) (n : string) : N := default 0%N (issued s !! n).

Inductive step (s : system) : system -> Prop :=
| step_increment n a :
    is_Some (replica s !! n) ->
    step s (mk_system (<[n := increment n a (counter_of s n)]> (replica s))
                      (<[n := (issued_by s n + a)%N]> (issued s)))
| step_merge n m :
    is_Some (replica s !! n) -> is_Some (replica s !! m) ->
    step s (mk_system (<[n := merge (counter_of s n) (counter_of s m)]> (replica s)) (issued s)).

(** All nodes start with [GCounter::new]. *)
Definition init (nodes : list string) : system :=
  mk_system (list_to_map ((fun n => (n, new)) <$> nodes)) ∅.

Record ok (nodes : list string) (s : system) : Prop := mk_ok {
  ok_nodes n : is_Some (replica s !! n) <-> n ∈ nodes;
  (** A node knows its own increments, up to saturation. *)
  ok_own n : n ∈ nodes -> count (counter_of s n) n = N.min u64_max (issued_by s n);
  (** Nobody knows more of a node than the node itself. *)
  ok_le n m : n ∈ nodes -> (count (counter_of s n) m <= count (counter_of s m) m)%N;
  ok_dom n : n ∈ nodes -> dom (counter_of s n) ⊆ list_to_set nodes }.

Lemma init_ok nodes : ok nodes (init nodes).
Proof.
  assert (forall n, replica (init nodes) !! n = if decide (n ∈ nodes) then Some new else None) as Hl.
  { intros n. unfold init. simpl replica. induction nodes as [|m nodes IH]; [done|].
    rewrite fmap_cons, list_to_map_cons. destruct (decide (n = m)) as [->|Hne].
    - rewrite lookup_insert_eq, decide_True by set_solver. done.
    - rewrite lookup_insert_ne, IH by done.
      destruct (decide (n ∈ nodes)); [rewrite decide_True|rewrite decide_False]; set_solver. }
  assert (forall n, counter_of (init nodes) n = ∅) as Hc.
  { intros n. unfold counter_of. rewrite Hl. by destruct (decide _). }
  split; intros n; rewrite ?Hc.
  - rewrite Hl. case_decide; split; intros Hs; done.
  - done.
  - intros m _. by rewrite Hc.
  - set_solver.
Qed.

Lemma counter_of_insert s n c m i :
  counter_of (mk_system (<[n := c]> (replica s)) i) m =
  if decide (m = n) then c else counter_of s m.
Proof. unfold counter_of. simpl. case_decide; subst; by simplify_map_eq. Qed.

Lemma is_Some_insert_known s nodes n c m :
  ok nodes s -> is_Some (replica s !! n) ->
  is_Some (<[n := c]> (replica s) !! m) <-> m ∈ nodes.
Proof.
  intros Hok Hn. rewrite <- (ok_nodes _ _ Hok). destruct (decide (m = n)) as [->|?].
  - rewrite lookup_insert_eq. split; [done|]. eauto.
  - by rewrite lookup_insert_ne.
Qed.

Lemma dom_increment n a c : dom (increment n a c) = {[n]} ∪ dom c.
Proof. unfold increment. by rewrite dom_insert_L. Qed.

Lemma dom_merge (c1 c2 : gmap string N) : dom (merge c1 c2) = dom c1 ∪ dom c2.
Proof.
  apply set_eq. intros n. rewrite elem_of_union, !elem_of_dom. unfold merge.
  rewrite lookup_merge_entries.
  destruct (c2 !! n), (c1 !! n); rewrite ?is_Some_alt; naive_solver.
Qed.

Lemma replicas_step_ok nodes s s' : ok nodes s -> step s s' -> ok nodes s'.
Proof.
  intros Hok Hstep. pose proof (ok_nodes _ _ Hok) as Hn.
  destruct Hstep as [n a Hin|n m Hin Hin'].
  - pose proof (proj1 (Hn n) Hin) as Hin2. split.
    + intros k. by apply is_Some_insert_known.
    + intros k Hk. rewrite counter_of_insert. unfold issued_by. simpl.
      destruct (decide (k = n)) as [->|?].
      * rewrite count_increment, decide_True, (ok_own _ _ Hok) by done.
        rewrite lookup_insert_eq. unfold issued_by. cbn [default from_option id]. lia.
      * rewrite lookup_insert_ne by done. by apply Hok.
    + intros k j Hk. rewrite !counter_of_insert.
      destruct (decide (k = n)) as [->|?], (decide (j = n)) as [->|?];
        rewrite ?count_increment, ?decide_True by done; try lia.
      * rewrite decide_False by done. by apply Hok.
      * pose proof (ok_le _ _ Hok k n Hk). pose proof (ok_own _ _ Hok n Hin2). lia.
      * by apply Hok.
    + intros k Hk. rewrite counter_of_insert. case_decide; [subst|by apply Hok].
      rewrite dom_increment. pose proof (ok_dom _ _ Hok n Hin2). set_solver.
  - pose proof (proj1 (Hn n) Hin) as Hin2. pose proof (proj1 (Hn m) Hin') as Hin2'.
    assert (forall k, count (counter_of (mk_system
        (<[n:=merge (counter_of s n) (counter_of s m)]> (replica s)) (issued s)) k) k =
      count (counter_of s k) k) as Hown.
    { intros k. rewrite counter_of_insert. case_decide; [subst|done].
      rewrite count_merge. pose proof (ok_le _ _ Hok m n Hin2'). lia. }
    split.
    + intros k. by apply is_Some_insert_known.
    + intros k Hk. rewrite Hown. by apply (ok_own _ _ Hok).
    + intros k j Hk. rewrite Hown, counter_of_insert. case_decide; [subst|by apply Hok].
      rewrite count_merge. pose proof (ok_le _ _ Hok n j Hin2).
      pose proof (ok_le _ _ Hok m j Hin2'). lia.
    + intros k Hk. rewrite counter_of_insert. case_decide; [subst|by apply Hok].
      rewrite dom_merge. pose proof (ok_dom _ _ Hok n Hin2).
      pose proof (ok_dom _ _ Hok m Hin2'). set_solver.
Qed.

Lemma replicas_reachable_ok nodes s : rtc step (init nodes) s -> ok nodes s.
Proof.
  intros Hr. assert (ok nodes (init nodes)) as Hi by apply init_ok.
  induction Hr; eauto using replicas_step_ok.
Qed.

Lemma foldr_max_init (a b : N) l : foldr N.max (N.max a b) l = N.max b (foldr N.max a l).
Proof. induction l; simpl; lia. Qed.

Lemma count_merge_all c (l : list (gmap string N)) n :
  count (merge_all c l) n = foldr N.max (count c n) ((fun d => count d n) <$> l).
Proof.
  revert c. induction l as [|d l IH]; intros c; simpl; [done|].
  rewrite IH. change (join c d) with (merge c d). rewrite count_merge.
  apply foldr_max_init.
Qed.

Lemma dom_merge_all c (l : list (gmap string N)) (X : gset string) :
  dom c ⊆ X -> (forall d, d ∈ l -> dom d ⊆ X) -> dom (merge_all c l) ⊆ X.
Proof.
  revert c. induction l as [|d l IH]; intros c Hc Hl; simpl; [done|].
  apply IH; [|intros; apply Hl; by right]. change (join c d) with (merge c d).
  rewrite dom_merge. specialize (Hl d). set_solver.
Qed.

Lemma foldr_max_bound (a b : N) l :
  (a <= b)%N -> (forall x, x ∈ l -> (x <= b)%N) -> (foldr N.max a l <= b)%N.
Proof. intros Ha. induction l; simpl; intros Hl; [done|]. apply N.max_lub; set_solver. Qed.

Lemma foldr_max_elem (a x : N) l : x ∈ l -> (x <= foldr N.max a l)%N.
Proof. induction 1; simpl; lia. Qed.

(** A replica that has merged the state of every node counts exactly the
    increments each node was asked for. *)
Lemma count_all_merged nodes s n m :
  ok nodes s -> n ∈ nodes -> m ∈ nodes ->
  count (merge_all (counter_of s n) (counter_of s <$> nodes)) m =
  N.min u64_max (issued_by s m).
Proof.
  intros Hok Hn Hm. rewrite <- (ok_own _ _ Hok m Hm), count_merge_all.
  apply N.le_antisymm.
  - apply foldr_max_bound; [by apply Hok|].
    intros x (d & -> & (k & -> & Hk)%list_elem_of_fmap)%list_elem_of_fmap. by apply Hok.
  - apply foldr_max_elem. apply list_elem_of_fmap. exists (counter_of s m).
    split; [done|]. apply list_elem_of_fmap. eauto.
Qed.
End Replicas.

(** ** The positive-negative counter *)

Module PNCounter.

Record PNCounter := mk_pn {
  positive : gmap string N;
  negative : gmap string N }.

Definition new : PNCounter := mk_pn GCounter.new GCounter.new.

Definition increment (node_id : string) (amount : N) (c : PNCounter) : PNCounter :=
  mk_pn (GCounter.increment node_id amount (positive c)) (negative c).

Definition decrement (node_id : string) (amount : N) (c : PNCounter) : PNCounter :=
  mk_pn (positive c) (GCounter.increment node_id amount (negative c)).

(** [x as i64] of a [u64], and [i64] subtraction, which wraps in the release
    profile. *)
Definition as_i64 (x : Z) : Z := (x + 2 ^ 63) mod 2 ^ 64 - 2 ^ 63.

Definition value (c : PNCounter) : Z :=
  as_i64 (as_i64 (GCounter.value (positive c)) - as_i64 (GCounter.value (negative c))).

Definition merge (c other : PNCounter) : PNCounter :=
  mk_pn (GCounter.merge (positive c) (positive other))
        (GCounter.merge (negative c) (negative other)).

#[global] Program Instance pncounter_join : JoinSemilattice PNCounter := {| join := merge |}.
Next Obligation. intros [] [] []. unfold merge; simpl. f_equal; apply (@join_assoc _ GCounter.gcounter_join). Qed.
Next Obligation. intros [] []. unfold merge; simpl. f_equal; apply (@join_comm _ GCounter.gcounter_join). Qed.
Next Obligation. intros []. unfold merge; simpl. f_equal; apply (@join_idem _ GCounter.gcounter_join). Qed.

Lemma as_i64_small x : - 2 ^ 63 <= x < 2 ^ 63 -> as_i64 x = x.
Proof. intros. unfold as_i64. rewrite Z.mod_small; lia. Qed.

(** Below [i64::MAX] the value is the difference of the two totals. *)
Lemma value_exact c :
  0 <= GCounter.total (positive c) < 2 ^ 63 -> 0 <= GCounter.total (negative c) < 2 ^ 63 ->
  value c = GCounter.total (positive c) - GCounter.total (negative c).
Proof.
  intros Hp Hn. unfold value, GCounter.value, as_u64.
  rewrite !(Z.mod_small (GCounter.total _)) by lia. rewrite !(as_i64_small (GCounter.total _)), as_i64_small; lia.
Qed.
End PNCounter.

(** ** The observed-remove set *)

Module ORSet.
Section orset.
Context {T : Type} `{Countable T}.

(** The field [elements]: the tags of each element. *)
Notation ORSet := (gmap T (gset string)).
Implicit Types (s a b : ORSet) (e : T).

Definition new : ORSet := ∅.

Definition add e (tag : string) s : ORSet := <[e := {[tag]} ∪ default ∅ (s !! e)]> s.

Definition remove e s : ORSet := delete e s.

Definition contains e s : bool :=
  match s !! e with Some tags => bool_decide (tags <> ∅) | None => false end.

(** In some order of the hash map. *)
Definition elements s : list T :=
  (filter (fun p : T * gset string => p.2 <> ∅) (map_to_list s)).*1.

Definition merge a b : ORSet := merge_entries (∪) ∅ a b.

#[global] Program Instance orset_join : JoinSemilattice ORSet := {| join := merge |}.
Next Obligation. intros. apply merge_entries_assoc; set_solver. Qed.
Next Obligation. intros. apply merge_entries_comm; set_solver. Qed.
Next Obligation. intros. apply merge_entries_idem; set_solver. Qed.

Lemma elements_spec e s : e ∈ elements s <-> contains e s = true.
Proof.
  unfold elements, contains. rewrite list_elem_of_fmap. split.
  - intros ([e' tags] & -> & [Ht Hin%elem_of_map_to_list]%list_elem_of_filter). simpl.
    rewrite Hin. by apply bool_decide_eq_true.
  - destruct (s !! e) as [tags|] eqn:E; [|done]. intros Ht%bool_decide_eq_true.
    exists (e, tags). split; [done|]. apply list_elem_of_filter. split; [done|].
    by apply elem_of_map_to_list.
Qed.

Lemma contains_add e tag s e' :
  contains e' (add e tag s) = bool_decide (e' = e) || contains e' s.
Proof.
  unfold contains, add. destruct (decide (e' = e)) as [->|Hne].
  - rewrite lookup_insert_eq, (bool_decide_eq_true_2 (e = e)) by done.
    apply bool_decide_eq_true. set_solver.
  - by rewrite lookup_insert_ne, (bool_decide_eq_false_2 (e' = e)).
Qed.

Lemma contains_remove e s e' :
  contains e' (remove e s) = negb (bool_decide (e' = e)) && contains e' s.
Proof.
  unfold contains, remove. destruct (decide (e' = e)) as [->|Hne].
  - by rewrite lookup_delete_eq, (bool_decide_eq_true_2 (e = e)).
  - by rewrite lookup_delete_ne, (bool_decide_eq_false_2 (e' = e)).
Qed.

Lemma contains_merge e a b : contains e (merge a b) = contains e a || contains e b.
Proof.
  unfold contains, merge. rewrite lookup_merge_entries.
  destruct (b !! e) as [tb|]; [|by destruct (a !! e) as [ta|]; rewrite orb_false_r].
  destruct (a !! e) as [ta|]; simpl; [|by rewrite union_empty_l_L].
  apply Bool.eq_iff_eq_true. rewrite orb_true_iff, !bool_decide_eq_true.
  rewrite empty_union_L. destruct (decide (ta = ∅)); naive_solver.
Qed.
End orset.
End ORSet.

(** ** What replicas can rely on *)

(** Gossip of counters and sets converges: merging received states gives a
    result that depends only on which states were received, not on their order
    or on repeated deliveries, for [GCounter], [PNCounter] and [ORSet]. *)
Theorem crdt_merge_converges {T} `{Countable T} :
  (forall (c : gmap string N) l1 l2, (forall d, d ∈ l1 <-> d ∈ l2) ->
     foldl GCounter.merge c l1 = foldl GCounter.merge c l2) /\
  (forall c l1 l2, (forall d, d ∈ l1 <-> d ∈ l2) ->
     foldl PNCounter.merge c l1 = foldl PNCounter.merge c l2) /\
  (forall (s : gmap T (gset string)) l1 l2, (forall d, d ∈ l1 <-> d ∈ l2) ->
     foldl ORSet.merge s l1 = foldl ORSet.merge s l2).
Proof.
  split; [|split]; intros c l1 l2 Heq; exact (merge_all_converges c l1 l2 Heq).
Qed.

(** Replicas of the last-writer-wins engine that applied the same updates, in
    any order and with any repetitions, hold the same state, provided no two
    different values of a key share a timestamp; the entry kept for a key is an
    update with the highest timestamp. *)
Theorem lww_replicas_converge us1 us2 :
  Lww.decided us1 -> (forall u, u ∈ us1 <-> u ∈ us2) ->
  Lww.apply_entries us1 Lww.new = Lww.apply_entries us2 Lww.new /\
  forall k u, Lww.resolve_conflicts k (Lww.apply_entries us1 Lww.new) = Some u ->
    u ∈ us1 /\ Lww.key u = k /\
    forall u', u' ∈ us1 -> Lww.key u' = k -> Lww.timestamp u' <= Lww.timestamp u.
Proof.
  intros Hdec Heq. split; [by apply Lww.lww_converges|]. intros k u Hu.
  assert (Lww.get_state k (Lww.apply_entries us1 Lww.new) =
          Some (Lww.value u, Lww.timestamp u) /\ Lww.key u = k) as [Hw Hk].
  { unfold Lww.resolve_conflicts, Lww.get_state in *.
    destruct (_ !! k) as [[v t]|]; [|done]. by injection Hu as <-. }
  rewrite Lww.apply_entries_winner in Hw.
  apply Lww.winner_Some in Hw as (u' & Hin & Hk' & [= Hv Ht] & Hmax).
  split; [|split; [done|exact Hmax]].
  replace u with u'; [done|]. destruct u, u'; simpl in *; congruence.
Qed.

(** C39: In every reachable state of a group of replicas that increment their own
    entry and merge each other's counters, no replica counts more than was
    issued, and a replica that has merged every node's counter counts exactly
    what was issued, as long as the total fits in 64 bits. *)
Theorem gcounter_gossip_exact nodes s n :
  NoDup nodes -> rtc Replicas.step (Replicas.init nodes) s -> n ∈ nodes ->
  sumZ (fun m => Z.of_N (Replicas.issued_by s m)) nodes <= u64_max ->
  GCounter.value (Replicas.counter_of s n) <=
    sumZ (fun m => Z.of_N (Replicas.issued_by s m)) nodes /\
  GCounter.value (merge_all (Replicas.counter_of s n) (Replicas.counter_of s <$> nodes)) =
    sumZ (fun m => Z.of_N (Replicas.issued_by s m)) nodes.
Proof.
  intros Hnd Hr Hn Hsum. pose proof (Replicas.replicas_reachable_ok _ _ Hr) as Hok.
  assert (forall m, m ∈ nodes -> (Replicas.issued_by s m <= GCounter.u64_max)%N) as Hfit.
  { intros m Hm.
    assert (Z.of_N (Replicas.issued_by s m) <= u64_max); [|unfold GCounter.u64_max; lia].
    etransitivity; [|exact Hsum].
    apply (sumZ_elem (fun m => Z.of_N (Replicas.issued_by s m))); [done|]. intros; lia. }
  assert (0 <= sumZ (fun m => Z.of_N (Replicas.issued_by s m)) nodes) as H0.
  { apply sumZ_nonneg. intros; lia. }
  assert (forall c, dom c ⊆ list_to_set nodes ->
    (forall m, m ∈ nodes -> (GCounter.count c m <= Replicas.issued_by s m)%N) ->
    GCounter.value c = sumZ (fun m => Z.of_N (GCounter.count c m)) nodes /\
    GCounter.value c <= sumZ (fun m => Z.of_N (Replicas.issued_by s m)) nodes) as Hval.
  { intros c Hdom Hle. assert (GCounter.total c <= sumZ (fun m => Z.of_N (Replicas.issued_by s m)) nodes).
    { rewrite (GCounter.total_nodes c nodes) by done. apply sumZ_le. intros m Hm. specialize (Hle m Hm). lia. }
    rewrite <- (GCounter.total_nodes c nodes) by done. unfold GCounter.value, as_u64.
    rewrite Z.mod_small; [done|]. unfold u64_max in Hsum. split; [|lia].
    apply sumZ_nonneg. intros [??] _. lia. }
  split.
  - apply Hval; [by apply Hok|]. intros m Hm. pose proof (Replicas.ok_le _ _ Hok n m Hn).
    pose proof (Replicas.ok_own _ _ Hok m Hm). lia.
  - assert (forall m, m ∈ nodes ->
      GCounter.count (merge_all (Replicas.counter_of s n) (Replicas.counter_of s <$> nodes)) m =
      Replicas.issued_by s m) as Hc.
    { intros m Hm. rewrite (Replicas.count_all_merged nodes) by done. specialize (Hfit m Hm). lia. }
    edestruct (Hval (merge_all (Replicas.counter_of s n) (Replicas.counter_of s <$> nodes))) as [-> _].
    + apply Replicas.dom_merge_all; [by apply Hok|].
      intros d (m & -> & Hm)%list_elem_of_fmap. by apply Hok.
    + intros m Hm. by rewrite Hc.
    + apply sumZ_ext. intros m Hm. by rewrite Hc.
Qed.
