(* ===== verification/CircuitBreaker.v ===== *)
(** * CircuitBreaker: the breaker, degradation modes and retries
    ([src/src/infra/resilience/circuit_breaker.rs],
    [src/src/infra/resilience/degradation.rs], [src/src/infra/retry.rs])

    The breaker's state sits behind a mutex that [call] takes three times, so
    calls interleave: [step] has one rule per critical section, and the
    invariant is proved over all interleavings.  An [Instant] is a number of
    nanoseconds. *)
From Stdlib Require Import ZArith Lia.
From stdpp Require Import base tactics numbers list gmap relations.
From S2P Require Import Prelude.

Module CircuitBreaker.

Inductive State : Set := Closed | Open | HalfOpen.
#[global] Instance State_eq_dec : EqDecision State.
Proof. solve_decision. Defined.

Record Inner := mk_inner {
  state : State;
  failure_count : Z;
  success_count : Z;
  failure_threshold : Z;
  success_threshold : Z;
  cooldown : Z;
  opened_at : option Z }.

Definition new (failure_threshold success_threshold cooldown : Z) : Inner :=
  mk_inner Closed 0 0 failure_threshold success_threshold cooldown None.

(** [Default]: 5 failures, 3 successes, 30 seconds. *)
Definition default_breaker : Inner := new 5 3 (30 * 10 ^ 9).

Definition set_counts (s : State) (f c : Z) (o : option Z) (i : Inner) : Inner :=
  mk_inner s f c (failure_threshold i) (success_threshold i) (cooldown i) o.

Definition record_success (i : Inner) : Inner :=
  match state i with
  | Closed => set_counts Closed 0 (success_count i) (opened_at i) i
  | HalfOpen =>
      if success_threshold i <=? success_count i + 1
      then set_counts Closed 0 0 None i
      else set_counts HalfOpen (failure_count i) (success_count i + 1) (opened_at i) i
  | Open => set_counts Closed 0 0 None i
  end.

Definition record_failure (now : Z) (i : Inner) : Inner :=
  match state i with
  | Closed =>
      if failure_threshold i <=? failure_count i + 1
      then set_counts Open (failure_count i + 1) (success_count i) (Some now) i
      else set_counts Closed (failure_count i + 1) (success_count i) (opened_at i) i
  | HalfOpen => set_counts Open (failure_count i) 0 (Some now) i
  | Open => set_counts Open (failure_count i) (success_count i) (Some now) i
  end.

Definition reset (i : Inner) : Inner := set_counts Closed 0 0 None i.

(** The critical section of [call] when it has read [Open]: [None] is the
    rejection.  [elapsed] is the saturating difference of two instants. *)
Definition probe (now : Z) (i : Inner) : option Inner :=
  match opened_at i with
  | Some t =>
      if cooldown i <=? saturating_sub now t
      then Some (set_counts HalfOpen (failure_count i) 0 (opened_at i) i)
      else None
  | None => None
  end.

Inductive CallResult : Set := Done | Failed | Rejected.

(** [call] with nobody else around: [f] says whether the closure succeeds, the
    clock is read at [now] and again at [later] when a failure is recorded. *)
Definition call (f : bool) (now later : Z) (i : Inner) : CallResult * Inner :=
  let run i := if f then (Done, record_success i) else (Failed, record_failure later i) in
  match state i with
  | Open => match probe now i with Some i => run i | None => (Rejected, i) end
  | HalfOpen | Closed => run i
  end.

(** ** Interleaved calls *)

(** Where a call is: it has read the state, or its closure runs. *)
Inductive pc : Set := Checked (s : State) | Running.

Record world := mk_world {
  inner : Inner;
  clock : Z;
  calls : gmap nat pc }.

(** What happens in a step. *)
Inductive event : Set := Check | Pass | Probe | Reject | Success | Failure | Reset | Tick.
#[global] Instance event_eq_dec : EqDecision event.
Proof. solve_decision. Defined.

Inductive step (w : world) : event -> world -> Prop :=
| step_check id :
    calls w !! id = None ->
    step w Check (mk_world (inner w) (clock w) (<[id := Checked (state (inner w))]> (calls w)))
| step_pass id s :
    calls w !! id = Some (Checked s) -> s <> Open ->
    step w Pass (mk_world (inner w) (clock w) (<[id := Running]> (calls w)))
| step_probe id i :
    calls w !! id = Some (Checked Open) -> probe (clock w) (inner w) = Some i ->
    step w Probe (mk_world i (clock w) (<[id := Running]> (calls w)))
| step_reject id :
    calls w !! id = Some (Checked Open) -> probe (clock w) (inner w) = None ->
    step w Reject (mk_world (inner w) (clock w) (delete id (calls w)))
| step_success id :
    calls w !! id = Some Running ->
    step w Success (mk_world (record_success (inner w)) (clock w) (delete id (calls w)))
| step_failure id :
    calls w !! id = Some Running ->
    step w Failure (mk_world (record_failure (clock w) (inner w)) (clock w) (delete id (calls w)))
| step_reset :
    step w Reset (mk_world (reset (inner w)) (clock w) (calls w))
| step_tick t :
    clock w <= t -> step w Tick (mk_world (inner w) t (calls w)).

(** An interleaving: the events of a sequence of steps, in order. *)
Inductive run (w : world) : list event -> world -> Prop :=
| run_nil : run w [] w
| run_snoc es w1 e w2 : run w es w1 -> step w1 e w2 -> run w (es ++ [e]) w2.

Definition start (ft st cd : Z) : world := mk_world (new ft st cd) 0 ∅.

(** The invariant of the shared state.  The counters stay below the
    thresholds, so their [u64] increments cannot overflow; the cooldown clock
    runs exactly when the breaker is not closed. *)
Record ok (i : Inner) (now : Z) : Prop := mk_ok {
  ok_thresholds : 0 <= failure_threshold i <= u64_max /\ 0 <= success_threshold i <= u64_max;
  ok_failures : 0 <= failure_count i <= Z.max 1 (failure_threshold i);
  ok_failures_closed : state i = Closed ->
    failure_count i = 0 \/ failure_count i < failure_threshold i;
  ok_successes : success_count i = 0 \/
    state i = HalfOpen /\ 0 < success_count i < success_threshold i;
  ok_clock : match opened_at i with
    | None => state i = Closed
    | Some t => state i <> Closed /\ t <= now
    end }.

Lemma breaker_new_ok ft st cd now :
  0 <= ft <= u64_max -> 0 <= st <= u64_max -> ok (new ft st cd) now.
Proof. intros. split; simpl; try lia; auto. Qed.

Ltac breaker_cases i :=
  destruct i as [s fc sc ft st cd o]; destruct s; simpl in *;
  repeat case_cond; simpl in *.

Lemma record_success_ok i now : ok i now -> ok (record_success i) now.
Proof.
  intros [Ht Hf Hc Hs Ho]. unfold record_success, set_counts.
  breaker_cases i; split; simpl; intros; try done; try lia; try naive_solver lia.
Qed.

Lemma record_failure_ok i now : ok i now -> ok (record_failure now i) now.
Proof.
  intros [Ht Hf Hc Hs Ho]. unfold record_failure, set_counts.
  breaker_cases i; split; simpl; intros; try done; try lia; try naive_solver lia.
Qed.

Lemma probe_ok i now i' : ok i now -> probe now i = Some i' -> ok i' now.
Proof.
  intros [Ht Hf Hc Hs Ho]. unfold probe, set_counts.
  destruct (opened_at i) as [t|] eqn:E; [|done]. case_cond; [|done]. intros [= <-].
  split; simpl; try done; try lia; naive_solver.
Qed.

Lemma reset_ok i now : ok i now -> ok (reset i) now.
Proof. intros [Ht ?]. split; simpl; try done; try lia; auto. Qed.

Lemma ok_later i now now' : now <= now' -> ok i now -> ok i now'.
Proof.
  intros Hle [? ? ? ? Ho]. split; try done. destruct (opened_at i); [|done]. split; [apply Ho|].
  destruct Ho. lia.
Qed.
#[export] Hint Resolve record_success_ok record_failure_ok probe_ok reset_ok ok_later : apex.

Lemma breaker_step_ok w e w' : ok (inner w) (clock w) -> step w e w' -> ok (inner w') (clock w').
Proof. intros Hok []; simpl; eauto with apex. Qed.

Lemma breaker_run_ok w es w' : ok (inner w) (clock w) -> run w es w' -> ok (inner w') (clock w').
Proof. intros Hok Hr. induction Hr; eauto using breaker_step_ok. Qed.

Lemma breaker_reachable_ok ft st cd es w :
  0 <= ft <= u64_max -> 0 <= st <= u64_max -> run (start ft st cd) es w -> ok (inner w) (clock w).
Proof. intros Hft Hst. apply breaker_run_ok. by apply breaker_new_ok. Qed.

Lemma run_app w es1 w1 es2 w2 : run w es1 w1 -> run w1 es2 w2 -> run w (es1 ++ es2) w2.
Proof.
  intros Hr1 Hr2. induction Hr2 as [|es w2 e w3 _ IH Hs]; [by rewrite app_nil_r|].
  rewrite app_assoc. by eapply run_snoc.
Qed.
Lemma run_one w e w' : step w e w' -> run w [e] w'.
Proof. intros Hs. apply (run_snoc w [] w e w'); [constructor|done]. Qed.

Lemma run_l w e w1 es w2 : step w e w1 -> run w1 es w2 -> run w (e :: es) w2.
Proof. intros Hs Hr. exact (run_app w [e] w1 es w2 (run_one _ _ _ Hs) Hr). Qed.

(** ** Recovery under interleaving *)

Definition count (e : event) (es : list event) : Z := len (filter (eq e) es).

Lemma count_snoc e es e' : count e (es ++ [e']) = count e es + if decide (e = e') then 1 else 0.
Proof. unfold count. rewrite filter_app, len_app, filter_cons, filter_nil. by case_decide. Qed.

(** Without failures, either the breaker has closed or the successes so far are
    accounted for: every probe restarts the count, which stays below the
    threshold. *)
Definition accounted (st n p : Z) (i : Inner) : Prop :=
  success_threshold i = st /\ (state i = Closed \/ n <= p * (Z.max 1 st - 1) + success_count i).

Lemma accounted_success st n p i : accounted st n p i -> accounted st (n + 1) p (record_success i).
Proof.
  unfold accounted, record_success, set_counts. intros [<- Hc].
  breaker_cases i; (split; [done|]); first [by left|right; destruct Hc; [done|lia]].
Qed.

Lemma ok_successes_below i now : ok i now -> 0 <= success_count i <= Z.max 1 (success_threshold i) - 1.
Proof. intros Hok. destruct (ok_successes _ _ Hok) as [->|[_ ?]]; lia. Qed.

Lemma accounted_probe st n p i now i' :
  ok i now -> accounted st n p i -> probe now i = Some i' -> accounted st n (p + 1) i'.
Proof.
  intros Hok [Hst Hc] Hp. pose proof (ok_clock _ _ Hok) as Ho. pose proof (ok_successes_below _ _ Hok).
  revert Hp. unfold probe. destruct (opened_at i) as [o|]; [|done]. case_cond; [|done]. intros [= <-].
  split; [done|]. destruct Hc as [Hc|Hc]; [by destruct Ho|]. right. simpl. subst st. lia.
Qed.

Lemma run_accounted w es w' :
  ok (inner w) (clock w) -> run w es w' -> Failure ∉ es ->
  accounted (success_threshold (inner w)) (count Success es) (count Probe es) (inner w').
Proof.
  intros Hok Hr. induction Hr as [|es w1 e w2 Hr IH Hs]; intros Hnf.
  { split; [done|]. right. pose proof (ok_successes_below _ _ Hok). unfold count. rewrite !filter_nil, len_nil. lia. }
  pose proof (breaker_run_ok _ _ _ Hok Hr) as Hok1. rewrite !count_snoc.
  specialize (IH ltac:(set_solver)). destruct Hs; simpl; rewrite ?Z.add_0_r; try done.
  - by eapply accounted_probe.
  - by apply accounted_success.
  - exfalso. set_solver.
  - split; [apply IH|by left].
Qed.

Lemma run_closes w es w' :
  ok (inner w) (clock w) -> run w es w' -> Failure ∉ es ->
  (count Probe es + 1) * (Z.max 1 (success_threshold (inner w)) - 1) < count Success es ->
  state (inner w') = Closed.
Proof.
  intros Hok Hr Hnf Hn. destruct (run_accounted _ _ _ Hok Hr Hnf) as [Hst [Hc|Hc]]; [done|].
  pose proof (ok_successes_below _ _ (breaker_run_ok _ _ _ Hok Hr)) as Hsc. rewrite Hst in Hsc. lia.
Qed.

(** ** Sequences of calls *)

(** One call after the other; a call is the outcome of its closure and its two
    clock readings. *)
Fixpoint run_calls (cs : list (bool * Z * Z)) (i : Inner) : list CallResult * Inner :=
  match cs with
  | [] => ([], i)
  | (f, now, later) :: cs =>
      let '(r, i) := call f now later i in
      let '(rs, i) := run_calls cs i in (r :: rs, i)
  end.

Lemma run_calls_cons f now later cs i :
  run_calls ((f, now, later) :: cs) i =
  ((call f now later i).1 :: (run_calls cs (call f now later i).2).1,
   (run_calls cs (call f now later i).2).2).
Proof. simpl. destruct (call _ _ _ _) as [r i']. simpl. by destruct (run_calls cs i'). Qed.

Lemma closed_stays_closed cs i :
  state i = Closed -> Forall (fun c => c.1.1 = true) cs ->
  Forall (eq Done) (run_calls cs i).1 /\ state (run_calls cs i).2 = Closed.
Proof.
  revert i. induction cs as [|[[f now] later] cs IH]; intros i Hs Hf; [done|].
  inversion Hf as [|?? Hf1 Hf2]; subst. simpl in Hf1. subst f. rewrite run_calls_cons.
  unfold call. rewrite Hs. simpl. unfold record_success. rewrite Hs. simpl.
  split; [constructor; [done|]|]; by apply IH.
Qed.

Lemma half_open_closes cs i :
  state i = HalfOpen -> Forall (fun c => c.1.1 = true) cs ->
  1 <= len cs -> success_threshold i - success_count i <= len cs ->
  Forall (eq Done) (run_calls cs i).1 /\ state (run_calls cs i).2 = Closed.
Proof.
  revert i. induction cs as [|[[f now] later] cs IH]; intros i Hs Hf H1 Hn; [by len_lia|].
  inversion Hf as [|?? Hf1 Hf2]; subst. simpl in Hf1. subst f. rewrite run_calls_cons.
  unfold call. rewrite Hs. simpl. unfold record_success. rewrite Hs. case_cond; simpl.
  - split; [constructor; [done|]|]; by apply closed_stays_closed.
  - split; [constructor; [done|]|]; apply IH; simpl; try done; len_lia.
Qed.

(** The cooldown of an open breaker is over at time [t]. *)
Definition cooled (i : Inner) (t : Z) : Prop :=
  match opened_at i with Some o => o + cooldown i <= t | None => True end.

Lemma recovers cs i now :
  ok i now -> Forall (fun c => c.1.1 = true /\ cooled i c.1.2) cs ->
  Z.max 1 (success_threshold i) <= len cs ->
  Forall (eq Done) (run_calls cs i).1 /\ state (run_calls cs i).2 = Closed.
Proof.
  intros Hok Hcs Hn. assert (Forall (fun c => c.1.1 = true) cs) as Hf.
  { eapply Forall_impl; [exact Hcs|]. naive_solver. }
  destruct (state i) eqn:Hs; [by apply closed_stays_closed| |].
  - destruct cs as [|[[f t] later] cs]; [len_lia|]. apply Forall_cons in Hcs as [[Hft Hc] Hcs'].
    apply Forall_cons in Hf as [_ Hf']. simpl in Hft. subst f. rewrite run_calls_cons. unfold call. rewrite Hs.
    unfold probe. unfold cooled in Hc. simpl in Hc. pose proof (ok_clock _ _ Hok) as Ho.
    destruct (opened_at i) as [o|]; [|congruence].
    unfold saturating_sub. case_cond; [|lia]. unfold record_success. simpl.
    case_cond; simpl.
    + split; [constructor; [done|]|]; by apply closed_stays_closed.
    + split; [constructor; [done|]|]; apply half_open_closes; simpl; try done; len_lia.
  - apply half_open_closes; try done; [lia|].
    destruct (ok_successes _ _ Hok) as [->|[_ ?]]; lia.
Qed.

(** A call whose steps follow one another is [call]: the call is new, the others
    wait where they are. *)
Definition outcome_of (r : CallResult) : event :=
  match r with Done => Success | Failed => Failure | Rejected => Reject end.

Lemma call_runs f now later w :
  clock w <= now <= later ->
  exists es w', run w es w' /\ inner w' = (call f now later (inner w)).2 /\
    calls w' = calls w /\ clock w' = later /\
    filter (fun e => e ∈ [Success; Failure; Reject]) es = [outcome_of (call f now later (inner w)).1].
Proof.
  intros Hclk. set (id := fresh (dom (calls w))).
  assert (calls w !! id = None) as Hid by (apply not_elem_of_dom, is_fresh).
  set (w0 := mk_world (inner w) now (<[id := Checked (state (inner w))]> (calls w))).
  assert (run w [Tick; Check] w0) as H0.
  { eapply (run_snoc w [Tick]); [apply run_one, (step_tick w now); lia|]. by apply (step_check (mk_world _ now _)). }
  assert (forall i, let w1 := mk_world i now (<[id := Running]> (calls w)) in
    exists w', run w1 [Tick; if f then Success else Failure] w' /\
      inner w' = (if f then record_success i else record_failure later i) /\ calls w' = calls w /\ clock w' = later) as Hrun.
  { intros i w1. set (w2 := mk_world i later (<[id := Running]> (calls w))).
    assert (run w1 [Tick] w2) as H2 by (apply run_one, (step_tick w1 later); simpl; lia).
    assert (calls w2 !! id = Some Running) as Hr by apply lookup_insert_eq.
    assert (delete id (<[id := Running]> (calls w)) = calls w) as Hdel by (by apply delete_insert_id).
    destruct f; eexists; (split; [apply (run_snoc _ [Tick] w2); [done|by constructor]|]); by simpl. }
  unfold call. destruct (state (inner w)) eqn:Es.
  - destruct (Hrun (inner w)) as (w' & Hr & Hi & Hc & Ht).
    exists (([Tick; Check] ++ [Pass]) ++ [Tick; if f then Success else Failure]), w'.
    split; [|by destruct f]. eapply run_app; [|exact Hr]. eapply run_snoc; [exact H0|].
    replace (<[id := Running]> (calls w)) with (<[id := Running]> (calls w0)) by apply insert_insert_eq.
    eapply (step_pass w0); [apply lookup_insert_eq|by rewrite ?Es].
  - destruct (probe now (inner w)) as [i|] eqn:Ep.
    + destruct (Hrun i) as (w' & Hr & Hi & Hc & Ht).
      exists (([Tick; Check] ++ [Probe]) ++ [Tick; if f then Success else Failure]), w'.
      split; [|by destruct f]. eapply run_app; [|exact Hr]. eapply run_snoc; [exact H0|].
      replace (<[id := Running]> (calls w)) with (<[id := Running]> (calls w0)) by apply insert_insert_eq.
      eapply (step_probe w0); [cbn; rewrite lookup_insert_eq; by rewrite ?Es|done].
    + eexists (([Tick; Check] ++ [Reject]) ++ [Tick]), (mk_world (inner w) later (calls w)). split; [|done].
      eapply run_app; [|apply run_one, (step_tick (mk_world (inner w) now (calls w))); simpl; lia].
      eapply run_snoc; [exact H0|].
      replace (calls w) with (delete id (calls w0)) by (by apply delete_insert_id).
      eapply (step_reject w0); [cbn; rewrite lookup_insert_eq; by rewrite ?Es|done].
  - destruct (Hrun (inner w)) as (w' & Hr & Hi & Hc & Ht).
    exists (([Tick; Check] ++ [Pass]) ++ [Tick; if f then Success else Failure]), w'.
    split; [|by destruct f]. eapply run_app; [|exact Hr]. eapply run_snoc; [exact H0|].
    replace (<[id := Running]> (calls w)) with (<[id := Running]> (calls w0)) by apply insert_insert_eq.
    eapply (step_pass w0); [apply lookup_insert_eq|by rewrite ?Es].
Qed.

(** The clock readings of calls made one after another, from time [t] on. *)
Fixpoint in_order (t : Z) (cs : list (bool * Z * Z)) : Prop :=
  match cs with
  | [] => True
  | (_, now, later) :: cs => t <= now <= later /\ in_order later cs
  end.

Lemma calls_run cs w :
  in_order (clock w) cs ->
  exists es w', run w es w' /\ inner w' = (run_calls cs (inner w)).2 /\ calls w' = calls w /\
    filter (fun e => e ∈ [Success; Failure; Reject]) es = outcome_of <$> (run_calls cs (inner w)).1.
Proof.
  revert w. induction cs as [|[[f now] later] cs IH]; intros w; [by exists [], w; repeat split; constructor|].
  intros [Hclk Ho]. destruct (call_runs f now later w Hclk) as (es1 & w1 & Hr1 & Hi1 & Hc1 & Ht1 & Hf1).
  rewrite <- Ht1 in Ho. destruct (IH w1 Ho) as (es2 & w2 & Hr2 & Hi2 & Hc2 & Hf2).
  exists (es1 ++ es2), w2. rewrite run_calls_cons, <- Hi1. split_and!; [by eapply run_app|done|congruence|].
  by rewrite filter_app, Hf1, Hf2.
Qed.

Lemma run_calls_length cs i : length (run_calls cs i).1 = length cs.
Proof.
  revert i. induction cs as [|[[f now] later] cs IH]; intros i; [done|].
  rewrite run_calls_cons. simpl. by rewrite IH.
Qed.

Lemma all_succeed cs i :
  Forall (eq Done) (run_calls cs i).1 -> outcome_of <$> (run_calls cs i).1 = replicate (length cs) Success.
Proof.
  rewrite <- (run_calls_length cs i). induction 1 as [|r rs <- _ IH]; [done|]. simpl. by f_equal.
Qed.

(** ** When the breaker opens *)

(** [n] failures in a row somewhere in a list of outcomes. *)
Definition consecutive_failures (n : nat) (fs : list bool) : Prop :=
  exists i, forall j, (j < n)%nat -> fs !! (i + j)%nat = Some false.

Lemma failures_after_success n k fs :
  (k < n)%nat ->
  consecutive_failures n (replicate k false ++ true :: fs) <-> consecutive_failures n fs.
Proof.
  intros Hk. unfold consecutive_failures. split.
  - intros [i Hi]. destruct (decide (i <= k)%nat) as [Hle|Hgt].
    + specialize (Hi (k - i)%nat). replace (i + (k - i))%nat with k in Hi by lia.
      rewrite lookup_app_r, length_replicate, Nat.sub_diag in Hi by (rewrite length_replicate; lia).
      simpl in Hi. assert (k - i < n)%nat as Hlt by lia. by specialize (Hi Hlt).
    + exists (i - S k)%nat. intros j Hj. specialize (Hi j Hj).
      rewrite lookup_app_r, length_replicate in Hi by (rewrite length_replicate; lia).
      replace (i + j - k)%nat with (S (i - S k + j)) in Hi by lia. done.
  - intros [i Hi]. exists (S k + i)%nat. intros j Hj.
    rewrite lookup_app_r, length_replicate by (rewrite length_replicate; lia).
    replace (S k + i + j - k)%nat with (S (i + j)) by lia. simpl. auto.
Qed.

Lemma no_failures n k : (k < n)%nat -> ~ consecutive_failures n (replicate k false).
Proof.
  intros Hk [i Hi]. specialize (Hi (n - 1)%nat ltac:(lia)).
  apply lookup_lt_Some in Hi. rewrite length_replicate in Hi. lia.
Qed.

(** No cooldown ends between two of the calls. *)
Definition within_cooldown (cd : Z) (cs : list (bool * Z * Z)) : Prop :=
  forall c1 c2, c1 ∈ cs -> c2 ∈ cs -> c2.1.2 < c1.2 + cd.

Lemma open_stays_open cs i o :
  0 < cooldown i -> state i = Open -> opened_at i = Some o ->
  (forall c, c ∈ cs -> c.1.2 < o + cooldown i) ->
  (run_calls cs i).2 = i.
Proof.
  intros Hcd Hs Ho. induction cs as [|[[f now] later] cs IH]; intros Hcs; [done|].
  rewrite run_calls_cons. unfold call, probe. rewrite Hs, Ho. unfold saturating_sub.
  pose proof (Hcs (f, now, later) ltac:(by left)) as Hlt. simpl in Hlt.
  case_cond; [lia|]. simpl. apply IH. intros; apply Hcs; by right.
Qed.

Lemma opens_iff cs i k :
  0 < cooldown i -> 0 < failure_threshold i -> within_cooldown (cooldown i) cs ->
  state i = Closed -> failure_count i = Z.of_nat k -> failure_count i < failure_threshold i ->
  state (run_calls cs i).2 = Open <->
  consecutive_failures (Z.to_nat (failure_threshold i)) (replicate k false ++ cs.*1.*1).
Proof.
  revert i k. induction cs as [|[[f now] later] cs IH]; intros i k Hcd Hft Hw Hs Hk Hlt.
  { simpl. rewrite app_nil_r, Hs. split; [done|]. intros []%no_failures. lia. }
  assert (within_cooldown (cooldown i) cs) as Hw'.
  { intros c1 c2 ??. apply Hw; by right. }
  rewrite run_calls_cons. unfold call. rewrite Hs. simpl. destruct f; simpl.
  - rewrite failures_after_success by lia. unfold record_success. rewrite Hs.
    rewrite (IH _ 0%nat); simpl; try done.
  - unfold record_failure. rewrite Hs.
    rewrite cons_middle, app_assoc, <- replicate_cons_app.
    change (false :: replicate k false) with (replicate (S k) false).
    case_cond.
    + rewrite (open_stays_open _ _ later); [|done..|].
      * split; [|done]. intros _. exists 0%nat. intros j Hj.
        rewrite lookup_app_l by (rewrite length_replicate; lia).
        apply lookup_replicate_2. lia.
      * intros c Hc. apply (Hw (false, now, later) c); [by left|by right].
    + rewrite (IH _ (S k)); [done..| |]; simpl; lia.
Qed.
End CircuitBreaker.

(** ** Degradation modes *)

Module Degradation.

Inductive DegradationMode : Set := Normal | ReadOnly | Degraded.
#[global] Instance DegradationMode_eq_dec : EqDecision DegradationMode.
Proof. solve_decision. Defined.

(** The manager is its current mode; [set_mode] replaces it. *)
Definition set_mode (mode current : DegradationMode) : DegradationMode := mode.

Definition is_read_only (current : DegradationMode) : bool := bool_decide (current = ReadOnly).
Definition is_degraded (current : DegradationMode) : bool := bool_decide (current = Degraded).

(** [Err] of the source carries a text; here [false]. *)
Definition check_write_allowed (current : DegradationMode) : bool :=
  match current with
  | Normal | Degraded => true
  | ReadOnly => false
  end.

Lemma check_write_allowed_spec m : check_write_allowed m = negb (is_read_only m).
Proof. by destruct m. Qed.
End Degradation.

(** ** Retries with exponential backoff *)

Module Retry.

Record RetryConfig := mk_config {
  max_retries : Z;
  base_delay_ms : Z;
  max_delay_ms : Z;
  jitter : bool }.

Definition default_config : RetryConfig := mk_config 3 50 5000 true.

(** [base.saturating_mul(1u64 << attempt)], capped.  In the release profile
    the shift uses the low six bits of its amount (with overflow checks it
    panics from attempt 64 on). *)
Definition delay_ms (c : RetryConfig) (attempt : Z) : Z :=
  Z.min (Z.min u64_max (base_delay_ms c * Z.shiftl 1 (Z.land attempt 63))) (max_delay_ms c).

(** The range [min..=max] the random delay is drawn from. *)
Definition jitter_range (delay : Z) : Z * Z :=
  (saturating_sub delay (delay / 2), saturating_add u64_max delay (delay / 2)).

(** [draw attempt min max] is what the random generator returns. *)
Definition actual_delay_ms (draw : Z -> Z -> Z -> Z) (c : RetryConfig) (attempt : Z) : Z :=
  let delay := delay_ms c attempt in
  if jitter c then draw attempt (jitter_range delay).1 (jitter_range delay).2 else delay.

(** The loop from [attempt] on, [rest] being the attempts that may still
    follow it; the delays slept are returned too. *)
Fixpoint retry_from {T E} (draw : Z -> Z -> Z -> Z) (c : RetryConfig) (f : Z -> T + E)
    (attempt : Z) (rest : nat) : (T + E) * list Z :=
  match f attempt with
  | inl value => (inl value, [])
  | inr e =>
      match rest with
      | O => (inr e, [])
      | S rest =>
          let '(r, ds) := retry_from draw c f (attempt + 1) rest in
          (r, actual_delay_ms draw c attempt :: ds)
      end
  end.

Definition retry_with_backoff {T E} draw (c : RetryConfig) (f : Z -> T + E) : (T + E) * list Z :=
  retry_from draw c f 0 (Z.to_nat (max_retries c)).

Definition is_err {T E} (r : T + E) : Prop := match r with inl _ => False | inr _ => True end.

Lemma retry_from_spec {T E} draw c (f : Z -> T + E) attempt rest :
  exists k : nat, (k <= rest)%nat /\
    (retry_from draw c f attempt rest).1 = f (attempt + Z.of_nat k) /\
    (retry_from draw c f attempt rest).2 =
      (fun j => actual_delay_ms draw c (attempt + Z.of_nat j)) <$> seq 0 k /\
    (forall j : nat, (j < k)%nat -> is_err (f (attempt + Z.of_nat j))) /\
    (k = rest \/ ~ is_err (f (attempt + Z.of_nat k))).
Proof.
  revert attempt. induction rest as [|rest IH]; intros attempt; simpl.
  - exists 0%nat. rewrite Z.add_0_r. destruct (f attempt) eqn:E0; simpl; repeat split; auto; lia.
  - destruct (f attempt) as [v|e] eqn:E0; simpl.
    + exists 0%nat. rewrite Z.add_0_r, E0. simpl. repeat split; auto; lia.
    + destruct (IH (attempt + 1)) as (k & Hk & Hr & Hd & He & Hend).
      destruct (retry_from draw c f (attempt + 1) rest) as [r ds]. simpl in *.
      assert (forall j : nat, attempt + Z.of_nat (S j) = attempt + 1 + Z.of_nat j) as Hs by lia.
      exists (S k). rewrite Hs. split; [lia|]. split; [done|]. split; [|split].
      * change (seq 0 (S k)) with (0%nat :: seq 1 k). rewrite fmap_cons, Z.add_0_r, Hd. f_equal. rewrite <- fmap_S_seq, <- list_fmap_compose.
        apply list_fmap_ext. intros ? j _. simpl. by rewrite <- Hs.
      * intros [|j] Hj; [by rewrite Z.add_0_r, E0|]. rewrite Hs. apply He. lia.
      * destruct Hend; [left; lia|by right].
Qed.

Lemma delay_bound draw c attempt :
  0 <= base_delay_ms c -> 0 <= max_delay_ms c <= u64_max ->
  (forall a lo hi, lo <= hi -> lo <= draw a lo hi <= hi) ->
  0 <= actual_delay_ms draw c attempt <= max_delay_ms c + max_delay_ms c / 2.
Proof.
  intros Hb Hm Hdraw. unfold actual_delay_ms.
  assert (0 <= delay_ms c attempt <= max_delay_ms c) as Hd.
  { unfold delay_ms. assert (0 <= Z.shiftl 1 (Z.land attempt 63)).
    { apply Z.shiftl_nonneg. lia. }
    unfold u64_max in *. nia. }
  set (d := delay_ms c attempt) in *. assert (d / 2 <= max_delay_ms c / 2).
  { apply Z.div_le_mono; lia. }
  assert (0 <= d / 2 <= d) by (split; [apply Z.div_pos; lia|apply Z.div_le_upper_bound; lia]).
  destruct (jitter c); [|lia].
  unfold jitter_range, saturating_sub, saturating_add, u64_max in *. simpl.
  edestruct (Hdraw attempt (Z.max 0 (d - d / 2)) (Z.min 18446744073709551615 (d + d / 2))); lia.
Qed.
End Retry.

(** ** What callers can rely on *)

(** C33: Under every interleaving of calls, resets and the passing of time, the
    breaker's shared state stays well formed: the cooldown clock is set exactly
    when the breaker is not closed, a closed breaker has fewer failures than the
    threshold, and no counter increment can overflow its 64 bits. *)
Theorem breaker_interleavings_safe ft st cd es w :
  0 <= ft <= u64_max -> 0 <= st <= u64_max ->
  CircuitBreaker.run (CircuitBreaker.start ft st cd) es w ->
  CircuitBreaker.ok (CircuitBreaker.inner w) (CircuitBreaker.clock w) /\
  (CircuitBreaker.state (CircuitBreaker.inner w) = CircuitBreaker.Closed ->
     CircuitBreaker.failure_count (CircuitBreaker.inner w) + 1 <= u64_max) /\
  CircuitBreaker.success_count (CircuitBreaker.inner w) + 1 <= u64_max.
Proof.
  intros Hft Hst Hr. pose proof (CircuitBreaker.breaker_reachable_ok _ _ _ _ _ Hft Hst Hr) as Hok.
  split; [done|]. destruct Hok as [[Ht1 Ht2] Hf Hc Hs _]. unfold u64_max in *.
  split; [intros Hcl; destruct (Hc Hcl)|destruct Hs as [|[]]]; lia.
Qed.

(** C32: A breaker in any reachable state, with any calls in flight, recovers
    when the protected operation works again.  However calls interleave from
    there on, once they have succeeded more than [(p + 1) * (m - 1)] times
    without a failure, where [m] is the success threshold (at least one) and
    [p] the number of probes let through meanwhile (each of them restarts the
    count), the breaker is closed.  And when the cooldown is over, [m] or more
    successful calls made one after another, while the calls in flight wait,
    are all let through and leave it closed; the steps they take are a run of
    the interleaving semantics. *)
Theorem breaker_recovers ft st cd es w :
  0 <= ft <= u64_max -> 0 <= st <= u64_max ->
  CircuitBreaker.run (CircuitBreaker.start ft st cd) es w ->
  let m := Z.max 1 (CircuitBreaker.success_threshold (CircuitBreaker.inner w)) in
  (forall es' w', CircuitBreaker.run w es' w' -> CircuitBreaker.Failure ∉ es' ->
     (CircuitBreaker.count CircuitBreaker.Probe es' + 1) * (m - 1)
       < CircuitBreaker.count CircuitBreaker.Success es' ->
     CircuitBreaker.state (CircuitBreaker.inner w') = CircuitBreaker.Closed) /\
  (forall cs, CircuitBreaker.in_order (CircuitBreaker.clock w) cs ->
     Forall (fun c => c.1.1 = true /\ CircuitBreaker.cooled (CircuitBreaker.inner w) c.1.2) cs ->
     m <= len cs ->
     exists es' w', CircuitBreaker.run w es' w' /\
       CircuitBreaker.inner w' = (CircuitBreaker.run_calls cs (CircuitBreaker.inner w)).2 /\
       CircuitBreaker.calls w' = CircuitBreaker.calls w /\
       filter (fun e => e ∈ [CircuitBreaker.Success; CircuitBreaker.Failure; CircuitBreaker.Reject]) es'
         = replicate (length cs) CircuitBreaker.Success /\
       CircuitBreaker.state (CircuitBreaker.inner w') = CircuitBreaker.Closed).
Proof.
  intros Hft Hst Hr m. pose proof (CircuitBreaker.breaker_reachable_ok _ _ _ _ _ Hft Hst Hr) as Hok. split.
  - intros es' w' Hr' Hnf Hn. by eapply CircuitBreaker.run_closes.
  - intros cs Ho Hcs Hn. destruct (CircuitBreaker.recovers cs _ _ Hok Hcs Hn) as [Hdone Hcl].
    destruct (CircuitBreaker.calls_run cs w Ho) as (es' & w' & Hr' & Hi & Hc & Hf).
    exists es', w'. rewrite Hf, Hi. split_and!; try done. by apply CircuitBreaker.all_succeed.
Qed.

(** A new breaker opens exactly when the threshold's number of calls fails in
    a row: after calls none of which comes later than a cooldown after another,
    it is open if and only if the outcomes contain that run of failures. *)
Theorem breaker_opens_on_consecutive_failures ft st cd cs :
  0 < ft -> 0 < cd -> CircuitBreaker.within_cooldown cd cs ->
  CircuitBreaker.state (CircuitBreaker.run_calls cs (CircuitBreaker.new ft st cd)).2 =
    CircuitBreaker.Open <->
  CircuitBreaker.consecutive_failures (Z.to_nat ft) cs.*1.*1.
Proof.
  intros Hft Hcd Hw.
  apply (CircuitBreaker.opens_iff cs (CircuitBreaker.new ft st cd) 0); simpl; done || lia.
Qed.

Import Retry.

(** A retried operation is attempted until its first success or
    [max_retries + 1] times; the result is that of the last attempt, all earlier
    attempts failed, one delay is slept between two attempts, and no delay
    exceeds one and a half times the configured maximum. *)
Theorem retry_bounded {T E} draw c (f : Z -> T + E) :
  0 <= max_retries c -> 0 <= base_delay_ms c -> 0 <= max_delay_ms c <= u64_max ->
  (forall a lo hi, lo <= hi -> lo <= draw a lo hi <= hi) ->
  exists k : nat, Z.of_nat k <= max_retries c /\
    (retry_with_backoff draw c f).1 = f (Z.of_nat k) /\
    (forall j : nat, (j < k)%nat -> is_err (f (Z.of_nat j))) /\
    (Z.of_nat k = max_retries c \/ ~ is_err (f (Z.of_nat k))) /\
    length (retry_with_backoff draw c f).2 = k /\
    Forall (fun d => 0 <= d <= max_delay_ms c + max_delay_ms c / 2) (retry_with_backoff draw c f).2.
Proof.
  intros Hr Hb Hm Hdraw. unfold retry_with_backoff.
  destruct (retry_from_spec draw c f 0 (Z.to_nat (max_retries c))) as (k & Hk & H1 & H2 & He & Hend).
  rewrite Z.add_0_l in *. exists k. rewrite H1, H2. repeat split; [lia|..].
  - intros j Hj. apply He. lia.
  - destruct Hend; [left; lia|by right].
  - by rewrite length_fmap, length_seq.
  - apply Forall_fmap, Forall_forall. intros j _. simpl. by apply delay_bound.
Qed.
