(* ===== verification/RateLimiter.v ===== *)
(** * RateLimiter: requests per client and route ([src/src/api/rate_limiter.rs])

    Accepted requests are kept per client address in sixteen shards, pruned
    lazily.  The reference keeps every accepted request for ever and counts those
    of the last minute; the theorem is that both take the same decisions.  An
    [Instant] is a number of nanoseconds; the address type and its hash are
    arguments. *)
From Stdlib Require Import ZArith Lia.
From stdpp Require Import base tactics numbers list gmap strings sorting.
From S2P Require Import Prelude.

(** ** Sliding windows *)

(** [WINDOW], sixty seconds. *)
Definition WINDOW : Z := 60 * 10 ^ 9.

Definition expired (now t : Z) : bool := WINDOW <=? saturating_sub now t.

Fixpoint prune_timestamps (now : Z) (ts : list Z) : list Z :=
  match ts with
  | [] => []
  | t :: ts' => if expired now t then prune_timestamps now ts' else ts
  end.

(** The timestamps of the last window. *)
Definition recent (now : Z) (ts : list Z) : list Z := filter (fun t => expired now t = false) ts.

(** [ts] stands for the history [h] at time [last]: in order, not in the future,
    and with the same recent timestamps. *)
Record stands_for (last : Z) (h ts : list Z) : Prop := mk_stands_for {
  sf_sorted : StronglySorted Z.le ts;
  sf_past : Forall (fun t => t <= last) ts;
  sf_recent : recent last ts = recent last h }.

Lemma expired_mono last now t : last <= now -> expired last t = true -> expired now t = true.
Proof. unfold expired, saturating_sub. intros ? Hb. bool_prop. apply Z.leb_le. lia. Qed.

Lemma recent_recent last now ts : last <= now -> recent now (recent last ts) = recent now ts.
Proof.
  intros Hle. unfold recent. rewrite list_filter_filter. apply filter_weaken.
  intros t _. split; [naive_solver|]. intros Hn. split; [done|].
  destruct (expired last t) eqn:E; [|done]. by rewrite (expired_mono last now) in Hn.
Qed.

Lemma prune_recent now ts : StronglySorted Z.le ts -> prune_timestamps now ts = recent now ts.
Proof.
  induction 1 as [|t ts Hs IH Hle]; [done|]. simpl. unfold recent. rewrite filter_cons.
  destruct (expired now t) eqn:E; simpl; [done|]. f_equal. symmetry. apply filter_all.
  intros t' Hin. rewrite Forall_forall in Hle. specialize (Hle _ Hin).
  unfold expired, saturating_sub in *. bool_prop. apply Z.leb_gt. lia.
Qed.

Lemma stands_for_nil last : stands_for last [] [].
Proof. split; [constructor|constructor|done]. Qed.

Lemma stands_for_later last now h ts : last <= now -> stands_for last h ts -> stands_for now h ts.
Proof.
  intros Hle [Hs Hp Hr]. split; [done| |].
  - eapply Forall_impl; [exact Hp|]. simpl. lia.
  - by rewrite <- (recent_recent last now ts), Hr, recent_recent.
Qed.

Lemma stands_for_prune now h ts : stands_for now h ts -> stands_for now h (prune_timestamps now ts).
Proof.
  intros [Hs Hp Hr]. rewrite prune_recent by done. split.
  - unfold recent. clear - Hs. induction Hs as [|t ts Hs IH Hle]; [constructor|].
    rewrite filter_cons. case_decide; [|done]. constructor; [done|].
    rewrite Forall_forall in *. intros t' [_ Hin]%list_elem_of_filter. auto.
  - rewrite Forall_forall in *. intros t' [_ Hin]%list_elem_of_filter. auto.
  - by rewrite recent_recent.
Qed.

Lemma stands_for_pruned now h ts : stands_for now h ts -> prune_timestamps now ts = recent now h.
Proof. intros [Hs _ <-]. by apply prune_recent. Qed.

Lemma stands_for_push now h ts : stands_for now h ts -> stands_for now (h ++ [now]) (ts ++ [now]).
Proof.
  intros [Hs Hp Hr]. split.
  - clear - Hs Hp. induction Hs as [|t ts Hs IH Hle]; simpl; [repeat constructor|].
    apply Forall_cons in Hp as [? ?]. constructor; [auto|].
    apply Forall_app. split; [done|]. by repeat constructor.
  - apply Forall_app. split; [done|]. by repeat constructor.
  - unfold recent in *. by rewrite !filter_app, Hr.
Qed.

Lemma stands_for_none now h : recent now h = [] -> stands_for now h [].
Proof. intros Hr. split; [constructor|constructor|]. by rewrite Hr. Qed.
#[export] Hint Resolve stands_for_nil stands_for_later stands_for_prune stands_for_push : apex.

(** ** The limiter *)

Section limiter.
Context {IpAddr : Type} `{Countable IpAddr} (hash : IpAddr -> Z).

Record IpTrack := mk_track {
  timestamps : list Z;
  endpoint_timestamps : gmap string (list Z) }.

Definition IpTrack_new : IpTrack := mk_track [] ∅.

(** [IpTrack::prune]: [retain] with a closure that prunes first. *)
Definition track_prune (now : Z) (tr : IpTrack) : IpTrack :=
  mk_track (prune_timestamps now (timestamps tr))
    (omap (fun ts => match prune_timestamps now ts with [] => None | ts' => Some ts' end)
       (endpoint_timestamps tr)).

Record RateLimitShard := mk_shard {
  requests : gmap IpAddr IpTrack;
  last_cleanup : Z }.

Definition shard_prune (now : Z) (sh : RateLimitShard) : RateLimitShard :=
  mk_shard (omap (fun tr => let tr' := track_prune now tr in
                            match timestamps tr' with [] => None | _ => Some tr' end)
              (requests sh)) now.

Definition NUM_SHARDS : nat := 16.

Record RateLimiterState := mk_limiter {
  shards : list RateLimitShard;
  max_requests_per_minute : Z;
  endpoint_limits : gmap string Z }.

(** [created] has the clock readings of the constructor's loop. *)
Definition limiter_new (max : Z) (created : nat -> Z) : RateLimiterState :=
  mk_limiter ((fun i => mk_shard ∅ (created i)) <$> seq 0 NUM_SHARDS) max ∅.

Definition set_endpoint_limit (endpoint : string) (limit : Z) (s : RateLimiterState) :
    RateLimiterState :=
  mk_limiter (shards s) (max_requests_per_minute s) (<[endpoint := limit]> (endpoint_limits s)).

Definition shard_index (peer : IpAddr) : nat := Z.to_nat (hash peer mod 16).

Definition endpoint_limit (s : RateLimiterState) (endpoint : option string) : Z :=
  default 0 (route ← endpoint; endpoint_limits s !! route).

(** What the critical section does to the shard; [true] is a rejection.  A
    rejection keeps the pruned track. *)
Definition shard_check (max limit : Z) (peer : IpAddr) (endpoint : option string) (now : Z)
    (sh : RateLimitShard) : bool * RateLimitShard :=
  let sh := if WINDOW <=? saturating_sub now (last_cleanup sh) then shard_prune now sh else sh in
  let tr := track_prune now (default IpTrack_new (requests sh !! peer)) in
  let put tr := mk_shard (<[peer := tr]> (requests sh)) (last_cleanup sh) in
  if (0 <? max) && (max <=? len (timestamps tr)) then (true, put tr) else
  match endpoint with
  | Some route =>
      let ets := endpoint_timestamps tr in
      if (0 <? limit) &&
         match ets !! route with Some ts => limit <=? len ts | None => false end
      then (true, put tr)
      else (false, put (mk_track (timestamps tr ++ [now])
                          (<[route := default [] (ets !! route) ++ [now]]> ets)))
  | None => (false, put (mk_track (timestamps tr ++ [now]) (endpoint_timestamps tr)))
  end.

Definition is_rate_limited (s : RateLimiterState) (peer : IpAddr) (endpoint : option string)
    (now : Z) : bool * RateLimiterState :=
  let limit := endpoint_limit s endpoint in
  if (max_requests_per_minute s =? 0) && (limit =? 0) then (false, s) else
  match shards s !! shard_index peer with
  | None => (false, s)
  | Some sh =>
      let '(r, sh') := shard_check (max_requests_per_minute s) limit peer endpoint now sh in
      (r, mk_limiter (<[shard_index peer := sh']> (shards s)) (max_requests_per_minute s)
            (endpoint_limits s))
  end.

(** [get_state]: prunes every shard and counts what is left; the clock is read
    once per shard. *)
Definition get_state (clock : nat -> Z) (s : RateLimiterState) :
    list (IpAddr * Z * gmap string Z) * RateLimiterState :=
  let shs := imap (fun i sh => shard_prune (clock i) sh) (shards s) in
  (concat ((fun sh => (fun '(ip, tr) =>
      (ip, len (timestamps tr), len <$> endpoint_timestamps tr)) <$> map_to_list (requests sh))
      <$> shs),
   mk_limiter shs (max_requests_per_minute s) (endpoint_limits s)).

(** ** The reference *)

(** An accepted request: client, route, time. *)
Notation accepted := (IpAddr * option string * Z)%type.

Definition of_peer (p : IpAddr) (h : list accepted) : list Z :=
  (filter (fun a : accepted => a.1.1 = p) h).*2.
Definition of_route (p : IpAddr) (r : string) (h : list accepted) : list Z :=
  (filter (fun a : accepted => a.1.1 = p /\ a.1.2 = Some r) h).*2.

Definition spec_limited (max : Z) (limits : gmap string Z) (h : list accepted)
    (p : IpAddr) (ep : option string) (now : Z) : bool :=
  (0 <? max) && (max <=? len (recent now (of_peer p h))) ||
  match ep with
  | Some r => let limit := default 0 (limits !! r) in
              (0 <? limit) && (limit <=? len (recent now (of_route p r h)))
  | None => false
  end.

Inductive event :=
| Request (peer : IpAddr) (endpoint : option string) (now : Z)
| GetState (clock : nat -> Z).

Fixpoint run (s : RateLimiterState) (es : list event) : list bool :=
  match es with
  | [] => []
  | Request p ep now :: es => let '(r, s') := is_rate_limited s p ep now in r :: run s' es
  | GetState clock :: es => run (get_state clock s).2 es
  end.

Fixpoint spec_run (max : Z) (limits : gmap string Z) (h : list accepted) (es : list event) :
    list bool :=
  match es with
  | [] => []
  | Request p ep now :: es =>
      let r := spec_limited max limits h p ep now in
      r :: spec_run max limits (if r then h else h ++ [(p, ep, now)]) es
  | GetState _ :: es => spec_run max limits h es
  end.

(** The clock does not go back. *)
Fixpoint in_order (last : Z) (es : list event) : Prop :=
  match es with
  | [] => True
  | Request _ _ now :: es => last <= now /\ in_order now es
  | GetState clock :: es =>
      exists now, (forall i, (i < NUM_SHARDS)%nat -> last <= clock i <= now) /\ in_order now es
  end.

(** ** The limiter implements the reference *)

Definition track_rel (last : Z) (h : list accepted) (p : IpAddr) (tr : IpTrack) : Prop :=
  stands_for last (of_peer p h) (timestamps tr) /\
  forall r, stands_for last (of_route p r h) (default [] (endpoint_timestamps tr !! r)).

(** The shard has the clients for which [P] holds. *)
Definition shard_rel (P : IpAddr -> Prop) (last : Z) (h : list accepted) (sh : RateLimitShard) : Prop :=
  forall p, P p -> track_rel last h p (default IpTrack_new (requests sh !! p)).

Lemma track_rel_later last now h p tr : last <= now -> track_rel last h p tr -> track_rel now h p tr.
Proof. intros Hle [Ht He]. split; eauto with apex. Qed.

Lemma shard_rel_later P last now h sh : last <= now -> shard_rel P last h sh -> shard_rel P now h sh.
Proof. intros Hle Hsh p Hp. eapply track_rel_later; eauto. Qed.

Lemma endpoints_pruned now tr r :
  default [] (endpoint_timestamps (track_prune now tr) !! r) =
  prune_timestamps now (default [] (endpoint_timestamps tr !! r)).
Proof.
  simpl. rewrite lookup_omap. destruct (_ !! r) as [ts|]; simpl; [|done].
  by destruct (prune_timestamps now ts).
Qed.

Lemma track_rel_prune now h p tr : track_rel now h p tr -> track_rel now h p (track_prune now tr).
Proof.
  intros [Ht He]. split; [by apply stands_for_prune|].
  intros r. rewrite endpoints_pruned. by apply stands_for_prune.
Qed.

Lemma of_route_of_peer p r h t : t ∈ of_route p r h -> t ∈ of_peer p h.
Proof.
  unfold of_route, of_peer. rewrite !list_elem_of_fmap.
  intros (a & -> & [[Hp _] Hin]%list_elem_of_filter). exists a. split; [done|].
  by apply list_elem_of_filter.
Qed.

Lemma track_rel_gone now h p : recent now (of_peer p h) = [] -> track_rel now h p IpTrack_new.
Proof.
  intros Hr. split; [by apply stands_for_none|]. intros r. apply stands_for_none.
  apply filter_none. intros t Hin%of_route_of_peer Ht.
  assert (t ∈ recent now (of_peer p h)) as Hin' by by apply list_elem_of_filter.
  rewrite Hr in Hin'. by apply elem_of_nil in Hin'.
Qed.

Lemma shard_rel_prune P now h sh : shard_rel P now h sh -> shard_rel P now h (shard_prune now sh).
Proof.
  intros Hsh p Hp. specialize (Hsh p Hp). simpl. rewrite lookup_omap.
  destruct (requests sh !! p) as [tr|] eqn:E; simpl in *; [|done].
  destruct (prune_timestamps now (timestamps tr)) eqn:Ep; simpl.
  - apply track_rel_gone. destruct Hsh as [Ht _].
    by rewrite <- (stands_for_pruned _ _ _ Ht).
  - by apply track_rel_prune.
Qed.

Lemma of_peer_snoc p q ep now h :
  of_peer p (h ++ [(q, ep, now)]) = of_peer p h ++ (if decide (q = p) then [now] else []).
Proof.
  unfold of_peer. rewrite filter_app, fmap_app, filter_cons, filter_nil. simpl. by case_decide.
Qed.

Lemma of_route_snoc p r q ep now h :
  of_route p r (h ++ [(q, ep, now)]) =
  of_route p r h ++ (if decide (q = p /\ ep = Some r) then [now] else []).
Proof.
  unfold of_route. rewrite filter_app, fmap_app, filter_cons, filter_nil. simpl. by case_decide.
Qed.

Lemma track_rel_other now h p q ep t tr :
  q <> p -> track_rel now h p tr -> track_rel now (h ++ [(q, ep, t)]) p tr.
Proof.
  intros Hne [Ht He]. split; [|intros r].
  - by rewrite of_peer_snoc, decide_False, app_nil_r by done.
  - rewrite of_route_snoc, decide_False, app_nil_r by naive_solver. done.
Qed.

(** Accepting a request of [p] at [now]. *)
Lemma track_rel_accept now h p ep tr :
  track_rel now h p tr ->
  track_rel now (h ++ [(p, ep, now)]) p
    (mk_track (timestamps tr ++ [now])
       match ep with
       | Some r => <[r := default [] (endpoint_timestamps tr !! r) ++ [now]]> (endpoint_timestamps tr)
       | None => endpoint_timestamps tr
       end).
Proof.
  intros [Ht He]. split; simpl.
  - rewrite of_peer_snoc, decide_True by done. by apply stands_for_push.
  - intros r. rewrite of_route_snoc. destruct ep as [r'|].
    + destruct (decide (r' = r)) as [->|Hne].
      * rewrite decide_True, lookup_insert_eq by done. by apply stands_for_push.
      * rewrite decide_False, lookup_insert_ne, app_nil_r by naive_solver. done.
    + rewrite decide_False, app_nil_r by naive_solver. done.
Qed.

Lemma shard_rel_insert P now h h' sh p tr c :
  (forall q, q <> p -> of_peer q h' = of_peer q h /\ forall r, of_route q r h' = of_route q r h) ->
  shard_rel P now h sh -> track_rel now h' p tr ->
  shard_rel P now h' (mk_shard (<[p := tr]> (requests sh)) c).
Proof.
  intros Hh Hsh Htr q Hq. simpl. destruct (decide (q = p)) as [->|Hne].
  - by rewrite lookup_insert_eq.
  - rewrite lookup_insert_ne by done. destruct (Hsh q Hq) as [Ht He].
    destruct (Hh q Hne) as [Hp Hr]. split; [by rewrite Hp|]. intros r. by rewrite Hr.
Qed.

Lemma shard_check_spec P max limits p ep last now h sh r sh' :
  shard_rel P last h sh -> P p -> last <= now ->
  shard_check max (default 0 (route ← ep; limits !! route)) p ep now sh = (r, sh') ->
  r = spec_limited max limits h p ep now /\
  shard_rel P now (if r then h else h ++ [(p, ep, now)]) sh'.
Proof.
  intros Hsh Hp Hle Hc. eapply shard_rel_later in Hsh; [|exact Hle].
  unfold shard_check in Hc.
  set (sh1 := if WINDOW <=? saturating_sub now (last_cleanup sh) then shard_prune now sh else sh) in *.
  assert (shard_rel P now h sh1) as Hsh1 
    by (unfold sh1; destruct (WINDOW <=? _); auto using shard_rel_prune).
  pose proof (Hsh1 p Hp) as Htr0. set (tr0 := default IpTrack_new (requests sh1 !! p)) in *.
  pose proof (track_rel_prune _ _ _ _ Htr0) as Htr.
  assert (timestamps (track_prune now tr0) = recent now (of_peer p h)) as Hts.
  { simpl. destruct Htr0 as [Ht _]. by apply stands_for_pruned. }
  assert (forall q, default [] (endpoint_timestamps (track_prune now tr0) !! q) =
                    recent now (of_route p q h)) as Hets.
  { intros q. rewrite endpoints_pruned. destruct Htr0 as [_ He]. by apply stands_for_pruned. }
  pose proof (track_rel_accept now h p ep _ Htr) as Hacc.
  assert (forall q, q <> p -> of_peer q (h ++ [(p, ep, now)]) = of_peer q h /\
    forall r, of_route q r (h ++ [(p, ep, now)]) = of_route q r h) as Hoth.
  { intros q Hq. rewrite of_peer_snoc, decide_False, app_nil_r by done. split; [done|].
    intros q'. rewrite of_route_snoc, decide_False, app_nil_r by naive_solver. done. }
  unfold spec_limited. rewrite <- Hts. set (tr := track_prune now tr0) in *. clearbody tr.
  destruct ((0 <? max) && (max <=? len (timestamps tr))) eqn:Emax; simpl.
  { simplify_eq. split; [done|]. by apply (shard_rel_insert P now h). }
  destruct ep as [q|]; simpl in Hc; [|simplify_eq; split; [done|by eapply shard_rel_insert]].
  rewrite <- Hets. set (limit := default 0 (limits !! q)) in *.
  assert ((0 <? limit) && match endpoint_timestamps tr !! q with
      Some ts => limit <=? len ts | None => false end =
    (0 <? limit) && (limit <=? len (default [] (endpoint_timestamps tr !! q)))) as Heq.
  { destruct (0 <? limit) eqn:E0; [|done].
    destruct (endpoint_timestamps tr !! q); simpl; [done|].
    symmetry. apply Z.leb_gt. unfold len. simpl. bool_lia. }
  rewrite Heq in Hc. clear Heq.
  destruct ((0 <? limit) && _); injection Hc as <- <-; (split; [done|]).
  - by apply (shard_rel_insert P now h).
  - by eapply shard_rel_insert.
Qed.

(** Requests that no limit concerns are accepted without being recorded. *)
Definition tracked (max : Z) (limits : gmap string Z) (a : accepted) : Prop :=
  max <> 0 \/ default 0 (route ← a.1.2; limits !! route) <> 0.
#[local] Instance tracked_dec max limits a : Decision (tracked max limits a).
Proof. unfold tracked. apply _. Defined.

Lemma spec_tracked max limits h p ep now :
  0 <= max ->
  spec_limited max limits (filter (tracked max limits) h) p ep now =
  spec_limited max limits h p ep now.
Proof.
  intros Hmax. destruct (decide (max = 0)) as [->|Hne].
  - unfold spec_limited. simpl. destruct ep as [r|]; [|done].
    destruct (0 <? default 0 (limits !! r)) eqn:Hr; simpl; [|done].
    do 3 f_equal. unfold of_route. f_equal. rewrite list_filter_filter. apply filter_weaken.
    intros [[q e] t] _. unfold tracked. simpl. split; [naive_solver|]. intros [-> ->]. simpl.
    split; [done|]. right. bool_lia.
  - rewrite (filter_all (tracked max limits)); [done|]. intros a _. by left.
Qed.

Record state_rel (max : Z) (limits : gmap string Z) (last : Z) (h : list accepted)
    (s : RateLimiterState) : Prop := mk_state_rel {
  sr_max : max_requests_per_minute s = max;
  sr_limits : endpoint_limits s = limits;
  sr_shards : length (shards s) = NUM_SHARDS;
  sr_rel i sh : shards s !! i = Some sh ->
    shard_rel (fun p => shard_index p = i) last (filter (tracked max limits) h) sh }.

Lemma state_rel_new limits max created last s :
  shards s = shards (limiter_new max created) -> max_requests_per_minute s = max ->
  endpoint_limits s = limits -> state_rel max limits last [] s.
Proof.
  intros Hs Hm Hl. split; [done|done|by rewrite Hs|].
  intros i sh. rewrite Hs. intros (j & -> & _)%list_lookup_fmap_Some p _. simpl.
  rewrite lookup_empty. simpl. apply track_rel_gone. done.
Qed.

Lemma shard_index_lt p : (shard_index p < NUM_SHARDS)%nat.
Proof. unfold shard_index, NUM_SHARDS. pose proof (Z.mod_pos_bound (hash p) 16). lia. Qed.

Lemma state_rel_request max limits last now h s p ep r s' :
  0 <= max -> state_rel max limits last h s -> last <= now ->
  is_rate_limited s p ep now = (r, s') ->
  r = spec_limited max limits h p ep now /\
  state_rel max limits now (if r then h else h ++ [(p, ep, now)]) s'.
Proof.
  intros Hmax [Hm Hl Hn Hrel] Hle. unfold is_rate_limited, endpoint_limit. rewrite Hm, Hl.
  set (limit := default 0 (route ← ep; limits !! route)).
  destruct ((max =? 0) && (limit =? 0)) eqn:E0.
  - intros [= <- <-]. apply andb_true_iff in E0 as [->%Z.eqb_eq El%Z.eqb_eq]. split.
    + unfold spec_limited. simpl. destruct ep as [q|]; [|done].
      change (default 0 (limits !! q)) with limit. by rewrite El.
    + split; try done. intros i sh Hi. rewrite filter_app, filter_cons_False, filter_nil, app_nil_r.
      * eapply shard_rel_later; eauto.
      * unfold tracked. simpl. fold limit. lia.
  - destruct (lookup_lt_is_Some_2 (shards s) (shard_index p)) as [sh Hsh].
    { rewrite Hn. apply shard_index_lt. }
    rewrite Hsh. destruct (shard_check max limit p ep now sh) as [r0 sh'] eqn:Hc. intros [= <- <-].
    pose proof Hc as Hc'. eapply shard_check_spec in Hc' as [Hr Hsh'];
      [|by eapply Hrel|done|done]. rewrite spec_tracked in Hr by done. split; [done|].
    assert (filter (tracked max limits) (if r0 then h else h ++ [(p, ep, now)]) =
      if r0 then filter (tracked max limits) h
      else filter (tracked max limits) h ++ [(p, ep, now)]) as Hf.
    { destruct r0; [done|]. rewrite filter_app, filter_cons_True, filter_nil; [done|].
      unfold tracked. simpl. fold limit. apply andb_false_iff in E0. rewrite !Z.eqb_neq in E0. lia. }
    split; simpl; [done|done|by rewrite length_insert|]. rewrite Hf.
    intros i sh'' [(<- & <- & _)|(Hne & Hi)]%list_lookup_insert_Some; [done|].
    intros q Hq. specialize (Hrel i sh'' Hi q Hq). eapply track_rel_later in Hrel; [|exact Hle].
    destruct r0; [done|]. apply track_rel_other; [congruence|done].
Qed.

Lemma state_rel_get_state max limits last now h s clock :
  (forall i, (i < NUM_SHARDS)%nat -> last <= clock i <= now) ->
  state_rel max limits last h s -> state_rel max limits now h (get_state clock s).2.
Proof.
  intros Hclock [Hm Hl Hn Hrel]. split; simpl; [done|done|by rewrite length_imap|].
  intros i sh. rewrite list_lookup_imap. intros (sh0 & Hsh0 & ->)%fmap_Some_1.
  assert (last <= clock i <= now).
  { apply Hclock. rewrite <- Hn. by eapply lookup_lt_Some. }
  eapply shard_rel_later; [|apply shard_rel_prune; eapply shard_rel_later]; [| |eauto]; lia.
Qed.

Lemma run_spec max limits last h s es :
  0 <= max -> state_rel max limits last h s -> in_order last es ->
  run s es = spec_run max limits h es.
Proof.
  intros Hmax. revert last h s. induction es as [|e es IH]; intros last h s Hrel Ho; [done|].
  destruct e as [p ep now|clock]; simpl in *.
  - destruct Ho as [Hle Ho]. destruct (is_rate_limited s p ep now) as [r s'] eqn:E.
    eapply state_rel_request in E as [-> Hrel']; [|done..]. f_equal. by eapply IH.
  - destruct Ho as (now & Hclock & Ho). eapply IH; [|exact Ho]. by eapply state_rel_get_state.
Qed.

(** ** The limits hold *)

Fixpoint accepted_of (max : Z) (limits : gmap string Z) (h : list accepted) (es : list event) :
    list accepted :=
  match es with
  | [] => h
  | Request p ep now :: es =>
      accepted_of max limits (if spec_limited max limits h p ep now then h else h ++ [(p, ep, now)]) es
  | GetState _ :: es => accepted_of max limits h es
  end.

(** At most [max] of the times lie in any window. *)
Definition within (max : Z) (ts : list Z) : Prop :=
  forall t, len (filter (fun x => t - WINDOW < x <= t) ts) <= max.

Lemma within_snoc max ts now :
  Forall (fun x => x <= now) ts -> within max ts -> len (recent now ts) < max ->
  within max (ts ++ [now]).
Proof.
  intros Hp Hw Hlt t. rewrite filter_app, filter_cons, filter_nil. case_decide as Ht.
  - enough (len (filter (fun x => t - WINDOW < x <= t) ts) <= len (recent now ts)) by len_lia.
    clear Hw Hlt. unfold recent. induction Hp as [|x ts Hx Hp IH]; [done|]. rewrite !filter_cons.
    destruct (decide (t - WINDOW < x <= t)) as [Hin|], (decide (expired now x = false)) as [|He];
      rewrite ?len_cons; try lia. exfalso.
    apply not_false_iff_true in He. unfold expired, saturating_sub, WINDOW in *. bool_lia.
  - rewrite app_nil_r. apply Hw.
Qed.

Record limits_hold (max : Z) (limits : gmap string Z) (last : Z) (h : list accepted) : Prop := mk_limits {
  lh_past : Forall (fun a : accepted => a.2 <= last) h;
  lh_peer p : 0 < max -> within max (of_peer p h);
  lh_route p r limit : limits !! r = Some limit -> 0 < limit -> within limit (of_route p r h) }.

Lemma limits_hold_later max limits last now h :
  last <= now -> limits_hold max limits last h -> limits_hold max limits now h.
Proof. intros Hle [Hp ??]. split; try done. eapply Forall_impl; [exact Hp|]. simpl. lia. Qed.

Lemma of_peer_past p h now : Forall (fun a : accepted => a.2 <= now) h -> Forall (fun x => x <= now) (of_peer p h).
Proof.
  rewrite !Forall_forall. intros Hh x (a & -> & [_ Ha]%list_elem_of_filter)%list_elem_of_fmap. auto.
Qed.
Lemma of_route_past p r h now : Forall (fun a : accepted => a.2 <= now) h -> Forall (fun x => x <= now) (of_route p r h).
Proof.
  rewrite !Forall_forall. intros Hh x (a & -> & [_ Ha]%list_elem_of_filter)%list_elem_of_fmap. auto.
Qed.

Lemma limits_hold_accept max limits now h p ep :
  limits_hold max limits now h -> spec_limited max limits h p ep now = false ->
  limits_hold max limits now (h ++ [(p, ep, now)]).
Proof.
  intros [Hp Hpe Hro] [E1 E2]%orb_false_iff. split.
  - apply Forall_app. split; [done|]. by repeat constructor.
  - intros q Hmax. rewrite of_peer_snoc. case_decide; [subst|rewrite app_nil_r; auto].
    apply within_snoc; [by apply of_peer_past|auto|].
    apply andb_false_iff in E1 as [?|?]; bool_lia.
  - intros q r limit Hl Hpos. rewrite of_route_snoc.
    case_decide as Hd; [destruct Hd as [-> ->]|rewrite app_nil_r; eauto].
    apply within_snoc; [by apply of_route_past|eauto|]. simpl in E2. rewrite Hl in E2. simpl in E2.
    apply andb_false_iff in E2 as [?|?]; bool_lia.
Qed.

Lemma limits_hold_run max limits last h es :
  limits_hold max limits last h -> in_order last es ->
  exists now, limits_hold max limits now (accepted_of max limits h es).
Proof.
  revert last h. induction es as [|e es IH]; intros last h Hh Ho; [by exists last|].
  destruct e as [p ep now|clock]; simpl in *.
  - destruct Ho as [Hle Ho]. eapply limits_hold_later in Hh; [|exact Hle].
    eapply IH; [|exact Ho]. destruct (spec_limited _ _ _ _ _ _) eqn:E; [done|].
    by apply limits_hold_accept.
  - destruct Ho as (now & Hclock & Ho). eapply IH; [|exact Ho]. eapply limits_hold_later; [|exact Hh].
    specialize (Hclock 0%nat). unfold NUM_SHARDS in Hclock. lia.
Qed.

(** C19: The limiter decides every request as if it kept every accepted request
    and counted those of the last sixty seconds: sharding, lazy pruning, sweeps
    and status queries in between do not change a decision.  The requests it
    accepts therefore never exceed the limit of a client, nor that of a client
    on a route, in any window of sixty seconds. *)
Theorem rate_limiter_exact max limits created last s es :
  shards s = shards (limiter_new max created) -> max_requests_per_minute s = max ->
  endpoint_limits s = limits -> 0 <= max -> in_order last es ->
  run s es = spec_run max limits [] es /\
  (forall p, 0 < max -> within max (of_peer p (accepted_of max limits [] es))) /\
  (forall p r limit, limits !! r = Some limit -> 0 < limit ->
     within limit (of_route p r (accepted_of max limits [] es))).
Proof.
  intros Hs Hm Hl Hmax Ho. split.
  - eapply run_spec; [done| |done]. by eapply state_rel_new.
  - destruct (limits_hold_run max limits last [] es) as (now & [_ Hp Hr]); [|done|eauto].
    split; [constructor|..]; intros; intros t; unfold len; simpl; lia.
Qed.

End limiter.
