(* ===== verification/Limits.v ===== *)
(** * Limits: budgets and quotas around the engine
    ([src/src/infra/memory_limiter.rs], [src/src/infra/quotas.rs],
    [src/src/infra/query_budget.rs], [src/src/infra/idempotency.rs])

    The memory limiter is lock free: its two loops are split at their atomic
    accesses and the accounting is proved over all interleavings.  The other
    components are maps behind a mutex and are proved over sequences of calls. *)
From Stdlib Require Import ZArith Lia.
From stdpp Require Import base tactics numbers list gmap strings relations.
From S2P Require Import Prelude Bytes.

(** ** The memory limiter *)

Module MemoryLimiter.

Record MemoryLimiter := mk_limiter {
  limit : Z;
  current : Z;
  peak : Z }.

Definition new (limit : Z) : MemoryLimiter := mk_limiter limit 0 0.

(** [try_allocate] when no other thread interferes: one round of its loop.
    The addition wraps in the release profile. *)
Definition try_allocate (bytes : Z) (m : MemoryLimiter) : bool * MemoryLimiter :=
  let new := as_u64 (current m + bytes) in
  if limit m <? new then (false, m)
  else (true, mk_limiter (limit m) new (Z.max (peak m) new)).

Definition release (bytes : Z) (m : MemoryLimiter) : MemoryLimiter :=
  mk_limiter (limit m) (saturating_sub (current m) bytes) (peak m).

Definition reset (m : MemoryLimiter) : MemoryLimiter := mk_limiter (limit m) 0 (peak m).

(** ** Interleaved threads *)

(** Where a thread is: before the load of [try_allocate], before its
    [compare_exchange] with the value loaded, before [fetch_max]; the same for
    [release], whose failed exchange hands back the current value. *)
Inductive pc :=
| AllocLoad (bytes : Z)
| AllocCas (bytes loaded : Z)
| AllocPeak (new : Z)
| ReleaseLoad (bytes : Z)
| ReleaseCas (bytes loaded : Z).

(** [held] is what was granted and not yet given back: what the callers'
    obligation to release is about. *)
Record world := mk_world {
  mem : MemoryLimiter;
  threads : gmap nat pc;
  held : Z }.

Definition set_current (c : Z) (m : MemoryLimiter) : MemoryLimiter := mk_limiter (limit m) c (peak m).

(** What a thread starts with a step, or nothing when it goes on. *)
Inductive call :=
| Try (bytes : Z)
| Release (bytes : Z)
| Reset
| Continue.

(** One rule per atomic access.  A weak exchange may fail spuriously.  [reset]
    stores zero, whatever is running; what was held counts as given back. *)
Inductive step (w : world) : call -> world -> Prop :=
| step_try_allocate id bytes :
    threads w !! id = None -> 0 <= bytes <= usize_max ->
    step w (Try bytes) (mk_world (mem w) (<[id := AllocLoad bytes]> (threads w)) (held w))
| step_load id bytes :
    threads w !! id = Some (AllocLoad bytes) ->
    as_u64 (current (mem w) + bytes) <= limit (mem w) ->
    step w Continue (mk_world (mem w) (<[id := AllocCas bytes (current (mem w))]> (threads w)) (held w))
| step_denied id bytes :
    threads w !! id = Some (AllocLoad bytes) ->
    limit (mem w) < as_u64 (current (mem w) + bytes) ->
    step w Continue (mk_world (mem w) (delete id (threads w)) (held w))
| step_cas id bytes loaded :
    threads w !! id = Some (AllocCas bytes loaded) -> current (mem w) = loaded ->
    step w Continue (mk_world (set_current (as_u64 (loaded + bytes)) (mem w))
              (<[id := AllocPeak (as_u64 (loaded + bytes))]> (threads w)) (held w + bytes))
| step_cas_failed id bytes loaded :
    threads w !! id = Some (AllocCas bytes loaded) -> current (mem w) <> loaded ->
    step w Continue (mk_world (mem w) (<[id := AllocLoad bytes]> (threads w)) (held w))
| step_peak id new :
    threads w !! id = Some (AllocPeak new) ->
    step w Continue (mk_world (mk_limiter (limit (mem w)) (current (mem w)) (Z.max (peak (mem w)) new))
              (delete id (threads w)) (held w))
| step_release id bytes :
    threads w !! id = None -> 0 <= bytes <= usize_max ->
    step w (Release bytes) (mk_world (mem w) (<[id := ReleaseLoad bytes]> (threads w)) (held w - bytes))
| step_release_load id bytes :
    threads w !! id = Some (ReleaseLoad bytes) ->
    step w Continue (mk_world (mem w) (<[id := ReleaseCas bytes (current (mem w))]> (threads w)) (held w))
| step_release_cas id bytes loaded :
    threads w !! id = Some (ReleaseCas bytes loaded) -> current (mem w) = loaded ->
    step w Continue (mk_world (set_current (saturating_sub loaded bytes) (mem w))
              (delete id (threads w)) (held w))
| step_release_failed id bytes loaded :
    threads w !! id = Some (ReleaseCas bytes loaded) ->
    step w Continue (mk_world (mem w) (<[id := ReleaseCas bytes (current (mem w))]> (threads w)) (held w))
| step_reset :
    step w Reset (mk_world (reset (mem w)) (threads w) 0).

(** What running calls of [release] have still to subtract. *)
Definition releasing (p : pc) : Z :=
  match p with ReleaseLoad b | ReleaseCas b _ => b | _ => 0 end.
Definition in_flight (ts : gmap nat pc) : Z := sumZ (fun '(_, p) => releasing p) (map_to_list ts).

(** What callers have to keep to for the account to be exact: requests that do
    not overflow above the limit, releases of what is held (as the documentation
    asks), and a reset only while no release is running. *)
Definition disciplined (w : world) (c : call) : Prop :=
  match c with
  | Try bytes => limit (mem w) + bytes <= usize_max
  | Release bytes => bytes <= held w
  | Reset => in_flight (threads w) = 0
  | Continue => True
  end.

Definition any_step (w w' : world) : Prop := exists c, step w c w'.
Definition disciplined_step (w w' : world) : Prop := exists c, step w c w' /\ disciplined w c.

(** What holds whatever callers do. *)
Definition pc_bounded (l : Z) (p : pc) : Prop :=
  match p with
  | AllocLoad b => 0 <= b
  | AllocCas b c => 0 <= b /\ as_u64 (c + b) <= l
  | AllocPeak n => n <= l
  | ReleaseLoad b | ReleaseCas b _ => 0 <= b
  end.
Record bounded (l : Z) (w : world) : Prop := mk_bounded {
  bd_limit : limit (mem w) = l;
  bd_threads : map_Forall (fun _ p => pc_bounded l p) (threads w);
  bd_current : 0 <= current (mem w) <= l;
  bd_peak : peak (mem w) <= l }.

(** What holds when they follow the rules. *)
Definition pc_fits (l : Z) (p : pc) : Prop :=
  match p with AllocLoad b | AllocCas b _ => l + b <= usize_max | _ => True end.
Record exact (l : Z) (w : world) : Prop := mk_exact {
  ex_bounded : bounded l w;
  ex_threads : map_Forall (fun _ p => pc_fits l p) (threads w);
  ex_held : 0 <= held w;
  ex_exact : current (mem w) = held w + in_flight (threads w) }.

Lemma in_flight_delete ts id p :
  ts !! id = Some p -> in_flight ts = releasing p + in_flight (delete id ts).
Proof. intros Hid. unfold in_flight. by rewrite <- (map_to_list_delete ts id p Hid). Qed.

Lemma in_flight_insert ts id p : in_flight (<[id := p]> ts) = releasing p + in_flight (delete id ts).
Proof.
  rewrite (in_flight_delete _ id p) by apply lookup_insert_eq. by rewrite delete_insert_eq.
Qed.

Lemma in_flight_fresh ts id p : ts !! id = None -> in_flight (<[id := p]> ts) = releasing p + in_flight ts.
Proof. intros Hid. by rewrite in_flight_insert, delete_id. Qed.

Lemma in_flight_nonneg l ts : map_Forall (fun _ p => pc_bounded l p) ts -> 0 <= in_flight ts.
Proof.
  intros Hts. apply sumZ_nonneg. intros [id p] Hin%elem_of_map_to_list. specialize (Hts _ _ Hin).
  destruct p; simpl in *; lia.
Qed.

Definition start (l : Z) : world := mk_world (new l) ∅ 0.

Lemma memory_new_exact l : 0 <= l -> exact l (start l).
Proof. intros. split; [split|..]; simpl; try lia; done || apply map_Forall_empty. Qed.

Ltac threads_ok :=
  first [apply map_Forall_insert_2; [|done]; simpl in *; try lia; try done
        |by apply map_Forall_delete].

Lemma memory_step_bounded l w c w' : bounded l w -> step w c w' -> bounded l w'.
Proof.
  intros [Hl Hts Hc Hp] Hstep.
  destruct Hstep as [id b Hid|id b Hid|id b Hid|id b c Hid|id b c Hid|id n Hid|id b Hid|id b Hid
    |id b c Hid|id b c Hid|]; try (pose proof (Hts _ _ Hid) as Hpc; simpl in Hpc);
    split; simpl; try done; try threads_ok; try lia.
  - pose proof (Z.mod_pos_bound (current (mem w) + b) 18446744073709551616 ltac:(lia)). unfold as_u64 in *. subst. lia.
  - unfold saturating_sub. lia.
Qed.

Lemma memory_step_exact l w c w' : exact l w -> step w c w' -> disciplined w c -> exact l w'.
Proof.
  intros [Hbd Hfit Hh Hex] Hstep Hd. pose proof (memory_step_bounded _ _ _ _ Hbd Hstep) as Hbd'.
  destruct Hbd as [Hl Hts Hc Hp]. pose proof (in_flight_nonneg _ _ Hts) as H0. unfold disciplined in Hd.
  destruct Hstep as [id b Hid|id b Hid|id b Hid|id b c Hid|id b c Hid|id n Hid|id b Hid|id b Hid
    |id b c Hid|id b c Hid|]; try (pose proof (Hts _ _ Hid) as Hpc; pose proof (Hfit _ _ Hid) as Hpf; simpl in Hpc, Hpf);
    try (pose proof (in_flight_delete _ _ _ Hid) as Hdel; simpl in Hdel);
    split; simpl; try done; try threads_ok;
    rewrite ?in_flight_fresh, ?in_flight_insert by done; simpl; try lia.
  - rewrite as_u64_small; lia.
  - assert (0 <= in_flight (delete id (threads w))).
    { apply (in_flight_nonneg l). by apply map_Forall_delete. }
    unfold saturating_sub. rewrite Z.max_r; lia.
Qed.

Lemma memory_bounded l w w' : bounded l w -> rtc any_step w w' -> bounded l w'.
Proof. intros Hok Hr. induction Hr as [|? ? ? [? ?]]; eauto using memory_step_bounded. Qed.
Lemma memory_exact l w w' : exact l w -> rtc disciplined_step w w' -> exact l w'.
Proof. intros Hok Hr. induction Hr as [|? ? ? (? & ? & ?)]; eauto using memory_step_exact. Qed.
End MemoryLimiter.

(** ** Tenant quotas *)

Module Quotas.

Record TenantQuota := mk_quota {
  max_keys : Z;
  max_storage_bytes : Z;
  max_requests_per_second : Z }.

Definition default_tenant_quota : TenantQuota := mk_quota 10000 100000000 1000.

Record TenantUsage := mk_usage {
  keys_count : Z;
  storage_bytes : Z;
  request_timestamps : list Z }.

Definition TenantUsage_new : TenantUsage := mk_usage 0 0 [].

(** [duration_since] saturates at zero. *)
Definition prune_requests (window now : Z) (u : TenantUsage) : TenantUsage :=
  mk_usage (keys_count u) (storage_bytes u)
    (filter (fun t => saturating_sub now t < window) (request_timestamps u)).

Record QuotaManager := mk_manager {
  quotas : gmap string TenantQuota;
  usage : gmap string TenantUsage;
  default_quota : TenantQuota }.

Definition with_default_quota (q : TenantQuota) : QuotaManager := mk_manager ∅ ∅ q.
Definition new : QuotaManager := with_default_quota default_tenant_quota.

Definition quota_of (m : QuotaManager) (tenant : string) : TenantQuota :=
  default (default_quota m) (quotas m !! tenant).
Definition usage_of (m : QuotaManager) (tenant : string) : TenantUsage :=
  default TenantUsage_new (usage m !! tenant).
Definition set_usage (tenant : string) (u : TenantUsage) (m : QuotaManager) : QuotaManager :=
  mk_manager (quotas m) (<[tenant := u]> (usage m)) (default_quota m).

(** Why a check fails; the texts are dropped. *)
Inductive QuotaError : Set := KeyLimit | StorageLimit | RateLimit.

(** One second. *)
Definition rate_window : Z := 10 ^ 9.

(** [check_quota]: the additions wrap in the release profile. *)
Definition check_quota (tenant : string) (additional_keys additional_bytes now : Z)
    (m : QuotaManager) : (unit + QuotaError) * QuotaManager :=
  let q := quota_of m tenant in
  let u := usage_of m tenant in
  if max_keys q <? as_u64 (keys_count u + additional_keys)
  then (inr KeyLimit, set_usage tenant u m) else
  if max_storage_bytes q <? as_u64 (storage_bytes u + additional_bytes)
  then (inr StorageLimit, set_usage tenant u m) else
  let u := prune_requests rate_window now u in
  if max_requests_per_second q <=? len (request_timestamps u)
  then (inr RateLimit, set_usage tenant u m)
  else (inl tt, set_usage tenant u m).

(** A count changed by an [i64] delta. *)
Definition add_delta (count delta : Z) : Z :=
  if 0 <=? delta then saturating_add u64_max count (as_u64 delta)
  else saturating_sub count (as_u64 (- delta)).

Definition record_usage (tenant : string) (keys_delta bytes_delta now : Z) (m : QuotaManager) :
    QuotaManager :=
  let u := usage_of m tenant in
  set_usage tenant
    (mk_usage (add_delta (keys_count u) keys_delta) (add_delta (storage_bytes u) bytes_delta)
       (request_timestamps u ++ [now])) m.

Definition set_quota (tenant : string) (q : TenantQuota) (m : QuotaManager) : QuotaManager :=
  mk_manager (<[tenant := q]> (quotas m)) (usage m) (default_quota m).

Definition get_quota (tenant : string) (m : QuotaManager) : option TenantQuota := quotas m !! tenant.
Definition get_usage (tenant : string) (m : QuotaManager) : option TenantUsage := usage m !! tenant.
Definition all_usage (m : QuotaManager) : list (string * TenantUsage) := map_to_list (usage m).

Definition reset_usage (tenant : string) (m : QuotaManager) : QuotaManager :=
  set_usage tenant TenantUsage_new m.

(** The use the module documents: check, perform the operation, record it. *)
Definition guarded (tenant : string) (keys bytes now : Z) (m : QuotaManager) :
    (unit + QuotaError) * QuotaManager :=
  match check_quota tenant keys bytes now m with
  | (inl _, m) => (inl tt, record_usage tenant keys bytes now m)
  | (inr e, m) => (inr e, m)
  end.

Definition guarded_ops (ops : list (string * Z * Z * Z)) (m : QuotaManager) : QuotaManager :=
  foldl (fun m '(t, k, b, now) => (guarded t k b now m).2) m ops.

Definition within_quota (q : TenantQuota) (u : TenantUsage) : Prop :=
  0 <= keys_count u <= max_keys q /\ 0 <= storage_bytes u <= max_storage_bytes q.

(** The requests on record of the second before [now]. *)
Definition recent_requests (now : Z) (u : TenantUsage) : Z :=
  len (filter (fun t => saturating_sub now t < rate_window) (request_timestamps u)).

(** Quotas and operations that stay clear of the end of [u64]. *)
Definition quota_ok (q : TenantQuota) : Prop :=
  0 <= max_keys q < 2 ^ 63 /\ 0 <= max_storage_bytes q < 2 ^ 63.
Definition op_ok (op : string * Z * Z * Z) : Prop :=
  0 <= op.1.1.2 < 2 ^ 63 /\ 0 <= op.1.2 < 2 ^ 63.

Lemma usage_of_set tenant u m t :
  usage_of (set_usage tenant u m) t = if decide (t = tenant) then u else usage_of m t.
Proof. unfold usage_of. simpl. case_decide; subst; by simplify_map_eq. Qed.

Lemma quota_of_set tenant u m t : quota_of (set_usage tenant u m) t = quota_of m t.
Proof. done. Qed.

Lemma add_delta_nonneg c d :
  0 <= c < 2 ^ 63 -> 0 <= d < 2 ^ 63 -> add_delta c d = c + d /\ as_u64 (c + d) = c + d.
Proof.
  intros Hc Hd. unfold add_delta, as_u64, saturating_add, u64_max.
  case_cond; [|lia]. rewrite !Z.mod_small by lia. lia.
Qed.

Lemma within_new q : quota_ok q -> within_quota q TenantUsage_new.
Proof. intros [? ?]. unfold within_quota. simpl. lia. Qed.

Lemma recent_requests_snoc now u k b :
  recent_requests now (mk_usage k b (request_timestamps (prune_requests rate_window now u) ++ [now])) =
  len (request_timestamps (prune_requests rate_window now u)) + 1.
Proof.
  unfold recent_requests. simpl. rewrite filter_app, len_app.
  rewrite (filter_all _ (filter _ _)) by by intros t [? _]%list_elem_of_filter.
  rewrite filter_cons, filter_nil. rewrite decide_True; [done|].
  unfold saturating_sub, rate_window. lia.
Qed.

(** One guarded operation: accepted, it adds exactly its amounts and leaves the
    tenant within its quota and its rate; refused, it changes no count. *)
Lemma guarded_spec tenant k b now m :
  quota_ok (quota_of m tenant) -> 0 <= k < 2 ^ 63 -> 0 <= b < 2 ^ 63 ->
  within_quota (quota_of m tenant) (usage_of m tenant) ->
  exists ts,
    (guarded tenant k b now m).2 = set_usage tenant
      match (guarded tenant k b now m).1 with
      | inl _ => mk_usage (keys_count (usage_of m tenant) + k)
                   (storage_bytes (usage_of m tenant) + b) ts
      | inr _ => mk_usage (keys_count (usage_of m tenant)) (storage_bytes (usage_of m tenant)) ts
      end m /\
    within_quota (quota_of m tenant) (usage_of (guarded tenant k b now m).2 tenant) /\
    ((guarded tenant k b now m).1 = inl tt ->
       recent_requests now (usage_of (guarded tenant k b now m).2 tenant)
         <= max_requests_per_second (quota_of m tenant)).
Proof.
  intros [Hqk Hqs] Hk Hb [Hks Hst].
  destruct (add_delta_nonneg (keys_count (usage_of m tenant)) k) as [Ak Wk]; [lia..|].
  destruct (add_delta_nonneg (storage_bytes (usage_of m tenant)) b) as [Ab Wb]; [lia..|].
  unfold guarded, check_quota. rewrite Wk, Wb.
  set (u := usage_of m tenant) in *.
  assert (u = mk_usage (keys_count u) (storage_bytes u) (request_timestamps u)) as Eu by by destruct u.
  repeat case_cond; simpl; unfold record_usage; rewrite ?usage_of_set, ?decide_True by done.
  - eexists. split; [by rewrite Eu at 1|]. split; [by split|done].
  - eexists. split; [by rewrite Eu at 1|]. split; [by split|done].
  - eexists. split; [done|]. split; [by split|done].
  - exists (request_timestamps (prune_requests rate_window now u) ++ [now]). simpl keys_count. simpl storage_bytes.
    rewrite Ak, Ab. split; [|split].
    + unfold set_usage. simpl. by rewrite insert_insert_eq.
    + split; simpl; lia.
    + intros _. change (request_timestamps ?x ++ [now]) with (request_timestamps x ++ [now]).
      rewrite recent_requests_snoc. lia.
Qed.

Lemma guarded_ops_within ops m :
  Forall op_ok ops -> (forall t, quota_ok (quota_of m t)) ->
  (forall t, within_quota (quota_of m t) (usage_of m t)) ->
  forall t, quota_of (guarded_ops ops m) t = quota_of m t /\
    within_quota (quota_of m t) (usage_of (guarded_ops ops m) t).
Proof.
  intros Hops. revert m. induction Hops as [|[[[tn k] b] now] ops [Hk Hb] _ IH]; intros m Hq Hw t.
  { split; [done|apply Hw]. }
  simpl in *. destruct (guarded_spec tn k b now m) as (ts & Heq & Hin & _); [auto..|].
  assert (forall t, quota_of (guarded tn k b now m).2 t = quota_of m t) as Hqo.
  { intros t'. rewrite Heq. apply quota_of_set. }
  destruct (IH (guarded tn k b now m).2) with (t := t) as [H1 H2].
  - intros t'. by rewrite Hqo.
  - intros t'. rewrite Hqo. destruct (decide (t' = tn)) as [->|Hne]; [done|].
    rewrite Heq, usage_of_set, decide_False by done. apply Hw.
  - rewrite Hqo in H1, H2. done.
Qed.
End Quotas.

(** ** Query budgets *)

Module QueryBudget.

Record QueryBudget := mk_budget {
  max_key_reads : Z;
  max_bytes_scanned : Z;
  key_reads_used : Z;
  bytes_scanned_used : Z }.

Inductive Resource : Set := KeyReads | BytesScanned | GenericCost.

Record BudgetExhausted := mk_exhausted {
  resource : Resource;
  requested : Z;
  remaining_of : Z }.

Definition with_budget (max_key_reads max_bytes_scanned : Z) : QueryBudget :=
  mk_budget max_key_reads max_bytes_scanned 0 0.
Definition unlimited : QueryBudget := with_budget u64_max u64_max.

Definition remaining (b : QueryBudget) : Z := saturating_sub (max_key_reads b) (key_reads_used b).
Definition remaining_key_reads (b : QueryBudget) : Z := remaining b.
Definition remaining_bytes_scanned (b : QueryBudget) : Z :=
  saturating_sub (max_bytes_scanned b) (bytes_scanned_used b).

Definition spend_key_read (b : QueryBudget) : QueryBudget + BudgetExhausted :=
  if max_key_reads b <=? key_reads_used b
  then inr (mk_exhausted KeyReads 1 (remaining_key_reads b))
  else inl (mk_budget (max_key_reads b) (max_bytes_scanned b) (key_reads_used b + 1)
              (bytes_scanned_used b)).

Definition spend_bytes_scanned (bytes : Z) (b : QueryBudget) : QueryBudget + BudgetExhausted :=
  let new_total := saturating_add u64_max (bytes_scanned_used b) bytes in
  if max_bytes_scanned b <? new_total
  then inr (mk_exhausted BytesScanned bytes (remaining_bytes_scanned b))
  else inl (mk_budget (max_key_reads b) (max_bytes_scanned b) (key_reads_used b) new_total).

Definition spend (cost : Z) (b : QueryBudget) : QueryBudget + BudgetExhausted :=
  if remaining b <? cost
  then inr (mk_exhausted GenericCost cost (remaining b))
  else inl (mk_budget (max_key_reads b) (max_bytes_scanned b)
              (saturating_add u64_max (key_reads_used b) cost) (bytes_scanned_used b)).

Definition is_exhausted (b : QueryBudget) : bool := max_key_reads b <=? key_reads_used b.
Definition reset (b : QueryBudget) : QueryBudget :=
  with_budget (max_key_reads b) (max_bytes_scanned b).

Inductive charge := KeyRead | Scan (bytes : Z) | Cost (cost : Z).

Definition apply_charge (c : charge) (b : QueryBudget) : QueryBudget + BudgetExhausted :=
  match c with
  | KeyRead => spend_key_read b
  | Scan n => spend_bytes_scanned n b
  | Cost n => spend n b
  end.

(** The price of a charge in the two currencies. *)
Definition price (c : charge) : Z * Z :=
  match c with KeyRead => (1, 0) | Scan n => (0, n) | Cost n => (n, 0) end.

(** A query charges until it is done; refused charges leave the budget alone
    and are not counted among the granted ones. *)
Fixpoint charges (cs : list charge) (b : QueryBudget) : list charge * QueryBudget :=
  match cs with
  | [] => ([], b)
  | c :: cs =>
      match apply_charge c b with
      | inl b => let '(granted, b) := charges cs b in (c :: granted, b)
      | inr _ => charges cs b
      end
  end.

Definition ok (b : QueryBudget) : Prop :=
  0 <= key_reads_used b <= max_key_reads b /\ max_key_reads b <= u64_max /\
  0 <= bytes_scanned_used b <= max_bytes_scanned b /\ max_bytes_scanned b <= u64_max.

(** A charge is granted exactly when the budget has its price left. *)
Lemma apply_charge_spec c b :
  ok b -> 0 <= (price c).1 /\ 0 <= (price c).2 <= u64_max ->
  match apply_charge c b with
  | inl b' => ok b' /\ key_reads_used b' = key_reads_used b + (price c).1 /\
      bytes_scanned_used b' = Z.min u64_max (bytes_scanned_used b + (price c).2) /\
      max_key_reads b' = max_key_reads b /\ max_bytes_scanned b' = max_bytes_scanned b
  | inr _ => max_key_reads b < key_reads_used b + (price c).1 \/
      max_bytes_scanned b < bytes_scanned_used b + (price c).2
  end.
Proof.
  intros (Hk & Hkm & Hs & Hsm) Hp. unfold ok.
  destruct c as [|n|n]; simpl in *; unfold spend_key_read, spend_bytes_scanned, spend, remaining,
    saturating_add, saturating_sub in *; case_cond; simpl; lia.
Qed.

Definition charge_ok (c : charge) : Prop := 0 <= (price c).1 /\ 0 <= (price c).2 <= u64_max.

(** All charges of a query together stay within the budget. *)
Lemma charges_within cs b :
  ok b -> Forall charge_ok cs ->
  ok (charges cs b).2 /\
  key_reads_used (charges cs b).2 =
    key_reads_used b + sumZ (fun c => (price c).1) (charges cs b).1 /\
  max_key_reads (charges cs b).2 = max_key_reads b.
Proof.
  intros Hb Hcs. revert b Hb. induction Hcs as [|c cs Hc _ IH]; intros b Hb; simpl.
  { split; [done|]. split; [lia|done]. }
  pose proof (apply_charge_spec c b Hb Hc) as Hs. destruct (apply_charge c b) as [b'|e]; [|by apply IH].
  destruct Hs as (Hb' & Hk & _ & Hm & _). destruct (IH b' Hb') as (Hok & Hu & Hmax).
  destruct (charges cs b') as [g b'']. simpl in *. split; [done|]. split; [lia|congruence].
Qed.
End QueryBudget.

(** ** Idempotency keys *)

Module Idempotency.

Record CachedResponse := mk_response {
  body : bytes;
  status_code : Z;
  expires_at : Z;
  created_at : Z }.

Record IdempotencyMiddleware := mk_middleware {
  cache : gmap string CachedResponse;
  default_ttl : Z;   (** milliseconds *)
  hits : Z;
  misses : Z }.

Definition new (ttl : Z) : IdempotencyMiddleware := mk_middleware ∅ ttl 0 0.

Definition check_idempotency (key : string) (now : Z) (m : IdempotencyMiddleware) :
    option CachedResponse * IdempotencyMiddleware :=
  match cache m !! key with
  | Some entry =>
      if now <? expires_at entry
      then (Some entry, mk_middleware (cache m) (default_ttl m) (hits m + 1) (misses m))
      else (None, mk_middleware (delete key (cache m)) (default_ttl m) (hits m) (misses m + 1))
  | None => (None, mk_middleware (cache m) (default_ttl m) (hits m) (misses m + 1))
  end.

(** [default_ttl.as_millis() as u64] and the sum wrap at 64 bits. *)
Definition store_idempotency_with_status (key : string) (body : bytes) (status now : Z)
    (m : IdempotencyMiddleware) : IdempotencyMiddleware :=
  mk_middleware
    (<[key := mk_response body status (as_u64 (now + as_u64 (default_ttl m))) now]> (cache m))
    (default_ttl m) (hits m) (misses m).

Definition store_idempotency (key : string) (response : bytes) (now : Z)
    (m : IdempotencyMiddleware) : IdempotencyMiddleware :=
  store_idempotency_with_status key response 200 now m.

Definition cleanup_expired (now : Z) (m : IdempotencyMiddleware) : IdempotencyMiddleware :=
  mk_middleware (filter (fun p => now < expires_at p.2) (cache m)) (default_ttl m) (hits m) (misses m).

Definition remove (key : string) (m : IdempotencyMiddleware) : IdempotencyMiddleware :=
  mk_middleware (delete key (cache m)) (default_ttl m) (hits m) (misses m).

Definition clear (m : IdempotencyMiddleware) : IdempotencyMiddleware :=
  mk_middleware ∅ (default_ttl m) (hits m) (misses m).

Inductive call :=
| Check (key : string) (now : Z)
| Store (key : string) (body : bytes) (status now : Z)
| Cleanup (now : Z)
| Remove (key : string).

Definition run_call (m : IdempotencyMiddleware) (c : call) : IdempotencyMiddleware :=
  match c with
  | Check k now => (check_idempotency k now m).2
  | Store k b s now => store_idempotency_with_status k b s now m
  | Cleanup now => cleanup_expired now m
  | Remove k => remove k m
  end.

(** A call that can neither replace nor outlive the entry of [key]. *)
Definition leaves (key : string) (deadline : Z) (c : call) : Prop :=
  match c with
  | Check k now => k = key -> now < deadline
  | Store k _ _ _ | Remove k => k <> key
  | Cleanup now => now < deadline
  end.

Lemma run_call_keeps key e m c :
  cache m !! key = Some e -> leaves key (expires_at e) c -> cache (run_call m c) !! key = Some e.
Proof.
  intros He Hc. destruct c as [k now|k b s now|now|k]; simpl in *.
  - unfold check_idempotency. destruct (cache m !! k) as [e'|] eqn:Ek; [|done].
    case_cond; simpl; [done|]. rewrite lookup_delete_ne; [done|]. intros ->. simplify_eq. specialize (Hc eq_refl). lia.
  - by rewrite lookup_insert_ne.
  - by apply map_lookup_filter_Some.
  - by rewrite lookup_delete_ne.
Qed.

Lemma run_calls_keep key e m cs :
  cache m !! key = Some e -> Forall (leaves key (expires_at e)) cs ->
  cache (foldl run_call m cs) !! key = Some e.
Proof.
  intros He Hcs. revert m He. induction Hcs; intros m He; simpl; [done|].
  eauto using run_call_keeps.
Qed.
End Idempotency.

(** ** What the limits guarantee *)

(** C22: Under every interleaving of the loops of [try_allocate] and [release]
    and of [reset], with any amounts, neither the usage the memory limiter
    reports nor the recorded peak exceeds the limit.  If callers keep to their
    side - requests that added to the limit fit a [usize], releases of memory
    that is held, no reset while a release runs - the usage is exactly what they
    hold plus what running releases have still to give back. *)
Theorem memory_limiter_exact l w :
  0 <= l ->
  (rtc MemoryLimiter.any_step (MemoryLimiter.start l) w ->
   0 <= MemoryLimiter.current (MemoryLimiter.mem w) <= l /\
   MemoryLimiter.peak (MemoryLimiter.mem w) <= l) /\
  (rtc MemoryLimiter.disciplined_step (MemoryLimiter.start l) w ->
   MemoryLimiter.current (MemoryLimiter.mem w) =
     MemoryLimiter.held w + MemoryLimiter.in_flight (MemoryLimiter.threads w)).
Proof.
  intros Hl. pose proof (MemoryLimiter.memory_new_exact l Hl) as Hnew. split; intros Hr.
  - by eapply MemoryLimiter.memory_bounded in Hr as [_ _ Hc Hp]; [|apply Hnew].
  - by eapply MemoryLimiter.memory_exact in Hr as [_ _ _ Hex].
Qed.

(** Checked and then recorded operations never take a tenant over its quota of
    keys or bytes, whatever the order of operations and tenants. *)
Theorem quotas_respected q ops t :
  Quotas.quota_ok q -> Forall Quotas.op_ok ops ->
  Quotas.within_quota q (Quotas.usage_of (Quotas.guarded_ops ops (Quotas.with_default_quota q)) t).
Proof.
  intros Hq Hops. apply (Quotas.guarded_ops_within ops (Quotas.with_default_quota q) Hops).
  - done.
  - intros t'. by apply Quotas.within_new.
Qed.

(** A stored response is replayed: until its time to live is over, and as long
    as nobody stores or removes the same key, a check returns exactly the
    response that was stored, whatever other calls came in between. *)
Theorem idempotent_replay m key b status now later cs :
  0 <= now -> 0 <= Idempotency.default_ttl m -> now + Idempotency.default_ttl m <= u64_max ->
  Forall (Idempotency.leaves key (now + Idempotency.default_ttl m)) cs ->
  later < now + Idempotency.default_ttl m ->
  (Idempotency.check_idempotency key later
     (foldl Idempotency.run_call
        (Idempotency.store_idempotency_with_status key b status now m) cs)).1 =
  Some (Idempotency.mk_response b status (now + Idempotency.default_ttl m) now).
Proof.
  intros Hn Ht Hfit Hcs Hlater. unfold u64_max in *.
  set (e := Idempotency.mk_response b status (now + Idempotency.default_ttl m) now).
  assert (Idempotency.cache (foldl Idempotency.run_call
    (Idempotency.store_idempotency_with_status key b status now m) cs) !! key = Some e) as He.
  { apply Idempotency.run_calls_keep; [|done]. simpl. rewrite lookup_insert_eq.
    unfold as_u64. by rewrite (Z.mod_small (Idempotency.default_ttl m)), Z.mod_small by lia. }
  unfold Idempotency.check_idempotency. rewrite He. simpl. case_cond; [done|lia].
Qed.
