(* ===== verification/AccessControl.v ===== *)
(** * AccessControl: policies on keys ([src/src/infra/access_control.rs])

    Rules are tried in order and the first that matches decides; without a match
    access is denied.  Names, patterns and contexts are texts, here their UTF-8
    bytes; a key is matched through [String::from_utf8_lossy]. *)
From Stdlib Require Import ZArith Lia.
From stdpp Require Import base tactics numbers list gmap.
From S2P Require Import Prelude Bytes Utf8.

Inductive Effect : Set := Allow | Deny.
#[global] Instance Effect_eq_dec : EqDecision Effect.
Proof. solve_decision. Defined.

Inductive Operation : Set := Read | Write | Delete | Admin.
#[global] Instance Operation_eq_dec : EqDecision Operation.
Proof. solve_decision. Defined.

Record AccessPolicy := mk_policy {
  name : bytes;
  operation : Operation;
  key_pattern : bytes;
  effect : Effect;
  context_matchers : gmap bytes bytes }.

(** The field [policies] of [AccessController]. *)
Notation AccessController := (list AccessPolicy).

Definition AccessController_new : AccessController := [].

(** The position of the first policy with a name is replaced, or the policy is
    appended.  The name looked for is the argument, not the policy's own. *)
Fixpoint set_policy (n : bytes) (p : AccessPolicy) (ac : AccessController) : AccessController :=
  match ac with
  | [] => [p]
  | q :: ac => if decide (name q = n) then p :: ac else q :: set_policy n p ac
  end.

Definition remove_policy (n : bytes) (ac : AccessController) : AccessController :=
  filter (fun p => name p <> n) ac.

(** The character [*]. *)
Definition star : Byte.byte := Byte.x2a.

Definition strip_suffix_star (pattern : bytes) : option bytes :=
  match last pattern with
  | Some b => if decide (b = star) then Some (removelast pattern) else None
  | None => None
  end.

Definition strip_prefix_star (pattern : bytes) : option bytes :=
  match pattern with
  | b :: rest => if decide (b = star) then Some rest else None
  | [] => None
  end.

Definition key_matches_pattern (key pattern : bytes) : bool :=
  let key_str := from_utf8_lossy key in
  if decide (pattern = [star]) then true else
  match strip_suffix_star pattern with
  | Some prefix => starts_with key_str prefix
  | None =>
      match strip_prefix_star pattern with
      | Some suffix => ends_with key_str suffix
      | None => bool_decide (key_str = pattern)
      end
  end.

Definition context_matches (matchers context : gmap bytes bytes) : bool :=
  forallb (fun '(k, v) => bool_decide (context !! k = Some v)) (map_to_list matchers).

Definition policy_matches (op : Operation) (key : bytes) (context : gmap bytes bytes)
    (p : AccessPolicy) : bool :=
  bool_decide (operation p = op) && key_matches_pattern key (key_pattern p) &&
  context_matches (context_matchers p) context.

Fixpoint check_permission (op : Operation) (key : bytes) (context : gmap bytes bytes)
    (ac : AccessController) : bool :=
  match ac with
  | [] => false
  | p :: ac =>
      if bool_decide (operation p <> op) then check_permission op key context ac
      else if negb (key_matches_pattern key (key_pattern p)) then check_permission op key context ac
      else if negb (context_matches (context_matchers p) context)
           then check_permission op key context ac
      else bool_decide (effect p = Allow)
  end.

(** ** Patterns *)

(** The language the documentation describes: [*] stands for any sequence of
    characters, every other character for itself. *)
Inductive glob : bytes -> bytes -> Prop :=
| glob_nil : glob [] []
| glob_char b s p : b <> star -> glob s p -> glob (b :: s) (b :: p)
| glob_skip s p : glob s p -> glob s (star :: p)
| glob_any b s p : glob s (star :: p) -> glob (b :: s) (star :: p).

Lemma glob_star s1 s2 p : glob s2 p -> glob (s1 ++ s2) (star :: p).
Proof. intros. induction s1; simpl; by constructor. Qed.

Lemma glob_all s : glob s [star].
Proof. rewrite <- (app_nil_r s). apply glob_star. constructor. Qed.

Lemma glob_star_inv s p : glob s (star :: p) -> exists s1 s2, s = s1 ++ s2 /\ glob s2 p.
Proof.
  intros Hg. remember (star :: p) as q eqn:Eq. induction Hg as [|b s q' Hb _ _|s q' Hg _|b s q' Hg IH];
    simplify_eq.
  - by exists [], s.
  - destruct (IH eq_refl) as (s1 & s2 & -> & Hs2). by exists (b :: s1), s2.
Qed.

Lemma glob_literal s l p : star ∉ l -> glob s (l ++ p) <-> exists s', s = l ++ s' /\ glob s' p.
Proof.
  revert s. induction l as [|b l IH]; intros s Hl; simpl.
  { split; [by exists s|]. intros (s' & -> & ?). done. }
  apply not_elem_of_cons in Hl as [Hb Hl]. split.
  - inversion 1 as [|? s' ? ? Hg| |]; simplify_eq. apply IH in Hg as (s'' & -> & ?); [|done]. eauto.
  - intros (s' & -> & Hs'). constructor; [done|]. apply IH; [done|]. eauto.
Qed.

Lemma removelast_snoc {A} (l : list A) x : removelast (l ++ [x]) = l.
Proof. by rewrite removelast_app, app_nil_r. Qed.

Lemma starts_with_glob s p : star ∉ p -> starts_with s p = true <-> glob s (p ++ [star]).
Proof.
  intros Hp. rewrite starts_with_spec, glob_literal by done.
  split; intros (r & -> & ?) || intros (r & ->); exists r; auto using glob_all.
Qed.

Lemma ends_with_glob s p : star ∉ p -> ends_with s p = true <-> glob s (star :: p).
Proof.
  intros Hp. unfold ends_with. rewrite starts_with_spec. split.
  - intros (r & Hr). apply (f_equal reverse) in Hr. rewrite reverse_involutive, reverse_app, reverse_involutive in Hr.
    subst s. apply glob_star. rewrite <- (app_nil_r p) at 2. apply glob_literal; [done|].
    exists []. rewrite app_nil_r. split; [done|constructor].
  - intros (s1 & s2 & -> & Hg)%glob_star_inv. rewrite <- (app_nil_r p) in Hg.
    apply glob_literal in Hg as (s' & -> & Hn); [|done]. inversion Hn; subst.
    rewrite app_nil_r, reverse_app. by exists (reverse s1).
Qed.

(** The patterns the implementation understands: no star, or one at an end. *)
Definition simple_pattern (p : bytes) : Prop :=
  star ∉ p \/ (exists q, p = q ++ [star] /\ star ∉ q) \/ (exists q, p = star :: q /\ star ∉ q).

Lemma key_matches_glob key p :
  simple_pattern p -> key_matches_pattern key p = true <-> glob (from_utf8_lossy key) p.
Proof.
  intros Hp. unfold key_matches_pattern. case_decide as Hstar.
  { subst. split; [intros _; apply glob_all|done]. }
  destruct Hp as [Hp|[(q & -> & Hq)|(q & -> & Hq)]].
  - assert (strip_suffix_star p = None) as ->.
    { unfold strip_suffix_star. destruct (last p) as [b|] eqn:El; [|done].
      rewrite decide_False; [done|]. intros ->. apply last_Some_elem_of in El. done. }
    assert (strip_prefix_star p = None) as ->.
    { destruct p as [|b p]; simpl; [done|]. rewrite decide_False; [done|]. set_solver. }
    pose proof (glob_literal (from_utf8_lossy key) p [] Hp) as Hg. rewrite app_nil_r in Hg.
    rewrite bool_decide_eq_true, Hg. split.
    + intros ->. exists []. rewrite app_nil_r. split; [done|constructor].
    + intros (s' & -> & Hn). inversion Hn. apply app_nil_r.
  - unfold strip_suffix_star. rewrite last_snoc. cbn match. rewrite decide_True, removelast_snoc by done.
    by apply starts_with_glob.
  - assert (strip_suffix_star (star :: q) = None) as ->.
    { unfold strip_suffix_star. destruct q as [|b q] using rev_ind; [done|].
      rewrite app_comm_cons, last_snoc. cbn match. rewrite decide_False; [done|]. set_solver. }
    simpl. by apply ends_with_glob.
Qed.

(** ** Contexts and the first match *)

Lemma context_matches_spec matchers context : context_matches matchers context = true <-> matchers ⊆ context.
Proof.
  unfold context_matches. rewrite forallb_forall, map_subseteq_spec. split.
  - intros Hf k v Hkv. apply elem_of_map_to_list, list_elem_of_In in Hkv. apply Hf in Hkv.
    by apply bool_decide_eq_true in Hkv.
  - intros Hs [k v] Hin%list_elem_of_In%elem_of_map_to_list. apply bool_decide_eq_true. auto.
Qed.

Lemma check_permission_find op key context ac :
  check_permission op key context ac =
  match list_find (fun p => policy_matches op key context p = true) ac with
  | Some (_, p) => bool_decide (effect p = Allow)
  | None => false
  end.
Proof.
  induction ac as [|p ac IH]; simpl; [done|].
  assert (forall o, match (prod_map S id <$> o : option (nat * AccessPolicy)) with
    | Some (_, p) => bool_decide (effect p = Allow) | None => false end =
    match o with Some (_, p) => bool_decide (effect p = Allow) | None => false end) as Ho.
  { by intros [[]|]. }
  rewrite bool_decide_not. case_decide as Hd; unfold policy_matches in Hd.
  - apply andb_true_iff in Hd as [[-> ->]%andb_true_iff ->]. done.
  - rewrite Ho, <- IH. destruct (bool_decide (operation p = op)); [|done].
    destruct (key_matches_pattern _ _); [|done]. by destruct (context_matches _ _).
Qed.

(** A policy matches: its operation, its glob on the key as text, its context. *)
Definition applies (op : Operation) (key : bytes) (context : gmap bytes bytes) (p : AccessPolicy) : Prop :=
  operation p = op /\ glob (from_utf8_lossy key) (key_pattern p) /\ context_matchers p ⊆ context.

Lemma policy_matches_applies op key context p :
  simple_pattern (key_pattern p) ->
  policy_matches op key context p = true <-> applies op key context p.
Proof.
  intros Hp. unfold policy_matches, applies.
  rewrite !andb_true_iff, bool_decide_eq_true, key_matches_glob, context_matches_spec by done. tauto.
Qed.

(** Access control is first match with default deny: with patterns that have
    at most one star, at an end, an operation is permitted exactly when some rule
    allows it, applies to it in the sense of globs and contexts, and no earlier
    rule applies. *)
Theorem access_first_match op key context ac :
  Forall (fun p => simple_pattern (key_pattern p)) ac ->
  check_permission op key context ac = true <->
  exists before p after, ac = before ++ p :: after /\ effect p = Allow /\
    applies op key context p /\ Forall (fun q => ~ applies op key context q) before.
Proof.
  intros Hs. rewrite Forall_forall in Hs. rewrite check_permission_find. split.
  - destruct (list_find _ ac) as [[i p]|] eqn:E; [|done]. intros He%bool_decide_eq_true.
    apply list_find_Some in E as (Hi & Hm & Hbefore). exists (take i ac), p, (drop (S i) ac).
    split; [symmetry; by apply take_drop_middle|]. split; [done|].
    split; [apply policy_matches_applies; [apply Hs; by eapply list_elem_of_lookup_2|done]|].
    apply Forall_forall. intros q (j & Hj)%list_elem_of_lookup_1 Ha.
    apply lookup_take_Some in Hj as [Hj Hlt]. apply (Hbefore j q Hj Hlt).
    apply policy_matches_applies; [apply Hs; by eapply list_elem_of_lookup_2|done].
  - intros (before & p & after & -> & He & Ha & Hb). rewrite Forall_forall in Hb.
    assert (list_find (fun p => policy_matches op key context p = true) (before ++ p :: after) =
            Some (length before, p)) as ->; [|by apply bool_decide_eq_true].
    apply list_find_Some. split; [by apply list_lookup_middle|].
    split; [apply policy_matches_applies; [apply Hs; set_solver|done]|].
    intros j q Hj Hlt Hm. rewrite lookup_app_l in Hj by done.
    apply (Hb q); [by eapply list_elem_of_lookup_2|].
    apply policy_matches_applies; [apply Hs|done].
    apply elem_of_app. left. by eapply list_elem_of_lookup_2.
Qed.
