(* ===== verification/DataSync.v ===== *)
(** * DataSync: differences between two stores and their resolution
    ([src/src/infra/data_sync.rs])

    The local engine and the remote are trait objects: classes here, over the
    types of their states and of the errors they report.  [diff] gives one entry
    per key on which the two sides differ, in the order in which the hash maps give
    their keys; [resolve_conflicts] picks a side.  The theorems say what the
    resolved entries make of a side they are applied to. *)
From Stdlib Require Import ZArith Lia.
From stdpp Require Import base tactics numbers list gmap.
From S2P Require Import Prelude Bytes.
Local Open Scope Z_scope.

Notation DataMap := (gmap bytes (bytes * Z)).
Notation DataEntries := (list (bytes * bytes * Z)).

Inductive SyncDirection := Pull | Push | TwoWay.

Record DiffEntry := mkDiffEntry {
  de_key : bytes;
  local_value : option bytes;
  remote_value : option bytes;
  local_timestamp : Z;
  remote_timestamp : Z;
}.

Record SyncResult := mkSyncResult {
  keys_synced : Z;
  conflicts_resolved : Z;
}.

Class RemoteBackend (E R : Type) := {
  fetch_all : R -> E + DataMap;
  push : DataEntries -> R -> (E + unit) * R;
}.

Class LocalEngine (E L : Type) := {
  all_entries : L -> E + DataEntries;
  apply_batch : DataEntries -> L -> (E + unit) * L;
}.

(** The order in which a [HashMap] gives its entries. *)
Class HashOrder := {
  hash_order : DataMap -> list (bytes * (bytes * Z));
  hash_order_perm m : hash_order m ≡ₚ map_to_list m;
}.

(** Upserts, one entry after the other. *)
Fixpoint upsert (m : DataMap) (es : DataEntries) : DataMap :=
  match es with
  | [] => m
  | (key, v, ts) :: es => upsert (<[key := (v, ts)]> m) es
  end.

(** [collect] into a [HashMap]: the last entry of a key stays. *)
Definition collect (es : DataEntries) : DataMap := upsert ∅ es.

Lemma upsert_other m es key : key ∉ ((fun e => e.1.1) <$> es) -> upsert m es !! key = m !! key.
Proof.
  revert m; induction es as [|[[k v] ts] es IH]; intros m; [done|]. cbn. intros [Hne Hn]%not_elem_of_cons.
  rewrite (IH _ Hn). by apply lookup_insert_ne.
Qed.

Lemma upsert_elem m es key v ts :
  NoDup ((fun e => e.1.1) <$> es) -> (key, v, ts) ∈ es -> upsert m es !! key = Some (v, ts).
Proof.
  revert m; induction es as [|[[k v'] ts'] es IH]; intros m; [by intros _ ?%elem_of_nil|].
  cbn. intros [Hn Hnd]%NoDup_cons [[= <- <- <-]|Hin]%elem_of_cons; [|by apply IH].
  rewrite (upsert_other _ _ _ Hn). apply lookup_insert_eq.
Qed.

(** Keys that a function keeps stay distinct under [filter_map]. *)
Lemma omap_keys_NoDup {A B K : Type} (f : A -> option B) (key : A -> K) (key' : B -> K) l :
  (forall a b, f a = Some b -> key' b = key a) -> NoDup (key <$> l) -> NoDup (key' <$> omap f l).
Proof.
  intros Hf. induction l as [|a l IH]; [done|]. cbn. intros [Hn Hnd]%NoDup_cons.
  destruct (f a) as [b|] eqn:E; [|by apply IH]. cbn. apply NoDup_cons. split; [|by apply IH].
  rewrite (Hf a b E). intros (b' & Hb & (a' & Ha' & E')%list_elem_of_omap)%list_elem_of_fmap.
  apply Hn. rewrite Hb, (Hf a' b' E'). by apply list_elem_of_fmap_2.
Qed.

(** ** The operations *)

Section sync.
Context `{!HashOrder}.

(** The first loop of [diff]. *)
Definition local_diff (remote_map : DataMap) (e : bytes * (bytes * Z)) : option DiffEntry :=
  let '(key, (local_val, local_ts)) := e in
  match remote_map !! key with
  | Some (remote_val, remote_ts) =>
      if bytes_eqb local_val remote_val && (local_ts =? remote_ts) then None
      else Some (mkDiffEntry key (Some local_val) (Some remote_val) local_ts remote_ts)
  | None => Some (mkDiffEntry key (Some local_val) None local_ts 0)
  end.

(** The second loop. *)
Definition remote_diff (local_map : DataMap) (e : bytes * (bytes * Z)) : option DiffEntry :=
  let '(key, (remote_val, remote_ts)) := e in
  match local_map !! key with
  | Some _ => None
  | None => Some (mkDiffEntry key None (Some remote_val) 0 remote_ts)
  end.

Definition diff_maps (local_map remote_map : DataMap) : list DiffEntry :=
  omap (local_diff remote_map) (hash_order local_map) ++
  omap (remote_diff local_map) (hash_order remote_map).

Definition resolve_entry (direction : SyncDirection) (e : DiffEntry) : option (bytes * bytes * Z) :=
  let remote := (fun v => (de_key e, v, remote_timestamp e)) <$> remote_value e in
  let local := (fun v => (de_key e, v, local_timestamp e)) <$> local_value e in
  match direction with
  | Pull => remote
  | Push => local
  | TwoWay => if local_timestamp e <=? remote_timestamp e then remote else local
  end.

Definition resolve_conflicts (entries : list DiffEntry) (direction : SyncDirection) : DataEntries :=
  omap (resolve_entry direction) entries.

Section objects.
Context {E L R : Type} `{!LocalEngine E L} `{!RemoteBackend E R}.

Definition diff (local : L) (remote : R) : E + list DiffEntry :=
  match all_entries local with
  | inl e => inl e
  | inr es =>
      let local_map := collect es in
      match fetch_all remote with
      | inl e => inl e
      | inr remote_map => inr (diff_maps local_map remote_map)
      end
  end.

(** Neither side is written. *)
Definition sync (direction : SyncDirection) (local : L) (remote : R) : E + SyncResult :=
  match diff local remote with
  | inl e => inl e
  | inr diffs =>
      let resolved := resolve_conflicts diffs direction in
      inr (mkSyncResult (Z.of_nat (length resolved)) (Z.of_nat (length diffs)))
  end.
End objects.

(** ** What an entry says of the two sides *)

(** The entry of [key] when the sides hold [l] and [r] for it. *)
Definition diff_of (key : bytes) (l r : option (bytes * Z)) : DiffEntry :=
  mkDiffEntry key (fst <$> l) (fst <$> r) (default 0 (snd <$> l)) (default 0 (snd <$> r)).

Lemma elem_of_hash_order (m : DataMap) key p : (key, p) ∈ hash_order m <-> m !! key = Some p.
Proof. rewrite hash_order_perm. apply elem_of_map_to_list. Qed.

Lemma NoDup_hash_order (m : DataMap) : NoDup (hash_order m).*1.
Proof. rewrite hash_order_perm. apply NoDup_fst_map_to_list. Qed.

Lemma local_diff_Some rm key p d :
  local_diff rm (key, p) = Some d <-> Some p <> rm !! key /\ d = diff_of key (Some p) (rm !! key).
Proof.
  destruct p as [lv lt]. cbn. destruct (rm !! key) as [[rv rt]|]; cbn; [|naive_solver].
  destruct (bytes_eqb_spec lv rv), (Z.eqb_spec lt rt); cbn; naive_solver.
Qed.

Lemma remote_diff_Some lm key p d :
  remote_diff lm (key, p) = Some d <-> lm !! key = None /\ d = diff_of key None (Some p).
Proof. destruct p as [rv rt]. cbn. destruct (lm !! key); cbn; naive_solver. Qed.

Lemma elem_of_diff_maps lm rm d :
  d ∈ diff_maps lm rm <->
  lm !! de_key d <> rm !! de_key d /\ d = diff_of (de_key d) (lm !! de_key d) (rm !! de_key d).
Proof.
  unfold diff_maps. rewrite elem_of_app, !list_elem_of_omap. split.
  - intros [([k p] & Hk%elem_of_hash_order & Hd)|([k p] & Hk%elem_of_hash_order & Hd)].
    + apply local_diff_Some in Hd as [Hne ->]. cbn. by rewrite Hk.
    + apply remote_diff_Some in Hd as [Hn ->]. cbn. by rewrite Hn, Hk.
  - intros [Hne Hd]. destruct (lm !! de_key d) as [p|] eqn:El.
    + left. exists (de_key d, p). split; [by apply elem_of_hash_order|]. by apply local_diff_Some.
    + destruct (rm !! de_key d) as [p|] eqn:Er; [|done].
      right. exists (de_key d, p). split; [by apply elem_of_hash_order|]. by apply remote_diff_Some.
Qed.

Lemma diff_maps_NoDup lm rm : NoDup (de_key <$> diff_maps lm rm).
Proof.
  unfold diff_maps. rewrite fmap_app. apply NoDup_app. split_and!.
  - apply (omap_keys_NoDup _ fst); [|apply NoDup_hash_order].
    intros [k p] d [_ ->]%local_diff_Some. done.
  - intros k (d & -> & ([k' p] & Hk%elem_of_hash_order & [_ ->]%local_diff_Some)%list_elem_of_omap)%list_elem_of_fmap.
    intros (d & E & ([k2 p2] & _ & [Hn ->]%remote_diff_Some)%list_elem_of_omap)%list_elem_of_fmap.
    cbn in E. subst. congruence.
  - apply (omap_keys_NoDup _ fst); [|apply NoDup_hash_order].
    intros [k p] d [_ ->]%remote_diff_Some. done.
Qed.

(** ** What the resolved entries make of a side *)

(** The side that wins on a key. *)
Definition winner (direction : SyncDirection) (l r : option (bytes * Z)) : option (bytes * Z) :=
  match direction with
  | Pull => r
  | Push => l
  | TwoWay => if default 0 (snd <$> l) <=? default 0 (snd <$> r) then r else l
  end.

Lemma resolve_diff_of direction key l r v ts :
  resolve_entry direction (diff_of key l r) = Some (key, v, ts) <-> winner direction l r = Some (v, ts).
Proof.
  destruct direction, l as [[lv lt]|], r as [[rv rt]|]; cbn; try case_cond; naive_solver.
Qed.

Lemma resolve_key direction d e : resolve_entry direction d = Some e -> e.1.1 = de_key d.
Proof.
  destruct direction, d as [k [lv|] [rv|] lt rt]; cbn; try case_cond; intros; simplify_eq; done.
Qed.

Lemma elem_of_resolved direction lm rm key v ts :
  (key, v, ts) ∈ resolve_conflicts (diff_maps lm rm) direction <->
  lm !! key <> rm !! key /\ winner direction (lm !! key) (rm !! key) = Some (v, ts).
Proof.
  unfold resolve_conflicts. rewrite list_elem_of_omap. split.
  - intros (d & [Hne Hd]%elem_of_diff_maps & Hr). pose proof (resolve_key _ _ _ Hr) as Hk. cbn in Hk.
    rewrite <- Hk in Hne, Hd. rewrite Hd in Hr. by apply resolve_diff_of in Hr.
  - intros [Hne Hw]. exists (diff_of key (lm !! key) (rm !! key)).
    split; [by apply elem_of_diff_maps|by apply resolve_diff_of].
Qed.

Lemma resolved_NoDup direction lm rm :
  NoDup ((fun e => e.1.1) <$> resolve_conflicts (diff_maps lm rm) direction).
Proof.
  apply (omap_keys_NoDup _ de_key); [|apply diff_maps_NoDup]. intros d e. apply resolve_key.
Qed.

(** A side to which the resolved entries are applied holds, for each key on which
    the sides differ, the winner if there is one, and else what it held. *)
Lemma upsert_resolved direction lm rm m key :
  upsert m (resolve_conflicts (diff_maps lm rm) direction) !! key =
  if decide (lm !! key = rm !! key) then m !! key
  else match winner direction (lm !! key) (rm !! key) with Some p => Some p | None => m !! key end.
Proof.
  pose proof (resolved_NoDup direction lm rm) as Hnd.
  assert (Hout : (forall v ts, (key, v, ts) ∉ resolve_conflicts (diff_maps lm rm) direction) ->
    upsert m (resolve_conflicts (diff_maps lm rm) direction) !! key = m !! key).
  { intros Hn. apply upsert_other.
    intros ([[k v] ts] & -> & He)%list_elem_of_fmap. by apply (Hn v ts). }
  case_decide as Heq.
  { apply Hout. by intros v ts [? _]%elem_of_resolved. }
  destruct (winner direction (lm !! key) (rm !! key)) as [[v ts]|] eqn:Hw.
  - apply upsert_elem; [done|]. by apply elem_of_resolved.
  - apply Hout. intros v ts [_ ?]%elem_of_resolved. congruence.
Qed.

(** One entry per key on which the sides differ, with both values and timestamps
    (zero for the side that lacks the key). *)
Theorem data_diff_exact lm rm :
  NoDup (de_key <$> diff_maps lm rm) /\
  forall key d, (d ∈ diff_maps lm rm /\ de_key d = key) <->
    (lm !! key <> rm !! key /\ d = diff_of key (lm !! key) (rm !! key)).
Proof.
  split; [apply diff_maps_NoDup|]. intros key d. rewrite elem_of_diff_maps.
  split; [by intros [? <-]|]. by intros [? ->].
Qed.

(** Applying the resolved entries to the written side makes it the other side, and
    what only it holds stays; after a two-way resolution both sides hold the newer
    entry of every key, the remote one of equally old ones, provided that an entry
    only the local side holds has a timestamp above zero. *)
Theorem data_sync_converges lm rm :
  upsert lm (resolve_conflicts (diff_maps lm rm) Pull) = rm ∪ lm /\
  upsert rm (resolve_conflicts (diff_maps lm rm) Push) = lm ∪ rm /\
  ((forall key v ts, lm !! key = Some (v, ts) -> rm !! key = None -> 0 < ts) ->
   (forall key v ts, rm !! key = Some (v, ts) -> 0 <= ts) ->
   let newest := union_with (fun l r => Some (if l.2 <=? r.2 then r else l)) lm rm in
   upsert lm (resolve_conflicts (diff_maps lm rm) TwoWay) = newest /\
   upsert rm (resolve_conflicts (diff_maps lm rm) TwoWay) = newest).
Proof.
  split; [|split].
  1,2: apply map_eq; intros key; rewrite upsert_resolved, lookup_union; cbn [winner];
    destruct (lm !! key), (rm !! key); case_decide; simplify_eq; done.
  intros Hl Hr newest. split; apply map_eq; intros key;
    rewrite upsert_resolved; subst newest; rewrite lookup_union_with; cbn [winner];
    specialize (Hl key); specialize (Hr key);
    destruct (lm !! key) as [[lv lt]|], (rm !! key) as [[rv rt]|]; cbn;
    case_decide; simplify_eq; repeat case_cond; try done.
  all: try (specialize (Hl lv lt eq_refl eq_refl); lia).
  all: specialize (Hr rv rt eq_refl); lia.
Qed.
End sync.
