(* ===== verification/DataTiering.v ===== *)
(** * DataTiering: hot, warm and cold keys ([src/src/infra/models/data_tiering.rs])

    The tier of each tracked key, with its last access and the number of accesses.
    The clock is an argument of the operations that read it, in nanoseconds.  The
    theorems say when accesses promote a key, what a maintenance pass changes, and
    that the counts per tier are a partition of the tracked keys. *)
From Stdlib Require Import ZArith Lia.
From stdpp Require Import base tactics numbers list gmap.
From S2P Require Import Prelude Bytes.
Local Open Scope Z_scope.

Inductive Tier := Hot | Warm | Cold.
#[global] Instance Tier_eq_dec : EqDecision Tier.
Proof. solve_decision. Defined.
#[global] Instance Tier_countable : Countable Tier.
Proof.
  refine (inj_countable' (fun t => match t with Hot => 0 | Warm => 1 | Cold => 2 end)%nat
    (fun n => match n with 0 => Hot | 1 => Warm | _ => Cold end)%nat _).
  by intros [].
Defined.

Record TierEntry := mkTierEntry {
  tier : Tier;
  last_access : Z;
  access_count : Z;
}.

Record DataTieringConfig := mkDataTieringConfig {
  entries : gmap bytes TierEntry;
  hot_threshold : Z;
  cold_age_secs : Z;
  default_tier : Tier;
}.

(** A hint for compaction: a tier and the keys to consider in it. *)
Record CompactionHint := mkCompactionHint {
  hint_tier : Tier;
  hint_keys : list bytes;
}.

Definition new (hot_threshold cold_age_secs : Z) : DataTieringConfig :=
  mkDataTieringConfig ∅ hot_threshold cold_age_secs Warm.

Definition with_entries (c : DataTieringConfig) (es : gmap bytes TierEntry) : DataTieringConfig :=
  mkDataTieringConfig es (hot_threshold c) (cold_age_secs c) (default_tier c).

Definition with_tier (e : TierEntry) (t : Tier) : TierEntry :=
  mkTierEntry t (last_access e) (access_count e).

(** The body of [record_access] on an entry. *)
Definition access (threshold now : Z) (e : TierEntry) : TierEntry :=
  let count := Z.min u64_max (access_count e + 1) in
  let t := if (threshold <=? count) && bool_decide (tier e = Warm) then Hot else tier e in
  mkTierEntry t now count.

Definition record_access (key : bytes) (now : Z) (c : DataTieringConfig) : DataTieringConfig :=
  match entries c !! key with
  | Some e => with_entries c (<[key := access (hot_threshold c) now e]> (entries c))
  | None => c
  end.

(** [promote] and [demote], which fail ([None]) on a key that is not tracked. *)
Definition set_tier (t : Tier) (key : bytes) (c : DataTieringConfig) : option DataTieringConfig :=
  match entries c !! key with
  | Some e => Some (with_entries c (<[key := with_tier e t]> (entries c)))
  | None => None
  end.
Definition promote : bytes -> DataTieringConfig -> option DataTieringConfig := set_tier Hot.
Definition demote : bytes -> DataTieringConfig -> option DataTieringConfig := set_tier Cold.

(** The index [self.entries[key]] panics on a key that is not tracked. *)
Definition get_tier (key : bytes) (now : Z) (c : DataTieringConfig) : outcome Tier * DataTieringConfig :=
  match entries c !! key with
  | None =>
      (Ok (default_tier c),
       with_entries c (<[key := mkTierEntry (default_tier c) now 0]> (entries c)))
  | Some _ =>
      let c := record_access key now c in
      (expect (tier <$> entries c !! key), c)
  end.

Definition set_default_tier (t : Tier) (c : DataTieringConfig) : DataTieringConfig :=
  mkDataTieringConfig (entries c) (hot_threshold c) (cold_age_secs c) t.

(** The body of [age_out] on an entry. *)
Definition age (now cold_age_ns : Z) (e : TierEntry) : TierEntry :=
  if bool_decide (tier e <> Cold) && (cold_age_ns <? Z.max 0 (now - last_access e))
  then with_tier e Cold else e.

Definition age_out (now : Z) (c : DataTieringConfig) : DataTieringConfig :=
  let cold_age_ns := cold_age_secs c * 1000000000 in
  with_entries c (age now cold_age_ns <$> entries c).

Definition forget (key : bytes) (c : DataTieringConfig) : DataTieringConfig :=
  with_entries c (delete key (entries c)).

Definition tracked_keys (c : DataTieringConfig) : Z := Z.of_nat (size (entries c)).

(** [tier_counts]; a map from tiers, whatever the order of the entries. *)
Definition count_tier (counts : gmap Tier Z) (e : TierEntry) : gmap Tier Z :=
  <[tier e := default 0 (counts !! tier e) + 1]> counts.
Definition tier_counts (c : DataTieringConfig) : gmap Tier Z :=
  foldl count_tier ∅ (map_to_list (entries c)).*2.

Definition should_compact_to_tier (t : Tier) : bool :=
  match t with Hot | Warm => true | Cold => false end.

Definition get_tier_for_key (key : bytes) (c : DataTieringConfig) : option Tier :=
  tier <$> entries c !! key.

Definition keys_for_tier (t : Tier) (c : DataTieringConfig) : list bytes :=
  (filter (fun e => tier e.2 = t) (map_to_list (entries c))).*1.

(** ** Accesses *)

(** A run of [get_tier] on a key, one access per clock reading. *)
Fixpoint accesses (key : bytes) (nows : list Z) (c : DataTieringConfig) : DataTieringConfig :=
  match nows with
  | [] => c
  | now :: nows => accesses key nows (get_tier key now c).2
  end.

Lemma get_tier_tracked key now c e :
  entries c !! key = Some e ->
  get_tier key now c =
  (Ok (tier (access (hot_threshold c) now e)),
   with_entries c (<[key := access (hot_threshold c) now e]> (entries c))).
Proof.
  intros E. unfold get_tier, record_access. rewrite E. cbn.
  by rewrite lookup_insert_eq.
Qed.

Lemma get_tier_answers key now c :
  exists t, get_tier key now c = (Ok t, (get_tier key now c).2) /\
    get_tier_for_key key (get_tier key now c).2 = Some t.
Proof.
  destruct (entries c !! key) as [e|] eqn:E.
  - rewrite (get_tier_tracked _ _ _ _ E). eexists; split; [done|].
    unfold get_tier_for_key. cbn. by rewrite lookup_insert_eq.
  - unfold get_tier. rewrite E. eexists; split; [done|].
    unfold get_tier_for_key. cbn. by rewrite lookup_insert_eq.
Qed.

(** A warm key is hot after [n] more accesses exactly when its count reaches the
    threshold; the count saturates and the other keys keep their entries. *)
Lemma accesses_tracked key nows c e :
  entries c !! key = Some e -> 0 <= access_count e <= u64_max ->
  let n := Z.of_nat (length nows) in
  exists e', entries (accesses key nows c) = <[key := e']> (entries c) /\
    access_count e' = Z.min u64_max (access_count e + n) /\
    tier e' = if bool_decide (tier e = Warm /\ 0 < n /\ hot_threshold c <= access_count e')
              then Hot else tier e.
Proof.
  revert c e; induction nows as [|now nows IH]; intros c e E He n; subst n; cbn [length accesses].
  { exists e. split; [by rewrite insert_id|]. split; [lia|]. rewrite bool_decide_eq_false_2 by lia. done. }
  rewrite (get_tier_tracked _ _ _ _ E). cbn [snd]. set (a := access (hot_threshold c) now e).
  assert (Ha : access_count a = Z.min u64_max (access_count e + 1)) by done.
  destruct (IH (with_entries c (<[key := a]> (entries c))) a) as (e' & Ee & Hc & Ht);
    [apply lookup_insert_eq|lia|].
  exists e'. split; [|split].
  - rewrite Ee. cbn. by rewrite insert_insert_eq.
  - lia.
  - rewrite Ht. cbn [hot_threshold with_entries]. subst a. unfold access in *. cbn [tier access_count] in *.
    destruct (Z.leb_spec (hot_threshold c) (Z.min u64_max (access_count e + 1))), (decide (tier e = Warm)) as [Hw|Hw];
      cbn [andb]; repeat case_bool_decide; try done; try (rewrite Hw in *); try done; naive_solver lia.
Qed.

(** What the accesses do to a key that is not tracked: the first one tracks it
    with the default tier and does not count; [n] more make a warm key hot exactly
    when [n] is at least one and reaches the threshold.  Every access answers the
    tier the key then has, and none touches another key. *)
Theorem accesses_promote key now nows c :
  entries c !! key = None -> hot_threshold c <= u64_max ->
  let c' := accesses key (now :: nows) c in
  let n := Z.of_nat (length nows) in
  get_tier_for_key key c' =
    Some (if bool_decide (default_tier c = Warm /\ 1 <= n /\ hot_threshold c <= n) then Hot else default_tier c) /\
  (forall other, other <> key -> entries c' !! other = entries c !! other).
Proof.
  intros E Ht c' n. subst c' n. cbn [accesses]. unfold get_tier. rewrite E. cbn [snd].
  set (c1 := with_entries c _).
  destruct (accesses_tracked key nows c1 (mkTierEntry (default_tier c) now 0)) as (e' & Ee & Hc & Hte);
    [apply lookup_insert_eq|cbn; unfold u64_max; lia|].
  split.
  - unfold get_tier_for_key. rewrite Ee, lookup_insert_eq. cbn [fmap option_fmap option_map]. f_equal.
    rewrite Hte, Hc. subst c1. cbn [tier access_count hot_threshold with_entries].
    erewrite bool_decide_ext; [done|]. naive_solver lia.
  - intros other Hne. rewrite Ee, lookup_insert_ne by done. subst c1. cbn. by rewrite lookup_insert_ne.
Qed.

(** A key that is cold stays so whatever accesses it sees: only [promote] moves it. *)
Lemma cold_stays key nows c e :
  entries c !! key = Some e -> tier e = Cold -> 0 <= access_count e <= u64_max ->
  get_tier_for_key key (accesses key nows c) = Some Cold.
Proof.
  intros E Hc He. destruct (accesses_tracked key nows c e E He) as (e' & Ee & _ & Ht).
  unfold get_tier_for_key. rewrite Ee, lookup_insert_eq. cbn. f_equal. rewrite Ht, Hc.
  rewrite bool_decide_eq_false_2; [done|]. by intros [? _].
Qed.

(** Promotion and demotion fail exactly on keys that are not tracked, and change
    nothing but the tier of the key. *)
Theorem set_tier_exact t key c :
  (set_tier t key c = None <-> get_tier_for_key key c = None) /\
  forall c', set_tier t key c = Some c' ->
    get_tier_for_key key c' = Some t /\
    (forall other, other <> key -> entries c' !! other = entries c !! other) /\
    (forall other, (last_access <$> entries c' !! other) = (last_access <$> entries c !! other) /\
                   (access_count <$> entries c' !! other) = (access_count <$> entries c !! other)).
Proof.
  unfold set_tier, get_tier_for_key. destruct (entries c !! key) as [e|] eqn:E; [|by split].
  split; [done|]. intros c' [= <-]. cbn. rewrite lookup_insert_eq. split; [done|].
  split; [intros other Hne; by rewrite lookup_insert_ne|].
  intros other. destruct (decide (other = key)) as [->|Hne]; [|by rewrite lookup_insert_ne].
  by rewrite lookup_insert_eq, E.
Qed.

(** ** Maintenance *)

Lemma age_idem now ns e : age now ns (age now ns e) = age now ns e.
Proof.
  destruct e as [t la n]. unfold age, with_tier. cbn [tier last_access access_count].
  destruct (Z.ltb_spec ns (Z.max 0 (now - la))) as [Hlt|Hge]; destruct t; cbn; try done.
  all: rewrite andb_false_r; cbn [tier last_access]; apply Z.ltb_ge in Hge; by rewrite Hge, andb_false_r.
Qed.

(** A pass makes exactly the keys idle for longer than the configured age cold,
    with their access statistics kept; a second pass at the same time changes
    nothing. *)
Theorem age_out_exact now c :
  (forall key, entries (age_out now c) !! key =
    (fun e => if bool_decide (cold_age_secs c * 1000000000 < Z.max 0 (now - last_access e))
              then with_tier e Cold else e) <$> entries c !! key) /\
  age_out now (age_out now c) = age_out now c.
Proof.
  split.
  - intros key. unfold age_out. cbn. rewrite lookup_fmap. destruct (entries c !! key) as [[t la n]|]; [|done].
    cbn. f_equal. unfold age, with_tier. cbn. destruct (Z.ltb_spec (cold_age_secs c * 1000000000) (Z.max 0 (now - la)));
      repeat case_bool_decide; try lia; try done. by destruct t.
  - unfold age_out, with_entries. cbn. f_equal. rewrite <- map_fmap_compose.
    apply map_fmap_ext. intros key e _. apply age_idem.
Qed.

(** ** Counts *)

Lemma count_tier_spec es counts t :
  default 0 (foldl count_tier counts es !! t) =
  default 0 (counts !! t) + Z.of_nat (length (filter (fun e => tier e = t) es)).
Proof.
  revert counts; induction es as [|e es IH]; intros counts; [cbn; lia|].
  cbn [foldl]. rewrite IH. unfold count_tier. rewrite filter_cons.
  destruct (decide (tier e = t)) as [<-|Hne].
  - rewrite lookup_insert_eq. cbn. lia.
  - by rewrite lookup_insert_ne.
Qed.

Lemma length_keys_for_tier t c :
  length (keys_for_tier t c) = length (filter (fun e => tier e = t) (map_to_list (entries c)).*2).
Proof.
  unfold keys_for_tier. rewrite length_fmap. induction (map_to_list (entries c)) as [|[k e] es IH]; [done|].
  cbn [fmap list_fmap]. rewrite !filter_cons. cbn. case_decide; cbn; by rewrite IH.
Qed.

Lemma tiers_partition es :
  (length (filter (fun e => tier e = Hot) es) + length (filter (fun e => tier e = Warm) es) +
   length (filter (fun e => tier e = Cold) es) = length es)%nat.
Proof.
  induction es as [|[t la n] es IH]; [done|]. rewrite !filter_cons. cbn.
  destruct t; repeat case_decide; simplify_eq; cbn; lia.
Qed.

(** The counts are those of the keys of each tier, which are the keys the lookup
    reports in it, and add up to the tracked keys. *)
Theorem tier_counts_exact c :
  (forall t, default 0 (tier_counts c !! t) = Z.of_nat (length (keys_for_tier t c))) /\
  (forall t key, key ∈ keys_for_tier t c <-> get_tier_for_key key c = Some t) /\
  default 0 (tier_counts c !! Hot) + default 0 (tier_counts c !! Warm) + default 0 (tier_counts c !! Cold) =
    tracked_keys c.
Proof.
  assert (Hc : forall t, default 0 (tier_counts c !! t) =
    Z.of_nat (length (filter (fun e => tier e = t) (map_to_list (entries c)).*2))).
  { intros t. unfold tier_counts. by rewrite count_tier_spec. }
  split; [|split].
  - intros t. by rewrite Hc, length_keys_for_tier.
  - intros t key. unfold keys_for_tier, get_tier_for_key. rewrite list_elem_of_fmap, fmap_Some. split.
    + intros ([k e] & -> & [Ht He%elem_of_map_to_list]%list_elem_of_filter). exists e. by split.
    + intros (e & He & ->). exists (key, e). split; [done|]. apply list_elem_of_filter.
      by rewrite elem_of_map_to_list.
  - rewrite !Hc. pose proof (tiers_partition (map_to_list (entries c)).*2) as Hp.
    rewrite length_fmap, length_map_to_list in Hp. unfold tracked_keys. lia.
Qed.
