(* ===== verification/Cdc.v ===== *)
(** * Cdc: change events, their publishers and webhook triggers
    ([src/src/infra/cdc.rs], [src/src/infra/events.rs],
    [src/src/infra/webhook_triggers.rs], and the events of [core/engine/mod.rs])

    Publishers are trait objects: a collector, a webhook client, the event bus, or
    a list of publishers that all receive every event.  The HTTP client, the JSON of
    an event and the broadcast channel are parameters; the world of a publication
    is the network and the one event bus that its clones share.  Texts are bytes. *)
From Stdlib Require Import ZArith Lia.
From stdpp Require Import base tactics numbers list gmap strings.
From S2P Require Import Prelude Bytes Utf8 Text Engine.
Local Open Scope Z_scope.

Record CdcConfig := mkCdcConfig {
  enabled : bool;
  endpoint : option bytes;
  auth_header : option bytes;
  timeout_secs : option Z;
}.

Definition disabled : CdcConfig := mkCdcConfig false None None None.
Definition with_endpoint (url : bytes) : CdcConfig := mkCdcConfig true (Some url) None None.
Definition with_auth_header (c : CdcConfig) (header : bytes) : CdcConfig :=
  mkCdcConfig (enabled c) (endpoint c) (Some header) (timeout_secs c).

Inductive CdcEventType := Put | Delete.
#[global] Instance CdcEventType_eq_dec : EqDecision CdcEventType.
Proof. solve_decision. Defined.

Record CdcEvent := mkCdcEvent {
  event_type : CdcEventType;
  ev_cf : bytes;
  ev_key : bytes;
  ev_value : option bytes;
  ev_timestamp : Z;
}.

(** The timeout is in seconds; the agent is the client built from it. *)
Record WebhookPublisher := mkWebhookPublisher {
  wp_endpoint : bytes;
  wp_auth : option (bytes * bytes);
  wp_timeout : Z;
  success_count : Z;
  failure_count : Z;
}.

Record HttpRequest := mkHttpRequest {
  rq_url : bytes;
  rq_headers : list (bytes * bytes);
  rq_body : bytes;
  rq_timeout : Z;
}.

(** What the publishers use: a POST either fails or answers whether its status is
    a success; [serde_json] on an event; sending on the broadcast channel of the
    event bus, whose result the bus drops. *)
Class CdcEnv (N Ch Er : Type) := {
  http_send : HttpRequest -> N -> (Er + bool) * N;
  event_to_json : CdcEvent -> option bytes;
  broadcast_send : CdcEvent -> Ch -> Ch;
}.

Inductive Publisher :=
| CdcCollector (events : list CdcEvent)
| Webhook (p : WebhookPublisher)
| EventBus
| MultiPublisher (publishers : list Publisher).

Record World (N Ch : Type) := mkWorld {
  net : N;
  bus_enabled : bool;
  bus_channel : Ch;
}.
Arguments mkWorld {_ _} _ _ _.
Arguments net {_ _} _.
Arguments bus_enabled {_ _} _.
Arguments bus_channel {_ _} _.

(** Adding nothing to each of a list of lists. *)
Lemma fmap_app_nil {A : Type} (ess : list (list A)) : (fun es => es ++ []) <$> ess = ess.
Proof. etrans; [|apply list_fmap_id]. apply list_fmap_ext. intros i es _. apply app_nil_r. Qed.

(** Adding twice. *)
Lemma fmap_app_app {A : Type} (xs ys : list A) (ess : list (list A)) :
  (fun es => es ++ ys) <$> ((fun es => es ++ xs) <$> ess) = (fun es => es ++ (xs ++ ys)) <$> ess.
Proof. rewrite <- list_fmap_compose. apply list_fmap_ext. intros i es _. cbn. by rewrite <- app_assoc. Qed.

(** ** Webhook client *)

Definition WebhookPublisher_new (url : bytes) : WebhookPublisher :=
  mkWebhookPublisher url None 30 0 0.
Definition with_timeout (p : WebhookPublisher) (secs : Z) : WebhookPublisher :=
  mkWebhookPublisher (wp_endpoint p) (wp_auth p) secs (success_count p) (failure_count p).
Definition with_auth (p : WebhookPublisher) (name value : bytes) : WebhookPublisher :=
  mkWebhookPublisher (wp_endpoint p) (Some (name, value)) (wp_timeout p) (success_count p) (failure_count p).
Definition cdc_metrics (p : WebhookPublisher) : Z * Z := (success_count p, failure_count p).

(** [fetch_add] on the counters wraps. *)
Definition count_delivery (success : bool) (p : WebhookPublisher) : WebhookPublisher :=
  let add (n : Z) := (n + 1) mod 2 ^ 64 in
  mkWebhookPublisher (wp_endpoint p) (wp_auth p) (wp_timeout p)
    (if success then add (success_count p) else success_count p)
    (if success then failure_count p else add (failure_count p)).

Definition content_type : bytes * bytes :=
  Eval vm_compute in (lit "Content-Type", lit "application/json").

Definition webhook_request (p : WebhookPublisher) (json : bytes) : HttpRequest :=
  mkHttpRequest (wp_endpoint p)
    (content_type :: match wp_auth p with Some h => [h] | None => [] end) json (wp_timeout p).

Section publish.
Context {N Ch Er : Type} `{!CdcEnv N Ch Er}.

(** The loop over the attempts; [None] when each failed. *)
Fixpoint send_attempts (attempts : nat) (rq : HttpRequest) (n : N) : option bool * N :=
  match attempts with
  | O => (None, n)
  | S attempts =>
      match http_send rq n with
      | (inr success, n) => (Some success, n)
      | (inl _, n) => send_attempts attempts rq n
      end
  end.

(** The result is whether the publication succeeded. *)
Definition webhook_publish (event : CdcEvent) (p : WebhookPublisher) (n : N)
    : bool * WebhookPublisher * N :=
  match event_to_json event with
  | None => (false, p, n)
  | Some json =>
      match send_attempts 3 (webhook_request p json) n with
      | (Some success, n) => (true, count_delivery success p, n)
      | (None, n) => (false, count_delivery false p, n)
      end
  end.

Definition bus_publish (event : CdcEvent) (w : World N Ch) : World N Ch :=
  if bus_enabled w then mkWorld (net w) true (broadcast_send event (bus_channel w)) else w.

Definition set_enabled (b : bool) (w : World N Ch) : World N Ch :=
  mkWorld (net w) b (bus_channel w).

(** [publish] of the trait, by the publisher it is called on. *)
Fixpoint publish (event : CdcEvent) (p : Publisher) (w : World N Ch) : bool * Publisher * World N Ch :=
  match p with
  | CdcCollector events => (true, CdcCollector (events ++ [event]), w)
  | Webhook p =>
      let '(ok, p, n) := webhook_publish event p (net w) in
      (ok, Webhook p, mkWorld n (bus_enabled w) (bus_channel w))
  | EventBus => (true, EventBus, bus_publish event w)
  | MultiPublisher ps =>
      let '(ps, w) :=
        (fix publish_all (ps : list Publisher) (w : World N Ch) : list Publisher * World N Ch :=
           match ps with
           | [] => ([], w)
           | p :: ps =>
               let '(_, p, w) := publish event p w in
               let '(ps, w) := publish_all ps w in (p :: ps, w)
           end) ps w in
      (true, MultiPublisher ps, w)
  end.

(** ** The engine's side *)

Definition create_publisher (config : CdcConfig) : option Publisher :=
  if negb (enabled config) then None
  else match endpoint config with
       | Some ((_ :: _) as url) =>
           let p := WebhookPublisher_new url in
           let p := match timeout_secs config with Some secs => with_timeout p secs | None => p end in
           let p := match auth_header config with
                    | Some auth =>
                        match split_once Byte.x3a auth with
                        | Some (name, value) => with_auth p (str_trim name) (str_trim value)
                        | None => with_auth p (lit "Authorization") (lit "Bearer " ++ auth)
                        end
                    | None => p
                    end in
           Some (Webhook p)
       | _ => Some (CdcCollector [])
       end.

Record CdcState := mkCdcState {
  cdc_config : CdcConfig;
  publisher : option Publisher;
}.

Definition set_cdc (config : CdcConfig) : CdcState := mkCdcState config (create_publisher config).
Definition set_cdc_publisher (p : Publisher) : CdcState :=
  mkCdcState (mkCdcConfig true None None None) (Some p).

Definition change_event (cf key : bytes) (value : option bytes) (now : Z) : CdcEvent :=
  mkCdcEvent (if value then Put else Delete) cf key value now.

Definition publish_cdc_event (cf key : bytes) (value : option bytes) (now : Z)
    (s : CdcState) (w : World N Ch) : CdcState * World N Ch :=
  match publisher s with
  | Some p =>
      let '(_, p, w) := publish (change_event cf key value now) p w in
      (mkCdcState (cdc_config s) (Some p), w)
  | None => (s, w)
  end.

(** ** What the publishers do with an event *)

(** [k] sends that each fail. *)
Inductive failed_sends (rq : HttpRequest) : nat -> N -> N -> Prop :=
| no_sends n : failed_sends rq 0 n n
| failed_send k n e n1 n2 :
    http_send rq n = (inl e, n1) -> failed_sends rq k n1 n2 -> failed_sends rq (S k) n n2.

Lemma send_attempts_spec attempts rq n :
  (exists k success n1 n2, (k < attempts)%nat /\ failed_sends rq k n n1 /\
     http_send rq n1 = (inr success, n2) /\ send_attempts attempts rq n = (Some success, n2)) \/
  (exists n1, failed_sends rq attempts n n1 /\ send_attempts attempts rq n = (None, n1)).
Proof.
  revert n; induction attempts as [|a IH]; intros n; cbn.
  { right. exists n. split; [constructor|done]. }
  destruct (http_send rq n) as [[e|b] n1] eqn:E.
  - destruct (IH n1) as [(k & b & n2 & n3 & Hk & Hf & Hs & Ea)|(n2 & Hf & Ea)]; [left|right].
    + exists (S k), b, n2, n3. split; [lia|]. split; [by econstructor|done].
    + exists n2. split; [by econstructor|done].
  - left. exists 0%nat, b, n, n1. split; [lia|]. split; [constructor|done].
Qed.

(** A webhook delivery of an event that serialises makes at most three requests
    and stops at the first response; it succeeds when there is one, and moves one
    of the two counters: that of successes when the status is a success. *)
Theorem webhook_publish_exact event p n json :
  event_to_json event = Some json ->
  let rq := webhook_request p json in
  (exists k success n1 n2, (k < 3)%nat /\ failed_sends rq k n n1 /\ http_send rq n1 = (inr success, n2) /\
     webhook_publish event p n = (true, count_delivery success p, n2)) \/
  (exists n1, failed_sends rq 3 n n1 /\ webhook_publish event p n = (false, count_delivery false p, n1)).
Proof.
  intros Hj rq. unfold webhook_publish. rewrite Hj. fold rq.
  destruct (send_attempts_spec 3 rq n) as [(k & b & n1 & n2 & Hk & Hf & Hs & ->)|(n1 & Hf & ->)];
    [left; by exists k, b, n1, n2|right; by exists n1].
Qed.

(** The events of the collectors of a publisher, at any depth. *)
Fixpoint collected (p : Publisher) : list (list CdcEvent) :=
  match p with
  | CdcCollector events => [events]
  | Webhook _ | EventBus => []
  | MultiPublisher ps => flat_map collected ps
  end.

(** Induction over publishers and the lists in them. *)
Lemma Publisher_nested_ind (P : Publisher -> Prop) :
  (forall es, P (CdcCollector es)) -> (forall p, P (Webhook p)) -> P EventBus ->
  (forall ps, Forall P ps -> P (MultiPublisher ps)) -> forall p, P p.
Proof.
  intros HC HW HB HM. fix IH 1. intros [es|p| |ps]; [apply HC|apply HW|apply HB|].
  apply HM. induction ps as [|p ps IHps]; constructor; [apply IH|apply IHps].
Qed.

(** Every collector receives the event, whatever the other publishers do. *)
Lemma publish_collected event p w :
  collected (publish event p w).1.2 = (fun es => es ++ [event]) <$> collected p.
Proof.
  revert w; induction p as [es|p| |ps IH] using Publisher_nested_ind; intros w; try done.
  { cbn. destruct (webhook_publish event p (net w)) as [[ok p'] n]. done. }
  cbn [publish collected].
  match goal with |- context [(?F ps w)] => set (publish_all := F) end.
  assert (Hall : forall w, flat_map collected (publish_all ps w).1 = (fun es => es ++ [event]) <$> flat_map collected ps).
  { clear w. induction IH as [|p ps Hp _ IHps]; intros w; [done|].
    cbn [publish_all flat_map]. rewrite fmap_app. specialize (Hp w).
    destruct (publish event p w) as [[ok p'] w1]. specialize (IHps w1).
    fold publish_all. destruct (publish_all ps w1) as [ps' w2]. cbn in *. by rewrite Hp, IHps. }
  specialize (Hall w). destruct (publish_all ps w) as [ps' w']. exact Hall.
Qed.

(** A run of the engine's notifications. *)
Fixpoint publish_changes (changes : list (bytes * bytes * option bytes * Z))
    (s : CdcState) (w : World N Ch) : CdcState * World N Ch :=
  match changes with
  | [] => (s, w)
  | (cf, key, value, now) :: changes =>
      let '(s, w) := publish_cdc_event cf key value now s w in publish_changes changes s w
  end.

Definition events_of (changes : list (bytes * bytes * option bytes * Z)) : list CdcEvent :=
  (fun c => let '(cf, key, value, now) := c in change_event cf key value now) <$> changes.

(** Every collector holds the changes in the order in which they were made, with
    the failures of other publishers of the same state ignored. *)
Theorem collectors_receive_changes changes s w :
  (collected <$> publisher (publish_changes changes s w).1) =
  (fun css => (fun es => es ++ events_of changes) <$> css) <$> (collected <$> publisher s).
Proof.
  revert s w; induction changes as [|[[[cf key] value] now] changes IH]; intros s w; cbn [publish_changes].
  { destruct (publisher s) as [p|] eqn:E; cbn; rewrite E; cbn; [|done]. by rewrite fmap_app_nil. }
  unfold publish_cdc_event. destruct (publisher s) as [p|] eqn:E.
  - pose proof (publish_collected (change_event cf key value now) p w) as Hp.
    destruct (publish (change_event cf key value now) p w) as [[ok p'] w1]. cbn in Hp.
    rewrite IH. cbn [publisher fmap option_fmap option_map]. f_equal. by rewrite Hp, fmap_app_app.
  - rewrite IH, E. done.
Qed.
End publish.

(** ** Filters of subscribers ([events.rs]) *)

Record EventQuery := mkEventQuery {
  eq_prefix : option bytes;
  eq_type : option bytes;
}.

Definition type_matches `{!Unicode} (evt_type : bytes) (event : CdcEvent) : bool :=
  let t := to_lowercase evt_type in
  if bytes_eqb t (lit "put") then bool_decide (event_type event = Put)
  else if bytes_eqb t (lit "delete") then bool_decide (event_type event = Delete)
  else true.

Definition query_matches `{!Unicode} (q : EventQuery) (event : CdcEvent) : bool :=
  match eq_prefix q with
  | Some prefix => starts_with (from_utf8_lossy (ev_key event)) prefix
  | None => true
  end &&
  match eq_type q with
  | Some evt_type => type_matches evt_type event
  | None => true
  end.

Lemma type_matches_spec `{!Unicode} t event :
  type_matches t event = true <->
  (to_lowercase t = lit "put" -> event_type event = Put) /\
  (to_lowercase t = lit "delete" -> event_type event = Delete).
Proof.
  unfold type_matches. destruct (bytes_eqb_spec (to_lowercase t) (lit "put")) as [->|Hp].
  { rewrite bool_decide_eq_true. split; [by intros|]. intros [H1 _]. auto. }
  destruct (bytes_eqb_spec (to_lowercase t) (lit "delete")) as [->|Hd]; [|by split].
  rewrite bool_decide_eq_true. split; [by intros|]. intros [_ H2]. auto.
Qed.

(** A filter passes the events under its prefix and of its type; a type it does
    not know passes all. *)
Theorem query_matches_exact `{!Unicode} q event :
  query_matches q event = true <->
  (forall prefix, eq_prefix q = Some prefix -> exists rest, from_utf8_lossy (ev_key event) = prefix ++ rest) /\
  (forall t, eq_type q = Some t ->
     (to_lowercase t = lit "put" -> event_type event = Put) /\
     (to_lowercase t = lit "delete" -> event_type event = Delete)).
Proof.
  unfold query_matches. rewrite andb_true_iff. destruct q as [[prefix|] [t|]]; cbn [eq_prefix eq_type].
  all: rewrite ?starts_with_spec, ?type_matches_spec.
  all: split; [intros [H1 H2]|intros [H1 H2]]; split; try done; intros; simplify_eq; eauto.
Qed.
