(* ===== verification/Webhooks.v ===== *)
(** * Webhooks: triggers on key prefixes ([src/src/infra/webhook_triggers.rs])

    A registry of pairs of a prefix and a URL, and a storage engine that triggers
    the matching entries after each successful write.  The engine it wraps is the
    trait [StorageEngine] of [src/src/infra/models/multi_model.rs], a class here.
    The registry is a set of pairs; a write publishes one event per matching pair,
    after the write and only when it succeeds. *)
From Stdlib Require Import ZArith Lia.
From stdpp Require Import base tactics numbers list gmap strings.
From S2P Require Import Prelude Bytes Utf8 Text Engine Cdc.
Local Open Scope Z_scope.

(** The writes of [StorageEngine]; errors are texts. *)
Class StorageEngine (S : Type) := {
  se_set : bytes -> bytes -> S -> (bytes + unit) * S;
  se_delete : bytes -> S -> (bytes + unit) * S;
}.

Record WebhookEntry := mkWebhookEntry {
  prefix : bytes;
  url : bytes;
}.
#[global] Instance WebhookEntry_eq_dec : EqDecision WebhookEntry.
Proof. solve_decision. Defined.

Definition WebhookRegistry : Type := list WebhookEntry.

Inductive RegisterError := EmptyUrl | EmptyPrefix.

(** ** The registry *)

Definition is_entry (p u : bytes) (e : WebhookEntry) : bool :=
  bytes_eqb (prefix e) p && bytes_eqb (url e) u.

Definition register (p u : bytes) (r : WebhookRegistry) : (RegisterError + unit) * WebhookRegistry :=
  if bytes_eqb u [] then (inl EmptyUrl, r)
  else if bytes_eqb p [] then (inl EmptyPrefix, r)
  else if existsb (is_entry p u) r then (inr tt, r)
  else (inr tt, r ++ [mkWebhookEntry p u]).

Definition unregister (p u : bytes) (r : WebhookRegistry) : bool * WebhookRegistry :=
  let r' := List.filter (fun e => negb (is_entry p u e)) r in
  ((length r' <? length r)%nat, r').

Definition matching (key : bytes) (r : WebhookRegistry) : list WebhookEntry :=
  List.filter (fun e => starts_with (from_utf8_lossy key) (prefix e)) r.

Definition webhook_list (r : WebhookRegistry) : list (bytes * bytes) :=
  (fun e => (prefix e, url e)) <$> r.
Definition registry_len (r : WebhookRegistry) : Z := Z.of_nat (length r).
Definition matching_count (key : bytes) (r : WebhookRegistry) : Z := Z.of_nat (length (matching key r)).

Section triggers.
Context {N Ch Er : Type} `{!CdcEnv N Ch Er}.

(** The loop over the matching entries; the entry is not used. *)
Fixpoint publish_each (ms : list WebhookEntry) (event : CdcEvent) (p : Publisher) (w : World N Ch)
    : Publisher * World N Ch :=
  match ms with
  | [] => (p, w)
  | _ :: ms => let '(_, p, w) := publish event p w in publish_each ms event p w
  end.

Definition trigger (key : bytes) (value : option bytes) (now : Z) (r : WebhookRegistry)
    (p : Publisher) (w : World N Ch) : Z * Publisher * World N Ch :=
  match matching key r with
  | [] => (0, p, w)
  | ms =>
      let event := mkCdcEvent (if value then Put else Delete) (lit "default") key value now in
      let '(p, w) := publish_each ms event p w in (Z.of_nat (length ms), p, w)
  end.

Record WebhookAwareEngine (S : Type) := mkWebhookAwareEngine {
  inner : S;
  registry : WebhookRegistry;
  wa_publisher : Publisher;
}.
Arguments mkWebhookAwareEngine {_} _ _ _.
Arguments inner {_} _.
Arguments registry {_} _.
Arguments wa_publisher {_} _.

Section engine.
Context {S : Type} `{!StorageEngine S}.

(** The trigger of both operations, when the inner call succeeds. *)
Definition triggered (result : (bytes + unit) * S) (key : bytes) (value : option bytes) (now : Z)
    (e : WebhookAwareEngine S) (w : World N Ch) : (bytes + unit) * WebhookAwareEngine S * World N Ch :=
  match result with
  | (inl err, s) => (inl err, mkWebhookAwareEngine s (registry e) (wa_publisher e), w)
  | (inr _, s) =>
      let '(_, p, w) := trigger key value now (registry e) (wa_publisher e) w in
      (inr tt, mkWebhookAwareEngine s (registry e) p, w)
  end.

Definition wa_put (key value : bytes) (now : Z) (e : WebhookAwareEngine S) (w : World N Ch)
    : (bytes + unit) * WebhookAwareEngine S * World N Ch :=
  triggered (se_set key value (inner e)) key (Some value) now e w.

Definition wa_delete (key : bytes) (now : Z) (e : WebhookAwareEngine S) (w : World N Ch)
    : (bytes + unit) * WebhookAwareEngine S * World N Ch :=
  triggered (se_delete key (inner e)) key None now e w.

(** ** What a write publishes *)

Lemma publish_each_collected ms event p w :
  collected (publish_each ms event p w).1 =
  (fun es => es ++ replicate (length ms) event) <$> collected p.
Proof.
  revert p w; induction ms as [|m ms IH]; intros p w; cbn [publish_each length replicate].
  { symmetry. apply fmap_app_nil. }
  pose proof (publish_collected event p w) as Hp. destruct (publish event p w) as [[ok p'] w1].
  rewrite IH. cbn in Hp. by rewrite Hp, fmap_app_app.
Qed.

Lemma trigger_collected key value now r p w :
  (trigger key value now r p w).1.1 = matching_count key r /\
  collected (trigger key value now r p w).1.2 =
  (fun es => es ++ replicate (Z.to_nat (matching_count key r)) (change_event (lit "default") key value now))
    <$> collected p.
Proof.
  unfold trigger, matching_count. destruct (matching key r) as [|m ms] eqn:Em.
  - split; [done|]. symmetry. apply fmap_app_nil.
  - pose proof (publish_each_collected (m :: ms) (change_event (lit "default") key value now) p w) as Hp.
    unfold change_event in Hp at 1.
    destruct (publish_each (m :: ms) _ p w) as [p' w']. split; [done|].
    by rewrite Nat2Z.id.
Qed.

(** A write answers as the inner engine does and leaves it in the same state,
    whether or not deliveries fail; when it succeeds, each collector behind the
    publisher receives one event per matching registration, and otherwise none. *)
Theorem webhook_write_exact key value now e w :
  let result := match value with
                | Some v => se_set key v (inner e)
                | None => se_delete key (inner e)
                end in
  let '(answer, e', w') := match value with
                           | Some v => wa_put key v now e w
                           | None => wa_delete key now e w
                           end in
  answer = result.1 /\ inner e' = result.2 /\ registry e' = registry e /\
  collected (wa_publisher e') =
    (fun es => es ++ match answer with
                     | inr _ => replicate (Z.to_nat (matching_count key (registry e)))
                                  (change_event (lit "default") key value now)
                     | inl _ => []
                     end) <$> collected (wa_publisher e).
Proof.
  intros result.
  assert (Hr : match value with Some v => wa_put key v now e w | None => wa_delete key now e w end =
               triggered result key value now e w) by by destruct value.
  rewrite Hr. destruct result as [[err|[]] s]; cbn.
  - split_and!; try done. symmetry. apply fmap_app_nil.
  - destruct (trigger_collected key value now (registry e) (wa_publisher e) w) as [_ Hp].
    destruct (trigger key value now (registry e) (wa_publisher e) w) as [[n p] w']. done.
Qed.
End engine.
End triggers.

(** ** The registry as a set *)

Lemma is_entry_spec p u e : is_entry p u e = true <-> e = mkWebhookEntry p u.
Proof.
  unfold is_entry. destruct e as [p' u']. cbn. rewrite andb_true_iff, !bytes_eqb_eq. naive_solver.
Qed.

Lemma existsb_entry p u r : existsb (is_entry p u) r = true <-> mkWebhookEntry p u ∈ r.
Proof.
  rewrite existsb_exists. setoid_rewrite is_entry_spec. setoid_rewrite <- list_elem_of_In. naive_solver.
Qed.

Lemma elem_of_List_filter {A : Type} (f : A -> bool) l x : x ∈ List.filter f l <-> x ∈ l /\ f x = true.
Proof. by rewrite !list_elem_of_In, filter_In. Qed.

Lemma List_filter_shrinks {A : Type} (f : A -> bool) l :
  (length (List.filter f l) < length l)%nat <-> exists x, x ∈ l /\ f x = false.
Proof.
  induction l as [|x l IH]; cbn; [split; [lia|by intros (? & ?%elem_of_nil & _)]|].
  pose proof (filter_length_le f l) as Hle. setoid_rewrite elem_of_cons. destruct (f x) eqn:Ex; cbn.
  - rewrite <- Nat.succ_lt_mono, IH. clear IH Hle. split; [firstorder|].
    intros (y & [->|Hy] & Ey); [congruence|eauto].
  - split; [intros _; eauto|intros _; lia].
Qed.

(** The registry is a set of pairs of a non-empty prefix and a non-empty URL. *)
Definition registry_ok (r : WebhookRegistry) : Prop :=
  NoDup r /\ Forall (fun e => prefix e <> [] /\ url e <> []) r.

(** Registering adds the pair, once, and refuses an empty part. *)
Theorem register_adds p u r :
  registry_ok r ->
  registry_ok (register p u r).2 /\
  ((register p u r).1 = inr tt <-> p <> [] /\ u <> []) /\
  forall e, e ∈ (register p u r).2 <-> e ∈ r \/ (p <> [] /\ u <> [] /\ e = mkWebhookEntry p u).
Proof.
  intros [Hnd Hne]. unfold register.
  destruct (bytes_eqb_spec u []) as [->|Hu]; [|destruct (bytes_eqb_spec p []) as [->|Hp]].
  1,2: cbn; split; [done|]; split; [by split; [|intros []]|]; intros e; split; [by left|by intros [?|(? & ? & _)]].
  destruct (existsb (is_entry p u) r) eqn:Ee.
  { apply existsb_entry in Ee. cbn. split; [done|]. split; [done|].
    intros e. split; [by left|]. by intros [?|(_ & _ & ->)]. }
  apply not_true_iff_false in Ee. rewrite existsb_entry in Ee. cbn. split; [|set_solver]. split.
  - apply NoDup_app. split; [done|]. split; [set_solver|]. apply NoDup_singleton.
  - apply Forall_app. split; [done|]. by apply Forall_singleton.
Qed.

(** Unregistering removes the pair and tells whether it was there. *)
Theorem unregister_removes p u r :
  registry_ok r ->
  registry_ok (unregister p u r).2 /\
  ((unregister p u r).1 = true <-> mkWebhookEntry p u ∈ r) /\
  forall e, e ∈ (unregister p u r).2 <-> e ∈ r /\ e <> mkWebhookEntry p u.
Proof.
  intros [Hnd Hne].
  assert (Hin : forall e, e ∈ (unregister p u r).2 <-> e ∈ r /\ e <> mkWebhookEntry p u).
  { intros e. cbn. by rewrite elem_of_List_filter, negb_true_iff, <- not_true_iff_false, is_entry_spec. }
  split; [split|split; [|done]].
  - cbn. apply NoDup_ListNoDup, List.NoDup_filter. by apply NoDup_ListNoDup.
  - apply Forall_forall. intros e [He _]%Hin. by eapply Forall_forall in Hne.
  - unfold unregister. cbn [fst]. rewrite Nat.ltb_lt, List_filter_shrinks.
    setoid_rewrite negb_false_iff. setoid_rewrite is_entry_spec.
    split; [by intros (e & He & ->)|by exists (mkWebhookEntry p u)].
Qed.
