(* ===== verification/Paging.v ===== *)
(** * Paging: scanning a range page by page

    Both the export of [infra/bulk_io.rs] and the client keyspace of
    [api/keyspace.rs] read a column family in pages and continue after the last
    key of a page.  What follows that key in the range is what the next page
    starts with, provided that the bound lies above the key and not above its
    successor in the map. *)
From Stdlib Require Import ZArith Lia.
From stdpp Require Import base tactics numbers list gmap strings sorting.
From S2P Require Import Prelude Bytes SortedMap SstReader EngineSpec.
Local Open Scope Z_scope.

(** The entries of a map in a range, in key order. *)
Definition rows (m : gmap bytes bytes) (lower upper : option bytes) : list (bytes * bytes) :=
  filter (fun e => in_range lower upper e.1 = true) (sorted_entries m).

Lemma rows_sorted m lower upper : key_sorted (rows m lower upper).
Proof. apply key_sorted_filter, sorted_entries_sorted. Qed.

Lemma rows_all m : rows m None None = sorted_entries m.
Proof. apply filter_all. done. Qed.

Lemma elem_of_rows m lower upper k v :
  (k, v) ∈ rows m lower upper <-> m !! k = Some v /\ in_range lower upper k = true.
Proof. unfold rows. rewrite list_elem_of_filter, elem_of_sorted_entries. cbn. naive_solver. Qed.

Lemma rows_length m lower upper : (length (rows m lower upper) <= size m)%nat.
Proof.
  etrans; [apply length_filter|]. by rewrite sorted_entries_Permutation, length_map_to_list.
Qed.

(** The rows after the entry of [k], for a bound above [k] and below the rest. *)
Lemma rows_after m lower upper l k v rest bound :
  rows m lower upper = l ++ (k, v) :: rest -> bytes_lt k bound ->
  (forall e, e ∈ rest -> bytes_le bound e.1) -> rows m (Some bound) upper = rest.
Proof.
  intros Hrows Hk Hrest. pose proof (rows_sorted m lower upper) as Hs. rewrite Hrows in Hs.
  assert (in_range lower upper k = true) as Hin.
  { apply (elem_of_rows m lower upper k v). rewrite Hrows. set_solver. }
  assert (rows m (Some bound) upper = filter (fun e => bytes_leb bound e.1 = true) (rows m lower upper)) as ->.
  { unfold rows. rewrite list_filter_filter. apply filter_weaken. intros e _. unfold in_range in *.
    apply andb_true_iff in Hin as [Hl _]. rewrite !andb_true_iff. destruct lower as [b|]; [|naive_solver].
    split; [|naive_solver]. intros [? ?]. split_and!; try done. change (bytes_le b e.1). bytes_order. }
  rewrite Hrows. apply key_sorted_app in Hs as (_ & _ & Hlt).
  rewrite filter_app, filter_cons, decide_False, (filter_none _ l), (filter_all _ rest); [done|..].
  - intros e He. by apply Hrest.
  - intros e He Hbad. specialize (Hlt e (k, v) He ltac:(by left)). cbn in *. bytes_order.
  - cbn. intros Hbad. bytes_order.
Qed.

(** The order of keys, byte by byte. *)
Lemma bytes_le_cons b k b' k' :
  bytes_le (b :: k) (b' :: k') <->
  byte_to_Z b < byte_to_Z b' \/ (b = b' /\ bytes_le k k').
Proof.
  unfold bytes_le, bytes_leb. cbn. destruct (Z.compare_spec (byte_to_Z b) (byte_to_Z b')) as [E|E|E].
  - apply (inj byte_to_Z) in E as ->. split; [by right|]. by intros [?|[_ ?]]; [lia|].
  - split; [by left|done].
  - split; [done|]. by intros [?|[-> _]]; lia.
Qed.
Lemma bytes_lt_cons b k b' k' :
  bytes_lt (b :: k) (b' :: k') <->
  byte_to_Z b < byte_to_Z b' \/ (b = b' /\ bytes_lt k k').
Proof.
  unfold bytes_lt, bytes_ltb. cbn. destruct (Z.compare_spec (byte_to_Z b) (byte_to_Z b')) as [E|E|E].
  - apply (inj byte_to_Z) in E as ->. split; [by right|]. by intros [?|[_ ?]]; [lia|].
  - split; [by left|done].
  - split; [done|]. by intros [?|[-> _]]; lia.
Qed.

(** The smallest key above [k]. *)
Lemma bytes_lt_snoc_zero k : bytes_lt k (k ++ [Byte.x00]).
Proof. induction k as [|b k IH]; [done|]. apply bytes_lt_cons. by right. Qed.

Lemma snoc_zero_le k k' : bytes_lt k k' -> bytes_le (k ++ [Byte.x00]) k'.
Proof.
  revert k'; induction k as [|b k IH]; intros [|b' k']; try done.
  - intros _. pose proof (byte_to_Z_range b') as Hb. apply bytes_le_cons.
    destruct (decide (byte_to_Z b' = 0)) as [E|]; [|left; change (byte_to_Z Byte.x00) with 0; lia].
    right. split; [|apply bytes_le_nil]. by apply (inj byte_to_Z).
  - rewrite bytes_lt_cons. cbn [app]. rewrite bytes_le_cons. naive_solver.
Qed.

(** Pages that continue at [k ++ [0]]. *)
Lemma rows_after_key m lower upper l k v rest :
  rows m lower upper = l ++ (k, v) :: rest -> rows m (Some (k ++ [Byte.x00])) upper = rest.
Proof.
  intros Hrows. eapply rows_after; [done|apply bytes_lt_snoc_zero|].
  pose proof (rows_sorted m lower upper) as Hs. rewrite Hrows in Hs.
  apply key_sorted_app in Hs as (_ & [Hlt _]%key_sorted_cons & _).
  intros [k' v'] He. apply snoc_zero_le. by eapply Hlt.
Qed.

(** A page that is full ends with a key; the rest of the rows follows it. *)
Lemma page_split (rs : list (bytes * bytes)) n :
  (0 < n)%nat -> (n <= length rs)%nat ->
  exists l k v, last (take n rs) = Some (k, v) /\ rs = l ++ (k, v) :: drop n rs.
Proof.
  intros Hn Hl. destruct (last (take n rs)) as [[k v]|] eqn:E.
  - apply last_Some in E as (l & E). exists l, k, v. split; [done|].
    rewrite <- (take_drop n rs) at 1. by rewrite E, <- app_assoc.
  - apply last_None, (f_equal length) in E. rewrite length_take in E. cbn in E. lia.
Qed.
