(* ===== verification/Keyspace.v ===== *)
(** * Keyspace: what clients see of the default column family
    ([src/src/api/keyspace.rs])

    Keys that start with two underscores belong to the engine: requests that name
    one are rejected, and scans leave them out, reading the family in pages of 256
    entries.  A scan answers the first matching client entries of its range among
    those its budget allows it to examine, and following the cursors of a prefix
    search visits every client entry under the prefix once.

    [scan_fuel] bounds the pages of one scan; a scan examines at least one entry
    per page, so that more than the number of entries is enough. *)
From Stdlib Require Import ZArith Lia.
From stdpp Require Import base tactics numbers list gmap strings sorting.
From S2P Require Import Prelude Bytes SortedMap LogRecord Iterators.
From S2P Require Import MemTable Extern Encryption SstReader Wal Table.
From S2P Require Import VersionSet Utf8 Engine EngineSpec Paging.
Local Open Scope Z_scope.

Definition is_reserved (key : bytes) : bool := starts_with key (lit "__").

Section keyspace.
Context `{!Crc32, !Aead, !Postcard LogRecord, !Postcard LogRecordV0, !Postcard LogRecordV1}.
Context `{!BloomCrate} `{!SstStore} `{!Moka bytes bytes} `{!SerdeJson} `{!EngineEnv}.
Context (scan_fuel : nat).

(** The loop over a page, which stops when the output is full. *)
Fixpoint take_matching (matches : bytes * bytes -> bool) (limit : Z)
    (page output : list (bytes * bytes)) : list (bytes * bytes) :=
  match page with
  | [] => output
  | e :: page =>
      if negb (is_reserved e.1) && matches e then
        let output := output ++ [e] in
        if len output =? limit then output else take_matching matches limit page output
      else take_matching matches limit page output
  end.

(** The loop over the pages. *)
Fixpoint collect_loop (fuel : nat) (upper : option bytes) (limit scan_budget : Z)
    (matches : bytes * bytes -> bool) (cursor : option bytes) (examined : Z)
    (output : list (bytes * bytes)) : M (list (bytes * bytes)) :=
  if (len output <? limit) && (examined <? scan_budget) then
    match fuel with
    | O => lift Panic
    | S fuel =>
        let page_size := Z.min (scan_budget - examined) 256 in
        page ← scan_cf "default" cursor upper (Some page_size);
        match last page with
        | None => mret output
        | Some (last_key, _) =>
            let exhausted := len page <? page_size in
            let output := take_matching matches limit page output in
            if exhausted then mret output
            else collect_loop fuel upper limit scan_budget matches
                   (Some (last_key ++ [Byte.x00])) (examined + len page) output
        end
    end
  else mret output.

Definition collect (lower upper : option bytes) (limit scan_budget : Z)
    (matches : bytes * bytes -> bool) : M (list (bytes * bytes)) :=
  let limit := Z.min limit (MAX_SCAN_LIMIT + 1) in
  collect_loop scan_fuel upper limit scan_budget matches lower 0 [].

Definition scan (lower upper : option bytes) (limit : Z) : M (list (bytes * bytes)) :=
  collect lower upper limit usize_max (fun _ => true).

Definition scan_matching (lower upper : option bytes) (limit : Z) (matches : bytes * bytes -> bool)
    : M (list (bytes * bytes)) :=
  collect lower upper (Z.min limit 100) 10000 matches.

Definition prefix (prefix : bytes) (cursor : option bytes) (limit : Z)
    : M (list (bytes * bytes) * option bytes) :=
  let limit := Z.min limit MAX_SCAN_LIMIT in
  let lower := match cursor with
               | Some c => let after := c ++ [Byte.x00] in
                           if bytes_leb prefix after then after else prefix
               | None => prefix
               end in
  let upper := prefix_end prefix in
  rows ← scan (Some lower) upper (limit + 1);
  let more := limit <? len rows in
  let rows := take (Z.to_nat limit) rows in
  mret (rows, if more then (fun e => from_utf8_lossy e.1) <$> last rows else None).

(** ** What a scan answers *)

Definition client_row (matches : bytes * bytes -> bool) (e : bytes * bytes) : bool :=
  negb (is_reserved e.1) && matches e.

Lemma take_matching_spec matches limit page output :
  len output < limit ->
  take_matching matches limit page output =
  output ++ take (Z.to_nat (limit - len output)) (filter (fun e => client_row matches e = true) page).
Proof.
  revert output; induction page as [|e page IH]; intros output Hlt; cbn [take_matching].
  { by rewrite filter_nil, take_nil, app_nil_r. }
  rewrite filter_cons. fold (client_row matches e). destruct (client_row matches e) eqn:E.
  - rewrite decide_True by done. unfold len in *. rewrite length_app. cbn [length].
    replace (Z.to_nat (limit - Z.of_nat (length output)))
      with (S (Z.to_nat (limit - Z.of_nat (length output + 1)))) by lia. cbn [take].
    destruct (Z.eqb_spec (Z.of_nat (length output + 1)) limit) as [Heq|Hne].
    + replace (Z.to_nat (limit - Z.of_nat (length output + 1))) with 0%nat by lia. by rewrite take_0.
    + rewrite IH by (rewrite length_app; cbn [length]; lia). rewrite length_app. cbn [length].
      by rewrite <- app_assoc.
  - rewrite decide_False by congruence. by apply IH.
Qed.

Context `{!SstStoreLaws} {R : Residency} (clock_mono : forall i, 0 <= clock i < clock (S i)).
Abbreviation refines := (EngineSpec.refines "default").

Lemma collect_loop_refines fuel s m upper limit scan_budget matches cursor examined output :
  refines s m -> (length (rows m cursor upper) < fuel)%nat ->
  exists s', collect_loop fuel upper limit scan_budget matches cursor examined output s =
    (Ok (output ++ take (Z.to_nat (limit - len output))
           (filter (fun e => client_row matches e = true)
              (take (Z.to_nat (scan_budget - examined)) (rows m cursor upper)))), s') /\ refines s' m.
Proof.
  revert s cursor examined output; induction fuel as [|fuel IH];
    intros s cursor examined output Href Hfuel; [lia|].
  cbn [collect_loop]. destruct (Z.ltb_spec (len output) limit) as [Hlim|Hlim]; cbn [andb];
    [destruct (Z.ltb_spec examined scan_budget) as [Hb|Hb]|].
  2,3: exists s; split; [|done]; unfold mret, M_ret; do 2 f_equal.
  2: by replace (Z.to_nat (scan_budget - examined)) with 0%nat by lia; rewrite take_0, filter_nil, take_nil, app_nil_r.
  2: by replace (Z.to_nat (limit - len output)) with 0%nat by lia; rewrite take_0, app_nil_r.
  set (page_size := Z.min (scan_budget - examined) 256).
  destruct (scan_refines clock_mono "default" s m cursor upper (Some page_size) Href) as (s1 & Hs & Href1); [lia|].
  rewrite (bind_Ok _ _ _ _ _ Hs). clear Hs. fold (rows m cursor upper).
  change (default MAX_SCAN_LIMIT (Some page_size)) with page_size.
  set (rs := rows m cursor upper) in *. set (n := Z.to_nat page_size) in *.
  destruct (last (take n rs)) as [[k v]|] eqn:El.
  2:{ exists s1. split; [|done]. apply last_None in El. unfold mret, M_ret. do 2 f_equal.
      destruct rs as [|e rs0]; [by rewrite !take_nil, filter_nil, take_nil, app_nil_r|]. apply (f_equal length) in El.
      rewrite length_take in El. cbn in El. lia. }
  rewrite take_matching_spec by done. unfold len at 1. rewrite length_take.
  destruct (Z.ltb_spec (Z.of_nat (n `min` length rs)) page_size) as [Hex|Hfull].
  { exists s1. split; [|done]. unfold mret, M_ret. do 2 f_equal. by rewrite (take_ge rs n), (take_ge rs (Z.to_nat (scan_budget - examined))) by lia. }
  destruct (page_split rs n) as (l & k' & v' & Hl & Hsplit); [lia..|].
  rewrite El in Hl. injection Hl as <- <-.
  pose proof (rows_after_key m cursor upper _ _ _ _ Hsplit) as Hafter.
  unfold len at 1. rewrite length_take. replace (n `min` length rs)%nat with n by lia.
  destruct (IH s1 (Some (k ++ [Byte.x00])) (examined + Z.of_nat n)
             (output ++ take (Z.to_nat (limit - len output)) (filter (fun e => client_row matches e = true) (take n rs))) Href1)
    as (s2 & Hr & Href2).
  { rewrite Hafter, length_drop. fold rs. lia. }
  exists s2. split; [|done]. rewrite Hr, Hafter. do 2 f_equal. fold rs. rewrite <- app_assoc. f_equal.
  set (P := fun e => client_row matches e = true).
  replace (take (Z.to_nat (scan_budget - examined)) rs)
    with (take n rs ++ take (Z.to_nat (scan_budget - (examined + Z.of_nat n))) (drop n rs)).
  2:{ rewrite take_take_drop. f_equal. lia. }
  rewrite filter_app, take_app. f_equal. f_equal. unfold len. rewrite length_app, length_take. lia.
Qed.

(** The client entries of a range, in key order. *)
Definition client_rows (m : gmap bytes bytes) (lower upper : option bytes) : list (bytes * bytes) :=
  filter (fun e => is_reserved e.1 = false) (rows m lower upper).

Lemma client_row_all e : client_row (fun _ => true) e = true <-> is_reserved e.1 = false.
Proof. unfold client_row. by rewrite andb_true_r, negb_true_iff. Qed.

Lemma collect_refines s m lower upper limit scan_budget matches :
  refines s m -> (size m < scan_fuel)%nat ->
  exists s', collect lower upper limit scan_budget matches s =
    (Ok (take (Z.to_nat (Z.min limit (MAX_SCAN_LIMIT + 1)))
           (filter (fun e => client_row matches e = true) (take (Z.to_nat scan_budget) (rows m lower upper)))), s') /\
    refines s' m.
Proof.
  intros Href Hfuel. pose proof (rows_length m lower upper).
  destruct (collect_loop_refines scan_fuel s m upper (Z.min limit (MAX_SCAN_LIMIT + 1)) scan_budget matches lower 0 []
              Href) as (s' & E & Href'); [lia|].
  exists s'. split; [|done]. unfold collect. rewrite E. cbn [app len length].
  by rewrite !Z.sub_0_r.
Qed.

Lemma scan_client s m lower upper limit :
  refines s m -> (size m < scan_fuel)%nat -> Z.of_nat (size m) <= usize_max ->
  exists s', scan lower upper limit s =
    (Ok (take (Z.to_nat (Z.min limit (MAX_SCAN_LIMIT + 1))) (client_rows m lower upper)), s') /\ refines s' m.
Proof.
  intros Href Hfuel Hsize. pose proof (rows_length m lower upper).
  destruct (collect_refines s m lower upper limit usize_max (fun _ => true) Href Hfuel) as (s' & E & Href').
  exists s'. split; [|done]. unfold scan. rewrite E. rewrite (take_ge (rows m lower upper)) by lia.
  do 3 f_equal. apply filter_weaken. intros e _. apply client_row_all.
Qed.

(** ** Prefix searches *)

(** The client entries under a prefix, after the cursor. *)
Definition client_hits (m : gmap bytes bytes) (pre : bytes) (cursor : option bytes) : list (bytes * bytes) :=
  filter (fun e => starts_with e.1 pre && match cursor with Some c => bytes_ltb c e.1 | None => true end = true /\
                   is_reserved e.1 = false) (sorted_entries m).

Lemma after_le c k : bytes_leb (c ++ [Byte.x00]) k = bytes_ltb c k.
Proof.
  destruct (bytes_ltb_spec c k) as [Hlt|Hlt]; [by apply snoc_zero_le|].
  apply bytes_leb_gt. pose proof (bytes_lt_snoc_zero c). bytes_order.
Qed.

Lemma prefix_rows m pre cursor :
  Byte.xff ∉ pre ->
  client_rows m (Some (match cursor with
                       | Some c => if bytes_leb pre (c ++ [Byte.x00]) then c ++ [Byte.x00] else pre
                       | None => pre
                       end)) (prefix_end pre) = client_hits m pre cursor.
Proof.
  intros Hff. unfold client_rows, rows, client_hits. rewrite list_filter_filter. apply filter_weaken.
  intros [k v] _. cbn [fst]. rewrite <- (prefix_range pre k Hff).
  assert (forall c, in_range (Some (if bytes_leb pre (c ++ [Byte.x00]) then c ++ [Byte.x00] else pre)) (prefix_end pre) k
    = in_range (Some pre) (prefix_end pre) k && bytes_ltb c k) as Hmax.
  { intros c. rewrite <- after_le. unfold in_range.
    apply eq_true_iff_eq. rewrite !andb_true_iff. set (a := c ++ [Byte.x00]).
    change (bytes_leb a k = true) with (bytes_le a k). change (bytes_leb pre k = true) with (bytes_le pre k).
    destruct (bytes_leb pre a) eqn:Hle; [|change (bytes_leb pre k = true) with (bytes_le pre k)];
      bytes_prop; split; intros; destruct_and?; split_and?; try done; first [by transitivity a | bytes_order]. }
  destruct cursor as [c|]; [rewrite Hmax|rewrite andb_true_r]; naive_solver.
Qed.

Lemma prefix_refines s m pre cursor limit :
  refines s m -> Byte.xff ∉ pre -> 0 <= limit -> (size m < scan_fuel)%nat -> Z.of_nat (size m) <= usize_max ->
  let n := Z.to_nat (Z.min limit MAX_SCAN_LIMIT) in
  let hs := client_hits m pre cursor in
  exists s', prefix pre cursor limit s =
    (Ok (take n hs, if (n <? length hs)%nat then (fun e => from_utf8_lossy e.1) <$> last (take n hs) else None), s') /\
    refines s' m.
Proof.
  intros Href Hff Hlim Hfuel Hsize n hs. unfold prefix.
  edestruct (scan_client s m) as (s' & E & Href'); [done..|].
  rewrite (bind_Ok _ _ _ _ _ E). exists s'. split; [|done]. rewrite prefix_rows by done. fold hs.
  assert (0 < MAX_SCAN_LIMIT) by done.
  replace (Z.to_nat (Z.min (Z.min limit MAX_SCAN_LIMIT + 1) (MAX_SCAN_LIMIT + 1))) with (S n) by lia.
  unfold mret, M_ret. fold n. rewrite take_take. replace (n `min` S n)%nat with n by lia.
  do 3 f_equal. unfold len. rewrite length_take.
  destruct (Nat.ltb_spec n (length hs)); [rewrite (proj2 (Z.ltb_lt _ _)) by lia|rewrite (proj2 (Z.ltb_ge _ _)) by lia]; done.
Qed.

Lemma client_hits_after m pre cursor l k v rest :
  client_hits m pre cursor = l ++ (k, v) :: rest -> client_hits m pre (Some k) = rest.
Proof.
  intros Heq. assert (key_sorted (client_hits m pre cursor)) as Hs
    by (apply key_sorted_filter, sorted_entries_sorted).
  rewrite Heq in Hs. rewrite <- (key_sorted_filter_after l k v rest Hs) at 1. rewrite <- Heq.
  unfold client_hits. rewrite list_filter_filter. apply filter_weaken. intros e _. rewrite !andb_true_iff.
  destruct cursor as [c|]; [|naive_solver]. split; [|naive_solver]. intros ([? Hke] & ?). split_and!; try done.
  assert (bytes_lt c k) as Hck.
  { assert ((k, v) ∈ client_hits m pre (Some c)) as [[[_ Hck]%andb_true_iff _] _]%list_elem_of_filter; [|done].
    rewrite Heq. set_solver. }
  change (bytes_lt c e.1). by etrans.
Qed.

(** Page after page, until no cursor is returned. *)
Fixpoint prefix_pages (fuel : nat) (pre : bytes) (cursor : option bytes) (limit : Z) : M (list (bytes * bytes)) :=
  match fuel with
  | O => mret []
  | S fuel =>
      '(page, next) ← prefix pre cursor limit;
      match next with
      | None => mret page
      | Some c => rest ← prefix_pages fuel pre (Some c) limit; mret (page ++ rest)
      end
  end.

Lemma prefix_pages_refines fuel s m pre cursor limit :
  refines s m -> Byte.xff ∉ pre -> 0 < limit -> (size m < scan_fuel)%nat -> Z.of_nat (size m) <= usize_max ->
  map_Forall (fun k _ => is_Some (from_utf8 k)) m -> (length (client_hits m pre cursor) < fuel)%nat ->
  exists s', prefix_pages fuel pre cursor limit s = (Ok (client_hits m pre cursor), s') /\ refines s' m.
Proof.
  revert s cursor. induction fuel as [|fuel IH]; intros s cursor Href Hff Hlim Hf Hsize Htext Hfuel; [lia|].
  cbn [prefix_pages].
  destruct (prefix_refines s m pre cursor limit Href Hff ltac:(lia) Hf Hsize) as (s1 & Hp & Href1).
  rewrite (bind_Ok _ _ _ _ _ Hp). clear Hp. set (hs := client_hits m pre cursor) in *.
  set (n := Z.to_nat (Z.min limit MAX_SCAN_LIMIT)). assert (0 < n)%nat as Hn by (unfold n, MAX_SCAN_LIMIT; lia).
  destruct (Nat.ltb_spec n (length hs)) as [Hmore|Hend].
  2:{ exists s1. split; [|done]. unfold mret, M_ret. do 2 f_equal. by apply take_ge. }
  destruct (page_split hs n) as (l & k & v & -> & Hsplit); [lia..|]. cbn [fmap option_fmap option_map fst].
  assert ((k, v) ∈ hs) as [_ Hin%elem_of_sorted_entries]%list_elem_of_filter by (rewrite Hsplit; set_solver).
  destruct (Htext k v Hin) as [k' Hk'].
  apply from_utf8_lossy_valid in Hk' as [-> Hk']. rewrite Hk'.
  pose proof (client_hits_after m pre cursor _ _ _ _ Hsplit) as Hafter.
  destruct (IH s1 (Some k) Href1 Hff Hlim Hf Hsize Htext) as (s2 & Hp & Href2).
  { rewrite Hafter, length_drop. fold hs. lia. }
  rewrite (bind_Ok _ _ _ _ _ Hp). exists s2. split; [|done]. unfold mret, M_ret. do 2 f_equal.
  rewrite Hafter. apply take_drop.
Qed.
End keyspace.
