(* ===== verification/Auth.v ===== *)
(** * Auth: API tokens and the requests they let through ([src/src/api/auth/])

    A token is created from 32 random bytes and kept as its hash, with an identifier, an
    optional expiry and permissions, in a map that a private snapshot file mirrors; the
    middleware lets a request through when its bearer token matches a stored one
    that has not expired, and the handlers ask it for a permission.

    Hashing, base64, the JSON of the snapshot and the syntax of identifiers are
    parameters; random bytes, fresh identifiers and clock readings are arguments of
    the operations, [None] when the system cannot supply them.  A write to the file
    replaces it, fails before it is replaced, or fails when the directory is synced
    after it was replaced: [io] says which. *)
From Stdlib Require Import ZArith Lia.
From stdpp Require Import base tactics numbers list gmap strings sorting.
From S2P Require Import Prelude Bytes SortedMap Utf8 Text Engine.
Local Open Scope Z_scope.

(** ** Errors and permissions *)

Inductive AuthError :=
| InvalidToken
| TokenExpired
| MissingToken
| InsufficientPermissions
| TokenNotFound
| TokenGenerationFailed
| InvalidPermission
| AuthInternal.

Definition status_code (e : AuthError) : Z :=
  match e with
  | InvalidToken | TokenExpired | MissingToken => 401
  | InsufficientPermissions => 403
  | TokenNotFound => 404
  | InvalidPermission => 400
  | TokenGenerationFailed | AuthInternal => 500
  end.

Inductive Permission := Read | Write | Delete | Admin.
#[global] Instance Permission_eq_dec : EqDecision Permission.
Proof. solve_decision. Defined.

Definition permission_from_str `{!Unicode} (s : bytes) : AuthError + Permission :=
  let l := to_lowercase s in
  if bytes_eqb l (lit "read") || bytes_eqb l (lit "r") then inr Read
  else if bytes_eqb l (lit "write") || bytes_eqb l (lit "w") then inr Write
  else if bytes_eqb l (lit "delete") || bytes_eqb l (lit "d") then inr Delete
  else if bytes_eqb l (lit "admin") || bytes_eqb l (lit "a") then inr Admin
  else inl InvalidPermission.

Record ApiToken := mkApiToken {
  token_id : bytes;
  token_name : bytes;
  token_hash : bytes;
  created_at : Z;
  token_expires_at : option Z;
  permissions : list Permission;
}.

Record Snapshot := mkSnapshot {
  version : Z;
  tokens : list ApiToken;
}.

(** The fields of a token that Rust's types can hold. *)
Definition token_typed (t : ApiToken) : Prop :=
  is_Some (from_utf8 (token_id t)) /\ is_Some (from_utf8 (token_name t)) /\ is_Some (from_utf8 (token_hash t)) /\
  0 <= created_at t <= u128_max /\ match token_expires_at t with Some e => 0 <= e <= u128_max | None => True end.

(** [u8::is_ascii_hexdigit]. *)
Definition is_ascii_hexdigit (b : byte) : bool :=
  let x := byte_to_Z b in
  ((48 <=? x) && (x <=? 57)) || ((65 <=? x) && (x <=? 70)) || ((97 <=? x) && (x <=? 102)).

(** SHA-256 in hexadecimal, base64, the JSON of a snapshot, [Uuid::parse_str], and
    the order in which a [HashMap] gives its values. *)
Class AuthEnv := {
  sha256_hex : bytes -> bytes;
  base64_encode : bytes -> bytes;
  snapshot_to_json : Snapshot -> bytes;
  snapshot_from_json : bytes -> option Snapshot;
  parses_uuid : bytes -> bool;
  values : gmap bytes ApiToken -> list ApiToken;
  sha256_hex_length s : length (sha256_hex s) = 64%nat;
  sha256_hex_digits s : forallb is_ascii_hexdigit (sha256_hex s) = true;
  snapshot_roundtrip s :
    0 <= version s <= u32_max -> Forall token_typed (tokens s) ->
    snapshot_from_json (snapshot_to_json s) = Some s;
  snapshot_typed bs s : snapshot_from_json bs = Some s -> Forall token_typed (tokens s);
  values_perm m : values m ≡ₚ (map_to_list m).*2;
}.

Section auth.
Context `{!AuthEnv}.

(** ** Tokens ([token.rs]) *)

Definition hash_token (token : bytes) : bytes := sha256_hex token.

(** Every pair of bytes is combined, wherever the first difference is. *)
Definition constant_time_compare (a b : bytes) : bool :=
  if negb (len a =? len b) then false
  else foldl (fun acc p => Z.lor acc (Z.lxor (byte_to_Z p.1) (byte_to_Z p.2))) 0 (zip a b) =? 0.

Definition generate_token (random_bytes : option bytes) : AuthError + bytes :=
  match random_bytes with
  | Some r => inr (lit "apx_" ++ base64_encode r)
  | None => inl AuthInternal
  end.

Definition ApiToken_new (id : bytes) (now : option Z) (name raw_token : bytes) (expires_at : option Z)
    (perms : list Permission) : AuthError + ApiToken :=
  match now with
  | Some created => inr (mkApiToken id name (hash_token raw_token) created expires_at perms)
  | None => inl AuthInternal
  end.

Definition is_expired (now : option Z) (t : ApiToken) : AuthError + bool :=
  match token_expires_at t with
  | Some expires_at => match now with Some n => inr (expires_at <? n) | None => inl AuthInternal end
  | None => inr false
  end.

Definition has_permission (t : ApiToken) (required : Permission) : bool :=
  bool_decide (Admin ∈ permissions t) || bool_decide (required ∈ permissions t).

Definition token_matches (t : ApiToken) (raw_token : bytes) : bool :=
  constant_time_compare (hash_token raw_token) (token_hash t).

(** ** The snapshot file ([store.rs]) *)

Definition record_ok (t : ApiToken) : bool :=
  parses_uuid (token_id t) && (len (token_hash t) =? 64) && forallb is_ascii_hexdigit (token_hash t).

Fixpoint load_records (ts : list ApiToken) (m : gmap bytes ApiToken) : AuthError + gmap bytes ApiToken :=
  match ts with
  | [] => inr m
  | t :: ts =>
      if negb (record_ok t) then inl AuthInternal
      else match m !! token_id t with
           | Some _ => inl AuthInternal
           | None => load_records ts (<[token_id t := t]> m)
           end
  end.

(** The file [tokens.json], [None] when there is none. *)
Definition load (file : option bytes) : AuthError + gmap bytes ApiToken :=
  match file with
  | None => inr ∅
  | Some bs =>
      match snapshot_from_json bs with
      | None => inl AuthInternal
      | Some snapshot =>
          if negb (version snapshot =? 1) then inl AuthInternal else load_records (tokens snapshot) ∅
      end
  end.

Inductive SaveIo := Saved | NotWritten | NotSynced.
Definition save (io : SaveIo) (m : gmap bytes ApiToken) (file : option bytes) : (AuthError + unit) * option bytes :=
  let records := (sort_entries ((fun t => (token_id t, t)) <$> values m)).*2 in
  let replaced := Some (snapshot_to_json (mkSnapshot 1 records)) in
  match io with
  | Saved => (inr tt, replaced)
  | NotWritten => (inl AuthInternal, file)
  | NotSynced => (inl AuthInternal, replaced)
  end.

(** ** The manager ([manager.rs]) *)

(** The store is [None] in a manager that keeps its tokens in memory only. *)
Record TokenManager := mkTokenManager {
  tm_tokens : gmap bytes ApiToken;
  tm_store : option (option bytes);
}.

Definition TokenManager_new : TokenManager := mkTokenManager ∅ None.

Definition open_persistent (file : option bytes) : AuthError + TokenManager :=
  match load file with
  | inl e => inl e
  | inr m => inr (mkTokenManager m (Some file))
  end.

(** Saving the replacement of the tokens, then exchanging them. *)
Definition replace_tokens {A : Type} (io : SaveIo) (next : gmap bytes ApiToken) (a : A) (s : TokenManager)
    : (AuthError + A) * TokenManager :=
  match tm_store s with
  | None => (inr a, mkTokenManager next None)
  | Some file =>
      match save io next file with
      | (inl e, file) => (inl e, mkTokenManager (tm_tokens s) (Some file))
      | (inr _, file) => (inr a, mkTokenManager next (Some file))
      end
  end.

Definition create_token (random_bytes : option bytes) (id : bytes) (now : option Z) (io : SaveIo)
    (name : bytes) (expires_at : option Z) (perms : list Permission) (s : TokenManager)
    : (AuthError + (bytes * ApiToken)) * TokenManager :=
  match generate_token random_bytes with
  | inl e => (inl e, s)
  | inr raw_token =>
      match ApiToken_new id now name raw_token expires_at perms with
      | inl e => (inl e, s)
      | inr token => replace_tokens io (<[token_id token := token]> (tm_tokens s)) (raw_token, token) s
      end
  end.

Fixpoint validate_loop (now : option Z) (raw_token : bytes) (ts : list ApiToken) : AuthError + ApiToken :=
  match ts with
  | [] => inl InvalidToken
  | t :: ts =>
      if token_matches t raw_token then
        match is_expired now t with
        | inl e => inl e
        | inr true => inl TokenExpired
        | inr false => inr t
        end
      else validate_loop now raw_token ts
  end.
Definition validate_token (now : option Z) (raw_token : bytes) (s : TokenManager) : AuthError + ApiToken :=
  validate_loop now raw_token (values (tm_tokens s)).

Definition list_tokens (s : TokenManager) : list ApiToken := values (tm_tokens s).

Definition get_token (id : bytes) (s : TokenManager) : AuthError + ApiToken :=
  match tm_tokens s !! id with Some t => inr t | None => inl TokenNotFound end.

Definition delete_token (io : SaveIo) (id : bytes) (s : TokenManager) : (AuthError + unit) * TokenManager :=
  match tm_tokens s !! id with
  | None => (inl TokenNotFound, s)
  | Some _ => replace_tokens io (delete id (tm_tokens s)) tt s
  end.

Definition token_count (s : TokenManager) : Z := Z.of_nat (size (tm_tokens s)).

(** ** The middleware ([middleware.rs]) *)

(** A request, with what the server attached to it: the authentication flag and
    the manager of its application data, and the token of its extensions. *)
Record Request := mkRequest {
  rq_method : bytes;
  rq_path : bytes;
  credentials : option bytes;
  auth_flag : option bool;
  rq_manager : option TokenManager;
  rq_token : option ApiToken;
}.

Definition with_token (rq : Request) (t : ApiToken) : Request :=
  mkRequest (rq_method rq) (rq_path rq) (credentials rq) (auth_flag rq) (rq_manager rq) (Some t).

Definition bearer_validator (now : option Z) (credential : bytes) (rq : Request) : AuthError + Request :=
  if negb (default true (auth_flag rq)) then inr rq
  else match rq_manager rq with
       | None => inl AuthInternal
       | Some s =>
           match validate_token now credential s with
           | inr t => inr (with_token rq t)
           | inl e => inl e
           end
       end.

Definition request_validator (now : option Z) (rq : Request) : AuthError + Request :=
  if (bytes_eqb (rq_method rq) (lit "GET") && bytes_eqb (rq_path rq) (lit "/health/liveness"))
     || match auth_flag rq with Some b => negb b | None => false end
  then inr rq
  else match credentials rq with
       | Some c => bearer_validator now c rq
       | None => inl MissingToken
       end.

Definition extract_token (rq : Request) : option ApiToken := rq_token rq.

Definition require_permission (rq : Request) (expected : Permission) : AuthError + unit :=
  if negb (default true (auth_flag rq)) then inr tt
  else match rq_token rq with
       | Some t => if has_permission t expected then inr tt else inl InsufficientPermissions
       | None => inl InsufficientPermissions
       end.

(** ** Comparison and lookup of tokens *)

Lemma xor_fold_zero (l : list (byte * byte)) acc :
  foldl (fun acc p => Z.lor acc (Z.lxor (byte_to_Z p.1) (byte_to_Z p.2))) acc l = 0 <->
  acc = 0 /\ Forall (fun p => p.1 = p.2) l.
Proof.
  revert acc; induction l as [|[x y] l IH]; intros acc; cbn [foldl fst snd].
  { split; [done|]. by intros [? _]. }
  rewrite IH, Z.lor_eq_0_iff, Z.lxor_eq_0_iff, Forall_cons. cbn. split.
  - intros [[? ?%(inj byte_to_Z)] ?]. done.
  - by intros (-> & -> & ?).
Qed.

Lemma constant_time_compare_eq a b : constant_time_compare a b = bytes_eqb a b.
Proof.
  unfold constant_time_compare. destruct (Z.eqb_spec (len a) (len b)) as [Hl|Hl]; cbn [negb].
  - apply eq_true_iff_eq. rewrite Z.eqb_eq, xor_fold_zero, bytes_eqb_eq. apply Nat2Z.inj in Hl.
    revert b Hl; induction a as [|x a IH]; intros [|y b] Hl; [done..|].
    cbn [zip zip_with]. rewrite Forall_cons. cbn. injection Hl as Hl. specialize (IH b Hl). naive_solver.
  - symmetry. destruct (bytes_eqb_spec a b) as [->|]; done.
Qed.

Lemma elem_of_values m t : t ∈ values m <-> exists id, m !! id = Some t.
Proof.
  rewrite values_perm, list_elem_of_fmap. split.
  - intros ([id t'] & -> & He%elem_of_map_to_list). eauto.
  - intros (id & He). exists (id, t). by rewrite elem_of_map_to_list.
Qed.

(** No two stored tokens share a hash. *)
Definition hashes_distinct (s : TokenManager) : Prop :=
  forall id id' t t', tm_tokens s !! id = Some t -> tm_tokens s !! id' = Some t' ->
    token_hash t = token_hash t' -> t = t'.

(** The verdict on a token that matches. *)
Definition verdict (now : option Z) (t : ApiToken) : AuthError + ApiToken :=
  match is_expired now t with
  | inl e => inl e
  | inr true => inl TokenExpired
  | inr false => inr t
  end.

Lemma validate_loop_spec now raw ts :
  (exists t, t ∈ ts /\ token_hash t = hash_token raw /\ validate_loop now raw ts = verdict now t) \/
  ((forall t, t ∈ ts -> token_hash t <> hash_token raw) /\ validate_loop now raw ts = inl InvalidToken).
Proof.
  induction ts as [|t ts IH]; cbn [validate_loop]; [right; set_solver|].
  unfold token_matches. rewrite constant_time_compare_eq. destruct (bytes_eqb_spec (hash_token raw) (token_hash t)).
  - left. exists t. split; [by left|]. by split.
  - destruct IH as [(t' & ? & ? & ?)|[? ?]]; [left; exists t'; set_solver|right; set_solver].
Qed.

(** A stored token is found by its secret, whatever the order of the map. *)
Lemma validate_token_found now raw s id t :
  hashes_distinct s -> tm_tokens s !! id = Some t -> token_hash t = hash_token raw ->
  validate_token now raw s = verdict now t.
Proof.
  intros Hd Ht Hh. destruct (validate_loop_spec now raw (values (tm_tokens s))) as [(t' & Hin & Hh' & E)|[Hn _]].
  - apply elem_of_values in Hin as (id' & Hid'). unfold validate_token. rewrite E. f_equal.
    by eapply (Hd id' id); [..|by rewrite Hh, Hh'].
  - exfalso. apply (Hn t); [|done]. apply elem_of_values. eauto.
Qed.

(** Whether the clock is before the expiry, if there is one. *)
Definition live (now : option Z) (t : ApiToken) : bool :=
  match token_expires_at t with
  | None => true
  | Some e => match now with Some n => n <=? e | None => false end
  end.

Lemma verdict_live now t t' : verdict now t = inr t' <-> live now t = true /\ t' = t.
Proof.
  unfold verdict, is_expired, live. destruct (token_expires_at t) as [e|]; [|naive_solver].
  destruct now as [n|]; [|naive_solver]. destruct (Z.ltb_spec e n), (Z.leb_spec n e); try lia; naive_solver.
Qed.

Lemma has_permission_spec t p : has_permission t p = true <-> p ∈ permissions t \/ Admin ∈ permissions t.
Proof. unfold has_permission. rewrite orb_true_iff, !bool_decide_eq_true. naive_solver. Qed.

(** The part of the check that looks at the bearer secret. *)
Lemma bearer_authorized now rq p :
  auth_flag rq <> Some false -> (forall s, rq_manager rq = Some s -> hashes_distinct s) ->
  (exists rq', match credentials rq with Some c => bearer_validator now c rq | None => inl MissingToken end = inr rq' /\
     require_permission rq' p = inr tt) <->
  exists s secret id t, rq_manager rq = Some s /\ credentials rq = Some secret /\
     tm_tokens s !! id = Some t /\ token_hash t = hash_token secret /\ live now t = true /\
     (p ∈ permissions t \/ Admin ∈ permissions t).
Proof.
  intros Hf Hd. destruct rq as [method path cred flag manager token]; cbn in *.
  destruct cred as [c|]; [|split; [by intros (? & ? & _)|by intros (? & ? & ? & ? & _ & ? & _)]].
  destruct manager as [s|].
  2:{ unfold bearer_validator. cbn. split; [|by intros (? & ? & ? & ? & ? & _)].
      intros (rq' & E & _). by destruct flag as [[]|]. }
  assert (default true flag = true) as Hflag by (by destruct flag as [[]|]).
  unfold bearer_validator, require_permission. cbn. rewrite Hflag. cbn [negb]. specialize (Hd s eq_refl). split.
  - intros (rq' & E & Hp). destruct (validate_token now c s) as [e|t] eqn:Ev; [done|]. injection E as <-.
    cbn in Hp. rewrite Hflag in Hp. cbn in Hp.
    destruct (validate_loop_spec now c (values (tm_tokens s))) as [(t' & Hin & Hh & Ev')|[_ Ev']];
      unfold validate_token in Ev; rewrite Ev' in Ev; [|done].
    apply verdict_live in Ev as [Hl ->]. apply elem_of_values in Hin as (id & Hid).
    destruct (has_permission t' p) eqn:Hperm; [|done]. apply has_permission_spec in Hperm. by exists s, c, id, t'.
  - intros (s' & c' & id & t & [= <-] & [= <-] & Ht & Hh & Hl & Hp%has_permission_spec).
    rewrite (validate_token_found now c s id t Hd Ht Hh).
    rewrite (proj2 (verdict_live now t t)) by done. eexists. split; [done|]. cbn. by rewrite Hflag, Hp.
Qed.

(** C9: Authorisation of a request for a handler that asks for a permission: it passes
    when authentication is off; when it is on, exactly when the path is not the
    public probe and the bearer secret is that of a stored token that has not
    expired and has the permission, or that of administrators. *)
Theorem request_authorized_exact now rq p :
  rq_token rq = None -> (forall s, rq_manager rq = Some s -> hashes_distinct s) ->
  (exists rq', request_validator now rq = inr rq' /\ require_permission rq' p = inr tt) <->
  auth_flag rq = Some false \/
  (~ (rq_method rq = lit "GET" /\ rq_path rq = lit "/health/liveness") /\
   exists s secret id t, rq_manager rq = Some s /\ credentials rq = Some secret /\
     tm_tokens s !! id = Some t /\ token_hash t = hash_token secret /\ live now t = true /\
     (p ∈ permissions t \/ Admin ∈ permissions t)).
Proof.
  intros Hnone Hd. destruct rq as [method path cred flag manager token]. cbn in *. subst token.
  pose proof (bearer_authorized now (mkRequest method path cred flag manager None) p) as Hb.
  unfold request_validator. cbn [rq_method rq_path auth_flag credentials rq_manager] in *.
  destruct flag as [[]|]; cbn [negb default]; rewrite ?orb_true_r, ?orb_false_r.
  2:{ split; [by left|]. intros _. by eexists. }
  all: destruct (bytes_eqb_spec method (lit "GET")) as [Hm|Hm], (bytes_eqb_spec path (lit "/health/liveness")) as [Hp|Hp];
    cbn [andb].
  1,5: split; [by intros (rq' & [= <-] & ?)|by intros [?|[[] _]]].
  all: rewrite (Hb ltac:(done) Hd); split; [intros Hx; right; split; [by intros [? ?]|exact Hx]|by intros [?|[_ Hx]]].
Qed.
(** ** Persistence *)

Definition tokens_ok (m : gmap bytes ApiToken) : Prop :=
  map_Forall (fun id t => token_id t = id /\ record_ok t = true /\ token_typed t) m.

Lemma load_records_union ts m :
  Forall (fun t => record_ok t = true) ts -> NoDup (token_id <$> ts) -> (forall t, t ∈ ts -> m !! token_id t = None) ->
  load_records ts m = inr (list_to_map ((fun t => (token_id t, t)) <$> ts) ∪ m).
Proof.
  revert m; induction ts as [|t ts IH]; intros m Hok Hnd Hm; cbn [load_records].
  { cbn. by rewrite map_empty_union. }
  apply Forall_cons in Hok as [Ht Hok]. cbn in Hnd. apply NoDup_cons in Hnd as [Hn Hnd].
  rewrite Ht, (Hm t) by (by left). cbn [negb]. rewrite IH; [|done..|].
  - cbn. f_equal. rewrite <- insert_union_r, insert_union_l; [done|]. apply not_elem_of_list_to_map_1.
    by rewrite <- list_fmap_compose.
  - intros t' Ht'. rewrite lookup_insert_ne; [apply Hm; by right|].
    intros E. apply Hn. rewrite E. by apply list_elem_of_fmap_2.
Qed.

Lemma load_records_ok ts m m' :
  Forall token_typed ts -> tokens_ok m -> load_records ts m = inr m' -> tokens_ok m'.
Proof.
  revert m; induction ts as [|t ts IH]; intros m Htyped Hm; cbn [load_records]; [by intros [= <-]|].
  apply Forall_cons in Htyped as [Ht Htyped]. destruct (record_ok t) eqn:Hok; [|done]. cbn [negb].
  destruct (m !! token_id t); [done|]. apply IH; [done|]. by apply map_Forall_insert_2.
Qed.

Lemma load_ok file m : load file = inr m -> tokens_ok m.
Proof.
  destruct file as [bs|]; cbn [load]; [|intros [= <-]; by apply map_Forall_empty].
  destruct (snapshot_from_json bs) as [snap|] eqn:Ej; [|done]. destruct (negb (version snap =? 1)); [done|].
  apply load_records_ok; [by eapply snapshot_typed|by apply map_Forall_empty].
Qed.

Lemma load_save m file : tokens_ok m -> load (save Saved m file).2 = inr m.
Proof.
  intros Hm. cbn [save snd load].
  assert (sort_entries ((fun t => (token_id t, t)) <$> values m) = sorted_entries m) as ->.
  { apply sort_entries_unique; [|apply sorted_entries_sorted]. rewrite values_perm, sorted_entries_Permutation.
    rewrite <- list_fmap_compose. enough (((fun t => (token_id t, t)) ∘ snd) <$> map_to_list m = map_to_list m) as -> by done.
    rewrite <- (list_fmap_id (map_to_list m)) at 2. apply list_fmap_ext. intros i [id t] He%list_elem_of_lookup_2%elem_of_map_to_list. cbn.
    by destruct (Hm id t He) as [-> _]. }
  assert (forall id t, (id, t) ∈ sorted_entries m -> token_id t = id /\ record_ok t = true /\ token_typed t) as Hall.
  { intros id t He%elem_of_sorted_entries. by apply Hm. }
  rewrite snapshot_roundtrip; cbn [version tokens].
  2: by unfold u32_max.
  2:{ apply Forall_fmap, Forall_forall. intros [id t] He. by apply (Hall id t). }
  cbn [negb Z.eqb Pos.eqb].
  assert ((fun t => (token_id t, t)) <$> (sorted_entries m).*2 = sorted_entries m) as Hid.
  { rewrite <- list_fmap_compose. rewrite <- (list_fmap_id (sorted_entries m)) at 2. apply list_fmap_ext.
    intros i [id t] He%list_elem_of_lookup_2. cbn. by destruct (Hall id t He) as [-> _]. }
  rewrite load_records_union.
  - rewrite map_union_empty, Hid. f_equal. rewrite <- (list_to_map_to_list m) at 2.
    apply list_to_map_proper; [|apply sorted_entries_Permutation]. apply key_sorted_NoDup, sorted_entries_sorted.
  - apply Forall_fmap, Forall_forall. intros [id t] He. by apply (Hall id t).
  - replace (token_id <$> (sorted_entries m).*2) with (sorted_entries m).*1; [apply key_sorted_NoDup, sorted_entries_sorted|].
    rewrite <- Hid at 1. by rewrite <- list_fmap_compose.
  - intros t _. apply lookup_empty.
Qed.

(** Requests to the manager: creations and deletions, each with what the system
    supplies and whether the write to the file succeeds. *)
Inductive token_op :=
| CreateToken (random_bytes : option bytes) (id : bytes) (now : option Z) (io : SaveIo)
    (name : bytes) (expires_at : option Z) (perms : list Permission)
| DeleteToken (io : SaveIo) (id : bytes).

Definition run_token_op (o : token_op) (s : TokenManager) : TokenManager :=
  match o with
  | CreateToken r id now io name e perms => (create_token r id now io name e perms s).2
  | DeleteToken io id => (delete_token io id s).2
  end.

(** Identifiers are those the library makes; names are text; times fit; no write fails
    after the file was replaced. *)
Definition token_op_ok (o : token_op) : Prop :=
  match o with
  | CreateToken _ id now io name e _ =>
      io <> NotSynced /\ parses_uuid id = true /\ is_Some (from_utf8 id) /\ is_Some (from_utf8 name) /\
      match now with Some n => 0 <= n <= u128_max | None => True end /\
      match e with Some n => 0 <= n <= u128_max | None => True end
  | DeleteToken io _ => io <> NotSynced
  end.

(** The manager's tokens are well-formed and those of its file. *)
Definition manager_ok (s : TokenManager) : Prop :=
  tokens_ok (tm_tokens s) /\
  match tm_store s with Some file => load file = inr (tm_tokens s) | None => True end.

Lemma replace_tokens_ok {A : Type} io next (a : A) s :
  io <> NotSynced -> manager_ok s -> tokens_ok next -> manager_ok (replace_tokens io next a s).2.
Proof.
  intros Hio [Hs Hf] Hn. unfold replace_tokens. destruct (tm_store s) as [file|]; [|done].
  destruct io; [|done..]. split; [done|]. by apply (load_save next file).
Qed.

Lemma hash_ok raw : from_utf8 (hash_token raw) = Some (hash_token raw).
Proof.
  apply ascii_text. apply Forall_forall. intros b Hb.
  pose proof (sha256_hex_digits raw) as Hd. rewrite forallb_forall in Hd. apply list_elem_of_In, Hd in Hb.
  unfold is_ascii_hexdigit in Hb. unfold is_ascii. rewrite !orb_true_iff, !andb_true_iff, !Z.leb_le in Hb. lia.
Qed.

Lemma run_token_op_ok o s : manager_ok s -> token_op_ok o -> manager_ok (run_token_op o s).
Proof.
  intros Hs Ho. destruct o as [r id now io name e perms|io id]; cbn [run_token_op].
  - destruct Ho as (Hio & Hu & Hid & Hname & Hnow & He). unfold create_token, generate_token, ApiToken_new.
    destruct r as [r|]; [|exact Hs]. destruct now as [n|]; [|exact Hs]. apply replace_tokens_ok; [done|exact Hs|].
    apply map_Forall_insert_2; [|apply Hs]. cbn [token_id]. split; [done|]. split.
    + unfold record_ok. cbn. unfold hash_token, len. by rewrite Hu, sha256_hex_length, sha256_hex_digits.
    + unfold token_typed. cbn [token_id token_name token_hash created_at token_expires_at]. rewrite hash_ok.
      split; [done|]. split; [done|]. split; [by eexists|]. by split.
  - unfold delete_token. destruct (tm_tokens s !! id); [|exact Hs]. apply replace_tokens_ok; [done|exact Hs|].
    by apply map_Forall_delete, Hs.
Qed.

Lemma run_token_op_store o s : is_Some (tm_store s) -> is_Some (tm_store (run_token_op o s)).
Proof.
  intros [file E].
  assert (forall A io next (a : A), is_Some (tm_store (replace_tokens io next a s).2)) as Hr.
  { intros A io next a. unfold replace_tokens. rewrite E. destruct io; by eexists. }
  destruct o as [r id now io name e perms|io id]; cbn [run_token_op].
  - unfold create_token, generate_token, ApiToken_new. destruct r; [|by exists file]. destruct now; [|by exists file]. apply Hr.
  - unfold delete_token. destruct (tm_tokens s !! id); [apply Hr|by exists file].
Qed.

(** C23: Tokens survive a restart.  Whatever creations and deletions follow the opening
    of a snapshot file, with random numbers, clock or writes failing at any point up to
    the replacement of the file, opening the file the manager then has gives the tokens it holds: no deleted
    token comes back, and none is lost. *)
Theorem tokens_survive_restart file s os :
  open_persistent file = inr s -> Forall token_op_ok os ->
  let s' := foldl (fun s o => run_token_op o s) s os in
  exists file', tm_store s' = Some file' /\ open_persistent file' = inr s'.
Proof.
  intros Hopen Hos s'.
  assert (manager_ok s' /\ is_Some (tm_store s')) as [[Hm Hf] [file' Ef]].
  { unfold open_persistent in Hopen. destruct (load file) as [e|m] eqn:El; [done|]. injection Hopen as <-.
    assert (manager_ok (mkTokenManager m (Some file))) as Hok by (split; [by eapply load_ok|done]).
    assert (is_Some (tm_store (mkTokenManager m (Some file)))) as Hst by (by eexists).
    subst s'. revert Hok Hst. generalize (mkTokenManager m (Some file)). clear El m.
    induction Hos as [|o os Ho _ IH]; intros s Hok Hst; [done|]. cbn [foldl]. apply IH.
    - by apply run_token_op_ok.
    - by apply run_token_op_store. }
  exists file'. split; [done|]. rewrite Ef in Hf. unfold open_persistent. rewrite Hf, <- Ef.
  by destruct s'.
Qed.
End auth.
