(* ===== verification/Api.v ===== *)
(** * Api: the key-value handlers of the HTTP interface ([src/src/api/mod.rs])

    One definition per handler, from the request that passed the middleware of
    [Auth] to the response: permission, read-only mode, reserved keys and
    validation in the order of the code, then the calls to the engine.  Paths,
    queries and bodies are the values that actix and serde extract from them; a
    response is its status and the JSON of its body.  A message that repeats the
    text of a library error is cut before it.

    The degradation mode of the engine is a parameter, as is the regular
    expression library. *)
From Stdlib Require Import ZArith Lia.
From stdpp Require Import base tactics numbers list gmap strings sorting.
From S2P Require Import Prelude Bytes SortedMap LogRecord Iterators.
From S2P Require Import MemTable Extern Encryption SstReader Wal Table.
From S2P Require Import VersionSet Utf8 Text Engine EngineSpec EngineQueries Paging.
From S2P Require Import CircuitBreaker Kv Keyspace Auth.
Local Open Scope Z_scope.

(** ** Responses *)

Inductive Json :=
| JNull
| JBool (b : bool)
| JNum (n : Z)
| JText (s : bytes)
| JList (js : list Json)
| JObject (fields : list (bytes * Json)).

Record Response := mkResponse {
  status : Z;
  body : Json;
}.

Definition error_json (msg : bytes) : Json := JObject [(lit "error", JText msg)].
(** The shape of errors for the frontend. *)
Definition failure_json (msg : bytes) : Json :=
  JObject [(lit "success", JBool false); (lit "message", JText msg)].
Definition success_json (data : Json) : Json :=
  JObject [(lit "success", JBool true); (lit "data", data)].
Definition status_ok_json : Json := JObject [(lit "status", JText (lit "ok"))].

Definition read_only_msg : bytes := lit "engine is in read-only mode; writes are rejected".
Definition internal_error : Response := mkResponse 500 (error_json (lit "internal server error")).
Definition internal_failure : Response := mkResponse 500 (failure_json (lit "internal server error")).
Definition key_not_found : Response := mkResponse 404 (error_json (lit "key not found")).

(** [keyspace::rejected]. *)
Definition rejected : Response := mkResponse 400 (error_json (lit "reserved key prefix")).

(** [AuthError::error_response]; the texts are those of its [Display]. *)
Definition auth_message (e : AuthError) : bytes :=
  match e with
  | InvalidToken => lit "Invalid authentication token"
  | TokenExpired => lit "Token has expired"
  | MissingToken => lit "Missing authorization header"
  | InsufficientPermissions => lit "Insufficient permissions"
  | TokenNotFound => lit "Token not found"
  | TokenGenerationFailed => lit "Failed to generate token"
  | InvalidPermission => lit "Invalid permission: "
  | AuthInternal => lit "Internal auth error: "
  end.
Definition error_response (e : AuthError) : Response :=
  mkResponse (status_code e)
    (JObject [(lit "error", JText (auth_message e)); (lit "status", JNum (status_code e))]).

(** ** Requests *)

Record KeysQuery := mkKeysQuery {
  kq_prefix : option bytes;
  kq_limit : option Z;
  kq_cursor : option bytes;
}.
Record SearchQuery := mkSearchQuery {
  sq_q : option bytes;
  sq_mode : option bytes;
  sq_limit : option Z;
  sq_cursor : option bytes;
  sq_prefix : option bytes;
}.
Record ScanQuery := mkScanQuery {
  sc_lower : option bytes;
  sc_upper : option bytes;
  sc_limit : option Z;
  sc_cursor : option bytes;
}.
(** [FrontendSetBody]; the body of [PUT /keys/{key}] with the key of its path. *)
Record SetBody := mkSetBody {
  sb_key : bytes;
  sb_value : bytes;
  sb_ttl_secs : option Z;
}.

(** [regex_lite]: compiling and matching. *)
Class RegexLite := {
  regex : bytes -> option (bytes -> bool);
}.

Definition MAX_BATCH_SIZE : Z := 1000.
Definition secs (n : Z) : Z := n * 1000000000.

Definition row_json (e : bytes * bytes) : Json :=
  JObject [(lit "key", JText (from_utf8_lossy e.1)); (lit "value", JText (from_utf8_lossy e.2))].
Definition cursor_json (c : option bytes) : Json := match c with Some c => JText c | None => JNull end.

Section api.
Context `{!Crc32, !Aead, !Postcard LogRecord, !Postcard LogRecordV0, !Postcard LogRecordV1}.
Context `{!BloomCrate} `{!SstStore} `{!Moka bytes bytes} `{!SerdeJson} `{!EngineEnv}.
Context `{!RegexLite} (scan_fuel : nat) (mode : Degradation.DegradationMode).

(** ** Guards *)

(** [if let Err(e) = require_permission(..) { return *e }]. *)
Definition with_permission (rq : Request) (p : Permission) (h : M Response) : M Response :=
  match require_permission rq p with
  | inl e => mret (error_response e)
  | inr _ => h
  end.

Definition unless (c : bool) (r : Response) (h : M Response) : M Response := if c then mret r else h.

(** The refusal of writes in read-only mode, in the two shapes of the handlers. *)
Definition when_writable (h : M Response) : M Response :=
  unless (negb (Degradation.check_write_allowed mode)) (mkResponse 503 (error_json read_only_msg)) h.
Definition when_writable_frontend (h : M Response) : M Response :=
  unless (negb (Degradation.check_write_allowed mode)) (mkResponse 503 (failure_json read_only_msg)) h.

(** [match m { Ok(a) => k(a), Err(e) => r }]. *)
Definition on_result {A : Type} (m : M A) (k : A -> M Response) (r : Response) : M Response := fun s =>
  match m s with
  | (Ok a, s) => k a s
  | (Err _, s) => (Ok r, s)
  | (Panic, s) => (Panic, s)
  end.

(** ** Single keys *)

Definition get_key (rq : Request) (key : bytes) : M Response :=
  with_permission rq Read $
  unless (is_reserved key) rejected $
  on_result (get_cf "default" key)
    (fun v => match v with
              | Some v => mret (mkResponse 200 (JObject [(lit "key", JText key); (lit "value", JText (from_utf8_lossy v))]))
              | None => mret key_not_found
              end)
    internal_error.

(** The write of a value with or without an expiry. *)
Definition set_value (b : SetBody) : M unit :=
  match sb_ttl_secs b with
  | Some ttl => set_cf_with_ttl "default" (sb_key b) (sb_value b) (secs ttl)
  | None => put_cf "default" (sb_key b) (sb_value b)
  end.

Definition put_key (rq : Request) (b : SetBody) : M Response :=
  with_permission rq Write $
  when_writable $
  unless (is_reserved (sb_key b)) rejected $
  unless (bytes_eqb (sb_key b) []) (mkResponse 400 (error_json (lit "key must not be empty"))) $
  unless (4096 <? len (sb_key b)) (mkResponse 400 (error_json (lit "key too long"))) $
  on_result (set_value b) (fun _ => mret (mkResponse 200 status_ok_json)) internal_error.

Definition post_key (rq : Request) (b : SetBody) : M Response :=
  with_permission rq Write $
  unless (is_reserved (sb_key b)) rejected $
  when_writable_frontend $
  unless (bytes_eqb (sb_key b) []) (mkResponse 400 (failure_json (lit "key must not be empty"))) $
  unless (4096 <? len (sb_key b)) (mkResponse 400 (failure_json (lit "key too long"))) $
  on_result (set_value b)
    (fun _ => mret (mkResponse 200 (success_json (JObject [(lit "key", JText (sb_key b))])))) internal_failure.

Definition delete_key (rq : Request) (key : bytes) : M Response :=
  with_permission rq Delete $
  when_writable $
  unless (is_reserved key) rejected $
  on_result (delete_cf "default" key) (fun _ => mret (mkResponse 200 status_ok_json)) internal_error.

(** ** Expiry *)

Definition ttl_json (key : bytes) (ttl : Json) (expired : bool) : Response :=
  mkResponse 200 (JObject [(lit "key", JText key); (lit "ttl_secs", ttl); (lit "expired", JBool expired)]).

(** A failed lookup of the expiry entry counts as no entry. *)
Definition get_key_ttl (rq : Request) (key : bytes) : M Response :=
  with_permission rq Read $
  unless (is_reserved key) rejected $
  on_result (get_cf "default" key)
    (fun v => match v with
              | None => mret key_not_found
              | Some _ =>
                  ttl_raw ← ok_value (get_cf "default" (lit "__ttl:" ++ key));
                  match ttl_raw with
                  | Some raw =>
                      if len raw =? 16 then
                        now ← now;
                        let expires_at := from_le_bytes raw in
                        if expires_at <=? now then mret (ttl_json key (JNum 0) true)
                        else mret (ttl_json key (JNum (as_u64 ((expires_at - now) / 1000000000))) false)
                      else mret (ttl_json key JNull false)
                  | None => mret (ttl_json key JNull false)
                  end
              end)
    internal_error.

Definition update_key_ttl (rq : Request) (key : bytes) (ttl_secs : Z) : M Response :=
  with_permission rq Write $
  when_writable $
  unless (is_reserved key) rejected $
  on_result (get_cf "default" key)
    (fun v => match v with
              | None => mret key_not_found
              | Some value =>
                  on_result (set_cf_with_ttl "default" key value (secs ttl_secs))
                    (fun _ => mret (mkResponse 200
                       (JObject [(lit "status", JText (lit "ok")); (lit "key", JText key); (lit "ttl_secs", JNum ttl_secs)])))
                    internal_error
              end)
    internal_error.

(** ** Batches and prefixes *)

Definition batch_delete_keys (rq : Request) (keys : list bytes) : M Response :=
  with_permission rq Delete $
  unless (existsb is_reserved keys) rejected $
  when_writable $
  let deleted n := mkResponse 200 (JObject [(lit "deleted_count", JNum n)]) in
  unless (match keys with [] => true | _ => false end) (deleted 0) $
  on_result (delete_batch_cf "default" keys) (fun _ => mret (deleted (len keys))) internal_error.

Definition delete_keys_by_prefix (rq : Request) (q : KeysQuery) : M Response :=
  with_permission rq Delete $
  when_writable $
  match kq_prefix q with
  | Some ((_ :: _) as pre) =>
      unless (is_reserved pre || starts_with (lit "__") pre) rejected $
      on_result (delete_range_cf "default" pre (default [] (prefix_end pre)))
        (fun _ => mret (mkResponse 200 (JObject [(lit "status", JText (lit "ok")); (lit "prefix", JText pre)])))
        internal_error
  | _ => mret (mkResponse 400 (error_json (lit "prefix query parameter is required")))
  end.

(** The validation of a batch: the first record that fails. *)
Fixpoint batch_invalid (records : list SetBody) : option Response :=
  match records with
  | [] => None
  | r :: records =>
      if bytes_eqb (sb_key r) [] then Some (mkResponse 400 (failure_json (lit "key must not be empty")))
      else if 4096 <? len (sb_key r) then
        Some (mkResponse 400 (failure_json (lit "key too long: " ++ decimal (Z.to_N (len (sb_key r))) ++ lit " bytes (max 4096)")))
      else batch_invalid records
  end.

(** The loop of writes; those that fail are not counted. *)
Fixpoint batch_write (records : list SetBody) (count : Z) : M Z :=
  match records with
  | [] => mret count
  | r :: records =>
      fun s => match set_value r s with
               | (Ok _, s) => batch_write records (count + 1) s
               | (Err _, s) => batch_write records count s
               | (Panic, s) => (Panic, s)
               end
  end.

Definition batch_keys (rq : Request) (records : list SetBody) : M Response :=
  with_permission rq Write $
  unless (existsb (fun r => is_reserved (sb_key r)) records) rejected $
  when_writable_frontend $
  unless (MAX_BATCH_SIZE <? len records)
    (mkResponse 400 (failure_json (lit "batch size " ++ decimal (Z.to_N (len records)) ++
       lit " exceeds maximum of " ++ decimal (Z.to_N MAX_BATCH_SIZE)))) $
  match batch_invalid records with
  | Some r => mret r
  | None =>
      count ← batch_write records 0;
      mret (mkResponse 200 (success_json (JObject [(lit "count", JNum count)])))
  end.

(** ** Scans *)

Definition query_limit (limit : option Z) : Z := Z.min (default 100 limit) MAX_SCAN_LIMIT.

Definition get_keys (rq : Request) (q : KeysQuery) : M Response :=
  with_permission rq Read $
  unless (match kq_prefix q with Some pre => is_reserved pre | None => false end) rejected $
  let limit := query_limit (kq_limit q) in
  match kq_prefix q with
  | Some pre =>
      on_result (prefix scan_fuel pre (kq_cursor q) limit)
        (fun '(results, new_cursor) =>
           mret (mkResponse 200 (JObject [(lit "keys", JList ((fun e => JText (from_utf8_lossy e.1)) <$> results));
                                          (lit "cursor", cursor_json new_cursor)])))
        internal_error
  | None =>
      on_result (scan scan_fuel None None limit)
        (fun keys =>
           mret (mkResponse 200 (JObject [(lit "keys",
             JList ((fun e => JText (from_utf8_lossy e.1)) <$> take (Z.to_nat limit) keys))])))
        internal_error
  end.

(** A page of a range: the rows, whether more follow, and the next cursor. *)
Definition range_page (q : ScanQuery) (records : list (bytes * bytes))
    : list (bytes * bytes) * bool * option bytes :=
  let limit := query_limit (sc_limit q) in
  let records := skip_while (fun e : bytes * bytes =>
    match sc_cursor q with Some c => bytes_eqb e.1 c | None => false end) records in
  let has_more := limit <? len records in
  let records := take (Z.to_nat limit) records in
  (records, has_more, if has_more then last records ≫= (fun e => from_utf8 e.1) else None).

(** The scan of a range, from the cursor if there is one. *)
Definition range_scan (q : ScanQuery) : M (list (bytes * bytes)) :=
  let lower := match sc_cursor q with Some c => Some c | None => sc_lower q end in
  scan scan_fuel lower (sc_upper q) (query_limit (sc_limit q) + 1).

Definition keys_range (rq : Request) (q : ScanQuery) : M Response :=
  with_permission rq Read $
  on_result (range_scan q)
    (fun records =>
       let '(records, has_more, new_cursor) := range_page q records in
       mret (mkResponse 200 (JObject [(lit "keys", JList (row_json <$> records));
         (lit "cursor", cursor_json new_cursor); (lit "has_more", JBool has_more)])))
    internal_error.

Definition scan_keys (rq : Request) (q : ScanQuery) : M Response :=
  with_permission rq Read $
  on_result (range_scan q)
    (fun records =>
       let '(records, has_more, new_cursor) := range_page q records in
       mret (mkResponse 200 (success_json (JObject [(lit "records", JList (row_json <$> records));
         (lit "cursor", cursor_json new_cursor); (lit "has_more", JBool has_more)]))))
    internal_failure.

(** ** Searches *)

Definition records_json (es : list (bytes * bytes)) : Response :=
  mkResponse 200 (success_json (JObject [(lit "records", JList (row_json <$> es))])).

Definition search_keys (rq : Request) (q : SearchQuery) : M Response :=
  with_permission rq Read $
  let limit := query_limit (sq_limit q) in
  let query_str := default [] (match sq_q q with Some s => Some s | None => sq_prefix q end) in
  let search_mode := default (lit "prefix") (sq_mode q) in
  unless (is_reserved query_str) rejected $
  if bytes_eqb search_mode (lit "contains") || bytes_eqb search_mode (lit "substring") then
    on_result (scan_matching scan_fuel None None limit (fun e => contains (from_utf8_lossy e.1) query_str))
      (fun results => mret (records_json results)) internal_error
  else if bytes_eqb search_mode (lit "regex") then
    match regex query_str with
    | None => mret (mkResponse 400 (error_json (lit "invalid regex: ")))
    | Some is_match =>
        on_result (scan scan_fuel None None 10000)
          (fun results => mret (records_json (take (Z.to_nat limit)
             (filter (fun e => is_match (from_utf8_lossy e.1) = true) results)))) internal_error
    end
  else
    on_result (prefix scan_fuel query_str (sq_cursor q) limit)
      (fun '(results, new_cursor) =>
         mret (mkResponse 200 (success_json (JObject [(lit "records", JList (row_json <$> results));
           (lit "cursor", cursor_json new_cursor)]))))
      internal_failure.

Definition value_search_keys (rq : Request) (q : option bytes) (limit : option Z) : M Response :=
  with_permission rq Read $
  match q with
  | Some ((_ :: _) as q) =>
      on_result (scan_matching scan_fuel None None (Z.min (default 100 limit) 100)
                   (fun e => contains (from_utf8_lossy e.2) q))
        (fun results => mret (records_json results)) internal_error
  | _ => mret (mkResponse 400 (error_json (lit "q parameter is required")))
  end.

(** ** Secondary indexes *)

Definition query_by_index (rq : Request) (index eq : option bytes) (limit : option Z) : M Response :=
  with_permission rq Read $
  match index with
  | None => mret (mkResponse 400 (error_json (lit "index parameter is required")))
  | Some field =>
      match eq with
      | None => mret (mkResponse 400 (error_json (lit "eq parameter is required")))
      | Some v =>
          on_result (query_index "default" field v (Z.min (default 100 limit) 1000))
            (fun results => mret (records_json (filter (fun e => is_reserved e.1 = false) results))) internal_error
      end
  end.

Definition create_index_handler (rq : Request) (key field : bytes) : M Response :=
  with_permission rq Write $
  unless (is_reserved key) rejected $
  on_result (create_index "default" field)
    (fun _ => mret (mkResponse 200 (JObject [(lit "status", JText (lit "ok")); (lit "key", JText key); (lit "field", JText field)])))
    internal_error.

Definition list_indexes_handler (rq : Request) : M Response :=
  with_permission rq Read $
  on_result list_indexes
    (fun fields => mret (mkResponse 200 (JObject [(lit "indexes", JList (JText <$> fields))]))) internal_error.

(** ** Administration *)

Definition admin_flush (rq : Request) : M Response :=
  with_permission rq Admin $
  when_writable $
  on_result (flush_memtable_cf "default") (fun _ => mret (mkResponse 200 status_ok_json))
    (mkResponse 500 (error_json (lit "flush failed"))).
End api.
