(* ===== verification/ApiSpec.v ===== *)
(** * ApiSpec: the HTTP interface is a map of client keys

    What the handlers of [Api] do to the map the engine stands for, and what they
    answer, for requests that the guards admit; that refused requests have no
    effect; and that clients cannot change the keys of the engine. *)
From Stdlib Require Import ZArith Lia.
From stdpp Require Import base tactics numbers list gmap strings sorting.
From S2P Require Import Prelude Bytes SortedMap LogRecord Iterators.
From S2P Require Import MemTable Extern Encryption SstReader Wal Table.
From S2P Require Import VersionSet Utf8 Text Engine EngineSpec EngineQueries Paging.
From S2P Require Import CircuitBreaker Kv Keyspace Auth Api.
Local Open Scope Z_scope.

(** The calls of a client, with the values extracted from path, query and body. *)
Inductive call :=
| GetKey (key : bytes)
| PutKey (b : SetBody)
| PostKey (b : SetBody)
| DeleteKey (key : bytes)
| BatchDelete (keys : list bytes)
| DeletePrefix (q : KeysQuery)
| BatchPut (records : list SetBody)
| ListKeys (q : KeysQuery)
| RangeKeys (q : ScanQuery)
| ScanKeys (q : ScanQuery)
| ValueSearch (q : option bytes) (limit : option Z)
| FlushCall.

Definition permission_of (c : call) : Permission :=
  match c with
  | GetKey _ | ListKeys _ | RangeKeys _ | ScanKeys _ | ValueSearch _ _ => Read
  | PutKey _ | PostKey _ | BatchPut _ => Write
  | DeleteKey _ | BatchDelete _ | DeletePrefix _ => Delete
  | FlushCall => Admin
  end.

Definition writes (c : call) : bool :=
  match c with
  | GetKey _ | ListKeys _ | RangeKeys _ | ScanKeys _ | ValueSearch _ _ => false
  | _ => true
  end.

(** A key a client may write. *)
Definition client_key (k : bytes) : bool :=
  negb (is_reserved k) && negb (bytes_eqb k []) && (len k <=? 4096).

(** The arguments that pass the validation of the handlers. *)
Definition valid (c : call) : bool :=
  match c with
  | GetKey k | DeleteKey k => negb (is_reserved k)
  | PutKey b | PostKey b => client_key (sb_key b)
  | BatchDelete ks => forallb (fun k => negb (is_reserved k)) ks
  | DeletePrefix q => match kq_prefix q with
                      | Some ((_ :: _) as pre) => negb (is_reserved pre || starts_with (lit "__") pre)
                      | _ => false
                      end
  | BatchPut rs => forallb (fun r => client_key (sb_key r)) rs && (len rs <=? MAX_BATCH_SIZE)
  | ListKeys q => match kq_prefix q with Some pre => negb (is_reserved pre) | None => true end
  | ValueSearch q _ => match q with Some (_ :: _) => true | _ => false end
  | RangeKeys _ | ScanKeys _ | FlushCall => true
  end.

(** What a call does to the map. *)
Definition effect (m : gmap bytes bytes) (c : call) : gmap bytes bytes :=
  match c with
  | PutKey b | PostKey b => <[sb_key b := sb_value b]> m
  | DeleteKey k => delete k m
  | BatchDelete ks => foldl (fun m k => delete k m) m ks
  | DeletePrefix q => filter (fun e => starts_with e.1 (default [] (kq_prefix q)) = false) m
  | BatchPut rs => foldl (fun m r => <[sb_key r := sb_value r]> m) m rs
  | GetKey _ | ListKeys _ | RangeKeys _ | ScanKeys _ | ValueSearch _ _ | FlushCall => m
  end.

(** The client rows a range query is about: those from the lower bound on, or
    those after the cursor, which takes precedence. *)
Definition range_hits (m : gmap bytes bytes) (q : ScanQuery) : list (bytes * bytes) :=
  match sc_cursor q with
  | None => client_rows m (sc_lower q) (sc_upper q)
  | Some c => filter (fun e => bytes_ltb c e.1 = true) (client_rows m (Some c) (sc_upper q))
  end.

(** A page of a range: as many rows as the limit allows, whether more follow, and
    the last key as the cursor of the next page if they do. *)
Definition range_answer (m : gmap bytes bytes) (q : ScanQuery) : list (bytes * bytes) * bool * option bytes :=
  let n := Z.to_nat (query_limit (sc_limit q)) in
  let hs := range_hits m q in
  (take n hs, (n <? length hs)%nat,
   if (n <? length hs)%nat then last (take n hs) ≫= (fun e => from_utf8 e.1) else None).

(** The pages the code announces correctly: first pages, pages after a key that is
    no longer there, and last pages.  The row of the cursor takes the place of
    the row that would show that more follow. *)
Definition page_announced (m : gmap bytes bytes) (q : ScanQuery) : Prop :=
  match sc_cursor q with
  | None => True
  | Some c => m !! c = None \/ (length (range_hits m q) <= Z.to_nat (query_limit (sc_limit q)))%nat
  end.

Definition range_json (field : bytes) (page : list (bytes * bytes) * bool * option bytes) : Json :=
  let '(rows, has_more, cursor) := page in
  JObject [(field, JList (row_json <$> rows)); (lit "cursor", cursor_json cursor); (lit "has_more", JBool has_more)].

(** What a call answers. *)
Definition answer (m : gmap bytes bytes) (c : call) : Response :=
  match c with
  | GetKey k =>
      match m !! k with
      | Some v => mkResponse 200 (JObject [(lit "key", JText k); (lit "value", JText (from_utf8_lossy v))])
      | None => key_not_found
      end
  | PutKey _ | DeleteKey _ | FlushCall => mkResponse 200 status_ok_json
  | PostKey b => mkResponse 200 (success_json (JObject [(lit "key", JText (sb_key b))]))
  | BatchDelete ks => mkResponse 200 (JObject [(lit "deleted_count", JNum (len ks))])
  | DeletePrefix q =>
      mkResponse 200 (JObject [(lit "status", JText (lit "ok")); (lit "prefix", JText (default [] (kq_prefix q)))])
  | BatchPut rs => mkResponse 200 (success_json (JObject [(lit "count", JNum (len rs))]))
  | ListKeys q =>
      let n := Z.to_nat (query_limit (kq_limit q)) in
      let names es := JList ((fun e : bytes * bytes => JText (from_utf8_lossy e.1)) <$> es) in
      match kq_prefix q with
      | Some pre =>
          let hs := client_hits m pre (kq_cursor q) in
          mkResponse 200 (JObject [(lit "keys", names (take n hs));
            (lit "cursor", cursor_json (if (n <? length hs)%nat
               then (fun e => from_utf8_lossy e.1) <$> last (take n hs) else None))])
      | None => mkResponse 200 (JObject [(lit "keys", names (take n (client_rows m None None)))])
      end
  | RangeKeys q => mkResponse 200 (range_json (lit "keys") (range_answer m q))
  | ScanKeys q => mkResponse 200 (success_json (range_json (lit "records") (range_answer m q)))
  | ValueSearch q limit =>
      records_json (take (Z.to_nat (Z.min (default 100 limit) 100))
        (filter (fun e => is_reserved e.1 = false /\ contains (from_utf8_lossy e.2) (default [] q) = true)
           (take (Z.to_nat 10000) (sorted_entries m))))
  end.

(** ** Reserved keys *)

Lemma unreserved_user k : is_reserved k = false -> user_key k = true.
Proof.
  unfold is_reserved, user_key, TTL_PREFIX, schema_prefix, INDEX_PREFIX. intros Hr. apply andb_true_iff.
  split; apply negb_true_iff, not_true_iff_false; intros (r & ->)%starts_with_spec; done.
Qed.

(** A key under a prefix that neither is reserved nor begins the reserved one is
    not reserved. *)
Lemma prefix_unreserved pre k :
  pre <> [] -> is_reserved pre = false -> starts_with (lit "__") pre = false -> starts_with k pre = true ->
  is_reserved k = false.
Proof.
  intros Hne Hr Hu (r & ->)%starts_with_spec. unfold is_reserved in *. cbn in *.
  destruct pre as [|a [|b pre]]; [done|..]; cbn in *.
  - rewrite andb_true_r in Hu. apply bool_decide_eq_false in Hu. by rewrite bool_decide_eq_false_2.
  - rewrite <- Hr. by destruct (pre ++ r), pre.
Qed.

Lemma client_key_spec k : client_key k = true <-> is_reserved k = false /\ k <> [] /\ len k <= 4096.
Proof.
  unfold client_key. rewrite !andb_true_iff, !negb_true_iff, Z.leb_le. destruct (bytes_eqb_spec k []); naive_solver.
Qed.

(** ** Isolation *)

Definition reserved_part (m : gmap bytes bytes) : gmap bytes bytes := filter (fun e => is_reserved e.1 = true) m.

Lemma reserved_part_lookup m k : reserved_part m !! k = if is_reserved k then m !! k else None.
Proof.
  unfold reserved_part. rewrite map_lookup_filter. destruct (m !! k) as [v|]; [|by destruct (is_reserved k)].
  cbn [mbind option_bind fst]. destruct (is_reserved k) eqn:E; [by rewrite option_guard_True|].
  by rewrite option_guard_False by congruence.
Qed.

Lemma reserved_part_insert m k v : is_reserved k = false -> reserved_part (<[k := v]> m) = reserved_part m.
Proof.
  intros Hk. apply map_eq. intros k'. rewrite !reserved_part_lookup.
  destruct (decide (k = k')) as [<-|]; [by rewrite Hk|by rewrite lookup_insert_ne].
Qed.

Lemma reserved_part_delete m k : is_reserved k = false -> reserved_part (delete k m) = reserved_part m.
Proof.
  intros Hk. apply map_eq. intros k'. rewrite !reserved_part_lookup.
  destruct (decide (k = k')) as [<-|]; [by rewrite Hk|by rewrite lookup_delete_ne].
Qed.

(** Admitted calls leave the keys of the engine. *)
Lemma effect_reserved m c : valid c = true -> reserved_part (effect m c) = reserved_part m.
Proof.
  destruct c as [k|b|b|k|ks|q|rs|q|q|q|q l|]; cbn [valid effect]; intros Hv; try done.
  - apply client_key_spec in Hv as [Hr _]. by apply reserved_part_insert.
  - apply client_key_spec in Hv as [Hr _]. by apply reserved_part_insert.
  - apply reserved_part_delete. by apply negb_true_iff.
  - revert m; induction ks as [|k ks IH]; intros m; [done|]. cbn in Hv. apply andb_true_iff in Hv as [Hk Hv].
    cbn [foldl]. rewrite IH by done. apply reserved_part_delete. by apply negb_true_iff.
  - destruct (kq_prefix q) as [[|b pre]|]; try done. apply negb_true_iff, orb_false_iff in Hv as [Hr Hu].
    change (default [] (Some (b :: pre))) with (b :: pre). apply map_eq. intros k. rewrite !reserved_part_lookup.
    destruct (is_reserved k) eqn:Hk; [|done]. rewrite map_lookup_filter. destruct (m !! k) as [v|]; [|done]. cbn.
    rewrite option_guard_True; [done|]. apply not_true_is_false. intros Hs.
    by rewrite (prefix_unreserved (b :: pre) k) in Hk.
  - apply andb_true_iff in Hv as [Hv _]. revert m; induction rs as [|r rs IH]; intros m; [done|].
    cbn in Hv. apply andb_true_iff in Hv as [Hk Hv]. apply client_key_spec in Hk as [Hk _].
    cbn [foldl]. rewrite IH by done. by apply reserved_part_insert.
Qed.

(** ** What clients see *)

Definition client_part (m : gmap bytes bytes) : gmap bytes bytes := filter (fun e => is_reserved e.1 = false) m.

Lemma sorted_entries_filter (P : bytes * bytes -> Prop) `{!forall e, Decision (P e)} (m : gmap bytes bytes) :
  sorted_entries (filter P m) = filter P (sorted_entries m).
Proof.
  apply key_sorted_ext; [apply sorted_entries_sorted|apply key_sorted_filter, sorted_entries_sorted|].
  intros k. rewrite assoc_filter, !assoc_sorted_entries, map_lookup_filter by apply sorted_entries_sorted.
  destruct (m !! k) as [v|]; [|done]. cbn [mbind option_bind].
  case_decide; [by rewrite option_guard_True|by rewrite option_guard_False].
Qed.

Lemma rows_client_part m lower upper : rows (client_part m) lower upper = client_rows m lower upper.
Proof.
  unfold client_rows, rows, client_part. rewrite sorted_entries_filter, !list_filter_filter.
  apply filter_weaken. intros e _. naive_solver.
Qed.

Lemma client_rows_client_part m lower upper : client_rows (client_part m) lower upper = client_rows m lower upper.
Proof.
  unfold client_rows at 1. rewrite rows_client_part. unfold client_rows. rewrite list_filter_filter.
  apply filter_weaken. intros e _. naive_solver.
Qed.

Lemma client_hits_client_part m pre cursor : client_hits (client_part m) pre cursor = client_hits m pre cursor.
Proof.
  unfold client_hits, client_part. rewrite sorted_entries_filter, list_filter_filter.
  apply filter_weaken. intros e _. naive_solver.
Qed.

(** The answers to admitted calls depend on the client keys only, as long as a
    value search can examine all entries: its budget counts reserved ones. *)
Theorem answers_hide_reserved m c :
  valid c = true -> (size m <= Z.to_nat 10000)%nat -> answer m c = answer (client_part m) c.
Proof.
  intros Hv Hsize. destruct c as [k|b|b|k|ks|q|rs|q|q|q|q l|]; cbn [answer valid] in *; try done.
  - apply negb_true_iff in Hv. unfold client_part. rewrite map_lookup_filter. destruct (m !! k); [|done].
    cbn [mbind option_bind fst]. by rewrite option_guard_True.
  - destruct (kq_prefix q) as [pre|]; [by rewrite client_hits_client_part|by rewrite client_rows_client_part].
  - unfold range_answer, range_hits. destruct (sc_cursor q); by rewrite client_rows_client_part.
  - unfold range_answer, range_hits. destruct (sc_cursor q); by rewrite client_rows_client_part.
  - unfold client_part. rewrite sorted_entries_filter.
    assert (length (sorted_entries m) = size m) as Hlen by (by rewrite sorted_entries_Permutation, length_map_to_list).
    pose proof (length_filter (fun e => is_reserved e.1 = false) (sorted_entries m)).
    rewrite (take_ge (sorted_entries m)), (take_ge (filter (fun e => is_reserved e.1 = false) _)) by lia.
    f_equal. f_equal. rewrite list_filter_filter. apply filter_weaken. intros e _. naive_solver.
Qed.

Section spec.
Context `{!Crc32, !Aead, !Postcard LogRecord, !Postcard LogRecordV0, !Postcard LogRecordV1}.
Context `{!BloomCrate} `{!SstStore} `{!SstStoreLaws} `{!Moka bytes bytes} `{!SerdeJson} `{!EngineEnv}.
Context (scan_fuel : nat) (mode : Degradation.DegradationMode).
Context {R : Residency} (clock_mono : forall i, 0 <= clock i < clock (S i)).
Context (no_default_ttl : default_ttl options = None).
Abbreviation refines := (EngineSpec.refines "default").
Abbreviation fits := (EngineSpec.fits "default").

(** The handler of each call. *)
Definition handle (rq : Request) (c : call) : M Response :=
  match c with
  | GetKey k => get_key rq k
  | PutKey b => put_key mode rq b
  | PostKey b => post_key mode rq b
  | DeleteKey k => delete_key mode rq k
  | BatchDelete ks => batch_delete_keys mode rq ks
  | DeletePrefix q => delete_keys_by_prefix mode rq q
  | BatchPut rs => batch_keys mode rq rs
  | ListKeys q => get_keys scan_fuel rq q
  | RangeKeys q => keys_range scan_fuel rq q
  | ScanKeys q => scan_keys scan_fuel rq q
  | ValueSearch q limit => value_search_keys scan_fuel rq q limit
  | FlushCall => admin_flush mode rq
  end.

(** The guards admit the call. *)
Definition admitted (rq : Request) (c : call) : Prop :=
  require_permission rq (permission_of c) = inr tt /\
  (writes c = true -> Degradation.check_write_allowed mode = true) /\ valid c = true.

(** Values without expiry that the engine can hold, and text where the code has
    strings. *)
Definition body_ok (b : SetBody) : Prop :=
  sb_ttl_secs b = None /\ sb_value b <> [] /\ fits (sb_key b) (sb_value b).
Definition call_ok (c : call) : Prop :=
  match c with
  | PutKey b | PostKey b => body_ok b
  | DeleteKey k => fits k []
  | BatchDelete ks => Forall (fun k => fits k []) ks
  | BatchPut rs => Forall body_ok rs
  | DeletePrefix q => Byte.xff ∉ default [] (kq_prefix q)
  | ListKeys q => Byte.xff ∉ default [] (kq_prefix q) /\ 0 <= default 100 (kq_limit q)
  | RangeKeys q | ScanKeys q => 0 <= default 100 (sc_limit q)
  | ValueSearch _ limit => 0 <= default 100 limit
  | GetKey _ | FlushCall => True
  end.

(** The engine did what was asked: no internal error, and every record of a batch
    was written. *)
Definition complete (c : call) (r : Response) : Prop :=
  status r <> 500 /\
  match c with BatchPut rs => body r = body (answer ∅ (BatchPut rs)) | _ => True end.

(** ** One call *)

Lemma on_result_inv {A : Type} (m : M A) k r s resp s' :
  on_result m k r s = (Ok resp, s') -> status r = 500 -> status resp <> 500 ->
  exists a s1, m s = (Ok a, s1) /\ k a s1 = (Ok resp, s').
Proof.
  unfold on_result. destruct (m s) as [[a|e|] s1]; [eauto|intros [= <- <-]; congruence|done].
Qed.

Lemma on_result_ok {A : Type} (m : M A) k r s a s1 : m s = (Ok a, s1) -> on_result m k r s = k a s1.
Proof. unfold on_result. by intros ->. Qed.

Lemma set_value_refines s m b s' :
  refines s m -> body_ok b -> is_reserved (sb_key b) = false -> set_value b s = (Ok tt, s') ->
  refines s' (<[sb_key b := sb_value b]> m).
Proof.
  intros Href (Ht & Hv & Hf) Hr Hs. unfold set_value in Hs. rewrite Ht in Hs.
  by eapply (put_refines clock_mono "default" no_default_ttl 1); [..|by left|exact Hs]; [|apply unreserved_user|..].
Qed.

(** The count of a batch reaches its length only when every write succeeded. *)
Lemma batch_write_refines rs s m n total s' :
  refines s m -> Forall body_ok rs -> Forall (fun r => is_reserved (sb_key r) = false) rs ->
  batch_write rs n s = (Ok total, s') ->
  total <= n + len rs /\
  (total = n + len rs -> refines s' (foldl (fun m r => <[sb_key r := sb_value r]> m) m rs)).
Proof.
  intros Href Hok Hr. revert s m n Href.
  assert (forall rs n s, batch_write rs n s = (Ok total, s') -> total <= n + len rs) as Hle.
  { clear. intros rs; induction rs as [|r rs IH]; intros n s; cbn [batch_write].
    - intros [= <- _]. unfold len. cbn. lia.
    - destruct (set_value r s) as [[a|e|] s1]; [..|done]; intros Hb%IH; unfold len in *; cbn; lia. }
  induction Hok as [|r rs Hb _ IH]; intros s m n Href Hw; cbn [batch_write] in Hw.
  { injection Hw as <- <-. unfold len. cbn. split; [lia|done]. }
  apply Forall_cons in Hr as [Hr1 Hr]. split; [by apply (Hle (r :: rs) n s)|]. unfold len in *. cbn [length].
  destruct (set_value r s) as [[[]|e|] s1] eqn:E; [|apply Hle in Hw; unfold len in *; lia|done].
  intros Ht. cbn [foldl]. eapply (IH Hr s1 _ (n + 1)); [by eapply set_value_refines|done|lia].
Qed.

(** ** Pages of a range *)

Lemma skip_while_none {A : Type} (p : A -> bool) l : (forall x, x ∈ l -> p x = false) -> skip_while p l = l.
Proof. destruct l as [|x l]; [done|]. intros Hp. cbn. by rewrite Hp by (by left). Qed.

Lemma taken {A : Type} (x : A) n l : x ∈ take n l -> x ∈ l.
Proof. intros Hx. rewrite <- (take_drop n l). set_solver. Qed.

Lemma query_limit_nonneg limit : 0 <= default 100 limit -> 0 <= query_limit limit <= MAX_SCAN_LIMIT.
Proof. unfold query_limit, MAX_SCAN_LIMIT. lia. Qed.

(** A page without a row to skip. *)
Lemma plain_page limit (hs : list (bytes * bytes)) :
  0 <= limit ->
  let n := Z.to_nat limit in let rows := take (S n) hs in
  (take n rows, limit <? len rows, if limit <? len rows then last (take n rows) ≫= (fun e => from_utf8 e.1) else None) =
  (take n hs, (n <? length hs)%nat, if (n <? length hs)%nat then last (take n hs) ≫= (fun e => from_utf8 e.1) else None).
Proof.
  intros Hl n rows. assert ((limit <? len rows) = (n <? length hs)%nat) as ->.
  { unfold len. subst rows. rewrite length_take.
    destruct (Nat.ltb_spec n (length hs)); [apply Z.ltb_lt|apply Z.ltb_ge]; lia. }
  subst rows. rewrite take_take. by replace (n `min` S n)%nat with n by lia.
Qed.

(** The rows of a page are those of the range after the cursor, and the page is
    announced correctly but for a full page after a key that is still there. *)
Lemma range_page_answer m q :
  0 <= default 100 (sc_limit q) ->
  let lower := match sc_cursor q with Some c => Some c | None => sc_lower q end in
  let page := range_page q (take (S (Z.to_nat (query_limit (sc_limit q)))) (client_rows m lower (sc_upper q))) in
  page.1.1 = (range_answer m q).1.1 /\ (page_announced m q -> page = range_answer m q).
Proof.
  intros Hl lower. apply query_limit_nonneg in Hl as [Hl _]. unfold range_page, range_answer, page_announced, range_hits.
  subst lower. set (limit := query_limit (sc_limit q)) in *. destruct (sc_cursor q) as [c|].
  2:{ rewrite skip_while_none by done. pose proof (plain_page limit (client_rows m (sc_lower q) (sc_upper q)) Hl) as Hp.
      cbv zeta in Hp |- *. by rewrite Hp. }
  pose proof (rows_sorted m (Some c) (sc_upper q)) as Hs.
  apply (key_sorted_filter (fun e => is_reserved e.1 = false)) in Hs. fold (client_rows m (Some c) (sc_upper q)) in Hs.
  assert (forall e, e ∈ client_rows m (Some c) (sc_upper q) -> bytes_le c e.1 /\ m !! e.1 = Some e.2) as Hge.
  { intros [k v] [_ [Hk Hin]%elem_of_rows]%list_elem_of_filter. apply andb_true_iff in Hin as [Hin _]. by split. }
  destruct (client_rows m (Some c) (sc_upper q)) as [|[k v] hs] eqn:E.
  { rewrite filter_nil. pose proof (plain_page limit [] Hl) as Hp. cbn [take skip_while] in *. by rewrite Hp. }
  apply key_sorted_cons in Hs as [Hlt _]. destruct (Hge (k, v)) as [Hck Hm]; [by left|]. cbn [fst snd] in Hck, Hm.
  assert (forall e, e ∈ hs -> bytes_eqb e.1 c = false /\ bytes_ltb c e.1 = true) as Hno.
  { intros [k' v'] He. specialize (Hlt k' v' He). cbn [fst] in *. assert (bytes_lt c k') by bytes_order.
    split; [|done]. destruct (bytes_eqb_spec k' c) as [->|]; [bytes_order|done]. }
  assert (filter (fun e => bytes_ltb c e.1 = true) hs = hs) as Hall by (apply filter_all; intros e He; by apply Hno).
  rewrite filter_cons. cbn [fst]. destruct (bytes_eqb_spec k c) as [->|Hkc].
  - rewrite decide_False by (intros Hbad; by apply bytes_lt_irrefl in Hbad). rewrite Hall.
    cbn [take skip_while fst]. rewrite (proj2 (bytes_eqb_eq c c) eq_refl).
    rewrite skip_while_none by (intros e He%taken; by apply Hno).
    assert (limit <? len (take (Z.to_nat limit) hs) = false) as ->.
    { apply Z.ltb_ge. unfold len. rewrite length_take. lia. }
    rewrite take_take, Nat.min_id. split; [done|]. intros [Hn|Hlast]; [congruence|].
    by rewrite (proj2 (Nat.ltb_ge _ _) Hlast).
  - rewrite decide_True by (apply bytes_le_iff in Hck; naive_solver). rewrite Hall.
    rewrite skip_while_none.
    + pose proof (plain_page limit ((k, v) :: hs) Hl) as Hp. cbv zeta in Hp |- *.
      split; [exact (f_equal (fun p => p.1.1) Hp)|done].
    + intros e [->|He]%taken%elem_of_cons; [cbn; by destruct (bytes_eqb_spec k c)|by apply Hno].
Qed.

(** ** Admitted calls *)

Lemma batch_valid rs : Forall (fun r => client_key (sb_key r) = true) rs -> batch_invalid rs = None.
Proof.
  induction 1 as [|r rs (_ & Hne & Hlen)%client_key_spec _ IH]; [done|]. cbn [batch_invalid].
  destruct (bytes_eqb_spec (sb_key r) []); [done|]. by rewrite (proj2 (Z.ltb_ge _ _)) by lia.
Qed.

(** Resolve a guard of the handler whose condition is known. *)
Ltac pass_guard E := unfold with_permission, when_writable, when_writable_frontend, unless in E;
  cbn [negb orb] in E.

(** What one call is to do. *)
Definition refined (c : call) : Prop :=
  forall rq s m r s', refines s m -> admitted rq c -> call_ok c -> handle rq c s = (Ok r, s') -> complete c r ->
    refines s' (effect m c) /\ r = answer m c.

Lemma put_key_refined b : refined (PutKey b).
Proof.
  intros rq s m r s' Href (Hp & Hw & Hv) Hc E [Hst _]. cbn [handle valid permission_of] in *.
  apply client_key_spec in Hv as (Hr & Hne & Hlen). unfold put_key in E. pass_guard E.
  rewrite Hp, Hw, Hr in E by done. cbn [negb] in E. rewrite (proj2 (Z.ltb_ge _ _)) in E by lia.
  destruct (bytes_eqb_spec (sb_key b) []); [done|].
  apply on_result_inv in E as ([] & s1 & E & [= <- <-]); [|done..].
  split; [by eapply set_value_refines|done].
Qed.

Lemma post_key_refined b : refined (PostKey b).
Proof.
  intros rq s m r s' Href (Hp & Hw & Hv) Hc E [Hst _]. cbn [handle valid permission_of] in *.
  apply client_key_spec in Hv as (Hr & Hne & Hlen). unfold post_key in E. pass_guard E.
  rewrite Hp, Hw, Hr in E by done. cbn [negb] in E. rewrite (proj2 (Z.ltb_ge _ _)) in E by lia.
  destruct (bytes_eqb_spec (sb_key b) []); [done|].
  apply on_result_inv in E as ([] & s1 & E & [= <- <-]); [|done..].
  split; [by eapply set_value_refines|done].
Qed.

Lemma delete_key_refined k : refined (DeleteKey k).
Proof.
  intros rq s m r s' Href (Hp & Hw & Hv) Hc E [Hst _]. cbn [handle valid permission_of] in *.
  apply negb_true_iff in Hv. unfold delete_key in E. pass_guard E. rewrite Hp, Hw, Hv in E by done. cbn [negb] in E.
  apply on_result_inv in E as ([] & s1 & E & [= <- <-]); [|done..]. split; [|done].
  by eapply (delete_refines clock_mono "default" 1); [..|exact E]; [|apply unreserved_user|].
Qed.

Lemma forallb_Forall {A : Type} (p : A -> bool) l : forallb p l = true <-> Forall (fun x => p x = true) l.
Proof. rewrite forallb_forall, Forall_forall. by setoid_rewrite list_elem_of_In. Qed.

Lemma existsb_none {A : Type} (p : A -> bool) l : Forall (fun x => p x = false) l -> existsb p l = false.
Proof. induction 1 as [|x l Hx _ IH]; [done|]. cbn. by rewrite Hx. Qed.

Lemma batch_delete_refined ks : refined (BatchDelete ks).
Proof.
  intros rq s m r s' Href (Hp & Hw & Hv) Hc E [Hst _]. cbn [handle valid permission_of call_ok] in *.
  apply forallb_Forall in Hv. setoid_rewrite negb_true_iff in Hv. unfold batch_delete_keys in E. pass_guard E.
  rewrite Hp, (existsb_none _ _ Hv), Hw in E by done. cbn [negb] in E.
  destruct ks as [|k ks]; [by injection E as <- <-|].
  apply on_result_inv in E as ([] & s1 & E & [= <- <-]); [|done..]. split; [|done].
  eapply (delete_batch_refines clock_mono "default"); [done| |done].
  apply Forall_and. split; [|done]. eapply Forall_impl; [exact Hv|]. intros k'. apply unreserved_user.
Qed.

Lemma delete_prefix_keys p m :
  p <> [] -> Byte.xff ∉ p ->
  delete_keys p (default [] (prefix_end p)) m = filter (fun e => starts_with e.1 p = false) m.
Proof.
  intros Hne Hff. destruct (prefix_end p) as [e|] eqn:Ee.
  - apply map_filter_ext. intros k v _. cbn. rewrite <- (prefix_range p k Hff). by rewrite Ee.
  - destruct p; [done|]. unfold prefix_end in Ee. by destruct (increment_last _).
Qed.

Lemma delete_prefix_refined q : refined (DeletePrefix q).
Proof.
  intros rq s m r s' Href (Hp & Hw & Hv) Hc E [Hst _]. cbn [handle valid permission_of call_ok effect answer] in *.
  unfold delete_keys_by_prefix in E. pass_guard E. rewrite Hp, Hw in E by done. cbn [negb] in E.
  destruct (kq_prefix q) as [[|b pre]|]; try done. apply negb_true_iff in Hv. rewrite Hv in E.
  change (default [] (Some (b :: pre))) with (b :: pre) in *.
  apply on_result_inv in E as ([] & s1 & E & [= <- <-]); [|done..]. split; [|done].
  apply (delete_range_refines clock_mono "default" _ m) in E; [|done]. by rewrite delete_prefix_keys in E.
Qed.

Lemma batch_put_refined rs : refined (BatchPut rs).
Proof.
  intros rq s m r s' Href (Hp & Hw & Hv) Hc E [Hst Hbatch]. cbn [handle valid permission_of call_ok] in *.
  apply andb_true_iff in Hv as [Hv%forallb_Forall Hlen]. apply Z.leb_le in Hlen. unfold batch_keys in E. pass_guard E.
  assert (Forall (fun r => is_reserved (sb_key r) = false) rs) as Hr.
  { eapply Forall_impl; [exact Hv|]. by intros r' [Hr' _]%client_key_spec. }
  rewrite Hp, Hw, (existsb_none _ _ Hr), (batch_valid rs Hv) in E by done. cbn [negb] in E.
  rewrite (proj2 (Z.ltb_ge _ _)) in E by lia.
  apply bind_Ok_inv in E as (n & s1 & E & [= <- <-]). cbn in Hbatch. injection Hbatch as ->.
  split; [|done]. by eapply batch_write_refines; [..|exact E|lia].
Qed.

Lemma flush_refined : refined FlushCall.
Proof.
  intros rq s m r s' Href (Hp & Hw & Hv) Hc E [Hst _]. cbn [handle permission_of] in *.
  unfold admin_flush in E. pass_guard E. rewrite Hp, Hw in E by done. cbn [negb] in E.
  apply on_result_inv in E as ([] & s1 & E & [= <- <-]); [|done..]. split; [|done].
  apply bind_Ok_inv in E as (b & s2 & E & [= <-]). by eapply (flush_refines clock_mono).
Qed.

(** ** Reads *)

(** The scans of the handlers examine every entry. *)
Definition scannable (m : gmap bytes bytes) : Prop := (size m < scan_fuel)%nat /\ Z.of_nat (size m) <= usize_max.

(** A call the handlers can serve completely on the map. *)
Definition call_fits (m : gmap bytes bytes) (c : call) : Prop :=
  scannable m /\ match c with RangeKeys q | ScanKeys q => page_announced m q | _ => True end.

(** A read answers, and cannot fail. *)
Definition read_answers (c : call) : Prop :=
  forall rq s m, refines s m -> call_fits m c -> admitted rq c -> call_ok c ->
    exists s', handle rq c s = (Ok (answer m c), s') /\ refines s' m.

Lemma get_key_answers k : read_answers (GetKey k).
Proof.
  intros rq s m Href Hsc (Hp & _ & Hv) _. cbn [handle valid permission_of answer] in *. apply negb_true_iff in Hv.
  unfold get_key, with_permission, unless. rewrite Hp, Hv.
  destruct (get_refines clock_mono "default" s m k Href) as (s1 & E & Href1).
  rewrite (on_result_ok _ _ _ _ _ _ E). exists s1. by destruct (m !! k).
Qed.

Lemma list_keys_answers q : read_answers (ListKeys q).
Proof.
  intros rq s m Href [[Hf Hu] _] (Hp & _ & Hv) [Hff Hl]. cbn [handle valid permission_of answer] in *.
  apply query_limit_nonneg in Hl. unfold get_keys, with_permission, unless. rewrite Hp.
  destruct (kq_prefix q) as [pre|].
  - apply negb_true_iff in Hv. rewrite Hv.
    destruct (prefix_refines scan_fuel clock_mono s m pre (kq_cursor q) (query_limit (kq_limit q))) as (s1 & E & Href1);
      [done..|lia|done|done|].
    rewrite (on_result_ok _ _ _ _ _ _ E). exists s1. split; [|done].
    by replace (Z.min (query_limit (kq_limit q)) MAX_SCAN_LIMIT) with (query_limit (kq_limit q)) by lia.
  - destruct (scan_client scan_fuel clock_mono s m None None (query_limit (kq_limit q)) Href Hf Hu) as (s1 & E & Href1).
    rewrite (on_result_ok _ _ _ _ _ _ E). exists s1. split; [|done]. unfold mret, M_ret.
    replace (Z.min (query_limit (kq_limit q)) (MAX_SCAN_LIMIT + 1)) with (query_limit (kq_limit q)) by lia.
    by rewrite take_take, Nat.min_id.
Qed.

Lemma range_scan_rows q s m :
  refines s m -> scannable m -> page_announced m q -> 0 <= default 100 (sc_limit q) ->
  exists rows s', range_scan scan_fuel q s = (Ok rows, s') /\ refines s' m /\ range_page q rows = range_answer m q.
Proof.
  intros Href [Hf Hu] Hpg Hl. pose proof (query_limit_nonneg _ Hl) as Hq. unfold range_scan.
  edestruct (scan_client scan_fuel clock_mono s m) as (s1 & E & Href1); [done..|].
  eexists _, s1. split; [exact E|]. split; [done|]. rewrite <- (proj2 (range_page_answer m q Hl) Hpg). do 2 f_equal. lia.
Qed.

Lemma range_keys_answers q : read_answers (RangeKeys q).
Proof.
  intros rq s m Href [Hsc Hpg] (Hp & _ & _) Hl. cbn [handle permission_of answer] in *.
  destruct (range_scan_rows q s m Href Hsc Hpg Hl) as (rows & s1 & E & Href1 & Hpage). exists s1. split; [|done].
  unfold keys_range, with_permission. rewrite Hp, (on_result_ok _ _ _ _ _ _ E), Hpage.
  by destruct (range_answer m q) as [[rs more] cur].
Qed.

Lemma scan_keys_answers q : read_answers (ScanKeys q).
Proof.
  intros rq s m Href [Hsc Hpg] (Hp & _ & _) Hl. cbn [handle permission_of answer] in *.
  destruct (range_scan_rows q s m Href Hsc Hpg Hl) as (rows & s1 & E & Href1 & Hpage). exists s1. split; [|done].
  unfold scan_keys, with_permission. rewrite Hp, (on_result_ok _ _ _ _ _ _ E), Hpage.
  by destruct (range_answer m q) as [[rs more] cur].
Qed.

Lemma value_search_answers q limit : read_answers (ValueSearch q limit).
Proof.
  intros rq s m Href [[Hf Hu] _] (Hp & _ & Hv) Hl. cbn [handle valid permission_of answer call_ok] in *.
  unfold value_search_keys, with_permission. rewrite Hp. destruct q as [[|b q]|]; try done.
  edestruct (collect_refines scan_fuel clock_mono s m) as (s1 & E & Href1); [done..|].
  unfold scan_matching. rewrite (on_result_ok _ _ _ _ _ _ E). exists s1. split; [|done].
  unfold mret, M_ret. rewrite rows_all.
  replace (Z.min (Z.min (Z.min (default 100 limit) 100) 100) (MAX_SCAN_LIMIT + 1))
    with (Z.min (default 100 limit) 100) by (unfold MAX_SCAN_LIMIT; lia).
  set (es := take (Z.to_nat 10000) (sorted_entries m)).
  change (default [] (Some (b :: q))) with (b :: q).
  erewrite (filter_weaken _ (fun e => is_reserved e.1 = false /\ contains (from_utf8_lossy e.2) (b :: q) = true) es);
    [done|]. intros e _. unfold client_row. by rewrite andb_true_iff, negb_true_iff.
Qed.

(** ** Histories *)

Lemma handle_refines c rq s m r s' :
  refines s m -> call_fits m c -> admitted rq c -> call_ok c -> handle rq c s = (Ok r, s') -> complete c r ->
  refines s' (effect m c) /\ r = answer m c.
Proof.
  intros Href Hsc Hadm Hc E Hcomp.
  assert (read_answers c -> effect m c = m -> refines s' (effect m c) /\ r = answer m c) as Hread.
  { intros Hr ->. destruct (Hr rq s m Href Hsc Hadm Hc) as (s1 & E1 & Href1). rewrite E1 in E. by injection E as <- <-. }
  destruct c.
  all: try (by apply Hread; [first [apply get_key_answers|apply list_keys_answers|apply range_keys_answers
              |apply scan_keys_answers|apply value_search_answers]|]).
  - by eapply put_key_refined.
  - by eapply post_key_refined.
  - by eapply delete_key_refined.
  - by eapply batch_delete_refined.
  - by eapply delete_prefix_refined.
  - by eapply batch_put_refined.
  - by eapply flush_refined.
Qed.

(** ** Refused calls *)

(** Answers after a call to the engine. *)
Definition after_engine (r : Response) : Prop := status r = 200 \/ status r = 404 \/ status r = 500.

(** A handler that leaves the state unless it answers after a call. *)
Definition guarded (h : M Response) : Prop :=
  forall s r s', h s = (Ok r, s') -> after_engine r \/ s' = s.

Lemma guarded_ret r : guarded (mret r).
Proof. intros s r' s' [= _ <-]. by right. Qed.
Lemma guarded_permission rq p h : guarded h -> guarded (with_permission rq p h).
Proof. unfold with_permission. destruct (require_permission rq p); [intros _; apply guarded_ret|done]. Qed.
Lemma guarded_unless b r h : guarded h -> guarded (unless b r h).
Proof. destruct b; [intros _; apply guarded_ret|done]. Qed.
Lemma guarded_on_result {A : Type} (m : M A) k r :
  status r = 500 -> (forall a s r' s', k a s = (Ok r', s') -> after_engine r') -> guarded (on_result m k r).
Proof.
  intros Hr Hk s r' s'. unfold on_result. destruct (m s) as [[a|e|] s1]; [|intros [= <- _]; left; by right; right|done].
  intros E. left. by eapply Hk.
Qed.
#[local] Hint Resolve guarded_ret guarded_permission guarded_unless : guarded.

(** C30: Refused requests have no effect: an answer with a status other than 200, 404
    and 500 (no permission, read-only mode, a reserved or invalid key, a missing
    parameter) leaves the engine exactly as it was. *)
Theorem refused_without_effect rq c s r s' :
  handle rq c s = (Ok r, s') -> ~ after_engine r -> s' = s.
Proof.
  intros E Hr. enough (guarded (handle rq c)) as Hg by (by destruct (Hg s r s' E)). clear.
  destruct c as [k|b|b|k|ks|q|rs|q|q|q|q l|]; cbn [handle];
    unfold get_key, put_key, post_key, delete_key, batch_delete_keys, delete_keys_by_prefix, batch_keys, get_keys,
      keys_range, scan_keys, value_search_keys, admin_flush, when_writable, when_writable_frontend;
    repeat first [apply guarded_permission | apply guarded_unless]; repeat case_match; try apply guarded_ret;
    repeat apply guarded_unless.
  all: try (apply guarded_on_result; [done|]).
  all: try (intros a s1 r1 s2 E1; repeat case_match; injection E1 as <- _; unfold after_engine; cbn; by auto).
  intros s r s' (n & s1 & _ & [= <- _])%bind_Ok_inv. left. by left.
Qed.

(** Requests one after the other. *)
Fixpoint serve (cs : list (Request * call)) : M (list Response) :=
  match cs with
  | [] => mret []
  | (rq, c) :: cs => r ← handle rq c; rs ← serve cs; mret (r :: rs)
  end.

(** The same requests on a map: its states, the answers, and whether each can be
    served completely. *)
Fixpoint served (m : gmap bytes bytes) (cs : list (Request * call)) : gmap bytes bytes * list Response :=
  match cs with
  | [] => (m, [])
  | (_, c) :: cs => let '(m', rs) := served (effect m c) cs in (m', answer m c :: rs)
  end.
Fixpoint scans_fit (m : gmap bytes bytes) (cs : list (Request * call)) : Prop :=
  match cs with
  | [] => True
  | (_, c) :: cs => call_fits m c /\ scans_fit (effect m c) cs
  end.

Lemma serve_refines cs s m rs s' :
  refines s m -> scans_fit m cs -> Forall (fun rc => admitted rc.1 rc.2 /\ call_ok rc.2) cs ->
  serve cs s = (Ok rs, s') -> Forall2 (fun rc r => complete rc.2 r) cs rs ->
  refines s' (served m cs).1 /\ rs = (served m cs).2 /\ reserved_part (served m cs).1 = reserved_part m.
Proof.
  revert s m rs; induction cs as [|[rq c] cs IH]; intros s m rs Href Hfit Hall E Hcomp; cbn [serve served scans_fit] in *.
  { by injection E as <- <-. }
  destruct Hfit as [Hsc Hfit]. apply Forall_cons in Hall as [[Hadm Hc] Hall].
  apply bind_Ok_inv in E as (r & s1 & Er & E). apply bind_Ok_inv in E as (rs' & s2 & Ers & [= <- <-]).
  apply Forall2_cons in Hcomp as [Hc1 Hcomp].
  destruct (handle_refines c rq s m r s1 Href Hsc Hadm Hc Er Hc1) as [Href1 ->].
  destruct (IH s1 _ _ Href1 Hfit Hall Ers Hcomp) as (Href2 & -> & Hres).
  destruct (served (effect m c) cs) as [m' rs2]. cbn [fst snd] in *. split_and!; [done|done|].
  rewrite Hres. apply effect_reserved, Hadm.
Qed.
End spec.

Section histories.
Context `{!Crc32, !Aead, !Postcard LogRecord, !Postcard LogRecordV0, !Postcard LogRecordV1}.
Context `{!BloomCrate} `{!SstStore} `{!SstStoreLaws} `{!Moka bytes bytes} `{!SerdeJson} `{!EngineEnv}.
Context (scan_fuel : nat) (mode : Degradation.DegradationMode).
Context (clock_mono : forall i, 0 <= clock i < clock (S i)) (no_default_ttl : default_ttl options = None).
#[local] Instance api_resident : Residency := True.

End histories.
