(* ===== verification/Middleware.v ===== *)
(** * Middleware: what a request passes before its handler
    ([src/src/api/access_control.rs], [src/src/api/audit_middleware.rs], the guard
    and the order of the layers in [src/src/api/mod.rs])

    Authentication is the outermost layer, then cross-origin headers and the audit
    log, then the policies of [AccessControl], the rate and connection limits, and
    the check of the content type.  The limits have states of their own, modelled
    in [RateLimiter] and [ConnectionGuard]; here they are the decision they take on
    the request.  Cross-origin headers are those of a library. *)
From Stdlib Require Import ZArith Lia.
From stdpp Require Import base tactics numbers list gmap strings.
From S2P Require Import Prelude Bytes Utf8 Text Engine AccessControl Auth Api.
Local Open Scope Z_scope.

(** A request as it arrives, with its content type, when it has one that is text,
    and the parameter [key] of the route matched so far. *)
Record Arrival := mkArrival {
  ar_request : Request;
  ar_content_type : option bytes;
  ar_key : option bytes;
}.

(** ** Policies *)

Definition method_to_operation (method path : bytes) : Operation :=
  if bytes_eqb method (lit "GET") then AccessControl.Read
  else if bytes_eqb method (lit "PUT") then AccessControl.Write
  else if bytes_eqb method (lit "DELETE") then AccessControl.Delete
  else if bytes_eqb method (lit "POST") then
    if starts_with path (lit "/admin") then AccessControl.Admin else AccessControl.Write
  else AccessControl.Read.

Definition extract_resource_key (ar : Arrival) : bytes := default (rq_path (ar_request ar)) (ar_key ar).

(** The derived [Debug] of [Permission]. *)
Definition permission_debug (p : Permission) : bytes :=
  match p with
  | Read => lit "Read"
  | Write => lit "Write"
  | Auth.Delete => lit "Delete"
  | Admin => lit "Admin"
  end.
Fixpoint join_comma (l : list bytes) : bytes :=
  match l with
  | [] => []
  | [x] => x
  | x :: l => x ++ lit "," ++ join_comma l
  end.
Definition build_context (rq : Request) : gmap bytes bytes :=
  match extract_token rq with
  | Some t => <[lit "permissions" := join_comma (permission_debug <$> permissions t)]>
                {[ lit "principal" := token_name t ]}
  | None => ∅
  end.

(** [AccessControlMiddleware::call]: the response of a request that is denied. *)
Definition access_call (enabled : option bool) (controller : option AccessController) (ar : Arrival) : option Response :=
  if default false enabled then
    match controller with
    | None => None
    | Some ac =>
        let rq := ar_request ar in
        if check_permission (method_to_operation (rq_method rq) (rq_path rq)) (extract_resource_key ar)
             (build_context rq) ac
        then None
        else Some (mkResponse 403 (error_json (lit "access denied")))
    end
  else None.

(** ** The content type *)

Definition mutating (method : bytes) : bool :=
  bytes_eqb method (lit "PUT") || bytes_eqb method (lit "POST") || bytes_eqb method (lit "DELETE").
Definition content_type_call (ar : Arrival) : option Response :=
  if mutating (rq_method (ar_request ar)) then
    let content_type := default [] (ar_content_type ar) in
    if starts_with content_type (lit "application/json") then None
    else Some (mkResponse 415 (JText (lit "Content-Type must be application/json for mutating requests")))
  else None.

(** ** The layers *)

(** What the audit log records of a request, without its query and duration. *)
Record AuditEvent := mkAuditEvent {
  ae_method : bytes;
  ae_path : bytes;
  ae_status : Z;
  ae_principal : bytes;
}.
(** [AuditMiddlewareService::call] around an answer of the inner layers: a response,
    or an error that will become one. *)
Definition audit (rq : Request) (result : Response + Response) : AuditEvent :=
  {| ae_method := rq_method rq; ae_path := rq_path rq;
     ae_status := match result with inr r => status r | inl _ => 500 end;
     ae_principal := match extract_token rq with Some t => token_name t | None => lit "anonymous" end |}.

Section layers.
Context `{!AuthEnv}.
Context (now : option Z) (enabled : option bool) (controller : option AccessController).
(** The refusals of the rate and connection limits, as an error or a response, and
    the handlers. *)
Context (limits : Arrival -> option (Response + Response)) (service : Request -> Response).

Definition with_request (ar : Arrival) (rq : Request) : Arrival := mkArrival rq (ar_content_type ar) (ar_key ar).

(** The layers inside the audit log; an error is a response given as an error. *)
Definition inner (ar : Arrival) : Response + Response :=
  match access_call enabled controller ar with
  | Some r => inl r
  | None =>
      match limits ar with
      | Some r => r
      | None =>
          match content_type_call ar with
          | Some r => inl r
          | None => inr (service (ar_request ar))
          end
      end
  end.

(** The answer to a request, and what is logged of it. *)
Definition serve_request (ar : Arrival) : Response * option AuditEvent :=
  match request_validator now (ar_request ar) with
  | inl e => (error_response e, None)
  | inr rq =>
      let result := inner (with_request ar rq) in
      (match result with inl r => r | inr r => r end, Some (audit rq result))
  end.

(** A request that reaches the handlers. *)
Definition reaches (ar : Arrival) (rq : Request) : Prop :=
  request_validator now (ar_request ar) = inr rq /\ access_call enabled controller (with_request ar rq) = None /\
  limits (with_request ar rq) = None /\ content_type_call (with_request ar rq) = None.

Lemma reaches_served ar rq :
  reaches ar rq -> serve_request ar = (service rq, Some (audit rq (inr (service rq)))).
Proof. intros (Hv & Ha & Hl & Hc). unfold serve_request, inner. by rewrite Hv, Ha, Hl, Hc. Qed.

(** The handlers are reached exactly by the requests that authentication lets pass,
    for which the first policy that applies - to the operation of the method, to
    the resource and to the principal - allows it, which the limits admit, and
    which come as JSON when they change something. *)
Theorem reaches_exact ar rq ac :
  Forall (fun p => simple_pattern (key_pattern p)) ac -> enabled = Some true -> controller = Some ac ->
  reaches ar rq <->
  request_validator now (ar_request ar) = inr rq /\
  (exists before p after, ac = before ++ p :: after /\ effect p = Allow /\
     let op := method_to_operation (rq_method rq) (rq_path rq) in
     let key := extract_resource_key (with_request ar rq) in
     applies op key (build_context rq) p /\ Forall (fun q => ~ applies op key (build_context rq) q) before) /\
  limits (with_request ar rq) = None /\
  (mutating (rq_method rq) = true -> exists ct, ar_content_type ar = Some ct /\ starts_with ct (lit "application/json") = true).
Proof.
  intros Hs He Hc. unfold reaches, access_call. rewrite He, Hc. cbn [from_option id]. cbv zeta.
  cbn [ar_request with_request]. rewrite <- access_first_match by done.
  assert (content_type_call (with_request ar rq) = None <->
    (mutating (rq_method rq) = true -> exists ct, ar_content_type ar = Some ct /\ starts_with ct (lit "application/json") = true)) as ->.
  { unfold content_type_call. cbn [ar_request with_request ar_content_type].
    destruct (mutating (rq_method rq)); [|done]. destruct (ar_content_type ar) as [ct|]; cbn [from_option id].
    - destruct (starts_with ct (lit "application/json")) eqn:Ej; [by split; eauto|]. split; [done|].
      intros Hj. destruct (Hj eq_refl) as (ct' & [= <-] & Hj'). congruence.
    - split; [done|]. intros Hj. by destruct (Hj eq_refl) as (ct' & [=] & _). }
  destruct (check_permission _ _ _ ac); split; intros (? & ? & ? & ?); by split_and!.
Qed.

(** Only requests that passed authentication are logged, with the principal it
    found. *)
Theorem audit_names_principal ar ev :
  (serve_request ar).2 = Some ev ->
  exists rq, request_validator now (ar_request ar) = inr rq /\
    ae_principal ev = default (lit "anonymous") (token_name <$> rq_token rq).
Proof.
  unfold serve_request. destruct (request_validator now (ar_request ar)) as [e|rq]; [done|].
  intros [= <-]. exists rq. split; [done|]. cbn. unfold extract_token. by destruct (rq_token rq).
Qed.

End layers.

(** ** The server as it is put together *)

(** [start_server] gives the application a controller without policies, and nothing
    adds any: with access control on, every request is denied. *)
Theorem empty_controller_denies ar :
  access_call (Some true) (Some AccessController_new) ar = Some (mkResponse 403 (error_json (lit "access denied"))).
Proof. done. Qed.

(** A preflight request of a browser has no credentials, and authentication is
    outside of the layer that would answer it. *)
Theorem preflight_refused `{!AuthEnv} now enabled controller limits service ar :
  rq_method (ar_request ar) = lit "OPTIONS" -> credentials (ar_request ar) = None ->
  auth_flag (ar_request ar) = Some true ->
  serve_request now enabled controller limits service ar = (error_response MissingToken, None).
Proof.
  intros Hm Hcr Hf. unfold serve_request, request_validator. by rewrite Hm, Hcr, Hf.
Qed.

(** Policies see the key of a path, and not the one in a body: who may write to the
    routes may write under any key. *)
Definition secret_denied : AccessController :=
  [ mk_policy (lit "no secrets") AccessControl.Write (lit "secret*") Deny ∅;
    mk_policy (lit "all") AccessControl.Write (lit "*") Allow ∅ ].
Definition arrival (method path : bytes) (key : option bytes) : Arrival :=
  mkArrival (mkRequest method path None (Some false) None None) (Some (lit "application/json")) key.
Theorem body_keys_not_checked :
  is_Some (access_call (Some true) (Some secret_denied) (arrival (lit "PUT") (lit "/keys/secret1") (Some (lit "secret1")))) /\
  access_call (Some true) (Some secret_denied) (arrival (lit "POST") (lit "/keys") None) = None.
Proof. split; [by eexists|vm_compute; reflexivity]. Qed.
