(* ===== verification/NoteVersions.v ===== *)
(** * NoteVersions: the history of a note ([src/src/notes/mod.rs])

    A version is kept as two entries: its content under the path and the time, and
    the times of all versions of a path as a list, at most a hundred of them.  The
    lemmas say that the two agree through saving, trimming and removing, and that
    neither touches the notes and their indexes. *)
From Stdlib Require Import ZArith Lia.
From stdpp Require Import base tactics numbers list gmap strings sorting.
From S2P Require Import Prelude Bytes SortedMap Utf8 Text Engine TimeTravel.
From S2P Require Import Kv Postings NoteIndex NoteGraph NoteParser NoteSearch NoteEngine.
Local Open Scope Z_scope.

Definition stamp_ok (t : Z) : Prop := 0 <= t <= u64_max.

(** ** Keys *)

#[global] Instance version_key_inj : Inj (=) (=) version_key.
Proof. intros p q. apply app_inv_head. Qed.

Lemma version_entry_key_inj p q t u :
  0 <= t -> 0 <= u -> version_entry_key p t = version_entry_key q u -> p = q /\ t = u.
Proof.
  intros Ht Hu E%app_inv_head. apply app_last_sep in E as [-> E]; [|apply decimal_no_colon..].
  split; [done|]. apply (inj decimal) in E. lia.
Qed.

Lemma version_keys_differ p q t : version_key p <> version_entry_key q t.
Proof. by intros [=]. Qed.

(** Lookups of one kind of key after writes of the other, or of other paths. *)
Ltac version_key_ne :=
  solve [ apply version_keys_differ | apply not_eq_sym, version_keys_differ
        | let E := fresh in intros E; apply (inj version_key) in E; congruence
        | let E := fresh in intros E; apply version_entry_key_inj in E as [??]; [congruence|unfold stamp_ok in *; lia..] ].
Ltac version_lookup :=
  repeat first [ rewrite lookup_insert_eq | rewrite lookup_delete_eq
               | rewrite lookup_insert_ne by version_key_ne | rewrite lookup_delete_ne by version_key_ne ].

(** ** What the store holds of versions *)

(** The versions of a path, oldest first: their times and contents. *)
Abbreviation Versions := (gmap bytes (list (Z * bytes))).

Definition versions_of (V : Versions) (p : bytes) : list (Z * bytes) := default [] (V !! p).
Definition newest_versions (l : list (Z * bytes)) : list (Z * bytes) := drop (length l - MAX_VERSIONS) l.
Definition spec_save (p : bytes) (ts : Z) (c : bytes) (V : Versions) : Versions :=
  <[p := newest_versions (versions_of V p ++ [(ts, c)])]> V.
Definition without_version (ts : Z) (l : list (Z * bytes)) : list (Z * bytes) := filter (fun e => e.1 <> ts) l.
Definition spec_remove (p : bytes) (ts : Z) (V : Versions) : Versions :=
  match without_version ts (versions_of V p) with
  | [] => delete p V
  | l => <[p := l]> V
  end.

(** The content a version has. *)
Definition version_at (l : list (Z * bytes)) (ts : Z) : option bytes :=
  (fun x => x.2.2) <$> list_find (fun e => e.1 = ts) l.

(** Notes with their versions. *)
Record Notebook := mkNotebook {
  nb_notes : Notes;
  nb_versions : Versions;
}.
Definition empty_notebook : Notebook := mkNotebook no_notes ∅.

Section spec.
Context `{!Unicode} `{!SearchEnv}.
Definition save_current (p : bytes) (ts : Z) (b : Notebook) : Notebook :=
  {| nb_notes := nb_notes b;
     nb_versions := match contents (nb_notes b) !! p with
                    | Some c => spec_save p ts c (nb_versions b)
                    | None => nb_versions b
                    end |}.
Definition change_notes (f : Notes -> Notes) (b : Notebook) : Notebook :=
  {| nb_notes := f (nb_notes b); nb_versions := nb_versions b |}.
Definition change_versions (f : Versions -> Versions) (b : Notebook) : Notebook :=
  {| nb_notes := nb_notes b; nb_versions := f (nb_versions b) |}.
Definition note_version (b : Notebook) (p : bytes) (ts : Z) : option bytes :=
  version_at (versions_of (nb_versions b) p) ts.

Definition spec_put_version (ts : Z) (p c : bytes) (b : Notebook) : Notebook :=
  save_current p ts (change_notes (spec_put p c) b).
Definition spec_restore (now now' : Z) (p : bytes) (ts : Z) (b : Notebook) : Notebook :=
  match note_version b p ts with
  | Some old => spec_put_version now' p old (save_current p now b)
  | None => b
  end.
End spec.

Section versions.
Context {St : Type} `{!KvStore St} `{!Unicode} `{!JsonStrings} `{!SearchEnv} `{!VersionJson} `{!KvLaws St}.
Context (terms notes tags : gset bytes) (fit : notes_fit terms notes tags) (texts : list bytes).
Implicit Types (m : gmap bytes bytes) (p c : bytes) (V : Versions).

(** The versions of the notes in play fit in the entries of the store. *)
Record versions_fit : Prop := {
  vf_texts c : c ∈ texts -> is_Some (from_utf8 c);
  vf_content p ts c : p ∈ notes -> stamp_ok ts -> c ∈ texts -> kv_writable (version_entry_key p ts) c;
  vf_removable p ts : p ∈ notes -> 0 <= ts <= u128_max -> kv_removable (version_entry_key p ts);
  vf_index p l : p ∈ notes -> (length l <= MAX_VERSIONS)%nat -> Forall stamp_ok l ->
    kv_writable (version_key p) (versions_to_json l);
  vf_no_index p : p ∈ notes -> kv_removable (version_key p);
  vf_put p c : p ∈ notes -> c ∈ texts -> put_fits terms notes tags p c;
  vf_delete p : p ∈ notes -> delete_fits notes p;
  vf_checksums c c' : c ∈ texts -> c' ∈ texts -> checksum c = checksum c' -> c = c';
}.
Context (vfit : versions_fit).

Record versions_wf (l : list (Z * bytes)) : Prop := {
  vw_some : l <> [];
  vw_nodup : NoDup l.*1;
  vw_stamps : Forall stamp_ok l.*1;
  vw_texts : Forall (fun e => e.2 ∈ texts) l;
  vw_length : (length l <= MAX_VERSIONS)%nat;
}.

Record versions_ok m V : Prop := {
  vo_index p : m !! version_key p = (fun l => versions_to_json l.*1) <$> V !! p;
  vo_content p ts c : 0 <= ts -> m !! version_entry_key p ts = Some c <-> (ts, c) ∈ versions_of V p;
  vo_wf : map_Forall (fun _ => versions_wf) V;
}.

Lemma stamps_json l : Forall stamp_ok l -> versions_from_json (versions_to_json l) = Some l.
Proof.
  intros Hl. apply versions_roundtrip. eapply Forall_impl; [exact Hl|]. unfold stamp_ok.
  intros t. assert (u64_max <= u128_max) by done. lia.
Qed.

Lemma versions_of_wf m V p :
  versions_ok m V -> NoDup (versions_of V p).*1 /\ Forall stamp_ok (versions_of V p).*1 /\
  Forall (fun e => e.2 ∈ texts) (versions_of V p) /\ (length (versions_of V p) <= MAX_VERSIONS)%nat.
Proof.
  intros HV. unfold versions_of. destruct (V !! p) as [l|] eqn:E; cbn.
  - by destruct (vo_wf _ _ HV p l E).
  - split_and!; [constructor..|lia].
Qed.

(** The list of times as the reads of the code see it. *)
Lemma parsed_versions m V p :
  versions_ok m V ->
  match m !! version_key p with Some b => parse_versions b | None => [] end = (versions_of V p).*1.
Proof.
  intros HV. rewrite (vo_index _ _ HV). unfold versions_of. destruct (V !! p) as [l|] eqn:E; [|done].
  cbn. unfold parse_versions. rewrite stamps_json; [done|]. by destruct (vo_wf _ _ HV p l E).
Qed.

Lemma versions_agree m m' V :
  agree VERSION_PREFIX m m' -> agree VERSION_CONTENT_PREFIX m m' -> versions_ok m V -> versions_ok m' V.
Proof.
  intros A1 A2 [G1 G2 G3]. constructor; [| |done].
  - intros p. unfold version_key. rewrite (agree_key _ _ _ _ A1). apply G1.
  - intros p ts c. unfold version_entry_key. rewrite (agree_key _ _ _ _ A2). apply G2.
Qed.

Lemma versions_untouched m m' V : touches_notes m m' -> versions_ok m V -> versions_ok m' V.
Proof. intros Ht. apply versions_agree; apply Ht; by repeat constructor. Qed.

(** The other way: entries of versions are no entries of notes. *)
Lemma notes_agree m m' (n : Notes) :
  (forall P, P ∈ note_prefixes -> agree P m m') -> notes_ok terms notes tags m n -> notes_ok terms notes tags m' n.
Proof.
  intros Ha [G1 G2 G3 G4 G5].
  constructor; [|eapply indexed_agree; [..|exact G2]|by eapply tags_agree; [|exact G3]; apply Ha; set_solver
    |by eapply fts_agree; [|exact G4]; apply Ha; set_solver|done].
  - intros p. rewrite (agree_key _ m); [apply G1|]. apply Ha. set_solver.
  - apply Ha; set_solver.
  - apply Ha; set_solver.
Qed.

Lemma version_prefixes P :
  P ∈ note_prefixes -> distinct_heads P VERSION_PREFIX /\ distinct_heads P VERSION_CONTENT_PREFIX.
Proof. intros HP. repeat (apply elem_of_cons in HP as [->|HP]; [done|]). by apply elem_of_nil in HP. Qed.

Lemma notes_keep_content m n p ts c :
  notes_ok terms notes tags m n -> notes_ok terms notes tags (<[version_entry_key p ts := c]> m) n.
Proof. apply notes_agree. intros P HP. apply insert_agree. by apply version_prefixes. Qed.
Lemma notes_keep_index m n p v :
  notes_ok terms notes tags m n -> notes_ok terms notes tags (<[version_key p := v]> m) n.
Proof. apply notes_agree. intros P HP. apply insert_agree. by apply version_prefixes. Qed.
Lemma notes_drop_content m n p ts :
  notes_ok terms notes tags m n -> notes_ok terms notes tags (delete (version_entry_key p ts) m) n.
Proof. apply notes_agree. intros P HP. apply delete_agree. by apply version_prefixes. Qed.
Lemma notes_drop_index m n p :
  notes_ok terms notes tags m n -> notes_ok terms notes tags (delete (version_key p) m) n.
Proof. apply notes_agree. intros P HP. apply delete_agree. by apply version_prefixes. Qed.

(** A map in which only the versions of [p] have changed. *)
Lemma versions_ok_set m m' V V' p :
  versions_ok m V -> (forall q, q <> p -> V' !! q = V !! q) ->
  (forall q, q <> p -> m' !! version_key q = m !! version_key q) ->
  (forall q ts, q <> p -> 0 <= ts -> m' !! version_entry_key q ts = m !! version_entry_key q ts) ->
  m' !! version_key p = (fun l => versions_to_json l.*1) <$> V' !! p ->
  (forall ts c, 0 <= ts -> m' !! version_entry_key p ts = Some c <-> (ts, c) ∈ versions_of V' p) ->
  (forall l, V' !! p = Some l -> versions_wf l) -> versions_ok m' V'.
Proof.
  intros [G1 G2 G3] HV Hk He Hp Hc Hwf. constructor.
  - intros q. destruct (decide (q = p)) as [->|Hq]; [done|]. by rewrite Hk, HV.
  - intros q ts c Hts. destruct (decide (q = p)) as [->|Hq]; [by apply Hc|].
    unfold versions_of. rewrite He, HV by done. by apply G2.
  - intros q l Hl. destruct (decide (q = p)) as [->|Hq]; [by apply Hwf|]. rewrite HV in Hl by done. by apply (G3 q).
Qed.

(** ** Saving *)

Lemma trim_short (handle : KvM St unit -> KvM St unit) p l :
  (length l <= MAX_VERSIONS)%nat -> trim_versions handle p l = mret l.
Proof.
  intros Hl. destruct l as [|t l]; [done|]. cbn [trim_versions].
  by rewrite (proj2 (Nat.ltb_ge _ _) Hl).
Qed.

(** A saved list is one too long at most. *)
Lemma newest_versions_cases l e :
  (length l <= MAX_VERSIONS)%nat ->
  ((length (l ++ [e]) <= MAX_VERSIONS)%nat /\ newest_versions (l ++ [e]) = l ++ [e]) \/
  exists old rest, l = old :: rest /\ length l = MAX_VERSIONS /\ newest_versions (l ++ [e]) = rest ++ [e].
Proof.
  intros Hl. unfold newest_versions. destruct (decide (length (l ++ [e]) <= MAX_VERSIONS)%nat) as [Hs|Hs].
  - left. split; [done|]. replace (length (l ++ [e]) - MAX_VERSIONS)%nat with 0%nat by lia. done.
  - right. rewrite length_app in *. cbn [length] in *. destruct l as [|old rest]; [cbn in Hs; unfold MAX_VERSIONS in Hs; lia|].
    exists old, rest. split; [done|]. split; [lia|].
    replace (length (old :: rest) + 1 - MAX_VERSIONS)%nat with 1%nat by lia. done.
Qed.

Lemma versions_wf_snoc l ts c :
  NoDup l.*1 -> Forall stamp_ok l.*1 -> Forall (fun e => e.2 ∈ texts) l -> (S (length l) <= MAX_VERSIONS)%nat ->
  ts ∉ l.*1 -> stamp_ok ts -> c ∈ texts -> versions_wf (l ++ [(ts, c)]).
Proof.
  intros Hnd Hst Htx Hlen Hts Hok Hc. constructor.
  - by destruct l.
  - rewrite fmap_app. apply NoDup_app. split_and!; [done| |repeat constructor; set_solver].
    intros t Ht ->%list_elem_of_singleton. done.
  - rewrite fmap_app. apply Forall_app. split; [done|by apply Forall_singleton].
  - apply Forall_app. split; [done|by apply Forall_singleton].
  - rewrite length_app. cbn. lia.
Qed.

(** A map in which the versions of [p] have become [l']. *)
Lemma saved_versions m V p l' m' :
  versions_ok m V -> versions_wf l' ->
  (forall q, m' !! version_key q = if decide (q = p) then Some (versions_to_json l'.*1) else m !! version_key q) ->
  (forall q t, 0 <= t -> q <> p -> m' !! version_entry_key q t = m !! version_entry_key q t) ->
  (forall t c', 0 <= t -> m' !! version_entry_key p t = Some c' <-> (t, c') ∈ l') ->
  versions_ok m' (<[p := l']> V).
Proof.
  intros HV Hwf Hk He Hp. apply (versions_ok_set m m' V _ p HV).
  - intros q Hq. by apply lookup_insert_ne.
  - intros q Hq. rewrite Hk. by rewrite decide_False.
  - intros q t Hq Ht. by apply He.
  - rewrite Hk, decide_True, lookup_insert_eq by done. done.
  - intros t c' Ht. unfold versions_of. rewrite lookup_insert_eq. by apply Hp.
  - intros l Hl. rewrite lookup_insert_eq in Hl. by injection Hl as <-.
Qed.

(** What follows the storing of a content: its time joins the list. *)
Section store.
Context m (n : Notes) V p (ts : Z) c (Hn : notes_ok terms notes tags m n) (HV : versions_ok m V) (Hp : p ∈ notes).
Context (Hts : stamp_ok ts) (Hnew : ts ∉ (versions_of V p).*1) (Hc : c ∈ texts).

Lemma stored_content t c' :
  0 <= t -> (<[version_entry_key p ts := c]> m) !! version_entry_key p t = Some c' <->
  (t, c') ∈ versions_of V p ++ [(ts, c)].
Proof.
  intros Ht. rewrite elem_of_app, list_elem_of_singleton. destruct (decide (t = ts)) as [->|Hne].
  - version_lookup. split; [intros [= ->]; by right|]. intros [Hin|[= ->]]; [|done].
    destruct Hnew. apply list_elem_of_fmap. by exists (ts, c').
  - version_lookup. rewrite (vo_content _ _ HV) by done. split; [by left|]. intros [?|[= ? ?]]; done.
Qed.

Lemma index_fits (l : list (Z * bytes)) :
  Forall stamp_ok l.*1 -> (S (length l) <= MAX_VERSIONS)%nat ->
  kv_writable (version_key p) (versions_to_json (l.*1 ++ [ts])).
Proof.
  intros Hl Hlen. apply (vf_index vfit); [done|rewrite length_app, length_fmap; cbn; lia|].
  apply Forall_app. split; [done|by apply Forall_singleton].
Qed.

Lemma store_short :
  (S (length (versions_of V p)) <= MAX_VERSIONS)%nat ->
  triple (<[version_entry_key p ts := c]> m) (put (version_key p) (versions_to_json ((versions_of V p).*1 ++ [ts])))
    (fun _ m' => notes_ok terms notes tags m' n /\ versions_ok m' (<[p := versions_of V p ++ [(ts, c)]]> V)).
Proof.
  intros Hlen. destruct (versions_of_wf m V p HV) as (Hnd & Hst & Htx & _).
  apply triple_put; [by apply index_fits|].
  split; [by apply notes_keep_index, notes_keep_content|].
  apply (saved_versions m V p); [done|by apply versions_wf_snoc| | |].
  - intros q. destruct (decide (q = p)) as [->|Hq]; version_lookup; [by rewrite fmap_app|done].
  - intros q t Ht Hq. by version_lookup.
  - intros t c' Ht. rewrite <- stored_content by done. by version_lookup.
Qed.

Lemma store_full t0 c0 rest :
  versions_of V p = (t0, c0) :: rest -> (S (length rest) <= MAX_VERSIONS)%nat ->
  triple (<[version_entry_key p ts := c]> m)
    (remove (version_entry_key p t0);; put (version_key p) (versions_to_json (rest.*1 ++ [ts])))
    (fun _ m' => notes_ok terms notes tags m' n /\ versions_ok m' (<[p := rest ++ [(ts, c)]]> V)).
Proof.
  intros El Hlen. destruct (versions_of_wf m V p HV) as (Hnd & Hst & Htx & _).
  pose proof Hnew as Hnew'. pose proof stored_content as Hcontent. rewrite El in *.
  apply NoDup_cons in Hnd as [Ht0 Hnd]. apply Forall_cons in Hst as [Hok0 Hst]. apply Forall_cons in Htx as [_ Htx].
  apply not_elem_of_cons in Hnew' as [Hne Hnew']. cbn [fst] in Hok0, Hne.
  eapply (triple_bind _ _ _ (fun _ m' => m' = delete (version_entry_key p t0) _)).
  { apply triple_remove; [|done]. apply (vf_removable vfit); [done|].
    unfold stamp_ok in Hok0. assert (u64_max <= u128_max) by done. lia. }
  intros [] m2 ->. apply triple_put; [by apply index_fits|].
  split; [by apply notes_keep_index, notes_drop_content, notes_keep_content|].
  apply (saved_versions m V p); [done|by apply versions_wf_snoc| | |].
  - intros q. destruct (decide (q = p)) as [->|Hq]; version_lookup; [by rewrite fmap_app|done].
  - intros q t Ht Hq. by version_lookup.
  - intros t c' Ht. destruct (decide (t = t0)) as [->|Hne'].
    + version_lookup. split; [done|]. intros [Hin|[= ? ?]%list_elem_of_singleton]%elem_of_app; [|done].
      destruct Ht0. apply list_elem_of_fmap. by exists (t0, c').
    + rewrite lookup_insert_ne, lookup_delete_ne by version_key_ne. rewrite Hcontent by done.
      cbn [app]. rewrite elem_of_cons. split; [|by right]. intros [[= ? ?]|?]; done.
Qed.

End store.

Lemma bind_assoc {A B C : Type} (a : KvM St A) (f : A -> KvM St B) (g : B -> KvM St C) s :
  ((a ≫= f) ≫= g) s = (a ≫= (fun x => f x ≫= g)) s.
Proof. cbv [mbind KvM_bind]. by destruct (a s) as [[x|e|] s1]. Qed.

Lemma triple_assoc {A B C : Type} m (a : KvM St A) (f : A -> KvM St B) (g : B -> KvM St C) Q :
  triple m (a ≫= (fun x => f x ≫= g)) Q -> triple m ((a ≫= f) ≫= g) Q.
Proof. intros Ht s x s' Hs E. rewrite bind_assoc in E. by apply (Ht s). Qed.

Lemma save_version_ok m n V p ts :
  notes_ok terms notes tags m n -> versions_ok m V -> p ∈ notes -> stamp_ok ts -> ts ∉ (versions_of V p).*1 ->
  (forall c, contents n !! p = Some c -> c ∈ texts) ->
  triple m (save_version_with id ts p) (fun _ m' => notes_ok terms notes tags m' n /\
    versions_ok m' (match contents n !! p with Some c => spec_save p ts c V | None => V end)).
Proof.
  intros Hn HV Hp Hts Hnew Htexts. eapply triple_read_bind; [by apply (get_note_reads terms notes tags)|].
  destruct (contents n !! p) as [c|] eqn:Ec; [|by apply triple_ret].
  assert (c ∈ texts) as Hc by auto. destruct (versions_of_wf m V p HV) as (_ & _ & _ & Hlen).
  eapply (triple_bind _ _ _ (fun _ m' => m' = _)); [by apply triple_put; [apply (vf_content vfit)|]|]. intros [] m1 ->.
  eapply triple_read_bind; [apply reads_get|]. version_lookup. rewrite (parsed_versions m V p HV). unfold spec_save.
  destruct (newest_versions_cases (versions_of V p) (ts, c) Hlen) as [[Hshort ->]|([t0 c0] & rest & El & Hfull & ->)].
  - rewrite length_app, Nat.add_comm in Hshort. cbn [length] in Hshort.
    rewrite trim_short by (rewrite length_app, length_fmap, Nat.add_comm; done).
    by eapply triple_read_bind; [apply reads_ret|apply store_short].
  - rewrite El in Hfull |- *. cbn [length fmap list_fmap fst app] in Hfull |- *.
    cbn [trim_versions]. rewrite (proj2 (Nat.ltb_lt _ _)) by (cbn; rewrite length_app, length_fmap; cbn; lia).
    rewrite trim_short by (rewrite length_app, length_fmap; cbn; lia). apply triple_assoc.
    eapply triple_weaken; [eapply store_full; [done..|exact El|lia]|done].
Qed.

(** ** Removing *)

Lemma without_stamps ts (l : list (Z * bytes)) : filter (fun t => t <> ts) l.*1 = (without_version ts l).*1.
Proof.
  unfold without_version. induction l as [|[t c] l IH]; [done|]. cbn [fmap list_fmap].
  rewrite !filter_cons. cbn [fst]. case_decide; cbn; by rewrite <- IH.
Qed.

Lemma elem_of_without ts l t c : (t, c) ∈ without_version ts l <-> (t, c) ∈ l /\ t <> ts.
Proof. unfold without_version. rewrite list_elem_of_filter. cbn. tauto. Qed.

Lemma without_wf ts l : versions_wf l -> without_version ts l <> [] -> versions_wf (without_version ts l).
Proof.
  intros [G1 G2 G3 G4 G5] Hne. assert (without_version ts l `sublist_of` l) as Hs by apply sublist_filter.
  constructor; [done| | | |].
  - eapply sublist_NoDup; [exact G2|]. by apply fmap_sublist.
  - apply (fmap_sublist fst) in Hs. rewrite Forall_forall in *. intros t Ht. by eapply G3, elem_of_sublist.
  - rewrite Forall_forall in *. intros e He. by eapply G4, elem_of_sublist.
  - apply sublist_length in Hs. lia.
Qed.

(** The content of the version is gone first. *)
Lemma removed_content m V p ts t c :
  versions_ok m V -> 0 <= ts -> 0 <= t ->
  delete (version_entry_key p ts) m !! version_entry_key p t = Some c <-> (t, c) ∈ without_version ts (versions_of V p).
Proof.
  intros HV Hts Ht. rewrite elem_of_without. destruct (decide (t = ts)) as [->|Hne]; version_lookup.
  - split; [done|]. by intros [_ []].
  - rewrite (vo_content _ _ HV) by done. tauto.
Qed.

(** The list of times is gone with the last version. *)
Lemma removed_all m V p ts :
  versions_ok m V -> 0 <= ts -> without_version ts (versions_of V p) = [] ->
  versions_ok (delete (version_key p) (delete (version_entry_key p ts) m)) (delete p V).
Proof.
  intros HV Hts Hl. apply (versions_ok_set m _ V _ p HV).
  - intros q Hq. by apply lookup_delete_ne.
  - intros q Hq. by version_lookup.
  - intros q t Hq Ht. by version_lookup.
  - by rewrite !lookup_delete_eq.
  - intros t c Ht. unfold versions_of at 1. rewrite lookup_delete_eq, lookup_delete_ne by version_key_ne. cbn [default].
    rewrite (removed_content m V), Hl by done. done.
  - intros l. by rewrite lookup_delete_eq.
Qed.

Lemma remove_version_ok m n V p ts :
  notes_ok terms notes tags m n -> versions_ok m V -> p ∈ notes -> 0 <= ts <= u128_max ->
  triple m (remove_version p ts) (fun b m' => b = bool_decide (is_Some (V !! p)) /\
    notes_ok terms notes tags m' n /\ versions_ok m' (spec_remove p ts V)).
Proof.
  intros Hn HV Hp Hts.
  eapply (triple_bind _ _ _ (fun _ m' => m' = _)); [by apply triple_remove; [apply (vf_removable vfit)|]|]. intros [] m1 ->.
  eapply triple_read_bind; [apply reads_get|]. rewrite lookup_delete_ne by version_key_ne.
  pose proof (parsed_versions m V p HV) as Hparse. pose proof (vo_index _ _ HV p) as Hi. unfold spec_remove.
  destruct (V !! p) as [l|] eqn:El; cbn [fmap option_fmap option_map] in Hi; rewrite Hi in *.
  - assert (versions_of V p = l) as Hl by (unfold versions_of; by rewrite El). rewrite Hl in *.
    pose proof (vo_wf _ _ HV p l El) as Hwf. rewrite Hparse, without_stamps.
    destruct (without_version ts l) as [|e l'] eqn:Ew; cbn [fmap list_fmap].
    + eapply (triple_bind _ _ _ (fun _ m' => m' = _)); [by apply triple_remove; [apply (vf_no_index vfit)|]|].
      intros [] m2 ->. apply triple_ret. split_and!.
      * rewrite !bool_decide_eq_true_2; [done|by eexists|]. destruct l; [by destruct (vw_some _ Hwf)|done].
      * by apply notes_drop_index, notes_drop_content.
      * apply removed_all; [done|lia|by rewrite Hl].
    + assert (versions_wf (e :: l')) as Hwf' by (rewrite <- Ew; apply without_wf; [done|by rewrite Ew]).
      eapply (triple_bind _ _ _ (fun _ m' => m' = _)).
      { apply triple_put; [|done]. apply (vf_index vfit); [done|rewrite length_cons, length_fmap; apply (vw_length _ Hwf')|].
        apply (vw_stamps _ Hwf'). }
      intros [] m2 ->. apply triple_ret. split_and!; [by rewrite bool_decide_eq_true_2 by eauto|by apply notes_keep_index, notes_drop_content|].
      apply (saved_versions m V p); [done|done| | |].
      * intros q. destruct (decide (q = p)) as [->|Hq]; by version_lookup.
      * intros q t Ht Hq. by version_lookup.
      * intros t c Ht. rewrite lookup_insert_ne by version_key_ne. rewrite (removed_content m V), Hl, Ew by (done || lia). done.
  - apply triple_ret. rewrite bool_decide_eq_false_2 by (by intros [? ?]). split_and!; [done|by apply notes_drop_content|].
    assert (versions_of V p = []) as Hl by (unfold versions_of; by rewrite El). rewrite Hl.
    pose proof (removed_all m V p ts HV) as Hr. rewrite Hl in Hr.
    rewrite (delete_id (delete _ m)) in Hr by (by rewrite lookup_delete_ne by version_key_ne). apply Hr; [lia|done].
Qed.

(** ** Reading *)

Lemma version_at_spec l ts c : NoDup l.*1 -> version_at l ts = Some c <-> (ts, c) ∈ l.
Proof.
  intros Hnd. unfold version_at. rewrite fmap_Some. split.
  - intros ([i [t c']] & (Hi & Ht & _)%list_find_Some & ->). cbn in Ht. subst t. by eapply list_elem_of_lookup_2.
  - intros (i & Hi)%list_elem_of_lookup_1. exists (i, (ts, c)). split; [|done]. apply list_find_Some.
    split_and!; [done|done|]. intros j [t c'] Hj Hlt E. cbn in E. subst t.
    assert (j = i); [|lia]. eapply (NoDup_lookup l.*1 j i ts); [done|..]; rewrite list_lookup_fmap; by rewrite ?Hi, ?Hj.
Qed.

Lemma history_reads m V p : versions_ok m V -> reads m (get_version_history p) (versions_of V p).*1.
Proof.
  intros HV. eapply reads_bind; [apply reads_get|]. rewrite (parsed_versions m V p HV). apply reads_ret.
Qed.

Lemma at_version_reads m V p ts :
  versions_ok m V -> 0 <= ts -> reads m (get_note_at_version p ts) (version_at (versions_of V p) ts).
Proof.
  intros HV Hts. eapply reads_bind; [apply reads_get|].
  destruct (versions_of_wf m V p HV) as (Hnd & _ & Htx & _).
  pose proof (vo_content _ _ HV p ts) as Hc. destruct (m !! version_entry_key p ts) as [c|].
  - assert ((ts, c) ∈ versions_of V p) as Hin by (by apply Hc).
    rewrite (proj2 (version_at_spec _ ts c Hnd) Hin). cbn.
    rewrite text_lossy; [apply reads_ret|]. apply (vf_texts vfit). rewrite Forall_forall in Htx. by apply (Htx _ Hin).
  - destruct (version_at (versions_of V p) ts) as [c|] eqn:E; [|apply reads_ret].
    apply version_at_spec, Hc in E; done.
Qed.

(** ** Notes and versions together *)

Record book_ok m (used : list Z) (b : Notebook) : Prop := {
  bo_notes : notes_ok terms notes tags m (nb_notes b);
  bo_versions : versions_ok m (nb_versions b);
  bo_texts : map_Forall (fun _ c => c ∈ texts) (contents (nb_notes b));
  bo_used p : (versions_of (nb_versions b) p).*1 ⊆ used;
}.

Lemma newest_sub l : (newest_versions l).*1 ⊆ l.*1.
Proof. intros t. unfold newest_versions. rewrite fmap_drop. intros Ht. eapply elem_of_sublist; [exact Ht|apply sublist_drop]. Qed.

Lemma spec_save_used used p ts c V :
  (forall q, (versions_of V q).*1 ⊆ used) -> forall q, (versions_of (spec_save p ts c V) q).*1 ⊆ ts :: used.
Proof.
  intros Hu q. unfold spec_save, versions_of at 1. destruct (decide (q = p)) as [->|Hq].
  - rewrite lookup_insert_eq. etransitivity; [apply newest_sub|]. rewrite fmap_app. specialize (Hu p). set_solver.
  - rewrite lookup_insert_ne by done. specialize (Hu q). unfold versions_of in Hu. set_solver.
Qed.

Lemma save_current_ok m used b p ts :
  book_ok m used b -> p ∈ notes -> stamp_ok ts -> ts ∉ used ->
  triple m (save_version_with id ts p) (fun _ m' => book_ok m' (ts :: used) (save_current p ts b)).
Proof.
  intros [Hn HV Ht Hu] Hp Hts Hnew. eapply triple_weaken.
  { apply (save_version_ok m (nb_notes b) (nb_versions b)); [done..| |by intros c Hc; apply (Ht p)].
    intros Hin. apply Hnew. by apply (Hu p). }
  intros [] m' [Hn' HV']. constructor; [done|done|done|]. cbn.
  destruct (contents (nb_notes b) !! p); [by apply spec_save_used|]. intros q. specialize (Hu q). set_solver.
Qed.

Lemma put_current_ok m used b p c :
  book_ok m used b -> p ∈ notes -> c ∈ texts ->
  triple m (put_note_with id p c) (fun _ m' => book_ok m' used (change_notes (spec_put p c) b)).
Proof.
  intros [Hn HV Ht Hu] Hp Hc. eapply triple_weaken.
  { apply (put_note_ok terms notes tags fit m (nb_notes b)); [done|by apply (vf_put vfit)|].
    intros c' Hc' E. apply (vf_checksums vfit); [by apply (Ht p)|done|done]. }
  intros [] m' [Hn' Hm']. constructor; [done|by eapply versions_untouched| |done].
  by apply map_Forall_insert_2.
Qed.

Lemma delete_current_ok m used b p :
  book_ok m used b -> p ∈ notes ->
  triple m (delete_note_with id p) (fun _ m' => book_ok m' used (change_notes (spec_delete p) b)).
Proof.
  intros [Hn HV Ht Hu] Hp. eapply triple_weaken.
  { apply (delete_note_ok terms notes tags fit m (nb_notes b)); [done|by apply (vf_delete vfit)]. }
  intros [] m' [Hn' Hm']. constructor; [done|by eapply versions_untouched| |done]. by apply map_Forall_delete.
Qed.

Lemma put_version_ok m used b ts p c :
  book_ok m used b -> p ∈ notes -> c ∈ texts -> stamp_ok ts -> ts ∉ used ->
  triple m (put_version_with id ts p c) (fun _ m' => book_ok m' (ts :: used) (spec_put_version ts p c b)).
Proof.
  intros Hb Hp Hc Hts Hnew. eapply triple_bind; [by apply put_current_ok|]. intros [] m' Hb'. by apply save_current_ok.
Qed.

Lemma note_version_ok m used b p ts c : book_ok m used b -> note_version b p ts = Some c -> c ∈ texts /\ stamp_ok ts.
Proof.
  intros Hb. destruct (versions_of_wf m _ p (bo_versions _ _ _ Hb)) as (Hnd & Hst & Htx & _).
  intros Hin%version_at_spec; [|done]. rewrite Forall_forall in Htx. rewrite Forall_forall in Hst. split; [by apply (Htx _ Hin)|].
  apply Hst, list_elem_of_fmap. by exists (ts, c).
Qed.

Lemma restore_ok m used b now now' p ts :
  book_ok m used b -> p ∈ notes -> 0 <= ts -> stamp_ok now -> stamp_ok now' -> now ∉ used -> now' ∉ now :: used ->
  triple m (restore_with id now now' p ts) (fun r m' => r = bool_decide (is_Some (note_version b p ts)) /\
    book_ok m' (now' :: now :: used) (spec_restore now now' p ts b)).
Proof.
  intros Hb Hp Hts Hn Hn' Hnew Hnew'.
  eapply triple_read_bind; [by apply (at_version_reads m _ p ts (bo_versions _ _ _ Hb))|].
  fold (note_version b p ts). unfold spec_restore. destruct (note_version b p ts) as [old|] eqn:E.
  - eapply triple_bind; [by apply save_current_ok|]. intros [] m1 Hb1.
    eapply triple_bind; [apply put_current_ok; [done|done|apply (note_version_ok _ _ _ _ _ _ Hb E)]|]. intros [] m2 Hb2.
    eapply triple_bind; [by apply save_current_ok|]. intros [] m3 Hb3. apply triple_ret.
    by rewrite bool_decide_eq_true_2 by eauto.
  - apply triple_ret. rewrite bool_decide_eq_false_2 by (by intros [? ?]). split; [done|].
    destruct Hb as [G1 G2 G3 G4]. constructor; [done..|]. intros q. specialize (G4 q). set_solver.
Qed.

Lemma remove_current_ok m used b p ts :
  book_ok m used b -> p ∈ notes -> 0 <= ts <= u128_max ->
  triple m (remove_version p ts) (fun r m' => r = bool_decide (is_Some (nb_versions b !! p)) /\
    book_ok m' used (change_versions (spec_remove p ts) b)).
Proof.
  intros [Hn HV Ht Hu] Hp Hts. eapply triple_weaken; [by apply (remove_version_ok m (nb_notes b) (nb_versions b))|].
  intros r m' (-> & Hn' & HV'). split; [done|]. constructor; [done|done|done|].
  intros q. cbn. transitivity (versions_of (nb_versions b) q).*1; [|apply Hu].
  unfold spec_remove. destruct (decide (q = p)) as [->|Hq].
  - assert ((without_version ts (versions_of (nb_versions b) p)).*1 ⊆ (versions_of (nb_versions b) p).*1) as Hs.
    { intros t Hin. eapply elem_of_sublist; [exact Hin|]. apply fmap_sublist, sublist_filter. }
    destruct (without_version _ _) as [|e l]; unfold versions_of at 1;
      rewrite ?lookup_delete_eq, ?lookup_insert_eq; [set_solver|exact Hs].
  - destruct (without_version _ _); unfold versions_of; by rewrite ?lookup_delete_ne, ?lookup_insert_ne.
Qed.

(** A store without notes and versions. *)
Definition fresh_book m : Prop :=
  fresh m /\ forall k, is_Some (m !! k) ->
    starts_with k VERSION_PREFIX = false /\ starts_with k VERSION_CONTENT_PREFIX = false.

Lemma fresh_book_ok m : fresh_book m -> book_ok m [] empty_notebook.
Proof.
  intros [Hm Hv]. constructor; cbn.
  - by apply fresh_ok.
  - assert (forall p, m !! version_key p = None) as G1.
    { intros p. apply eq_None_not_Some. intros [Hk _]%Hv. unfold version_key in Hk. by rewrite starts_with_app_l in Hk. }
    assert (forall p ts, m !! version_entry_key p ts = None) as G2.
    { intros p ts. apply eq_None_not_Some. intros [_ Hk]%Hv. unfold version_entry_key in Hk. by rewrite starts_with_app_l in Hk. }
    constructor; [intros p; by rewrite G1, lookup_empty| |apply map_Forall_empty].
    intros p ts c _. rewrite G2. unfold versions_of. rewrite lookup_empty. cbn. split; [done|by intros ?%elem_of_nil].
  - apply map_Forall_empty.
  - intros p. unfold versions_of. by rewrite lookup_empty.
Qed.

End versions.
