(* ===== verification/NoteApi.v ===== *)
(** * NoteApi: the notes of the HTTP interface ([src/src/api/notes.rs])

    One definition per handler, over any store with the contract of [Kv]; requests
    and responses are those of [Api].  The texts of errors that a handler repeats
    are dropped.  The search, whose results are ranked by floating-point scores, is
    not among the handlers.  The theorem is that the interface as a whole behaves
    as a notebook: notes with their links, and the versions of each. *)
From Stdlib Require Import ZArith Lia.
From stdpp Require Import base tactics numbers list gmap strings sorting.
From S2P Require Import Prelude Bytes SortedMap Utf8 Text Engine Auth Api TimeTravel.
From S2P Require Import Kv Postings NoteIndex NoteGraph NoteParser NoteSearch NoteEngine.
From S2P Require Import NoteRules NoteVersions.
Local Open Scope Z_scope.

(** ** Bodies *)

Definition text_list (l : list bytes) : Json := JList (JText <$> l).
Definition opt_text (o : option bytes) : Json := match o with Some s => JText s | None => JNull end.

(** The derived [Serialize] of [Frontmatter]; the keys of a map are sorted. *)
Definition frontmatter_json (fm : Frontmatter) : Json :=
  JObject [(lit "title", opt_text (fm_title fm)); (lit "aliases", text_list (fm_aliases fm));
           (lit "tags", text_list (fm_tags fm)); (lit "created", opt_text (fm_created fm));
           (lit "updated", opt_text (fm_updated fm));
           (lit "custom", JObject ((fun e => (e.1, JText e.2)) <$> sorted_entries (fm_custom fm)))].

Definition node_json (x : GraphNode) : Json :=
  JObject [(lit "id", JText (gn_id x)); (lit "label", JText (gn_label x)); (lit "group", opt_text (gn_group x));
           (lit "size", JNum (gn_size x))].
Definition edge_json (e : GraphEdge) : Json :=
  JObject [(lit "source", JText (ge_source e)); (lit "target", JText (ge_target e)); (lit "weight", JNum (ge_weight e))].

(** A [u128] in [json!]: [serde_json] has numbers of 64 bits and the macro unwraps. *)
Definition json_u128 (n : Z) : outcome Json := if n <=? u64_max then Ok (JNum n) else Panic.
Fixpoint json_u128s (l : list Z) : outcome (list Json) :=
  match l with
  | [] => Ok []
  | n :: l =>
      match json_u128 n, json_u128s l with
      | Ok j, Ok js => Ok (j :: js)
      | _, _ => Panic
      end
  end.

Definition note_not_found : Response := mkResponse 404 (error_json (lit "note not found")).
Definition version_not_found : Response := mkResponse 404 (error_json (lit "version not found")).

(** ** Handlers *)

Section handlers.
Context {St : Type} `{!KvStore St} `{!Unicode} `{!JsonStrings} `{!SearchEnv} `{!VersionJson} `{!SnapshotJson}.
Context `{!Chrono}.

Definition note_response (path content : bytes) (forward backlinks : list bytes) : Response :=
  let parsed := parse_note content in
  mkResponse 200 (JObject
    [(lit "path", JText path); (lit "content", JText content);
     (lit "frontmatter", frontmatter_json (pn_frontmatter parsed)); (lit "links", text_list forward);
     (lit "backlinks", text_list backlinks); (lit "tags", text_list (pn_inline_tags parsed))]).

(** [if let Err(e) = require_permission(..) { return *e }]. *)
Definition permitted {A : Type} (rq : Request) (p : Permission) (refuse : Response -> A) (h : KvM St A) : KvM St A :=
  match require_permission rq p with
  | inl e => mret (refuse (error_response e))
  | inr _ => h
  end.

(** [match m { Ok(a) => k(a), Err(e) => r(e) }]. *)
Definition matched {A B : Type} (m : KvM St A) (k : A -> KvM St B) (r : LsmError -> B) : KvM St B := fun s =>
  match m s with
  | (Ok a, s) => k a s
  | (Err e, s) => (Ok (r e), s)
  | (Panic, s) => (Panic, s)
  end.

(** The shape all handlers have. *)
Definition handler {A : Type} (rq : Request) (p : Permission) (m : KvM St A) (k : A -> KvM St Response)
    : KvM St Response := permitted rq p id (matched m k (fun _ => internal_error)).

Definition list_notes_handler (rq : Request) (prefix : option bytes) : KvM St Response :=
  handler rq Read (list_notes prefix) (fun notes =>
    mret (mkResponse 200 (JObject [(lit "notes", text_list notes)]))).

(** Failures of the indexes count as no links. *)
Definition get_note_handler (rq : Request) (path : bytes) : KvM St Response :=
  handler rq Read (get_note path) (fun content =>
    match content with
    | Some content =>
        backlinks ← kv_unwrap_or [] (get_backlinks path);
        forward ← kv_unwrap_or [] (get_forward_links path);
        mret (note_response path content forward backlinks)
    | None => mret note_not_found
    end).

(** [put_note] at the time [now], with what is made of the results the engine
    drops. *)
Definition put_handler_with (handle : KvM St unit -> KvM St unit) (now : Z) (rq : Request) (path content : bytes)
    : KvM St Response :=
  handler rq Write (put_version_with handle now path content) (fun _ =>
    mret (mkResponse 200 (JObject [(lit "status", JText (lit "ok")); (lit "path", JText path)]))).
Definition put_note_handler : Z -> Request -> bytes -> bytes -> KvM St Response := put_handler_with kv_ignore.

Definition delete_handler_with (handle : KvM St unit -> KvM St unit) (rq : Request) (path : bytes) : KvM St Response :=
  handler rq Delete (delete_note_with handle path) (fun _ => mret (mkResponse 200 status_ok_json)).
Definition delete_note_handler : Request -> bytes -> KvM St Response := delete_handler_with kv_ignore.

(** Every [InvalidArgument] is taken for a missing note; the message is that of the
    error. *)
Definition rename_note_handler (rq : Request) (old_path new_path : bytes) : KvM St Response :=
  permitted rq Write id $
  matched (rename old_path new_path)
    (fun _ => mret (mkResponse 200 (JObject
       [(lit "status", JText (lit "ok")); (lit "old_path", JText old_path); (lit "new_path", JText new_path)])))
    (fun e => match e with InvalidArgument => mkResponse 404 (error_json []) | _ => internal_error end).

Definition get_backlinks_handler (rq : Request) (path : bytes) : KvM St Response :=
  handler rq Read (get_backlinks path) (fun links =>
    mret (mkResponse 200 (JObject [(lit "backlinks", text_list links)]))).
Definition get_forward_links_handler (rq : Request) (path : bytes) : KvM St Response :=
  handler rq Read (get_forward_links path) (fun links =>
    mret (mkResponse 200 (JObject [(lit "links", text_list links)]))).

Definition graph_config (depth max_nodes : option Z) (tag_filter : option bytes) : GraphConfig :=
  let depth := default 1 depth in
  {| gc_depth := if depth =? 0 then Direct else if depth =? 1 then Direct else if depth =? 2 then Extended else Deep;
     gc_include_tags := true;
     gc_max_nodes := Z.to_nat (Z.min (default 500 max_nodes) 500);
     gc_tag_filter := tag_filter;
     gc_include_isolated := false |}.
Definition get_graph_handler (rq : Request) (path : bytes) (depth max_nodes : option Z) (tag_filter : option bytes)
    : KvM St Response :=
  handler rq Read (build_graph path (graph_config depth max_nodes tag_filter)) (fun g =>
    mret (mkResponse 200 (JObject
      [(lit "root", JText (gd_root g)); (lit "nodes", JList (node_json <$> gd_nodes g));
       (lit "edges", JList (edge_json <$> gd_edges g))]))).

Definition get_version_history_handler (rq : Request) (path : bytes) : KvM St Response :=
  handler rq Read (get_version_history path) (fun timestamps =>
    versions ← kv_lift (json_u128s timestamps);
    mret (mkResponse 200 (JObject [(lit "path", JText path); (lit "versions", JList versions)]))).

Definition get_note_at_version_handler (rq : Request) (path : bytes) (timestamp : Z) : KvM St Response :=
  handler rq Read (get_note_at_version path timestamp) (fun content =>
    match content with
    | Some content =>
        ts ← kv_lift (json_u128 timestamp);
        mret (mkResponse 200 (JObject
          [(lit "path", JText path); (lit "timestamp", ts); (lit "content", JText content)]))
    | None => mret version_not_found
    end).

Definition delete_version_handler (rq : Request) (path : bytes) (timestamp : Z) : KvM St Response :=
  handler rq Delete (remove_version path timestamp) (fun found =>
    mret (if found : bool then mkResponse 200 status_ok_json else version_not_found)).

(** The two clock readings of [restore_version]. *)
Definition restore_handler_with (handle : KvM St unit -> KvM St unit) (now now' : Z) (rq : Request) (path : bytes)
    (timestamp : Z) : KvM St Response :=
  handler rq Write (restore_with handle now now' path timestamp) (fun found =>
    if found : bool then
      ts ← kv_lift (json_u128 timestamp);
      mret (mkResponse 200 (JObject
        [(lit "status", JText (lit "ok")); (lit "path", JText path); (lit "restored_from", ts)]))
    else mret version_not_found).
Definition restore_version_handler : Z -> Z -> Request -> bytes -> Z -> KvM St Response := restore_handler_with kv_ignore.

(** A snapshot of one note, taken by the time-travel engine; the lock around it is
    never poisoned. *)
Definition create_snapshot_handler (now : Z) (rq : Request) (path : bytes)
    (time_travel : TimeTravelEngine * Directory) : KvM St (Response * (TimeTravelEngine * Directory)) :=
  permitted rq Admin (fun r => (r, time_travel)) $
  matched (get_note path)
    (fun content => match content with
       | Some content =>
           let data := {[ NOTE_PREFIX ++ path := content ]} : gmap bytes bytes in
           let tt := capture now data (lit "manual-snapshot-" ++ path) time_travel.1 time_travel.2 in
           ts ← kv_lift (json_u128 now);
           mret (mkResponse 200 (JObject [(lit "status", JText (lit "ok")); (lit "timestamp", ts)]), tt)
       | None => mret (note_not_found, time_travel)
       end)
    (fun _ => (internal_error, time_travel)).

(** ** Tags and templates *)

Definition list_tags_handler (rq : Request) : KvM St Response :=
  handler rq Read list_tags (fun tags =>
    mret (mkResponse 200 (JObject
      [(lit "tags", JList ((fun e => JObject [(lit "tag", JText e.1); (lit "count", JNum e.2)]) <$> tags))]))).

Definition get_notes_by_tag_handler (rq : Request) (tag : bytes) (cursor : option bytes) (limit : option Z)
    : KvM St Response :=
  handler rq Read (search_by_tag tag cursor (default 50 limit)) (fun found =>
    mret (mkResponse 200 (JObject
      [(lit "tag", JText tag); (lit "notes", text_list found.1); (lit "cursor", opt_text found.2)]))).

Definition list_templates_handler (rq : Request) : KvM St Response :=
  handler rq Read list_templates (fun templates =>
    mret (mkResponse 200 (JObject [(lit "templates", text_list templates)]))).

Definition save_template_handler (rq : Request) (name content : bytes) : KvM St Response :=
  handler rq Write (save_template name content) (fun _ =>
    mret (mkResponse 200 (JObject [(lit "status", JText (lit "ok")); (lit "name", JText name)]))).

Definition delete_template_handler (rq : Request) (name : bytes) : KvM St Response :=
  handler rq Delete (delete_template name) (fun _ => mret (mkResponse 200 status_ok_json)).

Definition create_daily_note_handler (now : Z) (readings : nat -> Z) (rq : Request) (template : option bytes)
    : KvM St Response :=
  handler rq Write (create_daily_note now readings template) (fun path =>
    mret (mkResponse 200 (JObject [(lit "status", JText (lit "ok")); (lit "path", JText path)]))).

End handlers.

(** ** The interface as a notebook *)

(** Requests, with the clock readings their handling takes. *)
Inductive note_request : Type :=
| ListNotes
| GetNote (p : bytes)
| PutNoteAt (now : Z) (p c : bytes)
| RemoveNote (p : bytes)
| Backlinks (p : bytes)
| ForwardLinks (p : bytes)
| VersionHistory (p : bytes)
| NoteAtVersion (p : bytes) (ts : Z)
| DeleteVersion (p : bytes) (ts : Z)
| RestoreVersion (now now' : Z) (p : bytes) (ts : Z).

Definition needed (r : note_request) : Permission :=
  match r with
  | PutNoteAt _ _ _ | RestoreVersion _ _ _ _ => Write
  | RemoveNote _ | DeleteVersion _ _ => Delete
  | _ => Read
  end.
Definition stamps (r : note_request) : list Z :=
  match r with
  | PutNoteAt now _ _ => [now]
  | RestoreVersion now now' _ _ => [now'; now]
  | _ => []
  end.

Section notebook.
Context {St : Type} `{!KvStore St} `{!Unicode} `{!JsonStrings} `{!SearchEnv} `{!VersionJson} `{!SnapshotJson}.
Context `{!KvLaws St}.

Definition run_request (handle : KvM St unit -> KvM St unit) (x : Request * note_request) : KvM St Response :=
  let rq := x.1 in
  match x.2 with
  | ListNotes => list_notes_handler rq None
  | GetNote p => get_note_handler rq p
  | PutNoteAt now p c => put_handler_with handle now rq p c
  | RemoveNote p => delete_handler_with handle rq p
  | Backlinks p => get_backlinks_handler rq p
  | ForwardLinks p => get_forward_links_handler rq p
  | VersionHistory p => get_version_history_handler rq p
  | NoteAtVersion p ts => get_note_at_version_handler rq p ts
  | DeleteVersion p ts => delete_version_handler rq p ts
  | RestoreVersion now now' p ts => restore_handler_with handle now now' rq p ts
  end.
Fixpoint run_requests (handle : KvM St unit -> KvM St unit) (xs : list (Request * note_request)) : KvM St (list Response) :=
  match xs with
  | [] => mret []
  | x :: xs => r ← run_request handle x; rs ← run_requests handle xs; mret (r :: rs)
  end.

(** The notebook after a request. *)
Definition spec_request (b : Notebook) (r : note_request) : Notebook :=
  match r with
  | PutNoteAt now p c => spec_put_version now p c b
  | RemoveNote p => change_notes (spec_delete p) b
  | DeleteVersion p ts => change_versions (spec_remove p ts) b
  | RestoreVersion now now' p ts => spec_restore now now' p ts b
  | _ => b
  end.

(** Lists whose order the notebook leaves open. *)
Definition all_notes (b : Notebook) (l : list bytes) : Prop :=
  NoDup l /\ forall p, p ∈ l <-> is_Some (contents (nb_notes b) !! p).
Definition linking_to (b : Notebook) (p : bytes) (l : list bytes) : Prop :=
  NoDup l /\ forall x, x ∈ l <-> exists c, contents (nb_notes b) !! x = Some c /\ p ∈ targets_of c.
Definition links_from_note (b : Notebook) (p : bytes) : list bytes :=
  default [] (targets_of <$> contents (nb_notes b) !! p).

(** What a permitted request is answered. *)
Definition answer (b : Notebook) (r : note_request) (resp : Response) : Prop :=
  match r with
  | ListNotes => exists l, all_notes b l /\ resp = mkResponse 200 (JObject [(lit "notes", text_list l)])
  | GetNote p =>
      match contents (nb_notes b) !! p with
      | Some c => exists l, linking_to b p l /\ resp = note_response p c (targets_of c) l
      | None => resp = note_not_found
      end
  | PutNoteAt _ p _ => resp = mkResponse 200 (JObject [(lit "status", JText (lit "ok")); (lit "path", JText p)])
  | RemoveNote _ => resp = mkResponse 200 status_ok_json
  | Backlinks p => exists l, linking_to b p l /\ resp = mkResponse 200 (JObject [(lit "backlinks", text_list l)])
  | ForwardLinks p => resp = mkResponse 200 (JObject [(lit "links", text_list (links_from_note b p))])
  | VersionHistory p =>
      resp = mkResponse 200 (JObject [(lit "path", JText p);
        (lit "versions", JList (JNum <$> (versions_of (nb_versions b) p).*1))])
  | NoteAtVersion p ts =>
      resp = match note_version b p ts with
             | Some c => mkResponse 200 (JObject
                 [(lit "path", JText p); (lit "timestamp", JNum ts); (lit "content", JText c)])
             | None => version_not_found
             end
  | DeleteVersion p _ =>
      resp = if bool_decide (is_Some (nb_versions b !! p)) then mkResponse 200 status_ok_json else version_not_found
  | RestoreVersion _ _ p ts =>
      resp = if bool_decide (is_Some (note_version b p ts))
             then mkResponse 200 (JObject
               [(lit "status", JText (lit "ok")); (lit "path", JText p); (lit "restored_from", JNum ts)])
             else version_not_found
  end.

(** The answers to a sequence of requests; one that is refused has no effect. *)
Fixpoint answered (b : Notebook) (xs : list (Request * note_request)) (rs : list Response) : Prop :=
  match xs, rs with
  | [], [] => True
  | (rq, r) :: xs, resp :: rs =>
      match require_permission rq (needed r) with
      | inl e => resp = error_response e /\ answered b xs rs
      | inr _ => answer b r resp /\ answered (spec_request b r) xs rs
      end
  | _, _ => False
  end.

(** *** Dropped results *)

Lemma put_note_ignore p c s s' :
  put_note_with id p c s = (Ok tt, s') -> put_note_with kv_ignore p c s = (Ok tt, s').
Proof. exact (run_note_op_ignore (PutNote p c) s s'). Qed.
Lemma delete_note_ignore p s s' :
  delete_note_with id p s = (Ok tt, s') -> delete_note_with kv_ignore p s = (Ok tt, s').
Proof. exact (run_note_op_ignore (DeleteNote p) s s'). Qed.

(** A computation that succeeded with the dropped results in view succeeds the same
    without. *)
Definition refines_ignored {A : Type} (a b : KvM St A) : Prop := forall s x s', a s = (Ok x, s') -> b s = (Ok x, s').

Lemma ignored_refl {A : Type} (a : KvM St A) : refines_ignored a a.
Proof. by intros s x s'. Qed.
Lemma ignored_bind {A B : Type} (a a' : KvM St A) (f f' : A -> KvM St B) :
  refines_ignored a a' -> (forall x, refines_ignored (f x) (f' x)) -> refines_ignored (a ≫= f) (a' ≫= f').
Proof.
  intros Ha Hf s y s'. cbv [mbind KvM_bind]. destruct (a s) as [[x|e|] s1] eqn:E; [|done..].
  rewrite (Ha _ _ _ E). apply Hf.
Qed.
Lemma ignored_put p c : refines_ignored (put_note_with id p c) (put_note_with kv_ignore p c).
Proof. intros s [] s'. apply put_note_ignore. Qed.
Lemma ignored_trim p l : refines_ignored (trim_versions id p l) (trim_versions kv_ignore p l).
Proof.
  induction l as [|t l IH]; cbn [trim_versions]; [apply ignored_refl|]. case_match; [|apply ignored_refl].
  apply ignored_bind; [|done]. intros s [] s'. apply kv_ignore_ok.
Qed.
Lemma ignored_save ts p : refines_ignored (save_version_with id ts p) (save_version_with kv_ignore ts p).
Proof.
  apply ignored_bind; [apply ignored_refl|]. intros [c|]; [|apply ignored_refl].
  apply ignored_bind; [apply ignored_refl|]. intros []. apply ignored_bind; [apply ignored_refl|]. intros v.
  apply ignored_bind; [apply ignored_trim|]. intros l. apply ignored_refl.
Qed.
Lemma ignored_put_version ts p c : refines_ignored (put_version_with id ts p c) (put_version_with kv_ignore ts p c).
Proof. apply ignored_bind; [apply ignored_put|]. intros []. apply ignored_save. Qed.
Lemma ignored_restore now now' p ts :
  refines_ignored (restore_with id now now' p ts) (restore_with kv_ignore now now' p ts).
Proof.
  apply ignored_bind; [apply ignored_refl|]. intros [c|]; [|apply ignored_refl].
  apply ignored_bind; [apply ignored_save|]. intros []. apply ignored_bind; [apply ignored_put|]. intros [].
  apply ignored_bind; [apply ignored_save|]. intros []. apply ignored_refl.
Qed.

Lemma handler_ignored {A : Type} rq p (a a' : KvM St A) k s r s' :
  refines_ignored a a' -> handler rq p a k s = (Ok r, s') -> status r <> 500 -> handler rq p a' k s = (Ok r, s').
Proof.
  intros Ha. unfold handler, permitted. destruct (require_permission rq p) as [e|u]; [done|]. unfold matched.
  destruct (a s) as [[x|e|] s1] eqn:E; [by rewrite (Ha _ _ _ E)| |done]. by intros [= <- <-].
Qed.

Lemma run_request_ignored x s r s' :
  run_request id x s = (Ok r, s') -> status r <> 500 -> run_request kv_ignore x s = (Ok r, s').
Proof.
  destruct x as [rq []]; cbn; try done.
  - apply handler_ignored, ignored_put_version.
  - apply handler_ignored. intros s1 [] s1'. apply delete_note_ignore.
  - apply handler_ignored, ignored_restore.
Qed.

Lemma run_requests_ignored xs s rs s' :
  run_requests id xs s = (Ok rs, s') -> Forall (fun r => status r <> 500) rs ->
  run_requests kv_ignore xs s = (Ok rs, s').
Proof.
  revert s rs; induction xs as [|x xs IH]; intros s rs; [done|]. cbn [run_requests]. cbv [mbind KvM_bind mret KvM_ret].
  destruct (run_request id x s) as [[r|e|] s1] eqn:E; [|done..].
  destruct (run_requests id xs s1) as [[rs1|e|] s2] eqn:E1; [|done..].
  intros [= <- <-] [Hr Hrs]%Forall_cons. by rewrite (run_request_ignored _ _ _ _ E Hr), (IH _ _ E1 Hrs).
Qed.

(** *** Each request *)

Context (terms notes tags : gset bytes) (fit : notes_fit terms notes tags) (texts : list bytes).
Context (vfit : versions_fit terms notes tags texts).
Implicit Types (m : gmap bytes bytes) (b : Notebook).
Abbreviation book_ok := (book_ok terms notes tags texts).

Definition request_fits (r : note_request) : Prop :=
  Forall stamp_ok (stamps r) /\
  match r with
  | PutNoteAt _ p c => p ∈ notes /\ c ∈ texts
  | RemoveNote p => p ∈ notes
  | NoteAtVersion _ ts => 0 <= ts
  | DeleteVersion p ts => p ∈ notes /\ 0 <= ts <= u128_max
  | RestoreVersion _ _ p ts => p ∈ notes /\ 0 <= ts
  | _ => True
  end.

(** A handler that does not report a failure of the store. *)
Definition serves m (h : KvM St Response) (Q : Response -> gmap bytes bytes -> Prop) : Prop :=
  forall s r s', models s m -> h s = (Ok r, s') -> status r <> 500 -> exists m', models s' m' /\ Q r m'.

Lemma handler_serves {A : Type} m rq p (a : KvM St A) k Q R u :
  require_permission rq p = inr u -> triple m a Q -> (forall x m', Q x m' -> triple m' (k x) R) ->
  serves m (handler rq p a k) R.
Proof.
  intros Hp Ha Hk s r s' Hs. unfold handler, permitted, matched. rewrite Hp.
  destruct (a s) as [[x|e|] s1] eqn:E; [|by intros [= <- <-]|done]. intros Er _.
  destruct (Ha s x s1 Hs E) as (m1 & Hs1 & HQ). by apply (Hk x m1 HQ s1).
Qed.

Lemma handler_reads {A : Type} m rq p (a : KvM St A) k x resp R u :
  require_permission rq p = inr u -> reads m a x -> reads m (k x) resp -> R resp m ->
  serves m (handler rq p a k) R.
Proof.
  intros Hp Ha Hk HR. eapply handler_serves; [done|by apply triple_reads|]. intros y m' [-> ->].
  eapply triple_weaken; [by apply triple_reads|]. by intros ? ? [-> ->].
Qed.

Lemma backlinks_served m used b p : book_ok m used b -> exists l, reads m (get_backlinks p) l /\ linking_to b p l.
Proof.
  intros Hb. pose proof (no_links _ _ _ _ _ (bo_notes _ _ _ _ _ _ _ Hb)) as Hl. exists (sources m p).
  split; [by eapply (reads_backlinks (a_note notes) (a_note_text terms notes tags fit))|]. split.
  - apply (list_ok_listed LINK_PREFIX (a_note notes) (a_note_text terms notes tags fit)). apply Hl.
  - intros x. rewrite (ix_inverse _ _ _ Hl). setoid_rewrite lookup_fmap_Some. naive_solver.
Qed.

Lemma forward_served m used b p : book_ok m used b -> reads m (get_forward_links p) (links_from_note b p).
Proof.
  intros Hb. unfold links_from_note. rewrite <- lookup_fmap.
  apply (reads_forward (a_note notes) (a_note_text terms notes tags fit) m), (no_links _ _ _ _ _ (bo_notes _ _ _ _ _ _ _ Hb)).
Qed.

Lemma json_stamp t : stamp_ok t -> json_u128 t = Ok (JNum t).
Proof. intros [_ Ht]. unfold json_u128. by rewrite (proj2 (Z.leb_le _ _) Ht). Qed.
Lemma json_stamps l : Forall stamp_ok l -> json_u128s l = Ok (JNum <$> l).
Proof. induction 1 as [|t l Ht _ IH]; [done|]. cbn. by rewrite json_stamp, IH by done. Qed.

Lemma reading_ok m used b rq r u :
  book_ok m used b -> request_fits r -> needed r = Read -> require_permission rq Read = inr u ->
  serves m (run_request id (rq, r)) (fun resp m' => answer b r resp /\ m' = m).
Proof.
  intros Hb [_ Hr] Hread Hp. pose proof (bo_notes _ _ _ _ _ _ _ Hb) as Hn.
  pose proof (bo_versions _ _ _ _ _ _ _ Hb) as HV.
  destruct r as [|p|now p c|p|p|p|p|p ts|p ts|now now' p ts]; cbn in Hread, Hr |- *; try done.
  - destruct (list_notes_reads terms notes tags fit m _ Hn) as (l & Hl & Hall).
    eapply handler_reads; [done|exact Hl|apply reads_ret|]. split; [by exists l|done].
  - destruct (backlinks_served m used b p Hb) as (l & Hl & Hlink).
    destruct (contents (nb_notes b) !! p) as [c|] eqn:Ec.
    + eapply handler_reads; [done|by apply (get_note_reads terms notes tags m (nb_notes b))|rewrite Ec|].
      * eapply reads_bind; [by apply reads_unwrap|].
        eapply reads_bind; [apply reads_unwrap; by eapply forward_served|apply reads_ret].
      * split; [|done]. exists l. split; [done|]. unfold links_from_note. by rewrite Ec.
    + eapply handler_reads; [done|by apply (get_note_reads terms notes tags m (nb_notes b))|rewrite Ec; apply reads_ret|done].
  - destruct (backlinks_served m used b p Hb) as (l & Hl & Hlink).
    eapply handler_reads; [done|exact Hl|apply reads_ret|]. split; [by exists l|done].
  - eapply handler_reads; [done|by eapply forward_served|apply reads_ret|done].
  - eapply handler_reads; [done|by apply (history_reads texts m (nb_versions b))| |].
    + rewrite json_stamps by (by eapply (versions_of_wf texts m)). eapply reads_bind; [apply reads_lift|apply reads_ret].
    + done.
  - assert (reads m (get_note_at_version p ts) (note_version b p ts)) as Hv
      by (by apply (at_version_reads terms notes tags texts vfit m)).
    destruct (note_version b p ts) as [c|] eqn:E.
    + eapply handler_reads; [done|exact Hv| |done].
      rewrite json_stamp by (by eapply (note_version_ok terms notes tags texts)).
      eapply reads_bind; [apply reads_lift|apply reads_ret].
    + eapply handler_reads; [done|exact Hv|apply reads_ret|done].
Qed.

Lemma writing_ok m used b rq r u :
  book_ok m used b -> request_fits r -> needed r <> Read -> NoDup (stamps r) -> (forall t, t ∈ stamps r -> t ∉ used) ->
  require_permission rq (needed r) = inr u ->
  serves m (run_request id (rq, r)) (fun resp m' => answer b r resp /\ book_ok m' (stamps r ++ used) (spec_request b r)).
Proof.
  intros Hb [Hst Hr] Hread Hnd Hnew Hp.
  destruct r as [|p|now p c|p|p|p|p|p ts|p ts|now now' p ts];
    cbn [needed stamps run_request fst snd answer spec_request app] in *; try done.
  - rewrite Forall_singleton in Hst. eapply handler_serves; [done|apply (put_version_ok terms notes tags fit texts vfit);
      [exact Hb|apply Hr|apply Hr|done|apply Hnew; by left]|].
    intros [] m' Hb'. by apply triple_ret.
  - eapply handler_serves; [done|apply (delete_current_ok terms notes tags fit texts vfit); [exact Hb|exact Hr]|].
    intros [] m' Hb'. by apply triple_ret.
  - eapply handler_serves; [done|apply (remove_current_ok terms notes tags fit texts vfit); [exact Hb|apply Hr|apply Hr]|].
    intros x m' [-> Hb']. by apply triple_ret.
  - apply Forall_cons in Hst as [Hs' Hs]. rewrite Forall_singleton in Hs. apply NoDup_cons in Hnd as [Hnd _].
    eapply handler_serves; [done|apply (restore_ok terms notes tags fit texts vfit); [exact Hb|apply Hr|apply Hr|done|done| |]|].
    + apply Hnew. set_solver.
    + apply not_elem_of_cons. split; [set_solver|]. apply Hnew. by left.
    + intros x m' [-> Hb']. case_bool_decide as Hv; [|by apply triple_ret]. destruct Hv as [c Hv].
      rewrite json_stamp by (apply (note_version_ok _ _ _ _ _ _ _ _ _ _ Hb Hv)).
      eapply triple_read_bind; [apply reads_lift|by apply triple_ret].
Qed.

Lemma request_ok m used b rq r u :
  book_ok m used b -> request_fits r -> NoDup (stamps r) -> (forall t, t ∈ stamps r -> t ∉ used) ->
  require_permission rq (needed r) = inr u ->
  serves m (run_request id (rq, r)) (fun resp m' => answer b r resp /\ book_ok m' (stamps r ++ used) (spec_request b r)).
Proof.
  intros Hb Hr Hnd Hnew Hp. destruct (decide (needed r = Read)) as [E|E]; [|by eapply writing_ok].
  rewrite E in Hp. intros s resp s' Hs Hrun Hst.
  destruct (reading_ok m used b rq r u Hb Hr E Hp s resp s' Hs Hrun Hst) as (m' & Hs' & Ha & ->).
  exists m. split; [done|]. split; [done|]. by destruct r.
Qed.

Lemma refused m rq r e :
  require_permission rq (needed r) = inl e -> reads m (run_request id (rq, r)) (error_response e).
Proof.
  intros Hp. destruct r; cbn [run_request needed fst snd] in *;
    unfold list_notes_handler, get_note_handler, put_handler_with, delete_handler_with, get_backlinks_handler,
      get_forward_links_handler, get_version_history_handler, get_note_at_version_handler, delete_version_handler,
      restore_handler_with, handler, permitted; rewrite Hp; apply reads_ret.
Qed.

Lemma run_requests_ok xs : forall m used b s rs s',
  book_ok m used b -> Forall request_fits xs.*2 -> NoDup (concat (stamps <$> xs.*2)) ->
  (forall t, t ∈ concat (stamps <$> xs.*2) -> t ∉ used) -> models s m ->
  run_requests id xs s = (Ok rs, s') -> Forall (fun r => status r <> 500) rs -> answered b xs rs.
Proof.
  induction xs as [|[rq r] xs IH]; intros m used b s rs s' Hb Hfit Hnd Hnew Hs; cbn [run_requests].
  { by intros [= <- <-]. }
  cbn [fmap list_fmap concat] in Hnd, Hnew, Hfit. apply Forall_cons in Hfit as [Hr Hfit]. cbn [snd] in *.
  apply NoDup_app in Hnd as (Hnd & Hdis & Hnd'). cbv [mbind KvM_bind mret KvM_ret].
  destruct (run_request id (rq, r) s) as [[resp|e|] s1] eqn:E; [|done..].
  destruct (run_requests id xs s1) as [[rs1|e|] s2] eqn:E1; [|done..].
  intros [= <- <-] [Hst Hrs]%Forall_cons. cbn [answered].
  destruct (require_permission rq (needed r)) as [e|u] eqn:Ep.
  - destruct (refused m rq r e Ep s Hs) as (s1' & Eq & Hs1). rewrite Eq in E. injection E as <- <-. split; [done|].
    eapply (IH m used); try done. intros t Ht. apply Hnew. apply elem_of_app. by right.
  - destruct (request_ok m used b rq r u Hb Hr Hnd) with s resp s1 as (m1 & Hs1 & Ha & Hb1); try done.
    { intros t Ht. apply Hnew, elem_of_app. by left. }
    split; [done|]. eapply (IH m1); try done. intros t Ht [Hin|Hin]%elem_of_app; [by eapply Hdis|].
    revert Hin. apply Hnew, elem_of_app. by right.
Qed.


End notebook.
