(* ===== verification/ApiTxn.v ===== *)
(** * ApiTxn: transactions over HTTP ([src/src/api/transactions.rs], and the
    transaction handlers of [src/src/api/mod.rs])

    Open transactions are kept under random identifiers with their owner and the time of their
    creation; they expire, their number is bounded, and only the owner can stage
    writes in one or end it.  Times are nanoseconds; identifiers are drawn from the
    bytes the operating system supplies, at most eight times. *)
From Stdlib Require Import ZArith Lia.
From stdpp Require Import base tactics numbers list gmap strings sorting.
From S2P Require Import Prelude Bytes SortedMap LogRecord Iterators.
From S2P Require Import MemTable Extern Encryption SstReader Wal Table.
From S2P Require Import VersionSet Utf8 Text Engine EngineSpec Transaction.
From S2P Require Import CircuitBreaker Keyspace Auth Api.
Local Open Scope Z_scope.

Inductive Owner := OwnerToken (id : bytes) | Anonymous.
#[global] Instance Owner_eq_dec : EqDecision Owner.
Proof. solve_decision. Defined.

(** [auth::AuthError] of the permission check, or a request without a token. *)
Definition unauthorized : Response := mkResponse 401 JNull.
Definition owner (rq : Request) (p : Permission) : Response + Owner :=
  match require_permission rq p with
  | inl e => inl (error_response e)
  | inr _ =>
      if match auth_flag rq with Some b => negb b | None => false end then inr Anonymous
      else match extract_token rq with
           | Some t => inr (OwnerToken (token_id t))
           | None => inl unauthorized
           end
  end.

(** [uuid]: identifiers, their text, and how random bytes make one. *)
Class UuidLib := {
  Uuid : Type;
  Uuid_eq_dec :: EqDecision Uuid;
  Uuid_countable :: Countable Uuid;
  uuid_from_random : bytes -> Uuid;
  uuid_text : Uuid -> bytes;
  uuid_parse : bytes -> option Uuid;
  uuid_roundtrip u : uuid_parse (uuid_text u) = Some u;
}.

Inductive TransactionError := NotFound | Capacity | Identifier.

Definition txn_error_response (e : TransactionError) : Response :=
  match e with
  | NotFound => mkResponse 404 (error_json (lit "transaction not found"))
  | Capacity => mkResponse 429 (error_json (lit "too many open transactions"))
  | Identifier => mkResponse 503 (error_json (lit "secure transaction identifier unavailable"))
  end.

Record ActiveTransaction := mkActive {
  at_owner : Owner;
  at_created : Z;
  at_transaction : Transaction;
}.

Section manager.
Context `{!UuidLib}.

Record TransactionManager := mkTransactionManager {
  transactions : gmap Uuid ActiveTransaction;
  lifetime : Z;
  max_per_owner : Z;
  max_total : Z;
}.

Definition with_limits (lifetime max_per_owner max_total : Z) : TransactionManager :=
  mkTransactionManager ∅ lifetime max_per_owner max_total.
Definition TransactionManager_new : TransactionManager := with_limits (300 * 1000000000) 32 1024.

Definition with_entries (es : gmap Uuid ActiveTransaction) (tm : TransactionManager) : TransactionManager :=
  mkTransactionManager es (lifetime tm) (max_per_owner tm) (max_total tm).

(** [Instant::duration_since] saturates at zero. *)
Definition alive (tm : TransactionManager) (now : Z) (e : ActiveTransaction) : Prop :=
  Z.max 0 (now - at_created e) < lifetime tm.
#[global] Instance alive_dec tm now e : Decision (alive tm now e).
Proof. unfold alive. apply _. Defined.

Definition prune (now : Z) (tm : TransactionManager) : TransactionManager :=
  with_entries (filter (fun e => alive tm now e.2) (transactions tm)) tm.

Definition owned (o : Owner) (es : gmap Uuid ActiveTransaction) : Z :=
  Z.of_nat (size (filter (fun e => at_owner e.2 = o) es)).

(** The draws of an identifier, each of which may fail. *)
Fixpoint draw_identifier (draws : list (option bytes)) (es : gmap Uuid ActiveTransaction) : option Uuid :=
  match draws with
  | [] => None
  | None :: _ => None
  | Some bs :: draws =>
      let id := uuid_from_random bs in
      match es !! id with None => Some id | Some _ => draw_identifier draws es end
  end.

(** [begin]; the counter of engine transactions is threaded through. *)
Definition begin (now : Z) (draws : list (option bytes)) (o : Owner) (next_txn_id : Z) (tm : TransactionManager)
    : (TransactionError + Uuid) * TransactionManager * Z :=
  let tm := prune now tm in
  if (lifetime tm =? 0) || (max_total tm <=? Z.of_nat (size (transactions tm)))
     || (max_per_owner tm <=? owned o (transactions tm))
  then (inl Capacity, tm, next_txn_id)
  else match draw_identifier (take 8 draws) (transactions tm) with
       | None => (inl Identifier, tm, next_txn_id)
       | Some id =>
           let '(txn, next) := Transaction_new next_txn_id in
           (inr id, with_entries (<[id := mkActive o now txn]> (transactions tm)) tm, next)
       end.

(** The entry of an identifier, for its owner. *)
Definition find_owned (id : bytes) (o : Owner) (tm : TransactionManager) : option (Uuid * ActiveTransaction) :=
  match uuid_parse id with
  | None => None
  | Some u => match transactions tm !! u with
              | Some e => if decide (at_owner e = o) then Some (u, e) else None
              | None => None
              end
  end.

Definition with_transaction (now : Z) (id : bytes) (o : Owner) (change : Transaction -> Transaction)
    (tm : TransactionManager) : (TransactionError + unit) * TransactionManager :=
  let tm := prune now tm in
  match find_owned id o tm with
  | None => (inl NotFound, tm)
  | Some (u, e) =>
      (inr tt, with_entries (<[u := mkActive (at_owner e) (at_created e) (change (at_transaction e))]> (transactions tm)) tm)
  end.

Definition take_transaction (now : Z) (id : bytes) (o : Owner) (tm : TransactionManager)
    : (TransactionError + Transaction) * TransactionManager :=
  let tm := prune now tm in
  match find_owned id o tm with
  | None => (inl NotFound, tm)
  | Some (u, e) => (inr (at_transaction e), with_entries (delete u (transactions tm)) tm)
  end.

(** ** Handlers *)

Section handlers.
Context `{!Crc32, !Aead, !Postcard LogRecord, !Postcard LogRecordV0, !Postcard LogRecordV1}.
Context `{!BloomCrate} `{!SstStore} `{!Moka bytes bytes} `{!SerdeJson} `{!EngineEnv}.
Context (mode : Degradation.DegradationMode).

(** The state of the handlers beside the engine: the manager and the counter. *)
Definition TxnState : Type := TransactionManager * Z.

Definition begin_txn (now : Z) (draws : list (option bytes)) (rq : Request) (st : TxnState) : Response * TxnState :=
  match owner rq Write with
  | inl r => (r, st)
  | inr o =>
      let '(res, tm, next) := begin now draws o st.2 st.1 in
      (match res with
       | inl e => txn_error_response e
       | inr id => mkResponse 200 (JObject [(lit "txn_id", JText (uuid_text id))])
       end, (tm, next))
  end.

(** Staging: the checks both handlers make, then the change of the buffer. *)
Definition stage (now : Z) (p : Permission) (rq : Request) (id key : bytes) (change : Transaction -> Transaction)
    (st : TxnState) : Response * TxnState :=
  match owner rq p with
  | inl r => (r, st)
  | inr o =>
      if is_reserved key then (rejected, st)
      else if negb (Degradation.check_write_allowed mode) then (mkResponse 503 (error_json read_only_msg), st)
      else let '(res, tm) := with_transaction now id o change st.1 in
           (match res with
            | inl e => txn_error_response e
            | inr _ => mkResponse 200 status_ok_json
            end, (tm, st.2))
  end.
Definition txn_put (now : Z) (rq : Request) (id : bytes) (cf : option string) (key value : bytes) : TxnState -> Response * TxnState :=
  stage now Write rq id key (fun txn => txn_put_cf txn (default "default"%string cf) key value).
Definition txn_delete (now : Z) (rq : Request) (id : bytes) (cf : option string) (key : bytes) : TxnState -> Response * TxnState :=
  stage now Delete rq id key (fun txn => txn_delete_cf txn (default "default"%string cf) key).

Definition ended (id : bytes) : Response :=
  mkResponse 200 (JObject [(lit "status", JText (lit "ok")); (lit "txn_id", JText id)]).

Definition txn_commit_handler (now : Z) (rq : Request) (id : bytes) (st : TxnState)
    : M (Response * TxnState) := fun s =>
  match owner rq Write with
  | inl r => (Ok (r, st), s)
  | inr o =>
      match take_transaction now id o st.1 with
      | (inl e, tm) => (Ok (txn_error_response e, (tm, st.2)), s)
      | (inr txn, tm) =>
          match (txn_commit txn).1 s with
          | (Ok _, s) => (Ok (ended id, (tm, st.2)), s)
          | (Err _, s) => (Ok (mkResponse 500 (error_json (lit "commit failed")), (tm, st.2)), s)
          | (Panic, s) => (Panic, s)
          end
      end
  end.

Definition txn_rollback_handler (now : Z) (rq : Request) (id : bytes) (st : TxnState) : Response * TxnState :=
  match owner rq Write with
  | inl r => (r, st)
  | inr o =>
      match take_transaction now id o st.1 with
      | (inl e, tm) => (txn_error_response e, (tm, st.2))
      | (inr txn, tm) => (ended id, (tm, st.2))
      end
  end.
End handlers.

(** A refused request is not answered with success. *)
Lemma owner_refusal rq p r : owner rq p = inl r -> status r <> 200.
Proof.
  unfold owner. destruct (require_permission rq p) as [e|]; [intros [= <-]; by destruct e|].
  destruct (match auth_flag rq with Some b => negb b | None => false end); [done|].
  destruct (extract_token rq); [done|]. by intros [= <-].
Qed.

(** ** Histories of the manager *)

(** What a request may stage. *)
Inductive TxnChange := ChangePut (cf : string) (k v : bytes) | ChangeDelete (cf : string) (k : bytes).
Definition apply_change (t : Transaction) (c : TxnChange) : Transaction :=
  match c with
  | ChangePut cf k v => txn_put_cf t cf k v
  | ChangeDelete cf k => txn_delete_cf t cf k
  end.

(** The calls the handlers make, each at its time and for its owner. *)
Inductive TxnEvent :=
| Begun (now : Z) (draws : list (option bytes)) (o : Owner)
| Staged (now : Z) (id : bytes) (o : Owner) (c : TxnChange)
| Taken (now : Z) (id : bytes) (o : Owner).

Definition tm_step (st : TxnState) (ev : TxnEvent) : TxnState :=
  match ev with
  | Begun now draws o => let '(_, tm, next) := begin now draws o st.2 st.1 in (tm, next)
  | Staged now id o c => ((with_transaction now id o (fun t => apply_change t c) st.1).2, st.2)
  | Taken now id o => ((take_transaction now id o st.1).2, st.2)
  end.
Definition tm_run (st : TxnState) (h : list TxnEvent) : TxnState := foldl tm_step st h.

(** What the owner [o] staged under the identifier [u]. *)
Definition staged_by (u : Uuid) (o : Owner) (ev : TxnEvent) : option TxnChange :=
  match ev with
  | Staged _ id o' c => if decide (uuid_parse id = Some u /\ o' = o) then Some c else None
  | _ => None
  end.

(** The entry [e] is what its owner opened in the history and staged since. *)
Definition opened_by (st : TxnState) (h : list TxnEvent) (u : Uuid) (e : ActiveTransaction) : Prop :=
  exists h1 draws h2,
    h = h1 ++ Begun (at_created e) draws (at_owner e) :: h2 /\
    (begin (at_created e) draws (at_owner e) (tm_run st h1).2 (tm_run st h1).1).1.1 = inr u /\
    at_transaction e = foldl apply_change (Transaction_new (tm_run st h1).2).1 (omap (staged_by u (at_owner e)) h2).

(** The handlers do what the events say. *)
Lemma begin_txn_step now draws rq st :
  (begin_txn now draws rq st).2 =
  match owner rq Write with inl _ => st | inr o => tm_step st (Begun now draws o) end.
Proof. unfold begin_txn, tm_step. destruct (owner rq Write) as [r|o]; [done|]. by destruct (begin _ _ _ _ _) as [[??]?]. Qed.

Lemma stage_step mode now p rq id k c st :
  (stage mode now p rq id k (fun t => apply_change t c) st).2 = st \/
  exists o, owner rq p = inr o /\ is_reserved k = false /\
    (stage mode now p rq id k (fun t => apply_change t c) st).2 = tm_step st (Staged now id o c).
Proof.
  unfold stage. destruct (owner rq p) as [r|o]; [by left|]. destruct (is_reserved k) eqn:?; [by left|].
  destruct (negb _); [by left|]. right. exists o. unfold tm_step. by destruct (with_transaction _ _ _ _ _).
Qed.

Lemma rollback_step now rq id st :
  (txn_rollback_handler now rq id st).2 =
  match owner rq Write with inl _ => st | inr o => tm_step st (Taken now id o) end.
Proof.
  unfold txn_rollback_handler, tm_step. destruct (owner rq Write) as [r|o]; [done|].
  by destruct (take_transaction _ _ _ _) as [[?|?] ?].
Qed.

(** Pruning keeps the entries that are alive. *)
Lemma prune_lookup now tm u e :
  transactions (prune now tm) !! u = Some e <-> transactions tm !! u = Some e /\ alive tm now e.
Proof. unfold prune; cbn. by rewrite map_lookup_filter_Some. Qed.

Lemma find_owned_spec id o tm u e :
  find_owned id o tm = Some (u, e) <->
  uuid_parse id = Some u /\ transactions tm !! u = Some e /\ at_owner e = o.
Proof.
  unfold find_owned. destruct (uuid_parse id) as [u'|]; [|naive_solver].
  destruct (transactions tm !! u') as [e'|] eqn:Hl; [|naive_solver].
  case_decide; naive_solver.
Qed.

Lemma draw_identifier_fresh draws es u : draw_identifier draws es = Some u -> es !! u = None.
Proof.
  induction draws as [|[bs|] draws IH]; cbn; [done| |done].
  destruct (es !! uuid_from_random bs) eqn:Hl; [done|]. by intros [= <-].
Qed.

(** The outcomes of opening a transaction. *)
Lemma begin_outcome now draws o next tm res tm' next' :
  begin now draws o next tm = (res, tm', next') ->
  (exists err, res = inl err /\ tm' = prune now tm /\ next' = next) \/
  exists u, res = inr u /\
    tm' = with_entries (<[u := mkActive o now (Transaction_new next).1]> (transactions (prune now tm))) tm /\
    transactions (prune now tm) !! u = None /\
    Z.of_nat (size (transactions (prune now tm))) < max_total tm /\
    owned o (transactions (prune now tm)) < max_per_owner tm.
Proof.
  unfold begin. destruct (_ || _) eqn:Hfull; [intros [= <- <- <-]; left; by eexists|].
  apply orb_false_iff in Hfull as [[_ Htotal%Z.leb_gt]%orb_false_iff Howned%Z.leb_gt].
  destruct (draw_identifier _ _) as [u|] eqn:Hu; [|intros [= <- <- <-]; left; by eexists].
  intros [= <- <- <-]. right. exists u. apply draw_identifier_fresh in Hu. by repeat split.
Qed.

(** An event keeps an entry, changes it for its owner, or opens it. *)
Lemma tm_step_lookup st ev u e :
  transactions (tm_step st ev).1 !! u = Some e ->
  (exists e0, transactions st.1 !! u = Some e0 /\ at_created e = at_created e0 /\ at_owner e = at_owner e0 /\
     at_transaction e = foldl apply_change (at_transaction e0) (omap (staged_by u (at_owner e0)) [ev])) \/
  (exists draws, ev = Begun (at_created e) draws (at_owner e) /\
     (begin (at_created e) draws (at_owner e) st.2 st.1).1.1 = inr u /\
     at_transaction e = (Transaction_new st.2).1).
Proof.
  destruct ev as [now draws o|now id o c|now id o]; cbn.
  - destruct (begin now draws o st.2 st.1) as [[res tm'] next'] eqn:Hb.
    destruct (begin_outcome _ _ _ _ _ _ _ _ Hb) as [(err & -> & -> & ->)|(u' & -> & -> & Hfresh & _)]; cbn.
    + intros [Hl _]%prune_lookup. left. by exists e.
    + intros [[<- <-]|[_ [Hl _]%prune_lookup]]%lookup_insert_Some; [|left; by exists e].
      right. exists draws. cbn. by rewrite Hb.
  - unfold with_transaction. intros Hl. left. destruct (find_owned _ _ _) as [[u' e']|] eqn:Hf; cbn in Hl.
    + apply find_owned_spec in Hf as (Hp & [Hu' _]%prune_lookup & Ho).
      apply lookup_insert_Some in Hl as [[<- <-]|[Hne [Hl _]%prune_lookup]].
      * exists e'. cbn. by rewrite decide_True by done.
      * exists e. rewrite decide_False by (intros [? _]; congruence). done.
    + pose proof Hl as [Hl0 _]%prune_lookup. exists e. repeat split; [done|].
      rewrite decide_False; [done|]. intros [Hp Ho].
      by rewrite (proj2 (find_owned_spec id o _ u e)) in Hf.
  - unfold take_transaction. intros Hl. left. exists e.
    destruct (find_owned _ _ _) as [[u' e']|] eqn:Hf; cbn in Hl.
    + by apply lookup_delete_Some in Hl as [_ [Hl _]%prune_lookup].
    + by apply prune_lookup in Hl as [Hl _].
Qed.

Lemma tm_run_opened st h u e :
  transactions st.1 = ∅ -> transactions (tm_run st h).1 !! u = Some e -> opened_by st h u e.
Proof.
  intros Hempty. revert e. induction h as [|ev h IH] using rev_ind; intros e.
  { cbn. by rewrite Hempty, lookup_empty. }
  unfold tm_run. rewrite foldl_app. cbn [foldl].
  intros [(e0 & Hl & Hc & Ho & Ht)|(draws & -> & Hb & Ht)]%tm_step_lookup.
  - destruct (IH _ Hl) as (h1 & draws & h2 & -> & Hb & Ht0). exists h1, draws, (h2 ++ [ev]).
    rewrite Hc, Ho. repeat split; [by rewrite <-app_assoc|done|].
    by rewrite omap_app, foldl_app, <-Ht0.
  - exists h, draws, []. by repeat split.
Qed.

(** ** Capacity *)

Definition within_limits (tm : TransactionManager) : Prop :=
  Z.of_nat (size (transactions tm)) <= max_total tm /\
  forall o, owned o (transactions tm) <= max_per_owner tm.

Lemma owned_insert o u e es : es !! u = None ->
  owned o (<[u := e]> es) = owned o es + (if decide (at_owner e = o) then 1 else 0).
Proof.
  intros Hu. unfold owned. case_decide as Ho.
  - rewrite map_filter_insert_True by done. rewrite map_size_insert_None; [lia|].
    by apply map_lookup_filter_None_2; left.
  - rewrite map_filter_insert_False by done. rewrite delete_id by done. lia.
Qed.

Lemma owned_mono o es es' :
  (forall u e, es !! u = Some e -> exists e', es' !! u = Some e' /\ at_owner e' = at_owner e) -> owned o es <= owned o es'.
Proof.
  intros Hsub. unfold owned. rewrite <-!size_dom. apply inj_le, subseteq_size.
  intros u (e & [Hl Ho]%map_lookup_filter_Some)%elem_of_dom.
  apply elem_of_dom. destruct (Hsub _ _ Hl) as (e' & Hl' & Ho'). exists e'.
  apply map_lookup_filter_Some. cbn in *. by rewrite Ho'.
Qed.
Lemma size_mono (es es' : gmap Uuid ActiveTransaction) :
  (forall u e, es !! u = Some e -> exists e', es' !! u = Some e' /\ at_owner e' = at_owner e) ->
  Z.of_nat (size es) <= Z.of_nat (size es').
Proof.
  intros Hsub. rewrite <-!size_dom. apply inj_le, subseteq_size.
  intros u (e & Hl)%elem_of_dom. apply elem_of_dom. destruct (Hsub _ _ Hl) as (e' & Hl' & _). by exists e'.
Qed.

Lemma tm_step_limits st ev :
  lifetime (tm_step st ev).1 = lifetime st.1 /\ max_total (tm_step st ev).1 = max_total st.1 /\
  max_per_owner (tm_step st ev).1 = max_per_owner st.1.
Proof.
  destruct ev as [now draws o|now id o c|now id o]; cbn.
  - destruct (begin now draws o st.2 st.1) as [[res tm'] next'] eqn:Hb.
    by destruct (begin_outcome _ _ _ _ _ _ _ _ Hb) as [(err & -> & -> & ->)|(u' & -> & -> & _)].
  - unfold with_transaction. by destruct (find_owned _ _ _) as [[??]|].
  - unfold take_transaction. by destruct (find_owned _ _ _) as [[??]|].
Qed.

(** Fewer entries of the same owners stay within the limits. *)
Definition sub_entries (es es' : gmap Uuid ActiveTransaction) : Prop :=
  forall u e, es !! u = Some e -> exists e', es' !! u = Some e' /\ at_owner e' = at_owner e.
Lemma sub_within tm tm' :
  sub_entries (transactions tm') (transactions tm) -> max_total tm' = max_total tm ->
  max_per_owner tm' = max_per_owner tm -> within_limits tm -> within_limits tm'.
Proof.
  intros Hsub Ht Ho [Htotal Howned]. split; [rewrite Ht|intros o; rewrite Ho].
  - etrans; [by apply size_mono|done].
  - etrans; [by apply owned_mono|done].
Qed.

Lemma prune_within now tm : within_limits tm -> within_limits (prune now tm).
Proof. apply sub_within; [|done..]. intros u e [Hl _]%prune_lookup. by exists e. Qed.

Lemma tm_step_within st ev : within_limits st.1 -> within_limits (tm_step st ev).1.
Proof.
  intros Hin. destruct (tm_step_limits st ev) as (_ & Hmt & Hmo).
  destruct ev as [now draws o|now id o c|now id o].
  2,3: eapply sub_within; [|done..]; intros u e [(e0 & ? & _ & ? & _)|(? & [=] & _)]%tm_step_lookup; by exists e0.
  cbn. destruct (begin now draws o st.2 st.1) as [[res tm'] next'] eqn:Hb.
  destruct (begin_outcome _ _ _ _ _ _ _ _ Hb) as [(err & -> & -> & ->)|(u & -> & -> & Hfresh & Htotal & Howned)];
    cbn [fst]; [by apply prune_within|].
  destruct (prune_within now _ Hin) as [_ Hall]. split; cbn [transactions with_entries max_total max_per_owner].
  - rewrite map_size_insert_None by done. lia.
  - intros o'. rewrite owned_insert by done. cbn [at_owner]. specialize (Hall o').
    change (max_per_owner (prune now st.1)) with (max_per_owner st.1) in Hall.
    case_decide as Ho; [subst o'|]; lia.
Qed.

Lemma tm_run_within st h : within_limits st.1 -> within_limits (tm_run st h).1.
Proof. revert st. induction h as [|ev h IH]; intros st Hin; [done|]. by apply IH, tm_step_within. Qed.
Lemma tm_run_limits st h :
  lifetime (tm_run st h).1 = lifetime st.1 /\ max_total (tm_run st h).1 = max_total st.1 /\
  max_per_owner (tm_run st h).1 = max_per_owner st.1.
Proof.
  revert st. induction h as [|ev h IH]; intros st; [done|].
  destruct (IH (tm_step st ev)) as (? & ? & ?), (tm_step_limits st ev) as (? & ? & ?).
  change (tm_run st (ev :: h)) with (tm_run (tm_step st ev) h). repeat split; by etrans.
Qed.

(** C29: However requests arrive, the manager keeps at most the configured number of open
    transactions, in all and of every owner, and whatever it keeps was opened by its owner
    and holds that owner's writes only. *)
Theorem open_transactions_bounded life per_owner total next h o :
  0 <= per_owner -> 0 <= total ->
  let tm := (tm_run (with_limits life per_owner total, next) h).1 in
  Z.of_nat (size (transactions tm)) <= total /\ owned o (transactions tm) <= per_owner /\
  forall u e, transactions tm !! u = Some e -> opened_by (with_limits life per_owner total, next) h u e.
Proof.
  intros Ho Ht tm.
  destruct (tm_run_limits (with_limits life per_owner total, next) h) as (_ & Hmt & Hmo).
  destruct (tm_run_within (with_limits life per_owner total, next) h) as [Htotal Howned].
  { split; [done|]. intros o'. unfold owned. cbn. by rewrite map_filter_empty. }
  rewrite Hmt in Htotal. split; [done|]. split; [specialize (Howned o); by rewrite Hmo in Howned|].
  intros u e. by apply tm_run_opened.
Qed.

(** ** Commit *)

Section commit.
Context `{!Crc32, !Aead, !Postcard LogRecord, !Postcard LogRecordV0, !Postcard LogRecordV1}.
Context `{!BloomCrate} `{!SstStore} `{!SstStoreLaws} `{!Moka bytes bytes} `{!SerdeJson} `{!EngineEnv}.
Context (clock_mono : forall i, 0 <= clock i < clock (S i)).
Context (cf : string).
#[local] Instance all_resident : Residency := True.

(** Writes of the column family a table can hold. *)
Definition change_ok (c : TxnChange) : Prop :=
  match c with
  | ChangePut c k v => c = cf -> write_ok cf k (v, false)
  | ChangeDelete c k => c = cf -> write_ok cf k ([], true)
  end.
Definition event_ok (ev : TxnEvent) : Prop := match ev with Staged _ _ _ c => change_ok c | _ => True end.

Lemma changes_ok cs t :
  map_Forall (write_ok cf) (family_writes (txn_writes t) cf) -> Forall change_ok cs ->
  map_Forall (write_ok cf) (family_writes (txn_writes (foldl apply_change t cs)) cf).
Proof.
  revert t. induction cs as [|c cs IH]; intros t Ht Hcs; [done|]. apply Forall_cons in Hcs as [Hc Hcs].
  apply IH; [|done]. intros k w. rewrite family_writes_lookup.
  destruct c as [c k' v|c k']; cbn; intros [[[= Hcf <-] <-]|[_ Hl]]%lookup_insert_Some.
  1,3: by apply Hc. all: apply Ht; by rewrite family_writes_lookup.
Qed.

Lemma opened_writes_ok st h u e : Forall event_ok h -> opened_by st h u e ->
  map_Forall (write_ok cf) (family_writes (txn_writes (at_transaction e)) cf).
Proof.
  intros Hh (h1 & draws & h2 & -> & _ & ->). apply changes_ok.
  - intros k w. cbn. by rewrite family_writes_lookup, lookup_empty.
  - apply Forall_app in Hh as [_ [_ Hh]%Forall_cons]. clear -Hh.
    induction Hh as [|ev h2 Hev _ IH]; cbn; [constructor|].
    destruct ev as [| |]; cbn; [done| |done]. case_decide; [by constructor|done].
Qed.

(** C8: A commit answered with success was made by the owner of a transaction opened less than a
    lifetime ago, and the identifier is gone, so that no request can commit, change or roll back
    the transaction again.  If the writes leave the write buffers of their column families below
    the limit ([buffer_room]; values staged are not empty and fit a block), the commit wrote
    exactly what that owner staged, deletions included, over the map of the column family. *)
Theorem commit_writes_what_the_owner_staged life per_owner total next h now rq id s m body st' s' :
  Forall event_ok h -> refines cf s m ->
  txn_commit_handler now rq id (tm_run (with_limits life per_owner total, next) h) s
    = (Ok (mkResponse 200 body, st'), s') ->
  exists u e,
    owner rq Write = inr (at_owner e) /\ uuid_parse id = Some u /\
    opened_by (with_limits life per_owner total, next) h u e /\
    Z.max 0 (now - at_created e) < life /\
    (buffer_room s (txn_writes (at_transaction e)) ->
     refines cf s' (overlay (family_writes (txn_writes (at_transaction e)) cf) m)) /\
    forall later o, (take_transaction later id o st'.1).1 = inl NotFound.
Proof.
  intros Hh Href. unfold txn_commit_handler.
  destruct (owner rq Write) as [r|o] eqn:Ho.
  { intros [= -> <- <-]. by apply owner_refusal in Ho. }
  unfold take_transaction at 1. destruct (find_owned id o _) as [[u e]|] eqn:Hf; [|by intros [= ? _ _]].
  apply find_owned_spec in Hf as (Hid & Hl%prune_lookup & Hoe). destruct Hl as [Hl Halive].
  destruct ((txn_commit (at_transaction e)).1 s) as [[[]| |] s1] eqn:Hc; [|by intros [= ? _ _]|done].
  intros [= _ <- <-]. apply tm_run_opened in Hl as Hopen; [|done]. exists u, e. subst o. repeat split; try done.
  - unfold alive in Halive. by rewrite (proj1 (tm_run_limits _ _)) in Halive.
  - intros Hroom. eapply txn_commit_refines; [done..| |done|done]. by eapply opened_writes_ok.
  - intros later o. unfold take_transaction. destruct (find_owned id o _) as [[u' e']|] eqn:Hf; [|done].
    apply find_owned_spec in Hf as (Hid' & [Hl' _]%prune_lookup & _). cbn in Hl'.
    rewrite Hid in Hid'. injection Hid' as <-. by rewrite lookup_delete_eq in Hl'.
Qed.
End commit.

End manager.
