(* ===== verification/BulkIo.v ===== *)
(** * BulkIo: export and import of a column family ([src/src/infra/bulk_io.rs])

    An export reads the column family page by page and writes its entries as a JSON
    array or as CSV; an import parses such a text and writes its entries in
    batches.  The JSON and CSV crates are parameters, with what the formats promise:
    a text written from text entries is read back as those entries.  The writer is a
    buffer in memory; the calls of the progress callback are returned.

    [fuel] bounds the pages of an export: a page that is followed by another holds
    [page] entries, so that more than the number of entries is enough wherever the
    export ends at all. *)
From Stdlib Require Import ZArith Lia.
From stdpp Require Import base tactics numbers list gmap strings sorting.
From S2P Require Import Prelude Bytes SortedMap LogRecord Iterators.
From S2P Require Import MemTable Extern Encryption SstReader Wal Table.
From S2P Require Import VersionSet Utf8 Text Engine EngineSpec Paging.
Local Open Scope Z_scope.

Definition EXPORT_PAGE_SIZE : Z := 2000.
Definition IMPORT_BATCH_SIZE : Z := 500.

(** [key_after]: the last byte below 0xFF is incremented and those after it become
    zero; a zero is appended when there is none. *)
Definition key_after (key : bytes) : option bytes :=
  match increment_last (reverse key) with
  | Some r => Some (reverse r)
  | None => Some (replicate (length key) Byte.x00 ++ [Byte.x00])
  end.

(** [serde_json] as the export and the import use it: the text of a string; the elements of
    an array in the order they are read, and whether the array was read to its end; and the
    fields of an element. *)
Class JsonCrate := {
  JsonValue : Type;
  json_string : bytes -> bytes;
  json_elements : bytes -> list JsonValue * bool;
  json_pair : JsonValue -> option (bytes * bytes);
}.

(** The [csv] crate: the line of a record, the header of a text, and its records. *)
Class CsvCrate := {
  csv_line : list bytes -> bytes;
  csv_headers : bytes -> option (list bytes);
  csv_records : bytes -> list (option (list bytes));
}.

(** An element of the exported array. *)
Definition json_entry `{!JsonCrate} (e : bytes * bytes) : bytes :=
  lit "{" ++ [Byte.x22] ++ lit "key" ++ [Byte.x22] ++ lit ":" ++ json_string e.1 ++ lit ","
    ++ [Byte.x22] ++ lit "value" ++ [Byte.x22] ++ lit ":" ++ json_string e.2 ++ lit "}".

(** The array with separators between its elements. *)
Fixpoint json_tail `{!JsonCrate} (es : list (bytes * bytes)) : bytes :=
  match es with [] => [] | e :: es => lit "," ++ json_entry e ++ json_tail es end.
Definition json_array `{!JsonCrate} (es : list (bytes * bytes)) : bytes :=
  lit "[" ++ match es with [] => [] | e :: es => json_entry e ++ json_tail es end ++ lit "]".

Definition text_entry (e : bytes * bytes) : Prop := is_Some (from_utf8 e.1) /\ is_Some (from_utf8 e.2).

(** What the formats promise for entries that are text. *)
Class JsonLaws `{!JsonCrate} := {
  json_array_read es : Forall text_entry es ->
    exists vs, json_elements (json_array es) = (vs, true) /\ json_pair <$> vs = Some <$> es;
}.
Class CsvLaws `{!CsvCrate} := {
  csv_read header es : Forall text_entry es -> text_entry header ->
    let text := concat (csv_line <$> ((fun e => [e.1; e.2]) <$> header :: es)) in
    csv_headers text = Some [header.1; header.2] /\
    csv_records text = (fun e => Some [e.1; e.2]) <$> es;
}.

Section bulk.
Context `{!Crc32, !Aead, !Postcard LogRecord, !Postcard LogRecordV0, !Postcard LogRecordV1}.
Context `{!BloomCrate} `{!SstStore} `{!Moka bytes bytes} `{!SerdeJson} `{!EngineEnv}.
Context `{!JsonCrate, !CsvCrate}.
Context (fuel : nat).

(** ** Export *)

(** The callback on the entries of a page, until it answers [false]. *)
Fixpoint visit {S} (f : S -> bytes -> bytes -> outcome (S * bool)) (results : list (bytes * bytes)) (a : S)
    : outcome (S * bool) :=
  match results with
  | [] => Ok (a, true)
  | (key, value) :: results =>
      match f a key value with
      | Ok (a, true) => visit f results a
      | r => r
      end
  end.

Fixpoint pages {S} (page : Z) (n : nat) (cf : string) (f : S -> bytes -> bytes -> outcome (S * bool))
    (lower : option bytes) (a : S) : M S :=
  match n with
  | O => lift Panic
  | Datatypes.S n =>
      results ← scan_cf cf lower None (Some page);
      match results with
      | [] => mret a
      | _ =>
          r ← lift (visit f results a);
          let '(a, continue) := r : S * bool in
          if negb continue then mret a
          else if len results <? page then mret a
          else match last results with
               | Some (last_key, _) =>
                   match key_after last_key with
                   | Some next => pages page n cf f (Some next) a
                   | None => mret a
                   end
               | None => mret a
               end
      end
  end.
Definition for_each_kv {S} (cf : string) (f : S -> bytes -> bytes -> outcome (S * bool)) (a : S) : M S :=
  pages EXPORT_PAGE_SIZE fuel cf f None a.

(** The variables of an export: the output, whether nothing was written yet, the count,
    and the calls of the callback, if there is one. *)
Record Export := mkExport {
  output : bytes;
  first : bool;
  count : Z;
  calls : list (Z * Z);
}.
Definition report (progress : bool) (done total : Z) (calls : list (Z * Z)) : list (Z * Z) :=
  if progress then calls ++ [(done, total)] else calls.
Definition counted (progress : bool) (text : bytes) (a : Export) : Export :=
  let count := as_u64 (count a + 1) in
  mkExport text false count
    (if count mod EXPORT_PAGE_SIZE =? 0 then report progress count 0 (calls a) else calls a).

Definition export_json_entry (progress : bool) (a : Export) (key value : bytes) : outcome (Export * bool) :=
  let sep := if first a then [] else lit "," in
  Ok (counted progress (output a ++ sep ++ json_entry (from_utf8_lossy key, from_utf8_lossy value)) a, true).
Definition export_json (cf : option string) (progress : bool) : M (bytes * list (Z * Z)) :=
  let cf := default "default"%string cf in
  a ← for_each_kv cf (export_json_entry progress) (mkExport (lit "[") true 0 []);
  mret (output a ++ lit "]", report progress (count a) (count a) (calls a)).

Definition export_csv_entry (progress : bool) (a : Export) (key value : bytes) : outcome (Export * bool) :=
  Ok (counted progress (output a ++ csv_line [from_utf8_lossy key; from_utf8_lossy value]) a, true).
Definition export_csv (cf : option string) (progress : bool) : M (bytes * list (Z * Z)) :=
  let cf := default "default"%string cf in
  a ← for_each_kv cf (export_csv_entry progress) (mkExport (csv_line [lit "key"; lit "value"]) true 0 []);
  mret (output a, report progress (count a) (count a) (calls a)).

(** ** Import *)

Record Import := mkImport {
  batch : list (bytes * bytes);
  imported : Z;
  reports : list (Z * Z);
}.

(** A pair joins the batch, which is written when it is full. *)
Definition push_pair (cf : string) (progress : bool) (e : bytes * bytes) (a : Import) : M Import :=
  let b := batch a ++ [e] in
  if IMPORT_BATCH_SIZE <=? len b then
    set_batch_cf cf b;;
    let count := as_u64 (imported a + len b) in
    mret (mkImport [] count (report progress count 0 (reports a)))
  else mret (mkImport b (imported a) (reports a)).

(** What remains is written at the end. *)
Definition finish_import (cf : string) (progress : bool) (a : Import) : M (list (Z * Z)) :=
  count ← match batch a with
          | [] => mret (imported a)
          | b => set_batch_cf cf b;; mret (as_u64 (imported a + len b))
          end;
  mret (report progress count count (reports a)).

(** [de::Error::custom] and [LsmError::JsonError]: an error of the callback becomes an
    error of the parser. *)
Definition as_json_error {A} (m : M A) : M A := fun s =>
  match m s with (Err _, s) => (Err JsonError, s) | r => r end.
Fixpoint stream_elements (cf : string) (progress : bool) (vs : list JsonValue) (a : Import) : M Import :=
  match vs with
  | [] => mret a
  | v :: vs =>
      a ← match json_pair v with
          | None => fail InvalidArgument
          | Some e => push_pair cf progress e a
          end;
      stream_elements cf progress vs a
  end.
Definition stream_json_array (cf : string) (progress : bool) (text : bytes) (a : Import) : M Import :=
  let '(vs, ended) := json_elements text in
  a ← as_json_error (stream_elements cf progress vs a);
  if ended : bool then mret a else fail JsonError.
Definition import_json (text : bytes) (cf : option string) (progress : bool) : M (list (Z * Z)) :=
  let cf := default "default"%string cf in
  a ← stream_json_array cf progress text (mkImport [] 0 []);
  finish_import cf progress a.

Definition eq_ignore_ascii_case (a b : bytes) : bool :=
  bool_decide (ascii_lower <$> a = ascii_lower <$> b).
Fixpoint position (name : bytes) (headers : list bytes) : option nat :=
  match headers with
  | [] => None
  | h :: headers => if eq_ignore_ascii_case h name then Some 0%nat else Datatypes.S <$> position name headers
  end.
Fixpoint stream_records (cf : string) (progress : bool) (key_idx val_idx : nat)
    (records : list (option (list bytes))) (a : Import) : M Import :=
  match records with
  | [] => mret a
  | None :: _ => fail InvalidArgument
  | Some record :: records =>
      match record !! key_idx with
      | None => fail InvalidArgument
      | Some key =>
          match record !! val_idx with
          | None => fail InvalidArgument
          | Some value =>
              a ← push_pair cf progress (key, value) a;
              stream_records cf progress key_idx val_idx records a
          end
      end
  end.
Definition import_csv (text : bytes) (cf : option string) (progress : bool) : M (list (Z * Z)) :=
  let cf := default "default"%string cf in
  match csv_headers text with
  | None => fail InvalidArgument
  | Some headers =>
      match position (lit "key") headers with
      | None => fail InvalidArgument
      | Some key_idx =>
          match position (lit "value") headers with
          | None => fail InvalidArgument
          | Some val_idx =>
              a ← stream_records cf progress key_idx val_idx (csv_records text) (mkImport [] 0 []);
              finish_import cf progress a
          end
      end
  end.

(** ** The bound of the next page *)

(** No key of the map extends another, as keys of one width. *)
Definition prefix_free (m : gmap bytes bytes) : Prop :=
  forall k k', k ∈ dom m -> k' ∈ dom m -> starts_with k' k = true -> k' = k.

Lemma key_after_text k : Byte.xff ∉ k ->
  exists b, key_after k = Some b /\ bytes_lt k b /\
    forall k', bytes_lt k k' -> starts_with k' k = false -> bytes_le b k'.
Proof.
  intros Hff. destruct k as [|c k]; [exists [Byte.x00]; split_and!; [done..|by intros [|??]]|].
  assert (key_after (c :: k) = prefix_end (c :: k)) as Heq by done.
  pose proof (prefix_range (c :: k) (c :: k) Hff) as Hself.
  rewrite (proj2 (starts_with_spec _ _)) in Hself by (exists []; by rewrite app_nil_r).
  unfold in_range in Hself. apply andb_true_iff in Hself as [_ Hself].
  destruct (prefix_end (c :: k)) as [b|] eqn:Hb; [|by unfold prefix_end in Hb; destruct (increment_last _)].
  exists b. split; [done|]. split; [done|]. intros k' Hlt Hno.
  pose proof (prefix_range (c :: k) k' Hff) as Hr. rewrite Hno, Hb in Hr. unfold in_range in Hr.
  apply andb_false_iff in Hr as [Hr|Hr]; bytes_prop; bytes_order.
Qed.

Lemma visit_all {S} (f : S -> bytes -> bytes -> outcome (S * bool)) g rs a :
  (forall a k v, f a k v = Ok (g a (k, v), true)) -> visit f rs a = Ok (foldl g a rs, true).
Proof. intros Hf. revert a. induction rs as [|[k v] rs IH]; intros a; cbn; [done|]. by rewrite Hf. Qed.

Context `{!SstStoreLaws} {R : Residency} (clock_mono : forall i, 0 <= clock i < clock (S i)).

(** The pages visit every entry of the column family once, in key order. *)
Lemma pages_refines {S} (f : S -> bytes -> bytes -> outcome (S * bool)) g page n cf s m lower a :
  refines cf s m -> 0 < page -> (forall a k v, f a k v = Ok (g a (k, v), true)) ->
  prefix_free m -> map_Forall (fun k _ => Byte.xff ∉ k) m -> (length (rows m lower None) < n)%nat ->
  exists s', pages page n cf f lower a s = (Ok (foldl g a (rows m lower None)), s') /\ refines cf s' m.
Proof.
  intros Href Hpage Hf Hfree Hff. revert s lower a Href.
  induction n as [|n IH]; intros s lower a Href Hn; [lia|]. cbn [pages].
  destruct (scan_refines clock_mono cf s m lower None (Some page) Href) as (s1 & Hs & Href1); [lia|].
  rewrite (bind_Ok _ _ _ _ _ Hs). clear Hs. fold (rows m lower None).
  change (default MAX_SCAN_LIMIT (Some page)) with page.
  set (rs := rows m lower None) in *. set (w := Z.to_nat page).
  destruct (take w rs) as [|e results] eqn:Ht.
  { exists s1. split; [|done]. destruct rs as [|e rs']; [done|]. apply (f_equal length) in Ht.
    rewrite length_take in Ht. cbn in Ht. lia. }
  rewrite <- Ht. clear e results Ht. unfold mbind at 1, M_bind, lift. rewrite (visit_all f g) by done. cbn [negb].
  unfold len. rewrite length_take.
  destruct (Z.ltb_spec (Z.of_nat (w `min` length rs)) page) as [Hend|Hfull].
  { exists s1. split; [|done]. by rewrite take_ge by lia. }
  destruct (page_split rs w) as (l & k & v & -> & Hsplit); [lia..|].
  assert (m !! k = Some v) as Hk by (apply (elem_of_rows m lower None); fold rs; rewrite Hsplit; set_solver).
  destruct (key_after_text k (Hff _ _ Hk)) as (b & -> & Hkb & Hnext).
  assert (rows m (Some b) None = drop w rs) as Hafter.
  { eapply rows_after; [done|done|]. intros [k' v'] Hin.
    assert (m !! k' = Some v') as Hk' by (apply (elem_of_rows m lower None); fold rs; rewrite Hsplit; set_solver).
    pose proof (rows_sorted m lower None) as Hsort. fold rs in Hsort. rewrite Hsplit in Hsort.
    apply key_sorted_app in Hsort as (_ & [Hlt _]%key_sorted_cons & _).
    assert (bytes_lt k k') as Hkk by (by eapply Hlt). apply Hnext; [done|].
    destruct (starts_with k' k) eqn:Hst; [|done]. exfalso.
    apply Hfree in Hst as ->; [by apply bytes_lt_irrefl in Hkk|by apply elem_of_dom..]. }
  destruct (IH s1 (Some b) (foldl g a (take w rs)) Href1) as (s2 & Hp & Href2).
  { rewrite Hafter, length_drop. lia. }
  exists s2. split; [|done]. by rewrite Hp, Hafter, <- foldl_app, take_drop.
Qed.

(** ** What an export writes *)

Definition exportable (m : gmap bytes bytes) : Prop :=
  prefix_free m /\ map_Forall (fun k v => text_entry (k, v)) m.

Lemma exportable_no_ff m : exportable m -> map_Forall (fun k _ => Byte.xff ∉ k) m.
Proof.
  intros [_ Htext] k v Hl. destruct (Htext _ _ Hl) as [[t Ht] _]. cbn in Ht. unfold from_utf8 in Ht.
  destruct (utf8_loop _ _) eqn:Hu; [|done]. by eapply utf8_loop_no_ff.
Qed.
Lemma exportable_entries m : exportable m -> Forall text_entry (sorted_entries m).
Proof. intros [_ Htext]. apply Forall_forall. intros [k v] Hin%elem_of_sorted_entries. by apply Htext. Qed.

Lemma text_entry_lossy e : text_entry e -> (from_utf8_lossy e.1, from_utf8_lossy e.2) = e.
Proof. intros [Hk Hv]. rewrite !text_lossy by done. by destruct e. Qed.

(** The output after some entries of a JSON export. *)
Definition json_step progress (a : Export) (e : bytes * bytes) : Export :=
  counted progress (output a ++ (if first a then [] else lit ",")
                    ++ json_entry (from_utf8_lossy e.1, from_utf8_lossy e.2)) a.
Definition csv_step progress (a : Export) (e : bytes * bytes) : Export :=
  counted progress (output a ++ csv_line [from_utf8_lossy e.1; from_utf8_lossy e.2]) a.

Lemma json_steps_tail progress es a : Forall text_entry es -> first a = false ->
  output (foldl (json_step progress) a es) = output a ++ json_tail es.
Proof.
  intros Hes. revert a. induction Hes as [|e es He _ IH]; intros a Hf; cbn [foldl json_tail]; [by rewrite app_nil_r|].
  rewrite IH by done. unfold json_step. cbn [output counted]. rewrite Hf, text_entry_lossy by done.
  by rewrite <- !(assoc_L app).
Qed.
Lemma json_steps progress es calls : Forall text_entry es ->
  output (foldl (json_step progress) (mkExport (lit "[") true 0 calls) es) ++ lit "]" = json_array es.
Proof.
  intros Hes. unfold json_array. destruct Hes as [|e es He Hes]; [done|]. cbn [foldl].
  rewrite json_steps_tail by done. unfold json_step. cbn [output counted first].
  rewrite text_entry_lossy by done. cbn [app]. by rewrite <- !(assoc_L app).
Qed.
Lemma csv_steps progress es a : Forall text_entry es ->
  output (foldl (csv_step progress) a es) = output a ++ concat (csv_line <$> ((fun e => [e.1; e.2]) <$> es)).
Proof.
  intros Hes. revert a. induction Hes as [|e es He _ IH]; intros a; cbn [foldl fmap list_fmap concat]; [by rewrite app_nil_r|].
  rewrite IH by done. unfold csv_step. cbn [output counted]. rewrite !text_lossy by apply He. by rewrite <- (assoc_L app).
Qed.

Lemma for_each_refines {S} (f : S -> bytes -> bytes -> outcome (S * bool)) g cf s m a :
  refines cf s m -> (forall a k v, f a k v = Ok (g a (k, v), true)) -> exportable m -> (size m < fuel)%nat ->
  exists s', for_each_kv cf f a s = (Ok (foldl g a (sorted_entries m)), s') /\ refines cf s' m.
Proof.
  intros Href Hf Hm Hfuel. unfold for_each_kv. rewrite <- (rows_all m).
  apply pages_refines; try done; [apply Hm|by apply exportable_no_ff|].
  by eapply Nat.le_lt_trans; [apply rows_length|].
Qed.

Lemma export_json_refines cf progress s m :
  refines (default "default"%string cf) s m -> exportable m -> (size m < fuel)%nat ->
  exists reported s', export_json cf progress s = (Ok (json_array (sorted_entries m), reported), s') /\
    refines (default "default"%string cf) s' m.
Proof.
  intros Href Hm Hfuel. unfold export_json.
  destruct (for_each_refines (export_json_entry progress) (json_step progress) _ s m
              (mkExport (lit "[") true 0 []) Href) as (s' & E & Href'); [done..|].
  rewrite (bind_Ok _ _ _ _ _ E). eexists _, s'. split; [|done]. unfold mret, M_ret.
  by rewrite json_steps by (by apply exportable_entries).
Qed.

Lemma export_csv_refines cf progress s m :
  refines (default "default"%string cf) s m -> exportable m -> (size m < fuel)%nat ->
  exists reported s', export_csv cf progress s =
    (Ok (concat (csv_line <$> ((fun e => [e.1; e.2]) <$> (lit "key", lit "value") :: sorted_entries m)), reported), s') /\
    refines (default "default"%string cf) s' m.
Proof.
  intros Href Hm Hfuel. unfold export_csv.
  destruct (for_each_refines (export_csv_entry progress) (csv_step progress) _ s m
              (mkExport (csv_line [lit "key"; lit "value"]) true 0 []) Href) as (s' & E & Href'); [done..|].
  rewrite (bind_Ok _ _ _ _ _ E). eexists _, s'. split; [|done]. unfold mret, M_ret.
  by rewrite csv_steps by (by apply exportable_entries).
Qed.

(** ** What an import writes *)

Definition inserted (m : gmap bytes bytes) (es : list (bytes * bytes)) : gmap bytes bytes :=
  foldl (fun m e => <[e.1 := e.2]> m) m es.

Lemma inserted_map es m : NoDup es.*1 -> inserted m es = list_to_map es ∪ m.
Proof.
  revert m. induction es as [|[k v] es IH]; intros m; cbn [fmap list_fmap].
  { intros _. by rewrite list_to_map_nil, (left_id_L ∅ (∪)). }
  intros [Hk Hes]%NoDup_cons. unfold inserted. cbn [foldl]. fold (inserted (<[k := v]> m) es). rewrite IH by done.
  rewrite list_to_map_cons, <- insert_union_l, insert_union_r; [done|]. by apply not_elem_of_list_to_map.
Qed.
Lemma inserted_entries m m' : inserted m' (sorted_entries m) = m ∪ m'.
Proof.
  rewrite inserted_map by (rewrite sorted_entries_Permutation; apply NoDup_fst_map_to_list). f_equal.
  rewrite <- (list_to_map_to_list m) at 2.
  apply list_to_map_proper; [|apply sorted_entries_Permutation].
  rewrite sorted_entries_Permutation. apply NoDup_fst_map_to_list.
Qed.

(** Entries a batch can hold. *)
Definition importable (cf : string) (e : bytes * bytes) : Prop :=
  user_key e.1 = true /\ e.2 <> [] /\ fits cf e.1 e.2.

(** The pairs of a text, one after the other. *)
Fixpoint push_pairs (cf : string) (progress : bool) (es : list (bytes * bytes)) (a : Import) : M Import :=
  match es with
  | [] => mret a
  | e :: es => a ← push_pair cf progress e a; push_pairs cf progress es a
  end.

Lemma stream_elements_pairs cf progress vs es a s :
  json_pair <$> vs = Some <$> es -> stream_elements cf progress vs a s = push_pairs cf progress es a s.
Proof.
  revert es a s. induction vs as [|v vs IH]; intros [|e es] a s Heq; try done.
  injection Heq as Hv Hvs. cbn [stream_elements push_pairs].
  rewrite Hv. unfold mbind, M_bind. destruct (push_pair cf progress e a s) as [[a'| |] s']; [|done..]. by apply IH.
Qed.
Lemma stream_records_pairs cf progress es a s :
  stream_records cf progress 0 1 ((fun e => Some [e.1; e.2]) <$> es) a s = push_pairs cf progress es a s.
Proof.
  revert a s. induction es as [|[k v] es IH]; intros a s; [done|]. cbn.
  unfold mbind, M_bind. destruct (push_pair cf progress (k, v) a s) as [[a'| |] s']; [|done..]. by apply IH.
Qed.

Lemma push_pair_refines cf progress e a s m a' s' :
  refines cf s m -> Forall (importable cf) (batch a ++ [e]) -> push_pair cf progress e a s = (Ok a', s') ->
  exists m', refines cf s' m' /\ Forall (importable cf) (batch a') /\
    inserted m' (batch a') = inserted m (batch a ++ [e]).
Proof.
  intros Href Hall. unfold push_pair. destruct (_ <=? _); [|intros [= <- <-]; by exists m].
  intros ([] & s1 & Hb & Hr)%bind_Ok_inv. injection Hr as <- <-.
  apply (set_batch_refines clock_mono) with (m := m) in Hb; [|done..].
  eexists. split; [done|]. by split; [constructor|].
Qed.
Lemma push_pairs_refines cf progress es a s m a' s' :
  refines cf s m -> Forall (importable cf) (batch a ++ es) -> push_pairs cf progress es a s = (Ok a', s') ->
  exists m', refines cf s' m' /\ Forall (importable cf) (batch a') /\
    inserted m' (batch a') = inserted m (batch a ++ es).
Proof.
  revert a s m. induction es as [|e es IH]; intros a s m Href Hall; cbn [push_pairs].
  { intros [= <- <-]. exists m. by rewrite app_nil_r in *. }
  intros (a1 & s1 & Hp & Hr)%bind_Ok_inv. rewrite (app_assoc _ [e] es : _ ++ e :: es = _) in Hall |- *.
  apply Forall_app in Hall as [He Hes].
  destruct (push_pair_refines _ _ _ _ _ _ _ _ Href He Hp) as (m1 & Href1 & Hb1 & Heq1).
  destruct (IH _ _ _ Href1 (Forall_app_2 _ _ _ Hb1 Hes) Hr) as (m2 & Href2 & Hb2 & Heq2).
  exists m2. split; [done|]. split; [done|]. rewrite Heq2. unfold inserted in *. by rewrite foldl_app, Heq1, <- foldl_app.
Qed.

Lemma import_pairs_refines cf progress es s m r s' :
  refines cf s m -> Forall (importable cf) es ->
  (push_pairs cf progress es (mkImport [] 0 []) ≫= finish_import cf progress) s = (Ok r, s') ->
  refines cf s' (inserted m es).
Proof.
  intros Href Hall (a & s1 & Hp & Hf)%bind_Ok_inv.
  destruct (push_pairs_refines cf progress es (mkImport [] 0 []) s m a s1 Href Hall Hp) as (m1 & Href1 & Hb1 & Heq1).
  cbn [batch app] in Heq1. rewrite <- Heq1. unfold finish_import in Hf.
  apply bind_Ok_inv in Hf as (count & s2 & Hc & Hr). injection Hr as _ <-.
  destruct (batch a) as [|e b] eqn:Hb; [injection Hc as _ <-; done|].
  apply bind_Ok_inv in Hc as ([] & s3 & Hset & Hc). injection Hc as _ <-.
  by eapply (set_batch_refines clock_mono).
Qed.

(** ** Round trips *)

Lemma as_json_error_Ok {A} (m : M A) s a s' : as_json_error m s = (Ok a, s') -> m s = (Ok a, s').
Proof. unfold as_json_error. by destruct (m s) as [[?| |] ?]. Qed.

(** C18: A JSON export of a column family whose entries are text and whose keys do not extend
    one another ends, leaves the column family as it was and writes the array of its entries,
    each once, in key order; and the import of that text, when it succeeds, adds the entries to
    the column family it is directed to, replacing those under the same keys and no others. *)
Theorem json_export_import `{!JsonLaws} from to progress s m s2 m2 :
  refines (default "default"%string from) s m -> exportable m -> (size m < fuel)%nat ->
  refines (default "default"%string to) s2 m2 ->
  map_Forall (fun k v => importable (default "default"%string to) (k, v)) m ->
  exists text reported s', export_json from progress s = (Ok (text, reported), s') /\
    refines (default "default"%string from) s' m /\ text = json_array (sorted_entries m) /\
    forall reported' s2', import_json text to progress s2 = (Ok reported', s2') ->
      refines (default "default"%string to) s2' (m ∪ m2).
Proof.
  intros Href Hm Hfuel Href2 Himp.
  destruct (export_json_refines from progress s m Href Hm Hfuel) as (reported & s' & E & Href').
  eexists _, _, s'. split; [done|]. split; [done|]. split; [done|]. intros reported' s2' Hi. unfold import_json in Hi.
  apply bind_Ok_inv in Hi as (a & s3 & Hp & Hf). unfold stream_json_array in Hp.
  destruct (json_array_read _ (exportable_entries _ Hm)) as (vs & Hvs & Hpairs). rewrite Hvs in Hp.
  apply bind_Ok_inv in Hp as (a' & s4 & Hp%as_json_error_Ok & Hr). injection Hr as <- <-.
  rewrite (stream_elements_pairs _ _ _ _ _ _ Hpairs) in Hp.
  rewrite <- inserted_entries. eapply import_pairs_refines; [done| |by rewrite (bind_Ok _ _ _ _ _ Hp)].
  apply Forall_forall. intros [k v] Hin%elem_of_sorted_entries. by apply Himp.
Qed.

(** The same for CSV, whose columns are found by their names. *)
Theorem csv_export_import `{!CsvLaws} from to progress s m s2 m2 :
  refines (default "default"%string from) s m -> exportable m -> (size m < fuel)%nat ->
  refines (default "default"%string to) s2 m2 ->
  map_Forall (fun k v => importable (default "default"%string to) (k, v)) m ->
  exists text reported s', export_csv from progress s = (Ok (text, reported), s') /\
    refines (default "default"%string from) s' m /\
    forall reported' s2', import_csv text to progress s2 = (Ok reported', s2') ->
      refines (default "default"%string to) s2' (m ∪ m2).
Proof.
  intros Href Hm Hfuel Href2 Himp.
  destruct (export_csv_refines from progress s m Href Hm Hfuel) as (reported & s' & E & Href').
  eexists _, _, s'. split; [done|]. split; [done|]. intros reported' s2' Hi. unfold import_csv in Hi.
  destruct (csv_read (lit "key", lit "value") _ (exportable_entries _ Hm)) as [Hh Hrec]; [by split; eexists|].
  rewrite Hh, Hrec in Hi. change (position (lit "key") _) with (Some 0%nat) in Hi.
  change (position (lit "value") _) with (Some 1%nat) in Hi. cbv beta iota in Hi.
  apply bind_Ok_inv in Hi as (a & s3 & Hp & Hf). rewrite stream_records_pairs in Hp.
  rewrite <- inserted_entries. eapply import_pairs_refines; [done| |by rewrite (bind_Ok _ _ _ _ _ Hp)].
  apply Forall_forall. intros [k v] Hin%elem_of_sorted_entries. by apply Himp.
Qed.

(** ** Exports that do not end *)

Lemma key_after_ff w : key_after (replicate w Byte.xff) = Some (replicate w Byte.x00 ++ [Byte.x00]).
Proof.
  unfold key_after. rewrite reverse_replicate, length_replicate.
  assert (increment_last (replicate w Byte.xff) = None) as ->; [|done].
  induction w as [|w IH]; cbn; [done|]. by rewrite IH.
Qed.

(** When the entries fill a page and the last key consists of bytes 0xFF, the bound of the
    next page lies below every key that is not a shorter run of zeros: the export starts over
    and never ends. *)
Theorem export_starts_over {S} (f : S -> bytes -> bytes -> outcome (S * bool)) g page n cf s m w v lower a :
  refines cf s m -> 0 < page -> (forall a k v, f a k v = Ok (g a (k, v), true)) ->
  Z.of_nat (size m) = page -> last (sorted_entries m) = Some (replicate w Byte.xff, v) ->
  (forall k, k ∈ dom m -> bytes_le (replicate w Byte.x00 ++ [Byte.x00]) k) ->
  lower = None \/ lower = Some (replicate w Byte.x00 ++ [Byte.x00]) ->
  (pages page n cf f lower a s).1 = Panic.
Proof.
  intros Href Hpage Hf Hsize Hlast Hlow. revert s lower a Href.
  induction n as [|n IH]; intros s lower a Href Hl; [done|]. cbn [pages].
  assert (rows m lower None = sorted_entries m) as Hrows.
  { destruct Hl as [-> | ->]; [apply rows_all|]. apply filter_all. intros [k v'] Hin%elem_of_sorted_entries.
    unfold in_range. rewrite andb_true_r. by apply Hlow, elem_of_dom. }
  destruct (scan_refines clock_mono cf s m lower None (Some page) Href) as (s1 & Hs & Href1); [lia|].
  rewrite (bind_Ok _ _ _ _ _ Hs). clear Hs. fold (rows m lower None). rewrite Hrows.
  assert (length (sorted_entries m) = Z.to_nat page) as Hlen.
  { rewrite sorted_entries_Permutation, length_map_to_list. lia. }
  change (default MAX_SCAN_LIMIT (Some page)) with page. rewrite take_ge by lia.
  destruct (sorted_entries m) as [|e es] eqn:Hes; [done|]. rewrite <- Hes in *.
  unfold mbind at 1, M_bind, lift. rewrite (visit_all f g) by done. cbn [negb]. unfold len. rewrite Hlen.
  rewrite (proj2 (Z.ltb_ge _ _)) by lia. rewrite Hlast, key_after_ff. by apply IH; [|right].
Qed.

End bulk.
