(* ===== verification/Sync.v ===== *)
(** * Sync: real-time synchronisation of clients ([src/src/api/sync.rs])

    Clients push changes over long-lived connections.  Every message is checked
    again against the token and the access rules; a change that wins by its
    timestamp is written to the engine, remembered in a last-writer-wins map and
    sent to the other clients.  The state is the manager (channels and map) beside
    the engine; tokens and access rules are those at the time of the message.  The
    JSON of the messages is a parameter.

    A connection is what its task does with one message: the text it answers, and
    the states after it.  A channel is its number and whether it is still open; what
    is sent to it is kept in its queue. *)
From Stdlib Require Import ZArith Lia.
From stdpp Require Import base tactics numbers list gmap strings sorting.
From S2P Require Import Prelude Bytes SortedMap LogRecord Iterators.
From S2P Require Import MemTable Extern Encryption SstReader Wal Table.
From S2P Require Import VersionSet Utf8 Text Engine EngineSpec EngineQueries Paging.
From S2P Require Import Crdt AccessControl CircuitBreaker Kv Keyspace Auth Api ApiSpec.
Local Open Scope Z_scope.

Record SyncChange := mkSyncChange {
  sc_key : bytes;
  sc_value : bytes;
  sc_timestamp : Z;
  sc_device_id : bytes;
}.

Inductive ClientMessage :=
| ClientPush (changes : list SyncChange) (last_ack : Z)
| ClientAck (ack_timestamp : Z)
| Subscribe (note_path : bytes).

Inductive ServerMessage :=
| ServerAck (ack_timestamp : Z) (changes : list SyncChange)
| ServerPush (changes : list SyncChange)
| ServerError (message : bytes).

(** [serde_json] on the messages of the protocol. *)
Class SyncJson := {
  server_text : ServerMessage -> bytes;
  server_parse : bytes -> option ServerMessage;
  client_parse : bytes -> option ClientMessage;
  server_roundtrip m : server_parse (server_text m) = Some m;
}.

(** ** The manager *)

Record Channel := mkChannel {
  ch_id : nat;
  ch_open : bool;
  ch_queue : list bytes;
}.
Record SyncManager := mkSyncManager {
  clients : list Channel;
  crdt : Lww.CrdtEngine;
}.

Definition SyncManager_new : SyncManager := mkSyncManager [] Lww.new.
Definition register_client (tx : Channel) (self : SyncManager) : SyncManager :=
  mkSyncManager (clients self ++ [tx]) (crdt self).
Definition remove_client (id : nat) (self : SyncManager) : SyncManager :=
  mkSyncManager (filter (fun c => ch_id c <> id) (clients self)) (crdt self).

(** [UnboundedSender::send]. *)
Definition send (msg : bytes) (c : Channel) : option Channel :=
  if ch_open c then Some (mkChannel (ch_id c) true (ch_queue c ++ [msg])) else None.

Section sync.
Context `{!Crc32, !Aead, !Postcard LogRecord, !Postcard LogRecordV0, !Postcard LogRecordV1}.
Context `{!BloomCrate} `{!SstStore} `{!Moka bytes bytes} `{!SerdeJson} `{!EngineEnv}.
Context `{!SyncJson, !AuthEnv}.

(** Channels that cannot be sent to are dropped. *)
Definition broadcast (change : SyncChange) (self : SyncManager) : SyncManager :=
  let msg := server_text (ServerPush [change]) in
  mkSyncManager (omap (send msg) (clients self)) (crdt self).

(** A change that loses is ignored; a failed write leaves the map as it was. *)
Definition apply_change (change : SyncChange) (cf : string) (self : SyncManager) : M SyncManager :=
  if starts_with (sc_key change) (lit "__") then fail InvalidArgument
  else if match Lww.get_state (sc_key change) (crdt self) with
          | Some (_, timestamp) => sc_timestamp change <=? timestamp
          | None => false
          end then mret self
  else
    put_cf cf (sc_key change) (sc_value change);;
    mret (broadcast change (mkSyncManager (clients self)
            (Lww.merge (sc_key change) (sc_value change) (sc_timestamp change) (crdt self)))).

Definition get_changes_since (since : Z) (self : SyncManager) : list SyncChange :=
  (fun e => mkSyncChange (from_utf8_lossy (Lww.key e)) (from_utf8_lossy (Lww.value e)) (Lww.timestamp e) (lit "server"))
    <$> filter (fun e => since < Lww.timestamp e) (Lww.get_all_entries (crdt self)).

(** ** Authorisation *)

Record SyncAuthorization := mkSyncAuthorization {
  disabled : bool;
  sa_token_id : option bytes;
  access_enabled : bool;
}.
(** The flag of access control is that of the application. *)
Definition from_request (access : option bool) (rq : Request) : SyncAuthorization :=
  mkSyncAuthorization (match auth_flag rq with Some b => negb b | None => false end)
    (token_id <$> extract_token rq) (default false access).

(** The state shared with the other handlers: tokens and access rules. *)
Record Shared := mkShared {
  sh_manager : option TokenManager;
  sh_controller : option AccessController;
}.

Definition permission_debug (p : Permission) : bytes :=
  match p with
  | Auth.Read => lit "Read" | Auth.Write => lit "Write" | Auth.Delete => lit "Delete" | Auth.Admin => lit "Admin"
  end.
Fixpoint join_comma (ss : list bytes) : bytes :=
  match ss with
  | [] => []
  | [s] => s
  | s :: ss => s ++ lit "," ++ join_comma ss
  end.
Definition operation_of (p : Permission) : Operation :=
  match p with
  | Auth.Read => AccessControl.Read | Auth.Write => AccessControl.Write
  | Auth.Delete => AccessControl.Delete | Auth.Admin => AccessControl.Admin
  end.

(** The token as it is now, and the context it gives the access rules. *)
Definition token_context (sh : Shared) (self : SyncAuthorization) (p : Permission) : M (option (gmap bytes bytes)) :=
  if disabled self then mret (Some ∅)
  else match sh_manager sh, sa_token_id self with
       | Some tm, Some id =>
           match get_token id tm with
           | inl _ => mret None
           | inr token =>
               if negb (has_permission token p) then mret None
               else
                 t ← now;
                 if match is_expired (Some t) token with inr e => e | inl _ => true end then mret None
                 else mret (Some {[ lit "principal" := token_name token;
                                    lit "permissions" := join_comma (permission_debug <$> permissions token) ]})
           end
       | _, _ => mret None
       end.
Definition permits (sh : Shared) (self : SyncAuthorization) (p : Permission) (key : bytes) : M bool :=
  if starts_with key (lit "__") then mret false
  else
    context ← token_context sh self p;
    mret match context with
         | None => false
         | Some context =>
             negb (access_enabled self) ||
             match sh_controller sh with
             | Some controller => check_permission (operation_of p) key context controller
             | None => false
             end
         end.

(** ** Messages *)

(** [changes.iter().any(..)]. *)
Fixpoint any_denied (sh : Shared) (auth : SyncAuthorization) (changes : list SyncChange) : M bool :=
  match changes with
  | [] => mret false
  | c :: changes =>
      ok ← permits sh auth Auth.Write (sc_key c);
      if ok : bool then any_denied sh auth changes else mret true
  end.

(** [if let Err(error) = m { .. }]. *)
Definition if_error {A B : Type} (m : M A) (k : A -> M B) (b : B) : M B := fun s =>
  match m s with
  | (Ok a, s) => k a s
  | (Err _, s) => (Ok b, s)
  | (Panic, s) => (Panic, s)
  end.

(** The loop over the changes; it ends at the first failure. *)
Definition denied : bytes := lit "sync write denied".
Definition write_failed : bytes := lit "sync storage write failed".
Fixpoint push_loop (sh : Shared) (auth : SyncAuthorization) (changes : list SyncChange) (self : SyncManager)
    : M (option bytes * SyncManager) :=
  match changes with
  | [] => mret (None, self)
  | c :: changes =>
      ok ← permits sh auth Auth.Write (sc_key c);
      if ok : bool then
        if_error (apply_change c "default" self) (push_loop sh auth changes) (Some write_failed, self)
      else mret (Some denied, self)
  end.

Fixpoint readable (sh : Shared) (auth : SyncAuthorization) (changes : list SyncChange) : M (list SyncChange) :=
  match changes with
  | [] => mret []
  | c :: changes =>
      ok ← permits sh auth Auth.Read (sc_key c);
      rest ← readable sh auth changes;
      mret (if ok : bool then c :: rest else rest)
  end.

Definition handle_push (sh : Shared) (auth : SyncAuthorization) (changes : list SyncChange) (last_ack : Z)
    (self : SyncManager) : M (ServerMessage * SyncManager) :=
  no ← any_denied sh auth changes;
  if no : bool then mret (ServerError denied, self)
  else
    r ← push_loop sh auth changes self;
    let '(failure, self) := r : option bytes * SyncManager in
    match failure with
    | Some message => mret (ServerError message, self)
    | None =>
        pending ← readable sh auth (get_changes_since last_ack self);
        let ack := match sc_timestamp <$> changes with
                   | [] => last_ack
                   | t :: ts => foldl Z.max t ts
                   end in
        mret (ServerAck ack pending, self)
    end.

(** A text from the client: what is sent back, if anything. *)
Definition on_text (sh : Shared) (auth : SyncAuthorization) (text : bytes) (self : SyncManager)
    : M (option bytes * SyncManager) :=
  match client_parse text with
  | Some (ClientPush changes last_ack) =>
      r ← handle_push sh auth changes last_ack self;
      let '(reply, self) := r : ServerMessage * SyncManager in
      mret (Some (server_text reply), self)
  | Some (ClientAck _) | Some (Subscribe _) | None => mret (None, self)
  end.

(** A text from the channel: what is forwarded to the client, if anything. *)
Definition on_broadcast (sh : Shared) (auth : SyncAuthorization) (text : bytes) : M (option bytes) :=
  match server_parse text with
  | Some (ServerPush changes) =>
      visible ← readable sh auth changes;
      mret (match visible with [] => None | _ => Some (server_text (ServerPush visible)) end)
  | _ => mret None
  end.

(** The upgrade of a request: permission, the authorisation to keep, the channel. *)
Definition sync_handler (access : option bool) (rq : Request) (channel : Channel) (self : SyncManager)
    : Response + (SyncAuthorization * SyncManager) :=
  match require_permission rq Auth.Write with
  | inl e => inl (error_response e)
  | inr _ => inr (from_request access rq, register_client channel self)
  end.

Definition get_all_entries (self : SyncManager) : list Lww.CrdtEntry := Lww.get_all_entries (crdt self).

(** ** Checks do not change the engine *)

Context `{!SstStoreLaws} {R : Residency} (clock_mono : forall i, 0 <= clock i < clock (S i)).
Context (no_default_ttl : default_ttl options = None).
Abbreviation refines := (EngineSpec.refines "default").
Abbreviation fits := (EngineSpec.fits "default").

(** A check gives an answer and changes nothing the engine stands for. *)
Definition check {A : Type} (m : M A) : Prop := forall s, exists a s', m s = (Ok a, s') /\ same_view s s'.

Lemma check_ret {A : Type} (a : A) : check (mret a).
Proof. intros s. by exists a, s. Qed.
Lemma check_bind {A B : Type} (m : M A) (k : A -> M B) : check m -> (forall a, check (k a)) -> check (m ≫= k).
Proof.
  intros Hm Hk s. destruct (Hm s) as (a & s1 & E1 & Hv1). destruct (Hk a s1) as (b & s2 & E2 & Hv2).
  exists b, s2. rewrite (bind_Ok _ _ _ _ _ E1). split; [done|]. by etrans.
Qed.
Lemma check_now : check now.
Proof. intros s. eexists _, _. split; [reflexivity|]. apply tick_view. Qed.
#[local] Hint Resolve check_ret check_bind check_now : check.
Ltac check_auto := repeat first [apply check_ret | apply check_now | apply check_bind; [|intros ?] | progress case_match | done].

Lemma permits_check sh auth p k : check (permits sh auth p k).
Proof. unfold permits, token_context. check_auto. Qed.
#[local] Hint Resolve permits_check : check.
Lemma any_denied_check sh auth cs : check (any_denied sh auth cs).
Proof. induction cs as [|c cs IH]; cbn [any_denied]; [apply check_ret|]. apply check_bind; [apply permits_check|]. intros []; [done|apply check_ret]. Qed.
Lemma readable_check sh auth cs : check (readable sh auth cs).
Proof.
  induction cs as [|c cs IH]; cbn [readable]; [apply check_ret|]. apply check_bind; [apply permits_check|].
  intros ok. apply check_bind; [done|]. intros rest. apply check_ret.
Qed.

Lemma check_refines {A : Type} (m : M A) s a s' mp : check m -> m s = (Ok a, s') -> refines s mp -> refines s' mp.
Proof.
  intros Hm E Href. destruct (Hm s) as (a' & s1 & E1 & Hv). rewrite E in E1. injection E1 as -> ->.
  by eapply refines_frame.
Qed.

Lemma readable_sublist sh auth cs s vs s' : readable sh auth cs s = (Ok vs, s') -> vs `sublist_of` cs.
Proof.
  revert s vs s'. induction cs as [|c cs IH]; intros s vs s'; cbn [readable]; [by intros [= <- _]|].
  intros (ok & s1 & _ & (rest & s2 & Hr & Hv)%bind_Ok_inv)%bind_Ok_inv. injection Hv as <- _.
  apply IH in Hr. destruct ok; by constructor.
Qed.

(** ** The engine and the map agree *)

Definition entry_of (c : SyncChange) : Lww.CrdtEntry := Lww.mk_entry (sc_key c) (sc_value c) (sc_timestamp c).

(** What the engine holds: the winners over what was there before. *)
Definition stored (e : Lww.CrdtEngine) (m : gmap bytes bytes) : gmap bytes bytes := (fst <$> e) ∪ m.

Lemma stored_insert e m k v ts : stored (<[k := (v, ts)]> e) m = <[k := v]> (stored e m).
Proof. unfold stored. by rewrite fmap_insert, insert_union_l. Qed.

(** Values the engine can hold. *)
Definition change_fits (c : SyncChange) : Prop := sc_value c <> [] /\ fits (sc_key c) (sc_value c).

Lemma apply_change_refines c self s m self' s' :
  refines s (stored (crdt self) m) -> change_fits c -> apply_change c "default" self s = (Ok self', s') ->
  crdt self' = Lww.apply_entry (crdt self) (entry_of c) /\ refines s' (stored (crdt self') m).
Proof.
  intros Href [Hv Hf]. unfold apply_change. destruct (starts_with _ _) eqn:Hr; [done|].
  unfold Lww.apply_entry, Lww.merge, Lww.get_state. cbn [entry_of Lww.key Lww.value Lww.timestamp].
  assert (forall u s1, put_cf "default" (sc_key c) (sc_value c) s = (Ok u, s1) ->
    refines s1 (stored (<[sc_key c := (sc_value c, sc_timestamp c)]> (crdt self)) m)) as Hput.
  { intros [] s1 Hp. rewrite stored_insert.
    eapply (put_refines clock_mono "default" no_default_ttl 1); [done|by apply unreserved_user|done|done|by left|done]. }
  destruct (crdt self !! sc_key c) as [[v ts]|] eqn:Hl; [destruct (sc_timestamp c <=? ts) eqn:Hts|].
  1: by intros [= <- <-].
  all: intros (u & s1 & Hp & Hm)%bind_Ok_inv; injection Hm as <- <-; cbn [broadcast crdt]; unfold Lww.merge; rewrite ?Hl, ?Hts;
    split; [done|by apply (Hput u)].
Qed.

Lemma push_loop_refines sh auth cs self s m f self' s' :
  refines s (stored (crdt self) m) -> Forall change_fits cs ->
  push_loop sh auth cs self s = (Ok (f, self'), s') -> f <> Some write_failed ->
  exists us, us `prefix_of` cs /\ (f = None -> us = cs) /\
    crdt self' = Lww.apply_entries (entry_of <$> us) (crdt self) /\ refines s' (stored (crdt self') m).
Proof.
  intros Href Hcs. revert self s Href. induction Hcs as [|c cs Hc _ IH]; intros self s Href; cbn [push_loop].
  { intros [= <- <- <-] _. by exists []. }
  intros (ok & s1 & Hp & Hk)%bind_Ok_inv Hf.
  apply (check_refines _ _ _ _ _ (permits_check _ _ _ _) Hp) in Href.
  destruct ok; [|injection Hk as <- <- <-; exists []; split_and!; [apply prefix_nil|done|done|done]].
  unfold if_error in Hk. destruct (apply_change c "default" self s1) as [[self1| |] s2] eqn:Ha; [| |done].
  2: by injection Hk as <- <- <-.
  destruct (apply_change_refines _ _ _ _ _ _ Href Hc Ha) as [Hcrdt Href1].
  destruct (IH _ _ Href1 Hk Hf) as (us & Hpre & Hall & Hcrdt' & Href2).
  exists (c :: us). split_and!; [by apply prefix_cons|intros Hn; by rewrite Hall| |done].
  rewrite Hcrdt'. cbn [fmap list_fmap]. unfold Lww.apply_entries. cbn [foldl]. by rewrite Hcrdt.
Qed.

Lemma handle_push_refines sh auth cs last_ack self s m reply self' s' :
  refines s (stored (crdt self) m) -> Forall change_fits cs ->
  handle_push sh auth cs last_ack self s = (Ok (reply, self'), s') -> reply <> ServerError write_failed ->
  exists us, us `prefix_of` cs /\
    (forall ack pending, reply = ServerAck ack pending ->
       us = cs /\ pending `sublist_of` get_changes_since last_ack self') /\
    crdt self' = Lww.apply_entries (entry_of <$> us) (crdt self) /\ refines s' (stored (crdt self') m).
Proof.
  intros Href Hcs. unfold handle_push. intros (no & s1 & Hno & Hk)%bind_Ok_inv Hf.
  apply (check_refines _ _ _ _ _ (any_denied_check _ _ _) Hno) in Href.
  destruct no; [injection Hk as <- <- <-; exists []; split_and!; [apply prefix_nil|done|done|done]|].
  apply bind_Ok_inv in Hk as ([f self1] & s2 & Hp & Hk).
  assert (f <> Some write_failed) as Hne by (intros ->; by injection Hk as <- _ _).
  destruct (push_loop_refines _ _ _ _ _ _ _ _ _ Href Hcs Hp Hne) as (us & Hpre & Hall & Hcrdt & Href2).
  exists us. destruct f as [msg|]; [by injection Hk as <- <- <-|].
  apply bind_Ok_inv in Hk as (pending & s3 & Hr & Hk). injection Hk as <- <- <-.
  split_and!; [done| |done|by apply (check_refines _ _ _ _ _ (readable_check _ _ _) Hr)].
  intros ack p [= _ <-]. split; [by apply Hall|]. by eapply readable_sublist.
Qed.

(** ** Histories *)

(** A push: the shared state at its time, the connection it comes from, the changes. *)
Record push := mkPush {
  p_shared : Shared;
  p_auth : SyncAuthorization;
  p_changes : list SyncChange;
  p_last_ack : Z;
}.
Fixpoint run_pushes (ps : list push) (self : SyncManager) : M (list ServerMessage * SyncManager) :=
  match ps with
  | [] => mret ([], self)
  | p :: ps =>
      r ← handle_push (p_shared p) (p_auth p) (p_changes p) (p_last_ack p) self;
      rest ← run_pushes ps r.2;
      mret (r.1 :: rest.1, rest.2)
  end.

(** What was applied of a push: all of an acknowledged one, the first changes of another. *)
Definition applied_of (p : push) (reply : ServerMessage) (us : list SyncChange) : Prop :=
  us `prefix_of` p_changes p /\
  match reply with ServerAck _ _ => us = p_changes p | _ => True end.

Lemma run_pushes_refines ps self s m replies self' s' :
  refines s (stored (crdt self) m) -> Forall (fun p => Forall change_fits (p_changes p)) ps ->
  run_pushes ps self s = (Ok (replies, self'), s') -> ServerError write_failed ∉ replies ->
  exists uss, Forall2 (fun pr us => applied_of pr.1 pr.2 us) (zip ps replies) uss /\
    length replies = length ps /\
    crdt self' = Lww.apply_entries (entry_of <$> concat uss) (crdt self) /\ refines s' (stored (crdt self') m).
Proof.
  intros Href Hps. revert self s replies Href. induction Hps as [|p ps Hp _ IH]; intros self s replies Href; cbn [run_pushes].
  { intros [= <- <- <-] _. by exists []. }
  intros ([reply self1] & s1 & Hh & Hk)%bind_Ok_inv Hno.
  apply bind_Ok_inv in Hk as ([rest self2] & s2 & Hr & Hk). injection Hk as <- <- <-.
  apply not_elem_of_cons in Hno as [Hne Hno]. cbn [fst snd] in *.
  destruct (handle_push_refines _ _ _ _ _ _ _ _ _ _ Href Hp Hh ltac:(done)) as (us & Hpre & Hack & Hcrdt & Href1).
  destruct (IH _ _ _ Href1 Hr Hno) as (uss & Happ & Hlen & Hcrdt2 & Href2).
  exists (us :: uss). split_and!; [|by cbn; f_equal| |done].
  - cbn [zip zip_with]. constructor; [|done]. split; [done|]. cbn [fst snd]. destruct reply; [|done..]. by eapply Hack.
  - rewrite Hcrdt2, Hcrdt. cbn [concat]. unfold Lww.apply_entries. by rewrite fmap_app, foldl_app.
Qed.
End sync.

Section histories.
Context `{!Crc32, !Aead, !Postcard LogRecord, !Postcard LogRecordV0, !Postcard LogRecordV1}.
Context `{!BloomCrate} `{!SstStore} `{!SstStoreLaws} `{!Moka bytes bytes} `{!SerdeJson} `{!EngineEnv}.
Context `{!SyncJson, !AuthEnv}.
Context (clock_mono : forall i, 0 <= clock i < clock (S i)) (no_default_ttl : default_ttl options = None).
#[local] Instance sync_resident : Residency := True.

End histories.
