(* ===== verification/Scrubber.v ===== *)
(** * Scrubber: checking the tables on disk ([src/src/infra/health/scrubber.rs])

    The scrubber reads the blocks of a table by its index and compares their
    checksums; with the key at hand it also opens them.  A file is its bytes, [None]
    when it cannot be opened; a directory is the list of its names and files in the
    order of [read_dir].  Messages are constructors.  The background thread and its
    pauses are not modelled: a cycle is one call of [scrub_sst_directory]. *)
From Stdlib Require Import ZArith Lia QArith.
From stdpp Require Import base tactics numbers list gmap strings sorting.
From S2P Require Import Prelude Bytes SortedMap LogRecord Iterators Extern Encryption.
From S2P Require Import PrefixCompression Block BinarySearch SstBuilder SstReader.
From S2P Require Import MemTable Wal Table VersionSet Utf8 Engine Migration.
Local Open Scope Z_scope.

Inductive ScrubError :=
| OpenFailed
| MetadataFailed (e : LsmError)
| ReadDataFailed (offset size : Z)
| ReadTrailerFailed (offset : Z)
| CrcMismatch (offset stored computed : Z)
| AuthenticationFailed (offset : Z)
| DirectoryFailed
| OrphanFile
| OrphanTable.

Record ScrubResult := mkScrubResult {
  file_path : string;
  valid : bool;
  skipped : bool;
  total_blocks : Z;
  verified_blocks : Z;
  corrupt_blocks : Z;
  total_bytes : Z;
  corrupt_bytes : Z;
  errors : list ScrubError;
}.

(** A result without blocks. *)
Definition error_result (path : string) (e : ScrubError) (skipped : bool) (bytes : Z) : ScrubResult :=
  mkScrubResult path false skipped 0 0 0 bytes 0 [e].

(** The errors that say the key is missing or wrong. *)
Definition key_error (e : LsmError) : bool :=
  match e with
  | EncryptionKeyRequired | EncryptionAuthenticationFailed | LegacyEncryptionMigrationRequired => true
  | _ => false
  end.

Section scrubber.
Context `{!Crc32, !Lz4, !Aead, !BloomCrate, !Postcard LogRecord, !Postcard MetaBlock, !Moka (Z * nat) bytes}.

(** [block.size] includes the four bytes of the checksum. *)
Definition data_size (block : BlockMeta) : Z := Z.max 0 (bm_size block - 4).

(** What is wrong with a block, if anything. *)
Definition scrub_block (encryptor : Encryptor) (file : bytes) (block : BlockMeta) : option ScrubError :=
  let size := data_size block in
  match read_exact_at file (bm_offset block) size with
  | Ok data =>
      match read_exact_at file (bm_offset block + size) 4 with
      | Ok crc32_bytes =>
          let stored := from_le_bytes crc32_bytes in
          if negb (stored =? crc32 data) then Some (CrcMismatch (bm_offset block) stored (crc32 data))
          else match decrypt_block encryptor data with
               | Ok _ => None
               | _ => Some (AuthenticationFailed (bm_offset block))
               end
      | _ => Some (ReadTrailerFailed (bm_offset block + size))
      end
  | _ => Some (ReadDataFailed (bm_offset block) size)
  end.

(** The counters of the loop. *)
Record Counters := mkCounters {
  c_corrupt : Z;
  c_total_bytes : Z;
  c_corrupt_bytes : Z;
  c_errors : list ScrubError;
}.
Definition count_block (encryptor : Encryptor) (file : bytes) (c : Counters) (block : BlockMeta) : Counters :=
  let total := as_u64 (c_total_bytes c + data_size block) in
  match scrub_block encryptor file block with
  | None => mkCounters (c_corrupt c) total (c_corrupt_bytes c) (c_errors c)
  | Some e => mkCounters (c_corrupt c + 1) total (as_u64 (c_corrupt_bytes c + data_size block)) (c_errors c ++ [e])
  end.

Definition scrub_file_with_encryption (path : string) (file : option bytes) (encryption : EncryptionConfig) : ScrubResult :=
  match file with
  | None => error_result path OpenFailed false 0
  | Some file =>
      match metadata_read file encryption with
      | Ok (meta_block, encryptor) =>
          let c := foldl (count_block encryptor file) (mkCounters 0 0 0 []) (mb_blocks meta_block) in
          let total := len (mb_blocks meta_block) in
          mkScrubResult path (c_corrupt c =? 0) false total (total - c_corrupt c) (c_corrupt c)
            (c_total_bytes c) (c_corrupt_bytes c) (c_errors c)
      | Err e => error_result path (MetadataFailed e) (key_error e) 0
      | Panic => error_result path OpenFailed false 0
      end
  end.
Definition scrub_file (path : string) (file : option bytes) : ScrubResult :=
  scrub_file_with_encryption path file EncryptionConfig_default.

(** One cycle: the tables of the directory, [None] when it cannot be read. *)
Definition scrub_sst_directory (dir : option (list (string * option bytes))) (encryption : EncryptionConfig)
    : option (list ScrubResult) :=
  (fun entries : list (string * option bytes) => (fun e => scrub_file_with_encryption e.1 e.2 encryption)
                    <$> filter (fun e => is_sstable_name (lit e.1) = true) entries) <$> dir.

(** ** Files and tables of the version set *)

Definition tracked_paths (vs : VersionSet) : list string :=
  concat ((fun cf => omap t_path (cf_tables vs cf)) <$> column_families vs).
Definition scrub_with_version_set (vs : VersionSet) (sst_dir : string) (disk : option (list (string * bytes)))
    : list ScrubResult :=
  match disk with
  | None => [error_result sst_dir DirectoryFailed false 0]
  | Some entries =>
      let tracked := tracked_paths vs in
      ((fun e => error_result e.1 OrphanFile false (len e.2))
         <$> filter (fun e => is_sstable_name (lit e.1) = true /\ e.1 ∉ tracked) entries)
      ++ ((fun path => error_result path OrphanTable false 0)
            <$> filter (fun path => path ∉ entries.*1) tracked)
  end.

(** ** What a scrub finds *)

(** The block passes: its bytes are in the file, match the checksum and can be opened. *)
Definition intact (encryptor : Encryptor) (file : bytes) (block : BlockMeta) (payload : bytes) : Prop :=
  exists data crc,
    read_exact_at file (bm_offset block) (data_size block) = Ok data /\
    read_exact_at file (bm_offset block + data_size block) 4 = Ok crc /\
    from_le_bytes crc = crc32 data /\ decrypt_block encryptor data = Ok payload.

Lemma scrub_block_spec encryptor file block :
  scrub_block encryptor file block = None <-> exists payload, intact encryptor file block payload.
Proof.
  unfold scrub_block, intact. split.
  - destruct (read_exact_at file (bm_offset block) (data_size block)) as [data| |]; [|done..].
    destruct (read_exact_at file (bm_offset block + data_size block) 4) as [crc| |]; [|done..].
    destruct (Z.eqb_spec (from_le_bytes crc) (crc32 data)); [|done]. cbn [negb].
    destruct (decrypt_block encryptor data) as [payload| |] eqn:E; [|done..]. eauto 10.
  - intros (payload & data & crc & -> & -> & Heq & ->). by rewrite (proj2 (Z.eqb_eq _ _) Heq).
Qed.

Definition bad (encryptor : Encryptor) (file : bytes) (block : BlockMeta) : Prop :=
  scrub_block encryptor file block <> None.
#[global] Instance bad_dec encryptor file block : Decision (bad encryptor file block).
Proof. unfold bad. destruct (scrub_block encryptor file block); [left|right]; congruence. Defined.

Lemma count_blocks encryptor file blocks c :
  let c' := foldl (count_block encryptor file) c blocks in
  c_corrupt c' = c_corrupt c + len (filter (bad encryptor file) blocks) /\
  c_errors c' = c_errors c ++ omap (scrub_block encryptor file) blocks.
Proof.
  revert c. induction blocks as [|b blocks IH]; intros c; cbn [foldl omap list_omap].
  { rewrite app_nil_r. unfold len. cbn. split; [lia|done]. }
  destruct (IH (count_block encryptor file c b)) as [-> ->]. unfold count_block. rewrite filter_cons.
  destruct (scrub_block encryptor file b) as [e|] eqn:E; cbn [c_corrupt c_errors].
  - rewrite decide_True by (unfold bad; congruence). rewrite len_cons, <- app_assoc. split; [lia|done].
  - by rewrite decide_False by (unfold bad; rewrite E; intros Hb; by apply Hb).
Qed.

(** The reader on the same file. *)
Definition reader_of (meta : MetaBlock) (encryptor : Encryptor) (file : bytes) (mapped : bool) (table_id : Z) : SstableReader :=
  {| rd_metadata := meta; rd_file := file; rd_mmap := if mapped then Some file else None;
     rd_table_id := table_id; rd_encryptor := encryptor |}.

(** What is left to do with the payload of a block. *)
Definition expand (block : BlockMeta) (payload : bytes) : outcome bytes :=
  let* decompressed := ok_or (decompress_size_prepended payload) DecompressionFailed in
  if negb (len decompressed =? bm_uncompressed_size block) then Err CorruptedData else Ok decompressed.

Lemma read_exact_slice file pos n : pos + n <= len file -> read_exact_at file pos n = slice file pos (pos + n).
Proof. intros Hl. unfold read_exact_at. by rewrite (proj2 (Z.ltb_ge _ _)). Qed.

(** Reading a block of the index, in terms of what the scrubber looks at. *)
Lemma read_block_scrub meta encryptor file mapped table_id b :
  4 <= bm_size b -> 0 <= bm_offset b -> bm_offset b + bm_size b <= len file ->
  match scrub_block encryptor file b with
  | None => exists payload, intact encryptor file b payload /\
      read_and_decompress_block (reader_of meta encryptor file mapped table_id) b = expand b payload
  | Some _ => exists e, read_and_decompress_block (reader_of meta encryptor file mapped table_id) b = Err e
  end.
Proof.
  intros Hs Ho Hl. assert (data_size b = bm_size b - 4) as Hd by (unfold data_size; lia).
  unfold read_and_decompress_block. rewrite (proj2 (Z.ltb_ge _ _)) by lia. cbn [rd_file rd_mmap rd_encryptor reader_of].
  rewrite <- Hd.
  pose proof (slice_in_range file (bm_offset b) (bm_offset b + data_size b) ltac:(lia) ltac:(lia)) as S1.
  pose proof (slice_in_range file (bm_offset b + data_size b) (bm_offset b + data_size b + 4) ltac:(lia) ltac:(lia)) as S2.
  set (data := take _ _) in S1. set (crc := take _ _) in S2. clearbody data crc.
  assert (read_exact_at file (bm_offset b) (data_size b) = Ok data) as R1 by (rewrite read_exact_slice by lia; done).
  assert (read_exact_at file (bm_offset b + data_size b) 4 = Ok crc) as R2 by (rewrite read_exact_slice by lia; done).
  assert (match (if mapped then Some file else None) with
          | Some mmap =>
              if bm_offset b + bm_size b <=? len mmap then
                let* d := slice mmap (bm_offset b) (bm_offset b + data_size b) in
                let* c := slice mmap (bm_offset b + data_size b) (bm_offset b + data_size b + 4) in Ok (d, from_le_bytes c)
              else let* d := read_exact_at file (bm_offset b) (data_size b) in
                   let* c := read_exact_at file (bm_offset b + data_size b) 4 in Ok (d, from_le_bytes c)
          | None => let* d := read_exact_at file (bm_offset b) (data_size b) in
                    let* c := read_exact_at file (bm_offset b + data_size b) 4 in Ok (d, from_le_bytes c)
          end = Ok (data, from_le_bytes crc)) as ->.
  { destruct mapped; [rewrite (proj2 (Z.leb_le _ _)) by lia; rewrite S1; cbn [obind]; by rewrite S2|].
    rewrite R1. cbn [obind]. by rewrite R2. }
  cbn [obind]. unfold scrub_block, intact. rewrite R1, R2. rewrite (Z.eqb_sym (crc32 data)).
  destruct (Z.eqb_spec (from_le_bytes crc) (crc32 data)) as [Heq|Hne]; cbn [negb]; [|by eexists].
  assert ((if enabled encryptor then decrypt_block encryptor data else Ok data) = decrypt_block encryptor data) as ->.
  { unfold decrypt_block. by destruct (enabled encryptor). }
  pose proof (decrypt_block_no_panic encryptor data).
  destruct (decrypt_block encryptor data) as [payload|e|] eqn:Ed; [|by eexists|done].
  exists payload. split; [|done]. exists data, crc. by rewrite Ed.
Qed.

(** C20: A scrub is as good as reading everything.  For a file whose index is accepted, the blocks
    reported corrupt are exactly those the reader refuses before it decompresses them,
    whether the file is mapped or not; verified and corrupt blocks add up; and the file is
    called valid when, and only when, no block is refused. *)
Theorem scrub_agrees_with_reader path file encryption meta encryptor mapped table_id :
  metadata_read file encryption = Ok (meta, encryptor) ->
  let r := scrub_file_with_encryption path (Some file) encryption in
  let self := reader_of meta encryptor file mapped table_id in
  skipped r = false /\ total_blocks r = len (mb_blocks meta) /\ verified_blocks r + corrupt_blocks r = total_blocks r /\
  corrupt_blocks r = len (filter (bad encryptor file) (mb_blocks meta)) /\
  (valid r = true <-> forall b, b ∈ mb_blocks meta -> ~ bad encryptor file b) /\
  (forall b, b ∈ mb_blocks meta -> bad encryptor file b -> exists e, read_and_decompress_block self b = Err e) /\
  (forall b, b ∈ mb_blocks meta -> ~ bad encryptor file b ->
     exists payload, intact encryptor file b payload /\ read_and_decompress_block self b = expand b payload).
Proof.
  intros Hmeta. destruct (metadata_read_accepts _ _ _ _ Hmeta) as [_ [Hidx _]].
  rewrite Forall_forall in Hidx. unfold scrub_file_with_encryption. rewrite Hmeta.
  destruct (count_blocks encryptor file (mb_blocks meta) (mkCounters 0 0 0 [])) as [Hc _]. cbn [c_corrupt] in Hc.
  cbn zeta in *. cbn [skipped total_blocks verified_blocks corrupt_blocks valid]. rewrite Hc, Z.add_0_l.
  split_and!; [done|done|lia|done| | |].
  - rewrite Z.eqb_eq. unfold len. split.
    + intros Hz b Hb Hbad. assert (b ∈ filter (bad encryptor file) (mb_blocks meta)) as Hin by (by apply list_elem_of_filter).
      destruct (filter _ _); [by apply elem_of_nil in Hin|cbn in Hz; lia].
    + intros Hall. rewrite filter_none; [done|]. exact Hall.
  - intros b Hb Hbad. specialize (Hidx b Hb).
    pose proof (read_block_scrub meta encryptor file mapped table_id b ltac:(lia) ltac:(lia) ltac:(lia)) as Hr.
    unfold bad in Hbad. by destruct (scrub_block encryptor file b).
  - intros b Hb Hok. specialize (Hidx b Hb).
    pose proof (read_block_scrub meta encryptor file mapped table_id b ltac:(lia) ltac:(lia) ltac:(lia)) as Hr.
    destruct (scrub_block encryptor file b) eqn:E; [|done]. destruct Hok. unfold bad. congruence.
Qed.

(** A table that was built is found valid, with all its blocks verified. *)
Lemma scrub_built path config ts encryption rng es file :
  0 <= sc_block_size config <= 33554432 -> (forall i n, rng i = Some n -> len n = 12) ->
  storable config es -> len file <= u64_max -> sst_build config ts encryption rng es = Ok file ->
  let r := scrub_file_with_encryption path (Some file) encryption in
  valid r = true /\ skipped r = false /\ 0 < total_blocks r /\ verified_blocks r = total_blocks r.
Proof.
  intros Hb Hr Hst Hf Hok.
  destruct (sst_build_layout config ts encryption rng Hb Hr es file Hst Hok) as (gs & meta & data & mw & Hsl).
  pose proof (metadata_read_ok ts encryption es file gs meta data mw Hf Hsl) as Hmeta.
  destruct (metadata_read_accepts _ _ _ _ Hmeta) as [Hne _].
  assert (filter (bad (Encryptor_new encryption) file) (mb_blocks meta) = []) as Hnone.
  { apply filter_none. intros b Hin. apply list_elem_of_lookup in Hin as [i Hi].
    destruct (read_block_direct ts encryption es file gs meta data mw Hsl 0 false i b Hi)
      as (e & g & bs & raw & f & _ & _ & Hrd & _).
    destruct (metadata_read_accepts _ _ _ _ Hmeta) as [_ [Hidx _]]. rewrite Forall_forall in Hidx.
    specialize (Hidx b (list_elem_of_lookup_2 _ _ _ Hi)).
    pose proof (read_block_scrub meta (Encryptor_new encryption) file false 0 b ltac:(lia) ltac:(lia) ltac:(lia)) as Hs.
    unfold bad. destruct (scrub_block _ _ _); [|congruence]. destruct Hs as [e' Hs]. intros _.
    change (reader_of meta (Encryptor_new encryption) file false 0) with (opened encryption file meta 0 false) in Hs.
    congruence. }
  unfold scrub_file_with_encryption. rewrite Hmeta.
  destruct (count_blocks (Encryptor_new encryption) file (mb_blocks meta) (mkCounters 0 0 0 [])) as [Hc _].
  cbn zeta in *. cbn [c_corrupt] in Hc. cbn [skipped total_blocks verified_blocks corrupt_blocks valid].
  rewrite Hc, Hnone. cbn. split_and!; [done|done| |unfold len; cbn; lia].
  unfold len. destruct (mb_blocks meta); [done|]. cbn. lia.
Qed.

(** Nothing is reported about files and tables exactly when each table file belongs to a
    table and each table has its file. *)
Lemma scrub_with_version_set_clean vs sst_dir entries :
  scrub_with_version_set vs sst_dir (Some entries) = [] <->
  (forall name file, (name, file) ∈ entries -> is_sstable_name (lit name) = true -> name ∈ tracked_paths vs) /\
  (forall path, path ∈ tracked_paths vs -> path ∈ entries.*1).
Proof.
  unfold scrub_with_version_set. split.
  - intros [Hf%fmap_nil_inv Ht%fmap_nil_inv]%app_eq_nil. split.
    + intros name file Hin Hs. destruct (decide (name ∈ tracked_paths vs)) as [|Hno]; [done|]. exfalso.
      assert ((name, file) ∈ filter (fun e => is_sstable_name (lit e.1) = true /\ e.1 ∉ tracked_paths vs) entries) as Hx
        by (by apply list_elem_of_filter).
      rewrite Hf in Hx. by apply elem_of_nil in Hx.
    + intros path Hin. destruct (decide (path ∈ entries.*1)) as [|Hno]; [done|]. exfalso.
      assert (path ∈ filter (fun path => path ∉ entries.*1) (tracked_paths vs)) as Hx by (by apply list_elem_of_filter).
      rewrite Ht in Hx. by apply elem_of_nil in Hx.
  - intros [Hf Ht]. rewrite !filter_none; [done| |].
    + intros path Hin Hno. by apply Hno, Ht.
    + intros [name file] Hin [Hs Hno]. cbn in *. by eapply Hno, Hf.
Qed.
End scrubber.
