(* ===== verification/ConnectionGuard.v ===== *)
(** * ConnectionGuard: concurrent requests per address
    ([src/src/api/connection_guard.rs])

    The guard counts the requests in flight of every address.  A request takes a slot
    before it is handled and holds a permit whose end gives it back, also when the
    handler is cancelled or panics.  Each call holds the lock, so that requests are
    interleaved call by call; the address of a request without a peer is [unknown]. *)
From Stdlib Require Import ZArith Lia.
From stdpp Require Import base tactics numbers list gmap strings.
From S2P Require Import Prelude Bytes Utf8 Engine.
Local Open Scope Z_scope.

Definition MAX_CONNECTIONS_PER_IP : Z := 100.

Record IpConnectionGuard := mkGuard {
  connections : gmap bytes Z;
  max_per_ip : Z;
}.

Definition IpConnectionGuard_new (max_per_ip : Z) : IpConnectionGuard := mkGuard ∅ max_per_ip.

Definition try_acquire_with_max (ip : bytes) (max : Z) (self : IpConnectionGuard) : bool * IpConnectionGuard :=
  let count := default 0 (connections self !! ip) in
  if max <=? count then (false, mkGuard (<[ip := count]> (connections self)) (max_per_ip self))
  else (true, mkGuard (<[ip := count + 1]> (connections self)) (max_per_ip self)).
Definition try_acquire (ip : bytes) (self : IpConnectionGuard) : bool * IpConnectionGuard :=
  try_acquire_with_max ip (max_per_ip self) self.

Definition release (ip : bytes) (self : IpConnectionGuard) : IpConnectionGuard :=
  match connections self !! ip with
  | None => self
  | Some count =>
      let count := Z.max 0 (count - 1) in
      mkGuard (if count =? 0 then delete ip (connections self) else <[ip := count]> (connections self)) (max_per_ip self)
  end.

(** ** The middleware *)

(** The permits held by requests in flight, by address; without a guard in the application
    data a request holds none. *)
Definition peer (addr : option bytes) : bytes := default (lit "unknown") addr.
Definition call (addr : option bytes) (self : IpConnectionGuard) : bool * IpConnectionGuard := try_acquire (peer addr) self.

Inductive guard_step : IpConnectionGuard * list bytes -> IpConnectionGuard * list bytes -> Prop :=
| step_admit g g' ps addr : call addr g = (true, g') -> guard_step (g, ps) (g', peer addr :: ps)
| step_refuse g g' ps addr : call addr g = (false, g') -> guard_step (g, ps) (g', ps)
| step_drop g ps1 ip ps2 : guard_step (g, ps1 ++ ip :: ps2) (release ip g, ps1 ++ ps2).

(** The number of permits of an address. *)
Definition held (ip : bytes) (ps : list bytes) : Z := len (filter (fun p => p = ip) ps).

Definition counts (st : IpConnectionGuard * list bytes) : Prop :=
  forall ip, default 0 (connections st.1 !! ip) = held ip st.2 /\ held ip st.2 <= Z.max 0 (max_per_ip st.1).

Lemma held_cons ip p ps : held ip (p :: ps) = held ip ps + (if decide (p = ip) then 1 else 0).
Proof. unfold held. rewrite filter_cons. case_decide; [rewrite len_cons|]; lia. Qed.
Lemma held_middle ip p ps1 ps2 : held ip (ps1 ++ p :: ps2) = held ip (p :: ps1 ++ ps2).
Proof. unfold held, len. by rewrite <- Permutation_middle. Qed.

Lemma guard_step_max st st' : guard_step st st' -> max_per_ip st'.1 = max_per_ip st.1.
Proof.
  destruct 1 as [g g' ps addr E|g g' ps addr E|g ps1 ip ps2]; cbn.
  1,2: unfold call, try_acquire, try_acquire_with_max in E; destruct (_ <=? _); by simplify_eq.
  unfold release. by destruct (connections g !! ip).
Qed.

Lemma guard_step_counts st st' : guard_step st st' -> counts st -> counts st'.
Proof.
  intros Hstep Hc ip. pose proof (guard_step_max _ _ Hstep) as Hmax. rewrite Hmax. destruct (Hc ip) as [Hip Hle].
  destruct Hstep as [g g' ps addr E|g g' ps addr E|g ps1 p ps2]; cbn [fst snd] in *.
  - unfold call, try_acquire, try_acquire_with_max in E. destruct (Z.leb_spec (max_per_ip g) (default 0 (connections g !! peer addr))); [done|].
    injection E as <-. cbn [connections]. rewrite held_cons. destruct (decide (peer addr = ip)) as [<-|Hne].
    + rewrite lookup_insert_eq. cbn. lia.
    + rewrite lookup_insert_ne by done. lia.
  - unfold call, try_acquire, try_acquire_with_max in E. destruct (_ <=? _); [|done]. injection E as <-. cbn [connections].
    destruct (decide (peer addr = ip)) as [<-|Hne]; [by rewrite lookup_insert_eq|by rewrite lookup_insert_ne].
  - rewrite held_middle, held_cons in Hip, Hle. unfold release.
    destruct (connections g !! p) as [c|] eqn:Hl; cbn [connections].
    + destruct (decide (p = ip)) as [->|Hne].
      * rewrite Hl in Hip. cbn in Hip. assert (0 <= held ip (ps1 ++ ps2)) by (unfold held, len; lia).
        destruct (Z.eqb_spec (Z.max 0 (c - 1)) 0); [rewrite lookup_delete_eq|rewrite lookup_insert_eq]; cbn; lia.
      * destruct (_ =? 0); [rewrite lookup_delete_ne by done|rewrite lookup_insert_ne by done]; lia.
    + destruct (decide (p = ip)) as [->|Hne]; [|lia]. rewrite Hl in Hip |- *. cbn in *.
      assert (0 <= held ip (ps1 ++ ps2)) by (unfold held, len; lia). lia.
Qed.

(** C37: However requests arrive, are refused, end, are cancelled or panic, the guard counts the
    requests in flight of every address exactly, never more than the limit; and the next
    request of an address is refused exactly when its requests in flight have reached it. *)
Theorem guard_counts_requests max st addr :
  0 <= max -> rtc guard_step (IpConnectionGuard_new max, []) st ->
  (forall ip, default 0 (connections st.1 !! ip) = held ip st.2 /\ held ip st.2 <= max) /\
  ((call addr st.1).1 = false <-> held (peer addr) st.2 = max).
Proof.
  intros Hmax Hr.
  assert (counts st /\ max_per_ip st.1 = max) as [Hc Hm].
  { remember (IpConnectionGuard_new max, []) as st0 eqn:E0.
    assert (counts st0 /\ max_per_ip st0.1 = max) as [Hc0 Hm0].
    { subst st0. split; [|done]. intros ip. cbn [connections fst snd IpConnectionGuard_new max_per_ip]. rewrite lookup_empty. split; [done|]. unfold held, len. cbn. lia. }
    clear E0. induction Hr as [st|st st1 st2 Hstep _ IH]; [done|]. apply IH; [by eapply guard_step_counts|].
    by rewrite (guard_step_max _ _ Hstep). }
  assert (forall ip, default 0 (connections st.1 !! ip) = held ip st.2 /\ held ip st.2 <= max) as Hall.
  { intros ip. destruct (Hc ip) as [? ?]. rewrite Hm in *. split; [done|lia]. }
  split; [done|]. destruct (Hall (peer addr)) as [Heq Hle].
  unfold call, try_acquire, try_acquire_with_max. rewrite Heq, Hm. destruct (Z.leb_spec max (held (peer addr) st.2)); cbn; split; try done; lia.
Qed.
