(* ===== verification/SchemaValidation.v ===== *)
(** * SchemaValidation: schemas for the values under a prefix
    ([src/src/infra/schema_validation.rs])

    Schemas are registered under key prefixes; a value is checked against the one of
    the longest prefix of its key.  JSON and the [jsonschema] crate are parameters;
    reasons are constructors. *)
From Stdlib Require Import ZArith Lia.
From stdpp Require Import base tactics numbers list gmap strings.
From S2P Require Import Prelude Bytes Utf8 Text.
Local Open Scope Z_scope.

(** [serde_json::Value], its parser, and the compiled schemas: [None] for a definition
    that does not compile, otherwise the test of an instance. *)
Class JsonSchema := {
  JsonDoc : Type;
  is_object : JsonDoc -> bool;
  from_slice : bytes -> option JsonDoc;
  compile : JsonDoc -> option (JsonDoc -> bool);
}.

Inductive Reason := NotJson | InvalidSchema | Violations.
Record ValidationError := mkValidationError {
  ve_key : bytes;
  ve_reason : Reason;
}.

Section schemas.
Context `{!JsonSchema}.

(** The field [schemas] of [SchemaValidator]. *)
Abbreviation SchemaValidator := (gmap bytes JsonDoc).

Definition SchemaValidator_new : SchemaValidator := ∅.
Definition register_schema (key_prefix : bytes) (schema_json : JsonDoc) (self : SchemaValidator)
    : bool * SchemaValidator :=
  if negb (is_object schema_json) then (false, self) else (true, <[key_prefix := schema_json]> self).
Definition remove_schema (key_prefix : bytes) (self : SchemaValidator) : SchemaValidator := delete key_prefix self.
Definition has_schema (key_prefix : bytes) (self : SchemaValidator) : bool := bool_decide (is_Some (self !! key_prefix)).
Definition schema_count (self : SchemaValidator) : Z := Z.of_nat (size self).

(** [Iterator::max_by_key]: the last of the longest. *)
Definition longer (best : option (bytes * JsonDoc)) (e : bytes * JsonDoc) : option (bytes * JsonDoc) :=
  match best with
  | Some b => if (length e.1 <? length b.1)%nat then best else Some e
  | None => Some e
  end.
Definition matching_schema (key_str : bytes) (self : SchemaValidator) : option (bytes * JsonDoc) :=
  foldl longer None (filter (fun e => starts_with key_str e.1 = true) (map_to_list self)).

Definition validate (key value : bytes) (self : SchemaValidator) : ValidationError + unit :=
  match matching_schema (from_utf8_lossy key) self with
  | None => inr tt
  | Some (_, schema) =>
      match from_slice value with
      | None => inl (mkValidationError key NotJson)
      | Some instance =>
          match compile schema with
          | None => inl (mkValidationError key InvalidSchema)
          | Some accepts => if accepts instance then inr tt else inl (mkValidationError key Violations)
          end
      end
  end.

(** ** The longest prefix decides *)

Lemma foldl_longer es best r : foldl longer best es = Some r ->
  (best = Some r \/ r ∈ es) /\
  (forall b, best = Some b -> (length b.1 <= length r.1)%nat) /\
  (forall e, e ∈ es -> (length e.1 <= length r.1)%nat).
Proof.
  revert best. induction es as [|e es IH]; intros best; cbn [foldl].
  { intros ->. split_and!; [by left|by intros b [= ->]|set_solver]. }
  intros (Hocc & Hb & He)%IH. assert (exists b', longer best e = Some b' /\ (best = Some b' \/ b' = e) /\
    (forall b, best = Some b -> (length b.1 <= length b'.1)%nat) /\ (length e.1 <= length b'.1)%nat)
    as (b' & Hl & Hb' & Hmax & Hlen).
  { unfold longer. destruct best as [b|]; [destruct (Nat.ltb_spec (length e.1) (length b.1))|]; eexists;
      (split; [done|]); (split; [auto|]); (split; [intros ? [= <-] || intros ? [=]|]); lia. }
  specialize (Hb _ Hl). split_and!.
  - rewrite Hl in Hocc. destruct Hocc as [[= <-]|Hin]; [|right; by right].
    destruct Hb' as [->| ->]; [by left|right; by left].
  - intros b Hbest. specialize (Hmax _ Hbest). lia.
  - intros e' [->|Hin]%elem_of_cons; [lia|by apply He].
Qed.

Lemma foldl_longer_none es best : foldl longer best es = None -> best = None /\ es = [].
Proof.
  revert best. induction es as [|e es IH]; intros best; cbn [foldl]; [done|].
  intros [Hl _]%IH. unfold longer in Hl. destruct best; [by destruct (_ <? _)%nat|done].
Qed.

Lemma starts_with_len k p q :
  starts_with k p = true -> starts_with k q = true -> length p = length q -> p = q.
Proof.
  intros (r & ->)%starts_with_spec (r' & Heq)%starts_with_spec Hlen. by apply app_inj_1 in Heq as [? _].
Qed.

(** The schema that is used is that of the longest registered prefix of the key; without one
    every value passes. *)
Theorem longest_prefix_decides key value self :
  (validate key value self = inr tt /\ forall p, starts_with (from_utf8_lossy key) p = true -> self !! p = None) \/
  exists p schema, self !! p = Some schema /\ starts_with (from_utf8_lossy key) p = true /\
    (forall q schema', self !! q = Some schema' -> starts_with (from_utf8_lossy key) q = true ->
       q = p \/ (length q < length p)%nat) /\
    (validate key value self = inr tt <->
     exists instance accepts, from_slice value = Some instance /\ compile schema = Some accepts /\ accepts instance = true).
Proof.
  unfold validate. destruct (matching_schema (from_utf8_lossy key) self) as [[p schema]|] eqn:E; unfold matching_schema in E.
  - right. apply foldl_longer in E as ([[=]|Hin] & _ & Hmax). apply list_elem_of_filter in Hin as [Hst Hin%elem_of_map_to_list].
    exists p, schema. split_and!; [done|done| |].
    + intros q schema' Hq Hstq. specialize (Hmax (q, schema')). cbn in *.
      assert (length q <= length p)%nat as Hle by (apply Hmax, list_elem_of_filter; split; [done|by apply elem_of_map_to_list]).
      destruct (decide (length q = length p)) as [Heq|]; [left; by eapply starts_with_len|right; lia].
    + destruct (from_slice value) as [instance|]; [|by split; [|intros (? & ? & ? & ? & ?)]].
      destruct (compile schema) as [accepts|]; [|by split; [|intros (? & ? & ? & ? & ?)]].
      destruct (accepts instance) eqn:Ha; split; try done; [by eauto 10|]. intros (? & ? & [= <-] & [= <-] & ?). congruence.
  - left. apply foldl_longer_none in E as [_ Hnil]. split; [done|]. intros p Hst.
    destruct (self !! p) as [schema|] eqn:Hp; [|done].
    assert ((p, schema) ∈ filter (fun e => starts_with (from_utf8_lossy key) e.1 = true) (map_to_list self)) as Hin
      by (apply list_elem_of_filter; split; [done|by apply elem_of_map_to_list]).
    rewrite Hnil in Hin. by apply elem_of_nil in Hin.
Qed.
End schemas.
