(* ===== verification/MultiModel.v ===== *)
(** * MultiModel: documents, time series and graphs over a key-value store
    ([src/src/infra/models/multi_model.rs])

    The layer reads a store through a trait and interprets its values: a document
    is lines [k=v], a point of a time series is stored under its timestamp in
    hexadecimal, a vertex is a label, a line of edges and properties.  The trait is
    the class [ModelStore], what its implementations promise is [ModelStoreLaws], and
    the in-memory engine fulfils it.  Floating-point values are a parameter; error
    messages are constructors. *)
From Stdlib Require Import ZArith Lia.
From stdpp Require Import base tactics numbers list gmap strings sorting.
From S2P Require Import Prelude Bytes SortedMap Utf8 Text Engine Webhooks.
Local Open Scope Z_scope.

(** ** The store *)

(** The reads of the trait; its writes are [StorageEngine] of [Webhooks]. *)
Class ModelStore (S : Type) `{!StorageEngine S} := {
  ms_get : bytes -> S -> bytes + option bytes;
  ms_scan_prefix : bytes -> S -> bytes + list (bytes * bytes);
}.

(** A store stands for a map; a call may still fail with a text. *)
Class ModelStoreLaws (S : Type) `{!StorageEngine S, !ModelStore S} := {
  contents : S -> gmap bytes bytes;
  ms_get_ok k s v : ms_get k s = inr v -> v = contents s !! k;
  ms_scan_ok p s es : ms_scan_prefix p s = inr es ->
    es = filter (fun e => starts_with e.1 p = true) (sorted_entries (contents s));
  ms_set_ok k v s s' : se_set k v s = (inr tt, s') -> contents s' = <[k := v]> (contents s);
  ms_delete_ok k s s' : se_delete k s = (inr tt, s') -> contents s' = delete k (contents s);
}.

(** [InMemoryEngine]: the lock is never poisoned. *)
Record InMemoryEngine := mkInMemoryEngine { data : gmap bytes bytes }.
Definition InMemoryEngine_new : InMemoryEngine := mkInMemoryEngine ∅.
Definition mem_get (k : bytes) (s : InMemoryEngine) : bytes + option bytes := inr (data s !! k).
Definition mem_set (k v : bytes) (s : InMemoryEngine) : (bytes + unit) * InMemoryEngine :=
  (inr tt, mkInMemoryEngine (<[k := v]> (data s))).
Definition mem_delete (k : bytes) (s : InMemoryEngine) : (bytes + unit) * InMemoryEngine :=
  (inr tt, mkInMemoryEngine (delete k (data s))).
Definition mem_scan_prefix (p : bytes) (s : InMemoryEngine) : bytes + list (bytes * bytes) :=
  inr (sort_entries (filter (fun e => starts_with e.1 p = true) (map_to_list (data s)))).

#[global] Instance mem_engine : StorageEngine InMemoryEngine := {| se_set := mem_set; se_delete := mem_delete |}.
#[global] Instance mem_store : ModelStore InMemoryEngine :=
  {| ms_get := mem_get; ms_scan_prefix := mem_scan_prefix |}.
#[global] Program Instance mem_store_laws : ModelStoreLaws InMemoryEngine := {| contents := data |}.
Next Obligation. by intros k s v [= <-]. Qed.
Next Obligation.
  intros p s es [= <-]. apply sort_entries_unique; [|apply key_sorted_filter, sorted_entries_sorted].
  by rewrite sorted_entries_Permutation.
Qed.
Next Obligation. by intros k v s s' [= <-]. Qed.
Next Obligation. by intros k s s' [= <-]. Qed.

(** ** Documents *)

Abbreviation Document := (gmap bytes bytes).

Inductive QueryError :=
| Disabled
| MalformedLine (line : bytes)
| StoreError (message : bytes).

(** The characters [=], comma, [|] and line feed. *)
Definition equals : byte := Byte.x3d.
Definition comma : byte := Byte.x2c.
Definition bar : byte := Byte.x7c.
Definition line_feed : byte := Byte.x0a.

Fixpoint parse_lines (ls : list bytes) (doc : Document) : QueryError + Document :=
  match ls with
  | [] => inr doc
  | l :: ls =>
      match str_trim l with
      | [] => parse_lines ls doc
      | line => match split_once equals line with
                | Some (k, v) => parse_lines ls (<[k := v]> doc)
                | None => inl (MalformedLine line)
                end
      end
  end.
Definition parse_document (raw : bytes) : QueryError + Document := parse_lines (lines (from_utf8_lossy raw)) ∅.

(** ** Vertices *)

Record GraphVertex := mkGraphVertex {
  gv_id : bytes;
  gv_label : bytes;
  gv_edges : list bytes;
  gv_properties : gmap bytes bytes;
}.

(** Lines without [=] are passed over. *)
Fixpoint parse_properties (ls : list bytes) (props : gmap bytes bytes) : gmap bytes bytes :=
  match ls with
  | [] => props
  | l :: ls =>
      match str_trim l with
      | [] => parse_properties ls props
      | line => match split_once equals line with
                | Some (k, v) => parse_properties ls (<[k := v]> props)
                | None => parse_properties ls props
                end
      end
  end.
Definition parse_graph_vertex (id raw : bytes) : GraphVertex :=
  match lines (from_utf8_lossy raw) with
  | [] => mkGraphVertex id [] [] ∅
  | label :: rest =>
      let edges := match rest with
                   | [] => []
                   | l :: _ => match str_trim l with
                               | [] => []
                               | edge_str => str_trim <$> split_byte comma edge_str
                               end
                   end in
      mkGraphVertex id label edges (parse_properties (drop 1 rest) ∅)
  end.

(** ** Time series *)

(** [str::parse::<f64>]. *)
Class F64Lib := {
  F64 : Type;
  parse_f64 : bytes -> option F64;
}.

(** [u128::from_str_radix(s, 16)]. *)
Definition hex_value (b : byte) : option Z :=
  let x := byte_to_Z b in
  if (48 <=? x) && (x <=? 57) then Some (x - 48)
  else if (97 <=? x) && (x <=? 102) then Some (x - 87)
  else if (65 <=? x) && (x <=? 70) then Some (x - 55)
  else None.
Fixpoint hex_digits (s : bytes) (acc : Z) : option Z :=
  match s with
  | [] => Some acc
  | b :: s => match hex_value b with
              | None => None
              | Some d => let acc := acc * 16 + d in if acc <=? u128_max then hex_digits s acc else None
              end
  end.
Definition from_hex (s : bytes) : option Z :=
  let s := match s with Byte.x2b :: ((_ :: _) as r) => r | _ => s end in
  match s with [] => None | _ => hex_digits s 0 end.

Section queries.
Context {S : Type} `{!StorageEngine S, !ModelStore S} `{!F64Lib}.

Record TimeSeriesPoint := mkPoint {
  tp_timestamp : Z;
  tp_value : F64;
  tp_label : option bytes;
}.

Record MultiModelEngine := mkMultiModel {
  mm_engine : S;
  document_enabled : bool;
  time_series_enabled : bool;
  graph_enabled : bool;
}.
Definition with_engine (engine : S) : MultiModelEngine := mkMultiModel engine true true true.
Definition set_document_enabled (enabled : bool) (self : MultiModelEngine) : MultiModelEngine :=
  mkMultiModel (mm_engine self) enabled (time_series_enabled self) (graph_enabled self).
Definition set_time_series_enabled (enabled : bool) (self : MultiModelEngine) : MultiModelEngine :=
  mkMultiModel (mm_engine self) (document_enabled self) enabled (graph_enabled self).
Definition set_graph_enabled (enabled : bool) (self : MultiModelEngine) : MultiModelEngine :=
  mkMultiModel (mm_engine self) (document_enabled self) (time_series_enabled self) enabled.

Definition query_document (key : bytes) (self : MultiModelEngine) : QueryError + Document :=
  if negb (document_enabled self) then inl Disabled
  else match ms_get key (mm_engine self) with
       | inl e => inl (StoreError e)
       | inr (Some raw) => parse_document raw
       | inr None => inr ∅
       end.

Definition query_graph (vertex_id : bytes) (self : MultiModelEngine) : QueryError + GraphVertex :=
  if negb (graph_enabled self) then inl Disabled
  else match ms_get (lit "graph/" ++ vertex_id) (mm_engine self) with
       | inl e => inl (StoreError e)
       | inr (Some raw) => inr (parse_graph_vertex vertex_id raw)
       | inr None => inr (mkGraphVertex vertex_id [] [] ∅)
       end.

(** The point an entry holds, if it is one and in the range. *)
Definition read_point (start_ts end_ts : Z) (e : bytes * bytes) : option TimeSeriesPoint :=
  match str_strip_prefix (lit "ts/") (from_utf8_lossy e.1) with
  | None => None
  | Some ts_hex =>
      match from_hex ts_hex with
      | None => None
      | Some timestamp =>
          if (start_ts <? timestamp) && (timestamp <=? end_ts) then
            let value_str := from_utf8_lossy e.2 in
            let '(val_str, label) := match split_once bar value_str with
                                     | Some (v, l) => (v, Some l)
                                     | None => (value_str, None)
                                     end in
            match parse_f64 val_str with
            | Some val => Some (mkPoint timestamp val label)
            | None => None
            end
          else None
      end
  end.

(** The stable sort by timestamp. *)
Fixpoint insert_point (p : TimeSeriesPoint) (ps : list TimeSeriesPoint) : list TimeSeriesPoint :=
  match ps with
  | [] => [p]
  | q :: ps => if tp_timestamp q <=? tp_timestamp p then q :: insert_point p ps else p :: q :: ps
  end.
Definition sort_points (ps : list TimeSeriesPoint) : list TimeSeriesPoint := foldl (fun l p => insert_point p l) [] ps.

Definition query_time_series (start_ts end_ts : Z) (self : MultiModelEngine) : QueryError + list TimeSeriesPoint :=
  if negb (time_series_enabled self) then inl Disabled
  else match ms_scan_prefix (lit "ts/") (mm_engine self) with
       | inl e => inl (StoreError e)
       | inr entries => inr (sort_points (omap (read_point start_ts end_ts) entries))
       end.
End queries.

(** ** Reading back what was written *)

(** A line that [lines] and [trim] give back. *)
Definition plain_line (l : bytes) : Prop :=
  l <> [] /\ line_feed ∉ l /\ last l <> Some Byte.x0d /\ str_trim l = l.

Lemma split_byte_line sep l rest : sep ∉ l -> split_byte sep (l ++ sep :: rest) = l :: split_byte sep rest.
Proof.
  induction l as [|b l IH]; intros Hl; cbn [app split_byte].
  - by rewrite Byte.byte_dec_lb.
  - apply not_elem_of_cons in Hl as [Hne Hl]. rewrite IH by done.
    destruct (Byte.eqb b sep) eqn:E; [|done]. apply Byte.byte_dec_bl in E. congruence.
Qed.
Lemma split_byte_nonempty sep s : split_byte sep s <> [].
Proof. destruct s as [|b s]; [done|]. cbn. destruct (Byte.eqb b sep); [done|]. by destruct (split_byte sep s). Qed.

Lemma strip_cr_plain l : last l <> Some Byte.x0d -> strip_cr l = l.
Proof.
  intros Hl. unfold strip_cr. destruct (reverse l) as [|b r] eqn:E; [done|].
  assert (last l = Some b) as Hb.
  { rewrite <- (reverse_involutive l), E, reverse_cons. apply last_snoc. }
  rewrite Hb in Hl. by destruct b.
Qed.

Lemma lines_concat ls : Forall plain_line ls -> lines (concat ((fun l => l ++ [line_feed]) <$> ls)) = ls.
Proof.
  intros Hls. unfold lines. induction Hls as [|l ls (Hne & Hlf & Hcr & _) _ IH]; [done|].
  set (text := concat ((fun l => l ++ [line_feed]) <$> ls)) in *.
  change (concat ((fun l => l ++ [line_feed]) <$> l :: ls)) with ((l ++ [line_feed]) ++ text).
  rewrite <- app_assoc. cbn [app]. change Byte.x0a with line_feed in *. rewrite split_byte_line by done.
  pose proof (split_byte_nonempty line_feed text) as Hsp. revert IH Hsp.
  destruct (split_byte line_feed text) as [|seg segs]; [done|]. intros IH _.
  cbn [lines_of] in *. rewrite strip_cr_plain by done. by rewrite IH.
Qed.

Lemma split_once_app c k v : c ∉ k -> split_once c (k ++ c :: v) = Some (k, v).
Proof.
  intros Hk. unfold split_once.
  assert (find [c] (k ++ c :: v) = Some (length k)) as ->.
  { induction k as [|b k IH]; cbn [app find length].
    - cbn [starts_with]. rewrite bool_decide_eq_true_2 by done. by destruct v.
    - apply not_elem_of_cons in Hk as [Hne Hk]. cbn [starts_with]. rewrite bool_decide_eq_false_2 by done. cbn [andb].
      by rewrite IH. }
  rewrite take_app_length. replace (S (length k)) with (length (k ++ [c])) by (rewrite length_app; cbn; lia).
  rewrite (app_assoc k [c] v : k ++ c :: v = _), drop_app_length. done.
Qed.

(** ** Documents *)

Definition entry_line (e : bytes * bytes) : bytes := e.1 ++ equals :: e.2.
Definition document_text (doc : Document) : bytes :=
  concat ((fun l => l ++ [line_feed]) <$> (entry_line <$> map_to_list doc)).

(** Fields that the format can hold. *)
Definition plain_field (e : bytes * bytes) : Prop := equals ∉ e.1 /\ plain_line (entry_line e).

Lemma parse_entry_lines es doc : Forall plain_field es ->
  parse_lines (entry_line <$> es) doc = inr (foldl (fun d e => <[e.1 := e.2]> d) doc es).
Proof.
  intros Hes. revert doc. induction Hes as [|e es [Hk (Hne & _ & _ & Ht)] _ IH]; intros doc; [done|].
  cbn [fmap list_fmap parse_lines foldl]. rewrite Ht. unfold entry_line at 1.
  destruct (e.1 ++ equals :: e.2) as [|b l] eqn:E; [by destruct e.1|]. rewrite <- E.
  rewrite split_once_app by done. apply IH.
Qed.

Lemma foldl_insert_map (es : list (bytes * bytes)) (m : gmap bytes bytes) :
  NoDup es.*1 -> foldl (fun d e => <[e.1 := e.2]> d) m es = list_to_map es ∪ m.
Proof.
  revert m. induction es as [|[k v] es IH]; intros m; cbn [fmap list_fmap foldl].
  { intros _. by rewrite list_to_map_nil, (left_id_L ∅ (∪)). }
  intros [Hk Hes]%NoDup_cons. cbn [fst snd]. rewrite IH by done.
  rewrite list_to_map_cons, <- insert_union_l, insert_union_r; [done|]. by apply not_elem_of_list_to_map.
Qed.

Lemma parse_document_text doc :
  Forall plain_field (map_to_list doc) -> is_Some (from_utf8 (document_text doc)) ->
  parse_document (document_text doc) = inr doc.
Proof.
  intros Hp Ht. unfold parse_document. rewrite text_lossy by done. unfold document_text at 1.
  rewrite lines_concat.
  - rewrite parse_entry_lines by done. rewrite foldl_insert_map by apply NoDup_fst_map_to_list.
    by rewrite list_to_map_to_list, (right_id_L ∅ (∪)).
  - apply Forall_fmap. eapply Forall_impl; [exact Hp|]. by intros e [_ He].
Qed.

(** ** Time series *)

Section time_series.
Context {S : Type} `{!StorageEngine S, !ModelStore S, !ModelStoreLaws S} `{!F64Lib}.

Definition in_order (ps : list TimeSeriesPoint) : Prop :=
  StronglySorted (fun p q => tp_timestamp p <= tp_timestamp q) ps.

Lemma insert_point_perm p ps : insert_point p ps ≡ₚ p :: ps.
Proof. induction ps as [|q ps IH]; cbn; [done|]. destruct (_ <=? _); [|done]. rewrite IH. by constructor. Qed.
Lemma insert_point_sorted p ps : in_order ps -> in_order (insert_point p ps).
Proof.
  unfold in_order. induction 1 as [|q ps Hs IH Hq]; cbn; [by repeat constructor|].
  destruct (Z.leb_spec (tp_timestamp q) (tp_timestamp p)) as [Hle|Hlt].
  - constructor; [done|]. rewrite insert_point_perm. by constructor.
  - constructor; [by constructor|]. constructor; [lia|]. eapply Forall_impl; [exact Hq|]. cbn. intros. lia.
Qed.
Lemma sort_points_spec ps : sort_points ps ≡ₚ ps /\ in_order (sort_points ps).
Proof.
  unfold sort_points. enough (forall l, in_order l ->
    foldl (fun l p => insert_point p l) l ps ≡ₚ l ++ ps /\ in_order (foldl (fun l p => insert_point p l) l ps)) as Hg
    by (destruct (Hg [] ltac:(constructor)); done).
  induction ps as [|p ps IH]; intros l Hl; cbn [foldl]; [by rewrite app_nil_r|].
  destruct (IH (insert_point p l)) as [Hp Hs]; [by apply insert_point_sorted|]. split; [|done].
  rewrite Hp, insert_point_perm. cbn. by rewrite <- Permutation_middle.
Qed.

(** A query of a time series gives the points of the stored entries in the range, in the order
    of time, each as often as it is stored. *)
Theorem time_series_exact start_ts end_ts (self : MultiModelEngine (S := S)) ps :
  query_time_series start_ts end_ts self = inr ps ->
  in_order ps /\
  ps ≡ₚ omap (read_point start_ts end_ts)
          (filter (fun e => starts_with e.1 (lit "ts/") = true) (sorted_entries (contents (mm_engine self)))).
Proof.
  unfold query_time_series. destruct (negb _); [done|].
  destruct (ms_scan_prefix _ _) as [e|es] eqn:Es; [done|]. intros [= <-]. apply ms_scan_ok in Es as ->.
  destruct (sort_points_spec (omap (read_point start_ts end_ts)
    (filter (fun e => starts_with e.1 (lit "ts/") = true) (sorted_entries (contents (mm_engine self)))))) as [Hp Hs].
  done.
Qed.

(** A document that is written is what a query reads, over any store that fulfils its contract. *)
Theorem document_roundtrip key doc (self : MultiModelEngine (S := S)) engine :
  Forall plain_field (map_to_list doc) -> is_Some (from_utf8 (document_text doc)) ->
  se_set key (document_text doc) (mm_engine self) = (inr tt, engine) ->
  forall v, ms_get key engine = inr v ->
  query_document key (mkMultiModel engine true (time_series_enabled self) (graph_enabled self)) = inr doc.
Proof.
  intros Hp Ht Hset v Hget. unfold query_document. cbn [document_enabled negb mm_engine]. rewrite Hget.
  apply ms_get_ok in Hget as ->. rewrite (ms_set_ok _ _ _ _ Hset), lookup_insert_eq. by apply parse_document_text.
Qed.
End time_series.
