(* ===== verification/Instances.v ===== *)
(** * Instances: concrete third-party crates

    One instance per class of [Extern], so that every hypothesis on a crate is
    seen to hold of some function and the model can be run.  CRC-32 and the
    postcard format ([Postcard]) are the real ones; compression is a stored
    block behind the length prefix, the cipher is the identity followed by a
    16-byte tag made of nonce and key, the Bloom filter remembers first bytes,
    and the cache empties itself when it grows.  The file then checks the
    SSTable theorems on a concrete table. *)
From Stdlib Require Import ZArith Lia QArith.
From stdpp Require Import base tactics numbers list gmap strings.
From S2P Require Import Prelude Bytes SortedMap LogRecord Extern Encryption.
From S2P Require Import PrefixCompression Block BinarySearch SstBuilder.
From S2P Require Import SstReader Postcard Wal.
Local Open Scope Z_scope.

(** ** CRC-32 (IEEE, reflected) *)

Fixpoint crc_shift (n : nat) (c : Z) : Z :=
  match n with
  | O => c
  | S n => crc_shift n (if Z.testbit c 0 then Z.lxor (Z.shiftr c 1) 0xEDB88320 else Z.shiftr c 1)
  end.
Definition crc_byte (c : Z) (b : byte) : Z :=
  crc_shift 8 (Z.lxor c (byte_to_Z b)).
Definition crc32_ieee (bs : bytes) : Z :=
  Z.land (Z.lxor (foldl crc_byte 0xFFFFFFFF bs) 0xFFFFFFFF) 0xFFFFFFFF.

Lemma crc32_ieee_range bs : 0 <= crc32_ieee bs <= u32_max.
Proof.
  unfold crc32_ieee. generalize (Z.lxor (foldl crc_byte 0xFFFFFFFF bs) 0xFFFFFFFF). intros x.
  rewrite (Z.land_ones x 32 ltac:(lia) : Z.land x 0xFFFFFFFF = _).
  pose proof (Z.mod_pos_bound x (2 ^ 32) ltac:(lia)). unfold u32_max.
  change (2 ^ 32) with 4294967296 in *. lia.
Qed.

#[global] Instance crc32_instance : Crc32 := {| crc32 := crc32_ieee; crc32_range := crc32_ieee_range |}.

(** The check value of the CRC catalogue, on the ASCII digits 1 to 9. *)
Example crc32_check :
  crc32 [Byte.x31; Byte.x32; Byte.x33; Byte.x34; Byte.x35; Byte.x36; Byte.x37; Byte.x38; Byte.x39]
  = 0xCBF43926.
Proof. vm_compute. reflexivity. Qed.

(** ** Compression, encryption, Bloom filter, cache *)

Definition stored_compress (b : bytes) : bytes := u32_le (len b) ++ b.
Definition stored_decompress (c : bytes) : option bytes :=
  if 4 <=? len c then
    if from_le_bytes (take 4 c) =? len (drop 4 c) then Some (drop 4 c) else None
  else None.

Lemma stored_roundtrip b : len b <= u32_max -> stored_decompress (stored_compress b) = Some b.
Proof.
  intros Hb. unfold stored_decompress, stored_compress. pose proof (len_nonneg b).
  rewrite (proj2 (Z.leb_le _ _)) by len_lia.
  assert (length (u32_le (len b)) = 4%nat) as Hl.
  { pose proof (len_u32_le (len b)) as E. unfold len at 1 in E. lia. }
  rewrite take_app_length' by done. rewrite drop_app_length' by done.
  by rewrite from_u32_le, Z.eqb_refl by lia.
Qed.

#[global] Program Instance lz4_instance : Lz4 :=
  {| compress_prepend_size := stored_compress; decompress_size_prepended := stored_decompress |}.
Next Obligation. intros. by apply stored_roundtrip. Qed.
Next Obligation. intros b Hb. by exists b. Qed.
Next Obligation.
  intros b. unfold stored_compress. pose proof (len_nonneg b).
  pose proof (Z.div_pos (len b) 255 ltac:(lia) ltac:(lia)). autorewrite with apex. lia.
Qed.

Definition aead_tag (k n : bytes) : bytes := take 16 (n ++ k ++ replicate 16 Byte.x00).
Lemma length_aead_tag k n : length (aead_tag k n) = 16%nat.
Proof. unfold aead_tag. rewrite length_take, !length_app, length_replicate. lia. Qed.

Definition tag_decrypt (k n c : bytes) : option bytes :=
  let m := (length c - 16)%nat in
  if bool_decide (16 <= length c)%nat && bool_decide (drop m c = aead_tag k n)
  then Some (take m c) else None.

#[global] Program Instance aead_instance : Aead :=
  {| aead_encrypt k n p := Some (p ++ aead_tag k n); aead_decrypt := tag_decrypt |}.
Next Obligation.
  intros k n p c [= <-]. unfold tag_decrypt. pose proof (length_aead_tag k n).
  rewrite length_app. replace (length p + length (aead_tag k n) - 16)%nat with (length p) by lia.
  rewrite drop_app_length, take_app_length, !bool_decide_true by (lia || done). done.
Qed.
Next Obligation.
  intros k n p c [= <-]. rewrite len_app. unfold len at 2. rewrite length_aead_tag. lia.
Qed.

Definition first_byte (k : bytes) : byte := match k with [] => Byte.x00 | b :: _ => b end.

#[global] Program Instance bloom_instance : BloomCrate :=
  {| Bloom := bytes;
     bloom_new_for_fp_rate n p := Some [];
     bloom_set b k := first_byte k :: b;
     bloom_check b k := bool_decide (first_byte k ∈ b);
     bloom_into_bytes b := b;
     bloom_from_bytes b := Some b |}.
Next Obligation. intros b k. apply bool_decide_true. set_solver. Qed.
Next Obligation.
  intros b k k'. cbn beta. rewrite !bool_decide_eq_true. set_solver.
Qed.
Next Obligation. intros b. eauto. Qed.

#[global] Program Instance moka_instance {K V} `{Countable K} : Moka K V :=
  {| moka_evict m := if bool_decide (size m <= 2)%nat then m else ∅ |}.
Next Obligation.
  intros. cbn beta. case_bool_decide; [done|apply map_empty_subseteq].
Qed.

(** ** A concrete table *)

Definition sample_key (c : byte) (n : byte) : bytes := [Byte.x6b; c; n].
Definition sample_records : list (bytes * LogRecord) :=
  [ (sample_key Byte.x61 Byte.x31, LogRecord_new 10 (sample_key Byte.x61 Byte.x31) [Byte.x01]);
    (sample_key Byte.x61 Byte.x32, tombstone 11 (sample_key Byte.x61 Byte.x32));
    (sample_key Byte.x62 Byte.x31, new_with_ttl 12 (sample_key Byte.x62 Byte.x31) [Byte.x02; Byte.x03] 7);
    (sample_key Byte.x63 Byte.x31, LogRecord_new 13 (sample_key Byte.x63 Byte.x31) []) ].
(** 64-byte blocks hold two of these entries; prefix compression is on. *)
Definition sample_config : StorageConfig :=
  {| sc_block_size := 64; sc_bloom_false_positive_rate := (1 # 100)%Q;
     sc_prefix_compression_enabled := true |}.
Definition sample_encryption : EncryptionConfig :=
  {| ec_key := replicate 32 Byte.x07; ec_enabled := true |}.
Definition sample_rng (i : nat) : option bytes := Some (replicate 12 (byte_of_Z (Z.of_nat i))).
Definition sample_file : bytes :=
  match sst_build sample_config 99 sample_encryption sample_rng sample_records with
  | Ok f => f
  | _ => []
  end.

Lemma sample_build :
  sst_build sample_config 99 sample_encryption sample_rng sample_records = Ok sample_file.
Proof. vm_compute. reflexivity. Qed.

Lemma sample_rng_ok i n : sample_rng i = Some n -> len n = 12.
Proof. intros [= <-]. done. Qed.

Lemma sample_storable : storable sample_config sample_records.
Proof.
  split.
  - repeat constructor; cbn -[len encode]; try (vm_compute; discriminate);
      intros v Hv; vm_compute in Hv; injection Hv as <-; vm_compute; discriminate.
  - intros _. split; [vm_compute; intuition discriminate|]. repeat constructor.
Qed.

(** Two blocks, and a file that reads back. *)
Example sample_blocks :
  match rd_open sample_file 5 sample_encryption true with
  | Ok r => length (mb_blocks (rd_metadata r))
  | _ => 0%nat
  end = 2%nat.
Proof. vm_compute. reflexivity. Qed.

(** ** The theorems at the concrete table *)

Lemma sst_build_sorted_witness : key_sorted sample_records /\ sample_records <> [].
Proof.
  apply (sst_build_sorted sample_config 99 sample_encryption sample_rng sample_records sample_file).
  - vm_compute. split; discriminate.
  - apply sample_rng_ok.
  - apply sample_storable.
  - apply sample_build.
Defined.

Definition sample_ops : list read_op :=
  [ReadGet (sample_key Byte.x61 Byte.x31); ReadScan None None; ReadGet (sample_key Byte.x7a Byte.x31);
   ReadScan (Some (sample_key Byte.x62 Byte.x00)) None; ReadGet (sample_key Byte.x63 Byte.x31)].

Lemma sstable_cache_transparent_witness :
  exists r, rd_open sample_file 5 sample_encryption true = Ok r /\
    run_reads r ∅ sample_ops = read_spec sample_records <$> sample_ops.
Proof.
  apply (sstable_cache_transparent sample_config 99 sample_encryption sample_rng sample_records sample_file).
  - vm_compute. split; discriminate.
  - apply sample_rng_ok.
  - apply sample_storable.
  - vm_compute. discriminate.
  - apply sample_build.
Defined.

Definition sample_payload : bytes := [Byte.x01; Byte.x02; Byte.x03].
Definition sample_nonce : bytes := replicate 12 Byte.x09.
Definition sample_cipher : bytes := sample_nonce ++ sample_payload ++ aead_tag (replicate 32 Byte.x07) sample_nonce.

Lemma encrypted_payload_recovery_witness :
  (enabled (Encryptor_new sample_encryption) = true ->
   decrypt_for_recovery (Encryptor_new sample_encryption) sample_cipher = Ok sample_payload) /\
  (decrypt_for_recovery Encryptor_disabled sample_cipher = Err EncryptionKeyRequired \/
   decrypt_for_recovery Encryptor_disabled sample_cipher = Err LegacyEncryptionMigrationRequired).
Proof.
  apply (encrypted_payload_recovery (Encryptor_new sample_encryption) sample_nonce sample_payload).
  - reflexivity.
  - vm_compute. reflexivity.
Defined.

(** A block with the entries of [sample_entries]. *)
Definition sample_block : Block := (add_all (Block_new 64) sample_entries).1.

Lemma sample_block_built : built 64 sample_entries sample_block.
Proof.
  apply (add_all_built 64 [] (Block_new 64) sample_entries); [constructor| |].
  - repeat constructor; vm_compute; discriminate.
  - vm_compute. reflexivity.
Qed.

Lemma block_encode_within_block_size_witness : len (block_encode sample_block) <= 64.
Proof.
  apply (block_encode_within_block_size 64 sample_entries sample_block).
  - vm_compute. split; discriminate.
  - apply sample_block_built.
  - discriminate.
Defined.

Lemma block_roundtrip_witness :
  (exists f, block_decode (block_encode sample_block)
    = Ok {| blk_data := raw_data sample_entries; blk_offsets := raw_offsets 0 sample_entries;
            block_size := BLOCK_SIZE; flags := f |}) /\
  (exists b' f, compress_keys sample_block = Ok b' /\ block_decode (block_encode b')
    = Ok {| blk_data := raw_data sample_entries; blk_offsets := raw_offsets 0 sample_entries;
            block_size := BLOCK_SIZE; flags := f |}).
Proof.
  apply (block_roundtrip 64 sample_entries sample_block).
  - vm_compute. split; discriminate.
  - apply sample_block_built.
  - vm_compute. intuition discriminate.
  - discriminate.
Defined.

Lemma block_decode_detects_mismatch_witness :
  block_decode (replicate 5 Byte.x00 ++ u32_le 1) = Err CorruptedData.
Proof.
  apply (block_decode_detects_mismatch (replicate 5 Byte.x00) 1); vm_compute; intuition discriminate.
Defined.

Lemma block_decode_panics_on_count_witness :
  block_decode ((u32_le 1000 ++ [byte_of_Z 0]) ++ u32_le (crc32 (u32_le 1000 ++ [byte_of_Z 0]))) = Panic.
Proof. apply (block_decode_panics_on_count 1000). vm_compute. intuition discriminate. Defined.

Lemma add_truncates_long_value_witness :
  exists b', add (Block_new 131072) [Byte.x61] (replicate (Z.to_nat 65536) Byte.x00) = (b', true) /\
             read_u16 (blk_data b') (2 + len [Byte.x61]) = Ok 0.
Proof.
  apply (add_truncates_long_value 131072 [Byte.x61] (replicate (Z.to_nat 65536) Byte.x00)).
  - vm_compute. discriminate.
  - unfold len. rewrite length_replicate. lia.
  - vm_compute. discriminate.
Defined.

(** ** The write-ahead log *)

Definition c_LogRecordV0 : codec LogRecordV0 :=
  c_iso (c_pair c_bytes (c_pair c_bytes (c_pair c_u128 c_bool)))
    (fun r => (v0_key r, (v0_value r, (v0_timestamp r, v0_is_deleted r))))
    (fun '(k, (v, (t, d))) => mkLogRecordV0 k v t d)
    (fun r => match r with mkLogRecordV0 _ _ _ _ => eq_refl end).
Definition c_LogRecordV1 : codec LogRecordV1 :=
  c_iso (c_pair c_bytes (c_pair c_bytes (c_pair c_u128 (c_pair c_bool (c_option c_string)))))
    (fun r => (v1_key r, (v1_value r, (v1_timestamp r, (v1_is_deleted r, v1_column_family r)))))
    (fun '(k, (v, (t, (d, cf)))) => mkLogRecordV1 k v t d cf)
    (fun r => match r with mkLogRecordV1 _ _ _ _ _ => eq_refl end).
#[global] Instance postcard_V0 : Postcard LogRecordV0 := postcard_of c_LogRecordV0.
#[global] Instance postcard_V1 : Postcard LogRecordV1 := postcard_of c_LogRecordV1.

(** A log with an overwritten key, a range tombstone and a delete, and its
    frames: the first one is a version-0 frame of an older engine. *)
Definition log_records : list LogRecord :=
  [ LogRecord_new 1 [Byte.x61] [Byte.x01]; LogRecord_new 2 [Byte.x62] [Byte.x02];
    range_tombstone 3 [Byte.x61] [Byte.x63]; LogRecord_new 4 [Byte.x61] [Byte.x03];
    tombstone 5 [Byte.x62] ].
Definition ok_default {A} (d : A) (m : outcome A) : A := match m with Ok a => a | _ => d end.
Definition plain : EncryptionConfig := EncryptionConfig_default.
Definition no_rng (i : nat) : option bytes := None.
Definition frame2 (r : LogRecord) : bytes := ok_default [] (encode_frame (Encryptor_new plain) None r).
Definition log_frames : list bytes :=
  frame_bytes 0 (ok_default [] (encode (mkLogRecordV0 [Byte.x61] [Byte.x01] 1 false)))
  :: (frame2 <$> drop 1 log_records).
Definition log_wal : WriteAheadLog := wal_open (concat log_frames) plain no_rng.

Ltac solve_frame v p :=
  exists v, p; split; [vm_compute; reflexivity|]; split; [lia|];
  split; [vm_compute; discriminate|vm_compute; reflexivity].

Lemma log_frames_ok : frames_of (Encryptor_new plain) log_records log_frames.
Proof.
  unfold frames_of, log_frames. cbn [drop log_records fmap list_fmap].
  constructor; [|repeat constructor].
  - solve_frame 0 (ok_default [] (encode (mkLogRecordV0 [Byte.x61] [Byte.x01] 1 false))).
  - solve_frame 2 (ok_default [] (encode (LogRecord_new 2 [Byte.x62] [Byte.x02]))).
  - solve_frame 2 (ok_default [] (encode (range_tombstone 3 [Byte.x61] [Byte.x63]))).
  - solve_frame 2 (ok_default [] (encode (LogRecord_new 4 [Byte.x61] [Byte.x03]))).
  - solve_frame 2 (ok_default [] (encode (tombstone 5 [Byte.x62]))).
Qed.

Lemma log_frames_small : small_frames log_frames.
Proof. repeat constructor; vm_compute; reflexivity. Qed.

Lemma wal_recover_exact_witness :
  (recover log_wal).2 = Ok (last_writes (recoverable 0 log_records log_frames)).
Proof.
  apply (wal_recover_exact log_wal log_records log_frames).
  - reflexivity.
  - apply log_frames_ok.
  - apply log_frames_small.
Defined.

Example log_recovered :
  (recover log_wal).2
  = Ok [range_tombstone 3 [Byte.x61] [Byte.x63]; LogRecord_new 4 [Byte.x61] [Byte.x03]; tombstone 5 [Byte.x62]].
Proof. vm_compute. reflexivity. Qed.

Lemma wal_recover_prefix_witness :
  exists n, (recover log_wal).2 = Ok (last_writes (take n log_records)).
Proof.
  apply (wal_recover_prefix log_wal log_records log_frames); [reflexivity|apply log_frames_ok].
Defined.

(** The same log, cut in the middle of the frame of a sixth record. *)
Definition torn_record : LogRecord := LogRecord_new 6 [Byte.x64] [Byte.x04].
Definition torn_bytes : bytes := take 9 (frame2 torn_record).
Definition torn_wal : WriteAheadLog := wal_open (concat log_frames ++ torn_bytes) plain no_rng.

Lemma torn_frame : frame_of (Encryptor_new plain) torn_record (frame2 torn_record).
Proof. solve_frame 2 (ok_default [] (encode torn_record)). Qed.

Lemma torn_no_frame : no_frame_inside torn_bytes.
Proof.
  intros i Hi. do 9 (destruct i as [|i]; [try lia; vm_compute; reflexivity|]).
  rewrite drop_ge; [reflexivity|]. change (length torn_bytes) with 9%nat. lia.
Qed.

Lemma wal_recover_torn_tail_witness : (recover torn_wal).2 = Ok (last_writes log_records).
Proof.
  apply (wal_recover_torn_tail torn_wal log_records log_frames torn_record (frame2 torn_record) torn_bytes).
  - apply log_frames_ok.
  - apply log_frames_small.
  - vm_compute. intuition reflexivity.
  - apply torn_frame.
  - exists (drop 9 (frame2 torn_record)). symmetry. apply take_drop.
  - vm_compute. discriminate.
  - apply torn_no_frame.
  - reflexivity.
Defined.

(** Six appends and a batch with the default interval of 4. *)
Definition durability_ops : list wal_op :=
  (WalWrite <$> log_records) ++ [WalWrite torn_record; WalBatch [torn_record; torn_record]; WalWrite torn_record].
Definition durability_wal : WriteAheadLog :=
  ok_default log_wal (run_wal (set_sync_interval (wal_open [] sample_encryption sample_rng) 4) durability_ops).

Definition durability_sizes : list Z :=
  frame_size (Encryptor_new sample_encryption) <$> concat (logged <$> durability_ops).
(** The crash leaves all synced bytes and three bytes of the last append. *)
Definition crash_point : Z := wal_synced durability_wal + 3.

Lemma durability_torn : no_frame_inside (torn_tail durability_sizes crash_point (wal_file durability_wal)).
Proof.
  assert (length (torn_tail durability_sizes crash_point (wal_file durability_wal)) = 3%nat) as Hl
    by (vm_compute; reflexivity).
  intros i Hi. rewrite drop_ge; [reflexivity|]. lia.
Qed.

Lemma wal_crash_durability_witness :
  complete_frames durability_sizes crash_point = 8%nat /\
  (recover (wal_open (take (Z.to_nat crash_point) (wal_file durability_wal)) sample_encryption no_rng)).2
  = Ok (last_writes (take (complete_frames durability_sizes crash_point) (concat (logged <$> durability_ops)))) /\
  len (concat (logged <$> durability_ops)) - Z.of_nat (complete_frames durability_sizes crash_point) < Z.max 1 4.
Proof.
  split; [vm_compute; reflexivity|].
  apply (wal_crash_durability sample_encryption sample_rng no_rng 4 durability_ops durability_wal crash_point).
  - apply sample_rng_ok.
  - vm_compute. reflexivity.
  - unfold crash_point. lia.
  - vm_compute. intuition reflexivity.
  - apply durability_torn.
Defined.

(** Dropping the records of one key from the log. *)
Definition retain_predicate (r : LogRecord) : bool := negb (bytes_eqb (key r) [Byte.x62]).
Definition retained_wal : WriteAheadLog := ok_default log_wal (wal_retain log_wal retain_predicate).

Lemma wal_retain_rewrites_witness :
  exists all fs,
    (recover log_wal).2 = Ok all /\
    wal_file retained_wal = concat fs /\ wal_synced retained_wal = len (wal_file retained_wal) /\
    Forall2 (fun r f => exists nonce, encode_frame (wal_encryptor log_wal) nonce r = Ok f)
      (filter (fun r => retain_predicate r = true) all) fs.
Proof.
  apply (wal_retain_rewrites log_wal retain_predicate retained_wal). vm_compute. reflexivity.
Defined.

(** Encrypting the log. *)
Definition const_rng (i : nat) : option bytes := Some sample_nonce.
Lemma log_migratable : Forall (migratable (Encryptor_new sample_encryption) const_rng) log_records.
Proof.
  repeat constructor;
    try (intros i; eexists; vm_compute; reflexivity);
    (eexists; split; [vm_compute; reflexivity|vm_compute; discriminate]).
Qed.

Lemma wal_migration_lossless_witness :
  exists w fs',
    rewrite_for_migration (concat log_frames) plain sample_encryption false const_rng = Ok (w, len log_records) /\
    wal_file w = concat fs' /\ wal_synced w = len (wal_file w) /\
    Forall2 (fun r f => exists i, encode_frame (Encryptor_new sample_encryption) (const_rng i) r = Ok f)
      log_records fs'.
Proof.
  apply (wal_migration_lossless (concat log_frames) plain sample_encryption false const_rng log_records log_frames).
  - apply log_frames_ok.
  - apply log_migratable.
  - reflexivity.
Defined.

Lemma wal_migration_refuses_torn_witness :
  rewrite_for_migration (concat log_frames ++ torn_bytes) plain sample_encryption false const_rng
  = Err (Io UnexpectedEof).
Proof.
  apply (wal_migration_refuses_torn (concat log_frames ++ torn_bytes) plain sample_encryption false const_rng
           log_records log_frames torn_record (frame2 torn_record) torn_bytes).
  - apply log_frames_ok.
  - apply log_migratable.
  - apply torn_frame.
  - exists (drop 9 (frame2 torn_record)). symmetry. apply take_drop.
  - vm_compute. discriminate.
  - vm_compute. discriminate.
  - reflexivity.
Defined.

(** ** A synced record that recovery does not see *)

(** A first record whose frame has 8190 bytes puts the second frame two bytes
    before the end of the first 8 KiB buffer. *)
Definition long_record : LogRecord := LogRecord_new 1 [Byte.x61] (replicate (Z.to_nat 8171) Byte.x00).
Definition lost_record : LogRecord := LogRecord_new 2 [Byte.x62] [Byte.x02].

(** two records are appended and synced to the log and are intact in the
    file, yet recovery returns only the first: the second frame starts two bytes
    before the end of the reader's buffer, which the loop takes for the end of
    the log. *)
Theorem wal_recover_loses_synced_record :
  exists w, run_wal (set_sync_interval (wal_open [] plain no_rng) 1) [WalWrite long_record; WalWrite lost_record] = Ok w /\
    wal_synced w = len (wal_file w) /\
    (recover w).2 = Ok [long_record].
Proof.
  eexists. split; [vm_compute; reflexivity|]. split; vm_compute; reflexivity.
Qed.
