(* ===== verification/EngineInstances.v ===== *)
(** * EngineInstances: the engine on concrete inputs

    An environment for the model of the engine (a clock that counts, small
    blocks, a reader for one-field JSON documents), histories run in it, and the
    theorems of the engine applied to them. *)
From Stdlib Require Import ZArith Lia QArith.
From stdpp Require Import base tactics numbers list gmap strings sorting pretty.
From S2P Require Import Prelude Bytes SortedMap LogRecord Iterators.
From S2P Require Import MemTable Extern Encryption SstBuilder SstReader Wal.
From S2P Require Import Postcard Table Store VersionSet Utf8 Engine.
From S2P Require Import EngineSpec Recovery Durability Instances.
Local Open Scope Z_scope.

(** ** JSON documents with one string field *)

Fixpoint split_at (sep : bytes) (acc b : bytes) : option (bytes * bytes) :=
  if starts_with b sep then Some (reverse acc, drop (length sep) b)
  else match b with
       | [] => None
       | x :: b => split_at sep (x :: acc) b
       end.
(** [{'f':'v'}], with double quotes. *)
Definition quote : bytes := [Byte.x22].
Definition json_document (b : bytes) : option (bytes -> option bytes) :=
  if starts_with b (lit "{" ++ quote) then
    match split_at (quote ++ lit ":" ++ quote) [] (drop 2 b) with
    | Some (field, rest) =>
        match split_at (quote ++ lit "}") [] rest with
        | Some (v, []) => Some (fun f => if bytes_eqb f field then Some v else None)
        | _ => None
        end
    | None => None
    end
  else None.
#[global] Instance json_instance : SerdeJson := {| json_str_field := json_document; json_empty := eq_refl |}.

(** ** Options, clock, storage *)

Definition sample_options : EngineOptions :=
  {| write_buffer_size := 40; max_write_buffer_number := 1; compaction_options := CompactionOptions_default;
     default_ttl := None; eo_encryption := sample_encryption; eo_wal_sync_interval := 4 |}.
#[global] Instance sample_env : EngineEnv :=
  {| options := sample_options; clock i := 1000 + Z.of_nat i; wal_entropy _ := sample_rng |}.

Definition engine_config : StorageConfig :=
  {| sc_block_size := 128; sc_bloom_false_positive_rate := (1 # 100)%Q;
     sc_prefix_compression_enabled := false |}.
#[global] Program Instance sample_store_params : StoreParams :=
  {| sp_config := engine_config; sp_encryption := sample_encryption; sp_rng _ := sample_rng |}.
Next Obligation. done. Qed.
Next Obligation. split; vm_compute; discriminate. Qed.
Next Obligation. intros n i b. apply sample_rng_ok. Qed.

Lemma sample_clock_mono (i : nat) : 0 <= clock i < clock (S i).
Proof. cbn. lia. Qed.

(** ** Entries that fit in a table *)

Lemma length_enc_varint n x : (length (enc_varint n x) <= n)%nat.
Proof. revert x; induction n as [|n IH]; intros x; [done|]. cbn [enc_varint]. case_match; cbn; [lia|]. specialize (IH (x / 128)). lia. Qed.

Lemma enc_uint_len n m H x b : c_enc (c_uint n m H) x = Some b -> len b <= Z.of_nat n.
Proof.
  cbn. case_match; [|done]. intros [= <-]. unfold len. pose proof (length_enc_varint n x). lia.
Qed.

Lemma enc_bytes_len l b : c_enc c_bytes l = Some b -> len b <= 10 + len l.
Proof.
  unfold c_bytes. cbn [c_list c_enc]. destruct (c_enc c_u64 (len l)) as [b1|] eqn:E1; [|done].
  assert (forall l : bytes, enc_seq c_byte l = Some l) as Hs.
  { clear. induction l as [|x l IH]; [done|]. cbn. by rewrite IH. }
  rewrite Hs. intros [= <-]. apply enc_uint_len in E1. len_lia.
Qed.

Lemma enc_pair_inv {A B} (c1 : codec A) (c2 : codec B) x y b :
  c_enc (c_pair c1 c2) (x, y) = Some b ->
  exists b1 b2, c_enc c1 x = Some b1 /\ c_enc c2 y = Some b2 /\ len b = len b1 + len b2.
Proof.
  cbn. destruct (c_enc c1 x) as [b1|]; [|done]. destruct (c_enc c2 y) as [b2|]; [|done].
  intros [= <-]. exists b1, b2. by rewrite len_app.
Qed.

Lemma enc_none_len {A} (c : codec A) b : c_enc (c_option c) None = Some b -> len b = 1.
Proof. by intros [= <-]. Qed.

Lemma enc_string_len s b : c_enc c_string s = Some b -> len b <= 10 + Z.of_nat (String.length s).
Proof.
  unfold c_string. cbn [c_iso c_enc]. intros E%enc_bytes_len. unfold string_to_bytes, len in E.
  rewrite length_fmap in E. replace (length (String.list_ascii_of_string s)) with (String.length s) in E; [done|].
  clear. induction s as [|c s IH]; [done|]. cbn. by rewrite IH.
Qed.

(** A key and a value of together at most 60000 bytes fit. *)
Lemma fits_small cf k v :
  len k + len v + Z.of_nat (String.length cf) <= 60000 -> fits cf k v.
Proof.
  intros Hl t del c Hc. pose proof (len_nonneg k). pose proof (len_nonneg v).
  split; cbn [fst snd]; [unfold u16_max; lia|]. intros b Hb. apply ok_or_Ok in Hb.
  change (c_enc c_LogRecord {| key := k; value := v; timestamp := t; is_deleted := del; column_family := c;
            expires_at := None; range_start := None; range_end := None |} = Some b) in Hb.
  unfold c_LogRecord in Hb. cbn [c_iso c_enc] in Hb.
  apply enc_pair_inv in Hb as (b1 & r1 & E1%enc_bytes_len & Hb & L1).
  apply enc_pair_inv in Hb as (b2 & r2 & E2%enc_bytes_len & Hb & L2).
  apply enc_pair_inv in Hb as (b3 & r3 & E3%enc_uint_len & Hb & L3).
  apply enc_pair_inv in Hb as (b4 & r4 & E4 & Hb & L4). injection E4 as <-.
  apply enc_pair_inv in Hb as (b5 & r5 & E5 & Hb & L5).
  apply enc_pair_inv in Hb as (b6 & r6 & E6%enc_none_len & Hb & L6).
  apply enc_pair_inv in Hb as (b7 & b8 & E7%enc_none_len & E8%enc_none_len & L8).
  assert (len b5 <= 11 + Z.of_nat (String.length cf)) as E5'.
  { destruct Hc as [->| ->]; [apply enc_none_len in E5; lia|]. 
    change ((fun b => Byte.x01 :: b) <$> c_enc c_string cf = Some b5) in E5.
    destruct (c_enc c_string cf) as [bs|] eqn:Es; [|discriminate E5]. injection E5 as <-.
    apply enc_string_len in Es. rewrite len_cons. lia. }
  change (len [if del then Byte.x01 else Byte.x00]) with 1 in L4. cbn [key value timestamp] in *.
  unfold u16_max. lia.
Qed.


(** ** A history with explicit and automatic flushes *)

Definition ka : bytes := lit "alpha".
Definition kb : bytes := lit "beta".
Definition kc : bytes := lit "delta".

Definition sample_history : list op :=
  [ Put ka (lit "1"); Put kb (lit "2"); Flush; Get ka; Get kb;
    Put ka (lit "3"); Put kc (lit "a value long enough to fill the buffer");
    Get ka; DeleteRange (lit "b") (lit "c"); Get kb; Put kb (lit "4"); Delete ka;
    SetBatch [(lit "ant", lit "5"); (lit "bee", lit "6")]; DeleteBatch [kc];
    Scan None None None; Scan (Some (lit "b")) (Some (lit "c")) (Some 1) ].

Definition sample_run := run_ops "default" sample_history EngineCore_new.

Lemma sample_history_ok : Forall (op_ok "default") sample_history.
Proof.
  assert (forall k v, len k + len v <= 100 -> fits "default" k v) as Hf.
  { intros k v Hl. apply fits_small. change (Z.of_nat (String.length "default")) with 7. lia. }
  assert (fits_goal : forall k v, len k + len v <=? 100 = true -> fits "default" k v)
    by (intros k v Hl%Z.leb_le; auto).
  unfold sample_history. repeat (apply Forall_cons; split); try apply Forall_nil; cbn [op_ok];
    repeat (apply Forall_cons; split); try apply Forall_nil;
    repeat match goal with
    | |- _ /\ _ => split
    | |- fits _ _ _ => apply fits_goal; reflexivity
    | |- _ \/ _ => by left
    end; done.
Qed.

Lemma sample_answers :
  sample_run.1 = Ok
    [ Done; Done; Done; Value (Some (lit "1")); Value (Some (lit "2")); Done; Done;
      Value (Some (lit "3")); Done; Value None; Done; Done; Done; Done;
      Entries [(lit "ant", lit "5"); (lit "bee", lit "6"); (kb, lit "4")];
      Entries [(lit "bee", lit "6")] ].
Proof. vm_compute. reflexivity. Qed.

Definition final_state : EngineCore := sample_run.2.

Lemma engine_refines_map_witness :
  exists rs, sample_run = (Ok rs, final_state) /\
    (forall k, (get_cf "default" k final_state).1 = Ok ((spec_ops ∅ sample_history).1 !! k)).
Proof.
  destruct (sample_run) as [[rs|e|] s'] eqn:E;
    [|by pose proof sample_answers as Ha; rewrite E in Ha..].
  exists rs. split; [unfold final_state; by rewrite E|].
  unfold final_state. rewrite E. cbn [snd].
  exact (proj1 (proj2 (engine_refines_map sample_clock_mono "default" eq_refl sample_history rs s'
                         sample_history_ok E))).
Defined.

Lemma search_prefix_pages_complete_witness :
  (search_pages 10 (lit "b") None 1 final_state).1 =
  Ok [(lit "bee", lit "6"); (kb, lit "4")].
Proof.
  destruct (sample_run) as [[rs|e|] s'] eqn:E;
    [|by pose proof sample_answers as Ha; rewrite E in Ha..].
  unfold final_state. rewrite E. cbn [snd].
  etrans; [apply (search_prefix_pages_complete sample_clock_mono "default" eq_refl sample_history rs s'
             (lit "b") 1 10 eq_refl sample_history_ok E)|].
  - by eexists.
  - unfold usize_max, u64_max. lia.
  - apply map_Forall_to_list. vm_compute. repeat constructor; by eexists.
  - vm_compute. lia.
  - vm_compute. reflexivity.
Defined.

(** ** Behaviour to know about *)

(** Running an operation for its effect. *)
Definition after {A} (m : M A) (s : EngineCore) : EngineCore := (m s).2.

(** a value read in one column family is answered in every other.  After
    [k] was written, flushed and read in family [a], a read of [k] in family
    [b], which never received a write, answers the value of [a]: the value cache
    is keyed by the key alone. *)
Theorem value_cache_crosses_families :
  let s := after (get_cf "a" ka) (after (flush_memtable_cf "a") (after (put_cf "a" ka (lit "1")) EngineCore_new)) in
  (get_cf "b" ka s).1 = Ok (Some (lit "1")) /\ (scan_cf "b" None None None s).1 = Ok [].
Proof. vm_compute. split; reflexivity. Qed.

(** An empty value is found once.  The first read after a flush answers the
    empty value and caches it; the second reads the cached empty value as a
    deletion. *)
Theorem empty_value_found_once :
  let s := after (flush_memtable_cf "default") (after (put_cf "default" ka []) EngineCore_new) in
  (get_cf "default" ka s).1 = Ok (Some []) /\
  (get_cf "default" ka (after (get_cf "default" ka) s)).1 = Ok None.
Proof. vm_compute. split; reflexivity. Qed.

(** expiry brings an older value back.  A key is written, flushed,
    overwritten with an expiring value and left to expire: it reads as absent;
    the flush of the expired record makes the first value readable again. *)
Theorem expired_key_returns_after_flush :
  let s := after (put_cf "default" kb (lit "2"))
             (after (set_cf_with_ttl "default" ka (lit "new") 1)
               (after (flush_memtable_cf "default") (after (put_cf "default" ka (lit "old")) EngineCore_new))) in
  (get_cf "default" ka s).1 = Ok None /\
  (get_cf "default" ka (after (flush_memtable_cf "default") s)).1 = Ok (Some (lit "old")).
Proof. vm_compute. split; reflexivity. Qed.

(** an old expiry hides a newer value from [get] and not from [scan].  The
    [__ttl:] entry flushed with an expiring value still answers after the key
    was overwritten without expiry and flushed again. *)
Theorem stale_expiry_hides_newer_value :
  let s := after (flush_memtable_cf "default") (after (put_cf "default" ka (lit "new"))
             (after (flush_memtable_cf "default") (after (set_cf_with_ttl "default" ka (lit "old") 2) EngineCore_new))) in
  (get_cf "default" ka s).1 = Ok None /\
  (scan_cf "default" None None None s).1 = Ok [(ka, lit "new")].
Proof. vm_compute. split; reflexivity. Qed.

(** one value larger than a block loses the whole memtable.  The put of the
    large value is accepted; the flush it triggers fails after the memtable was
    taken out, and an unrelated key written before is no longer readable. *)
Theorem oversized_value_loses_memtable :
  let s := after (put_cf "default" ka (lit "1")) EngineCore_new in
  (get_cf "default" ka s).1 = Ok (Some (lit "1")) /\
  (put_cf "default" kb (replicate 200 Byte.x78) s).1 = Err CompactionFailed /\
  (get_cf "default" ka (after (put_cf "default" kb (replicate 200 Byte.x78)) s)).1 = Ok None.
Proof. vm_compute. split_and!; reflexivity. Qed.

(** Closing and opening again. *)
Definition reopened (s : EngineCore) : EngineCore :=
  (reopen s).2.

(** a range deletion is forgotten by the flush after it.  The deletion is
    in the log and in memory only; the flush clears the log, and after a restart
    the deleted key of an older table reads again. *)
Theorem range_deletion_lost_at_restart :
  let s := after (flush_memtable_cf "default") (after (put_cf "default" kc (lit "3"))
             (after (delete_range_cf "default" (lit "a") (lit "b"))
               (after (flush_memtable_cf "default") (after (put_cf "default" ka (lit "1")) EngineCore_new)))) in
  (get_cf "default" ka s).1 = Ok None /\
  (get_cf "default" kc (reopened s)).1 = Ok (Some (lit "3")) /\
  (get_cf "default" ka (reopened s)).1 = Ok (Some (lit "1")).
Proof. vm_compute. split_and!; reflexivity. Qed.

(** without a manifest every table comes back as one of ["default"].  A
    value flushed in family [a] is after a restart no longer in [a], and is in
    ["default"], where it was never written. *)
Theorem families_merge_at_restart :
  let s := after (flush_memtable_cf "a") (after (put_cf "a" ka (lit "1")) EngineCore_new) in
  (get_cf "a" ka s).1 = Ok (Some (lit "1")) /\
  (scan_cf "a" None None None (reopened s)).1 = Ok [] /\
  (scan_cf "default" None None None (reopened s)).1 = Ok [(ka, lit "1")].
Proof. vm_compute. split_and!; reflexivity. Qed.

(** Secondary indexes work in ["default"] only.  The schema entry of an
    index is written to the family of the index and looked up in ["default"]: in
    another family a document is never indexed, in ["default"] it is. *)
Theorem index_of_other_family_is_inert :
  let doc := lit "{" ++ quote ++ lit "f" ++ quote ++ lit ":" ++ quote ++ lit "v" ++ quote ++ lit "}" in
  let s cf := after (put_cf cf ka doc) (after (create_index cf (lit "f")) EngineCore_new) in
  (get_cf "a" (index_entry (lit "f") (lit "v") ka) (s "a"%string)).1 = Ok None /\
  (list_indexes (s "a"%string)).1 = Ok [] /\
  (get_cf "default" (index_entry (lit "f") (lit "v") ka) (s "default"%string)).1 = Ok (Some []) /\
  (list_indexes (s "default"%string)).1 = Ok [lit "f"].
Proof. vm_compute. split_and!; reflexivity. Qed.

(** ** Tables of a version set *)

(** Two generations of a table and their merge. *)
Definition old_entries : list (bytes * LogRecord) :=
  [(ka, LogRecord_new 1 ka (lit "old")); (kb, LogRecord_new 2 kb (lit "2"))].
Definition new_entries : list (bytes * LogRecord) :=
  [(ka, LogRecord_new 3 ka (lit "new")); (kb, tombstone 4 kb)].
Definition merged_entries : list (bytes * LogRecord) := new_entries.

Definition file_of (es : list (bytes * LogRecord)) : SstFile :=
  match sst_write 0 7 es with Ok f => f | _ => ([] : bytes) end.
Definition table_of (path : string) (es : list (bytes * LogRecord)) : Table :=
  match from_sstable_path path (file_of es) with Ok t => t | _ => Table_build ∅ end.
Definition sample_disk : gmap string SstFile :=
  {[ "old"%string := file_of old_entries; "new"%string := file_of new_entries;
     "merged"%string := file_of merged_entries ]}.
Definition sample_set : VersionSet :=
  add_table (add_table (VersionSet_new true) "default" (table_of "old" old_entries))
    "default" (table_of "new" new_entries).

Lemma table_of_holds path es :
  sst_write 0 7 es = Ok (file_of es) ->
  (let* t := from_sstable_path path (file_of es) in Ok (t_path t)) = Ok (Some path) ->
  sample_disk !! path = Some (file_of es) ->
  Forall (fun e => exists t del v, e.2 = {| key := e.1; value := v; timestamp := t; is_deleted := del;
                column_family := None; expires_at := None; range_start := None; range_end := None |} /\
              len e.1 + len v <= 100 /\ (del = true -> v = [])) es ->
  table_holds sample_disk ∅ (table_of path es) es.
Proof.
  intros Hw Hp Hd Hes. unfold table_of in *. unfold from_sstable_path in *.
  match type of Hp with context [@sst_meta ?a ?b ?f] => destruct (@sst_meta a b f) as [m|e|] eqn:Em end;
    cbn [obind] in *; [|discriminate Hp..].
  split; cbn.
  - exists path, (file_of es), 0%nat, 7, m. split_and!; done.
  - eapply Forall_impl; [exact Hes|]. intros [k r] (t & del & v & Hr & Hl & _). cbn in Hr, Hl. subst r.
    apply (fits_small "" k v); [cbn; lia|by left].
  - intros k v. by rewrite lookup_empty.
  - intros k r Hr Hdel. apply assoc_Some_elem in Hr. rewrite Forall_forall in Hes.
    destruct (Hes _ Hr) as (t & del & v & Hr' & _ & Hv). cbn in Hr'. subst r. by apply Hv.
Qed.

Lemma old_holds : table_holds sample_disk ∅ (table_of "old" old_entries) old_entries.
Proof.
  apply table_of_holds; [vm_compute; reflexivity..|].
  repeat (apply Forall_cons; split); try apply Forall_nil; try done; do 3 eexists; split_and!; done.
Qed.
Lemma new_holds path : path ∈ ["new"; "merged"]%string ->
  table_holds sample_disk ∅ (table_of path new_entries) new_entries.
Proof.
  intros [->| ->%list_elem_of_singleton]%elem_of_cons; apply table_of_holds; try (vm_compute; reflexivity);
  repeat (apply Forall_cons; split); try apply Forall_nil; try done; do 3 eexists; split_and!; done.
Qed.

Lemma sample_versions ess : (forall es, es ∈ ess -> es = new_entries \/ es = old_entries) -> plain_entries ess.
Proof.
  intros Hess es k r [->| ->]%Hess Hr%assoc_Some_elem; unfold new_entries, old_entries in Hr;
    repeat (apply elem_of_cons in Hr as [[= -> ->]|Hr]; [done|]); set_solver.
Qed.

Lemma version_set_newest_wins_witness :
  vs_gets sample_disk sample_set "default" [(9, ka); (9, kb); (9, ka); (9, kc)]
  = [Ok (Some (lit "new")); Ok None; Ok (Some (lit "new")); Ok None].
Proof.
  rewrite (proj1 (version_set_newest_wins sample_disk sample_set "default" [new_entries; old_entries]
                    [(9, ka); (9, kb); (9, ka); (9, kc)] 
    ltac:(constructor; [apply new_holds; by left|constructor; [apply old_holds|constructor]])
    eq_refl ltac:(by apply kv_coherent_empty)
    ltac:(apply sample_versions; set_solver))).
  vm_compute. reflexivity.
Defined.

Lemma atomic_replace_preserves_reads_witness :
  let self' := (atomic_replace sample_set "default" [1; 0]%nat [table_of "merged" merged_entries]).2 in
  length (cf_tables self' "default") = 1%nat /\
  (forall k, get_record sample_disk self' "default" k = get_record sample_disk sample_set "default" k) /\
  forall qs, vs_gets sample_disk self' "default" qs = vs_gets sample_disk sample_set "default" qs.
Proof.
  intros s. split; [vm_compute; reflexivity|].
  pose proof (atomic_replace_preserves_reads sample_disk sample_set "default" [1; 0]%nat []
    [table_of "old" old_entries; table_of "new" new_entries] [] [table_of "merged" merged_entries]
    [] [old_entries; new_entries] [] [merged_entries] eq_refl
    ltac:(apply Permutation_swap) ltac:(done) ltac:(constructor)
    ltac:(constructor; [apply old_holds|constructor; [apply new_holds; by left|constructor]])
    ltac:(constructor)
    ltac:(constructor; [apply new_holds; right; by left|constructor])) as Hrep.
  destruct (atomic_replace sample_set "default" [1; 0]%nat [table_of "merged" merged_entries]) as [paths self'].
  subst s. cbn [snd]. destruct Hrep as (_ & _ & _ & _ & Hget & Hgets).
  - intros k'. cbn [reverse rev_append newest].
    unfold merged_entries. destruct (assoc k' new_entries) as [r|] eqn:E; [done|].
    apply assoc_None in E. change (new_entries.*1) with (old_entries.*1) in E.
    apply assoc_None in E. by rewrite E.
  - split; [exact Hget|]. apply Hgets; [done|by apply kv_coherent_empty|].
    apply sample_versions. unfold merged_entries. set_solver.
Defined.
