(* ===== verification/CompactionInstances.v ===== *)
(** * CompactionInstances: compactions and transactions on concrete inputs

    The theorems on compaction, background plans and transactions applied to
    histories run in the environment of [EngineInstances], and histories that
    show behaviour to know about. *)
From Stdlib Require Import ZArith Lia QArith.
From stdpp Require Import base tactics numbers list gmap strings sorting pretty.
From S2P Require Import Prelude Bytes SortedMap LogRecord Iterators.
From S2P Require Import MemTable Extern Encryption SstBuilder SstReader Wal.
From S2P Require Import Postcard Table Store VersionSet Utf8 Engine.
From S2P Require Import EngineSpec Recovery Durability Compaction CompactionSpec.
From S2P Require Import Transaction Background Instances EngineInstances.
Local Open Scope Z_scope.

(** ** Compaction *)

(** Four small tables, with an overwritten and a deleted key. *)
Definition four_tables : list op :=
  [ Put ka (lit "1"); Flush; Put kb (lit "2"); Flush; Put ka (lit "3"); Flush; Delete kb; Put kc (lit "4"); Flush ].
Definition compacted_reads : list op := [ Get ka; Get kb; Put kb (lit "5"); Flush; Scan None None None ].

Definition before_compaction : EngineCore := (run_ops "default" four_tables EngineCore_new).2.
Definition after_compaction : EngineCore := (compact_cf "default" before_compaction).2.

Lemma small_ops_ok os :
  forallb (fun o => match o with
     | Put k v => user_key k && negb (bytes_eqb v []) && (len k + len v <=? 100)
     | Delete k => user_key k && (len k <=? 100)
     | Flush | Get _ | DeleteRange _ _ | Scan _ _ None => true
     | _ => false end) os = true ->
  Forall (op_ok "default") os.
Proof.
  assert (forall k v, len k + len v <= 100 -> fits "default" k v) as Hf.
  { intros k v Hl. apply fits_small. change (Z.of_nat (String.length "default")) with 7. lia. }
  induction os as [|o os IH]; cbn [forallb]; [constructor|]. intros [Ho Hos]%andb_true_iff.
  constructor; [|by apply IH]. clear IH Hos.
  destruct o as [k v|k| | | | | |lower upper [|]]; cbn [op_ok]; try done; bool_prop.
  - split_and!; [done| |by apply Hf|by left]. intros ->. done.
  - split; [done|]. apply Hf. rewrite len_nil. lia.
Qed.

Lemma compaction_runs :
  (run_ops "default" four_tables EngineCore_new).1 = Ok [Done; Done; Done; Done; Done; Done; Done; Done; Done] /\
  (exists m, (compact_cf "default" before_compaction).1 = Ok (Some m)) /\
  table_count (version_set after_compaction) "default" = 1%nat /\
  (run_ops "default" compacted_reads after_compaction).1 =
    Ok [Value (Some (lit "3")); Value None; Done; Done; Entries [(ka, lit "3"); (kb, lit "5"); (kc, lit "4")]].
Proof. split_and!; [vm_compute; reflexivity|eexists; vm_compute; reflexivity|vm_compute; reflexivity..]. Qed.

(** Splitting a run into its answers and its state. *)
Lemma run_state {A} (m : M A) s a : (m s).1 = Ok a -> m s = (Ok a, (m s).2).
Proof. destruct (m s) as [o s']; cbn. by intros ->. Qed.


(** A plan made before a flush is discarded, one made before writes that stay in
    memory is installed. *)
Lemma stale_plan_discarded_witness :
  exists plan, plan_of before_compaction "default" = Some plan /\
    (apply_plan plan [] (after_calls [CallPut "default" ka (lit "9") None; CallFlush "default"] before_compaction)).2
    = after_calls [CallPut "default" ka (lit "9") None; CallFlush "default"] before_compaction.
Proof.
  assert ((fun p => (length (plan_tables p), plan_cf p)) <$> plan_of before_compaction "default"
          = Some (4%nat, "default"%string)) as Hp by (vm_compute; reflexivity).
  destruct (plan_of before_compaction "default") as [plan|] eqn:E; [|discriminate Hp].
  exists plan. split; [done|].
  pose proof (stale_plan_discarded before_compaction "default" plan
    [CallPut "default" ka (lit "9") None; CallFlush "default"] [] E) as [[_ ->]|[Ht _]]; [done|]. exfalso.
  injection Hp as Hl Hc.
  rewrite Hc in Ht. apply (f_equal length) in Ht. rewrite Hl in Ht.
  assert (length (cf_tables (version_set (after_calls [CallPut "default" ka (lit "9") None; CallFlush "default"]
    before_compaction)) "default") = 5%nat) as H5 by (vm_compute; reflexivity).
  rewrite H5 in Ht. discriminate Ht.
Defined.

(** after a restart compaction destroys the data it should merge.  Tables
    found at startup carry no values in memory, which is all compaction reads:
    with four of them it writes nothing, drops the tables and removes their
    files; the header of the output is all that is left on disk. *)
Theorem compaction_after_restart_loses_data :
  let s := reopened before_compaction in
  (get_cf "default" ka s).1 = Ok (Some (lit "3")) /\
  (get_cf "default" ka (after (compact_cf "default") s)).1 = Ok None /\
  (map_to_list (disk (after (compact_cf "default") s))).*2 = [SST_MAGIC_V2_ENCRYPTED].
Proof. vm_compute. split_and!; reflexivity. Qed.

(** compaction drops values written after a range deletion.  The range
    tombstones of the family are applied to every version in their range without
    comparing timestamps. *)
Theorem compaction_drops_value_after_range_deletion :
  let s := (run_ops "default" [DeleteRange (lit "a") (lit "b"); Put ka (lit "1"); Flush; Put kb (lit "2"); Flush;
                               Put kc (lit "3"); Flush; Put kb (lit "4"); Flush] EngineCore_new).2 in
  (get_cf "default" ka s).1 = Ok (Some (lit "1")) /\
  (get_cf "default" ka (after (compact_cf "default") s)).1 = Ok None.
Proof. vm_compute. split; reflexivity. Qed.

(** a compaction before a flush turns the order of tables around at the next
    restart.  Startup orders tables by file name, and [sst_..] of a compaction
    sorts after [flush_..]: the older, compacted value hides the newer one. *)
Theorem compacted_table_is_newest_after_restart :
  let s := (run_ops "default" [Put ka (lit "new"); Flush] after_compaction).2 in
  (get_cf "default" ka s).1 = Ok (Some (lit "new")) /\
  (get_cf "default" ka (reopened s)).1 = Ok (Some (lit "3")).
Proof. vm_compute. split; reflexivity. Qed.

(** ** Restart *)

(** Two tables, an overwritten and a deleted key, and writes that are in the log only. *)
Definition durable_history : list op :=
  [ Put ka (lit "1"); Put kb (lit "2"); Flush; Put ka (lit "3"); Delete kb; Flush; Put kc (lit "4"); Delete ka ].
Definition later_history : list op := [ Get ka; Get kc; Put kb (lit "5"); Flush; Scan None None None ].
Definition durable_state : EngineCore := (run_ops "default" durable_history EngineCore_new).2.


(** ** The leveled strategy *)

(** A threshold above four selects the leveled strategy, whatever is configured. *)
Definition leveled_env : EngineEnv :=
  {| options := {| write_buffer_size := 4096; max_write_buffer_number := 4;
                   compaction_options := {| strategy_type := SizeTiered; compaction_threshold := 5;
                                            max_tables_per_compaction := 8; max_concurrent_compactions := 2 |};
                   default_ttl := None; eo_encryption := sample_encryption; eo_wal_sync_interval := 4 |};
     clock i := 1000 + Z.of_nat i; wal_entropy _ := sample_rng |}.
Definition ten_flushes : list op := concat (replicate 10 [Put kc (lit "x"); Flush]).

(** A value, ten tables, a compaction, the deletion of the value, ten tables. *)
Definition deleted_after_compaction `{!EngineEnv} : EngineCore :=
  after (run_ops "default" (Delete ka :: ten_flushes))
    (after (compact_cf "default") (after (run_ops "default" (Put ka (lit "1") :: ten_flushes)) EngineCore_new)).
Definition read_before_and_after_compaction `{!EngineEnv} (k : bytes) : list (outcome (option bytes)) :=
  [ (get_cf "default" k deleted_after_compaction).1;
    (get_cf "default" k (after (compact_cf "default") deleted_after_compaction)).1 ].

(** a partial compaction brings a deleted key back.  The first leveled
    compaction moves a value to level one; the second merges level zero only,
    drops the tombstone of the key there, and the value reads again. *)
Theorem leveled_compaction_resurrects_deleted_key :
  @read_before_and_after_compaction leveled_env ka = [Ok None; Ok (Some (lit "1"))].
Proof. vm_compute. reflexivity. Qed.

(** ** Transactions *)

Definition fresh_txn : Transaction := (Transaction_new 1).1.
Definition txn_history : list op := [Put ka (lit "1"); Flush; Put kb (lit "2")].
Definition txn_steps : list txn_op :=
  [TxnGet ka; TxnPut "default" ka (lit "9"); TxnGet ka; TxnDelete "default" kb; TxnGet kb; TxnPut "other" kc (lit "8")].
Definition txn_start : EngineCore := after (run_ops "default" txn_history) EngineCore_new.
Definition txn_run : outcome (list (option bytes) * Transaction) * EngineCore :=
  run_txn "default" txn_steps fresh_txn txn_start.
Definition txn_built : Transaction := match txn_run.1 with Ok (_, t) => t | _ => fresh_txn end.
Definition txn_after : EngineCore := after (txn_commit txn_built).1 txn_run.2.

Lemma transaction_commits_overlay_witness :
  spec_txn "default" (spec_ops ∅ txn_history).1 ∅ txn_steps =
    ([Some (lit "1"); Some (lit "9"); None], txn_writes txn_built) /\
  (run_ops "default" [Get ka; Get kb] txn_after).1 =
    Ok (spec_ops (overlay (family_writes (txn_writes txn_built) "default") (spec_ops ∅ txn_history).1) [Get ka; Get kb]).2.
Proof.
  assert (txn_run.1 = Ok ([Some (lit "1"); Some (lit "9"); None], txn_built)) as Ht by (vm_compute; reflexivity).
  assert ((run_ops "default" txn_history EngineCore_new).1 = Ok [Done; Done; Done]) as Hr by (vm_compute; reflexivity).
  assert (Forall (txn_op_ok "default") txn_steps) as Hok.
  { assert (forall k v, len k + len v <= 100 -> fits "default" k v) as Hf.
    { intros k v Hl. apply fits_small. change (Z.of_nat (String.length "default")) with 7. lia. }
    assert (forall (k : bytes) (w : TxnWrite), user_key k && (if w.2 then bytes_eqb w.1 [] else negb (bytes_eqb w.1 [])) && (len k + len w.1 <=? 100) = true ->
            write_ok "default" k w) as Hw.
    { intros k [v d] Hb. bool_prop. split_and!; [done| |by apply Hf]. cbn in *.
      destruct d; [by apply bytes_eqb_eq|]. bool_prop. intros ->. discriminate. }
    unfold txn_steps. repeat (apply Forall_cons; split); try apply Forall_nil; cbn [txn_op_ok]; try exact I;
      intros E; [apply Hw; reflexivity..|discriminate E]. }
  destruct (transaction_commits_overlay sample_clock_mono "default" eq_refl txn_history _ txn_start txn_steps
    _ txn_built txn_run.2 (small_ops_ok txn_history eq_refl) (run_state _ _ _ Hr) Hok (run_state _ _ _ Ht))
    as (Hspec & _ & Hcommit & _).
  split; [exact Hspec|].
  assert ((run_ops "default" [Get ka; Get kb] txn_after).1 = Ok [Value (Some (lit "9")); Value None]) as Hg
    by (vm_compute; reflexivity).
  rewrite Hg. apply (f_equal Ok).
  eapply Hcommit; [| |exact (small_ops_ok [Get ka; Get kb] eq_refl)|exact (run_state _ _ _ Hg)].
  - unfold buffer_room. apply (bool_decide_unpack _). vm_compute. exact I.
  - unfold txn_after, after. apply run_state. vm_compute. reflexivity.
Defined.

(** a committed transaction that fills the buffer is lost at a restart.  The
    flush of a commit keeps the memtable as a table in memory and clears the log:
    no file holds the data. *)
Theorem committed_transaction_lost_at_restart :
  let v := lit "a value long enough to fill the buffer" in
  let s := after (txn_commit (txn_put_cf fresh_txn "default" ka v)).1 EngineCore_new in
  (get_cf "default" ka s).1 = Ok (Some v) /\ (get_cf "default" ka (reopened s)).1 = Ok None.
Proof. vm_compute. split; reflexivity. Qed.

(** Reads of a transaction are not repeatable: it has no snapshot, a write of the
    engine between two reads is seen by the second. *)
Theorem transaction_reads_not_repeatable :
  let s := after (put_cf "default" ka (lit "1")) EngineCore_new in
  (txn_get_cf fresh_txn "default" ka s).1 = Ok (Some (lit "1")) /\
  (txn_get_cf fresh_txn "default" ka (after (put_cf "default" ka (lit "2")) s)).1 = Ok (Some (lit "2")).
Proof. vm_compute. split; reflexivity. Qed.

(** A log whose entropy source fails: writes of the family [b] are refused. *)
Definition failing_env : EngineEnv :=
  {| options := sample_options; clock i := 1000 + Z.of_nat i;
     wal_entropy cf := if bool_decide (cf = "b"%string) then fun _ => None else sample_rng |}.
Definition failing_commit `{!EngineEnv} : outcome unit * outcome (option bytes) * nat :=
  let txn := txn_put_cf (txn_put_cf fresh_txn "a" ka (lit "1")) "b" kb (lit "2") in
  let r := (txn_commit txn).1 EngineCore_new in
  (r.1, (get_cf "a" ka r.2).1, size (txn_writes (txn_commit txn).2)).

(** A commit is not atomic across families: when the log of the second one
    refuses the batch, the commit reports an error, the first family keeps the
    write, and the buffer is gone. *)
Theorem failed_commit_is_partial :
  @failing_commit failing_env = (Err CompactionFailed, Ok (Some (lit "1")), 0%nat).
Proof. vm_compute. reflexivity. Qed.
