(* ===== verification/SnapshotInstances.v ===== *)
(** * SnapshotInstances: snapshots on concrete inputs

    The theorems on snapshots and reconciliation applied to histories run in the
    environment of [EngineInstances], and histories that show behaviour to know
    about. *)
From Stdlib Require Import ZArith Lia QArith.
From stdpp Require Import base tactics numbers list gmap strings sorting pretty.
From S2P Require Import Prelude Bytes SortedMap LogRecord Iterators.
From S2P Require Import MemTable Extern Encryption SstBuilder SstReader Wal.
From S2P Require Import Postcard Table Store VersionSet Utf8 Engine.
From S2P Require Import EngineSpec Recovery Durability Compaction CompactionSpec.
From S2P Require Import BackupScheduler.
From S2P Require Import Transaction Background Snapshot Instances EngineInstances CompactionInstances.
Local Open Scope Z_scope.

#[global] Instance sample_file_eq : EqDecision SstFile.
Proof. unfold SstFile. cbn. apply _. Defined.

(** A data directory without files, and an engine opened on it at time [t]. *)
Definition no_files : DataDir :=
  {| dd_sstables := ∅; dd_quarantine := ∅; dd_default_wal := []; dd_wals := []; dd_manifest := None |}.
Definition blank_engine (t : nat) : EngineCore := (new_generic no_files (core_of no_files 0 t)).2.
Definition blank_host (t : nat) : Host := {| h_core := blank_engine t; h_logs := ∅; h_manifest := None |}.
Lemma blank_engine_blank t : blank (blank_engine t).
Proof. split; reflexivity. Qed.

(** The snapshot of a state, in a directory. *)
Definition snapshot_in (backup : SnapshotDir) (s : EngineCore) : SnapshotDir * EngineCore :=
  match create_snapshot 10 backup s with
  | (Ok (Some sn), s') => (sn, s')
  | (_, s') => (empty_snapshot, s')
  end.
Definition durable_snapshot : SnapshotDir := (snapshot_in empty_snapshot durable_state).1.
Definition restored_host : Host := (restore_snapshot durable_snapshot (blank_host 500)).2.


(** Two memtables with data. *)
Definition two_families : EngineCore :=
  after (put_cf "other" kb (lit "2")) (after (put_cf "default" ka (lit "1")) EngineCore_new).
Lemma flush_all_terminates_witness :
  (flush_all_memtables 3 two_families).1 <> Ok false /\ mem_count (memtables two_families) = 2%nat.
Proof.
  assert (mem_count (memtables two_families) = 2%nat) as Hc by (vm_compute; reflexivity). split; [|exact Hc].
  assert (forallb (fun e => forallb (fun mem => negb (mem_is_empty mem)) e.2) (map_to_list (memtables two_families)) = true) as Hd
    by (vm_compute; reflexivity).
  pose proof (flush_all_terminates 3 two_families) as Hf.
  destruct (flush_all_memtables 3 two_families) as [r s']. apply Hf; [|lia].
  intros cf mems mem Hm Hin Hdata. rewrite forallb_forall in Hd.
  specialize (Hd (cf, mems) (proj1 (list_elem_of_In _ _) (proj2 (elem_of_map_to_list _ _ _) Hm))). cbn in Hd.
  rewrite forallb_forall in Hd. specialize (Hd mem (proj1 (list_elem_of_In _ _) Hin)).
  unfold mem_is_empty in Hd. rewrite bool_decide_true in Hd by done. discriminate Hd.
Defined.

Lemma snapshot_never_returns_witness :
  (create_snapshot 50 empty_snapshot (after (delete_range_cf "default" (lit "a") (lit "b")) EngineCore_new)).1 = Ok None.
Proof.
  apply (snapshot_never_returns 50 empty_snapshot "default" (lit "a") (lit "b")).
  apply run_state. vm_compute. reflexivity.
Defined.


(** ** Behaviour to know about *)

(** Stopping and opening a host: the manifest decides which tables are read. *)
Definition reopened_host (h : Host) : EngineCore :=
  let s := h_core h in
  let dir := {| dd_sstables := disk s; dd_quarantine := ∅; dd_default_wal := dd_default_wal (closed_dir s);
                dd_wals := dd_wals (closed_dir s); dd_manifest := h_manifest h |} in
  (new_generic dir (core_of dir (sst_writes s) (ticks s))).2.

(** tables flushed after a restore are lost at the next start.  The manifest
    a restore leaves in the data directory is never updated, and startup reads the
    tables it names and no other. *)
Theorem flush_after_restore_lost_at_restart :
  let h := {| h_core := after (run_ops "default" [Put kb (lit "7"); Flush]) (h_core restored_host);
              h_logs := h_logs restored_host; h_manifest := h_manifest restored_host |} in
  (get_cf "default" kb (h_core h)).1 = Ok (Some (lit "7")) /\
  (get_cf "default" kb (reopened_host h)).1 = Ok None /\
  (get_cf "default" kc (reopened_host h)).1 = Ok (Some (lit "4")).
Proof. vm_compute. split_and!; reflexivity. Qed.

(** a restore undoes later writes of the log and keeps later tables.  The
    logs of the snapshot replace those of the running engine: a value that was
    only in the log is gone after a restart. *)
Theorem restore_overwrites_live_log :
  let s := after (put_cf "default" kb (lit "9")) (blank_engine 500) in
  let h := (restore_snapshot durable_snapshot {| h_core := s; h_logs := ∅; h_manifest := None |}).2 in
  (get_cf "default" kb s).1 = Ok (Some (lit "9")) /\
  (get_cf "default" kb (h_core h)).1 = Ok (Some (lit "9")) /\
  (get_cf "default" kb (reopened_host h)).1 = Ok None.
Proof. vm_compute. split_and!; reflexivity. Qed.

(** a snapshot is not always listed.  When the log of ["default"] is empty
    and another one is not, no [wal.log] is written, by which [list_snapshots]
    recognises a snapshot. *)
Theorem snapshot_without_default_log :
  let s := after (put_cf "other" ka (lit "1")) (blank_engine 0) in
  sn_wals (snapshot_in empty_snapshot s).1 !! "wal.log"%string = None /\
  is_Some (sn_wals (snapshot_in empty_snapshot s).1 !! "wal-other.log"%string).
Proof. vm_compute. split; [reflexivity|eauto]. Qed.

(** a snapshot in a directory of an older one keeps the older log.  The
    logs that are empty are not written. *)
Theorem snapshot_keeps_older_log :
  let first := (snapshot_in empty_snapshot (after (put_cf "default" ka (lit "old")) (blank_engine 0))) in
  let s := after (put_cf "other" kb (lit "1")) (after (delete_cf "default" ka;; flush_memtable_cf "default") first.2) in
  wals s !! "default"%string <> None /\
  sn_wals (snapshot_in first.1 s).1 !! "wal.log"%string = sn_wals first.1 !! "wal.log"%string.
Proof. vm_compute. split; [discriminate|reflexivity]. Qed.

(** The results of the background work of a plan. *)
Definition planned (s : EngineCore) : option (list (list nat * list Table) * CompactionPlan * EngineCore) :=
  match plan_of s "default" with
  | Some plan =>
      match run_plan plan s with
      | (Ok results, s') => Some (results, plan, s')
      | _ => None
      end
  | None => None
  end.
(** Installed and restarted, with or without a reconciliation before. *)
Definition read_after_install (clean : bool) (s : EngineCore) (k : bytes) : outcome (option bytes) :=
  match planned s with
  | Some (results, plan, s') =>
      let s' := if clean then after reconcile_tables s' else s' in
      (get_cf "default" k (reopened (after (apply_plan plan results) s'))).1
  | None => Panic
  end.
(** reconciliation removes the output of a running compaction.  Between the
    work of a background compaction and its installation the new file belongs to
    no table; once it is removed the plan installs a table without a file and
    removes the files it replaces: after a restart the data is gone. *)
Theorem reconcile_removes_running_compaction :
  read_after_install false before_compaction ka = Ok (Some (lit "3")) /\
  read_after_install true before_compaction ka = Ok None.
Proof. vm_compute. split; reflexivity. Qed.

(** ** Backups *)

Module Backups.

Definition log_file : Entry := FileEntry "wal.log" 3.
Definition before_backup : list Entry :=
  [DirEntry "20250101" 1 [log_file]; FileEntry "readme" 2; DirEntry "20250102" 5 [log_file]].
Definition new_backup : list Entry := [log_file; FileEntry "default_0.sst" 10].
Definition backup_fs : FileSystem := {[ "backups"%string := before_backup ]}.
Definition copy_fn (dir name : string) (fs : FileSystem) : outcome unit * FileSystem :=
  (Ok tt, <[dir := default [] (fs !! dir) ++ [DirEntry name 9 new_backup]]> fs).
Definition keeping (n : nat) : BackupScheduler := set_config (mkBackupConfig n "backups") (BackupScheduler_new "backups").

(** With room for two, the oldest of three is removed. *)
Lemma backup_now_retains_witness :
  exists entries,
    backup_now copy_fn engine_list (fun _ => false) "20250103" 9 None (keeping 2) backup_fs =
      (Ok (mkBackupInfo "20250103" "20250103" 13 2 9), <["backups"%string := entries]> backup_fs) /\
    "20250103"%string ∈ si_path <$> list_snapshots (Some entries) /\
    (length (list_snapshots (Some entries)) <= 2)%nat /\ FileEntry "readme" 2 ∈ entries.
Proof.
  destruct (backup_now_retains copy_fn "20250103" 9 (keeping 2) backup_fs before_backup 9 new_backup)
    as (entries & E & _ & Hlen & Hkept & Hfiles).
  - apply (bool_decide_unpack _). vm_compute. exact I.
  - apply (bool_decide_unpack _). vm_compute. exact I.
  - apply (bool_decide_unpack _). vm_compute. exact I.
  - intros s Hs. assert (omap snapshot_info before_backup =
      [mkSnapshotInfo "20250101" 1 3 1; mkSnapshotInfo "20250102" 5 3 1]) as Eo by (vm_compute; reflexivity).
    rewrite Eo in Hs. apply elem_of_cons in Hs as [->|Hs]; [cbn; lia|].
    apply list_elem_of_singleton in Hs as ->. cbn. lia.
  - reflexivity.
  - exists entries. split; [exact E|]. split; [apply Hkept; cbn; lia|]. split; [exact Hlen|].
    apply Hfiles; [set_solver|reflexivity].
Defined.

(** A limit of zero removes the backup that is reported as made. *)
Theorem backup_kept_by_none :
  match backup_now copy_fn engine_list (fun _ => false) "20250103" 9 None (keeping 0) backup_fs with
  | (Ok info, fs) => bi_id info = "20250103"%string /\ list_snapshots (fs !! "backups"%string) = []
  | _ => False
  end.
Proof. vm_compute. split; reflexivity. Qed.

End Backups.
