(* ===== verification/QueryInstances.v ===== *)
(** * QueryInstances: searches, index queries and SQL on concrete inputs *)
From Stdlib Require Import ZArith Lia QArith.
From stdpp Require Import base tactics numbers list gmap strings sorting pretty.
From S2P Require Import Prelude Bytes SortedMap LogRecord Iterators.
From S2P Require Import MemTable Extern Encryption SstBuilder SstReader Wal.
From S2P Require Import Postcard Table Store VersionSet Utf8 Engine.
From S2P Require Import EngineSpec Recovery Durability EngineQueries Sql.
From S2P Require Import Instances EngineInstances CompactionInstances.
Local Open Scope Z_scope.

(** Keys [alpha] and [delta] contain [lt] or not; the value of one was flushed. *)
Lemma substring_search_exact_witness :
  (search_contains (lit "elt") 10 durable_state).1 = Ok [(kc, lit "4")] /\
  (search_contains (lit "lph") 10 durable_state).1 = Ok [].
Proof.
  assert ((run_ops "default" durable_history EngineCore_new).1 = Ok (replicate 8 Done)) as Hr by (vm_compute; reflexivity).
  assert (size (spec_ops ∅ durable_history).1 <= 10000)%nat as Hsz.
  { apply (bool_decide_unpack _). vm_compute. exact I. }
  destruct (substring_search_exact sample_clock_mono eq_refl durable_history _ durable_state (lit "elt") 10
    (small_ops_ok durable_history eq_refl) (run_state _ _ _ Hr) Hsz) as (s1 & s2 & H1 & _).
  destruct (substring_search_exact sample_clock_mono eq_refl durable_history _ durable_state (lit "lph") 10
    (small_ops_ok durable_history eq_refl) (run_state _ _ _ Hr) Hsz) as (s3 & s4 & H3 & _).
  rewrite H1, H3. split; vm_compute; reflexivity.
Defined.

(** ** Behaviour to know about *)

Definition document (field v : bytes) : bytes :=
  lit "{" ++ quote ++ field ++ quote ++ lit ":" ++ quote ++ v ++ quote ++ lit "}".
Definition indexed : EngineCore := after (create_index "default" (lit "f")) EngineCore_new.
Definition stored (k v : bytes) : EngineCore -> EngineCore := after (put_cf "default" k (document (lit "f") v)).

(** an index query answers documents that no longer match.  A put adds the
    entry of the new value and leaves that of the old one; a query for the old
    value answers the key with the new document. *)
Theorem overwritten_document_found_by_old_value :
  let s := stored ka (lit "new") (stored ka (lit "old") indexed) in
  (query_index "default" (lit "f") (lit "old") 10 s).1 = Ok [(ka, document (lit "f") (lit "new"))] /\
  (query_index "default" (lit "f") (lit "new") 10 s).1 = Ok [(ka, document (lit "f") (lit "new"))].
Proof. vm_compute. split; reflexivity. Qed.

(** keys with a colon are not found by their index.  The primary key is taken
    from the last colon of the index entry on. *)
Theorem key_with_colon_not_indexed :
  let s := stored (lit "user:1") (lit "v") indexed in
  (get_cf "default" (lit "user:1") s).1 = Ok (Some (document (lit "f") (lit "v"))) /\
  (query_index "default" (lit "f") (lit "v") 10 s).1 = Ok [].
Proof. vm_compute. split; reflexivity. Qed.

(** statistics count no records after a restart: they count the values tables
    hold in memory, and tables found at startup hold none. *)
Theorem statistics_empty_after_restart :
  let s := after (run_ops "default" [Put ka (lit "1"); Put kb (lit "2"); Flush]) EngineCore_new in
  total_records (ls_tables (stats s "default")) = 2%nat /\
  total_records (ls_tables (stats (reopened s) "default")) = 0%nat /\
  num_tables (ls_tables (stats (reopened s) "default")) = 1%nat.
Proof. vm_compute. split_and!; reflexivity. Qed.

(** ** SQL *)

Definition sql_commands : list command :=
  [ InsertKey ka (lit "1"); InsertKey kb (lit "2"); SelectKey ka; DeleteKey ka; SelectKey ka; SelectAll ].


(** The operator and the left side of a condition are not looked at: a condition
    on the value, or with another operator, reads and deletes by key. *)
Theorem condition_ignored l o l' o' rhs cf :
  execute_select cf (Some (EBinaryOp l o rhs)) = execute_select cf (Some (EBinaryOp l' o' rhs)) /\
  execute_delete cf (Some (EBinaryOp l o rhs)) = execute_delete cf (Some (EBinaryOp l' o' rhs)).
Proof. done. Qed.

(** Rows after the first of an [INSERT] are dropped, and one row is reported. *)
Theorem further_rows_dropped cf columns row rows :
  execute_insert cf columns (Some (SetValues (row :: rows))) = execute_insert cf columns (Some (SetValues [row])).
Proof. done. Qed.

(** A row with fewer values than columns panics. *)
Theorem short_row_panics :
  (execute_insert "default" [lit "key"; lit "value"] (Some (SetValues [[literal ka]])) EngineCore_new).1 = Panic.
Proof. vm_compute. reflexivity. Qed.

(** Quotes at the ends of a text are lost: the text written is another one. *)
Theorem outer_quotes_lost :
  execute_statement (statement_of (lit "default") (InsertKey ka (quote_char ++ lit "x" ++ quote_char))) =
  execute_statement (statement_of (lit "default") (InsertKey ka (lit "x"))).
Proof. reflexivity. Qed.
