(* ===== verification/MigrationInstances.v ===== *)
(** * MigrationInstances: migrations on concrete trees *)
From Stdlib Require Import ZArith Lia QArith.
From stdpp Require Import base tactics numbers list gmap strings sorting.
From S2P Require Import Prelude Bytes SortedMap LogRecord Extern Encryption.
From S2P Require Import Block SstBuilder SstReader Wal Utf8 Engine Migration.
From S2P Require Import Instances.
Local Open Scope Z_scope.

(** A database with a table, a log and a nested directory. *)
Definition db : bytes := lit "db".
Definition table_name : bytes := lit "a.sst".
Definition database : list (bytes * node) :=
  [(lit "wal.log", File (concat log_frames) false);
   (lit "snapshots", Dir [(lit "note", File [Byte.x01] false)]);
   (table_name, File sample_file false)].
Definition file_tree : node := Dir [(db, Dir database)].

(** Records that carry the keys they are stored under. *)
Example sample_records_keyed : Forall (fun e => key e.2 = e.1) sample_records.
Proof. repeat constructor. Qed.

Definition new_encryption : EncryptionConfig :=
  {| ec_enabled := true; ec_key := replicate 32 Byte.x08 |}.
Definition nonces (f : nat) : nat -> option bytes := sample_rng.
Definition out_path : OutputPath := {| op_parent := Some []; op_name := Some (lit "new") |}.

(** Surroundings in which nothing fails but the listed calls. *)
Definition staging : bytes := lit ".apexstore-migration-x".
Definition surroundings (failing : list io_point) (before_publish : node -> node) : MigrationEnv :=
  {| me_io p := bool_decide (p ∉ failing); me_staging := staging; me_left := [(LOCK_NAME, File [] false)];
     me_during := id; me_before_publish := before_publish |}.

Definition migrated (output : OutputPath) (env : MigrationEnv) : outcome MigrationReport * node :=
  migrate_inner file_tree (Some [db]) output sample_encryption new_encryption false nonces env.
Definition undisturbed : MigrationEnv := surroundings [] id.

Lemma migrated_ok :
  (migrated out_path undisturbed).1 = Ok {| sstables := 1; wal_frames := 5; copied_files := 1 |}.
Proof. vm_compute. reflexivity. Qed.

Lemma nonces_ok f i n : nonces f i = Some n -> len n = 12.
Proof. apply sample_rng_ok. Qed.

Lemma sample_file_holds : sst_holds sample_encryption 99 sample_records sample_file.
Proof.
  split; [vm_compute; discriminate|].
  apply (sst_build_layout sample_config 99 sample_encryption sample_rng);
    [vm_compute; split; discriminate|apply sample_rng_ok|apply sample_storable|apply sample_build].
Qed.

Lemma migration_preserves_contents_witness :
  exists report f,
    (migrated out_path undisturbed).1 = Ok report /\
    node_at (migrated out_path undisturbed).2 [lit "new"; table_name] = Some (File f false) /\
    sst_holds new_encryption 99 sample_records f.
Proof.
  destruct (migration_preserves_contents file_tree [db] [] (lit "new") sample_encryption new_encryption
              false nonces undisturbed database {| sstables := 1; wal_frames := 5; copied_files := 1 |}
              (migrated out_path undisturbed).2 [table_name]) as (f & Hf & Hkept).
  - apply nonces_ok.
  - reflexivity.
  - apply tree_ok_Dir. split; [apply (bool_decide_unpack _); vm_compute; exact I|].
    repeat constructor; set_solver.
  - apply (bool_decide_unpack _); vm_compute; exact I.
  - rewrite <- migrated_ok. change (migrated out_path undisturbed = ((migrated out_path undisturbed).1, (migrated out_path undisturbed).2)).
    by destruct (migrated out_path undisturbed).
  - exists {| sstables := 1; wal_frames := 5; copied_files := 1 |}, f.
    split_and!; [apply migrated_ok|exact Hf|]. apply Hkept. left. exact sample_file_holds.
Defined.

(** An output directory that appears after the last check is not replaced, and
    a staging directory that cannot be removed stays. *)
Definition disturbed : MigrationEnv :=
  surroundings [RemoveStaging] (fun fs => put_at fs [] (lit "new") (Dir [])).

Lemma migration_all_or_nothing_witness :
  (migrated out_path disturbed).1 = Err (Io OtherIo) /\
  exists fs0, fs0 ∈ [file_tree; lock_source file_tree [db]; lock_source file_tree [db];
                     put_at (lock_source file_tree [db]) [] (lit "new") (Dir [])] /\
    ((migrated out_path disturbed).2 = fs0 \/
     (migrated out_path disturbed).2 = put_at fs0 [] staging (Dir [(LOCK_NAME, File [] false)])).
Proof.
  assert ((migrated out_path disturbed).1 = Err (Io OtherIo)) as E by (vm_compute; reflexivity).
  split; [exact E|].
  destruct (migration_all_or_nothing file_tree [db] [] (lit "new") sample_encryption new_encryption
              false nonces disturbed (migrated out_path disturbed).1 (migrated out_path disturbed).2
              (surjective_pairing (migrated out_path disturbed))) as [[((rep & _ & [Hr|[_ Hs]]) & _)|(_ & fs0 & Hin & Hfs & _)] _].
  - congruence.
  - discriminate Hs.
  - exists fs0. split; [exact Hin|]. destruct Hfs as [->|[_ ->]]; auto.
Defined.

(** When only the final sync of the parent directory fails, the migration
    reports an error although its output is complete and in place. *)
Example unsynced_output_is_published :
  (migrated out_path (surroundings [SyncParent] id)).1 = Err (Io OtherIo) /\
  (migrated out_path (surroundings [SyncParent] id)).2 = (migrated out_path undisturbed).2.
Proof. vm_compute. split; reflexivity. Qed.

(** A table whose entries are stored under other keys than they carry stops the
    migration, and nothing is published. *)
Definition foreign_file : bytes :=
  ok_default [] (sst_build sample_config 99 sample_encryption sample_rng
                   [([Byte.x01], LogRecord_new 1 [Byte.x02] [Byte.x03])]).
Example foreign_key_refused :
  rewrite_sstable foreign_file sample_encryption new_encryption false sample_rng = Err CorruptedData.
Proof. vm_compute. reflexivity. Qed.

(** A table of a database that was never given a key is only migrated by the
    command that allows it. *)
Definition legacy_file : bytes :=
  ok_default [] (sst_build sample_config 99 legacy_config sample_rng sample_records).
Example legacy_table_needs_permission :
  rewrite_sstable legacy_file new_encryption new_encryption false sample_rng
  = Err LegacyEncryptionMigrationRequired /\
  rewrite_sstable legacy_file new_encryption new_encryption true sample_rng
  = sst_build {| sc_block_size := 4096; sc_bloom_false_positive_rate := 1 # 100;
                 sc_prefix_compression_enabled := false |} 99 new_encryption sample_rng sample_records.
Proof. vm_compute. split; reflexivity. Qed.
