(* ===== verification/NoteInstances.v ===== *)
(** * NoteInstances: the layers above the engine on concrete inputs

    Encodings for the lists and records the layers keep, programs run over the
    engine with its sample environment, and the theorems applied to them. *)
From Stdlib Require Import ZArith Lia.
From stdpp Require Import base tactics numbers list gmap strings sorting pretty.
From S2P Require Import Prelude Bytes SortedMap Utf8 Text Engine EngineSpec Kv.
From S2P Require Import Blob Postings NoteIndex NoteGraph Instances EngineInstances.
Local Open Scope Z_scope.

(** ** Lists of texts as text *)

(** A byte as two letters. *)
Definition letter (n : Z) : byte := byte_of_Z (97 + n).
Definition letters (b : byte) : bytes := [letter (byte_to_Z b / 16); letter (byte_to_Z b mod 16)].
Definition unletter (b : byte) : Z := byte_to_Z b - 97.

Lemma unletters b : byte_of_Z (unletter (letter (byte_to_Z b / 16)) * 16 + unletter (letter (byte_to_Z b mod 16))) = b.
Proof. destruct b; reflexivity. Qed.

Definition semicolon : byte := Byte.x3b.
Definition text_line (x : bytes) : bytes := concat (letters <$> x) ++ [semicolon].

Definition sample_to_json (l : list bytes) : bytes := lit "[" ++ concat (text_line <$> l).

Fixpoint parse_texts (acc : bytes) (b : bytes) : option (list bytes) :=
  match b with
  | [] => match acc with [] => Some [] | _ => None end
  | c :: b1 =>
      if decide (c = semicolon) then (cons acc) <$> parse_texts [] b1
      else match b1 with
           | d :: b2 => parse_texts (acc ++ [byte_of_Z (unletter c * 16 + unletter d)]) b2
           | [] => None
           end
  end.
Definition sample_from_json (b : bytes) : option (list bytes) :=
  match b with
  | x :: b => if decide (x = Byte.x5b) then parse_texts [] b else None
  | [] => None
  end.

Lemma letter_not_semicolon b : letter (byte_to_Z b / 16) <> semicolon.
Proof. by destruct b. Qed.

Lemma parse_text_line x acc rest :
  parse_texts acc (text_line x ++ rest) = cons (acc ++ x) <$> parse_texts [] rest.
Proof.
  unfold text_line. revert acc; induction x as [|b x IH]; intros acc.
  - cbn. rewrite decide_True by done. by rewrite app_nil_r.
  - cbn [fmap list_fmap concat letters app parse_texts].
    rewrite decide_False by apply letter_not_semicolon. rewrite unletters.
    change (concat (letters <$> x)) with (concat (letters <$> x)) in IH. rewrite IH.
    by rewrite <- app_assoc.
Qed.

Lemma parse_texts_lines l : parse_texts [] (concat (text_line <$> l)) = Some l.
Proof.
  induction l as [|x l IH]; [done|]. cbn [fmap list_fmap concat]. rewrite parse_text_line.
  change (list_fmap _ _ text_line l) with (text_line <$> l). by rewrite IH.
Qed.


Lemma letters_ascii x : Forall is_ascii (concat (letters <$> x)).
Proof.
  induction x as [|b x IH]; [constructor|]. cbn. unfold is_ascii in *.
  repeat constructor; [destruct b; reflexivity..|exact IH].
Qed.

Lemma sample_json_ascii l : Forall is_ascii (sample_to_json l).
Proof.
  apply Forall_cons. split; [done|]. induction l as [|x l IH]; [constructor|].
  cbn. apply Forall_app. split; [|exact IH]. apply Forall_app. split; [apply letters_ascii|].
  by repeat constructor.
Qed.

#[global] Program Instance json_strings_instance : JsonStrings :=
  {| to_json := sample_to_json; from_json := sample_from_json |}.
Next Obligation.
  intros l _. rewrite ascii_lossy by apply sample_json_ascii. apply parse_texts_lines.
Qed.

Lemma len_sample_to_json n l :
  Forall (fun x => len x <= n) l -> len (sample_to_json l) <= 1 + Z.of_nat (length l) * (2 * n + 1).
Proof.
  assert (forall x, len (text_line x) = 2 * len x + 1) as Ht.
  { intros x. unfold text_line. rewrite len_app. change (len [semicolon]) with 1.
    enough (len (concat (letters <$> x)) = 2 * len x) by lia.
    induction x as [|b x IH]; [done|]. cbn [fmap list_fmap concat]. rewrite len_app, len_cons.
    change (len (letters b)) with 2. change (list_fmap _ _ letters x) with (letters <$> x). lia. }
  unfold sample_to_json. rewrite len_app. change (len (lit "[")) with 1.
  induction 1 as [|x l Hx _ IH]; [done|]. cbn [fmap list_fmap concat length]. rewrite len_app, Ht. lia.
Qed.

(** ** The engine as a store *)

#[local] Instance sample_residency : Residency := True.
#[global] Instance sample_laws : KvLaws EngineCore := engine_laws sample_clock_mono eq_refl.

Lemma sample_models : models EngineCore_new ∅.
Proof. apply (refines_new sample_clock_mono "default" eq_refl). Qed.

Lemma small_fits k v : len k + len v <= 4000 -> fits "default" k v.
Proof. intros Hl. apply fits_small. change (Z.of_nat (String.length "default")) with 7. lia. Qed.

Lemma small_writable k v : user_key k = true -> v <> [] -> len k + len v <= 4000 -> kv_writable (St:=EngineCore) k v.
Proof. intros Hu Hv Hl. exact (conj Hu (conj Hv (small_fits k v Hl))). Qed.

Lemma small_removable k : user_key k = true -> len k <= 4000 -> kv_removable (St:=EngineCore) k.
Proof.
  intros Hu Hl. assert (len k + len ([] : bytes) <= 4000) as Hl' by (change (len []) with 0; lia).
  exact (conj Hu (small_fits k [] Hl')).
Qed.

(** ** Notes *)

Definition na : bytes := lit "a.md".
Definition nb : bytes := lit "b.md".
Definition nc : bytes := lit "c.md".
Definition sample_note (x : bytes) : Prop := x ∈ [na; nb; nc].

Lemma sample_note_text x : sample_note x -> is_Some (from_utf8 x).
Proof. intros Hx. repeat (apply elem_of_cons in Hx as [->|Hx]; [by eexists|]). set_solver. Qed.

Lemma sample_note_len x : sample_note x -> len x = 4.
Proof. intros Hx. repeat (apply elem_of_cons in Hx as [->|Hx]; [done|]). set_solver. Qed.

Lemma sample_notes_len l : (length l <= 3)%nat -> Forall sample_note l -> len (sample_to_json l) <= 28.
Proof.
  intros Hl Hn. etransitivity; [apply (len_sample_to_json 4)|lia].
  eapply Forall_impl; [exact Hn|]. intros x Hx%sample_note_len. lia.
Qed.

Lemma sample_links_fit t l :
  sample_note t -> NoDup l -> Forall sample_note l ->
  kv_writable (St:=EngineCore) (LINK_PREFIX ++ t) (to_json l) /\ kv_removable (St:=EngineCore) (LINK_PREFIX ++ t).
Proof.
  intros Ht Hnd Hl.
  assert (length l <= 3)%nat as Hlen.
  { change 3%nat with (length [na; nb; nc]). apply submseteq_length, NoDup_submseteq; [done|].
    intros x Hx. rewrite Forall_forall in Hl. by apply Hl. }
  pose proof (sample_notes_len l Hlen Hl). pose proof (sample_note_len t Ht).
  assert (len (LINK_PREFIX ++ t) = 9) as Hk by (rewrite len_app; change (len LINK_PREFIX) with 5; lia).
  split; [apply small_writable|apply small_removable]; try done; cbn [to_json json_strings_instance]; lia.
Qed.

Definition index_history : list index_op :=
  [ IndexLinks na [nb; nc]; IndexLinks nb [nc; na]; IndexLinks nc [nc]; IndexLinks na [nc]; RemoveLinks nc ].

Lemma index_history_ok : Forall (index_op_ok (St:=EngineCore) sample_note) index_history.
Proof.
  unfold index_history.
  apply Forall_forall. intros o Ho.
  repeat (apply elem_of_cons in Ho as [->|Ho]; [cbn [index_op_ok]|]); [..|by apply elem_of_nil in Ho].
  all: try (apply small_removable; [reflexivity|vm_compute; discriminate]).
  all: split_and!; [set_solver|repeat constructor; set_solver|].
  all: apply small_writable; [reflexivity|done|vm_compute; discriminate].
Qed.

Definition index_run := kv_for index_history run_index_op EngineCore_new.

Lemma two_notes (a b x : bytes) (la lb ts : list bytes) :
  (<[a := la]> {[b := lb]} : gmap bytes (list bytes)) !! x = Some ts -> (x = a /\ ts = la) \/ (x = b /\ ts = lb).
Proof. intros [[<- <-]|[_ Hts]]%lookup_insert_Some; [by left|]. apply lookup_singleton_Some in Hts as [<- <-]. by right. Qed.

Definition index_links_left : gmap bytes (list bytes) := <[na := [nc]]> {[nb := [nc; na]]}.

Lemma index_history_links : foldl spec_index_op ∅ index_history = index_links_left.
Proof. apply (bool_decide_unpack _). vm_compute. exact I. Qed.

Lemma index_run_ok : index_run = (Ok tt, index_run.2).
Proof.
  assert (index_run.1 = Ok tt) as E1 by (vm_compute; reflexivity).
  destruct index_run as [o s']. cbn in E1 |- *. by subst o.
Qed.

Lemma note_index_inverse_witness :
  (exists l, (get_backlinks nc index_run.2).1 = Ok l /\ NoDup l /\ forall x, x ∈ l <-> x = na \/ x = nb) /\
  (get_backlinks nc index_run.2).1 = Ok [na; nb].
Proof.
  split; [|vm_compute; reflexivity].
  destruct (note_index_inverse sample_note sample_note_text sample_links_fit ∅ index_history EngineCore_new
              index_run.2 sample_models) as (_ & Hb & _).
  - intros k [v Hv]. by rewrite lookup_empty in Hv.
  - exact index_history_ok.
  - exact index_run_ok.
  - destruct (Hb nc) as (l & El & Hnd & Hl). exists l. split_and!; [done|done|].
    intros x. rewrite Hl, index_history_links. split.
    + intros (ts & [[? _]|[? _]]%two_notes & _); [by left|by right].
    + intros [->| ->]; eexists; (split; [vm_compute; reflexivity|]); by left.
Defined.

(** The graph two hops around [b.md]. *)
Definition two_hops : GraphConfig :=
  {| gc_depth := Extended; gc_include_tags := true; gc_max_nodes := 10; gc_tag_filter := None;
     gc_include_isolated := false |}.

Definition sample_graph := build_graph nb two_hops index_run.2.

Definition edge_count (o : outcome GraphData) : option nat :=
  match o with Ok d => Some (length (gd_edges d)) | _ => None end.
Lemma sample_graph_edges : edge_count sample_graph.1 = Some 3%nat.
Proof. vm_compute. reflexivity. Qed.

Lemma sample_near x : within nb (links_of index_links_left) 2 x -> x ∈ ({[na; nb; nc]} : gset bytes).
Proof.
  assert (forall y z, z ∈ links_of index_links_left y ->
            y ∈ ({[na; nb; nc]} : gset bytes) /\ z ∈ ({[na; nb; nc]} : gset bytes)) as Ha.
  { intros y z Hz. unfold links_of in Hz. destruct (index_links_left !! y) as [ts|] eqn:E; [|set_solver].
    apply two_notes in E as [[-> ->]|[-> ->]]; set_solver. }
  cbn [within]. unfold adjacent. intros Hx.
  destruct Hx as [[Hx|(y & _ & [?%Ha|?%Ha])]|(y & _ & [?%Ha|?%Ha])]; [set_solver|tauto..].
Qed.

Lemma note_graph_exact_witness :
  exists data s', sample_graph = (Ok data, s') /\ length (gd_edges data) = 3%nat /\
    NoDup (edge_pair <$> gd_edges data) /\
    forall x, x ∈ gn_id <$> gd_nodes data <-> within nb (links_of index_links_left) 2 x.
Proof.
  assert (indexed sample_note ∅ ∅) as Hi0.
  { apply indexed_empty. intros k [v Hv]. by rewrite lookup_empty in Hv. }
  destruct (run_index_ops_ok sample_note sample_note_text sample_links_fit ∅ ∅ index_history Hi0 index_history_ok
              EngineCore_new tt index_run.2 sample_models index_run_ok) as (m & Hs & Hix & _).
  rewrite index_history_links in Hix.
  pose proof sample_graph_edges as Hl.
  destruct (note_graph_exact sample_note sample_note_text m _ Hix nb two_hops _ Hs)
    as (data & s1 & E & _ & _ & _ & _ & Hin & Hall & _ & He).
  change (build_graph nb two_hops index_run.2) with sample_graph in E. revert E Hl.
  generalize sample_graph. intros o -> [= Hl]. exists data, s1. split_and!; [done|done|done|]. intros x. split; [intros Hx; by apply (Hin x Hx)|].
  intros Hx. refine (Hall {[na; nb; nc]} sample_near _ x Hx I). apply Nat.ltb_lt. vm_compute. reflexivity.
Defined.

(** After a rename the index is not inverse any more: the note that linked to the
    old path is listed under the new one, and its own links still name the old.
    When it is indexed again without links, the new path keeps listing it. *)
Definition rename_run : KvM EngineCore unit :=
  index_links na [nb];; rename_note nb nc [];; mret tt.

Theorem rename_leaves_stale_backlink :
  let s := after rename_run EngineCore_new in
  let s' := after (index_links na []) s in
  (get_backlinks nc s).1 = Ok [na] /\ (get_forward_links na s).1 = Ok [nb] /\
  (get_backlinks nc s').1 = Ok [na] /\ (get_forward_links na s').1 = Ok [].
Proof. vm_compute. split_and!; reflexivity. Qed.

(** ** Blobs *)

#[global] Program Instance blob_json_instance : BlobJson :=
  {| meta_to_json meta := u64_le (total_size meta) ++ u32_le (chunk_count meta);
     meta_from_json b := Some {| total_size := from_le_bytes (take 8 b);
                                 chunk_count := from_le_bytes (drop 8 b) |} |}.
Next Obligation.
  intros [t c] Ht Hc. cbn [total_size chunk_count] in *.
  rewrite take_app_length', drop_app_length' by (symmetry; apply (length_to_le_bytes 8)).
  by rewrite from_u64_le, from_u32_le.
Qed.

Lemma length_pretty_go (n : nat) x s :
  (x < 10 ^ N.of_nat n)%N -> (String.length (pretty_N_go x s) <= String.length s + n)%nat.
Proof.
  revert x s; induction n as [|n IH]; intros x s Hx.
  - assert (x = 0%N) as -> by (cbn in Hx; lia). rewrite pretty_N_go_0. lia.
  - assert (x = 0 \/ 0 < x)%N as [->|Hp] by lia; [rewrite pretty_N_go_0; lia|].
    rewrite pretty_N_go_step by done. etransitivity; [apply IH|cbn; lia].
    rewrite Nat2N.inj_succ, N.pow_succ_r' in Hx. apply N.Div0.div_lt_upper_bound. lia.
Qed.

Lemma len_decimal (n : nat) x : (0 < n)%nat -> (x < 10 ^ N.of_nat n)%N -> len (decimal x) <= Z.of_nat n.
Proof.
  intros Hn Hx. assert (forall s, len (lit s) = Z.of_nat (String.length s)) as Hl.
  { intros s. unfold lit, len, String.list_byte_of_string. rewrite length_map.
    induction s as [|c s IH]; [done|]. cbn [String.list_ascii_of_string length String.length]. lia. }
  unfold decimal, pretty, pretty_N. rewrite Hl. case_decide; [cbn; lia|].
  pose proof (length_pretty_go n x "" Hx). cbn [String.length] in *. lia.
Qed.

Lemma chunk_key_small name i :
  0 <= i <= u32_max -> user_key (chunk_key name i) = true /\ len (chunk_key name i) <= 40 + len name.
Proof.
  intros Hi. split; [reflexivity|]. unfold chunk_key. rewrite !len_app, len_cons.
  change (len BLOB_CHUNK_PREFIX) with 13. pose proof (len_decimal 20 (Z.to_N i)). unfold u32_max in Hi. lia.
Qed.

Lemma small_chunk size name data i :
  0 < size <= 100 -> len name <= 100 -> 0 <= i <= u32_max -> i * size < len data ->
  kv_writable (St:=EngineCore) (chunk_key name i) (chunk size data i).
Proof.
  intros Hs Hn Hi Hd. destruct (chunk_key_small name i Hi) as [Hu Hk].
  assert (1 <= len (chunk size data i) <= 100).
  { unfold chunk, len in *. rewrite length_take, length_drop. lia. }
  apply small_writable; [done| |lia]. intros E. rewrite E in *. change (len []) with 0 in *. lia.
Qed.

(** Small blobs that are not empty can be stored in chunks. *)
Lemma small_blob size name data :
  0 < size <= 100 -> len name <= 100 -> 0 < len data <= 1000 -> blob_ok (St:=EngineCore) size name data.
Proof.
  intros Hs Hn Hd. assert ((len data + size - 1) / size <= 1099) as Hc.
  { apply Z.div_le_upper_bound; nia. }
  split_and!; [lia|unfold u64_max; lia|unfold u32_max; lia|]. intros count Hcount.
  assert (0 <= count <= 1099 /\ (count - 1) * size < len data) as [Hc1 Hc2].
  { unfold count_chunks in Hcount. destruct data as [|x data]; [change (len []) with 0 in Hd; lia|].
    set (l := x :: data) in *. rewrite (proj2 (Z.eqb_neq _ _)) in Hcount by lia. injection Hcount as <-.
    pose proof (Z.div_mod (len l + size - 1) size ltac:(lia)).
    pose proof (Z.mod_pos_bound (len l + size - 1) size ltac:(lia)).
    assert (0 <= (len l + size - 1) / size) by (apply Z.div_pos; lia).
    rewrite as_u32_small by (unfold u32_max; lia). split; [lia|]. nia. }
  split.
  - intros i Hi. apply small_chunk; [lia|lia|unfold u32_max; lia|]. nia.
  - apply small_writable; [reflexivity| |].
    + cbn. discriminate.
    + unfold meta_key. cbn [meta_to_json blob_json_instance total_size chunk_count].
      rewrite !len_app, len_u64_le, len_u32_le. change (len BLOB_META_PREFIX) with 12. lia.
Qed.

Definition blob_name : bytes := lit "report".
Definition blob_history : list blob_op :=
  [ StoreBlob blob_name (lit "a long first version"); StoreBlob (lit "other") (lit "x");
    StoreBlob blob_name (lit "short"); DeleteBlob (lit "other") ].

Lemma blob_history_ok : Forall (blob_op_ok (St:=EngineCore) 4) blob_history.
Proof.
  apply Forall_forall. intros o Ho. unfold blob_history in Ho.
  repeat (apply elem_of_cons in Ho as [->|Ho]; [cbn [blob_op_ok]|]); [..|by apply elem_of_nil in Ho].
  1-3: apply small_blob; by vm_compute.
  split; [|by apply small_removable; vm_compute].
  intros i Hi. destruct (chunk_key_small (lit "other") i) as [Hu Hk]; [lia|].
  apply small_removable; [done|]. change (len (lit "other")) with 5 in Hk. lia.
Qed.

Definition blob_run := kv_for blob_history (run_blob_op 4) EngineCore_new.

Lemma blob_store_refines_map_witness :
  (retrieve blob_name blob_run.2).1 = Ok (Some (lit "short")).
Proof.
  assert (blob_run.1 = Ok tt) as E1 by (vm_compute; reflexivity).
  assert (blob_run = (Ok tt, blob_run.2)) as E by (destruct blob_run as [o s']; cbn in E1 |- *; by subst o).
  etransitivity.
  - refine (blob_store_refines_map 4 ∅ blob_history EngineCore_new blob_run.2 blob_name sample_models _
              blob_history_ok E). intros n. apply lookup_empty.
  - apply (f_equal Ok). apply (bool_decide_unpack _). vm_compute. exact I.
Defined.

(** A shorter version leaves the last chunks of the longer one behind, and
    deleting the blob does not remove them. *)
Theorem orphan_chunks_remain :
  let s := after (delete_blob blob_name) blob_run.2 in
  (retrieve blob_name s).1 = Ok None /\
  (get_cf "default" (chunk_key blob_name 4) s).1 = Ok (Some (lit "sion")).
Proof. vm_compute. split; reflexivity. Qed.

(** A chunk size of zero panics on the first blob that is not empty. *)
Theorem zero_chunk_size_panics :
  (store 0 blob_name (lit "x") EngineCore_new).1 = Panic.
Proof. vm_compute. reflexivity. Qed.
