(* ===== verification/NoteEngineInstances.v ===== *)
(** * NoteEngineInstances: notes on concrete contents

    Unicode tables for ASCII, encodings of the search index, and histories of notes
    and of requests to the HTTP interface run over the engine, to which the theorems
    are applied. *)
From Stdlib Require Import ZArith Lia.
From stdpp Require Import base tactics numbers list gmap strings sorting pretty.
From S2P Require Import Auth Api TimeTravel NoteVersions NoteApi.
From S2P Require Import Prelude Bytes SortedMap Utf8 Text Engine EngineSpec Kv Postings.
From S2P Require Import NoteIndex NoteGraph NoteParser NoteSearch NoteEngine NoteRules.
From S2P Require Import Instances EngineInstances NoteInstances.
Local Open Scope Z_scope.

(** ** Unicode, on ASCII *)

Definition alphanumeric_char (c : bytes) : bool := match c with [b] => ascii_alphanumeric b | _ => false end.

#[global] Program Instance ascii_unicode : Unicode :=
  {| to_lowercase s := ascii_lower <$> s; is_alphanumeric := alphanumeric_char |}.
Next Obligation.
  intros s Hs (b & E & Hb)%list_elem_of_fmap. apply Hs. assert (b = Byte.x3a) as <- by (by destruct b). done.
Qed.
Next Obligation. done. Qed.
Next Obligation. done. Qed.

(** ** The search index *)

Definition entry_line (e : TermEntry) : bytes := u64_le (te_count e) ++ te_path e.
Definition line_entry (x : bytes) : TermEntry := mkTermEntry (drop 8 x) (from_le_bytes (take 8 x)).

Lemma line_entry_line e : 0 <= te_count e <= u64_max -> line_entry (entry_line e) = e.
Proof.
  intros He. unfold line_entry, entry_line.
  rewrite take_app_length', drop_app_length' by (symmetry; apply (length_to_le_bytes 8)).
  rewrite from_u64_le by done. by destruct e.
Qed.

Definition entry_lines (es : list TermEntry) : list bytes := entry_line <$> es.
Definition line_entries (l : list bytes) : list TermEntry := line_entry <$> l.

#[global] Program Instance sample_search_env : SearchEnv :=
  {| entries_to_json es := sample_to_json (entry_lines es);
     entries_from_json b := line_entries <$> sample_from_json b;
     fts_meta_to_json meta := u64_le (fm_checksum meta) ++ u64_le (fm_word_count meta);
     fts_meta_from_json b := Some (mkFtsMeta (from_le_bytes (take 8 b)) (from_le_bytes (drop 8 b)));
     checksum c := from_le_bytes c mod (u64_max + 1);
     hash_order := map_to_list |}.
Next Obligation.
  intros es Hes. change (line_entries <$> parse_texts [] (concat (text_line <$> entry_lines es)) = Some es).
  rewrite parse_texts_lines. cbn. f_equal. unfold line_entries, entry_lines. rewrite <- list_fmap_compose. rewrite <- (list_fmap_id es) at 2.
  apply list_fmap_ext. intros i e Hi. cbn. apply line_entry_line. rewrite Forall_forall in Hes.
  by apply Hes, list_elem_of_lookup_2 with i.
Qed.
Next Obligation.
  intros [a b] Ha Hb. cbn [fm_checksum fm_word_count] in *.
  rewrite take_app_length', drop_app_length' by (symmetry; apply (length_to_le_bytes 8)).
  by rewrite !from_u64_le.
Qed.
Next Obligation.
  intros c. pose proof (Z.mod_pos_bound (from_le_bytes c) (u64_max + 1)). unfold u64_max in *. lia.
Qed.
Next Obligation. done. Qed.

(** ** Contents *)

Definition newline : bytes := [Byte.x0a].
Definition text_a : bytes := Eval vm_compute in
  lit "---" ++ newline ++ lit "tags: [work]" ++ newline ++ lit "---" ++ newline ++
  lit "![[p.png]] [[b.md]] [[c.md|third]] #idea".
Definition text_b : bytes := Eval vm_compute in lit "Back to [[a.md]] #work".
Definition text_a2 : bytes := Eval vm_compute in lit "Only [[c.md]] now".
Definition sample_texts : list bytes := [text_a; text_b; text_a2].

Definition sample_notes : gset bytes := list_to_set [na; nb; nc].
Definition tag_list : list bytes := [lit "work"; lit "idea"].
Definition sample_tags : gset bytes := list_to_set tag_list.
Definition term_list : list bytes := Eval vm_compute in concat (tokenize <$> sample_texts).
Definition sample_terms : gset bytes := list_to_set term_list.

Lemma parse_text_a :
  targets_of text_a = [nb; nc] /\ tags_of text_a = [lit "work"; lit "idea"] /\
  fm_tags (pn_frontmatter (parse_note text_a)) = [lit "work"].
Proof. vm_compute. done. Qed.

(** ** Everything fits *)

Definition small_text (n : Z) (x : bytes) : bool := bool_decide (is_Some (from_utf8 x)) && (len x <=? n).

Lemma small_text_spec n x : small_text n x = true -> is_Some (from_utf8 x) /\ len x <= n.
Proof. unfold small_text. rewrite andb_true_iff, bool_decide_eq_true, Z.leb_le. done. Qed.

Lemma small_texts n l x : forallb (small_text n) l = true -> x ∈ l -> is_Some (from_utf8 x) /\ len x <= n.
Proof. intros Hl Hx. apply small_text_spec. rewrite forallb_forall in Hl. by apply Hl, list_elem_of_In. Qed.

Lemma sample_notes_spec x : x ∈ sample_notes -> sample_note x.
Proof. unfold sample_notes, sample_note. by rewrite elem_of_list_to_set. Qed.

Lemma sample_term_spec t : t ∈ sample_terms -> is_Some (from_utf8 t) /\ len t <= 50.
Proof. unfold sample_terms. rewrite elem_of_list_to_set. apply small_texts. vm_compute. reflexivity. Qed.

Lemma sample_tag_spec t : t ∈ sample_tags -> is_Some (from_utf8 t) /\ len t <= 50.
Proof. unfold sample_tags. rewrite elem_of_list_to_set. apply small_texts. vm_compute. reflexivity. Qed.

Lemma distinct_notes_length l : NoDup l -> Forall sample_note l -> (length l <= 3)%nat.
Proof.
  intros Hnd Hl. change 3%nat with (length [na; nb; nc]). apply submseteq_length, NoDup_submseteq; [done|].
  intros x Hx. rewrite Forall_forall in Hl. by apply Hl.
Qed.

Lemma key_fits P x v :
  (forall r, user_key (P ++ r) = true) -> len P <= 20 -> len x <= 60 -> v <> [] -> len v <= 3900 ->
  kv_writable (St:=EngineCore) (P ++ x) v /\ kv_removable (St:=EngineCore) (P ++ x).
Proof.
  intros Hu HP Hx Hv Hl. split; [apply small_writable|apply small_removable]; try done; rewrite ?len_app; lia.
Qed.

Lemma sample_search_fits : search_fits (St:=EngineCore) sample_terms sample_notes.
Proof.
  constructor.
  - intros p Hp%sample_notes_spec. by apply sample_note_text.
  - intros t Ht. apply (sample_term_spec t Ht).
  - intros t es Ht Hnd Hes. destruct (sample_term_spec t Ht) as [_ Hlen].
    assert (Forall sample_note (te_path <$> es)) as Hn.
    { apply Forall_fmap. eapply Forall_impl; [exact Hes|]. intros e [He _]. by apply sample_notes_spec. }
    assert (len (sample_to_json (entry_lines es)) <= 1 + 3 * 25) as Hl.
    { pose proof (distinct_notes_length _ Hnd Hn) as Hl. rewrite length_fmap in Hl.
      etransitivity; [apply (len_sample_to_json 12)|unfold entry_lines; rewrite length_fmap; lia].
      apply Forall_fmap. eapply Forall_impl; [exact Hes|]. intros e [He%sample_notes_spec%sample_note_len _].
      unfold compose, entry_line. rewrite len_app, len_u64_le. lia. }
    apply key_fits; [done|done|lia|done|]. cbn [entries_to_json sample_search_env]. lia.
  - intros p meta Hp _ _. apply sample_notes_spec, sample_note_len in Hp.
    unfold fts_meta_key. rewrite app_assoc. apply key_fits; [done|done|lia| |].
    + cbn. discriminate.
    + cbn [fts_meta_to_json sample_search_env]. rewrite len_app, !len_u64_le. lia.
  - apply Z.leb_le. vm_compute. reflexivity.
Qed.

Lemma sample_list_fits P t l :
  (forall r, user_key (P ++ r) = true) -> len P <= 20 -> len t <= 60 -> NoDup l -> Forall sample_note l ->
  kv_writable (St:=EngineCore) (P ++ t) (to_json l) /\ kv_removable (St:=EngineCore) (P ++ t).
Proof.
  intros Hu HP Ht Hnd Hl. apply key_fits; [done..|].
  pose proof (sample_notes_len l (distinct_notes_length l Hnd Hl) Hl). cbn [to_json json_strings_instance]. lia.
Qed.

Lemma sample_notes_fit : notes_fit (St:=EngineCore) sample_terms sample_notes sample_tags.
Proof.
  assert (forall l, Forall (a_note sample_notes) l -> Forall sample_note l) as Hn.
  { intros l Hl. eapply Forall_impl; [exact Hl|]. intros x. apply sample_notes_spec. }
  constructor.
  - intros t l Ht%sample_notes_spec%sample_note_len Hnd Hl%Hn. apply sample_list_fits; try done. lia.
  - intros t l Ht Hnd Hl%Hn. apply sample_list_fits; try done. apply sample_tag_spec in Ht as [_ ?]. lia.
  - apply sample_search_fits.
  - split; apply Z.leb_le; vm_compute; reflexivity.
Qed.

Definition all_in (l l' : list bytes) : bool := forallb (fun x => bool_decide (x ∈ l')) l.

Lemma all_in_spec l l' x : all_in l l' = true -> x ∈ l -> x ∈ l'.
Proof.
  intros Hl Hx. unfold all_in in Hl. rewrite forallb_forall in Hl.
  apply list_elem_of_In in Hx. by apply (proj1 (bool_decide_eq_true _) (Hl x Hx)).
Qed.

Definition text_fits (c : bytes) : bool :=
  small_text 200 c && negb (bool_decide (c = [])) && all_in (targets_of c) [na; nb; nc] &&
  (length (targets_of c) <=? 3)%nat && all_in (tags_of c) tag_list && all_in (tokenize c) term_list &&
  (len (tokenize c) <=? 100).

Lemma sample_put_fits p c :
  sample_note p -> text_fits c = true -> put_fits (St:=EngineCore) sample_terms sample_notes sample_tags p c.
Proof.
  intros Hp Hc. unfold text_fits in Hc. rewrite !andb_true_iff in Hc.
  destruct Hc as ((((((Hsm & Hne) & Hta) & Hlen) & Htg) & Hte) & Hw).
  apply small_text_spec in Hsm as [Htext Hl]. apply negb_true_iff, bool_decide_eq_false in Hne.
  apply Nat.leb_le in Hlen. apply Z.leb_le in Hw. pose proof (sample_note_len p Hp) as Hpl.
  assert (Forall sample_note (targets_of c)) as Hts
    by (apply Forall_forall; intros x Hx; by apply (all_in_spec _ [na; nb; nc]) in Hx).
  constructor.
  - unfold a_note, sample_notes. by rewrite elem_of_list_to_set.
  - done.
  - apply key_fits; [done|done|lia|done|lia].
  - apply Forall_forall. intros x Hx. unfold a_note, sample_notes. rewrite elem_of_list_to_set.
    by apply (all_in_spec _ [na; nb; nc]) in Hx.
  - apply key_fits; [done|done|lia|done|].
    pose proof (sample_notes_len (targets_of c) Hlen Hts). cbn [to_json json_strings_instance]. lia.
  - apply Forall_forall. intros x Hx. unfold a_tag, sample_tags. rewrite elem_of_list_to_set.
    by apply (all_in_spec _ tag_list) in Hx.
  - intros t Ht. unfold sample_terms. rewrite elem_of_list_to_set. by apply (all_in_spec _ term_list) in Ht.
  - unfold u64_max. lia.
Qed.

Lemma sample_delete_fits p : sample_note p -> delete_fits (St:=EngineCore) sample_notes p.
Proof.
  intros Hp. pose proof (sample_note_len p Hp). constructor.
  - unfold a_note, sample_notes. by rewrite elem_of_list_to_set.
  - apply (key_fits NOTE_PREFIX p [Byte.x00]); [done|done|lia|done|done].
  - apply (key_fits BACKLINK_PREFIX p [Byte.x00]); [done|done|lia|done|done].
Qed.

Definition note_history : list note_op :=
  [ PutNote na text_a; PutNote nb text_b; PutNote na text_a2; DeleteNote nb ].

Lemma note_history_fits :
  Forall (note_op_fits (St:=EngineCore) sample_terms sample_notes sample_tags sample_texts) note_history.
Proof.
  assert (sample_note na /\ sample_note nb) as [Ha Hb] by (unfold sample_note; split; set_solver).
  apply Forall_forall. intros o Ho. unfold note_history in Ho.
  repeat (apply elem_of_cons in Ho as [->|Ho]; [cbn [note_op_fits]|]); [..|by apply elem_of_nil in Ho].
  1-3: split; [apply sample_put_fits; [done|vm_compute; reflexivity]|].
  4: by apply sample_delete_fits.
  all: apply (bool_decide_unpack _); vm_compute; exact I.
Qed.

Lemma sample_checksums c c' : c ∈ sample_texts -> c' ∈ sample_texts -> checksum c = checksum c' -> c = c'.
Proof.
  assert (forallb (fun x => forallb (fun y => bool_decide (x = y) || negb (checksum x =? checksum y)) sample_texts)
            sample_texts = true) as Hall by (vm_compute; reflexivity).
  rewrite forallb_forall in Hall. intros Hc Hc' E. specialize (Hall c (proj1 (list_elem_of_In _ _) Hc)).
  rewrite forallb_forall in Hall. specialize (Hall c' (proj1 (list_elem_of_In _ _) Hc')).
  apply orb_true_iff in Hall as [->%bool_decide_eq_true|H]; [done|]. apply negb_true_iff, Z.eqb_neq in H. done.
Qed.

Definition note_run := kv_for note_history (run_note_op id) EngineCore_new.

Lemma note_run_ok : note_run = (Ok tt, note_run.2).
Proof.
  assert (note_run.1 = Ok tt) as E1 by (vm_compute; reflexivity).
  destruct note_run as [o s']. cbn in E1 |- *. by subst o.
Qed.

Lemma fresh_empty : fresh ∅.
Proof. intros k [v Hv]. by rewrite lookup_empty in Hv. Qed.


(** ** Searching *)

Definition fts_history : list fts_op :=
  [ IndexNote na text_a; IndexNote nb text_b; IndexNote na text_a2; RemoveNote nb ].

Lemma fts_history_ok : Forall (fts_op_ok sample_terms sample_notes sample_texts) fts_history.
Proof.
  assert (forall p, sample_note p -> p ∈ sample_notes) as Hn
    by (intros p Hp; unfold sample_notes; by rewrite elem_of_list_to_set).
  assert (sample_note na /\ sample_note nb) as [Ha%Hn Hb%Hn] by (unfold sample_note; split; set_solver).
  assert (forall c, all_in (tokenize c) term_list = true -> forall t, t ∈ tokenize c -> t ∈ sample_terms) as Ht.
  { intros c Hc t Ht. unfold sample_terms. rewrite elem_of_list_to_set. by apply (all_in_spec _ term_list) in Ht. }
  apply Forall_forall. intros o Ho. unfold fts_history in Ho.
  repeat (apply elem_of_cons in Ho as [->|Ho]; [cbn [fts_op_ok]|]); [..|by apply elem_of_nil in Ho].
  4: done.
  all: split_and!; [done|apply (bool_decide_unpack _); vm_compute; exact I|apply Ht; vm_compute; reflexivity|].
  all: apply Z.leb_le; vm_compute; reflexivity.
Qed.

Definition fts_run := kv_for fts_history run_fts_op EngineCore_new.

Lemma fts_run_ok : fts_run = (Ok tt, fts_run.2).
Proof.
  assert (fts_run.1 = Ok tt) as E1 by (vm_compute; reflexivity).
  destruct fts_run as [o s']. cbn in E1 |- *. by subst o.
Qed.

(** The query [NOW only], a phrase in quotes: its terms are in the last content of
    [a.md], in the other order. *)
Definition phrase_query : bytes := quote ++ lit "NOW only" ++ quote.

Lemma note_search_exact_witness :
  exists hits, (search_notes phrase_query fts_run.2).1 = Ok hits /\ na ∈ hits /\ nb ∉ hits.
Proof.
  pose proof (note_search_exact sample_terms sample_notes sample_search_fits sample_texts fts_history ∅ EngineCore_new
    fts_run.2 phrase_query sample_models) as Hsearch.
  destruct (foldl spec_fts_op (∅, ∅) fts_history) as [cs ever] eqn:Espec.
  assert (cs = {[na := text_a2]}) as ->.
  { apply (f_equal fst) in Espec. cbn [fst] in Espec. rewrite <- Espec.
    apply (bool_decide_unpack _). vm_compute. exact I. }
  destruct Hsearch as (hits & E & _ & Hfound & Hlive).
  - intros k [v Hv]. by rewrite lookup_empty in Hv.
  - exact sample_checksums.
  - exact fts_history_ok.
  - exact fts_run_ok.
  - exists hits. split_and!; [done| |].
    + apply (Hfound na text_a2); [apply lookup_singleton_eq|]. split; [vm_compute; discriminate|].
      intros t Ht. apply (all_in_spec (tokenize (lit "NOW only"))); [vm_compute; reflexivity|exact Ht].
    + intros Hb%Hlive. rewrite lookup_singleton_ne in Hb by (vm_compute; discriminate). by destruct Hb.
Defined.

(** ** Parsing *)

Definition plain_text : bytes := Eval vm_compute in lit "a #x and #y ".
Definition code_text : bytes := Eval vm_compute in lit "let #no = 1;".
Definition more_text : bytes := Eval vm_compute in lit " #z #x".

Lemma plain_dec s : negb (bool_decide (backtick ∈ s)) && bool_decide (find COMMENT s = None) = true -> NoteParser.plain s.
Proof. rewrite andb_true_iff, negb_true_iff, bool_decide_eq_false, bool_decide_eq_true. done. Qed.

Lemma note_parse_exact_witness :
  links_exact text_a (parse_wikilinks text_a) /\ length (parse_wikilinks text_a) = 3%nat /\
  parse_tags (render plain_text [(code_text, more_text)]) = [lit "x"; lit "y"; lit "z"].
Proof.
  destruct (note_parse_exact text_a plain_text [(code_text, more_text)]) as (Hl & _ & Hr).
  split_and!; [exact Hl|vm_compute; reflexivity|]. rewrite Hr.
  - vm_compute. reflexivity.
  - apply plain_dec. vm_compute. reflexivity.
  - apply Forall_singleton. split; apply plain_dec; vm_compute; reflexivity.
Defined.

(** ** Behaviour to know about *)

Definition hits_of (o : outcome (gset bytes)) : option (list bytes) :=
  match o with Ok hits => Some (elements hits) | _ => None end.

(** A note keeps the tags and the terms of contents it no longer has. *)
Theorem old_tags_and_terms_stay :
  (get_note na note_run.2).1 = Ok (Some text_a2) /\ tags_of text_a2 = [] /\
  (get_notes_by_tag (lit "idea") note_run.2).1 = Ok [na] /\
  hits_of (search_notes (lit "third") note_run.2).1 = Some [na].
Proof. vm_compute. split_and!; reflexivity. Qed.

(** A renamed note stays under its old path in the tags and the search index, and
    is not under the new one. *)
Definition rename_history : KvM EngineCore unit := put_note nb text_b;; rename nb nc.
Theorem rename_leaves_tags :
  let s := after rename_history EngineCore_new in
  (get_note nc s).1 = Ok (Some text_b) /\ (get_note nb s).1 = Ok None /\
  (get_notes_by_tag (lit "work") s).1 = Ok [nb] /\
  hits_of (search_notes (lit "back") s).1 = Some [nb].
Proof. vm_compute. split_and!; reflexivity. Qed.

(** The line after a list on lines of its own is lost. *)
Theorem line_after_list_lost :
  fm_title (parse_yaml_block (lit "aliases:" ++ newline ++ lit "- one" ++ newline ++ lit "title: T")) = None.
Proof. vm_compute. reflexivity. Qed.

(** A value that starts with a dash is read as a list, and lost. *)
Theorem dashed_value_lost :
  fm_custom (parse_yaml_block (lit "offset: -5")) = ∅ /\
  fm_title (parse_yaml_block (lit "offset: -5" ++ newline ++ lit "title: T")) = None.
Proof. split; vm_compute; reflexivity. Qed.

(** Of a list under any other key only the last item is kept. *)
Theorem custom_list_keeps_last :
  fm_custom (parse_yaml_block (lit "authors: [ann, bob]")) = {[lit "authors_item" := lit "bob"]}.
Proof. apply (bool_decide_unpack _). vm_compute. exact I. Qed.

(** The start of a comment inside inline code hides the tags after it. *)
Theorem comment_in_code_hides_tags :
  parse_tags (lit "`<!--` then #tag") = [] /\ parse_tags (lit "`x` then #tag") = [lit "tag"].
Proof. vm_compute. split; reflexivity. Qed.

(** A snippet whose start falls inside a character panics. *)
Definition accents : bytes := concat (replicate 20 [Byte.xc3; Byte.xa9]).
Theorem snippet_panics :
  is_Some (from_utf8 (accents ++ lit "xzz")) /\ generate_snippet (accents ++ lit "xzz") (lit "zz") = Panic.
Proof. split; [apply (bool_decide_unpack _); vm_compute; exact I|vm_compute; reflexivity]. Qed.

(** ** Versions *)

Fixpoint read_stamps (n : nat) (b : bytes) : list Z :=
  match n with
  | O => []
  | S n => from_le_bytes (take 16 b) :: read_stamps n (drop 16 b)
  end.
Definition write_stamps (l : list Z) : bytes := lit "[" ++ concat (u128_le <$> l).

Lemma length_stamps l : length (concat (u128_le <$> l)) = (length l * 16)%nat.
Proof. induction l as [|t l IH]; [done|]. cbn. rewrite length_app, IH. by rewrite (length_to_le_bytes 16 t : length (u128_le t) = 16%nat). Qed.

#[global] Program Instance version_json_instance : VersionJson :=
  {| versions_to_json := write_stamps;
     versions_from_json b := Some (read_stamps ((length b - 1) / 16) (drop 1 b)) |}.
Next Obligation.
  intros l Hl. apply (f_equal Some). unfold write_stamps. rewrite length_app, length_stamps. change (length (lit "[")) with 1%nat.
  replace (1 + length l * 16 - 1)%nat with (length l * 16)%nat by lia. rewrite Nat.div_mul by done.
  change (drop 1 (lit "[" ++ concat (u128_le <$> l))) with (concat (u128_le <$> l)).
  induction Hl as [|t l Ht _ IH]; [done|]. cbn [length read_stamps fmap list_fmap concat].
  assert (length (u128_le t) = 16%nat) as E by apply (length_to_le_bytes 16).
  rewrite take_app_length', drop_app_length' by done. by rewrite from_u128_le, IH.
Qed.

(** Two versions are saved and the first is restored, which saves two more. *)
Definition version_history : KvM (gmap bytes bytes) bool :=
  put_note_with_version 5 nb text_b;; put_note_with_version 7 nb text_a2;; restore_version 8 9 nb 5.
Theorem restored_version :
  let s := (version_history ∅).2 in
  (version_history ∅).1 = Ok true /\ (get_note nb s).1 = Ok (Some text_b) /\
  (get_note_at_version nb 8 s).1 = Ok (Some text_a2) /\
  (get_version_history nb s).1 = Ok [5; 7; 8; 9].
Proof. vm_compute. split_and!; reflexivity. Qed.

(** ** Templates and schemas *)

(** A clock that is always formatted as the format itself. *)
#[global] Instance sample_chrono : Chrono := {| format_time _ fmt := Some fmt |}.

Lemma template_render_exact_witness :
  render_template (fun _ => 0) {[lit "name" := lit "Ann"]}
    (print_template [(lit "Hi ", lit " name "); (lit ", ", lit "date:%Y")] (lit "!")) = Ok (lit "Hi Ann, %Y!").
Proof.
  rewrite template_render_exact.
  - vm_compute. reflexivity.
  - repeat constructor.
  - reflexivity.
Defined.

(** A text that is no date has the type of one: ten characters with two dashes. *)
Theorem not_a_date : validate_type (lit "well--known") TDate = true.
Proof. vm_compute. reflexivity. Qed.

(** The default schema gives the tags a type, and it is never checked: the value of
    the field is looked up among the custom fields, where tags are not. *)
Theorem tags_type_unchecked fm :
  fm_custom fm !! lit "tags" = None -> check_type fm (lit "tags", TTagList) = [].
Proof.
  intros E. unfold check_type, field_value. cbn [fst]. rewrite !bool_decide_eq_false_2 by (by vm_compute).
  by rewrite E.
Qed.

(** ** Requests to the server *)

Module Requests.
Import Auth Api NoteVersions NoteApi.

(** *** Requests *)

Definition request_with (ps : list Permission) : Request :=
  mkRequest (lit "GET") (lit "/notes") None (Some true) None
    (Some (mkApiToken (lit "id-1") (lit "someone") [] 1 None ps)).
Definition reader : Request := request_with [Read].
Definition author : Request := request_with [Read; Write].
Definition admin : Request := request_with [Admin].

(** A note is written twice, by someone without the permission once more, and
    restored; a version and a note are deleted. *)
Definition sample_note_requests : list (Request * note_request) :=
  [ (author, PutNoteAt 5 na text_a2); (author, PutNoteAt 6 nb text_b); (author, PutNoteAt 7 na text_b);
    (reader, PutNoteAt 8 na text_a2); (author, RestoreVersion 9 10 na 5); (reader, GetNote na);
    (reader, VersionHistory na); (admin, DeleteVersion na 7); (reader, NoteAtVersion na 7);
    (reader, NoteAtVersion na 9); (admin, NoteApi.RemoveNote nb); (reader, Backlinks na); (reader, GetNote nb) ].

(** *** Versions fit *)

Lemma sample_version_key p ts : sample_note p -> 0 <= ts <= u128_max -> len (p ++ colon :: decimal (Z.to_N ts)) <= 60.
Proof.
  intros Hp%sample_note_len Hts. rewrite len_app, len_cons.
  assert (len (decimal (Z.to_N ts)) <= 39); [|lia].
  apply (len_decimal 39); [lia|]. assert (u128_max < 10 ^ 39) by done. change (10 ^ N.of_nat 39)%N with (Z.to_N (10 ^ 39)). lia.
Qed.

Lemma sample_versions_json l : (length l <= MAX_VERSIONS)%nat -> len (versions_to_json l) <= 3900 /\ versions_to_json l <> [].
Proof.
  intros Hl. split; [|done]. cbn [versions_to_json version_json_instance]. unfold write_stamps, len.
  rewrite length_app, length_stamps. change (length (lit "[")) with 1%nat. unfold MAX_VERSIONS in Hl. lia.
Qed.

Lemma sample_texts_fit c : c ∈ sample_texts -> text_fits c = true.
Proof.
  assert (forallb text_fits sample_texts = true) as Hall by (vm_compute; reflexivity).
  rewrite forallb_forall in Hall. intros Hc. by apply Hall, list_elem_of_In.
Qed.

Lemma sample_text_bytes c : c ∈ sample_texts -> is_Some (from_utf8 c) /\ len c <= 200 /\ c <> [].
Proof.
  intros Hc%sample_texts_fit. unfold text_fits in Hc. rewrite !andb_true_iff in Hc.
  destruct Hc as ((((((Hs & Hne) & _) & _) & _) & _) & _). apply small_text_spec in Hs as [Ht Hl].
  by apply negb_true_iff, bool_decide_eq_false in Hne.
Qed.

Lemma sample_versions_fit : versions_fit (St:=EngineCore) sample_terms sample_notes sample_tags sample_texts.
Proof.
  assert (u64_max <= u128_max) as Hmax by done. constructor.
  - intros c Hc. by apply sample_text_bytes.
  - intros p ts c Hp%sample_notes_spec Hts Hc%sample_text_bytes. unfold stamp_ok in Hts.
    apply key_fits; [done|done|apply sample_version_key; [done|lia]|apply Hc|lia].
  - intros p ts Hp%sample_notes_spec Hts.
    by apply (key_fits VERSION_CONTENT_PREFIX _ [Byte.x00]); [done|done|apply sample_version_key|done|done].
  - intros p l Hp%sample_notes_spec%sample_note_len Hl _. apply sample_versions_json in Hl as [Hl Hne].
    apply key_fits; [done|done|lia|done|lia].
  - intros p Hp%sample_notes_spec%sample_note_len.
    apply (key_fits VERSION_PREFIX _ [Byte.x00]); [done|done|lia|done|done].
  - intros p c Hp%sample_notes_spec Hc%sample_texts_fit. by apply sample_put_fits.
  - intros p Hp%sample_notes_spec. by apply sample_delete_fits.
  - exact sample_checksums.
Qed.

Lemma sample_note_requests_fit : Forall (request_fits sample_notes sample_texts) sample_note_requests.*2.
Proof.
  assert (na ∈ sample_notes /\ nb ∈ sample_notes) as [Ha Hb] by (split; apply (bool_decide_unpack _); vm_compute; exact I).
  assert (text_a ∈ sample_texts /\ text_b ∈ sample_texts /\ text_a2 ∈ sample_texts) as (Hta & Htb & Hta2)
    by (split_and!; apply (bool_decide_unpack _); vm_compute; exact I).
  unfold sample_note_requests. cbn [fmap list_fmap snd].
  repeat (apply Forall_cons; split); try apply Forall_nil; try done; (split; [|]); cbn [stamps];
    try done; repeat (apply Forall_cons; split); try apply Forall_nil; done.
Qed.

Definition note_api_run := run_requests id sample_note_requests EngineCore_new.
Definition note_responses : list Response := match note_api_run.1 with Ok rs => rs | _ => [] end.

Lemma note_api_run_ok : note_api_run = (Ok note_responses, note_api_run.2).
Proof.
  assert (match note_api_run.1 with Ok _ => true | _ => false end = true) as E by (vm_compute; reflexivity).
  unfold note_responses. destruct note_api_run as [[rs|e|] s']; done.
Qed.

Lemma note_statuses :
  (fun r => status r) <$> note_responses = [200; 200; 200; 403; 200; 200; 200; 200; 404; 200; 200; 200; 404].
Proof. vm_compute. reflexivity. Qed.

Lemma no_failure rs l : (fun r => status r) <$> rs = l -> Forall (fun x => x <> 500) l -> Forall (fun r => status r <> 500) rs.
Proof. intros <-. apply Forall_fmap. Qed.
Lemma note_no_failure : Forall (fun r => status r <> 500) note_responses.
Proof. apply (no_failure _ _ note_statuses). apply (bool_decide_unpack _). vm_compute. exact I. Qed.

Lemma fresh_book_empty : fresh_book ∅.
Proof. split; [apply fresh_empty|]. intros k [v Hv]. by rewrite lookup_empty in Hv. Qed.


(** *** Behaviour to know about *)

(** A note renamed to its own path is gone. *)
Theorem rename_to_itself_deletes :
  let s := after (put_note_handler 5 admin nb text_b;; rename_note_handler admin nb nb) EngineCore_new in
  (get_note_handler admin nb s).1 = Ok note_not_found.
Proof. vm_compute. reflexivity. Qed.

(** Deleting a version that a note never had is answered with success while it has
    others. *)
Theorem unknown_version_deleted :
  let s := after (put_note_handler 5 admin nb text_b) EngineCore_new in
  (get_note_at_version_handler admin nb 6 s).1 = Ok version_not_found /\
  (delete_version_handler admin nb 6 s).1 = Ok (mkResponse 200 status_ok_json).
Proof. vm_compute. split; reflexivity. Qed.

End Requests.
