(* ===== verification/InfraInstances.v ===== *)
(** * InfraInstances: the components around the engine on concrete inputs

    The theorems of [Crdt], [CircuitBreaker], [RateLimiter], [Limits],
    [AccessControl], [Config] and [TimeTravel] applied to small runs, concrete
    environments for the parameters of [DataSync], [Cdc] and [Webhooks], and runs
    that show behaviour to know about. *)
From Stdlib Require Import ZArith Lia QArith.
From stdpp Require Import base tactics numbers list gmap strings sorting relations.
From S2P Require Import Encryption Text Engine Postcard Config TimeTravel.
From S2P Require Import DataSync DataTiering Cdc Webhooks.
From S2P Require Import Prelude Bytes Crdt CircuitBreaker RateLimiter Limits.
From S2P Require Import Utf8 AccessControl.
Local Open Scope string_scope.
Local Open Scope Z_scope.

(** ** Replicated data types *)

Local Notation text := String.list_byte_of_string.

Definition two_nodes : list string := ["a"; "b"].

(** Node a adds 3, node b adds 4 and then merges what a has. *)
Definition gossip : Replicas.system :=
  Replicas.mk_system
    (<["b" := GCounter.merge {["b" := 4%N]} {["a" := 3%N]}]>
       (<["b" := {["b" := 4%N]}]> (<["a" := {["a" := 3%N]}]> (Replicas.replica (Replicas.init two_nodes)))))
    (<["b" := 4%N]> (<["a" := 3%N]> ∅)).

Lemma gossip_reachable : rtc Replicas.step (Replicas.init two_nodes) gossip.
Proof.
  eapply rtc_l. { apply (Replicas.step_increment _ "a" 3). vm_compute. eauto. }
  eapply rtc_l. { apply (Replicas.step_increment _ "b" 4). vm_compute. eauto. }
  eapply rtc_l. { apply (Replicas.step_merge _ "b" "a"); vm_compute; eauto. }
  vm_compute. apply rtc_refl.
Qed.

Lemma gcounter_gossip_exact_witness :
  GCounter.value (Replicas.counter_of gossip "a") <= 7 /\
  GCounter.value (merge_all (Replicas.counter_of gossip "a") (Replicas.counter_of gossip <$> two_nodes)) = 7.
Proof.
  apply (gcounter_gossip_exact two_nodes gossip "a").
  - apply (bool_decide_unpack _). vm_compute. exact I.
  - apply gossip_reachable.
  - by left.
  - vm_compute. discriminate.
Defined.

Definition update (k v : string) (ts : Z) : Lww.CrdtEntry :=
  Lww.mk_entry (text k) (text v) ts.

Definition us1 : list Lww.CrdtEntry := [update "k" "old" 1; update "k" "new" 2].
Definition us2 : list Lww.CrdtEntry :=
  [update "k" "new" 2; update "k" "old" 1; update "k" "new" 2].

Lemma lww_replicas_converge_witness :
  Lww.apply_entries us1 Lww.new = Lww.apply_entries us2 Lww.new /\
  forall k u, Lww.resolve_conflicts k (Lww.apply_entries us1 Lww.new) = Some u ->
    u ∈ us1 /\ Lww.key u = k /\
    forall u', u' ∈ us1 -> Lww.key u' = k -> Lww.timestamp u' <= Lww.timestamp u.
Proof.
  apply (lww_replicas_converge us1 us2).
  - intros u1 u2. unfold us1. rewrite !elem_of_cons, !elem_of_nil.
    intros [->|[->|[]]] [->|[->|[]]]; simpl; done || (intros _ ?; discriminate).
  - intros u. unfold us1, us2. set_solver.
Defined.

(** Two replicas that receive two updates with one timestamp in different orders
    keep different values for ever. *)
Theorem lww_tie_depends_on_order :
  let u := update "k" "x" 1 in let v := update "k" "y" 1 in
  Lww.get_state (text "k") (Lww.apply_entries [u; v] Lww.new) = Some (text "x", 1) /\
  Lww.get_state (text "k") (Lww.apply_entries [v; u] Lww.new) = Some (text "y", 1).
Proof. split; reflexivity. Qed.

(** Removing an element keeps no trace: merging with a replica that still has the
    element brings it back, even when that replica only has the tags the removal
    saw. *)
Theorem orset_merge_undoes_remove {T} `{Countable T} (e : T) (s : gmap T (gset string)) :
  ORSet.contains e s = true -> ORSet.contains e (ORSet.merge (ORSet.remove e s) s) = true.
Proof. intros Hc. by rewrite ORSet.contains_merge, Hc, orb_true_r. Qed.

(** ** The circuit breaker *)

Import CircuitBreaker.

(** Threshold 1: a failing call opens the breaker at time 0. *)
Definition tripped : world := mk_world (record_failure 0 (new 1 2 10)) 0 ∅.

Lemma tripped_reachable : run (start 1 2 10) [Check; Pass; Failure] tripped.
Proof.
  eapply run_l. { apply (step_check _ 0%nat). reflexivity. }
  eapply run_l. { apply (step_pass _ 0%nat Closed); [reflexivity|discriminate]. }
  eapply run_l. { apply (step_failure _ 0%nat). reflexivity. }
  vm_compute. apply run_nil.
Qed.

Lemma breaker_interleavings_safe_witness :
  ok (inner tripped) (clock tripped) /\
  (state (inner tripped) = Closed -> failure_count (inner tripped) + 1 <= u64_max) /\
  success_count (inner tripped) + 1 <= u64_max.
Proof.
  apply (breaker_interleavings_safe 1 2 10 [Check; Pass; Failure] tripped); [vm_compute; split; discriminate..|].
  apply tripped_reachable.
Defined.

Lemma breaker_recovers_witness :
  state (inner tripped) = Open /\
  (forall es' w', run tripped es' w' -> Failure ∉ es' -> count Probe es' + 1 < count Success es' ->
     state (inner w') = Closed) /\
  exists es' w', run tripped es' w' /\
    filter (fun e => e ∈ [Success; Failure; Reject]) es' = [Success; Success] /\ state (inner w') = Closed.
Proof.
  pose proof (breaker_recovers 1 2 10 [Check; Pass; Failure] tripped
    ltac:(vm_compute; split; discriminate) ltac:(vm_compute; split; discriminate) tripped_reachable) as [H1 H2].
  split; [reflexivity|]. split.
  - intros es' w' Hr Hnf Hn. apply (H1 es' w' Hr Hnf). simpl. lia.
  - destruct (H2 [(true, 10, 10); (true, 11, 11)]) as (es' & w' & Hr & _ & _ & Hf & Hc).
    + simpl. lia.
    + repeat constructor; vm_compute; discriminate.
    + vm_compute. discriminate.
    + by exists es', w'.
Defined.

Definition four_calls : list (bool * Z * Z) :=
  [(false, 0, 1); (true, 2, 3); (false, 4, 5); (false, 6, 7)].

Lemma breaker_opens_on_consecutive_failures_witness :
  state (run_calls four_calls (new 2 1 100)).2 = Open <->
  consecutive_failures 2 [false; true; false; false].
Proof.
  apply (breaker_opens_on_consecutive_failures 2 1 100 four_calls); [lia..|].
  intros c1 c2. unfold four_calls. rewrite !elem_of_cons, !elem_of_nil.
  intros [->|[->|[->|[->|[]]]]] [->|[->|[->|[->|[]]]]]; simpl; lia.
Defined.

(** In the half-open state any number of calls run at once, not one probe. *)
Theorem half_open_runs_two_probes :
  exists es w, run tripped es w /\ state (inner w) = HalfOpen /\
    calls w !! 1%nat = Some Running /\ calls w !! 2%nat = Some Running.
Proof.
  do 2 eexists. split.
  - eapply run_l. { apply (step_check _ 1%nat). reflexivity. }
    eapply run_l. { apply (step_check _ 2%nat). reflexivity. }
    eapply run_l. { apply (step_tick _ 10). simpl. lia. }
    eapply run_l. { eapply (step_probe _ 1%nat); reflexivity. }
    eapply run_l. { eapply (step_probe _ 2%nat); reflexivity. }
    apply run_nil.
  - vm_compute. auto.
Qed.

(** A slow call that started before the breaker opened closes it when it
    succeeds, long before the cooldown is over. *)
Theorem late_success_skips_cooldown :
  exists es w, run (start 1 2 10) es w /\
    (exists w0, step w0 Success w /\ state (inner w0) = Open) /\
    state (inner w) = Closed /\ clock w = 0.
Proof.
  do 2 eexists. split; [|split; [eexists; split; [apply (step_success _ 1%nat)|]|]].
  - eapply run_l. { apply (step_check _ 0%nat). reflexivity. }
    eapply run_l. { apply (step_check _ 1%nat). reflexivity. }
    eapply run_l. { apply (step_pass _ 0%nat Closed); [reflexivity|discriminate]. }
    eapply run_l. { apply (step_pass _ 1%nat Closed); [reflexivity|discriminate]. }
    eapply run_l. { apply (step_failure _ 0%nat). reflexivity. }
    eapply run_l. { apply (step_success _ 1%nat). reflexivity. }
    apply run_nil.
  - reflexivity.
  - reflexivity.
  - split; reflexivity.
Qed.

(** ** Retries *)

Import Retry.

(** The upper end of the range. *)
Definition draw_high (a lo hi : Z) : Z := hi.

Lemma retry_bounded_witness :
  exists k : nat, Z.of_nat k <= 3 /\
    (retry_with_backoff draw_high default_config
       (fun a => if a =? 2 then inl a else inr a)).1 = (fun a => if a =? 2 then inl a else inr a) (Z.of_nat k).
Proof.
  destruct (retry_bounded draw_high default_config (fun a => if a =? 2 then inl a else inr a))
    as (k & Hk & Hr & _); [vm_compute; (split; discriminate) || discriminate..|unfold draw_high; lia|].
  exists k. split; [exact Hk|exact Hr].
Defined.

(** With jitter the delay exceeds the configured maximum. *)
Theorem jitter_exceeds_max_delay :
  max_delay_ms default_config < actual_delay_ms draw_high default_config 10.
Proof. reflexivity. Qed.

(** ** Limits *)

Definition two_requests : list (RateLimiter.event (IpAddr := nat)) :=
  [Request 1%nat None 5; Request 1%nat (Some "/keys") 6; GetState (fun _ => 7);
   Request 1%nat None (5 + WINDOW); Request 2%nat None (5 + WINDOW)].

Lemma rate_limiter_exact_witness :
  RateLimiter.run Z.of_nat (RateLimiter.limiter_new (IpAddr := nat) 1 (fun _ => 0)) two_requests = spec_run 1 ∅ [] two_requests /\
  spec_run 1 ∅ [] two_requests = [false; true; false; false].
Proof.
  split.
  - apply (rate_limiter_exact Z.of_nat 1 ∅ (fun _ => 0) 0); [reflexivity..|lia|].
    simpl. repeat split; try lia. exists 7. unfold WINDOW. repeat split; lia.
  - vm_compute. reflexivity.
Defined.

(** A world reached by an allocation that has taken effect. *)
Definition one_allocation : MemoryLimiter.world :=
  MemoryLimiter.mk_world (MemoryLimiter.mk_limiter 8 5 0) {[0%nat := MemoryLimiter.AllocPeak 5]} 5.

Lemma one_allocation_reached : rtc MemoryLimiter.disciplined_step (MemoryLimiter.start 8) one_allocation.
Proof.
  eapply rtc_l.
  { eexists. split; [apply (MemoryLimiter.step_try_allocate _ 0%nat 5); vm_compute; done|vm_compute; done]. }
  eapply rtc_l. { eexists. split; [eapply (MemoryLimiter.step_load _ 0%nat 5); vm_compute; done|done]. }
  eapply rtc_l. { eexists. split; [eapply (MemoryLimiter.step_cas _ 0%nat 5 0); reflexivity|done]. }
  apply rtc_refl.
Qed.

Lemma memory_limiter_exact_witness :
  0 <= MemoryLimiter.current (MemoryLimiter.mem one_allocation) <= 8 /\
  MemoryLimiter.current (MemoryLimiter.mem one_allocation) =
    MemoryLimiter.held one_allocation + MemoryLimiter.in_flight (MemoryLimiter.threads one_allocation).
Proof.
  split.
  - apply (memory_limiter_exact 8 one_allocation); [lia|].
    eapply rtc_subrel; [|apply one_allocation_reached]. intros w w' (c & Hc & _). by exists c.
  - apply (memory_limiter_exact 8 one_allocation); [lia|]. apply one_allocation_reached.
Defined.

(** In the release profile the sum wraps: an allocation of the whole address
    space is granted and erases what was accounted for. *)
Theorem memory_limiter_wraps :
  let m := (MemoryLimiter.try_allocate 1 (MemoryLimiter.new 10)).2 in
  MemoryLimiter.try_allocate usize_max m = (true, MemoryLimiter.mk_limiter 10 0 1).
Proof. reflexivity. Qed.

Lemma quotas_respected_witness :
  Quotas.within_quota (Quotas.mk_quota 2 100 10)
    (Quotas.usage_of (Quotas.guarded_ops [("t", 1, 60, 0); ("t", 1, 60, 1); ("t", 1, 30, 2)]
       (Quotas.with_default_quota (Quotas.mk_quota 2 100 10))) "t").
Proof.
  apply (quotas_respected (Quotas.mk_quota 2 100 10)).
  - vm_compute. repeat split; discriminate.
  - repeat constructor; vm_compute; discriminate.
Defined.

(** Check and record take the lock separately: two operations that are both
    checked before either is recorded exceed the quota. *)
Theorem quota_check_then_record_races :
  let q := Quotas.mk_quota 1 100 10 in
  let m0 := Quotas.with_default_quota q in
  let '(r1, m1) := Quotas.check_quota "t" 1 10 0 m0 in
  let '(r2, m2) := Quotas.check_quota "t" 1 10 0 m1 in
  let m := Quotas.record_usage "t" 1 10 0 (Quotas.record_usage "t" 1 10 0 m2) in
  r1 = inl tt /\ r2 = inl tt /\ ~ Quotas.within_quota q (Quotas.usage_of m "t").
Proof. vm_compute. split; [done|]. split; [done|]. intros [[_ Hle] _]. by apply Hle. Qed.

Lemma idempotent_replay_witness :
  (Idempotency.check_idempotency "req" 1500
     (foldl Idempotency.run_call
        (Idempotency.store_idempotency_with_status "req" [] 200 1000 (Idempotency.new 1000))
        [Idempotency.Check "req" 1200; Idempotency.Cleanup 1400; Idempotency.Remove "other"])).1 =
  Some (Idempotency.mk_response [] 200 2000 1000).
Proof.
  apply (idempotent_replay (Idempotency.new 1000)); simpl; [lia|lia|vm_compute; discriminate| |lia].
  repeat constructor; simpl; done || lia.
Defined.

(** ** Access control *)

Definition rule (n pat : string) (e : Effect) : AccessPolicy :=
  mk_policy (text n) Read (text pat) e ∅.

Definition two_rules : list AccessPolicy := [rule "no" "secret/*" Deny; rule "yes" "*" Allow].

Lemma access_first_match_witness :
  check_permission Read (text "notes/1") ∅ two_rules = true /\
  (check_permission Read (text "secret/1") ∅ two_rules = true <->
   exists before p after, two_rules = (before ++ p :: after)%list /\ effect p = Allow /\
     applies Read (text "secret/1") ∅ p /\
     Forall (fun q => ~ applies Read (text "secret/1") ∅ q) before).
Proof.
  split; [reflexivity|].
  apply (access_first_match Read (text "secret/1") ∅ two_rules).
  constructor; [|constructor; [|constructor]]; right; left.
  - exists (text "secret/"). split; [reflexivity|].
    apply (bool_decide_unpack _). vm_compute. exact I.
  - exists []. split; [reflexivity|]. apply not_elem_of_nil.
Defined.

(** A star inside a pattern is not a wildcard: the rule never applies to the keys
    it describes. *)
Theorem inner_star_is_literal :
  check_permission Read (text "a/1/b") ∅ [rule "r" "a/*/b" Allow] = false /\
  glob (text "a/1/b") (text "a/*/b").
Proof.
  split; [reflexivity|]. vm_compute. repeat (apply glob_char; [discriminate|]).
  apply glob_any, glob_skip. repeat (apply glob_char; [discriminate|]). constructor.
Qed.

Local Close Scope string_scope.

(** ** Configurations *)

Module Configs.
Import Config.

(** A builder with an encryption key in a file. *)
Definition key_file : bytes := concat (replicate 32 (lit "0a")) ++ lit " ".
Definition encrypted_builder : LsmConfigBuilder :=
  {| b_dir_path := Some "/data"%string; b_memtable_max_size := Some 8388608; b_block_size := Some 8192;
     b_block_cache_size_mb := None; b_sparse_index_interval := None; b_bloom_false_positive_rate := None;
     b_level_size := None; b_max_sstables := Some 20; b_min_compaction_threshold := None;
     b_strategy := Some CfgLazyLeveling; b_encryption_enabled := Some true;
     b_encryption_key_path := Some (lit "/keys/apex", Some key_file); b_prefix_compression_enabled := None;
     b_replication_role := None; b_replica_endpoints := None; b_replication_sync_interval_ms := None;
     b_wal_max_size := None; b_wal_archive_enabled := None; b_wal_check_interval_secs := None;
     b_wal_sync_interval := Some 1 |}.

Lemma built_options_meet_engine_witness :
  exists opts, try_from_config (built encrypted_builder) = Ok (opts, 8192) /\
    ec_enabled (eo_encryption opts) = true /\ default_ttl opts = None.
Proof.
  assert (exists opts, try_from_config (built encrypted_builder) = Ok (opts, 8192)) as [opts Ho]
    by (eexists; vm_compute; reflexivity).
  exists opts. split; [exact Ho|].
  destruct (built_options_meet_engine encrypted_builder (built encrypted_builder) opts 8192 eq_refl Ho)
    as (Ht & _ & He & _).
  split; [exact He|exact Ht].
Defined.

(** A rate that is not a number passes validation: both comparisons are false. *)
Theorem nan_rate_accepted :
  storage_validate {| st_block_size := 4096; st_block_cache_size_mb := 64; st_sparse_index_interval := 16;
    st_bloom_false_positive_rate := NaN; st_encryption_enabled := false; st_encryption_key_path := None;
    st_prefix_compression_enabled := false |} = Ok tt.
Proof. reflexivity. Qed.

(** The defaults are valid. *)
Example default_config_valid : build builder = Ok LsmConfig_default.
Proof. reflexivity. Qed.

End Configs.

(** ** Queries of the past *)

Module Past.
Import TimeTravel.

(** A self-delimiting text in place of JSON. *)
Definition c_raw : codec RawSnapshot :=
  c_iso (c_pair c_u128 (c_pair (c_list (c_pair c_bytes c_bytes)) c_bytes))
    (fun r => (raw_timestamp r, (raw_entries r, raw_label r)))
    (fun '(t, (es, l)) => mkRaw t es l) (fun r => match r with mkRaw _ _ _ => eq_refl end).
Lemma c_raw_roundtrip r b : c_enc c_raw r = Some b -> fst <$> c_dec c_raw b = Some r.
Proof.
  intros Hb. pose proof (c_law c_raw r b [] Hb) as Hd. rewrite app_nil_r in Hd.
  by rewrite Hd.
Qed.
#[global] Instance raw_json : SnapshotJson :=
  {| to_json := c_enc c_raw; from_json b := fst <$> c_dec c_raw b; json_roundtrip := c_raw_roundtrip |}.

Definition at_time (t : Z) (v : string) : TimeTravel.Snapshot :=
  {| s_timestamp := t; s_data := {[ lit "k" := lit v ]}; s_label := lit "auto" |}.
Definition three_captures : list TimeTravel.Snapshot := [at_time 10 "a"; at_time 20 "b"; at_time 30 "c"].

Lemma three_increasing : increasing three_captures.
Proof. unfold increasing, three_captures. repeat constructor; cbn; lia. Qed.

Lemma time_travel_exact_witness :
  query_as_of (lit "k") 25 (capture_all three_captures (new 2, ∅)).1 = Some (lit "b") /\
  query_as_of (lit "k") 15 (capture_all three_captures (new 2, ∅)).1 = None.
Proof.
  destruct (time_travel_exact 2 three_captures (lit "k") 25 ∅ three_increasing) as (_ & _ & E1).
  destruct (time_travel_exact 2 three_captures (lit "k") 15 ∅ three_increasing) as (_ & _ & E2).
  rewrite E1, E2. split; vm_compute; reflexivity.
Defined.

Definition texts_of (cs : list TimeTravel.Snapshot) : list bytes := default [] <$> ((fun c => to_json (to_raw c)) <$> cs).

Lemma time_travel_restart_witness :
  restore_snapshots (capture_all three_captures (new_with_persistence 2, ∅)).2 (new_with_persistence 2) =
  (Some 3%nat, (capture_all three_captures (new_with_persistence 2, ∅)).1).
Proof.
  pose proof (time_travel_restart 2 three_captures (texts_of three_captures) three_increasing) as H.
  destruct (capture_all three_captures (new_with_persistence 2, ∅)) as [self dir]. apply H. clear H.
  unfold written, three_captures, texts_of. cbn [fmap list_fmap].
  repeat (apply Forall2_cons; split); try apply Forall2_nil; try exact I; split;
    try (vm_compute; reflexivity); unfold at_time, u128_max; cbn [s_timestamp]; lia.
Defined.

(** A range query includes its start, which its description excludes. *)
Theorem query_range_includes_start :
  query_range 20 25 (capture_all three_captures (new 5, ∅)).1 = Some {[ lit "k" := lit "b" ]}.
Proof. vm_compute. reflexivity. Qed.

(** A removed capture comes back at the next start: its file stays. *)
Theorem removed_capture_returns :
  let '(self, dir) := capture_all three_captures (new_with_persistence 5, ∅) in
  let removed := (remove_snapshot 20 self).2 in
  query_as_of (lit "k") 25 removed = Some (lit "a") /\
  query_as_of (lit "k") 25 (restore_snapshots dir (new_with_persistence 5)).2 = Some (lit "b").
Proof. vm_compute. split; reflexivity. Qed.

End Past.

(** ** Synchronisation, tiering and change events *)

Module Sync.
Import DataSync.

Local Instance by_map_to_list : HashOrder := {| hash_order m := map_to_list m; hash_order_perm m := reflexivity _ |}.

(** Stores as they are, which answer their contents. *)
Local Instance memory_local : LocalEngine Empty_set DataEntries :=
  {| all_entries es := inr es; apply_batch es s := (inr tt, s ++ es) |}.
Local Instance memory_remote : RemoteBackend Empty_set DataMap :=
  {| fetch_all m := inr m; push es m := (inr tt, upsert m es) |}.

Definition k1 : bytes := lit "k1".
Definition k2 : bytes := lit "k2".
Definition k3 : bytes := lit "k3".
Definition local_entries : DataEntries := [(k1, lit "a", 5); (k2, lit "b", 7)].
Definition remote_entries : DataMap := <[k1 := (lit "c", 6)]> (<[k3 := (lit "d", 1)]> ∅).

(** The numbers of a two-way run: the three keys differ and are resolved. *)
Example sync_sample :
  sync TwoWay local_entries remote_entries = (inr (mkSyncResult 3 3) : Empty_set + SyncResult).
Proof. by vm_compute. Qed.

(** The two-way case on the sample, whose timestamps are above zero. *)
Lemma data_sync_converges_sample :
  let resolved := resolve_conflicts (diff_maps (collect local_entries) remote_entries) TwoWay in
  upsert (collect local_entries) resolved = upsert remote_entries resolved.
Proof.
  intros resolved. destruct (data_sync_converges (collect local_entries) remote_entries) as (_ & _ & Htwo).
  assert (Hl : map_Forall (fun _ e => 0 < e.2) (collect local_entries))
    by (apply (bool_decide_unpack _); vm_compute; exact I).
  assert (Hr : map_Forall (fun _ e => 0 < e.2) remote_entries)
    by (apply (bool_decide_unpack _); vm_compute; exact I).
  destruct Htwo as [E1 E2]; [|intros key v ts E; specialize (Hr key _ E); cbn in Hr; lia|exact (eq_trans E1 (eq_sym E2))].
  intros key v ts E _. exact (Hl key _ E).
Qed.

(** An entry that only the local side holds, stamped zero, is not resolved. *)
Example zero_timestamp_unresolved :
  resolve_conflicts (diff_maps (collect [(k1, lit "a", 0)]) ∅) TwoWay = [].
Proof. by vm_compute. Qed.
End Sync.

Module Tiering.
Import DataTiering.

Definition key : bytes := lit "k".

(** With a threshold of three, the fourth access makes the key hot. *)
Example hot_at_fourth_access :
  get_tier_for_key key (accesses key [1; 2; 3] (new 3 3600)) = Some Warm /\
  get_tier_for_key key (accesses key [1; 2; 3; 4] (new 3 3600)) = Some Hot.
Proof.
  split.
  - by destruct (accesses_promote key 1 [2; 3] (new 3 3600)) as [-> _].
  - by destruct (accesses_promote key 1 [2; 3; 4] (new 3 3600)) as [-> _].
Qed.

(** An idle hot key is made cold, and stays so when it is accessed again. *)
Example cold_after_idle :
  let c := age_out 3000000000 (accesses key [0; 1; 2] (new 1 2)) in
  get_tier_for_key key (accesses key [0; 1; 2] (new 1 2)) = Some Hot /\
  get_tier_for_key key c = Some Cold /\ get_tier_for_key key (accesses key [4; 5; 6] c) = Some Cold.
Proof. by vm_compute. Qed.

Example promote_untracked : promote key (new 3 3600) = None.
Proof. done. Qed.
End Tiering.

Module Events.
Import Cdc Webhooks.

(** A network that records the requests and answers each from a list of
    responses, failing when there is none left. *)
Record Net := mkNet { requests : list HttpRequest; responses : list (unit + bool) }.
Local Instance sample_env : CdcEnv Net (list CdcEvent) unit :=
  {| http_send rq n :=
       match responses n with
       | [] => (inl tt, mkNet (requests n ++ [rq]) [])
       | r :: rs => (r, mkNet (requests n ++ [rq]) rs)
       end;
     event_to_json e := Some (ev_key e);
     broadcast_send e ch := ch ++ [e] |}.

Definition hook : WebhookPublisher := WebhookPublisher_new (lit "http://h").
Definition event : CdcEvent := change_event (lit "default") (lit "k") (Some (lit "v")) 0.
Definition published (rs : list (unit + bool)) : bool * (Z * Z) * nat :=
  let '(ok, p, n) := webhook_publish event hook (mkNet [] rs) in
  (ok, cdc_metrics p, length (requests n)).

(** A delivery at the third attempt; a response that is not a success, which
    counts as a failure and is not repeated; three failures. *)
Example deliveries :
  published [inl tt; inl tt; inr true] = (true, (1, 0), 3%nat) /\
  published [inr false; inr true] = (true, (0, 1), 1%nat) /\
  published [inl tt; inl tt; inl tt; inr true] = (false, (0, 1), 3%nat).
Proof. by vm_compute. Qed.

(** The default timeout is of thirty seconds. *)
Example default_timeout :
  create_publisher (with_endpoint (lit "http://h")) = Some (Webhook hook) /\ wp_timeout hook = 30.
Proof. done. Qed.

Example auth_headers :
  create_publisher (with_auth_header (with_endpoint (lit "http://h")) (lit "X-Key: secret")) =
    Some (Webhook (with_auth hook (lit "X-Key") (lit "secret"))) /\
  create_publisher (with_auth_header (with_endpoint (lit "http://h")) (lit "token")) =
    Some (Webhook (with_auth hook (lit "Authorization") (lit "Bearer token"))).
Proof. by vm_compute. Qed.

(** Both registrations are delivered to the publisher's endpoint: their own URLs
    are not used. *)
Example registered_urls_unused :
  let r := (register (lit "k") (lit "http://a") (register (lit "k") (lit "http://b") []).2).2 in
  let '(count, _, w) := trigger (lit "k1") None 0 r (Webhook hook) (mkWorld (mkNet [] [inr true; inr true]) false []) in
  count = 2 /\ (rq_url <$> requests (net w)) = [lit "http://h"; lit "http://h"].
Proof. by vm_compute. Qed.

(** A collector behind a failing webhook and the bus receives the event; the bus
    sends when it is enabled. *)
Example fan_out :
  let '(ok, p, w) := publish event (MultiPublisher [Webhook hook; EventBus; CdcCollector []])
                       (mkWorld (mkNet [] []) true []) in
  ok = true /\ collected p = [[event]] /\ bus_channel w = [event].
Proof. by vm_compute. Qed.
End Events.
