(* ===== verification/ApiInstances.v ===== *)
(** * ApiInstances: authentication, the HTTP handlers, HTTP transactions and bulk
    transfers on concrete inputs

    An environment for the tokens (a hash of the first bytes in hexadecimal,
    snapshots written bit by bit), identifiers that are their text, JSON and CSV
    with the lengths of the fields in front, and the theorems applied in it. *)
From Stdlib Require Import ZArith Lia QArith.
From stdpp Require Import base tactics numbers list gmap strings sorting countable.
From S2P Require Import Prelude Bytes SortedMap LogRecord Iterators.
From S2P Require Import MemTable Extern Encryption SstBuilder SstReader Wal.
From S2P Require Import Postcard Table Store VersionSet Utf8 Text Engine.
From S2P Require Import EngineSpec Transaction Paging Recovery Durability CircuitBreaker.
From S2P Require Import Kv Keyspace Auth Api ApiSpec ApiTxn BulkIo.
From S2P Require Import Instances EngineInstances.
Local Open Scope Z_scope.

(** ** Tokens *)

Definition perm_code (p : Permission) : nat :=
  match p with Read => 0 | Write => 1 | Auth.Delete => 2 | Admin => 3 end.
Definition code_perm (n : nat) : option Permission :=
  match n with 0%nat => Some Read | 1%nat => Some Write | 2%nat => Some Auth.Delete | 3%nat => Some Admin | _ => None end.
#[global] Program Instance perm_countable : Countable Permission :=
  inj_countable perm_code code_perm _.
Next Obligation. by intros []. Qed.

#[global] Instance token_eq_dec : EqDecision ApiToken.
Proof. solve_decision. Defined.
Definition token_tuple (t : ApiToken) :=
  (token_id t, token_name t, token_hash t, created_at t, token_expires_at t, permissions t).
Definition tuple_token x : ApiToken :=
  let '(i, n, h, c, e, p) := x in mkApiToken i n h c e p.
#[global] Program Instance token_countable : Countable ApiToken := inj_countable' token_tuple tuple_token _.
Next Obligation. by intros []. Qed.

(** A number as bytes, bit by bit. *)
Fixpoint pos_bytes (p : positive) : bytes :=
  match p with
  | xH => []
  | xO p => Byte.x00 :: pos_bytes p
  | xI p => Byte.x01 :: pos_bytes p
  end.
Fixpoint bytes_pos (b : bytes) : positive :=
  match b with
  | [] => xH
  | x :: b => if bool_decide (x = Byte.x00) then xO (bytes_pos b) else xI (bytes_pos b)
  end.
Lemma bytes_pos_bytes p : bytes_pos (pos_bytes p) = p.
Proof. induction p as [p IH|p IH|]; cbn; by rewrite ?IH. Qed.

#[global] Instance token_typed_dec t : Decision (token_typed t).
Proof. unfold token_typed. destruct (token_expires_at t); apply _. Defined.

Definition snapshot_bytes (s : Snapshot) : bytes := pos_bytes (countable.encode (version s, tokens s)).
Definition bytes_snapshot (b : bytes) : option Snapshot :=
  match countable.decode (A := Z * list ApiToken) (bytes_pos b) with
  | Some (v, ts) => if decide (Forall token_typed ts) then Some (mkSnapshot v ts) else None
  | None => None
  end.

(** The low half of a byte as a digit; the first bytes of a text, padded. *)
Definition hex_digit (n : Z) : byte := byte_of_Z (if n <? 10 then 48 + n else 87 + n).
Definition hex_bytes (b : bytes) : bytes :=
  concat ((fun x => [hex_digit (byte_to_Z x / 16); hex_digit (byte_to_Z x mod 16)]) <$> b).
Definition sample_hash (s : bytes) : bytes :=
  hex_bytes (take 32 (s ++ replicate 32 Byte.x00)).

Lemma hex_digit_ok n : 0 <= n < 16 -> is_ascii_hexdigit (hex_digit n) = true.
Proof.
  intros Hn. unfold hex_digit, is_ascii_hexdigit.
  rewrite byte_to_of_Z, Z.mod_small by (destruct (Z.ltb_spec n 10); lia).
  rewrite !orb_true_iff, !andb_true_iff, !Z.leb_le. destruct (Z.ltb_spec n 10); lia.
Qed.
Lemma hex_bytes_ok b :
  length (hex_bytes b) = (2 * length b)%nat /\ forallb is_ascii_hexdigit (hex_bytes b) = true.
Proof.
  unfold hex_bytes. induction b as [|x b [IHl IHd]]; cbn [fmap list_fmap concat app length forallb]; [done|].
  pose proof (byte_to_Z_range x). unfold fmap in *. rewrite IHd, IHl. split; [lia|].
  rewrite !hex_digit_ok; [done|..]; [apply Z.mod_pos_bound; lia|].
  split; [apply Z.div_pos; lia|apply Z.div_lt_upper_bound; lia].
Qed.

#[global] Program Instance sample_auth : AuthEnv := {|
  sha256_hex := sample_hash;
  base64_encode b := b;
  snapshot_to_json := snapshot_bytes;
  snapshot_from_json := bytes_snapshot;
  parses_uuid b := (len b =? 4);
  values m := (map_to_list m).*2;
|}.
Next Obligation.
  intros s. unfold sample_hash. rewrite (proj1 (hex_bytes_ok _)), length_take, length_app, length_replicate. lia.
Qed.
Next Obligation. intros s. apply hex_bytes_ok. Qed.
Next Obligation.
  intros [v ts] _ Hts. unfold bytes_snapshot, snapshot_bytes. rewrite bytes_pos_bytes, countable.decode_encode.
  by rewrite decide_True.
Qed.
Next Obligation.
  intros bs s. unfold bytes_snapshot. destruct (countable.decode _) as [[v ts]|]; [|done].
  case_decide; [|done]. by intros [= <-].
Qed.
Next Obligation. done. Qed.

(** Tokens are created and deleted, with a deletion whose write fails. *)
Definition token_history : list token_op :=
  [ CreateToken (Some (lit "first secret")) (lit "id-1") (Some 10) Saved (lit "reader") None [Read];
    CreateToken (Some (lit "other secret")) (lit "id-2") (Some 11) Saved (lit "writer") (Some 50) [Read; Write];
    DeleteToken NotWritten (lit "id-1");
    CreateToken None (lit "id-3") (Some 12) Saved (lit "none") None [Admin];
    DeleteToken Saved (lit "id-1") ].
Definition tokens_after : TokenManager :=
  foldl (fun s o => run_token_op o s) (mkTokenManager ∅ (Some None)) token_history.
Example tokens_after_ids : (map_to_list (tm_tokens tokens_after)).*1 = [lit "id-2"].
Proof. vm_compute. reflexivity. Qed.

Lemma tokens_survive_restart_witness :
  exists file', tm_store tokens_after = Some file' /\ open_persistent file' = inr tokens_after.
Proof.
  apply (tokens_survive_restart None (mkTokenManager ∅ (Some None)) token_history); [reflexivity|].
  unfold token_history. repeat apply Forall_cons_2; try apply Forall_nil_2; cbn [token_op_ok];
    try discriminate; (split_and!; try reflexivity; try discriminate; try (by eexists); unfold u128_max; lia).
Defined.

(** A deletion that fails after the file was replaced is reported as failed and comes into
    effect with the next start. *)
Example unsynced_deletion :
  let '(r, s) := delete_token NotSynced (lit "id-2") tokens_after in
  r = inl AuthInternal /\ token_count s = 1 /\
  match tm_store s with
  | Some file => match open_persistent file with inr s => token_count s = 0 | inl _ => False end
  | None => False
  end.
Proof. vm_compute. done. Qed.

Definition writer_secret : bytes := lit "apx_other secret".
Definition writer_token : ApiToken :=
  mkApiToken (lit "id-2") (lit "writer") (hash_token writer_secret) 11 (Some 50) [Read; Write].
Definition writer_manager : TokenManager := mkTokenManager {[ lit "id-2" := writer_token ]} None.
Definition writer_request : Request :=
  mkRequest (lit "PUT") (lit "/keys") (Some writer_secret) (Some true) (Some writer_manager) None.

Lemma writer_distinct s : Some writer_manager = Some s -> hashes_distinct s.
Proof.
  intros [= <-] id id' t t'. cbn [tm_tokens writer_manager].
  by intros [_ <-]%lookup_singleton_Some [_ <-]%lookup_singleton_Some _.
Qed.

(** The token may write, and may not delete. *)
Lemma request_authorized_exact_witness :
  (exists rq', request_validator (Some 20) writer_request = inr rq' /\ require_permission rq' Write = inr tt) /\
  ~ (exists rq', request_validator (Some 20) writer_request = inr rq' /\ require_permission rq' Auth.Delete = inr tt).
Proof.
  split.
  - apply (request_authorized_exact (Some 20) writer_request Write); [reflexivity|exact writer_distinct|].
    right. split; [by intros [? _]|]. exists writer_manager, writer_secret, (lit "id-2"), writer_token.
    split_and!; try reflexivity. left. set_solver.
  - intros Hx. apply (request_authorized_exact (Some 20) writer_request Auth.Delete) in Hx; [|reflexivity|exact writer_distinct].
    destruct Hx as [Hx|(_ & s & secret & id & t & [= <-] & _ & Ht & _ & _ & Hp)]; [done|].
    cbn [tm_tokens writer_manager] in Ht. apply lookup_singleton_Some in Ht as [_ <-]. cbn in Hp. set_solver.
Defined.

(** ** Requests *)

Definition admin_request : Request :=
  with_token writer_request (mkApiToken (lit "id-9") (lit "admin") [] 1 None [Admin]).
Definition set_body (k v : bytes) : SetBody := mkSetBody k v None.

(** The engine holds a reserved key before the requests. *)
Definition before_requests : list op :=
  [Put (lit "__sys") (lit "9"); Put ka (lit "1"); Put kb (lit "2"); Flush].
Definition sample_calls : list call :=
  [ PutKey (set_body kc (lit "4")); GetKey kc; GetKey (lit "none");
    BatchPut [set_body (lit "ant") (lit "5"); set_body (lit "bee") (lit "6")];
    ListKeys (mkKeysQuery (Some (lit "b")) (Some 1) None);
    ScanKeys (mkScanQuery None None (Some 2) None);
    ScanKeys (mkScanQuery None None (Some 3) (Some (lit "ant")));
    RangeKeys (mkScanQuery (Some (lit "b")) (Some (lit "c")) None None);
    DeleteKey kc; BatchDelete [ka]; DeletePrefix (mkKeysQuery (Some (lit "be")) None None);
    PostKey (set_body (lit "cow") (lit "7")); FlushCall; ValueSearch (Some (lit "7")) None; GetKey kb ].
Definition sample_requests : list (Request * call) := (pair admin_request) <$> sample_calls.
Definition engine_before := run_ops "default" before_requests EngineCore_new.
Definition sample_served := serve 10 Degradation.Normal sample_requests engine_before.2.

Definition row_keys (ks : list bytes) : Json :=
  JList ((fun k => row_json (k, lit "-")) <$> ks).

(** The second page of a scan, with the cursor the first one answered, announces that
    nothing follows, although [delta] was not answered. *)
Example second_page_announces_the_end :
  let calls := [ PutKey (set_body ka (lit "1")); PutKey (set_body kb (lit "2")); PutKey (set_body kc (lit "4"));
                 ScanKeys (mkScanQuery None None (Some 1) None);
                 ScanKeys (mkScanQuery None None (Some 1) (Some ka)) ] in
  drop 3 <$> ok (serve 10 Degradation.Normal (pair admin_request <$> calls) EngineCore_new).1 =
  Some [ mkResponse 200 (success_json (range_json (lit "records") ([(ka, lit "1")], true, Some ka)));
         mkResponse 200 (success_json (range_json (lit "records") ([(kb, lit "2")], false, None))) ] /\
  range_answer {[ ka := lit "1"; kb := lit "2"; kc := lit "4" ]} (mkScanQuery None None (Some 1) (Some ka)) =
    ([(kb, lit "2")], true, Some kb).
Proof. vm_compute. split; reflexivity. Qed.

Lemma fits_default k v : len k + len v <=? 100 = true -> fits "default" k v.
Proof. intros Hl%Z.leb_le. apply fits_small. change (Z.of_nat (String.length "default")) with 7. lia. Qed.

Lemma before_requests_ok : Forall (op_ok "default") before_requests.
Proof.
  unfold before_requests. repeat apply Forall_cons_2; try apply Forall_nil_2; cbn [op_ok]; try exact I.
  all: split_and!; try done; try (by left); by apply fits_default.
Qed.
Lemma sample_requests_ok :
  Forall (fun rc => admitted Degradation.Normal rc.1 rc.2 /\ call_ok rc.2) sample_requests.
Proof.
  unfold sample_requests, sample_calls. cbn [fmap list_fmap].
  repeat apply Forall_cons_2; try apply Forall_nil_2; cbn [fst snd];
    (split; [split_and!; [reflexivity|intros _; reflexivity|reflexivity]|]); cbn [call_ok].
  all: repeat match goal with
       | |- True => exact I
       | |- _ ∉ _ => apply (bool_decide_unpack _); vm_compute; exact I
       | |- 0 <= _ => by apply Z.leb_le
       | |- body_ok _ => unfold body_ok; split_and!; [reflexivity|done|]
       | |- fits _ _ _ => by apply fits_default
       | |- _ /\ _ => split
       | |- Forall _ (_ :: _) => apply Forall_cons_2
       | |- Forall _ [] => apply Forall_nil_2
       end.
Qed.

Definition map_before : gmap bytes bytes := (spec_ops ∅ before_requests).1.

Lemma sample_scans_fit : scans_fit 10 map_before sample_requests.
Proof.
  unfold sample_requests, sample_calls. cbn [fmap list_fmap scans_fit].
  unfold call_fits, scannable, page_announced. cbn [sc_cursor].
  repeat split; apply (bool_decide_unpack _); vm_compute; exact I.
Qed.

Lemma served_cons m rq c cs : (served m ((rq, c) :: cs)).2 = answer m c :: (served (effect m c) cs).2.
Proof. cbn. by destruct (served (effect m c) cs). Qed.
Lemma sample_complete : Forall2 (fun rc r => complete rc.2 r) sample_requests (served map_before sample_requests).2.
Proof.
  unfold sample_requests, sample_calls. cbn [fmap list_fmap]. rewrite !served_cons.
  repeat apply Forall2_cons_2; try apply Forall2_nil_2; cbn [snd].
  all: split; [vm_compute; discriminate|]; first [exact I|vm_compute; reflexivity].
Qed.
Lemma sample_served_answers : sample_served.1 = Ok (served map_before sample_requests).2.
Proof. vm_compute. reflexivity. Qed.
Lemma engine_before_ok : exists ans, engine_before.1 = Ok ans.
Proof. eexists. vm_compute. reflexivity. Qed.


(** ** HTTP transactions *)

#[global] Program Instance sample_uuid : UuidLib := {|
  Uuid := bytes; uuid_from_random b := b; uuid_text b := b; uuid_parse b := Some b
|}.
Next Obligation. done. Qed.

Definition alice : Owner := OwnerToken (lit "id-9").
Definition bob : Owner := OwnerToken (lit "id-2").
(** A second transaction of [alice] is refused, one of [bob] opened after a collision of
    identifiers, and what [bob] stages in the transaction of [alice] is not found. *)
Definition txn_events : list TxnEvent :=
  [ Begun 10 [Some (lit "t1")] alice;
    Staged 11 (lit "t1") alice (ChangePut "default" (lit "cow") (lit "7"));
    Begun 12 [Some (lit "t2")] alice;
    Begun 13 [Some (lit "t1"); Some (lit "t3")] bob;
    Staged 14 (lit "t1") bob (ChangeDelete "default" kb);
    Staged 15 (lit "t1") alice (ChangeDelete "default" ka) ].
Definition txn_start : TxnState := (with_limits 100 1 2, 1).
Definition txn_state : TxnState := tm_run txn_start txn_events.

Example txn_state_entries :
  (fun e => (e.1, at_owner e.2, map_to_list (txn_writes (at_transaction e.2)))) <$> map_to_list (transactions txn_state.1)
  ≡ₚ [ (lit "t1", alice, [(("default"%string, lit "cow"), (lit "7", false)); (("default"%string, ka), ([], true))]);
      (lit "t3", bob, []) ].
Proof. apply (bool_decide_unpack _). vm_compute. exact I. Qed.

Lemma open_transactions_bounded_witness :
  Z.of_nat (size (transactions txn_state.1)) <= 2 /\ owned alice (transactions txn_state.1) <= 1.
Proof.
  destruct (open_transactions_bounded 100 1 2 1 txn_events alice) as (? & ? & _); [lia|lia|]. by split.
Defined.

Definition commit_run := txn_commit_handler 20 admin_request (lit "t1") txn_state engine_before.2.
Definition commit_status (r : outcome (Response * TxnState)) : Z :=
  match r with Ok (r, _) => status r | _ => 0 end.
Example commit_run_status : commit_status commit_run.1 = 200.
Proof. vm_compute. reflexivity. Qed.
Example commit_run_reads :
  ((get_cf "default" (lit "cow") commit_run.2).1, (get_cf "default" ka commit_run.2).1, (get_cf "default" kb commit_run.2).1)
  = (Ok (Some (lit "7")), Ok None, Ok (Some (lit "2"))).
Proof. vm_compute. reflexivity. Qed.

Lemma txn_events_ok : Forall (event_ok "default") txn_events.
Proof.
  unfold txn_events. repeat apply Forall_cons_2; try apply Forall_nil_2; cbn [event_ok change_ok]; try exact I;
    intros _; split_and!; try reflexivity; try done; by apply fits_default.
Qed.

(** After the expiry of the transaction the same commit finds nothing. *)
Lemma commit_writes_what_the_owner_staged_witness :
  (exists u e, owner admin_request Write = inr (at_owner e) /\ uuid_parse (lit "t1") = Some u /\
     opened_by txn_start txn_events u e /\ Z.max 0 (20 - at_created e) < 100) /\
  commit_status (txn_commit_handler 110 admin_request (lit "t1") txn_state engine_before.2).1 = 404.
Proof.
  split; [|vm_compute; reflexivity].
  destruct engine_before_ok as [ans Ha]. pose proof commit_run_status as Hst. unfold commit_run in *.
  revert Ha Hst. destruct engine_before as [o s] eqn:Eb. cbn [fst snd]. intros Ho. subst o.
  destruct (txn_commit_handler 20 admin_request (lit "t1") txn_state s) as [r s'] eqn:Es.
  cbn [fst snd]. destruct r as [[[code body] st]| |]; [|discriminate..]. intros Hr.
  change (code = 200) in Hr. subst code.
  destruct (run_ops_refines (R := True) sample_clock_mono "default" eq_refl _ _ _ _ _
     (refines_new sample_clock_mono "default" eq_refl) before_requests_ok Eb) as [Href _].
  destruct (commit_writes_what_the_owner_staged sample_clock_mono "default" 100 1 2 1 txn_events 20 admin_request (lit "t1")
    s _ _ st s' txn_events_ok Href Es) as (u & e & Ho & Hu & Hopen & Hage & _).
  exists u, e. exact (conj Ho (conj Hu (conj Hopen Hage))).
Defined.

(** ** Refusals *)

Lemma refused_without_effect_witness :
  (handle 10 Degradation.ReadOnly admin_request (PutKey (set_body ka (lit "1"))) engine_before.2).2 = engine_before.2 /\
  (handle 10 Degradation.Normal writer_request (DeleteKey ka) engine_before.2).2 = engine_before.2.
Proof.
  generalize engine_before.2. intros s. split.
  - apply (refused_without_effect 10 Degradation.ReadOnly admin_request (PutKey (set_body ka (lit "1"))) s
             (mkResponse 503 (error_json read_only_msg)) _ eq_refl).
    intros [H|[H|H]]; discriminate H.
  - apply (refused_without_effect 10 Degradation.Normal writer_request (DeleteKey ka) s
             (error_response InsufficientPermissions) _ eq_refl).
    intros [H|[H|H]]; discriminate H.
Defined.
