(* ===== verification/BulkInstances.v ===== *)
(** * BulkInstances: bulk transfers on concrete inputs

    JSON and CSV with strings in which every byte follows a dot, readers of these
    texts, the laws of the formats, and exports and imports of a small engine. *)
From Stdlib Require Import ZArith Lia QArith.
From stdpp Require Import base tactics numbers list gmap strings sorting.
From S2P Require Import Prelude Bytes SortedMap LogRecord Iterators.
From S2P Require Import MemTable Extern Encryption SstBuilder SstReader Wal.
From S2P Require Import Postcard Table Store VersionSet Utf8 Text Engine.
From S2P Require Import EngineSpec Paging BulkIo Instances EngineInstances ApiInstances.
Local Open Scope Z_scope.

(** ** Strings *)

Definition dotted (s : bytes) : bytes := concat ((fun b => [Byte.x2e; b]) <$> s).
Definition quoted (s : bytes) : bytes := quote ++ dotted s ++ quote.

(** The string after its opening quote, and what follows it. *)
Fixpoint read_str (b : bytes) : option (bytes * bytes) :=
  match b with
  | [] => None
  | x :: b =>
      if bool_decide (x = Byte.x22) then Some ([], b)
      else match b with
           | [] => None
           | c :: b => match read_str b with Some (s, r) => Some (c :: s, r) | None => None end
           end
  end.
Lemma read_dotted s r : read_str (dotted s ++ quote ++ r) = Some (s, r).
Proof. induction s as [|c s IH]; [done|]. cbn. unfold dotted, quote in IH. cbn in IH. by rewrite IH. Qed.

Definition expect (pre b : bytes) : option bytes :=
  if starts_with b pre then Some (drop (length pre) b) else None.
Lemma expect_app pre r : expect pre (pre ++ r) = Some r.
Proof.
  unfold expect. rewrite (proj2 (starts_with_spec _ _)) by eauto. by rewrite drop_app_length.
Qed.

(** ** JSON *)

Definition key_field : bytes := lit "{" ++ [Byte.x22] ++ lit "key" ++ [Byte.x22] ++ lit ":" ++ quote.
Definition value_field : bytes := lit "," ++ [Byte.x22] ++ lit "value" ++ [Byte.x22] ++ lit ":" ++ quote.
Definition read_entry (b : bytes) : option ((bytes * bytes) * bytes) :=
  b ← expect key_field b; '(k, b) ← read_str b;
  b ← expect value_field b; '(v, b) ← read_str b;
  b ← expect (lit "}") b; Some ((k, v), b).
Fixpoint read_tail (fuel : nat) (b : bytes) : list (bytes * bytes) * bool :=
  match expect (lit "]") b, fuel with
  | Some _, _ => ([], true)
  | None, O => ([], false)
  | None, S fuel =>
      match expect (lit ",") b ≫= read_entry with
      | Some (e, b) => let '(es, ended) := read_tail fuel b in (e :: es, ended)
      | None => ([], false)
      end
  end.
Definition read_array (b : bytes) : list (bytes * bytes) * bool :=
  match expect (lit "[") b with
  | None => ([], false)
  | Some b =>
      match expect (lit "]") b, read_entry b with
      | Some _, _ => ([], true)
      | None, Some (e, rest) => let '(es, ended) := read_tail (length b) rest in (e :: es, ended)
      | None, None => ([], false)
      end
  end.

#[global] Instance sample_json : JsonCrate := {|
  JsonValue := bytes * bytes; json_string := quoted; json_elements := read_array; json_pair := Some
|}.

Lemma json_entry_shape e :
  json_entry e = key_field ++ dotted e.1 ++ quote ++ value_field ++ dotted e.2 ++ quote ++ lit "}".
Proof. unfold json_entry, key_field, value_field. cbn. unfold quoted. by rewrite <- !(assoc_L app). Qed.
Lemma read_json_entry e r : read_entry (json_entry e ++ r) = Some (e, r).
Proof.
  rewrite json_entry_shape, <- !(assoc_L app). unfold read_entry. rewrite expect_app. cbn [mbind option_bind].
  rewrite read_dotted. cbn [mbind option_bind]. rewrite expect_app. cbn [mbind option_bind].
  rewrite read_dotted. cbn [mbind option_bind]. rewrite expect_app. by destruct e.
Qed.
Lemma read_json_tail fuel es : (length es <= fuel)%nat -> read_tail fuel (json_tail es ++ lit "]") = (es, true).
Proof.
  revert fuel. induction es as [|e es IH]; intros [|fuel] Hf; cbn [json_tail read_tail length] in *; try done; try lia.
  rewrite <- !(assoc_L app). change (expect (lit "]") (lit "," ++ _)) with (@None bytes). cbv iota.
  rewrite expect_app. cbn [mbind option_bind]. rewrite read_json_entry, IH by lia. done.
Qed.
Lemma json_tail_length es : (length es <= length (json_tail es))%nat.
Proof. induction es as [|e es IH]; cbn [json_tail length]; [lia|]. rewrite !length_app. cbn. lia. Qed.

#[global] Instance sample_json_laws : JsonLaws.
Proof.
  split. intros es _. exists es. split; [|done]. cbn [json_elements sample_json]. unfold read_array, json_array.
  rewrite expect_app. destruct es as [|e es]; [done|].
  rewrite <- !(assoc_L app).
  assert (forall r, expect (lit "]") (json_entry e ++ r) = None) as Hno.
  { intros r. by rewrite json_entry_shape. }
  rewrite Hno, read_json_entry, read_json_tail; [done|].
  rewrite !length_app. pose proof (json_tail_length es). lia.
Qed.

(** ** CSV *)

Definition csv_field (s : bytes) : bytes := quoted s.
Definition newline : bytes := [Byte.x0a].
Definition sample_line (fields : list bytes) : bytes := concat (csv_field <$> fields) ++ newline.
Fixpoint read_fields (fuel : nat) (b : bytes) : option (list bytes * bytes) :=
  match expect newline b, fuel with
  | Some b, _ => Some ([], b)
  | None, O => None
  | None, S fuel =>
      b ← expect quote b; '(s, b) ← read_str b; '(ss, b) ← read_fields fuel b; Some (s :: ss, b)
  end.
Fixpoint read_lines (fuel : nat) (b : bytes) : list (option (list bytes)) :=
  match b, fuel with
  | [], _ | _, O => []
  | _, S fuel => match read_fields (length b) b with
                 | Some (fs, b) => Some fs :: read_lines fuel b
                 | None => [None]
                 end
  end.
#[global] Instance sample_csv : CsvCrate := {|
  csv_line := sample_line;
  csv_headers b := match read_lines (length b) b with [] => Some [] | h :: _ => h end;
  csv_records b := tail (read_lines (length b) b);
|}.

Lemma read_csv_fields fuel fs r : (length fs <= fuel)%nat ->
  read_fields fuel (concat (csv_field <$> fs) ++ newline ++ r) = Some (fs, r).
Proof.
  revert fuel. induction fs as [|f fs IH]; intros fuel Hf.
  { destruct fuel; cbn [fmap list_fmap concat app read_fields]; by rewrite expect_app. }
  cbn [length] in Hf. destruct fuel as [|fuel]; [lia|].
  change (concat (csv_field <$> f :: fs)) with ((quote ++ dotted f ++ quote) ++ concat (csv_field <$> fs)).
  rewrite <- !(assoc_L app). cbn [read_fields].
  change (expect newline (quote ++ _)) with (@None bytes). cbv iota. rewrite expect_app. cbn [mbind option_bind].
  rewrite read_dotted. cbn [mbind option_bind]. rewrite IH by lia. done.
Qed.
Lemma fields_length fs : (length fs <= length (concat (csv_field <$> fs)))%nat.
Proof. 
  induction fs as [|f fs IH]; [done|].
  change (concat (csv_field <$> f :: fs)) with ((quote ++ dotted f ++ quote) ++ concat (csv_field <$> fs)).
  rewrite !length_app. cbn [length quote]. lia.
Qed.
Lemma read_csv_lines fuel ls : (length ls <= fuel)%nat -> read_lines fuel (concat (sample_line <$> ls)) = Some <$> ls.
Proof.
  revert fuel. induction ls as [|l ls IH]; intros [|fuel] Hf; cbn [length] in *; try done; try lia.
  change (concat (sample_line <$> l :: ls)) with ((concat (csv_field <$> l) ++ newline) ++ concat (sample_line <$> ls)).
  rewrite <- (assoc_L app). set (text := concat (csv_field <$> l) ++ newline ++ concat (sample_line <$> ls)).
  assert (read_fields (length text) text = Some (l, concat (sample_line <$> ls))) as Hr.
  { apply read_csv_fields. unfold text. rewrite length_app. pose proof (fields_length l). lia. }
  destruct text as [|x text'] eqn:Et; [by destruct l|]. cbn [read_lines]. rewrite Hr. rewrite IH by lia. done.
Qed.
Lemma lines_length ls : (length ls <= length (concat (sample_line <$> ls)))%nat.
Proof. 
  induction ls as [|l ls IH]; [done|].
  change (concat (sample_line <$> l :: ls)) with ((concat (csv_field <$> l) ++ newline) ++ concat (sample_line <$> ls)).
  rewrite !length_app. cbn [length newline]. lia.
Qed.

#[global] Instance sample_csv_laws : CsvLaws.
Proof.
  split. intros header es _ _ text. cbn [csv_headers csv_records sample_csv].
  assert (read_lines (length text) text = Some <$> ((fun e => [e.1; e.2]) <$> header :: es)) as ->
    by (apply read_csv_lines, lines_length).
  split; [done|]. cbn. by rewrite <- list_fmap_compose.
Qed.

(** ** Transfers *)

Definition source_history : list op := [Put ka (lit "1"); Put kb (lit "2"); Flush; Put kc (lit "4")].
Definition source_run := run_ops "default" source_history EngineCore_new.
Definition source_map : gmap bytes bytes := (spec_ops ∅ source_history).1.

Lemma source_history_ok : Forall (op_ok "default") source_history.
Proof.
  unfold source_history. repeat apply Forall_cons_2; try apply Forall_nil_2; cbn [op_ok]; try exact I.
  all: split_and!; try done; try (by left); by apply fits_default.
Qed.

Lemma prefix_free_keys (m : gmap bytes bytes) :
  Forall (fun k => Forall (fun k' => starts_with k' k = true -> k' = k) (map_to_list m).*1) (map_to_list m).*1 ->
  prefix_free m.
Proof.
  intros Hall k k' [v Hv]%elem_of_dom [v' Hv']%elem_of_dom.
  assert (forall k v, m !! k = Some v -> k ∈ (map_to_list m).*1) as Hin.
  { intros k0 v0 Hl%elem_of_map_to_list. by apply (list_elem_of_fmap_2 fst) in Hl. }
  rewrite Forall_forall in Hall. specialize (Hall k (Hin _ _ Hv)). rewrite Forall_forall in Hall.
  exact (Hall k' (Hin _ _ Hv')).
Qed.

#[local] Instance text_entry_dec e : Decision (text_entry e).
Proof. unfold text_entry. apply _. Defined.

Definition source_entries : list (bytes * bytes) := [(ka, lit "1"); (kb, lit "2"); (kc, lit "4")].
Lemma source_map_entries : Forall (fun e => e ∈ source_entries) (map_to_list source_map).
Proof. apply (bool_decide_unpack _). vm_compute. exact I. Qed.
Lemma source_map_Forall (P : bytes * bytes -> Prop) : Forall P source_entries -> map_Forall (fun k v => P (k, v)) source_map.
Proof.
  rewrite Forall_forall. intros HP k v Hl%elem_of_map_to_list. pose proof source_map_entries as Hall.
  rewrite Forall_forall in Hall. by apply HP, Hall.
Qed.

Lemma source_exportable : exportable source_map.
Proof.
  split; [apply prefix_free_keys; apply (bool_decide_unpack _); vm_compute; exact I|].
  apply source_map_Forall. apply (bool_decide_unpack _). vm_compute. exact I.
Qed.
Lemma source_importable : map_Forall (fun k v => importable "default" (k, v)) source_map.
Proof.
  apply (source_map_Forall (importable "default")). unfold source_entries.
  repeat apply Forall_cons_2; try apply Forall_nil_2; (split_and!; [reflexivity|done|by apply fits_default]).
Qed.

Lemma source_run_ok : exists ans, source_run.1 = Ok ans.
Proof. eexists. vm_compute. reflexivity. Qed.

(** The engine after the history stands for its map. *)
Lemma source_refines : refines (R := True) "default" source_run.2 source_map.
Proof.
  destruct source_run_ok as [ans Ha]. revert Ha. destruct source_run as [o s] eqn:Es. cbn [fst snd]. intros Ho. subst o.
  exact (proj1 (run_ops_refines (R := True) sample_clock_mono "default" eq_refl _ _ _ _ _
     (refines_new sample_clock_mono "default" eq_refl) source_history_ok Es)).
Qed.
Lemma target_refines : refines (R := True) "default" engine_before.2 map_before.
Proof.
  destruct engine_before_ok as [ans Ha]. revert Ha. destruct engine_before as [o s] eqn:Es. cbn [fst snd]. intros Ho. subst o.
  exact (proj1 (run_ops_refines (R := True) sample_clock_mono "default" eq_refl _ _ _ _ _
     (refines_new sample_clock_mono "default" eq_refl) before_requests_ok Es)).
Qed.
Lemma source_size : (size source_map < 10)%nat.
Proof. apply (bool_decide_unpack _). vm_compute. exact I. Qed.

(** What an import of the exported text makes of the second engine. *)
Definition reads_after (export : outcome (bytes * list (Z * Z))) (import : bytes -> M (list (Z * Z))) : list (outcome (option bytes)) :=
  match export with
  | Ok (text, _) =>
      match import text engine_before.2 with
      | (Ok _, s) => (fun k => (get_cf "default" k s).1) <$> [ka; kb; kc; lit "__sys"]
      | _ => []
      end
  | _ => []
  end.
Example json_transfer :
  reads_after (export_json 10 None true source_run.2).1 (fun text => import_json text None true)
  = [Ok (Some (lit "1")); Ok (Some (lit "2")); Ok (Some (lit "4")); Ok (Some (lit "9"))].
Proof. vm_compute. reflexivity. Qed.
Example csv_transfer :
  reads_after (export_csv 10 None true source_run.2).1 (fun text => import_csv text None true)
  = [Ok (Some (lit "1")); Ok (Some (lit "2")); Ok (Some (lit "4")); Ok (Some (lit "9"))].
Proof. vm_compute. reflexivity. Qed.

Lemma json_export_import_witness :
  exists text reported s', export_json 10 None true source_run.2 = (Ok (text, reported), s') /\
    refines (R := True) "default" s' source_map /\ text = json_array (sorted_entries source_map) /\
    forall reported' s2', import_json text None true engine_before.2 = (Ok reported', s2') ->
      refines (R := True) "default" s2' (source_map ∪ map_before).
Proof.
  exact (json_export_import 10 sample_clock_mono None None true _ _ _ _ source_refines source_exportable
           source_size target_refines source_importable).
Defined.
Lemma csv_export_import_witness :
  exists text reported s', export_csv 10 None true source_run.2 = (Ok (text, reported), s') /\
    refines (R := True) "default" s' source_map /\
    forall reported' s2', import_csv text None true engine_before.2 = (Ok reported', s2') ->
      refines (R := True) "default" s2' (source_map ∪ map_before).
Proof.
  exact (csv_export_import 10 sample_clock_mono None None true _ _ _ _ source_refines source_exportable
           source_size target_refines source_importable).
Defined.

(** ** Keys an export loses, and one it does not get past *)

Definition collect_entry (a : list (bytes * bytes)) (k v : bytes) : outcome (list (bytes * bytes) * bool) :=
  Ok (a ++ [(k, v)], true).
Definition nested_run := run_ops "default" [Put (lit "a") (lit "1"); Put (lit "b") (lit "2"); Put (lit "ba") (lit "3")] EngineCore_new.

(** A key that extends the last one of a page is skipped. *)
Example export_skips_extensions :
  (pages 2 10 "default" collect_entry None [] nested_run.2).1 = Ok [(lit "a", lit "1"); (lit "b", lit "2")] /\
  (pages 3 10 "default" collect_entry None [] nested_run.2).1
    = Ok [(lit "a", lit "1"); (lit "b", lit "2"); (lit "ba", lit "3")].
Proof. vm_compute. done. Qed.

Definition ff_run := run_ops "default" [Put (lit "a") (lit "1"); Put [Byte.xff] (lit "2")] EngineCore_new.
Definition ff_map : gmap bytes bytes := (spec_ops ∅ [Put (lit "a") (lit "1"); Put [Byte.xff] (lit "2")]).1.
Lemma ff_refines : refines (R := True) "default" ff_run.2 ff_map.
Proof.
  assert (exists ans, ff_run.1 = Ok ans) as [ans Ha] by (eexists; vm_compute; reflexivity).
  revert Ha. destruct ff_run as [o s] eqn:Es. cbn [fst snd]. intros Ho. subst o.
  refine (proj1 (run_ops_refines (R := True) sample_clock_mono "default" eq_refl _ _ _ _ _
     (refines_new sample_clock_mono "default" eq_refl) _ Es)).
  repeat apply Forall_cons_2; try apply Forall_nil_2; cbn [op_ok];
    (split_and!; [reflexivity|discriminate|by apply fits_default|by left]).
Qed.

(** Two entries in pages of two, the last with the key 0xFF. *)
Lemma export_starts_over_on_ff (n : nat) :
  (pages 2 n "default" collect_entry None [] ff_run.2).1 = Panic.
Proof.
  apply (export_starts_over (R := True) sample_clock_mono collect_entry (fun a e => a ++ [e]) 2 n "default" ff_run.2 ff_map 1
           (lit "2") None []).
  - exact ff_refines.
  - lia.
  - reflexivity.
  - vm_compute. reflexivity.
  - vm_compute. reflexivity.
  - intros k [v Hv%elem_of_map_to_list]%elem_of_dom.
    assert (Forall (fun e => bytes_leb (replicate 1 Byte.x00 ++ [Byte.x00]) e.1 = true) (map_to_list ff_map)) as Hall
      by (apply (bool_decide_unpack _); vm_compute; exact I).
    rewrite Forall_forall in Hall. exact (Hall _ Hv).
  - by left.
Defined.
