(* ===== verification/ServerInstances.v ===== *)
(** * ServerInstances: synchronisation, scrubbing, the connection guard, schemas and
    the multi-model layer on concrete inputs *)
From Stdlib Require Import ZArith Lia QArith.
From stdpp Require Import base tactics numbers list gmap strings sorting countable.
From S2P Require Import Prelude Bytes SortedMap LogRecord Iterators.
From S2P Require Import MemTable Extern Encryption Block SstBuilder SstReader Wal.
From S2P Require Import Postcard Table Store VersionSet Utf8 Text Engine EngineSpec.
From S2P Require Import Crdt AccessControl Webhooks Auth Api ApiSpec Sync Scrubber.
From S2P Require Import ConnectionGuard SchemaValidation MultiModel.
From S2P Require Import Instances EngineInstances ApiInstances.
Local Open Scope Z_scope.

(** ** Synchronisation *)

Module Realtime.
#[global] Instance change_eq_dec : EqDecision SyncChange.
Proof. solve_decision. Defined.
#[global] Program Instance change_countable : Countable SyncChange :=
  inj_countable' (fun c => (sc_key c, sc_value c, sc_timestamp c, sc_device_id c))
    (fun '(k, v, t, d) => mkSyncChange k v t d) _.
Next Obligation. by intros []. Qed.
#[global] Instance server_message_eq_dec : EqDecision ServerMessage.
Proof. solve_decision. Defined.
Definition message_sum (m : ServerMessage) : (Z * list SyncChange) + (list SyncChange + bytes) :=
  match m with
  | ServerAck t cs => inl (t, cs)
  | ServerPush cs => inr (inl cs)
  | ServerError e => inr (inr e)
  end.
Definition sum_message (s : (Z * list SyncChange) + (list SyncChange + bytes)) : ServerMessage :=
  match s with
  | inl (t, cs) => ServerAck t cs
  | inr (inl cs) => ServerPush cs
  | inr (inr e) => ServerError e
  end.
#[global] Program Instance server_message_countable : Countable ServerMessage :=
  inj_countable' message_sum sum_message _.
Next Obligation. by intros []. Qed.
#[global] Program Instance sample_sync_json : SyncJson := {|
  server_text m := pos_bytes (countable.encode m);
  server_parse b := countable.decode (bytes_pos b);
  client_parse b := (fun p => ClientPush p.1 p.2) <$> countable.decode (A := list SyncChange * Z) (bytes_pos b);
|}.
Next Obligation. intros m. cbn. by rewrite bytes_pos_bytes, countable.decode_encode. Qed.

Definition phone_token : ApiToken := mkApiToken (lit "id-7") (lit "phone") [] 1 None [Auth.Read; Auth.Write].
Definition shared : Shared := mkShared (Some (mkTokenManager {[ lit "id-7" := phone_token ]} None)) None.
Definition phone : SyncAuthorization := mkSyncAuthorization false (Some (lit "id-7")) false.
Definition revoked : Shared := mkShared (Some (mkTokenManager ∅ None)) None.
Definition change (k v : bytes) (t : Z) : SyncChange := mkSyncChange k v t (lit "phone").

(** A late change loses against an earlier one with a higher timestamp; a push after the
    token was withdrawn is denied. *)
Definition pushes : list push :=
  [ mkPush shared phone [change ka (lit "new") 9; change kc (lit "x") 3] 0;
    mkPush shared phone [change ka (lit "old") 5; change kc (lit "y") 4] 8;
    mkPush revoked phone [change kb (lit "z") 20] 0 ].
Definition sample_pushes := run_pushes pushes SyncManager_new engine_before.2.
Definition pushed : list ServerMessage := match sample_pushes.1 with Ok (rs, _) => rs | _ => [] end.

Definition answer_of (k v : bytes) (t : Z) : SyncChange := mkSyncChange k v t (lit "server").
Example pushed_answers :
  pushed = [ ServerAck 9 [answer_of kc (lit "x") 3; answer_of ka (lit "new") 9];
             ServerAck 5 [answer_of ka (lit "new") 9];
             ServerError denied ].
Proof. vm_compute. reflexivity. Qed.

Lemma pushes_fit : Forall (fun p => Forall change_fits (p_changes p)) pushes.
Proof.
  unfold pushes. repeat apply Forall_cons_2; try apply Forall_nil_2;
    cbn [p_changes]; repeat apply Forall_cons_2; try apply Forall_nil_2; (split; [discriminate|by apply fits_default]).
Qed.


(** The map of winners starts empty with the server: a change older than what the engine
    holds is written over it. *)
Example restart_forgets_timestamps :
  let s1 := (run_pushes [mkPush shared phone [change ka (lit "new") 9] 0] SyncManager_new engine_before.2).2 in
  let s2 := (run_pushes [mkPush shared phone [change ka (lit "old") 5] 0] SyncManager_new s1).2 in
  ((get_cf "default" ka s1).1, (get_cf "default" ka s2).1) = (Ok (Some (lit "new")), Ok (Some (lit "old"))).
Proof. vm_compute. reflexivity. Qed.
End Realtime.

(** ** Connections *)

Module Connections.
Definition addr : bytes := lit "10.0.0.1".
Definition state_of (calls : nat) : IpConnectionGuard * list bytes :=
  Nat.iter calls (fun st => let '(ok, g) := call (Some addr) st.1 in (g, if ok : bool then addr :: st.2 else st.2))
    (IpConnectionGuard_new 2, []).

Lemma state_of_reachable n : rtc guard_step (IpConnectionGuard_new 2, []) (state_of n).
Proof.
  induction n as [|n IH]; [done|]. eapply rtc_r; [exact IH|].
  change (state_of (S n)) with (let '(ok, g) := call (Some addr) (state_of n).1 in
    (g, if ok : bool then addr :: (state_of n).2 else (state_of n).2)).
  clear IH. destruct (state_of n) as [g ps]. destruct (call (Some addr) (g, ps).1) as [ok g'] eqn:E.
  destruct ok; [by apply (step_admit g g' ps (Some addr))|by apply (step_refuse g g' ps (Some addr))].
Qed.

(** Of four requests at once two are admitted; a fifth is refused, and admitted after one
    has ended. *)
Lemma guard_counts_requests_witness :
  (call (Some addr) (state_of 4).1).1 = false /\ (call (Some addr) (release addr (state_of 4).1)).1 = true.
Proof.
  split.
  - apply (guard_counts_requests 2 (state_of 4) (Some addr)); [lia|apply state_of_reachable|]. vm_compute. reflexivity.
  - apply not_false_is_true. intros Hf.
    apply (guard_counts_requests 2 (release addr (state_of 4).1, [addr]) (Some addr)) in Hf; [|lia|].
    + vm_compute in Hf. discriminate Hf.
    + eapply rtc_r; [apply (state_of_reachable 4)|].
      change (state_of 4) with ((state_of 4).1, [] ++ addr :: [addr]). apply step_drop.
Defined.
End Connections.

(** ** Schemas *)

Module Schemas.
#[local] Instance sample_schema : JsonSchema := {|
  JsonDoc := bytes; is_object b := starts_with b (lit "{"); from_slice b := Some b;
  compile s := Some (fun b => len s <=? len b)
|}.
(** The longer prefix decides, though the shorter one would accept. *)
Example longest_prefix :
  let v := (register_schema (lit "user:") (lit "{}") SchemaValidator_new).2 in
  let v := (register_schema (lit "user:admin:") (lit "{long}") v).2 in
  (validate (lit "user:a") (lit "abc") v, validate (lit "user:admin:a") (lit "abc") v, validate (lit "other") (lit "") v)
  = (inr tt, inl (mkValidationError (lit "user:admin:a") Violations), inr tt).
Proof. vm_compute. reflexivity. Qed.
Example schema_must_be_object : (register_schema (lit "k") (lit "1") SchemaValidator_new).1 = false.
Proof. reflexivity. Qed.
End Schemas.

(** ** Models *)

Module Models.
#[local] Instance sample_f64 : F64Lib := {| F64 := bytes; parse_f64 b := match b with [] => None | _ => Some b end |}.
Definition nl : bytes := [Byte.x0a].
Definition store : InMemoryEngine := mkInMemoryEngine (list_to_map
  [ (lit "doc", lit "name=a=b" ++ nl ++ nl ++ lit " age=3 " ++ nl);
    (lit "bad", lit "name");
    (lit "graph/v", lit "person" ++ nl ++ lit "a, b" ++ nl ++ lit "k=v" ++ nl ++ lit "odd" ++ nl);
    (lit "ts/0A", lit "1.5|x"); (lit "ts/2", lit "2"); (lit "ts/ff", lit "3"); (lit "ts/zz", lit "4") ]).
Definition models : MultiModelEngine := with_engine store.

Example documents :
  map_to_list <$> (match query_document (lit "doc") models with inr d => Some d | _ => None end)
    = Some [(lit "name", lit "a=b"); (lit "age", lit "3")] /\
  query_document (lit "bad") models = inl (MalformedLine (lit "name")) /\
  query_document (lit "none") models = inr ∅ /\
  query_document (lit "doc") (set_document_enabled false models) = inl Disabled.
Proof. split_and!; vm_compute; reflexivity. Qed.
Example vertex :
  match query_graph (lit "v") models with
  | inr g => (gv_label g, gv_edges g, map_to_list (gv_properties g))
  | _ => ([], [], [])
  end = (lit "person", [lit "a"; lit "b"], [(lit "k", lit "v")]).
Proof. vm_compute. reflexivity. Qed.
(** The lower bound is exclusive, the upper one inclusive; what cannot be parsed is left out. *)
Example series :
  query_time_series 2 255 models = inr [mkPoint 10 (lit "1.5") (Some (lit "x")); mkPoint 255 (lit "3") None].
Proof. vm_compute. reflexivity. Qed.
End Models.

(** ** Scrubbing *)

Module Scrubbing.
(** The file of the reader's examples, and the file with a byte of its first block changed. *)
Definition damaged_file : bytes := <[20%nat := Byte.xff]> sample_file.

Definition scrub (file : bytes) : ScrubResult := scrub_file_with_encryption "t.sst" (Some file) sample_encryption.
Example sample_scrub : valid (scrub sample_file) = true /\ 0 < total_blocks (scrub sample_file).
Proof. vm_compute. done. Qed.
Example damaged_scrub :
  valid (scrub damaged_file) = false /\ corrupt_blocks (scrub damaged_file) = 1 /\
  (match errors (scrub damaged_file) with [CrcMismatch 8 _ _] => true | _ => false end) = true.
Proof. vm_compute. done. Qed.

Definition damaged_meta : MetaBlock * Encryptor :=
  match metadata_read damaged_file sample_encryption with
  | Ok x => x
  | _ => (mkMetaBlock [] [] [] [] 0 0, Encryptor_disabled)
  end.
Lemma damaged_meta_read : metadata_read damaged_file sample_encryption = Ok (damaged_meta.1, damaged_meta.2).
Proof. vm_compute. reflexivity. Qed.

Lemma scrub_agrees_with_reader_witness :
  verified_blocks (scrub damaged_file) + corrupt_blocks (scrub damaged_file) = len (mb_blocks damaged_meta.1) /\
  forall b, b ∈ mb_blocks damaged_meta.1 -> bad damaged_meta.2 damaged_file b ->
    exists e, read_and_decompress_block (reader_of damaged_meta.1 damaged_meta.2 damaged_file true 5) b = Err e.
Proof.
  destruct (scrub_agrees_with_reader "t.sst" damaged_file sample_encryption damaged_meta.1 damaged_meta.2 true 5
              damaged_meta_read) as (_ & Ht & Hs & _ & _ & Hbad & _).
  split; [|exact Hbad]. unfold scrub. by rewrite Hs, Ht.
Defined.

(** A file without its table, and a table without its file. *)
Definition one_table : VersionSet := add_table (VersionSet_new true) "default" (table_of "a.sst" old_entries).
Example orphans :
  file_path <$> scrub_with_version_set one_table "sst" (Some [("b.sst"%string, []); ("notes.txt"%string, [])])
  = ["b.sst"; "a.sst"]%string.
Proof. vm_compute. reflexivity. Qed.
End Scrubbing.
